(* ===== verification/_CoqProject ===== *)
-Q . S2P
Prelude.v
Codes.v
Varint.v
Wire.v
KV.v
Track.v
Discovery.v
Filter.v
Params.v
Properties.v
RangeFilter.v
Messages.v
Objects.v
Streams.v
Cache.v
FetchRanges.v
FetchServe.v
Ledger.v
Stitch.v
Tokens.v
Session.v
Broker.v
Namespaces.v
NsHandlers.v
Subs.v
TrackTable.v
Fanout.v
FanoutSet.v
Contributors.v
Inflight.v
FetchRouter.v
Candidates.v
Subscribing.v
SubscribeHandler.v
FetchHandler.v
UpstreamPool.v
DatagramWriter.v
Datagrams.v
Demux.v
Admission.v
TrackStatus.v
Publication.v
Forwarding.v
PublishHandler.v
OpenRequests.v
Loc.v
Catalog.v
Uri.v
Handshake.v
