(* ===== verification/Prelude.v ===== *)
(** * moq-go: a verification library for the MoQT transport and relay (root)

    moq-go is a Go implementation of Media over QUIC Transport: a library
    ([pkg/moqt]) that encodes and decodes control messages and media objects and
    runs sessions over QUIC, and a relay ([pkg/relay]) that caches objects and
    answers subscriptions and fetches from the cache and from upstream relays.
    The library below models the program's core logic: everything that turns
    values into bytes and back, the stateful readers and writers of data streams,
    the session's control plane (requests, brokers, tokens, aliases, GOAWAY), the
    relay's object cache and delivery ledger, its track, subscription and
    namespace tables with the discovery store behind them, and the assembly of a
    FETCH response.  All definitions are executable functions translated from the
    Go source; paths are relative to [src/].

    ** Parts and how they interact

    A [Session] reads control frames ([Wire], [Messages]) and accepts request
    streams; a request that passes [AcceptRequest] is handed to the relay, and its
    stream is then read by a [RequestBroker].  Objects arrive and leave on data
    streams ([Streams], over the codecs of [Objects]).  The relay records each
    arriving Object in a track's ledger ([Ledger]) and cache ([Cache]), forwards
    it through the Subgroup's shared writer set ([Contributors], [FanoutSet],
    [Fanout]) to the subscriptions ([Subs]) that the track table ([TrackTable])
    lists, and answers FETCH from cache, ledger, Objects still arriving and
    upstream ([FetchHandler], [FetchRanges], [Stitch], [FetchServe], [Inflight],
    [FetchRouter]).
    Subscribers and publishers reach the track table through their handlers
    ([SubscribeHandler], [PublishHandler], [Forwarding], [TrackStatus]), which subscribe
    on other sessions ([OpenRequests], [UpstreamPool]).  Publishers and namespace
    subscribers meet in the namespace registry ([Namespaces], [NsHandlers]); track and namespace tables advertise
    what they hold in a discovery store ([Discovery]).

    ** Files and the code they model

    - [Prelude]: machine integers, the error values, the result and state monads
      ([result], [M]) with their notations, tactics, hint database [moq] and the
      lemmas shared by every file.
    - [Codes]: [pkg/moqt/errors.go].
    - [Varint]: [pkg/moqt/wire/varint.go].
    - [Wire]: [pkg/moqt/wire/wire.go], [scanner.go], [frame.go].  The Go interface
      [Decoder] is the class [Decoder]; [DecoderLaws] states what its clients rely
      on, with an instance for the buffer reader and one for the stream reader.
    - [KV]: [pkg/moqt/wire/kv.go], [namespace.go].
    - [Track]: [pkg/moqt/track/track.go].
    - [Discovery]: [pkg/relay/discovery/discovery.go], [memory.go].
    - [Filter]: [pkg/moqt/message/location.go], [filter.go].
    - [Params]: [pkg/moqt/message/params.go], [fill.go], [param_scope.go].
    - [Properties]: [pkg/moqt/message/properties.go], [object_properties.go],
      [timeout.go].
    - [RangeFilter]: [pkg/moqt/message/rangefilter.go].
    - [Messages]: [pkg/moqt/message/types.go] and the nineteen control messages.
    - [Objects]: subgroup headers and objects, fetch objects, datagrams
      ([pkg/moqt/message/subgroup.go], [subgroup_object.go], [fetch_object.go],
      [datagram.go], [datastream.go]).
    - [Streams]: [pkg/moqt/session/datastream_in.go], [datastream_out.go],
      [datagram.go].
    - [Cache]: [pkg/relay/cache/cache.go].
    - [FetchRanges]: [pkg/relay/fetch_ranges.go] and the range functions of
      [pkg/relay/handler_fetch.go].
    - [FetchServe]: [streamFetchObjects] of [pkg/relay/handler_fetch.go], against
      the fetch reader of [Streams].
    - [Ledger]: the delivery ledger of [pkg/relay/internal/registry/track_entry.go].
    - [Stitch]: the stitched FETCH of [pkg/relay/handler_fetch.go] and
      [Session.Fetch] of [pkg/moqt/session/fetch.go].
    - [Tokens]: [pkg/moqt/message/token.go], [pkg/moqt/session/token_cache.go],
      [token_verify.go].
    - [Session]: [pkg/moqt/session/session.go], [request.go], [goaway.go],
      [trackalias.go], [control.go], [reserved.go], [track_properties.go].
    - [Broker]: [pkg/moqt/session/broker.go] and the request handles of
      [request.go].
    - [Namespaces]: [pkg/relay/internal/registry/namespace.go],
      [namespace_state.go]; the class [NsAdvertiser] is what the registry asks of a
      discovery store.
    - [NsHandlers]: [pkg/relay/handler_namespace.go].
    - [Subs]: [pkg/relay/internal/registry/subscription.go].
    - [TrackTable]: [pkg/relay/internal/registry/track_registry.go],
      [properties.go], [arrivals.go].

    - [Fanout]: the [subgroupWriter] of [pkg/relay/handler_fanout.go], with the
      queue pool of [subgroup_inbox.go].
    - [FanoutSet]: the [subgroupWriterSet] of [handler_fanout.go],
      [handler_duplicate.go], [resetWriters] of [handler_malformed.go].
    - [Contributors]: [runFanout] of [handler_fanout.go] as a state machine per
      inbound stream, several of them over one set and one ledger.
    - [Inflight]: [pkg/relay/internal/registry/inflight.go].
    - [FetchRouter]: [pkg/relay/internal/registry/fetch_router.go].
    - [Candidates], [Subscribing], [SubscribeHandler]: [pkg/relay/handler_subscribe.go]:
      the one answer made of several failures, the search for an upstream and the
      rendezvous hold, the handler and its REQUEST_UPDATEs.
    - [FetchHandler]: the handler of [pkg/relay/handler_fetch.go], [handler_fill.go] and
      the fetch streams of [session_handler.go].
    - [UpstreamPool]: [pkg/relay/relay_upstream_pool.go], interleaved callers of it.
    - [DatagramWriter]: [pkg/relay/datagram_writer.go]; [Datagrams]:
      [pkg/relay/handler_datagram.go].
    - [Demux]: [pkg/moqt/session/demux.go], [requestmux.go].
    - [Admission]: [pkg/relay/limiter.go], [cachettl.go] and the request loop of
      [session_handler.go].
    - [TrackStatus]: [pkg/relay/handler_track_status.go].
    - [Publication]: [pkg/moqt/session/publish.go], the publishing side.
    - [Forwarding], [PublishHandler]: [pkg/relay/handler_forward.go],
      [handler_publish.go].
    - [OpenRequests]: the asking side of [pkg/moqt/session/request.go],
      [subscribe.go], [namespace.go], [fetch.go], [track_status.go].
    - [Loc]: [pkg/moqt/loc]; [Catalog]: [pkg/moqt/msf]; [Uri]: [pkg/moqt/uri].
    - [Handshake]: [pkg/moqt/session/handshake.go] and the opening of [session.go].

    ** Conventions

    A Go [uint64] is a [Z]; operations that may wrap are written with [u64].  A
    byte slice is a [list Byte.byte]; [go_len] bounds a slice's length by the
    largest Go [int].  A method on a reader is a state function [M S A]; an error
    abandons the state, as the code abandons a reader after an error.  Error
    values keep their wrapping ([errors_Is] is Go's [errors.Is]) but not the
    numbers formatted into their text; a Go run-time panic is the error [Panic],
    exhausted fuel is [OutOfFuel], and [plain] says an error is neither.  Time is
    an argument.  A component guarded by a mutex is modelled as the sequence of
    its operations.

    ** Fuel

    Loops that run until a buffer is empty carry fuel equal to the buffer's
    length: each turn consumes at least one byte.  The theorems about them state
    results for every input ([plain] excludes [OutOfFuel]), so termination is
    part of them.

    ** What the theorems show

    - Codecs: every encoder's output is read back exactly (up to a stated normal
      form: the stable type order of parameters and pairs, fields a type byte
      omits); every accepted input is in range, in normal form, and re-encodes;
      every refusal is an error value of the documented class; truncation is told
      from a clean end of stream.
    - Semantics of filters, scopes, properties and timeouts: the optimised code
      (grouped matching, one-pass property walks) equals a declarative reading.
    - Streams: for arbitrary bytes from the peer, object IDs strictly increase
      and stay in range; a subgroup written by the writer is read back by the
      reader; a stale object is never handed to the transport.
    - Cache: the ring with its index refines a bounded FIFO queue, and range scans
      are exact and in response order.
    - Fetch: [uncovered] is an exact complement, marker coverage is exact in both
      group orders, the assembled elements say at each Location what the relay
      knows, a stitched response skips only what is known absent, and a serialised
      response is decoded to the same elements; a FETCH is answered by the range it asks
      for, and, served to its end, read as the assembled elements its filters let pass.
    - Ledger: no Location is claimed fresh twice, ends and gaps stay consistent,
      and a contradicting end purges exactly the Objects past it.
    - Session: each request is accepted iff it passes every check in order; Request
      IDs are accepted once; aliases and tokens refine finite maps; at most one
      GOAWAY; every Update of a broker is answered once, in order.
    - Relay tables: a subscription is answered by exactly one closing sequence; no
      subscriber is left on a track without upstream; the discovery store holds
      exactly the live tracks and namespaces, and a watcher replays it without gaps.
    - Namespaces: a subscriber's stream announces exactly the namespaces under its
      prefix, the client's broker reconstructs that set, no namespace is announced
      on two streams of a session, and the queue's writer drains it.

    - Fan-out: a Subgroup writer ends; a FIN reaches a subscriber only when it has
      read every Object a cleanly ended upstream delivered that it is owed; no Object
      goes through the set twice, but for a race that is stated and shown.
    - Fetch support: a FETCH waits for exactly the Objects still arriving, and each
      upstream response has one owner, but for a race that is stated and shown.

    - Subscribing: what a subscriber is answered when every source fails does not
      depend on the order of the failures; a hold asks each source once; a registered
      subscription starts at the track's Largest Object at that moment; each
      REQUEST_UPDATE gets one answer; upstreams follow the Forward State wanted.
    - State machines over arbitrary interleavings (upstream pool, datagram writer,
      demultiplexer, publication, forwards, PUBLISH handler, admission): one dial per
      address, every queued datagram sent or dropped and accounted for, every parked
      stream handed over or reset, one PUBLISH_DONE after every stream, one forward of
      a track per subscriber, caps never exceeded and every slot given back.
    - Session ends: a handshake opens a session exactly when both directions and every
      option check pass; a request opened gets an answer or an error of its class.
    - URIs: [CheckPathAndQuery] accepts exactly the RFC 3986 grammar.
    - Media: a LOC chunk is read back, but for the empty fields the code loses; a
      catalog keeps its invariants through delta updates.

    ** Not modelled

    - The process around the relay ([pkg/relay/relay.go], [pause.go]): it starts,
      drains and stops listeners, sessions and timers on goroutines, and decides
      nothing about the protocol that the components above do not.
    - The QUIC and WebTransport adapters and the network front ends: calls into
      packages that are not part of the repository.  Their results are inputs.
    - JSON forms of catalogs and the splitting of URIs, which [encoding/json] and
      [net/url] do; metrics and logging, which no modelled decision reads;
      authorisation callbacks, which are arguments.
    - The commands and examples ([cmd], [examples]): media capture, encoding and
      printing around the library. *)

From stdpp Require Export base list numbers gmap sorting strings.
From Stdlib Require Export Strings.Byte.
From Stdlib Require Export ZArith Lia.

Global Open Scope Z_scope.
Set Default Goal Selector "!".

(** ** Machine integers

    A Go [uint64] is a [Z] in [0 .. 2^64-1]; every arithmetic operation that can
    leave that interval is written with [u64], the wrap-around. *)

Definition MaxUint64 : Z := 18446744073709551615.
Definition u64 (z : Z) : Z := z mod 18446744073709551616.
Definition is_u64 (z : Z) : Prop := 0 <= z <= MaxUint64.
Definition is_u8 (z : Z) : Prop := 0 <= z <= 255.

#[global] Instance is_u64_dec z : Decision (is_u64 z).
Proof. unfold is_u64. apply _. Defined.
#[global] Instance is_u8_dec z : Decision (is_u8 z).
Proof. unfold is_u8. apply _. Defined.

(** [int64] conversion of a [uint64] (Go's [int(n)] on a 64-bit platform). *)
Definition int64_of_u64 (z : Z) : Z := if z <? 2 ^ 63 then z else z - 2 ^ 64.

(** Go's wrap-around of [int64] arithmetic. *)
Definition i64 (z : Z) : Z := (z + 2 ^ 63) mod 2 ^ 64 - 2 ^ 63.

Create HintDb moq.

Ltac u64_unfold := unfold is_u64, is_u8, MaxUint64, u64 in *.
(** Linear arithmetic after opening the width predicates. *)
Ltac zlia := u64_unfold; lia.

(** Close a decidable proposition about concrete data by running its decider. *)
Ltac by_decide :=
  match goal with |- ?P => apply (bool_decide_unpack P); vm_compute; exact I end.

Lemma u64_small z : is_u64 z -> u64 z = z.
Proof. u64_unfold. intros. apply Z.mod_small. lia. Qed.

Lemma u64_range z : is_u64 (u64 z).
Proof. u64_unfold. pose proof (Z.mod_pos_bound z 18446744073709551616). lia. Qed.

(** Adding back a difference taken modulo 2^64. *)
Lemma u64_add_sub a b : is_u64 a -> u64 (b + u64 (a - b)) = a.
Proof.
  u64_unfold. intros Ha. rewrite Zplus_mod_idemp_r.
  replace (b + (a - b)) with a by lia. apply Z.mod_small. lia.
Qed.

Lemma u64_sub_le a b : is_u64 a -> is_u64 b -> b <= a -> u64 (a - b) = a - b.
Proof. intros. apply u64_small. zlia. Qed.

#[export] Hint Resolve u64_range : moq.

(** ** Bytes *)

Abbreviation byte := Byte.byte.
Abbreviation bytes := (list byte).

Definition b2z (b : byte) : Z := Z.of_N (Byte.to_N b).
Definition z2b (z : Z) : byte :=
  match Byte.of_N (Z.to_N (z mod 256)) with Some b => b | None => Byte.x00 end.

Lemma b2z_range b : 0 <= b2z b <= 255.
Proof. unfold b2z. pose proof (Byte.to_N_bounded b). lia. Qed.

Lemma b2z_z2b z : b2z (z2b z) = z mod 256.
Proof.
  unfold z2b, b2z. pose proof (Z.mod_pos_bound z 256 ltac:(lia)) as Hz.
  destruct (Byte.of_N (Z.to_N (z mod 256))) as [b|] eqn:E.
  - apply Byte.to_of_N in E. rewrite E. lia.
  - apply Byte.of_N_None_iff in E. lia.
Qed.

Lemma z2b_b2z b : z2b (b2z b) = b.
Proof.
  unfold z2b. rewrite Z.mod_small by (pose proof (b2z_range b); lia).
  unfold b2z. rewrite N2Z.id. by rewrite Byte.of_to_N.
Qed.

Lemma b2z_z2b_small z : is_u8 z -> b2z (z2b z) = z.
Proof. intros. rewrite b2z_z2b. apply Z.mod_small. zlia. Qed.

Lemma b2z_u8 b : is_u8 (b2z b).
Proof. pose proof (b2z_range b). zlia. Qed.

#[export] Hint Resolve b2z_u8 : moq.

#[global] Instance byte_eq_dec : EqDecision byte.
Proof. intros a b. apply Byte.byte_eq_dec. Defined.

#[global] Program Instance byte_countable : Countable byte :=
  inj_countable' Byte.to_N (fun n => default Byte.x00 (Byte.of_N n)) _.
Next Obligation. intros b. simpl. by rewrite Byte.of_to_N. Qed.

(** Go's [len]: slice lengths are non-negative [int]s. *)
Definition len {A} (l : list A) : Z := Z.of_nat (length l).

Lemma len_nonneg {A} (l : list A) : 0 <= len l.
Proof. unfold len. lia. Qed.
Lemma len_app {A} (l k : list A) : len (l ++ k) = len l + len k.
Proof. unfold len. rewrite length_app. lia. Qed.
Lemma len_cons {A} (x : A) l : len (x :: l) = 1 + len l.
Proof. unfold len. simpl. lia. Qed.
Lemma len_nil {A} : len (@nil A) = 0.
Proof. reflexivity. Qed.
Lemma len_zero {A} (l : list A) : len l = 0 -> l = [].
Proof. destruct l; [done|]. rewrite len_cons. pose proof (len_nonneg l). lia. Qed.

(** A slice that exists in memory has a length that fits a Go [int]. *)
Definition go_len {A} (l : list A) : Prop := len l < 2 ^ 63.
#[global] Instance go_len_dec {A} (l : list A) : Decision (go_len l).
Proof. unfold go_len. apply _. Defined.

Lemma go_len_u64 {A} (l : list A) : go_len l -> is_u64 (len l).
Proof. unfold go_len, is_u64, MaxUint64. pose proof (len_nonneg l). lia. Qed.

#[export] Hint Resolve go_len_u64 len_nonneg : moq.

(** ** Errors and results

    [error] lists the sentinel errors of the packages modelled (the [errors.New]
    variables and error types callers test for) and Go's three ways of building
    one: [Errorf] for a message of its own, [Wrapf] for a [%w], [Wrapf2] for a
    message with two [%w].  The formatted numbers are left out of the text. *)
Inductive error : Type :=
| ErrShortBuffer
| ErrFieldTooLarge
| EOF
| ErrUnexpectedEOF
| StreamReset (code : Z)
| ErrUnknownParameter
| ErrParamTypeOverflow
| ErrUnknownLocationFilterType
| ErrEndGroupOverflow
| ErrInvalidFilter
| ErrMalformedMessage
| ErrUnknownType (t : Z)
| ErrInvalidFetchFlags
| ErrIDOverflow
| ErrMalformedTrack
| ErrValueFormatting
| ErrSession (code : Z)
| ErrParamScope (t scope : Z) (dup : bool)
| ErrObjectIDNotIncreasing
| ErrPaddingStream
| ErrUnknownDataStreamType (t : Z)
| ErrReservedSubgroupIDMode (t : Z)
| ErrDeliveryTimeout
| ErrPublicationEnded
| ErrForwardPaused
| ErrTransport (msg : string)
| ErrMalformedTrackProperties
| ErrUnsupportedMandatoryTrackProperty (t : Z)
| ErrSubscriptionTerminated
| ErrRequestStreamClosed
| ErrClosed
| ErrWithdrawn
| ErrTrackPropertiesNotAllowed
| ErrDuplicateTrackAlias (alias : Z)
| ErrRequestRejected (code : Z) (retry : Z)
| ErrTokenCache (code : Z)
| ErrTokenDenied (code : Z)
| ErrUnexpectedPublishStateNotify
| ErrContextDone
| ErrRequestIDParity (rid : Z)
| ErrDuplicateRequestID (rid : Z)
| ErrUnexpectedRequestUpdate (rid : Z)
| ErrUnexpectedRequestOpener (t : Z)
| ErrTooManyRequestUpdates (limit : Z)
| ErrPeerClosed (code : Z)
| ErrGoingAway
| ErrNoStreamCredit
| Panic
| OutOfFuel
| Errorf (msg : string)
| Wrapf (msg : string) (e : error)
| Wrapf2 (msg : string) (e1 e2 : error).

#[global] Instance error_eq_dec : EqDecision error.
Proof. solve_decision. Defined.

(** [errors.Is(e, target)]: [target] is [e] or something [e] wraps. *)
Fixpoint errors_Is (e target : error) : bool :=
  bool_decide (e = target) ||
  match e with
  | Wrapf _ e' => errors_Is e' target
  | Wrapf2 _ e1 e2 => errors_Is e1 target || errors_Is e2 target
  | _ => false
  end.

(** [errors.AsType] for a rejection, whose code and Retry Interval it carries, and
    for an unknown Mandatory Track Property. *)
Fixpoint as_rejected (e : error) : option (Z * Z) :=
  match e with
  | ErrRequestRejected code retry => Some (code, retry)
  | Wrapf _ e' => as_rejected e'
  | Wrapf2 _ e1 e2 => match as_rejected e1 with Some r => Some r | None => as_rejected e2 end
  | _ => None
  end.
Fixpoint is_unsupported (e : error) : bool :=
  match e with
  | ErrUnsupportedMandatoryTrackProperty _ => true
  | Wrapf _ e' => is_unsupported e'
  | Wrapf2 _ e1 e2 => is_unsupported e1 || is_unsupported e2
  | _ => false
  end.

Inductive result (A : Type) : Type :=
| Ok (a : A)
| Err (e : error).
Arguments Ok {A} _.
Arguments Err {A} _.

#[global] Instance result_ret : MRet result := fun A a => Ok a.
#[global] Instance result_bind : MBind result :=
  fun A B f r => match r with Ok a => f a | Err e => Err e end.
#[global] Instance result_fmap : FMap result :=
  fun A B f r => match r with Ok a => Ok (f a) | Err e => Err e end.

(** [if err != nil { return wrap(err) }]. *)
Definition map_err {A} (f : error -> error) (r : result A) : result A :=
  match r with Ok a => Ok a | Err e => Err (f e) end.

(** A state-passing computation that may fail; an error abandons the state. *)
Definition M (S A : Type) : Type := S -> result (A * S).
#[global] Instance M_ret S : MRet (M S) := fun A a s => Ok (a, s).
#[global] Instance M_bind S : MBind (M S) :=
  fun A B f m s => match m s with Ok (a, s') => f a s' | Err e => Err e end.

Definition fail {S A} (e : error) : M S A := fun _ => Err e.
(** Early return with [e] unless [b]. *)
Definition guard {S} (b : bool) (e : error) : M S unit :=
  fun s => if b then Ok (tt, s) else Err e.
Definition wrap_err {S A} (f : error -> error) (m : M S A) : M S A :=
  fun s => map_err f (m s).

Lemma M_bind_Ok {S A B} (m : M S A) (f : A -> M S B) s a s' :
  m s = Ok (a, s') -> (m ≫= f) s = f a s'.
Proof. unfold mbind, M_bind. by intros ->. Qed.

Lemma M_bind_inv {S A B} (m : M S A) (f : A -> M S B) s r :
  (m ≫= f) s = Ok r -> exists a s', m s = Ok (a, s') /\ f a s' = Ok r.
Proof. unfold mbind, M_bind. destruct (m s) as [[a s']|]; [eauto|done]. Qed.

Lemma M_bind_ext {S A B} (m m' : M S A) (f f' : A -> M S B) s :
  m s = m' s -> (forall a s', m s = Ok (a, s') -> f a s' = f' a s') ->
  (m ≫= f) s = (m' ≫= f') s.
Proof. unfold mbind, M_bind. intros <-. destruct (m s) as [[a s']|]; auto. Qed.

Lemma guard_inv {S} b e (s : S) r : guard b e s = Ok r -> b = true /\ r = (tt, s).
Proof. unfold guard. destruct b; [|done]. by intros [= <-]. Qed.

Lemma wrap_err_inv {S A} f (m : M S A) s r : wrap_err f m s = Ok r -> m s = Ok r.
Proof. unfold wrap_err, map_err. by destruct (m s). Qed.

(** Peel the successful run of a monadic program into its steps. *)
Ltac minv H :=
  lazymatch type of H with
  | mbind (M:=M _) _ _ _ = Ok _ =>
      let a := fresh "a" in let s := fresh "s" in
      let H1 := fresh "H" in
      apply M_bind_inv in H as (a & s & H1 & H)
  | guard _ _ _ = Ok _ =>
      let Hb := fresh "Hb" in apply guard_inv in H as [Hb ?]; simplify_eq
  | wrap_err _ _ _ = Ok _ => apply wrap_err_inv in H
  | mret _ _ = Ok _ => unfold mret, M_ret in H; simplify_eq
  end.

(** Peel every successful run in the context. *)
Ltac mpeel :=
  repeat (match goal with
  | H : mbind (M:=M _) _ _ _ = Ok _ |- _ => minv H
  | H : guard _ _ _ = Ok _ |- _ => minv H
  | H : wrap_err _ _ _ = Ok _ |- _ => minv H
  | H : mret _ _ = Ok _ |- _ => minv H
  end; cbv zeta in * |-).

(** ** The errors a program can return

    [plain] errors are the ones the code itself reports on bad input: not a model
    artefact ([OutOfFuel]), not a Go panic, and not [ErrValueFormatting], which
    the documentation reserves for values built by hand. *)
Definition plain (e : error) : bool :=
  negb (errors_Is e OutOfFuel || errors_Is e Panic || errors_Is e ErrValueFormatting).

Definition plain_errs {S A} (p : M S A) : Prop := forall s e, p s = Err e -> plain e = true.

Lemma plain_bind {S A B} (p : M S A) (f : A -> M S B) :
  plain_errs p -> (forall x, plain_errs (f x)) -> plain_errs (p ≫= f).
Proof.
  intros Hp Hf s e. unfold mbind, M_bind.
  destruct (p s) as [[a s']|e'] eqn:E; [apply Hf|]. intros [= <-]. by eapply Hp.
Qed.

Lemma plain_ret {S A} (x : A) : plain_errs (mret (M:=M S) x).
Proof. done. Qed.

Lemma plain_guard {S} b e : plain e = true -> plain_errs (guard (S:=S) b e).
Proof. intros He s e'. unfold guard. destruct b; congruence. Qed.

Lemma plain_fail {S A} e : plain e = true -> plain_errs (fail (S:=S) (A:=A) e).
Proof. intros He s e'. unfold fail. congruence. Qed.

Lemma plain_Wrapf m e : plain e = true -> plain (Wrapf m e) = true.
Proof. done. Qed.

Lemma plain_wrap {S A} m (p : M S A) : plain_errs p -> plain_errs (wrap_err (Wrapf m) p).
Proof.
  intros Hp s e. unfold wrap_err, map_err. destruct (p s) eqn:E; [done|].
  intros [= <-]. by eapply plain_Wrapf, Hp.
Qed.

Lemma plain_if {S A} (b : bool) (p q : M S A) :
  plain_errs p -> plain_errs q -> plain_errs (if b then p else q).
Proof. by destruct b. Qed.

#[export] Hint Resolve plain_ret plain_wrap : moq.
#[export] Hint Extern 1 (plain_errs (guard _ _)) => apply plain_guard; reflexivity : moq.
#[export] Hint Extern 1 (plain_errs (fail _)) => apply plain_fail; reflexivity : moq.

(** Walk through a program; what each primitive may report is in [moq]. *)
Ltac plain_tac :=
  cbv zeta;
  lazymatch goal with
  | |- plain_errs (mbind _ _) => apply plain_bind; [plain_tac|intros ?; plain_tac]
  | |- plain_errs (wrap_err _ _) => apply plain_wrap; plain_tac
  | |- plain_errs (if _ then _ else _) => apply plain_if; plain_tac
  | |- plain_errs (match ?x with _ => _ end) => destruct x; plain_tac
  | _ => auto with moq
  end.

(** ** [slices.SortStableFunc]

    The library documents the result only: sorted under the comparison, equal
    elements in their original order.  That determines the output; it is
    computed here by stable insertion. [lt a b] is [cmp(a, b) < 0]. *)
Section StableSort.
Context {A : Type} (lt : A -> A -> bool).

Fixpoint insert_stable (x : A) (l : list A) : list A :=
  match l with
  | [] => [x]
  | y :: l' => if lt y x then y :: insert_stable x l' else x :: l
  end.

Definition SortStableFunc (l : list A) : list A := foldr insert_stable [] l.

Definition le (a b : A) : Prop := lt b a = false.

Lemma insert_stable_perm x l : insert_stable x l ≡ₚ x :: l.
Proof.
  induction l as [|y l IH]; simpl; [done|].
  destruct (lt y x); [|done]. rewrite IH. apply Permutation_swap.
Qed.

Lemma sort_stable_perm l : SortStableFunc l ≡ₚ l.
Proof.
  induction l as [|x l IH]; simpl; [done|].
  rewrite insert_stable_perm. by f_equiv.
Qed.

Lemma sort_stable_length l : length (SortStableFunc l) = length l.
Proof. by rewrite sort_stable_perm. Qed.

(** A list already in order is left alone. *)
Lemma sort_stable_id l : StronglySorted le l -> SortStableFunc l = l.
Proof.
  induction 1 as [|x l Hs IH Hx]; simpl; [done|]. rewrite IH.
  destruct Hx as [|y l Hy]; simpl; [done|]. by rewrite Hy.
Qed.

Context (lt_trans : forall a b c, le a b -> le b c -> le a c).
Context (lt_total : forall a b, lt a b = true -> le a b).

Lemma insert_stable_sorted x l :
  StronglySorted le l -> StronglySorted le (insert_stable x l).
Proof.
  induction 1 as [|y l Hs IH Hy]; simpl; [by repeat constructor|].
  destruct (lt y x) eqn:E.
  - constructor; [done|]. rewrite insert_stable_perm. constructor; auto.
  - constructor; [by constructor|]. constructor; [done|].
    eapply Forall_impl; [exact Hy|]. intros z Hz. by apply lt_trans with y.
Qed.

Lemma sort_stable_sorted l : StronglySorted le (SortStableFunc l).
Proof. induction l; simpl; [constructor|]. by apply insert_stable_sorted. Qed.

(** Elements that compare equal keep their order: selecting a class that the
    comparison cannot tell apart commutes with sorting. *)
Lemma insert_stable_filter (P : A -> Prop) `{!forall a, Decision (P a)} x l :
  (forall a b, P a -> P b -> lt a b = false) ->
  StronglySorted le l ->
  filter P (insert_stable x l) = filter P (x :: l).
Proof.
  intros HP. induction 1 as [|y l Hs IH Hy]; simpl; [done|].
  destruct (lt y x) eqn:E; [|done].
  rewrite filter_cons. rewrite IH. rewrite !filter_cons.
  destruct (decide (P y)), (decide (P x)); try done.
  exfalso. rewrite (HP y x) in E; done.
Qed.

Lemma sort_stable_filter (P : A -> Prop) `{!forall a, Decision (P a)} l :
  (forall a b, P a -> P b -> lt a b = false) ->
  filter P (SortStableFunc l) = filter P l.
Proof.
  intros HP. induction l as [|x l IH]; simpl; [done|].
  rewrite insert_stable_filter by (done || apply sort_stable_sorted).
  rewrite !filter_cons. by rewrite IH.
Qed.
End StableSort.

Lemma existsb_ext_in {A} (f g : A -> bool) l :
  (forall x, x ∈ l -> f x = g x) -> existsb f l = existsb g l.
Proof.
  induction l as [|x l IH]; intros Hfg; simpl; [done|]. f_equal.
  - apply Hfg. by apply elem_of_cons; left.
  - apply IH. intros y Hy. apply Hfg. by apply elem_of_cons; right.
Qed.

(** A list splits, up to order, along the classes of a key. *)
Lemma filter_classes {A} (key : A -> Z) ids : forall l, NoDup ids ->
  (forall x, x ∈ l -> key x ∈ ids) ->
  mjoin ((fun i => filter (fun x => key x = i) l) <$> ids) ≡ₚ l.
Proof.
  induction ids as [|i ids IH]; intros l Hn Hin; simpl.
  { destruct l as [|x l]; [done|]. specialize (Hin x ltac:(constructor)).
    by apply elem_of_nil in Hin. }
  apply NoDup_cons in Hn as [Hni Hn].
  transitivity (filter (fun x => key x = i) l ++ filter (fun x => key x <> i) l);
    [|by rewrite filter_app_complement].
  f_equiv.
  set (k := filter (fun x => key x <> i) l).
  transitivity (mjoin ((fun j => filter (fun x => key x = j) k) <$> ids)).
  - apply reflexive_eq. f_equal. apply list_fmap_ext. intros j y Hj.
    unfold k. rewrite list_filter_filter. apply list_filter_iff. intros x.
    split; [|tauto]. intros E. split; [done|]. intros E'.
    apply Hni. rewrite <- E', E. by apply list_elem_of_lookup_2 in Hj.
  - apply IH; [done|]. intros x Hx. apply list_elem_of_filter in Hx as [Hne Hx].
    apply Hin in Hx. apply elem_of_cons in Hx as [?|?]; done.
Qed.

Lemma filter_none {A} (P : A -> Prop) `{!forall a, Decision (P a)} l :
  (forall x, x ∈ l -> ~ P x) -> filter P l = [].
Proof.
  induction l as [|x l IH]; intros Hn; [done|]. rewrite filter_cons, decide_False.
  - apply IH. intros y Hy. apply Hn. by apply elem_of_cons; right.
  - apply Hn. by apply elem_of_cons; left.
Qed.

(** Sorting by an integer key ([cmp.Compare] on a field). *)
Definition by_key {A} (key : A -> Z) (a b : A) : bool := key a <? key b.

Lemma by_key_trans {A} (key : A -> Z) a b c :
  le (by_key key) a b -> le (by_key key) b c -> le (by_key key) a c.
Proof. unfold le, by_key. rewrite !Z.ltb_ge. lia. Qed.

Lemma by_key_total {A} (key : A -> Z) a b :
  by_key key a b = true -> le (by_key key) a b.
Proof. unfold le, by_key. rewrite Z.ltb_ge, Z.ltb_lt. lia. Qed.

Lemma sort_by_key_sorted {A} (key : A -> Z) l :
  StronglySorted (le (by_key key)) (SortStableFunc (by_key key) l).
Proof.
  apply sort_stable_sorted; eauto using by_key_trans, by_key_total.
Qed.

#[export] Hint Resolve sort_by_key_sorted : moq.

Lemma sorted_weaken {A} (R R' : A -> A -> Prop) l :
  (forall a b, R a b -> R' a b) -> StronglySorted R l -> StronglySorted R' l.
Proof.
  intros HR. induction 1 as [|x l _ IH Hx]; constructor; [done|].
  eapply Forall_impl; [exact Hx|auto].
Qed.

Lemma sort_by_key_le {A} (key : A -> Z) l :
  StronglySorted (fun a b => key a <= key b) (SortStableFunc (by_key key) l).
Proof.
  eapply sorted_weaken; [|apply sort_by_key_sorted].
  intros a b. unfold le, by_key. apply Z.ltb_ge.
Qed.
