(* ===== verification/Codes.v ===== *)
(** * Codes: the error and status codes of [pkg/moqt/errors.go]

    The four code spaces of the draft (section 12): session termination,
    REQUEST_ERROR, PUBLISH_DONE and stream resets.  Each is a Go [uint64] type of
    its own; here they are [Z] constants with the source's names. *)

From S2P Require Import Prelude.

(** ** Session termination (12.2) *)

Definition SessionNoError : Z := 0.
Definition SessionInternalError : Z := 1.
Definition SessionUnauthorized : Z := 2.
Definition SessionProtocolViolation : Z := 3.
Definition SessionInvalidRequestID : Z := 4.
Definition SessionDuplicateTrackAlias : Z := 5.
Definition SessionKeyValueFormattingError : Z := 6.
Definition SessionInvalidPath : Z := 8.
Definition SessionMalformedPath : Z := 9.
Definition SessionGoawayTimeout : Z := 16.
Definition SessionControlMessageTimeout : Z := 17.
Definition SessionDataStreamTimeout : Z := 18.
Definition SessionAuthTokenCacheOverflow : Z := 19.
Definition SessionDuplicateAuthTokenAlias : Z := 20.
Definition SessionMalformedAuthToken : Z := 22.
Definition SessionUnknownAuthTokenAlias : Z := 23.
Definition SessionExpiredAuthToken : Z := 24.
Definition SessionInvalidAuthority : Z := 25.
Definition SessionMalformedAuthority : Z := 26.
Definition SessionTooManyRequestUpdates : Z := 27.

(** ** REQUEST_ERROR (12.3) *)

Definition RequestInternalError : Z := 0.
Definition RequestUnauthorized : Z := 1.
Definition RequestTimeout : Z := 2.
Definition RequestNotSupported : Z := 3.
Definition RequestMalformedAuthToken : Z := 4.
Definition RequestExpiredAuthToken : Z := 5.
Definition RequestGoingAway : Z := 6.
Definition RequestExcessiveLoad : Z := 9.
Definition RequestDoesNotExist : Z := 16.
Definition RequestInvalidRange : Z := 17.
Definition RequestMalformedTrack : Z := 18.
Definition RequestUninterested : Z := 32.
Definition RequestPrefixOverlap : Z := 48.
Definition RequestNamespaceTooLarge : Z := 49.
Definition RequestUnsupportedExtension : Z := 51.
Definition RequestRedirect : Z := 52.
Definition RequestInvalidFilter : Z := 54.

(** ** PUBLISH_DONE (12.4) *)

Definition PublishDoneInternalError : Z := 0.
Definition PublishDoneUnauthorized : Z := 1.
Definition PublishDoneTrackEnded : Z := 2.
Definition PublishDoneGoingAway : Z := 4.
Definition PublishDoneTooFarBehind : Z := 5.
Definition PublishDoneExpired : Z := 6.
Definition PublishDoneUpdateFailed : Z := 8.
Definition PublishDoneExcessiveLoad : Z := 9.
Definition PublishDoneMalformedTrack : Z := 18.

(** ** Stream resets (12.5) *)

Definition StreamResetInternalError : Z := 0.
Definition StreamResetCancelled : Z := 1.
Definition StreamResetDeliveryTimeout : Z := 2.
Definition StreamResetSessionClosed : Z := 3.
Definition StreamResetGoingAway : Z := 4.
Definition StreamResetTooFarBehind : Z := 5.
Definition StreamResetUnknownObjectStatus : Z := 6.
Definition StreamResetExpiredAuthToken : Z := 7.
Definition StreamResetExcessiveLoad : Z := 9.
Definition StreamResetMalformedTrack : Z := 18.
