(* ===== verification/Varint.v ===== *)
(** * Varint: the leading-ones integers of [pkg/moqt/wire/varint.go]

    [VarintLen], [AppendVarint], [ParseVarint] and [ReadVarint], with the
    [encoding/binary] and [math/bits] routines they call.  The lemmas reduce the
    bit operations to arithmetic on big-endian byte strings; the theorems are the
    round trip, the bounds of every accepted encoding and the minimality of the
    encoder. *)

From S2P Require Import Prelude.

(** ** [encoding/binary.BigEndian] and [math/bits] *)

(** The low [n] bytes of [v], most significant first. *)
Fixpoint be_bytes (n : nat) (v : Z) : bytes :=
  match n with
  | O => []
  | S n' => z2b (Z.shiftr v (8 * Z.of_nat n')) :: be_bytes n' v
  end.

(** [binary.BigEndian.PutUint64] / [AppendUint64]. *)
Definition PutUint64 (v : Z) : bytes := be_bytes 8 v.

(** One step of [v = v<<8 | uint64(b)]. *)
Definition be_step (v : Z) (b : byte) : Z := Z.lor (u64 (Z.shiftl v 8)) (b2z b).
Definition be_fold (acc : Z) (l : bytes) : Z := fold_left be_step l acc.

(** [binary.BigEndian.Uint64] of an 8-byte slice. *)
Definition Uint64 (b : bytes) : Z := be_fold 0 b.

(** [bits.LeadingZeros8]. *)
Definition LeadingZeros8 (x : Z) : Z := 8 - (if x =? 0 then 0 else Z.log2 x + 1).

(** ** The codec *)

Definition VarintLen (v : Z) : Z :=
  if v <? Z.shiftl 1 7 then 1
  else if v <? Z.shiftl 1 14 then 2
  else if v <? Z.shiftl 1 21 then 3
  else if v <? Z.shiftl 1 28 then 4
  else if v <? Z.shiftl 1 35 then 5
  else if v <? Z.shiftl 1 42 then 6
  else if v <? Z.shiftl 1 49 then 7
  else if v <? Z.shiftl 1 56 then 8
  else 9.

(** [out[0] |= ^(byte(0xFF) >> (n - 1))], the complement taken on 8 bits. *)
Definition or_prefix (n : Z) (out : bytes) : bytes :=
  match out with
  | [] => []
  | b :: out' => z2b (Z.lor (b2z b) (Z.lxor (Z.shiftr 255 (n - 1)) 255)) :: out'
  end.

Definition AppendVarint (dst : bytes) (v : Z) : bytes :=
  let n := VarintLen v in
  if n =? 9 then dst ++ [Byte.xff] ++ PutUint64 v
  else
    let buf := PutUint64 v in
    let out := drop (Z.to_nat (8 - n)) buf in
    dst ++ or_prefix n out.

Definition varintLenFromFirst (first : byte) : Z :=
  let ones := LeadingZeros8 (Z.lxor (b2z first) 255) in
  if ones =? 8 then 9 else ones + 1.

Definition ParseVarint (b : bytes) : result (Z * Z) :=
  match b with
  | [] => Err ErrShortBuffer
  | b0 :: tl =>
      let n := varintLenFromFirst b0 in
      if len b <? n then Err ErrShortBuffer
      else if n =? 9 then Ok (Uint64 (take 8 tl), 9)
      else
        let v := Z.land (b2z b0) (Z.shiftr 255 n) in
        Ok (be_fold v (take (Z.to_nat (n - 1)) tl), n)
  end.

(** ** Streams

    What a parser sees of an [io.Reader] over a QUIC stream: the bytes still to
    arrive and how the stream ends, a FIN or a reset. *)
Inductive StreamEnd : Type :=
| Fin
| Reset (code : Z).

Record Stream : Type := MkStream { sbytes : bytes; send : StreamEnd }.

Definition end_error (e : StreamEnd) : error :=
  match e with Fin => EOF | Reset c => StreamReset c end.

(** [ReadByte] of a buffered reader, and of [byteReaderAdapter], whose one-byte
    [io.ReadFull] reports the same errors. *)
Definition ReadByte : M Stream byte := fun s =>
  match sbytes s with
  | b :: t => Ok (b, MkStream t (send s))
  | [] => Err (end_error (send s))
  end.

(** [io.ReadFull] into a buffer of [n] bytes. *)
Definition ReadFull (n : nat) : M Stream bytes := fun s =>
  if (length (sbytes s) <? n)%nat then
    Err (match sbytes s, send s with
         | _ :: _, Fin => ErrUnexpectedEOF
         | _, e => end_error e
         end)
  else Ok (take n (sbytes s), MkStream (drop n (sbytes s)) (send s)).

(** A bare EOF after the first byte is a truncation. *)
Definition unexpected (e : error) : error :=
  if errors_Is e EOF then ErrUnexpectedEOF else e.

(** The loop of [ReadVarint] filling [rest[i]]. *)
Fixpoint read_rest (k : nat) : M Stream bytes :=
  match k with
  | O => mret []
  | S k' => b ← wrap_err unexpected ReadByte; t ← read_rest k'; mret (b :: t)
  end.

Definition ReadVarint : M Stream Z :=
  first ← ReadByte;
  let n := varintLenFromFirst first in
  if n =? 1 then mret (b2z first)
  else
    rest ← read_rest (Z.to_nat (n - 1));
    if n =? 9 then mret (Uint64 (take 8 rest))
    else mret (be_fold (Z.land (b2z first) (Z.shiftr 255 n)) rest).

(** ** Big-endian strings as numbers *)

Fixpoint be_val (l : bytes) : Z :=
  match l with
  | [] => 0
  | b :: l' => b2z b * 256 ^ Z.of_nat (length l') + be_val l'
  end.

Lemma pow256_S n : 256 ^ Z.of_nat (S n) = 256 * 256 ^ Z.of_nat n.
Proof. rewrite Nat2Z.inj_succ, Z.pow_succ_r; lia. Qed.

Lemma pow256_pos n : 0 < 256 ^ Z.of_nat n.
Proof. apply Z.pow_pos_nonneg; lia. Qed.

Lemma be_val_range l : 0 <= be_val l < 256 ^ Z.of_nat (length l).
Proof.
  induction l as [|b l IH]; simpl length; [simpl; lia|].
  cbn [be_val]. rewrite pow256_S. pose proof (b2z_range b). nia.
Qed.

Lemma lor_shiftl_add v b : 0 <= b < 256 -> Z.lor (Z.shiftl v 8) b = v * 256 + b.
Proof.
  intros Hb.
  assert (Hl : Z.land (Z.shiftl v 8) b = 0).
  { apply Z.bits_inj'. intros i Hi. rewrite Z.land_spec, Z.bits_0.
    destruct (Z.lt_ge_cases i 8).
    - by rewrite Z.shiftl_spec_low.
    - rewrite (Z.bits_above_log2 b i); [apply andb_false_r|lia|].
      destruct (Z.eq_dec b 0) as [->|]; [simpl; lia|].
      apply Z.log2_lt_pow2; [lia|]. eapply Z.lt_le_trans; [apply Hb|].
      change 256 with (2 ^ 8). apply Z.pow_le_mono_r; lia. }
  rewrite <- Z.lxor_lor by done. rewrite <- Z.add_nocarry_lxor by done.
  rewrite Z.shiftl_mul_pow2 by lia. lia.
Qed.

Lemma be_step_arith v b : 0 <= v < 2 ^ 56 -> be_step v b = v * 256 + b2z b.
Proof.
  intros Hv. unfold be_step. rewrite u64_small.
  - apply lor_shiftl_add. pose proof (b2z_range b). lia.
  - rewrite Z.shiftl_mul_pow2 by lia. zlia.
Qed.

Lemma be_fold_arith l : forall acc, 0 <= acc ->
  (acc + 1) * 256 ^ Z.of_nat (length l) <= 2 ^ 64 ->
  be_fold acc l = acc * 256 ^ Z.of_nat (length l) + be_val l.
Proof.
  induction l as [|b l IH]; intros acc Ha Hb.
  { simpl in *. lia. }
  change (be_fold acc (b :: l)) with (be_fold (be_step acc b) l).
  simpl length in Hb |- *. rewrite pow256_S in *. pose proof (b2z_range b).
  pose proof (pow256_pos (length l)).
  rewrite be_step_arith by nia. rewrite IH by nia. cbn [be_val]. nia.
Qed.

Lemma be_bytes_length n v : length (be_bytes n v) = n.
Proof. induction n; simpl; congruence. Qed.

Lemma pow256_pow2 n : 256 ^ Z.of_nat n = 2 ^ (8 * Z.of_nat n).
Proof. change 256 with (2 ^ 8). rewrite <- Z.pow_mul_r; lia. Qed.

Lemma be_val_be_bytes n v : 0 <= v -> be_val (be_bytes n v) = v mod 256 ^ Z.of_nat n.
Proof.
  intros Hv. induction n as [|n IH]; [by rewrite Z.mod_1_r|].
  cbn [be_bytes be_val]. rewrite IH, be_bytes_length, b2z_z2b.
  rewrite pow256_S, (Z.mul_comm 256), Z.rem_mul_r by (pose proof (pow256_pos n); lia).
  rewrite Z.shiftr_div_pow2, <- pow256_pow2 by lia. lia.
Qed.

Lemma be_bytes_drop k n v : drop k (be_bytes (k + n) v) = be_bytes n v.
Proof. induction k; simpl; done. Qed.

(** ** The length of an encoding *)

Lemma VarintLen_spec v : 0 <= v ->
  let n := VarintLen v in
  1 <= n <= 9 /\ (n <= 8 -> v < 2 ^ (7 * n)) /\ (1 < n -> 2 ^ (7 * (n - 1)) <= v).
Proof.
  intros Hv. unfold VarintLen. rewrite !Z.shiftl_mul_pow2 by lia. cbv zeta.
  repeat (case_match; [lia|]). lia.
Qed.

Lemma VarintLen_mono a b : 0 <= a <= b -> VarintLen a <= VarintLen b.
Proof.
  intros H. destruct (VarintLen_spec a) as (Ha & _ & La); [lia|].
  destruct (VarintLen_spec b) as (Hb & Ub & _); [lia|].
  destruct (Z.le_gt_cases (VarintLen a) (VarintLen b)) as [|Hlt]; [done|].
  specialize (La ltac:(lia)). specialize (Ub ltac:(lia)).
  pose proof (Z.pow_le_mono_r 2 (7 * VarintLen b) (7 * (VarintLen a - 1))). lia.
Qed.

(** ** The first byte *)

(** Every prefix byte the encoder can emit, checked by computation: [n - 1]
    leading ones, a zero and the top [8 - n] bits [h] of the value. *)
Definition prefix_ok (n h : Z) : bool :=
  let b := z2b (Z.lor h (Z.lxor (Z.shiftr 255 (n - 1)) 255)) in
  (varintLenFromFirst b =? n) && (Z.land (b2z b) (Z.shiftr 255 n) =? h).

Lemma prefix_table n h : 1 <= n <= 8 -> 0 <= h < 2 ^ (8 - n) -> prefix_ok n h = true.
Proof.
  intros Hn Hh.
  assert (T : forallb (fun n => forallb (prefix_ok n) (seqZ 0 (2 ^ (8 - n)))) (seqZ 1 8) = true)
    by (vm_compute; reflexivity).
  rewrite forallb_forall in T. specialize (T n).
  rewrite <- list_elem_of_In, elem_of_seqZ in T. specialize (T ltac:(lia)).
  rewrite forallb_forall in T. apply T.
  rewrite <- list_elem_of_In, elem_of_seqZ. lia.
Qed.

Lemma first_byte_range b :
  let n := varintLenFromFirst b in
  1 <= n <= 9 /\
  (n <= 8 -> 0 <= Z.land (b2z b) (Z.shiftr 255 n) < 2 ^ (8 - n)) /\
  (n = 1 -> Z.land (b2z b) (Z.shiftr 255 n) = b2z b).
Proof. destruct b; vm_compute; intuition congruence. Qed.

(** The shape of the encoder's output. *)
Lemma AppendVarint_app dst v : AppendVarint dst v = dst ++ AppendVarint [] v.
Proof. unfold AppendVarint. by destruct (VarintLen v =? 9). Qed.

Lemma AppendVarint_shape v : is_u64 v -> VarintLen v <= 8 ->
  exists b0, AppendVarint [] v = b0 :: be_bytes (Z.to_nat (VarintLen v - 1)) v /\
    varintLenFromFirst b0 = VarintLen v /\
    Z.land (b2z b0) (Z.shiftr 255 (VarintLen v)) =
      v / 2 ^ (8 * (VarintLen v - 1)).
Proof.
  intros Hv Hn. destruct (VarintLen_spec v) as (Hr & Hu & _); [zlia|].
  specialize (Hu Hn). set (n := VarintLen v) in *.
  unfold AppendVarint. fold n. destruct (Z.eqb_spec n 9); [lia|]. cbn [app].
  set (h := v / 2 ^ (8 * (n - 1))).
  assert (Hp : 0 < 2 ^ (8 * (n - 1))) by (apply Z.pow_pos_nonneg; lia).
  assert (Hh : 0 <= h < 2 ^ (8 - n)).
  { split; [apply Z.div_pos; zlia|]. apply Z.div_lt_upper_bound; [lia|].
    rewrite <- Z.pow_add_r by lia. by replace (8 * (n - 1) + (8 - n)) with (7 * n) by lia. }
  unfold PutUint64.
  replace 8%nat with (Z.to_nat (8 - n) + S (Z.to_nat (n - 1)))%nat by lia.
  rewrite be_bytes_drop. cbn [be_bytes or_prefix].
  rewrite b2z_z2b, Z.shiftr_div_pow2 by lia.
  replace (8 * Z.of_nat (Z.to_nat (n - 1))) with (8 * (n - 1)) by lia. fold h.
  assert (h < 256).
  { eapply Z.lt_le_trans; [apply Hh|]. change 256 with (2 ^ 8).
    apply Z.pow_le_mono_r; lia. }
  rewrite (Z.mod_small h) by lia.
  pose proof (prefix_table n h ltac:(lia) Hh) as Ht.
  unfold prefix_ok in Ht. apply andb_true_iff in Ht as [Ht1 Ht2].
  apply Z.eqb_eq in Ht1, Ht2. eauto.
Qed.

Lemma AppendVarint_9 v : VarintLen v = 9 -> AppendVarint [] v = Byte.xff :: be_bytes 8 v.
Proof. intros H. unfold AppendVarint. by rewrite H. Qed.

Lemma AppendVarint_len v : is_u64 v -> len (AppendVarint [] v) = VarintLen v.
Proof.
  intros Hv. destruct (VarintLen_spec v) as (Hr & _ & _); [zlia|].
  destruct (decide (VarintLen v = 9)) as [E|E].
  - rewrite AppendVarint_9 by done. rewrite len_cons. unfold len.
    rewrite be_bytes_length. lia.
  - destruct (AppendVarint_shape v) as (b0 & -> & _ & _); [done|lia|].
    rewrite len_cons. unfold len. rewrite be_bytes_length. lia.
Qed.

Lemma be_fold_be_bytes acc n v : is_u64 v -> 0 <= acc ->
  (acc + 1) * 256 ^ Z.of_nat n <= 2 ^ 64 ->
  be_fold acc (be_bytes n v) = acc * 256 ^ Z.of_nat n + v mod 256 ^ Z.of_nat n.
Proof.
  intros. rewrite be_fold_arith; rewrite ?be_bytes_length; [|lia|lia].
  rewrite be_val_be_bytes by zlia. done.
Qed.

Lemma Uint64_be_bytes v : is_u64 v -> Uint64 (be_bytes 8 v) = v.
Proof.
  intros. unfold Uint64. rewrite be_fold_be_bytes; [|done|lia|simpl; lia].
  rewrite Z.mod_small; [lia|]. change (256 ^ Z.of_nat 8) with (2 ^ 64). zlia.
Qed.

(** The bytes after the first byte rebuild the value. *)
Lemma be_fold_tail v : is_u64 v -> VarintLen v <= 8 ->
  be_fold (v / 2 ^ (8 * (VarintLen v - 1))) (be_bytes (Z.to_nat (VarintLen v - 1)) v) = v.
Proof.
  intros Hv Hn. destruct (VarintLen_spec v) as (Hr & Hu & _); [zlia|].
  specialize (Hu Hn). set (n := VarintLen v) in *.
  assert (E : 256 ^ Z.of_nat (Z.to_nat (n - 1)) = 2 ^ (8 * (n - 1)))
    by (rewrite pow256_pow2; f_equal; lia).
  assert (Hp : 0 < 2 ^ (8 * (n - 1))) by (apply Z.pow_pos_nonneg; lia).
  pose proof (Z.div_mod v (2 ^ (8 * (n - 1))) ltac:(lia)).
  pose proof (Z.mod_pos_bound v (2 ^ (8 * (n - 1))) ltac:(lia)).
  assert (v < 2 ^ 56).
  { eapply Z.lt_le_trans; [exact Hu|]. apply Z.pow_le_mono_r; lia. }
  assert (2 ^ (8 * (n - 1)) <= 2 ^ 56) by (apply Z.pow_le_mono_r; lia).
  rewrite be_fold_be_bytes, E; [lia|done|apply Z.div_pos; zlia|].
  rewrite E. nia.
Qed.

(** ** Decoding *)

Lemma parse_append v rest : is_u64 v ->
  ParseVarint (AppendVarint [] v ++ rest) = Ok (v, VarintLen v).
Proof.
  intros Hv. destruct (VarintLen_spec v) as (Hr & _ & _); [zlia|].
  destruct (decide (VarintLen v = 9)) as [E|E].
  - rewrite AppendVarint_9 by done. cbn [app ParseVarint].
    change (varintLenFromFirst Byte.xff) with 9.
    destruct (Z.ltb_spec (len (Byte.xff :: be_bytes 8 v ++ rest)) 9) as [Hl|_].
    { rewrite len_cons, len_app in Hl. unfold len in Hl.
      rewrite be_bytes_length in Hl. lia. }
    simpl Z.eqb. cbv iota.
    rewrite take_app_length' by (by rewrite be_bytes_length).
    by rewrite Uint64_be_bytes, E.
  - destruct (AppendVarint_shape v) as (b0 & Heq & Hf & Hm); [done|lia|].
    rewrite Heq. cbn [app ParseVarint]. rewrite Hf, Hm.
    set (t := be_bytes _ v).
    assert (Ht : length t = Z.to_nat (VarintLen v - 1)) by apply be_bytes_length.
    destruct (Z.ltb_spec (len (b0 :: t ++ rest)) (VarintLen v)) as [Hl|_].
    { rewrite len_cons, len_app in Hl. unfold len in Hl. lia. }
    destruct (Z.eqb_spec (VarintLen v) 9); [done|].
    rewrite take_app_length' by done. unfold t. rewrite be_fold_tail; [done|done|lia].
Qed.

Lemma parse_varint_inv b v n : ParseVarint b = Ok (v, n) ->
  exists b0 tl, b = b0 :: tl /\ n = varintLenFromFirst b0 /\ n <= len b /\
    v = if n =? 9 then Uint64 (take 8 tl)
        else be_fold (Z.land (b2z b0) (Z.shiftr 255 n)) (take (Z.to_nat (n - 1)) tl).
Proof.
  destruct b as [|b0 tl]; [done|]. cbn [ParseVarint].
  destruct (Z.ltb_spec (len (b0 :: tl)) (varintLenFromFirst b0)); [done|].
  intros Hp. exists b0, tl.
  destruct (Z.eqb_spec (varintLenFromFirst b0) 9) as [E|E];
    injection Hp as <- <-; [|destruct (Z.eqb_spec (varintLenFromFirst b0) 9); [done|]].
  - rewrite E. simpl. auto with lia.
  - auto.
Qed.

Lemma Uint64_range l : length l = 8%nat -> is_u64 (Uint64 l).
Proof.
  intros Hl. unfold Uint64. rewrite be_fold_arith; rewrite ?Hl; [|lia|simpl; lia].
  pose proof (be_val_range l) as Hr. rewrite Hl in Hr.
  change (256 ^ Z.of_nat 8) with (2 ^ 64) in *. zlia.
Qed.

(** A value read from [n] bytes, [n <= 8], has at most [7 * n] bits. *)
Lemma short_value_range h l n : 1 <= n <= 8 -> 0 <= h < 2 ^ (8 - n) ->
  length l = Z.to_nat (n - 1) -> 0 <= be_fold h l < 2 ^ (7 * n).
Proof.
  intros Hn Hh Hl.
  assert (E : 256 ^ Z.of_nat (length l) = 2 ^ (8 * (n - 1)))
    by (rewrite Hl, pow256_pow2; f_equal; lia).
  pose proof (be_val_range l) as Hr. rewrite E in Hr.
  assert (Hs : 2 ^ (8 - n) * 2 ^ (8 * (n - 1)) = 2 ^ (7 * n))
    by (rewrite <- Z.pow_add_r by lia; f_equal; lia).
  assert (2 ^ (7 * n) <= 2 ^ 64) by (apply Z.pow_le_mono_r; lia).
  rewrite be_fold_arith; rewrite ?E; nia.
Qed.

Lemma parse_varint_bounds b v n : ParseVarint b = Ok (v, n) ->
  1 <= n <= 9 /\ n <= len b /\ is_u64 v /\ VarintLen v <= n.
Proof.
  intros Hp. destruct (parse_varint_inv _ _ _ Hp) as (b0 & tl & -> & Hn & Hl & Hv).
  destruct (first_byte_range b0) as (Hr & Hh & _). rewrite <- Hn in *.
  rewrite len_cons in *. unfold len in Hl. split_and!; [lia|lia|unfold len; lia| |].
  - destruct (Z.eqb_spec n 9); subst v.
    + apply Uint64_range. rewrite length_take. lia.
    + pose proof (short_value_range _ (take (Z.to_nat (n - 1)) tl) n
        ltac:(lia) (Hh ltac:(lia)) ltac:(rewrite length_take; lia)) as Hv.
      pose proof (Z.pow_le_mono_r 2 (7 * n) 64). zlia.
  - destruct (Z.eqb_spec n 9) as [->|]; subst v.
    + apply VarintLen_spec, Uint64_range. rewrite length_take. lia.
    + pose proof (short_value_range _ (take (Z.to_nat (n - 1)) tl) n
        ltac:(lia) (Hh ltac:(lia)) ltac:(rewrite length_take; lia)) as Hv.
      set (v := be_fold _ _) in *.
      destruct (VarintLen_spec v) as (_ & _ & Hlo); [lia|].
      destruct (Z.le_gt_cases (VarintLen v) n) as [|Hgt]; [done|].
      specialize (Hlo ltac:(lia)).
      pose proof (Z.pow_le_mono_r 2 (7 * n) (7 * (VarintLen v - 1))). lia.
Qed.

(** ** Streaming decode *)

(** [read_rest] takes exactly [k] bytes, or reports how the stream broke off. *)
Lemma read_rest_spec k : forall s,
  read_rest k s =
  if (length (sbytes s) <? k)%nat then Err (unexpected (end_error (send s)))
  else Ok (take k (sbytes s), MkStream (drop k (sbytes s)) (send s)).
Proof.
  induction k as [|k IH]; intros [bs e]; simpl.
  { by rewrite drop_0. }
  unfold mbind, M_bind, wrap_err, ReadByte, map_err. simpl.
  destruct bs as [|b bs]; [done|]. rewrite IH. simpl.
  destruct (Nat.ltb_spec (length bs) k), (Nat.ltb_spec (S (length bs)) (S k));
    (done || lia).
Qed.

(** What a varint read reports when the stream ends before its last byte: a
    FIN before the first byte is a clean EOF, a later one a truncation. *)
Definition varint_end_error (s : Stream) : error :=
  match sbytes s with
  | [] => end_error (send s)
  | _ => unexpected (end_error (send s))
  end.

Lemma ReadVarint_spec s :
  ReadVarint s =
  match ParseVarint (sbytes s) with
  | Ok (v, n) => Ok (v, MkStream (drop (Z.to_nat n) (sbytes s)) (send s))
  | Err _ => Err (varint_end_error s)
  end.
Proof.
  destruct s as [[|b0 tl] e]; [by destruct e|].
  unfold ReadVarint, mbind, M_bind, ReadByte. cbn [sbytes send ParseVarint].
  destruct (first_byte_range b0) as (Hr & _ & H1). set (n := varintLenFromFirst b0) in *.
  destruct (Z.eqb_spec n 1) as [E|E].
  { rewrite E in *. specialize (H1 eq_refl).
    destruct (Z.ltb_spec (len (b0 :: tl)) 1) as [Hl|_].
    { rewrite len_cons in Hl. pose proof (len_nonneg tl). lia. }
    simpl Z.eqb. cbv iota. change (Z.to_nat (1 - 1)) with 0%nat. simpl.
    rewrite H1. by rewrite drop_0. }
  rewrite read_rest_spec. cbn [sbytes send]. rewrite len_cons. unfold len.
  destruct (Nat.ltb_spec (length tl) (Z.to_nat (n - 1))),
    (Z.ltb_spec (1 + Z.of_nat (length tl)) n); try lia; [done|].
  destruct (Z.eqb_spec n 9) as [E9|E9].
  - rewrite E9. simpl Z.to_nat. rewrite take_take. by rewrite Nat.min_id.
  - replace (Z.to_nat n) with (S (Z.to_nat (n - 1))) by lia. done.
Qed.

(** ** Theorems *)

(** Appending a 64-bit value leaves what was there, adds exactly
    [VarintLen v] bytes, and parsing them back, whatever follows, returns the
    value and that length. *)
Theorem varint_roundtrip dst v rest : is_u64 v ->
  exists e, AppendVarint dst v = dst ++ e /\ len e = VarintLen v /\
    ParseVarint (e ++ rest) = Ok (v, VarintLen v).
Proof.
  intros Hv. exists (AppendVarint [] v). rewrite AppendVarint_app.
  auto using AppendVarint_len, parse_append.
Qed.

Lemma varint_roundtrip_witness :
  is_u64 MaxUint64 /\
  exists e, AppendVarint [Byte.x01] MaxUint64 = [Byte.x01] ++ e /\ len e = 9 /\
    ParseVarint (e ++ [Byte.x02]) = Ok (MaxUint64, 9).
Proof.
  split; [zlia|]. apply (varint_roundtrip [Byte.x01] MaxUint64 [Byte.x02]). zlia.
Defined.

(** Decoding is safe and the encoder minimal.  An accepted encoding takes
    between 1 and 9 bytes, all of them in the buffer, yields a 64-bit value no
    encoding of which by [AppendVarint] is longer, and does not depend on the
    bytes behind it; the only failure is [ErrShortBuffer], exactly when the
    buffer is shorter than its first byte announces. *)
Theorem varint_decode_bounds b :
  match ParseVarint b with
  | Ok (v, n) =>
      1 <= n <= 9 /\ n <= len b /\ is_u64 v /\ VarintLen v <= n /\
      forall rest, ParseVarint (take (Z.to_nat n) b ++ rest) = Ok (v, n)
  | Err e =>
      e = ErrShortBuffer /\
      (b = [] \/ exists b0 tl, b = b0 :: tl /\ len b < varintLenFromFirst b0)
  end.
Proof.
  destruct (ParseVarint b) as [[v n]|e] eqn:Hp.
  - destruct (parse_varint_bounds _ _ _ Hp) as (Hn & Hl & Hv & Hm). split_and!; try done; try lia.
    intros rest. destruct (parse_varint_inv _ _ _ Hp) as (b0 & tl & -> & Hf & Hl' & ->).
    replace (Z.to_nat n) with (S (Z.to_nat (n - 1))) by lia. cbn [take app ParseVarint].
    rewrite <- Hf. rewrite len_cons in *. unfold len in *.
    assert (Ht : length (take (Z.to_nat (n - 1)) tl) = Z.to_nat (n - 1))
      by (rewrite length_take; lia).
    rewrite length_app, Ht.
    destruct (Z.ltb_spec (1 + Z.of_nat (Z.to_nat (n - 1) + length rest)) n); [lia|].
    destruct (Z.eqb_spec n 9) as [->|].
    + by rewrite take_app_length' by (by rewrite Ht).
    + by rewrite take_app_length' by (by rewrite Ht).
  - destruct b as [|b0 tl]; cbn [ParseVarint] in Hp.
    { simplify_eq. auto. }
    destruct (Z.ltb_spec (len (b0 :: tl)) (varintLenFromFirst b0));
      [simplify_eq; eauto 6|]. by destruct (varintLenFromFirst b0 =? 9).
Qed.

(** Reading from a stream is parsing the bytes it will deliver: the same
    value, the stream left exactly after the encoding with no look-ahead; a FIN
    before the first byte is [EOF], a FIN inside the encoding
    [ErrUnexpectedEOF], and a reset its own error in both places. *)
Theorem read_varint_is_parse s :
  ReadVarint s =
  match ParseVarint (sbytes s) with
  | Ok (v, n) => Ok (v, MkStream (drop (Z.to_nat n) (sbytes s)) (send s))
  | Err _ =>
      Err (match sbytes s, send s with
           | [], Fin => EOF
           | _ :: _, Fin => ErrUnexpectedEOF
           | _, Reset c => StreamReset c
           end)
  end.
Proof.
  rewrite ReadVarint_spec. destruct (ParseVarint (sbytes s)) as [[]|]; [done|].
  unfold varint_end_error. by destruct (sbytes s), (send s).
Qed.
