(* ===== verification/Wire.v ===== *)
(** * Wire: readers, writers and frames of [pkg/moqt/wire]

    [wire.go] ([Reader], [Writer], [StreamReader], the [Decoder] interface),
    [scanner.go] and [frame.go].  The two decoders implement one interface, here
    the class [Decoder]; what the message parsers rely on is the class
    [DecoderLaws], with an instance for each implementation. *)

From S2P Require Import Prelude Varint.

(** ** Writer

    The accumulated output; every method appends to it. *)
Abbreviation Writer := bytes (only parsing).

Definition w_Varint (w : Writer) (v : Z) : Writer := AppendVarint w v.
Definition w_UInt8 (w : Writer) (v : Z) : Writer := w ++ [z2b v].
Definition w_FixedBytes (w : Writer) (p : bytes) : Writer := w ++ p.
Definition w_VarintBytes (w : Writer) (p : bytes) : Writer :=
  w_FixedBytes (w_Varint w (len p)) p.

(** *** [unicode/utf8] *)

Definition RuneError : Z := 65533.

(** The class of a leading byte: [(size, lo, hi)], [lo..hi] the range of the
    second byte; size 1 is ASCII, size 0 an invalid leading byte. *)
Definition utf8_first (b : Z) : Z * Z * Z :=
  if b <? 128 then (1, 0, 0)
  else if b <? 194 then (0, 0, 0)
  else if b <? 224 then (2, 128, 191)
  else if b =? 224 then (3, 160, 191)
  else if b <? 237 then (3, 128, 191)
  else if b =? 237 then (3, 128, 159)
  else if b <? 240 then (3, 128, 191)
  else if b =? 240 then (4, 144, 191)
  else if b <? 244 then (4, 128, 191)
  else if b =? 244 then (4, 128, 143)
  else (0, 0, 0).

Definition utf8_cont (b : Z) : bool := (128 <=? b) && (b <=? 191).

(** [utf8.DecodeRune]: the first rune of [p] and its width. *)
Definition DecodeRune (p : bytes) : Z * Z :=
  match b2z <$> p with
  | [] => (RuneError, 0)
  | p0 :: t =>
      let '(sz, lo, hi) := utf8_first p0 in
      if sz =? 1 then (p0, 1)
      else if sz =? 0 then (RuneError, 1)
      else
        match t with
        | [] => (RuneError, 1)
        | b1 :: t1 =>
            if len p <? sz then (RuneError, 1)
            else if (b1 <? lo) || (hi <? b1) then (RuneError, 1)
            else if sz <=? 2 then (Z.land p0 31 * 64 + Z.land b1 63, 2)
            else
              match t1 with
              | [] => (RuneError, 1)
              | b2 :: t2 =>
                  if negb (utf8_cont b2) then (RuneError, 1)
                  else if sz <=? 3 then
                    (Z.land p0 15 * 4096 + Z.land b1 63 * 64 + Z.land b2 63, 3)
                  else
                    match t2 with
                    | [] => (RuneError, 1)
                    | b3 :: _ =>
                        if negb (utf8_cont b3) then (RuneError, 1)
                        else (Z.land p0 7 * 262144 + Z.land b1 63 * 4096 +
                              Z.land b2 63 * 64 + Z.land b3 63, 4)
                    end
              end
        end
  end.

(** [utf8.RuneStart]: not a continuation byte. *)
Definition RuneStart (b : byte) : bool := negb (Z.land (b2z b) 192 =? 128).

(** The backward scan of [DecodeLastRuneInString] from index [start] down to
    [lim], [k] steps left. *)
Fixpoint rune_scan (p : bytes) (start lim : Z) (k : nat) : Z :=
  match k with
  | O => start
  | S k' =>
      if start <? lim then start
      else match p !! Z.to_nat start with
           | Some b => if RuneStart b then start else rune_scan p (start - 1) lim k'
           | None => start
           end
  end.

Definition DecodeLastRune (p : bytes) : Z * Z :=
  let e := len p in
  if e =? 0 then (RuneError, 0)
  else
    match p !! Z.to_nat (e - 1) with
    | None => (RuneError, 0)
    | Some last =>
        if b2z last <? 128 then (b2z last, 1)
        else
          let lim := Z.max 0 (e - 4) in
          let start := Z.max 0 (rune_scan p (e - 2) lim 4) in
          let '(r, size) := DecodeRune (drop (Z.to_nat start) p) in
          if negb (start + size =? e) then (RuneError, 1) else (r, size)
    end.

Definition MaxReasonPhraseBytes : Z := 1024.

(** The loop dropping a rune the cut split; it removes one byte per turn, so
    [length s] turns are enough. *)
Fixpoint drop_split_rune (k : nat) (s : bytes) : bytes :=
  match k with
  | O => s
  | S k' =>
      if len s >? 0 then
        let '(r, size) := DecodeLastRune s in
        if (r =? RuneError) && (size <=? 1)
        then drop_split_rune k' (take (length s - 1) s)
        else s
      else s
  end.

Definition truncate_reason (s : bytes) : bytes :=
  if len s >? MaxReasonPhraseBytes
  then let s := take (Z.to_nat MaxReasonPhraseBytes) s in drop_split_rune (length s) s
  else s.

Definition w_ReasonPhrase (w : Writer) (s : bytes) : Writer :=
  w_VarintBytes w (truncate_reason s).

(** ** The [Decoder] interface *)
Class Decoder (S : Type) : Type := {
  Varint : M S Z;
  UInt8 : M S Z;
  FixedBytes : Z -> M S bytes;
  VarintBytes : M S bytes;
}.

(** ** Reader *)
Record Reader : Type := MkReader { buf : bytes; off : nat }.

Definition NewReader (b : bytes) : Reader := MkReader b 0.
Definition Remaining (r : Reader) : Z := len (buf r) - Z.of_nat (off r).
Definition Empty (r : Reader) : bool := (length (buf r) <=? off r)%nat.

Definition r_Varint : M Reader Z := fun r =>
  '(v, n) ← ParseVarint (drop (off r) (buf r));
  Ok (v, MkReader (buf r) (off r + Z.to_nat n)).

Definition r_UInt8 : M Reader Z := fun r =>
  if Remaining r <? 1 then Err ErrShortBuffer
  else match buf r !! off r with
       | Some b => Ok (b2z b, MkReader (buf r) (off r + 1))
       | None => Err Panic
       end.

Definition r_FixedBytes (n : Z) : M Reader bytes := fun r =>
  if (n <? 0) || (Remaining r <? n) then Err ErrShortBuffer
  else if n =? 0 then Ok ([], r)
  else Ok (take (Z.to_nat n) (drop (off r) (buf r)),
           MkReader (buf r) (off r + Z.to_nat n)).

Definition r_RemainingBytes : M Reader bytes := fun r =>
  let n := Remaining r in
  if n =? 0 then Ok ([], r)
  else Ok (drop (off r) (buf r), MkReader (buf r) (off r + Z.to_nat n)).

(** The rest of [varintBytes] once the length [n] is read: [copyBytes] selects a
    copy or a slice of the buffer; the bytes are the same. *)
Definition r_lengthBytes (copyBytes : bool) (n : Z) : M Reader bytes := fun r =>
  if Remaining r <? n then Err ErrShortBuffer
  else if copyBytes then r_FixedBytes (int64_of_u64 n) r
  else
    let e := (off r + Z.to_nat (int64_of_u64 n))%nat in
    Ok (drop (off r) (take e (buf r)), MkReader (buf r) e).

Definition r_varintBytes (copyBytes : bool) : M Reader bytes :=
  n ← r_Varint; r_lengthBytes copyBytes n.

Definition r_VarintBytes : M Reader bytes := r_varintBytes true.

Definition r_ReasonPhrase : M Reader bytes :=
  n ← r_Varint;
  _ ← guard (n <=? MaxReasonPhraseBytes) (Errorf "reason phrase too long");
  r_FixedBytes n.

#[global] Instance Reader_Decoder : Decoder Reader := {
  Varint := r_Varint;
  UInt8 := r_UInt8;
  FixedBytes := r_FixedBytes;
  VarintBytes := r_VarintBytes;
}.

(** ** StreamReader *)

(** The default of the package variable [MaxStreamFieldSize], 16 MiB. *)
Definition MaxStreamFieldSize : Z := Z.shiftl 16 20.

Definition s_UInt8 : M Stream Z := b ← ReadByte; mret (b2z b).

Definition s_FixedBytes (n : Z) : M Stream bytes :=
  if n =? 0 then mret []
  else if (n <? 0) || (n >? MaxStreamFieldSize) then fail (Wrapf "%w: > MaxStreamFieldSize" ErrFieldTooLarge)
  else ReadFull (Z.to_nat n).

Definition s_VarintBytes : M Stream bytes :=
  n ← ReadVarint;
  if n >? MaxStreamFieldSize then fail (Wrapf "%w: > MaxStreamFieldSize" ErrFieldTooLarge)
  else s_FixedBytes (int64_of_u64 n).

#[global] Instance Stream_Decoder : Decoder Stream := {
  Varint := ReadVarint;
  UInt8 := s_UInt8;
  FixedBytes := s_FixedBytes;
  VarintBytes := s_VarintBytes;
}.

(** ** Scanner

    The sticky-error cursor: [scan] does nothing once an error is recorded, so
    the destination keeps its old value. *)
Record Scanner : Type := MkScanner { sc_r : Reader; sc_err : option error }.

Definition r_Scanner (r : Reader) : Scanner := MkScanner r None.

Definition scan {T} (s : Scanner) (dst : T) (read : M Reader T) : T * Scanner :=
  match sc_err s with
  | Some _ => (dst, s)
  | None =>
      match read (sc_r s) with
      | Ok (v, r') => (v, MkScanner r' None)
      | Err e => (dst, MkScanner (sc_r s) (Some e))
      end
  end.

(** ** Frames ([frame.go]) *)

Definition MaxControlMessagePayload : Z := 65535.

(** [if err == io.EOF { err = io.ErrUnexpectedEOF }]. *)
Definition eof_unexpected (e : error) : error :=
  if decide (e = EOF) then ErrUnexpectedEOF else e.

Definition ReadFrame : M Stream (Z * bytes) :=
  msgType ← ReadVarint;
  lenBuf ← wrap_err eof_unexpected (ReadFull 2);
  let length := be_fold 0 lenBuf in
  if length =? 0 then mret (msgType, [])
  else
    payload ← wrap_err eof_unexpected (ReadFull (Z.to_nat length));
    mret (msgType, payload).

(** The bytes [WriteFrame] hands to its [io.Writer], header then payload. *)
Definition WriteFrame (w : bytes) (msgType : Z) (payload : bytes) : result bytes :=
  if len payload >? MaxControlMessagePayload then Err (Errorf "control message payload too large")
  else
    let hdr := AppendVarint [] msgType in
    let hdr := hdr ++ [z2b (Z.shiftr (len payload) 8); z2b (len payload)] in
    let w := w ++ hdr in
    if len payload =? 0 then Ok w else Ok (w ++ payload).

(** ** What the parsers rely on

    [at_ s e s'] says that the next bytes of [s] are [e] and that [s'] is [s]
    just past them; [field_limit] bounds the length-prefixed fields a decoder
    accepts; [d_wf] is its well-formedness. The [dec_] laws say that what the
    writers emit is read back, the [snd_] laws that what is read is in range. *)
Class DecoderLaws (S : Type) `{!Decoder S} : Type := {
  at_ : S -> bytes -> S -> Prop;
  field_limit : Z;
  d_wf : S -> Prop;
  field_limit_go : field_limit < 2 ^ 63;
  at_nil s s' : at_ s [] s' -> s' = s;
  at_app s e1 e2 s'' :
    at_ s (e1 ++ e2) s'' -> exists s', at_ s e1 s' /\ at_ s' e2 s'';
  dec_varint s v s' : is_u64 v -> at_ s (AppendVarint [] v) s' -> Varint s = Ok (v, s');
  dec_uint8 s b s' : at_ s [b] s' -> UInt8 s = Ok (b2z b, s');
  dec_fixed s p s' :
    len p <= field_limit -> at_ s p s' -> FixedBytes (len p) s = Ok (p, s');
  dec_varint_bytes s p s' :
    len p <= field_limit -> at_ s (AppendVarint [] (len p) ++ p) s' ->
    VarintBytes s = Ok (p, s');
  snd_varint s v s' : d_wf s -> Varint s = Ok (v, s') -> is_u64 v /\ d_wf s';
  snd_uint8 s v s' : d_wf s -> UInt8 s = Ok (v, s') -> is_u8 v /\ d_wf s';
  snd_fixed s n p s' : d_wf s -> FixedBytes n s = Ok (p, s') ->
    len p = n /\ n <= field_limit /\ d_wf s';
  snd_varint_bytes s p s' : d_wf s -> VarintBytes s = Ok (p, s') ->
    len p <= field_limit /\ d_wf s';
}.

(** *** Reader satisfies the laws *)

Definition rest (r : Reader) : bytes := drop (off r) (buf r).

Definition r_at (r : Reader) (e : bytes) (r' : Reader) : Prop :=
  buf r' = buf r /\ off r' = (off r + length e)%nat /\ (off r <= length (buf r))%nat /\
  exists post, rest r = e ++ post.

(** The offset never passes the end of the buffer, whose length is a Go [int]. *)
Definition r_wf (r : Reader) : Prop := go_len (buf r) /\ (off r <= length (buf r))%nat.

Lemma rest_length r : (off r <= length (buf r))%nat -> len (rest r) = Remaining r.
Proof. intros. unfold rest, Remaining, len. rewrite length_drop. lia. Qed.

Lemma r_at_rest r e r' : r_at r e r' -> rest r = e ++ rest r'.
Proof.
  intros (Hb & Ho & _ & post & Hp). unfold rest in *. rewrite Hb, Ho, <- drop_drop, Hp.
  by rewrite drop_app_length.
Qed.

Lemma r_at_remaining r e r' : r_at r e r' -> Remaining r = len e + len (rest r').
Proof.
  intros H. rewrite <- rest_length by apply H.
  by rewrite (r_at_rest _ _ _ H), len_app.
Qed.

Lemma r_at_app r e1 e2 r'' :
  r_at r (e1 ++ e2) r'' -> exists r', r_at r e1 r' /\ r_at r' e2 r''.
Proof.
  intros H. pose proof (r_at_remaining _ _ _ H) as Hr. rewrite len_app in Hr.
  destruct H as (Hb & Ho & Hl & post & Hp).
  exists (MkReader (buf r) (off r + length e1)).
  unfold r_at, rest, Remaining, len in *; simpl. rewrite length_app in Ho.
  split_and!; try done; try lia.
  - exists (e2 ++ post). by rewrite Hp, app_assoc.
  - exists post. rewrite <- drop_drop, Hp, <- app_assoc. by rewrite drop_app_length.
Qed.

Lemma r_at_eq r e r' : r_at r e r' -> r' = MkReader (buf r) (off r + length e).
Proof. intros (Hb & Ho & _). destruct r'. simpl in *. by subst. Qed.

Lemma r_at_nil r r' : r_at r [] r' -> r' = r.
Proof. intros H. rewrite (r_at_eq _ _ _ H). destruct r; simpl. f_equal; lia. Qed.

Lemma r_Varint_at r v r' : is_u64 v -> r_at r (AppendVarint [] v) r' ->
  r_Varint r = Ok (v, r').
Proof.
  intros Hv H. unfold r_Varint. change (drop (off r) (buf r)) with (rest r).
  rewrite (r_at_rest _ _ _ H), parse_append by done. simpl.
  rewrite (r_at_eq _ _ _ H). repeat f_equal.
  rewrite <- AppendVarint_len by done. unfold len. lia.
Qed.

Lemma r_FixedBytes_at r p r' : r_at r p r' -> r_FixedBytes (len p) r = Ok (p, r').
Proof.
  intros H. unfold r_FixedBytes. pose proof (len_nonneg p).
  rewrite (r_at_remaining _ _ _ H). pose proof (len_nonneg (rest r')).
  destruct (Z.ltb_spec (len p) 0); [lia|].
  destruct (Z.ltb_spec (len p + len (rest r')) (len p)); [lia|]. simpl.
  destruct (Z.eqb_spec (len p) 0) as [E|E].
  - apply len_zero in E. subst p. by rewrite (r_at_nil _ _ H).
  - change (drop (off r) (buf r)) with (rest r).
    rewrite (r_at_rest _ _ _ H). unfold len. rewrite Nat2Z.id, take_app_length.
    by rewrite (r_at_eq _ _ _ H).
Qed.

Lemma int64_small z : 0 <= z < 2 ^ 63 -> int64_of_u64 z = z.
Proof. intros. unfold int64_of_u64. destruct (Z.ltb_spec z (2 ^ 63)); lia. Qed.

Lemma r_varintBytes_at copy r p r' : go_len p ->
  r_at r (AppendVarint [] (len p) ++ p) r' -> r_varintBytes copy r = Ok (p, r').
Proof.
  intros Hp H. apply r_at_app in H as (r1 & H1 & H2). unfold r_varintBytes.
  rewrite (M_bind_Ok _ _ _ (len p) r1) by auto using r_Varint_at with moq.
  unfold r_lengthBytes. rewrite (r_at_remaining _ _ _ H2).
  pose proof (len_nonneg (rest r')). pose proof (len_nonneg p). unfold go_len in Hp.
  destruct (Z.ltb_spec (len p + len (rest r')) (len p)); [lia|].
  rewrite int64_small by lia. destruct copy; [by apply r_FixedBytes_at|].
  rewrite (r_at_eq _ _ _ H2). repeat f_equal; [|unfold len; lia].
  rewrite <- take_drop_commute. change (drop (off r1) (buf r1)) with (rest r1).
  rewrite (r_at_rest _ _ _ H2). unfold len. by rewrite Nat2Z.id, take_app_length.
Qed.

Lemma r_UInt8_at r b r' : r_at r [b] r' -> r_UInt8 r = Ok (b2z b, r').
Proof.
  intros H. unfold r_UInt8. rewrite (r_at_remaining _ _ _ H), len_cons, len_nil.
  pose proof (len_nonneg (rest r')). destruct (Z.ltb_spec (1 + 0 + len (rest r')) 1); [lia|].
  pose proof (r_at_rest _ _ _ H) as Hr. unfold rest at 1 in Hr.
  apply (f_equal (fun l => l !! 0%nat)) in Hr. rewrite lookup_drop, Nat.add_0_r in Hr.
  rewrite Hr. simpl. by rewrite (r_at_eq _ _ _ H).
Qed.

Lemma r_Varint_snd r v r' : r_wf r -> r_Varint r = Ok (v, r') -> is_u64 v /\ r_wf r'.
Proof.
  intros [Hg Ho] H. unfold r_Varint in H.
  destruct (ParseVarint (drop (off r) (buf r))) as [[v' n]|] eqn:E; [|done].
  simpl in H. simplify_eq. apply parse_varint_bounds in E as (Hn & Hl & Hv & _).
  split; [done|]. split; simpl; [done|]. unfold len in Hl. rewrite length_drop in Hl. lia.
Qed.

Lemma r_FixedBytes_snd r n p r' : r_wf r -> r_FixedBytes n r = Ok (p, r') ->
  len p = n /\ n < 2 ^ 63 /\ r_wf r'.
Proof.
  intros [Hg Ho] H. unfold r_FixedBytes, go_len, Remaining in *.
  destruct (Z.ltb_spec n 0); [done|]. destruct (Z.ltb_spec (len (buf r) - Z.of_nat (off r)) n); [done|].
  simpl in H. destruct (Z.eqb_spec n 0) as [->|]; simplify_eq.
  - by split_and!.
  - unfold r_wf, go_len, len in *; simpl. rewrite length_take, length_drop. lia.
Qed.

Lemma r_UInt8_snd r v r' : r_wf r -> r_UInt8 r = Ok (v, r') -> is_u8 v /\ r_wf r'.
Proof.
  intros [Hg Ho] H. unfold r_UInt8, Remaining, len in H.
  destruct (Z.ltb_spec (Z.of_nat (length (buf r)) - Z.of_nat (off r)) 1); [done|].
  destruct (buf r !! off r); simplify_eq. split; [auto with moq|].
  unfold r_wf; simpl. split; [done|lia].
Qed.

Lemma r_varintBytes_snd copy r p r' : r_wf r -> r_varintBytes copy r = Ok (p, r') ->
  go_len p /\ r_wf r'.
Proof.
  intros Hw H. unfold r_varintBytes in H. minv H.
  apply r_Varint_snd in H0 as [Hn [Hg Ho]]; [|done]. unfold r_lengthBytes in H.
  destruct (Z.ltb_spec (Remaining s) a) as [|Hr]; [done|].
  unfold Remaining, go_len, len in *. rewrite int64_small in H by zlia.
  destruct copy.
  - apply r_FixedBytes_snd in H as (? & ? & ?); [|done]. unfold len in *. split; [lia|done].
  - simplify_eq. unfold r_wf, go_len, len; simpl.
    rewrite length_drop, length_take. zlia.
Qed.

(** Turn the successful reads of the context into range facts, in the order the
    reader threads through them; later files extend [snd_step]. *)
Ltac snd_step :=
  match goal with
  | Hw : r_wf ?r, H : r_Varint ?r = Ok _ |- _ => apply (r_Varint_snd _ _ _ Hw) in H as [? ?]
  | Hw : r_wf ?r, H : r_UInt8 ?r = Ok _ |- _ => apply (r_UInt8_snd _ _ _ Hw) in H as [? ?]
  | Hw : r_wf ?r, H : r_varintBytes _ ?r = Ok _ |- _ =>
      apply (r_varintBytes_snd _ _ _ _ Hw) in H as [? ?]
  | Hw : r_wf ?r, H : r_VarintBytes ?r = Ok _ |- _ =>
      apply (r_varintBytes_snd true _ _ _ Hw) in H as [? ?]
  | Hw : r_wf ?r, H : r_FixedBytes _ ?r = Ok _ |- _ =>
      apply (r_FixedBytes_snd _ _ _ _ Hw) in H as (? & ? & ?)
  end.
Ltac msnd := mpeel; repeat (snd_step; simplify_eq).

#[global] Program Instance Reader_DecoderLaws : DecoderLaws Reader := {
  at_ := r_at;
  field_limit := 2 ^ 63 - 1;
  d_wf := r_wf;
}.
Next Obligation. lia. Qed.
Next Obligation. exact r_at_nil. Qed.
Next Obligation. exact r_at_app. Qed.
Next Obligation. exact r_Varint_at. Qed.
Next Obligation. exact r_UInt8_at. Qed.
Next Obligation. intros s p s' _. apply r_FixedBytes_at. Qed.
Next Obligation. intros s p s' ?. apply r_varintBytes_at. unfold go_len. lia. Qed.
Next Obligation. exact r_Varint_snd. Qed.
Next Obligation. exact r_UInt8_snd. Qed.
Next Obligation. intros s n p s' Hw H. apply r_FixedBytes_snd in H as (? & ? & ?); auto with lia. Qed.
Next Obligation.
  intros s p s' Hw H. apply r_varintBytes_snd in H as [? ?]; [|done].
  unfold go_len in *. split; [lia|done].
Qed.

(** *** StreamReader satisfies the laws *)

Lemma MaxStreamFieldSize_val : MaxStreamFieldSize = 16777216.
Proof. reflexivity. Qed.

Definition s_at (s : Stream) (e : bytes) (s' : Stream) : Prop :=
  sbytes s = e ++ sbytes s' /\ send s' = send s.

Lemma s_at_app s e1 e2 s'' :
  s_at s (e1 ++ e2) s'' -> exists s', s_at s e1 s' /\ s_at s' e2 s''.
Proof.
  intros [Hb He]. exists (MkStream (e2 ++ sbytes s'') (send s)).
  unfold s_at; simpl. by rewrite Hb, app_assoc.
Qed.

Lemma s_at_drop s e s' : s_at s e s' -> s' = MkStream (drop (length e) (sbytes s)) (send s).
Proof.
  intros [Hb He]. destruct s'. simpl in *. by rewrite Hb, drop_app_length, He.
Qed.

Lemma s_Varint_at s v s' : is_u64 v -> s_at s (AppendVarint [] v) s' ->
  ReadVarint s = Ok (v, s').
Proof.
  intros Hv H. rewrite ReadVarint_spec. pose proof (s_at_drop _ _ _ H) as ->.
  destruct H as [Hb _]. rewrite Hb at 1. rewrite parse_append by done.
  do 3 f_equal. rewrite <- AppendVarint_len by done. unfold len. by rewrite Nat2Z.id.
Qed.

Lemma ReadFull_at s p s' : s_at s p s' -> ReadFull (length p) s = Ok (p, s').
Proof.
  destruct s as [bs e], s' as [bs' e']. intros [Hb He]. simpl in *. subst.
  unfold ReadFull; simpl. rewrite length_app, take_app_length, drop_app_length.
  by destruct (Nat.ltb_spec (length p + length bs') (length p)); [lia|].
Qed.

Lemma ReadFull_snd n s p s' : ReadFull n s = Ok (p, s') -> length p = n.
Proof.
  unfold ReadFull. destruct (Nat.ltb_spec (length (sbytes s)) n); [done|].
  intros [= <- _]. rewrite length_take. lia.
Qed.

Lemma s_FixedBytes_at s p s' : len p <= MaxStreamFieldSize -> s_at s p s' ->
  s_FixedBytes (len p) s = Ok (p, s').
Proof.
  intros Hl H. unfold s_FixedBytes. pose proof (len_nonneg p).
  destruct (Z.eqb_spec (len p) 0) as [E|E].
  - apply len_zero in E. subst p. rewrite (s_at_drop _ _ _ H). simpl.
    rewrite drop_0. by destruct s.
  - destruct (Z.ltb_spec (len p) 0); [lia|]. rewrite Z.gtb_ltb.
    destruct (Z.ltb_spec MaxStreamFieldSize (len p)); [lia|]. simpl.
    unfold len. rewrite Nat2Z.id. by apply ReadFull_at.
Qed.

Lemma s_FixedBytes_snd s n p s' : s_FixedBytes n s = Ok (p, s') ->
  len p = n /\ n <= MaxStreamFieldSize.
Proof.
  unfold s_FixedBytes. destruct (Z.eqb_spec n 0) as [->|].
  { intros [= <- _]. split; [done|]. rewrite MaxStreamFieldSize_val. lia. }
  destruct (Z.ltb_spec n 0); [done|]. rewrite Z.gtb_ltb.
  destruct (Z.ltb_spec MaxStreamFieldSize n); [done|]. simpl. intros H1.
  apply ReadFull_snd in H1. unfold len. lia.
Qed.

Lemma ReadVarint_snd s v s' : ReadVarint s = Ok (v, s') -> is_u64 v.
Proof.
  rewrite ReadVarint_spec. destruct (ParseVarint (sbytes s)) as [[v' n]|] eqn:E; [|done].
  intros [= <- _]. by apply parse_varint_bounds in E as (_ & _ & ? & _).
Qed.

Lemma s_VarintBytes_at s p s' : len p <= MaxStreamFieldSize ->
  s_at s (AppendVarint [] (len p) ++ p) s' -> s_VarintBytes s = Ok (p, s').
Proof.
  intros Hl H. pose proof (len_nonneg p). rewrite MaxStreamFieldSize_val in Hl.
  apply s_at_app in H as (s1 & H1 & H2). unfold s_VarintBytes.
  rewrite (M_bind_Ok _ _ _ (len p) s1) by (apply s_Varint_at; zlia || done).
  rewrite Z.gtb_ltb. destruct (Z.ltb_spec MaxStreamFieldSize (len p)) as [Hlt|];
    [rewrite MaxStreamFieldSize_val in Hlt; lia|].
  rewrite int64_small by lia. by apply s_FixedBytes_at.
Qed.

Lemma s_VarintBytes_snd s p s' : s_VarintBytes s = Ok (p, s') -> len p <= MaxStreamFieldSize.
Proof.
  intros H. unfold s_VarintBytes in H. minv H. rewrite Z.gtb_ltb in H.
  destruct (Z.ltb_spec MaxStreamFieldSize a); [done|].
  apply s_FixedBytes_snd in H. lia.
Qed.

#[global] Program Instance Stream_DecoderLaws : DecoderLaws Stream := {
  at_ := s_at;
  field_limit := MaxStreamFieldSize;
  d_wf := fun _ => True;
}.
Next Obligation. reflexivity. Qed.
Next Obligation. intros s s' H. rewrite (s_at_drop _ _ _ H). simpl. rewrite drop_0. by destruct s. Qed.
Next Obligation. exact s_at_app. Qed.
Next Obligation. exact s_Varint_at. Qed.
Next Obligation.
  intros s b s' [Hb He]. simpl. unfold s_UInt8, mbind, M_bind, ReadByte.
  rewrite Hb. simpl. rewrite <- He. by destruct s'.
Qed.
Next Obligation. exact s_FixedBytes_at. Qed.
Next Obligation. exact s_VarintBytes_at. Qed.
Next Obligation. intros s v s' _ H. split; [|done]. by eapply ReadVarint_snd. Qed.
Next Obligation.
  intros s v s' _ Hu. simpl in Hu. unfold s_UInt8 in Hu. minv Hu.
  unfold mret, M_ret in Hu. simplify_eq. auto with moq.
Qed.
Next Obligation. intros s n p s' _ Hf. destruct (s_FixedBytes_snd _ _ _ _ Hf). auto. Qed.
Next Obligation. intros s p s' _ H. split; [|done]. by eapply s_VarintBytes_snd. Qed.

(** ** Encodings and the programs that read them back *)

(** What each writer method appends. *)
Definition e_Varint (v : Z) : bytes := AppendVarint [] v.
Definition e_UInt8 (v : Z) : bytes := [z2b v].
Definition e_VarintBytes (p : bytes) : bytes := e_Varint (len p) ++ p.

Lemma w_Varint_app w v : w_Varint w v = w ++ e_Varint v.
Proof. apply AppendVarint_app. Qed.
Lemma w_UInt8_app w v : w_UInt8 w v = w ++ e_UInt8 v.
Proof. reflexivity. Qed.
Lemma w_FixedBytes_app w p : w_FixedBytes w p = w ++ p.
Proof. reflexivity. Qed.
Lemma w_VarintBytes_app w p : w_VarintBytes w p = w ++ e_VarintBytes p.
Proof.
  unfold w_VarintBytes, e_VarintBytes. rewrite w_FixedBytes_app, w_Varint_app.
  by rewrite app_assoc.
Qed.
Lemma w_ReasonPhrase_app w s : w_ReasonPhrase w s = w ++ e_VarintBytes (truncate_reason s).
Proof. apply w_VarintBytes_app. Qed.

Create Rewrite HintDb moq_w.
#[export] Hint Rewrite w_Varint_app w_UInt8_app w_FixedBytes_app w_VarintBytes_app
  w_ReasonPhrase_app : moq_w.

(** Push the writer out of a serialised message: [w ++ (e1 ++ (e2 ++ ...))]. *)
Ltac wnorm := autorewrite with moq_w; rewrite <- ?app_assoc.

Section Decodes.
Context {S : Type} `{!Decoder S, !DecoderLaws S}.

(** [p] reads the encoding [e] as [x] wherever it is found. *)
Definition decodes {A} (p : M S A) (e : bytes) (x : A) : Prop :=
  forall s s', at_ s e s' -> p s = Ok (x, s').

Lemma decodes_ret {A} (x : A) : decodes (mret x) [] x.
Proof. intros s s' H. apply at_nil in H. by subst. Qed.

Lemma decodes_ret_eq {A} (x y : A) : y = x -> decodes (mret x) [] y.
Proof. intros ->. apply decodes_ret. Qed.

Lemma decodes_bind {A B} (p : M S A) (f : A -> M S B) e1 e2 x y :
  decodes p e1 x -> decodes (f x) e2 y -> decodes (p ≫= f) (e1 ++ e2) y.
Proof.
  intros H1 H2 s s'' (s1 & Ha & Hb)%at_app. rewrite (M_bind_Ok _ _ _ x s1); auto.
Qed.

(** A step that consumes nothing. *)
Lemma decodes_bind_nil {A B} (p : M S A) (f : A -> M S B) e x y :
  decodes p [] x -> decodes (f x) e y -> decodes (p ≫= f) e y.
Proof. intros H1 H2. by apply (decodes_bind p f [] e x y). Qed.

Lemma decodes_bind_last {A B} (p : M S A) (f : A -> M S B) e x y :
  decodes p e x -> decodes (f x) [] y -> decodes (p ≫= f) e y.
Proof. intros H1 H2. rewrite <- (app_nil_r e). by apply decodes_bind with x. Qed.

Lemma decodes_guard b e : b = true -> decodes (guard b e) [] tt.
Proof. intros -> s s' H. apply at_nil in H. by subst. Qed.

Lemma decodes_wrap {A} f (p : M S A) e x : decodes p e x -> decodes (wrap_err f p) e x.
Proof. intros H s s' Hs. unfold wrap_err. by rewrite (H _ _ Hs). Qed.

Lemma decodes_Varint v : is_u64 v -> decodes Varint (e_Varint v) v.
Proof. intros ? s s'. by apply dec_varint. Qed.

Lemma decodes_UInt8 v : is_u8 v -> decodes UInt8 (e_UInt8 v) v.
Proof. intros ? s s' H. rewrite (dec_uint8 _ _ _ H). by rewrite b2z_z2b_small. Qed.

Lemma decodes_VarintBytes p : len p <= field_limit -> decodes VarintBytes (e_VarintBytes p) p.
Proof. intros ? s s'. by apply dec_varint_bytes. Qed.

Lemma decodes_FixedBytes p : len p <= field_limit -> decodes (FixedBytes (len p)) p p.
Proof. intros ? s s'. by apply dec_fixed. Qed.
End Decodes.

#[export] Hint Resolve decodes_ret decodes_guard decodes_wrap decodes_Varint
  decodes_UInt8 decodes_VarintBytes decodes_FixedBytes : moq.

Lemma r_decodes_Varint v : is_u64 v -> decodes r_Varint (e_Varint v) v.
Proof. exact (decodes_Varint (S:=Reader) v). Qed.
Lemma r_decodes_UInt8 v : is_u8 v -> decodes r_UInt8 (e_UInt8 v) v.
Proof. exact (decodes_UInt8 (S:=Reader) v). Qed.
Lemma r_decodes_VarintBytes p : go_len p -> decodes r_VarintBytes (e_VarintBytes p) p.
Proof. intros H s s'. by apply r_varintBytes_at. Qed.
Lemma r_decodes_varintBytes copy p : go_len p -> decodes (r_varintBytes copy) (e_VarintBytes p) p.
Proof. intros H s s'. by apply r_varintBytes_at. Qed.

#[export] Hint Resolve r_decodes_Varint r_decodes_UInt8 r_decodes_VarintBytes
  r_decodes_varintBytes : moq.

(** *** Programs that read to the end of the buffer *)

Definition r_end (r : Reader) : Reader := MkReader (buf r) (length (buf r)).

Definition decodes_end {A} (p : M Reader A) (e : bytes) (x : A) : Prop :=
  forall r, (off r <= length (buf r))%nat -> rest r = e -> p r = Ok (x, r_end r).

Lemma at_rest r e1 e2 : (off r <= length (buf r))%nat -> rest r = e1 ++ e2 ->
  r_at r e1 (MkReader (buf r) (off r + length e1)) /\
  rest (MkReader (buf r) (off r + length e1)) = e2 /\
  (off r + length e1 <= length (buf r))%nat.
Proof.
  intros Hl Hr. unfold rest in *; simpl. split_and!.
  - unfold r_at, rest; simpl. eauto.
  - rewrite <- drop_drop, Hr. by rewrite drop_app_length.
  - apply (f_equal length) in Hr. rewrite length_drop, length_app in Hr. lia.
Qed.

Lemma decodes_end_bind {A B} (p : M Reader A) (f : A -> M Reader B) e1 e2 x y :
  decodes p e1 x -> decodes_end (f x) e2 y -> decodes_end (p ≫= f) (e1 ++ e2) y.
Proof.
  intros H1 H2 r Hl Hr. destruct (at_rest _ _ _ Hl Hr) as (Ha & Hb & Hc).
  rewrite (M_bind_Ok _ _ _ _ _ (H1 _ _ Ha)). rewrite H2; [done|by simpl|done].
Qed.

Lemma decodes_end_of {A} (p : M Reader A) e x : decodes p e x -> decodes_end p e x.
Proof.
  intros H r Hl Hr. rewrite <- (app_nil_r e) in Hr.
  destruct (at_rest _ _ _ Hl Hr) as (Ha & Hb & Hc). rewrite (H _ _ Ha).
  unfold r_end. do 3 f_equal. unfold rest in Hb; simpl in Hb.
  apply (f_equal length) in Hb. rewrite length_drop in Hb. simpl in Hb. lia.
Qed.

Lemma decodes_end_ret {A} (x : A) (p : M Reader unit) e :
  decodes_end p e tt -> decodes_end (p ≫= fun _ => mret x) e x.
Proof. intros H r Hl Hr. by rewrite (M_bind_Ok _ _ _ _ _ (H r Hl Hr)). Qed.

Lemma decodes_end_RemainingBytes p : decodes_end r_RemainingBytes p p.
Proof.
  intros r Hl Hr. unfold r_RemainingBytes. rewrite <- rest_length, Hr by done.
  change (drop (off r) (buf r)) with (rest r). rewrite Hr.
  apply (f_equal length) in Hr. unfold rest in Hr. rewrite length_drop in Hr.
  unfold r_end, len. destruct (Z.eqb_spec (Z.of_nat (length p)) 0) as [E|E].
  - destruct p; [|simpl in E; lia]. simpl in *. destruct r; simpl in *. do 3 f_equal. lia.
  - do 3 f_equal. lia.
Qed.

Lemma decodes_NewReader {A} (p : M Reader A) e x :
  decodes_end p e x -> p (NewReader e) = Ok (x, MkReader e (length e)).
Proof. intros H. apply (H (NewReader e)); simpl; [lia|apply drop_0]. Qed.

Lemma Empty_end r : Empty (r_end r) = true.
Proof. apply Nat.leb_le. simpl. lia. Qed.

(** *** The scanner as early returns *)

Lemma scan_ok {T} r (dst : T) (read : M Reader T) :
  scan (MkScanner r None) dst read =
  match read r with
  | Ok (v, r') => (v, MkScanner r' None)
  | Err e => (dst, MkScanner r (Some e))
  end.
Proof. reflexivity. Qed.

Lemma scan_err {T} r e (dst : T) (read : M Reader T) :
  scan (MkScanner r (Some e)) dst read = (dst, MkScanner r (Some e)).
Proof. reflexivity. Qed.

(** Replace the scanner of a parser by a chain of early returns: run each read,
    and note that after an error the rest of the scan is idle. *)
Ltac scanner_eq :=
  cbv zeta; unfold r_Scanner;
  repeat first
    [ rewrite scan_ok
    | rewrite scan_err
    | progress cbn [sc_err sc_r fst snd]
    | progress unfold mbind, M_bind, mret, M_ret, result_bind
    | match goal with
      | |- context [match ?read ?r with Ok _ => _ | Err _ => _ end] =>
          lazymatch r with context [match _ with _ => _ end] => fail | _ => idtac end;
          destruct (read r) as [[? ?]|?]
      end
    | reflexivity ].

(** ** Truncated encodings *)

Lemma varint_truncated v k : is_u64 v -> (k < length (e_Varint v))%nat ->
  ParseVarint (take k (e_Varint v)) = Err ErrShortBuffer.
Proof.
  intros Hv Hk. assert (Hl : len (e_Varint v) = VarintLen v) by by apply AppendVarint_len.
  assert (Hb : exists b0 tl, e_Varint v = b0 :: tl /\ varintLenFromFirst b0 = VarintLen v).
  { pose proof (parse_append v [] Hv) as Hp. rewrite app_nil_r in Hp.
    apply parse_varint_inv in Hp as (b0 & tl & ? & ? & _). eauto. }
  destruct Hb as (b0 & tl & He & Hf). rewrite He in *.
  destruct k as [|k]; [done|]. cbn [take ParseVarint]. rewrite Hf.
  rewrite len_cons in *. unfold len in *. rewrite length_take. simpl in Hk.
  destruct (Z.ltb_spec (1 + Z.of_nat (k `min` length tl)) (VarintLen v)); [done|lia].
Qed.

Lemma ReadVarint_truncated v k e : is_u64 v -> (k < length (e_Varint v))%nat ->
  ReadVarint (MkStream (take k (e_Varint v)) e) =
  Err (if decide (k = 0%nat) then end_error e else unexpected (end_error e)).
Proof.
  intros Hv Hk. rewrite ReadVarint_spec. simpl. rewrite varint_truncated by done.
  unfold varint_end_error; simpl. destruct k; [done|].
  by destruct (e_Varint v); [simpl in Hk; lia|].
Qed.

(** ** Frames *)

Definition e_Frame (t : Z) (p : bytes) : bytes :=
  e_Varint t ++ [z2b (Z.shiftr (len p) 8); z2b (len p)] ++ p.

Lemma WriteFrame_ok w t p : len p <= MaxControlMessagePayload ->
  WriteFrame w t p = Ok (w ++ e_Frame t p).
Proof.
  intros Hp. unfold WriteFrame, e_Frame. rewrite Z.gtb_ltb.
  destruct (Z.ltb_spec MaxControlMessagePayload (len p)); [lia|].
  destruct (Z.eqb_spec (len p) 0) as [E|E].
  - apply len_zero in E. subst p. by rewrite !app_nil_r.
  - by rewrite <- !app_assoc.
Qed.

Lemma uint16_bytes n : 0 <= n <= 65535 ->
  be_fold 0 [z2b (Z.shiftr n 8); z2b n] = n.
Proof.
  intros Hn. rewrite be_fold_arith; [|lia|simpl; lia]. cbn [be_val length].
  rewrite !b2z_z2b, Z.shiftr_div_pow2 by lia. simpl Z.of_nat.
  change (2 ^ 8) with 256. change (256 ^ 1) with 256.
  rewrite (Z.mod_small (n / 256)) by (split; [apply Z.div_pos|apply Z.div_lt_upper_bound]; lia).
  pose proof (Z.div_mod n 256 ltac:(lia)). lia.
Qed.

(** The frame reader after its type: the two length bytes and the payload. *)
Definition read_body (t : Z) : M Stream (Z * bytes) :=
  lenBuf ← wrap_err eof_unexpected (ReadFull 2);
  let length := be_fold 0 lenBuf in
  if length =? 0 then mret (t, [])
  else
    payload ← wrap_err eof_unexpected (ReadFull (Z.to_nat length));
    mret (t, payload).

Lemma decodes_body t p : len p <= MaxControlMessagePayload ->
  decodes (read_body t) ([z2b (Z.shiftr (len p) 8); z2b (len p)] ++ p) (t, p).
Proof.
  intros Hp. pose proof (len_nonneg p). unfold MaxControlMessagePayload in Hp.
  unfold read_body. apply decodes_bind with [z2b (Z.shiftr (len p) 8); z2b (len p)].
  { apply decodes_wrap. intros s s'. apply ReadFull_at. }
  rewrite uint16_bytes by lia. cbv zeta. destruct (Z.eqb_spec (len p) 0) as [E|E].
  - apply len_zero in E. subst p. apply decodes_ret.
  - apply decodes_bind_last with p; [|apply decodes_ret].
    apply decodes_wrap. intros s s' Hs. unfold len. rewrite Nat2Z.id. by apply ReadFull_at.
Qed.

Lemma decodes_Frame t p : is_u64 t -> len p <= MaxControlMessagePayload ->
  decodes ReadFrame (e_Frame t p) (t, p).
Proof.
  intros Ht Hp. unfold ReadFrame, e_Frame. apply decodes_bind with t.
  - intros s s'. by apply s_Varint_at.
  - by apply decodes_body.
Qed.

(** Fewer bytes than asked for, then a FIN. *)
Lemma ReadFull_short n bs : (length bs < n)%nat ->
  wrap_err eof_unexpected (ReadFull n) (MkStream bs Fin) = Err ErrUnexpectedEOF.
Proof.
  intros H. unfold wrap_err, ReadFull; simpl.
  destruct (Nat.ltb_spec (length bs) n); [|lia]. by destruct bs.
Qed.

Lemma read_body_truncated t p k : len p <= MaxControlMessagePayload ->
  (k < 2 + length p)%nat ->
  read_body t (MkStream (take k ([z2b (Z.shiftr (len p) 8); z2b (len p)] ++ p)) Fin) =
  Err ErrUnexpectedEOF.
Proof.
  intros Hp Hk. pose proof (len_nonneg p). unfold MaxControlMessagePayload in Hp.
  unfold read_body, mbind, M_bind. destruct k as [|[|k]].
  { by rewrite ReadFull_short by (simpl; lia). }
  { by rewrite ReadFull_short by (simpl; lia). }
  change (take (S (S k)) _) with ([z2b (Z.shiftr (len p) 8); z2b (len p)] ++ take k p).
  unfold wrap_err at 1. rewrite (ReadFull_at _ [z2b _; z2b _] (MkStream (take k p) Fin)) by done.
  simpl map_err. cbv iota beta. rewrite uint16_bytes by lia. cbv zeta.
  destruct (Z.eqb_spec (len p) 0) as [E|E]; [unfold len in E; lia|].
  rewrite ReadFull_short; [done|]. rewrite length_take. unfold len. lia.
Qed.

Lemma ReadFrame_truncated t p k : is_u64 t -> len p <= MaxControlMessagePayload ->
  (k < length (e_Frame t p))%nat ->
  ReadFrame (MkStream (take k (e_Frame t p)) Fin) =
  Err (if decide (k = 0%nat) then EOF else ErrUnexpectedEOF).
Proof.
  intros Ht Hp Hk. unfold e_Frame in *. rewrite length_app in Hk.
  change ReadFrame with (ReadVarint ≫= read_body). unfold mbind, M_bind.
  destruct (Nat.lt_ge_cases k (length (e_Varint t))) as [Hlt|Hge].
  - rewrite take_app_le by lia. rewrite ReadVarint_truncated by done. by destruct k.
  - rewrite take_app_ge by lia. set (body := [z2b _; z2b _] ++ p) in *.
    rewrite (s_Varint_at _ t (MkStream (take (k - length (e_Varint t)) body) Fin)); [|done|by split].
    unfold body. rewrite read_body_truncated; [|done|unfold body in Hk; simpl in Hk; lia].
    destruct (VarintLen_spec t) as [Hv _]; [zlia|].
    rewrite <- (AppendVarint_len t) in Hv by done. fold (e_Varint t) in Hv. unfold len in Hv.
    by destruct k; [lia|].
Qed.

(** ** Reason phrases *)

Lemma drop_split_rune_prefix k : forall s, drop_split_rune k s `prefix_of` s.
Proof.
  induction k as [|k IH]; intros s; simpl; [done|].
  destruct (len s >? 0); [|done]. destruct (DecodeLastRune s) as [r size].
  destruct (_ && _); [|done]. etrans; [apply IH|]. apply prefix_take.
Qed.

Lemma truncate_reason_prefix s : truncate_reason s `prefix_of` s.
Proof.
  unfold truncate_reason. destruct (len s >? MaxReasonPhraseBytes); [|done].
  etrans; [apply drop_split_rune_prefix|apply prefix_take].
Qed.

Lemma truncate_reason_len s : len (truncate_reason s) <= MaxReasonPhraseBytes.
Proof.
  unfold truncate_reason. rewrite Z.gtb_ltb.
  destruct (Z.ltb_spec MaxReasonPhraseBytes (len s)); [|done].
  set (c := take _ s). pose proof (prefix_length _ _ (drop_split_rune_prefix (length c) c)) as Hp.
  assert (length c <= 1024)%nat by (unfold c, MaxReasonPhraseBytes; rewrite length_take; lia).
  unfold MaxReasonPhraseBytes, len. lia.
Qed.

Lemma truncate_reason_id s : len s <= MaxReasonPhraseBytes -> truncate_reason s = s.
Proof.
  intros H. unfold truncate_reason. rewrite Z.gtb_ltb.
  destruct (Z.ltb_spec MaxReasonPhraseBytes (len s)); [lia|done].
Qed.

Lemma decodes_ReasonPhrase p : len p <= MaxReasonPhraseBytes ->
  decodes r_ReasonPhrase (e_VarintBytes p) p.
Proof.
  intros Hp. pose proof (len_nonneg p). unfold MaxReasonPhraseBytes in Hp.
  unfold r_ReasonPhrase, e_VarintBytes. apply decodes_bind with (len p).
  { apply r_decodes_Varint. zlia. }
  apply decodes_bind_nil with tt.
  - apply decodes_guard. apply Z.leb_le. unfold MaxReasonPhraseBytes. lia.
  - intros s s'. apply r_FixedBytes_at.
Qed.

Lemma decodes_truncated_reason s :
  decodes r_ReasonPhrase (e_VarintBytes (truncate_reason s)) (truncate_reason s).
Proof. apply decodes_ReasonPhrase, truncate_reason_len. Qed.

#[export] Hint Resolve decodes_ReasonPhrase decodes_truncated_reason
  truncate_reason_len : moq.

(** ** Theorems *)

(** Control frames round-trip on a stream.  A payload of at most 65535 bytes
    is framed by appending to the output, and reading that frame at the head of
    any stream returns its type and payload and leaves the stream at the next
    frame; a larger payload is refused. *)
Theorem frame_roundtrip w t p next : is_u64 t ->
  if decide (len p <= MaxControlMessagePayload) then
    exists e, WriteFrame w t p = Ok (w ++ e) /\ len e = VarintLen t + 2 + len p /\
      ReadFrame (MkStream (e ++ sbytes next) (send next)) = Ok ((t, p), next)
  else exists err, WriteFrame w t p = Err err.
Proof.
  intros Ht. destruct (decide (len p <= MaxControlMessagePayload)) as [Hp|Hp].
  - exists (e_Frame t p). split_and!; [by apply WriteFrame_ok| |].
    + unfold e_Frame. rewrite !len_app. unfold e_Varint. rewrite AppendVarint_len by done.
      unfold len. simpl. lia.
    + by apply decodes_Frame.
  - unfold WriteFrame. rewrite Z.gtb_ltb.
    destruct (Z.ltb_spec MaxControlMessagePayload (len p)); [eauto|lia].
Qed.

Lemma frame_roundtrip_witness :
  is_u64 12032 /\
  exists e, WriteFrame [] 12032 [Byte.x07; Byte.x00] = Ok ([] ++ e) /\ len e = 6 /\
    ReadFrame (MkStream (e ++ [Byte.x10]) Fin) =
      Ok ((12032, [Byte.x07; Byte.x00]), MkStream [Byte.x10] Fin).
Proof.
  split; [zlia|].
  apply (frame_roundtrip [] 12032 [Byte.x07; Byte.x00] (MkStream [Byte.x10] Fin)). zlia.
Defined.

(** A frame cut short is never mistaken for the end of the stream: a FIN
    before the first byte of a frame reads as [EOF], a FIN after any later byte
    of it as [ErrUnexpectedEOF]. *)
Theorem frame_truncation t p e k :
  is_u64 t -> WriteFrame [] t p = Ok e -> (k < length e)%nat ->
  ReadFrame (MkStream (take k e) Fin) = Err (if decide (k = 0%nat) then EOF else ErrUnexpectedEOF).
Proof.
  intros Ht He Hk. destruct (Z.le_gt_cases (len p) MaxControlMessagePayload) as [Hp|Hp].
  - rewrite WriteFrame_ok in He by done. simpl in He. simplify_eq. by apply ReadFrame_truncated.
  - unfold WriteFrame in He. rewrite Z.gtb_ltb in He.
    destruct (Z.ltb_spec MaxControlMessagePayload (len p)); [done|lia].
Qed.

Lemma frame_truncation_witness :
  WriteFrame [] 16 [Byte.x00; Byte.x05] = Ok [Byte.x10; Byte.x00; Byte.x02; Byte.x00; Byte.x05] /\
  ReadFrame (MkStream [Byte.x10; Byte.x00; Byte.x02; Byte.x00] Fin) = Err ErrUnexpectedEOF.
Proof.
  split; [reflexivity|].
  apply (frame_truncation 16 [Byte.x00; Byte.x05]
    [Byte.x10; Byte.x00; Byte.x02; Byte.x00; Byte.x05] 4); [zlia|reflexivity|simpl; lia].
Defined.
