(* ===== verification/KV.v ===== *)
(** * KV: key-value pairs and track namespaces of [pkg/moqt/wire]

    [kv.go] (delta-encoded KVPair lists, the SETUP options and the property
    blocks) and [namespace.go] (Track Namespaces).  Both have a reader that runs
    until the buffer is empty or a count is reached; the loops carry fuel, and
    the lemmas show the fuel is never the reason they stop. *)

From S2P Require Import Prelude Varint Wire.

(** ** KVPair *)
Record KVPair : Type := MkKV { kv_Type : Z; kv_IntVal : Z; kv_ByteVal : bytes }.

#[global] Instance KVPair_eq_dec : EqDecision KVPair.
Proof. solve_decision. Defined.

Definition odd_type (t : Z) : bool := Z.land t 1 =? 1.
Definition IsBytes (p : KVPair) : bool := odd_type (kv_Type p).
Definition MaxKVPairValueBytes : Z := 65535.

Definition w_KVPair (w : Writer) (p : KVPair) (prev : Z) : Writer * Z :=
  let w := w_Varint w (u64 (kv_Type p - prev)) in
  let w := if IsBytes p then w_VarintBytes w (kv_ByteVal p) else w_Varint w (kv_IntVal p) in
  (w, kv_Type p).

Definition kv_sort (pairs : list KVPair) : list KVPair :=
  SortStableFunc (by_key kv_Type) pairs.

Definition w_KVPairs (w : Writer) (pairs : list KVPair) : Writer :=
  (fold_left (fun '(w, prev) p => w_KVPair w p prev) (kv_sort pairs) (w, 0)).1.

Definition r_kvPair (prev : Z) (copyBytes : bool) : M Reader (KVPair * Z) :=
  delta ← r_Varint;
  _ ← guard (delta <=? MaxUint64 - prev) (Errorf "kv pair type delta overflow");
  let t := prev + delta in
  if odd_type t then
    b ← r_varintBytes copyBytes;
    _ ← guard (len b <=? MaxKVPairValueBytes) (Errorf "kv pair value too long");
    mret (MkKV t 0 b, t)
  else
    v ← r_Varint;
    mret (MkKV t v [], t).

Definition r_KVPair (prev : Z) : M Reader (KVPair * Z) := r_kvPair prev true.
Definition r_KVPairView (prev : Z) : M Reader (KVPair * Z) := r_kvPair prev false.

(** The loop [for !r.Empty()]; every turn consumes at least one byte. *)
Fixpoint kv_loop (fuel : nat) (prev : Z) (r : Reader) : result (list KVPair * Reader) :=
  if Empty r then Ok ([], r)
  else match fuel with
       | O => Err OutOfFuel
       | S fuel' =>
           '((p, next), r) ← r_KVPair prev r;
           '(ps, r) ← kv_loop fuel' next r;
           Ok (p :: ps, r)
       end.

Definition r_KVPairsRemaining : M Reader (list KVPair) := fun r =>
  kv_loop (length (buf r)) 0 r.

(** ** TrackNamespace *)
Abbreviation TrackNamespace := (list bytes) (only parsing).

Definition MaxTrackNamespaceFields : Z := 32.
Definition MaxFullTrackNameBytes : Z := 4096.

(** The body of the field loop: [count] fields left, [total] bytes so far. *)
Fixpoint ns_loop (count : nat) (total : Z) : M Reader TrackNamespace :=
  match count with
  | O => mret []
  | S count' =>
      field ← r_VarintBytes;
      _ ← guard (negb (len field =? 0)) (Errorf "track namespace field has zero length");
      let total := total + len field in
      _ ← guard (total <=? MaxFullTrackNameBytes) (Errorf "track namespace too long");
      ns ← ns_loop count' total;
      mret (field :: ns)
  end.

Definition r_TrackNamespace : M Reader TrackNamespace :=
  count ← r_Varint;
  _ ← guard (count <=? MaxTrackNamespaceFields) (Errorf "track namespace has too many fields");
  ns_loop (Z.to_nat count) 0.

Definition w_TrackNamespace (w : Writer) (ns : TrackNamespace) : Writer :=
  fold_left w_VarintBytes ns (w_Varint w (len ns)).

Definition ByteLen (ns : TrackNamespace) : Z := fold_left (fun total f => total + len f) ns 0.

Fixpoint has_prefix_fields (prefix ns : TrackNamespace) : bool :=
  match prefix, ns with
  | [], _ => true
  | p :: prefix', f :: ns' => bool_decide (p = f) && has_prefix_fields prefix' ns'
  | _ :: _, [] => false
  end.

Definition HasPrefix (ns prefix : TrackNamespace) : bool :=
  if len prefix >? len ns then false else has_prefix_fields prefix ns.

(** ** Readers make progress *)

(** A successful read keeps the buffer and never moves the offset back. *)
Definition forward {A} (p : M Reader A) : Prop :=
  forall r x r', p r = Ok (x, r') -> buf r' = buf r /\ (off r <= off r')%nat.

Lemma parse_varint_err b e : ParseVarint b = Err e -> e = ErrShortBuffer.
Proof.
  destruct b as [|b0 tl]; simpl; [congruence|].
  destruct (_ <? _); [congruence|]. by destruct (_ =? _).
Qed.

Lemma plain_r_Varint : plain_errs r_Varint.
Proof.
  intros s e. unfold r_Varint. destruct (ParseVarint _) as [[]|e'] eqn:E; [done|].
  apply parse_varint_err in E as ->. by intros [= <-].
Qed.

Lemma plain_r_UInt8 : plain_errs r_UInt8.
Proof.
  intros s e. unfold r_UInt8, Remaining, len. case_match eqn:E; [by intros [= <-]|].
  destruct (buf s !! off s) eqn:El; [done|].
  apply lookup_ge_None in El. apply Z.ltb_ge in E. lia.
Qed.

Lemma plain_r_FixedBytes n : plain_errs (r_FixedBytes n).
Proof. intros s e. unfold r_FixedBytes. repeat case_match; intros; simplify_eq; done. Qed.

Lemma plain_r_varintBytes copy : plain_errs (r_varintBytes copy).
Proof.
  apply plain_bind; [apply plain_r_Varint|]. intros n r e. unfold r_lengthBytes, r_FixedBytes.
  repeat case_match; intros; simplify_eq; done.
Qed.

Lemma plain_r_VarintBytes : plain_errs r_VarintBytes.
Proof. apply plain_r_varintBytes. Qed.

#[export] Hint Resolve plain_r_Varint plain_r_UInt8 plain_r_FixedBytes plain_r_varintBytes
  plain_r_VarintBytes : moq.

Lemma plain_r_kvPair prev copy : plain_errs (r_kvPair prev copy).
Proof. unfold r_kvPair. plain_tac. Qed.

Lemma forward_bind {A B} (p : M Reader A) (f : A -> M Reader B) :
  forward p -> (forall x, forward (f x)) -> forward (p ≫= f).
Proof.
  intros Hp Hf r x r' H. minv H. apply Hp in H0 as [? ?]. apply Hf in H as [? ?].
  split; [congruence|lia].
Qed.
Lemma forward_ret {A} (x : A) : forward (mret x).
Proof. intros r y r' H. minv H. done. Qed.
Lemma forward_guard b e : forward (guard b e).
Proof. intros r y r' H. minv H. done. Qed.

Lemma forward_wrap {A} f (p : M Reader A) : forward p -> forward (wrap_err f p).
Proof. intros Hp r y r' H. minv H. by apply (Hp _ _ _ H). Qed.
Lemma forward_if {A} (b : bool) (p q : M Reader A) :
  forward p -> forward q -> forward (if b then p else q).
Proof. by destruct b. Qed.

Lemma forward_r_UInt8 : forward r_UInt8.
Proof.
  intros r v r' H. unfold r_UInt8 in H. repeat case_match; simplify_eq; simpl; auto with lia.
Qed.

Lemma r_Varint_forward r v r' : r_Varint r = Ok (v, r') ->
  buf r' = buf r /\ (off r < off r')%nat.
Proof.
  unfold r_Varint. destruct (ParseVarint _) as [[v' n]|] eqn:E; simpl; [|done].
  intros [= <- <-]. simpl. apply parse_varint_bounds in E as (? & _). split; [done|lia].
Qed.

Lemma forward_r_Varint : forward r_Varint.
Proof. intros r v r' H. apply r_Varint_forward in H as [? ?]. auto with lia. Qed.

Lemma forward_r_varintBytes copy : forward (r_varintBytes copy).
Proof.
  apply forward_bind; [apply forward_r_Varint|]. intros n r x r' H.
  unfold r_lengthBytes, r_FixedBytes in H.
  repeat case_match; simplify_eq; simpl; auto with lia.
Qed.

Lemma forward_r_VarintBytes : forward r_VarintBytes.
Proof. apply forward_r_varintBytes. Qed.

#[export] Hint Resolve forward_ret forward_guard forward_wrap forward_r_UInt8 forward_r_Varint
  forward_r_varintBytes forward_r_VarintBytes : moq.

Ltac forward_tac :=
  cbv zeta;
  lazymatch goal with
  | |- forward (mbind _ _) => apply forward_bind; [forward_tac|intros ?; forward_tac]
  | |- forward (if _ then _ else _) => apply forward_if; forward_tac
  | |- forward (match ?x with _ => _ end) => destruct x; forward_tac
  | _ => auto with moq
  end.

Definition strictly_forward {A} (p : M Reader A) : Prop :=
  forall r x r', p r = Ok (x, r') -> buf r' = buf r /\ (off r < off r')%nat.

Lemma strictly_forward_bind {A B} (p : M Reader A) (f : A -> M Reader B) :
  strictly_forward p -> (forall x, forward (f x)) -> strictly_forward (p ≫= f).
Proof.
  intros Hp Hf r x r' H. minv H. apply Hp in H0 as [? ?]. apply Hf in H as [? ?].
  split; [congruence|lia].
Qed.

Lemma r_kvPair_forward prev copy : strictly_forward (r_kvPair prev copy).
Proof.
  unfold r_kvPair. apply strictly_forward_bind; [exact r_Varint_forward|]. intros d.
  forward_tac.
Qed.

(** Enough fuel: one unit per byte left.  The loop then never runs out. *)
Lemma kv_loop_plain fuel : forall prev r e,
  (length (buf r) - off r <= fuel)%nat -> kv_loop fuel prev r = Err e -> plain e = true.
Proof.
  induction fuel as [|fuel IH]; intros prev r e Hf; simpl.
  - unfold Empty. destruct (Nat.leb_spec (length (buf r)) (off r)); [done|lia].
  - destruct (Empty r); [done|]. unfold r_KVPair.
    destruct (r_kvPair prev true r) as [[[p next] r']|e'] eqn:E; simpl.
    + apply r_kvPair_forward in E as [Hb Ho].
      destruct (kv_loop fuel next r') as [[]|e''] eqn:El; simpl; [done|].
      intros [= <-]. apply IH in El; [done|]. rewrite Hb. lia.
    + intros [= <-]. by eapply plain_r_kvPair.
Qed.

Lemma plain_r_KVPairsRemaining : plain_errs r_KVPairsRemaining.
Proof. intros r e. apply kv_loop_plain. lia. Qed.

Lemma plain_ns_loop count : forall total, plain_errs (ns_loop count total).
Proof. induction count as [|count IH]; intros total; cbn [ns_loop]; plain_tac. Qed.

#[export] Hint Resolve plain_ns_loop plain_r_KVPairsRemaining : moq.

Lemma plain_r_TrackNamespace : plain_errs r_TrackNamespace.
Proof. unfold r_TrackNamespace. plain_tac. Qed.

#[export] Hint Resolve plain_r_TrackNamespace : moq.

(** ** Key-value pairs: well-formedness and round trip *)

(** The pairs a reader produces: the value in the field the parity of the type
    selects, the other field zero. *)
Definition wf_kv (p : KVPair) : Prop :=
  is_u64 (kv_Type p) /\
  if IsBytes p then kv_IntVal p = 0 /\ len (kv_ByteVal p) <= MaxKVPairValueBytes
  else is_u64 (kv_IntVal p) /\ kv_ByteVal p = [].

#[global] Instance wf_kv_dec p : Decision (wf_kv p).
Proof. unfold wf_kv. destruct (IsBytes p); apply _. Defined.

Definition e_KVPair (p : KVPair) (prev : Z) : bytes :=
  e_Varint (u64 (kv_Type p - prev)) ++
  (if IsBytes p then e_VarintBytes (kv_ByteVal p) else e_Varint (kv_IntVal p)).

Fixpoint e_KVList (prev : Z) (l : list KVPair) : bytes :=
  match l with
  | [] => []
  | p :: l' => e_KVPair p prev ++ e_KVList (kv_Type p) l'
  end.

Lemma w_KVPair_app w p prev : w_KVPair w p prev = (w ++ e_KVPair p prev, kv_Type p).
Proof.
  unfold w_KVPair, e_KVPair. destruct (IsBytes p); wnorm; done.
Qed.

Lemma w_KVPairs_fold l : forall w prev,
  (fold_left (fun '(w, prev) p => w_KVPair w p prev) l (w, prev)).1 = w ++ e_KVList prev l.
Proof.
  induction l as [|p l IH]; intros w prev; simpl; [by rewrite app_nil_r|].
  rewrite w_KVPair_app, IH. by rewrite app_assoc.
Qed.

Lemma w_KVPairs_app w pairs : w_KVPairs w pairs = w ++ e_KVList 0 (kv_sort pairs).
Proof. apply w_KVPairs_fold. Qed.

#[export] Hint Rewrite w_KVPairs_app : moq_w.

(** In type order, from [prev] on. *)
Definition kv_ordered (prev : Z) (l : list KVPair) : Prop :=
  Forall (fun p => prev <= kv_Type p) l /\ StronglySorted (le (by_key kv_Type)) l.

Lemma decodes_kvPair copy p prev : wf_kv p -> is_u64 prev -> prev <= kv_Type p ->
  decodes (r_kvPair prev copy) (e_KVPair p prev) (p, kv_Type p).
Proof.
  intros [Ht Hv] Hp Hle. unfold r_kvPair, e_KVPair.
  rewrite u64_sub_le by done.
  apply decodes_bind with (kv_Type p - prev); [apply r_decodes_Varint; zlia|].
  apply decodes_bind_nil with tt; [apply decodes_guard, Z.leb_le; zlia|].
  cbv zeta. replace (prev + (kv_Type p - prev)) with (kv_Type p) by lia.
  unfold IsBytes in *. destruct (odd_type (kv_Type p)).
  - destruct Hv as [Hi Hb]. apply decodes_bind_last with (kv_ByteVal p).
    { apply r_decodes_varintBytes. unfold go_len, MaxKVPairValueBytes in *. lia. }
    apply decodes_bind_nil with tt; [apply decodes_guard, Z.leb_le; done|].
    destruct p; simpl in *; subst. apply decodes_ret.
  - destruct Hv as [Hi Hb]. apply decodes_bind_last with (kv_IntVal p).
    { by apply r_decodes_Varint. }
    destruct p; simpl in *; subst. apply decodes_ret.
Qed.

Lemma e_Varint_length v : is_u64 v -> (1 <= length (e_Varint v))%nat.
Proof.
  intros Hv. pose proof (AppendVarint_len v Hv) as Hl. fold (e_Varint v) in Hl.
  destruct (VarintLen_spec v) as [? _]; [zlia|]. unfold len in Hl. lia.
Qed.

Lemma e_KVPair_length p prev : (1 <= length (e_KVPair p prev))%nat.
Proof.
  unfold e_KVPair. rewrite length_app.
  pose proof (e_Varint_length (u64 (kv_Type p - prev)) (u64_range _)). lia.
Qed.

Lemma Empty_rest r : (off r <= length (buf r))%nat -> Empty r = bool_decide (rest r = []).
Proof.
  intros Hl. unfold Empty, rest. destruct (Nat.leb_spec (length (buf r)) (off r)).
  - rewrite drop_ge by done. done.
  - symmetry. apply bool_decide_eq_false. intros E.
    apply (f_equal length) in E. rewrite length_drop in E. simpl in E. lia.
Qed.

Lemma kv_loop_decodes fuel : forall l prev, (length (e_KVList prev l) <= fuel)%nat ->
  is_u64 prev -> Forall wf_kv l -> kv_ordered prev l ->
  decodes_end (kv_loop fuel prev) (e_KVList prev l) l.
Proof.
  induction fuel as [|fuel IH]; intros [|p l] prev Hf Hprev Hwf [Hge Hs] r Hl Hr.
  - simpl in *. rewrite Empty_rest, Hr by done. simpl. exact (decodes_end_of (mret []) [] [] (decodes_ret []) r Hl Hr).
  - cbn [e_KVList] in Hf. rewrite length_app in Hf. pose proof (e_KVPair_length p prev). lia.
  - simpl in *. rewrite Empty_rest, Hr by done. simpl. exact (decodes_end_of (mret []) [] [] (decodes_ret []) r Hl Hr).
  - cbn [e_KVList] in *. rewrite length_app in Hf. pose proof (e_KVPair_length p prev) as Hlen.
    cbn [kv_loop]. rewrite Empty_rest, Hr by done.
    destruct (bool_decide_reflect (e_KVPair p prev ++ e_KVList (kv_Type p) l = [])) as [E|_].
    { apply app_nil in E as [E _]. rewrite E in Hlen. simpl in Hlen. lia. }
    apply Forall_cons in Hwf as [Hp Hwf]. apply Forall_cons in Hge as [Hle Hge].
    apply StronglySorted_inv in Hs as [Hs Hps].
    destruct (at_rest _ _ _ Hl Hr) as (Ha & Hb & Hc).
    unfold r_KVPair. rewrite (decodes_kvPair true p prev Hp Hprev Hle _ _ Ha). simpl.
    rewrite (IH l (kv_Type p)); [done|lia|apply Hp|done| |done|done].
    split; [|done]. eapply Forall_impl; [exact Hps|].
    intros q Hq. unfold le, by_key in Hq. apply Z.ltb_ge in Hq. done.
Qed.

Lemma kv_sort_ordered pairs : Forall wf_kv pairs -> kv_ordered 0 (kv_sort pairs).
Proof.
  intros Hwf. split; [|apply sort_by_key_sorted].
  unfold kv_sort. rewrite (sort_stable_perm _ pairs).
  eapply Forall_impl; [exact Hwf|]. intros p [Ht _]. zlia.
Qed.

Lemma kv_sort_wf pairs : Forall wf_kv pairs -> Forall wf_kv (kv_sort pairs).
Proof. intros. unfold kv_sort. by rewrite (sort_stable_perm _ pairs). Qed.

Lemma decodes_KVPairsRemaining pairs : Forall wf_kv pairs ->
  decodes_end r_KVPairsRemaining (e_KVList 0 (kv_sort pairs)) (kv_sort pairs).
Proof.
  intros Hwf r Hl Hr. unfold r_KVPairsRemaining.
  apply kv_loop_decodes; [|zlia|by apply kv_sort_wf|by apply kv_sort_ordered|done|done].
  rewrite <- Hr. unfold rest. rewrite length_drop. lia.
Qed.

(** What a successful read of one pair, and of a whole block, guarantees. *)
Lemma r_kvPair_snd prev copy r p next r' : r_wf r -> is_u64 prev ->
  r_kvPair prev copy r = Ok ((p, next), r') ->
  wf_kv p /\ next = kv_Type p /\ prev <= kv_Type p /\ r_wf r'.
Proof.
  intros Hw Hprev H. unfold r_kvPair in H. mpeel.
  destruct (odd_type (prev + _)) eqn:E; msnd; rewrite ?Z.leb_le in *;
    unfold wf_kv, IsBytes; simpl; rewrite E; split_and!; (done || zlia).
Qed.

Lemma kv_ordered_nil prev r : Empty r = true -> r_wf r ->
  Forall wf_kv [] /\ kv_ordered prev [] /\ Empty r = true /\ r_wf r.
Proof. intros. unfold kv_ordered. split_and!; (done || constructor). Qed.

Lemma kv_loop_snd fuel : forall prev r l r', r_wf r -> is_u64 prev ->
  kv_loop fuel prev r = Ok (l, r') ->
  Forall wf_kv l /\ kv_ordered prev l /\ Empty r' = true /\ r_wf r'.
Proof.
  induction fuel as [|fuel IH]; intros prev r l r' Hw Hprev H; simpl in H.
  - destruct (Empty r) eqn:E; simplify_eq. by apply kv_ordered_nil.
  - destruct (Empty r) eqn:E; simplify_eq; [by apply kv_ordered_nil|].
    destruct (r_KVPair prev r) as [[[p next] r1]|] eqn:Ep; simpl in H; [|done].
    destruct (kv_loop fuel next r1) as [[ps r2]|] eqn:El; simpl in H; simplify_eq.
    apply r_kvPair_snd in Ep as (Hp & -> & Hle & Hw1); [|done|done].
    apply IH in El as (Hwf & [Hge Hs] & He & Hw2); [|done|apply Hp].
    split_and!; [by constructor| |done|done]. split.
    + constructor; [done|]. eapply Forall_impl; [exact Hge|]. simpl. lia.
    + constructor; [done|]. eapply Forall_impl; [exact Hge|]. intros q Hq.
      unfold le, by_key. by apply Z.ltb_ge.
Qed.

Lemma kv_ordered_sort prev l : kv_ordered prev l -> kv_sort l = l.
Proof. intros [_ Hs]. by apply sort_stable_id. Qed.

Lemma r_KVPairsRemaining_snd r l r' : r_wf r -> r_KVPairsRemaining r = Ok (l, r') ->
  Forall wf_kv l /\ kv_sort l = l /\ Empty r' = true /\ r_wf r'.
Proof.
  intros Hw H. apply kv_loop_snd in H as (? & ? & ? & ?); [|done|zlia].
  split_and!; try done. by eapply kv_ordered_sort.
Qed.

(** ** Track namespaces *)

(** The bounds of §8.7: at most 32 fields, none empty, 4096 bytes in all. *)
Definition wf_ns (ns : TrackNamespace) : Prop :=
  len ns <= MaxTrackNamespaceFields /\ Forall (fun f => f <> []) ns /\
  ByteLen ns <= MaxFullTrackNameBytes.

#[global] Instance wf_ns_dec ns : Decision (wf_ns ns).
Proof. unfold wf_ns. apply _. Defined.

Lemma ByteLen_acc ns : forall t, fold_left (fun total f => total + len f) ns t = t + ByteLen ns.
Proof.
  unfold ByteLen. induction ns as [|f ns IH]; intros t; cbn [fold_left]; [lia|].
  rewrite (IH (t + len f)), (IH (0 + len f)). lia.
Qed.

Lemma ByteLen_cons f ns : ByteLen (f :: ns) = len f + ByteLen ns.
Proof. unfold ByteLen at 1. cbn [fold_left]. rewrite ByteLen_acc. lia. Qed.

Lemma ByteLen_nonneg ns : 0 <= ByteLen ns.
Proof.
  induction ns as [|f ns IH]; [done|]. rewrite ByteLen_cons. pose proof (len_nonneg f). lia.
Qed.

Definition e_TrackNamespace (ns : TrackNamespace) : bytes :=
  e_Varint (len ns) ++ concat (e_VarintBytes <$> ns).

Lemma w_TrackNamespace_app w ns : w_TrackNamespace w ns = w ++ e_TrackNamespace ns.
Proof.
  unfold w_TrackNamespace, e_TrackNamespace. rewrite w_Varint_app, app_assoc.
  generalize (w ++ e_Varint (len ns)) as w'. clear w.
  induction ns as [|f ns IH]; intros w; simpl; [by rewrite app_nil_r|].
  rewrite IH, w_VarintBytes_app. by rewrite app_assoc.
Qed.

#[export] Hint Rewrite w_TrackNamespace_app : moq_w.

Lemma decodes_ns_loop ns : forall total, 0 <= total ->
  Forall (fun f => f <> []) ns -> total + ByteLen ns <= MaxFullTrackNameBytes ->
  decodes (ns_loop (length ns) total) (concat (e_VarintBytes <$> ns)) ns.
Proof.
  induction ns as [|f ns IH]; intros total Ht Hne Hl; [apply decodes_ret|].
  rewrite ByteLen_cons in Hl. apply Forall_cons in Hne as [Hf Hne].
  pose proof (ByteLen_nonneg ns). pose proof (len_nonneg f).
  cbn [length ns_loop fmap list_fmap concat]. unfold MaxFullTrackNameBytes in Hl.
  apply decodes_bind with f. { apply r_decodes_VarintBytes. unfold go_len. lia. }
  apply decodes_bind_nil with tt.
  { apply decodes_guard. destruct (Z.eqb_spec (len f) 0) as [E|]; [|done].
    by apply len_zero in E. }
  cbv zeta. apply decodes_bind_nil with tt.
  { apply decodes_guard, Z.leb_le. unfold MaxFullTrackNameBytes. lia. }
  apply decodes_bind_last with ns; [|apply decodes_ret].
  apply IH; [lia|done|]. unfold MaxFullTrackNameBytes. lia.
Qed.

Lemma decodes_TrackNamespace ns : wf_ns ns ->
  decodes r_TrackNamespace (e_TrackNamespace ns) ns.
Proof.
  intros (Hn & Hne & Hl). unfold r_TrackNamespace, e_TrackNamespace.
  pose proof (len_nonneg ns). unfold MaxTrackNamespaceFields in Hn.
  apply decodes_bind with (len ns); [apply r_decodes_Varint; zlia|].
  apply decodes_bind_nil with tt; [by apply decodes_guard, Z.leb_le|].
  unfold len at 1. rewrite Nat2Z.id. by apply decodes_ns_loop.
Qed.

#[export] Hint Resolve decodes_TrackNamespace : moq.

Lemma ns_loop_snd count : forall total r ns r', r_wf r ->
  ns_loop count total r = Ok (ns, r') ->
  length ns = count /\ Forall (fun f => f <> []) ns /\
  (count <> 0%nat -> total + ByteLen ns <= MaxFullTrackNameBytes) /\ r_wf r'.
Proof.
  induction count as [|count IH]; intros total r ns r' Hw H; cbn [ns_loop] in H.
  { minv H. by split_and!. }
  msnd. match goal with H : ns_loop _ _ _ = Ok _ |- _ =>
    apply IH in H as (Hn & Hne & Hl & Hw2); [|done] end.
  rewrite ByteLen_cons. rewrite ?Z.leb_le in *. simpl. split_and!; [lia| | |done].
  - constructor; [|done]. intros E. subst a. done.
  - intros _. destruct count; [|specialize (Hl ltac:(lia)); lia].
    apply nil_length_inv in Hn. subst. unfold ByteLen; simpl. lia.
Qed.

Lemma r_TrackNamespace_snd r ns r' : r_wf r -> r_TrackNamespace r = Ok (ns, r') ->
  wf_ns ns /\ r_wf r'.
Proof.
  intros Hw H. unfold r_TrackNamespace in H. msnd. rewrite ?Z.leb_le in *.
  apply ns_loop_snd in H as (Hn & Hne & Hl & Hw2); [|done].
  split; [|done]. unfold wf_ns, len. rewrite Hn. split_and!; [zlia|done|].
  destruct ns; [|apply Hl; simpl in Hn; lia]. done.
Qed.

Lemma has_prefix_fields_spec prefix : forall ns,
  has_prefix_fields prefix ns = true <-> prefix `prefix_of` ns.
Proof.
  induction prefix as [|p prefix IH]; intros ns; simpl.
  { split; [intros _; apply prefix_nil|done]. }
  destruct ns as [|f ns].
  { split; [done|]. intros [k Hk]. done. }
  rewrite andb_true_iff, bool_decide_eq_true, IH. split.
  - intros [-> ?]. by apply prefix_cons.
  - intros Hp. split; [by eapply prefix_cons_inv_1|by eapply prefix_cons_inv_2].
Qed.

Lemma HasPrefix_spec ns prefix : HasPrefix ns prefix = true <-> prefix `prefix_of` ns.
Proof.
  unfold HasPrefix. rewrite Z.gtb_ltb. destruct (Z.ltb_spec (len ns) (len prefix)).
  - split; [done|]. intros Hp%prefix_length. unfold len in *. lia.
  - apply has_prefix_fields_spec.
Qed.

(** What the field loop reads back from encoded fields is those fields. *)
Lemma ns_loop_exact ns : forall total r r' x r'', Forall go_len ns ->
  r_at r (concat (e_VarintBytes <$> ns)) r' ->
  ns_loop (length ns) total r = Ok (x, r'') -> x = ns.
Proof.
  induction ns as [|f ns IH]; intros total r r' x r'' Hg Ha H; cbn [length ns_loop] in H.
  { by minv H. }
  apply Forall_cons in Hg as [Hf Hg]. cbn [fmap list_fmap concat] in Ha.
  apply r_at_app in Ha as (r1 & Ha & Hb). mpeel.
  match goal with H : r_VarintBytes _ = _ |- _ =>
    rewrite (r_decodes_VarintBytes f Hf _ _ Ha) in H; simplify_eq end.
  f_equal. by eapply IH.
Qed.

Lemma r_TrackNamespace_exact ns r r' x r'' : Forall go_len ns -> go_len ns ->
  r_at r (e_TrackNamespace ns) r' -> r_TrackNamespace r = Ok (x, r'') -> x = ns.
Proof.
  intros Hg Hn Ha H. apply r_at_app in Ha as (r1 & Ha & Hb). unfold r_TrackNamespace in H. mpeel.
  match goal with H : r_Varint _ = _ |- _ =>
    rewrite (r_decodes_Varint (len ns) (go_len_u64 _ Hn) _ _ Ha) in H; simplify_eq end.
  unfold len in H. rewrite Nat2Z.id in H. by eapply ns_loop_exact.
Qed.

(** ** Theorems *)

(** A list of key-value pairs survives encoding up to the order the format
    prescribes.  Whatever order the caller passes them in, decoding the encoded
    block consumes it whole and yields a permutation of the pairs, in
    non-decreasing type order, and pairs of one type stay in the caller's order. *)
Theorem kv_roundtrip pairs : Forall wf_kv pairs ->
  exists out r', r_KVPairsRemaining (NewReader (w_KVPairs [] pairs)) = Ok (out, r') /\
    Empty r' = true /\ out ≡ₚ pairs /\
    StronglySorted (fun p q => kv_Type p <= kv_Type q) out /\
    forall t, filter (fun p => kv_Type p = t) out = filter (fun p => kv_Type p = t) pairs.
Proof.
  intros Hwf. rewrite w_KVPairs_app. eexists _, _. split_and!.
  - by apply decodes_NewReader, decodes_KVPairsRemaining.
  - by apply Nat.leb_le.
  - apply sort_stable_perm.
  - apply sort_by_key_le.
  - intros t. apply sort_stable_filter; eauto using by_key_trans, by_key_total.
    intros p q <- ?. unfold by_key. apply Z.ltb_ge. lia.
Qed.

Lemma kv_roundtrip_witness :
  let pairs := [MkKV 6 9 []; MkKV 3 0 [Byte.x01]; MkKV 6 1 []; MkKV 3 0 []] in
  Forall wf_kv pairs /\
  r_KVPairsRemaining (NewReader (w_KVPairs [] pairs)) =
    Ok ([MkKV 3 0 [Byte.x01]; MkKV 3 0 []; MkKV 6 9 []; MkKV 6 1 []],
        MkReader (w_KVPairs [] pairs) 9) /\
  exists out r', r_KVPairsRemaining (NewReader (w_KVPairs [] pairs)) = Ok (out, r') /\
    out ≡ₚ pairs.
Proof.
  intros pairs. assert (Forall wf_kv pairs) as Hwf
    by by_decide.
  split; [exact Hwf|]. split; [reflexivity|].
  destruct (kv_roundtrip pairs Hwf) as (out & r' & H & _ & Hp & _). by exists out, r'.
Defined.

(** Decoding a pair block is total and normalising.  On every buffer the
    loop ends by itself, with pairs or with one of the errors the code reports
    (never for lack of fuel, never with a panic); a block it accepts is consumed
    whole, every pair is in range, types do not decrease, and re-encoding the
    result gives a block that decodes to the same pairs. *)
Theorem kv_decode_normal b : go_len b ->
  match r_KVPairsRemaining (NewReader b) with
  | Ok (l, r') =>
      Empty r' = true /\ Forall wf_kv l /\
      StronglySorted (fun p q => kv_Type p <= kv_Type q) l /\
      exists r'', r_KVPairsRemaining (NewReader (w_KVPairs [] l)) = Ok (l, r'')
  | Err e => plain e = true
  end.
Proof.
  intros Hb. destruct (r_KVPairsRemaining (NewReader b)) as [[l r']|e] eqn:E.
  - apply r_KVPairsRemaining_snd in E as (Hwf & Hs & He & _); [|split; simpl; [done|lia]].
    split_and!; [done|done| |].
    + rewrite <- Hs. apply sort_by_key_le.
    + eexists. rewrite w_KVPairs_app. rewrite <- Hs at 2.
      by apply decodes_NewReader, decodes_KVPairsRemaining.
  - by eapply plain_r_KVPairsRemaining.
Qed.

Lemma kv_decode_normal_witness :
  let b := [Byte.x03; Byte.x01; Byte.x41; Byte.x01; Byte.x05] in
  go_len b /\
  exists r'', r_KVPairsRemaining (NewReader (w_KVPairs [] [MkKV 3 0 [Byte.x41]; MkKV 4 5 []])) =
    Ok ([MkKV 3 0 [Byte.x41]; MkKV 4 5 []], r'').
Proof.
  intros b. assert (go_len b) as Hb by (unfold go_len; vm_compute; reflexivity).
  split; [exact Hb|]. exact (proj2 (proj2 (proj2 (kv_decode_normal b Hb)))).
Defined.

(** Track Namespaces round-trip exactly within the bounds of the draft.  A
    namespace of at most 32 non-empty fields and 4096 bytes is read back as
    written, at any place in a buffer; the encoding of any other namespace is
    rejected. *)
Theorem namespace_roundtrip ns pre post : Forall go_len ns -> go_len ns ->
  let r := MkReader (w_TrackNamespace pre ns ++ post) (length pre) in
  go_len (buf r) ->
  match r_TrackNamespace r with
  | Ok (ns', r') => wf_ns ns /\ ns' = ns /\ rest r' = post
  | Err _ => ~ wf_ns ns
  end.
Proof.
  intros Hg Hn r Hb.
  assert (Hr : rest r = e_TrackNamespace ns ++ post).
  { unfold rest, r. simpl. rewrite w_TrackNamespace_app, <- app_assoc.
    by rewrite drop_app_length. }
  assert (Hl : (off r <= length (buf r))%nat).
  { unfold r. simpl. rewrite w_TrackNamespace_app, !length_app. lia. }
  destruct (at_rest _ _ _ Hl Hr) as (Ha & Hp & _).
  destruct (r_TrackNamespace r) as [[ns' r']|e] eqn:E.
  - pose proof (r_TrackNamespace_exact _ _ _ _ _ Hg Hn Ha E) as ->.
    pose proof E as E'. apply r_TrackNamespace_snd in E as [Hw _]; [|by split].
    rewrite (decodes_TrackNamespace ns Hw _ _ Ha) in E'. simplify_eq. done.
  - intros Hw. rewrite (decodes_TrackNamespace ns Hw _ _ Ha) in E. done.
Qed.

Lemma namespace_roundtrip_witness :
  let ns := [[Byte.x41]; [Byte.x42; Byte.x43]] in
  let buf := w_TrackNamespace [] ns ++ [Byte.xff] in
  r_TrackNamespace (MkReader buf 0) = Ok (ns, MkReader buf 6) /\ wf_ns ns.
Proof.
  intros ns buf. assert (r_TrackNamespace (MkReader buf 0) = Ok (ns, MkReader buf 6)) as E
    by reflexivity.
  split; [exact E|].
  pose proof (namespace_roundtrip ns [] [Byte.xff] ltac:(repeat constructor)
    ltac:(reflexivity) ltac:(reflexivity)) as H.
  change (MkReader (w_TrackNamespace [] ns ++ [Byte.xff]) (length (@nil byte)))
    with (MkReader buf 0) in H.
  rewrite E in H. exact (proj1 H).
Defined.
