(* ===== verification/Track.v ===== *)
(** * Track: Full Track Names and their map keys

    [pkg/moqt/track/track.go], and [namespaceWireKey] of
    [pkg/relay/discovery/memory.go].  Go maps are indexed by the wire encoding of a
    name; the lemmas below show that distinct names have distinct keys, which is
    what lets the registries index tracks by key. *)

From S2P Require Import Prelude Varint Wire KV.

Record FullTrackName : Type := MkName { fn_Namespace : TrackNamespace; fn_Name : bytes }.
#[global] Instance FullTrackName_eq_dec : EqDecision FullTrackName.
Proof. solve_decision. Defined.

Record Key : Type := MkKey { k_namespace : bytes; k_name : bytes }.
#[global] Instance Key_eq_dec : EqDecision Key.
Proof. solve_decision. Defined.
#[global] Program Instance Key_countable : Countable Key :=
  inj_countable' (fun k => (k_namespace k, k_name k)) (fun p => MkKey p.1 p.2) _.
Next Obligation. by intros []. Qed.

Definition fn_Key (n : FullTrackName) : Key := MkKey (w_TrackNamespace [] (fn_Namespace n)) (fn_Name n).
Definition NewKey (ns : TrackNamespace) (name : bytes) : Key := fn_Key (MkName ns name).

(** [encoding/binary.AppendUvarint]: seven bits a byte, lowest first; ten bytes
    hold 64 bits. *)
Fixpoint uvarint_bytes (n : nat) (x : Z) : bytes :=
  match n with
  | O => [z2b x]
  | S n' => if x <? 128 then [z2b x] else z2b (Z.lor (x mod 256) 128) :: uvarint_bytes n' (Z.shiftr x 7)
  end.
Definition AppendUvarint (b : bytes) (x : Z) : bytes := b ++ uvarint_bytes 9 x.

Definition Key_Bytes (k : Key) : bytes :=
  AppendUvarint [] (len (k_namespace k)) ++ k_namespace k ++ k_name k.

Definition namespaceWireKey (ns : TrackNamespace) : bytes := w_TrackNamespace [] ns.

(** ** Keys are injective *)

(** The varint is a prefix code. *)
Lemma varint_prefix a b r s : is_u64 a -> is_u64 b -> e_Varint a ++ r = e_Varint b ++ s -> a = b /\ r = s.
Proof.
  intros Ha Hb H. pose proof (parse_append a r Ha) as Hpa. pose proof (parse_append b s Hb) as Hpb.
  unfold e_Varint in H. rewrite H, Hpb in Hpa. assert (a = b) as -> by congruence.
  split; [done|]. by apply app_inv_head in H.
Qed.

Lemma varint_bytes_prefix a b r s : go_len a -> go_len b ->
  e_VarintBytes a ++ r = e_VarintBytes b ++ s -> a = b /\ r = s.
Proof.
  unfold e_VarintBytes. rewrite <- !app_assoc. intros Ha Hb H.
  apply varint_prefix in H as [Hl H]; auto with moq. apply app_inj_1 in H; [done|]. unfold len in Hl. lia.
Qed.

Definition wf_ns (ns : TrackNamespace) : Prop := go_len ns /\ Forall go_len ns.

Lemma fields_app ns : forall w, fold_left w_VarintBytes ns w = w ++ concat (e_VarintBytes <$> ns).
Proof.
  induction ns as [|f ns IH]; intros w; simpl; [by rewrite app_nil_r|].
  by rewrite IH, w_VarintBytes_app, app_assoc.
Qed.

Lemma fields_inj ns : forall ns', length ns = length ns' -> Forall go_len ns -> Forall go_len ns' ->
  concat (e_VarintBytes <$> ns) = concat (e_VarintBytes <$> ns') -> ns = ns'.
Proof.
  induction ns as [|f ns IH]; intros [|f' ns'] Hl H1 H2 H; try done.
  apply Forall_cons in H1 as [Hf H1]. apply Forall_cons in H2 as [Hf' H2]. simpl in H.
  apply varint_bytes_prefix in H as [-> H]; [|done|done]. f_equal. apply IH; [by injection Hl|done|done|done].
Qed.

Lemma namespaceWireKey_inj ns ns' : wf_ns ns -> wf_ns ns' -> namespaceWireKey ns = namespaceWireKey ns' -> ns = ns'.
Proof.
  intros [Hl Hf] [Hl' Hf']. unfold namespaceWireKey, w_TrackNamespace. rewrite !fields_app, !w_Varint_app; simpl.
  intros H. apply varint_prefix in H as [Hn H]; auto with moq. apply fields_inj in H; try done.
  unfold len in Hn. lia.
Qed.

Definition wf_name (n : FullTrackName) : Prop := wf_ns (fn_Namespace n).

Lemma fn_Key_inj n n' : wf_name n -> wf_name n' -> fn_Key n = fn_Key n' -> n = n'.
Proof.
  destruct n as [ns name], n' as [ns' name']. intros Hn Hn' [= H ->]. f_equal. by apply namespaceWireKey_inj.
Qed.

(** Decoding an unsigned varint, to show that it too is a prefix code. *)
Fixpoint uvarint_val (b : bytes) : Z * bytes :=
  match b with
  | [] => (0, [])
  | c :: b' =>
      if b2z c <? 128 then (b2z c, b')
      else let '(v, rest) := uvarint_val b' in (b2z c - 128 + 128 * v, rest)
  end.

Lemma lor_128 x : 0 <= x -> Z.lor (x mod 256) 128 = 128 + x mod 128.
Proof.
  intros Hx. assert (H : Forall (fun n => Z.lor (Z.of_nat n) 128 = 128 + Z.of_nat n mod 128) (seq 0 256)) by by_decide.
  pose proof (Z.mod_pos_bound x 256 ltac:(lia)). rewrite Forall_forall in H.
  specialize (H (Z.to_nat (x mod 256))). rewrite elem_of_seq, Z2Nat.id in H by lia. rewrite H by lia.
  f_equal. apply Z.mod_mod_divide. by exists 2.
Qed.

Lemma pow128_S n : 128 ^ Z.of_nat (S n) = 128 * 128 ^ Z.of_nat n.
Proof. rewrite Nat2Z.inj_succ. apply Z.pow_succ_r. lia. Qed.

Lemma uvarint_val_bytes n : forall x rest, 0 <= x < 128 ^ Z.of_nat (S n) ->
  uvarint_val (uvarint_bytes n x ++ rest) = (x, rest).
Proof.
  induction n as [|n IH]; intros x rest Hx; cbn [uvarint_bytes].
  - change (128 ^ Z.of_nat 1) with 128 in Hx. cbn [app uvarint_val].
    rewrite b2z_z2b_small by (unfold is_u8; lia). by destruct (Z.ltb_spec x 128); [|lia].
  - destruct (Z.ltb_spec x 128); cbn [app uvarint_val].
    + rewrite b2z_z2b_small by (unfold is_u8; lia). by destruct (Z.ltb_spec x 128); [|lia].
    + rewrite lor_128 by lia. pose proof (Z.mod_pos_bound x 128 ltac:(lia)) as Hm.
      rewrite b2z_z2b_small by (unfold is_u8; lia). destruct (Z.ltb_spec (128 + x mod 128) 128); [lia|].
      rewrite Z.shiftr_div_pow2 by lia. change (2 ^ 7) with 128. rewrite pow128_S in Hx. rewrite IH.
      * f_equal. pose proof (Z.div_mod x 128). lia.
      * split; [apply Z.div_pos; lia|]. apply Z.div_lt_upper_bound; lia.
Qed.

Lemma uvarint_prefix a b r s : is_u64 a -> is_u64 b -> AppendUvarint [] a ++ r = AppendUvarint [] b ++ s ->
  a = b /\ r = s.
Proof.
  unfold AppendUvarint. cbn [app]. intros Ha Hb H.
  assert (Hp : forall x, is_u64 x -> 0 <= x < 128 ^ Z.of_nat 10).
  { intros x Hx. change (128 ^ Z.of_nat 10) with 1180591620717411303424. zlia. }
  pose proof (uvarint_val_bytes 9 a r (Hp a Ha)) as E1. pose proof (uvarint_val_bytes 9 b s (Hp b Hb)) as E2.
  rewrite H, E2 in E1. by simplify_eq.
Qed.

(** Keys tell names apart.  Two track names have the same map key exactly when
    they are the same name, and two keys the same storage bytes exactly when they
    are the same key: field boundaries, the number of fields and the boundary
    between namespace and name are all recoverable. *)
Theorem track_key_injective n n' k k' : wf_name n -> wf_name n' ->
  go_len (k_namespace k) -> go_len (k_namespace k') ->
  (fn_Key n = fn_Key n' <-> n = n') /\ (Key_Bytes k = Key_Bytes k' <-> k = k').
Proof.
  intros Hn Hn' Hk Hk'. split; (split; [|by intros ->]); [by apply fn_Key_inj|].
  destruct k as [ns name], k' as [ns' name']. unfold Key_Bytes; simpl in *. intros H.
  apply uvarint_prefix in H as [Hl H]; auto with moq.
  apply app_inj_1 in H as [-> ->]; [done|]. unfold len in Hl. lia.
Qed.

Lemma track_key_injective_witness :
  let n := MkName [[z2b 97]; [z2b 98]] [z2b 99] in
  let n' := MkName [[z2b 97]] [z2b 98; z2b 99] in
  fn_Key n <> fn_Key n' /\ (Key_Bytes (fn_Key n) = Key_Bytes (fn_Key n') <-> fn_Key n = fn_Key n').
Proof.
  intros n n'. assert (Hn : wf_name n /\ wf_name n').
  { split; (split; [by_decide|by_decide]). }
  destruct (track_key_injective n n' (fn_Key n) (fn_Key n') (proj1 Hn) (proj2 Hn) ltac:(by_decide) ltac:(by_decide))
    as [H1 H2]. split; [|exact H2]. intros H. apply H1 in H. discriminate H.
Defined.
