(* ===== verification/Discovery.v ===== *)
(** * Discovery: the in-memory advertisement store and its watches

    [pkg/relay/discovery/discovery.go] and [memory.go]: relays advertise the tracks
    and namespaces they serve; watchers get a snapshot, then every change.  The
    store is guarded by one mutex, so each operation is one step.

    A watch is a buffered channel: the store sends without blocking and ends a
    watch whose buffer is full.  [w_ch] holds what is buffered, [w_recv] what its
    consumer has received.  Go iterates a map in an unspecified order; operations
    that do so take the order as an argument. *)

From stdpp Require Import gmap.
From S2P Require Import Prelude Varint Wire KV Track.

(** ** Watches *)

Section Watch.
Context {V : Type}.

Inductive event : Type :=
| OpPublish (v : V)
| OpUnpublish (v : V)
| OpSnapshotDone.

Record watcher : Type := MkWatcher { w_id : Z; w_cap : Z; w_ch : list event; w_recv : list event }.

(** A non-blocking send: [None] when the buffer is full and the watch ends. *)
Definition send (ev : event) (w : watcher) : option watcher :=
  if len (w_ch w) <? w_cap w then Some (MkWatcher (w_id w) (w_cap w) (w_ch w ++ [ev]) (w_recv w)) else None.

Definition fanout (ws : list watcher) (ev : event) : list watcher := omap (send ev) ws.

Definition ended (ws : list watcher) (ev : event) : Z :=
  len (List.filter (fun w => negb (len (w_ch w) <? w_cap w)) ws).

(** [newWatcher] with the snapshot, then [OpSnapshotDone], already sent. *)
Definition newWatcher (id bufferSize : Z) (snapshot : list V) : watcher :=
  MkWatcher id (len snapshot + 1 + bufferSize) ((OpPublish <$> snapshot) ++ [OpSnapshotDone]) [].

(** The consumer takes the next event. *)
Definition receive (id : Z) (ws : list watcher) : list watcher :=
  (fun w => if decide (w_id w = id)
            then match w_ch w with
                 | ev :: rest => MkWatcher (w_id w) (w_cap w) rest (w_recv w ++ [ev])
                 | [] => w
                 end
            else w) <$> ws.

(** [watchLifecycle] once the watcher's context is cancelled. *)
Definition stop_watch (id : Z) (ws : list watcher) : list watcher :=
  List.filter (fun w => negb (bool_decide (w_id w = id))) ws.
End Watch.
Arguments event : clear implicits.
Arguments watcher : clear implicits.

(** ** The store *)

(** Addresses are Go strings; [PublishedAt] is a time in which 0 is Go's zero time. *)
Record TrackInfo : Type := MkTrackInfo {
  ti_Key : Key; ti_FullName : FullTrackName; ti_Properties : bytes; ti_RelayAddr : bytes; ti_PublishedAt : Z }.
Record NamespaceInfo : Type := MkNamespaceInfo {
  ni_Prefix : TrackNamespace; ni_RelayAddr : bytes; ni_PublishedAt : Z }.

Definition trackEntryKey (i : TrackInfo) : Key * bytes := (ti_Key i, ti_RelayAddr i).
Definition namespaceEntryKey (i : NamespaceInfo) : bytes * bytes := (namespaceWireKey (ni_Prefix i), ni_RelayAddr i).

Record MemoryStore : Type := MkStore {
  ms_tracks : gmap (Key * bytes) TrackInfo;
  ms_namespaces : gmap (bytes * bytes) NamespaceInfo;
  ms_trackWatch : list (watcher TrackInfo);
  ms_nsWatch : list (watcher NamespaceInfo);
  ms_closed : bool;
  ms_withdrawn : gset bytes;
  ms_bufferSize : Z }.

Definition defaultWatchBufferSize : Z := 32.

(** [NewMemoryStore] with [WithWatchBufferSize(n)]; values <= 0 leave the default. *)
Definition NewMemoryStore (n : Z) : MemoryStore :=
  MkStore ∅ ∅ [] [] false ∅ (if 0 <? n then n else defaultWatchBufferSize).

Definition set_tracks (s : MemoryStore) (m : gmap (Key * bytes) TrackInfo) (ws : list (watcher TrackInfo)) : MemoryStore :=
  MkStore m (ms_namespaces s) ws (ms_nsWatch s) (ms_closed s) (ms_withdrawn s) (ms_bufferSize s).
Definition set_namespaces (s : MemoryStore) (m : gmap (bytes * bytes) NamespaceInfo) (ws : list (watcher NamespaceInfo))
    : MemoryStore :=
  MkStore (ms_tracks s) m (ms_trackWatch s) ws (ms_closed s) (ms_withdrawn s) (ms_bufferSize s).

Definition PublishTrack (now : Z) (info : TrackInfo) (s : MemoryStore) : result unit * MemoryStore :=
  if ms_closed s then (Err ErrClosed, s)
  else if bool_decide (ti_RelayAddr info ∈ ms_withdrawn s) then (Err ErrWithdrawn, s)
  else
    let info := if ti_PublishedAt info =? 0
                then MkTrackInfo (ti_Key info) (ti_FullName info) (ti_Properties info) (ti_RelayAddr info) now
                else info in
    (Ok tt, set_tracks s (<[trackEntryKey info := info]> (ms_tracks s)) (fanout (ms_trackWatch s) (OpPublish info))).

Definition UnpublishTrack (key : Key) (relayAddr : bytes) (s : MemoryStore) : result unit * MemoryStore :=
  if ms_closed s then (Err ErrClosed, s)
  else match ms_tracks s !! (key, relayAddr) with
       | None => (Ok tt, s)
       | Some info =>
           (Ok tt, set_tracks s (delete (key, relayAddr) (ms_tracks s)) (fanout (ms_trackWatch s) (OpUnpublish info)))
       end.

Definition FindTrack (key : Key) (it : list ((Key * bytes) * TrackInfo)) (s : MemoryStore) : result (list TrackInfo) :=
  if ms_closed s then Err ErrClosed
  else Ok ((List.filter (fun kv => bool_decide (kv.1.1 = key)) it).*2).

Definition PublishNamespace (now : Z) (info : NamespaceInfo) (s : MemoryStore) : result unit * MemoryStore :=
  if ms_closed s then (Err ErrClosed, s)
  else if bool_decide (ni_RelayAddr info ∈ ms_withdrawn s) then (Err ErrWithdrawn, s)
  else
    let info := if ni_PublishedAt info =? 0
                then MkNamespaceInfo (ni_Prefix info) (ni_RelayAddr info) now else info in
    (Ok tt, set_namespaces s (<[namespaceEntryKey info := info]> (ms_namespaces s))
              (fanout (ms_nsWatch s) (OpPublish info))).

Definition UnpublishNamespace (prefix : TrackNamespace) (relayAddr : bytes) (s : MemoryStore)
    : result unit * MemoryStore :=
  if ms_closed s then (Err ErrClosed, s)
  else match ms_namespaces s !! (namespaceWireKey prefix, relayAddr) with
       | None => (Ok tt, s)
       | Some info =>
           (Ok tt, set_namespaces s (delete (namespaceWireKey prefix, relayAddr) (ms_namespaces s))
                     (fanout (ms_nsWatch s) (OpUnpublish info)))
       end.

Definition FindNamespace (namespace : TrackNamespace) (it : list ((bytes * bytes) * NamespaceInfo)) (s : MemoryStore)
    : result (list NamespaceInfo) :=
  if ms_closed s then Err ErrClosed else Ok (List.filter (fun v => HasPrefix namespace (ni_Prefix v)) it.*2).

Definition FindNamespacesUnder (prefix : TrackNamespace) (it : list ((bytes * bytes) * NamespaceInfo)) (s : MemoryStore)
    : result (list NamespaceInfo) :=
  if ms_closed s then Err ErrClosed else Ok (List.filter (fun v => HasPrefix (ni_Prefix v) prefix) it.*2).

Definition WatchTracks (id : Z) (it : list ((Key * bytes) * TrackInfo)) (s : MemoryStore) : result unit * MemoryStore :=
  if ms_closed s then (Err ErrClosed, s)
  else (Ok tt, set_tracks s (ms_tracks s) (ms_trackWatch s ++ [newWatcher id (ms_bufferSize s) it.*2])).

Definition WatchNamespaces (id : Z) (it : list ((bytes * bytes) * NamespaceInfo)) (s : MemoryStore)
    : result unit * MemoryStore :=
  if ms_closed s then (Err ErrClosed, s)
  else (Ok tt, set_namespaces s (ms_namespaces s) (ms_nsWatch s ++ [newWatcher id (ms_bufferSize s) it.*2])).

(** One of [Withdraw]'s two loops: the entries of [relayAddr], in the order [it]. *)
Definition withdraw_loop {K V} `{Countable K} (addr : K -> bytes) (relayAddr : bytes) (it : list (K * V))
    (m : gmap K V) (ws : list (watcher V)) : gmap K V * list (watcher V) :=
  fold_left (fun st kv => if bool_decide (addr kv.1 = relayAddr)
                          then (delete kv.1 st.1, fanout st.2 (OpUnpublish kv.2)) else st) it (m, ws).

Definition Withdraw (relayAddr : bytes) (it : list ((Key * bytes) * TrackInfo))
    (nit : list ((bytes * bytes) * NamespaceInfo)) (s : MemoryStore) : result unit * MemoryStore :=
  if ms_closed s then (Err ErrClosed, s)
  else
    let '(m, ws) := withdraw_loop snd relayAddr it (ms_tracks s) (ms_trackWatch s) in
    let '(nm, nws) := withdraw_loop snd relayAddr nit (ms_namespaces s) (ms_nsWatch s) in
    (Ok tt, MkStore m nm ws nws false ({[relayAddr]} ∪ ms_withdrawn s) (ms_bufferSize s)).

Definition store_Close (s : MemoryStore) : MemoryStore :=
  if ms_closed s then s
  else MkStore (ms_tracks s) (ms_namespaces s) [] [] true (ms_withdrawn s) (ms_bufferSize s).

(** ** What a watch conveys

    [replay] is the view a consumer builds from the events of its watch. *)

Section Replay.
Context {K V : Type} `{Countable K} (key : V -> K).
Implicit Types (m : gmap K V) (w : watcher V).

Definition apply_event m (ev : event V) : gmap K V :=
  match ev with
  | OpPublish v => <[key v := v]> m
  | OpUnpublish v => delete (key v) m
  | OpSnapshotDone => m
  end.
Definition replay (evs : list (event V)) : gmap K V := fold_left apply_event evs ∅.

(** A watch delivers its snapshot, one [OpSnapshotDone], then the changes, and all
    of it together is the current content. *)
Definition watch_ok m w : Prop :=
  (exists snap live, w_recv w ++ w_ch w = (OpPublish <$> snap) ++ OpSnapshotDone :: live /\
     OpSnapshotDone ∉ live) /\
  replay (w_recv w ++ w_ch w) = m /\ len (w_ch w) <= w_cap w.

Lemma send_ok m w w' ev : ev <> OpSnapshotDone -> watch_ok m w -> send ev w = Some w' -> watch_ok (apply_event m ev) w'.
Proof.
  intros Hev ((snap & live & Hs & Hl) & Hr & Hc). unfold send. destruct (Z.ltb_spec (len (w_ch w)) (w_cap w)); [|done].
  intros [= <-]. unfold watch_ok; simpl. split_and!.
  - exists snap, (live ++ [ev]). rewrite app_assoc, Hs, <- app_assoc. split; [done|].
    rewrite not_elem_of_app, list_elem_of_singleton. split; [done|congruence].
  - rewrite app_assoc. unfold replay. rewrite fold_left_app; simpl. by rewrite <- Hr.
  - rewrite len_app, len_cons, len_nil. lia.
Qed.

Lemma fanout_ok m ws ev : ev <> OpSnapshotDone -> Forall (watch_ok m) ws ->
  Forall (watch_ok (apply_event m ev)) (fanout ws ev).
Proof.
  rewrite !Forall_forall. intros Hev Hws w' Hw'. apply list_elem_of_omap in Hw' as (w & Hw & Hs).
  eapply send_ok; eauto.
Qed.

Lemma fold_pubs vs : forall m, NoDup (key <$> vs) -> (forall v, v ∈ vs -> m !! key v = None) ->
  forall k v, fold_left apply_event (OpPublish <$> vs) m !! k = Some v <-> m !! k = Some v \/ (v ∈ vs /\ key v = k).
Proof.
  induction vs as [|x vs IH]; intros m Hn Hm k v; simpl.
  { rewrite elem_of_nil. naive_solver. }
  apply NoDup_cons in Hn as [Hx Hn]. rewrite IH; [|done|].
  - destruct (decide (key x = k)) as [<- | Hne].
    + rewrite lookup_insert_eq. rewrite Hm by constructor. rewrite elem_of_cons. split; [|naive_solver].
      intros [[= ->]|[Hv Hk]]; [by auto|]. right. split; [by right|done].
    + rewrite lookup_insert_ne by done. rewrite elem_of_cons. naive_solver.
  - intros y Hy. rewrite lookup_insert_ne.
    + apply Hm. by right.
    + intros E. apply Hx. rewrite E. by apply list_elem_of_fmap_2.
Qed.

Definition indexed m : Prop := forall k v, m !! k = Some v -> k = key v.

Lemma indexed_keys m (it : list (K * V)) : indexed m -> it ≡ₚ map_to_list m -> key <$> it.*2 = it.*1.
Proof.
  intros Hi Hp. rewrite <- list_fmap_compose. apply list_fmap_ext. intros i [k v] Hkv. simpl.
  symmetry. apply Hi. apply elem_of_map_to_list. rewrite <- Hp. by eapply list_elem_of_lookup_2.
Qed.

Lemma newWatcher_ok m id buf it : 0 <= buf -> indexed m -> it ≡ₚ map_to_list m -> watch_ok m (newWatcher id buf it.*2).
Proof.
  intros Hb Hi Hp. unfold newWatcher, watch_ok; simpl. split_and!.
  - exists it.*2, []. split; [done|]. apply not_elem_of_nil.
  - unfold replay. rewrite fold_left_app; simpl. apply map_eq. intros k. apply option_eq. intros v.
    rewrite fold_pubs.
    + rewrite lookup_empty, list_elem_of_fmap. split.
      * intros [|[([k' v'] & -> & Hin) <-]]; [done|]. rewrite Hp in Hin. apply elem_of_map_to_list in Hin.
        simpl. by rewrite <- (Hi _ _ Hin).
      * intros Hkv. right. split; [|symmetry; by apply Hi]. exists (k, v). split; [done|].
        rewrite Hp. by apply elem_of_map_to_list.
    + rewrite (indexed_keys m) by done. rewrite Hp. apply NoDup_fst_map_to_list.
    + intros v' _. apply lookup_empty.
  - rewrite len_app, len_cons, len_nil. unfold len. rewrite length_fmap. lia.
Qed.

Lemma receive_ok m id ws : Forall (watch_ok m) ws -> Forall (watch_ok m) (receive id ws).
Proof.
  rewrite !Forall_forall. intros Hws w' Hw'. apply list_elem_of_fmap in Hw' as (w & -> & Hw). specialize (Hws w Hw).
  case_decide; [|done]. destruct (w_ch w) as [|ev rest] eqn:E; [done|]. destruct Hws as (Hs & Hr & Hc).
  unfold watch_ok; simpl. rewrite E in *. rewrite <- app_assoc. split_and!; [done|done|].
  rewrite len_cons in Hc. lia.
Qed.

Lemma stop_watch_ok m id ws : Forall (watch_ok m) ws -> Forall (watch_ok m) (stop_watch id ws).
Proof. unfold stop_watch. rewrite !List.Forall_forall. intros Hws w Hw. apply filter_In in Hw as [Hw _]. auto. Qed.

(** The loop of [Withdraw] leaves the other addresses' entries and tells the watchers. *)
Lemma withdraw_loop_ok (addr : K -> bytes) a it : forall m ws, (forall k v, (k, v) ∈ it -> k = key v) ->
  Forall (watch_ok m) ws ->
  let '(m', ws') := withdraw_loop addr a it m ws in
  Forall (watch_ok m') ws' /\
  forall k v, m' !! k = Some v <-> m !! k = Some v /\ ~ (addr k = a /\ k ∈ it.*1).
Proof.
  induction it as [|[k0 v0] it IH]; intros m ws Hk Hws.
  { simpl. split; [done|]. intros k v. rewrite elem_of_nil. naive_solver. }
  unfold withdraw_loop. simpl. assert (Hk' : forall k v, (k, v) ∈ it -> k = key v) by (intros; apply Hk; by right).
  destruct (decide (addr k0 = a)) as [Ha|Ha].
  - rewrite bool_decide_true by done.
    pose proof (fanout_ok m ws (OpUnpublish v0) ltac:(done) Hws) as Hf. simpl in Hf.
    rewrite <- (Hk k0 v0) in Hf by constructor.
    specialize (IH (delete k0 m) (fanout ws (OpUnpublish v0)) Hk' Hf). unfold withdraw_loop in IH.
    destruct (fold_left _ _ _) as [m' ws']. destruct IH as [IH1 IH2]. split; [done|].
    intros k v. rewrite IH2, lookup_delete_Some, elem_of_cons. naive_solver.
  - rewrite bool_decide_false by done. specialize (IH m ws Hk' Hws). unfold withdraw_loop in IH.
    destruct (fold_left _ _ _) as [m' ws']. destruct IH as [IH1 IH2]. split; [done|].
    intros k v. rewrite IH2, elem_of_cons. naive_solver.
Qed.
End Replay.

(** ** Every reachable store *)

(** One operation by any client, or a consumer taking an event or going away. *)
Inductive disc_step (s : MemoryStore) : MemoryStore -> Prop :=
| ds_PublishTrack now info : disc_step s (PublishTrack now info s).2
| ds_UnpublishTrack key addr : disc_step s (UnpublishTrack key addr s).2
| ds_PublishNamespace now info : disc_step s (PublishNamespace now info s).2
| ds_UnpublishNamespace prefix addr : disc_step s (UnpublishNamespace prefix addr s).2
| ds_WatchTracks id it : it ≡ₚ map_to_list (ms_tracks s) -> disc_step s (WatchTracks id it s).2
| ds_WatchNamespaces id it : it ≡ₚ map_to_list (ms_namespaces s) -> disc_step s (WatchNamespaces id it s).2
| ds_Withdraw addr it nit : it ≡ₚ map_to_list (ms_tracks s) -> nit ≡ₚ map_to_list (ms_namespaces s) ->
    disc_step s (Withdraw addr it nit s).2
| ds_Close : disc_step s (store_Close s)
| ds_receive_track id : disc_step s (set_tracks s (ms_tracks s) (receive id (ms_trackWatch s)))
| ds_receive_ns id : disc_step s (set_namespaces s (ms_namespaces s) (receive id (ms_nsWatch s)))
| ds_stop_track id : disc_step s (set_tracks s (ms_tracks s) (stop_watch id (ms_trackWatch s)))
| ds_stop_ns id : disc_step s (set_namespaces s (ms_namespaces s) (stop_watch id (ms_nsWatch s))).

Definition reachable_store (s : MemoryStore) : Prop := exists n, rtc disc_step (NewMemoryStore n) s.

Record store_inv (s : MemoryStore) : Prop := {
  si_tracks : indexed trackEntryKey (ms_tracks s);
  si_namespaces : indexed namespaceEntryKey (ms_namespaces s);
  si_trackWatch : Forall (watch_ok trackEntryKey (ms_tracks s)) (ms_trackWatch s);
  si_nsWatch : Forall (watch_ok namespaceEntryKey (ms_namespaces s)) (ms_nsWatch s);
  si_withdrawn : forall k v, ms_tracks s !! k = Some v -> k.2 ∉ ms_withdrawn s;
  si_nswithdrawn : forall k v, ms_namespaces s !! k = Some v -> k.2 ∉ ms_withdrawn s;
  si_buffer : 0 < ms_bufferSize s }.

Lemma new_store_inv n : store_inv (NewMemoryStore n).
Proof.
  split; simpl; try done. destruct (Z.ltb_spec 0 n); [done|]. by unfold defaultWatchBufferSize.
Qed.

(** Changing the track half of a store. *)
Lemma set_tracks_inv s m ws : store_inv s -> indexed trackEntryKey m -> Forall (watch_ok trackEntryKey m) ws ->
  (forall k v, m !! k = Some v -> k.2 ∉ ms_withdrawn s) -> store_inv (set_tracks s m ws).
Proof. by intros [] ? ? ?. Qed.
Lemma set_namespaces_inv s m ws : store_inv s -> indexed namespaceEntryKey m ->
  Forall (watch_ok namespaceEntryKey m) ws ->
  (forall k v, m !! k = Some v -> k.2 ∉ ms_withdrawn s) -> store_inv (set_namespaces s m ws).
Proof. by intros [] ? ? ?. Qed.

Lemma indexed_insert {K V} `{Countable K} (key : V -> K) (m : gmap K V) v :
  indexed key m -> indexed key (<[key v := v]> m).
Proof. intros Hi k v'. rewrite lookup_insert_Some. intros [[<- <-]|[_ ?]]; [done|by apply Hi]. Qed.
Lemma indexed_delete {K V} `{Countable K} (key : V -> K) (m : gmap K V) k : indexed key m -> indexed key (delete k m).
Proof. intros Hi k' v'. rewrite lookup_delete_Some. intros [_ ?]. by apply Hi. Qed.

Lemma PublishTrack_inv now info s : store_inv s -> store_inv (PublishTrack now info s).2.
Proof.
  intros Hs. unfold PublishTrack. destruct (ms_closed s); [done|]. case_bool_decide as Hw; [done|].
  set (i := if _ =? _ then _ else _). assert (Ha : ti_RelayAddr i = ti_RelayAddr info) by (unfold i; by case_match).
  destruct Hs as [H1 H2 H3 H4 H5 H6 H7]. apply set_tracks_inv;
    [done|by apply indexed_insert|by apply (fanout_ok trackEntryKey _ _ (OpPublish i))|].
  intros k v. rewrite lookup_insert_Some. intros [[<- _]|[_ Hk]]; [|by eapply H5]. simpl. by rewrite Ha.
Qed.

Lemma PublishNamespace_inv now info s : store_inv s -> store_inv (PublishNamespace now info s).2.
Proof.
  intros Hs. unfold PublishNamespace. destruct (ms_closed s); [done|]. case_bool_decide as Hw; [done|].
  set (i := if _ =? _ then _ else _). assert (Ha : ni_RelayAddr i = ni_RelayAddr info) by (unfold i; by case_match).
  destruct Hs as [H1 H2 H3 H4 H5 H6 H7]. apply set_namespaces_inv;
    [done|by apply indexed_insert|by apply (fanout_ok namespaceEntryKey _ _ (OpPublish i))|].
  intros k v. rewrite lookup_insert_Some. intros [[<- _]|[_ Hk]]; [|by eapply H6]. simpl. by rewrite Ha.
Qed.

Lemma UnpublishTrack_inv key addr s : store_inv s -> store_inv (UnpublishTrack key addr s).2.
Proof.
  intros Hs. unfold UnpublishTrack. destruct (ms_closed s); [done|].
  destruct (ms_tracks s !! (key, addr)) as [info|] eqn:E; [|done]. destruct Hs as [H1 H2 H3 H4 H5 H6 H7].
  apply set_tracks_inv; [done|by apply indexed_delete| |].
  - rewrite (H1 _ _ E). by apply (fanout_ok trackEntryKey _ _ (OpUnpublish info)).
  - intros k v. rewrite lookup_delete_Some. intros [_ ?]. by eapply H5.
Qed.

Lemma UnpublishNamespace_inv prefix addr s : store_inv s -> store_inv (UnpublishNamespace prefix addr s).2.
Proof.
  intros Hs. unfold UnpublishNamespace. destruct (ms_closed s); [done|].
  destruct (ms_namespaces s !! (namespaceWireKey prefix, addr)) as [info|] eqn:E; [|done].
  destruct Hs as [H1 H2 H3 H4 H5 H6 H7]. apply set_namespaces_inv; [done|by apply indexed_delete| |].
  - rewrite (H2 _ _ E). by apply (fanout_ok namespaceEntryKey _ _ (OpUnpublish info)).
  - intros k v. rewrite lookup_delete_Some. intros [_ ?]. by eapply H6.
Qed.

(** What [Withdraw]'s loop does to one half, in any iteration order. *)
Lemma withdraw_half {A V} `{Countable A} (key : V -> A * bytes) (m : gmap (A * bytes) V) (ws : list (watcher V))
    (it : list ((A * bytes) * V)) (a : bytes) (W : gset bytes) :
  indexed key m -> Forall (watch_ok key m) ws -> it ≡ₚ map_to_list m -> (forall k v, m !! k = Some v -> k.2 ∉ W) ->
  let '(m', ws') := withdraw_loop snd a it m ws in
  indexed key m' /\ Forall (watch_ok key m') ws' /\ (forall k v, m' !! k = Some v -> k.2 ∉ ({[a]} ∪ W)).
Proof.
  intros Hi Hws Hp HW. pose proof (withdraw_loop_ok key snd a it m ws) as Hl.
  destruct (withdraw_loop snd a it m ws) as [m' ws']. destruct Hl as [L1 L2]; [|done|].
  - intros k v. rewrite Hp, elem_of_map_to_list. apply Hi.
  - split_and!; [|done|].
    + intros k v Hk. apply L2 in Hk as [Hk _]. by apply Hi.
    + intros k v Hk. apply L2 in Hk as [Hk Hna]. rewrite elem_of_union, elem_of_singleton.
      intros [E|Hin]; [|by eapply HW]. apply Hna. split; [done|]. apply list_elem_of_fmap. exists (k, v).
      split; [done|]. rewrite Hp. by apply elem_of_map_to_list.
Qed.

Lemma Withdraw_inv addr it nit s : it ≡ₚ map_to_list (ms_tracks s) -> nit ≡ₚ map_to_list (ms_namespaces s) ->
  store_inv s -> store_inv (Withdraw addr it nit s).2.
Proof.
  intros Hit Hnit Hs. unfold Withdraw. destruct (ms_closed s) eqn:Ec; [done|]. destruct Hs as [H1 H2 H3 H4 H5 H6 H7].
  pose proof (withdraw_half trackEntryKey _ _ _ addr _ H1 H3 Hit H5) as HT.
  destruct (withdraw_loop snd addr it _ _) as [m ws]. destruct HT as (T1 & T2 & T3).
  pose proof (withdraw_half namespaceEntryKey _ _ _ addr _ H2 H4 Hnit H6) as HN.
  destruct (withdraw_loop snd addr nit _ _) as [nm nws]. destruct HN as (N1 & N2 & N3). by split.
Qed.

Lemma disc_step_inv s s' : disc_step s s' -> store_inv s -> store_inv s'.
Proof.
  intros Hst Hs. pose proof Hs as [H1 H2 H3 H4 H5 H6 H7].
  destruct Hst; auto using PublishTrack_inv, PublishNamespace_inv, UnpublishTrack_inv, UnpublishNamespace_inv, Withdraw_inv,
    set_tracks_inv, set_namespaces_inv, receive_ok, stop_watch_ok.
  - unfold WatchTracks. destruct (ms_closed s); [done|]. apply set_tracks_inv; try done.
    apply Forall_app. split; [done|]. constructor; [|done]. apply newWatcher_ok; [lia|done|done].
  - unfold WatchNamespaces. destruct (ms_closed s); [done|]. apply set_namespaces_inv; try done.
    apply Forall_app. split; [done|]. constructor; [|done]. apply newWatcher_ok; [lia|done|done].
  - unfold store_Close. destruct (ms_closed s); [done|]. by split.
Qed.

Lemma reachable_store_inv s : reachable_store s -> store_inv s.
Proof.
  intros [n Hr]. remember (NewMemoryStore n) as s0 eqn:E. assert (H0 : store_inv s0) by (subst; apply new_store_inv).
  clear E. induction Hr; [done|]. eauto using disc_step_inv.
Qed.

(** C34: watches are gapless.  Whatever the clients do, and in whatever order Go
    iterates its maps, a watch that has not been ended has delivered or buffered a
    snapshot of advertisements, exactly one snapshot-done event, then changes, and
    replaying all of it yields exactly the advertisements now in the store; its
    buffer never overflows. *)
Theorem watch_gapless s : reachable_store s ->
  Forall (watch_ok trackEntryKey (ms_tracks s)) (ms_trackWatch s) /\
  Forall (watch_ok namespaceEntryKey (ms_namespaces s)) (ms_nsWatch s).
Proof. intros Hr. destruct (reachable_store_inv s Hr). done. Qed.

(** Lookups and withdrawal.  In every reachable open store, [FindTrack] returns
    exactly the advertisements of the key, the namespace lookups exactly the
    advertisements above and below a namespace; no advertisement carries a
    withdrawn address, and publishing for one is refused and changes nothing. *)
Theorem discovery_lookup s it nit key ns : reachable_store s -> ms_closed s = false ->
  it ≡ₚ map_to_list (ms_tracks s) -> nit ≡ₚ map_to_list (ms_namespaces s) ->
  (exists l, FindTrack key it s = Ok l /\
     forall i, i ∈ l <-> ms_tracks s !! trackEntryKey i = Some i /\ ti_Key i = key) /\
  (exists l, FindNamespace ns nit s = Ok l /\
     forall i, i ∈ l <-> ms_namespaces s !! namespaceEntryKey i = Some i /\ ni_Prefix i `prefix_of` ns) /\
  (exists l, FindNamespacesUnder ns nit s = Ok l /\
     forall i, i ∈ l <-> ms_namespaces s !! namespaceEntryKey i = Some i /\ ns `prefix_of` ni_Prefix i) /\
  (forall a, a ∈ ms_withdrawn s ->
     (forall k v, ms_tracks s !! k = Some v -> ti_RelayAddr v <> a) /\
     (forall now i, ti_RelayAddr i = a -> PublishTrack now i s = (Err ErrWithdrawn, s)) /\
     (forall now i, ni_RelayAddr i = a -> PublishNamespace now i s = (Err ErrWithdrawn, s))).
Proof.
  intros Hr Hc Hit Hnit. destruct (reachable_store_inv s Hr) as [H1 H2 _ _ H5 _ _].
  assert (Hin : forall i, i ∈ nit.*2 <-> ms_namespaces s !! namespaceEntryKey i = Some i).
  { intros i. rewrite list_elem_of_fmap. split.
    - intros ([k v] & -> & Hk). rewrite Hnit in Hk. apply elem_of_map_to_list in Hk. simpl. by rewrite <- (H2 _ _ Hk).
    - intros Hk. exists (namespaceEntryKey i, i). split; [done|]. rewrite Hnit. by apply elem_of_map_to_list. }
  unfold FindTrack, FindNamespace, FindNamespacesUnder, PublishTrack, PublishNamespace. rewrite Hc. split_and!.
  - eexists. split; [done|]. intros i. rewrite list_elem_of_fmap. split.
    + intros ([k v] & -> & Hk). apply list_elem_of_In, filter_In in Hk as [Hk Hb]. apply list_elem_of_In in Hk.
      rewrite Hit in Hk. apply elem_of_map_to_list in Hk. apply bool_decide_eq_true in Hb. simpl in *.
      pose proof (H1 _ _ Hk) as E. rewrite <- E. split; [done|]. by rewrite E in Hb.
    + intros [Hk <-]. exists (trackEntryKey i, i). split; [done|]. apply list_elem_of_In, filter_In.
      split; [|by apply bool_decide_eq_true]. apply list_elem_of_In. rewrite Hit. by apply elem_of_map_to_list.
  - eexists. split; [done|]. intros i. rewrite list_elem_of_In, filter_In, <- list_elem_of_In, Hin.
    by rewrite HasPrefix_spec.
  - eexists. split; [done|]. intros i. rewrite list_elem_of_In, filter_In, <- list_elem_of_In, Hin.
    by rewrite HasPrefix_spec.
  - intros a Ha. split_and!.
    + intros k v Hk <-. apply (H5 _ _ Hk). by rewrite (H1 _ _ Hk).
    + intros now i <-. by rewrite bool_decide_true.
    + intros now i <-. by rewrite bool_decide_true.
Qed.

(** A store after a publication, a watch, a second publication and a withdrawal. *)
Definition sample_ad (name addr : Z) : TrackInfo :=
  let n := MkName [[z2b 97]] [z2b name] in MkTrackInfo (fn_Key n) n [] [z2b addr] 0.
Definition sample_store : MemoryStore :=
  let s1 := (PublishTrack 5 (sample_ad 1 120) (NewMemoryStore 4)).2 in
  let s2 := (WatchTracks 1 (map_to_list (ms_tracks s1)) s1).2 in
  let s3 := (PublishTrack 6 (sample_ad 2 121) s2).2 in
  (Withdraw [z2b 120] (map_to_list (ms_tracks s3)) (map_to_list (ms_namespaces s3)) s3).2.

Lemma sample_store_reachable : reachable_store sample_store.
Proof.
  exists 4. eapply rtc_l; [apply ds_PublishTrack|]. eapply rtc_l; [by apply ds_WatchTracks|].
  eapply rtc_l; [apply ds_PublishTrack|]. eapply rtc_l; [by apply ds_Withdraw|]. apply rtc_refl.
Qed.

Lemma watch_gapless_witness : length (ms_trackWatch sample_store) = 1%nat /\
  (w_ch <$> ms_trackWatch sample_store) !! 0%nat <> None /\
  Forall (watch_ok trackEntryKey (ms_tracks sample_store)) (ms_trackWatch sample_store).
Proof.
  split; [vm_compute; reflexivity|]. split; [vm_compute; discriminate|].
  exact (proj1 (watch_gapless sample_store sample_store_reachable)).
Defined.

Lemma discovery_lookup_witness :
  exists l, FindTrack (ti_Key (sample_ad 2 121)) (map_to_list (ms_tracks sample_store)) sample_store = Ok l /\
    [z2b 120] ∈ ms_withdrawn sample_store /\
    forall i, i ∈ l <-> ms_tracks sample_store !! trackEntryKey i = Some i /\ ti_Key i = ti_Key (sample_ad 2 121).
Proof.
  destruct (discovery_lookup sample_store (map_to_list (ms_tracks sample_store))
    (map_to_list (ms_namespaces sample_store)) (ti_Key (sample_ad 2 121)) [] sample_store_reachable
    ltac:(vm_compute; reflexivity) ltac:(reflexivity) ltac:(reflexivity)) as [(l & Hl & Hi) _].
  exists l. split; [exact Hl|]. split; [by_decide|exact Hi].
Defined.
