(* ===== verification/Filter.v ===== *)
(** * Filter: Locations and the Location Filter

    [message/location.go] (the lexicographic order on {Group, Object}) and
    [message/filter.go] (the LOCATION_FILTER value: its codec, its validation and
    the range of Locations it selects). *)

From S2P Require Import Prelude Varint Wire KV.

(** ** Location *)
Record Location : Type := MkLoc { Group : Z; Object : Z }.

#[global] Instance Location_eq_dec : EqDecision Location.
Proof. solve_decision. Defined.
#[global] Program Instance Location_countable : Countable Location :=
  inj_countable' (fun l => (Group l, Object l)) (fun '(g, o) => MkLoc g o) _.
Next Obligation. by intros []. Qed.

Definition wf_loc (l : Location) : Prop := is_u64 (Group l) /\ is_u64 (Object l).
#[global] Instance wf_loc_dec l : Decision (wf_loc l).
Proof. unfold wf_loc. apply _. Defined.

(** Go's [cmp.Compare] on integers and [cmp.Or]: the first non-zero argument. *)
Definition cmp_Compare (a b : Z) : Z := if a <? b then -1 else if b <? a then 1 else 0.
Definition cmp_Or (a b : Z) : Z := if a =? 0 then b else a.

Definition Compare (l other : Location) : Z :=
  cmp_Or (cmp_Compare (Group l) (Group other)) (cmp_Compare (Object l) (Object other)).

Definition Less (l other : Location) : bool := Compare l other <? 0.

(** The order the documentation describes. *)
Definition loc_lt (a b : Location) : Prop :=
  Group a < Group b \/ (Group a = Group b /\ Object a < Object b).
Definition loc_le (a b : Location) : Prop :=
  Group a < Group b \/ (Group a = Group b /\ Object a <= Object b).

#[global] Instance loc_lt_dec a b : Decision (loc_lt a b).
Proof. unfold loc_lt. apply _. Defined.
#[global] Instance loc_le_dec a b : Decision (loc_le a b).
Proof. unfold loc_le. apply _. Defined.

Lemma cmp_Compare_spec a b :
  (cmp_Compare a b = -1 /\ a < b) \/ (cmp_Compare a b = 0 /\ a = b) \/ (cmp_Compare a b = 1 /\ b < a).
Proof. unfold cmp_Compare. destruct (Z.ltb_spec a b), (Z.ltb_spec b a); lia. Qed.

Lemma Compare_spec a b :
  (Compare a b = -1 /\ loc_lt a b) \/ (Compare a b = 0 /\ a = b) \/ (Compare a b = 1 /\ loc_lt b a).
Proof.
  unfold Compare, cmp_Or, loc_lt.
  destruct (cmp_Compare_spec (Group a) (Group b)) as [[-> ?]|[[-> ?]|[-> ?]]]; simpl; [lia| |lia].
  destruct (cmp_Compare_spec (Object a) (Object b)) as [[-> ?]|[[-> ?]|[-> ?]]]; [lia| |lia].
  right; left. split; [done|]. destruct a, b; simpl in *; congruence.
Qed.

Lemma loc_le_lt a b : loc_le a b <-> ~ loc_lt b a.
Proof. unfold loc_le, loc_lt. lia. Qed.

Lemma Less_spec a b : Less a b = true <-> loc_lt a b.
Proof.
  unfold Less. rewrite Z.ltb_lt. unfold loc_lt.
  destruct (Compare_spec a b) as [[-> H]|[[-> ->]|[-> H]]]; unfold loc_lt in *; lia.
Qed.

Lemma Less_false a b : Less a b = false <-> loc_le b a.
Proof. rewrite loc_le_lt, <- Less_spec. by destruct (Less a b). Qed.

Lemma Compare_eq a b : Compare a b = 0 <-> a = b.
Proof.
  destruct (Compare_spec a b) as [[-> H]|[[-> ->]|[-> H]]]; [|done|];
    (split; [done|intros ->; unfold loc_lt in H; lia]).
Qed.

(** ** LocationFilter *)
Definition LocationFilterNone : Z := 0.
Definition LocationFilterRelativeStart : Z := 1.
Definition LocationFilterAbsoluteStart : Z := 2.
Definition LocationFilterAbsoluteStartGroupEnd : Z := 3.
Definition LocationFilterAbsoluteRange : Z := 4.
Definition LocationFilterNextObject : Z := 5.

Definition fields (t : Z) : nat * bool :=
  if (t =? LocationFilterNone) || (t =? LocationFilterNextObject) then (0%nat, true)
  else if t =? LocationFilterRelativeStart then (1%nat, true)
  else if t =? LocationFilterAbsoluteStart then (2%nat, true)
  else if t =? LocationFilterAbsoluteStartGroupEnd then (3%nat, true)
  else if t =? LocationFilterAbsoluteRange then (4%nat, true)
  else (0%nat, false).

Record LocationFilter : Type := MkLF {
  lf_Type : Z; StartGroup : Z; StartObject : Z; EndGroupDelta : Z; EndObject : Z
}.

#[global] Instance LocationFilter_eq_dec : EqDecision LocationFilter.
Proof. solve_decision. Defined.

Definition Unfiltered (f : LocationFilter) : bool := lf_Type f =? LocationFilterNone.
Definition RelativeStart (f : LocationFilter) : bool := lf_Type f =? LocationFilterRelativeStart.
Definition NextObject (f : LocationFilter) : bool := lf_Type f =? LocationFilterNextObject.
Definition HasEnd (f : LocationFilter) : bool :=
  (lf_Type f =? LocationFilterAbsoluteStartGroupEnd) || (lf_Type f =? LocationFilterAbsoluteRange).
Definition HasEndObject (f : LocationFilter) : bool := lf_Type f =? LocationFilterAbsoluteRange.

Definition lf_Validate (f : LocationFilter) : result unit :=
  if negb (fields (lf_Type f)).2 then Err (Wrapf "" ErrUnknownLocationFilterType)
  else if HasEnd f && (StartGroup f >? MaxUint64 - EndGroupDelta f)
  then Err (Wrapf "" ErrEndGroupOverflow)
  else Ok tt.

Definition lf_Start (f : LocationFilter) (largest : Location) (hasLargest : bool) : Location :=
  if Unfiltered f then MkLoc 0 0
  else if RelativeStart f then
    if negb hasLargest then MkLoc 0 0
    else if StartGroup f >? Group largest then MkLoc 0 0
    else if (Group largest =? MaxUint64) && (StartGroup f =? 0) then MkLoc MaxUint64 0
    else MkLoc (u64 (Group largest + 1 - StartGroup f)) 0
  else if NextObject f then
    if negb hasLargest then MkLoc 0 0
    else if Object largest =? MaxUint64 then MkLoc (Group largest) MaxUint64
    else MkLoc (Group largest) (u64 (Object largest + 1))
  else MkLoc (StartGroup f) (StartObject f).

Definition lf_End (f : LocationFilter) : option Location :=
  if negb (HasEnd f) then None
  else Some (MkLoc (u64 (StartGroup f + EndGroupDelta f))
                   (if HasEndObject f then EndObject f else MaxUint64)).

Definition Matches (f : LocationFilter) (loc largest : Location) (hasLargest : bool) : bool :=
  if Less loc (lf_Start f largest hasLargest) then false
  else match lf_End f with
       | Some e => if Less e loc then false else true
       | None => true
       end.

Definition lf_Append (w : Writer) (f : LocationFilter) : Writer :=
  let w := w_Varint w (lf_Type f) in
  let n := (fields (lf_Type f)).1 in
  fold_left w_Varint (take n [StartGroup f; StartObject f; EndGroupDelta f; EndObject f]) w.

(** [for i, p := range dst[:n]]: [n] varints, in field order. *)
Fixpoint read_fields (n : nat) : M Reader (list Z) :=
  match n with
  | O => mret []
  | S n' =>
      v ← wrap_err (Wrapf "moqt/message: LOCATION_FILTER field") r_Varint;
      vs ← read_fields n'; mret (v :: vs)
  end.

(** The fields of [*f = LocationFilter{}] the loop assigned; the others stay 0. *)
Definition lf_of (t : Z) (vs : list Z) : LocationFilter :=
  MkLF t (default 0 (vs !! 0%nat)) (default 0 (vs !! 1%nat))
       (default 0 (vs !! 2%nat)) (default 0 (vs !! 3%nat)).

Definition lf_Parse : M Reader LocationFilter :=
  t ← wrap_err (Wrapf "moqt/message: LOCATION_FILTER type") r_Varint;
  let n := (fields t).1 in
  _ ← guard (fields t).2 (Wrapf "" ErrUnknownLocationFilterType);
  vs ← read_fields n;
  mret (lf_of t vs).

Definition lf_Bytes (f : LocationFilter) : bytes := lf_Append [] f.

Definition ParseLocationFilter (raw : bytes) : result LocationFilter :=
  '(f, r) ← lf_Parse (NewReader raw);
  if negb (Empty r) then Err (Errorf "moqt/message: LOCATION_FILTER has trailing bytes")
  else _ ← lf_Validate f; Ok f.

(** ** Lemmas *)

(** A filter as the decoder produces it: a known type, 64-bit values in the
    fields the type carries, zero in the others. *)
Definition lf_values (f : LocationFilter) : list Z :=
  take (fields (lf_Type f)).1 [StartGroup f; StartObject f; EndGroupDelta f; EndObject f].

Definition wf_lf (f : LocationFilter) : Prop :=
  (fields (lf_Type f)).2 = true /\ f = lf_of (lf_Type f) (lf_values f) /\
  Forall is_u64 (lf_values f).

#[global] Instance wf_lf_dec f : Decision (wf_lf f).
Proof. unfold wf_lf. apply _. Defined.

Lemma fields_known t : (fields t).2 = true -> 0 <= t <= 5.
Proof.
  unfold fields, LocationFilterNone, LocationFilterNextObject, LocationFilterRelativeStart,
    LocationFilterAbsoluteStart, LocationFilterAbsoluteStartGroupEnd, LocationFilterAbsoluteRange.
  intros H. repeat case_match; simpl in H; try done; lia.
Qed.

Lemma fields_le t : ((fields t).1 <= 4)%nat.
Proof. unfold fields. repeat case_match; simpl; lia. Qed.

Definition e_LF (f : LocationFilter) : bytes :=
  e_Varint (lf_Type f) ++ concat (e_Varint <$> lf_values f).

Lemma w_varints_app vs : forall w, fold_left w_Varint vs w = w ++ concat (e_Varint <$> vs).
Proof.
  induction vs as [|v vs IH]; intros w; simpl; [by rewrite app_nil_r|].
  rewrite IH, w_Varint_app. by rewrite app_assoc.
Qed.

Lemma lf_Append_app w f : lf_Append w f = w ++ e_LF f.
Proof. unfold lf_Append, e_LF. cbv zeta. by rewrite w_varints_app, w_Varint_app, app_assoc. Qed.

#[export] Hint Rewrite lf_Append_app : moq_w.

Lemma lf_Bytes_e f : lf_Bytes f = e_LF f.
Proof. apply lf_Append_app. Qed.

Lemma decodes_read_fields vs : Forall is_u64 vs ->
  decodes (read_fields (length vs)) (concat (e_Varint <$> vs)) vs.
Proof.
  induction 1 as [|v vs Hv _ IH]; [apply decodes_ret|]. simpl.
  apply decodes_bind with v; [by apply decodes_wrap, r_decodes_Varint|].
  apply decodes_bind_last with vs; [done|apply decodes_ret].
Qed.

Lemma lf_values_length f : length (lf_values f) = (fields (lf_Type f)).1.
Proof. unfold lf_values. rewrite length_take. pose proof (fields_le (lf_Type f)). simpl. lia. Qed.

Lemma decodes_lf f : wf_lf f -> decodes lf_Parse (e_LF f) f.
Proof.
  intros (Hk & Hf & Hv). pose proof (fields_known _ Hk). unfold lf_Parse, e_LF.
  apply decodes_bind with (lf_Type f); [apply decodes_wrap, r_decodes_Varint; zlia|].
  cbv zeta. apply decodes_bind_nil with tt; [by apply decodes_guard|].
  apply decodes_bind_last with (lf_values f).
  - rewrite <- lf_values_length. by apply decodes_read_fields.
  - rewrite <- Hf. apply decodes_ret.
Qed.

Lemma read_fields_snd n : forall r vs r', r_wf r -> read_fields n r = Ok (vs, r') ->
  length vs = n /\ Forall is_u64 vs /\ r_wf r'.
Proof.
  induction n as [|n IH]; intros r vs r' Hw H; cbn [read_fields] in H.
  { minv H. by split_and!. }
  msnd. match goal with H : read_fields _ _ = Ok _ |- _ =>
    apply IH in H as (? & ? & ?); [|done] end.
  simpl. split_and!; [lia|by constructor|done].
Qed.

Lemma lf_of_values t vs : length vs = (fields t).1 -> lf_values (lf_of t vs) = vs.
Proof.
  intros Hl. pose proof (fields_le t) as Hle. unfold lf_values. simpl. rewrite <- Hl in *.
  destruct vs as [|a [|b [|c [|d [|]]]]]; simpl in *; (done || lia).
Qed.

Lemma lf_Parse_snd r f r' : r_wf r -> lf_Parse r = Ok (f, r') -> wf_lf f /\ r_wf r'.
Proof.
  intros Hw H. unfold lf_Parse in H. msnd.
  match goal with H : read_fields _ _ = Ok _ |- _ =>
    apply read_fields_snd in H as (Hl & Hv & Hw2); [|done] end.
  split; [|done]. unfold wf_lf. rewrite (lf_of_values _ _ Hl). by split_and!.
Qed.

Lemma plain_read_fields n : plain_errs (read_fields n).
Proof. induction n as [|n IH]; cbn [read_fields]; plain_tac. Qed.
#[export] Hint Resolve plain_read_fields : moq.

Lemma plain_lf_Parse : plain_errs lf_Parse.
Proof. unfold lf_Parse. plain_tac. Qed.
#[export] Hint Resolve plain_lf_Parse : moq.

Lemma forward_read_fields n : forward (read_fields n).
Proof. induction n as [|n IH]; cbn [read_fields]; forward_tac. Qed.
#[export] Hint Resolve forward_read_fields : moq.

Lemma forward_lf_Parse : forward lf_Parse.
Proof. unfold lf_Parse. forward_tac. Qed.
#[export] Hint Resolve forward_lf_Parse : moq.

Lemma lf_Validate_spec f : lf_Validate f = Ok tt <->
  (fields (lf_Type f)).2 = true /\
  (HasEnd f = true -> StartGroup f + EndGroupDelta f <= MaxUint64).
Proof.
  unfold lf_Validate. destruct ((fields (lf_Type f)).2); simpl; [|by intuition].
  destruct (HasEnd f); simpl; [|by intuition].
  rewrite Z.gtb_ltb. destruct (Z.ltb_spec (MaxUint64 - EndGroupDelta f) (StartGroup f)).
  - split; [done|]. intros [_ H']. specialize (H' eq_refl). lia.
  - split; [|done]. intros _. split; [done|]. intros _. lia.
Qed.

Lemma ParseLocationFilter_decodes f : wf_lf f ->
  ParseLocationFilter (lf_Bytes f) = (_ ← lf_Validate f; Ok f).
Proof.
  intros Hf. unfold ParseLocationFilter, lf_Bytes. rewrite lf_Append_app. simpl.
  rewrite (decodes_NewReader lf_Parse (e_LF f) f) by (by apply decodes_end_of, decodes_lf).
  simpl. unfold Empty. simpl. by rewrite Nat.leb_refl.
Qed.

Lemma ParseLocationFilter_snd raw g : go_len raw -> ParseLocationFilter raw = Ok g ->
  wf_lf g /\ lf_Validate g = Ok tt /\ ParseLocationFilter (lf_Bytes g) = Ok g.
Proof.
  intros Hg H. unfold ParseLocationFilter in H.
  destruct (lf_Parse (NewReader raw)) as [[f r']|e] eqn:E; simpl in H; [|done].
  destruct (negb (Empty r')); [done|].
  destruct (lf_Validate f) as [[]|e'] eqn:Hv; simpl in H; simplify_eq.
  apply lf_Parse_snd in E as [Hf _]; [|split; simpl; [done|lia]].
  rewrite ParseLocationFilter_decodes, Hv by done. done.
Qed.

(** ** Theorems *)

(** The Locations a filter stands for, without machine arithmetic: the relative
    start clamped into the 64-bit range, the end group an exact sum. *)
Definition clamp64 (z : Z) : Z := Z.max 0 (Z.min MaxUint64 z).

Definition spec_start (f : LocationFilter) (largest : option Location) : Location :=
  match largest with
  | Some l =>
      if Unfiltered f then MkLoc 0 0
      else if RelativeStart f then MkLoc (clamp64 (Group l + 1 - StartGroup f)) 0
      else if NextObject f then MkLoc (Group l) (clamp64 (Object l + 1))
      else MkLoc (StartGroup f) (StartObject f)
  | None =>
      if Unfiltered f || RelativeStart f || NextObject f then MkLoc 0 0
      else MkLoc (StartGroup f) (StartObject f)
  end.

Definition spec_selects (f : LocationFilter) (largest : option Location) (l : Location) : Prop :=
  loc_le (spec_start f largest) l /\
  (HasEnd f = true ->
   loc_le l (MkLoc (StartGroup f + EndGroupDelta f)
                   (if HasEndObject f then EndObject f else MaxUint64))).

Lemma lf_Start_spec f largest : 0 <= StartGroup f -> wf_loc largest ->
  lf_Start f largest true = spec_start f (Some largest) /\
  lf_Start f largest false = spec_start f None.
Proof.
  intros Hs [Hg Ho]. unfold lf_Start, spec_start, clamp64.
  destruct (Unfiltered f), (RelativeStart f), (NextObject f); simpl; (split; [|done]); try done.
  - rewrite Z.gtb_ltb. destruct (Z.ltb_spec (Group largest) (StartGroup f)); [f_equal; zlia|].
    destruct (Z.eqb_spec (Group largest) MaxUint64), (Z.eqb_spec (StartGroup f) 0); simpl;
      f_equal; rewrite ?u64_small; zlia.
  - rewrite Z.gtb_ltb. destruct (Z.ltb_spec (Group largest) (StartGroup f)); [f_equal; zlia|].
    destruct (Z.eqb_spec (Group largest) MaxUint64), (Z.eqb_spec (StartGroup f) 0); simpl;
      f_equal; rewrite ?u64_small; zlia.
  - destruct (Z.eqb_spec (Object largest) MaxUint64); f_equal; rewrite ?u64_small; zlia.
Qed.

Lemma lf_Start_option f largest hasLargest : 0 <= StartGroup f -> wf_loc largest ->
  lf_Start f largest hasLargest = spec_start f (if hasLargest then Some largest else None).
Proof. intros. destruct hasLargest; by apply lf_Start_spec. Qed.

Lemma wf_lf_StartGroup f : wf_lf f ->
  0 <= StartGroup f /\ 0 <= EndGroupDelta f.
Proof.
  intros (_ & Hf & Hv). rewrite Hf. unfold lf_of; simpl.
  assert (Hd : forall i, 0 <= default 0 (lf_values f !! i)).
  { intros i. destruct (lf_values f !! i) as [v|] eqn:E; simpl; [|lia].
    rewrite Forall_lookup in Hv. specialize (Hv _ _ E). zlia. }
  split; apply Hd.
Qed.

Lemma Matches_selects f loc largest hasLargest :
  wf_lf f -> lf_Validate f = Ok tt -> wf_loc largest ->
  Matches f loc largest hasLargest = true <->
  spec_selects f (if hasLargest then Some largest else None) loc.
Proof.
  intros Hf Hv Hl. destruct (wf_lf_StartGroup _ Hf) as [Hs Hd].
  apply lf_Validate_spec in Hv as [_ Hend].
  unfold Matches, spec_selects. rewrite lf_Start_option by done.
  set (start := spec_start _ _).
  destruct (Less loc start) eqn:E1.
  - apply Less_spec in E1. rewrite loc_le_lt. split; [done|]. by intros [[] _].
  - apply Less_false in E1. unfold lf_End. destruct (HasEnd f) eqn:EH; simpl.
    + specialize (Hend eq_refl). rewrite u64_small by zlia.
      destruct (Less _ loc) eqn:E2.
      * apply Less_spec in E2. rewrite (loc_le_lt loc). split; [done|].
        intros [_ H]. by destruct (H eq_refl).
      * apply Less_false in E2. done.
    + split; [|done]. intros _. split; [done|]. discriminate.
Qed.

(** A validated Location Filter selects exactly the range its documentation
    describes.  For a filter the decoder can produce and [Validate] accepts,
    [Matches] holds of a Location iff it lies between the (clamped) start and
    the exact, unwrapped end, both inclusive, in the lexicographic order. *)
Theorem location_filter_matches f loc largest hasLargest :
  wf_lf f -> lf_Validate f = Ok tt -> wf_loc largest ->
  Matches f loc largest hasLargest = true <->
  spec_selects f (if hasLargest then Some largest else None) loc.
Proof. exact (Matches_selects f loc largest hasLargest). Qed.

Lemma location_filter_matches_witness :
  Matches (MkLF 4 5 2 1 9) (MkLoc 6 9) (MkLoc 0 0) false = true /\
  spec_selects (MkLF 4 5 2 1 9) None (MkLoc 6 9) /\
  Matches (MkLF 1 0 0 0 0) (MkLoc MaxUint64 0) (MkLoc MaxUint64 7) true = true /\
  spec_selects (MkLF 1 0 0 0 0) (Some (MkLoc MaxUint64 7)) (MkLoc MaxUint64 0).
Proof.
  split; [reflexivity|]. split.
  { apply (location_filter_matches (MkLF 4 5 2 1 9) (MkLoc 6 9) (MkLoc 0 0) false);
      [|reflexivity|by_decide|reflexivity].
    by_decide. }
  split; [reflexivity|].
  apply (location_filter_matches (MkLF 1 0 0 0 0) (MkLoc MaxUint64 0) (MkLoc MaxUint64 7) true);
    [|reflexivity|by_decide|reflexivity].
  by_decide.
Defined.

(** The LOCATION_FILTER codec.  The bytes of a well-formed filter parse back
    to it, and are rejected with the end-group error iff its end group leaves
    the 64-bit space; and whatever a parse accepts, from any bytes, is
    well-formed, valid, and parses to itself when written again, while bytes it
    rejects encode no valid filter. *)
Theorem location_filter_codec f raw :
  wf_lf f -> go_len raw ->
  ParseLocationFilter (lf_Bytes f) =
    (if decide (HasEnd f = true /\ MaxUint64 < StartGroup f + EndGroupDelta f)
     then Err (Wrapf "" ErrEndGroupOverflow) else Ok f) /\
  match ParseLocationFilter raw with
  | Ok g => wf_lf g /\ lf_Validate g = Ok tt /\ ParseLocationFilter (lf_Bytes g) = Ok g
  | Err _ => forall g, wf_lf g -> lf_Validate g = Ok tt -> raw <> lf_Bytes g
  end.
Proof.
  intros Hf Hg. split.
  - rewrite ParseLocationFilter_decodes by done. unfold lf_Validate.
    destruct Hf as (-> & _ & _). cbn [negb]. rewrite Z.gtb_ltb.
    destruct (decide _) as [[-> ?]|Hn]; cbn [andb].
    + destruct (Z.ltb_spec (MaxUint64 - EndGroupDelta f) (StartGroup f)); [done|lia].
    + destruct (HasEnd f); [|done]. cbn [andb].
      destruct (Z.ltb_spec (MaxUint64 - EndGroupDelta f) (StartGroup f)); [|done].
      destruct Hn. split; [done|lia].
  - destruct (ParseLocationFilter raw) as [g|e] eqn:E.
    + by eapply ParseLocationFilter_snd.
    + intros g Hwf Hv ->. by rewrite ParseLocationFilter_decodes, Hv in E.
Qed.

Lemma location_filter_codec_witness :
  ParseLocationFilter (lf_Bytes (MkLF 3 MaxUint64 0 1 0)) = Err (Wrapf "" ErrEndGroupOverflow) /\
  ParseLocationFilter (lf_Bytes (MkLF 3 7 0 1 0)) = Ok (MkLF 3 7 0 1 0).
Proof.
  destruct (location_filter_codec (MkLF 3 MaxUint64 0 1 0) [Byte.x03; Byte.x07; Byte.x00; Byte.x01])
    as [H1 H2];
    [by_decide
    |reflexivity|].
  split.
  - rewrite H1. rewrite decide_True; [reflexivity|]. split; [reflexivity|]. simpl. lia.
  - change (ParseLocationFilter [Byte.x03; Byte.x07; Byte.x00; Byte.x01])
      with (Ok (MkLF 3 7 0 1 0)) in H2. apply H2.
Defined.
