(* ===== verification/Params.v ===== *)
(** * Params: Message Parameters

    [message/params.go] (the Parameter type, its constructors, the counted,
    delta-encoded parameter block), [message/fill.go] (FILL_PARAMETERS and
    INCLUDE_PROPERTIES) and [message/param_scope.go] (which parameter may appear
    in which message, duplicates and the values that close a session). *)

From S2P Require Import Prelude Varint Wire KV Filter.

(** ** Parameter types and kinds *)
Definition ParamObjectDeliveryTimeout : Z := 2.
Definition ParamAuthorizationToken : Z := 3.
Definition ParamRendezvousTimeout : Z := 4.
Definition ParamSubgroupDeliveryTimeout : Z := 6.
Definition ParamExpires : Z := 8.
Definition ParamLargestObject : Z := 9.
Definition ParamFillTimeout : Z := 10.
Definition ParamForward : Z := 16.
Definition ParamSubscriberPriority : Z := 32.
Definition ParamLocationFilter : Z := 33.
Definition ParamGroupOrder : Z := 34.
Definition ParamFillParameters : Z := 35.
Definition ParamSubgroupFilter : Z := 37.
Definition ParamObjectIDFilter : Z := 38.
Definition ParamPriorityFilter : Z := 39.
Definition ParamObjectPropertyFilter : Z := 40.
Definition ParamTrackPropertyFilter : Z := 41.
Definition ParamNewGroupRequest : Z := 50.
Definition ParamTrackNamespacePrefix : Z := 52.
Definition ParamIncludeProperties : Z := 53.

Inductive ParamKind : Type :=
| kindUnset | KindVarint | KindByte | KindBytes | KindLocation | KindLocationFilter.

#[global] Instance ParamKind_eq_dec : EqDecision ParamKind.
Proof. solve_decision. Defined.

Definition paramKinds : gmap Z ParamKind := list_to_map [
  (ParamObjectDeliveryTimeout, KindVarint);
  (ParamAuthorizationToken, KindBytes);
  (ParamRendezvousTimeout, KindVarint);
  (ParamSubgroupDeliveryTimeout, KindVarint);
  (ParamExpires, KindVarint);
  (ParamLargestObject, KindLocation);
  (ParamFillTimeout, KindVarint);
  (ParamForward, KindByte);
  (ParamSubscriberPriority, KindByte);
  (ParamLocationFilter, KindLocationFilter);
  (ParamGroupOrder, KindByte);
  (ParamFillParameters, KindBytes);
  (ParamSubgroupFilter, KindBytes);
  (ParamObjectIDFilter, KindBytes);
  (ParamPriorityFilter, KindBytes);
  (ParamObjectPropertyFilter, KindBytes);
  (ParamTrackPropertyFilter, KindBytes);
  (ParamNewGroupRequest, KindVarint);
  (ParamTrackNamespacePrefix, KindBytes);
  (ParamIncludeProperties, KindByte)].

Definition kindOf (t : Z) : result ParamKind :=
  match paramKinds !! t with
  | Some k => Ok k
  | None => Err (Wrapf "" ErrUnknownParameter)
  end.

Record Param : Type := MkParam {
  p_Type : Z; p_Varint : Z; p_Byte : Z; p_Bytes : bytes; p_Group : Z; p_Object : Z;
  p_kind : ParamKind
}.

#[global] Instance Param_eq_dec : EqDecision Param.
Proof. solve_decision. Defined.

(** *** Constructors *)
Definition VarintParam (t v : Z) : Param := MkParam t v 0 [] 0 0 KindVarint.
Definition ByteParam (t v : Z) : Param := MkParam t 0 v [] 0 0 KindByte.
Definition BytesParam (t : Z) (v : bytes) : Param :=
  if decide (paramKinds !! t = Some KindLocationFilter)
  then MkParam t 0 0 v 0 0 KindLocationFilter
  else MkParam t 0 0 v 0 0 KindBytes.
Definition LocationParam (t g o : Z) : Param := MkParam t 0 0 [] g o KindLocation.

(** [uint64(d/time.Millisecond)] of a Duration in nanoseconds. *)
Definition duration_ms (d : Z) : Z := u64 (Z.quot d 1000000).

Definition ObjectDeliveryTimeoutParam (d : Z) := VarintParam ParamObjectDeliveryTimeout (duration_ms d).
Definition RendezvousTimeoutParam (d : Z) := VarintParam ParamRendezvousTimeout (duration_ms d).
Definition SubgroupDeliveryTimeoutParam (d : Z) := VarintParam ParamSubgroupDeliveryTimeout (duration_ms d).
Definition FillTimeoutParam (d : Z) := VarintParam ParamFillTimeout (duration_ms d).
Definition ExpiresParam (d : Z) := VarintParam ParamExpires (duration_ms d).
Definition LargestObjectParam (group object : Z) := LocationParam ParamLargestObject group object.
Definition ForwardParam (forward : bool) := ByteParam ParamForward (if forward then 1 else 0).
Definition SubscriberPriorityParam (priority : Z) := ByteParam ParamSubscriberPriority priority.
Definition LocationFilterParam (f : LocationFilter) := BytesParam ParamLocationFilter (lf_Bytes f).
Definition GroupOrderAscending : Z := 1.
Definition GroupOrderDescending : Z := 2.
Definition GroupOrderParam (order : Z) := ByteParam ParamGroupOrder order.
Definition NewGroupRequestParam (g : Z) := VarintParam ParamNewGroupRequest g.
Definition TrackNamespacePrefixParam (prefix : TrackNamespace) :=
  BytesParam ParamTrackNamespacePrefix (w_TrackNamespace [] prefix).
Definition IncludePropertiesParam (include : bool) :=
  ByteParam ParamIncludeProperties (if include then 1 else 0).

Definition UnfilteredFilter := LocationFilterParam (MkLF LocationFilterNone 0 0 0 0).
Definition NextObjectFilter := LocationFilterParam (MkLF LocationFilterNextObject 0 0 0 0).
Definition RelativeStartFilter (groupsBack : Z) :=
  LocationFilterParam (MkLF LocationFilterRelativeStart groupsBack 0 0 0).
Definition AbsoluteStartFilter (start : Location) :=
  LocationFilterParam (MkLF LocationFilterAbsoluteStart (Group start) (Object start) 0 0).
Definition AbsoluteRangeFilter (start : Location) (endGroupDelta : Z) :=
  LocationFilterParam
    (MkLF LocationFilterAbsoluteStartGroupEnd (Group start) (Object start) endGroupDelta 0).
Definition AbsoluteRangeObjectFilter (start : Location) (endGroupDelta endObject : Z) :=
  LocationFilterParam
    (MkLF LocationFilterAbsoluteRange (Group start) (Object start) endGroupDelta endObject).

(** ** The parameter block *)
Abbreviation Params := (list Param) (only parsing).

Fixpoint p_Find (ps : Params) (t : Z) : option Param :=
  match ps with
  | [] => None
  | p :: ps' => if p_Type p =? t then Some p else p_Find ps' t
  end.

Definition p_FindAll (ps : Params) (t : Z) : Params := filter (fun p => p_Type p = t) ps.

Definition IsRangeFilterParam (t : Z) : bool :=
  (ParamSubgroupFilter <=? t) && (t <=? ParamTrackPropertyFilter).

Definition appendParamValue (w : Writer) (p : Param) : result Writer :=
  match p_kind p with
  | KindVarint => Ok (w_Varint w (p_Varint p))
  | KindByte => Ok (w_UInt8 w (p_Byte p))
  | KindBytes => Ok (w_VarintBytes w (p_Bytes p))
  | KindLocation => Ok (w_Varint (w_Varint w (p_Group p)) (p_Object p))
  | KindLocationFilter => Ok (w_FixedBytes w (p_Bytes p))
  | kindUnset => Err Panic
  end.

(** The loop over the sorted copy. *)
Fixpoint append_params (w : Writer) (prev : Z) (sorted : Params) : result Writer :=
  match sorted with
  | [] => Ok w
  | p :: ps =>
      let t := p_Type p in
      w ← appendParamValue (w_Varint w (u64 (t - prev))) p;
      append_params w t ps
  end.

Definition p_sort (ps : Params) : Params := SortStableFunc (by_key p_Type) ps.

Definition p_append (w : Writer) (ps : Params) : result Writer :=
  append_params (w_Varint w (len ps)) 0 (p_sort ps).

Definition lift {S A} (r : result A) : M S A := fun s => a ← r; Ok (a, s).

Definition parseParamValue (t : Z) : M Reader Param :=
  k ← lift (kindOf t);
  match k with
  | KindVarint => v ← r_Varint; mret (MkParam t v 0 [] 0 0 k)
  | KindByte => v ← r_UInt8; mret (MkParam t 0 v [] 0 0 k)
  | KindBytes => v ← r_VarintBytes; mret (MkParam t 0 0 v 0 0 k)
  | KindLocation => g ← r_Varint; o ← r_Varint; mret (MkParam t 0 0 [] g o k)
  | KindLocationFilter => f ← lf_Parse; mret (MkParam t 0 0 (lf_Bytes f) 0 0 k)
  | kindUnset => fail (Errorf "moqt/message: parameter has no value kind")
  end.

(** [for range count]: [count] comes from the peer and may be 2^64-1, but every
    turn reads at least one byte, so fuel for the buffer is enough. *)
Fixpoint parse_params (fuel : nat) (count prev : Z) : M Reader Params :=
  if count =? 0 then mret []
  else match fuel with
       | O => fail OutOfFuel
       | S fuel' =>
           delta ← r_Varint;
           _ ← guard (delta <=? MaxUint64 - prev) ErrParamTypeOverflow;
           let t := prev + delta in
           p ← parseParamValue t;
           ps ← parse_params fuel' (count - 1) t;
           mret (p :: ps)
       end.

Definition parse_counted (count : Z) : M Reader Params := fun r =>
  parse_params (S (length (buf r))) count 0 r.

Definition p_parse : M Reader Params := count ← r_Varint; parse_counted count.

(** *** Typed accessors *)
Definition LocationFilterFromParam (ps : Params) : result (option LocationFilter) :=
  match p_Find ps ParamLocationFilter with
  | None => Ok None
  | Some p => f ← ParseLocationFilter (p_Bytes p); Ok (Some f)
  end.

Definition TrackNamespacePrefixFromParam (p : Param) : result TrackNamespace :=
  '(prefix, r) ← map_err (Wrapf "moqt/message: TRACK_NAMESPACE_PREFIX")
                  (r_TrackNamespace (NewReader (p_Bytes p)));
  if negb (Empty r) then Err (Errorf "moqt/message: TRACK_NAMESPACE_PREFIX: trailing bytes")
  else Ok prefix.

(** ** FILL_PARAMETERS and INCLUDE_PROPERTIES *)
Definition fillParamsAllowed : list Z :=
  [ParamFillTimeout; ParamSubscriberPriority; ParamLocationFilter; ParamGroupOrder;
   ParamSubgroupFilter; ParamObjectIDFilter; ParamPriorityFilter; ParamObjectPropertyFilter].

Definition FillParametersParam (inner : Params) : result Param :=
  w ← p_append [] inner; Ok (BytesParam ParamFillParameters w).

(** [seen] is [ps[:i]], newest first. *)
Fixpoint first_duplicate (seen : list Z) (ps : Params) : option Z :=
  match ps with
  | [] => None
  | p :: ps' =>
      if IsRangeFilterParam (p_Type p) || (p_Type p =? ParamAuthorizationToken)
      then first_duplicate (p_Type p :: seen) ps'
      else if bool_decide (p_Type p ∈ seen) then Some (p_Type p)
      else first_duplicate (p_Type p :: seen) ps'
  end.

Definition firstDuplicate (ps : Params) : option Z := first_duplicate [] ps.

Fixpoint first_disallowed (inner : Params) : bool :=
  match inner with
  | [] => false
  | ip :: inner' =>
      if bool_decide (p_Type ip ∈ fillParamsAllowed) then first_disallowed inner' else true
  end.

(** The values [inner, ok] on success; every error comes with [ok = true]. *)
Definition FillParametersFromParam (ps : Params) : result (Params * bool) :=
  match p_Find ps ParamFillParameters with
  | None => Ok ([], false)
  | Some p =>
      '(inner, r) ← map_err (Wrapf "moqt/message: FILL_PARAMETERS") (p_parse (NewReader (p_Bytes p)));
      if negb (Empty r) then Err (Errorf "moqt/message: FILL_PARAMETERS: bytes after its Parameters")
      else if first_disallowed inner
      then Err (Errorf "moqt/message: not allowed inside FILL_PARAMETERS")
      else match firstDuplicate inner with
           | Some _ => Err (Errorf "moqt/message: duplicate inside FILL_PARAMETERS")
           | None => Ok (inner, true)
           end
  end.

Definition IncludePropertiesFromParam (ps : Params) : result bool :=
  match p_Find ps ParamIncludeProperties with
  | None => Ok true
  | Some p =>
      if p_Byte p =? 0 then Ok false
      else if p_Byte p =? 1 then Ok true
      else Err (Errorf "moqt/message: INCLUDE_PROPERTIES value outside {0,1}")
  end.

(** ** Parameter scopes (bit flags) *)
Definition ScopeSubscribe : Z := Z.shiftl 1 0.
Definition ScopeSubscribeOK : Z := Z.shiftl 1 1.
Definition ScopePublish : Z := Z.shiftl 1 2.
Definition ScopePublishOK : Z := Z.shiftl 1 3.
Definition ScopeFetch : Z := Z.shiftl 1 4.
Definition ScopeFetchOK : Z := Z.shiftl 1 5.
Definition ScopeTrackStatus : Z := Z.shiftl 1 6.
Definition ScopeTrackStatusOK : Z := Z.shiftl 1 7.
Definition ScopeSubscribeNamespace : Z := Z.shiftl 1 8.
Definition ScopeSubscribeNamespaceOK : Z := Z.shiftl 1 9.
Definition ScopeSubscribeTracks : Z := Z.shiftl 1 10.
Definition ScopeSubscribeTracksOK : Z := Z.shiftl 1 11.
Definition ScopePublishNamespace : Z := Z.shiftl 1 12.
Definition ScopePublishNamespaceOK : Z := Z.shiftl 1 13.
Definition ScopePublishStateNotify : Z := Z.shiftl 1 14.
Definition ScopeRequestUpdateOK : Z := Z.shiftl 1 15.
Definition ScopeUpdateFromSubscriber : Z := Z.shiftl 1 16.
Definition ScopeUpdateFromPublisher : Z := Z.shiftl 1 17.
Definition ScopeUpdateFetch : Z := Z.shiftl 1 18.
Definition ScopeUpdateTrackStatus : Z := Z.shiftl 1 19.
Definition ScopeUpdateSubscribeNamespace : Z := Z.shiftl 1 20.
Definition ScopeUpdateSubscribeTracks : Z := Z.shiftl 1 21.
Definition ScopeUpdatePublishNamespace : Z := Z.shiftl 1 22.

(** [a | b | ...]. *)
Definition scopes (l : list Z) : Z := foldr Z.lor 0 l.

Definition scopeUpdateSubscription : Z :=
  scopes [ScopeUpdateFromSubscriber; ScopeUpdateFromPublisher].
Definition scopeAnyUpdate : Z :=
  scopes [scopeUpdateSubscription; ScopeUpdateFetch; ScopeUpdateTrackStatus;
          ScopeUpdateSubscribeNamespace; ScopeUpdateSubscribeTracks; ScopeUpdatePublishNamespace].
Definition scopeRangeFilter : Z :=
  scopes [ScopeSubscribe; ScopeFetch; ScopeSubscribeTracks; ScopeUpdateFromSubscriber;
          ScopeUpdateSubscribeTracks].

Definition paramScopes : gmap Z Z := list_to_map [
  (ParamAuthorizationToken,
     scopes [ScopePublish; ScopeSubscribe; scopeAnyUpdate; ScopeSubscribeNamespace;
             ScopeSubscribeTracks; ScopePublishNamespace; ScopeTrackStatus; ScopeFetch]);
  (ParamSubgroupDeliveryTimeout, scopes [ScopeSubscribe; ScopePublish; scopeAnyUpdate]);
  (ParamObjectDeliveryTimeout, scopes [ScopeSubscribe; ScopePublish; scopeAnyUpdate]);
  (ParamFillTimeout, ScopeFetch);
  (ParamRendezvousTimeout, ScopeSubscribe);
  (ParamSubscriberPriority,
     scopes [ScopeSubscribe; ScopePublish; ScopeFetch; scopeUpdateSubscription; ScopeUpdateFetch]);
  (ParamGroupOrder, scopes [ScopeSubscribe; ScopePublish; ScopeSubscribeTracks; ScopeFetch]);
  (ParamLocationFilter,
     scopes [ScopeFetch; ScopeSubscribe; ScopePublish; scopeUpdateSubscription;
             ScopePublishStateNotify]);
  (ParamSubgroupFilter, scopeRangeFilter);
  (ParamObjectIDFilter, scopeRangeFilter);
  (ParamPriorityFilter, scopeRangeFilter);
  (ParamObjectPropertyFilter, scopeRangeFilter);
  (ParamTrackPropertyFilter, scopeRangeFilter);
  (ParamFillParameters, scopes [ScopeSubscribe; scopeUpdateSubscription]);
  (ParamExpires,
     scopes [ScopeSubscribeOK; ScopePublish; ScopePublishOK; ScopeSubscribeNamespaceOK;
             ScopeSubscribeTracksOK; ScopePublishNamespaceOK; ScopeRequestUpdateOK]);
  (ParamLargestObject,
     scopes [ScopeSubscribeOK; ScopePublish; ScopeRequestUpdateOK; ScopeTrackStatusOK;
             ScopePublishStateNotify]);
  (ParamForward,
     scopes [ScopeSubscribe; scopeUpdateSubscription; ScopeUpdateSubscribeTracks; ScopePublish;
             ScopeSubscribeTracks; ScopePublishStateNotify]);
  (ParamNewGroupRequest, scopes [ScopeSubscribe; scopeUpdateSubscription]);
  (ParamTrackNamespacePrefix, scopes [ScopeUpdateSubscribeNamespace; ScopeUpdateSubscribeTracks]);
  (ParamIncludeProperties,
     scopes [ScopeSubscribe; ScopeTrackStatus; ScopeFetch; ScopeSubscribeTracks])].

(** What [CheckScope] computes for one parameter: its registered scopes (0 when
    it has none), with SUBSCRIBE_TRACKS added to every SUBSCRIBE parameter. *)
Definition allowed_scopes (t : Z) : Z :=
  let allowed := default 0 (paramScopes !! t) in
  if negb (Z.land allowed ScopeSubscribe =? 0) then Z.lor allowed ScopeSubscribeTracks
  else allowed.

Fixpoint check_allowed (ps : Params) (scope : Z) : result unit :=
  match ps with
  | [] => Ok tt
  | p :: ps' =>
      if Z.land (allowed_scopes (p_Type p)) scope =? 0
      then Err (ErrParamScope (p_Type p) scope false)
      else check_allowed ps' scope
  end.

Definition checkValues (ps : Params) : result unit :=
  _ ← match p_Find ps ParamGroupOrder with
      | Some p =>
          if negb (p_Byte p =? GroupOrderAscending) && negb (p_Byte p =? GroupOrderDescending)
          then Err (Errorf "moqt/message: GROUP_ORDER value outside {1,2}") else Ok tt
      | None => Ok tt
      end;
  _ ← match p_Find ps ParamForward with
      | Some p =>
          if p_Byte p >? 1 then Err (Errorf "moqt/message: FORWARD value outside {0,1}") else Ok tt
      | None => Ok tt
      end;
  _ ← IncludePropertiesFromParam ps;
  match LocationFilterFromParam ps with
  | Ok _ => Ok tt
  | Err err =>
      if errors_Is err ErrEndGroupOverflow || errors_Is err ErrUnknownLocationFilterType
      then Err err else Err (Wrapf2 "LOCATION_FILTER" ErrValueFormatting err)
  end.

Definition CheckScope (ps : Params) (scope : Z) : result unit :=
  _ ← check_allowed ps scope;
  match firstDuplicate ps with
  | Some t => Err (ErrParamScope t scope true)
  | None =>
      '(inner, _) ← FillParametersFromParam ps;
      _ ← map_err (Wrapf "FILL_PARAMETERS") (checkValues inner);
      checkValues ps
  end.

(** ** The block codec *)

(** A parameter as the parser builds it: the registered kind of its type, a
    value of that kind in range, zeroes elsewhere. *)
Definition wf_value (k : ParamKind) (p : Param) : Prop :=
  match k with
  | KindVarint => p = VarintParam (p_Type p) (p_Varint p) /\ is_u64 (p_Varint p)
  | KindByte => p = ByteParam (p_Type p) (p_Byte p) /\ is_u8 (p_Byte p)
  | KindBytes => p = MkParam (p_Type p) 0 0 (p_Bytes p) 0 0 KindBytes /\ go_len (p_Bytes p)
  | KindLocation =>
      p = LocationParam (p_Type p) (p_Group p) (p_Object p) /\ is_u64 (p_Group p) /\ is_u64 (p_Object p)
  | KindLocationFilter =>
      p = MkParam (p_Type p) 0 0 (p_Bytes p) 0 0 KindLocationFilter /\
      exists f, wf_lf f /\ p_Bytes p = lf_Bytes f
  | kindUnset => False
  end.

Definition wf_param (p : Param) : Prop :=
  is_u64 (p_Type p) /\ kindOf (p_Type p) = Ok (p_kind p) /\ wf_value (p_kind p) p.

(** What the constructors build is well-formed for a type of their kind. *)
Lemma wf_VarintParam t v : kindOf t = Ok KindVarint -> is_u64 t -> is_u64 v ->
  wf_param (VarintParam t v).
Proof. intros. by split_and!. Qed.
Lemma wf_ByteParam t v : kindOf t = Ok KindByte -> is_u64 t -> is_u8 v -> wf_param (ByteParam t v).
Proof. intros. by split_and!. Qed.
Lemma wf_LocationParam t g o : kindOf t = Ok KindLocation -> is_u64 t -> is_u64 g -> is_u64 o ->
  wf_param (LocationParam t g o).
Proof. intros. by split_and!. Qed.
Lemma wf_BytesParam t v : kindOf t = Ok KindBytes -> is_u64 t -> go_len v ->
  wf_param (BytesParam t v).
Proof.
  intros Hk Ht Hv. unfold BytesParam. rewrite decide_False; [by split_and!|].
  unfold kindOf in Hk. intros E. by rewrite E in Hk.
Qed.
Lemma wf_LocationFilterParam f : wf_lf f -> wf_param (LocationFilterParam f).
Proof.
  intros Hf. unfold LocationFilterParam, BytesParam. rewrite decide_True by reflexivity.
  split; [simpl; unfold ParamLocationFilter; zlia|]. split; [reflexivity|]. simpl. eauto.
Qed.

Definition e_value (p : Param) : bytes :=
  match p_kind p with
  | KindVarint => e_Varint (p_Varint p)
  | KindByte => e_UInt8 (p_Byte p)
  | KindBytes => e_VarintBytes (p_Bytes p)
  | KindLocation => e_Varint (p_Group p) ++ e_Varint (p_Object p)
  | KindLocationFilter | kindUnset => p_Bytes p
  end.

Fixpoint e_plist (prev : Z) (ps : Params) : bytes :=
  match ps with
  | [] => []
  | p :: ps' => e_Varint (u64 (p_Type p - prev)) ++ e_value p ++ e_plist (p_Type p) ps'
  end.

Definition e_Params (ps : Params) : bytes := e_Varint (len ps) ++ e_plist 0 (p_sort ps).

Lemma wf_param_set p : wf_param p -> p_kind p <> kindUnset.
Proof. intros (_ & _ & Hv) E. by rewrite E in Hv. Qed.

Lemma appendParamValue_app w p : p_kind p <> kindUnset -> appendParamValue w p = Ok (w ++ e_value p).
Proof.
  unfold appendParamValue, e_value. intros Hk.
  destruct (p_kind p); simpl; wnorm; done.
Qed.

Lemma append_params_app ps : forall w prev, Forall (fun p => p_kind p <> kindUnset) ps ->
  append_params w prev ps = Ok (w ++ e_plist prev ps).
Proof.
  induction ps as [|p ps IH]; intros w prev Hk; simpl; [by rewrite app_nil_r|].
  apply Forall_cons in Hk as [Hp Hk]. rewrite appendParamValue_app by done. simpl.
  rewrite IH by done. wnorm. done.
Qed.

Lemma p_append_app w ps : Forall (fun p => p_kind p <> kindUnset) ps ->
  p_append w ps = Ok (w ++ e_Params ps).
Proof.
  intros Hk. unfold p_append, e_Params, p_sort.
  rewrite append_params_app by (by rewrite (sort_stable_perm _ ps)). wnorm. done.
Qed.

Lemma p_append_wf w ps : Forall wf_param ps -> p_append w ps = Ok (w ++ e_Params ps).
Proof. intros H. apply p_append_app. eapply Forall_impl; [exact H|apply wf_param_set]. Qed.

Lemma decodes_lift {S} `{!Decoder S, !DecoderLaws S} {A} (r : result A) x :
  r = Ok x -> decodes (lift (S:=S) r) [] x.
Proof. intros -> s s' Ha. apply at_nil in Ha. by subst. Qed.

Lemma decodes_value p : wf_param p -> decodes (parseParamValue (p_Type p)) (e_value p) p.
Proof.
  intros (Ht & Hk & Hv). unfold parseParamValue, e_value.
  apply decodes_bind_nil with (p_kind p); [by apply decodes_lift|].
  destruct (p_kind p) eqn:E; cbn [wf_value] in Hv.
  - done.
  - destruct Hv as [Hp Hv]. eapply decodes_bind_last; [by apply r_decodes_Varint|].
    by apply decodes_ret_eq.
  - destruct Hv as [Hp Hv]. eapply decodes_bind_last; [by apply r_decodes_UInt8|].
    by apply decodes_ret_eq.
  - destruct Hv as [Hp Hv]. eapply decodes_bind_last; [by apply r_decodes_VarintBytes|].
    by apply decodes_ret_eq.
  - destruct Hv as (Hp & Hg & Ho). eapply decodes_bind; [by apply r_decodes_Varint|].
    eapply decodes_bind_last; [by apply r_decodes_Varint|]. by apply decodes_ret_eq.
  - destruct Hv as (Hp & f & Hf & Hb). rewrite Hb, lf_Bytes_e.
    eapply decodes_bind_last; [by apply decodes_lf|].
    apply decodes_ret_eq. by rewrite <- Hb.
Qed.

Definition p_ordered (prev : Z) (ps : Params) : Prop :=
  Forall (fun p => prev <= p_Type p) ps /\ StronglySorted (le (by_key p_Type)) ps.

Lemma p_ordered_cons prev p ps : p_ordered prev (p :: ps) <->
  prev <= p_Type p /\ p_ordered (p_Type p) ps.
Proof.
  unfold p_ordered. split.
  - intros [Hge Hs]. apply Forall_cons in Hge as [Hp Hge]. apply StronglySorted_inv in Hs as [Hs Hx].
    split_and!; [done| |done]. eapply Forall_impl; [exact Hx|].
    intros q. unfold le, by_key. by rewrite Z.ltb_ge.
  - intros (Hp & Hge & Hs). split.
    + constructor; [done|]. eapply Forall_impl; [exact Hge|]. simpl. lia.
    + constructor; [done|]. eapply Forall_impl; [exact Hge|].
      intros q. unfold le, by_key. by rewrite Z.ltb_ge.
Qed.

Lemma decodes_parse_params ps : forall fuel prev, (length ps <= fuel)%nat ->
  is_u64 prev -> Forall wf_param ps -> p_ordered prev ps ->
  decodes (parse_params fuel (len ps) prev) (e_plist prev ps) ps.
Proof.
  induction ps as [|p ps IH]; intros fuel prev Hf Hprev Hwf Ho.
  { destruct fuel; apply decodes_ret. }
  destruct fuel as [|fuel]; [simpl in Hf; lia|].
  apply Forall_cons in Hwf as [Hp Hwf]. apply p_ordered_cons in Ho as [Hle Ho].
  pose proof (len_nonneg ps). cbn [parse_params e_plist].
  destruct (Z.eqb_spec (len (p :: ps)) 0); [rewrite len_cons in *; lia|].
  rewrite u64_sub_le by (done || apply Hp).
  eapply decodes_bind; [apply r_decodes_Varint; destruct Hp; zlia|].
  apply decodes_bind_nil with tt; [apply decodes_guard, Z.leb_le; destruct Hp; zlia|].
  cbv zeta. replace (prev + (p_Type p - prev)) with (p_Type p) by lia.
  eapply decodes_bind; [by apply decodes_value|].
  rewrite len_cons. replace (1 + len ps - 1) with (len ps) by lia.
  eapply decodes_bind_last; [|apply decodes_ret].
  apply IH; [simpl in Hf; lia|apply Hp|done|done].
Qed.

Lemma p_sort_ordered ps : Forall wf_param ps -> p_ordered 0 (p_sort ps).
Proof.
  intros Hwf. split; [|apply sort_by_key_sorted]. unfold p_sort.
  rewrite (sort_stable_perm _ ps). eapply Forall_impl; [exact Hwf|]. intros p [Ht _]. zlia.
Qed.

Lemma p_sort_wf ps : Forall wf_param ps -> Forall wf_param (p_sort ps).
Proof. intros. unfold p_sort. by rewrite (sort_stable_perm _ ps). Qed.

Lemma p_sort_len ps : len (p_sort ps) = len ps.
Proof. unfold len, p_sort. by rewrite sort_stable_length. Qed.

Lemma e_plist_length ps : forall prev, (length ps <= length (e_plist prev ps))%nat.
Proof.
  induction ps as [|p ps IH]; intros prev; simpl; [lia|].
  rewrite !length_app. pose proof (e_Varint_length (u64 (p_Type p - prev)) (u64_range _)).
  specialize (IH (p_Type p)). lia.
Qed.

Lemma decodes_params ps : Forall wf_param ps -> go_len ps ->
  decodes p_parse (e_Params ps) (p_sort ps).
Proof.
  intros Hwf Hg. unfold p_parse, e_Params.
  eapply decodes_bind; [apply r_decodes_Varint; auto with moq|].
  intros r r' Ha. unfold parse_counted. rewrite <- p_sort_len.
  apply decodes_parse_params; [|zlia|by apply p_sort_wf|by apply p_sort_ordered|done].
  destruct Ha as (_ & _ & _ & post & Hr). pose proof (e_plist_length (p_sort ps) 0) as Hl.
  apply (f_equal length) in Hr. unfold rest in Hr. rewrite length_drop, length_app in Hr. lia.
Qed.

#[export] Hint Resolve decodes_params : moq.

(** What a successful parse guarantees. *)
Lemma kindOf_ok t k : kindOf t = Ok k -> k <> kindUnset.
Proof.
  unfold kindOf. destruct (paramKinds !! t) as [k'|] eqn:E; [|done]. intros [= <-].
  assert (Hall : map_Forall (fun _ k => k <> kindUnset) paramKinds) by by_decide.
  by apply (Hall t).
Qed.

Lemma lift_inv {S A} (x : result A) (s : S) r : lift x s = Ok r -> x = Ok r.1 /\ r.2 = s.
Proof. unfold lift. destruct x; simpl; [|done]. by intros [= <-]. Qed.

Lemma parseParamValue_snd t r p r' : r_wf r -> is_u64 t -> parseParamValue t r = Ok (p, r') ->
  wf_param p /\ p_Type p = t /\ r_wf r'.
Proof.
  intros Hw Ht H. unfold parseParamValue in H. minv H.
  apply lift_inv in H0 as [Hk Es]. simpl in *. subst s.
  assert (wf_lf_ex : forall f, wf_lf f -> exists g, wf_lf g /\ lf_Bytes f = lf_Bytes g) by eauto.
  unfold wf_param. destruct a; mpeel; [done| | | | |].
  all: try (msnd; simpl; split_and!; (done || by split_and!)).
  apply lf_Parse_snd in H0 as [Hf Hw']; [|done]. simpl. split_and!; [done|done|done| |done|done].
  eauto.
Qed.

Lemma parse_params_snd fuel : forall count prev r ps r', r_wf r -> is_u64 prev ->
  parse_params fuel count prev r = Ok (ps, r') ->
  Forall wf_param ps /\ p_ordered prev ps /\ len ps = count /\ r_wf r'.
Proof.
  induction fuel as [|fuel IH]; intros count prev r ps r' Hw Hprev H; cbn [parse_params] in H;
    (destruct (Z.eqb_spec count 0) as [->|Hc];
      [minv H; split_and!; [constructor|split; constructor|done|done]|]); [done|].
  msnd. rewrite Z.leb_le in *.
  match goal with H : parseParamValue _ _ = _ |- _ =>
    apply parseParamValue_snd in H as (Hp & Et & Hw1); [|done|zlia] end.
  match goal with H : parse_params _ _ _ _ = _ |- _ =>
    apply IH in H as (Hwf & Ho & Hl & Hw2); [|done|zlia] end.
  split_and!; [by constructor| |rewrite len_cons; lia|done].
  apply p_ordered_cons. rewrite Et. split; [zlia|done].
Qed.

Lemma p_parse_snd r ps r' : r_wf r -> p_parse r = Ok (ps, r') ->
  Forall wf_param ps /\ p_sort ps = ps /\ is_u64 (len ps) /\ r_wf r'.
Proof.
  intros Hw H. unfold p_parse in H. msnd. apply parse_params_snd in H as (Hwf & [_ Hs] & Hl & Hw2);
    [|done|zlia].
  split_and!; [done|by apply sort_stable_id|by rewrite Hl|done].
Qed.

(** The parser ends by itself, whatever count the peer announces. *)
Lemma plain_kindOf {S} t : plain_errs (lift (S:=S) (kindOf t)).
Proof.
  intros s e. unfold lift, kindOf. destruct (paramKinds !! t); simpl; [done|]. by intros [= <-].
Qed.
#[export] Hint Resolve plain_kindOf : moq.

Lemma plain_parseParamValue t : plain_errs (parseParamValue t).
Proof. unfold parseParamValue. plain_tac. Qed.

Lemma forward_lift {A} (x : result A) : forward (lift x).
Proof. intros r y r' H. apply lift_inv in H as [_ H]. simpl in H. by subst. Qed.
Lemma forward_fail {A} e : forward (fail (A:=A) e).
Proof. done. Qed.
#[export] Hint Resolve forward_lift forward_fail : moq.

Lemma forward_parseParamValue t : forward (parseParamValue t).
Proof. unfold parseParamValue. forward_tac. Qed.

Lemma parse_params_plain fuel : forall count prev r e,
  (length (buf r) - off r < fuel)%nat -> parse_params fuel count prev r = Err e -> plain e = true.
Proof.
  induction fuel as [|fuel IH]; intros count prev r e Hf; [lia|]. cbn [parse_params].
  destruct (count =? 0); [done|].
  unfold mbind, M_bind, guard, mret, M_ret. destruct (r_Varint r) as [[d r1]|e1] eqn:E1.
  2: { intros [= <-]. by eapply plain_r_Varint. }
  destruct (d <=? MaxUint64 - prev); [|by intros [= <-]]. cbv zeta.
  destruct (parseParamValue (prev + d) r1) as [[p r2]|e2] eqn:E2.
  2: { intros [= <-]. by eapply plain_parseParamValue. }
  destruct (parse_params fuel (count - 1) (prev + d) r2) as [[ps r3]|e3] eqn:E3; [done|].
  intros [= <-]. apply IH in E3; [done|].
  pose proof E1 as E1'.
  apply r_Varint_forward in E1 as [Hb1 Ho1]. apply forward_parseParamValue in E2 as [Hb2 Ho2].
  rewrite Hb2, Hb1. destruct (Nat.le_gt_cases (length (buf r)) (off r)); [|lia].
  assert (r_Varint r = Err ErrShortBuffer); [|congruence].
  unfold r_Varint. by rewrite drop_ge by done.
Qed.

Lemma plain_p_parse : plain_errs p_parse.
Proof.
  apply plain_bind; [auto with moq|]. intros count r e. apply parse_params_plain. lia.
Qed.

Lemma forward_parse_params fuel : forall count prev, forward (parse_params fuel count prev).
Proof.
  induction fuel as [|fuel IH]; intros count prev; cbn [parse_params]; forward_tac.
  apply forward_parseParamValue.
Qed.

Lemma forward_p_parse : forward p_parse.
Proof.
  apply forward_bind; [auto with moq|]. intros count r. apply forward_parse_params.
Qed.

#[export] Hint Resolve plain_p_parse forward_p_parse : moq.

(** Every parameter takes at least one byte, so the list fits in memory. *)
Lemma parse_params_count fuel : forall count prev r ps r',
  parse_params fuel count prev r = Ok (ps, r') -> (off r + length ps <= off r')%nat.
Proof.
  induction fuel as [|fuel IH]; intros count prev r ps r' H; cbn [parse_params] in H;
    (destruct (count =? 0); [minv H; simpl; lia|]); [done|].
  mpeel.
  match goal with H : r_Varint _ = _ |- _ => apply r_Varint_forward in H as [_ H1] end.
  match goal with H : parseParamValue _ _ = _ |- _ =>
    apply forward_parseParamValue in H as [_ H2] end.
  match goal with H : parse_params _ _ _ _ = _ |- _ => apply IH in H end. simpl. lia.
Qed.

Lemma p_parse_wf r ps r' : r_wf r -> p_parse r = Ok (ps, r') ->
  Forall wf_param ps /\ p_sort ps = ps /\ go_len ps /\ r_wf r'.
Proof.
  intros Hw H. pose proof H as H'. apply p_parse_snd in H as (? & ? & _ & [Hg Hl]); [|done].
  split_and!; [done|done| |done]. unfold p_parse in H'. mpeel.
  match goal with H : r_Varint _ = _ |- _ => apply r_Varint_forward in H as [_ Ho] end. apply parse_params_count in H'.
  unfold go_len, len in *. lia.
Qed.

(** ** Duplicates and scopes *)

(** The types that may not repeat. *)
Definition single (t : Z) : bool :=
  negb (IsRangeFilterParam t || (t =? ParamAuthorizationToken)).

Lemma first_duplicate_spec ps : forall seen,
  match first_duplicate seen ps with
  | None => NoDup (filter single (p_Type <$> ps)) /\
            forall t, single t = true -> t ∈ p_Type <$> ps -> t ∉ seen
  | Some t => single t = true /\ exists pre p post, ps = pre ++ p :: post /\ p_Type p = t /\
            (t ∈ seen \/ t ∈ p_Type <$> pre)
  end.
Proof.
  induction ps as [|p ps IH]; intros seen; simpl.
  { split; [constructor|]. intros t _ Ht. by apply elem_of_nil in Ht. }
  specialize (IH (p_Type p :: seen)). fold (single (p_Type p)).
  destruct (IsRangeFilterParam (p_Type p) || (p_Type p =? ParamAuthorizationToken)) eqn:Es.
  - assert (Hs : single (p_Type p) = false) by (unfold single; by rewrite Es).
    destruct (first_duplicate _ ps) as [t|].
    + destruct IH as (Ht & pre & q & post & -> & Hq & Hin). split; [done|].
      exists (p :: pre), q, post. split_and!; [done|done|].
      rewrite elem_of_cons in Hin. rewrite fmap_cons, elem_of_cons. tauto.
    + destruct IH as [Hn Hd]. rewrite filter_cons, decide_False by (rewrite Hs; auto). split; [done|].
      intros t Ht Hin Hc. apply elem_of_cons in Hin as [->|Hin]; [congruence|].
      apply (Hd t Ht Hin). by apply elem_of_cons; right.
  - assert (Hs : single (p_Type p) = true) by (unfold single; by rewrite Es).
    destruct (bool_decide_reflect (p_Type p ∈ seen)) as [Hin|Hnin].
    { split; [done|]. exists [], p, ps. split_and!; [done|done|by left]. }
    destruct (first_duplicate _ ps) as [t|].
    + destruct IH as (Ht & pre & q & post & -> & Hq & Hin). split; [done|].
      exists (p :: pre), q, post. split_and!; [done|done|].
      rewrite elem_of_cons in Hin. rewrite fmap_cons, elem_of_cons. tauto.
    + destruct IH as [Hn Hd]. rewrite filter_cons, decide_True by (rewrite Hs; done). split.
      * constructor; [|done]. intros Hc. apply list_elem_of_filter in Hc as [_ Hc].
        apply (Hd _ Hs Hc). by apply elem_of_cons; left.
      * intros t Ht Hin Hc. apply elem_of_cons in Hin as [->|Hin]; [done|].
        apply (Hd t Ht Hin). by apply elem_of_cons; right.
Qed.

Lemma firstDuplicate_spec ps :
  firstDuplicate ps = None <-> NoDup (filter single (p_Type <$> ps)).
Proof.
  unfold firstDuplicate. pose proof (first_duplicate_spec ps []) as H.
  destruct (first_duplicate [] ps) as [t|]; [|tauto]. split; [done|]. intros Hn. exfalso.
  destruct H as (Ht & pre & p & post & -> & Hp & [Hin|Hin]); [by apply elem_of_nil in Hin|].
  rewrite fmap_app, filter_app in Hn. apply NoDup_app in Hn as (_ & Hd & _).
  apply (Hd t); apply list_elem_of_filter.
  - split; [by rewrite Ht|done].
  - split; [by rewrite Ht|]. rewrite fmap_cons, Hp. by apply elem_of_cons; left.
Qed.

Lemma check_allowed_spec ps scope : check_allowed ps scope = Ok tt <->
  Forall (fun p => Z.land (allowed_scopes (p_Type p)) scope <> 0) ps.
Proof.
  induction ps as [|p ps IH]; cbn [check_allowed]; [by split; [constructor|]|].
  rewrite Forall_cons, <- IH. generalize (Z.land (allowed_scopes (p_Type p)) scope) as z.
  intros z. destruct (Z.eqb_spec z 0); by intuition.
Qed.

Lemma first_disallowed_spec inner : first_disallowed inner = false <->
  Forall (fun p => p_Type p ∈ fillParamsAllowed) inner.
Proof.
  induction inner as [|p inner IH]; cbn [first_disallowed]; [by split; [constructor|]|].
  rewrite Forall_cons, <- IH. case_bool_decide; by intuition.
Qed.

Lemma p_Find_spec ps t :
  match p_Find ps t with
  | Some p => p_Type p = t /\ p ∈ ps
  | None => Forall (fun p => p_Type p <> t) ps
  end.
Proof.
  induction ps as [|p ps IH]; simpl; [constructor|].
  destruct (Z.eqb_spec (p_Type p) t); [set_solver|].
  destruct (p_Find ps t); [set_solver|by constructor].
Qed.

(** When no single type repeats, the first occurrence is the only one. *)
Lemma p_Find_all (P : Param -> Prop) ps t : single t = true ->
  NoDup (filter single (p_Type <$> ps)) ->
  (forall p, p ∈ ps -> p_Type p = t -> P p) <->
  match p_Find ps t with Some p => P p | None => True end.
Proof.
  intros Ht. induction ps as [|a ps IH]; cbn [p_Find]; intros Hn.
  { split; [done|]. intros _ p Hp. by apply elem_of_nil in Hp. }
  rewrite fmap_cons, filter_cons in Hn. destruct (Z.eqb_spec (p_Type a) t) as [E|E].
  - rewrite decide_True in Hn by (rewrite E, Ht; done). apply NoDup_cons in Hn as [Hnin _].
    split; [intros H; apply H; [by apply elem_of_cons; left|done]|].
    intros Ha p Hp Et. apply elem_of_cons in Hp as [->|Hp]; [done|]. exfalso. apply Hnin.
    apply list_elem_of_filter. rewrite E, Ht. split; [done|].
    apply list_elem_of_fmap. eauto.
  - assert (Hn' : NoDup (filter single (p_Type <$> ps))).
    { destruct (decide _); [by apply NoDup_cons in Hn as [_ ?]|done]. }
    rewrite <- IH by done. split; intros H p Hp; [apply H; by apply elem_of_cons; right|].
    apply elem_of_cons in Hp as [->|Hp]; [done|]. by apply H.
Qed.

(** The values a receiver must reject, parameter by parameter. *)
Definition value_ok (p : Param) : Prop :=
  (p_Type p = ParamGroupOrder -> p_Byte p = GroupOrderAscending \/ p_Byte p = GroupOrderDescending) /\
  (p_Type p = ParamForward -> p_Byte p <= 1) /\
  (p_Type p = ParamIncludeProperties -> p_Byte p = 0 \/ p_Byte p = 1) /\
  (p_Type p = ParamLocationFilter -> exists f, ParseLocationFilter (p_Bytes p) = Ok f).

(** A FILL_PARAMETERS value: one parameter block and nothing after it, of the
    allowed types, without repetition, every value in range. *)
Definition fill_ok (b : bytes) : Prop :=
  exists inner r, p_parse (NewReader b) = Ok (inner, r) /\ Empty r = true /\
    Forall (fun p => p_Type p ∈ fillParamsAllowed) inner /\
    NoDup (filter single (p_Type <$> inner)) /\ Forall value_ok inner.

Definition scope_ok (ps : Params) (scope : Z) : Prop :=
  Forall (fun p => Z.land (allowed_scopes (p_Type p)) scope <> 0) ps /\
  NoDup (filter single (p_Type <$> ps)) /\ Forall value_ok ps /\
  (forall p, p ∈ ps -> p_Type p = ParamFillParameters -> fill_ok (p_Bytes p)).

Lemma IncludeProperties_ok ps : (exists b, IncludePropertiesFromParam ps = Ok b) <->
  match p_Find ps ParamIncludeProperties with
  | Some p => p_Byte p = 0 \/ p_Byte p = 1 | None => True end.
Proof.
  unfold IncludePropertiesFromParam. destruct (p_Find _ _) as [p|]; [|by split; eauto].
  destruct (Z.eqb_spec (p_Byte p) 0), (Z.eqb_spec (p_Byte p) 1);
    (split; [by intros [b Hb]; auto|]); intros ?; eauto; lia.
Qed.

Lemma LocationFilter_ok ps : (exists f, LocationFilterFromParam ps = Ok f) <->
  match p_Find ps ParamLocationFilter with
  | Some p => exists f, ParseLocationFilter (p_Bytes p) = Ok f | None => True end.
Proof.
  unfold LocationFilterFromParam. destruct (p_Find _ _) as [p|]; [|by split; eauto].
  destruct (ParseLocationFilter (p_Bytes p)) as [f|e]; simpl;
    split; intros [f' Hf]; simplify_eq; eauto.
Qed.

Lemma checkValues_find ps : checkValues ps = Ok tt <->
  match p_Find ps ParamGroupOrder with
  | Some p => p_Byte p = GroupOrderAscending \/ p_Byte p = GroupOrderDescending | None => True end /\
  match p_Find ps ParamForward with Some p => p_Byte p <= 1 | None => True end /\
  (exists b, IncludePropertiesFromParam ps = Ok b) /\
  (exists f, LocationFilterFromParam ps = Ok f).
Proof.
  unfold checkValues, mbind, result_bind.
  set (P1 := match p_Find ps ParamGroupOrder with Some p => _ \/ _ | None => True end).
  set (c1 := match p_Find ps ParamGroupOrder with Some p => _ | None => _ end).
  assert (H1 : c1 = Ok tt /\ P1 \/ (exists e, c1 = Err e) /\ ~ P1).
  { subst c1 P1. destruct (p_Find ps ParamGroupOrder) as [p|]; [|auto].
    destruct (Z.eqb_spec (p_Byte p) GroupOrderAscending),
      (Z.eqb_spec (p_Byte p) GroupOrderDescending); simpl; auto.
    right. split; [eauto|lia]. }
  set (P2 := match p_Find ps ParamForward with Some p => _ <= _ | None => True end).
  set (c2 := match p_Find ps ParamForward with Some p => _ | None => _ end).
  assert (H2 : c2 = Ok tt /\ P2 \/ (exists e, c2 = Err e) /\ ~ P2).
  { subst c2 P2. destruct (p_Find ps ParamForward) as [p|]; [|auto].
    rewrite Z.gtb_ltb. destruct (Z.ltb_spec 1 (p_Byte p)); [|auto].
    right. split; [eauto|lia]. }
  clearbody c1 P1 c2 P2.
  destruct H1 as [[-> H1]|[[e ->] H1]]; [|by split; [|tauto]].
  destruct H2 as [[-> H2]|[[e ->] H2]]; [|by split; [|tauto]].
  destruct (IncludePropertiesFromParam ps) as [b|e];
    [|split; [done|by intros (_ & _ & [? ?] & _)]].
  destruct (LocationFilterFromParam ps) as [f|e].
  - split; [|done]. intros _. split_and!; eauto.
  - split; [by destruct (_ || _)|by intros (_ & _ & _ & [? ?])].
Qed.

Lemma checkValues_spec ps : NoDup (filter single (p_Type <$> ps)) ->
  checkValues ps = Ok tt <-> Forall value_ok ps.
Proof.
  intros Hn. rewrite checkValues_find, IncludeProperties_ok, LocationFilter_ok, Forall_forall.
  rewrite <- !(p_Find_all _ ps) by done. split.
  - intros (H1 & H2 & H3 & H4) p Hp. split_and!; [by apply H1|by apply H2|by apply H3|by apply H4].
  - intros H. split_and!; intros p Hp Ht; by apply (H p Hp).
Qed.

Lemma FillParameters_spec ps inner ok : FillParametersFromParam ps = Ok (inner, ok) <->
  match p_Find ps ParamFillParameters with
  | None => inner = [] /\ ok = false
  | Some p => ok = true /\ exists r, p_parse (NewReader (p_Bytes p)) = Ok (inner, r) /\
      Empty r = true /\ Forall (fun p => p_Type p ∈ fillParamsAllowed) inner /\
      NoDup (filter single (p_Type <$> inner))
  end.
Proof.
  unfold FillParametersFromParam. destruct (p_Find _ _) as [p|].
  2: { split; [by intros [= <- <-]|by intros [-> ->]]. }
  unfold map_err, mbind, result_bind.
  destruct (p_parse (NewReader (p_Bytes p))) as [[ps' r]|e]; [|split; [done|by intros (_ & ? & ? & _)]].
  destruct (Empty r) eqn:Er; cbn [negb].
  2: { split; [done|]. intros (_ & r' & ? & ? & _). simplify_eq. congruence. }
  destruct (first_disallowed ps') eqn:Ed.
  { split; [done|]. intros (_ & r' & ? & ? & Ha & _). simplify_eq.
    apply first_disallowed_spec in Ha. congruence. }
  apply first_disallowed_spec in Ed. destruct (firstDuplicate ps') eqn:Ef.
  { split; [done|]. intros (_ & r' & ? & ? & _ & Hn). simplify_eq.
    apply firstDuplicate_spec in Hn. congruence. }
  apply firstDuplicate_spec in Ef. split.
  - intros [= <- <-]. eauto 10.
  - intros (-> & r' & ? & _). by simplify_eq.
Qed.

(** *** Errors of the checks on parsed parameters *)

Lemma ParseLocationFilter_wf_err f e : wf_lf f -> ParseLocationFilter (lf_Bytes f) = Err e ->
  e = Wrapf "" ErrEndGroupOverflow.
Proof.
  intros Hf. rewrite ParseLocationFilter_decodes by done. unfold lf_Validate.
  destruct Hf as (-> & _). simpl. case_match; simpl; [|done]. by intros [= <-].
Qed.

Lemma LocationFilter_wf_err ps e : Forall wf_param ps -> LocationFilterFromParam ps = Err e ->
  e = Wrapf "" ErrEndGroupOverflow.
Proof.
  intros Hwf. unfold LocationFilterFromParam. pose proof (p_Find_spec ps ParamLocationFilter) as Hs.
  destruct (p_Find ps ParamLocationFilter) as [p|]; [|done]. destruct Hs as [Ht Hin].
  rewrite Forall_forall in Hwf. destruct (Hwf p Hin) as (_ & Hk & Hv). rewrite Ht in Hk.
  change (kindOf ParamLocationFilter) with (Ok KindLocationFilter) in Hk. injection Hk as Hk.
  rewrite <- Hk in Hv. destruct Hv as (_ & f & Hf & Hb).
  destruct (ParseLocationFilter (p_Bytes p)) eqn:E; simpl; [done|]. intros [= <-].
  rewrite Hb in E. by eapply ParseLocationFilter_wf_err.
Qed.

Lemma checkValues_plain ps e : Forall wf_param ps -> checkValues ps = Err e -> plain e = true.
Proof.
  intros Hwf. unfold checkValues, mbind, result_bind, IncludePropertiesFromParam.
  destruct (LocationFilterFromParam ps) as [f|e'] eqn:E.
  - repeat case_match; intros; simplify_eq; done.
  - apply LocationFilter_wf_err in E as ->; [|done]. simpl.
    repeat case_match; intros; simplify_eq; done.
Qed.

Lemma check_allowed_plain ps scope e : check_allowed ps scope = Err e -> plain e = true.
Proof.
  induction ps as [|p ps IH]; cbn [check_allowed]; [done|].
  destruct (Z.land _ _ =? 0); [by intros [= <-]|done].
Qed.

Lemma FillParameters_plain ps e : FillParametersFromParam ps = Err e -> plain e = true.
Proof.
  unfold FillParametersFromParam. destruct (p_Find _ _) as [p|]; [|done].
  unfold map_err, mbind, result_bind.
  destruct (p_parse _) as [[ps' r]|e'] eqn:E;
    [|intros [= <-]; eapply plain_Wrapf, plain_p_parse, E].
  destruct (negb (Empty r)); [by intros [= <-]|]. destruct (first_disallowed ps');
    [by intros [= <-]|]. destruct (firstDuplicate ps'); [by intros [= <-]|done].
Qed.

Lemma FillParameters_wf ps inner ok : (forall p, p ∈ ps -> go_len (p_Bytes p)) ->
  FillParametersFromParam ps = Ok (inner, ok) -> Forall wf_param inner.
Proof.
  intros Hg H. apply FillParameters_spec in H.
  pose proof (p_Find_spec ps ParamFillParameters) as Hs.
  destruct (p_Find ps ParamFillParameters) as [p|]; [|by destruct H as [-> _]].
  destruct H as (_ & r & Hp & _). apply p_parse_snd in Hp as (Hwf & _); [done|].
  split; simpl; [apply Hg, Hs|lia].
Qed.

(** ** Theorems *)

(** A parameter block survives encoding.  Parameters of registered types are
    always encodable (the bare-literal panic cannot happen), and parsing the
    block at any place of a buffer returns the same parameters in type order,
    repeated types in the caller's order, and stops exactly at its end. *)
Theorem params_roundtrip w ps r r' : Forall wf_param ps -> go_len ps ->
  exists e out, p_append w ps = Ok (w ++ e) /\
    (r_at r e r' -> p_parse r = Ok (out, r')) /\
    out ≡ₚ ps /\ StronglySorted (fun p q => p_Type p <= p_Type q) out /\
    forall t, p_FindAll out t = p_FindAll ps t.
Proof.
  intros Hwf Hg. exists (e_Params ps), (p_sort ps). split_and!.
  - by apply p_append_wf.
  - by apply decodes_params.
  - apply sort_stable_perm.
  - apply sort_by_key_le.
  - intros t. apply sort_stable_filter; eauto using by_key_trans, by_key_total.
    intros p q <- ?. unfold by_key. apply Z.ltb_ge. lia.
Qed.

Lemma params_roundtrip_witness :
  let ps := [GroupOrderParam 2; ForwardParam true; NextObjectFilter; LargestObjectParam 7 9] in
  Forall wf_param ps /\ exists e out, p_append [] ps = Ok ([] ++ e) /\
    (r_at (NewReader e) e (MkReader e (length e)) ->
     p_parse (NewReader e) = Ok (out, MkReader e (length e))) /\ out ≡ₚ ps.
Proof.
  intros ps.
  assert (Hwf : Forall wf_param ps).
  { apply Forall_cons; split; [apply wf_ByteParam; [reflexivity|by_decide|by_decide]|].
    apply Forall_cons; split; [apply wf_ByteParam; [reflexivity|by_decide|by_decide]|].
    apply Forall_cons; split; [apply wf_LocationFilterParam; by_decide|].
    apply Forall_cons; split; [|constructor].
    apply wf_LocationParam; [reflexivity|by_decide|by_decide|by_decide]. }
  split; [exact Hwf|].
  destruct (p_append [] ps) as [e|] eqn:E; [|discriminate].
  destruct (params_roundtrip [] ps (NewReader e) (MkReader e (length e)) Hwf ltac:(reflexivity))
    as (e' & out & Ha & Hp & Hperm & _).
  rewrite E in Ha. injection Ha as ->. exists e', out. split_and!; [done|done|done].
Defined.

(** Parsing a parameter block is total and normalising.  On any buffer, with
    whatever parameter count the peer announces, the loop ends by itself: with
    an error of the code's own, or with well-formed parameters of registered
    types, in type order, that encode and parse back to themselves. *)
Theorem params_parse_normal b : go_len b ->
  match p_parse (NewReader b) with
  | Ok (ps, r') => Forall wf_param ps /\
      StronglySorted (fun p q => p_Type p <= p_Type q) ps /\
      exists e, p_append [] ps = Ok e /\
        p_parse (NewReader e) = Ok (ps, MkReader e (length e))
  | Err e => plain e = true
  end.
Proof.
  intros Hb. destruct (p_parse (NewReader b)) as [[ps r']|e] eqn:E; [|by eapply plain_p_parse].
  apply p_parse_wf in E as (Hwf & Hs & Hg & _); [|split; simpl; [done|lia]].
  split_and!; [done|rewrite <- Hs; apply sort_by_key_le|]. exists (e_Params ps). split; [by rewrite (p_append_wf [])|].
  rewrite <- Hs at 2. by apply decodes_NewReader, decodes_end_of, decodes_params.
Qed.

Lemma params_parse_normal_witness :
  let b := [Byte.x02; Byte.x10; Byte.x01; Byte.x12; Byte.x02] in
  go_len b /\ p_parse (NewReader b) = Ok ([ForwardParam true; GroupOrderParam 2], MkReader b 5) /\
  Forall wf_param [ForwardParam true; GroupOrderParam 2].
Proof.
  intros b. assert (Hb : go_len b) by reflexivity. split; [exact Hb|].
  assert (E : p_parse (NewReader b) = Ok ([ForwardParam true; GroupOrderParam 2], MkReader b 5))
    by (vm_compute; reflexivity).
  split; [exact E|]. pose proof (params_parse_normal b Hb) as H. rewrite E in H. apply H.
Defined.

(** [CheckScope] accepts a parameter list exactly when the rules of the draft
    hold: every parameter is allowed in the message form (SUBSCRIBE parameters
    in SUBSCRIBE_TRACKS too), no type repeats that may not, every GROUP_ORDER,
    FORWARD, INCLUDE_PROPERTIES and LOCATION_FILTER value is in range, and a
    FILL_PARAMETERS value is one clean block obeying the same rules. *)
Theorem check_scope_exact ps scope : CheckScope ps scope = Ok tt <-> scope_ok ps scope.
Proof.
  unfold CheckScope, scope_ok, mbind, result_bind. rewrite <- check_allowed_spec.
  destruct (check_allowed ps scope) as [[]|e]; [|by split; [|intros [? _]]].
  rewrite <- firstDuplicate_spec. destruct (firstDuplicate ps) as [t|] eqn:Ed;
    [by split; [|intros (_ & ? & _)]|].
  apply firstDuplicate_spec in Ed. rewrite <- (checkValues_spec ps) by done.
  rewrite (p_Find_all (fun p => fill_ok (p_Bytes p)) ps ParamFillParameters) by done.
  destruct (FillParametersFromParam ps) as [[inner ok]|e] eqn:Ef.
  - apply FillParameters_spec in Ef.
    assert (Hi : (map_err (Wrapf "FILL_PARAMETERS") (checkValues inner) = Ok tt) <->
      match p_Find ps ParamFillParameters with Some p => fill_ok (p_Bytes p) | None => True end).
    { destruct (p_Find ps ParamFillParameters) as [p|].
      - destruct Ef as (_ & r & Hp & He & Ha & Hn).
        transitivity (checkValues inner = Ok tt).
        { unfold map_err. by destruct (checkValues inner) as [[]|]. }
        rewrite (checkValues_spec inner) by done. unfold fill_ok. split; [eauto 10|].
        intros (i & r' & Hp' & _ & _ & _ & Hv). rewrite Hp in Hp'. injection Hp' as <- _. done.
      - destruct Ef as [-> ->]. split; [done|]. reflexivity. }
    destruct (map_err _ (checkValues inner)) as [[]|]; [tauto|]. split; [done|].
    intros (_ & _ & _ & Hf). by apply Hi in Hf.
  - split; [done|]. intros (_ & _ & _ & Hf). exfalso.
    destruct (p_Find ps ParamFillParameters) as [p|] eqn:Ep.
    + destruct Hf as (inner & r & Hp & He & Ha & Hn & _).
      assert (Hc : FillParametersFromParam ps = Ok (inner, true)).
      { apply FillParameters_spec. rewrite Ep. eauto 10. }
      congruence.
    + assert (Hc : FillParametersFromParam ps = Ok ([], false)).
      { apply FillParameters_spec. by rewrite Ep. }
      congruence.
Qed.

(** On parameters that came out of a parse, [CheckScope] never reports
    [ErrValueFormatting] (a value that does not decode has failed the parse
    already), and its FILL_PARAMETERS loop ends by itself. *)
Theorem check_scope_parsed ps scope e : Forall wf_param ps ->
  (forall p, p ∈ ps -> go_len (p_Bytes p)) ->
  CheckScope ps scope = Err e -> plain e = true.
Proof.
  intros Hwf Hg. unfold CheckScope, mbind, result_bind.
  destruct (check_allowed ps scope) eqn:E1; [|intros [= <-]; by eapply check_allowed_plain].
  destruct (firstDuplicate ps); [by intros [= <-]|].
  destruct (FillParametersFromParam ps) as [[inner ok]|e'] eqn:E2;
    [|intros [= <-]; by eapply FillParameters_plain].
  apply FillParameters_wf in E2; [|done].
  destruct (checkValues inner) eqn:E3; simpl.
  - by apply checkValues_plain.
  - intros [= <-]. by eapply plain_Wrapf, checkValues_plain.
Qed.

Lemma check_scope_parsed_witness :
  CheckScope [GroupOrderParam 3] ScopeSubscribe =
    Err (Errorf "moqt/message: GROUP_ORDER value outside {1,2}") /\
  plain (Errorf "moqt/message: GROUP_ORDER value outside {1,2}") = true.
Proof.
  assert (E : CheckScope [GroupOrderParam 3] ScopeSubscribe =
    Err (Errorf "moqt/message: GROUP_ORDER value outside {1,2}")) by (vm_compute; reflexivity).
  split; [exact E|].
  refine (check_scope_parsed [GroupOrderParam 3] ScopeSubscribe _ _ _ E).
  - apply Forall_singleton, wf_ByteParam; [reflexivity|by_decide|by_decide].
  - intros p Hp. apply list_elem_of_singleton in Hp. subst p. reflexivity.
Defined.
