(* ===== verification/Properties.v ===== *)
(** * Properties: Track and Object Properties, delivery timeouts

    [message/properties.go], [message/object_properties.go] and
    [message/timeout.go]: the property blocks carried by messages and objects,
    the nested Immutable Properties, the per-object malformed-track check, and
    the delivery timeouts derived from properties and parameters. *)

From S2P Require Import Prelude Varint Wire KV Filter Params.

Definition PropertySubgroupDeliveryTimeout : Z := 6.
Definition PropertyObjectDeliveryTimeout : Z := 2.
Definition PropertyMaxCacheDuration : Z := 4.
Definition PropertyDefaultPublisherPriority : Z := 14.
Definition PropertyDefaultPublisherGroupOrder : Z := 34.
Definition PropertyDynamicGroups : Z := 48.
Definition PropertyImmutableProperties : Z := 11.
Definition PropertyPriorGroupIDGap : Z := 60.
Definition PropertyPriorObjectIDGap : Z := 62.
Definition MandatoryTrackPropertyMin : Z := 16384.
Definition MandatoryTrackPropertyMax : Z := 32767.

Definition DefaultPublisherPriority : Z := 128.

Definition IsMandatoryTrackProperty (t : Z) : bool :=
  (MandatoryTrackPropertyMin <=? t) && (t <=? MandatoryTrackPropertyMax).

Definition ParseTrackProperties (raw : bytes) : result (list KVPair) :=
  if len raw =? 0 then Ok []
  else '(pairs, _) ← map_err (Wrapf "moqt/message: track properties")
                       (r_KVPairsRemaining (NewReader raw));
       Ok pairs.

Definition AppendTrackProperties (pairs : list KVPair) : bytes := w_KVPairs [] pairs.

Fixpoint findDefaultPublisherPriority (pairs : list KVPair) : option Z :=
  match pairs with
  | [] => None
  | kv :: pairs' =>
      if (kv_Type kv =? PropertyDefaultPublisherPriority) && (kv_IntVal kv <=? 255)
      then Some (kv_IntVal kv) else findDefaultPublisherPriority pairs'
  end.

(** The loop over the Immutable Properties of a block without a mutable value. *)
Fixpoint immutable_priority (pairs : list KVPair) : Z :=
  match pairs with
  | [] => DefaultPublisherPriority
  | kv :: pairs' =>
      if negb (kv_Type kv =? PropertyImmutableProperties) then immutable_priority pairs'
      else match ParseTrackProperties (kv_ByteVal kv) with
           | Err _ => DefaultPublisherPriority
           | Ok nested =>
               match findDefaultPublisherPriority nested with
               | Some p => p
               | None => immutable_priority pairs'
               end
           end
  end.

Definition TrackDefaultPublisherPriority (trackProperties : bytes) : Z :=
  match ParseTrackProperties trackProperties with
  | Err _ => DefaultPublisherPriority
  | Ok pairs =>
      match findDefaultPublisherPriority pairs with
      | Some p => p
      | None => immutable_priority pairs
      end
  end.

(** The loop of [ExpandImmutable]: [out] grows, [pairs] is what is left to scan. *)
Fixpoint expand_loop (out pairs : list KVPair) : result (list KVPair) :=
  match pairs with
  | [] => Ok out
  | kv :: pairs' =>
      if negb (kv_Type kv =? PropertyImmutableProperties) then expand_loop out pairs'
      else nested ← map_err (Wrapf "moqt/message: immutable properties")
                      (ParseTrackProperties (kv_ByteVal kv));
           expand_loop (out ++ nested) pairs'
  end.

Definition ExpandImmutable (pairs : list KVPair) : result (list KVPair) := expand_loop pairs pairs.

Definition parseSearchable (raw : bytes) : result (list KVPair) :=
  pairs ← ParseTrackProperties raw; ExpandImmutable pairs.

Fixpoint propertyValue (pairs : list KVPair) (t : Z) : option Z :=
  match pairs with
  | [] => None
  | kv :: pairs' => if kv_Type kv =? t then Some (kv_IntVal kv) else propertyValue pairs' t
  end.

(** [time.Duration(ms) * time.Millisecond] in 64-bit arithmetic. *)
Definition MillisecondTimeout (ms : Z) : Z := i64 (int64_of_u64 ms * 1000000).

Definition TrackMaxCacheDuration (trackProperties : bytes) : option Z :=
  match parseSearchable trackProperties with
  | Err _ => None
  | Ok pairs => MillisecondTimeout <$> propertyValue pairs PropertyMaxCacheDuration
  end.

Fixpoint CheckTrackPropertyValues (pairs : list KVPair) : result unit :=
  match pairs with
  | [] => Ok tt
  | kv :: pairs' =>
      if (kv_Type kv =? PropertyDefaultPublisherGroupOrder) &&
         (negb (kv_IntVal kv =? GroupOrderAscending) && negb (kv_IntVal kv =? GroupOrderDescending))
      then Err (Errorf "moqt/message: DEFAULT_PUBLISHER_GROUP_ORDER value outside {1,2}")
      else if (kv_Type kv =? PropertyDynamicGroups) && (kv_IntVal kv >? 1)
      then Err (Errorf "moqt/message: DYNAMIC_GROUPS value above 1")
      else CheckTrackPropertyValues pairs'
  end.

Fixpoint FirstUnknownMandatoryTrackProperty (pairs : list KVPair) (knownTypes : gset Z) : option Z :=
  match pairs with
  | [] => None
  | kv :: pairs' =>
      if negb (IsMandatoryTrackProperty (kv_Type kv))
      then FirstUnknownMandatoryTrackProperty pairs' knownTypes
      else if bool_decide (kv_Type kv ∈ knownTypes)
      then FirstUnknownMandatoryTrackProperty pairs' knownTypes
      else Some (kv_Type kv)
  end.

(** ** The per-object check *)
Record objectPropertiesCheck : Type := MkCheck {
  immutables : Z; groupGaps : Z; objectGaps : Z; groupGap : Z; objectGap : Z
}.
Definition check0 : objectPropertiesCheck := MkCheck 0 0 0 0 0.

Definition errTooManyInstances : error := Errorf "more than one instance".

(** [walk]: the loop over a block, and the recursive call into the contents of
    Immutable Properties.  The fuel bounds both; the length of the block is
    enough, since every turn reads at least one byte and the contents are
    shorter than what is left. *)
Fixpoint walk_loop (fuel : nat) (prev : Z) (nested : bool) (r : Reader)
    (c : objectPropertiesCheck) : result objectPropertiesCheck :=
  if Empty r then Ok c
  else match fuel with
  | O => Err OutOfFuel
  | S fuel' =>
      '((kv, next), r) ← map_err (Wrapf "moqt/message: object properties") (r_KVPairView prev r);
      c ← (if kv_Type kv =? PropertyImmutableProperties then
             if nested then Err (Errorf "moqt/message: Immutable Properties inside Immutable Properties")
             else
               let c := MkCheck (immutables c + 1) (groupGaps c) (objectGaps c) (groupGap c) (objectGap c) in
               if immutables c >? 1 then Err (Wrapf "moqt/message: Immutable Properties" errTooManyInstances)
               else walk_loop fuel' 0 true (NewReader (kv_ByteVal kv)) c
           else if kv_Type kv =? PropertyPriorGroupIDGap then
             let c := MkCheck (immutables c) (groupGaps c + 1) (objectGaps c) (groupGap c) (objectGap c) in
             if groupGaps c >? 1 then Err (Wrapf "moqt/message: Prior Group ID Gap" errTooManyInstances)
             else Ok (MkCheck (immutables c) (groupGaps c) (objectGaps c) (kv_IntVal kv) (objectGap c))
           else if kv_Type kv =? PropertyPriorObjectIDGap then
             let c := MkCheck (immutables c) (groupGaps c) (objectGaps c + 1) (groupGap c) (objectGap c) in
             if objectGaps c >? 1 then Err (Wrapf "moqt/message: Prior Object ID Gap" errTooManyInstances)
             else Ok (MkCheck (immutables c) (groupGaps c) (objectGaps c) (groupGap c) (kv_IntVal kv))
           else if IsMandatoryTrackProperty (kv_Type kv)
           then Err (Errorf "moqt/message: Mandatory Track Property as an Object Property")
           else Ok c);
      walk_loop fuel' next nested r c
  end.

Definition walk (raw : bytes) (nested : bool) (c : objectPropertiesCheck) :=
  walk_loop (length raw) 0 nested (NewReader raw) c.

Definition CheckObjectProperties (raw : bytes) (groupID objectID : Z) : result unit :=
  c ← walk raw false check0;
  if groupGap c >? groupID then Err (Errorf "moqt/message: Prior Group ID Gap exceeds Group ID")
  else if objectGap c >? objectID then Err (Errorf "moqt/message: Prior Object ID Gap exceeds Object ID")
  else Ok tt.

Record PriorGaps : Type := MkGaps {
  pg_Group : Z; pg_Object : Z; HasGroup : bool; HasObject : bool
}.

Definition ObjectPriorGaps (raw : bytes) : PriorGaps :=
  match walk raw false check0 with
  | Err _ => MkGaps 0 0 false false
  | Ok c => MkGaps (groupGap c) (objectGap c) (groupGaps c =? 1) (objectGaps c =? 1)
  end.

Definition PriorObjectIDGap (raw : bytes) : Z * bool :=
  let g := ObjectPriorGaps raw in (pg_Object g, HasObject g).

Fixpoint immutable_loop (fuel : nat) (prev : Z) (r : Reader) : option bytes :=
  if Empty r then None
  else match fuel with
  | O => None
  | S fuel' =>
      match r_KVPairView prev r with
      | Err _ => None
      | Ok ((kv, next), r) =>
          if kv_Type kv =? PropertyImmutableProperties then Some (kv_ByteVal kv)
          else immutable_loop fuel' next r
      end
  end.

Definition ImmutableProperties (raw : bytes) : option bytes :=
  immutable_loop (length raw) 0 (NewReader raw).

(** ** Delivery timeouts *)
Record DeliveryTimeouts : Type := MkDT { dt_Object : Z; dt_Subgroup : Z }.

Definition FillTimeoutFromParamOK (ps : Params) : Z * bool :=
  match p_Find ps ParamFillTimeout with
  | None => (0, false)
  | Some p => (MillisecondTimeout (p_Varint p), true)
  end.
Definition FillTimeoutFromParam (ps : Params) : Z := (FillTimeoutFromParamOK ps).1.

Definition ObjectDeliveryTimeoutFromParam (ps : Params) : Z :=
  match p_Find ps ParamObjectDeliveryTimeout with
  | None => 0 | Some p => MillisecondTimeout (p_Varint p)
  end.
Definition SubgroupDeliveryTimeoutFromParam (ps : Params) : Z :=
  match p_Find ps ParamSubgroupDeliveryTimeout with
  | None => 0 | Some p => MillisecondTimeout (p_Varint p)
  end.
Definition DeliveryTimeoutsFromParams (ps : Params) : DeliveryTimeouts :=
  MkDT (ObjectDeliveryTimeoutFromParam ps) (SubgroupDeliveryTimeoutFromParam ps).

Definition effectiveDim (publisher subscriber : Z) : Z :=
  if publisher =? 0 then subscriber
  else if subscriber =? 0 then publisher
  else Z.min publisher subscriber.

Definition Effective (d sub : DeliveryTimeouts) : DeliveryTimeouts :=
  MkDT (effectiveDim (dt_Object d) (dt_Object sub)) (effectiveDim (dt_Subgroup d) (dt_Subgroup sub)).

Definition apply_pair (d : DeliveryTimeouts) (kv : KVPair) : DeliveryTimeouts :=
  if kv_Type kv =? PropertyObjectDeliveryTimeout
  then MkDT (MillisecondTimeout (kv_IntVal kv)) (dt_Subgroup d)
  else if kv_Type kv =? PropertySubgroupDeliveryTimeout
  then MkDT (dt_Object d) (MillisecondTimeout (kv_IntVal kv))
  else d.

(** [slices.Backward]: the last pair first. *)
Definition ApplyObjectProperties (d : DeliveryTimeouts) (rawProps : bytes) : DeliveryTimeouts :=
  if len rawProps =? 0 then d
  else match parseSearchable rawProps with
       | Err _ => d
       | Ok pairs => fold_left apply_pair (reverse pairs) d
       end.

(** ** Views and copies read the same pairs *)

Lemma r_lengthBytes_copy n r : r_wf r -> is_u64 n ->
  r_lengthBytes false n r = r_lengthBytes true n r.
Proof.
  intros [Hg Ho] Hn. unfold r_lengthBytes. destruct (Z.ltb_spec (Remaining r) n) as [|Hl]; [done|].
  assert (Hr : Remaining r < 2 ^ 63) by (unfold Remaining, go_len, len in *; lia).
  rewrite int64_small by zlia. unfold r_FixedBytes.
  destruct (Z.ltb_spec n 0); [zlia|]. destruct (Z.ltb_spec (Remaining r) n); [lia|].
  cbn [orb]. destruct (Z.eqb_spec n 0) as [->|].
  - simpl. rewrite Nat.add_0_r. destruct r; simpl in *. do 2 f_equal.
    apply drop_ge. rewrite length_take. lia.
  - do 2 f_equal. by rewrite take_drop_commute.
Qed.

Lemma r_varintBytes_view r : r_wf r -> r_varintBytes false r = r_varintBytes true r.
Proof.
  intros Hw. unfold r_varintBytes, mbind, M_bind.
  destruct (r_Varint r) as [[n r1]|] eqn:E; [|done].
  apply r_Varint_snd in E as [Hn Hw1]; [|done]. by apply r_lengthBytes_copy.
Qed.

Lemma r_kvPair_view prev r : r_wf r -> r_KVPairView prev r = r_KVPair prev r.
Proof.
  intros Hw. apply M_bind_ext; [done|]. intros d r1 E.
  apply r_Varint_snd in E as [_ Hw1]; [|done].
  apply M_bind_ext; [done|]. intros [] r2 E. minv E. cbv zeta.
  destruct (odd_type (prev + d)); [|done]. apply M_bind_ext; [by apply r_varintBytes_view|done].
Qed.

(** What a pair takes from the buffer. *)
Lemma r_varintBytes_consume copy r b r' : r_wf r -> r_varintBytes copy r = Ok (b, r') ->
  buf r' = buf r /\ (off r + length b < off r' <= length (buf r))%nat.
Proof.
  intros Hw H. destruct copy; [|rewrite r_varintBytes_view in H by done];
    unfold r_varintBytes in H; minv H; pose proof H0 as H0';
    apply r_Varint_forward in H0' as [Hb Ho]; apply r_Varint_snd in H0 as [Hn [Hg Hl]]; try done;
    unfold r_lengthBytes in H;
    (destruct (Z.ltb_spec (Remaining s) a); [done|]);
    (assert (Hr : Remaining s < 2 ^ 63) by (unfold Remaining, go_len, len in *; lia));
    rewrite int64_small in H by zlia; unfold r_FixedBytes in H; repeat case_match; simplify_eq; simpl;
    rewrite ?length_take, ?length_drop, ?Hb; unfold Remaining, len in *; (split; [done|]);
    rewrite Hb in *; lia.
Qed.

Lemma r_kvPair_consume prev copy r p next r' : r_wf r -> r_kvPair prev copy r = Ok ((p, next), r') ->
  buf r' = buf r /\ (off r + length (kv_ByteVal p) < off r' <= length (buf r))%nat.
Proof.
  intros Hw H. unfold r_kvPair in H. minv H. pose proof H0 as Hf.
  apply r_Varint_forward in Hf as [Hb Ho]. apply r_Varint_snd in H0 as [Hn Hw1]; [|done].
  minv H. minv H0. cbv zeta in H. destruct (odd_type (prev + a)).
  - minv H. apply r_varintBytes_consume in H0 as [Hb1 Ho1]; [|done]. mpeel. simpl.
    split; [congruence|]. rewrite <- Hb. lia.
  - minv H. pose proof H0 as Hf1. apply r_Varint_forward in Hf1 as [Hb1 Ho1].
    apply r_Varint_snd in H0 as [_ [_ Hl]]; [|done]. minv H. simpl. split; [congruence|].
    rewrite <- Hb, <- Hb1. lia.
Qed.

(** ** The walk over parsed pairs *)

(** One pair other than Immutable Properties. *)
Definition flat_step (kv : KVPair) (c : objectPropertiesCheck) : result objectPropertiesCheck :=
  if kv_Type kv =? PropertyPriorGroupIDGap then
    if groupGaps c + 1 >? 1 then Err (Wrapf "moqt/message: Prior Group ID Gap" errTooManyInstances)
    else Ok (MkCheck (immutables c) (groupGaps c + 1) (objectGaps c) (kv_IntVal kv) (objectGap c))
  else if kv_Type kv =? PropertyPriorObjectIDGap then
    if objectGaps c + 1 >? 1 then Err (Wrapf "moqt/message: Prior Object ID Gap" errTooManyInstances)
    else Ok (MkCheck (immutables c) (groupGaps c) (objectGaps c + 1) (groupGap c) (kv_IntVal kv))
  else if IsMandatoryTrackProperty (kv_Type kv)
  then Err (Errorf "moqt/message: Mandatory Track Property as an Object Property")
  else Ok c.

Fixpoint walk_nested (l : list KVPair) (c : objectPropertiesCheck) : result objectPropertiesCheck :=
  match l with
  | [] => Ok c
  | kv :: l' =>
      c ← (if kv_Type kv =? PropertyImmutableProperties
           then Err (Errorf "moqt/message: Immutable Properties inside Immutable Properties")
           else flat_step kv c);
      walk_nested l' c
  end.

Definition block_pairs (raw : bytes) : result (list KVPair) :=
  '(l, _) ← kv_loop (length raw) 0 (NewReader raw); Ok l.

Definition top_step (kv : KVPair) (c : objectPropertiesCheck) : result objectPropertiesCheck :=
  if kv_Type kv =? PropertyImmutableProperties then
    if immutables c + 1 >? 1
    then Err (Wrapf "moqt/message: Immutable Properties" errTooManyInstances)
    else n ← block_pairs (kv_ByteVal kv);
         walk_nested n (MkCheck (immutables c + 1) (groupGaps c) (objectGaps c)
                                (groupGap c) (objectGap c))
  else flat_step kv c.

Fixpoint walk_top (l : list KVPair) (c : objectPropertiesCheck) : result objectPropertiesCheck :=
  match l with
  | [] => Ok c
  | kv :: l' => c ← top_step kv c; walk_top l' c
  end.

(** [kv_loop] depends on its fuel only through the bytes left. *)
Lemma kv_loop_fuel_eq f1 : forall f2 prev r, r_wf r ->
  (length (buf r) - off r <= f1)%nat -> (length (buf r) - off r <= f2)%nat ->
  kv_loop f1 prev r = kv_loop f2 prev r.
Proof.
  induction f1 as [|f1 IH]; intros [|f2] prev r Hw H1 H2; simpl; try done.
  1,2: unfold Empty; destruct (Nat.leb_spec (length (buf r)) (off r)); [done|lia].
  destruct (Empty r); [done|]. destruct (r_KVPair prev r) as [[[p next] r1]|] eqn:E; [|done].
  simpl. pose proof E as E'. apply r_kvPair_consume in E' as [Hb Ho]; [|done].
  rewrite (IH f2); [done| |rewrite Hb; lia|rewrite Hb; lia].
  destruct Hw. split; rewrite Hb; [done|lia].
Qed.

Definition ok_eq {A} (x y : result A) : Prop := forall a, x = Ok a <-> y = Ok a.

(** [ok_eq]: the same successes. *)
Lemma walk_nested_eq fuel : forall prev r c, r_wf r -> (length (buf r) - off r <= fuel)%nat ->
  ok_eq (walk_loop fuel prev true r c) ('(l, _) ← kv_loop fuel prev r; walk_nested l c).
Proof.
  induction fuel as [|fuel IH]; intros prev r c Hw Hf c'; simpl.
  { by destruct (Empty r). }
  destruct (Empty r); [done|]. rewrite r_kvPair_view by done.
  destruct (r_KVPair prev r) as [[[kv next] r1]|] eqn:E; simpl; [|done].
  apply r_kvPair_consume in E as [Hb Ho]; [|done].
  assert (Hw1 : r_wf r1) by (destruct Hw; split; rewrite Hb; [done|lia]).
  assert (Hf1 : (length (buf r1) - off r1 <= fuel)%nat) by (rewrite Hb; lia).
  fold (flat_step kv c). destruct (kv_Type kv =? PropertyImmutableProperties) eqn:Ei; simpl.
  - destruct (kv_loop fuel next r1) as [[l r2]|]; simpl; [|done]. by rewrite Ei.
  - specialize (IH next r1). destruct (flat_step kv c) as [c1|] eqn:Ec; simpl.
    + rewrite (IH c1 Hw1 Hf1 c'). destruct (kv_loop fuel next r1) as [[l r2]|]; simpl; [|done].
      by rewrite Ei, Ec.
    + destruct (kv_loop fuel next r1) as [[l r2]|]; simpl; [|done]. by rewrite Ei, Ec.
Qed.

Lemma walk_top_eq fuel : forall prev r c, r_wf r -> (length (buf r) - off r <= fuel)%nat ->
  ok_eq (walk_loop fuel prev false r c) ('(l, _) ← kv_loop fuel prev r; walk_top l c).
Proof.
  induction fuel as [|fuel IH]; intros prev r c Hw Hf c'; simpl.
  { by destruct (Empty r). }
  destruct (Empty r); [done|]. rewrite r_kvPair_view by done.
  destruct (r_KVPair prev r) as [[[kv next] r1]|] eqn:E; simpl; [|done].
  apply r_kvPair_consume in E as [Hb Ho]; [|done].
  assert (Hw1 : r_wf r1) by (destruct Hw; split; rewrite Hb; [done|lia]).
  assert (Hf1 : (length (buf r1) - off r1 <= fuel)%nat) by (rewrite Hb; lia).
  assert (Hn : r_wf (NewReader (kv_ByteVal kv))).
  { destruct Hw as [Hg ?]. split; simpl; [|lia]. unfold go_len, len in *. lia. }
  assert (Hfn : (length (kv_ByteVal kv) <= fuel)%nat) by lia.
  fold (flat_step kv c). specialize (IH next r1).
  set (c0 := MkCheck (immutables c + 1) _ _ _ _).
  set (x := if kv_Type kv =? PropertyImmutableProperties then _ else flat_step kv c).
  set (y := top_step kv c).
  assert (Hxy : ok_eq x y).
  { intros c1. subst x y. unfold top_step. destruct (kv_Type kv =? PropertyImmutableProperties); [|done].
    destruct (immutables c + 1 >? 1); [done|]. fold c0.
    rewrite (walk_nested_eq fuel 0 _ _ Hn ltac:(simpl; lia) c1). unfold block_pairs.
    rewrite (kv_loop_fuel_eq fuel (length (kv_ByteVal kv))) by (done || simpl; lia).
    by destruct (kv_loop _ 0 _) as [[l r2]|]. }
  clearbody x. transitivity (exists c1, y = Ok c1 /\ walk_loop fuel next false r1 c1 = Ok c').
  { destruct x as [c1|].
    - simpl. rewrite (proj1 (Hxy c1) eq_refl). split; [eauto|]. intros (? & ? & ?). by simplify_eq.
    - split; [done|]. intros (c1 & Hc & _). by apply Hxy in Hc. }
  destruct (kv_loop fuel next r1) as [[l r2]|]; simpl; fold y.
  - destruct y as [c1|]; simpl.
    + rewrite <- (IH c1 Hw1 Hf1 c'). split; [|eauto]. intros (? & ? & ?). by simplify_eq.
    + split; [|done]. by intros (? & ? & ?).
  - split; [|done]. intros (c1 & Hc & Hl). by apply (IH c1 Hw1 Hf1 c') in Hl.
Qed.

Lemma parse_block raw : ok_eq (ParseTrackProperties raw) (block_pairs raw).
Proof.
  intros l. unfold ParseTrackProperties, block_pairs. destruct (Z.eqb_spec (len raw) 0) as [E|_].
  - apply len_zero in E. by subst.
  - unfold r_KVPairsRemaining. simpl. by destruct (kv_loop _ _ _) as [[l' r]|].
Qed.

(** The contents of the Immutable Properties of a block, in order. *)
Fixpoint nested_pairs (l : list KVPair) : result (list KVPair) :=
  match l with
  | [] => Ok []
  | kv :: l' =>
      if kv_Type kv =? PropertyImmutableProperties
      then n ← block_pairs (kv_ByteVal kv); m ← nested_pairs l'; Ok (n ++ m)
      else nested_pairs l'
  end.

Lemma expand_loop_nested l : forall out,
  ok_eq (expand_loop out l) (n ← nested_pairs l; Ok (out ++ n)).
Proof.
  induction l as [|kv l IH]; intros out a; simpl; [by rewrite app_nil_r|].
  destruct (kv_Type kv =? PropertyImmutableProperties); simpl; [|apply IH].
  pose proof (parse_block (kv_ByteVal kv)) as Hp.
  destruct (ParseTrackProperties (kv_ByteVal kv)) as [n|], (block_pairs (kv_ByteVal kv)) as [n'|];
    simpl; try done.
  - specialize (Hp n) as [Hp _]. specialize (Hp eq_refl). simplify_eq. rewrite (IH _ a).
    destruct (nested_pairs l) as [m|]; simpl; [|done]. by rewrite app_assoc.
  - by pose proof (proj1 (Hp n) eq_refl).
  - by pose proof (proj2 (Hp n') eq_refl).
Qed.

Definition cnt (t : Z) (l : list KVPair) : Z := len (filter (fun kv => kv_Type kv = t) l).

(** The pairs of one object, nested ones included, break none of the rules. *)
Definition good (l : list KVPair) : Prop :=
  cnt PropertyImmutableProperties l <= 1 /\ cnt PropertyPriorGroupIDGap l <= 1 /\
  cnt PropertyPriorObjectIDGap l <= 1 /\ Forall (fun kv => IsMandatoryTrackProperty (kv_Type kv) = false) l.

#[global] Instance good_dec l : Decision (good l).
Proof. unfold good. apply _. Defined.

(** [v] is the value of the pairs of type [t] in [l], 0 when there is none. *)
Definition value_in (t : Z) (l : list KVPair) (v : Z) : Prop :=
  Forall (fun kv => kv_Type kv = t -> kv_IntVal kv = v) l /\ (cnt t l = 0 -> v = 0).

Definition summary (c : objectPropertiesCheck) (l : list KVPair) : Prop :=
  immutables c = cnt PropertyImmutableProperties l /\
  groupGaps c = cnt PropertyPriorGroupIDGap l /\ objectGaps c = cnt PropertyPriorObjectIDGap l /\
  value_in PropertyPriorGroupIDGap l (groupGap c) /\
  value_in PropertyPriorObjectIDGap l (objectGap c).

Lemma cnt_cons t kv l : cnt t (kv :: l) = (if kv_Type kv =? t then 1 else 0) + cnt t l.
Proof.
  unfold cnt. rewrite filter_cons. destruct (Z.eqb_spec (kv_Type kv) t).
  - rewrite decide_True by done. by rewrite len_cons.
  - by rewrite decide_False by done.
Qed.

Lemma cnt_app t l k : cnt t (l ++ k) = cnt t l + cnt t k.
Proof. unfold cnt. by rewrite filter_app, len_app. Qed.

Lemma cnt_nonneg t l : 0 <= cnt t l.
Proof. apply len_nonneg. Qed.

#[global] Instance cnt_proper t : Proper ((≡ₚ) ==> eq) (cnt t).
Proof. intros l k H. unfold cnt, len. by rewrite H. Qed.

#[global] Instance good_proper : Proper ((≡ₚ) ==> iff) good.
Proof. intros l k H. unfold good. by rewrite H. Qed.

#[global] Instance value_in_proper t : Proper ((≡ₚ) ==> eq ==> iff) (value_in t).
Proof. intros l k H v ? <-. unfold value_in. by rewrite H. Qed.

#[global] Instance summary_proper c : Proper ((≡ₚ) ==> iff) (summary c).
Proof. intros l k H. unfold summary. by rewrite H. Qed.

Lemma good_app l k : good (l ++ k) -> good k.
Proof.
  unfold good. rewrite !cnt_app, Forall_app. intros (?&?&?&_&?).
  pose proof (cnt_nonneg PropertyImmutableProperties l).
  pose proof (cnt_nonneg PropertyPriorGroupIDGap l).
  pose proof (cnt_nonneg PropertyPriorObjectIDGap l). split_and!; [lia|lia|lia|done].
Qed.

Lemma cnt_zero_value t l v : cnt t l = 0 -> Forall (fun kv => kv_Type kv = t -> kv_IntVal kv = v) l.
Proof.
  induction l as [|kv l IH]; [constructor|]. rewrite cnt_cons. pose proof (cnt_nonneg t l).
  destruct (Z.eqb_spec (kv_Type kv) t); intros; [lia|]. constructor; [done|]. apply IH. lia.
Qed.

Lemma value_in_new t l kv : cnt t l = 0 -> kv_Type kv = t -> value_in t (kv :: l) (kv_IntVal kv).
Proof.
  intros Hc Ht. split; [constructor; [done|by apply cnt_zero_value]|].
  rewrite cnt_cons, Ht, Z.eqb_refl. lia.
Qed.

Lemma value_in_other t l kv v : kv_Type kv <> t -> value_in t l v -> value_in t (kv :: l) v.
Proof.
  intros Ht [Hf Hz]. split; [by constructor|]. rewrite cnt_cons.
  destruct (Z.eqb_spec (kv_Type kv) t); [done|]. exact Hz.
Qed.

Lemma flat_step_spec kv c l : kv_Type kv <> PropertyImmutableProperties -> good l -> summary c l ->
  match flat_step kv c with
  | Ok c' => good (kv :: l) /\ summary c' (kv :: l)
  | Err _ => ~ good (kv :: l)
  end.
Proof.
  intros Hi (G1 & G2 & G3 & G4) (S1 & S2 & S3 & S4 & S5).
  pose proof (cnt_nonneg PropertyPriorGroupIDGap l). pose proof (cnt_nonneg PropertyPriorObjectIDGap l).
  assert (Hgood : good (kv :: l) <->
    (if kv_Type kv =? PropertyPriorGroupIDGap then 1 else 0) + cnt PropertyPriorGroupIDGap l <= 1 /\
    (if kv_Type kv =? PropertyPriorObjectIDGap then 1 else 0) + cnt PropertyPriorObjectIDGap l <= 1 /\
    IsMandatoryTrackProperty (kv_Type kv) = false).
  { unfold good. rewrite !cnt_cons, Forall_cons. apply Z.eqb_neq in Hi. rewrite Hi. intuition lia. }
  assert (Hsum : forall c', immutables c' = immutables c ->
    groupGaps c' = (if kv_Type kv =? PropertyPriorGroupIDGap then 1 else 0) + groupGaps c ->
    objectGaps c' = (if kv_Type kv =? PropertyPriorObjectIDGap then 1 else 0) + objectGaps c ->
    value_in PropertyPriorGroupIDGap (kv :: l) (groupGap c') ->
    value_in PropertyPriorObjectIDGap (kv :: l) (objectGap c') -> summary c' (kv :: l)).
  { intros c' H1 H2 H3 ? ?. unfold summary. rewrite !cnt_cons, H1, H2, H3.
    apply Z.eqb_neq in Hi. rewrite Hi, S1, S2, S3. done. }
  unfold flat_step. rewrite !Z.gtb_ltb.
  destruct (Z.eqb_spec (kv_Type kv) PropertyPriorGroupIDGap) as [E|E].
  { destruct (Z.eqb_spec (kv_Type kv) PropertyPriorObjectIDGap); [rewrite E in *; done|].
    destruct (Z.ltb_spec 1 (groupGaps c + 1)); [rewrite Hgood; lia|].
    split; [apply Hgood; rewrite E; split_and!; (done || lia)|].
    apply Hsum; simpl; try lia; [apply value_in_new; [lia|done]|by apply value_in_other]. }
  destruct (Z.eqb_spec (kv_Type kv) PropertyPriorObjectIDGap) as [E'|E'].
  { destruct (Z.ltb_spec 1 (objectGaps c + 1)); [rewrite Hgood; lia|].
    split; [apply Hgood; rewrite E'; split_and!; (done || lia)|].
    apply Hsum; simpl; try lia; [by apply value_in_other|apply value_in_new; [lia|done]]. }
  destruct (IsMandatoryTrackProperty (kv_Type kv)); [rewrite Hgood; by intros (_ & _ & ?)|].
  split; [apply Hgood; split_and!; (done || lia)|]. apply Hsum; simpl; try lia; by apply value_in_other.
Qed.

Lemma walk_nested_spec l : forall c acc, good acc -> summary c acc ->
  cnt PropertyImmutableProperties acc = 1 ->
  match walk_nested l c with
  | Ok c' => good (l ++ acc) /\ summary c' (l ++ acc) /\
             cnt PropertyImmutableProperties (l ++ acc) = 1
  | Err _ => ~ good (l ++ acc)
  end.
Proof.
  induction l as [|kv l IH]; intros c acc Hg Hs Hi; simpl; [done|].
  pose proof (Permutation_middle l acc kv) as Hp.
  destruct (Z.eqb_spec (kv_Type kv) PropertyImmutableProperties) as [E|E].
  - simpl. rewrite Hp. intros Hg'. apply good_app in Hg' as (Hc & _).
    rewrite cnt_cons, E, Z.eqb_refl in Hc. lia.
  - pose proof (flat_step_spec kv c acc E Hg Hs) as Hf.
    destruct (flat_step kv c) as [c1|]; simpl; [|rewrite Hp; by intros ?%good_app].
    destruct Hf as [Hg1 Hs1]. specialize (IH c1 (kv :: acc) Hg1 Hs1).
    rewrite cnt_cons in IH. apply Z.eqb_neq in E. rewrite E in IH. specialize (IH ltac:(lia)).
    destruct (walk_nested l c1); by rewrite Hp.
Qed.

Lemma walk_top_spec l : forall c acc, good acc -> summary c acc ->
  match walk_top l c with
  | Ok c' => exists n, nested_pairs l = Ok n /\ good (l ++ n ++ acc) /\ summary c' (l ++ n ++ acc)
  | Err _ => forall n, nested_pairs l = Ok n -> ~ good (l ++ n ++ acc)
  end.
Proof.
  induction l as [|kv l IH]; intros c acc Hg Hs; simpl; [by exists []|]. unfold top_step.
  destruct (Z.eqb_spec (kv_Type kv) PropertyImmutableProperties) as [E|E].
  2: { pose proof (flat_step_spec kv c acc E Hg Hs) as Hf.
    assert (Hp : forall n, kv :: l ++ n ++ acc ≡ₚ l ++ n ++ kv :: acc).
    { intros n. by rewrite <- Permutation_middle, <- Permutation_middle. }
    destruct (flat_step kv c) as [c1|]; simpl.
    - destruct Hf as [Hg1 Hs1]. specialize (IH c1 _ Hg1 Hs1).
      destruct (walk_top l c1); [destruct IH as (n & ? & ?); exists n|intros n]; rewrite Hp; auto.
    - intros n _. rewrite Hp, app_assoc. by intros ?%good_app. }
  set (c0 := MkCheck (immutables c + 1) _ _ _ _). destruct Hs as (S1 & S2 & S3 & S4 & S5).
  assert (Hn1 : cnt PropertyImmutableProperties (kv :: acc) =
    1 + cnt PropertyImmutableProperties acc) by (rewrite cnt_cons, E, Z.eqb_refl; lia).
  rewrite Z.gtb_ltb. destruct (Z.ltb_spec 1 (immutables c + 1)) as [Hc|Hc]; simpl.
  { intros n _ Hg'. rewrite app_assoc, Permutation_middle in Hg'.
    apply good_app in Hg' as (Hc' & _). lia. }
  assert (Hg1 : good (kv :: acc)).
  { destruct Hg as (G1 & G2 & G3 & G4). unfold good. rewrite !cnt_cons, E. simpl.
    pose proof (cnt_nonneg PropertyImmutableProperties acc). split_and!; [lia|lia|lia|].
    constructor; [by rewrite E|done]. }
  assert (Hs1 : summary c0 (kv :: acc)).
  { unfold summary. rewrite !cnt_cons, E. simpl. split_and!; try lia;
      apply value_in_other; by rewrite ?E. }
  destruct (block_pairs (kv_ByteVal kv)) as [n|]; simpl; [|done].
  pose proof (cnt_nonneg PropertyImmutableProperties acc).
  pose proof (walk_nested_spec n c0 _ Hg1 Hs1 ltac:(lia)) as Hn.
  assert (Hp : forall m, kv :: l ++ (n ++ m) ++ acc ≡ₚ l ++ m ++ n ++ kv :: acc).
  { intros m. rewrite <- (Permutation_middle n), <- (Permutation_middle m), <- (Permutation_middle l).
    do 2 f_equiv. rewrite !app_assoc. f_equiv. apply Permutation_app_comm. }
  destruct (walk_nested n c0) as [c1|]; simpl.
  - destruct Hn as (Hg2 & Hs2 & _). specialize (IH c1 _ Hg2 Hs2).
    destruct (walk_top l c1) as [c2|].
    + destruct IH as (m & -> & H1 & H2). exists (n ++ m). rewrite Hp. auto.
    + intros k. destruct (nested_pairs l) as [m|]; simpl; [|done]. intros [= <-].
      rewrite Hp. by apply IH.
  - intros k. destruct (nested_pairs l) as [m|]; simpl; [|done]. intros [= <-].
    rewrite Hp, app_assoc. by intros ?%good_app.
Qed.

Lemma flat_step_plain kv c e : flat_step kv c = Err e -> plain e = true.
Proof. unfold flat_step. repeat case_match; intros; simplify_eq; done. Qed.

(** The walk ends by itself. *)
Lemma walk_loop_plain fuel : forall prev nested r c e, r_wf r ->
  (length (buf r) - off r <= fuel)%nat -> walk_loop fuel prev nested r c = Err e -> plain e = true.
Proof.
  induction fuel as [|fuel IH]; intros prev nested r c e Hw Hf; simpl.
  { unfold Empty. destruct (Nat.leb_spec (length (buf r)) (off r)); [done|lia]. }
  destruct (Empty r); [done|].
  destruct (r_KVPairView prev r) as [[[kv next] r1]|e1] eqn:E; simpl.
  2: { intros [= <-]. eapply plain_Wrapf, plain_r_kvPair, E. }
  apply r_kvPair_consume in E as [Hb Ho]; [|done].
  assert (Hw1 : r_wf r1) by (destruct Hw; split; rewrite Hb; [done|lia]).
  assert (Hf1 : (length (buf r1) - off r1 <= fuel)%nat) by (rewrite Hb; lia).
  assert (Hn : r_wf (NewReader (kv_ByteVal kv))).
  { destruct Hw as [Hg ?]. split; simpl; [|lia]. unfold go_len, len in *. lia. }
  fold (flat_step kv c).
  match goal with |- (?x ≫= _) = _ -> _ => destruct x as [c1|e1] eqn:Ec end; simpl.
  { by apply IH. }
  intros [= <-]. destruct (kv_Type kv =? PropertyImmutableProperties);
    [|by eapply flat_step_plain].
  destruct nested; [by simplify_eq|]. destruct (_ >? 1); [by simplify_eq|].
  eapply IH; [| |exact Ec]; [done|simpl; lia].
Qed.

Lemma walk_spec raw : go_len raw ->
  match walk raw false check0 with
  | Ok c => exists all, parseSearchable raw = Ok all /\ good all /\ summary c all
  | Err e => plain e = true /\ forall all, parseSearchable raw = Ok all -> ~ good all
  end.
Proof.
  intros Hg. assert (Hw : r_wf (NewReader raw)) by (split; simpl; [done|lia]).
  assert (Hall : forall all, parseSearchable raw = Ok all <->
    exists l r n, kv_loop (length raw) 0 (NewReader raw) = Ok (l, r) /\
      nested_pairs l = Ok n /\ all = l ++ n).
  { intros all. unfold parseSearchable, ExpandImmutable.
    destruct (ParseTrackProperties raw) as [l|] eqn:E; simpl.
    - apply parse_block in E. unfold block_pairs in E.
      destruct (kv_loop _ _ _) as [[l' r]|] eqn:El; simpl in E; simplify_eq.
      rewrite (expand_loop_nested l l all). destruct (nested_pairs l) as [n|] eqn:En; simpl.
      + split; [intros [= <-]; eauto 10|]. intros (l2 & r2 & n2 & Hl2 & Hn2 & ->). congruence.
      + split; [done|]. intros (l2 & r2 & n2 & Hl2 & Hn2 & _). congruence.
    - split; [done|]. intros (l & r & n & Hl & _).
      assert (ParseTrackProperties raw = Ok l); [|congruence].
      apply parse_block. unfold block_pairs. by rewrite Hl. }
  assert (H0 : good [] /\ summary check0 []).
  { split; [by_decide|]. by unfold summary, value_in. }
  unfold walk. destruct (walk_loop _ _ _ _ _) as [c|e] eqn:E.
  - apply (walk_top_eq (length raw) 0 (NewReader raw) check0 Hw ltac:(simpl; lia) c) in E.
    destruct (kv_loop _ _ _) as [[l r]|] eqn:El; simpl in E; [|done].
    pose proof (walk_top_spec l check0 [] (proj1 H0) (proj2 H0)) as Ht. rewrite E in Ht.
    destruct Ht as (n & Hn & Ht). rewrite app_nil_r in Ht. exists (l ++ n). split; [|done].
    apply Hall. eauto 10.
  - split; [apply walk_loop_plain in E; [done|done|simpl; lia]|].
    intros all Ha. apply Hall in Ha as (l & r & n & Hl & Hn & ->).
    pose proof (walk_top_spec l check0 [] (proj1 H0) (proj2 H0)) as Ht.
    destruct (walk_top l check0) as [c|] eqn:Et.
    + assert (walk_loop (length raw) 0 false (NewReader raw) check0 = Ok c); [|congruence].
      apply (walk_top_eq (length raw) 0 (NewReader raw) check0 Hw ltac:(simpl; lia) c). by rewrite Hl.
    + specialize (Ht n Hn). by rewrite app_nil_r in Ht.
Qed.

Lemma value_in_property t l v : value_in t l v ->
  v = default 0 (propertyValue l t) /\ (cnt t l = 0 <-> propertyValue l t = None).
Proof.
  intros [Hf Hz].
  assert (Hp : match propertyValue l t with
               | Some w => w = v /\ cnt t l <> 0 | None => cnt t l = 0 end).
  { clear Hz. induction Hf as [|kv l Hkv _ IH]; [done|]. simpl. rewrite cnt_cons.
    pose proof (cnt_nonneg t l). destruct (Z.eqb_spec (kv_Type kv) t); [split; [auto|lia]|].
    destruct (propertyValue l t); [split; [tauto|lia]|lia]. }
  destruct (propertyValue l t); simpl; intuition congruence.
Qed.

Lemma value_in_le t l v b : 0 <= b -> value_in t l v ->
  v <= b <-> Forall (fun kv => kv_Type kv = t -> kv_IntVal kv <= b) l.
Proof.
  intros Hb [Hf Hz]. split.
  - intros Hv. eapply Forall_impl; [exact Hf|]. simpl. intros kv Hk Ht. by rewrite (Hk Ht).
  - intros Hl. destruct (decide (cnt t l = 0)) as [E|E]; [rewrite (Hz E); lia|].
    clear Hz. revert E. induction Hf as [|kv l Hkv _ IH]; [done|]. rewrite cnt_cons.
    apply Forall_cons in Hl as [Hl1 Hl]. destruct (Z.eqb_spec (kv_Type kv) t) as [Et|].
    + intros _. rewrite <- (Hkv Et). auto.
    + intros ?. apply IH; [done|lia].
Qed.

(** ** Theorems *)

(** The rules of the draft an object's properties must obey, nested Immutable
    Properties included. *)
Definition object_ok (raw : bytes) (groupID objectID : Z) : Prop :=
  exists all, parseSearchable raw = Ok all /\ good all /\
    Forall (fun kv => kv_Type kv = PropertyPriorGroupIDGap -> kv_IntVal kv <= groupID) all /\
    Forall (fun kv => kv_Type kv = PropertyPriorObjectIDGap -> kv_IntVal kv <= objectID) all.

(** The single-pass, non-allocating object check agrees with the rules: it
    accepts an object exactly when its property block and the nested one parse,
    no property that may appear once appears twice in either, no Mandatory
    Track Property appears, and the prior gaps do not exceed the object's IDs. *)
Theorem object_properties_exact raw groupID objectID : go_len raw -> 0 <= groupID -> 0 <= objectID ->
  match CheckObjectProperties raw groupID objectID with
  | Ok _ => object_ok raw groupID objectID
  | Err e => plain e = true /\ ~ object_ok raw groupID objectID
  end.
Proof.
  intros Hg Hgr Hob. unfold CheckObjectProperties. pose proof (walk_spec raw Hg) as H.
  destruct (walk raw false check0) as [c|e]; simpl.
  - destruct H as (all & Hp & Hgood & _ & _ & _ & V1 & V2).
    rewrite !Z.gtb_ltb. destruct (Z.ltb_spec groupID (groupGap c)) as [L1|L1].
    { split; [done|]. intros (all' & Hp' & _ & F1 & _). rewrite Hp in Hp'. simplify_eq.
      apply (value_in_le _ _ _ _ Hgr V1) in F1. lia. }
    destruct (Z.ltb_spec objectID (objectGap c)) as [L2|L2].
    { split; [done|]. intros (all' & Hp' & _ & _ & F2). rewrite Hp in Hp'. simplify_eq.
      apply (value_in_le _ _ _ _ Hob V2) in F2. lia. }
    exists all. split_and!; [done|done|by eapply value_in_le|by eapply value_in_le].
  - destruct H as [He Hn]. split; [done|]. intros (all & Hp & Hgood & _). by apply (Hn all).
Qed.

Lemma object_properties_exact_witness :
  let raw := AppendTrackProperties [MkKV PropertyPriorObjectIDGap 3 []] in
  CheckObjectProperties raw 0 5 = Ok tt /\ object_ok raw 0 5.
Proof.
  intros raw. split; [vm_compute; reflexivity|].
  pose proof (object_properties_exact raw 0 5 ltac:(vm_compute; reflexivity)
    ltac:(lia) ltac:(lia)) as H.
  replace (CheckObjectProperties raw 0 5) with (Ok (A:=unit) tt) in H by (vm_compute; reflexivity).
  exact H.
Defined.

(** The prior gaps of an object are those a search of its properties and
    then of its Immutable Properties finds, for properties that break no rule,
    and absent otherwise. *)
Theorem prior_gaps_exact raw : go_len raw ->
  ObjectPriorGaps raw =
  match parseSearchable raw with
  | Ok all =>
      let g := propertyValue all PropertyPriorGroupIDGap in
      let o := propertyValue all PropertyPriorObjectIDGap in
      if decide (good all)
      then MkGaps (default 0 g) (default 0 o) (bool_decide (is_Some g)) (bool_decide (is_Some o))
      else MkGaps 0 0 false false
  | Err _ => MkGaps 0 0 false false
  end.
Proof.
  intros Hg. unfold ObjectPriorGaps. pose proof (walk_spec raw Hg) as H.
  destruct (walk raw false check0) as [c|e].
  - destruct H as (all & -> & Hgood & _ & S2 & S3 & V1 & V2). cbv zeta.
    rewrite decide_True by done. destruct Hgood as (_ & G2 & G3 & _).
    apply value_in_property in V1 as [-> N1], V2 as [-> N2]. rewrite S2, S3.
    pose proof (cnt_nonneg PropertyPriorGroupIDGap all).
    pose proof (cnt_nonneg PropertyPriorObjectIDGap all).
    assert (Hb : forall (x : option Z) n, 0 <= n <= 1 -> (n = 0 <-> x = None) ->
      (n =? 1) = bool_decide (is_Some x)).
    { intros x n Hn Hx. destruct x.
      - rewrite bool_decide_true by eauto. apply Z.eqb_eq. assert (n <> 0) by naive_solver. lia.
      - rewrite bool_decide_false by (by intros [? ?]). apply Z.eqb_neq.
        rewrite (proj2 Hx eq_refl). done. }
    f_equal; by apply Hb.
  - destruct H as [_ Hn]. destruct (parseSearchable raw) as [all|]; [|done]. cbv zeta.
    rewrite decide_False by (by apply Hn). done.
Qed.

Lemma prior_gaps_exact_witness :
  ObjectPriorGaps (AppendTrackProperties [MkKV PropertyPriorGroupIDGap 2 []]) = MkGaps 2 0 true false.
Proof.
  rewrite (prior_gaps_exact (AppendTrackProperties [MkKV PropertyPriorGroupIDGap 2 []])
    ltac:(vm_compute; reflexivity)). vm_compute. reflexivity.
Defined.

Lemma apply_pairs_first l : forall d,
  fold_left apply_pair (reverse l) d =
  MkDT (default (dt_Object d) (MillisecondTimeout <$> propertyValue l PropertyObjectDeliveryTimeout))
       (default (dt_Subgroup d) (MillisecondTimeout <$> propertyValue l PropertySubgroupDeliveryTimeout)).
Proof.
  induction l as [|kv l IH]; intros d; [by destruct d|].
  rewrite reverse_cons, fold_left_app, IH. cbn [fold_left]. unfold apply_pair. cbn [propertyValue].
  destruct (Z.eqb_spec (kv_Type kv) PropertyObjectDeliveryTimeout) as [E|E].
  { rewrite E. done. }
  by destruct (kv_Type kv =? PropertySubgroupDeliveryTimeout).
Qed.

(** The delivery timeouts of a subgroup.  Object Properties override the
    track's values dimension by dimension, the mutable value winning over the
    immutable one, an unparsable block changing nothing; and the timeout
    enforced is 0 (none) iff both sides say 0, else the least non-zero one. *)
Theorem delivery_timeouts_resolved d sub raw :
  ApplyObjectProperties d raw =
    (match parseSearchable raw with
     | Ok all =>
         MkDT (default (dt_Object d) (MillisecondTimeout <$> propertyValue all PropertyObjectDeliveryTimeout))
              (default (dt_Subgroup d) (MillisecondTimeout <$> propertyValue all PropertySubgroupDeliveryTimeout))
     | Err _ => d
     end) /\
  forall dim, dim = dt_Object \/ dim = dt_Subgroup ->
    let t := dim (Effective d sub) in
    (t = 0 <-> dim d = 0 /\ dim sub = 0) /\
    (t = dim d \/ t = dim sub) /\ (dim d <> 0 -> t <= dim d) /\ (dim sub <> 0 -> t <= dim sub).
Proof.
  split.
  - unfold ApplyObjectProperties. destruct (Z.eqb_spec (len raw) 0) as [E|_].
    { apply len_zero in E. subst. simpl. by destruct d. }
    destruct (parseSearchable raw); [apply apply_pairs_first|done].
  - assert (Hd : forall a b, let t := effectiveDim a b in
      (t = 0 <-> a = 0 /\ b = 0) /\ (t = a \/ t = b) /\ (a <> 0 -> t <= a) /\ (b <> 0 -> t <= b)).
    { intros a b. unfold effectiveDim. destruct (Z.eqb_spec a 0), (Z.eqb_spec b 0); simpl; lia. }
    intros dim [-> | ->]; apply Hd.
Qed.
