(* ===== verification/RangeFilter.v ===== *)
(** * RangeFilter: the five Range Filter parameters

    [message/rangefilter.go]: the delta-encoded value of one filter, its
    validation, the grouping of a request's filters by SetID, REQUEST_UPDATE,
    and the matching of objects and tracks. *)

From S2P Require Import Prelude Varint Wire KV Filter Params Properties.

Record Range : Type := MkRange { Start : Z; End : Z; Open : bool }.

#[global] Instance Range_eq_dec : EqDecision Range.
Proof. solve_decision. Defined.

Record RangeFilter : Type := MkRF { rf_Type : Z; SetID : Z; PropertyType : Z; Ranges : list Range }.

#[global] Instance RangeFilter_eq_dec : EqDecision RangeFilter.
Proof. solve_decision. Defined.

(** [hasPropertyType], as a function of the filter's type. *)
Definition hasPropertyType (t : Z) : bool :=
  (t =? ParamObjectPropertyFilter) || (t =? ParamTrackPropertyFilter).

(** ** Codec *)

(** The loop over [f.Ranges]; an Open range returns at once. *)
Fixpoint append_ranges (w : Writer) (prevEnd : Z) (l : list Range) : Writer :=
  match l with
  | [] => w
  | rg :: l' =>
      let w := w_Varint w (u64 (Start rg - prevEnd)) in
      if Open rg then w
      else append_ranges (w_Varint w (u64 (End rg - Start rg))) (End rg) l'
  end.

Definition rf_Append (w : Writer) (f : RangeFilter) : Writer :=
  let w := w_UInt8 w (SetID f) in
  let w := if hasPropertyType (rf_Type f) then w_Varint w (PropertyType f) else w in
  append_ranges w 0 (Ranges f).

Definition rf_Bytes (f : RangeFilter) : bytes := rf_Append [] f.

Definition RangeFilterParam (f : RangeFilter) : Param := BytesParam (rf_Type f) (rf_Bytes f).

(** [for !r.Empty()]; every turn reads at least one byte. *)
Fixpoint parse_ranges (fuel : nat) (prevEnd : Z) (r : Reader) : result (list Range) :=
  if Empty r then Ok []
  else match fuel with
  | O => Err OutOfFuel
  | S fuel' =>
      '(sd, r) ← map_err (Wrapf2 "range start delta" ErrInvalidFilter) (r_Varint r);
      if sd >? MaxUint64 - prevEnd
      then Err (Wrapf "range start delta overflows 2^64-1" ErrInvalidFilter)
      else
        let start := prevEnd + sd in
        if Empty r then Ok [MkRange start 0 true]
        else
          '(ed, r) ← map_err (Wrapf2 "range end delta" ErrInvalidFilter) (r_Varint r);
          if ed >? MaxUint64 - start
          then Err (Wrapf "range end delta overflows 2^64-1" ErrInvalidFilter)
          else
            l ← parse_ranges fuel' (start + ed) r;
            Ok (MkRange start (start + ed) false :: l)
  end.

Definition ParseRangeFilter (t : Z) (raw : bytes) : result RangeFilter :=
  '(setID, r) ← map_err (Wrapf2 "SetID" ErrInvalidFilter) (r_UInt8 (NewReader raw));
  '(pt, r) ← (if hasPropertyType t
              then map_err (Wrapf2 "property type" ErrInvalidFilter) (r_Varint r)
              else Ok (0, r));
  l ← parse_ranges (length raw) 0 r;
  Ok (MkRF t setID pt l).

(** The loop of [Validate]. *)
Fixpoint validate_ranges (t : Z) (l : list Range) : result unit :=
  match l with
  | [] => Ok tt
  | rg :: l' =>
      if Open rg && negb (len l' =? 0)
      then Err (Wrapf "only the final range may be open-ended" ErrInvalidFilter)
      else if (t =? ParamPriorityFilter) && ((Start rg >? 255) || (negb (Open rg) && (End rg >? 255)))
      then Err (Wrapf "PRIORITY value exceeds 255" ErrInvalidFilter)
      else validate_ranges t l'
  end.

Definition rf_Validate (f : RangeFilter) : result unit :=
  if hasPropertyType (rf_Type f) && negb (PropertyType f mod 2 =? 0)
  then Err (Wrapf "property type must be even" ErrInvalidFilter)
  else validate_ranges (rf_Type f) (Ranges f).

Definition range_has (v : Z) (rg : Range) : bool :=
  if Open rg then Start rg <=? v else (Start rg <=? v) && (v <=? End rg).

Definition matchValue (f : RangeFilter) (v : Z) : bool := existsb (range_has v) (Ranges f).

(** ** Sets of filters *)
Record rangeGroup : Type := MkGroup { g_setID : Z; g_filters : list RangeFilter }.

Record RangeFilterSet : Type := MkSet {
  groups : list rangeGroup; totalRanges : Z; hasObjectProperty : bool; hasTrackProperty : bool
}.

Abbreviation filterKey := (Z * Z * Z)%type (only parsing).
Definition key_of (f : RangeFilter) : filterKey := (rf_Type f, SetID f, PropertyType f).

Fixpoint parseRangeFilters (ps : Params) : result (list RangeFilter) :=
  match ps with
  | [] => Ok []
  | p :: ps' =>
      if negb (IsRangeFilterParam (p_Type p)) || (len (p_Bytes p) =? 0) then parseRangeFilters ps'
      else
        f ← ParseRangeFilter (p_Type p) (p_Bytes p);
        _ ← rf_Validate f;
        out ← parseRangeFilters ps';
        Ok (f :: out)
  end.

(** The state of the building loop: the set, [seen] and [groupIdx]. *)
Record build_state : Type := MkBuild {
  b_set : RangeFilterSet; b_seen : gset filterKey; b_idx : gmap Z nat
}.

(** One turn: find or open the group of the filter's SetID, append to it. *)
Definition build_step (b : build_state) (f : RangeFilter) : result build_state :=
  if bool_decide (key_of f ∈ b_seen b) then Err (Wrapf "duplicate filter" ErrInvalidFilter)
  else
    let s := b_set b in
    let total := totalRanges s + len (Ranges f) in
    let ho := hasObjectProperty s || (rf_Type f =? ParamObjectPropertyFilter) in
    let ht := hasTrackProperty s || (rf_Type f =? ParamTrackPropertyFilter) in
    let '(gi, gs, idx) :=
      match b_idx b !! SetID f with
      | Some gi => (gi, groups s, b_idx b)
      | None => (length (groups s), groups s ++ [MkGroup (SetID f) []],
                 <[SetID f := length (groups s)]> (b_idx b))
      end in
    let gs := alter (fun g => MkGroup (g_setID g) (g_filters g ++ [f])) gi gs in
    Ok (MkBuild (MkSet gs total ho ht) ({[key_of f]} ∪ b_seen b) idx).

Fixpoint build_loop (b : build_state) (l : list RangeFilter) : result build_state :=
  match l with
  | [] => Ok b
  | f :: l' => b ← build_step b f; build_loop b l'
  end.

Definition build0 : build_state := MkBuild (MkSet [] 0 false false) ∅ ∅.

(** A nil set is [None]. *)
Definition buildRangeFilterSet (filters : list RangeFilter) : result (option RangeFilterSet) :=
  if len filters =? 0 then Ok None
  else b ← build_loop build0 filters; Ok (Some (b_set b)).

Definition RangeFiltersFromParams (ps : Params) : result (option RangeFilterSet) :=
  filters ← parseRangeFilters ps; buildRangeFilterSet filters.

Definition set_filters (s : option RangeFilterSet) : list RangeFilter :=
  match s with None => [] | Some s => mjoin (g_filters <$> groups s) end.

Definition rs_Update (s : option RangeFilterSet) (ps : Params) : result (option RangeFilterSet) :=
  added ← parseRangeFilters ps;
  let kept := filter (fun f => ~ Exists (fun p => p_Type p = rf_Type f) ps) (set_filters s) in
  buildRangeFilterSet (kept ++ added).

Definition rs_Validate (s : option RangeFilterSet) (maxFilterRanges : Z) : result unit :=
  match s with
  | None => Ok tt
  | Some s =>
      if maxFilterRanges =? 0 then Err (Wrapf "range filters not permitted" ErrInvalidFilter)
      else if totalRanges s >? maxFilterRanges
      then Err (Wrapf "ranges exceed MAX_FILTER_RANGES" ErrInvalidFilter)
      else Ok tt
  end.

(** ** Matching *)
Definition property_match (f : RangeFilter) (props : list KVPair) : bool :=
  match propertyValue props (PropertyType f) with
  | Some v => matchValue f v
  | None => false
  end.

(** The [switch] of [matchObject] on one filter. *)
Definition object_match (f : RangeFilter) (subgroupID objectID priority : Z) (props : list KVPair) : bool :=
  if rf_Type f =? ParamSubgroupFilter then matchValue f subgroupID
  else if rf_Type f =? ParamObjectIDFilter then matchValue f objectID
  else if rf_Type f =? ParamPriorityFilter then matchValue f priority
  else if rf_Type f =? ParamObjectPropertyFilter then property_match f props
  else true.

Definition matchObject (g : rangeGroup) (subgroupID objectID priority : Z) (props : list KVPair) : bool :=
  forallb (fun f => object_match f subgroupID objectID priority props) (g_filters g).

Definition matchTrack (g : rangeGroup) (props : list KVPair) : bool :=
  forallb (fun f => if rf_Type f =? ParamTrackPropertyFilter then property_match f props else true)
    (g_filters g).

(** [props, _ = parseSearchable(raw)] when [wanted]. *)
Definition searchable (wanted : bool) (raw : bytes) : list KVPair :=
  if wanted then match parseSearchable raw with Ok l => l | Err _ => [] end else [].

(** The loop over the groups from index [i] on; [trackPass[i]] out of range panics. *)
Fixpoint match_groups (gs : list rangeGroup) (i : nat) (subgroupID objectID priority : Z)
    (props : list KVPair) (trackPass : option (list bool)) : result bool :=
  match gs with
  | [] => Ok false
  | g :: gs' =>
      eligible ← match trackPass with
                 | None => Ok true
                 | Some tp => match tp !! i with Some b => Ok b | None => Err Panic end
                 end;
      if negb eligible then match_groups gs' (S i) subgroupID objectID priority props trackPass
      else if matchObject g subgroupID objectID priority props then Ok true
      else match_groups gs' (S i) subgroupID objectID priority props trackPass
  end.

Definition MatchesObjectInSets (s : option RangeFilterSet) (subgroupID objectID priority : Z)
    (objProps : bytes) (trackPass : option (list bool)) : result bool :=
  match s with
  | None => Ok true
  | Some s =>
      if len (groups s) =? 0 then Ok true
      else match_groups (groups s) 0 subgroupID objectID priority
             (searchable (hasObjectProperty s) objProps) trackPass
  end.

Definition MatchesObject (s : option RangeFilterSet) (subgroupID objectID priority : Z)
    (objProps : bytes) : result bool :=
  MatchesObjectInSets s subgroupID objectID priority objProps None.

Definition TrackPassPerGroup (s : option RangeFilterSet) (trackProps : bytes) : option (list bool) :=
  match s with
  | None => None
  | Some s => Some ((fun g => matchTrack g (searchable (hasTrackProperty s) trackProps)) <$> groups s)
  end.

Definition MatchesTrack (s : option RangeFilterSet) (trackProps : bytes) : bool :=
  match s with
  | None => true
  | Some s =>
      if len (groups s) =? 0 then true
      else existsb (fun g => matchTrack g (searchable (hasTrackProperty s) trackProps)) (groups s)
  end.

(** ** The codec *)

(** Ranges as a parse yields them: in order, each no earlier than the end of the
    one before, only the last one open. *)
Fixpoint wf_ranges (prev : Z) (l : list Range) : Prop :=
  match l with
  | [] => True
  | rg :: l' =>
      prev <= Start rg /\ is_u64 (Start rg) /\
      if Open rg then End rg = 0 /\ l' = []
      else Start rg <= End rg /\ is_u64 (End rg) /\ wf_ranges (End rg) l'
  end.

#[global] Instance wf_ranges_dec l : forall prev, Decision (wf_ranges prev l).
Proof.
  induction l as [|rg l IH]; intros prev; cbn [wf_ranges]; [apply _|].
  apply and_dec; [apply _|]. apply and_dec; [apply _|]. destruct (Open rg); apply _.
Defined.

Definition wf_rf (f : RangeFilter) : Prop :=
  is_u8 (SetID f) /\ is_u64 (PropertyType f) /\
  (hasPropertyType (rf_Type f) = false -> PropertyType f = 0) /\ wf_ranges 0 (Ranges f).

Fixpoint e_ranges (prev : Z) (l : list Range) : bytes :=
  match l with
  | [] => []
  | rg :: l' =>
      e_Varint (u64 (Start rg - prev)) ++
      (if Open rg then [] else e_Varint (u64 (End rg - Start rg)) ++ e_ranges (End rg) l')
  end.

Lemma append_ranges_app l : forall w prev, append_ranges w prev l = w ++ e_ranges prev l.
Proof.
  induction l as [|rg l IH]; intros w prev; simpl; [by rewrite app_nil_r|].
  destruct (Open rg); [by rewrite w_Varint_app, app_nil_r|].
  rewrite IH. wnorm. done.
Qed.

Lemma Empty_app r e1 e2 : (off r <= length (buf r))%nat -> rest r = e1 ++ e2 ->
  (1 <= length e1)%nat -> Empty r = false.
Proof.
  intros Hl Hr He. rewrite Empty_rest, Hr by done. apply bool_decide_eq_false.
  intros E. apply app_nil in E as [-> _]. simpl in He. lia.
Qed.

(** Reading one varint off the front of what is left. *)
Lemma r_Varint_front r v e : is_u64 v -> (off r <= length (buf r))%nat ->
  rest r = e_Varint v ++ e ->
  exists r', r_Varint r = Ok (v, r') /\ rest r' = e /\ (off r' <= length (buf r'))%nat /\
    Empty r = false.
Proof.
  intros Hv Hl Hr. destruct (at_rest _ _ _ Hl Hr) as (Ha & Hb & Hc). eexists. split_and!.
  - by apply (r_decodes_Varint v Hv).
  - done.
  - done.
  - eapply Empty_app; [done|done|by apply e_Varint_length].
Qed.

Lemma parse_ranges_decodes l : forall fuel prev r, (length l <= fuel)%nat ->
  wf_ranges prev l -> is_u64 prev -> (off r <= length (buf r))%nat -> rest r = e_ranges prev l ->
  parse_ranges fuel prev r = Ok l.
Proof.
  induction l as [|rg l IH]; intros fuel prev r Hf Hwf Hprev Hl Hr; simpl in *.
  { destruct fuel; simpl; by rewrite Empty_rest, Hr by done. }
  destruct Hwf as (Hle & Hs & Hwf). destruct fuel as [|fuel]; [lia|].
  rewrite u64_sub_le in Hr by done.
  apply r_Varint_front in Hr as (r1 & E1 & Hr1 & Hl1 & Em); [|zlia|done].
  cbn [parse_ranges]. rewrite Em, E1. unfold map_err, mbind, result_bind.
  rewrite Z.gtb_ltb. destruct (Z.ltb_spec (MaxUint64 - prev) (Start rg - prev)); [zlia|].
  cbv zeta. replace (prev + (Start rg - prev)) with (Start rg) by lia.
  destruct rg as [st en op]; simpl in *. destruct op.
  - destruct Hwf as [-> ->]. by rewrite Empty_rest, Hr1 by done.
  - destruct Hwf as (Hse & He & Hwf). rewrite u64_sub_le in Hr1 by done.
    apply r_Varint_front in Hr1 as (r2 & E2 & Hr2 & Hl2 & Em1); [|zlia|done].
    rewrite Em1, E2. rewrite Z.gtb_ltb. destruct (Z.ltb_spec (MaxUint64 - st) (en - st)); [zlia|].
    replace (st + (en - st)) with en by lia. rewrite (IH fuel en r2); try done. lia.
Qed.

Lemma parse_ranges_snd fuel : forall prev r l, r_wf r -> is_u64 prev ->
  parse_ranges fuel prev r = Ok l -> wf_ranges prev l.
Proof.
  induction fuel as [|fuel IH]; intros prev r l Hw Hprev; simpl.
  { destruct (Empty r); [|done]. by intros [= <-]. }
  destruct (Empty r); [by intros [= <-]|].
  destruct (r_Varint r) as [[sd r1]|] eqn:E1; simpl; [|done].
  apply r_Varint_snd in E1 as [Hs Hw1]; [|done]. rewrite Z.gtb_ltb.
  destruct (Z.ltb_spec (MaxUint64 - prev) sd); [done|].
  destruct (Empty r1); [intros [= <-]; simpl; split_and!; (done || zlia)|].
  destruct (r_Varint r1) as [[ed r2]|] eqn:E2; simpl; [|done].
  apply r_Varint_snd in E2 as [He Hw2]; [|done]. rewrite Z.gtb_ltb.
  destruct (Z.ltb_spec (MaxUint64 - (prev + sd)) ed); [done|].
  destruct (parse_ranges fuel (prev + sd + ed) r2) as [l'|] eqn:E; simpl; [|done].
  intros [= <-]. simpl. split_and!; try zlia. apply IH in E; [done|done|zlia].
Qed.

Lemma parse_ranges_plain fuel : forall prev r e,
  (length (buf r) - off r <= fuel)%nat -> parse_ranges fuel prev r = Err e ->
  plain e = true /\ errors_Is e ErrInvalidFilter = true.
Proof.
  induction fuel as [|fuel IH]; intros prev r e Hf; simpl.
  { unfold Empty. destruct (Nat.leb_spec (length (buf r)) (off r)); [done|lia]. }
  destruct (Empty r); [done|].
  assert (Hv : forall m r e, r_Varint r = Err e ->
    plain (Wrapf2 m ErrInvalidFilter e) = true /\
    errors_Is (Wrapf2 m ErrInvalidFilter e) ErrInvalidFilter = true).
  { intros m r' e' E. unfold r_Varint in E. destruct (ParseVarint _) as [[]|e''] eqn:Ev; [done|].
    apply parse_varint_err in Ev as ->. simpl in E. simplify_eq. done. }
  destruct (r_Varint r) as [[sd r1]|] eqn:E1; simpl; [|intros [= <-]; by eapply Hv].
  destruct (sd >? _); [by intros [= <-]|]. destruct (Empty r1); [done|].
  destruct (r_Varint r1) as [[ed r2]|] eqn:E2; simpl; [|intros [= <-]; by eapply Hv].
  destruct (ed >? _); [by intros [= <-]|].
  destruct (parse_ranges fuel _ r2) as [l|e'] eqn:E; simpl; [done|]. intros [= <-].
  apply r_Varint_forward in E1 as [Hb1 Ho1], E2 as [Hb2 Ho2]. apply IH in E; [done|].
  rewrite Hb2, Hb1. lia.
Qed.

Lemma e_ranges_length l : forall prev, wf_ranges prev l -> (length l <= length (e_ranges prev l))%nat.
Proof.
  induction l as [|rg l IH]; intros prev Hw; simpl in *; [lia|].
  rewrite length_app. pose proof (e_Varint_length (u64 (Start rg - prev)) (u64_range _)).
  destruct Hw as (_ & _ & Hw). destruct (Open rg); [destruct Hw as [_ ->]; simpl; lia|].
  destruct Hw as (_ & _ & Hw). rewrite length_app. specialize (IH _ Hw). lia.
Qed.

Lemma rf_Bytes_e f : rf_Bytes f = e_UInt8 (SetID f) ++
  (if hasPropertyType (rf_Type f) then e_Varint (PropertyType f) else []) ++ e_ranges 0 (Ranges f).
Proof.
  unfold rf_Bytes, rf_Append. cbv zeta. rewrite append_ranges_app.
  destruct (hasPropertyType (rf_Type f)); wnorm; done.
Qed.

Lemma ParseRangeFilter_roundtrip f : wf_rf f ->
  ParseRangeFilter (rf_Type f) (rf_Bytes f) = Ok f.
Proof.
  intros (Hs & Hp & Hp0 & Hl). unfold ParseRangeFilter. rewrite rf_Bytes_e.
  set (e1 := if hasPropertyType (rf_Type f) then _ else _).
  set (b := e_UInt8 (SetID f) ++ e1 ++ e_ranges 0 (Ranges f)).
  assert (Hb : rest (NewReader b) = e_UInt8 (SetID f) ++ e1 ++ e_ranges 0 (Ranges f)) by apply drop_0.
  destruct (at_rest (NewReader b) _ _ (Nat.le_0_l _) Hb) as (Ha & Hb1 & Hc).
  rewrite (r_decodes_UInt8 _ Hs _ _ Ha). unfold map_err at 1, mbind at 1, result_bind at 1.
  set (r1 := MkReader (buf (NewReader b)) _) in *.
  assert (Hlen : (length (Ranges f) <= length b)%nat).
  { unfold b. rewrite !length_app. pose proof (e_ranges_length _ _ Hl). lia. }
  assert (Hl1 : (off r1 <= length (buf r1))%nat) by exact Hc. clear Hc.
  revert Hlen. generalize (length b) as fuel. intros fuel Hlen. clearbody r1.
  destruct f as [t sid pt l]; simpl in *. unfold e1 in Hb1. destruct (hasPropertyType t) eqn:Et.
  - apply r_Varint_front in Hb1 as (r2 & -> & Hr2 & Hl2 & _); [|done|done]. simpl.
    rewrite (parse_ranges_decodes l) by (done || zlia). done.
  - simpl. rewrite (parse_ranges_decodes l) by (done || zlia). simpl.
    by rewrite (Hp0 eq_refl).
Qed.

Lemma ParseRangeFilter_snd t raw g : go_len raw -> ParseRangeFilter t raw = Ok g ->
  rf_Type g = t /\ wf_rf g.
Proof.
  intros Hg. unfold ParseRangeFilter.
  destruct (r_UInt8 (NewReader raw)) as [[sid r1]|] eqn:E1; simpl; [|done].
  apply r_UInt8_snd in E1 as [Hs Hw1]; [|split; simpl; [done|lia]].
  destruct (hasPropertyType t) eqn:Et.
  - destruct (r_Varint r1) as [[pt r2]|] eqn:E2; simpl; [|done].
    apply r_Varint_snd in E2 as [Hp Hw2]; [|done].
    destruct (parse_ranges _ _ r2) as [l|] eqn:E3; simpl; [|done]. intros [= <-].
    apply parse_ranges_snd in E3; [|done|zlia]. unfold wf_rf; simpl. rewrite Et. by split_and!.
  - simpl. destruct (parse_ranges _ _ r1) as [l|] eqn:E3; simpl; [|done]. intros [= <-].
    apply parse_ranges_snd in E3; [|done|zlia]. unfold wf_rf; simpl. split_and!; (done || zlia).
Qed.

Lemma ParseRangeFilter_err t raw e : ParseRangeFilter t raw = Err e ->
  plain e = true /\ errors_Is e ErrInvalidFilter = true.
Proof.
  unfold ParseRangeFilter. destruct (r_UInt8 (NewReader raw)) as [[sid r1]|e1] eqn:E1; simpl.
  2: { intros [= <-]. apply plain_r_UInt8 in E1. split; [|done].
       unfold plain in *. simpl. by destruct e1. }
  pose proof (forward_r_UInt8 _ _ _ E1) as [Hb1 Ho1]. simpl in *.
  assert (Hpr : forall r, buf r = raw -> forall e, parse_ranges (length raw) 0 r = Err e ->
    plain e = true /\ errors_Is e ErrInvalidFilter = true).
  { intros r Hb e' He. apply parse_ranges_plain in He; [done|]. rewrite Hb. lia. }
  destruct (hasPropertyType t).
  - destruct (r_Varint r1) as [[pt r2]|e2] eqn:E2; simpl.
    + apply r_Varint_forward in E2 as [Hb2 _].
      destruct (parse_ranges _ 0 r2) eqn:E3; simpl; [done|]. intros [= <-].
      apply (Hpr r2); [congruence|done].
    + intros [= <-]. unfold r_Varint in E2.
      destruct (ParseVarint _) as [[]|] eqn:Ev; [done|]. apply parse_varint_err in Ev as ->.
      simpl in E2. by simplify_eq.
  - simpl. destruct (parse_ranges _ 0 r1) eqn:E3; simpl; [done|]. intros [= <-].
    by apply (Hpr r1).
Qed.

(** In a filter a parse yields, ranges are never the reason [Validate] refuses it
    unless they are priorities. *)
Lemma validate_ranges_parsed t l : forall prev, wf_ranges prev l -> t <> ParamPriorityFilter ->
  validate_ranges t l = Ok tt.
Proof.
  intros prev Hw Ht. apply Z.eqb_neq in Ht. revert prev Hw.
  induction l as [|rg l IH]; intros prev; simpl; [done|]. rewrite Ht. simpl.
  intros (_ & _ & Hw). destruct (Open rg); simpl.
  - destruct Hw as [_ ->]. done.
  - destruct Hw as (_ & _ & Hw). by eapply IH.
Qed.

(** ** Grouping by SetID *)

Definition ranges_of (l : list RangeFilter) : Z := foldr (fun f n => len (Ranges f) + n) 0 l.
Definition has_type (t : Z) (l : list RangeFilter) : bool := existsb (fun f => rf_Type f =? t) l.

(** What the building loop knows after the filters [l]. *)
Record binv (l : list RangeFilter) (b : build_state) : Prop := {
  bi_group i g : groups (b_set b) !! i = Some g ->
    b_idx b !! g_setID g = Some i /\ g_filters g = filter (fun f => SetID f = g_setID g) l;
  bi_idx s i : b_idx b !! s = Some i ->
    exists g, groups (b_set b) !! i = Some g /\ g_setID g = s;
  bi_dom s : is_Some (b_idx b !! s) <-> exists f, f ∈ l /\ SetID f = s;
  bi_total : totalRanges (b_set b) = ranges_of l;
  bi_obj : hasObjectProperty (b_set b) = has_type ParamObjectPropertyFilter l;
  bi_track : hasTrackProperty (b_set b) = has_type ParamTrackPropertyFilter l;
  bi_seen k : k ∈ b_seen b <-> k ∈ key_of <$> l;
  bi_nodup : NoDup (key_of <$> l);
}.

Lemma binv0 : binv [] build0.
Proof.
  split; simpl; try done.
  - intros s. rewrite lookup_empty. split; [by intros [? ?]|]. intros (f & Hf & _). by apply elem_of_nil in Hf.
  - intros k. rewrite elem_of_empty, elem_of_nil. done.
  - constructor.
Qed.

Lemma ranges_of_app l f : ranges_of (l ++ [f]) = ranges_of l + len (Ranges f).
Proof. unfold ranges_of. induction l as [|g l IH]; simpl; [lia|]. rewrite IH. lia. Qed.

Lemma has_type_app t l f : has_type t (l ++ [f]) = has_type t l || (rf_Type f =? t).
Proof. unfold has_type. rewrite existsb_app. simpl. by rewrite orb_false_r. Qed.

Lemma filter_set_snoc (l : list RangeFilter) f s :
  filter (fun f => SetID f = s) (l ++ [f]) =
  filter (fun f => SetID f = s) l ++ (if decide (SetID f = s) then [f] else []).
Proof. by rewrite filter_app. Qed.

(** The group list and index after a filter of SetID [sid] found, or opened,
    its group at [gi]. *)
Definition ginv (l : list RangeFilter) (gs : list rangeGroup) (idx : gmap Z nat) : Prop :=
  (forall i g, gs !! i = Some g ->
     idx !! g_setID g = Some i /\ g_filters g = filter (fun f => SetID f = g_setID g) l) /\
  (forall s i, idx !! s = Some i -> exists g, gs !! i = Some g /\ g_setID g = s).

Lemma ginv_open l gs idx sid : ginv l gs idx -> idx !! sid = None ->
  (forall f, f ∈ l -> is_Some (idx !! SetID f)) ->
  ginv l (gs ++ [MkGroup sid []]) (<[sid := length gs]> idx).
Proof.
  intros [H1 H2] Hn Hd. split.
  - intros i g Hg. apply lookup_app_Some in Hg as [Hg|[Hi Hg]].
    + destruct (H1 _ _ Hg) as [Ha Hb]. split; [|done].
      rewrite lookup_insert_ne; [done|]. intros E. congruence.
    + apply list_lookup_singleton_Some in Hg as [Hi0 <-]. simpl. split.
      * rewrite lookup_insert_eq. f_equal. lia.
      * symmetry. apply filter_none. intros f Hf E. destruct (Hd f Hf). congruence.
  - intros s i Hs. destruct (decide (s = sid)) as [->|Hne].
    + rewrite lookup_insert_eq in Hs. injection Hs as <-. exists (MkGroup sid []). split; [|done].
      by rewrite list_lookup_middle.
    + rewrite lookup_insert_ne in Hs by done. destruct (H2 _ _ Hs) as (g & Hg & <-).
      exists g. split; [|done]. by apply lookup_app_l_Some.
Qed.

Lemma ginv_append l gs idx f gi : ginv l gs idx -> idx !! SetID f = Some gi ->
  ginv (l ++ [f]) (alter (fun g => MkGroup (g_setID g) (g_filters g ++ [f])) gi gs) idx.
Proof.
  intros [H1 H2] Hi. destruct (H2 _ _ Hi) as (g0 & Hg0 & Es). split.
  - intros i g Hg. destruct (decide (i = gi)) as [->|Hne].
    + rewrite list_lookup_alter_eq, Hg0 in Hg. injection Hg as <-. simpl. rewrite Es. split; [done|].
      rewrite filter_set_snoc, decide_True by done. destruct (H1 _ _ Hg0) as [_ ->]. by rewrite Es.
    + rewrite list_lookup_alter_ne in Hg by done. destruct (H1 _ _ Hg) as [Ha Hb].
      split; [done|]. rewrite filter_set_snoc, decide_False; [by rewrite app_nil_r|].
      intros E. rewrite <- E in Ha. congruence.
  - intros s i Hs. destruct (H2 _ _ Hs) as (g & Hg & Eg). destruct (decide (i = gi)) as [->|Hne].
    + rewrite list_lookup_alter_eq, Hg. simpl. eauto.
    + rewrite list_lookup_alter_ne by done. eauto.
Qed.

Lemma build_step_inv l b f : binv l b ->
  match build_step b f with
  | Ok b' => binv (l ++ [f]) b'
  | Err e => ~ NoDup (key_of <$> l ++ [f])
  end.
Proof.
  intros [H1 H2 Hd Ht Ho Htr Hs Hn]. unfold build_step.
  destruct (bool_decide_reflect (key_of f ∈ b_seen b)) as [Hin|Hin].
  { rewrite fmap_app. intros Hnd. apply NoDup_app in Hnd as (_ & Hnd & _).
    apply (Hnd (key_of f)); [by apply Hs|]. by apply list_elem_of_singleton. }
  assert (Hg : ginv l (groups (b_set b)) (b_idx b)) by done.
  set (st := match b_idx b !! SetID f with Some gi => _ | None => _ end).
  assert (Hst : exists gi gs idx, st = (gi, gs, idx) /\ ginv l gs idx /\ idx !! SetID f = Some gi /\
    forall s, is_Some (idx !! s) <-> is_Some (b_idx b !! s) \/ s = SetID f).
  { subst st. destruct (b_idx b !! SetID f) as [gi|] eqn:E.
    - eexists _, _, _. split_and!; [done|done|done|]. intros s. split; [auto|].
      intros [?| ->]; [done|eauto].
    - eexists _, _, _. split_and!; [done| |by rewrite lookup_insert_eq|].
      + apply ginv_open; [done|done|]. intros g Hg'. apply Hd. eauto.
      + intros s. rewrite lookup_insert_is_Some. split; [intros [->|[_ ?]]; auto|].
        intros [?| ->]; [destruct (decide (SetID f = s)); auto|auto]. }
  destruct Hst as (gi & gs & idx & -> & Hg' & Hi & Hdom).
  destruct (ginv_append l gs idx f gi Hg' Hi) as [G1 G2].
  split; simpl; [done|done| | | | | |].
  - intros s. rewrite Hdom, Hd. setoid_rewrite elem_of_app. setoid_rewrite list_elem_of_singleton.
    split; [intros [(g & ? & ?)| ->]; eauto|]. intros (g & [?| ->] & <-); eauto.
  - by rewrite ranges_of_app, Ht.
  - by rewrite has_type_app, Ho.
  - by rewrite has_type_app, Htr.
  - intros k. rewrite elem_of_union, elem_of_singleton, Hs, fmap_app, elem_of_app.
    simpl. rewrite list_elem_of_singleton. tauto.
  - rewrite fmap_app. apply NoDup_app. split_and!; [done| |apply NoDup_singleton].
    intros k Hk Hk'. simpl in Hk'. apply list_elem_of_singleton in Hk' as ->. by apply Hin, Hs.
Qed.

Lemma build_loop_inv k : forall l b, binv l b ->
  match build_loop b k with
  | Ok b' => binv (l ++ k) b'
  | Err e => ~ NoDup (key_of <$> l ++ k)
  end.
Proof.
  induction k as [|f k IH]; intros l b Hb; simpl; [by rewrite app_nil_r|].
  pose proof (build_step_inv l b f Hb) as Hf. rewrite cons_middle, app_assoc.
  destruct (build_step b f) as [b1|]; simpl; [by apply IH|].
  intros Hn. apply Hf. rewrite fmap_app in Hn. by apply NoDup_app in Hn as [? _].
Qed.

(** ** Meaning of a set *)

(** One filter applied to an object of a track, whatever its scope. *)
Definition filter_pass (subgroupID objectID priority : Z) (objProps trackProps : bytes)
    (f : RangeFilter) : bool :=
  if rf_Type f =? ParamTrackPropertyFilter then property_match f (searchable true trackProps)
  else object_match f subgroupID objectID priority (searchable true objProps).

(** "SetID 0 or SetID 1 or ...": some SetID in use, all of whose filters hold. *)
Definition dnf (l : list RangeFilter) (P : RangeFilter -> bool) : Prop :=
  l = [] \/ exists id, (exists f, f ∈ l /\ SetID f = id) /\
                       forall f, f ∈ l -> SetID f = id -> P f = true.

#[global] Instance dnf_proper : Proper ((≡ₚ) ==> eq ==> iff) dnf.
Proof.
  assert (forall l k P, l ≡ₚ k -> dnf l P -> dnf k P) as H.
  { intros l k P Hp [->|(id & (f & Hf & Hi) & Hall)].
    - left. by apply Permutation_nil.
    - right. exists id. split; [exists f; by rewrite <- Hp|]. intros g. rewrite <- Hp. apply Hall. }
  intros l k Hp P ? <-. split; apply H; by rewrite Hp.
Qed.

Lemma match_groups_spec sub obj prio props mt gs : forall pre,
  match_groups gs (length pre) sub obj prio props (Some (pre ++ (mt <$> gs))) =
  Ok (existsb (fun g => mt g && matchObject g sub obj prio props) gs).
Proof.
  induction gs as [|g gs IH]; intros pre; [done|]. cbn [match_groups existsb].
  rewrite fmap_cons, list_lookup_middle by done. unfold mbind, result_bind.
  assert (Hrec : match_groups gs (S (length pre)) sub obj prio props
    (Some (pre ++ mt g :: (mt <$> gs))) =
    Ok (existsb (fun g => mt g && matchObject g sub obj prio props) gs)).
  { rewrite cons_middle, app_assoc. rewrite <- (IH (pre ++ [mt g])).
    rewrite length_app. simpl. by rewrite Nat.add_1_r. }
  destruct (mt g); simpl; [|done]. by destruct (matchObject g sub obj prio props).
Qed.

Lemma searchable_unused f w sub obj prio raw : (rf_Type f = ParamObjectPropertyFilter -> w = true) ->
  object_match f sub obj prio (searchable w raw) = object_match f sub obj prio (searchable true raw).
Proof.
  intros Hw. unfold object_match. repeat (case_match; [done|]).
  destruct (Z.eqb_spec (rf_Type f) ParamObjectPropertyFilter) as [E|]; [by rewrite Hw|done].
Qed.

Lemma group_match g sub obj prio op tp wo wt :
  (forall f, f ∈ g_filters g -> rf_Type f = ParamObjectPropertyFilter -> wo = true) ->
  (forall f, f ∈ g_filters g -> rf_Type f = ParamTrackPropertyFilter -> wt = true) ->
  matchTrack g (searchable wt tp) && matchObject g sub obj prio (searchable wo op) =
  forallb (filter_pass sub obj prio op tp) (g_filters g).
Proof.
  unfold matchTrack, matchObject. induction (g_filters g) as [|f l IH]; intros Ho Ht; [done|].
  simpl. rewrite <- IH by (intros; eauto using list_elem_of_further).
  rewrite searchable_unused by (intros; eapply Ho; eauto using list_elem_of_here).
  unfold filter_pass. destruct (Z.eqb_spec (rf_Type f) ParamTrackPropertyFilter) as [E|E].
  - rewrite (Ht f) by (done || constructor). unfold object_match. rewrite E. simpl.
    by rewrite andb_assoc.
  - simpl. destruct (object_match _ _ _ _ _); simpl; [done|]. by rewrite andb_false_r.
Qed.

Lemma has_type_true t l f : f ∈ l -> rf_Type f = t -> has_type t l = true.
Proof.
  intros Hf Ht. unfold has_type. apply existsb_exists. exists f.
  split; [by apply list_elem_of_In|]. by apply Z.eqb_eq.
Qed.

Lemma binv_dnf l b P : binv l b -> l <> [] ->
  existsb (fun g => forallb P (g_filters g)) (groups (b_set b)) = true <-> dnf l P.
Proof.
  intros [H1 H2 Hd _ _ _ _ _] Hne. rewrite existsb_exists. split.
  - intros (g & Hg & HP). apply list_elem_of_In, list_elem_of_lookup in Hg as [i Hi].
    destruct (H1 _ _ Hi) as [Hx Hf]. right. exists (g_setID g). split.
    + apply Hd. eauto.
    + intros f Hin Hs. rewrite forallb_forall in HP. apply HP.
      apply list_elem_of_In. rewrite Hf. by apply list_elem_of_filter.
  - intros [->|(id & Hin & HP)]; [done|]. apply Hd in Hin as [i Hi].
    destruct (H2 _ _ Hi) as (g & Hg & Es). exists g. split.
    + apply list_elem_of_In, list_elem_of_lookup. eauto.
    + apply forallb_forall. intros f Hf. apply list_elem_of_In in Hf.
      destruct (H1 _ _ Hg) as [_ Hfs]. rewrite Hfs in Hf. apply list_elem_of_filter in Hf as [Hs Hf].
      apply HP; [done|]. congruence.
Qed.

Lemma build_spec l : buildRangeFilterSet l = Ok None /\ l = [] \/
  (l <> [] /\ match build_loop build0 l with
   | Ok b => buildRangeFilterSet l = Ok (Some (b_set b)) /\ binv l b
   | Err e => buildRangeFilterSet l = Err e /\ ~ NoDup (key_of <$> l)
   end).
Proof.
  unfold buildRangeFilterSet. destruct (Z.eqb_spec (len l) 0) as [E|E].
  { left. split; [done|]. by apply len_zero. }
  right. split; [by intros ->|]. pose proof (build_loop_inv l [] build0 binv0) as H.
  destruct (build_loop build0 l); done.
Qed.

Lemma set_matches l s sub obj prio op tp : buildRangeFilterSet l = Ok s ->
  exists m, MatchesObjectInSets s sub obj prio op (TrackPassPerGroup s tp) = Ok m /\
    (m = true <-> dnf l (filter_pass sub obj prio op tp)).
Proof.
  intros Hs. destruct (build_spec l) as [[Hb ->]|[Hne Hb]].
  { rewrite Hs in Hb. simplify_eq. exists true. split; [done|]. split; [by left|done]. }
  destruct (build_loop build0 l) as [b|]; destruct Hb as [Hb Hi]; rewrite Hs in Hb; simplify_eq.
  pose proof (binv_dnf l b (filter_pass sub obj prio op tp) Hi Hne) as Hd.
  destruct Hi as [H1 H2 Hdom _ Ho Ht _ _]. unfold MatchesObjectInSets, TrackPassPerGroup.
  destruct (Z.eqb_spec (len (groups (b_set b))) 0) as [E|_].
  { apply len_zero in E. exists true. split; [done|]. split; [|done]. intros _.
    destruct l as [|f l]; [by left|]. destruct (proj2 (Hdom (SetID f))) as [i Hi]; [|].
    { exists f. split; [constructor|done]. }
    destruct (H2 _ _ Hi) as (g & Hg & _). by rewrite E in Hg. }
  eexists. split; [apply (match_groups_spec sub obj prio _ _ _ [])|]. rewrite <- Hd.
  rewrite (existsb_ext_in _ (fun g => forallb (filter_pass sub obj prio op tp) (g_filters g))).
  { done. }
  intros g Hg. apply list_elem_of_lookup in Hg as [i Hi].
  destruct (H1 _ _ Hi) as [_ Hf]. apply group_match.
  - intros f Hin Htf. rewrite Ho. rewrite Hf in Hin. apply list_elem_of_filter in Hin as [_ Hin].
    by eapply has_type_true.
  - intros f Hin Htf. rewrite Ht. rewrite Hf in Hin. apply list_elem_of_filter in Hin as [_ Hin].
    by eapply has_type_true.
Qed.

Lemma match_groups_None gs sub obj prio props : forall i,
  match_groups gs i sub obj prio props None = Ok (existsb (fun g => matchObject g sub obj prio props) gs).
Proof.
  induction gs as [|g gs IH]; intros i; [done|]. cbn [match_groups existsb]. unfold mbind, result_bind; simpl.
  destruct (matchObject _ _ _ _ _); [done|apply IH].
Qed.

(** Matching an object alone: the object-scoped filters, whatever the track's. *)
Lemma set_matches_object l s sub obj prio op : buildRangeFilterSet l = Ok s ->
  exists m, MatchesObject s sub obj prio op = Ok m /\
    (m = true <-> dnf l (fun f => object_match f sub obj prio (searchable true op))).
Proof.
  intros Hs. destruct (build_spec l) as [[Hb ->]|[Hne Hb]].
  { rewrite Hs in Hb. simplify_eq. exists true. split; [done|]. split; [by left|done]. }
  destruct (build_loop build0 l) as [b|]; destruct Hb as [Hb Hi]; rewrite Hs in Hb; simplify_eq.
  pose proof (binv_dnf l b (fun f => object_match f sub obj prio (searchable true op)) Hi Hne) as Hd.
  destruct Hi as [H1 H2 Hdom _ Ho _ _ _]. unfold MatchesObject, MatchesObjectInSets.
  destruct (Z.eqb_spec (len (groups (b_set b))) 0) as [E|_].
  { apply len_zero in E. exists true. split; [done|]. split; [|done]. intros _.
    destruct l as [|f l]; [by left|]. destruct (proj2 (Hdom (SetID f))) as [i Hi]; [|].
    { exists f. split; [constructor|done]. }
    destruct (H2 _ _ Hi) as (g & Hg & _). by rewrite E in Hg. }
  eexists. split; [apply match_groups_None|]. rewrite <- Hd.
  rewrite (existsb_ext_in _ (fun g => forallb (fun f => object_match f sub obj prio (searchable true op)) (g_filters g)));
    [done|].
  intros g Hg. apply list_elem_of_lookup in Hg as [i Hi]. destruct (H1 _ _ Hi) as [_ Hf]. unfold matchObject.
  assert (Heq : forall f, In f (g_filters g) ->
    object_match f sub obj prio (searchable (hasObjectProperty (b_set b)) op) =
    object_match f sub obj prio (searchable true op)).
  { intros f Hin. apply searchable_unused. intros Htf. rewrite Ho. apply list_elem_of_In in Hin.
    rewrite Hf in Hin. apply list_elem_of_filter in Hin as [_ Hin]. by eapply has_type_true. }
  apply eq_iff_eq_true. rewrite !forallb_forall. split; intros Hall f Hin.
  - rewrite <- Heq by done. by apply Hall.
  - rewrite Heq by done. by apply Hall.
Qed.

(** A track filter applied to a track; other filters do not restrict it. *)
Definition track_pass (trackProps : bytes) (f : RangeFilter) : bool :=
  if rf_Type f =? ParamTrackPropertyFilter then property_match f (searchable true trackProps)
  else true.

Lemma matchTrack_pass g tp wt :
  (forall f, f ∈ g_filters g -> rf_Type f = ParamTrackPropertyFilter -> wt = true) ->
  matchTrack g (searchable wt tp) = forallb (track_pass tp) (g_filters g).
Proof.
  unfold matchTrack. induction (g_filters g) as [|f l IH]; intros Ht; [done|]. simpl.
  rewrite <- IH by (intros; eauto using list_elem_of_further). f_equal. unfold track_pass.
  destruct (Z.eqb_spec (rf_Type f) ParamTrackPropertyFilter) as [E|E]; [|done].
  by rewrite (Ht f) by (done || constructor).
Qed.

Lemma set_matches_track l s tp : buildRangeFilterSet l = Ok s ->
  MatchesTrack s tp = true <-> dnf l (track_pass tp).
Proof.
  intros Hs. destruct (build_spec l) as [[Hb ->]|[Hne Hb]].
  { rewrite Hs in Hb. simplify_eq. split; [by left|done]. }
  destruct (build_loop build0 l) as [b|]; destruct Hb as [Hb Hi]; rewrite Hs in Hb; simplify_eq.
  rewrite <- (binv_dnf l b _ Hi Hne). destruct Hi as [H1 H2 Hdom _ _ Ht _ _]. simpl.
  destruct (Z.eqb_spec (len (groups (b_set b))) 0) as [E|_].
  { apply len_zero in E. destruct l as [|f l]; [done|].
    destruct (proj2 (Hdom (SetID f))) as [i Hi]; [exists f; split; [constructor|done]|].
    destruct (H2 _ _ Hi) as (g & Hg & _). by rewrite E in Hg. }
  rewrite (existsb_ext_in _ (fun g => forallb (track_pass tp) (g_filters g))); [done|].
  intros g Hg. apply list_elem_of_lookup in Hg as [i Hi]. destruct (H1 _ _ Hi) as [_ Hf].
  apply matchTrack_pass. intros f Hin Htf. rewrite Ht. rewrite Hf in Hin.
  apply list_elem_of_filter in Hin as [_ Hin]. by eapply has_type_true.
Qed.

(** The groups hold the filters of the request, each once. *)
Lemma binv_filters l b : binv l b -> set_filters (Some (b_set b)) ≡ₚ l.
Proof.
  intros [H1 H2 Hd _ _ _ _ _]. simpl. set (gs := groups (b_set b)) in *.
  transitivity (mjoin ((fun i => filter (fun f => SetID f = i) l) <$> (g_setID <$> gs))).
  - apply reflexive_eq. f_equal. rewrite <- list_fmap_compose. apply list_fmap_ext.
    intros i g Hg. by apply (H1 i g).
  - apply filter_classes.
    + apply NoDup_alt. intros i j s Hi Hj. rewrite list_lookup_fmap_Some in Hi, Hj.
      destruct Hi as (gi & -> & Hi), Hj as (gj & E & Hj).
      destruct (H1 _ _ Hi) as [Ii _], (H1 _ _ Hj) as [Ij _]. rewrite E in Ii. congruence.
    + intros f Hf. destruct (proj2 (Hd (SetID f))) as [i Hi]; [eauto|].
      destruct (H2 _ _ Hi) as (g & Hg & <-). apply list_elem_of_fmap. exists g. split; [done|].
      by eapply list_elem_of_lookup_2.
Qed.

Lemma build_filters l s : buildRangeFilterSet l = Ok s -> set_filters s ≡ₚ l.
Proof.
  intros Hs. destruct (build_spec l) as [[Hb ->]|[Hne Hb]].
  { rewrite Hs in Hb. by simplify_eq. }
  destruct (build_loop build0 l) as [b|]; destruct Hb as [Hb Hi]; rewrite Hs in Hb; simplify_eq.
  by apply binv_filters.
Qed.

(** ** Theorems *)

(** Range Filters round-trip.  The value of a filter whose ranges are in order
    and whose last one alone may be open parses back to it; every value a parse
    accepts has that shape, so [Validate] refuses a parsed filter only for its
    property type or for a priority; a value the parse refuses is an
    INVALID_FILTER error. *)
Theorem range_filter_codec f t raw : wf_rf f -> go_len raw ->
  ParseRangeFilter (rf_Type f) (rf_Bytes f) = Ok f /\
  match ParseRangeFilter t raw with
  | Ok g => rf_Type g = t /\ wf_rf g /\ ParseRangeFilter t (rf_Bytes g) = Ok g /\
      (t <> ParamPriorityFilter -> hasPropertyType t = false -> rf_Validate g = Ok tt)
  | Err e => plain e = true /\ errors_Is e ErrInvalidFilter = true
  end.
Proof.
  intros Hf Hraw. split; [by apply ParseRangeFilter_roundtrip|].
  destruct (ParseRangeFilter t raw) as [g|e] eqn:E; [|by eapply ParseRangeFilter_err].
  apply ParseRangeFilter_snd in E as [<- Hg]; [|done].
  split_and!; [done|done|by apply ParseRangeFilter_roundtrip|].
  intros Ht Hp. unfold rf_Validate. rewrite Hp. simpl.
  by eapply validate_ranges_parsed, Ht; apply Hg.
Qed.

Lemma range_filter_codec_witness :
  let f := MkRF ParamObjectIDFilter 1 0 [MkRange 3 5 false; MkRange 9 0 true] in
  wf_rf f /\ ParseRangeFilter (rf_Type f) (rf_Bytes f) = Ok f.
Proof.
  intros f. assert (Hf : wf_rf f).
  { split; [by_decide|]. split; [by_decide|]. split; [done|by_decide]. }
  split; [exact Hf|].
  exact (proj1 (range_filter_codec f ParamObjectIDFilter [] Hf ltac:(reflexivity))).
Defined.

(** C40: the grouped matching computes the documented formula.  For a set built
    from any filters, matching an object of a track, with the per-group track
    results computed once, never indexes out of range, and holds iff there are
    no filters or every filter of some SetID in use holds, object-scoped ones of
    the object and track-scoped ones of the track; matching a track alone is the
    same formula with the object-scoped filters left out. *)
Theorem range_filter_semantics l s sub obj prio op tp : buildRangeFilterSet l = Ok s ->
  exists m, MatchesObjectInSets s sub obj prio op (TrackPassPerGroup s tp) = Ok m /\
    (m = true <-> dnf l (filter_pass sub obj prio op tp)) /\
    (MatchesTrack s tp = true <-> dnf l (track_pass tp)).
Proof.
  intros Hs. destruct (set_matches l s sub obj prio op tp Hs) as (m & Hm & Hd). exists m.
  split_and!; [done|done|]. by apply set_matches_track.
Qed.

Lemma range_filter_semantics_witness :
  let l := [MkRF ParamObjectIDFilter 1 0 [MkRange 3 5 false];
            MkRF ParamSubgroupFilter 1 0 [MkRange 7 0 true];
            MkRF ParamPriorityFilter 2 0 [MkRange 0 0 false]] in
  exists s, buildRangeFilterSet l = Ok s /\ MatchesObject s 8 4 9 [] = Ok true /\
    MatchesObject s 6 4 9 [] = Ok false /\
    exists m, MatchesObjectInSets s 8 4 9 [] (TrackPassPerGroup s []) = Ok m /\
      (m = true <-> dnf l (filter_pass 8 4 9 [] [])) /\
      (MatchesTrack s [] = true <-> dnf l (track_pass [])).
Proof.
  intros l. eexists. split; [vm_compute; reflexivity|].
  split; [vm_compute; reflexivity|]. split; [vm_compute; reflexivity|].
  apply (range_filter_semantics l). vm_compute. reflexivity.
Defined.

(** Building and updating a request's filter set.  Building fails, with
    INVALID_FILTER, exactly on a repeated (type, SetID, property type); the
    MAX_FILTER_RANGES limit counts every range of the request; and after a
    REQUEST_UPDATE the set means: the old filters whose parameter type the
    update does not carry, together with the new ones. *)
Theorem range_filter_update l s ps added limit : buildRangeFilterSet l = Ok s ->
  parseRangeFilters ps = Ok added ->
  let l' := filter (fun f => ~ Exists (fun p => p_Type p = rf_Type f) ps) l ++ added in
  match rs_Update s ps with
  | Ok s' =>
      NoDup (key_of <$> l') /\
      (rs_Validate s' limit = Ok tt <-> l' = [] \/ (limit <> 0 /\ ranges_of l' <= limit)) /\
      forall sub obj prio op tp, exists m,
        MatchesObjectInSets s' sub obj prio op (TrackPassPerGroup s' tp) = Ok m /\
        (m = true <-> dnf l' (filter_pass sub obj prio op tp))
  | Err e => ~ NoDup (key_of <$> l')
  end.
Proof.
  intros Hs Ha l'. unfold rs_Update. rewrite Ha. cbv zeta. unfold mbind, result_bind.
  set (k := filter _ (set_filters s) ++ added).
  assert (Hk : k ≡ₚ l') by (unfold k, l'; by rewrite (build_filters _ _ Hs)).
  clearbody k l'. assert (Hr : ranges_of k = ranges_of l').
  { clear -Hk. unfold ranges_of. induction Hk; simpl; lia. }
  assert (Hn : NoDup (key_of <$> k) <-> NoDup (key_of <$> l')) by (by rewrite Hk).
  destruct (buildRangeFilterSet k) as [s'|e] eqn:E; destruct (build_spec k) as [[Hb Hnil]|[Hne Hb]].
  - subst k. rewrite E in Hb. simplify_eq. apply Permutation_nil in Hk as ->.
    split_and!; [constructor|split; [by left|done]|]. intros. by apply set_matches.
  - assert (Hsem : forall sub obj prio op tp, exists m,
        MatchesObjectInSets s' sub obj prio op (TrackPassPerGroup s' tp) = Ok m /\
        (m = true <-> dnf l' (filter_pass sub obj prio op tp))).
    { intros. destruct (set_matches k s' sub obj prio op tp E) as (m & ? & ?).
      exists m. by rewrite <- Hk. }
    destruct (build_loop build0 k) as [b|]; destruct Hb as [Hb Hi]; rewrite E in Hb; simplify_eq.
    rewrite <- Hn, <- Hr. split_and!; [apply (bi_nodup _ _ Hi)| |done].
    simpl. rewrite (bi_total _ _ Hi), Z.gtb_ltb.
    assert (l' <> []) by (intros ->; by apply Permutation_nil_r in Hk).
    destruct (Z.eqb_spec limit 0); [split; [done|tauto]|].
    destruct (Z.ltb_spec limit (ranges_of k)); split; try done; [|auto].
    intros [?|[_ ?]]; [done|lia].
  - by rewrite E in Hb.
  - rewrite <- Hn. by destruct (build_loop build0 k) as [b|]; destruct Hb as [Hb Hi]; rewrite E in Hb.
Qed.

Lemma range_filter_update_witness :
  let l := [MkRF ParamObjectIDFilter 1 0 [MkRange 3 5 false];
            MkRF ParamSubgroupFilter 1 0 [MkRange 7 0 true]] in
  let new := MkRF ParamObjectIDFilter 1 0 [MkRange 8 0 true] in
  exists s s', buildRangeFilterSet l = Ok s /\ rs_Update s [RangeFilterParam new] = Ok s' /\
    (rs_Validate s' 2 = Ok tt <-> [MkRF ParamSubgroupFilter 1 0 [MkRange 7 0 true]; new] = [] \/
       (2 <> 0 /\ ranges_of [MkRF ParamSubgroupFilter 1 0 [MkRange 7 0 true]; new] <= 2)).
Proof.
  intros l new.
  destruct (buildRangeFilterSet l) as [s|] eqn:Es; [|vm_compute in Es; discriminate].
  pose proof (range_filter_update l s [RangeFilterParam new] [new] 2 Es
    ltac:(vm_compute; reflexivity)) as H.
  vm_compute in Es. injection Es as <-.
  destruct (rs_Update _ [RangeFilterParam new]) as [s'|] eqn:Eu; [|vm_compute in Eu; discriminate].
  eexists _, s'. split; [reflexivity|]. split; [exact Eu|]. apply H.
Defined.
