(* ===== verification/Messages.v ===== *)
(** * Messages: the control- and request-stream messages

    [message/types.go] and the files of the individual messages: the nineteen
    message types with their [Append], [Parse] and [Validate], the dispatch of
    [newMessage], and [Marshal], [Parse] and [ParsePayload].  The parsers are
    written with the sticky-error [Scanner] the code uses; lemmas turn them into
    chains of early returns. *)

From S2P Require Import Prelude Codes Varint Wire KV Filter Params.

Definition TypeSetup : Z := 12032.
Definition TypeGoaway : Z := 16.
Definition TypeSubscribe : Z := 3.
Definition TypeSubscribeOK : Z := 4.
Definition TypePublish : Z := 29.
Definition TypePublishStateNotify : Z := 34.
Definition TypePublishDone : Z := 11.
Definition TypeRequestUpdate : Z := 2.
Definition TypeRequestOK : Z := 7.
Definition TypeRequestError : Z := 5.
Definition TypeFetch : Z := 22.
Definition TypeFetchOK : Z := 24.
Definition TypeTrackStatus : Z := 13.
Definition TypePublishNamespace : Z := 6.
Definition TypeNamespace : Z := 8.
Definition TypeNamespaceDone : Z := 14.
Definition TypeSubscribeNamespace : Z := 80.
Definition TypeSubscribeTracks : Z := 81.
Definition TypePublishSkipped : Z := 15.

(** [s.Err()] before the next step. *)
Definition sc_check {A} (s : Scanner) (k : M Reader A) : result (A * Reader) :=
  match sc_err s with Some e => Err e | None => k (sc_r s) end.

(** ** SETUP and GOAWAY *)
Record Setup : Type := MkSetup { Options : list KVPair }.

Definition Setup_Append (w : Writer) (m : Setup) : result Writer := Ok (w_KVPairs w (Options m)).
Definition Setup_Parse : M Reader Setup := fun r =>
  let s := r_Scanner r in
  let '(o, s) := scan s [] r_KVPairsRemaining in
  sc_check s (mret (MkSetup o)).

Definition MaxGoawayURIBytes : Z := 8192.
Record Goaway : Type := MkGoaway { NewSessionURI : bytes; Timeout_ : Z }.

Definition Goaway_Append (w : Writer) (m : Goaway) : result Writer :=
  Ok (w_Varint (w_VarintBytes w (NewSessionURI m)) (Timeout_ m)).
Definition Goaway_Parse : M Reader Goaway := fun r =>
  let s := r_Scanner r in
  let '(uri, s) := scan s [] r_VarintBytes in
  match sc_err s with
  | Some e => Err e
  | None =>
      if len uri >? MaxGoawayURIBytes then Err (Errorf "moqt/message: GOAWAY URI too long")
      else
        let '(t, s) := scan s 0 r_Varint in
        sc_check s (mret (MkGoaway uri t))
  end.

(** ** Requests on a track *)
Record Subscribe : Type := MkSubscribe {
  sub_RequestID : Z; sub_Namespace : TrackNamespace; sub_Name : bytes; sub_Parameters : Params }.

Definition Subscribe_Append (w : Writer) (m : Subscribe) : result Writer :=
  let w := w_Varint w (sub_RequestID m) in
  let w := w_TrackNamespace w (sub_Namespace m) in
  let w := w_VarintBytes w (sub_Name m) in
  p_append w (sub_Parameters m).
Definition Subscribe_Parse : M Reader Subscribe := fun r =>
  let s := r_Scanner r in
  let '(id, s) := scan s 0 r_Varint in
  let '(ns, s) := scan s [] r_TrackNamespace in
  let '(name, s) := scan s [] r_VarintBytes in
  sc_check s (ps ← p_parse; mret (MkSubscribe id ns name ps)).

Record SubscribeOK : Type := MkSubscribeOK {
  sok_TrackAlias : Z; sok_Parameters : Params; sok_TrackProperties : bytes }.

Definition SubscribeOK_Append (w : Writer) (m : SubscribeOK) : result Writer :=
  w ← p_append (w_Varint w (sok_TrackAlias m)) (sok_Parameters m);
  Ok (w_FixedBytes w (sok_TrackProperties m)).
Definition SubscribeOK_Parse : M Reader SubscribeOK := fun r =>
  let s := r_Scanner r in
  let '(alias, s) := scan s 0 r_Varint in
  sc_check s (ps ← p_parse; tp ← r_RemainingBytes; mret (MkSubscribeOK alias ps tp)).

Record Publish : Type := MkPublish {
  pub_RequestID : Z; pub_Namespace : TrackNamespace; pub_Name : bytes; pub_TrackAlias : Z;
  pub_Parameters : Params; pub_TrackProperties : bytes }.

Definition Publish_Append (w : Writer) (m : Publish) : result Writer :=
  let w := w_Varint w (pub_RequestID m) in
  let w := w_TrackNamespace w (pub_Namespace m) in
  let w := w_VarintBytes w (pub_Name m) in
  let w := w_Varint w (pub_TrackAlias m) in
  w ← p_append w (pub_Parameters m);
  Ok (w_FixedBytes w (pub_TrackProperties m)).
Definition Publish_Parse : M Reader Publish := fun r =>
  let s := r_Scanner r in
  let '(id, s) := scan s 0 r_Varint in
  let '(ns, s) := scan s [] r_TrackNamespace in
  let '(name, s) := scan s [] r_VarintBytes in
  let '(alias, s) := scan s 0 r_Varint in
  sc_check s (ps ← p_parse; tp ← r_RemainingBytes; mret (MkPublish id ns name alias ps tp)).

Record PublishStateNotify : Type := MkPSN { psn_Parameters : Params }.

Definition PublishStateNotify_Append (w : Writer) (m : PublishStateNotify) : result Writer :=
  p_append w (psn_Parameters m).
Definition PublishStateNotify_Parse : M Reader PublishStateNotify := ps ← p_parse; mret (MkPSN ps).

Record PublishDone : Type := MkPublishDone {
  pd_StatusCode : Z; pd_StreamCount : Z; pd_ErrorReason : bytes }.

Definition PublishDone_Append (w : Writer) (m : PublishDone) : result Writer :=
  Ok (w_ReasonPhrase (w_Varint (w_Varint w (pd_StatusCode m)) (pd_StreamCount m)) (pd_ErrorReason m)).
Definition PublishDone_Parse : M Reader PublishDone := fun r =>
  let s := r_Scanner r in
  let '(code, s) := scan s 0 r_Varint in
  let '(count, s) := scan s 0 r_Varint in
  let '(reason, s) := scan s [] r_ReasonPhrase in
  sc_check s (mret (MkPublishDone code count reason)).

Record Fetch : Type := MkFetch {
  fetch_RequestID : Z; fetch_Namespace : TrackNamespace; fetch_Name : bytes;
  fetch_Parameters : Params }.

Definition Fetch_Append (w : Writer) (m : Fetch) : result Writer :=
  let w := w_Varint w (fetch_RequestID m) in
  let w := w_TrackNamespace w (fetch_Namespace m) in
  let w := w_VarintBytes w (fetch_Name m) in
  p_append w (fetch_Parameters m).
Definition Fetch_Parse : M Reader Fetch := fun r =>
  let s := r_Scanner r in
  let '(id, s) := scan s 0 r_Varint in
  let '(ns, s) := scan s [] r_TrackNamespace in
  let '(name, s) := scan s [] r_VarintBytes in
  sc_check s (ps ← p_parse; mret (MkFetch id ns name ps)).

Record FetchOK : Type := MkFetchOK {
  EndOfTrack : bool; EndLocation : Location; fok_Parameters : Params; fok_TrackProperties : bytes }.

Definition FetchOK_Append (w : Writer) (m : FetchOK) : result Writer :=
  let w := w_UInt8 w (if EndOfTrack m then 1 else 0) in
  let w := w_Varint w (Group (EndLocation m)) in
  let w := w_Varint w (Object (EndLocation m)) in
  w ← p_append w (fok_Parameters m);
  Ok (w_FixedBytes w (fok_TrackProperties m)).
Definition FetchOK_Parse : M Reader FetchOK := fun r =>
  let s := r_Scanner r in
  let '(eot, s) := scan s 0 r_UInt8 in
  let '(g, s) := scan s 0 r_Varint in
  let '(o, s) := scan s 0 r_Varint in
  sc_check s (ps ← p_parse; tp ← r_RemainingBytes; mret (MkFetchOK (eot =? 1) (MkLoc g o) ps tp)).

Record TrackStatus : Type := MkTrackStatus {
  ts_RequestID : Z; ts_Namespace : TrackNamespace; ts_Name : bytes; ts_Parameters : Params }.

Definition TrackStatus_Append (w : Writer) (m : TrackStatus) : result Writer :=
  let w := w_Varint w (ts_RequestID m) in
  let w := w_TrackNamespace w (ts_Namespace m) in
  let w := w_VarintBytes w (ts_Name m) in
  p_append w (ts_Parameters m).
Definition TrackStatus_Parse : M Reader TrackStatus := fun r =>
  let s := r_Scanner r in
  let '(id, s) := scan s 0 r_Varint in
  let '(ns, s) := scan s [] r_TrackNamespace in
  let '(name, s) := scan s [] r_VarintBytes in
  sc_check s (ps ← p_parse; mret (MkTrackStatus id ns name ps)).

(** ** Responses *)
Record RequestUpdate : Type := MkRequestUpdate { ru_RequestID : Z; ru_Parameters : Params }.

Definition RequestUpdate_Append (w : Writer) (m : RequestUpdate) : result Writer :=
  p_append (w_Varint w (ru_RequestID m)) (ru_Parameters m).
Definition RequestUpdate_Parse : M Reader RequestUpdate := fun r =>
  let s := r_Scanner r in
  let '(id, s) := scan s 0 r_Varint in
  sc_check s (ps ← p_parse; mret (MkRequestUpdate id ps)).

Record RequestOK : Type := MkRequestOK { rok_Parameters : Params; rok_TrackProperties : bytes }.

Definition RequestOK_Append (w : Writer) (m : RequestOK) : result Writer :=
  w ← p_append w (rok_Parameters m); Ok (w_FixedBytes w (rok_TrackProperties m)).
Definition RequestOK_Parse : M Reader RequestOK :=
  ps ← p_parse; tp ← r_RemainingBytes; mret (MkRequestOK ps tp).

Record Redirect : Type := MkRedirect {
  ConnectURI : bytes; rd_Namespace : TrackNamespace; rd_TrackName : bytes }.
Record RequestError : Type := MkRequestError {
  ErrorCode : Z; RetryInterval : Z; ErrorReason : bytes; re_Redirect : option Redirect }.

Definition RequestError_Append (w : Writer) (m : RequestError) : result Writer :=
  let w := w_Varint w (ErrorCode m) in
  let w := w_Varint w (RetryInterval m) in
  let w := w_ReasonPhrase w (ErrorReason m) in
  match re_Redirect m with
  | None => Ok w
  | Some rd =>
      Ok (w_VarintBytes (w_TrackNamespace (w_VarintBytes w (ConnectURI rd)) (rd_Namespace rd))
            (rd_TrackName rd))
  end.
Definition RequestError_Parse : M Reader RequestError := fun r =>
  let s := r_Scanner r in
  let '(code, s) := scan s 0 r_Varint in
  let '(retry, s) := scan s 0 r_Varint in
  let '(reason, s) := scan s [] r_ReasonPhrase in
  match sc_err s with
  | Some e => Err e
  | None =>
      if Empty (sc_r s) then Ok (MkRequestError code retry reason None, sc_r s)
      else
        let '(uri, s) := scan s [] r_VarintBytes in
        let '(ns, s) := scan s [] r_TrackNamespace in
        let '(name, s) := scan s [] r_VarintBytes in
        sc_check s (mret (MkRequestError code retry reason (Some (MkRedirect uri ns name))))
  end.

Definition ValidateRedirect (m : RequestError) : result unit :=
  match re_Redirect m with
  | None =>
      if ErrorCode m =? RequestRedirect
      then Err (Errorf "moqt/message: ErrorCode is REDIRECT but Redirect block is absent") else Ok tt
  | Some _ =>
      if negb (ErrorCode m =? RequestRedirect)
      then Err (Errorf "moqt/message: Redirect present but ErrorCode is not REDIRECT") else Ok tt
  end.

(** ** Namespace messages *)
Record PublishNamespace : Type := MkPublishNamespace {
  pn_RequestID : Z; pn_Namespace : TrackNamespace; pn_Parameters : Params }.

Definition PublishNamespace_Append (w : Writer) (m : PublishNamespace) : result Writer :=
  p_append (w_TrackNamespace (w_Varint w (pn_RequestID m)) (pn_Namespace m)) (pn_Parameters m).
Definition PublishNamespace_Parse : M Reader PublishNamespace := fun r =>
  let s := r_Scanner r in
  let '(id, s) := scan s 0 r_Varint in
  let '(ns, s) := scan s [] r_TrackNamespace in
  sc_check s (ps ← p_parse; mret (MkPublishNamespace id ns ps)).

Record Namespace : Type := MkNamespace { ns_Suffix : TrackNamespace }.

Definition Namespace_Append (w : Writer) (m : Namespace) : result Writer :=
  Ok (w_TrackNamespace w (ns_Suffix m)).
Definition Namespace_Parse : M Reader Namespace := fun r =>
  let s := r_Scanner r in
  let '(ns, s) := scan s [] r_TrackNamespace in sc_check s (mret (MkNamespace ns)).

Record NamespaceDone : Type := MkNamespaceDone { nsd_Suffix : TrackNamespace }.

Definition NamespaceDone_Append (w : Writer) (m : NamespaceDone) : result Writer :=
  Ok (w_TrackNamespace w (nsd_Suffix m)).
Definition NamespaceDone_Parse : M Reader NamespaceDone := fun r =>
  let s := r_Scanner r in
  let '(ns, s) := scan s [] r_TrackNamespace in sc_check s (mret (MkNamespaceDone ns)).

Record SubscribeNamespace : Type := MkSubscribeNamespace {
  sn_RequestID : Z; sn_Prefix : TrackNamespace; sn_Parameters : Params }.

Definition SubscribeNamespace_Append (w : Writer) (m : SubscribeNamespace) : result Writer :=
  p_append (w_TrackNamespace (w_Varint w (sn_RequestID m)) (sn_Prefix m)) (sn_Parameters m).
Definition SubscribeNamespace_Parse : M Reader SubscribeNamespace := fun r =>
  let s := r_Scanner r in
  let '(id, s) := scan s 0 r_Varint in
  let '(ns, s) := scan s [] r_TrackNamespace in
  sc_check s (ps ← p_parse; mret (MkSubscribeNamespace id ns ps)).

Record SubscribeTracks : Type := MkSubscribeTracks {
  st_RequestID : Z; st_Prefix : TrackNamespace; st_Parameters : Params }.

Definition SubscribeTracks_Append (w : Writer) (m : SubscribeTracks) : result Writer :=
  p_append (w_TrackNamespace (w_Varint w (st_RequestID m)) (st_Prefix m)) (st_Parameters m).
Definition SubscribeTracks_Parse : M Reader SubscribeTracks := fun r =>
  let s := r_Scanner r in
  let '(id, s) := scan s 0 r_Varint in
  let '(ns, s) := scan s [] r_TrackNamespace in
  sc_check s (ps ← p_parse; mret (MkSubscribeTracks id ns ps)).

Record PublishSkipped : Type := MkPublishSkipped { ps_Suffix : TrackNamespace; ps_TrackName : bytes }.

Definition PublishSkipped_Append (w : Writer) (m : PublishSkipped) : result Writer :=
  Ok (w_VarintBytes (w_TrackNamespace w (ps_Suffix m)) (ps_TrackName m)).
Definition PublishSkipped_Parse : M Reader PublishSkipped := fun r =>
  let s := r_Scanner r in
  let '(ns, s) := scan s [] r_TrackNamespace in
  let '(name, s) := scan s [] r_VarintBytes in
  sc_check s (mret (MkPublishSkipped ns name)).

Definition validateFullTrackName (ns : TrackNamespace) (name : bytes) : result unit :=
  if ByteLen ns + len name >? MaxFullTrackNameBytes
  then Err (Errorf "moqt/message: full track name too long") else Ok tt.

(** ** The Message interface *)
Inductive Message : Type :=
| MSetup (m : Setup) | MGoaway (m : Goaway) | MSubscribe (m : Subscribe)
| MSubscribeOK (m : SubscribeOK) | MPublish (m : Publish)
| MPublishStateNotify (m : PublishStateNotify) | MPublishDone (m : PublishDone)
| MRequestUpdate (m : RequestUpdate) | MRequestOK (m : RequestOK)
| MRequestError (m : RequestError) | MFetch (m : Fetch) | MFetchOK (m : FetchOK)
| MTrackStatus (m : TrackStatus) | MPublishNamespace (m : PublishNamespace)
| MNamespace (m : Namespace) | MNamespaceDone (m : NamespaceDone)
| MSubscribeNamespace (m : SubscribeNamespace) | MSubscribeTracks (m : SubscribeTracks)
| MPublishSkipped (m : PublishSkipped).

Definition msg_Type (m : Message) : Z :=
  match m with
  | MSetup _ => TypeSetup | MGoaway _ => TypeGoaway | MSubscribe _ => TypeSubscribe
  | MSubscribeOK _ => TypeSubscribeOK | MPublish _ => TypePublish
  | MPublishStateNotify _ => TypePublishStateNotify | MPublishDone _ => TypePublishDone
  | MRequestUpdate _ => TypeRequestUpdate | MRequestOK _ => TypeRequestOK
  | MRequestError _ => TypeRequestError | MFetch _ => TypeFetch | MFetchOK _ => TypeFetchOK
  | MTrackStatus _ => TypeTrackStatus | MPublishNamespace _ => TypePublishNamespace
  | MNamespace _ => TypeNamespace | MNamespaceDone _ => TypeNamespaceDone
  | MSubscribeNamespace _ => TypeSubscribeNamespace | MSubscribeTracks _ => TypeSubscribeTracks
  | MPublishSkipped _ => TypePublishSkipped
  end.

Definition msg_Append (w : Writer) (m : Message) : result Writer :=
  match m with
  | MSetup m => Setup_Append w m | MGoaway m => Goaway_Append w m
  | MSubscribe m => Subscribe_Append w m | MSubscribeOK m => SubscribeOK_Append w m
  | MPublish m => Publish_Append w m | MPublishStateNotify m => PublishStateNotify_Append w m
  | MPublishDone m => PublishDone_Append w m | MRequestUpdate m => RequestUpdate_Append w m
  | MRequestOK m => RequestOK_Append w m | MRequestError m => RequestError_Append w m
  | MFetch m => Fetch_Append w m | MFetchOK m => FetchOK_Append w m
  | MTrackStatus m => TrackStatus_Append w m | MPublishNamespace m => PublishNamespace_Append w m
  | MNamespace m => Namespace_Append w m | MNamespaceDone m => NamespaceDone_Append w m
  | MSubscribeNamespace m => SubscribeNamespace_Append w m
  | MSubscribeTracks m => SubscribeTracks_Append w m | MPublishSkipped m => PublishSkipped_Append w m
  end.

(** [Validate], for the messages that are validators. *)
Definition msg_Validate (m : Message) : result unit :=
  match m with
  | MSubscribe m => validateFullTrackName (sub_Namespace m) (sub_Name m)
  | MPublish m => validateFullTrackName (pub_Namespace m) (pub_Name m)
  | MFetch m => validateFullTrackName (fetch_Namespace m) (fetch_Name m)
  | MTrackStatus m => validateFullTrackName (ts_Namespace m) (ts_Name m)
  | MRequestError m => ValidateRedirect m
  | _ => Ok tt
  end.

Definition as_message {A} (f : A -> Message) (p : M Reader A) : M Reader Message :=
  x ← p; mret (f x).

(** [newMessage]: the parser of the message of a type. *)
Definition newMessage (t : Z) : result (M Reader Message) :=
  if t =? TypeSetup then Ok (as_message MSetup Setup_Parse)
  else if t =? TypeGoaway then Ok (as_message MGoaway Goaway_Parse)
  else if t =? TypeSubscribe then Ok (as_message MSubscribe Subscribe_Parse)
  else if t =? TypeSubscribeOK then Ok (as_message MSubscribeOK SubscribeOK_Parse)
  else if t =? TypePublish then Ok (as_message MPublish Publish_Parse)
  else if t =? TypePublishStateNotify then Ok (as_message MPublishStateNotify PublishStateNotify_Parse)
  else if t =? TypePublishDone then Ok (as_message MPublishDone PublishDone_Parse)
  else if t =? TypeRequestUpdate then Ok (as_message MRequestUpdate RequestUpdate_Parse)
  else if t =? TypeRequestOK then Ok (as_message MRequestOK RequestOK_Parse)
  else if t =? TypeRequestError then Ok (as_message MRequestError RequestError_Parse)
  else if t =? TypeFetch then Ok (as_message MFetch Fetch_Parse)
  else if t =? TypeFetchOK then Ok (as_message MFetchOK FetchOK_Parse)
  else if t =? TypeTrackStatus then Ok (as_message MTrackStatus TrackStatus_Parse)
  else if t =? TypePublishNamespace then Ok (as_message MPublishNamespace PublishNamespace_Parse)
  else if t =? TypeNamespace then Ok (as_message MNamespace Namespace_Parse)
  else if t =? TypeNamespaceDone then Ok (as_message MNamespaceDone NamespaceDone_Parse)
  else if t =? TypeSubscribeNamespace then Ok (as_message MSubscribeNamespace SubscribeNamespace_Parse)
  else if t =? TypeSubscribeTracks then Ok (as_message MSubscribeTracks SubscribeTracks_Parse)
  else if t =? TypePublishSkipped then Ok (as_message MPublishSkipped PublishSkipped_Parse)
  else Err (ErrUnknownType t).

Definition ParsePayload (t : Z) (payload : bytes) : result Message :=
  p ← map_err (Wrapf2 "" ErrMalformedMessage) (newMessage t);
  '(m, r) ← map_err (Wrapf2 "parsing" ErrMalformedMessage) (p (NewReader payload));
  if negb (Empty r) then Err (Wrapf "trailing bytes" ErrMalformedMessage)
  else
    _ ← map_err (Wrapf2 "validating" ErrMalformedMessage) (msg_Validate m);
    Ok m.

(** [Parse]: one frame off a stream. *)
Definition msg_Parse (src : Stream) : result (Message * Stream) :=
  '((t, payload), src) ← ReadFrame src;
  m ← ParsePayload t payload;
  Ok (m, src).

Definition Marshal (dst : bytes) (m : Message) : result bytes :=
  w ← msg_Append [] m; WriteFrame dst (msg_Type m) w.

Definition GetRequestID (m : Message) : option Z :=
  match m with
  | MSubscribe m => Some (sub_RequestID m) | MPublish m => Some (pub_RequestID m)
  | MFetch m => Some (fetch_RequestID m) | MTrackStatus m => Some (ts_RequestID m)
  | MPublishNamespace m => Some (pn_RequestID m)
  | MSubscribeNamespace m => Some (sn_RequestID m)
  | MSubscribeTracks m => Some (st_RequestID m) | MRequestUpdate m => Some (ru_RequestID m)
  | _ => None
  end.

Definition ParamsOf (m : Message) : option Params :=
  match m with
  | MSubscribe m => Some (sub_Parameters m) | MSubscribeOK m => Some (sok_Parameters m)
  | MPublish m => Some (pub_Parameters m) | MFetch m => Some (fetch_Parameters m)
  | MFetchOK m => Some (fok_Parameters m) | MTrackStatus m => Some (ts_Parameters m)
  | MRequestOK m => Some (rok_Parameters m) | MRequestUpdate m => Some (ru_Parameters m)
  | MSubscribeNamespace m => Some (sn_Parameters m) | MSubscribeTracks m => Some (st_Parameters m)
  | MPublishNamespace m => Some (pn_Parameters m) | MPublishStateNotify m => Some (psn_Parameters m)
  | _ => None
  end.

Definition ScopeOfRequest (t : Z) : Z :=
  if t =? TypeSubscribe then ScopeSubscribe
  else if t =? TypePublish then ScopePublish
  else if t =? TypeFetch then ScopeFetch
  else if t =? TypeTrackStatus then ScopeTrackStatus
  else if t =? TypeSubscribeNamespace then ScopeSubscribeNamespace
  else if t =? TypeSubscribeTracks then ScopeSubscribeTracks
  else if t =? TypePublishNamespace then ScopePublishNamespace
  else 0.

Definition ScopeOfResponse (request : Z) : Z :=
  if request =? TypeSubscribe then ScopeSubscribeOK
  else if request =? TypePublish then ScopePublishOK
  else if request =? TypeFetch then ScopeFetchOK
  else if request =? TypeTrackStatus then ScopeTrackStatusOK
  else if request =? TypeSubscribeNamespace then ScopeSubscribeNamespaceOK
  else if request =? TypeSubscribeTracks then ScopeSubscribeTracksOK
  else if request =? TypePublishNamespace then ScopePublishNamespaceOK
  else if request =? TypeRequestUpdate then ScopeRequestUpdateOK
  else 0.

Definition ScopeOfUpdate (request : Z) : Z :=
  if request =? TypeSubscribe then ScopeUpdateFromSubscriber
  else if request =? TypePublish then ScopeUpdateFromPublisher
  else if request =? TypeFetch then ScopeUpdateFetch
  else if request =? TypeTrackStatus then ScopeUpdateTrackStatus
  else if request =? TypeSubscribeNamespace then ScopeUpdateSubscribeNamespace
  else if request =? TypeSubscribeTracks then ScopeUpdateSubscribeTracks
  else if request =? TypePublishNamespace then ScopeUpdatePublishNamespace
  else 0.

(** ** Parsers as chains of early returns *)

Definition peek_Empty : M Reader bool := fun r => Ok (Empty r, r).

Definition redirect_chain : M Reader Redirect :=
  uri ← r_VarintBytes; ns ← r_TrackNamespace; name ← r_VarintBytes; mret (MkRedirect uri ns name).

(** What the parser of each message reads, in order. *)
Definition chain (m : Message) : M Reader Message :=
  match m with
  | MSetup _ => o ← r_KVPairsRemaining; mret (MSetup (MkSetup o))
  | MGoaway _ =>
      uri ← r_VarintBytes;
      _ ← guard (len uri <=? MaxGoawayURIBytes) (Errorf "moqt/message: GOAWAY URI too long");
      t ← r_Varint; mret (MGoaway (MkGoaway uri t))
  | MSubscribe _ =>
      id ← r_Varint; ns ← r_TrackNamespace; name ← r_VarintBytes; ps ← p_parse;
      mret (MSubscribe (MkSubscribe id ns name ps))
  | MSubscribeOK _ =>
      alias ← r_Varint; ps ← p_parse; tp ← r_RemainingBytes;
      mret (MSubscribeOK (MkSubscribeOK alias ps tp))
  | MPublish _ =>
      id ← r_Varint; ns ← r_TrackNamespace; name ← r_VarintBytes; alias ← r_Varint;
      ps ← p_parse; tp ← r_RemainingBytes; mret (MPublish (MkPublish id ns name alias ps tp))
  | MPublishStateNotify _ => ps ← p_parse; mret (MPublishStateNotify (MkPSN ps))
  | MPublishDone _ =>
      code ← r_Varint; count ← r_Varint; reason ← r_ReasonPhrase;
      mret (MPublishDone (MkPublishDone code count reason))
  | MRequestUpdate _ => id ← r_Varint; ps ← p_parse; mret (MRequestUpdate (MkRequestUpdate id ps))
  | MRequestOK _ => ps ← p_parse; tp ← r_RemainingBytes; mret (MRequestOK (MkRequestOK ps tp))
  | MRequestError _ =>
      code ← r_Varint; retry ← r_Varint; reason ← r_ReasonPhrase;
      e ← peek_Empty;
      if (e : bool) then mret (MRequestError (MkRequestError code retry reason None))
      else rd ← redirect_chain; mret (MRequestError (MkRequestError code retry reason (Some rd)))
  | MFetch _ =>
      id ← r_Varint; ns ← r_TrackNamespace; name ← r_VarintBytes; ps ← p_parse;
      mret (MFetch (MkFetch id ns name ps))
  | MFetchOK _ =>
      eot ← r_UInt8; g ← r_Varint; o ← r_Varint; ps ← p_parse; tp ← r_RemainingBytes;
      mret (MFetchOK (MkFetchOK (eot =? 1) (MkLoc g o) ps tp))
  | MTrackStatus _ =>
      id ← r_Varint; ns ← r_TrackNamespace; name ← r_VarintBytes; ps ← p_parse;
      mret (MTrackStatus (MkTrackStatus id ns name ps))
  | MPublishNamespace _ =>
      id ← r_Varint; ns ← r_TrackNamespace; ps ← p_parse;
      mret (MPublishNamespace (MkPublishNamespace id ns ps))
  | MNamespace _ => ns ← r_TrackNamespace; mret (MNamespace (MkNamespace ns))
  | MNamespaceDone _ => ns ← r_TrackNamespace; mret (MNamespaceDone (MkNamespaceDone ns))
  | MSubscribeNamespace _ =>
      id ← r_Varint; ns ← r_TrackNamespace; ps ← p_parse;
      mret (MSubscribeNamespace (MkSubscribeNamespace id ns ps))
  | MSubscribeTracks _ =>
      id ← r_Varint; ns ← r_TrackNamespace; ps ← p_parse;
      mret (MSubscribeTracks (MkSubscribeTracks id ns ps))
  | MPublishSkipped _ =>
      ns ← r_TrackNamespace; name ← r_VarintBytes; mret (MPublishSkipped (MkPublishSkipped ns name))
  end.

Ltac parse_eq :=
  unfold as_message, sc_check, guard, peek_Empty, redirect_chain; unfold mbind at 1, M_bind at 1;
  scanner_eq.

Lemma Goaway_chain m r : as_message MGoaway Goaway_Parse r = chain (MGoaway m) r.
Proof.
  cbn [chain]. unfold Goaway_Parse, as_message, guard, mbind at 1 2, M_bind at 1 2. cbv zeta.
  unfold r_Scanner. rewrite scan_ok. destruct (r_VarintBytes r) as [[uri r1]|]; [|done].
  cbn [sc_err sc_r]. unfold mbind at 1, M_bind at 1. rewrite Z.gtb_ltb, Z.ltb_antisym.
  destruct (len uri <=? MaxGoawayURIBytes); cbn [negb]; [|done]. unfold sc_check. scanner_eq.
Qed.

Lemma RequestError_chain m r : as_message MRequestError RequestError_Parse r = chain (MRequestError m) r.
Proof.
  cbn [chain]. unfold RequestError_Parse, as_message, mbind at 1 2, M_bind at 1 2. cbv zeta.
  unfold r_Scanner. rewrite scan_ok. destruct (r_Varint r) as [[code r1]|]; [|done].
  unfold mbind at 1, M_bind at 1. rewrite scan_ok. destruct (r_Varint r1) as [[retry r2]|]; [|done].
  unfold mbind at 1, M_bind at 1. rewrite scan_ok. destruct (r_ReasonPhrase r2) as [[reason r3]|]; [|done].
  unfold mbind at 1, M_bind at 1, peek_Empty. cbn [sc_err sc_r].
  destruct (Empty r3); [done|]. unfold sc_check, redirect_chain. scanner_eq.
Qed.

(** The type of a message selects its parser, which is its chain. *)
Lemma newMessage_chain m : exists p, newMessage (msg_Type m) = Ok p /\ forall r, p r = chain m r.
Proof.
  destruct m; (eexists; split; [reflexivity|]); intros r;
    try apply Goaway_chain; try apply RequestError_chain; cbn [chain];
    unfold Setup_Parse, Subscribe_Parse, SubscribeOK_Parse, Publish_Parse,
      PublishStateNotify_Parse, PublishDone_Parse, RequestUpdate_Parse, RequestOK_Parse,
      Fetch_Parse, FetchOK_Parse, TrackStatus_Parse, PublishNamespace_Parse,
      Namespace_Parse, NamespaceDone_Parse, SubscribeNamespace_Parse, SubscribeTracks_Parse,
      PublishSkipped_Parse; parse_eq.
Qed.

(** ** Round trip *)

Definition wf_params (ps : Params) : Prop := Forall wf_param ps /\ go_len ps.
Definition wf_redirect (rd : Redirect) : Prop :=
  go_len (ConnectURI rd) /\ wf_ns (rd_Namespace rd) /\ go_len (rd_TrackName rd).

(** The fields of a message are values its wire fields can hold. *)
Definition wf_msg (m : Message) : Prop :=
  match m with
  | MSetup m => Forall wf_kv (Options m)
  | MGoaway m => len (NewSessionURI m) <= MaxGoawayURIBytes /\ is_u64 (Timeout_ m)
  | MSubscribe m => is_u64 (sub_RequestID m) /\ wf_ns (sub_Namespace m) /\ go_len (sub_Name m) /\
      wf_params (sub_Parameters m)
  | MSubscribeOK m => is_u64 (sok_TrackAlias m) /\ wf_params (sok_Parameters m)
  | MPublish m => is_u64 (pub_RequestID m) /\ wf_ns (pub_Namespace m) /\ go_len (pub_Name m) /\
      is_u64 (pub_TrackAlias m) /\ wf_params (pub_Parameters m)
  | MPublishStateNotify m => wf_params (psn_Parameters m)
  | MPublishDone m => is_u64 (pd_StatusCode m) /\ is_u64 (pd_StreamCount m)
  | MRequestUpdate m => is_u64 (ru_RequestID m) /\ wf_params (ru_Parameters m)
  | MRequestOK m => wf_params (rok_Parameters m)
  | MRequestError m => is_u64 (ErrorCode m) /\ is_u64 (RetryInterval m) /\
      match re_Redirect m with None => True | Some rd => wf_redirect rd end
  | MFetch m => is_u64 (fetch_RequestID m) /\ wf_ns (fetch_Namespace m) /\ go_len (fetch_Name m) /\
      wf_params (fetch_Parameters m)
  | MFetchOK m => wf_loc (EndLocation m) /\ wf_params (fok_Parameters m)
  | MTrackStatus m => is_u64 (ts_RequestID m) /\ wf_ns (ts_Namespace m) /\ go_len (ts_Name m) /\
      wf_params (ts_Parameters m)
  | MPublishNamespace m => is_u64 (pn_RequestID m) /\ wf_ns (pn_Namespace m) /\ wf_params (pn_Parameters m)
  | MNamespace m => wf_ns (ns_Suffix m)
  | MNamespaceDone m => wf_ns (nsd_Suffix m)
  | MSubscribeNamespace m => is_u64 (sn_RequestID m) /\ wf_ns (sn_Prefix m) /\ wf_params (sn_Parameters m)
  | MSubscribeTracks m => is_u64 (st_RequestID m) /\ wf_ns (st_Prefix m) /\ wf_params (st_Parameters m)
  | MPublishSkipped m => wf_ns (ps_Suffix m) /\ go_len (ps_TrackName m)
  end.

(** The message a receiver sees: parameters and setup options in type order, a
    reason phrase cut to its maximum. *)
Definition norm (m : Message) : Message :=
  match m with
  | MSetup m => MSetup (MkSetup (kv_sort (Options m)))
  | MSubscribe m => MSubscribe (MkSubscribe (sub_RequestID m) (sub_Namespace m) (sub_Name m)
      (p_sort (sub_Parameters m)))
  | MSubscribeOK m => MSubscribeOK (MkSubscribeOK (sok_TrackAlias m) (p_sort (sok_Parameters m))
      (sok_TrackProperties m))
  | MPublish m => MPublish (MkPublish (pub_RequestID m) (pub_Namespace m) (pub_Name m)
      (pub_TrackAlias m) (p_sort (pub_Parameters m)) (pub_TrackProperties m))
  | MPublishStateNotify m => MPublishStateNotify (MkPSN (p_sort (psn_Parameters m)))
  | MPublishDone m => MPublishDone (MkPublishDone (pd_StatusCode m) (pd_StreamCount m)
      (truncate_reason (pd_ErrorReason m)))
  | MRequestUpdate m => MRequestUpdate (MkRequestUpdate (ru_RequestID m) (p_sort (ru_Parameters m)))
  | MRequestOK m => MRequestOK (MkRequestOK (p_sort (rok_Parameters m)) (rok_TrackProperties m))
  | MRequestError m => MRequestError (MkRequestError (ErrorCode m) (RetryInterval m)
      (truncate_reason (ErrorReason m)) (re_Redirect m))
  | MFetch m => MFetch (MkFetch (fetch_RequestID m) (fetch_Namespace m) (fetch_Name m)
      (p_sort (fetch_Parameters m)))
  | MFetchOK m => MFetchOK (MkFetchOK (EndOfTrack m) (EndLocation m) (p_sort (fok_Parameters m))
      (fok_TrackProperties m))
  | MTrackStatus m => MTrackStatus (MkTrackStatus (ts_RequestID m) (ts_Namespace m) (ts_Name m)
      (p_sort (ts_Parameters m)))
  | MPublishNamespace m => MPublishNamespace (MkPublishNamespace (pn_RequestID m) (pn_Namespace m)
      (p_sort (pn_Parameters m)))
  | MSubscribeNamespace m => MSubscribeNamespace (MkSubscribeNamespace (sn_RequestID m) (sn_Prefix m)
      (p_sort (sn_Parameters m)))
  | MSubscribeTracks m => MSubscribeTracks (MkSubscribeTracks (st_RequestID m) (st_Prefix m)
      (p_sort (st_Parameters m)))
  | MGoaway _ | MNamespace _ | MNamespaceDone _ | MPublishSkipped _ => m
  end.

Definition e_redirect (rd : Redirect) : bytes :=
  e_VarintBytes (ConnectURI rd) ++ e_TrackNamespace (rd_Namespace rd) ++ e_VarintBytes (rd_TrackName rd).

Definition e_msg (m : Message) : bytes :=
  match m with
  | MSetup m => e_KVList 0 (kv_sort (Options m))
  | MGoaway m => e_VarintBytes (NewSessionURI m) ++ e_Varint (Timeout_ m)
  | MSubscribe m => e_Varint (sub_RequestID m) ++ e_TrackNamespace (sub_Namespace m) ++
      e_VarintBytes (sub_Name m) ++ e_Params (sub_Parameters m)
  | MSubscribeOK m => e_Varint (sok_TrackAlias m) ++ e_Params (sok_Parameters m) ++ sok_TrackProperties m
  | MPublish m => e_Varint (pub_RequestID m) ++ e_TrackNamespace (pub_Namespace m) ++
      e_VarintBytes (pub_Name m) ++ e_Varint (pub_TrackAlias m) ++ e_Params (pub_Parameters m) ++
      pub_TrackProperties m
  | MPublishStateNotify m => e_Params (psn_Parameters m)
  | MPublishDone m => e_Varint (pd_StatusCode m) ++ e_Varint (pd_StreamCount m) ++
      e_VarintBytes (truncate_reason (pd_ErrorReason m))
  | MRequestUpdate m => e_Varint (ru_RequestID m) ++ e_Params (ru_Parameters m)
  | MRequestOK m => e_Params (rok_Parameters m) ++ rok_TrackProperties m
  | MRequestError m => e_Varint (ErrorCode m) ++ e_Varint (RetryInterval m) ++
      e_VarintBytes (truncate_reason (ErrorReason m)) ++
      match re_Redirect m with None => [] | Some rd => e_redirect rd end
  | MFetch m => e_Varint (fetch_RequestID m) ++ e_TrackNamespace (fetch_Namespace m) ++
      e_VarintBytes (fetch_Name m) ++ e_Params (fetch_Parameters m)
  | MFetchOK m => e_UInt8 (if EndOfTrack m then 1 else 0) ++ e_Varint (Group (EndLocation m)) ++
      e_Varint (Object (EndLocation m)) ++ e_Params (fok_Parameters m) ++ fok_TrackProperties m
  | MTrackStatus m => e_Varint (ts_RequestID m) ++ e_TrackNamespace (ts_Namespace m) ++
      e_VarintBytes (ts_Name m) ++ e_Params (ts_Parameters m)
  | MPublishNamespace m => e_Varint (pn_RequestID m) ++ e_TrackNamespace (pn_Namespace m) ++
      e_Params (pn_Parameters m)
  | MNamespace m => e_TrackNamespace (ns_Suffix m)
  | MNamespaceDone m => e_TrackNamespace (nsd_Suffix m)
  | MSubscribeNamespace m => e_Varint (sn_RequestID m) ++ e_TrackNamespace (sn_Prefix m) ++
      e_Params (sn_Parameters m)
  | MSubscribeTracks m => e_Varint (st_RequestID m) ++ e_TrackNamespace (st_Prefix m) ++
      e_Params (st_Parameters m)
  | MPublishSkipped m => e_TrackNamespace (ps_Suffix m) ++ e_VarintBytes (ps_TrackName m)
  end.

Ltac append_tac :=
  simpl; rewrite ?p_append_wf by done; unfold mbind, result_bind; wnorm; done.

Lemma msg_Append_e w m : wf_msg m -> msg_Append w m = Ok (w ++ e_msg m).
Proof.
  destruct m as [m|m|m|m|m|m|m|m|m|m|m|m|m|m|m|m|m|m|m]; destruct m; simpl; intros Hw;
    unfold wf_params in Hw; destruct_and?;
    unfold Setup_Append, Goaway_Append, Subscribe_Append, SubscribeOK_Append, Publish_Append,
      PublishStateNotify_Append, PublishDone_Append, RequestUpdate_Append, RequestOK_Append,
      RequestError_Append, Fetch_Append, FetchOK_Append, TrackStatus_Append, PublishNamespace_Append,
      Namespace_Append, NamespaceDone_Append, SubscribeNamespace_Append, SubscribeTracks_Append,
      PublishSkipped_Append; try append_tac.
  simpl. unfold e_redirect. destruct re_Redirect0; [by wnorm|]. rewrite app_nil_r. by wnorm.
Qed.

Lemma decodes_end_last {A B} (p : M Reader A) (f : A -> M Reader B) e x z :
  decodes_end p e x -> f x = mret z -> decodes_end (p ≫= f) e z.
Proof. intros H Hf r Hl Hr. by rewrite (M_bind_Ok _ _ _ _ _ (H r Hl Hr)), Hf. Qed.

Lemma decodes_end_bind_nil {A B} (p : M Reader A) (f : A -> M Reader B) e x y :
  decodes p [] x -> decodes_end (f x) e y -> decodes_end (p ≫= f) e y.
Proof. intros H1 H2. by apply (decodes_end_bind p f [] e x y). Qed.

Lemma decodes_end_p_parse ps : Forall wf_param ps -> go_len ps ->
  decodes_end p_parse (e_Params ps) (p_sort ps).
Proof. intros. by apply decodes_end_of, decodes_params. Qed.

#[export] Hint Resolve decodes_end_of decodes_end_RemainingBytes decodes_KVPairsRemaining
  decodes_end_p_parse : moq.

(** Walk a chain along an encoding. *)
Ltac dend :=
  first
    [ eapply decodes_end_last; [solve [eauto with moq]|reflexivity]
    | eapply decodes_end_bind; [solve [eauto with moq]|dend] ].

Lemma decodes_redirect rd : wf_redirect rd -> decodes redirect_chain (e_redirect rd) rd.
Proof.
  intros (? & ? & ?). destruct rd. unfold redirect_chain, e_redirect. simpl in *.
  eapply decodes_bind; [eauto with moq|]. eapply decodes_bind; [eauto with moq|].
  eapply decodes_bind_last; [eauto with moq|]. apply decodes_ret.
Qed.
#[export] Hint Resolve decodes_redirect : moq.

Lemma decodes_peek_redirect code retry reason rd :
  match rd with None => True | Some rd => wf_redirect rd end ->
  decodes_end (e ← peek_Empty;
      if (e : bool) then mret (MRequestError (MkRequestError code retry reason None))
      else rd ← redirect_chain; mret (MRequestError (MkRequestError code retry reason (Some rd))))
    (match rd with None => [] | Some rd => e_redirect rd end)
    (MRequestError (MkRequestError code retry reason rd)).
Proof.
  intros Hrd r Hl Hr. unfold peek_Empty, mbind at 1, M_bind at 1.
  rewrite Empty_rest, Hr by done. destruct rd as [rd|].
  - assert (E : bool_decide (e_redirect rd = []) = false).
    { apply bool_decide_eq_false. intros E. apply (f_equal length) in E. unfold e_redirect in E.
      unfold e_VarintBytes at 1 in E. rewrite !length_app in E. simpl in E.
      destruct Hrd as [Hg _].
      pose proof (e_Varint_length (len (ConnectURI rd)) (go_len_u64 _ Hg)). lia. }
    rewrite E. revert r Hl Hr. 
    eapply decodes_end_last; [by apply decodes_end_of, decodes_redirect|done].
  - simpl. exact (decodes_end_of _ _ _ (decodes_ret _) r Hl Hr).
Qed.

Lemma decodes_chain m : wf_msg m -> decodes_end (chain m) (e_msg m) (norm m).
Proof.
  destruct m as [m|m|m|m|m|m|m|m|m|m|m|m|m|m|m|m|m|m|m]; destruct m;
    cbn [wf_msg chain e_msg norm]; simpl; intros Hw; unfold wf_params, wf_loc in Hw; destruct_and?;
    try solve [dend].
  - unfold MaxGoawayURIBytes in *.
    eapply decodes_end_bind; [apply r_decodes_VarintBytes; unfold go_len; lia|].
    apply decodes_end_bind_nil with tt; [by apply decodes_guard, Z.leb_le|]. dend.
  - do 3 (eapply decodes_end_bind; [solve [eauto with moq]|]). by apply decodes_peek_redirect.
  - destruct EndLocation0. simpl in *.
    eapply (decodes_end_bind _ _ [_]); [apply r_decodes_UInt8; by destruct EndOfTrack0|].
    do 3 (eapply decodes_end_bind; [solve [eauto with moq]|]).
    eapply decodes_end_last; [apply decodes_end_RemainingBytes|]. by destruct EndOfTrack0.
Qed.

(** ** What a parse accepts *)

Lemma r_ReasonPhrase_snd r s r' : r_wf r -> r_ReasonPhrase r = Ok (s, r') ->
  len s <= MaxReasonPhraseBytes /\ r_wf r'.
Proof.
  intros Hw H. unfold r_ReasonPhrase in H. msnd. rewrite Z.leb_le in *. split; [lia|done].
Qed.

Lemma r_RemainingBytes_snd r s r' : r_wf r -> r_RemainingBytes r = Ok (s, r') -> r_wf r'.
Proof.
  intros [Hg Hl]. unfold r_RemainingBytes, Remaining, len. case_match; intros [= <- <-]; [done|].
  split; simpl; [done|lia].
Qed.

Ltac msg_step :=
  match goal with
  | Hw : r_wf ?r, H : r_TrackNamespace ?r = Ok _ |- _ =>
      apply (r_TrackNamespace_snd _ _ _ Hw) in H as [? ?]
  | Hw : r_wf ?r, H : p_parse ?r = Ok _ |- _ =>
      apply (p_parse_wf _ _ _ Hw) in H as (? & ? & ? & ?)
  | Hw : r_wf ?r, H : r_ReasonPhrase ?r = Ok _ |- _ =>
      apply (r_ReasonPhrase_snd _ _ _ Hw) in H as [? ?]
  | Hw : r_wf ?r, H : r_RemainingBytes ?r = Ok _ |- _ =>
      apply (r_RemainingBytes_snd _ _ _ Hw) in H
  | Hw : r_wf ?r, H : r_KVPairsRemaining ?r = Ok _ |- _ =>
      apply (r_KVPairsRemaining_snd _ _ _ Hw) in H as (? & ? & ? & ?)
  | _ => snd_step
  end.
Ltac msg_snd := mpeel; repeat (msg_step; simplify_eq).

Lemma redirect_chain_snd r rd r' : r_wf r -> redirect_chain r = Ok (rd, r') -> wf_redirect rd /\ r_wf r'.
Proof. intros Hw H. unfold redirect_chain in H. msg_snd. by split_and!. Qed.

Ltac chain_done :=
  cbn [wf_msg norm msg_Type]; simpl; unfold wf_params, wf_loc; simpl;
  rewrite ?Z.leb_le in *; split_and!;
  solve [done | by f_equal; f_equal | by rewrite truncate_reason_id].

Lemma chain_snd m0 r m r' : r_wf r -> chain m0 r = Ok (m, r') ->
  wf_msg m /\ norm m = m /\ msg_Type m = msg_Type m0.
Proof.
  intros Hw H. destruct m0; cbn [chain] in H; try (msg_snd; chain_done).
  do 4 minv H. unfold peek_Empty in *. simplify_eq. case_match.
  - msg_snd. chain_done.
  - minv H. msg_snd.
    match goal with H : redirect_chain _ = _ |- _ =>
      apply redirect_chain_snd in H as [? ?]; [|done] end. chain_done.
Qed.

Lemma plain_r_ReasonPhrase : plain_errs r_ReasonPhrase.
Proof. unfold r_ReasonPhrase. plain_tac. Qed.
Lemma plain_r_RemainingBytes : plain_errs r_RemainingBytes.
Proof. intros r e. unfold r_RemainingBytes. by case_match. Qed.
Lemma plain_peek_Empty : plain_errs peek_Empty.
Proof. done. Qed.
#[export] Hint Resolve plain_r_ReasonPhrase plain_r_RemainingBytes plain_peek_Empty : moq.

Lemma plain_redirect_chain : plain_errs redirect_chain.
Proof. unfold redirect_chain. plain_tac. Qed.
#[export] Hint Resolve plain_redirect_chain : moq.

Lemma plain_chain m : plain_errs (chain m).
Proof. destruct m; cbn [chain]; plain_tac. Qed.

(** Only the types of the message table are known. *)
Lemma newMessage_known t p : newMessage t = Ok p -> exists m, msg_Type m = t.
Proof.
  unfold newMessage. intros H.
  repeat match type of H with (if t =? ?T then _ else _) = _ =>
    destruct (Z.eqb_spec t T) as [->|_];
    [clear H; first
      [ by exists (MSetup (MkSetup [])) | by exists (MGoaway (MkGoaway [] 0))
      | by exists (MSubscribe (MkSubscribe 0 [] [] [])) | by exists (MSubscribeOK (MkSubscribeOK 0 [] []))
      | by exists (MPublish (MkPublish 0 [] [] 0 [] [])) | by exists (MPublishStateNotify (MkPSN []))
      | by exists (MPublishDone (MkPublishDone 0 0 [])) | by exists (MRequestUpdate (MkRequestUpdate 0 []))
      | by exists (MRequestOK (MkRequestOK [] [])) | by exists (MRequestError (MkRequestError 0 0 [] None))
      | by exists (MFetch (MkFetch 0 [] [] [])) | by exists (MFetchOK (MkFetchOK false (MkLoc 0 0) [] []))
      | by exists (MTrackStatus (MkTrackStatus 0 [] [] []))
      | by exists (MPublishNamespace (MkPublishNamespace 0 [] []))
      | by exists (MNamespace (MkNamespace [])) | by exists (MNamespaceDone (MkNamespaceDone []))
      | by exists (MSubscribeNamespace (MkSubscribeNamespace 0 [] []))
      | by exists (MSubscribeTracks (MkSubscribeTracks 0 [] []))
      | by exists (MPublishSkipped (MkPublishSkipped [] [])) ]|]
  end. done.
Qed.

Lemma norm_Validate m : msg_Validate (norm m) = msg_Validate m.
Proof. by destruct m. Qed.

Lemma msg_Type_u64 m : is_u64 (msg_Type m).
Proof. destruct m; by_decide. Qed.

Lemma ParsePayload_roundtrip m : wf_msg m -> msg_Validate m = Ok tt ->
  ParsePayload (msg_Type m) (e_msg m) = Ok (norm m).
Proof.
  intros Hw Hv. unfold ParsePayload. destruct (newMessage_chain m) as (p & -> & Hp). simpl.
  rewrite Hp, (decodes_NewReader _ _ _ (decodes_chain m Hw)). simpl.
  unfold Empty. simpl. rewrite Nat.leb_refl. simpl. by rewrite norm_Validate, Hv.
Qed.

(** ** Theorems *)

(** C38: control messages round-trip through a stream.  A well-formed, valid message
    of any type is marshalled by appending one frame, and parsing at that frame
    returns the message with its parameters in type order and its reason phrase
    within bounds, leaving the stream at the next frame; the only refusal is a
    payload above 65535 bytes, and encoding never panics. *)
Theorem message_roundtrip m w next : wf_msg m -> msg_Validate m = Ok tt ->
  exists p, msg_Append [] m = Ok p /\
  if decide (len p <= MaxControlMessagePayload) then
    exists f, Marshal w m = Ok (w ++ f) /\
      msg_Parse (MkStream (f ++ sbytes next) (send next)) = Ok (norm m, next)
  else exists e, Marshal w m = Err e.
Proof.
  intros Hw Hv. exists (e_msg m). rewrite (msg_Append_e [] m Hw). split; [done|].
  unfold Marshal. rewrite (msg_Append_e [] m Hw). simpl.
  destruct (decide (len (e_msg m) <= MaxControlMessagePayload)) as [Hl|Hl].
  - exists (e_Frame (msg_Type m) (e_msg m)). split; [by apply WriteFrame_ok|].
    unfold msg_Parse. rewrite (decodes_Frame _ _ (msg_Type_u64 m) Hl _ next) by done.
    simpl. by rewrite ParsePayload_roundtrip.
  - unfold WriteFrame. rewrite Z.gtb_ltb.
    destruct (Z.ltb_spec MaxControlMessagePayload (len (e_msg m))); [eauto|lia].
Qed.

Definition sample_subscribe : Message :=
  MSubscribe (MkSubscribe 4 [[Byte.x61]] [Byte.x62] [ForwardParam true; GroupOrderParam 1]).

Lemma message_roundtrip_witness :
  msg_Validate sample_subscribe = Ok tt /\
  exists f, Marshal [] sample_subscribe = Ok ([] ++ f) /\
    msg_Parse (MkStream (f ++ []) Fin) = Ok (norm sample_subscribe, MkStream [] Fin).
Proof.
  assert (Hv : msg_Validate sample_subscribe = Ok tt) by (vm_compute; reflexivity).
  assert (Hw : wf_msg sample_subscribe).
  { split; [by_decide|]. split; [by_decide|]. split; [by_decide|]. split; [|by_decide].
    apply Forall_cons; split; [apply wf_ByteParam; [reflexivity|by_decide|by_decide]|].
    apply Forall_singleton, wf_ByteParam; [reflexivity|by_decide|by_decide]. }
  split; [exact Hv|].
  destruct (message_roundtrip sample_subscribe [] (MkStream [] Fin) Hw Hv) as (p & Hp & H).
  vm_compute in Hp. injection Hp as <-. rewrite decide_True in H by by_decide. exact H.
Defined.

(** C39: what a payload parse accepts, and how it fails.  Any payload of any type
    either yields a message of that type whose fields are all in range, valid,
    already in normal form, and which re-encodes to a payload that parses to the
    same message; or fails with an error that wraps [ErrMalformedMessage]. *)
Theorem message_parse_sound t payload : go_len payload ->
  match ParsePayload t payload with
  | Ok m => msg_Type m = t /\ wf_msg m /\ norm m = m /\ msg_Validate m = Ok tt /\
      exists p, msg_Append [] m = Ok p /\ ParsePayload t p = Ok m
  | Err e => errors_Is e ErrMalformedMessage = true /\ plain e = true
  end.
Proof.
  intros Hg. destruct (ParsePayload t payload) as [m|e] eqn:E; unfold ParsePayload in E.
  - destruct (newMessage t) as [p|] eqn:Et; simpl in E; [|done].
    destruct (newMessage_known _ _ Et) as [m0 <-].
    destruct (newMessage_chain m0) as (p' & Hp' & Hc). rewrite Et in Hp'. simplify_eq.
    rewrite Hc in E. destruct (chain m0 (NewReader payload)) as [[m1 r1]|] eqn:Ec; simpl in E; [|done].
    destruct (negb (Empty r1)); [done|].
    destruct (msg_Validate m1) as [[]|] eqn:Ev; simpl in E; [|done]. simplify_eq.
    apply chain_snd in Ec as (Hw & Hn & Ht); [|split; simpl; [done|lia]].
    split_and!; [done|done|done|done|]. exists (e_msg m). rewrite (msg_Append_e [] m Hw), <- Ht.
    split; [done|]. rewrite <- Hn at 3. by apply ParsePayload_roundtrip.
  - destruct (newMessage t) as [p|e'] eqn:Et; simpl in E.
    2: { simplify_eq. unfold newMessage in Et. repeat case_match; simplify_eq. done. }
    destruct (newMessage_known _ _ Et) as [m0 <-].
    destruct (newMessage_chain m0) as (p' & Hp' & Hc). rewrite Et in Hp'. simplify_eq.
    rewrite Hc in E. destruct (chain m0 (NewReader payload)) as [[m1 r1]|e'] eqn:Ec; simpl in E.
    2: { simplify_eq. apply plain_chain in Ec. split; [done|]. unfold plain in *. simpl. done. }
    destruct (negb (Empty r1)); [by simplify_eq|].
    destruct (msg_Validate m1) as [[]|e'] eqn:Ev; simpl in E; simplify_eq.
    assert (plain e' = true); [|by split; [|unfold plain in *; simpl]].
    destruct m1; simpl in Ev; try done; unfold validateFullTrackName, ValidateRedirect in Ev;
      repeat case_match; by simplify_eq.
Qed.

Lemma message_parse_sound_witness :
  ParsePayload TypeGoaway [Byte.x00; Byte.x05] = Ok (MGoaway (MkGoaway [] 5)) /\
  wf_msg (MGoaway (MkGoaway [] 5)).
Proof.
  assert (E : ParsePayload TypeGoaway [Byte.x00; Byte.x05] = Ok (MGoaway (MkGoaway [] 5)))
    by (vm_compute; reflexivity).
  split; [exact E|].
  pose proof (message_parse_sound TypeGoaway [Byte.x00; Byte.x05] ltac:(reflexivity)) as H.
  rewrite E in H. apply H.
Defined.
