(* ===== verification/Objects.v ===== *)
(** * Objects: the data-stream and datagram codecs

    [message/subgroup.go] (the SUBGROUP_HEADER and its type byte),
    [message/subgroup_object.go], [message/fetch_object.go] and the fetch header
    of [message/fetch.go], [message/datagram.go] and [message/datastream.go].
    The object parsers are written once against the [Decoder] interface and
    proved for every decoder that obeys its laws. *)

From S2P Require Import Prelude Varint Wire KV.

(** ** Data-stream types *)
Definition PaddingStreamType : Z := 321601064.

Definition ReadDataStreamType : M Stream Z :=
  wrap_err (Wrapf "moqt/message: read uni-stream type") ReadVarint.

(** ** SUBGROUP_HEADER *)
Definition SubgroupIDImplicitZero : Z := 0.
Definition SubgroupIDImplicitFirstObject : Z := 1.
Definition SubgroupIDExplicit : Z := 2.

Record SubgroupHeader : Type := MkSubgroupHeader {
  sh_Properties : bool; sh_SubgroupIDMode : Z; sh_EndOfGroup : bool; InlinePriority : bool;
  ReplayingSubgroup : bool; sh_TrackAlias : Z; sh_GroupID : Z; sh_SubgroupID : Z;
  sh_PublisherPriority : Z
}.

Definition subgroupBitProperties : Z := 1.
Definition subgroupModeMask : Z := 6.
Definition subgroupModeShift : Z := 1.
Definition subgroupBitEndOfGroup : Z := 8.
Definition subgroupBitMandatory : Z := 16.
Definition subgroupBitDefaultPriority : Z := 32.
Definition subgroupBitFirstObject : Z := 64.

Definition sh_Type (h : SubgroupHeader) : Z :=
  let t := subgroupBitMandatory in
  let t := if sh_Properties h then Z.lor t subgroupBitProperties else t in
  let t := Z.lor t (Z.shiftl (Z.land (sh_SubgroupIDMode h) 3) subgroupModeShift) in
  let t := if sh_EndOfGroup h then Z.lor t subgroupBitEndOfGroup else t in
  let t := if negb (InlinePriority h) then Z.lor t subgroupBitDefaultPriority else t in
  if negb (ReplayingSubgroup h) then Z.lor t subgroupBitFirstObject else t.

Definition IsSubgroupHeaderType (t : Z) : bool :=
  if t >? 127 then false
  else if (Z.land t subgroupBitMandatory =? 0) || negb (Z.land t 128 =? 0) then false
  else if Z.land t subgroupModeMask =? subgroupModeMask then false
  else true.

Definition IsReservedSubgroupHeaderType (t : Z) : bool :=
  if t >? 127 then false
  else if (Z.land t subgroupBitMandatory =? 0) || negb (Z.land t 128 =? 0) then false
  else Z.land t subgroupModeMask =? subgroupModeMask.

Definition DecodeSubgroupHeaderType (t : Z) : result SubgroupHeader :=
  if negb (IsSubgroupHeaderType t) then Err (Errorf "moqt/message: invalid SUBGROUP_HEADER type")
  else Ok (MkSubgroupHeader
    (negb (Z.land t subgroupBitProperties =? 0))
    (Z.shiftr (Z.land t subgroupModeMask) subgroupModeShift)
    (negb (Z.land t subgroupBitEndOfGroup =? 0))
    (Z.land t subgroupBitDefaultPriority =? 0)
    (Z.land t subgroupBitFirstObject =? 0) 0 0 0 0).

Definition WriteSubgroupHeader (w : bytes) (h : SubgroupHeader) : bytes :=
  let buf := AppendVarint [] (sh_Type h) in
  let buf := AppendVarint buf (sh_TrackAlias h) in
  let buf := AppendVarint buf (sh_GroupID h) in
  let buf := if sh_SubgroupIDMode h =? SubgroupIDExplicit
             then AppendVarint buf (sh_SubgroupID h) else buf in
  let buf := if InlinePriority h then buf ++ [z2b (sh_PublisherPriority h)] else buf in
  w ++ buf.

Definition set_ids (h : SubgroupHeader) (alias group subgroup prio : Z) : SubgroupHeader :=
  MkSubgroupHeader (sh_Properties h) (sh_SubgroupIDMode h) (sh_EndOfGroup h) (InlinePriority h)
    (ReplayingSubgroup h) alias group subgroup prio.

Definition ReadSubgroupHeader (typ : Z) : M Stream SubgroupHeader :=
  h ← (fun s => h ← DecodeSubgroupHeaderType typ; Ok (h, s)) : M Stream SubgroupHeader;
  alias ← wrap_err (Wrapf "moqt/message: SUBGROUP_HEADER track alias") ReadVarint;
  groupID ← wrap_err (Wrapf "moqt/message: SUBGROUP_HEADER group ID") ReadVarint;
  subgroupID ← (if sh_SubgroupIDMode h =? SubgroupIDExplicit
                then wrap_err (Wrapf "moqt/message: SUBGROUP_HEADER subgroup ID") ReadVarint
                else mret (sh_SubgroupID h));
  prio ← (if InlinePriority h
          then wrap_err (Wrapf "moqt/message: SUBGROUP_HEADER publisher priority")
                 (b ← ReadFull 1; mret (b2z (default Byte.x00 (b !! 0%nat))))
          else mret (sh_PublisherPriority h));
  mret (set_ids h alias groupID subgroupID prio).

(** ** Objects on a subgroup stream *)

(** [bits.Add64(prev, delta, 1)]: sum modulo 2^64 and carry. *)
Definition NextSubgroupObjectID (prev delta : Z) : result Z :=
  let id := u64 (prev + delta + 1) in
  let carry := (prev + delta + 1) / 18446744073709551616 in
  if negb (carry =? 0) then Err (Wrapf "" ErrIDOverflow) else Ok id.

Definition ObjectStatusNormal : Z := 0.
Definition ObjectStatusEndOfGroup : Z := 3.
Definition ObjectStatusEndOfTrack : Z := 4.

Record SubgroupObject : Type := MkSubgroupObject {
  ObjectIDDelta : Z; so_Properties : bytes; so_Payload : bytes; so_ObjectStatus : Z
}.

Definition so_Append (w : Writer) (o : SubgroupObject) (hasProperties : bool) : Writer :=
  let w := w_Varint w (ObjectIDDelta o) in
  let w := if hasProperties then w_VarintBytes w (so_Properties o) else w in
  let w := w_Varint w (len (so_Payload o)) in
  if len (so_Payload o) =? 0 then w_Varint w (so_ObjectStatus o)
  else w_FixedBytes w (so_Payload o).

Definition truncated (e : error) : error := if errors_Is e EOF then ErrUnexpectedEOF else e.

Definition known_status (st : Z) : bool :=
  (st =? ObjectStatusNormal) || (st =? ObjectStatusEndOfGroup) || (st =? ObjectStatusEndOfTrack).

Definition so_Validate (o : SubgroupObject) : result unit :=
  if len (so_Payload o) =? 0 then
    if negb (known_status (so_ObjectStatus o)) then Err (Errorf "moqt/message: invalid object status")
    else if negb (so_ObjectStatus o =? ObjectStatusNormal) && (len (so_Properties o) >? 0)
    then Err (Errorf "moqt/message: object status carries properties")
    else Ok tt
  else Ok tt.

Definition IsEndOfGroup (o : SubgroupObject) : bool :=
  (len (so_Payload o) =? 0) && (so_ObjectStatus o =? ObjectStatusEndOfGroup).
Definition IsEndOfTrack (o : SubgroupObject) : bool :=
  (len (so_Payload o) =? 0) && (so_ObjectStatus o =? ObjectStatusEndOfTrack).
Definition IsTerminal (o : SubgroupObject) : bool := IsEndOfGroup o || IsEndOfTrack o.

Section SubgroupObjects.
Context {S : Type} `{!Decoder S}.

(** [truncated] inside a message. *)
Definition trunc_wrap {A} (msg : string) (p : M S A) : M S A :=
  wrap_err (fun e => Wrapf msg (truncated e)) p.

(** The header and the payload length still to be read. *)
Definition so_ParseHeader (hasProperties : bool) : M S (SubgroupObject * Z) :=
  delta ← wrap_err (Wrapf "moqt/message: object ID delta") Varint;
  props ← (if hasProperties then trunc_wrap "moqt/message: properties" VarintBytes else mret []);
  payloadLen ← trunc_wrap "moqt/message: payload length" Varint;
  status ← (if payloadLen =? 0 then trunc_wrap "moqt/message: object status" Varint else mret 0);
  mret (MkSubgroupObject delta props [] status, payloadLen).

Definition so_ParsePayload (o : SubgroupObject) (payloadLen : Z) : M S SubgroupObject :=
  if payloadLen =? 0 then mret o
  else
    payload ← trunc_wrap "moqt/message: payload" (FixedBytes (int64_of_u64 payloadLen));
    mret (MkSubgroupObject (ObjectIDDelta o) (so_Properties o) payload (so_ObjectStatus o)).

Definition so_ParseBody (on : SubgroupObject * Z) : M S SubgroupObject := so_ParsePayload on.1 on.2.

Definition so_Parse (hasProperties : bool) : M S SubgroupObject :=
  on ← so_ParseHeader hasProperties; so_ParseBody on.
End SubgroupObjects.

(** ** Objects on a fetch stream *)
Definition FetchFlagSubgroupIDMode : Z := 3.
Definition FetchFlagObjectIDDelta : Z := 4.
Definition FetchFlagGroupIDDelta : Z := 8.
Definition FetchFlagPriority : Z := 16.
Definition FetchFlagProperties : Z := 32.
Definition FetchFlagDatagram : Z := 64.
Definition FetchSubgroupIDZero : Z := 0.
Definition FetchSubgroupIDPrior : Z := 1.
Definition FetchSubgroupIDPriorPlusOne : Z := 2.
Definition FetchSubgroupIDExplicit : Z := 3.
Definition FetchEndOfNonExistentRange : Z := 140.
Definition FetchEndOfUnknownRange : Z := 268.
Definition FetchEndOfTimedOutRange : Z := 524.

Definition isEndOfRange (flags : Z) : bool :=
  (flags =? FetchEndOfNonExistentRange) || (flags =? FetchEndOfUnknownRange) ||
  (flags =? FetchEndOfTimedOutRange).

Record FetchObject : Type := MkFetchObject {
  SerializationFlags : Z; fo_GroupIDDelta : Z; fo_SubgroupID : Z; fo_ObjectIDDelta : Z;
  fo_PublisherPriority : Z; fo_Properties : bytes; ObjectPayload : bytes
}.

Definition has (flags bit : Z) : bool := negb (Z.land flags bit =? 0).
Definition SubgroupMode (flags : Z) : Z := Z.land flags FetchFlagSubgroupIDMode.
Definition hasSubgroupIDField (flags : Z) : bool :=
  (SubgroupMode flags =? FetchSubgroupIDExplicit) && negb (has flags FetchFlagDatagram).

Definition checkFetchFlags (flags : Z) : result unit :=
  if (128 <=? flags) && negb (isEndOfRange flags) then Err (Wrapf "" ErrInvalidFetchFlags) else Ok tt.

Definition fo_Validate (o : FetchObject) : result unit := checkFetchFlags (SerializationFlags o).

(** The flags as written: [&^] clears the subgroup bits of a datagram object. *)
Definition wire_flags (flags : Z) : Z :=
  if has flags FetchFlagDatagram && (flags <? 128) then Z.ldiff flags FetchFlagSubgroupIDMode else flags.

Definition fo_Append (w : Writer) (o : FetchObject) : Writer :=
  let flags := SerializationFlags o in
  let w := w_Varint w (wire_flags flags) in
  if isEndOfRange flags then w_Varint (w_Varint w (fo_GroupIDDelta o)) (fo_ObjectIDDelta o)
  else
    let w := if has flags FetchFlagGroupIDDelta then w_Varint w (fo_GroupIDDelta o) else w in
    let w := if hasSubgroupIDField flags then w_Varint w (fo_SubgroupID o) else w in
    let w := if has flags FetchFlagObjectIDDelta then w_Varint w (fo_ObjectIDDelta o) else w in
    let w := if has flags FetchFlagPriority then w_UInt8 w (fo_PublisherPriority o) else w in
    let w := if has flags FetchFlagProperties then w_VarintBytes w (fo_Properties o) else w in
    w_VarintBytes w (ObjectPayload o).

Section FetchObjects.
Context {S : Type} `{!Decoder S}.

Definition flags_ok (flags : Z) : M S unit := fun s => _ ← checkFetchFlags flags; Ok (tt, s).

(** Each field is read into [o] (a fresh object is all zeroes) when present. *)
Definition fo_Parse (o : FetchObject) : M S FetchObject :=
  flags ← Varint;
  _ ← flags_ok flags;
  if isEndOfRange flags then
    groupID ← trunc_wrap "moqt/message: end-of-range group ID" Varint;
    objectID ← trunc_wrap "moqt/message: end-of-range object ID" Varint;
    mret (MkFetchObject flags groupID (fo_SubgroupID o) objectID (fo_PublisherPriority o)
            (fo_Properties o) (ObjectPayload o))
  else
    g ← (if has flags FetchFlagGroupIDDelta then wrap_err truncated Varint else mret (fo_GroupIDDelta o));
    sg ← (if hasSubgroupIDField flags then wrap_err truncated Varint else mret (fo_SubgroupID o));
    ob ← (if has flags FetchFlagObjectIDDelta then wrap_err truncated Varint else mret (fo_ObjectIDDelta o));
    pr ← (if has flags FetchFlagPriority then wrap_err truncated UInt8 else mret (fo_PublisherPriority o));
    props ← (if has flags FetchFlagProperties then wrap_err truncated VarintBytes else mret (fo_Properties o));
    payload ← wrap_err truncated VarintBytes;
    mret (MkFetchObject flags g sg ob pr props payload).
End FetchObjects.

Definition fetch0 : FetchObject := MkFetchObject 0 0 0 0 0 [] [].

(** FETCH_HEADER *)
Definition FetchHeaderType : Z := 5.
Definition WriteFetchHeader (w : bytes) (requestID : Z) : bytes :=
  w ++ AppendVarint (AppendVarint [] FetchHeaderType) requestID.
Definition ReadFetchHeader : M Stream Z :=
  wrap_err (Wrapf "moqt/message: read FETCH_HEADER Request ID") ReadVarint.
Definition IsFetchHeaderType (typ : Z) : bool := typ =? FetchHeaderType.

(** ** Datagrams *)
Definition DatagramPropertiesBit : Z := 1.
Definition DatagramEndOfGroupBit : Z := 2.
Definition DatagramZeroObjectIDBit : Z := 4.
Definition DatagramDefaultPriorityBit : Z := 8.
Definition DatagramStatusBit : Z := 32.
Definition DatagramTypeMax : Z := 15.
Definition DatagramTypeStatusMin : Z := 32.
Definition DatagramTypeStatusMax : Z := 47.

Record ObjectDatagram : Type := MkDatagram {
  dg_Type : Z; dg_TrackAlias : Z; dg_GroupID : Z; dg_ObjectID : Z; dg_PublisherPriority : Z;
  dg_Properties : bytes; dg_ObjectStatus : Z; dg_ObjectPayload : bytes
}.

Definition IsValidDatagramType (typ : Z) : bool :=
  if (typ >? DatagramTypeStatusMax) || ((typ >? DatagramTypeMax) && (typ <? DatagramTypeStatusMin))
  then false
  else if has typ DatagramStatusBit && has typ DatagramEndOfGroupBit then false
  else true.

Definition HasProperties (d : ObjectDatagram) : bool := has (dg_Type d) DatagramPropertiesBit.
Definition HasEndOfGroup (d : ObjectDatagram) : bool := has (dg_Type d) DatagramEndOfGroupBit.
Definition HasZeroObjectID (d : ObjectDatagram) : bool := has (dg_Type d) DatagramZeroObjectIDBit.
Definition HasDefaultPriority (d : ObjectDatagram) : bool := has (dg_Type d) DatagramDefaultPriorityBit.
Definition HasStatus (d : ObjectDatagram) : bool := has (dg_Type d) DatagramStatusBit.

Definition dg_Validate (d : ObjectDatagram) : result unit :=
  if negb (IsValidDatagramType (dg_Type d)) then Err (Errorf "invalid datagram type")
  else if HasProperties d && (len (dg_Properties d) =? 0)
  then Err (Errorf "invalid datagram: PROPERTIES bit set with zero-length Properties")
  else if HasStatus d then
    if negb (known_status (dg_ObjectStatus d)) then Err (Errorf "invalid datagram: unknown object status")
    else if HasProperties d && negb (dg_ObjectStatus d =? ObjectStatusNormal)
    then Err (Errorf "invalid datagram: non-Normal status with Properties")
    else Ok tt
  else Ok tt.

Definition dg_Append (w : Writer) (d : ObjectDatagram) : Writer :=
  let w := w_Varint w (dg_Type d) in
  let w := w_Varint w (dg_TrackAlias d) in
  let w := w_Varint w (dg_GroupID d) in
  let w := if negb (HasZeroObjectID d) then w_Varint w (dg_ObjectID d) else w in
  let w := if negb (HasDefaultPriority d) then w_UInt8 w (dg_PublisherPriority d) else w in
  let w := if HasProperties d then w_VarintBytes w (dg_Properties d) else w in
  if HasStatus d then w_Varint w (dg_ObjectStatus d) else w_FixedBytes w (dg_ObjectPayload d).

(** The last field: a status that must end the datagram, or the payload. *)
Definition dg_status : M Reader Z :=
  v ← wrap_err (Wrapf "failed to read object status") r_Varint;
  e ← (fun r => Ok (Empty r, r)) : M Reader bool;
  _ ← guard e (Errorf "invalid datagram: trailing byte(s) after Object Status");
  mret v.

Definition dg_validated (d : ObjectDatagram) : M Reader ObjectDatagram := fun r =>
  _ ← dg_Validate d; Ok (d, r).

Definition dg_Parse (d : ObjectDatagram) : M Reader ObjectDatagram :=
  typ ← wrap_err (Wrapf "failed to read datagram type") r_Varint;
  _ ← guard (IsValidDatagramType typ) (Errorf "invalid datagram type");
  alias ← wrap_err (Wrapf "failed to read track alias") r_Varint;
  group ← wrap_err (Wrapf "failed to read group ID") r_Varint;
  obj ← (if negb (has typ DatagramZeroObjectIDBit)
         then wrap_err (Wrapf "failed to read object ID") r_Varint else mret 0);
  prio ← (if negb (has typ DatagramDefaultPriorityBit)
          then wrap_err (Wrapf "failed to read publisher priority") r_UInt8
          else mret (dg_PublisherPriority d));
  props ← (if has typ DatagramPropertiesBit
           then wrap_err (Wrapf "failed to read properties") r_VarintBytes
           else mret (dg_Properties d));
  if has typ DatagramStatusBit then
    st ← dg_status;
    dg_validated (MkDatagram typ alias group obj prio props st (dg_ObjectPayload d))
  else
    payload ← r_RemainingBytes;
    dg_validated (MkDatagram typ alias group obj prio props (dg_ObjectStatus d) payload).

Definition datagram0 : ObjectDatagram := MkDatagram 0 0 0 0 0 [] 0 [].

(** ** Type bytes *)

Definition type_table_ok (t : Z) : bool :=
  match DecodeSubgroupHeaderType t with
  | Ok h => (sh_Type h =? t) && (0 <=? sh_SubgroupIDMode h) && (sh_SubgroupIDMode h <=? 2) &&
            negb (IsReservedSubgroupHeaderType t)
  | Err _ => true
  end.

Lemma type_table t : 0 <= t <= 127 -> type_table_ok t = true.
Proof.
  intros Ht. assert (H : forallb type_table_ok (seqZ 0 128) = true) by (vm_compute; reflexivity).
  rewrite forallb_forall in H. apply H, list_elem_of_In, elem_of_seqZ. lia.
Qed.

Definition modes : list Z := [SubgroupIDImplicitZero; SubgroupIDImplicitFirstObject; SubgroupIDExplicit].

Lemma decode_type_spec h : sh_SubgroupIDMode h ∈ modes ->
  DecodeSubgroupHeaderType (sh_Type h) = Ok (set_ids h 0 0 0 0) /\ is_u64 (sh_Type h).
Proof.
  destruct h as [p m e ip rp a g s pr]; simpl. unfold modes. intros Hm.
  repeat (apply elem_of_cons in Hm as [->|Hm]); [..|by apply elem_of_nil in Hm];
    destruct p, e, ip, rp; (split; [reflexivity|by_decide]).
Qed.

(** ** Field-by-field decoding *)

Section DecodeFields.
Context {S : Type} `{!Decoder S, !DecoderLaws S}.

(** A field that is present when [b]. *)
Lemma decodes_opt {A} (b : bool) (p : M S A) e x d :
  (b = true -> decodes p e x) -> (b = false -> x = d) ->
  decodes (if b then p else mret d) (if b then e else []) x.
Proof. intros H1 H2. destruct b; [auto|]. rewrite H2 by done. apply decodes_ret. Qed.

Definition wf_so (hasProperties : bool) (o : SubgroupObject) : Prop :=
  is_u64 (ObjectIDDelta o) /\ len (so_Properties o) <= field_limit /\
  (hasProperties = false -> so_Properties o = []) /\ len (so_Payload o) <= field_limit /\
  is_u64 (so_ObjectStatus o) /\ (so_Payload o <> [] -> so_ObjectStatus o = 0).

Definition e_SO (o : SubgroupObject) (hasProperties : bool) : bytes :=
  e_Varint (ObjectIDDelta o) ++
  (if hasProperties then e_VarintBytes (so_Properties o) else []) ++
  e_Varint (len (so_Payload o)) ++
  (if len (so_Payload o) =? 0 then e_Varint (so_ObjectStatus o) else []) ++ so_Payload o.

Lemma field_limit_u64 (p : bytes) : len p <= field_limit -> is_u64 (len p) /\ go_len p.
Proof.
  intros H. pose proof field_limit_go. unfold go_len.
  pose proof (len_nonneg p). split; [zlia|lia].
Qed.

(** The header part of the encoding, and what it decodes to. *)
Definition e_SOHeader (o : SubgroupObject) (hasProperties : bool) : bytes :=
  e_Varint (ObjectIDDelta o) ++
  (if hasProperties then e_VarintBytes (so_Properties o) else []) ++
  e_Varint (len (so_Payload o)) ++
  (if len (so_Payload o) =? 0 then e_Varint (so_ObjectStatus o) else []).

Definition so_header (o : SubgroupObject) : SubgroupObject :=
  MkSubgroupObject (ObjectIDDelta o) (so_Properties o) [] (so_ObjectStatus o).

Lemma e_SO_split o hp : e_SO o hp = e_SOHeader o hp ++ so_Payload o.
Proof. unfold e_SO, e_SOHeader. by rewrite <- !app_assoc. Qed.

Lemma decodes_so_header hp o : wf_so hp o ->
  decodes (so_ParseHeader hp) (e_SOHeader o hp) (so_header o, len (so_Payload o)).
Proof.
  intros (Hd & Hp & Hp0 & Hpl & Hs & Hs0). unfold so_ParseHeader, e_SOHeader, so_header, trunc_wrap.
  destruct (field_limit_u64 _ Hpl) as [Hu Hg].
  eapply decodes_bind; [by apply decodes_wrap, decodes_Varint|].
  eapply decodes_bind; [eapply decodes_opt; [intros _; by apply decodes_wrap, decodes_VarintBytes|done]|].
  eapply decodes_bind; [by apply decodes_wrap, decodes_Varint|].
  eapply decodes_bind_last; [|apply decodes_ret]. apply decodes_opt.
  - intros _. by apply decodes_wrap, decodes_Varint.
  - intros E. apply Hs0. intros Hn. rewrite Hn in E. done.
Qed.

Lemma decodes_so_payload hp o : wf_so hp o ->
  decodes (so_ParsePayload (so_header o) (len (so_Payload o))) (so_Payload o) o.
Proof.
  intros Hw. pose proof Hw as (_ & _ & _ & Hpl & _ & _). destruct (field_limit_u64 _ Hpl) as [Hu Hg].
  unfold so_ParsePayload, so_header; simpl. destruct (Z.eqb_spec (len (so_Payload o)) 0) as [E|E].
  - apply len_zero in E. rewrite E. destruct o; simpl in *; subst. apply decodes_ret.
  - eapply decodes_bind_last.
    + apply decodes_wrap. pose proof (len_nonneg (so_Payload o)). unfold go_len in Hg.
      rewrite int64_small by lia. by apply decodes_FixedBytes.
    + destruct o; apply decodes_ret.
Qed.

Lemma decodes_so hp o : wf_so hp o -> decodes (so_Parse hp) (e_SO o hp) o.
Proof.
  intros Hw. rewrite e_SO_split. eapply decodes_bind; [by apply decodes_so_header|].
  by eapply decodes_so_payload.
Qed.

(** What reaches the wire of a fetch object. *)
Definition wf_fo (o : FetchObject) : Prop :=
  is_u64 (SerializationFlags o) /\ checkFetchFlags (SerializationFlags o) = Ok tt /\
  is_u64 (fo_GroupIDDelta o) /\ is_u64 (fo_SubgroupID o) /\ is_u64 (fo_ObjectIDDelta o) /\
  is_u8 (fo_PublisherPriority o) /\ len (fo_Properties o) <= field_limit /\
  len (ObjectPayload o) <= field_limit.
End DecodeFields.

(** The object as a receiver sees it: absent fields zero. *)
Definition norm_fo (o : FetchObject) : FetchObject :=
  let f := SerializationFlags o in
  if isEndOfRange f then MkFetchObject f (fo_GroupIDDelta o) 0 (fo_ObjectIDDelta o) 0 [] []
  else MkFetchObject (wire_flags f)
    (if has f FetchFlagGroupIDDelta then fo_GroupIDDelta o else 0)
    (if hasSubgroupIDField f then fo_SubgroupID o else 0)
    (if has f FetchFlagObjectIDDelta then fo_ObjectIDDelta o else 0)
    (if has f FetchFlagPriority then fo_PublisherPriority o else 0)
    (if has f FetchFlagProperties then fo_Properties o else [])
    (ObjectPayload o).

Definition e_FO (o : FetchObject) : bytes :=
  let f := SerializationFlags o in
  e_Varint (wire_flags f) ++
  (if isEndOfRange f then e_Varint (fo_GroupIDDelta o) ++ e_Varint (fo_ObjectIDDelta o)
   else
     (if has f FetchFlagGroupIDDelta then e_Varint (fo_GroupIDDelta o) else []) ++
     (if hasSubgroupIDField f then e_Varint (fo_SubgroupID o) else []) ++
     (if has f FetchFlagObjectIDDelta then e_Varint (fo_ObjectIDDelta o) else []) ++
     (if has f FetchFlagPriority then e_UInt8 (fo_PublisherPriority o) else []) ++
     (if has f FetchFlagProperties then e_VarintBytes (fo_Properties o) else []) ++
     e_VarintBytes (ObjectPayload o)).

Lemma fo_Append_e w o : fo_Append w o = w ++ e_FO o.
Proof.
  unfold fo_Append, e_FO. cbv zeta. destruct (isEndOfRange (SerializationFlags o)); [by wnorm|].
  destruct (has _ FetchFlagGroupIDDelta), (hasSubgroupIDField _), (has _ FetchFlagObjectIDDelta),
    (has _ FetchFlagPriority), (has _ FetchFlagProperties); wnorm; simpl; rewrite <- ?app_assoc; done.
Qed.

Lemma so_Append_e w o hp : so_Append w o hp = w ++ e_SO o hp.
Proof.
  unfold so_Append, e_SO. cbv zeta.
  destruct (Z.eqb_spec (len (so_Payload o)) 0) as [E|E].
  - apply len_zero in E. rewrite E. destruct hp; wnorm; simpl; by rewrite <- ?app_assoc, ?app_nil_r.
  - destruct hp; wnorm; simpl; by rewrite <- ?app_assoc.
Qed.

(** Clearing the subgroup bits of a datagram changes no field's presence. *)
Definition flags_same (f : Z) : bool :=
  let g := wire_flags f in
  forallb (fun bit => Bool.eqb (has g bit) (has f bit))
    [FetchFlagGroupIDDelta; FetchFlagObjectIDDelta; FetchFlagPriority; FetchFlagProperties;
     FetchFlagDatagram] &&
  Bool.eqb (hasSubgroupIDField g) (hasSubgroupIDField f) &&
  Bool.eqb (isEndOfRange g) (isEndOfRange f) && (0 <=? g) && (g <? 128).

Lemma flags_table f : 0 <= f < 128 -> flags_same f = true.
Proof.
  intros Hf. assert (H : forallb flags_same (seqZ 0 128) = true) by (vm_compute; reflexivity).
  rewrite forallb_forall in H. apply H, list_elem_of_In, elem_of_seqZ. lia.
Qed.

Record same_fields (g f : Z) : Prop := {
  sf_group : has g FetchFlagGroupIDDelta = has f FetchFlagGroupIDDelta;
  sf_object : has g FetchFlagObjectIDDelta = has f FetchFlagObjectIDDelta;
  sf_prio : has g FetchFlagPriority = has f FetchFlagPriority;
  sf_props : has g FetchFlagProperties = has f FetchFlagProperties;
  sf_sub : hasSubgroupIDField g = hasSubgroupIDField f;
  sf_end : isEndOfRange g = isEndOfRange f;
  sf_check : checkFetchFlags g = checkFetchFlags f;
  sf_range : is_u64 g
}.

Lemma wire_flags_same f : is_u64 f -> same_fields (wire_flags f) f.
Proof.
  intros Hf. destruct (Z.ltb_spec f 128) as [Hl|Hl].
  - pose proof (flags_table f ltac:(zlia)) as H. unfold flags_same in H. simpl in H.
    rewrite !andb_true_iff, !Bool.eqb_true_iff, Z.leb_le, Z.ltb_lt in H. destruct_and? H.
    split; try done; [|zlia]. unfold checkFetchFlags.
    destruct (Z.leb_spec 128 (wire_flags f)), (Z.leb_spec 128 f); try lia. done.
  - unfold wire_flags. replace (f <? 128) with false by (symmetry; apply Z.ltb_ge; lia).
    rewrite andb_false_r. by split.
Qed.

Lemma decodes_fo {S} `{!Decoder S, !DecoderLaws S} o : wf_fo o ->
  decodes (fo_Parse fetch0) (e_FO o) (norm_fo o).
Proof.
  intros (Hf & Hc & Hg & Hsg & Ho & Hp & Hpr & Hpl). unfold fo_Parse, e_FO, norm_fo, trunc_wrap.
  cbv zeta. destruct (wire_flags_same _ Hf) as [S1 S2 S3 S4 S5 S6 S7 S8].
  eapply decodes_bind; [by apply decodes_Varint|].
  eapply decodes_bind_nil with tt.
  { intros s s' Ha. apply at_nil in Ha. subst. unfold flags_ok. by rewrite S7, Hc. }
  rewrite S1, S2, S3, S4, S5, S6. destruct (isEndOfRange (SerializationFlags o)) eqn:Ee.
  - eapply decodes_bind; [by apply decodes_wrap, decodes_Varint|].
    eapply decodes_bind_last; [by apply decodes_wrap, decodes_Varint|].
    assert (Hw : wire_flags (SerializationFlags o) = SerializationFlags o).
    { unfold wire_flags. destruct (Z.ltb_spec (SerializationFlags o) 128); [|by rewrite andb_false_r].
      unfold isEndOfRange, FetchEndOfNonExistentRange, FetchEndOfUnknownRange,
        FetchEndOfTimedOutRange in Ee. lia. }
    rewrite Hw. apply decodes_ret.
  - eapply decodes_bind.
    { apply (decodes_opt _ _ _ (if has (SerializationFlags o) FetchFlagGroupIDDelta
        then fo_GroupIDDelta o else 0)); intros ->; [by apply decodes_wrap, decodes_Varint|done]. }
    eapply decodes_bind.
    { apply (decodes_opt _ _ _ (if hasSubgroupIDField (SerializationFlags o)
        then fo_SubgroupID o else 0)); intros ->; [by apply decodes_wrap, decodes_Varint|done]. }
    eapply decodes_bind.
    { apply (decodes_opt _ _ _ (if has (SerializationFlags o) FetchFlagObjectIDDelta
        then fo_ObjectIDDelta o else 0)); intros ->; [by apply decodes_wrap, decodes_Varint|done]. }
    eapply decodes_bind.
    { apply (decodes_opt _ _ _ (if has (SerializationFlags o) FetchFlagPriority
        then fo_PublisherPriority o else 0)); intros ->; [by apply decodes_wrap, decodes_UInt8|done]. }
    eapply decodes_bind.
    { apply (decodes_opt _ _ _ (if has (SerializationFlags o) FetchFlagProperties
        then fo_Properties o else [])); intros ->; [by apply decodes_wrap, decodes_VarintBytes|done]. }
    eapply decodes_bind_last; [by apply decodes_wrap, decodes_VarintBytes|]. apply decodes_ret.
Qed.

(** ** Streams that end inside an object *)

(** Every strict prefix of [e] makes [p] fail at the end of the stream. *)
Definition short {A} (p : M Stream A) (e : bytes) : Prop :=
  forall k, (k < length e)%nat -> exists err, p (MkStream (take k e) Fin) = Err err /\
    (err = EOF \/ err = ErrUnexpectedEOF).

(** The same, with [first] reported before the first byte and an unexpected end
    after any other. *)
Definition cut {A} (p : M Stream A) (e : bytes) (first : error) : Prop :=
  forall k, (k < length e)%nat -> exists err, p (MkStream (take k e) Fin) = Err err /\
    let want := if decide (k = 0%nat) then first else ErrUnexpectedEOF in
    errors_Is err want = true /\ (want <> EOF -> errors_Is err EOF = false).

Lemma short_Varint v : is_u64 v -> short ReadVarint (e_Varint v).
Proof.
  intros Hv k Hk. rewrite ReadVarint_truncated by done. eexists. split; [done|].
  destruct (decide (k = 0%nat)); simpl; auto.
Qed.

Lemma short_ReadFull (p : bytes) : short (ReadFull (length p)) p.
Proof.
  intros k Hk. unfold ReadFull. simpl. rewrite length_take.
  destruct (Nat.ltb_spec (k `min` length p) (length p)); [|lia].
  eexists. split; [done|]. destruct k; [by left|]. destruct p; [simpl in Hk; lia|by right].
Qed.

Lemma s_FixedBytes_ReadFull (p : bytes) s : p <> [] -> len p <= MaxStreamFieldSize ->
  s_FixedBytes (len p) s = ReadFull (length p) s.
Proof.
  intros Hp Hl. unfold s_FixedBytes. destruct (Z.eqb_spec (len p) 0) as [E|]; [by apply len_zero in E|].
  pose proof (len_nonneg p). destruct (Z.ltb_spec (len p) 0); [lia|].
  rewrite Z.gtb_ltb. destruct (Z.ltb_spec MaxStreamFieldSize (len p)); [lia|]. simpl.
  unfold len. by rewrite Nat2Z.id.
Qed.

Lemma short_FixedBytes p : len p <= MaxStreamFieldSize -> short (s_FixedBytes (len p)) p.
Proof.
  intros Hl k Hk. rewrite s_FixedBytes_ReadFull; [by apply short_ReadFull| |done].
  intros ->. simpl in Hk. lia.
Qed.

Lemma take_app_cut (e1 e2 : bytes) k : (length e1 <= k)%nat ->
  take k (e1 ++ e2) = e1 ++ take (k - length e1) e2.
Proof. intros H. rewrite take_app, take_ge by lia. done. Qed.

Lemma s_at_cut (e1 e2 : bytes) k : (length e1 <= k)%nat ->
  s_at (MkStream (take k (e1 ++ e2)) Fin) e1 (MkStream (take (k - length e1) e2) Fin).
Proof. intros H. rewrite take_app_cut by done. by split. Qed.

Lemma short_VarintBytes p : len p <= MaxStreamFieldSize -> short s_VarintBytes (e_VarintBytes p).
Proof.
  intros Hl k Hk. rewrite MaxStreamFieldSize_val in Hl. pose proof (len_nonneg p).
  assert (Hv : is_u64 (len p)) by zlia.
  unfold s_VarintBytes, mbind, M_bind, e_VarintBytes in *.
  rewrite length_app in Hk. destruct (Nat.lt_ge_cases k (length (e_Varint (len p)))) as [Hlt|Hge].
  - rewrite take_app_le by lia. destruct (short_Varint _ Hv k Hlt) as (err & -> & He). eauto.
  - pose proof (s_Varint_at _ _ _ Hv (s_at_cut (e_Varint (len p)) p k Hge)) as E. rewrite E.
    rewrite Z.gtb_ltb. rewrite MaxStreamFieldSize_val. destruct (Z.ltb_spec 16777216 (len p)); [lia|].
    rewrite int64_small by lia. apply short_FixedBytes; [by rewrite MaxStreamFieldSize_val|lia].
Qed.

Lemma cut_wrap {A} m (p : M Stream A) e first : first = EOF \/ first = ErrUnexpectedEOF ->
  cut p e first -> cut (wrap_err (Wrapf m) p) e first.
Proof.
  intros Hf H k Hk. destruct (H k Hk) as (err & He & H1 & H2). exists (Wrapf m err).
  unfold wrap_err. rewrite He. split; [done|]. destruct (decide (k = 0%nat)), Hf; subst; simpl; by split.
Qed.

Lemma cut_Varint v : is_u64 v -> cut ReadVarint (e_Varint v) EOF.
Proof.
  intros Hv k Hk. rewrite ReadVarint_truncated by done. eexists. split; [done|].
  by destruct (decide (k = 0%nat)).
Qed.

Lemma cut_eof {A} (p : M Stream A) e k : cut p e EOF -> (k < length e)%nat ->
  exists err, p (MkStream (take k e) Fin) = Err err /\
    if decide (k = 0%nat) then errors_Is err EOF = true
    else errors_Is err ErrUnexpectedEOF = true /\ errors_Is err EOF = false.
Proof.
  intros H Hk. destruct (H k Hk) as (err & He & H1 & H2). exists err. split; [done|].
  destruct (decide (k = 0%nat)); [done|]. split; [done|by apply H2].
Qed.

Lemma cut_truncated {A} (p : M Stream A) e : short p e -> cut (wrap_err truncated p) e ErrUnexpectedEOF.
Proof.
  intros H k Hk. destruct (H k Hk) as (err & He & Hor). exists ErrUnexpectedEOF.
  unfold wrap_err. rewrite He. split; [by destruct Hor as [-> | ->]|]. by destruct (decide _).
Qed.

Lemma cut_trunc_wrap {A} m (p : M Stream A) e : short p e -> cut (trunc_wrap m p) e ErrUnexpectedEOF.
Proof.
  intros H k Hk. destruct (H k Hk) as (err & He & Hor). exists (Wrapf m ErrUnexpectedEOF).
  unfold trunc_wrap, wrap_err. rewrite He. split; [by destruct Hor as [-> | ->]|].
  by destruct (decide _).
Qed.

Lemma cut_bind {A B} (p : M Stream A) (f : A -> M Stream B) e1 e2 x first :
  first = EOF \/ first = ErrUnexpectedEOF -> (e1 = [] -> first = ErrUnexpectedEOF) ->
  cut p e1 first -> decodes p e1 x -> cut (f x) e2 ErrUnexpectedEOF -> cut (p ≫= f) (e1 ++ e2) first.
Proof.
  intros Hfi Hne H1 Hd H2 k Hk. rewrite length_app in Hk. unfold mbind, M_bind.
  destruct (Nat.lt_ge_cases k (length e1)) as [Hlt|Hge].
  - rewrite take_app_le by lia. destruct (H1 k Hlt) as (err & -> & He). eauto.
  - rewrite (Hd _ _ (s_at_cut e1 e2 k Hge)). destruct (H2 (k - length e1)%nat) as (err & -> & H3 & H4); [lia|].
    exists err. split; [done|].
    assert (Hw : (if decide (k = 0%nat) then first else ErrUnexpectedEOF) = ErrUnexpectedEOF).
    { destruct (decide (k = 0%nat)); [|done]. apply Hne. destruct e1; [done|simpl in Hge; lia]. }
    rewrite Hw. by destruct (decide (_ = 0%nat)).
Qed.

Lemma cut_bind_last {A B} (p : M Stream A) (f : A -> M Stream B) e first :
  cut p e first -> cut (p ≫= f) e first.
Proof.
  intros H k Hk. unfold mbind, M_bind. destruct (H k Hk) as (err & -> & He). eauto.
Qed.

Lemma cut_opt {A} (b : bool) (p : M Stream A) e d first :
  (b = true -> cut p e first) -> cut (if b then p else mret d) (if b then e else []) first.
Proof. intros H. destruct b; [auto|]. intros k Hk. simpl in Hk. lia. Qed.

Lemma e_Varint_nonempty v : is_u64 v -> e_Varint v <> [].
Proof. intros Hv E. pose proof (e_Varint_length v Hv) as H. rewrite E in H. simpl in H. lia. Qed.

Lemma cut_so_header hp o : wf_so (S:=Stream) hp o -> cut (so_ParseHeader hp) (e_SOHeader o hp) EOF.
Proof.
  intros (Hd & Hp & Hp0 & Hpl & Hs & Hs0). destruct (field_limit_u64 _ Hpl) as [Hu Hg].
  simpl in Hp. unfold so_ParseHeader, e_SOHeader.
  eapply cut_bind; [by left|by intros ?%e_Varint_nonempty|by apply cut_wrap, cut_Varint; [left|]
    |by apply decodes_wrap, decodes_Varint|].
  eapply cut_bind; [by right|done|apply cut_opt; intros _; by apply cut_trunc_wrap, short_VarintBytes
    |eapply decodes_opt; [intros _; by apply decodes_wrap, decodes_VarintBytes|done]|].
  eapply cut_bind; [by right|done|by apply cut_trunc_wrap, short_Varint
    |by apply decodes_wrap, decodes_Varint|].
  apply cut_bind_last, cut_opt. intros _. by apply cut_trunc_wrap, short_Varint.
Qed.

Lemma cut_so hp o : wf_so (S:=Stream) hp o -> cut (so_Parse hp) (e_SO o hp) EOF.
Proof.
  intros Hw. rewrite e_SO_split. eapply cut_bind;
    [by left| |by apply cut_so_header|by apply decodes_so_header|].
  { unfold e_SOHeader. intros [? _]%app_nil. destruct Hw as [Hd _]. by apply e_Varint_nonempty in Hd. }
  destruct Hw as (_ & _ & _ & Hpl & _ & _). destruct (field_limit_u64 _ Hpl) as [Hu Hg].
  unfold so_ParseBody, so_ParsePayload. simpl in *.
  destruct (Z.eqb_spec (len (so_Payload o)) 0) as [E|E].
  - apply len_zero in E. rewrite E. intros k Hk. simpl in Hk. lia.
  - apply cut_bind_last. pose proof (len_nonneg (so_Payload o)). unfold go_len in Hg.
    rewrite int64_small by lia. by apply cut_trunc_wrap, short_FixedBytes.
Qed.

Lemma short_UInt8 v : short s_UInt8 (e_UInt8 v).
Proof. intros k Hk. destruct k; [|simpl in Hk; lia]. exists EOF. split; [done|by left]. Qed.

(** An optional field followed by the rest. *)
Lemma cut_opt_bind {A B} (b : bool) (p : M Stream A) (f : A -> M Stream B) e x d e2 :
  cut p e ErrUnexpectedEOF -> decodes p e x ->
  cut (f (if b then x else d)) e2 ErrUnexpectedEOF ->
  cut ((if b then p else mret d) ≫= f) ((if b then e else []) ++ e2) ErrUnexpectedEOF.
Proof.
  intros H1 H2 H3. destruct b; [|exact H3].
  eapply cut_bind; [by right|done|done|exact H2|exact H3].
Qed.

(** A check that reads nothing. *)
Lemma cut_check {A B} (p : M Stream A) (f : A -> M Stream B) x e first :
  (forall s, p s = Ok (x, s)) -> cut (f x) e first -> cut (p ≫= f) e first.
Proof. intros Hp Hf k Hk. unfold mbind, M_bind. rewrite Hp. by apply Hf. Qed.

Lemma cut_fo o : wf_fo (S:=Stream) o -> cut (fo_Parse fetch0) (e_FO o) EOF.
Proof.
  intros (Hf & Hc & Hg & Hsg & Ho & Hp & Hpr & Hpl). simpl in Hpr, Hpl.
  unfold fo_Parse, e_FO. cbv zeta. destruct (wire_flags_same _ Hf) as [S1 S2 S3 S4 S5 S6 S7 S8].
  eapply cut_bind; [by left|by intros ?%e_Varint_nonempty|by apply cut_Varint|by apply decodes_Varint|].
  eapply cut_check; [intros s; unfold flags_ok; by rewrite S7, Hc|].
  rewrite S1, S2, S3, S4, S5, S6. destruct (isEndOfRange (SerializationFlags o)).
  { eapply cut_bind; [by right|done|by apply cut_trunc_wrap, short_Varint
      |by apply decodes_wrap, decodes_Varint|].
    by apply cut_bind_last, cut_trunc_wrap, short_Varint. }
  eapply cut_opt_bind; [by apply cut_truncated, short_Varint|by apply decodes_wrap, decodes_Varint|].
  eapply cut_opt_bind; [by apply cut_truncated, short_Varint|by apply decodes_wrap, decodes_Varint|].
  eapply cut_opt_bind; [by apply cut_truncated, short_Varint|by apply decodes_wrap, decodes_Varint|].
  eapply cut_opt_bind; [by apply cut_truncated, short_UInt8|by apply decodes_wrap, decodes_UInt8|].
  eapply cut_opt_bind;
    [by apply cut_truncated, short_VarintBytes|by apply decodes_wrap, decodes_VarintBytes|].
  by apply cut_bind_last, cut_truncated, short_VarintBytes.
Qed.

(** ** Subgroup headers on a stream *)

Definition wf_sh (h : SubgroupHeader) : Prop :=
  sh_SubgroupIDMode h ∈ modes /\ is_u64 (sh_TrackAlias h) /\ is_u64 (sh_GroupID h) /\
  is_u64 (sh_SubgroupID h) /\ is_u8 (sh_PublisherPriority h).

(** The header as a receiver sees it: fields the type byte omits are zero. *)
Definition norm_sh (h : SubgroupHeader) : SubgroupHeader :=
  set_ids h (sh_TrackAlias h) (sh_GroupID h)
    (if sh_SubgroupIDMode h =? SubgroupIDExplicit then sh_SubgroupID h else 0)
    (if InlinePriority h then sh_PublisherPriority h else 0).

(** The fields after the type byte. *)
Definition e_SH (h : SubgroupHeader) : bytes :=
  e_Varint (sh_TrackAlias h) ++ e_Varint (sh_GroupID h) ++
  (if sh_SubgroupIDMode h =? SubgroupIDExplicit then e_Varint (sh_SubgroupID h) else []) ++
  (if InlinePriority h then e_UInt8 (sh_PublisherPriority h) else []).

Lemma WriteSubgroupHeader_e w h : WriteSubgroupHeader w h = w ++ e_Varint (sh_Type h) ++ e_SH h.
Proof.
  unfold WriteSubgroupHeader, e_SH, e_Varint, e_UInt8. cbv zeta. f_equal.
  destruct (sh_SubgroupIDMode h =? SubgroupIDExplicit), (InlinePriority h);
    rewrite ?(AppendVarint_app (_ ++ _)), ?(AppendVarint_app (AppendVarint _ _));
    rewrite <- ?app_assoc, ?app_nil_r; done.
Qed.

Lemma decodes_prio v : is_u8 v ->
  decodes (S:=Stream) (b ← ReadFull 1; mret (b2z (default Byte.x00 (b !! 0%nat)))) (e_UInt8 v) v.
Proof.
  intros Hv. eapply decodes_bind_last; [intros s s' Hs; apply (ReadFull_at s (e_UInt8 v) s' Hs)|].
  apply decodes_ret_eq. simpl. by rewrite b2z_z2b_small.
Qed.

Lemma s_decodes_Varint v : is_u64 v -> decodes ReadVarint (e_Varint v) v.
Proof. intros Hv s s'. by apply s_Varint_at. Qed.

Lemma decodes_sh h : wf_sh h -> decodes (ReadSubgroupHeader (sh_Type h)) (e_SH h) (norm_sh h).
Proof.
  intros (Hm & Ha & Hg & Hs & Hp). unfold ReadSubgroupHeader, e_SH, norm_sh.
  destruct (decode_type_spec h Hm) as [Hd _].
  eapply decodes_bind_nil with (set_ids h 0 0 0 0).
  { intros s s' Hn. apply at_nil in Hn. subst. by rewrite Hd. }
  simpl sh_SubgroupIDMode. simpl InlinePriority. simpl sh_SubgroupID. simpl sh_PublisherPriority.
  eapply decodes_bind; [by apply decodes_wrap, s_decodes_Varint|].
  eapply decodes_bind; [by apply decodes_wrap, s_decodes_Varint|].
  eapply decodes_bind.
  { apply (decodes_opt _ _ _ (if sh_SubgroupIDMode h =? SubgroupIDExplicit then sh_SubgroupID h else 0));
      intros ->; [by apply decodes_wrap, s_decodes_Varint|done]. }
  eapply decodes_bind_last; [|apply decodes_ret].
  apply (decodes_opt _ _ _ (if InlinePriority h then sh_PublisherPriority h else 0));
    intros ->; [by apply decodes_wrap, decodes_prio|done].
Qed.

(** Whatever is read back is in range and in normal form. *)
Lemma ReadVarint_u64 s v s' : ReadVarint s = Ok (v, s') -> is_u64 v.
Proof. intros H. eapply (snd_varint (S:=Stream) s v s'); [exact I|exact H]. Qed.

Lemma decode_type_valid t h : is_u64 t -> DecodeSubgroupHeaderType t = Ok h ->
  sh_Type h = t /\ sh_SubgroupIDMode h ∈ modes /\ IsReservedSubgroupHeaderType t = false /\
  sh_SubgroupID h = 0 /\ sh_PublisherPriority h = 0.
Proof.
  intros Ht Ed. assert (Hr : 0 <= t <= 127).
  { unfold DecodeSubgroupHeaderType, IsSubgroupHeaderType in Ed.
    rewrite Z.gtb_ltb in Ed. destruct (Z.ltb_spec 127 t); [done|zlia]. }
  pose proof (type_table t Hr) as Htab. unfold type_table_ok in Htab. rewrite Ed in Htab.
  rewrite !andb_true_iff, negb_true_iff, Z.eqb_eq, !Z.leb_le in Htab.
  destruct Htab as [[[Heq H0] H2] Hres]. split_and!; [done| |done|..].
  - unfold modes, SubgroupIDImplicitZero, SubgroupIDImplicitFirstObject, SubgroupIDExplicit.
    rewrite !elem_of_cons. lia.
  - unfold DecodeSubgroupHeaderType in Ed. destruct (negb _); [done|]. by injection Ed as <-.
  - unfold DecodeSubgroupHeaderType in Ed. destruct (negb _); [done|]. by injection Ed as <-.
Qed.

Lemma ReadSubgroupHeader_snd t s h s' : is_u64 t -> ReadSubgroupHeader t s = Ok (h, s') ->
  sh_Type h = t /\ wf_sh h /\ norm_sh h = h.
Proof.
  intros Ht H. unfold ReadSubgroupHeader in H.
  destruct (DecodeSubgroupHeaderType t) as [h0|] eqn:Ed; [|done]. mpeel.
  destruct (decode_type_valid _ _ Ht Ed) as (Hty & Hm & _ & Hz1 & Hz2). simpl in H0. simplify_eq.
  apply ReadVarint_u64 in H1, H2.
  assert (Hsg : is_u64 a2 /\ ((sh_SubgroupIDMode a =? SubgroupIDExplicit) = false -> a2 = 0)).
  { destruct (sh_SubgroupIDMode a =? SubgroupIDExplicit).
    - mpeel. by apply ReadVarint_u64 in H3.
    - simpl in H3. injection H3 as <- <-. rewrite Hz1. split; [zlia|done]. }
  assert (Hpr : is_u8 a3 /\ (InlinePriority a = false -> a3 = 0)).
  { destruct (InlinePriority a).
    - mpeel. split; [auto with moq|done].
    - simpl in H4. injection H4 as <- <-. rewrite Hz2. split; [zlia|done]. }
  destruct Hsg as [Hs1 Hs2], Hpr as [Hp1 Hp2]. split_and!; [by destruct a| |].
  - unfold wf_sh; simpl. by split_and!.
  - unfold norm_sh, set_ids; simpl. f_equal.
    + destruct (sh_SubgroupIDMode a =? SubgroupIDExplicit); [done|by rewrite Hs2].
    + destruct (InlinePriority a); [done|by rewrite Hp2].
Qed.

(** ** Datagrams *)

Definition wf_dg (d : ObjectDatagram) : Prop :=
  is_u64 (dg_Type d) /\ is_u64 (dg_TrackAlias d) /\ is_u64 (dg_GroupID d) /\
  is_u64 (dg_ObjectID d) /\ is_u8 (dg_PublisherPriority d) /\ go_len (dg_Properties d) /\
  is_u64 (dg_ObjectStatus d).

(** The datagram as a receiver sees it: absent fields zero. *)
Definition norm_dg (d : ObjectDatagram) : ObjectDatagram :=
  MkDatagram (dg_Type d) (dg_TrackAlias d) (dg_GroupID d)
    (if negb (HasZeroObjectID d) then dg_ObjectID d else 0)
    (if negb (HasDefaultPriority d) then dg_PublisherPriority d else 0)
    (if HasProperties d then dg_Properties d else [])
    (if HasStatus d then dg_ObjectStatus d else 0)
    (if HasStatus d then [] else dg_ObjectPayload d).

Definition e_DG (d : ObjectDatagram) : bytes :=
  e_Varint (dg_Type d) ++ e_Varint (dg_TrackAlias d) ++ e_Varint (dg_GroupID d) ++
  (if negb (HasZeroObjectID d) then e_Varint (dg_ObjectID d) else []) ++
  (if negb (HasDefaultPriority d) then e_UInt8 (dg_PublisherPriority d) else []) ++
  (if HasProperties d then e_VarintBytes (dg_Properties d) else []) ++
  (if HasStatus d then e_Varint (dg_ObjectStatus d) else dg_ObjectPayload d).

Lemma dg_Append_e w d : dg_Append w d = w ++ e_DG d.
Proof.
  unfold dg_Append, e_DG. cbv zeta.
  destruct (HasZeroObjectID d), (HasDefaultPriority d), (HasProperties d), (HasStatus d);
    simpl negb; cbv iota; wnorm; simpl; rewrite <- ?app_assoc; done.
Qed.

Lemma dg_Validate_norm d : dg_Validate (norm_dg d) = dg_Validate d.
Proof.
  unfold dg_Validate, norm_dg, HasProperties, HasStatus; simpl.
  destruct (has (dg_Type d) DatagramPropertiesBit), (has (dg_Type d) DatagramStatusBit); done.
Qed.

Lemma dg_Validate_type d : dg_Validate d = Ok tt -> IsValidDatagramType (dg_Type d) = true.
Proof. unfold dg_Validate. by destruct (IsValidDatagramType (dg_Type d)). Qed.

Lemma decodes_end_status v : is_u64 v -> decodes_end dg_status (e_Varint v) v.
Proof.
  intros Hv r Hl Hr. unfold dg_status.
  rewrite (M_bind_Ok _ _ _ v (r_end r)).
  - unfold mbind, M_bind. rewrite Empty_end. done.
  - unfold wrap_err. by rewrite (decodes_end_of _ _ _ (r_decodes_Varint v Hv) r Hl Hr).
Qed.

Lemma dg_validated_Ok d r : dg_Validate d = Ok tt -> dg_validated d r = Ok (d, r).
Proof. intros H. unfold dg_validated. by rewrite H. Qed.

Lemma decodes_dg d : wf_dg d -> dg_Validate d = Ok tt ->
  decodes_end (dg_Parse datagram0) (e_DG d) (norm_dg d).
Proof.
  intros (Ht & Ha & Hg & Ho & Hp & Hpr & Hs) Hv. pose proof (dg_Validate_type d Hv) as Hty.
  pose proof (dg_Validate_norm d) as Hvn. rewrite Hv in Hvn. unfold dg_Parse, e_DG.
  eapply decodes_end_bind; [by apply decodes_wrap, r_decodes_Varint|].
  eapply (decodes_end_bind _ _ []); [by apply decodes_guard|].
  eapply decodes_end_bind; [by apply decodes_wrap, r_decodes_Varint|].
  eapply decodes_end_bind; [by apply decodes_wrap, r_decodes_Varint|].
  unfold norm_dg, HasZeroObjectID, HasDefaultPriority, HasProperties, HasStatus in *. simpl in Hvn.
  eapply decodes_end_bind; [apply (decodes_opt _ _ _
    (if negb (has (dg_Type d) DatagramZeroObjectIDBit) then dg_ObjectID d else 0));
    intros ->; [by apply decodes_wrap, r_decodes_Varint|done]|].
  eapply decodes_end_bind; [apply (decodes_opt _ _ _
    (if negb (has (dg_Type d) DatagramDefaultPriorityBit) then dg_PublisherPriority d else 0));
    intros ->; [by apply decodes_wrap, r_decodes_UInt8|done]|].
  eapply decodes_end_bind; [apply (decodes_opt _ _ _
    (if has (dg_Type d) DatagramPropertiesBit then dg_Properties d else []));
    intros ->; [by apply decodes_wrap, r_decodes_VarintBytes|done]|].
  destruct (has (dg_Type d) DatagramStatusBit).
  - intros r Hl Hr. rewrite (M_bind_Ok _ _ _ _ _ (decodes_end_status _ Hs r Hl Hr)).
    by apply dg_validated_Ok.
  - intros r Hl Hr. rewrite (M_bind_Ok _ _ _ _ _ (decodes_end_RemainingBytes _ r Hl Hr)).
    by apply dg_validated_Ok.
Qed.

(** What a parse accepts. *)
Lemma opt_snd {A} (b : bool) f (p : M Reader A) (d : A) (P : A -> Prop) r x r' :
  r_wf r -> (forall r1 y r2, r_wf r1 -> p r1 = Ok (y, r2) -> P y /\ r_wf r2) -> P d ->
  (if b then wrap_err f p else mret d) r = Ok (x, r') -> P x /\ r_wf r' /\ (if b then x else d) = x.
Proof.
  intros Hw Hp Hd H. destruct b.
  - mpeel. apply Hp in H as [? ?]; done.
  - injection H as <- <-. done.
Qed.

Lemma dg_last_snd (b : bool) (f : Z -> ObjectDatagram) (g : bytes -> ObjectDatagram) r d r' :
  r_wf r ->
  (if b then st ← dg_status; dg_validated (f st)
   else payload ← r_RemainingBytes; dg_validated (g payload)) r = Ok (d, r') ->
  dg_Validate d = Ok tt /\
  (if b then exists st, is_u64 st /\ d = f st else exists payload, d = g payload).
Proof.
  intros Hw H. destruct b; mpeel; unfold dg_validated in H.
  - destruct (dg_Validate (f a)) as [[]|] eqn:Ev; simpl in H; simplify_eq. split; [done|].
    exists a. split; [|done]. unfold dg_status in H0. by msnd.
  - destruct (dg_Validate (g a)) as [[]|] eqn:Ev; simpl in H; simplify_eq. eauto.
Qed.

Lemma dg_Parse_snd r d r' : r_wf r -> dg_Parse datagram0 r = Ok (d, r') ->
  wf_dg d /\ norm_dg d = d /\ dg_Validate d = Ok tt.
Proof.
  intros Hw H. unfold dg_Parse in H. msnd.
  apply (opt_snd _ _ _ _ is_u64) in H4 as (Ho & W3 & E3); [|done|apply r_Varint_snd|zlia].
  apply (opt_snd _ _ _ _ is_u8) in H5 as (Hp & W4 & E4); [|done|apply r_UInt8_snd|by_decide].
  apply (opt_snd _ _ _ _ go_len) in H6 as (Hpr & W5 & E5);
    [|done|apply (r_varintBytes_snd true)|by_decide].
  apply dg_last_snd in H as [Hv Hd]; [|done]. split_and!; [| |done].
  - destruct (has a DatagramStatusBit); [destruct Hd as (st & Hst & ->)|destruct Hd as (pl & ->)];
      unfold wf_dg; simpl; split_and!; done || zlia.
  - destruct (has a DatagramStatusBit) eqn:Eb;
      [destruct Hd as (st & Hst & ->)|destruct Hd as (pl & ->)];
      unfold norm_dg, HasZeroObjectID, HasDefaultPriority, HasProperties, HasStatus;
      simpl; rewrite Eb; simpl in E4, E5; by rewrite E3, E4, E5.
Qed.

(** ** Theorems *)

(** SUBGROUP_HEADER codec.  A header with a legal subgroup mode, written to a
    unidirectional stream, is recognised by its type byte (never as a reserved
    type) and read back with the fields the type byte omits set to zero; and any
    header that reads successfully has exactly the type byte it was read with,
    fields in range and nothing lost by re-encoding. *)
Theorem subgroup_header_codec :
  (forall h s, wf_sh h ->
     exists s1, ReadDataStreamType
         (MkStream (WriteSubgroupHeader [] h ++ sbytes s) (send s)) = Ok (sh_Type h, s1) /\
       IsSubgroupHeaderType (sh_Type h) = true /\ IsReservedSubgroupHeaderType (sh_Type h) = false /\
       ReadSubgroupHeader (sh_Type h) s1 = Ok (norm_sh h, s)) /\
  (forall t s h s', is_u64 t -> ReadSubgroupHeader t s = Ok (h, s') ->
     sh_Type h = t /\ wf_sh h /\ norm_sh h = h).
Proof.
  split; [|exact ReadSubgroupHeader_snd]. intros h s Hw. pose proof Hw as [Hm _].
  destruct (decode_type_spec h Hm) as [Hd Hu].
  exists (MkStream (e_SH h ++ sbytes s) (send s)). rewrite WriteSubgroupHeader_e.
  destruct (decode_type_valid _ _ Hu Hd) as (_ & _ & Hr & _). split_and!; [| |done|].
  - unfold ReadDataStreamType. simpl app. rewrite <- app_assoc.
    apply (decodes_wrap _ _ _ _ (s_decodes_Varint _ Hu)). by split.
  - unfold DecodeSubgroupHeaderType in Hd. by destruct (IsSubgroupHeaderType (sh_Type h)).
  - apply (decodes_sh h Hw). by split.
Qed.

Definition sample_header : SubgroupHeader := MkSubgroupHeader true 2 false true false 7 300 9 128.

Lemma subgroup_header_codec_witness :
  exists s1, ReadDataStreamType
    (MkStream (WriteSubgroupHeader [] sample_header ++ [Byte.xaa]) Fin) = Ok (sh_Type sample_header, s1) /\
  ReadSubgroupHeader (sh_Type sample_header) s1 = Ok (sample_header, MkStream [Byte.xaa] Fin).
Proof.
  destruct (proj1 subgroup_header_codec sample_header (MkStream [Byte.xaa] Fin)) as (s1 & H1 & _ & _ & H2).
  - unfold wf_sh, modes. simpl. split_and!; [rewrite !elem_of_cons; auto|zlia|zlia|zlia|zlia].
  - exists s1. split; [exact H1|exact H2].
Defined.

(** Objects on a subgroup stream.  Every decoder that obeys the decoder laws
    (the buffer reader and the stream reader) reads back exactly the object that
    was appended, and is left just past it; on a stream that ends before the
    object is complete the parse reports [EOF] only when the stream ended before
    the object's first byte, and an unexpected end anywhere later. *)
Theorem subgroup_object_roundtrip :
  (forall S (D : Decoder S) (L : DecoderLaws S) hasProperties o s s',
     wf_so hasProperties o -> at_ s (so_Append [] o hasProperties) s' ->
     so_Parse hasProperties s = Ok (o, s')) /\
  (forall hasProperties o k, wf_so (S:=Stream) hasProperties o ->
     (k < length (so_Append [] o hasProperties))%nat ->
     exists err, so_Parse hasProperties (MkStream (take k (so_Append [] o hasProperties)) Fin) = Err err /\
       if decide (k = 0%nat) then errors_Is err EOF = true
       else errors_Is err ErrUnexpectedEOF = true /\ errors_Is err EOF = false).
Proof.
  split.
  - intros S D L hp o s s' Hw. rewrite so_Append_e. by apply decodes_so.
  - intros hp o k Hw. rewrite so_Append_e. intros Hk. apply cut_eof; [by apply cut_so|done].
Qed.

Definition sample_object : SubgroupObject := MkSubgroupObject 3 [] [Byte.x01; Byte.x02] 0.

Lemma subgroup_object_roundtrip_witness :
  so_Parse (S:=Stream) false (MkStream (so_Append [] sample_object false ++ [Byte.x09]) Fin) =
    Ok (sample_object, MkStream [Byte.x09] Fin) /\
  exists err, so_Parse (S:=Stream) false (MkStream [Byte.x03; Byte.x02; Byte.x01] Fin) = Err err /\
    errors_Is err ErrUnexpectedEOF = true /\ errors_Is err EOF = false.
Proof.
  assert (Hw : wf_so (S:=Stream) false sample_object).
  { unfold wf_so; simpl. rewrite ?MaxStreamFieldSize_val. split_and!; by_decide || done. }
  split.
  - apply (proj1 subgroup_object_roundtrip Stream _ _ false sample_object); [exact Hw|by split].
  - exact (proj2 subgroup_object_roundtrip false sample_object 3%nat Hw ltac:(vm_compute; lia)).
Defined.

(** Objects on a fetch stream.  Every valid fetch object is read back by every
    decoder as what its flags put on the wire (a datagram object loses its subgroup
    bits, fields whose flag is clear are zero, an end-of-range marker carries its
    absolute location only); serialization flags of 128 or more that are not an
    end-of-range marker are refused by [Validate] and by the parser; and a stream
    that ends inside an object is never mistaken for its end. *)
Theorem fetch_object_roundtrip :
  (forall S (D : Decoder S) (L : DecoderLaws S) o s s',
     wf_fo o -> at_ s (fo_Append [] o) s' -> fo_Parse fetch0 s = Ok (norm_fo o, s')) /\
  (forall S (D : Decoder S) (L : DecoderLaws S) flags o s s',
     is_u64 flags -> 128 <= flags -> isEndOfRange flags = false ->
     at_ s (AppendVarint [] flags) s' ->
     fo_Parse o s = Err (Wrapf "" ErrInvalidFetchFlags) /\
     checkFetchFlags flags = Err (Wrapf "" ErrInvalidFetchFlags)) /\
  (forall o k, wf_fo (S:=Stream) o -> (k < length (fo_Append [] o))%nat ->
     exists err, fo_Parse fetch0 (MkStream (take k (fo_Append [] o)) Fin) = Err err /\
       if decide (k = 0%nat) then errors_Is err EOF = true
       else errors_Is err ErrUnexpectedEOF = true /\ errors_Is err EOF = false).
Proof.
  split_and!.
  - intros S D L o s s' Hw. rewrite fo_Append_e. by apply decodes_fo.
  - intros S D L flags o s s' Hu Hge He Ha.
    assert (Hc : checkFetchFlags flags = Err (Wrapf "" ErrInvalidFetchFlags)).
    { unfold checkFetchFlags. rewrite He. by destruct (Z.leb_spec 128 flags); [|lia]. }
    split; [|done]. unfold fo_Parse. rewrite (M_bind_Ok _ _ _ _ _ (dec_varint _ _ _ Hu Ha)).
    unfold mbind at 1, M_bind at 1, flags_ok. by rewrite Hc.
  - intros o k Hw. rewrite fo_Append_e. intros Hk. apply cut_eof; [by apply cut_fo|done].
Qed.

Definition sample_fetch : FetchObject := MkFetchObject 91 4 6 0 200 [] [Byte.x05].

Lemma fetch_object_roundtrip_witness :
  fo_Parse (S:=Stream) fetch0 (MkStream (fo_Append [] sample_fetch) Fin) =
    Ok (MkFetchObject 88 4 0 0 200 [] [Byte.x05], MkStream [] Fin) /\
  fo_Parse (S:=Stream) fetch0 (MkStream [Byte.x80; Byte.x80] Fin) = Err (Wrapf "" ErrInvalidFetchFlags).
Proof.
  assert (Hw : wf_fo (S:=Stream) sample_fetch).
  { unfold wf_fo; simpl. rewrite ?MaxStreamFieldSize_val. split_and!; by_decide || done. }
  split.
  - apply (proj1 fetch_object_roundtrip Stream _ _ sample_fetch); [exact Hw|by split].
  - apply (proj1 (proj2 fetch_object_roundtrip) Stream _ _ 128 fetch0 _ (MkStream [] Fin));
      [zlia|lia|reflexivity|by split].
Defined.

(** Object datagrams.  A valid datagram parses back to itself with the fields
    its type omits set to zero; and any bytes that parse give a valid datagram with
    fields in range, nothing lost by re-encoding it, and that re-parses to itself. *)
Theorem datagram_codec :
  (forall d, wf_dg d -> dg_Validate d = Ok tt ->
     dg_Parse datagram0 (NewReader (dg_Append [] d)) =
       Ok (norm_dg d, MkReader (dg_Append [] d) (length (dg_Append [] d)))) /\
  (forall bs d r, go_len bs -> dg_Parse datagram0 (NewReader bs) = Ok (d, r) ->
     wf_dg d /\ norm_dg d = d /\ dg_Validate d = Ok tt /\
     dg_Parse datagram0 (NewReader (dg_Append [] d)) =
       Ok (d, MkReader (dg_Append [] d) (length (dg_Append [] d)))).
Proof.
  assert (Hrt : forall d, wf_dg d -> dg_Validate d = Ok tt ->
     dg_Parse datagram0 (NewReader (dg_Append [] d)) =
       Ok (norm_dg d, MkReader (dg_Append [] d) (length (dg_Append [] d)))).
  { intros d Hw Hv. rewrite dg_Append_e. apply decodes_NewReader. by apply decodes_dg. }
  split; [exact Hrt|]. intros bs d r Hg H.
  apply dg_Parse_snd in H as (Hw & Hn & Hv); [|split; simpl; [done|lia]].
  split_and!; [done..|]. rewrite <- Hn at 2. by apply Hrt.
Qed.

Definition sample_datagram : ObjectDatagram := MkDatagram 4 7 300 99 1 [] 5 [Byte.x41; Byte.x42].

Lemma datagram_codec_witness :
  dg_Validate sample_datagram = Ok tt /\
  dg_Parse datagram0 (NewReader (dg_Append [] sample_datagram)) =
    Ok (MkDatagram 4 7 300 0 1 [] 0 [Byte.x41; Byte.x42],
        MkReader (dg_Append [] sample_datagram) (length (dg_Append [] sample_datagram))).
Proof.
  split; [reflexivity|]. apply (proj1 datagram_codec sample_datagram); [|reflexivity].
  unfold wf_dg; simpl. split_and!; by_decide.
Defined.
