(* ===== verification/Streams.v ===== *)
(** * Streams: reading and writing data streams in a session

    [session/datastream_in.go] (accepting a unidirectional stream, the stateful
    readers of a subgroup stream and of a fetch stream),
    [session/datastream_out.go] (the stateful subgroup writer with its delivery
    timeouts) and [session/datagram.go].

    A read either yields a value, or reports a malformed track and leaves the
    stream usable, or fails, possibly closing the session with
    PROTOCOL_VIOLATION; a failed stream is not read again. *)

From S2P Require Import Prelude Codes Varint Wire KV Filter Params Properties Objects.

Inductive read (A S : Type) : Type :=
| Got (a : A) (s : S)
| Malformed (e : error) (a : option A) (s : S)
| Failed (e : error) (closed : bool).
Arguments Got {A S} _ _.
Arguments Malformed {A S} _ _ _.
Arguments Failed {A S} _ _.

Definition closeProtocolViolation {A S} (e : error) : read A S := Failed e true.
Definition checkFINMidObject {A S} (e : error) : read A S := Failed e (errors_Is e ErrUnexpectedEOF).

(** [math/bits]. *)
Definition Add64 (x y carry : Z) : Z * Z :=
  (u64 (x + y + carry), (x + y + carry) / 18446744073709551616).
Definition Sub64 (x y borrow : Z) : Z * Z :=
  (u64 (x - y - borrow), if x - y - borrow <? 0 then 1 else 0).

(** ** Subgroup streams, receiving *)
Record IncomingSubgroupStream : Type := MkSubIn {
  is_Header : SubgroupHeader; is_rd : Stream; decPrevObject : Z; decHavePrev : bool;
  decSubgroupID : Z; decSubgroupResolved : bool; pendingPayload : Z
}.

Definition NewIncomingSubgroup (h : SubgroupHeader) (rd : Stream) : IncomingSubgroupStream :=
  MkSubIn h rd 0 false 0 false 0.

Definition resolve_subgroup (s : IncomingSubgroupStream) (objectID : Z) : Z :=
  if decSubgroupResolved s then decSubgroupID s
  else
    let m := sh_SubgroupIDMode (is_Header s) in
    if m =? SubgroupIDImplicitZero then 0
    else if m =? SubgroupIDImplicitFirstObject then objectID
    else if m =? SubgroupIDExplicit then sh_SubgroupID (is_Header s)
    else decSubgroupID s.

Definition next_object_id (s : IncomingSubgroupStream) (delta : Z) : result Z :=
  if decHavePrev s then NextSubgroupObjectID (decPrevObject s) delta else Ok delta.

Definition check_properties (props : bytes) (groupID objectID : Z) : result unit :=
  if len props >? 0 then CheckObjectProperties props groupID objectID else Ok tt.

Definition ReadObjectHeader (s : IncomingSubgroupStream) : read SubgroupObject IncomingSubgroupStream :=
  match so_ParseHeader (sh_Properties (is_Header s)) (is_rd s) with
  | Err e => checkFINMidObject e
  | Ok ((obj, n), rd) =>
      match (if n =? 0 then so_Validate obj else Ok tt) with
      | Err e => closeProtocolViolation (Wrapf "moqt/session: subgroup object" e)
      | Ok _ =>
          match next_object_id s (ObjectIDDelta obj) with
          | Err e => closeProtocolViolation e
          | Ok objectID =>
              let s := MkSubIn (is_Header s) rd objectID true (resolve_subgroup s objectID) true n in
              match check_properties (so_Properties obj) (sh_GroupID (is_Header s)) objectID with
              | Err e => Malformed (Wrapf2 "" ErrMalformedTrack e) (Some obj) s
              | Ok _ => Got obj s
              end
          end
      end
  end.

Definition ReadObjectPayload (obj : SubgroupObject) (s : IncomingSubgroupStream) :
    read SubgroupObject IncomingSubgroupStream :=
  match so_ParsePayload obj (pendingPayload s) (is_rd s) with
  | Err e => checkFINMidObject e
  | Ok (obj, rd) =>
      Got obj (MkSubIn (is_Header s) rd (decPrevObject s) (decHavePrev s) (decSubgroupID s)
                 (decSubgroupResolved s) 0)
  end.

Definition ReadObject (s : IncomingSubgroupStream) : read SubgroupObject IncomingSubgroupStream :=
  match ReadObjectHeader s with
  | Failed e c => Failed e c
  | Got obj s => ReadObjectPayload obj s
  | Malformed malformed None s => Malformed malformed None s
  | Malformed malformed (Some obj) s =>
      match ReadObjectPayload obj s with
      | Got _ s => Malformed malformed None s
      | other => other
      end
  end.

Record DecodedSubgroupObject : Type := MkDecSub {
  ds_GroupID : Z; ds_SubgroupID : Z; ds_ObjectID : Z; ds_ObjectStatus : Z;
  ds_Properties : bytes; ds_Payload : bytes
}.

Definition ReadDecoded (s : IncomingSubgroupStream) :
    read DecodedSubgroupObject IncomingSubgroupStream :=
  match ReadObject s with
  | Failed e c => Failed e c
  | Malformed e _ s => Malformed e None s
  | Got raw s =>
      Got (MkDecSub (sh_GroupID (is_Header s)) (decSubgroupID s) (decPrevObject s)
             (so_ObjectStatus raw) (so_Properties raw) (so_Payload raw)) s
  end.

(** ** Fetch streams, receiving *)
Record IncomingFetchStream : Type := MkFetchIn {
  if_rd : Stream; if_GroupOrder : Z; decPrevGroup : Z; fdecPrevObject : Z; decPrevSubgroup : Z;
  decPrevPriority : Z; fdecHavePrev : bool; decHaveActual : bool
}.

Definition NewIncomingFetch (rd : Stream) (order : Z) : IncomingFetchStream :=
  MkFetchIn rd order 0 0 0 0 false false.

Definition IsDatagram (o : FetchObject) : bool := has (SerializationFlags o) FetchFlagDatagram.

Record DecodedFetchObject : Type := MkDecFetch {
  df_GroupID : Z; df_ObjectID : Z; df_SubgroupID : Z; df_PublisherPriority : Z;
  df_Properties : bytes; df_Payload : bytes; df_Datagram : bool; df_NonExistent : bool;
  df_Unknown : bool; df_TimedOut : bool
}.

Definition df_IsEndOfRange (d : DecodedFetchObject) : bool :=
  df_NonExistent d || df_Unknown d || df_TimedOut d.

Definition decGroupOrder (order : Z) : Z :=
  if order =? GroupOrderDescending then GroupOrderDescending else GroupOrderAscending.

Definition fetch_ReadObject (s : IncomingFetchStream) : read FetchObject Stream :=
  match fo_Parse fetch0 (if_rd s) with
  | Err e =>
      if errors_Is e ErrInvalidFetchFlags
      then closeProtocolViolation (Wrapf "moqt/session: fetch object" e)
      else checkFINMidObject e
  | Ok (obj, rd) => Got obj rd
  end.

(** The prior-object rules before the first real object. *)
Definition check_prior (s : IncomingFetchStream) (raw : FetchObject) : result unit :=
  if decHaveActual s then Ok tt
  else
    let m := SubgroupMode (SerializationFlags raw) in
    if negb (IsDatagram raw) && ((m =? FetchSubgroupIDPrior) || (m =? FetchSubgroupIDPriorPlusOne))
    then Err (Errorf "moqt/session: fetch object references prior subgroup with no prior object")
    else if negb (has (SerializationFlags raw) FetchFlagPriority)
    then Err (Errorf "moqt/session: fetch object references prior priority with no prior object")
    else Ok tt.

Definition resolve_location (s : IncomingFetchStream) (raw : FetchObject) : result (Z * Z) :=
  let f := SerializationFlags raw in
  if negb (fdecHavePrev s) then
    if negb (has f FetchFlagGroupIDDelta) || negb (has f FetchFlagObjectIDDelta)
    then Err (Errorf "moqt/session: first fetch object missing Group/Object ID delta")
    else Ok (fo_GroupIDDelta raw, fo_ObjectIDDelta raw)
  else
    let newGroup := has f FetchFlagGroupIDDelta in
    let '(g, over) :=
      if newGroup then
        if decGroupOrder (if_GroupOrder s) =? GroupOrderDescending
        then Sub64 (decPrevGroup s) (fo_GroupIDDelta raw) 1
        else Add64 (decPrevGroup s) (fo_GroupIDDelta raw) 1
      else (decPrevGroup s, 0) in
    let '(o, over) :=
      if over =? 0 then
        if negb (has f FetchFlagObjectIDDelta) then Add64 (fdecPrevObject s) 0 1
        else if newGroup then (fo_ObjectIDDelta raw, 0)
        else Add64 (fdecPrevObject s) (fo_ObjectIDDelta raw) 0
      else (0, over) in
    if negb (over =? 0) then Err (Wrapf "FETCH object" ErrIDOverflow) else Ok (g, o).

Definition resolve_fetch_subgroup (s : IncomingFetchStream) (raw : FetchObject) : Z :=
  let m := SubgroupMode (SerializationFlags raw) in
  if m =? FetchSubgroupIDZero then 0
  else if m =? FetchSubgroupIDPrior then decPrevSubgroup s
  else if m =? FetchSubgroupIDPriorPlusOne then u64 (decPrevSubgroup s + 1)
  else if m =? FetchSubgroupIDExplicit then fo_SubgroupID raw
  else 0.

Definition fetch_ReadDecoded (s : IncomingFetchStream) : read DecodedFetchObject IncomingFetchStream :=
  match fetch_ReadObject s with
  | Failed e c => Failed e c
  | Malformed e _ _ => Malformed e None s
  | Got raw rd =>
      let f := SerializationFlags raw in
      if isEndOfRange f then
        Got (MkDecFetch (fo_GroupIDDelta raw) (fo_ObjectIDDelta raw) 0 0 [] [] false
               (f =? FetchEndOfNonExistentRange) (f =? FetchEndOfUnknownRange)
               (f =? FetchEndOfTimedOutRange))
            (MkFetchIn rd (if_GroupOrder s) (fo_GroupIDDelta raw) (fo_ObjectIDDelta raw)
               (decPrevSubgroup s) (decPrevPriority s) true (decHaveActual s))
      else
        match check_prior s raw with
        | Err e => closeProtocolViolation e
        | Ok _ =>
            match resolve_location s raw with
            | Err e => closeProtocolViolation e
            | Ok (g, o) =>
                let sg := if IsDatagram raw then 0 else resolve_fetch_subgroup s raw in
                let prevSg := if IsDatagram raw then decPrevSubgroup s else sg in
                let pr := if has f FetchFlagPriority then fo_PublisherPriority raw
                          else decPrevPriority s in
                let s := MkFetchIn rd (if_GroupOrder s) g o prevSg pr true true in
                match check_properties (fo_Properties raw) g o with
                | Err e => Malformed (Wrapf2 "" ErrMalformedTrack e) None s
                | Ok _ => Got (MkDecFetch g o sg pr (fo_Properties raw) (ObjectPayload raw)
                                 (IsDatagram raw) false false false) s
                end
            end
        end
  end.

(** ** Accepting a data stream *)
Inductive DataStream : Type :=
| DSSubgroup (s : IncomingSubgroupStream)
| DSFetch (requestID : Z) (s : IncomingFetchStream).

Inductive accepted : Type :=
| Accepted (d : DataStream)
| Aborted
| AcceptErr (e : error) (closed : bool).

(** One stream [src]; [ctxErr] is [ctx.Err()] when a header read fails. *)
Definition acceptDataStream (ctxErr : option error) (src : Stream) : accepted :=
  let aborted := match ctxErr with Some e => AcceptErr e false | None => Aborted end in
  match ReadDataStreamType src with
  | Err _ => aborted
  | Ok (typ, br) =>
      if IsSubgroupHeaderType typ then
        match ReadSubgroupHeader typ br with
        | Err _ => aborted
        | Ok (hdr, br) => Accepted (DSSubgroup (NewIncomingSubgroup hdr br))
        end
      else if IsFetchHeaderType typ then
        match ReadFetchHeader br with
        | Err _ => aborted
        | Ok (requestID, br) => Accepted (DSFetch requestID (NewIncomingFetch br 0))
        end
      else if typ =? PaddingStreamType then AcceptErr ErrPaddingStream false
      else if IsReservedSubgroupHeaderType typ then AcceptErr (ErrReservedSubgroupIDMode typ) true
      else AcceptErr (ErrUnknownDataStreamType typ) true
  end.

(** The streams the peer opens, in order; [None] blocks for the next one. *)
Fixpoint AcceptDataStream (streams : list Stream) : option (accepted * list Stream) :=
  match streams with
  | [] => None
  | src :: rest =>
      match acceptDataStream None src with
      | Aborted => AcceptDataStream rest
      | a => Some (a, rest)
      end
  end.

(** ** Datagrams *)
Definition paddingDatagramType : Z := 321601065.

(** The datagrams the peer sends, in order; [None] blocks for the next one. *)
Fixpoint ReceiveDatagram (raws : list bytes) : option (read ObjectDatagram (list bytes)) :=
  match raws with
  | [] => None
  | raw :: rest =>
      match r_Varint (NewReader raw) with
      | Err e => Some (closeProtocolViolation (Wrapf "moqt/session: datagram type varint" e))
      | Ok (typ, _) =>
          if IsValidDatagramType typ then
            match dg_Parse datagram0 (NewReader raw) with
            | Err e => Some (closeProtocolViolation (Wrapf "moqt/session: parse OBJECT_DATAGRAM" e))
            | Ok (obj, _) =>
                match check_properties (dg_Properties obj) (dg_GroupID obj) (dg_ObjectID obj) with
                | Err e => Some (Malformed (Wrapf2 "" ErrMalformedTrack e) (Some obj) rest)
                | Ok _ => Some (Got obj rest)
                end
            end
          else if typ =? paddingDatagramType then ReceiveDatagram rest
          else Some (closeProtocolViolation (Errorf "moqt/session: unknown datagram type"))
      end
  end.

Definition SendDatagram (d : ObjectDatagram) (sent : list bytes) : result (list bytes) :=
  _ ← map_err (Wrapf "moqt/session: SendDatagram") (dg_Validate d);
  Ok (sent ++ [dg_Append [] d]).

(** ** Subgroup streams, sending *)

(** What a write does to the world outside the stream's own fields, in order.
    [EvDeadline (Some t)] sets the write deadline to the receipt time plus [t] and
    [EvDeadline None] lifts it; [EvClose (Some t)] arms the timer that resets the
    stream unless the peer acknowledges it within [t]. *)
Inductive event : Type :=
| EvObject (group object : Z)
| EvDeadline (after : option Z)
| EvWrite (data : bytes)
| EvClose (resetAfter : option Z)
| EvCancel (code : Z)
| EvEnd.

Record OutgoingSubgroupStream : Type := MkSubOut {
  os_header : SubgroupHeader; pubTimeouts : DeliveryTimeouts; subTimeouts : DeliveryTimeouts;
  objectTimeout : Z; subgroupTimeout : Z; sawFirstObject : bool; encPrevObject : Z;
  encHavePrev : bool; hooked : bool; deadlines : bool; tracked : bool; os_events : list event
}.

Definition NewOutgoingSubgroup (h : SubgroupHeader) (hooked deadlines tracked : bool) : OutgoingSubgroupStream :=
  MkSubOut h (MkDT 0 0) (MkDT 0 0) 0 0 false 0 false hooked deadlines tracked
    [EvWrite (WriteSubgroupHeader [] h)].

Definition WithDeliveryTimeouts (s : OutgoingSubgroupStream) (publisher subscriber : DeliveryTimeouts) :
    OutgoingSubgroupStream :=
  let eff := Effective publisher subscriber in
  MkSubOut (os_header s) publisher subscriber (dt_Object eff) (dt_Subgroup eff) (sawFirstObject s)
    (encPrevObject s) (encHavePrev s) (hooked s) (deadlines s) (tracked s) (os_events s).

(** What one call sees: whether the publication has ended or is paused, the age
    [time.Since(receivedAt)], and what the transport makes of the write. *)
Inductive write_outcome : Type :=
| Written
| WriteFailed (e : error) (isTimeout : bool).
Record WriteEnv : Type := MkEnv {
  env_ended : bool; env_paused : bool; elapsed : Z; dst_Write : write_outcome
}.


Definition emit (s : OutgoingSubgroupStream) (evs : list event) : OutgoingSubgroupStream :=
  MkSubOut (os_header s) (pubTimeouts s) (subTimeouts s) (objectTimeout s) (subgroupTimeout s)
    (sawFirstObject s) (encPrevObject s) (encHavePrev s) (hooked s) (deadlines s) (tracked s) (os_events s ++ evs).

Definition os_Cancel (code : Z) (s : OutgoingSubgroupStream) : OutgoingSubgroupStream :=
  emit s (EvCancel code :: if hooked s then [EvEnd] else []).

Definition os_Close (s : OutgoingSubgroupStream) : OutgoingSubgroupStream :=
  emit s (EvClose (if (0 <? subgroupTimeout s) && tracked s then Some (subgroupTimeout s) else None) ::
    if hooked s then [EvEnd] else []).

(** The first object of the subgroup may override the publisher's timeouts. *)
Definition first_object (s : OutgoingSubgroupStream) (props : bytes) : OutgoingSubgroupStream :=
  let eff := if negb (sawFirstObject s) && sh_Properties (os_header s)
                && negb (ReplayingSubgroup (os_header s))
             then Effective (ApplyObjectProperties (pubTimeouts s) props) (subTimeouts s)
             else MkDT (objectTimeout s) (subgroupTimeout s) in
  MkSubOut (os_header s) (pubTimeouts s) (subTimeouts s) (dt_Object eff) (dt_Subgroup eff) true
    (encPrevObject s) (encHavePrev s) (hooked s) (deadlines s) (tracked s) (os_events s).

Definition set_prev (s : OutgoingSubgroupStream) (id : Z) : OutgoingSubgroupStream :=
  MkSubOut (os_header s) (pubTimeouts s) (subTimeouts s) (objectTimeout s) (subgroupTimeout s)
    (sawFirstObject s) id true (hooked s) (deadlines s) (tracked s) (os_events s).

(** The write itself: the object is announced, encoded and handed over. *)
Definition attempt_write (env : WriteEnv) (obj : SubgroupObject) (s : OutgoingSubgroupStream) :
    result unit * OutgoingSubgroupStream :=
  let objectID := if encHavePrev s then u64 (u64 (encPrevObject s + ObjectIDDelta obj) + 1)
                  else ObjectIDDelta obj in
  let announce := if hooked s then [EvObject (sh_GroupID (os_header s)) objectID] else [] in
  let data := so_Append [] obj (sh_Properties (os_header s)) in
  let deadline := (0 <? objectTimeout s) && deadlines s in
  let s := emit s (announce ++ (if deadline then [EvDeadline (Some (objectTimeout s))] else []) ++
                   [EvWrite data] ++ (if deadline then [EvDeadline None] else [])) in
  match dst_Write env with
  | WriteFailed e isTimeout =>
      if (0 <? objectTimeout s) && isTimeout
      then (Err (Wrapf "" ErrDeliveryTimeout), os_Cancel StreamResetDeliveryTimeout s)
      else (Err e, s)
  | Written => (Ok tt, set_prev s objectID)
  end.

Definition WriteObjectReceivedAt (env : WriteEnv) (obj : SubgroupObject) (s : OutgoingSubgroupStream) :
    result unit * OutgoingSubgroupStream :=
  let s := first_object s (so_Properties obj) in
  if hooked s && env_ended env then (Err ErrPublicationEnded, s)
  else if hooked s && env_paused env then (Err ErrForwardPaused, os_Cancel StreamResetCancelled s)
  else if (0 <? objectTimeout s) && (elapsed env >? objectTimeout s)
  then (Err (Wrapf "" ErrDeliveryTimeout), os_Cancel StreamResetDeliveryTimeout s)
  else attempt_write env obj s.

Definition with_delta (obj : SubgroupObject) (delta : Z) : SubgroupObject :=
  MkSubgroupObject delta (so_Properties obj) (so_Payload obj) (so_ObjectStatus obj).

Definition WriteObjectAt (env : WriteEnv) (objectID : Z) (obj : SubgroupObject)
    (s : OutgoingSubgroupStream) : result unit * OutgoingSubgroupStream :=
  if encHavePrev s then
    if objectID <=? encPrevObject s then (Err (Wrapf "" ErrObjectIDNotIncreasing), s)
    else WriteObjectReceivedAt env (with_delta obj (u64 (u64 (objectID - encPrevObject s) - 1))) s
  else WriteObjectReceivedAt env (with_delta obj objectID) s.

(** ** Lemmas *)

Lemma NextSubgroupObjectID_spec prev delta : is_u64 prev -> is_u64 delta ->
  NextSubgroupObjectID prev delta =
    if decide (prev + delta + 1 <= MaxUint64) then Ok (prev + delta + 1)
    else Err (Wrapf "" ErrIDOverflow).
Proof.
  intros Hp Hd. unfold NextSubgroupObjectID. cbv zeta. destruct (decide _) as [H|H].
  - rewrite Z.div_small by zlia. simpl. by rewrite u64_small by zlia.
  - destruct (Z.eqb_spec ((prev + delta + 1) / 18446744073709551616) 0) as [E|E]; [|done].
    apply Z.div_small_iff in E; zlia.
Qed.

Lemma so_ParseHeader_snd hp s o n s' : so_ParseHeader (S:=Stream) hp s = Ok ((o, n), s') ->
  is_u64 (ObjectIDDelta o) /\ is_u64 n.
Proof.
  intros H. unfold so_ParseHeader, trunc_wrap in H. mpeel.
  split; eapply (snd_varint (S:=Stream)); try exact I; eassumption.
Qed.

(** *** Any subgroup stream *)

Definition in_inv (s : IncomingSubgroupStream) : Prop :=
  decSubgroupResolved s = decHavePrev s /\ (decHavePrev s = true -> is_u64 (decPrevObject s)).

(** What reading one object, malformed or not, does to the decoder's state. *)
Record advanced (s s' : IncomingSubgroupStream) : Prop := {
  adv_header : is_Header s' = is_Header s;
  adv_have : decHavePrev s' = true;
  adv_resolved : decSubgroupResolved s' = true;
  adv_u64 : is_u64 (decPrevObject s');
  adv_lt : decHavePrev s = true -> decPrevObject s < decPrevObject s';
  adv_subgroup : decSubgroupID s' = resolve_subgroup s (decPrevObject s')
}.

Lemma advanced_inv s s' : advanced s s' -> in_inv s'.
Proof. intros [? H1 H2 H3 _ _]. split; [by rewrite H1, H2|done]. Qed.

Lemma next_object_id_snd s delta id : in_inv s -> is_u64 delta -> next_object_id s delta = Ok id ->
  is_u64 id /\ (decHavePrev s = true -> decPrevObject s < id).
Proof.
  intros [_ Hi] Hd H. unfold next_object_id in H. destruct (decHavePrev s); [|by simplify_eq].
  rewrite NextSubgroupObjectID_spec in H by auto. destruct (decide _); simplify_eq.
  specialize (Hi eq_refl). zlia.
Qed.

Lemma ReadObjectHeader_adv s : in_inv s ->
  match ReadObjectHeader s with
  | Got _ s' => advanced s s'
  | Malformed _ o s' => advanced s s' /\ exists x, o = Some x
  | Failed _ _ => True
  end.
Proof.
  intros Hi. unfold ReadObjectHeader.
  destruct (so_ParseHeader _ _) as [[[o n] rd]|e] eqn:Ep; [|done].
  apply so_ParseHeader_snd in Ep as [Hd Hn].
  destruct (if n =? 0 then so_Validate o else Ok tt); [|done].
  destruct (next_object_id s (ObjectIDDelta o)) as [id|] eqn:En; [|done].
  destruct (next_object_id_snd _ _ _ Hi Hd En) as [Hu Hlt].
  destruct (check_properties _ _ _); [|split; [|by eexists]]; by split.
Qed.

Lemma ReadObjectPayload_adv s s1 o : advanced s s1 ->
  match ReadObjectPayload o s1 with
  | Got _ s' => advanced s s'
  | Malformed _ _ _ => False
  | Failed _ _ => True
  end.
Proof.
  intros [H1 H2 H3 H4 H5 H6]. unfold ReadObjectPayload.
  by destruct (so_ParsePayload o _ _) as [[o' rd]|].
Qed.

Lemma ReadDecoded_adv s : in_inv s ->
  match ReadDecoded s with
  | Got d s' => advanced s s' /\ ds_GroupID d = sh_GroupID (is_Header s) /\
      ds_ObjectID d = decPrevObject s' /\ ds_SubgroupID d = decSubgroupID s'
  | Malformed _ _ s' => advanced s s'
  | Failed e c => errors_Is e ErrUnexpectedEOF = true -> c = true
  end.
Proof.
  intros Hi. pose proof (ReadObjectHeader_adv s Hi) as H. unfold ReadDecoded, ReadObject.
  destruct (ReadObjectHeader s) as [o s1|e o s1|e c] eqn:E.
  - apply (ReadObjectPayload_adv _ _ o) in H. unfold ReadObjectPayload in *.
    destruct (so_ParsePayload o _ _) as [[o' rd]|e'] eqn:Ep; simpl in *; [|done].
    split_and!; try done. by destruct H as [Hh _ _ _ _ _]; simpl in Hh; rewrite Hh.
  - destruct H as [H [x ->]]. apply (ReadObjectPayload_adv _ _ x) in H. unfold ReadObjectPayload in *.
    destruct (so_ParsePayload x _ _) as [[o' rd]|e'] eqn:Ep; simpl in *; done.
  - unfold ReadObjectHeader in E. destruct (so_ParseHeader _ _) as [[[o n] rd]|e'].
    + destruct (if n =? 0 then so_Validate o else Ok tt) as [|ev]; [|by injection E as _ <-].
      destruct (next_object_id s _) as [id|]; [|by injection E as _ <-].
      by destruct (check_properties _ _ _).
    + by injection E as <- <-.
Qed.

(** The objects a stream delivers, [None] for one that is malformed. *)
Inductive reads : IncomingSubgroupStream -> list (option DecodedSubgroupObject) ->
    IncomingSubgroupStream -> Prop :=
| reads_nil s : reads s [] s
| reads_got s d s1 l s2 : ReadDecoded s = Got d s1 -> reads s1 l s2 -> reads s (Some d :: l) s2
| reads_malformed s e a s1 l s2 :
    ReadDecoded s = Malformed e a s1 -> reads s1 l s2 -> reads s (None :: l) s2.

Definition delivered (l : list (option DecodedSubgroupObject)) : list DecodedSubgroupObject :=
  omap id l.

(** After the first object: the rest follow it, in the same subgroup. *)
Lemma reads_after s l s' : reads s l s' -> in_inv s -> decHavePrev s = true ->
  in_inv s' /\ StronglySorted Z.lt (ds_ObjectID <$> delivered l) /\
  Forall (fun d => decPrevObject s < ds_ObjectID d /\ is_u64 (ds_ObjectID d) /\
    ds_GroupID d = sh_GroupID (is_Header s) /\ ds_SubgroupID d = decSubgroupID s) (delivered l).
Proof.
  induction 1 as [s|s d s1 l s2 Hr H IH|s e a s1 l s2 Hr H IH]; intros Hi Hh.
  - split_and!; [done|constructor|constructor].
  - pose proof (ReadDecoded_adv s Hi) as Ha. rewrite Hr in Ha. destruct Ha as (Ha & Hg & Ho & Hs).
    destruct (IH (advanced_inv _ _ Ha) (adv_have _ _ Ha)) as (Hi' & Hsort & Hall).
    destruct Ha as [A1 A2 A3 A4 A5 A6]. specialize (A5 Hh).
    destruct Hi as [Hi1 Hi2]. unfold resolve_subgroup in A6. rewrite Hi1, Hh in A6.
    split_and!; [done| |].
    + apply SSorted_cons; [done|]. apply Forall_fmap. eapply Forall_impl; [exact Hall|].
      simpl. intros d' (? & _). lia.
    + apply Forall_cons. split; [rewrite Ho; split_and!; [lia|done|congruence..]|].
      eapply Forall_impl; [exact Hall|]. simpl. intros d' (? & ? & ? & ?).
      split_and!; [lia|done|congruence..].
  - pose proof (ReadDecoded_adv s Hi) as Ha. rewrite Hr in Ha.
    destruct (IH (advanced_inv _ _ Ha) (adv_have _ _ Ha)) as (Hi' & Hsort & Hall).
    destruct Ha as [A1 A2 A3 A4 A5 A6]. specialize (A5 Hh).
    destruct Hi as [Hi1 Hi2]. unfold resolve_subgroup in A6. rewrite Hi1, Hh in A6.
    split_and!; [done|done|]. eapply Forall_impl; [exact Hall|]. simpl.
    intros d' (? & ? & ? & ?). split_and!; [lia|done|congruence..].
Qed.

(** *** From a writer to a reader *)

(** The bytes handed to the transport. *)
Definition wire (evs : list event) : bytes :=
  concat (omap (fun ev => match ev with EvWrite d => Some d | _ => None end) evs).

Lemma wire_app a b : wire (a ++ b) = wire a ++ wire b.
Proof. unfold wire. by rewrite omap_app, concat_app. Qed.

(** A call that nothing outside the stream interferes with. *)
Definition quiet : WriteEnv := MkEnv false false 0 Written.

Fixpoint write_all (ops : list (Z * SubgroupObject)) (s : OutgoingSubgroupStream) :
    OutgoingSubgroupStream :=
  match ops with
  | [] => s
  | (id, o) :: ops => write_all ops (WriteObjectAt quiet id o s).2
  end.

(** The writes that are not refused, and their encoding. *)
Fixpoint kept (prev : option Z) (ops : list (Z * SubgroupObject)) : list (Z * SubgroupObject) :=
  match ops with
  | [] => []
  | (id, o) :: ops =>
      if match prev with Some p => id <=? p | None => false end then kept prev ops
      else (id, o) :: kept (Some id) ops
  end.

Definition delta_from (prev : option Z) (id : Z) : Z :=
  match prev with Some p => id - p - 1 | None => id end.

Fixpoint enc (hp : bool) (prev : option Z) (l : list (Z * SubgroupObject)) : bytes :=
  match l with
  | [] => []
  | (id, o) :: l => e_SO (with_delta o (delta_from prev id)) hp ++ enc hp (Some id) l
  end.

Definition out_prev (s : OutgoingSubgroupStream) : option Z :=
  if encHavePrev s then Some (encPrevObject s) else None.

Definition prev_ok (prev : option Z) : Prop := match prev with Some p => is_u64 p | None => True end.

Lemma emit_wire evs s : wire (os_events (emit s evs)) = wire (os_events s) ++ wire evs.
Proof. apply wire_app. Qed.

Lemma attempt_spec env o s :
  let '(r, s') := attempt_write env o s in
  (r = Ok tt <-> dst_Write env = Written) /\
  wire (os_events s') = wire (os_events s) ++ so_Append [] o (sh_Properties (os_header s)) /\
  os_header s' = os_header s /\ hooked s' = hooked s /\ pubTimeouts s' = pubTimeouts s /\
  subTimeouts s' = subTimeouts s /\ objectTimeout s' = objectTimeout s /\
  subgroupTimeout s' = subgroupTimeout s /\ sawFirstObject s' = sawFirstObject s.
Proof.
  unfold attempt_write. cbv zeta. set (data := so_Append _ _ _). set (id := if encHavePrev s then _ else _).
  assert (Hw : forall b (c : bool) u, wire ((if b : bool then [EvObject (sh_GroupID (os_header s)) id] else []) ++
    (if c then [EvDeadline (Some u)] else []) ++ [EvWrite data] ++ (if c then [EvDeadline None] else [])) = data).
  { intros [] [] u; cbn; by rewrite app_nil_r. }
  destruct (dst_Write env) as [|e b] eqn:Ew.
  - split_and!; try done. etrans; [apply emit_wire|]. by rewrite Hw.
  - destruct (_ && b); (split_and!; try done).
    + unfold os_Cancel. rewrite !emit_wire, Hw. destruct (hooked _); cbn; by rewrite app_nil_r.
    + by rewrite emit_wire, Hw.
Qed.

Lemma write_quiet obj s id : is_u64 id -> prev_ok (out_prev s) ->
  (forall p, out_prev s = Some p -> p < id) ->
  ObjectIDDelta obj = delta_from (out_prev s) id ->
  exists s', WriteObjectReceivedAt quiet obj s = (Ok tt, s') /\ os_header s' = os_header s /\
    wire (os_events s') = wire (os_events s) ++ e_SO obj (sh_Properties (os_header s)) /\
    out_prev s' = Some id.
Proof.
  intros Hid Hp Hlt Hd. unfold WriteObjectReceivedAt. cbv zeta. set (t := first_object s _).
  cbn [quiet env_ended env_paused elapsed]. rewrite !andb_false_r, Z.gtb_ltb.
  replace ((0 <? objectTimeout t) && (objectTimeout t <? 0)) with false
    by (destruct (Z.ltb_spec 0 (objectTimeout t)), (Z.ltb_spec (objectTimeout t) 0); try done; lia).
  pose proof (attempt_spec quiet obj t) as H. destruct (attempt_write quiet obj t) as [r s'] eqn:E.
  destruct H as ([_ Hr] & Hw & Hh & _). rewrite (Hr eq_refl) in *. exists s'. split_and!; [done|by rewrite Hh| |].
  { rewrite Hw. by rewrite so_Append_e. }
  unfold attempt_write in E. simpl dst_Write in E. cbv iota beta zeta in E. injection E as <-.
  unfold out_prev, delta_from in *. simpl. f_equal.
  rewrite Hd. destruct (encHavePrev s); [|done]. specialize (Hlt _ eq_refl). simpl in Hp.
  rewrite (u64_small (encPrevObject s + _)) by zlia. rewrite u64_small by zlia. lia.
Qed.

Lemma WriteObjectAt_quiet id obj s : is_u64 id -> prev_ok (out_prev s) ->
  if match out_prev s with Some p => id <=? p | None => false end
  then WriteObjectAt quiet id obj s = (Err (Wrapf "" ErrObjectIDNotIncreasing), s)
  else exists s', WriteObjectAt quiet id obj s = (Ok tt, s') /\ os_header s' = os_header s /\
    wire (os_events s') = wire (os_events s) ++
      e_SO (with_delta obj (delta_from (out_prev s) id)) (sh_Properties (os_header s)) /\
    out_prev s' = Some id.
Proof.
  intros Hid Hp. pose proof (write_quiet (with_delta obj (delta_from (out_prev s) id)) s id Hid Hp) as H.
  unfold WriteObjectAt, out_prev in *. destruct (encHavePrev s); simpl in *.
  - destruct (Z.leb_spec id (encPrevObject s)); [done|].
    rewrite (u64_small (id - _)), (u64_small (id - _ - 1)) by zlia. apply H; [|done]. by intros p [= <-].
  - apply H; done.
Qed.

Lemma write_all_quiet ops : forall s, Forall (fun p => is_u64 p.1) ops -> prev_ok (out_prev s) ->
  os_header (write_all ops s) = os_header s /\
  wire (os_events (write_all ops s)) =
    wire (os_events s) ++ enc (sh_Properties (os_header s)) (out_prev s) (kept (out_prev s) ops).
Proof.
  induction ops as [|[id o] ops IH]; intros s Hops Hp; simpl; [by rewrite app_nil_r|].
  apply Forall_cons in Hops as [Hid Hops]. simpl in Hid.
  pose proof (WriteObjectAt_quiet id o s Hid Hp) as H.
  destruct (match out_prev s with Some p => id <=? p | None => false end).
  - rewrite H. simpl. by apply IH.
  - destruct H as (s' & -> & Hh & Hw & Hp'). simpl.
    destruct (IH s' Hops) as [-> ->]; [by rewrite Hp'|]. by rewrite Hh, Hw, Hp', app_assoc.
Qed.

Definition in_prev (s : IncomingSubgroupStream) : option Z :=
  if decHavePrev s then Some (decPrevObject s) else None.

(** What the reader makes of one object of a subgroup. *)
Definition expect (h : SubgroupHeader) (sg : Z) (p : Z * SubgroupObject) : option DecodedSubgroupObject :=
  match check_properties (so_Properties p.2) (sh_GroupID h) p.1 with
  | Ok _ => Some (MkDecSub (sh_GroupID h) sg p.1 (so_ObjectStatus p.2) (so_Properties p.2) (so_Payload p.2))
  | Err _ => None
  end.

Definition obj_ok (hp : bool) (p : Z * SubgroupObject) : Prop :=
  is_u64 p.1 /\ wf_so (S:=Stream) hp p.2 /\ so_Validate p.2 = Ok tt.

Lemma next_id_delta s id : is_u64 id -> prev_ok (in_prev s) ->
  (forall p, in_prev s = Some p -> p < id) -> next_object_id s (delta_from (in_prev s) id) = Ok id.
Proof.
  intros Hid Hp Hlt. unfold next_object_id, in_prev, delta_from in *.
  destruct (decHavePrev s); [|done]. specialize (Hlt _ eq_refl). simpl in Hp.
  rewrite NextSubgroupObjectID_spec by zlia. rewrite decide_True by zlia. f_equal. lia.
Qed.

Lemma wf_so_delta hp o d : is_u64 d -> wf_so (S:=Stream) hp o -> wf_so (S:=Stream) hp (with_delta o d).
Proof. unfold wf_so. simpl. tauto. Qed.

(** The state after one object. *)
Definition after (s : IncomingSubgroupStream) (id : Z) (tail : Stream) : IncomingSubgroupStream :=
  MkSubIn (is_Header s) tail id true (resolve_subgroup s id) true 0.

Lemma read_one s id o tail :
  obj_ok (sh_Properties (is_Header s)) (id, o) -> prev_ok (in_prev s) ->
  (forall p, in_prev s = Some p -> p < id) ->
  s_at (is_rd s) (e_SO (with_delta o (delta_from (in_prev s) id)) (sh_Properties (is_Header s))) tail ->
  match expect (is_Header s) (resolve_subgroup s id) (id, o) with
  | Some d => ReadDecoded s = Got d (after s id tail)
  | None => exists e, ReadDecoded s = Malformed e None (after s id tail) /\
      errors_Is e ErrMalformedTrack = true
  end.
Proof.
  intros (Hid & Hw & Hv) Hp Hlt Hat. simpl in *. set (hp := sh_Properties (is_Header s)) in *.
  assert (Hd : is_u64 (delta_from (in_prev s) id)).
  { unfold delta_from. destruct (in_prev s) as [p|]; [|done]. specialize (Hlt p eq_refl). simpl in Hp. zlia. }
  set (o' := with_delta o (delta_from (in_prev s) id)) in *.
  assert (Hw' : wf_so (S:=Stream) hp o') by (by apply wf_so_delta).
  rewrite e_SO_split in Hat. destruct (s_at_app _ _ _ _ Hat) as (s1 & Ha1 & Ha2).
  pose proof (decodes_so_header (S:=Stream) hp o' Hw' _ _ Ha1) as E1.
  pose proof (decodes_so_payload (S:=Stream) hp o' Hw' _ _ Ha2) as E2.
  assert (Ev : (if len (so_Payload o') =? 0 then so_Validate (so_header o') else Ok tt) = Ok tt).
  { destruct (Z.eqb_spec (len (so_Payload o')) 0) as [E|E]; [|done]. apply len_zero in E.
    unfold o' in *. simpl in E. unfold so_Validate in *. simpl in *. by rewrite E in Hv. }
  unfold expect, ReadDecoded, ReadObject, ReadObjectHeader. fold hp. cbn [fst snd].
  rewrite E1, Ev. change (ObjectIDDelta (so_header o')) with (delta_from (in_prev s) id).
  rewrite next_id_delta by done. change (so_Properties (so_header o')) with (so_Properties o).
  cbv zeta. cbn [is_Header].
  destruct (check_properties (so_Properties o) (sh_GroupID (is_Header s)) id) as [[]|e];
    unfold ReadObjectPayload; cbn [is_Header is_rd pendingPayload]; rewrite E2; [done|]. eexists. split; [done|]. done.
Qed.

Lemma kept_length l : forall prev, (length (kept prev l) <= length l)%nat.
Proof.
  induction l as [|[id o] l IH]; intros prev; simpl; [done|].
  destruct (match prev with Some _ => _ | None => _ end); simpl;
    [specialize (IH prev)|specialize (IH (Some id))]; lia.
Qed.

Lemma kept_idemp l : forall prev, kept prev (kept prev l) = kept prev l.
Proof.
  induction l as [|[id o] l IH]; intros prev; simpl; [done|].
  destruct (match prev with Some p => id <=? p | None => false end) eqn:E; [done|].
  simpl. by rewrite E, IH.
Qed.

Lemma kept_Forall P l : forall prev, Forall P l -> Forall P (kept prev l).
Proof.
  induction l as [|[id o] l IH]; intros prev H; simpl; [done|].
  apply Forall_cons in H as [H1 H2].
  destruct (match prev with Some _ => _ | None => _ end); [by apply IH|].
  apply Forall_cons. split; [done|by apply IH].
Qed.

(** A stream that ends between objects, or inside one. *)
Lemma ReadDecoded_end s : is_rd s = MkStream [] Fin ->
  exists e, ReadDecoded s = Failed e false /\ errors_Is e EOF = true.
Proof.
  intros H. unfold ReadDecoded, ReadObject, ReadObjectHeader. rewrite H.
  exists (Wrapf "moqt/message: object ID delta" EOF). split; [|done].
  by destruct (sh_Properties (is_Header s)).
Qed.

Lemma ReadDecoded_cut s o k : wf_so (S:=Stream) (sh_Properties (is_Header s)) o ->
  so_Validate o = Ok tt ->
  (0 < k < length (e_SO o (sh_Properties (is_Header s))))%nat ->
  is_rd s = MkStream (take k (e_SO o (sh_Properties (is_Header s)))) Fin ->
  exists e, ReadDecoded s = Failed e true.
Proof.
  intros Hw Hv [Hk0 Hk] Hrd. set (hp := sh_Properties (is_Header s)) in *.
  destruct (cut_so hp o Hw k Hk) as (err & He & H1 & H2). unfold so_Parse, so_ParseBody in He.
  unfold ReadDecoded, ReadObject, ReadObjectHeader. fold hp. rewrite Hrd.
  unfold mbind, M_bind in He. rewrite decide_False in H1 by lia.
  destruct (so_ParseHeader hp _) as [[[o1 n] rd]|e1].
  - simpl in He. destruct (if n =? 0 then so_Validate o1 else Ok tt); [|eauto].
    destruct (next_object_id s (ObjectIDDelta o1)) as [id|]; [|eauto]. cbv zeta. cbn [is_Header].
    destruct (check_properties _ _ id); unfold ReadObjectPayload; cbn [is_rd pendingPayload];
      rewrite He; unfold checkFINMidObject; rewrite H1; eauto.
  - injection He as ->. unfold checkFINMidObject. rewrite H1. eauto.
Qed.

Lemma reads_enc l : forall s tail,
  Forall (obj_ok (sh_Properties (is_Header s))) l -> prev_ok (in_prev s) ->
  kept (in_prev s) l = l ->
  is_rd s = MkStream (enc (sh_Properties (is_Header s)) (in_prev s) l ++ tail) Fin ->
  let sg := match l with [] => 0 | (id, _) :: _ => resolve_subgroup s id end in
  exists s', reads s (expect (is_Header s) sg <$> l) s' /\ is_Header s' = is_Header s /\
    is_rd s' = MkStream tail Fin.
Proof.
  induction l as [|[id o] l IH]; intros s tail Hok Hp Hk Hrd; simpl in *.
  { exists s. split_and!; [constructor|done|done]. }
  apply Forall_cons in Hok as [Ho Hok].
  assert (Hlt : forall p, in_prev s = Some p -> p < id).
  { intros p Hp'. rewrite Hp' in Hk. destruct (Z.leb_spec id p); [|done].
    pose proof (f_equal length Hk) as Hlen. simpl in Hlen.
    pose proof (kept_length l (Some p)). lia. }
  assert (Hk' : kept (Some id) l = l).
  { destruct (match in_prev s with Some p => id <=? p | None => false end) eqn:E; [|by simplify_eq].
    destruct (in_prev s) as [p|]; [|done]. apply Z.leb_le in E. specialize (Hlt p eq_refl). lia. }
  set (hp := sh_Properties (is_Header s)) in *. pose proof Ho as [Hid _]. simpl in Hid.
  pose proof (read_one s id o (MkStream (enc hp (Some id) l ++ tail) Fin) Ho Hp Hlt) as Hr.
  destruct (IH (after s id (MkStream (enc hp (Some id) l ++ tail) Fin)) tail) as (s' & Hrs & Hh & Ht);
    [done|done|done|done|]. simpl in *. exists s'. split_and!; [|done|done].
  assert (Hsg : expect (is_Header s) (match l with [] => 0 | (id', _) :: _ =>
      resolve_subgroup (after s id (MkStream (enc hp (Some id) l ++ tail) Fin)) id' end) <$> l =
    expect (is_Header s) (resolve_subgroup s id) <$> l) by (by destruct l as [|[]]).
  rewrite Hsg in Hrs. destruct (expect (is_Header s) (resolve_subgroup s id) (id, o)) as [d|].
  - eapply reads_got; [|exact Hrs]. apply Hr. rewrite Hrd. split; [|done]. simpl. by rewrite <- app_assoc.
  - destruct Hr as (e & He & _); [rewrite Hrd; split; [simpl; by rewrite <- app_assoc|done]|].
    eapply reads_malformed; [exact He|exact Hrs].
Qed.

(** ** Theorems *)

(** on any subgroup stream, whatever bytes the peer sends, the objects read
    have strictly increasing Object IDs below 2^64, the header's Group ID and one
    Subgroup ID: zero, the header's, or the first object's ID, as the header's
    mode says; and a read that fails on a FIN inside an object closes the session. *)
Theorem subgroup_ids_increase h rd l s' : reads (NewIncomingSubgroup h rd) l s' ->
  StronglySorted Z.lt (ds_ObjectID <$> delivered l) /\
  (exists sg, Forall (fun d => ds_GroupID d = sh_GroupID h /\ ds_SubgroupID d = sg /\
                        is_u64 (ds_ObjectID d)) (delivered l) /\
     (sh_SubgroupIDMode h = SubgroupIDImplicitZero -> sg = 0) /\
     (sh_SubgroupIDMode h = SubgroupIDExplicit -> sg = sh_SubgroupID h) /\
     (sh_SubgroupIDMode h = SubgroupIDImplicitFirstObject ->
        forall d l', l = Some d :: l' -> sg = ds_ObjectID d)) /\
  (forall e closed, ReadDecoded s' = Failed e closed -> errors_Is e ErrUnexpectedEOF = true -> closed = true).
Proof.
  set (s0 := NewIncomingSubgroup h rd). assert (Hi0 : in_inv s0) by done. intros H.
  assert (Hend : forall s, in_inv s -> forall e closed, ReadDecoded s = Failed e closed ->
    errors_Is e ErrUnexpectedEOF = true -> closed = true).
  { intros s Hi e c Hr. pose proof (ReadDecoded_adv s Hi) as Ha. by rewrite Hr in Ha. }
  assert (Hsg : forall s1, advanced s0 s1 ->
    (sh_SubgroupIDMode h = SubgroupIDImplicitZero -> decSubgroupID s1 = 0) /\
    (sh_SubgroupIDMode h = SubgroupIDExplicit -> decSubgroupID s1 = sh_SubgroupID h) /\
    (sh_SubgroupIDMode h = SubgroupIDImplicitFirstObject -> decSubgroupID s1 = decPrevObject s1)).
  { intros s1 [_ _ _ _ _ ->]. unfold resolve_subgroup. simpl. split_and!; by intros ->. }
  inversion H as [s|s d s1 l1 s2 Hr H1|s e a s1 l1 s2 Hr H1]; subst.
  - split_and!; [constructor| |by apply Hend].
    exists (if sh_SubgroupIDMode h =? SubgroupIDExplicit then sh_SubgroupID h else 0).
    split_and!; [constructor|by intros ->|by intros ->|done].
  - pose proof (ReadDecoded_adv s0 Hi0) as Ha. rewrite Hr in Ha. destruct Ha as (Ha & Hg & Ho & Hs).
    destruct (reads_after _ _ _ H1 (advanced_inv _ _ Ha) (adv_have _ _ Ha)) as (Hi' & Hsort & Hall).
    pose proof Ha as [A1 _ _ A4 _ _]. destruct (Hsg s1 Ha) as (G1 & G2 & G3).
    split_and!; [| |by apply Hend].
    + apply SSorted_cons; [done|]. apply Forall_fmap. eapply Forall_impl; [exact Hall|].
      simpl. intros d' (? & _). lia.
    + exists (decSubgroupID s1). split_and!; [|done|done|].
      * apply Forall_cons. split; [split_and!; [done|done|by rewrite Ho]|].
        eapply Forall_impl; [exact Hall|]. simpl. rewrite A1. intros d' (? & ? & ? & ?). done.
      * intros Hm d' l' [= <- <-]. rewrite Ho. by apply G3.
  - pose proof (ReadDecoded_adv s0 Hi0) as Ha. rewrite Hr in Ha.
    destruct (reads_after _ _ _ H1 (advanced_inv _ _ Ha) (adv_have _ _ Ha)) as (Hi' & Hsort & Hall).
    pose proof Ha as [A1 _ _ _ _ _]. destruct (Hsg s1 Ha) as (G1 & G2 & G3).
    split_and!; [done| |by apply Hend].
    exists (decSubgroupID s1). split_and!; [|done|done|done].
    eapply Forall_impl; [exact Hall|]. simpl. rewrite A1. intros d' (? & ? & ? & ?). done.
Qed.

Definition sample_rd : Stream :=
  MkStream [Byte.x05; Byte.x01; Byte.xaa; Byte.x00; Byte.x01; Byte.xbb; Byte.x02] Fin.

Lemma subgroup_ids_increase_witness :
  exists s', reads (NewIncomingSubgroup (MkSubgroupHeader false 1 false false false 7 3 0 0) sample_rd)
    [Some (MkDecSub 3 5 5 0 [] [Byte.xaa]); Some (MkDecSub 3 5 6 0 [] [Byte.xbb])] s' /\
  StronglySorted Z.lt [5; 6] /\ ReadDecoded s' = Failed (Wrapf "moqt/message: payload length" ErrUnexpectedEOF) true.
Proof.
  set (s0 := NewIncomingSubgroup _ _).
  assert (Hr : reads s0 [Some (MkDecSub 3 5 5 0 [] [Byte.xaa]); Some (MkDecSub 3 5 6 0 [] [Byte.xbb])]
    (MkSubIn (is_Header s0) (MkStream [Byte.x02] Fin) 6 true 5 true 0)).
  { eapply reads_got; [vm_compute; reflexivity|]. eapply reads_got; [vm_compute; reflexivity|].
    constructor. }
  eexists. split; [exact Hr|]. split; [|vm_compute; reflexivity].
  destruct (subgroup_ids_increase _ _ _ _ Hr) as [H _]. exact H.
Defined.

(** The Subgroup ID the header promises for the objects written. *)
Definition stream_subgroup (h : SubgroupHeader) (l : list (Z * SubgroupObject)) : Z :=
  if sh_SubgroupIDMode h =? SubgroupIDExplicit then sh_SubgroupID h
  else if sh_SubgroupIDMode h =? SubgroupIDImplicitFirstObject
  then match l with (id, _) :: _ => id | [] => 0 end
  else 0.

Lemma accept_written h bs : wf_sh h ->
  acceptDataStream None (MkStream (WriteSubgroupHeader [] h ++ bs) Fin) =
  Accepted (DSSubgroup (NewIncomingSubgroup (norm_sh h) (MkStream bs Fin))).
Proof.
  intros Hw. pose proof Hw as [Hm _]. destruct (decode_type_spec h Hm) as [Hd Hu].
  unfold acceptDataStream, ReadDataStreamType. rewrite WriteSubgroupHeader_e. simpl app.
  rewrite <- app_assoc.
  rewrite (decodes_wrap _ _ _ _ (s_decodes_Varint _ Hu) _ (MkStream (e_SH h ++ bs) Fin)) by by split.
  assert (IsSubgroupHeaderType (sh_Type h) = true) as ->.
  { unfold DecodeSubgroupHeaderType in Hd. by destruct (IsSubgroupHeaderType (sh_Type h)). }
  by rewrite (decodes_sh h Hw _ (MkStream bs Fin)) by by split.
Qed.

Lemma expect_norm h l : wf_sh h ->
  let s0 := NewIncomingSubgroup (norm_sh h) (MkStream [] Fin) in
  expect (norm_sh h) (match l with [] => 0 | (id, _) :: _ => resolve_subgroup s0 id end) <$> l =
  expect h (stream_subgroup h l) <$> l.
Proof.
  intros [Hm _]. destruct l as [|[id o] l]; [done|]. simpl.
  unfold resolve_subgroup, stream_subgroup, norm_sh; simpl.
  unfold modes in Hm. repeat (apply elem_of_cons in Hm as [->|Hm]; [done|]). by apply elem_of_nil in Hm.
Qed.

(** C7: a subgroup, written and read.  Objects handed to [WriteObjectAt] with any
    absolute Object IDs, on a stream opened with any legal header and any delivery
    timeouts, arrive as exactly the objects whose ID exceeds every earlier one, in
    order, with the header's group and subgroup, as malformed where their
    properties are, and then a clean end of stream that leaves the session open;
    when the stream is instead cut inside a further object, the same objects
    arrive and then the session is closed. *)
Theorem subgroup_stream_roundtrip h ops pub sub hk dl tr :
  wf_sh h -> Forall (obj_ok (sh_Properties h)) ops ->
  let w := write_all ops (WithDeliveryTimeouts (NewOutgoingSubgroup h hk dl tr) pub sub) in
  let objects := expect h (stream_subgroup h (kept None ops)) <$> kept None ops in
  (exists r s' e, acceptDataStream None (MkStream (wire (os_events w)) Fin) = Accepted (DSSubgroup r) /\
     reads r objects s' /\ ReadDecoded s' = Failed e false /\ errors_Is e EOF = true) /\
  (forall p k, obj_ok (sh_Properties h) p ->
     let more := so_Append [] p.2 (sh_Properties h) in
     (0 < k < length more)%nat ->
     exists r s' e, acceptDataStream None (MkStream (wire (os_events w) ++ take k more) Fin) =
         Accepted (DSSubgroup r) /\ reads r objects s' /\ ReadDecoded s' = Failed e true).
Proof.
  intros Hw Hops w objects. set (s1 := WithDeliveryTimeouts (NewOutgoingSubgroup h hk dl tr) pub sub) in *.
  assert (Hu : Forall (fun p => is_u64 p.1) ops) by (eapply Forall_impl; [exact Hops|by intros p (? & _)]).
  destruct (write_all_quiet ops s1 Hu I) as [_ Hwire]. fold w in Hwire.
  change (wire (os_events s1)) with (WriteSubgroupHeader [] h ++ []) in Hwire.
  rewrite app_nil_r in Hwire. change (out_prev s1) with (@None Z) in Hwire.
  change (sh_Properties (os_header s1)) with (sh_Properties h) in Hwire.
  assert (Hreads : forall tail, exists r s', acceptDataStream None
      (MkStream (wire (os_events w) ++ tail) Fin) = Accepted (DSSubgroup r) /\ reads r objects s' /\
      is_Header s' = norm_sh h /\ is_rd s' = MkStream tail Fin).
  { intros tail. rewrite Hwire, <- app_assoc, accept_written by done.
    set (r := NewIncomingSubgroup (norm_sh h) _). exists r.
    destruct (reads_enc (kept None ops) r tail) as (s' & Hr & Hh & Ht);
      [by apply kept_Forall|done|apply kept_idemp|done|].
    exists s'. split_and!; [done| |done|done]. unfold objects. rewrite <- expect_norm by done. exact Hr. }
  split.
  - destruct (Hreads []) as (r & s' & Ha & Hr & _ & Ht). rewrite app_nil_r in Ha.
    destruct (ReadDecoded_end s' Ht) as (e & He & Hf). eauto 10.
  - intros p k (_ & Hwf & Hv) more Hk. destruct (Hreads (take k more)) as (r & s' & Ha & Hr & Hh & Ht).
    unfold more in *. rewrite so_Append_e in *. simpl app in *.
    destruct (ReadDecoded_cut s' p.2 k) as (e & He); rewrite ?Hh; [done|done|done|done|]. eauto 10.
Qed.

Lemma subgroup_stream_roundtrip_witness :
  exists r s' e, acceptDataStream None (MkStream (wire (os_events (write_all
      [(4, sample_object); (4, sample_object); (9, sample_object)]
      (WithDeliveryTimeouts (NewOutgoingSubgroup (MkSubgroupHeader false 1 false false false 7 3 0 0)
        true false true) (MkDT 5 5) (MkDT 0 2))))) Fin) = Accepted (DSSubgroup r) /\
    reads r [Some (MkDecSub 3 4 4 0 [] [Byte.x01; Byte.x02]); Some (MkDecSub 3 4 9 0 [] [Byte.x01; Byte.x02])] s' /\
    ReadDecoded s' = Failed e false /\ errors_Is e EOF = true.
Proof.
  assert (Hso : wf_so (S:=Stream) false sample_object).
  { unfold wf_so; simpl. rewrite ?MaxStreamFieldSize_val. split_and!; by_decide || done. }
  refine (proj1 (subgroup_stream_roundtrip (MkSubgroupHeader false 1 false false false 7 3 0 0)
    [(4, sample_object); (4, sample_object); (9, sample_object)] (MkDT 5 5) (MkDT 0 2)
    true false true _ _)).
  - unfold wf_sh, modes. simpl. split_and!; [rewrite !elem_of_cons; auto|zlia|zlia|zlia|zlia].
  - assert (Hok : forall id, is_u64 id -> obj_ok false (id, sample_object)) by (by intros).
    simpl. rewrite !Forall_cons. split_and!; [apply Hok; zlia..|constructor].
Defined.

(** *** Delivery timeouts over a stream's life *)

Fixpoint write_seq (ops : list (WriteEnv * SubgroupObject)) (s : OutgoingSubgroupStream) :
    OutgoingSubgroupStream :=
  match ops with
  | [] => s
  | (env, o) :: ops => write_seq ops (WriteObjectReceivedAt env o s).2
  end.

(** The timeouts in force once the first of [ops] has been seen. *)
Definition in_force (h : SubgroupHeader) (pub sub : DeliveryTimeouts)
    (ops : list (WriteEnv * SubgroupObject)) : DeliveryTimeouts :=
  match ops with
  | (_, o) :: _ =>
      if sh_Properties h && negb (ReplayingSubgroup h)
      then Effective (ApplyObjectProperties pub (so_Properties o)) sub else Effective pub sub
  | [] => Effective pub sub
  end.

(** Fields a write never touches, and the timeouts after it. *)
Lemma write_fields env o s :
  let s1 := first_object s (so_Properties o) in
  let s' := (WriteObjectReceivedAt env o s).2 in
  os_header s' = os_header s /\ hooked s' = hooked s /\ pubTimeouts s' = pubTimeouts s /\
  subTimeouts s' = subTimeouts s /\
  objectTimeout s' = objectTimeout s1 /\ subgroupTimeout s' = subgroupTimeout s1 /\
  sawFirstObject s' = true.
Proof.
  unfold WriteObjectReceivedAt. cbv zeta. set (t := first_object s (so_Properties o)).
  destruct (hooked t && env_ended env); [done|]. destruct (hooked t && env_paused env); [done|].
  destruct (_ && (elapsed env >? objectTimeout t)); [done|].
  pose proof (attempt_spec env o t) as H. destruct (attempt_write env o t) as [r s'].
  destruct H as (_ & _ & H1 & H2 & H3 & H4 & H5 & H6 & H7). by split_and!.
Qed.

Lemma write_seq_fields ops : forall s,
  let w := write_seq ops s in
  os_header w = os_header s /\ hooked w = hooked s /\
  (sawFirstObject s = true -> objectTimeout w = objectTimeout s /\ subgroupTimeout w = subgroupTimeout s).
Proof.
  induction ops as [|[env o] ops IH]; intros s; simpl; [done|].
  destruct (write_fields env o s) as (H1 & H2 & _ & _ & H5 & H6 & H7).
  destruct (IH (WriteObjectReceivedAt env o s).2) as (I1 & I2 & I3).
  split_and!; [congruence|congruence|]. intros Hs. destruct (I3 H7) as [-> ->].
  rewrite H5, H6. unfold first_object. simpl. by rewrite Hs.
Qed.

Lemma in_force_seq h pub sub hk dl tr ops :
  let w := write_seq ops (WithDeliveryTimeouts (NewOutgoingSubgroup h hk dl tr) pub sub) in
  os_header w = h /\ hooked w = hk /\
  objectTimeout w = dt_Object (in_force h pub sub ops) /\
  subgroupTimeout w = dt_Subgroup (in_force h pub sub ops).
Proof.
  destruct ops as [|[env o] ops]; [done|]. cbn [write_seq]. set (s0 := WithDeliveryTimeouts _ pub sub).
  destruct (write_fields env o s0) as (H1 & H2 & _ & _ & H5 & H6 & H7).
  destruct (write_seq_fields ops (WriteObjectReceivedAt env o s0).2) as (I1 & I2 & I3).
  destruct (I3 H7) as [-> ->]. split_and!; [by rewrite I1, H1|by rewrite I2, H2|rewrite H5|rewrite H6];
    unfold first_object; simpl; by destruct (_ && _).
Qed.

(** delivery timeouts of a subgroup stream.  After any sequence of writes the
    timeouts in force are those the first object's properties override on the
    publisher's side, only if the header carries properties and the stream starts
    the subgroup, resolved against the subscriber's; and each next object is
    written iff the publication is neither ended nor paused and the object is not
    older than the object timeout in force: a stale object resets the stream with
    DELIVERY_TIMEOUT and hands no byte to the transport. *)
Theorem object_timeout_enforced h pub sub hk dl tr ops env o :
  let w := write_seq ops (WithDeliveryTimeouts (NewOutgoingSubgroup h hk dl tr) pub sub) in
  let t := in_force h pub sub (ops ++ [(env, o)]) in
  let '(r, w') := WriteObjectReceivedAt env o w in
  let stale := 0 < dt_Object t < elapsed env in
  let gated := hk = true /\ (env_ended env = true \/ env_paused env = true) in
  (r = Ok tt <-> ~ gated /\ ~ stale /\ dst_Write env = Written) /\
  (wire (os_events w') = wire (os_events w) /\ (gated \/ stale) \/
   wire (os_events w') = wire (os_events w) ++ so_Append [] o (sh_Properties h) /\ ~ gated /\ ~ stale) /\
  (~ gated -> stale -> r = Err (Wrapf "" ErrDeliveryTimeout) /\
     EvCancel StreamResetDeliveryTimeout ∈ os_events w') /\
  dt_Subgroup t = subgroupTimeout w'.
Proof.
  intros w t. destruct (in_force_seq h pub sub hk dl tr ops) as (H1 & H2 & _ & _). fold w in H1, H2.
  destruct (in_force_seq h pub sub hk dl tr (ops ++ [(env, o)])) as (_ & _ & H3 & H4).
  assert (Hseq : forall l s, write_seq (l ++ [(env, o)]) s = (WriteObjectReceivedAt env o (write_seq l s)).2).
  { induction l as [|[env' o'] l IH]; intros s; [done|]. simpl. by rewrite IH. }
  rewrite Hseq in H3, H4. fold w in H3, H4. fold t in H3, H4.
  destruct (write_fields env o w) as (_ & _ & _ & _ & W5 & W6 & _).
  rewrite H3 in W5. rewrite H4 in W6. clear H3. revert H4. unfold WriteObjectReceivedAt. cbv zeta.
  set (w1 := first_object w (so_Properties o)) in *.
  assert (Hh : hooked w1 = hk) by exact H2. assert (Hhd : os_header w1 = h) by exact H1.
  assert (Hev : os_events w1 = os_events w) by done.
  rewrite Hh, <- W5, Z.gtb_ltb, <- Hev, <- Hhd. clearbody w1 t. clear Hseq.
  pose proof (attempt_spec env o w1) as Ha. destruct (attempt_write env o w1) as [r w'].
  destruct Ha as (Hr & Hw & _ & _ & _ & _ & _ & Hsub & _).
  assert (Hc : forall code, wire (os_events (os_Cancel code w1)) = wire (os_events w1)).
  { intros code. unfold os_Cancel. rewrite emit_wire. destruct (hooked w1); cbn; by rewrite app_nil_r. }
  set (gated := hk = true /\ _). set (stale := 0 < _ < _).
  assert (Hg : gated <-> (hk && env_ended env = true \/ hk && env_paused env = true)).
  { unfold gated. rewrite !andb_true_iff. tauto. }
  assert (Hs : stale <-> (0 <? dt_Object t) && (dt_Object t <? elapsed env) = true).
  { unfold stale. by rewrite andb_true_iff, !Z.ltb_lt. }
  assert (Hin : forall code, EvCancel code ∈ os_events (os_Cancel code w1)).
  { intros code. simpl. apply elem_of_app. right. left. }
  clearbody gated stale. destruct (hk && env_ended env); [|destruct (hk && env_paused env);
    [|destruct ((0 <? dt_Object t) && _)]]; cbv beta iota; rewrite ?Hc; intros H4; (split_and!; [| | |done]).
  all: rewrite ?Hs, ?Hg; intuition (congruence || auto).
Qed.

Lemma stale_object_refused :
  (WriteObjectReceivedAt (MkEnv false false 6 Written) sample_object
    (WithDeliveryTimeouts (NewOutgoingSubgroup sample_header false false false) (MkDT 5 0) (MkDT 9 0))).1 =
  Err (Wrapf "" ErrDeliveryTimeout).
Proof. vm_compute. reflexivity. Qed.
