(* ===== verification/Cache.v ===== *)
(** * Cache: the relay's per-track object cache

    [relay/cache/cache.go]: a fixed-capacity ring of objects with an index from
    {Group, Object} to ring slot, FIFO eviction, and expiry applied when reading.
    The clock is an argument of every operation that reads [time.Now]; times and
    durations are nanoseconds, the zero [time.Time] is 0.  The mutex makes each
    operation atomic, so a run is a sequence of operations. *)

From stdpp Require Import gmap.
From S2P Require Import Prelude Varint Wire KV Filter Params Objects.

(** ** Data *)
Inductive ForwardingPreference : Type := ForwardingSubgroup | ForwardingDatagram.

#[global] Instance ForwardingPreference_eq_dec : EqDecision ForwardingPreference.
Proof. solve_decision. Defined.

Record CachedObject : Type := MkCached {
  co_GroupID : Z; co_ObjectID : Z; co_SubgroupID : Z; co_PublisherPriority : Z;
  ForwardingPref : ForwardingPreference; co_Status : Z; co_Properties : bytes; co_Payload : bytes;
  ReceivedAt : Z; MaxCacheDuration : Z; HasMaxCacheDuration : bool; Stitched : bool;
  EndOfUnknownRange : bool; EndOfTimedOutRange : bool
}.

#[global] Instance CachedObject_eq_dec : EqDecision CachedObject.
Proof. solve_decision. Defined.

Definition IsRangeMarker (o : CachedObject) : bool := EndOfUnknownRange o || EndOfTimedOutRange o.
Definition IsStatusMarker (o : CachedObject) : bool := (len (co_Payload o) =? 0) && negb (co_Status o =? 0).

Definition co_loc (o : CachedObject) : Location := MkLoc (co_GroupID o) (co_ObjectID o).

(** [cacheKey] has the fields of a Location. *)
Definition cacheKey : Type := Location.

Record ObjectCache : Type := MkCache {
  ring : list (option CachedObject); head : nat; size : Z;
  index : gmap cacheKey nat; maxAge : Z
}.

Definition defaultUnboundedCapacity : Z := 65536.

Definition effectiveMaxSize (maxSize : Z) : Z :=
  if maxSize <=? 0 then defaultUnboundedCapacity else maxSize.

Definition NewObjectCache (maxSize maxDuration : Z) : ObjectCache :=
  MkCache (replicate (Z.to_nat (effectiveMaxSize maxSize)) None) 0 0 ∅ maxDuration.

(** ** Operations *)
Definition insertLocked (c : ObjectCache) (src : CachedObject) : ObjectCache :=
  let key := co_loc src in
  match index c !! key with
  | Some idx => MkCache (<[idx := Some src]> (ring c)) (head c) (size c) (index c) (maxAge c)
  | None =>
      let prev := mjoin (ring c !! head c) in
      let ix := match prev with Some p => delete (co_loc p) (index c) | None => index c end in
      let sz := match prev with Some _ => size c - 1 | None => size c end in
      MkCache (<[head c := Some src]> (ring c)) ((head c + 1) `mod` length (ring c))%nat (sz + 1)
        (<[key := head c]> ix) (maxAge c)
  end.

Definition received_at (now : Z) (o : CachedObject) : CachedObject :=
  MkCached (co_GroupID o) (co_ObjectID o) (co_SubgroupID o) (co_PublisherPriority o) (ForwardingPref o)
    (co_Status o) (co_Properties o) (co_Payload o) now (MaxCacheDuration o) (HasMaxCacheDuration o)
    (Stitched o) (EndOfUnknownRange o) (EndOfTimedOutRange o).

(** A nil object is not stored. *)
Definition Put (now : Z) (obj : option CachedObject) (c : ObjectCache) : ObjectCache :=
  match obj with None => c | Some o => insertLocked c (received_at now o) end.

Definition cached_datagram (d : ObjectDatagram) (maxAge : Z) (hasMaxAge : bool) : CachedObject :=
  MkCached (dg_GroupID d) (dg_ObjectID d) 0 (dg_PublisherPriority d) ForwardingDatagram
    (dg_ObjectStatus d) (dg_Properties d) (dg_ObjectPayload d) 0 maxAge hasMaxAge false false false.

Definition PutDatagram (now : Z) (d : option ObjectDatagram) (maxAge : Z) (hasMaxAge : bool)
    (c : ObjectCache) : ObjectCache :=
  match d with None => c | Some d => Put now (Some (cached_datagram d maxAge hasMaxAge)) c end.

Definition notExpiredLocked (now : Z) (c : ObjectCache) (obj : CachedObject) : bool :=
  let age := now - ReceivedAt obj in
  if HasMaxCacheDuration obj && ((MaxCacheDuration obj <=? 0) || (age >? MaxCacheDuration obj)) then false
  else (maxAge c <=? 0) || (age <=? maxAge c).

Definition Expired (now : Z) (c : ObjectCache) (obj : CachedObject) : bool :=
  if ReceivedAt obj =? 0 then false
  else if Stitched obj then (MaxCacheDuration obj >? 0) && (now - ReceivedAt obj >? MaxCacheDuration obj)
  else negb (notExpiredLocked now c obj).

Definition Get (now : Z) (c : ObjectCache) (group object : Z) : option CachedObject :=
  idx ← index c !! MkLoc group object;
  obj ← mjoin (ring c !! idx);
  if notExpiredLocked now c obj then Some obj else None.

Definition Len (c : ObjectCache) : Z := size c.

(** [sortObjects]: groups in the requested direction, objects ascending. *)
Definition sort_cmp (order : Z) (a b : CachedObject) : Z :=
  if negb (co_GroupID a =? co_GroupID b) then
    if order =? GroupOrderDescending then cmp_Compare (co_GroupID b) (co_GroupID a)
    else cmp_Compare (co_GroupID a) (co_GroupID b)
  else cmp_Compare (co_ObjectID a) (co_ObjectID b).

Definition sortObjects (objs : list CachedObject) (order : Z) : list CachedObject :=
  SortStableFunc (fun a b => sort_cmp order a b <? 0) objs.

Definition in_scan (now : Z) (c : ObjectCache) (start stop : Location) (slot : option CachedObject) :
    option CachedObject :=
  match slot with
  | None => None
  | Some obj =>
      if Less (co_loc obj) start || Less stop (co_loc obj) then None
      else if negb (notExpiredLocked now c obj) then None
      else Some obj
  end.

Definition GetRange (now : Z) (c : ObjectCache) (start stop : Location) (order : Z) : list CachedObject :=
  if Less stop start then [] else sortObjects (omap (in_scan now c start stop) (ring c)) order.

Definition Delete (group object : Z) (c : ObjectCache) : ObjectCache :=
  let key := MkLoc group object in
  match index c !! key with
  | None => c
  | Some idx => MkCache (<[idx := None]> (ring c)) (head c) (size c - 1) (delete key (index c)) (maxAge c)
  end.

(** ** The invariant *)

Definition live (r : list (option CachedObject)) : list CachedObject := omap id r.

(** The index is exactly the position of each stored object, the size counts
    them, and the head is a slot of the ring. *)
Record wf_cache (c : ObjectCache) : Prop := {
  wf_head : (head c < length (ring c))%nat;
  wf_index : forall k i, index c !! k = Some i <->
    exists o, ring c !! i = Some (Some o) /\ co_loc o = k;
  wf_size : size c = len (live (ring c))
}.

(** The queue the ring stands for, oldest slot first. *)
Definition queue (c : ObjectCache) : list (option CachedObject) :=
  drop (head c) (ring c) ++ take (head c) (ring c).

(** ** The FIFO it promises to be *)

Definition at_key (k : Location) (slot : option CachedObject) : Prop :=
  match slot with Some o => co_loc o = k | None => False end.
#[global] Instance at_key_dec k slot : Decision (at_key k slot).
Proof. destruct slot; simpl; apply _. Defined.

Definition q_set (k : Location) (new : option CachedObject) (q : list (option CachedObject)) :
    list (option CachedObject) :=
  (fun slot => if decide (at_key k slot) then new else slot) <$> q.

Definition q_find (k : Location) (q : list (option CachedObject)) : option CachedObject :=
  mjoin (list_find (at_key k) q ≫= fun p => Some p.2).

(** Storing a key the queue holds replaces it in place; storing a new one pushes
    it at the young end and drops the oldest slot. *)
Definition q_put (o : CachedObject) (q : list (option CachedObject)) : list (option CachedObject) :=
  if q_find (co_loc o) q is Some _ then q_set (co_loc o) (Some o) q else tail q ++ [Some o].

Definition q_delete (k : Location) (q : list (option CachedObject)) : list (option CachedObject) :=
  q_set k None q.

(** ** Lemmas *)

Lemma wf_unique c i j o p : wf_cache c -> ring c !! i = Some (Some o) -> ring c !! j = Some (Some p) ->
  co_loc o = co_loc p -> i = j.
Proof.
  intros Hw Hi Hj Hk. pose proof (proj2 (wf_index c Hw (co_loc o) i)) as H1.
  pose proof (proj2 (wf_index c Hw (co_loc o) j)) as H2.
  rewrite H1 in H2 by eauto. assert (Some i = Some j) by (apply H2; eauto). congruence.
Qed.

(** Writing the slot of a key is replacing that key everywhere. *)
Lemma insert_q_set c k i new : wf_cache c -> index c !! k = Some i ->
  <[i := new]> (ring c) = q_set k new (ring c).
Proof.
  intros Hw Hi. apply (wf_index c Hw) in Hi as (o & Ho & Hk).
  apply list_eq. intros j. unfold q_set. rewrite list_lookup_fmap.
  destruct (decide (i = j)) as [<-|Hne].
  - rewrite list_lookup_insert_eq by (by eapply lookup_lt_Some). rewrite Ho. simpl.
    by destruct (decide (co_loc o = k)).
  - rewrite list_lookup_insert_ne by done. destruct (ring c !! j) as [[p|]|] eqn:Hj; simpl; [|done..].
    destruct (decide (co_loc p = k)) as [E|]; [|done].
    exfalso. apply Hne. eapply wf_unique; eauto. congruence.
Qed.

Lemma q_set_queue k new c r : ring c = r ->
  drop (head c) (q_set k new r) ++ take (head c) (q_set k new r) = q_set k new (queue c).
Proof.
  intros <-. unfold queue, q_set. by rewrite fmap_app, fmap_drop, fmap_take.
Qed.

Lemma q_find_Some k q o : q_find k q = Some o -> Some o ∈ q /\ co_loc o = k.
Proof.
  unfold q_find. destruct (list_find (at_key k) q) as [[i slot]|] eqn:E; simpl; [|done].
  intros ->. apply list_find_Some in E as (Hl & Hk & _). split; [by eapply list_elem_of_lookup_2|done].
Qed.

Lemma q_find_None k q : q_find k q = None -> forall o, Some o ∈ q -> co_loc o <> k.
Proof.
  unfold q_find. destruct (list_find (at_key k) q) as [[i slot]|] eqn:E; simpl.
  - intros ->. by apply list_find_Some in E as (_ & Hk & _).
  - intros _ o Ho Hk. apply list_find_None in E. rewrite Forall_forall in E. by apply (E _ Ho).
Qed.

Lemma queue_elem c slot : slot ∈ queue c <-> slot ∈ ring c.
Proof.
  unfold queue. rewrite elem_of_app. rewrite <- (take_drop (head c) (ring c)) at 3.
  rewrite elem_of_app. tauto.
Qed.

(** The index answers as a search of the queue does. *)
Lemma index_find c k : wf_cache c ->
  (idx ← index c !! k; mjoin (ring c !! idx)) = q_find k (queue c).
Proof.
  intros Hw. destruct (q_find k (queue c)) as [o|] eqn:E.
  - apply q_find_Some in E as [Hin Hk]. apply queue_elem, list_elem_of_lookup in Hin as [i Hi].
    rewrite (proj2 (wf_index c Hw k i)) by eauto. simpl. by rewrite Hi.
  - destruct (index c !! k) as [i|] eqn:Hi; [|done]. apply (wf_index c Hw) in Hi as (o & Ho & Hk).
    exfalso. eapply q_find_None; [exact E| |exact Hk]. apply queue_elem. by eapply list_elem_of_lookup_2.
Qed.

Lemma index_mem c k : wf_cache c -> is_Some (index c !! k) <-> is_Some (q_find k (queue c)).
Proof.
  intros Hw. rewrite <- index_find by done. destruct (index c !! k) as [i|] eqn:Hi; simpl; [|done].
  apply (wf_index c Hw) in Hi as (o & -> & _). simpl. split; eauto.
Qed.

Lemma live_set k o (q : list (option CachedObject)) :
  len (live (q_set k (Some o) q)) = len (live q).
Proof.
  unfold live, len, q_set. induction q as [|[p|] q IH]; cbn [fmap list_fmap omap list_omap]; [done| |done].
  case_decide; simpl; lia.
Qed.

Lemma live_insert r i o : (i < length r)%nat ->
  len (live (<[i := o]> r)) = len (live r) - (if mjoin (r !! i) is Some _ then 1 else 0) + (if o is Some _ then 1 else 0).
Proof.
  unfold live, len. revert i. induction r as [|x r IH]; intros i Hi; simpl in *; [lia|].
  destruct i as [|i]; simpl.
  - destruct x, o; simpl; lia.
  - specialize (IH i ltac:(lia)). destruct x; simpl; unfold omap in IH; lia.
Qed.

(** Advancing the head over a slot just written. *)
Lemma queue_push r h (o : CachedObject) sz ix ma : (h < length r)%nat ->
  queue (MkCache (<[h := Some o]> r) ((h + 1) `mod` length r)%nat sz ix ma) =
  tail (drop h r ++ take h r) ++ [Some o].
Proof.
  intros Hh. destruct (lookup_lt_is_Some_2 r h Hh) as [x Hx].
  rewrite (drop_S _ _ _ Hx). unfold queue; simpl.
  destruct (decide (S h = length r)) as [E|E].
  - replace (h + 1)%nat with (length r) by lia. rewrite Nat.Div0.mod_same. simpl. rewrite app_nil_r.
    rewrite drop_0, (drop_ge r) by lia. simpl.
    rewrite insert_take_drop by done. rewrite (drop_ge r) by lia. done.
  - rewrite Nat.mod_small by lia. replace (h + 1)%nat with (S h) by lia.
    rewrite drop_insert_lt by lia. rewrite <- app_assoc. f_equal.
    rewrite (take_S_r _ _ (Some o)) by (rewrite list_lookup_insert_eq; done).
    by rewrite take_insert_ge by lia.
Qed.

Lemma insertLocked_wf c o : wf_cache c -> wf_cache (insertLocked c o).
Proof.
  intros Hw. unfold insertLocked. destruct (index c !! co_loc o) as [i|] eqn:Hi.
  - pose proof (insert_q_set c _ i (Some o) Hw Hi) as E.
    pose proof (proj1 (wf_index c Hw _ _) Hi) as (p & Hp & Hk). split; simpl.
    + rewrite length_insert. apply Hw.
    + intros k j. destruct (decide (i = j)) as [<-|Hne].
      * rewrite list_lookup_insert_eq by (by eapply lookup_lt_Some).
        split; [|intros (q & [= <-] & <-); done]. intros H. exists o. split; [done|].
        apply (wf_index c Hw) in H as (q & Hq & <-). rewrite Hp in Hq. congruence.
      * rewrite list_lookup_insert_ne by done. apply (wf_index c Hw).
    + rewrite E, live_set. apply Hw.
  - set (prev := mjoin (ring c !! head c)). set (ix := match prev with Some p => delete (co_loc p) (index c) | None => index c end).
    assert (Hix : forall k j, ix !! k = Some j <->
      j <> head c /\ exists q, ring c !! j = Some (Some q) /\ co_loc q = k).
    { intros k j. unfold ix, prev. destruct (ring c !! head c) as [[p|]|] eqn:Hp; simpl.
      - destruct (decide (co_loc p = k)) as [<-|Hne].
        + rewrite lookup_delete_eq. split; [done|]. intros (Hj & q & Hq & Hk).
          exfalso. apply Hj. eapply wf_unique; eauto.
        + rewrite lookup_delete_ne by done. rewrite (wf_index c Hw). split; [|naive_solver].
          intros (q & Hq & Hk). split; [|eauto]. intros ->. rewrite Hp in Hq. naive_solver.
      - rewrite (wf_index c Hw). split; [|naive_solver]. intros (q & Hq & Hk). split; [|eauto].
        intros ->. by rewrite Hp in Hq.
      - apply lookup_ge_None in Hp. pose proof (wf_head c Hw). lia. }
    pose proof (wf_head c Hw) as Hh. split; simpl.
    + rewrite length_insert. apply Nat.mod_upper_bound. lia.
    + intros k j. destruct (decide (co_loc o = k)) as [<-|Hne].
      * rewrite lookup_insert_eq. split.
        -- intros [= <-]. rewrite list_lookup_insert_eq by done. eauto.
        -- intros (q & Hq & Hk). destruct (decide (head c = j)) as [|Hj]; [congruence|].
           rewrite list_lookup_insert_ne in Hq by done. exfalso.
           assert (index c !! co_loc o = Some j) by (apply (wf_index c Hw); eauto). congruence.
      * rewrite lookup_insert_ne by done. rewrite Hix. destruct (decide (head c = j)) as [<-|Hj].
        -- rewrite list_lookup_insert_eq by done. split; [naive_solver|]. intros (q & [= <-] & ?). done.
        -- rewrite list_lookup_insert_ne by done. naive_solver.
    + rewrite live_insert by done. fold prev. rewrite (wf_size c Hw). destruct prev; simpl; lia.
Qed.

Lemma insertLocked_queue c o : wf_cache c -> queue (insertLocked c o) = q_put o (queue c).
Proof.
  intros Hw. unfold insertLocked, q_put. pose proof (index_mem c (co_loc o) Hw) as Hm.
  destruct (index c !! co_loc o) as [i|] eqn:Hi.
  - destruct (q_find (co_loc o) (queue c)) as [p|]; [|by destruct Hm as [[] ]].
    unfold queue at 1; simpl. rewrite (insert_q_set _ _ _ _ Hw Hi). by apply q_set_queue.
  - destruct (q_find (co_loc o) (queue c)) as [p|]; [by destruct Hm as [_ []]|].
    apply queue_push, Hw.
Qed.

Lemma Delete_wf g ob c : wf_cache c -> wf_cache (Delete g ob c).
Proof.
  intros Hw. unfold Delete. destruct (index c !! MkLoc g ob) as [i|] eqn:Hi; [|done].
  pose proof (proj1 (wf_index c Hw _ _) Hi) as (p & Hp & Hk). split; simpl.
  - rewrite length_insert. apply Hw.
  - intros k j. destruct (decide (MkLoc g ob = k)) as [<-|Hne].
    + rewrite lookup_delete_eq. split; [done|]. intros (q & Hq & Hq'). exfalso.
      destruct (decide (i = j)) as [<-|Hj].
      * rewrite list_lookup_insert_eq in Hq by (by eapply lookup_lt_Some). done.
      * rewrite list_lookup_insert_ne in Hq by done. apply Hj. eapply wf_unique; eauto. congruence.
    + rewrite lookup_delete_ne by done. rewrite (wf_index c Hw). destruct (decide (i = j)) as [<-|Hj].
      * rewrite list_lookup_insert_eq by (by eapply lookup_lt_Some). split; [|naive_solver].
        intros (q & Hq & Hq'). rewrite Hp in Hq. naive_solver.
      * by rewrite list_lookup_insert_ne by done.
  - rewrite live_insert by (by eapply lookup_lt_Some). rewrite Hp. simpl. rewrite (wf_size c Hw). lia.
Qed.

Lemma Delete_queue g ob c : wf_cache c -> queue (Delete g ob c) = q_delete (MkLoc g ob) (queue c).
Proof.
  intros Hw. unfold Delete, q_delete. destruct (index c !! MkLoc g ob) as [i|] eqn:Hi.
  - unfold queue at 1; simpl. rewrite (insert_q_set _ _ _ _ Hw Hi). by apply q_set_queue.
  - pose proof (index_mem c (MkLoc g ob) Hw) as Hm. rewrite Hi in Hm.
    destruct (q_find (MkLoc g ob) (queue c)) as [p|] eqn:E; [by destruct Hm as [_ []]|].
    unfold q_set. rewrite <- (list_fmap_id (queue c)) at 1. apply list_fmap_ext.
    intros j slot Hj. simpl. case_decide as Hd; [|done].
    destruct slot as [q|]; [|done]. simpl in Hd. exfalso.
    eapply q_find_None; [exact E| |exact Hd]. by eapply list_elem_of_lookup_2.
Qed.

(** *** Range scans *)

(** The order a response carries Locations in: groups in the group order, objects
    ascending within a group. *)
Definition stream_lt (order : Z) (a b : Location) : Prop :=
  if decide (order = GroupOrderDescending)
  then Group b < Group a \/ (Group a = Group b /\ Object a < Object b)
  else loc_lt a b.

#[global] Instance stream_lt_dec order a b : Decision (stream_lt order a b).
Proof. unfold stream_lt. destruct (decide _); apply _. Defined.

Lemma stream_lt_irrefl order a : ~ stream_lt order a a.
Proof. unfold stream_lt, loc_lt. case_decide; lia. Qed.

Lemma stream_lt_trans order a b c : stream_lt order a b -> stream_lt order b c -> stream_lt order a c.
Proof. unfold stream_lt, loc_lt. case_decide; lia. Qed.

Lemma stream_lt_total order a b : stream_lt order a b \/ a = b \/ stream_lt order b a.
Proof.
  unfold stream_lt, loc_lt. destruct a as [g o], b as [g' o']; simpl.
  destruct (decide (g = g' /\ o = o')) as [[-> ->]|Hne]; [auto|]. case_decide; lia.
Qed.

Lemma sort_cmp_spec order a b : (sort_cmp order a b <? 0) = true <-> stream_lt order (co_loc a) (co_loc b).
Proof.
  rewrite Z.ltb_lt. unfold sort_cmp, stream_lt, loc_lt. simpl.
  pose proof (cmp_Compare_spec (co_GroupID a) (co_GroupID b)).
  pose proof (cmp_Compare_spec (co_GroupID b) (co_GroupID a)).
  pose proof (cmp_Compare_spec (co_ObjectID a) (co_ObjectID b)).
  destruct (Z.eqb_spec (co_GroupID a) (co_GroupID b)); simpl;
    [|destruct (Z.eqb_spec order GroupOrderDescending)]; case_decide; lia.
Qed.

(** Sorting distinct Locations by the stream order puts them in strict order. *)
Lemma sort_stream_sorted (lt : CachedObject -> CachedObject -> bool) order l :
  (forall a b, lt a b = true <-> stream_lt order (co_loc a) (co_loc b)) -> NoDup (co_loc <$> l) ->
  StronglySorted (fun a b => stream_lt order (co_loc a) (co_loc b)) (SortStableFunc lt l).
Proof.
  intros Hlt Hn. assert (Hle : forall a b, le lt a b <-> ~ stream_lt order (co_loc b) (co_loc a)).
  { intros a b. unfold le. rewrite <- Hlt. by destruct (lt b a). }
  assert (Hs : StronglySorted (le lt) (SortStableFunc lt l)).
  { apply sort_stable_sorted.
    - intros a b c. rewrite !Hle. intros H1 H2 H3.
      destruct (stream_lt_total order (co_loc a) (co_loc b)) as [H|[H|H]]; [|congruence|done].
      apply H2. by eapply stream_lt_trans.
    - intros a b H. apply Hle. intros H'. apply Hlt in H.
      eapply stream_lt_irrefl, stream_lt_trans; eauto. }
  assert (Hn' : NoDup (co_loc <$> SortStableFunc lt l)) by (by rewrite sort_stable_perm).
  induction Hs as [|x k Hk IH Hx]; [constructor|].
  rewrite fmap_cons, NoDup_cons in Hn'. destruct Hn' as [Hni Hn'].
  constructor; [by apply IH|]. rewrite Forall_forall in Hx |- *. intros y Hy.
  specialize (Hx y Hy). apply Hle in Hx.
  destruct (stream_lt_total order (co_loc x) (co_loc y)) as [H|[H|H]]; [done| |done].
  exfalso. apply Hni. rewrite H. by apply list_elem_of_fmap_2.
Qed.

Lemma sortObjects_sorted order l : NoDup (co_loc <$> l) ->
  StronglySorted (fun a b => stream_lt order (co_loc a) (co_loc b)) (sortObjects l order).
Proof. apply sort_stream_sorted, sort_cmp_spec. Qed.

Lemma live_NoDup c : wf_cache c -> NoDup (co_loc <$> live (ring c)).
Proof.
  intros Hw. unfold live. assert (H : forall i j o p, ring c !! i = Some (Some o) ->
    ring c !! j = Some (Some p) -> co_loc o = co_loc p -> i = j) by (intros; by eapply wf_unique).
  clear Hw. induction (ring c) as [|x r IH]; [constructor|].
  assert (Hr : NoDup (co_loc <$> omap id r)).
  { apply IH. intros i j o p Hi Hj Hk. specialize (H (S i) (S j) o p Hi Hj Hk). lia. }
  destruct x as [o|]; [|exact Hr]. simpl. constructor; [|exact Hr].
  intros Hin. apply list_elem_of_fmap in Hin as (p & Hp & Hin).
  apply list_elem_of_omap in Hin as (y & Hy & Hid). simpl in Hid. subst.
  apply list_elem_of_lookup in Hy as [j Hj]. by specialize (H 0%nat (S j) o p eq_refl Hj Hp).
Qed.

Lemma omap_sub_NoDup {A} (f g : A -> option CachedObject) r :
  (forall x o, f x = Some o -> g x = Some o) ->
  NoDup (co_loc <$> omap g r) -> NoDup (co_loc <$> omap f r).
Proof.
  intros Hfg. induction r as [|x r IH]; simpl; [done|]. intros Hn.
  assert (Hsub : forall o, o ∈ omap f r -> o ∈ omap g r).
  { intros o Ho. apply list_elem_of_omap in Ho as (y & Hy & Hf). apply list_elem_of_omap. eauto. }
  destruct (f x) as [o|] eqn:Ef.
  - rewrite (Hfg _ _ Ef) in Hn. simpl in Hn |- *. apply NoDup_cons in Hn as [Hni Hn].
    constructor; [|by apply IH]. intros Hin. apply Hni.
    apply list_elem_of_fmap in Hin as (p & -> & Hp). apply list_elem_of_fmap_2. by apply Hsub.
  - apply IH. destruct (g x); [|done]. by apply NoDup_cons in Hn as [_ Hn].
Qed.

(** ** Runs *)
Inductive cache_op : Type :=
| OpPut (now : Z) (obj : option CachedObject)
| OpPutDatagram (now : Z) (d : option ObjectDatagram) (maxAge : Z) (hasMaxAge : bool)
| OpDelete (group object : Z).

Definition run_op (c : ObjectCache) (op : cache_op) : ObjectCache :=
  match op with
  | OpPut now obj => Put now obj c
  | OpPutDatagram now d ma has => PutDatagram now d ma has c
  | OpDelete g o => Delete g o c
  end.

(** The same operations on the queue. *)
Definition q_op (q : list (option CachedObject)) (op : cache_op) : list (option CachedObject) :=
  match op with
  | OpPut now (Some o) => q_put (received_at now o) q
  | OpPutDatagram now (Some d) ma has => q_put (received_at now (cached_datagram d ma has)) q
  | OpDelete g o => q_delete (MkLoc g o) q
  | _ => q
  end.

Definition new_queue (maxSize : Z) : list (option CachedObject) :=
  replicate (Z.to_nat (effectiveMaxSize maxSize)) None.

Lemma NewObjectCache_wf maxSize maxDuration : wf_cache (NewObjectCache maxSize maxDuration).
Proof.
  split; simpl.
  - rewrite length_replicate. unfold effectiveMaxSize, defaultUnboundedCapacity.
    destruct (Z.leb_spec maxSize 0); lia.
  - intros k i. rewrite lookup_empty. split; [done|]. intros (o & Ho & _).
    by apply lookup_replicate in Ho as [? _].
  - induction (Z.to_nat _) as [|n IH]; [done|exact IH].
Qed.

Lemma run_op_ok c op : wf_cache c -> wf_cache (run_op c op) /\ queue (run_op c op) = q_op (queue c) op /\
  length (ring (run_op c op)) = length (ring c) /\ maxAge (run_op c op) = maxAge c.
Proof.
  intros Hw. assert (Hi : forall o, wf_cache (insertLocked c o) /\ queue (insertLocked c o) = q_put o (queue c) /\
    length (ring (insertLocked c o)) = length (ring c) /\ maxAge (insertLocked c o) = maxAge c).
  { intros o. split_and!; [by apply insertLocked_wf|by apply insertLocked_queue| |];
      unfold insertLocked; destruct (index c !! co_loc o); simpl; by rewrite ?length_insert. }
  destruct op as [now [o|]|now [d|] ma has|g o]; simpl; try apply Hi; try done.
  split_and!; [by apply Delete_wf|by apply Delete_queue| |];
    unfold Delete; destruct (index c !! MkLoc g o); simpl; by rewrite ?length_insert.
Qed.

Lemma run_ok ops : forall c, wf_cache c ->
  let c' := fold_left run_op ops c in
  wf_cache c' /\ queue c' = fold_left q_op ops (queue c) /\
  length (ring c') = length (ring c) /\ maxAge c' = maxAge c.
Proof.
  induction ops as [|op ops IH]; intros c Hw; simpl; [done|].
  destruct (run_op_ok c op Hw) as (H1 & H2 & H3 & H4).
  destruct (IH _ H1) as (I1 & I2 & I3 & I4). rewrite I2, I3, I4, H2, H3, H4. done.
Qed.

Lemma live_queue c : live (queue c) ≡ₚ live (ring c).
Proof.
  unfold live, queue. rewrite <- (take_drop (head c) (ring c)) at 3. rewrite !omap_app. apply Permutation_app_comm.
Qed.

Lemma live_le (r : list (option CachedObject)) : (length (live r) <= length r)%nat.
Proof. unfold live. induction r as [|[o|] r IH]; simpl; unfold omap in *; lia. Qed.

(** ** Theorems *)

(** C3: the ring is a bounded FIFO.  Through any sequence of stores and deletes
    on a cache of any capacity, the ring (with its head, index and size) is the
    queue that replaces a stored key in place, pushes a new key at the young end
    dropping the oldest slot, and empties the slot of a deleted key: the same
    slots in the same order, [Get] finds what the queue holds unless it has
    expired, [Len] counts it and never exceeds the capacity, no key is held twice. *)
Theorem cache_refines_fifo maxSize maxDuration ops :
  let c := fold_left run_op ops (NewObjectCache maxSize maxDuration) in
  let q := fold_left q_op ops (new_queue maxSize) in
  queue c = q /\
  (forall now g o, Get now c g o =
     match q_find (MkLoc g o) q with
     | Some obj => if notExpiredLocked now c obj then Some obj else None
     | None => None
     end) /\
  Len c = len (live q) /\ Len c <= effectiveMaxSize maxSize /\ NoDup (co_loc <$> live q).
Proof.
  intros c q. destruct (run_ok ops _ (NewObjectCache_wf maxSize maxDuration)) as (Hw & Hq & Hl & _).
  fold c in Hw, Hq, Hl. assert (Hq0 : queue c = q).
  { rewrite Hq. unfold q. f_equal. unfold queue; simpl. by rewrite drop_0, app_nil_r. }
  split_and!; [done| | | |].
  - intros now g o. unfold Get. rewrite <- Hq0, <- index_find by done.
    by destruct (index c !! MkLoc g o) as [i|]; simpl; [destruct (mjoin (ring c !! i))|].
  - unfold Len. rewrite (wf_size c Hw), <- Hq0. unfold len. by rewrite live_queue.
  - unfold Len. rewrite (wf_size c Hw). pose proof (live_le (ring c)). rewrite Hl in H. simpl in H.
    rewrite length_replicate in H. unfold len.
    assert (0 <= effectiveMaxSize maxSize).
    { unfold effectiveMaxSize, defaultUnboundedCapacity. destruct (Z.leb_spec maxSize 0); lia. }
    lia.
  - rewrite <- Hq0, live_queue. by apply live_NoDup.
Qed.

(** A range scan of a well-formed cache. *)
Lemma GetRange_ok c now start stop order : wf_cache c -> let l := GetRange now c start stop order in
  StronglySorted (fun a b => stream_lt order (co_loc a) (co_loc b)) l /\
  forall o, o ∈ l <->
    Get now c (co_GroupID o) (co_ObjectID o) = Some o /\ loc_le start (co_loc o) /\ loc_le (co_loc o) stop.
Proof.
  intros Hw l. assert (Hget : forall o, Get now c (co_GroupID o) (co_ObjectID o) = Some o <->
    Some o ∈ ring c /\ notExpiredLocked now c o = true).
  { intros o. unfold Get. change (MkLoc _ _) with (co_loc o). split.
    - intros H. destruct (index c !! co_loc o) as [i|] eqn:Hi; [|done]. simpl in H.
      apply (wf_index c Hw) in Hi as (p & Hp & Hk). rewrite Hp in H. simpl in H.
      destruct (notExpiredLocked now c p) eqn:E; [|done]. simplify_eq.
      split; [by eapply list_elem_of_lookup_2|done].
    - intros [Hin Hne]. apply list_elem_of_lookup in Hin as [i Hi].
      rewrite (proj2 (wf_index c Hw (co_loc o) i)) by eauto. simpl. rewrite Hi. simpl. by rewrite Hne. }
  assert (Hscan : forall slot o, in_scan now c start stop slot = Some o <->
    slot = Some o /\ notExpiredLocked now c o = true /\ loc_le start (co_loc o) /\ loc_le (co_loc o) stop).
  { intros [p|] o; simpl; [|naive_solver]. rewrite <- !Less_false.
    destruct (Less (co_loc p) start) eqn:E1, (Less stop (co_loc p)) eqn:E2,
      (notExpiredLocked now c p) eqn:E3; simpl;
      (split; [intros H; simplify_eq; by rewrite ?E1, ?E2, ?E3|
               intros (H & ? & ? & ?); simplify_eq; congruence]). }
  unfold l, GetRange. destruct (Less stop start) eqn:El.
  - split; [constructor|]. intros o. split; [by intros ?%elem_of_nil|]. intros (_ & H1 & H2).
    apply Less_spec in El. exfalso. unfold loc_le, loc_lt in *. lia.
  - split.
    + apply sortObjects_sorted. eapply (omap_sub_NoDup _ id); [|by apply live_NoDup].
      intros slot o H. by apply Hscan in H as [-> _].
    + intros o. transitivity (o ∈ omap (in_scan now c start stop) (ring c));
        [by apply elem_of_Permutation_proper, sort_stable_perm|].
      rewrite list_elem_of_omap, Hget. split.
      * intros (slot & Hin & H). apply Hscan in H as (-> & ? & ? & ?). done.
      * intros ([Hin Hne] & H1 & H2). exists (Some o). split; [done|]. by apply Hscan.
Qed.

Lemma Get_loc now c g o obj : wf_cache c -> Get now c g o = Some obj -> co_loc obj = MkLoc g o.
Proof.
  intros Hw. unfold Get. destruct (index c !! MkLoc g o) as [i|] eqn:Hi; [|done]. simpl.
  apply (wf_index c Hw) in Hi as (p & Hp & Hk). rewrite Hp. simpl. destruct (notExpiredLocked now c p); [|done].
  congruence.
Qed.

Lemma Get_ring now c g o obj : Get now c g o = Some obj -> Some obj ∈ ring c.
Proof.
  unfold Get. destruct (index c !! MkLoc g o) as [i|]; [|done]. simpl. destruct (ring c !! i) as [[p|]|] eqn:E; [|done..].
  simpl. destruct (notExpiredLocked now c p); [|done]. intros [= ->]. by eapply list_elem_of_lookup_2.
Qed.

Lemma Get_Delete now c g ob g' ob' : wf_cache c ->
  Get now (Delete g ob c) g' ob' = if decide (MkLoc g' ob' = MkLoc g ob) then None else Get now c g' ob'.
Proof.
  intros Hw. unfold Get, Delete. destruct (index c !! MkLoc g ob) as [i|] eqn:Hi; simpl.
  - case_decide as E; [rewrite E, lookup_delete_eq; done|]. rewrite lookup_delete_ne by congruence.
    destruct (index c !! MkLoc g' ob') as [k|] eqn:Hk; simpl; [|done].
    apply (wf_index c Hw) in Hi as (p & Hp & Ep). apply (wf_index c Hw) in Hk as (p' & Hp' & Ep').
    rewrite list_lookup_insert_ne; [done|]. intros ->. congruence.
  - case_decide as E; [|done]. by rewrite E, Hi.
Qed.

(** What a range scan returns.  After any sequence of operations [GetRange]
    returns exactly the objects in the range that [Get] would return, each once, in
    the order a response carries them: groups in the requested direction, object
    IDs ascending within a group. *)
Theorem get_range_exact maxSize maxDuration ops now start stop order :
  let c := fold_left run_op ops (NewObjectCache maxSize maxDuration) in
  let l := GetRange now c start stop order in
  StronglySorted (fun a b => stream_lt order (co_loc a) (co_loc b)) l /\
  forall o, o ∈ l <->
    Get now c (co_GroupID o) (co_ObjectID o) = Some o /\ loc_le start (co_loc o) /\ loc_le (co_loc o) stop.
Proof.
  intros c. destruct (run_ok ops _ (NewObjectCache_wf maxSize maxDuration)) as (Hw & _). by apply GetRange_ok.
Qed.

(** A deleted slot is reused when the head reaches it, not by the next store: here
    the third store drops the oldest object although a slot is free. *)
Lemma delete_slot_waits :
  let obj g := MkCached g 0 0 0 ForwardingSubgroup 0 [] [] 0 0 false false false false in
  let c := fold_left run_op [OpPut 1 (Some (obj 1)); OpPut 1 (Some (obj 2)); OpPut 1 (Some (obj 3));
                             OpDelete 2 0; OpPut 1 (Some (obj 4))] (NewObjectCache 3 0) in
  Len c = 2 /\ Get 1 c 1 0 = None /\ co_GroupID <$> live (queue c) = [3; 4].
Proof. vm_compute. done. Qed.
