(* ===== verification/FetchRanges.v ===== *)
(** * FetchRanges: what a FETCH response asserts about a range

    [relay/fetch_ranges.go] and the range arithmetic of [relay/handler_fetch.go]:
    which Locations of a requested range the relay knows nothing about, where the
    End of Range markers go, what an upstream's markers cover, and how an
    upstream's answer is stitched into the cache's.  A gap in a response asserts
    that the Objects in it do not exist, so the theorems are about never leaving
    a gap over a Location that is merely unknown. *)

From stdpp Require Import gmap.
From S2P Require Import Prelude Varint Wire KV Filter Params Properties Objects Cache.

Record LocRange : Type := MkRange { Lo : Location; Hi : Location }.

#[global] Instance LocRange_eq_dec : EqDecision LocRange.
Proof. solve_decision. Defined.

(** ** Neighbouring Locations *)
Definition locSucc (l : Location) : option Location :=
  if Object l <? MaxUint64 then Some (MkLoc (Group l) (u64 (Object l + 1)))
  else if Group l <? MaxUint64 then Some (MkLoc (u64 (Group l + 1)) 0)
  else None.

Definition fetchPredecessor (loc : Location) : option Location :=
  if Object loc >? 0 then Some (MkLoc (Group loc) (Object loc - 1))
  else if Group loc >? 0 then Some (MkLoc (Group loc - 1) MaxUint64)
  else None.

(** ** Ranges *)
Definition sort_ranges (known : list LocRange) : list LocRange :=
  SortStableFunc (fun a b => Compare (Lo a) (Lo b) <? 0) known.

Fixpoint uncovered_loop (known : list LocRange) (stop cur : Location) (out : list LocRange) : list LocRange :=
  match known with
  | [] => out ++ [MkRange cur stop]
  | k :: known =>
      if Less (Hi k) cur then uncovered_loop known stop cur out
      else if Less stop (Lo k) then out ++ [MkRange cur stop]
      else
        let out := if Less cur (Lo k)
                   then out ++ [MkRange cur (default (MkLoc 0 0) (fetchPredecessor (Lo k)))] else out in
        match locSucc (Hi k) with
        | None => out
        | Some next => if Less stop next then out else uncovered_loop known stop next out
        end
  end.

Definition uncovered (start stop : Location) (known : list LocRange) : list LocRange :=
  uncovered_loop (sort_ranges known) stop start [].

Definition known_of (o : CachedObject) : list LocRange :=
  let loc := co_loc o in
  let hi := if co_Status o =? ObjectStatusEndOfGroup then MkLoc (co_GroupID o) MaxUint64
            else if co_Status o =? ObjectStatusEndOfTrack then MkLoc MaxUint64 MaxUint64
            else loc in
  let gaps := ObjectPriorGaps (co_Properties o) in
  [MkRange loc hi] ++
  (if HasObject gaps && (pg_Object gaps >? 0)
   then [MkRange (MkLoc (co_GroupID o) (u64 (co_ObjectID o - pg_Object gaps)))
                 (MkLoc (co_GroupID o) (u64 (co_ObjectID o - 1)))] else []) ++
  (if HasGroup gaps && (pg_Group gaps >? 0)
   then [MkRange (MkLoc (u64 (co_GroupID o - pg_Group gaps)) 0)
                 (MkLoc (u64 (co_GroupID o - 1)) MaxUint64)] else []).

Definition knownFromCache (objs : list CachedObject) : list LocRange := concat (known_of <$> objs).

Definition unknownIn (absent : list LocRange) (objs : list CachedObject) (start stop : Location)
    (accounted : list LocRange) : list LocRange :=
  uncovered start stop (knownFromCache objs ++ absent ++ accounted).

Definition locRanges (locs : list Location) : list LocRange :=
  (fun l => MkRange l l) <$> SortStableFunc (fun a b => Compare a b <? 0) locs.

Definition holds (objs : list CachedObject) (loc : Location) : bool :=
  existsb (fun o => (co_GroupID o =? Group loc) && (co_ObjectID o =? Object loc)) objs.

Definition notHeld (locs : list Location) (objs : list CachedObject) : list Location :=
  List.filter (fun l => negb (holds objs l)) locs.

Definition dropHeld (rs : list LocRange) (objs : list CachedObject) : list LocRange :=
  List.filter (fun r => negb (holds objs (Lo r))) rs.

Definition no_cache_limit (o : CachedObject) : CachedObject :=
  MkCached (co_GroupID o) (co_ObjectID o) (co_SubgroupID o) (co_PublisherPriority o) (ForwardingPref o)
    (co_Status o) (co_Properties o) (co_Payload o) (ReceivedAt o) (MaxCacheDuration o) false
    (Stitched o) (EndOfUnknownRange o) (EndOfTimedOutRange o).

Definition handedLive (objs : list CachedObject) : list CachedObject :=
  (fun o => if HasMaxCacheDuration o && (MaxCacheDuration o <=? 0) then no_cache_limit o else o) <$> objs.

Definition withObjects (objs more : list CachedObject) : list CachedObject :=
  fold_left (fun objs m => if holds objs (co_loc m) then objs else objs ++ [m]) more objs.

Definition streamCompare (a b : Location) (order : Z) : Z :=
  if (order =? GroupOrderDescending) && negb (Group a =? Group b) then cmp_Compare (Group b) (Group a)
  else Compare a b.

Definition runEnds (r : LocRange) (order : Z) : list Location :=
  if negb (order =? GroupOrderDescending) || (Group (Lo r) =? Group (Hi r)) then [Hi r]
  else [Hi r] ++
    (if u64 (Group (Hi r) - Group (Lo r)) >? 1 then [MkLoc (u64 (Group (Lo r) + 1)) MaxUint64] else []) ++
    [MkLoc (Group (Lo r)) MaxUint64].

Definition marker (loc : Location) (unknown timedOut : bool) : CachedObject :=
  MkCached (Group loc) (Object loc) 0 0 ForwardingSubgroup 0 [] [] 0 0 false false unknown timedOut.
Definition unknownRangeMarker (loc : Location) : CachedObject := marker loc true false.
Definition timedOutRangeMarker (loc : Location) : CachedObject := marker loc false true.

(** A marker right before one of its own kind is dropped. *)
Fixpoint coalesce (elems : list CachedObject) : list CachedObject :=
  match elems with
  | e :: (n :: _) as rest =>
      if IsRangeMarker e && IsRangeMarker n && Bool.eqb (EndOfTimedOutRange e) (EndOfTimedOutRange n)
      then coalesce rest else e :: coalesce rest
  | _ => elems
  end.

Definition fetchElements (objs : list CachedObject) (unknown timedOut : list LocRange) (order : Z) :
    list CachedObject :=
  let elems := objs ++ (unknownRangeMarker <$> concat ((fun r => runEnds r order) <$> unknown))
                    ++ (timedOutRangeMarker <$> concat ((fun r => runEnds r order) <$> timedOut)) in
  coalesce (SortStableFunc (fun a b => streamCompare (co_loc a) (co_loc b) order <? 0) elems).

Definition intersect (a b : list LocRange) : list LocRange :=
  concat ((fun x => concat ((fun y =>
    let lo := if Less (Lo x) (Lo y) then Lo y else Lo x in
    let hi := if Less (Hi y) (Hi x) then Hi y else Hi x in
    if negb (Less hi lo) then [MkRange lo hi] else []) <$> b)) <$> a).

(** ** An upstream's response *)
Definition upstreamFetchElemOK (loc : Location) (prev : option Location) (span : LocRange) (order : Z) : bool :=
  if Less loc (Lo span) || Less (Hi span) loc then false
  else match prev with None => true | Some p => streamCompare p loc order <? 0 end.

Definition span_lo (span : LocRange) (g : Z) : Z := if g =? Group (Lo span) then Object (Lo span) else 0.
Definition span_hi (span : LocRange) (g : Z) : Z := if g =? Group (Hi span) then Object (Hi span) else MaxUint64.

Definition streamCovered (prev : option Location) (at' : Location) (span : LocRange) (order : Z) :
    list LocRange :=
  if negb (order =? GroupOrderDescending) then
    let from := match prev with Some p => default (MkLoc 0 0) (locSucc p) | None => Lo span end in
    [MkRange from at']
  else
    let from := match prev with
                | None => MkLoc (Group (Hi span)) (span_lo span (Group (Hi span)))
                | Some p =>
                    if Object p <? span_hi span (Group p) then MkLoc (Group p) (u64 (Object p + 1))
                    else MkLoc (u64 (Group p - 1)) (span_lo span (u64 (Group p - 1)))
                end in
    if Group from =? Group at' then [MkRange from at']
    else
      [MkRange (MkLoc (Group at') (span_lo span (Group at'))) at'] ++
      (if u64 (Group from - Group at') >? 1
       then [MkRange (MkLoc (u64 (Group at' + 1)) 0) (MkLoc (u64 (Group from - 1)) MaxUint64)] else []) ++
      [MkRange from (MkLoc (Group from) (span_hi span (Group from)))].

(** ** Lemmas *)

Definition in_range (r : LocRange) (l : Location) : Prop := loc_le (Lo r) l /\ loc_le l (Hi r).
Definition covers (rs : list LocRange) (l : Location) : Prop := Exists (fun r => in_range r l) rs.

#[global] Instance in_range_dec r l : Decision (in_range r l).
Proof. unfold in_range. apply _. Defined.
#[global] Instance covers_dec rs l : Decision (covers rs l).
Proof. unfold covers. apply _. Defined.

Definition wf_range (r : LocRange) : Prop := wf_loc (Lo r) /\ wf_loc (Hi r) /\ loc_le (Lo r) (Hi r).

Lemma covers_app a b l : covers (a ++ b) l <-> covers a l \/ covers b l.
Proof. apply Exists_app. Qed.

Lemma covers_cons r rs l : covers (r :: rs) l <-> in_range r l \/ covers rs l.
Proof. apply Exists_cons. Qed.

Lemma covers_nil l : covers [] l <-> False.
Proof. apply Exists_nil. Qed.

Lemma covers_concat rss l : covers (concat rss) l <-> Exists (fun rs => covers rs l) rss.
Proof.
  induction rss as [|rs rss IH]; simpl; [by rewrite covers_nil, Exists_nil|].
  by rewrite covers_app, Exists_cons, IH.
Qed.

Lemma covers_perm a b l : a ≡ₚ b -> covers a l <-> covers b l.
Proof. intros H. unfold covers. by rewrite H. Qed.

(** The open Location order on [uint64] coordinates has no Location in between. *)
Ltac loc_lia := unfold in_range, wf_range, wf_loc, loc_le, loc_lt in *; u64_unfold; simpl in *; lia.

Lemma locSucc_Some l n : wf_loc l -> locSucc l = Some n ->
  wf_loc n /\ (forall x, wf_loc x -> (loc_le n x <-> loc_lt l x)).
Proof.
  intros Hl. unfold locSucc. destruct (Z.ltb_spec (Object l) MaxUint64) as [H|H].
  - intros [= <-]. rewrite u64_small by loc_lia. split; [loc_lia|]. intros x Hx. loc_lia.
  - destruct (Z.ltb_spec (Group l) MaxUint64); [|done]. intros [= <-].
    rewrite u64_small by loc_lia. split; [loc_lia|]. intros x Hx. loc_lia.
Qed.

Lemma locSucc_None l x : wf_loc l -> wf_loc x -> locSucc l = None -> loc_le x l.
Proof.
  intros Hl Hx. unfold locSucc. destruct (Z.ltb_spec (Object l) MaxUint64); [done|].
  destruct (Z.ltb_spec (Group l) MaxUint64); [done|]. intros _. loc_lia.
Qed.

Lemma fetchPredecessor_spec l x : wf_loc l -> wf_loc x -> loc_lt x l ->
  exists p, fetchPredecessor l = Some p /\ wf_loc p /\ (forall y, wf_loc y -> (loc_le y p <-> loc_lt y l)).
Proof.
  intros Hl Hx Hlt. unfold fetchPredecessor. rewrite !Z.gtb_ltb.
  destruct (Z.ltb_spec 0 (Object l)); [eexists; split; [done|]; split; [loc_lia|]; intros y Hy; loc_lia|].
  destruct (Z.ltb_spec 0 (Group l)); [|loc_lia].
  eexists. split; [done|]. split; [loc_lia|]. intros y Hy. loc_lia.
Qed.


(** *** Uncovered Locations *)

(** Disjoint, in ascending order. *)
Definition ascending (rs : list LocRange) : Prop := StronglySorted (fun a b => loc_lt (Hi a) (Lo b)) rs.

Definition lo_sorted (rs : list LocRange) : Prop := StronglySorted (fun a b => loc_le (Lo a) (Lo b)) rs.

Lemma ascending_snoc rs r : ascending rs -> Forall (fun a => loc_lt (Hi a) (Lo r)) rs -> ascending (rs ++ [r]).
Proof.
  unfold ascending. induction 1 as [|x rs Hs IH Hx]; intros Hr; simpl; [repeat constructor|].
  apply Forall_cons in Hr as [H1 H2]. constructor; [by apply IH|].
  apply Forall_app. split; [done|by constructor].
Qed.

Record loop_inv (out : list LocRange) (cur : Location) : Prop := {
  li_wf : Forall wf_range out;
  li_asc : ascending out;
  li_below : Forall (fun r => loc_lt (Hi r) cur) out
}.

Lemma loop_inv_mono out cur cur' : loop_inv out cur -> loc_le cur cur' -> loop_inv out cur'.
Proof.
  intros [H1 H2 H3] Hle. split; [done|done|]. eapply Forall_impl; [exact H3|]. intros r. simpl. loc_lia.
Qed.

Lemma loop_inv_snoc out cur hi cur' : loop_inv out cur -> wf_range (MkRange cur hi) -> loc_lt hi cur' ->
  loop_inv (out ++ [MkRange cur hi]) cur'.
Proof.
  intros [H1 H2 H3] Hw Hlt. split.
  - apply Forall_app. split; [done|by constructor].
  - apply ascending_snoc; done.
  - apply Forall_app. split; [|by constructor]. eapply Forall_impl; [exact H3|]. intros r. simpl. loc_lia.
Qed.

(** What [uncovered_loop] returns from [cur] on, given what it has so far. *)
Definition uncovered_post (known : list LocRange) (stop cur : Location) (out res : list LocRange) : Prop :=
  Forall wf_range res /\ ascending res /\
  forall l, wf_loc l -> (covers res l <-> covers out l \/ (in_range (MkRange cur stop) l /\ ~ covers known l)).

Lemma post_final stop cur out known : wf_loc cur -> wf_loc stop -> loc_le cur stop -> loop_inv out cur ->
  Forall (fun k => loc_lt stop (Lo k)) known ->
  uncovered_post known stop cur out (out ++ [MkRange cur stop]).
Proof.
  intros Hc Hs Hle [H1 H2 H3] Hk. split_and!.
  - apply Forall_app. split; [done|]. constructor; [|constructor]. done.
  - by apply ascending_snoc.
  - intros l Hl. rewrite covers_app, covers_cons, covers_nil.
    assert (in_range (MkRange cur stop) l -> ~ covers known l).
    { intros Hin Hcov. unfold covers in Hcov. rewrite Exists_exists in Hcov.
      destruct Hcov as (k & Hk' & Hin'). rewrite Forall_forall in Hk. specialize (Hk k Hk'). simpl in Hk. clear -Hk Hin Hin'. loc_lia. }
    tauto.
Qed.

Lemma uncovered_loop_ok known : forall stop cur out,
  lo_sorted known -> Forall wf_range known -> wf_loc cur -> wf_loc stop -> loc_le cur stop ->
  loop_inv out cur -> uncovered_post known stop cur out (uncovered_loop known stop cur out).
Proof.
  induction known as [|k known IH]; intros stop cur out Hs Hw Hcur Hstop Hle Hinv; cbn [uncovered_loop].
  { apply post_final; try done. }
  inversion Hs as [|? ? Hs' Hlo]; subst. apply Forall_cons in Hw as [Hk Hw].
  destruct (Less (Hi k) cur) eqn:E1.
  { apply Less_spec in E1. destruct (IH stop cur out Hs' Hw Hcur Hstop Hle Hinv) as (P1 & P2 & P3).
    split_and!; [done|done|]. intros l Hl. rewrite P3 by done. rewrite covers_cons.
    assert (in_range (MkRange cur stop) l -> ~ in_range k l) by (clear -E1; loc_lia). tauto. }
  apply Less_false in E1. destruct (Less stop (Lo k)) eqn:E2.
  { apply Less_spec in E2. apply post_final; try done. constructor; [done|].
    eapply Forall_impl; [exact Hlo|]. intros r. simpl. clear -E2. loc_lia. }
  apply Less_false in E2. set (out' := if Less cur (Lo k) then _ else _).
  assert (Hout : (exists c', loop_inv out' c' /\ loc_le c' (Hi k) /\ Forall wf_range out') /\
    forall l, wf_loc l -> (covers out' l <-> covers out l \/ (in_range (MkRange cur stop) l /\ loc_lt l (Lo k)))).
  { unfold out'. destruct (Less cur (Lo k)) eqn:E3.
    - apply Less_spec in E3. destruct Hk as (Hk1 & Hk2 & Hk3).
      destruct (fetchPredecessor_spec (Lo k) cur Hk1 Hcur E3) as (p & -> & Hp & Hpx). simpl.
      assert (Hpl : loc_lt p (Lo k)) by (apply (Hpx p Hp); clear; loc_lia).
      assert (Hcp : loc_le cur p) by (by apply Hpx).
      pose proof (loop_inv_snoc out cur p (Lo k) Hinv (conj Hcur (conj Hp Hcp)) Hpl) as Hi.
      split; [exists (Lo k); split_and!; [done|done|apply Hi]|].
      intros l Hl. rewrite covers_app, covers_cons, covers_nil. specialize (Hpx l Hl).
      unfold in_range; simpl. assert (loc_lt l (Lo k) -> loc_le l stop) by (clear -E2; loc_lia). tauto.
    - apply Less_false in E3. split; [exists cur; split_and!; [done|done|apply Hinv]|].
      intros l Hl. assert (~ (in_range (MkRange cur stop) l /\ loc_lt l (Lo k))) by (clear -E3; loc_lia). tauto. }
  destruct Hout as [(c' & Hinv' & Hc' & Hwo) Hcov]. destruct Hk as (Hk1 & Hk2 & Hk3).
  assert (Hrest : forall l, wf_loc l -> loc_lt (Hi k) l \/ loc_le l (Hi k)) by (clear; intros; loc_lia).
  assert (Habove : forall l, covers known l -> loc_le (Lo k) l).
  { intros l Hcv. unfold covers in Hcv. rewrite Exists_exists in Hcv. destruct Hcv as (r & Hr & Hin).
    rewrite Forall_forall in Hlo. specialize (Hlo r Hr). simpl in Hlo. clear -Hlo Hin. loc_lia. }
  destruct (locSucc (Hi k)) as [next|] eqn:Es.
  - destruct (locSucc_Some _ _ Hk2 Es) as [Hn Hnx].
    assert (Hlt : loc_lt (Hi k) next) by (apply Hnx; [done|clear; loc_lia]).
    destruct (Less stop next) eqn:E4.
    + apply Less_spec in E4. split_and!; [done|apply Hinv'|]. intros l Hl. rewrite Hcov by done.
      rewrite covers_cons. specialize (Hnx l Hl). specialize (Habove l).
      assert (loc_le l stop -> loc_le l (Hi k)) by (destruct (Hrest l Hl) as [H|H]; [apply Hnx in H; clear -H E4; loc_lia|done]).
      assert (in_range (MkRange cur stop) l -> loc_lt l (Lo k) \/ in_range k l) by (clear -H; loc_lia).
      assert (loc_lt l (Lo k) -> ~ covers known l) by (intros Hx Hy%Habove; clear -Hx Hy; loc_lia).
      assert (loc_lt l (Lo k) -> ~ in_range k l) by (clear; loc_lia). tauto.
    + apply Less_false in E4.
      destruct (IH stop next out' Hs' Hw Hn Hstop E4) as (P1 & P2 & P3).
      { eapply loop_inv_mono; [exact Hinv'|clear -Hc' Hlt; loc_lia]. }
      split_and!; [done|done|]. intros l Hl. rewrite P3, Hcov by done. rewrite covers_cons.
      specialize (Hnx l Hl). specialize (Habove l).
      assert (in_range (MkRange next stop) l <-> loc_lt (Hi k) l /\ loc_le l stop) as -> by (unfold in_range; simpl; tauto).
      assert (loc_lt l (Lo k) -> ~ covers known l) by (intros Hx Hy%Habove; clear -Hx Hy; loc_lia).
      assert (loc_lt l (Lo k) -> ~ in_range k l) by (clear; loc_lia).
      assert (in_range (MkRange cur stop) l -> loc_lt l (Lo k) \/ in_range k l \/ (loc_lt (Hi k) l /\ loc_le l stop)) by (clear; loc_lia).
      assert (loc_lt (Hi k) l /\ loc_le l stop -> in_range (MkRange cur stop) l /\ ~ in_range k l) by (clear -E1; loc_lia). tauto.
  - split_and!; [done|apply Hinv'|]. intros l Hl. rewrite Hcov by done. rewrite covers_cons.
    pose proof (locSucc_None _ l Hk2 Hl Es) as Hlast. specialize (Habove l).
    assert (in_range (MkRange cur stop) l -> loc_lt l (Lo k) \/ in_range k l) by (clear -Hlast; loc_lia).
    assert (loc_lt l (Lo k) -> ~ covers known l) by (intros Hx Hy%Habove; clear -Hx Hy; loc_lia).
    assert (loc_lt l (Lo k) -> ~ in_range k l) by (clear; loc_lia). tauto.
Qed.

Lemma sort_ranges_sorted known : lo_sorted (sort_ranges known).
Proof.
  assert (Hle : forall a b : LocRange, le (fun a b => Compare (Lo a) (Lo b) <? 0) a b <-> loc_le (Lo a) (Lo b)).
  { intros a b. unfold le. rewrite <- Less_false. done. }
  eapply sorted_weaken; [|apply sort_stable_sorted].
  - intros a b. apply Hle.
  - intros a b c. rewrite !Hle. loc_lia.
  - intros a b H. apply Hle. apply Less_spec in H. loc_lia.
Qed.

Lemma uncovered_ok start stop known : wf_loc start -> wf_loc stop -> loc_le start stop ->
  Forall wf_range known -> uncovered_post known stop start [] (uncovered start stop known).
Proof.
  intros H1 H2 H3 H4. pose proof (sort_stable_perm (fun a b => Compare (Lo a) (Lo b) <? 0) known) as Hp.
  destruct (uncovered_loop_ok (sort_ranges known) stop start []) as (P1 & P2 & P3); try done.
  - apply sort_ranges_sorted.
  - unfold sort_ranges. by rewrite Hp.
  - split; [constructor|constructor|constructor].
  - split_and!; [done|done|]. intros l Hl. rewrite P3 by done.
    by rewrite (covers_perm (sort_ranges known) known l Hp).
Qed.

(** ** Stream order *)

Lemma streamCompare_spec a b order : (streamCompare a b order <? 0) = true <-> stream_lt order a b.
Proof.
  rewrite Z.ltb_lt. unfold streamCompare, stream_lt. pose proof (Compare_spec a b) as Hc.
  pose proof (cmp_Compare_spec (Group b) (Group a)) as Hg.
  destruct (Z.eqb_spec order GroupOrderDescending) as [E|E]; case_decide; try done; simpl.
  - destruct (Z.eqb_spec (Group a) (Group b)) as [Ee|Ee]; simpl; [|lia].
    destruct Hc as [[-> ?]|[[-> ->]|[-> ?]]]; loc_lia.
  - destruct Hc as [[-> ?]|[[-> ->]|[-> ?]]]; loc_lia.
Qed.

Definition stream_le (order : Z) (a b : Location) : Prop := ~ stream_lt order b a.

(** Unfold the stream order in either direction. *)
Ltac stream_cases order :=
  unfold stream_le, stream_lt in *;
  destruct (decide (order = GroupOrderDescending)) as [->|?].

(** [uncovered] computes the exact complement.  For a non-empty range and any
    list of known ranges, in any order and overlapping or not, its result is a list
    of disjoint, ascending, non-empty ranges that hold exactly the Locations of the
    range no known range holds. *)
Theorem uncovered_exact start stop known : wf_loc start -> wf_loc stop -> loc_le start stop ->
  Forall wf_range known ->
  let out := uncovered start stop known in
  Forall wf_range out /\ ascending out /\
  forall l, wf_loc l -> (covers out l <-> loc_le start l /\ loc_le l stop /\ ~ covers known l).
Proof.
  intros H1 H2 H3 H4 out. destruct (uncovered_ok start stop known H1 H2 H3 H4) as (P1 & P2 & P3).
  split_and!; [done|done|]. intros l Hl. fold out in P3. rewrite P3, covers_nil by done.
  unfold in_range. simpl. tauto.
Qed.

Lemma uncovered_exact_witness :
  let known := [MkRange (MkLoc 2 5) (MkLoc 2 7); MkRange (MkLoc 1 0) (MkLoc 2 3)] in
  uncovered (MkLoc 0 4) (MkLoc 2 9) known =
    [MkRange (MkLoc 0 4) (MkLoc 0 MaxUint64); MkRange (MkLoc 2 4) (MkLoc 2 4); MkRange (MkLoc 2 8) (MkLoc 2 9)] /\
  (covers (uncovered (MkLoc 0 4) (MkLoc 2 9) known) (MkLoc 2 4) <->
   loc_le (MkLoc 0 4) (MkLoc 2 4) /\ loc_le (MkLoc 2 4) (MkLoc 2 9) /\ ~ covers known (MkLoc 2 4)).
Proof.
  intros known. split; [vm_compute; reflexivity|].
  assert (Hk : Forall wf_range known) by (unfold known; repeat constructor; simpl; by_decide || loc_lia).
  destruct (uncovered_exact (MkLoc 0 4) (MkLoc 2 9) known) as (_ & _ & H);
    [by_decide|by_decide|by_decide|exact Hk|]. apply H. by_decide.
Defined.

(** *** What an upstream marker covers *)

Lemma locSucc_default p x : wf_loc p -> wf_loc x -> loc_lt p x ->
  wf_loc (default (MkLoc 0 0) (locSucc p)) /\
  forall y, wf_loc y -> (loc_le (default (MkLoc 0 0) (locSucc p)) y <-> loc_lt p y).
Proof.
  intros Hp Hx Hlt. destruct (locSucc p) as [n|] eqn:E; simpl.
  - by apply locSucc_Some.
  - pose proof (locSucc_None p x Hp Hx E). exfalso. loc_lia.
Qed.

(** In descending order group [g] of the span carries [span_lo g .. span_hi g]. *)
Lemma span_group span l : wf_range span -> wf_loc l -> Group (Lo span) <= Group l <= Group (Hi span) ->
  (in_range span l <-> span_lo span (Group l) <= Object l <= span_hi span (Group l)).
Proof.
  intros (H1 & H2 & H3) Hl Hg. unfold span_lo, span_hi.
  destruct (Z.eqb_spec (Group l) (Group (Lo span))), (Z.eqb_spec (Group l) (Group (Hi span))); loc_lia.
Qed.

Lemma span_lo_u64 span g : wf_range span -> is_u64 (span_lo span g).
Proof. intros (H1 & _). unfold span_lo. destruct (_ =? _); loc_lia. Qed.
Lemma span_hi_u64 span g : wf_range span -> is_u64 (span_hi span g).
Proof. intros (_ & H1 & _). unfold span_hi. destruct (_ =? _); loc_lia. Qed.

Lemma span_lo_hi span g : wf_range span -> Group (Lo span) <= g <= Group (Hi span) ->
  span_lo span g <= span_hi span g.
Proof.
  intros (H1 & H2 & H3) Hg. unfold span_lo, span_hi.
  destruct (Z.eqb_spec g (Group (Lo span))), (Z.eqb_spec g (Group (Hi span))); loc_lia.
Qed.

Definition desc_from (prev : option Location) (span : LocRange) : Location :=
  match prev with
  | None => MkLoc (Group (Hi span)) (span_lo span (Group (Hi span)))
  | Some p =>
      if Object p <? span_hi span (Group p) then MkLoc (Group p) (u64 (Object p + 1))
      else MkLoc (u64 (Group p - 1)) (span_lo span (u64 (Group p - 1)))
  end.

(** After the previous element, in stream order. *)
Definition stream_after (order : Z) (prev : option Location) (l : Location) : Prop :=
  match prev with None => True | Some p => stream_lt order p l end.

Lemma stream_lt_desc a b : stream_lt GroupOrderDescending a b <->
  Group b < Group a \/ (Group a = Group b /\ Object a < Object b).
Proof. unfold stream_lt. by rewrite decide_True. Qed.

Lemma stream_lt_asc order a b : order <> GroupOrderDescending -> stream_lt order a b <-> loc_lt a b.
Proof. intros. unfold stream_lt. by rewrite decide_False. Qed.

(** The first Location of the run a descending marker at [at'] closes. *)
Lemma desc_from_spec prev at' span : wf_range span -> wf_loc at' -> in_range span at' ->
  (forall p, prev = Some p -> wf_loc p /\ in_range span p) ->
  stream_after GroupOrderDescending prev at' ->
  let F := desc_from prev span in
  wf_loc F /\ in_range span F /\ Group at' <= Group F /\
  (forall l, wf_loc l -> in_range span l -> (stream_after GroupOrderDescending prev l <->
     Group l < Group F \/ (Group l = Group F /\ Object F <= Object l))).
Proof.
  intros Hs Hat Hin Hp Haf F. pose proof Hs as (S1 & S2 & S3). unfold F, desc_from.
  destruct prev as [p|]; simpl in Haf.
  - destruct (Hp p eq_refl) as [Hwp Hip]. rewrite stream_lt_desc in Haf.
    pose proof (span_group span p Hs Hwp ltac:(clear -Hip; loc_lia)) as Hgp.
    pose proof (span_group span at' Hs Hat ltac:(clear -Hin; loc_lia)) as Hga.
    pose proof (span_hi_u64 span (Group p) Hs) as Hu. simpl.
    setoid_rewrite stream_lt_desc. destruct (Z.ltb_spec (Object p) (span_hi span (Group p))) as [Hlt|Hge].
    + rewrite u64_small by (clear -Hlt Hu Hwp; loc_lia). cbn [Group Object].
      split_and!; [clear -Hlt Hu Hwp; loc_lia| | |].
      * apply (span_group span (MkLoc (Group p) (Object p + 1)) Hs); [clear -Hlt Hu Hwp; loc_lia
          |clear -Hip; loc_lia|]. simpl. apply Hgp in Hip. lia.
      * lia.
      * intros l Hl _. lia.
    + assert (Hne : Group at' < Group p).
      { destruct Haf as [|[E Hlt]]; [done|]. rewrite <- E in Hga. apply Hga in Hin. lia. }
      rewrite u64_small by (clear -Hne Hat Hwp; loc_lia). cbn [Group Object].
      pose proof (span_lo_u64 span (Group p - 1) Hs) as Hlu.
      assert (Hg1 : Group (Lo span) <= Group p - 1 <= Group (Hi span)) by (clear -Hne Hin Hip; loc_lia).
      assert (HF : wf_loc (MkLoc (Group p - 1) (span_lo span (Group p - 1)))) by (clear -Hne Hat Hwp Hlu; loc_lia).
      split_and!; [done| |lia|].
      * apply (span_group span _ Hs HF Hg1). simpl. pose proof (span_lo_hi span _ Hs Hg1). lia.
      * intros l Hl Hil. pose proof (span_group span l Hs Hl ltac:(clear -Hil; loc_lia)) as Hgl.
        apply Hgl in Hil. split; [|lia].
        intros [H|[E H]]; [|rewrite <- E in Hil; lia].
        destruct (decide (Group l = Group p - 1)) as [El|]; [right|left; lia].
        split; [done|]. rewrite El in Hil. lia.
  - cbn [Group Object]. pose proof (span_lo_u64 span (Group (Hi span)) Hs) as Hlu.
    assert (HF : wf_loc (MkLoc (Group (Hi span)) (span_lo span (Group (Hi span))))) by (clear -S2 Hlu; loc_lia).
    split_and!; [done| |clear -Hin; loc_lia|].
    + apply (span_group span _ Hs HF); [clear -S3; loc_lia|]. simpl.
      pose proof (span_lo_hi span (Group (Hi span)) Hs ltac:(clear -S3; loc_lia)). lia.
    + intros l Hl Hil. pose proof (span_group span l Hs Hl ltac:(clear -Hil; loc_lia)) as Hgl.
      split; [|done]. intros _. pose proof (proj1 Hgl Hil) as Hb.
      destruct (decide (Group l = Group (Hi span))) as [El|]; [right|left; clear -n Hil; loc_lia].
      rewrite El in Hb. split; [done|]. lia.
Qed.

Lemma elem_ok_spec loc prev span order : upstreamFetchElemOK loc prev span order = true <->
  in_range span loc /\ stream_after order prev loc.
Proof.
  unfold upstreamFetchElemOK, in_range. rewrite <- !Less_false.
  destruct (Less loc (Lo span)), (Less (Hi span) loc); simpl;
    [intuition congruence..|]. destruct prev as [p|]; simpl; [rewrite streamCompare_spec|]; intuition.
Qed.

(** The three ranges of a descending run from [F] down to [at']. *)
Definition desc_ranges (F at' : Location) (span : LocRange) : list LocRange :=
  if Group F =? Group at' then [MkRange F at']
  else
    [MkRange (MkLoc (Group at') (span_lo span (Group at'))) at'] ++
    (if u64 (Group F - Group at') >? 1
     then [MkRange (MkLoc (u64 (Group at' + 1)) 0) (MkLoc (u64 (Group F - 1)) MaxUint64)] else []) ++
    [MkRange F (MkLoc (Group F) (span_hi span (Group F)))].

Lemma in_same_group g lo hi l : in_range (MkRange (MkLoc g lo) (MkLoc g hi)) l <->
  Group l = g /\ lo <= Object l <= hi.
Proof. loc_lia. Qed.

Lemma desc_ranges_spec F at' span l : wf_range span -> wf_loc F -> in_range span F -> wf_loc at' ->
  in_range span at' -> Group at' <= Group F -> wf_loc l ->
  (covers (desc_ranges F at' span) l <-> in_range span l /\
     (Group l < Group F \/ (Group l = Group F /\ Object F <= Object l)) /\
     (Group at' < Group l \/ (Group l = Group at' /\ Object l <= Object at'))).
Proof.
  intros Hs HF HiF Ha Hia Hle Hl. pose proof Hs as (S1 & S2 & S3). unfold desc_ranges.
  assert (Hgl : Group at' <= Group l <= Group F ->
    (in_range span l <-> span_lo span (Group l) <= Object l <= span_hi span (Group l))).
  { intros Hg. apply span_group; [done|done|]. clear -Hg HiF Hia. loc_lia. }
  pose proof (span_group span F Hs HF ltac:(clear -HiF; loc_lia)) as HgF. apply HgF in HiF.
  pose proof (span_group span at' Hs Ha ltac:(clear -Hia; loc_lia)) as Hga. apply Hga in Hia.
  destruct F as [gF oF], at' as [ga oa]. simpl in *.
  destruct (Z.eqb_spec gF ga) as [->|Hne].
  - rewrite covers_cons, covers_nil, in_same_group. split.
    + intros [[Hg Ho]|[]]. assert (in_range span l) by (apply Hgl; [lia|]; rewrite Hg; lia). split; [done|lia].
    + intros (_ & H1 & H2). left. lia.
  - rewrite (u64_small (gF - ga)), (u64_small (ga + 1)), (u64_small (gF - 1)) by (clear -Hne Hle HF Ha; loc_lia).
    rewrite covers_cons, covers_app, covers_cons, covers_nil, !in_same_group.
    assert (Hmid : covers (if gF - ga >? 1 then [MkRange (MkLoc (ga + 1) 0) (MkLoc (gF - 1) MaxUint64)] else []) l <->
      ga < Group l < gF).
    { rewrite Z.gtb_ltb. destruct (Z.ltb_spec 1 (gF - ga)); rewrite ?covers_cons, ?covers_nil; [|lia].
      clear -H Hl Hle. loc_lia. }
    rewrite Hmid. clear Hmid. split.
    + intros [[Hg Ho]|[Hg|[[Hg Ho]|[]]]].
      * assert (in_range span l) by (apply Hgl; [lia|]; rewrite Hg; lia). split; [done|lia].
      * assert (in_range span l); [|split; [done|lia]]. apply Hgl; [lia|]. unfold span_lo, span_hi.
        assert (Group (Lo span) < Group l < Group (Hi span)) as Hgg.
        { unfold span_lo, span_hi in HiF, Hia. clear -Hg S1 S2 Hga Hia HgF HiF.
          apply Hga in Hia. apply HgF in HiF. loc_lia. }
        destruct (Z.eqb_spec (Group l) (Group (Lo span))), (Z.eqb_spec (Group l) (Group (Hi span)));
          try lia. clear -Hl. loc_lia.
      * assert (in_range span l) by (apply Hgl; [lia|]; rewrite Hg; lia). split; [done|lia].
    + intros (Hin & H1 & H2). assert (Hb : ga <= Group l <= gF) by lia. apply Hgl in Hin; [|done].
      destruct (decide (Group l = ga)) as [E|]; [left; rewrite E in Hin; lia|].
      destruct (decide (Group l = gF)) as [E|]; [do 2 right; left; rewrite E in Hin; lia|]. lia.
Qed.

Lemma desc_ranges_shape F at' span : wf_range span -> wf_loc F -> in_range span F -> wf_loc at' ->
  in_range span at' -> Group at' <= Group F -> (Group F = Group at' -> Object F <= Object at') ->
  Forall wf_range (desc_ranges F at' span) /\ ascending (desc_ranges F at' span).
Proof.
  intros Hs HF HiF Ha Hia Hle Ho. unfold desc_ranges, ascending.
  pose proof (proj1 (span_group span F Hs HF ltac:(clear -HiF; loc_lia)) HiF) as HgF.
  pose proof (proj1 (span_group span at' Hs Ha ltac:(clear -Hia; loc_lia)) Hia) as Hga.
  pose proof (span_lo_u64 span (Group at') Hs) as Hlu. pose proof (span_hi_u64 span (Group F) Hs) as Hhu.
  destruct (Z.eqb_spec (Group F) (Group at')) as [E|Hne].
  { split; [|repeat constructor]. constructor; [|constructor].
    specialize (Ho E). clear -HF Ha E Ho. loc_lia. }
  rewrite (u64_small (_ - Group at')), (u64_small (_ + 1)), (u64_small (Group F - 1)) by (clear -Hne Hle HF Ha; loc_lia).
  rewrite Z.gtb_ltb. destruct (Z.ltb_spec 1 (Group F - Group at')); simpl; split;
    repeat first [apply Forall_cons; split | apply SSorted_cons | apply Forall_nil_2 | apply SSorted_nil];
    clear -HF Ha HgF Hga Hlu Hhu Hle Hne H; loc_lia.
Qed.

(** The ranges recorded for an accepted End of Range marker. *)
Lemma streamCovered_ok prev at' span order : wf_range span -> wf_loc at' ->
  (forall p, prev = Some p -> wf_loc p /\ in_range span p) ->
  upstreamFetchElemOK at' prev span order = true ->
  let rs := streamCovered prev at' span order in
  Forall wf_range rs /\ ascending rs /\
  forall l, wf_loc l -> (covers rs l <->
    in_range span l /\ stream_after order prev l /\ ~ stream_lt order at' l).
Proof.
  intros Hs Ha Hp Hok. apply elem_ok_spec in Hok as [Hin Haf]. unfold streamCovered.
  destruct (Z.eqb_spec order GroupOrderDescending) as [->|Hne]; simpl negb; cbv iota zeta.
  - fold (desc_from prev span). fold (desc_ranges (desc_from prev span) at' span).
    destruct (desc_from_spec prev at' span Hs Ha Hin Hp Haf) as (HF & HiF & Hle & Hspec).
    apply and_assoc. split.
    { apply desc_ranges_shape; try done. intros E. apply Hspec in Haf; [|done..]. lia. }
    intros l Hl. rewrite (desc_ranges_spec _ at' span l Hs HF HiF Ha Hin Hle Hl). rewrite stream_lt_desc.
    specialize (Hspec l Hl). split.
    + intros (H1 & H2 & H3). split_and!; [done|by apply Hspec|lia].
    + intros (H1 & H2 & H3). split_and!; [done|by apply Hspec|lia].
  - unfold stream_after in *. destruct prev as [p|].
    + destruct (Hp p eq_refl) as [Hwp Hip]. rewrite stream_lt_asc in Haf by done.
      destruct (locSucc_default p at' Hwp Ha Haf) as [Hn Hx]. split_and!.
      * constructor; [|constructor]. split_and!; [done|done|]. simpl. apply Hx; [done|]. exact Haf.
      * repeat constructor.
      * intros l Hl. rewrite covers_cons, covers_nil, !stream_lt_asc by done. specialize (Hx l Hl).
        unfold in_range at 1. simpl. rewrite Hx. clear -Hin Hip. loc_lia.
    + split_and!; [constructor; [|constructor]; clear -Hs Ha Hin; loc_lia|repeat constructor|].
      intros l Hl. rewrite covers_cons, covers_nil, stream_lt_asc by done. clear -Hin. loc_lia.
Qed.

(** What an End of Range marker of an upstream's response covers.  For an
    accepted element (inside the span, after the previous one in stream order), in
    either group order, the ranges recorded are well formed, ascending and
    disjoint, and hold exactly the Locations of the span that the response
    carries after the previous element and up to the marker. *)
Theorem stream_covered_exact prev at' span order : wf_range span -> wf_loc at' ->
  (forall p, prev = Some p -> wf_loc p /\ in_range span p) ->
  upstreamFetchElemOK at' prev span order = true ->
  let rs := streamCovered prev at' span order in
  Forall wf_range rs /\ ascending rs /\
  forall l, wf_loc l -> (covers rs l <->
    in_range span l /\ stream_after order prev l /\ ~ stream_lt order at' l).
Proof. apply streamCovered_ok. Qed.

Lemma stream_covered_exact_witness :
  let span := MkRange (MkLoc 1 4) (MkLoc 5 2) in
  streamCovered (Some (MkLoc 4 9)) (MkLoc 2 6) span GroupOrderDescending =
    [MkRange (MkLoc 2 0) (MkLoc 2 6); MkRange (MkLoc 3 0) (MkLoc 3 MaxUint64);
     MkRange (MkLoc 4 10) (MkLoc 4 MaxUint64)] /\
  (covers (streamCovered (Some (MkLoc 4 9)) (MkLoc 2 6) span GroupOrderDescending) (MkLoc 2 5) <->
   in_range span (MkLoc 2 5) /\ stream_lt GroupOrderDescending (MkLoc 4 9) (MkLoc 2 5) /\
   ~ stream_lt GroupOrderDescending (MkLoc 2 6) (MkLoc 2 5)).
Proof.
  intros span. split; [vm_compute; reflexivity|].
  assert (Hs : wf_range span) by (unfold span; repeat split; simpl; by_decide || loc_lia).
  destruct (stream_covered_exact (Some (MkLoc 4 9)) (MkLoc 2 6) span GroupOrderDescending Hs)
    as (_ & _ & H); [by_decide| |vm_compute; reflexivity|apply H; by_decide].
  intros p [= <-]. split; by_decide.
Defined.

(** ** What a response says of a Location *)

Inductive lstatus : Type := Present (o : CachedObject) | Absent | Unknown | TimedOut.

Definition at_or_after (order : Z) (l : Location) (e : CachedObject) : bool :=
  bool_decide (~ stream_lt order (co_loc e) l).

Definition classify (l : Location) (e : CachedObject) : lstatus :=
  if IsRangeMarker e then if EndOfTimedOutRange e then TimedOut else Unknown
  else if decide (co_loc e = l) then Present e else Absent.

(** A reader's view: the first element at or after [l] in stream order decides; an
    End of Range marker covers everything since the element before it, and a
    Location skipped without one does not exist. *)
Definition status_at (order : Z) (elems : list CachedObject) (l : Location) : lstatus :=
  match List.find (at_or_after order l) elems with
  | Some e => classify l e
  | None => Absent
  end.

Definition stream_sorted (order : Z) (elems : list CachedObject) : Prop :=
  StronglySorted (fun a b => stream_lt order (co_loc a) (co_loc b)) elems.

Lemma coalesce_cons x y l : coalesce (x :: y :: l) =
  if IsRangeMarker x && IsRangeMarker y && Bool.eqb (EndOfTimedOutRange x) (EndOfTimedOutRange y)
  then coalesce (y :: l) else x :: coalesce (y :: l).
Proof. reflexivity. Qed.

Lemma coalesce_elem elems e : e ∈ coalesce elems -> e ∈ elems.
Proof.
  induction elems as [|x [|y l] IH]; [done|done|]. rewrite coalesce_cons.
  destruct (_ && _); rewrite ?elem_of_cons; intros; rewrite elem_of_cons in IH; naive_solver.
Qed.

Lemma coalesce_sorted order elems : stream_sorted order elems -> stream_sorted order (coalesce elems).
Proof.
  unfold stream_sorted. induction elems as [|x [|y l] IH]; [done|done|]. intros Hs.
  inversion Hs as [|? ? Hs' Hx]; subst. rewrite coalesce_cons. destruct (_ && _); [by apply IH|].
  constructor; [by apply IH|]. rewrite Forall_forall in Hx |- *. intros z Hz.
  apply Hx. by apply coalesce_elem.
Qed.

(** Dropping a marker before one of its kind changes nothing a reader sees. *)
Lemma coalesce_status order elems l : stream_sorted order elems ->
  status_at order (coalesce elems) l = status_at order elems l.
Proof.
  unfold stream_sorted. induction elems as [|x [|y k] IH]; [done|done|]. intros Hs.
  inversion Hs as [|? ? Hs' Hx]; subst. specialize (IH Hs'). rewrite coalesce_cons.
  destruct (IsRangeMarker x && IsRangeMarker y && Bool.eqb (EndOfTimedOutRange x) (EndOfTimedOutRange y)) eqn:E.
  - rewrite IH. rewrite !andb_true_iff, Bool.eqb_true_iff in E. destruct E as [[Ex Ey] Et].
    unfold status_at. cbn [List.find]. destruct (at_or_after order l x) eqn:Hb; [|done].
    apply bool_decide_eq_true in Hb. assert (at_or_after order l y = true) as ->.
    + apply bool_decide_eq_true. apply Forall_cons in Hx as [Hxy _].
      intros H. apply Hb. by eapply stream_lt_trans.
    + unfold classify. by rewrite Ex, Ey, Et.
  - unfold status_at in *. cbn [List.find]. destruct (at_or_after order l x); [done|]. exact IH.
Qed.

(** The first element at or after a Location, in a sorted list that has one. *)
Lemma find_first order elems l e : stream_sorted order elems -> e ∈ elems -> ~ stream_lt order (co_loc e) l ->
  exists f, List.find (at_or_after order l) elems = Some f /\ f ∈ elems /\
    ~ stream_lt order (co_loc f) l /\ ~ stream_lt order (co_loc e) (co_loc f).
Proof.
  unfold stream_sorted. induction 1 as [|x k Hk IH Hx]; [by intros ?%elem_of_nil|]. intros He Hle.
  cbn [List.find]. destruct (at_or_after order l x) eqn:Hb; unfold at_or_after in Hb;
    [apply bool_decide_eq_true in Hb|apply bool_decide_eq_false in Hb].
  - exists x. split_and!; [done|by left|done|]. apply elem_of_cons in He as [->|He].
    + apply stream_lt_irrefl.
    + rewrite Forall_forall in Hx. intros H. eapply stream_lt_irrefl, stream_lt_trans; [exact H|by apply Hx].
  - apply elem_of_cons in He as [->|He]; [done|]. destruct (IH He Hle) as (f & ? & ? & ? & ?).
    exists f. split_and!; [done|by right|done|done].
Qed.

(** *** Run ends *)

Lemma runEnds_in r order at' : wf_range r -> at' ∈ runEnds r order -> wf_loc at' /\ in_range r at'.
Proof.
  intros Hr. pose proof Hr as (H1 & H2 & H3). unfold runEnds.
  destruct (Z.eqb_spec order GroupOrderDescending); simpl.
  2: { rewrite list_elem_of_singleton. intros ->. split; [done|]. clear -H3. loc_lia. }
  destruct (Z.eqb_spec (Group (Lo r)) (Group (Hi r))) as [E|E].
  { rewrite list_elem_of_singleton. intros ->. split; [done|]. clear -H3. loc_lia. }
  assert (Group (Lo r) < Group (Hi r)) by (clear -H3 E; loc_lia).
  rewrite (u64_small (_ - _)), (u64_small (_ + _)) by (clear -H1 H2 H; loc_lia). rewrite Z.gtb_ltb.
  intros Hin. apply elem_of_cons in Hin as [->|Hin]; [split; [done|]; clear -H3; loc_lia|].
  destruct (Z.ltb_spec 1 (Group (Hi r) - Group (Lo r))); simpl in Hin;
    repeat (apply elem_of_cons in Hin as [->|Hin]; [clear -H1 H2 H H0; split; loc_lia|]);
    by apply elem_of_nil in Hin.
Qed.

(** A Location of a range is followed, without leaving the range, by a run end. *)
Lemma runEnds_run r order l : wf_range r -> wf_loc l -> in_range r l ->
  exists at', at' ∈ runEnds r order /\ ~ stream_lt order at' l /\
    forall x, wf_loc x -> ~ stream_lt order x l -> ~ stream_lt order at' x -> in_range r x.
Proof.
  intros Hr Hl Hin. pose proof Hr as (H1 & H2 & H3). unfold runEnds.
  destruct (Z.eqb_spec order GroupOrderDescending) as [->|Hne]; simpl.
  2: { exists (Hi r). split; [by left|]. setoid_rewrite stream_lt_asc; [|done..]. clear -Hin Hl. split; [loc_lia|].
       intros x Hx. loc_lia. }
  setoid_rewrite stream_lt_desc.
  destruct (Z.eqb_spec (Group (Lo r)) (Group (Hi r))) as [E|E].
  { exists (Hi r). split; [by left|]. clear -Hin Hl E. split; [loc_lia|]. intros x Hx. loc_lia. }
  assert (Group (Lo r) < Group (Hi r)) by (clear -H3 E; loc_lia).
  rewrite (u64_small (_ - _)), (u64_small (_ + _)) by (clear -H1 H2 H; loc_lia). rewrite Z.gtb_ltb.
  destruct (decide (Group l = Group (Hi r))) as [Eh|Eh].
  { exists (Hi r). split; [by left|]. clear -Hin Hl Eh H. split; [loc_lia|]. intros x Hx. loc_lia. }
  destruct (decide (Group l = Group (Lo r))) as [El|El].
  { exists (MkLoc (Group (Lo r)) MaxUint64). split.
    - destruct (1 <? Group (Hi r) - Group (Lo r)); simpl; rewrite ?elem_of_cons; auto.
    - clear -Hin Hl El H. split; [loc_lia|]. intros x Hx. loc_lia. }
  exists (MkLoc (Group (Lo r) + 1) MaxUint64). split.
  - destruct (Z.ltb_spec 1 (Group (Hi r) - Group (Lo r))); simpl; rewrite ?elem_of_cons; [auto|].
    clear -Hin Eh El H0. loc_lia.
  - clear -Hin Hl El Eh H. split; [loc_lia|]. intros x Hx. loc_lia.
Qed.

Lemma runEnds_NoDup r order : wf_range r -> NoDup (runEnds r order).
Proof.
  intros (H1 & H2 & H3). unfold runEnds.
  destruct (negb _ || _) eqn:E0; [apply NoDup_singleton|]. apply orb_false_iff in E0 as [_ E].
  apply Z.eqb_neq in E. assert (Group (Lo r) < Group (Hi r)) by (clear -H3 E; loc_lia).
  rewrite (u64_small (_ - _)), (u64_small (_ + _)) by (clear -H1 H2 H; loc_lia). rewrite Z.gtb_ltb.
  destruct (Hi r) as [gh oh] eqn:Er. simpl in *.
  destruct (Z.ltb_spec 1 (gh - Group (Lo r))); simpl.
  - apply NoDup_cons. split; [|apply NoDup_cons; split; [|apply NoDup_singleton]];
      rewrite ?elem_of_cons, ?elem_of_nil; intros Hx; repeat destruct Hx as [Hx|Hx]; simplify_eq; lia.
  - apply NoDup_cons. split; [|apply NoDup_singleton]. rewrite list_elem_of_singleton. intros [= ? ?]. lia.
Qed.

(** *** The elements of a response *)

Definition disjoint_ranges (rs : list LocRange) : Prop :=
  StronglySorted (fun a b => forall l, wf_loc l -> in_range a l -> ~ in_range b l) rs.

Definition ends (order : Z) (rs : list LocRange) : list Location :=
  concat ((fun r => runEnds r order) <$> rs).

Lemma ends_elem order rs at' : at' ∈ ends order rs <-> Exists (fun r => at' ∈ runEnds r order) rs.
Proof.
  unfold ends. induction rs as [|r rs IH]; simpl; [by rewrite elem_of_nil, Exists_nil|].
  by rewrite elem_of_app, Exists_cons, IH.
Qed.

Lemma ends_covers order rs at' : Forall wf_range rs -> at' ∈ ends order rs -> wf_loc at' /\ covers rs at'.
Proof.
  intros Hw H. apply ends_elem in H. unfold covers. rewrite Exists_exists in *.
  destruct H as (r & Hr & Hin). rewrite Forall_forall in Hw.
  destruct (runEnds_in r order at' (Hw r Hr) Hin) as [H1 H2]. eauto.
Qed.

Lemma ends_NoDup order rs : Forall wf_range rs -> disjoint_ranges rs -> NoDup (ends order rs).
Proof.
  intros Hw Hd. induction Hd as [|r rs Hd IH Hr]; [constructor|]. apply Forall_cons in Hw as [Hwr Hw].
  unfold ends. simpl. apply NoDup_app. split_and!; [by apply runEnds_NoDup| |by apply IH].
  intros at' H1 H2. destruct (runEnds_in _ _ _ Hwr H1) as [Hl Hin].
  destruct (ends_covers order rs at' Hw H2) as [_ Hc]. unfold covers in Hc. rewrite Exists_exists in Hc.
  destruct Hc as (r' & Hr' & Hin'). rewrite Forall_forall in Hr. by apply (Hr r' Hr' at').
Qed.

Lemma disjoint_app a b : disjoint_ranges (a ++ b) ->
  disjoint_ranges a /\ disjoint_ranges b /\ forall l, wf_loc l -> covers a l -> ~ covers b l.
Proof.
  unfold disjoint_ranges. induction a as [|r a IH]; simpl; intros Hd.
  { split_and!; [constructor|done|]. by intros l _ ?%covers_nil. }
  inversion Hd as [|? ? Hd' Hr]; subst. destruct (IH Hd') as (H1 & H2 & H3).
  apply Forall_app in Hr as [Hra Hrb]. split_and!; [by constructor|done|].
  intros l Hl Hc Hb. apply covers_cons in Hc as [Hc|Hc]; [|by eapply H3].
  unfold covers in Hb. rewrite Exists_exists in Hb. destruct Hb as (r' & Hr' & Hin').
  rewrite Forall_forall in Hrb. by apply (Hrb r' Hr' l).
Qed.

Lemma co_loc_markers f (ls : list Location) : (forall l, co_loc (f l) = l) -> co_loc <$> (f <$> ls) = ls.
Proof. intros Hf. induction ls as [|l ls IH]; [done|]. rewrite !fmap_cons, Hf. by f_equal. Qed.

Lemma NoDup_fmap_eq {A B} (f : A -> B) l x y : NoDup (f <$> l) -> x ∈ l -> y ∈ l -> f x = f y -> x = y.
Proof.
  intros Hn Hx Hy E. apply list_elem_of_lookup in Hx as [i Hi]. apply list_elem_of_lookup in Hy as [j Hj].
  assert (i = j) as ->; [|congruence]. eapply (NoDup_lookup (f <$> l) i j (f x)); [done| |];
    rewrite list_lookup_fmap, ?Hi, ?Hj; simpl; congruence.
Qed.

Section Elements.
Context (objs : list CachedObject) (unknown timedOut : list LocRange) (order : Z).
Hypothesis Hobjs : Forall (fun o => wf_loc (co_loc o) /\ IsRangeMarker o = false) objs.
Hypothesis Hnd : NoDup (co_loc <$> objs).
Hypothesis Hwf : Forall wf_range (unknown ++ timedOut).
Hypothesis Hdisj : disjoint_ranges (unknown ++ timedOut).
Hypothesis Hfree : forall o, o ∈ objs -> ~ covers (unknown ++ timedOut) (co_loc o).

Let before := objs ++ (unknownRangeMarker <$> ends order unknown) ++ (timedOutRangeMarker <$> ends order timedOut).
Let elems0 := SortStableFunc (fun a b => streamCompare (co_loc a) (co_loc b) order <? 0) before.

Lemma elems_before e : e ∈ elems0 <-> e ∈ before.
Proof. apply elem_of_Permutation_proper, sort_stable_perm. Qed.

Lemma elems_cases e : e ∈ elems0 ->
  (e ∈ objs) \/ (e = unknownRangeMarker (co_loc e) /\ wf_loc (co_loc e) /\ covers unknown (co_loc e)) \/
  (e = timedOutRangeMarker (co_loc e) /\ wf_loc (co_loc e) /\ covers timedOut (co_loc e)).
Proof.
  intros He. apply Forall_app in Hwf as [Hw1 Hw2].
  assert (Hb : e ∈ before) by (by apply elems_before).
  unfold before in Hb. rewrite !elem_of_app in Hb. destruct Hb as [?|[Hb|Hb]]; [by left|..];
    apply list_elem_of_fmap in Hb as (at' & -> & Hin); right; [left|right];
    (split; [done|]); apply (ends_covers order _ _); (done || (simpl; destruct at'; done)).
Qed.

Lemma elems_sorted : stream_sorted order elems0.
Proof.
  unfold stream_sorted, elems0. apply sort_stream_sorted; [intros a b; apply streamCompare_spec|].
  unfold before. rewrite !fmap_app, !co_loc_markers by (by intros []).
  apply Forall_app in Hwf as [Hw1 Hw2]. destruct (disjoint_app _ _ Hdisj) as (Hd1 & Hd2 & Hd3).
  apply NoDup_app. split_and!; [done| |].
  - intros l Hl Hin. apply list_elem_of_fmap in Hl as (o & -> & Ho). apply (Hfree o Ho).
    apply covers_app. apply elem_of_app in Hin as [Hin|Hin]; [left|right]; by eapply ends_covers.
  - apply NoDup_app. split_and!; [by apply ends_NoDup| |by apply ends_NoDup].
    intros l H1 H2. destruct (ends_covers _ _ _ Hw1 H1) as [Hl Hc1].
    destruct (ends_covers _ _ _ Hw2 H2) as [_ Hc2]. by apply (Hd3 l).
Qed.

(** A Location of an unknown (timed-out) range reads as unknown (timed out). *)
Lemma status_marked r l : r ∈ unknown ++ timedOut -> wf_loc l -> in_range r l ->
  status_at order elems0 l = (if decide (covers timedOut l) then TimedOut else Unknown).
Proof.
  intros Hr Hl Hin. assert (Hwr : wf_range r) by (by rewrite Forall_forall in Hwf; apply Hwf).
  destruct (runEnds_run r order l Hwr Hl Hin) as (at' & Hat & Hle & Hrun).
  destruct (disjoint_app _ _ Hdisj) as (_ & _ & Hd3).
  set (m := if decide (r ∈ unknown) then unknownRangeMarker at' else timedOutRangeMarker at').
  assert (Hm : m ∈ elems0).
  { apply elems_before. unfold before.
    rewrite !elem_of_app. right. unfold m. apply elem_of_app in Hr.
    destruct (decide (r ∈ unknown)); [left|right; destruct Hr as [?|Hr]; [done|]];
      apply list_elem_of_fmap_2, ends_elem; rewrite Exists_exists; eauto. }
  assert (Hloc : co_loc m = at') by (unfold m; case_decide; by destruct at').
  destruct (find_first order elems0 l m elems_sorted Hm) as (f & Hf & Hfin & Hf1 & Hf2); [by rewrite Hloc|].
  rewrite Hloc in Hf2. unfold status_at. rewrite Hf.
  assert (Hfr : wf_loc (co_loc f) -> in_range r (co_loc f)) by (intros Hwl; by apply Hrun).
  assert (Hcov : forall rs, r ∈ rs -> forall x, in_range r x -> covers rs x).
  { intros rs Hrs x Hx. unfold covers. rewrite Exists_exists. eauto. }
  assert (Hsame : forall x y, wf_loc x -> wf_loc y -> in_range r x -> in_range r y ->
    covers timedOut x -> covers timedOut y).
  { intros x y Hwx Hwy Hx Hy Hcx. apply elem_of_app in Hr as [Hr|Hr]; [|by eapply Hcov].
    exfalso. apply (Hd3 x Hwx); [by eapply Hcov|done]. }
  destruct (elems_cases f Hfin) as [Ho|[(Ef & Hwl & Hc)|(Ef & Hwl & Hc)]].
  - exfalso. apply (Hfree f Ho). apply Hcov; [done|]. apply Hfr.
    rewrite Forall_forall in Hobjs. by apply Hobjs.
  - rewrite Ef. unfold classify; simpl. destruct (decide (covers timedOut l)) as [Ht|]; [|done]. exfalso.
    apply (Hd3 (co_loc f) Hwl Hc). eapply (Hsame l); eauto.
  - rewrite Ef. unfold classify; simpl. destruct (decide (covers timedOut l)) as [|Ht]; [done|]. exfalso.
    apply Ht. eapply (Hsame (co_loc f)); eauto.
Qed.

Lemma status_present o l : o ∈ objs -> co_loc o = l -> status_at order elems0 l = Present o.
Proof.
  intros Ho Hl. assert (Hm : o ∈ elems0).
  { apply elems_before. by apply elem_of_app; left. }
  destruct (find_first order elems0 l o elems_sorted Hm) as (f & Hf & Hfin & Hf1 & Hf2);
    [rewrite Hl; apply stream_lt_irrefl|]. unfold status_at. rewrite Hf, Hl in *.
  assert (Heq : co_loc f = l) by (destruct (stream_lt_total order (co_loc f) l) as [?|[?|?]]; done).
  destruct (elems_cases f Hfin) as [Hof|[(_ & _ & Hc)|(_ & _ & Hc)]].
  - assert (f = o) as -> by (eapply NoDup_fmap_eq; [exact Hnd|done|done|congruence]).
    rewrite Forall_forall in Hobjs. unfold classify. rewrite (proj2 (Hobjs o Ho)). by rewrite decide_True.
  - exfalso. apply (Hfree o Ho). rewrite Hl, <- Heq. apply covers_app. by left.
  - exfalso. apply (Hfree o Ho). rewrite Hl, <- Heq. apply covers_app. by right.
Qed.

Lemma present_status o l : status_at order elems0 l = Present o -> o ∈ objs /\ co_loc o = l.
Proof.
  unfold status_at. destruct (List.find _ elems0) as [f|] eqn:Hf; [|done].
  apply List.find_some in Hf as [Hfin _]. apply list_elem_of_In in Hfin. unfold classify.
  destruct (IsRangeMarker f) eqn:Em; [by destruct (EndOfTimedOutRange f)|].
  destruct (decide (co_loc f = l)) as [E|]; [|done]. intros [= <-]. split; [|done].
  by destruct (elems_cases f Hfin) as [?|[(Hc & _)|(Hc & _)]]; [|rewrite Hc in Em..].
Qed.
End Elements.

(** What a list of elements says, for clients of [fetchElements]. *)
Lemma fetchElements_ok objs unknown timedOut order :
  Forall (fun o => wf_loc (co_loc o) /\ IsRangeMarker o = false) objs -> NoDup (co_loc <$> objs) ->
  Forall wf_range (unknown ++ timedOut) -> disjoint_ranges (unknown ++ timedOut) ->
  (forall o, o ∈ objs -> ~ covers (unknown ++ timedOut) (co_loc o)) ->
  let elems := fetchElements objs unknown timedOut order in
  stream_sorted order elems /\
  forall l, wf_loc l ->
    (forall o, status_at order elems l = Present o <-> o ∈ objs /\ co_loc o = l) /\
    (covers unknown l -> status_at order elems l = Unknown) /\
    (covers timedOut l -> status_at order elems l = TimedOut).
Proof.
  intros H1 H2 H3 H4 H5 elems. pose proof (elems_sorted objs unknown timedOut order H2 H3 H4 H5) as Hs.
  split; [by apply coalesce_sorted|]. intros l Hl. unfold elems, fetchElements.
  change (concat ((fun r => runEnds r order) <$> unknown)) with (ends order unknown).
  change (concat ((fun r => runEnds r order) <$> timedOut)) with (ends order timedOut).
  rewrite coalesce_status by exact Hs. split_and!.
  - intros o. split; [by apply present_status|]. intros [Ho E]. by apply status_present.
  - intros Hc. pose proof Hc as Hc'. unfold covers in Hc. rewrite Exists_exists in Hc.
    destruct Hc as (r & Hr & Hin). rewrite (status_marked objs unknown timedOut order H1 H2 H3 H4 H5 r l);
      [|by apply elem_of_app; left|done|done].
    rewrite decide_False; [done|]. by apply (proj2 (proj2 (disjoint_app _ _ H4))).
  - intros Hc. pose proof Hc as Hc'. unfold covers in Hc. rewrite Exists_exists in Hc.
    destruct Hc as (r & Hr & Hin). rewrite (status_marked objs unknown timedOut order H1 H2 H3 H4 H5 r l);
      [|by apply elem_of_app; right|done|done]. by rewrite decide_True.
Qed.

(** C2: the elements of a FETCH response say what the relay knows.  Given Objects
    at distinct Locations and disjoint unknown and timed-out ranges that hold none
    of them, the elements are in strict stream order, in either group order, and a
    reader finds every Object at its Location and no other, and every Location of
    an unknown (timed-out) range covered by an End of Unknown (Timed-Out) Range
    marker, never by a plain gap. *)
Theorem fetch_elements_sound objs unknown timedOut order :
  Forall (fun o => wf_loc (co_loc o) /\ IsRangeMarker o = false) objs -> NoDup (co_loc <$> objs) ->
  Forall wf_range (unknown ++ timedOut) -> disjoint_ranges (unknown ++ timedOut) ->
  (forall o, o ∈ objs -> ~ covers (unknown ++ timedOut) (co_loc o)) ->
  let elems := fetchElements objs unknown timedOut order in
  stream_sorted order elems /\
  forall l, wf_loc l ->
    (forall o, status_at order elems l = Present o <-> o ∈ objs /\ co_loc o = l) /\
    (covers unknown l -> status_at order elems l = Unknown) /\
    (covers timedOut l -> status_at order elems l = TimedOut).
Proof. apply fetchElements_ok. Qed.

Definition sample_cached (g o : Z) : CachedObject :=
  MkCached g o 1 128 ForwardingSubgroup 0 [] [Byte.x01] 7 0 false false false false.

Lemma fetch_elements_sound_witness :
  let elems := fetchElements [sample_cached 3 1; sample_cached 1 0] [MkRange (MkLoc 1 2) (MkLoc 2 5)] []
                 GroupOrderDescending in
  (co_loc <$> elems) = [MkLoc 3 1; MkLoc 2 5; MkLoc 1 0; MkLoc 1 MaxUint64] /\
  status_at GroupOrderDescending elems (MkLoc 1 9) = Unknown.
Proof.
  intros elems. split; [vm_compute; reflexivity|].
  destruct (fetch_elements_sound [sample_cached 3 1; sample_cached 1 0] [MkRange (MkLoc 1 2) (MkLoc 2 5)] []
    GroupOrderDescending) as [_ H].
  - apply Forall_cons; split; [by_decide|]. apply Forall_cons; split; [by_decide|constructor].
  - by_decide.
  - constructor; [|constructor]. unfold wf_range; simpl. split_and!; by_decide.
  - repeat constructor.
  - intros o Ho. rewrite !elem_of_cons, elem_of_nil in Ho. destruct Ho as [->|[->|[]]]; by_decide.
  - destruct (H (MkLoc 1 9)) as (_ & Hu & _); [by_decide|]. apply Hu. left. by_decide.
Defined.
