(* ===== verification/FetchServe.v ===== *)
(** * FetchServe: serialising a FETCH response

    [streamFetchObjects] of [relay/handler_fetch.go]: the delta encoding of the
    response's elements onto the fetch stream, against the decoder of
    [session/datastream_in.go].  The i-th write to the stream returns [wr i]. *)

From stdpp Require Import gmap.
From S2P Require Import Prelude Varint Wire KV Filter Params Properties Objects Streams Cache FetchRanges.

Record encoder : Type := MkEnc {
  en_prevGroup : Z; en_prevObject : Z; en_prevPriority : Z; havePrev : bool; haveActual : bool;
  descending : bool
}.

Definition encoder0 : encoder := MkEnc 0 0 0 false false false.

(** An expired Object is reported as unknown, since a gap asserts non-existence. *)
Definition mark_expired (expired : option (CachedObject -> bool)) (o : CachedObject) : CachedObject :=
  match expired with
  | Some f => if negb (IsRangeMarker o) && negb (IsStatusMarker o) && f o
              then MkCached (co_GroupID o) (co_ObjectID o) 0 0 ForwardingSubgroup 0 [] [] 0 0 false false true false
              else o
  | None => o
  end.

Definition marker_object (o : CachedObject) : FetchObject :=
  MkFetchObject (if EndOfTimedOutRange o then FetchEndOfTimedOutRange else FetchEndOfUnknownRange)
    (co_GroupID o) 0 (co_ObjectID o) 0 [] [].

(** Flags and deltas of the Location, and the direction inferred so far. *)
Definition encode_location (st : encoder) (o : CachedObject) : result (Z * Z * Z * bool) :=
  let both := Z.lor FetchFlagGroupIDDelta FetchFlagObjectIDDelta in
  if negb (havePrev st) then Ok (both, co_GroupID o, co_ObjectID o, descending st)
  else if negb (co_GroupID o =? en_prevGroup st) then
    let desc := if negb (descending st) && (co_GroupID o <? en_prevGroup st) then true
                else if descending st && (co_GroupID o >? en_prevGroup st) then false
                else descending st in
    let delta := if desc then u64 (u64 (en_prevGroup st - co_GroupID o) - 1)
                 else u64 (u64 (co_GroupID o - en_prevGroup st) - 1) in
    Ok (both, delta, co_ObjectID o, desc)
  else if co_ObjectID o <=? en_prevObject st then Err (Errorf "relay: fetch serialization order violation")
  else if negb (co_ObjectID o =? u64 (en_prevObject st + 1))
  then Ok (FetchFlagObjectIDDelta, 0, u64 (co_ObjectID o - en_prevObject st), descending st)
  else Ok (0, 0, 0, descending st).

Definition encode_object (st : encoder) (o : CachedObject) : result (FetchObject * encoder) :=
  '(flags, gd, od, desc) ← encode_location st o;
  let '(flags, sg) :=
    match ForwardingPref o with
    | ForwardingDatagram => (Z.lor flags FetchFlagDatagram, 0)
    | ForwardingSubgroup => (Z.lor (Z.ldiff flags FetchFlagSubgroupIDMode) FetchSubgroupIDExplicit, co_SubgroupID o)
    end in
  let '(flags, pr) :=
    if negb (haveActual st) || negb (co_PublisherPriority o =? en_prevPriority st)
    then (Z.lor flags FetchFlagPriority, co_PublisherPriority o) else (flags, 0) in
  let '(flags, props) :=
    if len (co_Properties o) >? 0 then (Z.lor flags FetchFlagProperties, co_Properties o) else (flags, []) in
  Ok (MkFetchObject flags gd sg od pr props (co_Payload o),
      MkEnc (co_GroupID o) (co_ObjectID o) (co_PublisherPriority o) true true desc).

Definition after_marker (st : encoder) (o : CachedObject) : encoder :=
  MkEnc (co_GroupID o) (co_ObjectID o) (en_prevPriority st) true (haveActual st) (descending st).

(** The objects put on the stream, the count of real ones, and the error if any. *)
Fixpoint serve_loop (wr : nat -> option error) (expired : option (CachedObject -> bool)) (st : encoder)
    (objs : list CachedObject) (sent : list FetchObject) (written : Z) :
    list FetchObject * Z * result unit :=
  match objs with
  | [] => (sent, written, Ok tt)
  | o :: objs =>
      let o := mark_expired expired o in
      if IsRangeMarker o then
        match wr (length sent) with
        | Some e => (sent, written, Err e)
        | None => serve_loop wr expired (after_marker st o) objs (sent ++ [marker_object o]) written
        end
      else if IsStatusMarker o then serve_loop wr expired st objs sent written
      else
        match encode_object st o with
        | Err e => (sent, written, Err e)
        | Ok (fo, st) =>
            match wr (length sent) with
            | Some e => (sent, written, Err e)
            | None => serve_loop wr expired st objs (sent ++ [fo]) (written + 1)
            end
        end
  end.

Definition streamFetchObjects (wr : nat -> option error) (objs : list CachedObject)
    (expired : option (CachedObject -> bool)) : list FetchObject * Z * result unit :=
  serve_loop wr expired encoder0 objs [] 0.

(** [OutgoingFetchStream.WriteObject]. *)
Definition fetch_wire (fos : list FetchObject) : bytes := concat (fo_Append [] <$> fos).

(** ** What the fetcher reads *)

Inductive freads : IncomingFetchStream -> list (option DecodedFetchObject) -> IncomingFetchStream -> Prop :=
| freads_nil s : freads s [] s
| freads_got s d s1 l s2 : fetch_ReadDecoded s = Got d s1 -> freads s1 l s2 -> freads s (Some d :: l) s2
| freads_malformed s e a s1 l s2 :
    fetch_ReadDecoded s = Malformed e a s1 -> freads s1 l s2 -> freads s (None :: l) s2.

(** The element as decoded, [None] when its properties are malformed. *)
Definition decoded (o : CachedObject) : option DecodedFetchObject :=
  if IsRangeMarker o then
    Some (MkDecFetch (co_GroupID o) (co_ObjectID o) 0 0 [] [] false false
            (negb (EndOfTimedOutRange o)) (EndOfTimedOutRange o))
  else
    match check_properties (co_Properties o) (co_GroupID o) (co_ObjectID o) with
    | Err _ => None
    | Ok _ =>
        let dg := match ForwardingPref o with ForwardingDatagram => true | ForwardingSubgroup => false end in
        Some (MkDecFetch (co_GroupID o) (co_ObjectID o) (if dg then 0 else co_SubgroupID o)
                (co_PublisherPriority o) (co_Properties o) (co_Payload o) dg false false false)
    end.

Definition serialized (expired : option (CachedObject -> bool)) (objs : list CachedObject) : list CachedObject :=
  filter (fun o => (IsRangeMarker o || negb (IsStatusMarker o)) = true) (mark_expired expired <$> objs).

Definition wf_cached (o : CachedObject) : Prop :=
  wf_loc (co_loc o) /\ is_u64 (co_SubgroupID o) /\ is_u8 (co_PublisherPriority o) /\
  len (co_Properties o) <= MaxStreamFieldSize /\ len (co_Payload o) <= MaxStreamFieldSize.

(** ** Lemmas *)

(** The decoder agrees with the encoder about what came before. *)
Record linked (order : Z) (st : encoder) (s : IncomingFetchStream) : Prop := {
  ln_order : if_GroupOrder s = order;
  ln_have : fdecHavePrev s = havePrev st;
  ln_actual : decHaveActual s = haveActual st;
  ln_group : havePrev st = true -> decPrevGroup s = en_prevGroup st;
  ln_object : havePrev st = true -> fdecPrevObject s = en_prevObject st;
  ln_prio : haveActual st = true -> decPrevPriority s = en_prevPriority st;
  ln_wf : havePrev st = true -> wf_loc (MkLoc (en_prevGroup st) (en_prevObject st));
  ln_desc : descending st = true -> order = GroupOrderDescending;
  ln_first : haveActual st = true -> havePrev st = true
}.

(** The three shapes of a Location encoding. *)
Inductive loc_shape (order : Z) (st : encoder) (o : CachedObject) : Z -> Z -> Z -> Prop :=
| shape_first : havePrev st = false -> loc_shape order st o 12 (co_GroupID o) (co_ObjectID o)
| shape_group gd : havePrev st = true -> is_u64 gd ->
    (if decide (order = GroupOrderDescending) then en_prevGroup st - gd - 1 = co_GroupID o
     else en_prevGroup st + gd + 1 = co_GroupID o) ->
    loc_shape order st o 12 gd (co_ObjectID o)
| shape_delta od : havePrev st = true -> en_prevGroup st = co_GroupID o -> is_u64 od ->
    en_prevObject st + od = co_ObjectID o -> loc_shape order st o 4 0 od
| shape_next : havePrev st = true -> en_prevGroup st = co_GroupID o ->
    en_prevObject st + 1 = co_ObjectID o -> loc_shape order st o 0 0 0.

Lemma encode_location_spec order st o : wf_loc (co_loc o) ->
  (havePrev st = true -> wf_loc (MkLoc (en_prevGroup st) (en_prevObject st)) /\
     stream_lt order (MkLoc (en_prevGroup st) (en_prevObject st)) (co_loc o)) ->
  (descending st = true -> order = GroupOrderDescending) ->
  exists f gd od desc, encode_location st o = Ok (f, gd, od, desc) /\ loc_shape order st o f gd od /\
    (desc = true -> order = GroupOrderDescending).
Proof.
  intros Ho Hp Hd. unfold encode_location. destruct (havePrev st) eqn:Eh; simpl.
  2: { do 4 eexists. split; [done|]. split; [by apply shape_first|done]. }
  destruct (Hp eq_refl) as [Hw Hlt]. clear Hp. unfold stream_lt, loc_lt in Hlt. simpl in Hlt.
  destruct (Z.eqb_spec (co_GroupID o) (en_prevGroup st)) as [Eg|Eg]; simpl.
  - assert (en_prevObject st < co_ObjectID o) by (destruct (decide _); lia).
    destruct (Z.leb_spec (co_ObjectID o) (en_prevObject st)); [lia|].
    rewrite (u64_small (_ + 1)), u64_small by (clear -H Hw Ho; loc_lia).
    destruct (Z.eqb_spec (co_ObjectID o) (en_prevObject st + 1)); simpl; do 4 eexists; (split; [done|]); (split; [|done]).
    + by apply shape_next.
    + apply shape_delta; [done|done|clear -H Hw Ho; loc_lia|lia].
  - destruct (decide (order = GroupOrderDescending)) as [Eo|Eo].
    + assert (Hg : co_GroupID o < en_prevGroup st) by lia.
      destruct (Z.ltb_spec (co_GroupID o) (en_prevGroup st)); [|lia]. rewrite Z.gtb_ltb.
      destruct (Z.ltb_spec (en_prevGroup st) (co_GroupID o)); [lia|]. rewrite andb_true_r, andb_false_r.
      replace (if negb (descending st) then true else descending st) with true by (by destruct (descending st)).
      rewrite (u64_small (en_prevGroup st - _)), u64_small by (clear -Hg Hw Ho; loc_lia).
      do 4 eexists. split; [done|]. split; [|done].
      apply shape_group; [done|clear -Hg Hw Ho; loc_lia|]. rewrite decide_True by done. lia.
    + assert (Hg : en_prevGroup st < co_GroupID o) by lia.
      assert (Ed : descending st = false) by (destruct (descending st); [exfalso; auto|done]). rewrite Ed.
      destruct (Z.ltb_spec (co_GroupID o) (en_prevGroup st)); [lia|]. simpl.
      rewrite (u64_small (co_GroupID o - _)), u64_small by (clear -Hg Hw Ho; loc_lia).
      do 4 eexists. split; [done|]. split; [|done].
      apply shape_group; [done|clear -Hg Hw Ho; loc_lia|]. rewrite decide_False by done. lia.
Qed.

(** *** The flags *)

Definition mk_flags (f : Z) (dg prio props : bool) : Z :=
  let f := if dg then Z.lor f FetchFlagDatagram
           else Z.lor (Z.ldiff f FetchFlagSubgroupIDMode) FetchSubgroupIDExplicit in
  let f := if prio then Z.lor f FetchFlagPriority else f in
  if props then Z.lor f FetchFlagProperties else f.

Record flag_facts (f : Z) (dg prio props : bool) (F : Z) : Prop := {
  ff_group : has F FetchFlagGroupIDDelta = (f =? 12);
  ff_object : has F FetchFlagObjectIDDelta = negb (f =? 0);
  ff_dg : has F FetchFlagDatagram = dg;
  ff_mode : SubgroupMode F = if dg then FetchSubgroupIDZero else FetchSubgroupIDExplicit;
  ff_prio : has F FetchFlagPriority = prio;
  ff_props : has F FetchFlagProperties = props;
  ff_range : is_u64 F;
  ff_end : isEndOfRange F = false;
  ff_wire : wire_flags F = F;
  ff_check : checkFetchFlags F = Ok tt
}.

Lemma mk_flags_facts f dg prio props : f = 12 \/ f = 4 \/ f = 0 -> flag_facts f dg prio props (mk_flags f dg prio props).
Proof.
  intros [-> | [-> | ->]]; destruct dg, prio, props; split; try reflexivity; by_decide.
Qed.

Lemma loc_shape_flags order st o f gd od : loc_shape order st o f gd od ->
  (f = 12 \/ f = 4 \/ f = 0) /\ (f <> 12 -> gd = 0) /\ (f = 0 -> od = 0).
Proof. destruct 1; auto with lia. Qed.

Definition is_dg (o : CachedObject) : bool :=
  match ForwardingPref o with ForwardingDatagram => true | ForwardingSubgroup => false end.

Definition need_prio (st : encoder) (o : CachedObject) : bool :=
  negb (haveActual st) || negb (co_PublisherPriority o =? en_prevPriority st).

Definition built (st : encoder) (o : CachedObject) (f gd od : Z) : FetchObject :=
  MkFetchObject (mk_flags f (is_dg o) (need_prio st o) (len (co_Properties o) >? 0)) gd
    (if is_dg o then 0 else co_SubgroupID o) od
    (if need_prio st o then co_PublisherPriority o else 0)
    (if len (co_Properties o) >? 0 then co_Properties o else []) (co_Payload o).

Definition after_object (o : CachedObject) (desc : bool) : encoder :=
  MkEnc (co_GroupID o) (co_ObjectID o) (co_PublisherPriority o) true true desc.

Lemma encode_object_built st o f gd od desc : encode_location st o = Ok (f, gd, od, desc) ->
  encode_object st o = Ok (built st o f gd od, after_object o desc).
Proof.
  intros H. unfold encode_object, built, mk_flags, is_dg, need_prio. rewrite H. simpl.
  by destruct (ForwardingPref o), (_ || _), (_ >? _).
Qed.

Lemma props_nonempty (p : bytes) : (if len p >? 0 then p else []) = p.
Proof.
  rewrite Z.gtb_ltb. destruct (Z.ltb_spec 0 (len p)); [done|]. pose proof (len_nonneg p).
  by rewrite (len_zero p) by lia.
Qed.

Lemma u64_0 : is_u64 0. Proof. zlia. Qed.
#[local] Hint Resolve u64_0 : core.

Lemma shape_u64 order st o f gd od : wf_loc (co_loc o) -> loc_shape order st o f gd od -> is_u64 gd /\ is_u64 od.
Proof. intros [? ?]. destruct 1; split; try done; zlia. Qed.

Lemma built_ok order st o f gd od : wf_cached o -> loc_shape order st o f gd od ->
  wf_fo (S:=Stream) (built st o f gd od) /\ norm_fo (built st o f gd od) = built st o f gd od.
Proof.
  intros (Hl & Hsg & Hpr & Hps & Hpl) Hs. destruct (loc_shape_flags _ _ _ _ _ _ Hs) as (Hf & Hg & Ho).
  destruct (shape_u64 _ _ _ _ _ _ Hl Hs) as [Hug Huo].
  destruct (mk_flags_facts f (is_dg o) (need_prio st o) (len (co_Properties o) >? 0) Hf)
    as [F1 F2 F3 F4 F5 F6 F7 F8 F9 F10]. split.
  - unfold wf_fo, built; simpl. rewrite props_nonempty. split_and!; try done.
    + by destruct (is_dg o).
    + destruct (need_prio st o); [done|zlia].
  - unfold norm_fo, built. cbn [SerializationFlags fo_GroupIDDelta fo_SubgroupID fo_ObjectIDDelta
      fo_PublisherPriority fo_Properties ObjectPayload].
    unfold hasSubgroupIDField. rewrite F1, F2, F3, F4, F5, F6, F8, F9. f_equal.
    + destruct (Z.eqb_spec f 12); [done|by rewrite Hg].
    + by destruct (is_dg o).
    + destruct (Z.eqb_spec f 0); [by rewrite Ho|done].
    + by destruct (need_prio st o).
    + by destruct (len (co_Properties o) >? 0).
Qed.

(** *** The decoder on an encoded object *)

Lemma Add64_small x y c : 0 <= x + y + c <= MaxUint64 -> Add64 x y c = (x + y + c, 0).
Proof. intros H. unfold Add64. rewrite u64_small by zlia. rewrite Z.div_small by zlia. done. Qed.

Lemma Sub64_small x y c : 0 <= x - y - c <= MaxUint64 -> Sub64 x y c = (x - y - c, 0).
Proof.
  intros H. unfold Sub64. rewrite u64_small by zlia. destruct (Z.ltb_spec (x - y - c) 0); [zlia|done].
Qed.

Lemma resolve_shape order st s o f gd od : linked order st s -> wf_loc (co_loc o) ->
  loc_shape order st o f gd od -> resolve_location s (built st o f gd od) = Ok (co_GroupID o, co_ObjectID o).
Proof.
  intros [L1 L2 L3 L4 L5 L6 L7 L8 L9] [Hg Ho] Hs. destruct (loc_shape_flags _ _ _ _ _ _ Hs) as (Hf & _ & _).
  destruct (mk_flags_facts f (is_dg o) (need_prio st o) (len (co_Properties o) >? 0) Hf) as [F1 F2 _ _ _ _ _ _ _ _].
  unfold resolve_location. cbn [built SerializationFlags fo_GroupIDDelta fo_ObjectIDDelta].
  rewrite F1, F2, L2, L1. unfold decGroupOrder. simpl in Hg, Ho. destruct Hs as [Hh|gd Hh Hu E|od Hh E1 Hu E2|Hh E1 E2].
  - rewrite Hh. done.
  - rewrite Hh, (L4 Hh), (L5 Hh). cbn -[Z.mul Z.add Sub64 Add64].
    destruct (Z.eqb_spec order GroupOrderDescending) as [Eo|Eo]; case_decide; try done.
    + change (GroupOrderDescending =? GroupOrderDescending) with true. cbv iota.
      rewrite Sub64_small by (rewrite E; zlia). simpl. by rewrite E.
    + change (GroupOrderAscending =? GroupOrderDescending) with false. cbv iota.
      rewrite Add64_small by (rewrite E; zlia). simpl. by rewrite E.
  - rewrite Hh, (L4 Hh), (L5 Hh). cbn -[Z.mul Z.add Sub64 Add64]. rewrite Add64_small by zlia. simpl.
    by rewrite Z.add_0_r, E1, E2.
  - rewrite Hh, (L4 Hh), (L5 Hh). cbn -[Z.mul Z.add Sub64 Add64]. rewrite Add64_small by zlia. simpl.
    by rewrite Z.add_0_r, E1, E2.
Qed.

Lemma need_prio_value order st s o : linked order st s ->
  (if need_prio st o then (if need_prio st o then co_PublisherPriority o else 0) else decPrevPriority s) =
  co_PublisherPriority o.
Proof.
  intros [_ _ _ _ _ L6 _ _ _]. unfold need_prio. destruct (haveActual st); simpl; [|done].
  destruct (Z.eqb_spec (co_PublisherPriority o) (en_prevPriority st)) as [E|]; simpl; [|done].
  by rewrite L6, E.
Qed.

Definition decoder_after (s : IncomingFetchStream) (o : CachedObject) (tail : Stream) : IncomingFetchStream :=
  MkFetchIn tail (if_GroupOrder s) (co_GroupID o) (co_ObjectID o)
    (if is_dg o then decPrevSubgroup s else co_SubgroupID o) (co_PublisherPriority o) true true.

Lemma read_object order st s o f gd od tail : linked order st s -> wf_cached o -> IsRangeMarker o = false ->
  loc_shape order st o f gd od -> s_at (if_rd s) (fo_Append [] (built st o f gd od)) tail ->
  match decoded o with
  | Some d => fetch_ReadDecoded s = Got d (decoder_after s o tail)
  | None => exists e, fetch_ReadDecoded s = Malformed e None (decoder_after s o tail)
  end.
Proof.
  intros L Hw Hm Hs Hat. pose proof Hw as (Hl & _). destruct (built_ok order st o f gd od Hw Hs) as [Hwf Hn].
  rewrite fo_Append_e in Hat. simpl app in Hat.
  pose proof (decodes_fo (S:=Stream) _ Hwf _ _ Hat) as Hp. rewrite Hn in Hp.
  destruct (loc_shape_flags _ _ _ _ _ _ Hs) as (Hf & _ & _).
  destruct (mk_flags_facts f (is_dg o) (need_prio st o) (len (co_Properties o) >? 0) Hf)
    as [F1 F2 F3 F4 F5 F6 F7 F8 F9 F10].
  pose proof (resolve_shape order st s o f gd od L Hl Hs) as Hr.
  assert (Hc : check_prior s (built st o f gd od) = Ok tt).
  { unfold check_prior, IsDatagram. cbn [built SerializationFlags]. rewrite F3, F4, F5.
    destruct L as [_ _ L3 _ _ _ _ _ _]. rewrite L3. unfold need_prio. destruct (haveActual st); simpl; [done|].
    by destruct (is_dg o). }
  assert (Hsg : is_dg o = false -> resolve_fetch_subgroup s (built st o f gd od) = co_SubgroupID o).
  { intros E. unfold resolve_fetch_subgroup. cbn [built SerializationFlags fo_SubgroupID].
    rewrite ?E in *. by rewrite F4. }
  pose proof (need_prio_value order st s o L) as Hpr.
  assert (Hb : SerializationFlags (built st o f gd od) =
      mk_flags f (is_dg o) (need_prio st o) (len (co_Properties o) >? 0) /\
    fo_PublisherPriority (built st o f gd od) = (if need_prio st o then co_PublisherPriority o else 0) /\
    fo_Properties (built st o f gd od) = co_Properties o /\ ObjectPayload (built st o f gd od) = co_Payload o).
  { split_and!; [done|done|apply props_nonempty|done]. }
  destruct Hb as (B1 & B2 & B3 & B4). generalize dependent (built st o f gd od). intros b _ _ _ Hp Hr Hc Hsg B1 B2 B3 B4.
  unfold fetch_ReadDecoded, fetch_ReadObject. rewrite Hp. cbv beta iota zeta.
  rewrite B1, F8, Hc, Hr. unfold IsDatagram. rewrite B1, B2, B3, B4, F3, F5, Hpr.
  unfold decoded, decoder_after. rewrite Hm. fold (is_dg o).
  destruct (is_dg o); [|rewrite (Hsg eq_refl)];
    (destruct (check_properties (co_Properties o) (co_GroupID o) (co_ObjectID o)) as [[]|e]; [done|by eexists]).
Qed.

Lemma linked_object order st s o desc tail : linked order st s -> wf_cached o ->
  (desc = true -> order = GroupOrderDescending) ->
  linked order (after_object o desc) (decoder_after s o tail).
Proof. intros [L1 _ _ _ _ _ _ _ _] (Hl & _) Hd. by split. Qed.

Definition decoder_marked (s : IncomingFetchStream) (o : CachedObject) (tail : Stream) : IncomingFetchStream :=
  MkFetchIn tail (if_GroupOrder s) (co_GroupID o) (co_ObjectID o) (decPrevSubgroup s) (decPrevPriority s)
    true (decHaveActual s).

Lemma read_marker s o tail : wf_loc (co_loc o) -> IsRangeMarker o = true ->
  s_at (if_rd s) (fo_Append [] (marker_object o)) tail ->
  exists d, decoded o = Some d /\ fetch_ReadDecoded s = Got d (decoder_marked s o tail).
Proof.
  intros [Hg Ho] Hm Hat. simpl in Hg, Ho. unfold decoded. rewrite Hm. eexists. split; [done|].
  assert (Hwf : wf_fo (S:=Stream) (marker_object o)).
  { unfold wf_fo, marker_object; simpl. rewrite MaxStreamFieldSize_val.
    split_and!; try done; try by destruct (EndOfTimedOutRange o). }
  rewrite fo_Append_e in Hat. simpl app in Hat.
  pose proof (decodes_fo (S:=Stream) _ Hwf _ _ Hat) as Hp.
  unfold fetch_ReadDecoded, fetch_ReadObject. rewrite Hp. unfold marker_object, norm_fo.
  by destruct (EndOfTimedOutRange o).
Qed.

Lemma linked_marker order st s o tail : linked order st s -> wf_loc (co_loc o) ->
  linked order (after_marker st o) (decoder_marked s o tail).
Proof. intros [L1 L2 L3 L4 L5 L6 L7 L8 L9] Hl. by split. Qed.

(** *** The whole stream *)

Definition prior (st : encoder) : option Location :=
  if havePrev st then Some (MkLoc (en_prevGroup st) (en_prevObject st)) else None.

Lemma serve_loop_sent wr expired objs : forall st sent written,
  exists fos, (serve_loop wr expired st objs sent written).1.1 = sent ++ fos.
Proof.
  induction objs as [|o objs IH]; intros st sent written; simpl; [by exists []; rewrite app_nil_r|].
  assert (Hsnoc : forall st' x w', exists fos, (serve_loop wr expired st' objs (sent ++ [x]) w').1.1 = sent ++ fos).
  { intros st' x w'. destruct (IH st' (sent ++ [x]) w') as [fos ->]. exists (x :: fos). by rewrite <- app_assoc. }
  assert (Hnil : exists fos, sent = sent ++ fos) by (by exists []; rewrite app_nil_r).
  destruct (IsRangeMarker _); [destruct (wr _); [done|apply Hsnoc]|].
  destruct (IsStatusMarker _); [apply IH|]. destruct (encode_object _ _) as [[fo st']|]; [|done].
  destruct (wr _); [done|apply Hsnoc].
Qed.

Lemma mark_expired_loc expired o : co_loc (mark_expired expired o) = co_loc o.
Proof. unfold mark_expired. destruct expired as [f|]; [|done]. by destruct (_ && _). Qed.

Lemma mark_expired_wf expired o : wf_cached o -> wf_cached (mark_expired expired o).
Proof.
  intros (H1 & H2). unfold mark_expired. destruct expired as [f|]; [|done]. destruct (_ && _); [|done].
  unfold wf_cached; simpl. rewrite MaxStreamFieldSize_val. split_and!; try zlia || done; apply H1.
Qed.

Definition ok_writes : nat -> option error := fun _ => None.

Definition real_count (expired : option (CachedObject -> bool)) (objs : list CachedObject) : Z :=
  len (filter (fun o => IsRangeMarker o = false) (serialized expired objs)).

(** What serving [objs] from state [st] achieves. *)
Definition served (order : Z) expired objs st sent written (r : list FetchObject * Z * result unit) : Prop :=
  r.2 = Ok tt /\ r.1.2 = written + real_count expired objs /\
  forall fos s tail, r.1.1 = sent ++ fos -> linked order st s ->
    if_rd s = MkStream (fetch_wire fos ++ tail) Fin ->
    exists s', freads s (decoded <$> serialized expired objs) s' /\ if_rd s' = MkStream tail Fin.

Lemma served_snoc order expired objs st st' sent written written' o fo step :
  served order expired objs st' (sent ++ [fo]) written'
    (serve_loop ok_writes expired st' objs (sent ++ [fo]) written') ->
  mark_expired expired o = step ->
  (IsRangeMarker step || negb (IsStatusMarker step)) = true ->
  written' = (if IsRangeMarker step then written else written + 1) ->
  (forall s tail, linked order st s -> s_at (if_rd s) (fo_Append [] fo) tail ->
     exists s', linked order st' s' /\ if_rd s' = tail /\
       match decoded step with
       | Some d => fetch_ReadDecoded s = Got d s'
       | None => exists e, fetch_ReadDecoded s = Malformed e None s'
       end) ->
  served order expired (o :: objs) st sent written
    (serve_loop ok_writes expired st' objs (sent ++ [fo]) written').
Proof.
  intros (H1 & H2 & H3) Hst Hk Hwr Hread.
  assert (Hser : serialized expired (o :: objs) = step :: serialized expired objs).
  { unfold serialized. rewrite fmap_cons, Hst, filter_cons, decide_True by done. done. }
  split_and!; [done| |].
  - rewrite H2, Hwr. unfold real_count. rewrite Hser. destruct (IsRangeMarker step) eqn:E.
    + by rewrite filter_cons_False by congruence.
    + rewrite filter_cons_True by done. rewrite len_cons. lia.
  - intros fos s tail Hfos Hl Hrd.
    destruct (serve_loop_sent ok_writes expired objs st' (sent ++ [fo]) written') as [rest Hrest].
    rewrite Hrest, <- app_assoc in Hfos. apply app_inv_head in Hfos. simpl in Hfos. subst fos.
    cbn [fetch_wire] in Hrd. unfold fetch_wire in Hrd. rewrite fmap_cons in Hrd. cbn [concat] in Hrd.
    rewrite <- app_assoc in Hrd.
    destruct (Hread s (MkStream (fetch_wire rest ++ tail) Fin) Hl) as (s1 & Hl1 & Hrd1 & Hd).
    { rewrite Hrd. by split. }
    destruct (H3 rest s1 tail Hrest Hl1 Hrd1) as (s' & Hf & Ht). exists s'. split; [|done].
    rewrite Hser, fmap_cons. destruct (decoded step) as [d|].
    + by eapply freads_got.
    + destruct Hd as [e He]. by eapply freads_malformed.
Qed.

Lemma serve_loop_served order expired objs : forall st sent written,
  Forall wf_cached objs -> stream_sorted order objs ->
  (forall p, prior st = Some p -> wf_loc p /\ Forall (fun o => stream_lt order p (co_loc o)) objs) ->
  (descending st = true -> order = GroupOrderDescending) ->
  served order expired objs st sent written (serve_loop ok_writes expired st objs sent written).
Proof.
  induction objs as [|o objs IH]; intros st sent written Hw Hs Hp Hd.
  { split_and!; [done|change (real_count expired []) with 0; simpl; lia|]. intros fos s tail Hf Hl Hrd.
    simpl in Hf. rewrite <- (app_nil_r sent) in Hf at 1. apply app_inv_head in Hf. subst.
    exists s. split; [constructor|done]. }
  apply Forall_cons in Hw as [Hwo Hw]. inversion Hs as [|? ? Hs' Hall]; subst.
  cbn [serve_loop]. set (step := mark_expired expired o).
  assert (Hws : wf_cached step) by (by apply mark_expired_wf).
  assert (Hls : co_loc step = co_loc o) by apply mark_expired_loc.
  pose proof Hws as (Hwl & _).
  assert (Hlater : Forall (fun x => stream_lt order (co_loc step) (co_loc x)) objs) by (by rewrite Hls).
  destruct (IsRangeMarker step) eqn:Em.
  { eapply (served_snoc _ _ _ _ _ _ _ _ o _ step); [apply IH; [done|done| |done]|reflexivity| |by rewrite Em|].
    - intros p [= <-]. split; [exact Hwl|exact Hlater].
    - by rewrite Em.
    - intros s tail Hl Hat. destruct (read_marker s step tail Hwl Em Hat) as (d & Hd' & Hr).
      exists (decoder_marked s step tail). split_and!; [by apply linked_marker|done|].
      by rewrite Hd'. }
  destruct (IsStatusMarker step) eqn:Es.
  { destruct (IH st sent written Hw Hs') as (H1 & H2 & H3); [|done|].
    - intros p Hpr. destruct (Hp p Hpr) as [Hwp Hf]. by apply Forall_cons in Hf as [_ Hf].
    - assert (Hser : serialized expired (o :: objs) = serialized expired objs).
      { unfold serialized. rewrite fmap_cons, filter_cons. fold step. by rewrite Em, Es. }
      unfold served, real_count in *. rewrite Hser. done. }
  destruct (encode_location_spec order st step) as (f & gd & od & desc & He & Hshape & Hdesc); [done| |done|].
  { intros Hh. unfold prior in Hp. rewrite Hh in Hp. destruct (Hp _ eq_refl) as [Hwp Hf].
    apply Forall_cons in Hf as [Hf _]. by rewrite Hls. }
  rewrite (encode_object_built _ _ _ _ _ _ He). unfold ok_writes at 1.
  eapply (served_snoc _ _ _ _ _ _ _ _ o _ step); [apply IH; [done|done| |done]|reflexivity| |by rewrite Em|].
  - intros p [= <-]. split; [exact Hwl|exact Hlater].
  - by rewrite Em, Es.
  - intros s tail Hl Hat. exists (decoder_after s step tail).
    split_and!; [by eapply linked_object|done|]. by eapply read_object.
Qed.

(** ** Theorems *)

(** C1: a FETCH response survives the wire.  Serialising elements that are in
    strict stream order, in either group order, never fails on an order violation,
    counts the real Objects written, and is decoded by the fetcher, told the group
    order, to exactly those elements in order: Objects with their absolute IDs,
    priorities, properties and payloads (a datagram without its Subgroup ID),
    expired ones and range markers as End of Range markers, status markers left
    out; then a clean end of stream. *)
Theorem fetch_stream_roundtrip order expired objs : Forall wf_cached objs -> stream_sorted order objs ->
  let '(fos, written, r) := streamFetchObjects ok_writes objs expired in
  r = Ok tt /\ written = real_count expired objs /\
  exists s' e, freads (NewIncomingFetch (MkStream (fetch_wire fos) Fin) order)
      (decoded <$> serialized expired objs) s' /\
    fetch_ReadDecoded s' = Failed e false /\ errors_Is e EOF = true.
Proof.
  intros Hw Hs. unfold streamFetchObjects.
  destruct (serve_loop_served order expired objs encoder0 [] 0 Hw Hs) as (H1 & H2 & H3); [done|done|].
  destruct (serve_loop ok_writes expired encoder0 objs [] 0) as [[fos written] r]. simpl in H1, H2, H3.
  split_and!; [done|lia|].
  destruct (H3 fos (NewIncomingFetch (MkStream (fetch_wire fos) Fin) order) []) as (s' & Hf & Ht);
    [done|by split|simpl; by rewrite app_nil_r|].
  exists s', EOF. split_and!; [done| |done]. unfold fetch_ReadDecoded, fetch_ReadObject. by rewrite Ht.
Qed.

Definition sample_elems : list CachedObject :=
  [sample_cached 5 2; sample_cached 5 3; unknownRangeMarker (MkLoc 4 MaxUint64);
   MkCached 3 0 0 9 ForwardingDatagram 0 [] [Byte.x07] 5 0 false false false false;
   MkCached 3 8 0 0 ForwardingSubgroup 3 [] [] 5 0 false false false false].

Lemma fetch_stream_roundtrip_witness :
  exists fos s' e, streamFetchObjects ok_writes sample_elems None = (fos, 3, Ok tt) /\
    freads (NewIncomingFetch (MkStream (fetch_wire fos) Fin) GroupOrderDescending)
      [Some (MkDecFetch 5 2 1 128 [] [Byte.x01] false false false false);
       Some (MkDecFetch 5 3 1 128 [] [Byte.x01] false false false false);
       Some (MkDecFetch 4 MaxUint64 0 0 [] [] false false true false);
       Some (MkDecFetch 3 0 0 9 [] [Byte.x07] true false false false)] s' /\
    fetch_ReadDecoded s' = Failed e false.
Proof.
  assert (Hw : Forall wf_cached sample_elems).
  { unfold sample_elems. repeat (apply Forall_cons; split;
      [unfold wf_cached; simpl; rewrite MaxStreamFieldSize_val; split_and!; by_decide|]). constructor. }
  assert (Hs : stream_sorted GroupOrderDescending sample_elems).
  { unfold stream_sorted, sample_elems. repeat (constructor; [|repeat constructor; by_decide]). constructor. }
  pose proof (fetch_stream_roundtrip GroupOrderDescending None sample_elems Hw Hs) as H.
  destruct (streamFetchObjects ok_writes sample_elems None) as [[fos n] r].
  destruct H as (-> & -> & s' & e & H1 & H2 & _). exists fos, s', e. split_and!; [reflexivity|exact H1|exact H2].
Defined.
