(* ===== verification/Ledger.v ===== *)
(** * Ledger: what a track has delivered, and where it ends

    The delivery ledger of [relay/internal/registry/track_entry.go]: the gate
    that forwards each Object of redundant publishers once, the gaps and ends
    announced for Subgroups, Groups and the Track, the malformed-track conditions
    they make, and the ranges of Locations known not to exist that a FETCH relies
    on; with the largest-object watermark and the NEW_GROUP_REQUEST rules of the
    same entry.

    The Go maps are finite maps; an operation under [deliveredMu] is one step.
    An operation that reports a malformed track may still have changed the cache,
    so it returns both its verdict and the new state. *)

From stdpp Require Import gmap.
From S2P Require Import Prelude Varint Wire KV Filter Params Properties Objects Cache FetchRanges.

(** ** Ends *)

(** Where a Subgroup, Group or Track ends: its first missing Object ID. *)
Record ending : Type := MkEnd { e_at : Z; e_set : bool; e_hard : bool }.
Definition no_end : ending := MkEnd 0 false false.

Definition past (e : ending) (id : Z) (normal : bool) : bool :=
  e_set e && ((id >? e_at e) || ((id =? e_at e) && normal && e_hard e)).

Definition conflicts (e : ending) (at' : Z) (hard : bool) : bool :=
  if negb (e_set e) || (e_at e =? at') then false
  else if hard && negb (e_hard e) then negb (at' =? u64 (e_at e + 1))
  else if negb hard && e_hard e then negb (u64 (at' + 1) =? e_at e)
  else true.

Definition with_end (e : ending) (at' : Z) (hard : bool) : ending :=
  if negb (e_set e) then MkEnd at' true hard
  else if at' =? e_at e then MkEnd at' true (e_hard e || hard)
  else if at' <? e_at e then MkEnd at' true false
  else e.

Definition lower (a b : ending) : ending := if e_at b <? e_at a then b else a.

(** ** State *)
Record subgroupLedger : Type := MkSG {
  sg_priority : Z; sg_maxNormal : Z; sg_maxStatus : Z; sg_hasNormal : bool; sg_hasStatus : bool;
  sg_end : ending; minObject : Z; hasObject : bool
}.
Definition subgroup0 : subgroupLedger := MkSG 0 0 0 false false no_end 0 false.

Record idRange : Type := MkIds { lo : Z; hi : Z }.
#[global] Instance idRange_eq_dec : EqDecision idRange.
Proof. solve_decision. Defined.

Definition contains (r : idRange) (id : Z) : bool := (lo r <=? id) && (id <=? hi r).

Record deliveredGroup : Type := MkGroup {
  objects : gset Z; maxNormal : Z; maxStatus : Z; hasNormal : bool; hasStatus : bool;
  subgroups : gmap Z subgroupLedger; g_end : ending; objectGaps : list idRange;
  g_groupGap : Z; hasGroupGap : bool
}.
Definition group0 : deliveredGroup := MkGroup ∅ 0 0 false false ∅ no_end [] 0 false.

(** The ledger fields of [TrackEntry], and its cache. *)
Record TrackLedger : Type := MkLedger {
  delivered : gmap Z deliveredGroup; groupGapRanges : list idRange; trackEnd : Location;
  hasTrackEnd : bool; deliveredFloor : Z; t_Cache : ObjectCache
}.
Definition ledger0 (c : ObjectCache) : TrackLedger := MkLedger ∅ [] (MkLoc 0 0) false 0 c.

Definition set_cache (e : TrackLedger) (c : ObjectCache) : TrackLedger :=
  MkLedger (delivered e) (groupGapRanges e) (trackEnd e) (hasTrackEnd e) (deliveredFloor e) c.

Record ObjectInfo : Type := MkInfo {
  oi_Group : Z; oi_Object : Z; oi_Subgroup : Z; oi_Datagram : bool; oi_Priority : Z; oi_Status : Z;
  oi_EndOfGroup : bool; oi_Gaps : PriorGaps
}.
Definition oi_loc (o : ObjectInfo) : Location := MkLoc (oi_Group o) (oi_Object o).

Inductive Claim : Type := ClaimFresh | ClaimRedundant | ClaimAgedOut.
#[global] Instance Claim_eq_dec : EqDecision Claim.
Proof. solve_decision. Defined.

Definition deliveredGroupWindow : Z := 32.

Definition is_normal (status : Z) : bool := status =? ObjectStatusNormal.

(** ** Gaps *)
Definition gapRange (id n : Z) : option idRange :=
  if n >? 0 then Some (MkIds (u64 (id - n)) (u64 (id - 1))) else None.

Definition announcedAbsentLocked (e : TrackLedger) (g : option deliveredGroup) (group object : Z) : bool :=
  existsb (fun r => contains r group) (groupGapRanges e) ||
  match g with Some g => existsb (fun r => contains r object) (objectGaps g) | None => false end.

Definition record_object_gap (g : deliveredGroup) (object : Z) (gaps : PriorGaps) : deliveredGroup :=
  match gapRange object (pg_Object gaps) with
  | Some r =>
      if HasObject gaps && negb (bool_decide (r ∈ objectGaps g))
      then MkGroup (objects g) (maxNormal g) (maxStatus g) (hasNormal g) (hasStatus g) (subgroups g) (g_end g)
             (objectGaps g ++ [r]) (g_groupGap g) (hasGroupGap g)
      else g
  | None => g
  end.

Definition record_group_gap (g : deliveredGroup) (ranges : list idRange) (group : Z) (gaps : PriorGaps) :
    deliveredGroup * list idRange :=
  if HasGroup gaps && negb (hasGroupGap g) then
    (MkGroup (objects g) (maxNormal g) (maxStatus g) (hasNormal g) (hasStatus g) (subgroups g) (g_end g)
       (objectGaps g) (pg_Group gaps) true,
     match gapRange group (pg_Group gaps) with Some r => ranges ++ [r] | None => ranges end)
  else (g, ranges).

(** The group and the Group gaps after an Object at (group, object). *)
Definition recordGapsLocked (g : deliveredGroup) (ranges : list idRange) (group object : Z) (gaps : PriorGaps) :
    deliveredGroup * list idRange :=
  record_group_gap (record_object_gap g object gaps) ranges group gaps.

(** ** Removing Objects past an end from the cache *)
Definition delete_all (c : ObjectCache) (group : Z) (objs : list CachedObject) : ObjectCache :=
  fold_left (fun c o => Delete group (co_ObjectID o) c) objs c.

Definition purged_by (subgroup : option Z) (ended : ending) (o : CachedObject) : bool :=
  past ended (co_ObjectID o) (is_normal (co_Status o)) &&
  match subgroup with
  | None => true
  | Some sg => bool_decide (ForwardingPref o = ForwardingSubgroup) && (co_SubgroupID o =? sg)
  end.

Definition purgePastLocked (now : Z) (c : ObjectCache) (group : Z) (subgroup : option Z) (ended : ending) :
    ObjectCache :=
  let objs := GetRange now c (MkLoc group (e_at ended)) (MkLoc group MaxUint64) GroupOrderAscending in
  delete_all c group (List.filter (purged_by subgroup ended) objs).

Definition purgeGroupLocked (now : Z) (c : ObjectCache) (group : Z) : ObjectCache :=
  delete_all c group (GetRange now c (MkLoc group 0) (MkLoc group MaxUint64) GroupOrderAscending).

Definition pastEnd (g : deliveredGroup) (ended : ending) : bool :=
  (hasNormal g && past ended (maxNormal g) true) || (hasStatus g && past ended (maxStatus g) false).

Definition purge_track_step (now : Z) (loc : Location) (acc : bool * ObjectCache) (kg : Z * deliveredGroup) :
    bool * ObjectCache :=
  let ended := MkEnd (Object loc) true false in
  let '(id, g) := kg in
  if id >? Group loc then (true, purgeGroupLocked now acc.2 id)
  else if (id =? Group loc) && pastEnd g ended then (true, purgePastLocked now acc.2 id None ended)
  else acc.

Definition purgeTrackPastLocked (now : Z) (e : TrackLedger) (loc : Location) : bool * ObjectCache :=
  fold_left (purge_track_step now loc) (map_to_list (delivered e)) (false, t_Cache e).

(** ** Checking an Object against the ends *)

Definition groupEnd (o : ObjectInfo) : option (Z * bool) :=
  if (oi_Status o =? ObjectStatusEndOfGroup) || (oi_Status o =? ObjectStatusEndOfTrack)
  then Some (oi_Object o, false)
  else if oi_Datagram o && oi_EndOfGroup o && (oi_Object o <? MaxUint64)
  then Some (u64 (oi_Object o + 1), true)
  else None.

Definition malformed {A} (what : string) : result A := Err (Wrapf what ErrMalformedTrack).

(** The Track's end. *)
Definition check_track (now : Z) (e : TrackLedger) (o : ObjectInfo) : result unit * ObjectCache :=
  let loc := oi_loc o in
  if hasTrackEnd e && Less (trackEnd e) loc then (malformed "past END_OF_TRACK", t_Cache e)
  else if negb (oi_Status o =? ObjectStatusEndOfTrack) then (Ok tt, t_Cache e)
  else
    let '(found, c) := purgeTrackPastLocked now e loc in
    if hasTrackEnd e && negb (bool_decide (trackEnd e = loc)) then (malformed "two END_OF_TRACK", c)
    else if found then (malformed "END_OF_TRACK below an Object received", c)
    else (Ok tt, c).

(** The Group's end. *)
Definition check_group (now : Z) (c : ObjectCache) (g : deliveredGroup) (o : ObjectInfo) :
    result unit * ObjectCache :=
  if past (g_end g) (oi_Object o) (is_normal (oi_Status o)) then (malformed "Object past its Group's end", c)
  else match groupEnd o with
  | None => (Ok tt, c)
  | Some (at', hard) =>
      let gEnd := with_end (g_end g) at' hard in
      if conflicts (g_end g) at' hard
      then (malformed "two Group ends", purgePastLocked now c (oi_Group o) None (lower (g_end g) (MkEnd at' true hard)))
      else if pastEnd g gEnd
      then (malformed "Group end below an Object received", purgePastLocked now c (oi_Group o) None gEnd)
      else (Ok tt, c)
  end.

(** The Subgroup's priority and end. *)
Definition check_subgroup (g : deliveredGroup) (o : ObjectInfo) : result unit :=
  if oi_Datagram o then Ok tt
  else match subgroups g !! oi_Subgroup o with
  | None => Ok tt
  | Some sg =>
      if negb (sg_priority sg =? oi_Priority o) then malformed "two Publisher Priorities"
      else if past (sg_end sg) (oi_Object o) (is_normal (oi_Status o)) then malformed "Object past its Subgroup's end"
      else Ok tt
  end.

Definition checkEndsLocked (now : Z) (e : TrackLedger) (g : option deliveredGroup) (o : ObjectInfo) :
    result unit * ObjectCache :=
  match check_track now e o with
  | (Err err, c) => (Err err, c)
  | (Ok _, c) =>
      match g with
      | None => (Ok tt, c)
      | Some g =>
          match check_group now c g o with
          | (Err err, c) => (Err err, c)
          | (Ok _, c) => (check_subgroup g o, c)
          end
      end
  end.

(** ** Recording an Object *)

Definition record_subgroup (g : deliveredGroup) (o : ObjectInfo) : gmap Z subgroupLedger :=
  let normal := is_normal (oi_Status o) in
  let sg := match subgroups g !! oi_Subgroup o with
            | Some sg => sg
            | None => MkSG (oi_Priority o) 0 0 false false no_end 0 false
            end in
  let first := negb (hasObject sg) || (oi_Object o <? minObject sg) in
  <[oi_Subgroup o := MkSG (sg_priority sg)
      (if normal then Z.max (sg_maxNormal sg) (oi_Object o) else sg_maxNormal sg)
      (if normal then sg_maxStatus sg else Z.max (sg_maxStatus sg) (oi_Object o))
      (normal || sg_hasNormal sg) (negb normal || sg_hasStatus sg) (sg_end sg)
      (if first then oi_Object o else minObject sg) (first || hasObject sg)]> (subgroups g).

Definition record_group (g : deliveredGroup) (o : ObjectInfo) : deliveredGroup :=
  let normal := is_normal (oi_Status o) in
  MkGroup (objects g)
    (if normal then Z.max (maxNormal g) (oi_Object o) else maxNormal g)
    (if normal then maxStatus g else Z.max (maxStatus g) (oi_Object o))
    (normal || hasNormal g) (negb normal || hasStatus g)
    (if oi_Datagram o then subgroups g else record_subgroup g o)
    (match groupEnd o with Some (at', hard) => with_end (g_end g) at' hard | None => g_end g end)
    (objectGaps g) (g_groupGap g) (hasGroupGap g).

(** [recordEndsLocked], storing the group [g] it updates. *)
Definition recordEndsLocked (e : TrackLedger) (g : deliveredGroup) (o : ObjectInfo) : TrackLedger :=
  let eot := oi_Status o =? ObjectStatusEndOfTrack in
  MkLedger (<[oi_Group o := record_group g o]> (delivered e)) (groupGapRanges e)
    (if eot then oi_loc o else trackEnd e) (eot || hasTrackEnd e) (deliveredFloor e) (t_Cache e).

(** Room for a new Group: the lowest is pruned when the window is full. *)
Definition prune_window (e : TrackLedger) : TrackLedger :=
  if Z.of_nat (base.size (delivered e)) >=? deliveredGroupWindow then
    let d := delete (deliveredFloor e) (delivered e) in
    let floor := fold_left Z.min (map_to_list d).*1 MaxUint64 in
    MkLedger d (List.filter (fun r => negb (hi r <? floor)) (groupGapRanges e)) (trackEnd e) (hasTrackEnd e)
      floor (t_Cache e)
  else e.

Definition addDeliveredGroupLocked (e : TrackLedger) (group : Z) (g : deliveredGroup) : TrackLedger :=
  let e := prune_window e in
  let floor := if bool_decide (delivered e = ∅) || (group <? deliveredFloor e) then group else deliveredFloor e in
  MkLedger (<[group := g]> (delivered e)) (groupGapRanges e) (trackEnd e) (hasTrackEnd e) floor (t_Cache e).

Definition add_object (g : deliveredGroup) (object : Z) : deliveredGroup :=
  MkGroup ({[object]} ∪ objects g) (maxNormal g) (maxStatus g) (hasNormal g) (hasStatus g) (subgroups g) (g_end g)
    (objectGaps g) (g_groupGap g) (hasGroupGap g).

Definition aged_out (e : TrackLedger) (group : Z) : bool :=
  bool_decide (delivered e !! group = None) &&
  (Z.of_nat (base.size (delivered e)) >=? deliveredGroupWindow) && (group <? deliveredFloor e).

Definition two_group_gaps (g : option deliveredGroup) (gaps : PriorGaps) : bool :=
  match g with
  | Some g => HasGroup gaps && hasGroupGap g && negb (g_groupGap g =? pg_Group gaps)
  | None => false
  end.

(** From the point where the Object may be delivered. *)
Definition claim_object (e : TrackLedger) (o : ObjectInfo) : Claim * TrackLedger :=
  let group := oi_Group o in let object := oi_Object o in
  let '(g, e) := match delivered e !! group with
                 | Some g => (g, e)
                 | None => (group0, addDeliveredGroupLocked e group group0)
                 end in
  let '(g, ranges) := recordGapsLocked g (groupGapRanges e) group object (oi_Gaps o) in
  let e := MkLedger (<[group := g]> (delivered e)) ranges (trackEnd e) (hasTrackEnd e) (deliveredFloor e) (t_Cache e) in
  if bool_decide (object ∈ objects g) then (ClaimRedundant, e)
  else (ClaimFresh, recordEndsLocked e (add_object g object) o).

Definition ClaimDelivered (now : Z) (o : ObjectInfo) (e : TrackLedger) : result Claim * TrackLedger :=
  let g := delivered e !! oi_Group o in
  if aged_out e (oi_Group o) then (Ok ClaimAgedOut, e)
  else if two_group_gaps g (oi_Gaps o) then (malformed "two Prior Group ID Gaps", e)
  else
    let '(r, c) := checkEndsLocked now e g o in
    let e := set_cache e c in
    match r with
    | Err err => (Err err, e)
    | Ok _ =>
        if announcedAbsentLocked e g (oi_Group o) (oi_Object o) then (Ok ClaimRedundant, e)
        else let '(claim, e) := claim_object e o in (Ok claim, e)
    end.

Definition RecordDuplicate (now : Z) (o : ObjectInfo) (e : TrackLedger) : result unit * TrackLedger :=
  match delivered e !! oi_Group o with
  | None => (Ok tt, e)
  | Some g =>
      if negb (bool_decide (oi_Object o ∈ objects g)) then (Ok tt, e)
      else match checkEndsLocked now e (Some g) o with
           | (Err err, c) => (Err err, set_cache e c)
           | (Ok _, c) => (Ok tt, recordEndsLocked (set_cache e c) g o)
           end
  end.

(** ** The end of an inbound subgroup stream *)

Definition sg_past (sg : subgroupLedger) (ended : ending) : bool :=
  (sg_hasStatus sg && past ended (sg_maxStatus sg) false) || (sg_hasNormal sg && past ended (sg_maxNormal sg) true).

Definition with_sg_end (sg : subgroupLedger) (ended : ending) : subgroupLedger :=
  MkSG (sg_priority sg) (sg_maxNormal sg) (sg_maxStatus sg) (sg_hasNormal sg) (sg_hasStatus sg) ended
    (minObject sg) (hasObject sg).

(** The [switch] and what follows it, for an end [at'] (a FIN's if [hard]). *)
Definition end_subgroup (now : Z) (e : TrackLedger) (g : deliveredGroup) (lastObj : ObjectInfo) (endOfGroup : bool)
    (at' : Z) (hard : bool) : result unit * TrackLedger :=
  let group := oi_Group lastObj in let subgroup := oi_Subgroup lastObj in
  let ends := MkEnd at' true hard in
  let sg := match subgroups g !! subgroup with
            | Some sg => sg
            | None => MkSG (oi_Priority lastObj) 0 0 false false no_end 0 false
            end in
  let sgEnd := with_end (sg_end sg) at' hard in
  let gEnd := with_end (g_end g) at' hard in
  if conflicts (sg_end sg) at' hard
  then (malformed "two Subgroup ends", set_cache e (purgePastLocked now (t_Cache e) group (Some subgroup) (lower (sg_end sg) ends)))
  else if sg_past sg sgEnd
  then (malformed "Subgroup end below an Object received", set_cache e (purgePastLocked now (t_Cache e) group (Some subgroup) sgEnd))
  else if endOfGroup && conflicts (g_end g) at' hard
  then (malformed "two Group ends", set_cache e (purgePastLocked now (t_Cache e) group None (lower (g_end g) ends)))
  else if endOfGroup && pastEnd g gEnd
  then (malformed "Group end below an Object received", set_cache e (purgePastLocked now (t_Cache e) group None gEnd))
  else
    let g := MkGroup (objects g) (maxNormal g) (maxStatus g) (hasNormal g) (hasStatus g)
               (<[subgroup := with_sg_end sg sgEnd]> (subgroups g)) (if endOfGroup then gEnd else g_end g)
               (objectGaps g) (g_groupGap g) (hasGroupGap g) in
    (Ok tt, MkLedger (<[group := g]> (delivered e)) (groupGapRanges e) (trackEnd e) (hasTrackEnd e)
              (deliveredFloor e) (t_Cache e)).

Definition SubgroupEnded (now : Z) (lastObj : ObjectInfo) (endOfGroup : bool) (e : TrackLedger) :
    result unit * TrackLedger :=
  match delivered e !! oi_Group lastObj with
  | None => (Ok tt, e)
  | Some g =>
      let hard := is_normal (oi_Status lastObj) in
      if hard && (oi_Object lastObj =? MaxUint64) then (Ok tt, e)
      else end_subgroup now e g lastObj endOfGroup
             (if hard then u64 (oi_Object lastObj + 1) else oi_Object lastObj) hard
  end.

(** ** Queries *)
Definition TrackEnd (e : TrackLedger) : Location * bool := (trackEnd e, hasTrackEnd e).

Definition LowestForwarded (e : TrackLedger) (group subgroup : Z) : Z * bool :=
  match delivered e !! group with
  | None => (0, false)
  | Some g => let sg := default subgroup0 (subgroups g !! subgroup) in (minObject sg, hasObject sg)
  end.

Definition group_absent (id : Z) (g : deliveredGroup) : list LocRange :=
  (if e_set (g_end g) then [MkRange (MkLoc id (e_at (g_end g))) (MkLoc id MaxUint64)] else []) ++
  ((fun r => MkRange (MkLoc id (lo r)) (MkLoc id (hi r))) <$> objectGaps g).

Definition KnownAbsent (e : TrackLedger) : list LocRange :=
  concat ((fun kg => group_absent kg.1 kg.2) <$> map_to_list (delivered e)) ++
  ((fun r => MkRange (MkLoc (lo r) 0) (MkLoc (hi r) MaxUint64)) <$> groupGapRanges e).

(** ** The watermark and new-group requests *)
Record Watermark : Type := MkMark {
  LargestObject : Location; HasLargestObject : bool; newGroupOutstanding : bool; newGroupReqValue : Z;
  newGroupReqGroup : Z
}.

Definition UpdateLargest (loc : Location) (w : Watermark) : bool * Watermark :=
  if negb (HasLargestObject w) || Less (LargestObject w) loc
  then (true, MkMark loc true (newGroupOutstanding w) (newGroupReqValue w) (newGroupReqGroup w))
  else (false, w).

Definition GetLargest (w : Watermark) : Location * bool := (LargestObject w, HasLargestObject w).

Definition ConsiderNewGroupRequest (value : Z) (dynamicGroups : bool) (w : Watermark) : bool * Watermark :=
  if negb dynamicGroups then (false, w)
  else
    let largest := if HasLargestObject w then Group (LargestObject w) else 0 in
    let outstanding := newGroupOutstanding w && negb (largest >? newGroupReqGroup w) in
    let w := MkMark (LargestObject w) (HasLargestObject w) outstanding (newGroupReqValue w) (newGroupReqGroup w) in
    if negb (value =? 0) && (value <=? largest) then (false, w)
    else if outstanding && (newGroupReqValue w >=? value) then (false, w)
    else (true, MkMark (LargestObject w) (HasLargestObject w) true value largest).

(** ** Lemmas *)

(** *** The algebra of ends *)

Lemma past_spec e id normal : past e id normal = true <->
  e_set e = true /\ (e_at e < id \/ (id = e_at e /\ normal = true /\ e_hard e = true)).
Proof.
  unfold past. rewrite andb_true_iff, orb_true_iff, !andb_true_iff, Z.gtb_lt, Z.eqb_eq. tauto.
Qed.

Lemma past_false e id normal : past e id normal = false <->
  (e_set e = true -> id <= e_at e /\ (id = e_at e -> normal = true -> e_hard e = false)).
Proof.
  rewrite <- not_true_iff_false, past_spec. split.
  - intros H Hs. split.
    + destruct (Z.le_gt_cases id (e_at e)); [done|]. exfalso. apply H. split; [done|]. by left.
    + intros Hi Hn. destruct (e_hard e); [|done]. exfalso. apply H. auto.
  - intros H [Hs Hp]. destruct (H Hs) as [H1 H2]. destruct Hp as [?|(Hi & Hn & Hh)]; [lia|].
    rewrite (H2 Hi Hn) in Hh. discriminate Hh.
Qed.

Lemma past_max e a b normal : past e a normal = false -> past e b normal = false ->
  past e (Z.max a b) normal = false.
Proof. intros Ha Hb. by destruct (Z.max_spec a b) as [[_ ->]|[_ ->]]. Qed.

Definition end_wf (e : ending) : Prop := e_set e = true -> is_u64 (e_at e).

Lemma with_end_wf e at' hard : end_wf e -> is_u64 at' -> end_wf (with_end e at' hard).
Proof. unfold end_wf, with_end. intros He Ha. repeat case_match; simpl; auto. Qed.

Lemma with_end_set e at' hard : e_set (with_end e at' hard) = true.
Proof. unfold with_end. repeat case_match; simpl; try done. by apply negb_false_iff. Qed.

(** An Object that ends its Group is not itself past the new end. *)
Lemma with_end_self e id normal at' hard : past e id normal = false ->
  (at' = id /\ normal = false \/ at' = id + 1) -> past (with_end e at' hard) id normal = false.
Proof.
  intros Hp Ha. unfold with_end. destruct (e_set e) eqn:Es; simpl.
  - destruct (Z.eqb_spec at' (e_at e)); [|destruct (Z.ltb_spec at' (e_at e)); [|done]];
      apply past_false; simpl; intros _; (split; [lia|]); intros E Hn;
      (destruct Ha as [[_ Hf]|Ha]; [congruence|lia]).
  - apply past_false; simpl. intros _. split; [lia|]. intros E Hn. destruct Ha as [[_ Hf]|Ha]; [congruence|lia].
Qed.

(** *** The invariant *)

Definition gap_wf (r : idRange) : Prop := 0 <= lo r <= hi r /\ hi r <= MaxUint64.

Record sg_wf (sg : subgroupLedger) : Prop := {
  sw_end : end_wf (sg_end sg);
  sw_past : sg_past sg (sg_end sg) = false;
  sw_zero : (sg_hasNormal sg = false -> sg_maxNormal sg = 0) /\ (sg_hasStatus sg = false -> sg_maxStatus sg = 0);
  sw_min : is_u64 (minObject sg)
}.

Record group_wf (g : deliveredGroup) : Prop := {
  gw_end : end_wf (g_end g);
  gw_past : pastEnd g (g_end g) = false;
  gw_zero : (hasNormal g = false -> maxNormal g = 0) /\ (hasStatus g = false -> maxStatus g = 0);
  gw_objects : forall x, x ∈ objects g ->
    (hasNormal g = true /\ x <= maxNormal g) \/ (hasStatus g = true /\ x <= maxStatus g);
  gw_subgroups : map_Forall (fun _ => sg_wf) (subgroups g);
  gw_gaps : Forall gap_wf (objectGaps g)
}.

Definition soft_end (at' : Z) : ending := MkEnd at' true false.

Record ledger_wf (e : TrackLedger) : Prop := {
  lw_ids : map_Forall (fun id _ => is_u64 id) (delivered e);
  lw_groups : map_Forall (fun _ => group_wf) (delivered e);
  lw_gaps : Forall gap_wf (groupGapRanges e);
  lw_track : hasTrackEnd e = true -> wf_loc (trackEnd e) /\
    forall id g, delivered e !! id = Some g -> id <= Group (trackEnd e) /\
      (id = Group (trackEnd e) -> pastEnd g (soft_end (Object (trackEnd e))) = false);
  lw_floor : delivered e <> ∅ -> is_Some (delivered e !! deliveredFloor e) /\
    forall id, is_Some (delivered e !! id) -> deliveredFloor e <= id;
  lw_window : Z.of_nat (base.size (delivered e)) <= deliveredGroupWindow
}.

Lemma ledger_wf_cache e c : ledger_wf e -> ledger_wf (set_cache e c).
Proof. intros []. by split. Qed.

Lemma ledger0_wf c : ledger_wf (ledger0 c).
Proof. by split; simpl. Qed.

Lemma group0_wf : group_wf group0.
Proof. by split; simpl. Qed.

(** An Object as the session layer hands it over. *)
Definition info_wf (o : ObjectInfo) : Prop :=
  wf_loc (oi_loc o) /\
  (HasGroup (oi_Gaps o) = true -> 0 <= pg_Group (oi_Gaps o) <= oi_Group o) /\
  (HasObject (oi_Gaps o) = true -> 0 <= pg_Object (oi_Gaps o) <= oi_Object o).

Lemma pastEnd_false g ended : pastEnd g ended = false <->
  (hasNormal g = true -> past ended (maxNormal g) true = false) /\
  (hasStatus g = true -> past ended (maxStatus g) false = false).
Proof. unfold pastEnd. destruct (hasNormal g), (hasStatus g), (past ended (maxNormal g) true), (past ended (maxStatus g) false); simpl; intuition congruence. Qed.

Lemma sg_past_false g ended : sg_past g ended = false <->
  (sg_hasNormal g = true -> past ended (sg_maxNormal g) true = false) /\
  (sg_hasStatus g = true -> past ended (sg_maxStatus g) false = false).
Proof. unfold sg_past. destruct (sg_hasNormal g), (sg_hasStatus g), (past ended (sg_maxNormal g) true), (past ended (sg_maxStatus g) false); simpl; intuition congruence. Qed.

Lemma groupEnd_spec o at' hard : wf_loc (oi_loc o) -> groupEnd o = Some (at', hard) ->
  is_u64 at' /\ (at' = oi_Object o /\ is_normal (oi_Status o) = false \/ at' = oi_Object o + 1).
Proof.
  intros [_ Hw] H. unfold groupEnd in H. simpl in Hw. unfold is_normal.
  destruct (_ || _) eqn:E.
  - simplify_eq. split; [done|]. left. split; [done|]. apply orb_true_iff in E as [E|E];
      apply Z.eqb_eq in E; rewrite E; reflexivity.
  - destruct (Z.ltb_spec (oi_Object o) MaxUint64); rewrite ?andb_false_r in H; [|done].
    destruct (oi_Datagram o && oi_EndOfGroup o); [|done]. injection H as <- <-.
    rewrite u64_small by zlia. split; [zlia|by right].
Qed.

(** *** Recording keeps the invariant *)

Lemma pastEnd_record g o ended : group_wf g -> 0 <= oi_Object o -> pastEnd g ended = false ->
  past ended (oi_Object o) (is_normal (oi_Status o)) = false ->
  pastEnd (record_group (add_object g (oi_Object o)) o) ended = false.
Proof.
  intros Hg Ho Hp Hpo. destruct (gw_zero _ Hg) as [Z1 Z2]. rewrite pastEnd_false in Hp |- *. destruct Hp as [P1 P2].
  unfold record_group, add_object; simpl. destruct (is_normal (oi_Status o)); simpl; split; intros Hh.
  - destruct (hasNormal g) eqn:E; [by apply past_max; [apply P1|]|]. rewrite Z1, Z.max_r by done. done.
  - by apply P2.
  - by apply P1.
  - destruct (hasStatus g) eqn:E; [by apply past_max; [apply P2|]|]. rewrite Z2, Z.max_r by done. done.
Qed.

Lemma record_subgroup_wf g o : group_wf g -> is_u64 (oi_Object o) -> check_subgroup g o = Ok tt ->
  oi_Datagram o = false -> map_Forall (fun _ => sg_wf) (record_subgroup g o).
Proof.
  intros Hg Hu Hc Hd. assert (Ho : 0 <= oi_Object o) by zlia. unfold record_subgroup. apply map_Forall_insert_2; [|apply (gw_subgroups _ Hg)].
  unfold check_subgroup in Hc. rewrite Hd in Hc.
  set (sg := match subgroups g !! oi_Subgroup o with Some sg => sg | None => _ end).
  assert (Hsg : sg_wf sg /\ past (sg_end sg) (oi_Object o) (is_normal (oi_Status o)) = false).
  { unfold sg. destruct (subgroups g !! oi_Subgroup o) as [s|] eqn:E; [|by split; [split|]].
    split; [by apply (gw_subgroups _ Hg _ _ E)|]. destruct (negb _); [done|]. by destruct (past _ _ _). }
  clearbody sg. destruct Hsg as [[H1 H2 [Z1 Z2] H4] Hp]. rewrite sg_past_false in H2. destruct H2 as [P1 P2].
  split; simpl; [done| |by destruct (is_normal _); split; simpl; auto|by destruct (_ || _)].
  apply sg_past_false; simpl. destruct (is_normal (oi_Status o)); simpl; split; intros Hh.
  - destruct (sg_hasNormal sg) eqn:E; [by apply past_max; [apply P1|]|]. rewrite Z1, Z.max_r by done. done.
  - by apply P2.
  - by apply P1.
  - destruct (sg_hasStatus sg) eqn:E; [by apply past_max; [apply P2|]|]. rewrite Z2, Z.max_r by done. done.
Qed.

(** What [checkEndsLocked] makes sure of, for an Object's Group. *)
Definition group_admits (g : deliveredGroup) (o : ObjectInfo) : Prop :=
  past (g_end g) (oi_Object o) (is_normal (oi_Status o)) = false /\
  (forall at' hard, groupEnd o = Some (at', hard) -> pastEnd g (with_end (g_end g) at' hard) = false) /\
  check_subgroup g o = Ok tt.

Lemma record_group_wf g o : group_wf g -> info_wf o -> group_admits g o ->
  group_wf (record_group (add_object g (oi_Object o)) o).
Proof.
  intros Hg (Hw & _ & _) (H1 & H2 & H3). assert (Ho : 0 <= oi_Object o) by (destruct Hw as [_ Hw]; simpl in Hw; zlia).
  pose proof Hg as [G1 G2 [G3 G3'] G4 G5 G6]. split.
  - unfold record_group; simpl. destruct (groupEnd o) as [[at' hard]|] eqn:E; [|done].
    apply groupEnd_spec in E as [E _]; [|done]. by apply with_end_wf.
  - unfold record_group at 2; simpl. destruct (groupEnd o) as [[at' hard]|] eqn:E; [|by apply pastEnd_record].
    apply pastEnd_record; [done|done|by apply H2|]. apply groupEnd_spec in E as [_ E]; [|done]. by apply with_end_self.
  - unfold record_group; simpl. destruct (is_normal _); split; simpl; try done; auto.
  - unfold record_group; simpl. intros x Hx. apply elem_of_union in Hx as [Hx|Hx].
    + apply elem_of_singleton in Hx as ->. destruct (is_normal _); [left|right]; (split; [done|lia]).
    + destruct (G4 x Hx) as [[Hh Hm]|[Hh Hm]]; rewrite Hh, ?orb_true_r; [left|right];
        (split; [done|]); destruct (is_normal _); lia.
  - unfold record_group; simpl. destruct (oi_Datagram o) eqn:Ed; [done|].
    change (record_subgroup (add_object g (oi_Object o)) o) with (record_subgroup g o). apply record_subgroup_wf; try done. apply Hw.
  - done.
Qed.

Lemma gapRange_wf id n r : 0 <= n <= id -> is_u64 id -> gapRange id n = Some r -> gap_wf r.
Proof.
  unfold gapRange. rewrite Z.gtb_ltb. intros Hn Hi. destruct (Z.ltb_spec 0 n); [|done]. intros [= <-].
  unfold gap_wf; simpl. rewrite !u64_small by zlia. zlia.
Qed.

Lemma recordGaps_wf g ranges o : group_wf g -> Forall gap_wf ranges -> info_wf o ->
  let '(g', ranges') := recordGapsLocked g ranges (oi_Group o) (oi_Object o) (oi_Gaps o) in
  group_wf g' /\ Forall gap_wf ranges' /\ objects g' = objects g /\
  (forall ended, pastEnd g' ended = pastEnd g ended) /\ (group_admits g o -> group_admits g' o).
Proof.
  intros Hg Hr ([W1 W2] & Gg & Go). simpl in W1, W2. unfold recordGapsLocked.
  set (g1 := record_object_gap g (oi_Object o) (oi_Gaps o)).
  assert (H1 : group_wf g1 /\ objects g1 = objects g /\ (forall ended, pastEnd g1 ended = pastEnd g ended) /\
    g_end g1 = g_end g /\ subgroups g1 = subgroups g).
  { unfold g1, record_object_gap. destruct (gapRange _ _) as [r|] eqn:E; [|done].
    destruct (HasObject (oi_Gaps o)); simpl; [|done]. apply gapRange_wf in E; [|auto..].
    destruct (negb _); [|done]. split; [|done]. destruct Hg. split; simpl; try done. apply Forall_app. auto. }
  clearbody g1. destruct H1 as (Hg1 & Eo & Ep & Ee & Es). unfold record_group_gap.
  assert (Hadm : forall g', objects g' = objects g1 -> (forall ended, pastEnd g' ended = pastEnd g1 ended) ->
    g_end g' = g_end g1 -> subgroups g' = subgroups g1 -> group_admits g o -> group_admits g' o).
  { intros g' _ Hp He Hs (A1 & A2 & A3). unfold group_admits, check_subgroup in *. rewrite He, Ee, Hs, Es.
    split_and!; [done| |done]. intros at' hard E. rewrite Hp, Ep. by apply A2. }
  destruct (HasGroup (oi_Gaps o)) eqn:E; simpl; [|split_and!; [done..|by apply Hadm]].
  destruct (hasGroupGap g1); simpl; [split_and!; [done..|by apply Hadm]|].
  split_and!; [destruct Hg1; by split| |done|done|by apply Hadm].
  destruct (gapRange _ _) as [r|] eqn:Er; [|done]. apply gapRange_wf in Er; [|auto..]. apply Forall_app. auto.
Qed.

(** *** What the checks establish *)

(** No recorded Object lies past a Track end at [loc]. *)
Definition track_admits (d : gmap Z deliveredGroup) (loc : Location) : Prop :=
  forall id g, d !! id = Some g -> id <= Group loc /\ (id = Group loc -> pastEnd g (soft_end (Object loc)) = false).

Lemma purge_fold now loc l : forall acc, (fold_left (purge_track_step now loc) l acc).1 = false ->
  acc.1 = false /\ Forall (fun kg : Z * deliveredGroup => kg.1 <= Group loc /\
    (kg.1 = Group loc -> pastEnd kg.2 (soft_end (Object loc)) = false)) l.
Proof.
  induction l as [|[id g] l IH]; intros acc H; simpl in H; [done|].
  apply IH in H as [H Hl]. unfold purge_track_step in H. rewrite Z.gtb_ltb in H.
  destruct (Z.ltb_spec (Group loc) id); [done|]. destruct (Z.eqb_spec id (Group loc)); simpl in H.
  - destruct (pastEnd g _) eqn:Ep; simpl in H; [done|]. split; [done|]. constructor; [|done]. simpl. auto.
  - split; [done|]. constructor; [|done]. simpl. lia.
Qed.

Lemma purge_track_ok now e loc : (purgeTrackPastLocked now e loc).1 = false -> track_admits (delivered e) loc.
Proof.
  intros H. apply purge_fold in H as [_ H]. rewrite Forall_forall in H. intros id g E.
  apply (H (id, g)). by apply elem_of_map_to_list.
Qed.

Lemma check_track_ok now e o c : check_track now e o = (Ok tt, c) ->
  (hasTrackEnd e = true -> loc_le (oi_loc o) (trackEnd e)) /\
  (oi_Status o = ObjectStatusEndOfTrack -> track_admits (delivered e) (oi_loc o)).
Proof.
  unfold check_track. destruct (hasTrackEnd e && Less (trackEnd e) (oi_loc o)) eqn:E1; [done|]. intros H. split.
  - intros Ht. rewrite Ht in E1. simpl in E1. by apply Less_false.
  - intros Es. rewrite Es in H. simpl in H. destruct (purgeTrackPastLocked now e (oi_loc o)) as [found c'] eqn:Ep.
    destruct (hasTrackEnd e && negb _); [done|]. destruct found; [done|]. eapply (purge_track_ok now e). by rewrite Ep.
Qed.

Lemma check_group_ok now c g o c' : check_group now c g o = (Ok tt, c') ->
  past (g_end g) (oi_Object o) (is_normal (oi_Status o)) = false /\
  (forall at' hard, groupEnd o = Some (at', hard) -> pastEnd g (with_end (g_end g) at' hard) = false).
Proof.
  unfold check_group. destruct (past _ _ _); [done|]. intros H. split; [done|]. intros at' hard E.
  rewrite E in H. destruct (conflicts _ _ _); [done|]. by destruct (pastEnd g _).
Qed.

Lemma check_malformed now e g o err c : checkEndsLocked now e g o = (Err err, c) ->
  errors_Is err ErrMalformedTrack = true.
Proof.
  unfold checkEndsLocked, check_track, check_group, check_subgroup, malformed.
  intros H. repeat case_match; simplify_eq; reflexivity.
Qed.

Lemma check_ends_ok now e g o c : checkEndsLocked now e g o = (Ok tt, c) ->
  (hasTrackEnd e = true -> loc_le (oi_loc o) (trackEnd e)) /\
  (oi_Status o = ObjectStatusEndOfTrack -> track_admits (delivered e) (oi_loc o)) /\
  (forall g', g = Some g' -> group_admits g' o).
Proof.
  unfold checkEndsLocked. destruct (check_track now e o) as [[[]|] c1] eqn:Et; [|done].
  apply check_track_ok in Et as [T1 T2]. destruct g as [g|]; [|by intros; split_and!].
  destruct (check_group now c1 g o) as [[[]|] c2] eqn:Eg; [|done]. apply check_group_ok in Eg as [G1 G2].
  intros [= Hs _]. split_and!; [done|done|]. intros g' [= <-]. done.
Qed.

(** *** The window *)

Lemma fold_min_spec l : forall m, let r := fold_left Z.min l m in
  r <= m /\ (forall x, x ∈ l -> r <= x) /\ (r = m \/ r ∈ l).
Proof.
  induction l as [|y l IH]; intros m; simpl; [split_and!; [lia|by intros x ?%elem_of_nil|by left]|].
  destruct (IH (Z.min m y)) as (H1 & H2 & H3). split_and!; [lia| |].
  - intros x [-> | Hx]%elem_of_cons; [lia|auto].
  - destruct H3 as [H3|H3]; [|right; by right]. rewrite H3. destruct (Z.min_spec m y) as [[_ ->]|[_ ->]]; [by left|].
    right. left.
Qed.

Definition floor_ok (d : gmap Z deliveredGroup) (floor : Z) : Prop :=
  d <> ∅ -> is_Some (d !! floor) /\ forall id, is_Some (d !! id) -> floor <= id.

Lemma floor_of_keys (d : gmap Z deliveredGroup) : map_Forall (fun id _ => is_u64 id) d ->
  floor_ok d (fold_left Z.min (map_to_list d).*1 MaxUint64).
Proof.
  intros Hids Hne. destruct (fold_min_spec (map_to_list d).*1 MaxUint64) as (H1 & H2 & H3).
  set (r := fold_left _ _ _) in *. assert (Hkeys : forall id, id ∈ (map_to_list d).*1 <-> is_Some (d !! id)).
  { intros id. rewrite list_elem_of_fmap. split.
    - intros ([k g] & -> & Hin). apply elem_of_map_to_list in Hin. eauto.
    - intros [g Hg]. exists (id, g). split; [done|]. by apply elem_of_map_to_list. }
  split; [|intros id Hid; apply H2, Hkeys; done]. destruct H3 as [H3|H3]; [|by apply Hkeys].
  destruct (map_choose d Hne) as (id & g & Hg). assert (r <= id) by (apply H2, Hkeys; eauto).
  specialize (Hids id g Hg). assert (id = r) as <- by (clear -H H3 Hids; zlia). eauto.
Qed.

(** Pruning drops the lowest Group only, and only when the window is full. *)
Lemma prune_window_ok e : ledger_wf e ->
  ledger_wf (prune_window e) /\ Z.of_nat (base.size (delivered (prune_window e))) < deliveredGroupWindow /\
  (prune_window e = e \/
   (Z.of_nat (base.size (delivered e)) = deliveredGroupWindow /\
    delivered (prune_window e) = delete (deliveredFloor e) (delivered e))).
Proof.
  intros He. pose proof He as [H1 H2 H3 H4 H5 H6]. unfold prune_window. rewrite Z.geb_leb.
  destruct (Z.leb_spec deliveredGroupWindow (Z.of_nat (base.size (delivered e)))) as [Hf|Hf]; [|by auto].
  assert (Hne : delivered e <> ∅) by (intros E; rewrite E, map_size_empty in Hf; unfold deliveredGroupWindow in Hf; lia).
  destruct (H5 Hne) as [[g Hg] Hmin]. pose proof (map_size_delete_Some (deliveredFloor e) (delivered e) (mk_is_Some _ _ Hg)) as Hsz.
  assert (Hd : map_Forall (fun id _ => is_u64 id) (delete (deliveredFloor e) (delivered e))) by (by apply map_Forall_delete).
  split_and!; [|simpl; rewrite Hsz; unfold deliveredGroupWindow in *; lia|right; split; [lia|done]].
  split; simpl.
  - done.
  - by apply map_Forall_delete.
  - apply Forall_forall. intros r Hr. apply list_elem_of_In, List.filter_In in Hr as [Hr _].
    rewrite Forall_forall in H3. by apply H3, list_elem_of_In.
  - intros Ht. destruct (H4 Ht) as [Hw Ha]. split; [done|]. intros id g' Hg'. apply lookup_delete_Some in Hg' as [_ Hg']. auto.
  - by apply floor_of_keys.
  - rewrite Hsz. unfold deliveredGroupWindow in *. lia.
Qed.

(** *** History

    [fresh]: the Locations forwarded so far.  A Location is recorded in its
    Group, or its Group lies below the full window. *)
Record hist_ok (e : TrackLedger) (fresh : list Location) : Prop := {
  ho_in : forall id g x, delivered e !! id = Some g -> x ∈ objects g -> MkLoc id x ∈ fresh;
  ho_out : forall l, l ∈ fresh ->
    (exists g, delivered e !! Group l = Some g /\ Object l ∈ objects g) \/
    (Z.of_nat (base.size (delivered e)) = deliveredGroupWindow /\ delivered e !! Group l = None /\
     Group l < deliveredFloor e)
}.

Lemma hist_cache e c fresh : hist_ok e fresh -> hist_ok (set_cache e c) fresh.
Proof. intros []. by split. Qed.

Section AddGroup.
Context (e : TrackLedger) (group : Z) (He : ledger_wf e) (Hnew : delivered e !! group = None)
  (Hage : aged_out e group = false) (Hu : is_u64 group).

Lemma new_above_floor : Z.of_nat (base.size (delivered e)) = deliveredGroupWindow -> deliveredFloor e < group.
Proof.
  intros Hsz. unfold aged_out in Hage. rewrite bool_decide_true in Hage by done.
  rewrite Z.geb_leb, Hsz, Z.leb_refl in Hage. simpl in Hage. apply Z.ltb_ge in Hage.
  destruct (lw_floor _ He) as [[g Hg] _].
  { intros E. rewrite E, map_size_empty in Hsz. discriminate Hsz. }
  destruct (decide (group = deliveredFloor e)) as [->|]; [congruence|lia].
Qed.

Lemma add_group_floor : let e' := addDeliveredGroupLocked e group group0 in
  (forall id, is_Some (delivered (prune_window e) !! id) -> deliveredFloor e' <= id) /\
  deliveredFloor e' <= group /\
  (deliveredFloor e' = group \/ (is_Some (delivered (prune_window e) !! deliveredFloor e'))).
Proof.
  unfold addDeliveredGroupLocked; simpl. destruct (prune_window_ok e He) as (Hp & _ & _).
  pose proof (lw_floor _ Hp) as Hf. case_bool_decide as E; simpl.
  - split_and!; [|lia|by left]. intros id [g Hg]. rewrite E, lookup_empty in Hg. done.
  - destruct (Hf E) as [Hs Hm]. destruct (Z.ltb_spec group (deliveredFloor (prune_window e))).
    + split_and!; [|lia|by left]. intros id Hid. specialize (Hm id Hid). lia.
    + split_and!; [done|done|by right].
Qed.

Lemma add_group_wf : (hasTrackEnd e = true -> group <= Group (trackEnd e)) ->
  ledger_wf (addDeliveredGroupLocked e group group0) /\
  delivered (addDeliveredGroupLocked e group group0) !! group = Some group0.
Proof.
  intros Ht. split; [|apply lookup_insert_eq]. destruct (prune_window_ok e He) as (Hp & Hsz & Hor).
  destruct add_group_floor as (F1 & F2 & F3). pose proof Hp as [P1 P2 P3 P4 P5 P6].
  assert (Htr : hasTrackEnd (prune_window e) = hasTrackEnd e /\ trackEnd (prune_window e) = trackEnd e).
  { unfold prune_window. by destruct (_ >=? _). }
  destruct Htr as [T1 T2]. split.
  - by apply map_Forall_insert_2.
  - apply map_Forall_insert_2; [apply group0_wf|done].
  - done.
  - intros Hh. change (hasTrackEnd (prune_window e) = true) in Hh. destruct (P4 Hh) as [Hw Ha].
    split; [done|]. intros id g Hg. simpl in Hg. apply lookup_insert_Some in Hg as [[<- <-]|[_ Hg]]; [|by apply Ha].
    simpl. rewrite T2. rewrite T1 in Hh. split; [by apply Ht|done].
  - intros _. split.
    + destruct F3 as [F3|[g F3]]; [rewrite F3; eexists; apply lookup_insert_eq|].
      destruct (decide (deliveredFloor (addDeliveredGroupLocked e group group0) = group)) as [->|Hne];
        [eexists; apply lookup_insert_eq|]. exists g. simpl. rewrite lookup_insert_ne; done.
    + intros id [g Hg]. simpl in Hg. apply lookup_insert_Some in Hg as [[<- _]|[_ Hg]]; [done|]. apply F1. eauto.
  - cbn [delivered addDeliveredGroupLocked]. rewrite map_size_insert.
    destruct (delivered (prune_window e) !! group); unfold id; lia.
Qed.

Lemma add_group_hist fresh : hist_ok e fresh -> hist_ok (addDeliveredGroupLocked e group group0) fresh.
Proof.
  intros [Hin Hout]. destruct (prune_window_ok e He) as (Hp & Hsz & Hor). destruct add_group_floor as (F1 & F2 & F3).
  assert (Hlk : forall id g, delivered (prune_window e) !! id = Some g -> delivered e !! id = Some g).
  { intros id g H. destruct Hor as [E|[_ E]]; rewrite E in H; [done|]. by apply lookup_delete_Some in H as [_ H]. }
  split.
  - intros id g x Hg Hx. simpl in Hg. apply lookup_insert_Some in Hg as [[<- <-]|[_ Hg]]; [set_solver|]. eauto.
  - intros l Hl. destruct Hor as [E|[Hfull E]].
    + rewrite E in Hsz. destruct (Hout l Hl) as [(g & Hg & Ho)|(Hs & _ & _)]; [|lia].
      left. exists g. split; [|done]. simpl. rewrite lookup_insert_ne, E by congruence. done.
    + pose proof (new_above_floor Hfull) as Hab. pose proof (lw_floor _ He) as Hfl.
      assert (Hne : delivered e <> ∅) by (intros E0; rewrite E0, map_size_empty in Hfull; discriminate Hfull).
      destruct (Hfl Hne) as [[g0 Hg0] Hmin].
      assert (Hsz' : Z.of_nat (base.size (delivered (addDeliveredGroupLocked e group group0))) = deliveredGroupWindow).
      { simpl. rewrite E, map_size_insert_None by (rewrite lookup_delete_ne by lia; done).
        rewrite map_size_delete_Some by eauto. unfold deliveredGroupWindow in *. lia. }
      assert (Hnf : deliveredFloor e < deliveredFloor (addDeliveredGroupLocked e group group0)).
      { destruct F3 as [->|[g F3]]; [done|]. rewrite E in F3. apply lookup_delete_Some in F3 as [Hn F3].
        assert (deliveredFloor e <= deliveredFloor (addDeliveredGroupLocked e group group0)) by (apply Hmin; eauto). lia. }
      destruct (Hout l Hl) as [(g & Hg & Ho)|(_ & Hn & Hlt)].
      * destruct (decide (Group l = deliveredFloor e)) as [El|Hd].
        -- right. split_and!; [done| |lia]. simpl. rewrite lookup_insert_ne by lia. rewrite E, El. apply lookup_delete_eq.
        -- left. exists g. split; [|done]. simpl. rewrite lookup_insert_ne by congruence. rewrite E, lookup_delete_ne by done. done.
      * right. split_and!; [done| |lia]. simpl. rewrite lookup_insert_ne by lia. rewrite E, lookup_delete_ne by lia. done.
Qed.
End AddGroup.

(** Storing a changed Group. *)
Lemma update_group_wf e group g ranges tEnd hEnd c : ledger_wf e -> is_Some (delivered e !! group) -> group_wf g ->
  Forall gap_wf ranges -> (hEnd = true -> wf_loc tEnd /\ track_admits (<[group := g]> (delivered e)) tEnd) ->
  ledger_wf (MkLedger (<[group := g]> (delivered e)) ranges tEnd hEnd (deliveredFloor e) c).
Proof.
  intros [H1 H2 H3 H4 H5 H6] [g0 Hg0] Hg Hr Ht. split; simpl.
  - apply map_Forall_insert_2; [by apply (H1 group g0)|done].
  - by apply map_Forall_insert_2.
  - done.
  - done.
  - intros _. destruct H5 as [[gf Hf] Hm].
    { intros E. rewrite E, lookup_empty in Hg0. done. }
    split; [rewrite lookup_insert_is_Some; destruct (decide (group = deliveredFloor e)); eauto|].
    intros id Hid. apply Hm. apply lookup_insert_is_Some in Hid as [->|[_ Hid]]; eauto.
  - rewrite map_size_insert_Some by eauto. done.
Qed.

Lemma update_group_hist e group g ranges tEnd hEnd c fresh g0 : hist_ok e fresh -> delivered e !! group = Some g0 ->
  objects g = objects g0 ->
  hist_ok (MkLedger (<[group := g]> (delivered e)) ranges tEnd hEnd (deliveredFloor e) c) fresh.
Proof.
  intros [Hin Hout] Hg0 Eo. split; simpl.
  - intros id g' x Hg' Hx. apply lookup_insert_Some in Hg' as [[<- <-]|[_ Hg']]; [rewrite Eo in Hx|]; eauto.
  - intros l Hl. rewrite map_size_insert_Some by eauto. destruct (Hout l Hl) as [(g' & Hg' & Ho)|(Hs & Hn & Hlt)].
    + left. destruct (decide (Group l = group)) as [El|Hne].
      * exists g. rewrite El, lookup_insert_eq. split; [done|]. rewrite Eo. rewrite El in Hg'. congruence.
      * exists g'. rewrite lookup_insert_ne by done. done.
    + right. split_and!; [done| |done]. rewrite lookup_insert_ne by congruence. done.
Qed.

(** *** Each operation keeps the invariant *)

Lemma admit_update d group g tEnd : track_admits d tEnd -> group <= Group tEnd ->
  (group = Group tEnd -> pastEnd g (soft_end (Object tEnd)) = false) -> track_admits (<[group := g]> d) tEnd.
Proof. intros Hd Hle Hg id g' H. apply lookup_insert_Some in H as [[<- <-]|[_ H]]; [done|]. by apply Hd. Qed.

Lemma past_soft at' id normal : past (soft_end at') id normal = false <-> id <= at'.
Proof. rewrite past_false. simpl. split; [intros H; by destruct (H eq_refl)|]. auto. Qed.

(** What lets an Object be recorded: its Track and its Group admit it. *)
Definition admits (e : TrackLedger) (o : ObjectInfo) : Prop :=
  (hasTrackEnd e = true -> loc_le (oi_loc o) (trackEnd e)) /\
  (oi_Status o = ObjectStatusEndOfTrack -> track_admits (delivered e) (oi_loc o)).

Lemma record_wf e g o : ledger_wf e -> delivered e !! oi_Group o = Some g -> info_wf o -> admits e o ->
  group_admits g o -> ledger_wf (recordEndsLocked e (add_object g (oi_Object o)) o).
Proof.
  intros He Hg Ho [A1 A2] Ha. pose proof (lw_groups _ He _ _ Hg) as Hgw. simpl in Hgw.
  pose proof Ho as (Hw & _ & _). assert (H0 : 0 <= oi_Object o) by (destruct Hw as [_ Hw']; simpl in Hw'; zlia).
  apply update_group_wf; [done|eauto|by apply record_group_wf|apply (lw_gaps _ He)|].
  destruct (Z.eqb_spec (oi_Status o) ObjectStatusEndOfTrack) as [Es|Es]; simpl.
  - intros _. split; [done|]. specialize (A2 Es). apply admit_update; [done|simpl; lia|]. intros _.
    apply pastEnd_record; [done|done|by apply (A2 _ _ Hg)|]. apply past_soft. simpl. lia.
  - intros Ht. destruct (lw_track _ He Ht) as [Hwt Hadm]. split; [done|]. specialize (A1 Ht).
    apply admit_update; [done|clear -A1; unfold loc_le in A1; simpl in *; lia|]. intros Eg.
    apply pastEnd_record; [done|done|by apply (Hadm _ _ Hg)|]. apply past_soft.
    clear -A1 Eg. unfold loc_le in A1; simpl in *; lia.
Qed.

Lemma record_hist e g o fresh : hist_ok e fresh -> delivered e !! oi_Group o = Some g ->
  hist_ok (recordEndsLocked e (add_object g (oi_Object o)) o) (oi_loc o :: fresh).
Proof.
  intros [Hin Hout] Hg. split; unfold recordEndsLocked; cbn [delivered deliveredFloor].
  - intros id g' x Hg' Hx. apply lookup_insert_Some in Hg' as [[<- <-]|[_ Hg']].
    + unfold record_group in Hx; simpl in Hx. apply elem_of_union in Hx as [Hx|Hx].
      * apply elem_of_singleton in Hx as ->. left.
      * right. eauto.
    + right. eauto.
  - intros l Hl. rewrite map_size_insert_Some by eauto. apply elem_of_cons in Hl as [->|Hl].
    { left. eexists. simpl. rewrite lookup_insert_eq. split; [done|]. simpl. set_solver. }
    destruct (Hout l Hl) as [(g' & Hg' & Ho)|(Hs & Hn & Hlt)].
    + left. destruct (decide (Group l = oi_Group o)) as [El|Hne].
      * eexists. rewrite El, lookup_insert_eq. split; [done|]. simpl. rewrite El in Hg'. set_solver.
      * exists g'. rewrite lookup_insert_ne by done. done.
    + right. split_and!; [done| |done]. rewrite lookup_insert_ne by congruence. done.
Qed.

(** The Group an Object is claimed in, found or added. *)
Lemma claim_group e o fresh : ledger_wf e -> hist_ok e fresh -> info_wf o -> admits e o ->
  aged_out e (oi_Group o) = false ->
  (forall g, delivered e !! oi_Group o = Some g -> group_admits g o) ->
  let '(g, e1) := match delivered e !! oi_Group o with
                  | Some g => (g, e)
                  | None => (group0, addDeliveredGroupLocked e (oi_Group o) group0)
                  end in
  ledger_wf e1 /\ hist_ok e1 fresh /\ admits e1 o /\ delivered e1 !! oi_Group o = Some g /\ group_admits g o /\
  (delivered e !! oi_Group o = Some g \/ objects g = ∅).
Proof.
  intros He Hh (Hw & _ & _) [A1 A2] Hage Hg. destruct (delivered e !! oi_Group o) as [g|] eqn:E.
  - split; [done|]. split; [done|]. split; [by split|]. split; [done|]. split; [by apply Hg|by left].
  - destruct Hw as [Hw1 Hw2]; simpl in Hw1, Hw2.
    assert (Ht : hasTrackEnd e = true -> oi_Group o <= Group (trackEnd e)).
    { intros Ht. specialize (A1 Ht). clear -A1. unfold loc_le in A1; simpl in *; lia. }
    destruct (add_group_wf e (oi_Group o) He Hw1 Ht) as [W L].
    assert (Htr : hasTrackEnd (prune_window e) = hasTrackEnd e /\ trackEnd (prune_window e) = trackEnd e).
    { unfold prune_window. by destruct (_ >=? _). }
    split; [done|]. split; [by apply add_group_hist|]. split; [|split; [done|split; [|by right]]].
    + split; [simpl; destruct Htr as [-> ->]; done|]. intros Es. specialize (A2 Es). simpl.
      apply admit_update; [|simpl; lia|done]. intros id g' Hg'. apply A2.
      destruct (prune_window_ok e He) as (_ & _ & [E1|[_ E1]]); rewrite E1 in Hg'; [done|].
      by apply lookup_delete_Some in Hg' as [_ Hg'].
    + split; [done|]. split; [done|]. unfold check_subgroup; simpl. by destruct (oi_Datagram o).
Qed.

Lemma claim_object_ok e o fresh : ledger_wf e -> hist_ok e fresh -> info_wf o -> admits e o ->
  aged_out e (oi_Group o) = false ->
  (forall g, delivered e !! oi_Group o = Some g -> group_admits g o) ->
  let '(claim, e') := claim_object e o in
  ledger_wf e' /\
  (claim = ClaimRedundant /\ oi_loc o ∈ fresh /\ hist_ok e' fresh \/
   claim = ClaimFresh /\ (oi_loc o ∉ fresh) /\ hist_ok e' (oi_loc o :: fresh)).
Proof.
  intros He Hh Ho Ha Hage Hadm. unfold claim_object.
  pose proof (claim_group e o fresh He Hh Ho Ha Hage Hadm) as Hc.
  destruct (match delivered e !! oi_Group o with Some g => (g, e) | None => _ end) as [g e1].
  destruct Hc as (He1 & Hh1 & [A1 A2] & Hg & Hga & Hfresh). clear Hadm Ha.
  pose proof (recordGaps_wf g (groupGapRanges e1) o (lw_groups _ He1 _ _ Hg) (lw_gaps _ He1) Ho) as Hr.
  destruct (recordGapsLocked _ _ _ _ _) as [g1 ranges]. destruct Hr as (Hg1 & Hr & Eo & Ep & Hadm1).
  set (e2 := MkLedger (<[oi_Group o := g1]> (delivered e1)) ranges (trackEnd e1) (hasTrackEnd e1)
               (deliveredFloor e1) (t_Cache e1)).
  assert (He2 : ledger_wf e2).
  { apply update_group_wf; [done|eauto|done|done|]. intros Ht. destruct (lw_track _ He1 Ht) as [Hw Hall].
    split; [done|]. destruct (Hall _ _ Hg) as [H1 H2]. apply admit_update; [done|done|]. intros E. rewrite Ep. auto. }
  assert (Hh2 : hist_ok e2 fresh) by (by eapply update_group_hist).
  assert (Hl2 : delivered e2 !! oi_Group o = Some g1) by apply lookup_insert_eq.
  cbv zeta. fold e2. case_bool_decide as Eobj.
  - split; [done|]. left. split; [done|]. split; [|done]. apply (ho_in _ _ Hh2 _ _ _ Hl2 Eobj).
  - split.
    + apply record_wf; [done|done|done| |by apply Hadm1]. split; [done|]. intros Es. specialize (A2 Es).
      apply admit_update; [done|simpl; lia|]. intros _. rewrite Ep. by apply (A2 _ _ Hg).
    + right. split; [done|]. split; [|by apply record_hist].
      intros Hin. destruct (ho_out _ _ Hh2 _ Hin) as [(g' & Hg' & Ho')|(_ & Hn & _)]; simpl in *; congruence.
Qed.

(** A Location inside an announced gap is known absent. *)
Lemma announced_covers e l : wf_loc l ->
  announcedAbsentLocked e (delivered e !! Group l) (Group l) (Object l) = true -> covers (KnownAbsent e) l.
Proof.
  intros [Hw1 Hw2] H. unfold announcedAbsentLocked in H. unfold KnownAbsent. apply covers_app.
  apply orb_true_iff in H as [H|H].
  - right. apply existsb_exists in H as (r & Hr & Hc). unfold covers. rewrite Exists_fmap, Exists_exists.
    exists r. split; [by apply list_elem_of_In|]. unfold contains in Hc. apply andb_true_iff in Hc as [H1 H2].
    apply Z.leb_le in H1, H2. unfold compose. clear -Hw1 Hw2 H1 H2. loc_lia.
  - left. destruct (delivered e !! Group l) as [g|] eqn:E; [|done]. apply existsb_exists in H as (r & Hr & Hc).
    apply covers_concat. rewrite Exists_fmap, Exists_exists. exists (Group l, g).
    split; [by apply elem_of_map_to_list|]. unfold compose, group_absent; simpl. apply covers_app. right.
    unfold covers. rewrite Exists_fmap, Exists_exists. exists r. split; [by apply list_elem_of_In|].
    unfold contains in Hc. apply andb_true_iff in Hc as [H1 H2]. apply Z.leb_le in H1, H2. unfold compose.
    clear -Hw1 Hw2 H1 H2. loc_lia.
Qed.

Definition claim_post (e : TrackLedger) (fresh : list Location) (o : ObjectInfo) (r : result Claim) (e' : TrackLedger) : Prop :=
  match r with
  | Ok ClaimFresh => (oi_loc o ∉ fresh) /\ hist_ok e' (oi_loc o :: fresh)
  | Ok ClaimRedundant => (oi_loc o ∈ fresh \/ covers (KnownAbsent e) (oi_loc o)) /\ hist_ok e' fresh
  | Ok ClaimAgedOut => e' = e /\ Z.of_nat (base.size (delivered e)) = deliveredGroupWindow /\
      forall id, is_Some (delivered e !! id) -> oi_Group o < id
  | Err err => errors_Is err ErrMalformedTrack = true /\ exists c, e' = set_cache e c
  end.

Lemma claim_step now o e fresh : ledger_wf e -> hist_ok e fresh -> info_wf o ->
  let '(r, e') := ClaimDelivered now o e in ledger_wf e' /\ claim_post e fresh o r e'.
Proof.
  intros He Hh Ho. unfold ClaimDelivered. destruct (aged_out e (oi_Group o)) eqn:Hage.
  { split; [done|]. unfold aged_out in Hage. apply andb_true_iff in Hage as [Hage Hlt].
    apply andb_true_iff in Hage as [Hn Hsz]. apply bool_decide_eq_true in Hn. apply Z.ltb_lt in Hlt.
    rewrite Z.geb_leb in Hsz. apply Z.leb_le in Hsz. pose proof (lw_window _ He).
    split_and!; [done|lia|]. intros id Hid. destruct (lw_floor _ He) as [_ Hm].
    { intros E. rewrite E, map_size_empty in Hsz. unfold deliveredGroupWindow in Hsz. lia. }
    specialize (Hm id Hid). lia. }
  destruct (two_group_gaps _ _). { split; [done|]. split; [reflexivity|]. exists (t_Cache e). by destruct e. }
  destruct (checkEndsLocked now e (delivered e !! oi_Group o) o) as [[[]|err] c] eqn:Ec.
  2: { split; [by apply ledger_wf_cache|]. split; [by eapply check_malformed|]. eauto. }
  apply check_ends_ok in Ec as (C1 & C2 & C3). pose proof (ledger_wf_cache e c He) as He'.
  pose proof (hist_cache e c fresh Hh) as Hh'. destruct (announcedAbsentLocked _ _ _ _) eqn:Ea.
  { split; [done|]. split; [|done]. right. apply announced_covers; [apply Ho|]. exact Ea. }
  pose proof (claim_object_ok (set_cache e c) o fresh He' Hh' Ho (conj C1 C2) Hage (fun g Hg => C3 g Hg)) as Hok.
  destruct (claim_object (set_cache e c) o) as [claim e']. destruct Hok as [Hw [(-> & Hin & Hh2)|(-> & Hin & Hh2)]].
  - split; [done|]. split; [by left|done].
  - done.
Qed.

Lemma duplicate_step now o e fresh : ledger_wf e -> hist_ok e fresh -> info_wf o ->
  let '(r, e') := RecordDuplicate now o e in ledger_wf e' /\ hist_ok e' fresh.
Proof.
  intros He Hh Ho. unfold RecordDuplicate. destruct (delivered e !! oi_Group o) as [g|] eqn:Eg; [|done].
  case_bool_decide as Eo; simpl; [|done].
  destruct (checkEndsLocked now e (Some g) o) as [[[]|err] c] eqn:Ec.
  2: { split; [by apply ledger_wf_cache|by apply hist_cache]. }
  apply check_ends_ok in Ec as (C1 & C2 & C3). assert (Eadd : add_object g (oi_Object o) = g).
  { unfold add_object. assert ({[oi_Object o]} ∪ objects g = objects g) as -> by set_solver. by destruct g. }
  pose proof (record_wf (set_cache e c) g o (ledger_wf_cache e c He) Eg Ho (conj C1 C2) (C3 g eq_refl)) as Hw.
  rewrite Eadd in Hw. split; [done|]. unfold recordEndsLocked.
  eapply (update_group_hist (set_cache e c)); [by apply hist_cache|exact Eg|done].
Qed.

Lemma ended_step now o b e fresh : ledger_wf e -> hist_ok e fresh -> info_wf o ->
  let '(r, e') := SubgroupEnded now o b e in ledger_wf e' /\ hist_ok e' fresh.
Proof.
  intros He Hh ([Hw1 Hw2] & _ & _). simpl in Hw1, Hw2. unfold SubgroupEnded.
  destruct (delivered e !! oi_Group o) as [g|] eqn:Eg; [|done].
  destruct (is_normal (oi_Status o) && (oi_Object o =? MaxUint64)) eqn:Em; [done|].
  set (at' := if is_normal (oi_Status o) then u64 (oi_Object o + 1) else oi_Object o).
  assert (Hat : is_u64 at') by (unfold at'; destruct (is_normal _); [apply u64_range|done]). clearbody at'.
  set (hard := is_normal (oi_Status o)). unfold end_subgroup. cbv zeta.
  set (sg := match subgroups g !! oi_Subgroup o with Some sg => sg | None => _ end).
  pose proof (lw_groups _ He _ _ Eg) as Hg. simpl in Hg. pose proof Hg as [G1 G2 G3 G4 G5 G6].
  assert (Hsg : sg_wf sg).
  { unfold sg. destruct (subgroups g !! oi_Subgroup o) as [s|] eqn:E; [by apply (G5 _ _ E)|by split]. }
  clearbody sg. pose proof Hsg as [S1 S2 S3 S4].
  destruct (conflicts (sg_end sg) at' hard); [split; [by apply ledger_wf_cache|by apply hist_cache]|].
  destruct (sg_past sg (with_end (sg_end sg) at' hard)) eqn:Esg; [split; [by apply ledger_wf_cache|by apply hist_cache]|].
  destruct (b && conflicts _ _ _); [split; [by apply ledger_wf_cache|by apply hist_cache]|].
  destruct (b && pastEnd _ _) eqn:Eg2; [split; [by apply ledger_wf_cache|by apply hist_cache]|].
  split; [|by eapply update_group_hist]. apply update_group_wf; [done|eauto| |apply (lw_gaps _ He)|].
  - split; simpl; try done.
    + destruct b; [by apply with_end_wf|done].
    + destruct b; done.
    + apply map_Forall_insert_2; [|done]. split; simpl; [by apply with_end_wf|done|done|done].
  - intros Ht. destruct (lw_track _ He Ht) as [Hw Hall]. split; [done|].
    destruct (Hall _ _ Eg) as [H1 H2]. by apply admit_update.
Qed.

(** *** Runs *)

Inductive ledger_op : Type :=
| OpClaim (now : Z) (o : ObjectInfo)
| OpDuplicate (now : Z) (o : ObjectInfo)
| OpEnded (now : Z) (o : ObjectInfo) (endOfGroup : bool).

Definition op_wf (op : ledger_op) : Prop :=
  match op with OpClaim _ o | OpDuplicate _ o | OpEnded _ o _ => info_wf o end.

(** The ledger, and the Locations claimed fresh, latest first. *)
Definition ledger_step (s : TrackLedger * list Location) (op : ledger_op) : TrackLedger * list Location :=
  let '(e, fresh) := s in
  match op with
  | OpClaim now o =>
      let '(r, e') := ClaimDelivered now o e in
      (e', match r with Ok ClaimFresh => oi_loc o :: fresh | _ => fresh end)
  | OpDuplicate now o => ((RecordDuplicate now o e).2, fresh)
  | OpEnded now o b => ((SubgroupEnded now o b e).2, fresh)
  end.

Definition ledger_run (ops : list ledger_op) (c : ObjectCache) : TrackLedger * list Location :=
  fold_left ledger_step ops (ledger0 c, []).

Definition run_inv (s : TrackLedger * list Location) : Prop :=
  ledger_wf s.1 /\ hist_ok s.1 s.2 /\ NoDup s.2.

Lemma ledger_op_ok s op : run_inv s -> op_wf op -> run_inv (ledger_step s op).
Proof.
  destruct s as [e fresh]. intros (He & Hh & Hn) Hop. simpl in *. destruct op as [now o|now o|now o b]; simpl.
  - pose proof (claim_step now o e fresh He Hh Hop) as H. destruct (ClaimDelivered now o e) as [r e'].
    destruct H as [Hw Hp]. unfold run_inv; simpl.
    destruct r as [[| |]|err]; simpl in Hp.
    + destruct Hp. split_and!; [done|done|by constructor].
    + by destruct Hp.
    + by destruct Hp as [-> _].
    + destruct Hp as [_ [c ->]]. split; [done|]. split; [by apply hist_cache|done].
  - pose proof (duplicate_step now o e fresh He Hh Hop) as H. destruct (RecordDuplicate now o e). by destruct H.
  - pose proof (ended_step now o b e fresh He Hh Hop) as H. destruct (SubgroupEnded now o b e). by destruct H.
Qed.

Lemma ledger_run_ok ops c : Forall op_wf ops -> run_inv (ledger_run ops c).
Proof.
  intros Hops. unfold ledger_run. assert (H : run_inv (ledger0 c, [])).
  { split; [apply ledger0_wf|]. split; [|constructor]. split; simpl.
    - intros id g x H. by rewrite lookup_empty in H.
    - by intros l ?%elem_of_nil. }
  revert H. generalize (ledger0 c, @nil Location). induction Hops as [|op ops Hop _ IH]; intros s Hs; simpl; [done|].
  apply IH. by apply ledger_op_ok.
Qed.

(** ** Theorems *)

Lemma gap_contains r id : contains r id = true <-> lo r <= id <= hi r.
Proof. unfold contains. rewrite andb_true_iff, !Z.leb_le. done. Qed.

(** Why a Location is known absent. *)
Lemma absent_cases e l : covers (KnownAbsent e) l ->
  (exists g, delivered e !! Group l = Some g /\ e_set (g_end g) = true /\ e_at (g_end g) <= Object l) \/
  announcedAbsentLocked e (delivered e !! Group l) (Group l) (Object l) = true.
Proof.
  unfold KnownAbsent, announcedAbsentLocked. rewrite covers_app. intros [H|H].
  - apply covers_concat in H. rewrite Exists_fmap, Exists_exists in H. destruct H as ([id g] & Hin & H).
    apply elem_of_map_to_list in Hin. unfold compose, group_absent in H; simpl in H. apply covers_app in H as [H|H].
    + destruct (e_set (g_end g)) eqn:Es; [|by apply covers_nil in H].
      apply covers_cons in H as [H|H]; [|by apply covers_nil in H]. left.
      assert (id = Group l) as -> by (clear -H; loc_lia). exists g. split_and!; [done|done|clear -H; loc_lia].
    + unfold covers in H. rewrite Exists_fmap, Exists_exists in H. destruct H as (r & Hr & H). unfold compose in H.
      assert (id = Group l) as -> by (clear -H; loc_lia). right. rewrite Hin. apply orb_true_iff. right.
      apply existsb_exists. exists r. split; [by apply list_elem_of_In|]. apply gap_contains. clear -H. loc_lia.
  - right. apply orb_true_iff. left. unfold covers in H. rewrite Exists_fmap, Exists_exists in H.
    destruct H as (r & Hr & H). unfold compose in H. apply existsb_exists. exists r.
    split; [by apply list_elem_of_In|]. apply gap_contains. clear -H. loc_lia.
Qed.

Lemma absent_wf e : ledger_wf e -> Forall wf_range (KnownAbsent e).
Proof.
  intros [H1 H2 H3 _ _ _]. unfold KnownAbsent. apply Forall_app. split.
  - apply Forall_concat, Forall_fmap, Forall_forall. intros [id g] Hin. apply elem_of_map_to_list in Hin.
    specialize (H1 _ _ Hin). specialize (H2 _ _ Hin). simpl in H1, H2. unfold compose, group_absent; simpl.
    apply Forall_app. split.
    + destruct (e_set (g_end g)) eqn:Es; [|constructor]. constructor; [|constructor].
      pose proof (gw_end _ H2 Es) as He. clear -H1 He. loc_lia.
    + apply Forall_fmap. eapply Forall_impl; [apply (gw_gaps _ H2)|]. intros r [Hr1 Hr2]. unfold compose.
      clear -H1 Hr1 Hr2. loc_lia.
  - apply Forall_fmap. eapply Forall_impl; [exact H3|]. intros r [Hr1 Hr2]. unfold compose. clear -Hr1 Hr2. loc_lia.
Qed.

Lemma objects_not_past g ended x : group_wf g -> x ∈ objects g -> pastEnd g ended = false -> e_set ended = true ->
  x <= e_at ended.
Proof.
  intros Hg Hx Hp Hs. apply pastEnd_false in Hp as [P1 P2]. rewrite past_false in P1, P2.
  destruct (gw_objects _ Hg x Hx) as [[Hh Hm]|[Hh Hm]];
    [destruct (P1 Hh Hs) as [? _]|destruct (P2 Hh Hs) as [? _]]; lia.
Qed.

Lemma fresh_admitted now o e : (ClaimDelivered now o e).1 = Ok ClaimFresh ->
  announcedAbsentLocked e (delivered e !! oi_Group o) (oi_Group o) (oi_Object o) = false /\
  forall g, delivered e !! oi_Group o = Some g -> group_admits g o.
Proof.
  unfold ClaimDelivered. destruct (aged_out _ _); [done|]. destruct (two_group_gaps _ _); [done|].
  destruct (checkEndsLocked _ _ _ _) as [[[]|] c] eqn:Ec; [|done]. apply check_ends_ok in Ec as (_ & _ & C).
  destruct (announcedAbsentLocked _ _ _ _); [done|]. auto.
Qed.

Definition sample_info (g o status : Z) : ObjectInfo :=
  MkInfo g o 0 false 128 status false (MkGaps 0 0 false false).

Lemma sample_info_wf g o status : is_u64 g -> is_u64 o -> info_wf (sample_info g o status).
Proof. intros Hg Ho. split; [done|]. by split. Qed.

(** C5: the delivery ledger forwards each Object once.  Through any claims,
    duplicates and stream ends, no Location is claimed fresh twice although the
    ledger keeps at most 32 Groups; a claim answered redundant repeats a
    forwarded Object or lies in an announced gap; only an Object below every
    Group of a full window is aged out; and every error is a malformed track and
    leaves the ledger as it was. *)
Theorem ledger_exactly_once c ops now o : Forall op_wf ops -> info_wf o ->
  let '(e, fresh) := ledger_run ops c in
  NoDup fresh /\ Z.of_nat (base.size (delivered e)) <= deliveredGroupWindow /\
  let '(r, e') := ClaimDelivered now o e in
  match r with
  | Ok ClaimFresh => oi_loc o ∉ fresh
  | Ok ClaimRedundant => oi_loc o ∈ fresh \/ covers (KnownAbsent e) (oi_loc o)
  | Ok ClaimAgedOut => Z.of_nat (base.size (delivered e)) = deliveredGroupWindow /\
      forall id, is_Some (delivered e !! id) -> oi_Group o < id
  | Err err => errors_Is err ErrMalformedTrack = true /\ exists c', e' = set_cache e c'
  end.
Proof.
  intros Hops Ho. pose proof (ledger_run_ok ops c Hops) as (He & Hh & Hn).
  destruct (ledger_run ops c) as [e fresh]. simpl in *. split; [done|]. split; [apply (lw_window _ He)|].
  pose proof (claim_step now o e fresh He Hh Ho) as H. destruct (ClaimDelivered now o e) as [r e'].
  destruct H as [_ H]. destruct r as [[| |]|err]; simpl in H; tauto.
Qed.

Lemma ledger_exactly_once_witness :
  let ops := [OpClaim 0 (sample_info 1 0 0); OpClaim 0 (sample_info 1 1 0)] in
  let o := sample_info 1 0 0 in let s := ledger_run ops (NewObjectCache 4 0) in
  s.2 = [MkLoc 1 1; MkLoc 1 0] /\ (ClaimDelivered 0 o s.1).1 = Ok ClaimRedundant /\
  NoDup s.2 /\ (oi_loc o ∈ s.2 \/ covers (KnownAbsent s.1) (oi_loc o)).
Proof.
  intros ops o s. assert (Ho : info_wf o) by (apply sample_info_wf; by_decide).
  assert (Hops : Forall op_wf ops).
  { apply Forall_cons; split; [apply sample_info_wf; by_decide|].
    apply Forall_cons; split; [apply sample_info_wf; by_decide|constructor]. }
  pose proof (ledger_exactly_once (NewObjectCache 4 0) ops 0 o Hops Ho) as H. fold s in H.
  assert (Hr : (ClaimDelivered 0 o s.1).1 = Ok ClaimRedundant) by (vm_compute; reflexivity).
  split; [vm_compute; reflexivity|]. split; [exact Hr|].
  rewrite (surjective_pairing s) in H. destruct H as (Hn & _ & H). split; [exact Hn|].
  rewrite (surjective_pairing (ClaimDelivered 0 o s.1)), Hr in H. exact H.
Defined.

(** C6: the ends and gaps a ledger records are consistent.  After any ledger_run, the
    ranges it reports absent are well formed; no Object recorded lies past its
    Group's end or the Track's; and an Object at a Location reported absent is
    claimed fresh only at a Group's end set by a status Object, where a late
    Normal Object is allowed, or as that status Object itself. *)
Theorem ledger_ends_sound c ops : Forall op_wf ops ->
  let e := (ledger_run ops c).1 in
  Forall wf_range (KnownAbsent e) /\
  (forall id g x, delivered e !! id = Some g -> x ∈ objects g ->
     (e_set (g_end g) = true -> x <= e_at (g_end g)) /\
     (hasTrackEnd e = true -> loc_le (MkLoc id x) (trackEnd e))) /\
  (forall now o, info_wf o -> covers (KnownAbsent e) (oi_loc o) ->
     (ClaimDelivered now o e).1 = Ok ClaimFresh ->
     exists g, delivered e !! oi_Group o = Some g /\ e_set (g_end g) = true /\ e_at (g_end g) = oi_Object o /\
       (is_normal (oi_Status o) = true -> e_hard (g_end g) = false)).
Proof.
  intros Hops e. pose proof (ledger_run_ok ops c Hops) as (He & _ & _). fold e in He.
  split; [by apply absent_wf|]. split.
  - intros id g x Hg Hx. pose proof (lw_groups _ He _ _ Hg) as Hgw. simpl in Hgw. split.
    + intros Hs. by eapply objects_not_past; [|done|apply (gw_past _ Hgw)|].
    + intros Ht. destruct (lw_track _ He Ht) as [_ Hall]. destruct (Hall _ _ Hg) as [H1 H2].
      destruct (decide (id = Group (trackEnd e))) as [E|E]; [|clear -H1 E; unfold loc_le; simpl; lia].
      pose proof (objects_not_past g _ x Hgw Hx (H2 E) eq_refl) as Hle. simpl in Hle.
      clear -E Hle. unfold loc_le; simpl; lia.
  - intros now o Ho Hc Hf. apply fresh_admitted in Hf as [Ha Hg]. apply absent_cases in Hc as [(g & Eg & Hs & Hle)|Hc];
      [|simpl in Hc; congruence]. simpl in *. exists g. destruct (Hg g Eg) as (Hp & _ & _).
    rewrite past_false in Hp. destruct (Hp Hs) as [Hle' Hhard]. assert (E : e_at (g_end g) = oi_Object o) by lia.
    split_and!; [done|done|done|]. intros Hnorm. by apply Hhard.
Qed.

Lemma ledger_ends_sound_witness :
  let ops := [OpClaim 0 (sample_info 1 0 0); OpEnded 0 (sample_info 1 0 0) true] in
  let e := (ledger_run ops (NewObjectCache 4 0)).1 in
  KnownAbsent e = [MkRange (MkLoc 1 1) (MkLoc 1 MaxUint64)] /\ Forall wf_range (KnownAbsent e) /\
  (ClaimDelivered 0 (sample_info 1 1 0) e).1 <> Ok ClaimFresh.
Proof.
  intros ops e. assert (Hops : Forall op_wf ops).
  { apply Forall_cons; split; [apply sample_info_wf; by_decide|].
    apply Forall_cons; split; [apply sample_info_wf; by_decide|constructor]. }
  destruct (ledger_ends_sound (NewObjectCache 4 0) ops Hops) as (H1 & _ & H3). fold e in H1, H3.
  assert (Ek : KnownAbsent e = [MkRange (MkLoc 1 1) (MkLoc 1 MaxUint64)]) by (vm_compute; reflexivity).
  split; [exact Ek|]. split; [exact H1|]. intros Hf.
  destruct (H3 0 (sample_info 1 1 0)) as (g & Hg & _ & _ & Hh); [apply sample_info_wf; by_decide| |exact Hf|].
  - rewrite Ek. apply covers_cons. left. by_decide.
  - specialize (Hh eq_refl). vm_compute in Hg. injection Hg as <-. discriminate Hh.
Defined.

(** *** What a malformed end removes *)

Lemma delete_all_ok now group objs : forall c, wf_cache c -> let c' := delete_all c group objs in
  wf_cache c' /\ forall g x, Get now c' g x =
    if decide (g = group /\ x ∈ co_ObjectID <$> objs) then None else Get now c g x.
Proof.
  unfold delete_all. induction objs as [|o objs IH]; intros c Hw; simpl.
  - split; [done|]. intros g x. rewrite decide_False; [done|]. by intros [_ ?%elem_of_nil].
  - destruct (IH _ (Delete_wf group (co_ObjectID o) c Hw)) as [Hw' Hget]. split; [done|]. intros g x.
    rewrite Hget, Get_Delete by done.
    destruct (decide (g = group /\ x ∈ co_ObjectID <$> objs)) as [[-> ?]|Hn].
    { rewrite decide_True; [done|]. split; [done|]. by right. }
    destruct (decide (MkLoc g x = MkLoc group (co_ObjectID o))) as [E|E].
    + rewrite decide_True; [done|]. injection E as -> ->. split; [done|]. left.
    + rewrite decide_False; [done|]. intros [-> Hx]. apply elem_of_cons in Hx as [-> | Hx]; auto.
Qed.

Lemma purgePast_ok now c group sg ended : wf_cache c -> let c' := purgePastLocked now c group sg ended in
  wf_cache c' /\ forall g x, is_u64 x -> Get now c' g x =
    match Get now c g x with
    | Some obj => if bool_decide (g = group) && purged_by sg ended obj then None else Some obj
    | None => None
    end.
Proof.
  intros Hw. unfold purgePastLocked. cbv zeta. set (l := GetRange _ _ _ _ _).
  destruct (delete_all_ok now group (List.filter (purged_by sg ended) l) c Hw) as [Hw' Hget].
  split; [done|]. intros g x Hx. rewrite Hget. clear Hget.
  destruct (GetRange_ok c now (MkLoc group (e_at ended)) (MkLoc group MaxUint64) GroupOrderAscending Hw) as [_ Hin].
  fold l in Hin. case_decide as E.
  - destruct E as [-> E]. apply list_elem_of_fmap in E as (o & -> & Ho).
    apply list_elem_of_In, List.filter_In in Ho as [Ho Hp]. apply list_elem_of_In, Hin in Ho as (Hg & H1 & H2).
    assert (co_GroupID o = group) as Eg by (clear -H1 H2; unfold loc_le, co_loc in *; simpl in *; lia).
    rewrite Eg in Hg. rewrite Hg, Hp. by rewrite bool_decide_true.
  - destruct (Get now c g x) as [obj|] eqn:Eg; [|done]. case_bool_decide as Egr; simpl; [subst g|done].
    destruct (purged_by sg ended obj) eqn:Ep; [|done]. exfalso. apply E. split; [done|].
    pose proof (Get_loc _ _ _ _ _ Hw Eg) as El. unfold co_loc in El. injection El as Ea Eb.
    rewrite <- Eb. apply list_elem_of_fmap_2, list_elem_of_In, List.filter_In. split; [|done].
    apply list_elem_of_In, Hin. rewrite Ea, Eb. split; [done|]. unfold purged_by in Ep.
    apply andb_true_iff in Ep as [Ep _]. apply past_spec in Ep as [_ Ep].
    unfold loc_le, co_loc; simpl. rewrite Ea, Eb. clear -Ep Hx Eb. rewrite Eb in Ep. zlia.
Qed.

Lemma with_end_le e at' hard : e_at (with_end e at' hard) <= at'.
Proof.
  unfold with_end. destruct (negb _); simpl; [lia|]. destruct (Z.eqb_spec at' (e_at e)); simpl; [lia|].
  destruct (Z.ltb_spec at' (e_at e)); simpl; lia.
Qed.

Lemma lower_conflict e at' hard : conflicts e at' hard = true ->
  e_set (lower e (MkEnd at' true hard)) = true /\ e_at (lower e (MkEnd at' true hard)) <= at'.
Proof.
  unfold conflicts, lower. destruct (e_set e) eqn:Es; [|done]. intros _. simpl.
  destruct (Z.ltb_spec at' (e_at e)); simpl; split; (done || lia).
Qed.

(** A stream end that contradicts what was received.  When the FIN of a
    subgroup stream makes the track malformed, the ledger is unchanged, and the
    cache loses exactly the Objects of the Group (of that Subgroup, when its own
    end is contradicted) past an end no later than the one the FIN announced;
    every other cached Object is still found.  Otherwise the cache is untouched. *)
Theorem malformed_end_purges now o b e : wf_cache (t_Cache e) ->
  let '(r, e') := SubgroupEnded now o b e in
  match r with
  | Ok _ => t_Cache e' = t_Cache e
  | Err err => errors_Is err ErrMalformedTrack = true /\ e' = set_cache e (t_Cache e') /\
      exists sg ended, (sg = None \/ sg = Some (oi_Subgroup o)) /\ e_set ended = true /\
        e_at ended <= (if is_normal (oi_Status o) then u64 (oi_Object o + 1) else oi_Object o) /\
        forall g x, is_u64 x -> Get now (t_Cache e') g x =
          match Get now (t_Cache e) g x with
          | Some obj => if bool_decide (g = oi_Group o) && purged_by sg ended obj then None else Some obj
          | None => None
          end
  end.
Proof.
  intros Hw. unfold SubgroupEnded. destruct (delivered e !! oi_Group o) as [g|]; [|done].
  destruct (is_normal (oi_Status o) && _); [done|].
  set (at' := if is_normal (oi_Status o) then u64 (oi_Object o + 1) else oi_Object o). clearbody at'.
  unfold end_subgroup. cbv zeta. set (sg := match subgroups g !! oi_Subgroup o with Some sg => sg | None => _ end).
  set (hard := is_normal (oi_Status o)).
  assert (Hp : forall what s ended, (s = None \/ s = Some (oi_Subgroup o)) -> e_set ended = true -> e_at ended <= at' ->
    let e' := set_cache e (purgePastLocked now (t_Cache e) (oi_Group o) s ended) in
    errors_Is (Wrapf what ErrMalformedTrack) ErrMalformedTrack = true /\ e' = set_cache e (t_Cache e') /\
    exists sg ended, (sg = None \/ sg = Some (oi_Subgroup o)) /\ e_set ended = true /\ e_at ended <= at' /\
      forall g x, is_u64 x -> Get now (t_Cache e') g x =
        match Get now (t_Cache e) g x with
        | Some obj => if bool_decide (g = oi_Group o) && purged_by sg ended obj then None else Some obj
        | None => None
        end).
  { intros what s ended Hs He Ha e'. split; [by destruct (decide (Wrapf what ErrMalformedTrack = ErrMalformedTrack))|].
    split; [done|]. exists s, ended. split_and!; [done|done|done|]. intros g' x Hx. by apply purgePast_ok. }
  destruct (conflicts (sg_end sg) at' hard) eqn:E1.
  { apply lower_conflict in E1 as [L1 L2]. apply Hp; auto. }
  destruct (sg_past sg _). { apply Hp; [by right|apply with_end_set|apply with_end_le]. }
  destruct (b && conflicts _ _ _) eqn:E3.
  { apply andb_true_iff in E3 as [_ E3]. apply lower_conflict in E3 as [L1 L2]. apply Hp; auto. }
  destruct (b && pastEnd _ _). { apply Hp; [by left|apply with_end_set|apply with_end_le]. }
  done.
Qed.

Lemma malformed_end_purges_witness :
  let obj o := MkCached 1 o 0 128 ForwardingSubgroup 0 [] [] 0 0 false false false false in
  let c := Put 0 (Some (obj 3)) (Put 0 (Some (obj 0)) (NewObjectCache 4 0)) in
  let e := (ledger_run [OpClaim 0 (sample_info 1 0 0); OpClaim 0 (sample_info 1 3 0)] c).1 in
  let '(r, e') := SubgroupEnded 0 (sample_info 1 1 0) false e in
  (exists err, r = Err err /\ errors_Is err ErrMalformedTrack = true) /\
  Get 0 (t_Cache e') 1 3 = None /\ Get 0 (t_Cache e') 1 0 = Some (obj 0).
Proof.
  intros obj c e. assert (Hw : wf_cache (t_Cache e)).
  { change (t_Cache e) with c. apply insertLocked_wf, insertLocked_wf, NewObjectCache_wf. }
  pose proof (malformed_end_purges 0 (sample_info 1 1 0) false e Hw) as H.
  rewrite (surjective_pairing (SubgroupEnded 0 (sample_info 1 1 0) false e)) in H |- *.
  destruct (SubgroupEnded 0 (sample_info 1 1 0) false e).1 as [[]|err] eqn:Er; [vm_compute in Er; discriminate Er|].
  split; [exists err; split; [reflexivity|apply H]|]. split; vm_compute; reflexivity.
Defined.
