(* ===== verification/Stitch.v ===== *)
(** * Stitch: answering a FETCH from the cache and an upstream

    [stitchedFetchObjects] and [fetchUpstreamRange] of [relay/handler_fetch.go],
    with the checks [session.Fetch] makes on the upstream's FETCH_OK
    ([session/fetch.go], [session/track_properties.go]).  The track entry is a
    ledger with its cache; what the upstream and the in-flight table answer is an
    argument; the response stream is bytes, read by the fetch reader of [Streams]. *)

From stdpp Require Import gmap.
From S2P Require Import Prelude Varint Wire KV Filter Params Properties Messages Objects Streams Cache.
From S2P Require Import FetchRanges FetchServe Ledger.

(** ** The requester's side of FETCH *)

(** The value of [filter] after [_ = filter.Parse(...)]: the fields read before
    an error keep their values. *)
Fixpoint read_fields_partial (n : nat) (r : Reader) : list Z :=
  match n with
  | O => []
  | S n' => match r_Varint r with Ok (v, r) => v :: read_fields_partial n' r | Err _ => [] end
  end.

Definition lf_Parse_partial (raw : bytes) : LocationFilter :=
  match r_Varint (NewReader raw) with
  | Err _ => lf_of 0 []
  | Ok (t, r) => if (fields t).2 then lf_of t (read_fields_partial (fields t).1 r) else lf_of t []
  end.

Definition checkFetchOKEnd (ps : Params) (ok : FetchOK) : result unit :=
  match p_Find ps ParamLocationFilter with
  | None => Ok tt
  | Some p =>
      let f := lf_Parse_partial (p_Bytes p) in
      if NextObject f || (RelativeStart f && (StartGroup f =? 0)) then
        if decide (EndLocation ok = MkLoc 0 0) then Ok tt
        else Err (Errorf "moqt/session: FETCH_OK End Location precedes a FETCH that starts after the Largest Object")
      else if RelativeStart f then Ok tt
      else if Less (EndLocation ok) (lf_Start f (MkLoc 0 0) false)
      then Err (Errorf "moqt/session: FETCH_OK End Location precedes the FETCH Start")
      else Ok tt
  end.

Definition ValidateTrackProperties (raw : bytes) (knownMandatory : gset Z) : result (list KVPair) :=
  pairs ← map_err (Wrapf2 "" ErrMalformedTrackProperties) (ParseTrackProperties raw);
  all ← map_err (Wrapf2 "" ErrMalformedTrackProperties) (ExpandImmutable pairs);
  match FirstUnknownMandatoryTrackProperty all knownMandatory with
  | Some t => Err (ErrUnsupportedMandatoryTrackProperty t)
  | None => Ok pairs
  end.

(** [parseErr] leaves no pairs; properties whose nested block does not parse are
    checked without it. *)
Definition checkTrackPropertyValues (raw : bytes) : result unit :=
  let pairs := match ParseTrackProperties raw with
               | Ok pairs => match ExpandImmutable pairs with Ok all => all | Err _ => pairs end
               | Err _ => []
               end in
  map_err (Wrapf "") (CheckTrackPropertyValues pairs).

Definition validateTrackProperties (raw : bytes) (knownMandatory : gset Z) : result unit :=
  _ ← checkTrackPropertyValues raw;
  _ ← ValidateTrackProperties raw knownMandatory; Ok tt.

(** The callback of [Session.Fetch] on FETCH_OK. *)
Definition session_Fetch (knownMandatory : gset Z) (ps : Params) (ok : FetchOK) : result unit :=
  _ ← validateTrackProperties (fok_TrackProperties ok) knownMandatory;
  checkFetchOKEnd ps ok.

Definition isTrackPropertiesErr (e : error) : bool :=
  is_unsupported e || errors_Is e ErrMalformedTrackProperties.

(** ** Asking an upstream *)
Inductive upstreamFailure : Type := upstreamAnswered | upstreamUnknown | upstreamTimedOut.

Record upstreamAnswer : Type := MkAnswer {
  a_objs : list CachedObject; a_unknown : list LocRange; a_timedOut : list LocRange;
  failed : upstreamFailure
}.
Definition answer0 (f : upstreamFailure) : upstreamAnswer := MkAnswer [] [] [] f.

(** What the upstream does with our FETCH.  [expired] is [fctx.Err() != nil] at
    the point where the code asks. *)
Inductive response : Type :=
| LateStream
| NoStream
| Body (rd : Stream) (expired : bool).
Inductive reply : Type :=
| ReplyErr (e : error) (expired : bool)
| ReplyOK (ok : FetchOK) (expired : bool) (resp : response).

Definition df_loc (d : DecodedFetchObject) : Location := MkLoc (df_GroupID d) (df_ObjectID d).

Definition stitched_object (d : DecodedFetchObject) (now : Z) (maxAge : option Z) : CachedObject :=
  MkCached (df_GroupID d) (df_ObjectID d) (df_SubgroupID d) (df_PublisherPriority d)
    (if df_Datagram d then ForwardingDatagram else ForwardingSubgroup) 0 (df_Properties d) (df_Payload d)
    now (default 0 maxAge) (bool_decide (is_Some maxAge)) true false false.

(** One accepted element. *)
Definition take_element (span : LocRange) (order : Z) (now : Z) (maxAge : option Z) (prev : option Location)
    (d : DecodedFetchObject) (ans : upstreamAnswer) : upstreamAnswer :=
  let covered := streamCovered prev (df_loc d) span order in
  if df_Unknown d then MkAnswer (a_objs ans) (a_unknown ans ++ covered) (a_timedOut ans) (failed ans)
  else if df_TimedOut d then MkAnswer (a_objs ans) (a_unknown ans) (a_timedOut ans ++ covered) (failed ans)
  else if df_NonExistent d then ans
  else MkAnswer (a_objs ans ++ [stitched_object d now maxAge]) (a_unknown ans) (a_timedOut ans) (failed ans).

(** After a clean FIN: what lies past the FETCH_OK End Location is unknown. *)
Definition finish (ok : FetchOK) (span : LocRange) (ans : upstreamAnswer) : upstreamAnswer :=
  if Less (EndLocation ok) (Hi span)
  then MkAnswer (a_objs ans)
         (a_unknown ans ++ [MkRange (default (MkLoc 0 0) (locSucc (EndLocation ok))) (Hi span)])
         (a_timedOut ans) (failed ans)
  else ans.

(** A budget that runs out mid-read: all of the span not sent or marked is
    timed out. *)
Definition expire (span : LocRange) (ans : upstreamAnswer) : upstreamAnswer :=
  let known := a_unknown ans ++ a_timedOut ans ++ ((fun o => MkRange (co_loc o) (co_loc o)) <$> a_objs ans) in
  MkAnswer (a_objs ans) (a_unknown ans) (a_timedOut ans ++ uncovered (Lo span) (Hi span) known) (failed ans).

(** The read loop; the error is the refusal.  [now i] is the clock when the
    [i]-th Object has been read. *)
Fixpoint collect (fuel : nat) (ok : FetchOK) (span : LocRange) (order : Z) (expired : bool) (now : nat -> Z)
    (prev : option Location) (fs : IncomingFetchStream) (ans : upstreamAnswer) : result upstreamAnswer :=
  match fuel with
  | O => Err OutOfFuel
  | S fuel' =>
      let failed_read e :=
        if errors_Is e EOF then Ok (finish ok span ans)
        else if errors_Is e ErrMalformedTrack then Err e
        else if expired then Ok (expire span ans)
        else Ok (answer0 upstreamUnknown) in
      match fetch_ReadDecoded fs with
      | Failed e _ => failed_read e
      | Malformed e _ _ => failed_read e
      | Got d fs =>
          if negb (upstreamFetchElemOK (df_loc d) prev span order) || Less (EndLocation ok) (df_loc d)
          then Ok (answer0 upstreamUnknown)
          else collect fuel' ok span order expired now (Some (df_loc d)) fs
                 (take_element span order (now (length (a_objs ans)))
                    (TrackMaxCacheDuration (fok_TrackProperties ok)) prev d ans)
      end
  end.

(** The parameters of the FETCH sent upstream. *)
Definition upstream_params (span : LocRange) (order : Z) : Params :=
  (if order =? GroupOrderDescending then [GroupOrderParam GroupOrderDescending] else []) ++
  [AbsoluteRangeObjectFilter (Lo span) (u64 (Group (Hi span) - Group (Lo span))) (Object (Hi span))].

Definition fetchUpstreamRange (knownMandatory : gset Z) (up : Params -> reply) (now : nat -> Z)
    (span : LocRange) (order fillTimeout : Z) : result upstreamAnswer :=
  if fillTimeout =? 0 then Ok (answer0 upstreamTimedOut)
  else
    let params := upstream_params span order in
    let fetch_failed e expired :=
      if isTrackPropertiesErr e then Err e
      else if (expired : bool) then Ok (answer0 upstreamTimedOut) else Ok (answer0 upstreamUnknown) in
    match up params with
    | ReplyErr e expired => fetch_failed e expired
    | ReplyOK ok expired resp =>
        match session_Fetch knownMandatory params ok with
        | Err e => fetch_failed e expired
        | Ok _ =>
            match resp with
            | LateStream => Ok (answer0 upstreamTimedOut)
            | NoStream => Ok (answer0 upstreamUnknown)
            | Body rd expired =>
                collect (S (length (sbytes rd))) ok span order expired now None
                  (NewIncomingFetch rd order) (answer0 upstreamAnswered)
            end
        end
    end.

(** ** Stitching *)

(** What the relay holds of the range: [got], the cache's objects, and, when
    something was in flight, what the wait for it [handed] over and what is
    [still] arriving. *)
Definition held_objects (got : list CachedObject) (wait : option (list CachedObject * list Location)) :
    list CachedObject * list LocRange :=
  match wait with
  | None => (got, [])
  | Some (handed, still) =>
      let cached := withObjects got (handedLive handed) in
      (cached, locRanges (notHeld still cached))
  end.

(** [entry] is the track entry once the wait is over; [up] a fetch-capable
    upstream, if one is picked, with what it answers for a span; an error is a
    refusal to forward the track. *)
Definition stitchedFetchObjects (now : Z) (entry : TrackLedger)
    (wait : option (list CachedObject * list Location)) (start stop : Location) (order : Z)
    (up : option (LocRange -> result upstreamAnswer)) : result (list CachedObject) :=
  let got := GetRange now (t_Cache entry) start stop GroupOrderAscending in
  let '(cached, arriving) := held_objects got wait in
  let unknown := unknownIn (KnownAbsent entry) cached start stop arriving in
  match unknown, last unknown with
  | u :: _, Some v =>
      match up with
      | None => Ok (fetchElements cached unknown arriving order)
      | Some up =>
          ans ← up (MkRange (Lo u) (Hi v));
          match failed ans with
          | upstreamUnknown => Ok (fetchElements cached unknown arriving order)
          | upstreamTimedOut => Ok (fetchElements cached [] (unknown ++ arriving) order)
          | upstreamAnswered =>
              let merged := cached ++ List.filter (fun o => negb (holds cached (co_loc o))) (a_objs ans) in
              Ok (fetchElements merged (intersect (a_unknown ans) unknown)
                    (intersect (a_timedOut ans) unknown ++ dropHeld arriving merged) order)
          end
      end
  | _, _ => Ok (fetchElements cached [] arriving order)
  end.

(** ** Lemmas *)

(** *** Reading consumes the stream *)

(** A read that succeeds leaves a stream shorter by at least [k] bytes. *)
Definition shrinks {A} (k : nat) (m : M Stream A) : Prop :=
  forall s a s', m s = Ok (a, s') -> (length (sbytes s') + k <= length (sbytes s))%nat.

Lemma shrinks_ret {A} (a : A) : shrinks 0 (mret a).
Proof. intros s a' s' [= <- <-]. lia. Qed.

Lemma shrinks_bind {A B} k j (m : M Stream A) (f : A -> M Stream B) :
  shrinks k m -> (forall a, shrinks j (f a)) -> shrinks (k + j) (m ≫= f).
Proof.
  intros Hm Hf s b s' H. unfold mbind, M_bind in H. destruct (m s) as [[a s1]|] eqn:E; [|done].
  simpl in H. apply Hm in E. apply Hf in H. lia.
Qed.

Lemma shrinks_weaken {A} k (m : M Stream A) : shrinks k m -> shrinks 0 m.
Proof. intros H s a s' E. apply H in E. lia. Qed.

Lemma shrinks_wrap {A} k f (m : M Stream A) : shrinks k m -> shrinks k (wrap_err f m).
Proof.
  intros H s a s'. unfold wrap_err, map_err. destruct (m s) as [[a1 s1]|] eqn:E; [|done].
  intros [= <- <-]. eauto.
Qed.

Lemma shrinks_ReadByte : shrinks 1 ReadByte.
Proof. unfold ReadByte. intros [[|b l] e] a s' H; cbn in H |- *; [done|]. simplify_eq. cbn. lia. Qed.

Lemma shrinks_ReadVarint : shrinks 1 ReadVarint.
Proof.
  unfold ReadVarint. change 1%nat with (1 + 0)%nat. apply shrinks_bind; [apply shrinks_ReadByte|].
  intros b. destruct (_ =? 1); [apply shrinks_ret|].
  change 0%nat with (0 + 0)%nat. apply shrinks_bind; [|intros; destruct (_ =? 9); apply shrinks_ret].
  intros s a s'. rewrite read_rest_spec. destruct (_ <? _)%nat; [done|]. intros [= <- <-].
  simpl. rewrite length_drop. lia.
Qed.

Lemma shrinks_fail {A} k e : shrinks k (@fail Stream A e).
Proof. by intros s a s'. Qed.

Lemma shrinks_FixedBytes n : shrinks 0 (s_FixedBytes n).
Proof.
  unfold s_FixedBytes. destruct (n =? 0); [apply shrinks_ret|]. destruct (_ || _); [apply shrinks_fail|].
  intros s a s'. unfold ReadFull. destruct (_ <? _)%nat; [done|]. intros [= <- <-]. simpl.
  rewrite length_drop. lia.
Qed.

Lemma shrinks_VarintBytes : shrinks 0 s_VarintBytes.
Proof.
  unfold s_VarintBytes. change 0%nat with (0 + 0)%nat.
  apply shrinks_bind; [eapply shrinks_weaken, shrinks_ReadVarint|].
  intros n. destruct (_ >? _); [apply shrinks_fail|apply shrinks_FixedBytes].
Qed.

Lemma shrinks_if {A} k (b : bool) (m1 m2 : M Stream A) : shrinks k m1 -> shrinks k m2 -> shrinks k (if b then m1 else m2).
Proof. by destruct b. Qed.

(** One link of a chain of reads. *)
Ltac shrink_step :=
  lazymatch goal with
  | |- shrinks _ (if _ then _ else _) => apply shrinks_if
  | |- shrinks _ (mbind _ _) => apply (shrinks_bind 0 0); [|intros ?]
  | |- shrinks _ (mret _) => apply shrinks_ret
  | |- shrinks _ (wrap_err _ _) => apply shrinks_wrap
  | |- shrinks _ Varint => apply (shrinks_weaken 1), shrinks_ReadVarint
  | |- shrinks _ VarintBytes => apply shrinks_VarintBytes
  | |- shrinks _ UInt8 => change (shrinks 0 s_UInt8); unfold s_UInt8
  | |- shrinks _ ReadByte => eapply shrinks_weaken, shrinks_ReadByte
  end.

Lemma shrinks_fo_Parse o : shrinks 1 (fo_Parse o).
Proof.
  unfold fo_Parse, trunc_wrap. apply (shrinks_bind 1 0); [apply shrinks_ReadVarint|]. intros flags.
  apply (shrinks_bind 0 0).
  { intros s a s'. unfold flags_ok. destruct (checkFetchFlags flags); [|done]. intros [= <- <-]. lia. }
  intros _. repeat shrink_step.
Qed.

(** *** The range of what is read *)

Definition fetch_wf (s : IncomingFetchStream) : Prop := is_u64 (decPrevGroup s) /\ is_u64 (fdecPrevObject s).

Lemma fo_Parse_u64 o s o' s' : is_u64 (fo_GroupIDDelta o) -> is_u64 (fo_ObjectIDDelta o) ->
  fo_Parse o s = Ok (o', s') -> is_u64 (fo_GroupIDDelta o') /\ is_u64 (fo_ObjectIDDelta o').
Proof.
  intros Hg Ho H. unfold fo_Parse, trunc_wrap in H. mpeel.
  destruct (isEndOfRange _); mpeel; simpl.
  - split; by eapply ReadVarint_snd.
  - split.
    + destruct (has _ FetchFlagGroupIDDelta); mpeel; [by eapply ReadVarint_snd|done].
    + destruct (has _ FetchFlagObjectIDDelta); mpeel; [by eapply ReadVarint_snd|done].
Qed.

Lemma resolve_location_u64 s raw g o : fetch_wf s -> is_u64 (fo_GroupIDDelta raw) ->
  is_u64 (fo_ObjectIDDelta raw) -> resolve_location s raw = Ok (g, o) -> wf_loc (MkLoc g o).
Proof.
  intros [H1 H2] Hg Ho. unfold resolve_location, wf_loc.
  destruct (negb (fdecHavePrev s)); [destruct (_ || _); [done|intros [= <- <-]; done]|].
  unfold Add64, Sub64. intros H. repeat case_match; simplify_eq; simpl;
    split; first [done | apply u64_range].
Qed.

(** What a successful read yields: a Location in range, exactly one kind of
    element, and progress. *)
Definition one_kind (d : DecodedFetchObject) : Prop :=
  (df_Unknown d = true -> df_TimedOut d = false /\ df_NonExistent d = false) /\
  (df_TimedOut d = true -> df_NonExistent d = false).

Lemma fetch_read_ok s d s' : fetch_wf s -> fetch_ReadDecoded s = Got d s' ->
  wf_loc (df_loc d) /\ one_kind d /\ fetch_wf s' /\
  (length (sbytes (if_rd s')) < length (sbytes (if_rd s)))%nat.
Proof.
  intros Hw. unfold fetch_ReadDecoded, fetch_ReadObject.
  destruct (fo_Parse fetch0 (if_rd s)) as [[raw rd]|e] eqn:E; [|by destruct (errors_Is e _)].
  pose proof (shrinks_fo_Parse _ _ _ _ E) as Hs.
  apply fo_Parse_u64 in E as [Hg Ho]; [|by_decide..].
  destruct (isEndOfRange _).
  - intros [= <- <-]. split_and!; [done| |done|simpl; lia]. unfold one_kind; simpl.
    unfold FetchEndOfNonExistentRange, FetchEndOfUnknownRange, FetchEndOfTimedOutRange.
    rewrite !Z.eqb_eq, !Z.eqb_neq. lia.
  - destruct (check_prior s raw); [|done]. destruct (resolve_location s raw) as [[g o]|] eqn:El; [|done].
    apply resolve_location_u64 in El; [|done..].
    destruct (check_properties _ _ _); [|done]. intros [= <- <-].
    split_and!; [done|by unfold one_kind|done|simpl; lia].
Qed.

(** *** Disjoint ranges *)

Lemma ascending_disjoint rs : ascending rs -> disjoint_ranges rs.
Proof.
  unfold ascending, disjoint_ranges. induction 1 as [|r rs _ IH Hr]; constructor; [done|].
  eapply Forall_impl; [exact Hr|]. simpl. intros x Hx l _. clear -Hx. loc_lia.
Qed.

Lemma disjoint_app_intro a b : disjoint_ranges a -> disjoint_ranges b ->
  (forall l, wf_loc l -> covers a l -> ~ covers b l) -> disjoint_ranges (a ++ b).
Proof.
  unfold disjoint_ranges. induction 1 as [|r a _ IH Hr]; intros Hb Hab; simpl; [done|].
  constructor.
  - apply IH; [done|]. intros l Hl Hc. apply Hab; [done|]. by right.
  - apply Forall_app. split; [done|]. apply Forall_forall. intros x Hx l Hl Hin Hinx.
    apply (Hab l Hl); [by left|]. unfold covers. rewrite Exists_exists. eauto.
Qed.

Lemma disjoint_concat {A} (f : A -> list LocRange) l : (forall x, x ∈ l -> disjoint_ranges (f x)) ->
  StronglySorted (fun x y => forall p, wf_loc p -> covers (f x) p -> ~ covers (f y) p) l ->
  disjoint_ranges (concat (f <$> l)).
Proof.
  intros Hf. induction 1 as [|x l _ IH Hx]; simpl; [constructor|].
  apply disjoint_app_intro; [apply Hf; left|apply IH; intros y Hy; apply Hf; by right|].
  intros p Hp Hc Hc'. apply covers_concat in Hc'. rewrite Exists_fmap in Hc'.
  rewrite Forall_forall in Hx. apply Exists_exists in Hc' as (y & Hy & Hc'). by eapply Hx.
Qed.

(** The overlap of two ranges, as [intersect] computes it. *)
Definition overlap (x y : LocRange) : list LocRange :=
  let lo := if Less (Lo x) (Lo y) then Lo y else Lo x in
  let hi := if Less (Hi y) (Hi x) then Hi y else Hi x in
  if negb (Less hi lo) then [MkRange lo hi] else [].

Lemma overlap_covers x y l : covers (overlap x y) l <-> in_range x l /\ in_range y l.
Proof.
  unfold overlap. destruct (Less (Lo x) (Lo y)) eqn:E1, (Less (Hi y) (Hi x)) eqn:E2;
    match goal with |- context [negb ?b] => destruct b eqn:E3 end; simpl;
    rewrite ?covers_cons, ?covers_nil;
    rewrite ?Less_spec, ?Less_false in *; clear -E1 E2 E3; loc_lia.
Qed.

Lemma overlap_wf x y : wf_range x -> wf_range y -> Forall wf_range (overlap x y).
Proof.
  intros (X1 & X2 & X3) (Y1 & Y2 & Y3). unfold overlap.
  destruct (negb _) eqn:E; [|constructor]. apply negb_true_iff, Less_false in E.
  constructor; [|constructor]. split; [|split]; cbn [Lo Hi];
    [by destruct (Less (Lo x) (Lo y))|by destruct (Less (Hi y) (Hi x))|done].
Qed.

Lemma intersect_eq a b : intersect a b = concat ((fun x => concat (overlap x <$> b)) <$> a).
Proof. reflexivity. Qed.

Lemma overlaps_covers x b l : covers (concat (overlap x <$> b)) l <-> in_range x l /\ covers b l.
Proof.
  rewrite covers_concat, Exists_fmap. unfold compose. setoid_rewrite overlap_covers.
  unfold covers. rewrite !Exists_exists. naive_solver.
Qed.

Lemma intersect_covers a b l : covers (intersect a b) l <-> covers a l /\ covers b l.
Proof.
  rewrite intersect_eq, covers_concat, Exists_fmap. unfold compose. setoid_rewrite overlaps_covers.
  unfold covers at 2. rewrite !Exists_exists. naive_solver.
Qed.

Lemma intersect_wf a b : Forall wf_range a -> Forall wf_range b -> Forall wf_range (intersect a b).
Proof.
  intros Ha Hb. rewrite intersect_eq. apply Forall_concat, Forall_fmap.
  eapply Forall_impl; [exact Ha|]. intros x Hx. apply Forall_concat, Forall_fmap.
  eapply Forall_impl; [exact Hb|]. intros y Hy. by apply overlap_wf.
Qed.

Lemma intersect_disjoint a b : disjoint_ranges a -> disjoint_ranges b -> disjoint_ranges (intersect a b).
Proof.
  intros Ha Hb. rewrite intersect_eq. apply disjoint_concat.
  - intros x _. apply disjoint_concat.
    + intros y _. unfold overlap. destruct (negb _); repeat constructor.
    + unfold disjoint_ranges in Hb. eapply sorted_weaken; [|exact Hb].
      intros y z Hyz p Hp. rewrite !overlap_covers. intros [_ Hy] [_ Hz]. by eapply Hyz.
  - eapply sorted_weaken; [|exact Ha].
    intros x x' Hxx p Hp. rewrite !overlaps_covers. intros [Hx _] [Hx' _]. by eapply Hxx.
Qed.

(** *** What the elements of a response say *)

Inductive said : Type := SaidObject | SaidAbsent | SaidUnknown | SaidTimedOut.

Definition d_after (order : Z) (l : Location) (d : DecodedFetchObject) : bool :=
  bool_decide (~ stream_lt order (df_loc d) l).

Definition d_says (l : Location) (d : DecodedFetchObject) : said :=
  if df_Unknown d then SaidUnknown
  else if df_TimedOut d then SaidTimedOut
  else if df_NonExistent d then SaidAbsent
  else if decide (df_loc d = l) then SaidObject else SaidAbsent.

(** The first element at or after [l], in stream order, decides. *)
Definition says (order : Z) (items : list DecodedFetchObject) (l : Location) : said :=
  match List.find (d_after order l) items with Some d => d_says l d | None => SaidAbsent end.

Definition d_sorted (order : Z) (items : list DecodedFetchObject) : Prop :=
  StronglySorted (fun a b => stream_lt order (df_loc a) (df_loc b)) items.

Definition is_object (d : DecodedFetchObject) : Prop :=
  df_Unknown d = false /\ df_TimedOut d = false /\ df_NonExistent d = false.
#[global] Instance is_object_dec d : Decision (is_object d).
Proof. unfold is_object. apply _. Defined.

Lemma sorted_snoc order items d : d_sorted order items ->
  stream_after order (df_loc <$> last items) (df_loc d) -> d_sorted order (items ++ [d]).
Proof.
  unfold d_sorted. intros Hs. induction Hs as [|x l Hl IH Hx]; intros Hd; simpl; [repeat constructor|].
  constructor.
  - apply IH. destruct l; [done|]. exact Hd.
  - apply Forall_app. split; [done|]. constructor; [|constructor].
    destruct l as [|y l]; [exact Hd|].
    assert (Hlast : stream_after order (df_loc <$> last (y :: l)) (df_loc d)) by exact Hd.
    destruct (last (y :: l)) as [z|] eqn:Ez; [|by apply last_None in Ez].
    apply last_Some_elem_of in Ez. rewrite Forall_forall in Hx.
    eapply stream_lt_trans; [by apply Hx|exact Hlast].
Qed.

Lemma find_after order items l : d_sorted order items ->
  List.find (d_after order l) items = None <-> stream_after order (df_loc <$> last items) l.
Proof.
  unfold d_sorted, d_after. induction 1 as [|x items Hs IH Hx]; simpl; [done|].
  case_bool_decide as E.
  - split; [done|]. intros Ha. exfalso. apply E. destruct items as [|y items]; [exact Ha|].
    change (last (x :: y :: items)) with (last (y :: items)) in Ha.
    destruct (last (y :: items)) as [z|] eqn:Ez; [|by apply last_None in Ez].
    apply last_Some_elem_of in Ez. rewrite Forall_forall in Hx.
    eapply stream_lt_trans; [by apply Hx|exact Ha].
  - destruct items as [|y items]; [done|]. by rewrite IH.
Qed.

#[global] Instance stream_after_dec order prev l : Decision (stream_after order prev l).
Proof. unfold stream_after. destruct prev; apply _. Defined.

Lemma says_snoc order items d l : d_sorted order items ->
  says order (items ++ [d]) l =
  if decide (stream_after order (df_loc <$> last items) l /\ ~ stream_lt order (df_loc d) l)
  then d_says l d else says order items l.
Proof.
  intros Hs. unfold says. pose proof (find_after order items l Hs) as Hf.
  assert (Happ : List.find (d_after order l) (items ++ [d]) =
    match List.find (d_after order l) items with Some x => Some x
    | None => if d_after order l d then Some d else None end).
  { clear. induction items as [|x items IH]; simpl; [by destruct (d_after _ _ _)|].
    by destruct (d_after order l x). }
  rewrite Happ. destruct (List.find _ items) as [x|].
  - rewrite decide_False; [done|]. intros [Ha _]. by apply Hf in Ha.
  - assert (Ha : stream_after order (df_loc <$> last items) l) by (by apply Hf).
    unfold d_after. case_bool_decide as E.
    + by rewrite decide_True.
    + rewrite decide_False; [done|]. by intros [_ ?].
Qed.

Lemma says_after order items l : d_sorted order items ->
  stream_after order (df_loc <$> last items) l -> says order items l = SaidAbsent.
Proof. intros Hs Ha. apply find_after in Ha; [|done]. unfold says. by rewrite Ha. Qed.

(** An element decides its own Location. *)
Lemma says_at order items d : d_sorted order items -> d ∈ items ->
  says order items (df_loc d) = d_says (df_loc d) d.
Proof.
  unfold says, d_sorted, d_after. induction 1 as [|x items Hs IH Hx]; simpl; [by rewrite elem_of_nil|].
  rewrite elem_of_cons. intros [-> | Hd].
  - by rewrite bool_decide_true by apply stream_lt_irrefl.
  - rewrite Forall_forall in Hx. rewrite bool_decide_false; [auto|]. intros Hn. by apply Hn, Hx.
Qed.

Lemma says_object order items l : says order items l = SaidObject ->
  exists d, d ∈ items /\ is_object d /\ df_loc d = l.
Proof.
  unfold says. destruct (List.find _ items) as [d|] eqn:E; [|done].
  apply List.find_some in E as [Hd _]. apply list_elem_of_In in Hd. unfold d_says.
  destruct (df_Unknown d) eqn:?, (df_TimedOut d) eqn:?, (df_NonExistent d) eqn:?; try done.
  destruct (decide _); [|done]. intros _. by exists d.
Qed.

Lemma says_before order items l v : says order items l = v -> v <> SaidAbsent ->
  exists d, d ∈ items /\ ~ stream_lt order (df_loc d) l.
Proof.
  unfold says. destruct (List.find _ items) as [d|] eqn:E; [|congruence]. intros _ _.
  apply List.find_some in E as [Hd Ha]. apply list_elem_of_In in Hd. exists d.
  by apply bool_decide_eq_true in Ha.
Qed.

(** *** What the read loop has gathered *)

(** [o] is one of the Objects among [items], as the relay records it. *)
Definition sent_in (items : list DecodedFetchObject) (o : CachedObject) : Prop :=
  exists d now maxAge, d ∈ items /\ is_object d /\ o = stitched_object d now maxAge.

Record collected (span : LocRange) (order : Z) (items : list DecodedFetchObject) (prev : option Location)
    (ans : upstreamAnswer) : Prop := {
  c_in : Forall (fun d => wf_loc (df_loc d) /\ in_range span (df_loc d) /\ one_kind d) items;
  c_sorted : d_sorted order items;
  c_prev : prev = df_loc <$> last items;
  c_answered : failed ans = upstreamAnswered;
  c_wf : Forall wf_range (a_unknown ans) /\ Forall wf_range (a_timedOut ans);
  c_unknown : forall l, wf_loc l ->
    (covers (a_unknown ans) l <-> in_range span l /\ says order items l = SaidUnknown);
  c_timedOut : forall l, wf_loc l ->
    (covers (a_timedOut ans) l <-> in_range span l /\ says order items l = SaidTimedOut);
  c_disjoint : disjoint_ranges (a_unknown ans) /\ disjoint_ranges (a_timedOut ans);
  c_objs : co_loc <$> a_objs ans = df_loc <$> filter is_object items;
  c_real : Forall (sent_in items) (a_objs ans)
}.

Lemma collected_nil span order : collected span order [] None (answer0 upstreamAnswered).
Proof.
  split; simpl; try done; try (by constructor); try (by split; constructor).
  - intros l _. rewrite covers_nil. naive_solver.
  - intros l _. rewrite covers_nil. naive_solver.
Qed.

Section Step.
Context (span : LocRange) (order : Z) (items : list DecodedFetchObject) (prev : option Location)
  (ans : upstreamAnswer) (d : DecodedFetchObject).
Context (Hspan : wf_range span) (Hc : collected span order items prev ans).
Context (Hd : wf_loc (df_loc d)) (Hk : one_kind d) (Hok : upstreamFetchElemOK (df_loc d) prev span order = true).

Lemma step_prev p : prev = Some p -> wf_loc p /\ in_range span p.
Proof.
  rewrite (c_prev _ _ _ _ _ Hc). destruct (last items) as [z|] eqn:E; [|done]. intros [= <-].
  apply last_Some_elem_of in E. pose proof (c_in _ _ _ _ _ Hc) as Hin. rewrite Forall_forall in Hin.
  by destruct (Hin z E) as (? & ? & _).
Qed.

Lemma step_covered : let rs := streamCovered prev (df_loc d) span order in
  Forall wf_range rs /\ disjoint_ranges rs /\
  forall l, wf_loc l -> (covers rs l <->
    in_range span l /\ stream_after order (df_loc <$> last items) l /\ ~ stream_lt order (df_loc d) l).
Proof.
  destruct (streamCovered_ok prev (df_loc d) span order Hspan Hd step_prev Hok) as (H1 & H2 & H3).
  split_and!; [done|by apply ascending_disjoint|]. by rewrite <- (c_prev _ _ _ _ _ Hc).
Qed.

(** One marker's ranges, appended to those of its kind. *)
Lemma step_marker rs v : v <> SaidAbsent -> d_says (df_loc d) d = v -> (forall l, d_says l d = v) ->
  Forall wf_range rs -> disjoint_ranges rs ->
  (forall l, wf_loc l -> (covers rs l <-> in_range span l /\ says order items l = v)) ->
  let rs' := rs ++ streamCovered prev (df_loc d) span order in
  Forall wf_range rs' /\ disjoint_ranges rs' /\
  (forall l, wf_loc l -> (covers rs' l <-> in_range span l /\ says order (items ++ [d]) l = v)).
Proof.
  intros Hv _ Hsay Hwf Hdis Hrs rs'. destruct step_covered as (W & D & C).
  pose proof (c_sorted _ _ _ _ _ Hc) as Hs. split_and!.
  - by apply Forall_app.
  - apply disjoint_app_intro; [done|done|]. intros l Hl H1 H2. apply Hrs in H1 as [_ H1]; [|done].
    apply C in H2 as (_ & H2 & _); [|done]. rewrite says_after in H1 by done. congruence.
  - intros l Hl. unfold rs'. rewrite covers_app, Hrs, C by done. rewrite says_snoc by done.
    destruct (decide _) as [E|E]; [rewrite Hsay; tauto|]. tauto.
Qed.

(** An element of another kind leaves a kind's ranges exact. *)
Lemma step_other rs v : v <> SaidAbsent -> (forall l, d_says l d <> v) ->
  (forall l, wf_loc l -> (covers rs l <-> in_range span l /\ says order items l = v)) ->
  (forall l, wf_loc l -> (covers rs l <-> in_range span l /\ says order (items ++ [d]) l = v)).
Proof.
  intros Hv Hsay Hrs l Hl. pose proof (c_sorted _ _ _ _ _ Hc) as Hs. rewrite Hrs, says_snoc by done.
  destruct (decide _) as [[E _]|E]; [|done]. rewrite says_after by done.
  specialize (Hsay l). split; intros [_ H]; congruence.
Qed.

Lemma step_collected now maxAge :
  collected span order (items ++ [d]) (Some (df_loc d)) (take_element span order now maxAge prev d ans).
Proof.
  pose proof Hc as [H1 H2 H3 H4 [H5 H5'] H6 H7 [H8 H8'] H9 H10].
  pose proof (proj1 (elem_ok_spec _ _ _ _) Hok) as [Hin Haf]. rewrite H3 in Haf. pose proof Hk as [K1 K2].
  assert (Hu : df_Unknown d = false -> forall l, d_says l d <> SaidUnknown).
  { intros E l. unfold d_says. rewrite E. repeat case_match; done. }
  assert (Ht : df_TimedOut d = false \/ df_Unknown d = true -> forall l, d_says l d <> SaidTimedOut).
  { intros E l. unfold d_says. destruct E as [E|E]; rewrite E; repeat case_match; done. }
  assert (Hfil : filter is_object (items ++ [d]) = filter is_object items ++ (if decide (is_object d) then [d] else [])).
  { by rewrite filter_app. }
  assert (Hin' : Forall (fun d => wf_loc (df_loc d) /\ in_range span (df_loc d) /\ one_kind d) (items ++ [d])).
  { apply Forall_app. split; [done|]. constructor; [done|constructor]. }
  assert (Hs' : d_sorted order (items ++ [d])) by (by apply sorted_snoc).
  assert (Hl' : Some (df_loc d) = df_loc <$> last (items ++ [d])) by (by rewrite last_snoc).
  assert (Hmono : forall o, sent_in items o -> sent_in (items ++ [d]) o).
  { intros o (x & n & m & Hx & Hob & ->). exists x, n, m. split; [|done]. apply elem_of_app. by left. }
  assert (H10' : Forall (sent_in (items ++ [d])) (a_objs ans)) by (eapply Forall_impl; [exact H10|auto]).
  unfold take_element. destruct (df_Unknown d) eqn:Eu; [|destruct (df_TimedOut d) eqn:Et; [|destruct (df_NonExistent d) eqn:En]].
  - destruct (step_marker (a_unknown ans) SaidUnknown) as (M1 & M2 & M3); try done;
      [unfold d_says; by rewrite Eu|intros l; unfold d_says; by rewrite Eu|].
    rewrite decide_False in Hfil by (unfold is_object; rewrite Eu; naive_solver). rewrite app_nil_r in Hfil.
    split; simpl; try done; [|by rewrite Hfil]. apply step_other; [done|auto|done].
  - destruct (step_marker (a_timedOut ans) SaidTimedOut) as (M1 & M2 & M3); try done;
      [unfold d_says; by rewrite Eu, Et|intros l; unfold d_says; by rewrite Eu, Et|].
    rewrite decide_False in Hfil by (unfold is_object; rewrite Et; naive_solver). rewrite app_nil_r in Hfil.
    split; simpl; try done; [|by rewrite Hfil]. apply step_other; [done|auto|done].
  - rewrite decide_False in Hfil by (unfold is_object; rewrite En; naive_solver). rewrite app_nil_r in Hfil.
    split; try done; [| |by rewrite Hfil]; apply step_other; (done || auto).
  - rewrite decide_True in Hfil by done.
    split; simpl; try done; [| | |].
    + apply step_other; [done|auto|done].
    + apply step_other; [done|auto|done].
    + rewrite fmap_app, H9, Hfil, fmap_app. done.
    + apply Forall_app. split; [by eapply Forall_impl; [exact H10|auto]|]. constructor; [|constructor].
      exists d, now, maxAge. split; [|done]. apply elem_of_app. right. by apply list_elem_of_singleton.
Qed.
End Step.

Lemma uncovered_parts span known : wf_range span -> Forall wf_range known ->
  let out := uncovered (Lo span) (Hi span) known in
  Forall wf_range out /\ ascending out /\
  forall l, wf_loc l -> (covers out l <-> in_range span l /\ ~ covers known l).
Proof.
  intros (S1 & S2 & S3) Hk. destruct (uncovered_ok (Lo span) (Hi span) known S1 S2 S3 Hk) as (W & A & C).
  split_and!; [done|done|]. intros l Hl. rewrite C, covers_nil by done. unfold in_range; simpl. tauto.
Qed.

(** *** What an answer promises

    Its Objects were [sent] and lie in the span, at distinct Locations outside its unknown and
    timed-out ranges, which are disjoint; and [denied] holds of every Location
    of the span it leaves out. *)
Record answer_ok (span : LocRange) (sent : CachedObject -> Prop) (denied : Location -> Prop)
    (ans : upstreamAnswer) : Prop := {
  ao_answered : failed ans = upstreamAnswered;
  ao_wf : Forall wf_range (a_unknown ans ++ a_timedOut ans);
  ao_disjoint : disjoint_ranges (a_unknown ans ++ a_timedOut ans);
  ao_objs : Forall (fun o => wf_loc (co_loc o) /\ in_range span (co_loc o) /\ IsRangeMarker o = false) (a_objs ans);
  ao_sent : Forall sent (a_objs ans);
  ao_NoDup : NoDup (co_loc <$> a_objs ans);
  ao_free : forall o, o ∈ a_objs ans -> ~ covers (a_unknown ans ++ a_timedOut ans) (co_loc o);
  ao_gaps : forall l, wf_loc l -> in_range span l -> ~ covers (a_unknown ans ++ a_timedOut ans) l ->
    (forall o, o ∈ a_objs ans -> co_loc o <> l) -> denied l
}.

Section Collected.
Context (span : LocRange) (order : Z) (items : list DecodedFetchObject) (prev : option Location)
  (ans : upstreamAnswer) (Hspan : wf_range span) (Hc : collected span order items prev ans).

Lemma obj_item o : o ∈ a_objs ans -> exists d, d ∈ items /\ is_object d /\ co_loc o = df_loc d.
Proof.
  intros Ho. apply (list_elem_of_fmap_2 co_loc) in Ho. rewrite (c_objs _ _ _ _ _ Hc) in Ho.
  apply list_elem_of_fmap in Ho as (d & E & Hd). apply list_elem_of_filter in Hd as [? ?]. eauto.
Qed.

Lemma item_obj d : d ∈ items -> is_object d -> exists o, o ∈ a_objs ans /\ co_loc o = df_loc d.
Proof.
  intros Hd Ho. assert (Hin : df_loc d ∈ co_loc <$> a_objs ans).
  { rewrite (c_objs _ _ _ _ _ Hc). apply list_elem_of_fmap_2, list_elem_of_filter. done. }
  apply list_elem_of_fmap in Hin as (o & E & Hin). eauto.
Qed.

Lemma collected_objs :
  Forall (fun o => wf_loc (co_loc o) /\ in_range span (co_loc o) /\ IsRangeMarker o = false) (a_objs ans).
Proof.
  apply Forall_forall. intros o Ho. pose proof (c_real _ _ _ _ _ Hc) as Hr. pose proof (c_in _ _ _ _ _ Hc) as Hi.
  rewrite Forall_forall in Hr. rewrite Forall_forall in Hi. destruct (Hr o Ho) as (d & n & m & Hd & _ & ->).
  destruct (Hi d Hd) as (? & ? & _). done.
Qed.

Lemma collected_NoDup : NoDup (co_loc <$> a_objs ans).
Proof.
  rewrite (c_objs _ _ _ _ _ Hc). pose proof (c_sorted _ _ _ _ _ Hc) as Hs. clear -Hs.
  unfold d_sorted in Hs. induction Hs as [|x l _ IH Hx]; [constructor|].
  rewrite filter_cons. destruct (decide (is_object x)); [|done]. simpl. constructor; [|done].
  intros Hin. apply list_elem_of_fmap in Hin as (y & E & Hy). apply list_elem_of_filter in Hy as [_ Hy].
  rewrite Forall_forall in Hx. specialize (Hx y Hy). rewrite E in Hx. by eapply stream_lt_irrefl.
Qed.

Lemma obj_says o : o ∈ a_objs ans -> says order items (co_loc o) = SaidObject.
Proof.
  intros Ho. destruct (obj_item o Ho) as (d & Hd & (E1 & E2 & E3) & ->).
  rewrite says_at by (try done; apply (c_sorted _ _ _ _ _ Hc)).
  unfold d_says. rewrite E1, E2, E3. by rewrite decide_True.
Qed.

Lemma obj_free o : o ∈ a_objs ans -> ~ covers (a_unknown ans ++ a_timedOut ans) (co_loc o).
Proof.
  intros Ho. pose proof (obj_says o Ho) as Hs. pose proof collected_objs as Hf. rewrite Forall_forall in Hf.
  destruct (Hf o Ho) as (Hw & _ & _). rewrite covers_app, (c_unknown _ _ _ _ _ Hc), (c_timedOut _ _ _ _ _ Hc) by done.
  rewrite Hs. intros [[_ E]|[_ E]]; discriminate E.
Qed.

Lemma marks_disjoint : disjoint_ranges (a_unknown ans ++ a_timedOut ans).
Proof.
  destruct (c_disjoint _ _ _ _ _ Hc). apply disjoint_app_intro; [done|done|]. intros l Hl.
  rewrite (c_unknown _ _ _ _ _ Hc), (c_timedOut _ _ _ _ _ Hc) by done. intros [_ E1] [_ E2]. congruence.
Qed.

Lemma marks_wf : Forall wf_range (a_unknown ans ++ a_timedOut ans).
Proof. apply Forall_app, (c_wf _ _ _ _ _ Hc). Qed.

Lemma unmarked_absent l : wf_loc l -> in_range span l -> ~ covers (a_unknown ans ++ a_timedOut ans) l ->
  (forall o, o ∈ a_objs ans -> co_loc o <> l) -> says order items l = SaidAbsent.
Proof.
  intros Hl Hin Hn Ho. rewrite covers_app, (c_unknown _ _ _ _ _ Hc), (c_timedOut _ _ _ _ _ Hc) in Hn by done.
  destruct (says order items l) eqn:E; [|done|tauto|tauto]. exfalso.
  apply says_object in E as (d & Hd & Hob & <-). destruct (item_obj d Hd Hob) as (o & Hoin & Eo). by eapply Ho.
Qed.

Lemma expire_ok denied : answer_ok span (sent_in items) denied (expire span ans).
Proof.
  pose proof Hspan as (S1 & S2 & S3). unfold expire.
  set (known := a_unknown ans ++ a_timedOut ans ++ ((fun o => MkRange (co_loc o) (co_loc o)) <$> a_objs ans)).
  assert (Hkn : Forall wf_range known).
  { unfold known. rewrite app_assoc. apply Forall_app. split; [apply marks_wf|]. apply Forall_fmap.
    eapply Forall_impl; [exact collected_objs|]. intros o (? & _ & _). unfold compose. split; [done|split; [done|]].
    simpl. clear. loc_lia. }
  destruct (uncovered_parts span known Hspan Hkn) as (W & A & C).
  assert (Hk : forall l, covers known l <->
    covers (a_unknown ans ++ a_timedOut ans) l \/ exists o, o ∈ a_objs ans /\ co_loc o = l).
  { intros l. unfold known. rewrite app_assoc, covers_app. unfold covers at 2. rewrite Exists_fmap, Exists_exists.
    assert (E : forall o, in_range (MkRange (co_loc o) (co_loc o)) l <-> co_loc o = l).
    { intros o. destruct (co_loc o) as [g ob], l as [g' ob']. split; [|intros [= -> ->]; loc_lia].
      intros H. f_equal; loc_lia. }
    unfold compose. setoid_rewrite E. done. }
  split; simpl; rewrite ?(app_assoc (a_unknown ans)).
  - apply (c_answered _ _ _ _ _ Hc).
  - apply Forall_app. split; [apply marks_wf|done].
  - apply disjoint_app_intro; [apply marks_disjoint|by apply ascending_disjoint|].
    intros l Hl H1 H2. destruct (proj1 (C l Hl) H2) as (_ & H3). apply H3, Hk. by left.
  - apply collected_objs.
  - apply (c_real _ _ _ _ _ Hc).
  - apply collected_NoDup.
  - intros o Ho. pose proof collected_objs as Hf. rewrite Forall_forall in Hf. destruct (Hf o Ho) as (Hw & _).
    rewrite covers_app, C by done. intros [H|(_ & H)]; [by apply (obj_free o Ho)|]. apply H, Hk. eauto.
  - intros l Hl Hin Hn Ho. exfalso. rewrite covers_app, C in Hn by done. apply Hn. right.
    split; [done|]. rewrite Hk. intros [H|(o & Ho' & E)]; [tauto|]. by eapply Ho.
Qed.
End Collected.

Lemma tail_covers e hi l : wf_loc e -> wf_loc hi -> loc_lt e hi -> wf_loc l ->
  covers [MkRange (default (MkLoc 0 0) (locSucc e)) hi] l <-> loc_lt e l /\ loc_le l hi.
Proof.
  intros He Hh Hlt Hl. destruct (locSucc_default _ _ He Hh Hlt) as [_ Hx].
  rewrite covers_cons, covers_nil. unfold in_range; simpl. rewrite Hx by done. tauto.
Qed.

Lemma marks_below span order items prev ans e l : collected span order items prev ans ->
  order <> GroupOrderDescending -> (forall d, d ∈ items -> loc_le (df_loc d) e) -> wf_loc l ->
  covers (a_unknown ans ++ a_timedOut ans) l -> loc_le l e.
Proof.
  intros Hc Hasc Hle Hl Hcov.
  rewrite covers_app, (c_unknown _ _ _ _ _ Hc), (c_timedOut _ _ _ _ _ Hc) in Hcov by done.
  assert (Hb : exists d, d ∈ items /\ ~ stream_lt order (df_loc d) l)
    by (destruct Hcov as [[_ H]|[_ H]]; by eapply says_before).
  destruct Hb as (d & Hd & Hnlt). rewrite stream_lt_asc in Hnlt by done. specialize (Hle d Hd).
  clear -Hnlt Hle. loc_lia.
Qed.

(** After a clean FIN every Location up to the End Location that is left out was
    denied.  A descending response must not be capped: its first marker would
    cover Locations past the End Location too. *)
Lemma finish_ok ok span order items prev ans : wf_range span -> collected span order items prev ans ->
  wf_loc (EndLocation ok) -> loc_le (Lo span) (EndLocation ok) ->
  Forall (fun d => loc_le (df_loc d) (EndLocation ok)) items ->
  (order = GroupOrderDescending -> loc_le (Hi span) (EndLocation ok)) ->
  answer_ok span (sent_in items)
    (fun l => loc_le l (EndLocation ok) /\ says order items l = SaidAbsent) (finish ok span ans).
Proof.
  intros Hspan Hc He Hlo Hle Hdesc. pose proof Hspan as (S1 & S2 & S3).
  pose proof (collected_objs _ _ _ _ _ Hc) as Hobjs. rewrite Forall_forall in Hle.
  unfold finish. destruct (Less (EndLocation ok) (Hi span)) eqn:El.
  - apply Less_spec in El. assert (Hasc : order <> GroupOrderDescending).
    { intros E. specialize (Hdesc E). clear -El Hdesc. loc_lia. }
    destruct (locSucc_default _ _ He S2 El) as [Hnx Hx].
    pose proof (fun l => tail_covers _ _ l He S2 El) as Htail.
    pose proof (fun l => marks_below _ _ _ _ _ _ l Hc Hasc Hle) as Hmark.
    set (next := default (MkLoc 0 0) (locSucc (EndLocation ok))) in *.
    assert (Hperm : (a_unknown ans ++ [MkRange next (Hi span)]) ++ a_timedOut ans ≡ₚ
                    (a_unknown ans ++ a_timedOut ans) ++ [MkRange next (Hi span)]).
    { rewrite <- !app_assoc. apply Permutation_app_head, Permutation_app_comm. }
    assert (Hcov : forall l, wf_loc l -> covers ((a_unknown ans ++ [MkRange next (Hi span)]) ++ a_timedOut ans) l <->
      covers (a_unknown ans ++ a_timedOut ans) l \/ loc_lt (EndLocation ok) l /\ loc_le l (Hi span)).
    { intros l Hl. rewrite (covers_perm _ _ l Hperm), covers_app, Htail by done. done. }
    pose proof (marks_disjoint _ _ _ _ _ Hc) as Hdis. destruct (disjoint_app _ _ Hdis) as (D1 & D2 & D12).
    split; simpl.
    + apply (c_answered _ _ _ _ _ Hc).
    + rewrite Hperm. apply Forall_app. split; [by eapply marks_wf|]. constructor; [|constructor].
      split; [done|split; [done|]]. simpl. by apply Hx.
    + rewrite <- app_assoc. apply disjoint_app_intro; [done| |].
      * apply disjoint_app_intro; [repeat constructor|done|]. intros l Hl H1 H2. apply Htail in H1 as [H1 _]; [|done].
        assert (loc_le l (EndLocation ok)) by (apply Hmark; [done|]; apply covers_app; by right).
        clear -H H1. loc_lia.
      * intros l Hl H1 H2. apply covers_app in H2 as [H2|H2]; [|by eapply D12].
        apply Htail in H2 as [H2 _]; [|done].
        assert (loc_le l (EndLocation ok)) by (apply Hmark; [done|]; apply covers_app; by left).
        clear -H H2. loc_lia.
    + done.
    + apply (c_real _ _ _ _ _ Hc).
    + by eapply collected_NoDup.
    + intros o Ho. rewrite Forall_forall in Hobjs. destruct (Hobjs o Ho) as (Hw & _). rewrite Hcov by done.
      intros [H|[H _]]; [by eapply obj_free|]. destruct (obj_item _ _ _ _ _ Hc o Ho) as (d & Hd & _ & E).
      specialize (Hle d Hd). rewrite E in H. clear -H Hle. loc_lia.
    + intros l Hl Hin Hn Ho. rewrite Hcov in Hn by done. split.
      * apply Less_false. destruct (Less (EndLocation ok) l) eqn:E; [|done]. apply Less_spec in E.
        exfalso. apply Hn. right. clear -E Hin. split; [done|]. loc_lia.
      * eapply unmarked_absent; try done. tauto.
  - apply Less_false in El. split; try done.
    + apply (c_answered _ _ _ _ _ Hc).
    + by eapply marks_wf.
    + by eapply marks_disjoint.
    + apply (c_real _ _ _ _ _ Hc).
    + by eapply collected_NoDup.
    + intros o. by eapply obj_free.
    + intros l Hl Hin Hn Ho. split; [clear -Hin El; loc_lia|]. by eapply unmarked_absent.
Qed.

(** *** The read loop *)

Lemma freads_snoc s l s1 d s2 : freads s l s1 -> fetch_ReadDecoded s1 = Got d s2 -> freads s (l ++ [Some d]) s2.
Proof. induction 1; intros Hd; simpl; econstructor; try done; eauto using freads. Qed.

(** The response ended with a FIN between elements. *)
Definition clean_end (s : IncomingFetchStream) : Prop :=
  match fetch_ReadDecoded s with
  | Failed e _ | Malformed e _ _ => errors_Is e EOF = true
  | Got _ _ => False
  end.

(** What the upstream denied: read whole up to a clean end, its response skips
    the Location, which its End Location reaches. *)
Definition denies (order : Z) (ok : FetchOK) (rd : Stream) (l : Location) : Prop :=
  exists items s', freads (NewIncomingFetch rd order) (Some <$> items) s' /\ clean_end s' /\
    d_sorted order items /\ loc_le l (EndLocation ok) /\ says order items l = SaidAbsent.

(** Objects the upstream sent. *)
Definition supplies (order : Z) (rd : Stream) (o : CachedObject) : Prop :=
  exists items s', freads (NewIncomingFetch rd order) (Some <$> items) s' /\ sent_in items o.

Lemma answer_ok_mono span S S' P Q ans : (forall o, S o -> S' o) -> (forall l, P l -> Q l) ->
  answer_ok span S P ans -> answer_ok span S' Q ans.
Proof. intros HS HPQ [H1 H2 H3 H4 H5 H6 H7 H8]. split; auto. by eapply Forall_impl; [exact H5|]. Qed.

Lemma collect_ok ok span order expired now rd : wf_range span -> wf_loc (EndLocation ok) ->
  loc_le (Lo span) (EndLocation ok) -> (order = GroupOrderDescending -> loc_le (Hi span) (EndLocation ok)) ->
  forall fuel items prev fs ans, (length (sbytes (if_rd fs)) < fuel)%nat -> fetch_wf fs ->
  freads (NewIncomingFetch rd order) (Some <$> items) fs -> collected span order items prev ans ->
  Forall (fun d => loc_le (df_loc d) (EndLocation ok)) items ->
  match collect fuel ok span order expired now prev fs ans with
  | Ok ans' => ans' = answer0 upstreamUnknown \/ answer_ok span (supplies order rd) (denies order ok rd) ans'
  | Err e => errors_Is e ErrMalformedTrack = true
  end.
Proof.
  intros Hspan He Hlo Hdesc. induction fuel as [|fuel IH]; intros items prev fs ans Hfuel Hfw Hfr Hc Hle; [lia|].
  simpl. assert (Hsup : forall o, sent_in items o -> supplies order rd o) by (intros o Ho; by exists items, fs).
  assert (Hfin : clean_end fs -> answer_ok span (supplies order rd) (denies order ok rd) (finish ok span ans)).
  { intros Hcl. eapply answer_ok_mono; [exact Hsup| |by eapply finish_ok]. intros l [H1 H2].
    exists items, fs. split_and!; try done. apply (c_sorted _ _ _ _ _ Hc). }
  assert (Hexp : answer_ok span (supplies order rd) (denies order ok rd) (expire span ans)).
  { eapply answer_ok_mono; [exact Hsup|done|by eapply expire_ok]. }
  unfold clean_end in Hfin. destruct (fetch_ReadDecoded fs) as [d fs'|e a fs'|e c] eqn:Er.
  - destruct (fetch_read_ok _ _ _ Hfw Er) as (Hd & Hk & Hfw' & Hlen).
    destruct (upstreamFetchElemOK _ _ _ _) eqn:Eok; simpl; [|by left].
    destruct (Less _ _) eqn:El; [by left|]. apply Less_false in El. apply (IH (items ++ [d])); [lia|done| | |].
    + rewrite fmap_app. simpl. by eapply freads_snoc.
    + by apply step_collected.
    + apply Forall_app. split; [done|]. by constructor.
  - destruct (errors_Is e EOF); [right; auto|]. destruct (errors_Is e ErrMalformedTrack) eqn:Em; [done|].
    destruct expired; [by right|by left].
  - destruct (errors_Is e EOF); [right; auto|]. destruct (errors_Is e ErrMalformedTrack) eqn:Em; [done|].
    destruct expired; [by right|by left].
Qed.

(** *** The FETCH_OK of a span reaches its start *)

Lemma read_fields_partial_ok n : forall r vs r', read_fields n r = Ok (vs, r') -> read_fields_partial n r = vs.
Proof.
  induction n as [|n IH]; intros r vs r' H; simpl in *; [mpeel; done|]. mpeel.
  match goal with E : r_Varint r = Ok _ |- _ => rewrite E end. f_equal. by eapply IH.
Qed.

Lemma lf_Parse_partial_ok raw f r : lf_Parse (NewReader raw) = Ok (f, r) -> lf_Parse_partial raw = f.
Proof.
  intros H. unfold lf_Parse in H. mpeel. unfold lf_Parse_partial.
  match goal with E : r_Varint _ = Ok _ |- _ => rewrite E end.
  match goal with E : (fields _).2 = true |- _ => rewrite E end.
  f_equal. by eapply read_fields_partial_ok.
Qed.

Lemma session_Fetch_start known span order ok : wf_range span ->
  session_Fetch known (upstream_params span order) ok = Ok tt -> loc_le (Lo span) (EndLocation ok).
Proof.
  intros (S1 & S2 & S3) H. unfold session_Fetch in H.
  destruct (validateTrackProperties _ _); [simpl in H|done].
  set (f := MkLF LocationFilterAbsoluteRange (Group (Lo span)) (Object (Lo span))
              (u64 (Group (Hi span) - Group (Lo span))) (Object (Hi span))).
  assert (Hf : wf_lf f).
  { split_and!; [done|done|]. pose proof (u64_range (Group (Hi span) - Group (Lo span))).
    unfold lf_values; simpl. repeat (apply Forall_cons; split); [apply S1..|done|apply S2|constructor]. }
  assert (Hfind : p_Find (upstream_params span order) ParamLocationFilter = Some (LocationFilterParam f)).
  { unfold upstream_params. by destruct (_ =? _). }
  unfold checkFetchOKEnd in H. rewrite Hfind in H. cbv zeta in H.
  assert (Hp : lf_Parse_partial (p_Bytes (LocationFilterParam f)) = f).
  { eapply lf_Parse_partial_ok. change (p_Bytes (LocationFilterParam f)) with (lf_Bytes f).
    rewrite lf_Bytes_e. by apply decodes_NewReader, decodes_end_of, decodes_lf. }
  rewrite Hp in H. change (NextObject f || (RelativeStart f && (StartGroup f =? 0))) with false in H.
  change (RelativeStart f) with false in H. cbv iota in H.
  destruct (Less _ _) eqn:E; [done|]. by apply Less_false in E.
Qed.

(** *** What the relay holds *)

Definition held_ok (o : CachedObject) : Prop :=
  wf_loc (co_loc o) /\ IsRangeMarker o = false /\
  check_properties (co_Properties o) (co_GroupID o) (co_ObjectID o) = Ok tt.

Lemma prior_gaps_le props g o : check_properties props g o = Ok tt ->
  let gaps := ObjectPriorGaps props in
  (HasGroup gaps = true -> pg_Group gaps <= g) /\ (HasObject gaps = true -> pg_Object gaps <= o).
Proof.
  unfold check_properties. rewrite Z.gtb_ltb. destruct (Z.ltb_spec 0 (len props)) as [Hl|Hl].
  - unfold CheckObjectProperties, ObjectPriorGaps. destruct (walk props false check0) as [c|]; [|done].
    simpl. rewrite !Z.gtb_ltb. destruct (Z.ltb_spec g (groupGap c)); [done|].
    destruct (Z.ltb_spec o (objectGap c)); [done|]. auto with lia.
  - intros _. destruct props; [done|]. unfold len in Hl. simpl in Hl. lia.
Qed.

Lemma known_of_wf o : held_ok o -> Forall wf_range (known_of o).
Proof.
  intros (Hw & _ & Hp). apply prior_gaps_le in Hp as [Hg Ho]. unfold known_of.
  change (co_loc o) with (MkLoc (co_GroupID o) (co_ObjectID o)) in *.
  set (gaps := ObjectPriorGaps (co_Properties o)) in *. rewrite !Z.gtb_ltb.
  apply Forall_app; split; [constructor; [|constructor]|apply Forall_app; split].
  - repeat case_match; clear -Hw; loc_lia.
  - destruct (HasObject gaps) eqn:E; simpl; [|constructor]. specialize (Ho eq_refl).
    destruct (Z.ltb_spec 0 (pg_Object gaps)); [|constructor]. constructor; [|constructor].
    unfold wf_range; cbn [Lo Hi]. rewrite !u64_small by (clear -Hw Ho H; loc_lia). clear -Hw Ho H. loc_lia.
  - destruct (HasGroup gaps) eqn:E; simpl; [|constructor]. specialize (Hg eq_refl).
    destruct (Z.ltb_spec 0 (pg_Group gaps)); [|constructor]. constructor; [|constructor].
    unfold wf_range; cbn [Lo Hi]. rewrite !u64_small by (clear -Hw Hg H; loc_lia). clear -Hw Hg H. loc_lia.
Qed.

Lemma known_wf objs : Forall held_ok objs -> Forall wf_range (knownFromCache objs).
Proof. intros H. apply Forall_concat, Forall_fmap. eapply Forall_impl; [exact H|]. exact known_of_wf. Qed.

Lemma known_self objs o : o ∈ objs -> held_ok o -> covers (knownFromCache objs) (co_loc o).
Proof.
  intros Ho Hok. apply covers_concat. rewrite Exists_fmap, Exists_exists. exists o. split; [done|].
  unfold compose, known_of. cbv zeta. apply covers_app. left. apply covers_cons. left.
  destruct Hok as [Hw _]. change (co_loc o) with (MkLoc (co_GroupID o) (co_ObjectID o)) in *.
  repeat case_match; clear -Hw; loc_lia.
Qed.

Lemma holds_spec objs l : holds objs l = true <-> exists o, o ∈ objs /\ co_loc o = l.
Proof.
  unfold holds. rewrite existsb_exists. split.
  - intros (o & Hin & H). apply andb_true_iff in H as [H1 H2]. apply Z.eqb_eq in H1, H2.
    exists o. split; [by apply list_elem_of_In|]. destruct l; unfold co_loc; simpl in *; congruence.
  - intros (o & Hin & <-). exists o. split; [by apply list_elem_of_In|]. simpl. by rewrite !Z.eqb_refl.
Qed.

Lemma holds_false objs l : holds objs l = false <-> forall o, o ∈ objs -> co_loc o <> l.
Proof.
  rewrite <- not_true_iff_false, holds_spec. split; [|naive_solver]. intros H o Ho E. apply H. eauto.
Qed.

Lemma withObjects_ok more : forall objs, Forall held_ok objs -> Forall held_ok more -> NoDup (co_loc <$> objs) ->
  Forall held_ok (withObjects objs more) /\ NoDup (co_loc <$> withObjects objs more).
Proof.
  unfold withObjects. induction more as [|m more IH]; intros objs Ho Hm Hnd; simpl; [done|].
  apply Forall_cons in Hm as [Hm1 Hm]. destruct (holds objs (co_loc m)) eqn:E; [auto|].
  apply IH; [|done|].
  - apply Forall_app. split; [done|]. by constructor.
  - rewrite fmap_app. simpl. apply NoDup_app. split_and!; [done| |apply NoDup_singleton].
    intros l Hl Hl2. apply list_elem_of_singleton in Hl2 as ->. rewrite holds_false in E.
    apply list_elem_of_fmap in Hl as (o & Eo & Hoin). by eapply E.
Qed.

Lemma handedLive_ok objs : Forall held_ok objs -> Forall held_ok (handedLive objs).
Proof. intros H. apply Forall_fmap. eapply Forall_impl; [exact H|]. intros o Ho. simpl. by destruct (_ && _). Qed.

Lemma singles_disjoint (ls : list Location) : NoDup ls -> disjoint_ranges ((fun l => MkRange l l) <$> ls).
Proof.
  unfold disjoint_ranges. induction 1 as [|x ls Hx _ IH]; simpl; constructor; [done|].
  apply Forall_fmap, Forall_forall. intros y Hy l Hl H1 H2. simpl in *. apply Hx.
  assert (x = y) as ->; [|done]. destruct x, y. clear -H1 H2. f_equal; loc_lia.
Qed.

(** What [held_objects] returns: objects at distinct Locations and, apart from
    them, the single Locations still arriving. *)
Record held_state (cached : list CachedObject) (arriving : list LocRange) : Prop := {
  hs_ok : Forall held_ok cached;
  hs_NoDup : NoDup (co_loc <$> cached);
  hs_wf : Forall wf_range arriving;
  hs_disjoint : disjoint_ranges arriving;
  hs_single : Forall (fun r => Lo r = Hi r) arriving;
  hs_apart : forall o, o ∈ cached -> ~ covers arriving (co_loc o)
}.

Lemma held_objects_ok got wait : Forall held_ok got -> NoDup (co_loc <$> got) ->
  (forall handed still, wait = Some (handed, still) ->
     Forall held_ok handed /\ Forall wf_loc still /\ NoDup still) ->
  let '(cached, arriving) := held_objects got wait in held_state cached arriving.
Proof.
  intros Hg Hnd Hw. destruct wait as [[handed still]|]; simpl.
  2: { split; try done; try constructor. intros o _ Hc. by apply covers_nil in Hc. }
  destruct (Hw _ _ eq_refl) as (H1 & H2 & H3).
  destruct (withObjects_ok (handedLive handed) got) as [W1 W2]; [done|by apply handedLive_ok|done|].
  set (cached := withObjects got (handedLive handed)) in *. unfold locRanges.
  set (ls := SortStableFunc _ _). assert (Hp : ls ≡ₚ notHeld still cached) by apply sort_stable_perm.
  assert (Hnh : Forall (fun l => wf_loc l /\ holds cached l = false) ls).
  { rewrite Hp. apply Forall_forall. intros l Hl. apply list_elem_of_In, List.filter_In in Hl as [Hl Hn].
    apply list_elem_of_In in Hl. rewrite Forall_forall in H2. split; [auto|]. by apply negb_true_iff. }
  split; [done|done| | | |].
  - apply Forall_fmap. eapply Forall_impl; [exact Hnh|]. intros l [Hl _]. simpl. clear -Hl. loc_lia.
  - apply singles_disjoint. rewrite Hp. by apply NoDup_ListNoDup, List.NoDup_filter, NoDup_ListNoDup.
  - apply Forall_fmap. by apply Forall_true.
  - intros o Ho Hc. unfold covers in Hc. rewrite Exists_fmap, Exists_exists in Hc.
    destruct Hc as (l & Hl & Hin). rewrite Forall_forall in Hnh. destruct (Hnh l Hl) as [_ Hf].
    rewrite holds_false in Hf. apply (Hf o Ho). unfold compose in Hin. destruct l, (co_loc o).
    clear -Hin. f_equal; loc_lia.
Qed.

(** *** Assembling the response *)

Lemma filter_disjoint (f : LocRange -> bool) rs : disjoint_ranges rs -> disjoint_ranges (List.filter f rs).
Proof.
  unfold disjoint_ranges. induction 1 as [|r l _ IH Hr]; simpl; [constructor|]. destruct (f r); [|done].
  constructor; [done|]. apply Forall_forall. intros x Hx. apply list_elem_of_In, List.filter_In in Hx as [Hx _].
  rewrite Forall_forall in Hr. by apply Hr, list_elem_of_In.
Qed.

Lemma merged_NoDup cached objs : NoDup (co_loc <$> cached) -> NoDup (co_loc <$> objs) ->
  NoDup (co_loc <$> (cached ++ List.filter (fun o => negb (holds cached (co_loc o))) objs)).
Proof.
  intros Hc Ho. rewrite fmap_app. apply NoDup_app. split_and!; [done| |].
  - intros l Hl Hl2. apply list_elem_of_fmap in Hl2 as (o & -> & Hin).
    apply list_elem_of_In, List.filter_In in Hin as [_ Hh]. apply negb_true_iff in Hh.
    rewrite holds_false in Hh. apply list_elem_of_fmap in Hl as (x & E & Hx). by eapply Hh.
  - eapply sublist_NoDup; [exact Ho|]. apply fmap_sublist. clear. induction objs as [|x l IH]; simpl; [done|].
    destruct (negb _); by constructor.
Qed.

Section Stitched.
Context (cached : list CachedObject) (arriving absent : list LocRange) (range : LocRange) (order : Z).
Context (Hst : held_state cached arriving) (Habs : Forall wf_range absent) (Hrange : wf_range range).

(** A response is right: in stream order, with every Object the relay holds, no
    Object from elsewhere, and no gap over a Location that nobody denied. *)
Definition served_ok (sent : CachedObject -> Prop) (denied : Location -> Prop) (elems : list CachedObject) : Prop :=
  stream_sorted order elems /\
  (forall o, o ∈ cached -> status_at order elems (co_loc o) = Present o) /\
  (forall l o, wf_loc l -> status_at order elems l = Present o -> co_loc o = l /\ (o ∈ cached \/ sent o)) /\
  (forall l, wf_loc l -> in_range range l -> status_at order elems l = Absent ->
     covers (knownFromCache cached ++ absent) l \/ denied l).

Lemma unknown_spec : let unknown := unknownIn absent cached (Lo range) (Hi range) arriving in
  Forall wf_range unknown /\ ascending unknown /\
  forall l, wf_loc l -> (covers unknown l <-> in_range range l /\
    ~ covers (knownFromCache cached ++ absent) l /\ ~ covers arriving l).
Proof.
  unfold unknownIn. cbv zeta. rewrite app_assoc.
  destruct (uncovered_parts range ((knownFromCache cached ++ absent) ++ arriving) Hrange) as (W & A & C).
  { apply Forall_app. split; [|apply (hs_wf _ _ Hst)]. apply Forall_app. split; [|done].
    apply known_wf, (hs_ok _ _ Hst). }
  split_and!; [done|done|]. intros l Hl. rewrite C by done. rewrite (covers_app _ arriving). tauto.
Qed.

Lemma cached_unknown_apart o :
  o ∈ cached -> ~ covers (unknownIn absent cached (Lo range) (Hi range) arriving) (co_loc o).
Proof.
  intros Ho. pose proof (hs_ok _ _ Hst) as Hf. rewrite Forall_forall in Hf. pose proof (Hf o Ho) as Hok.
  destruct unknown_spec as (_ & _ & U). rewrite U by apply Hok. intros (_ & H & _). apply H.
  apply covers_app. left. by apply known_self.
Qed.

Lemma cached_plain : Forall (fun o => wf_loc (co_loc o) /\ IsRangeMarker o = false) cached.
Proof. eapply Forall_impl; [apply (hs_ok _ _ Hst)|]. intros o (? & ? & _). done. Qed.

(** Objects with unknown and timed-out ranges that leave no undenied gap. *)
Lemma served_elements sent denied objs unk tmo :
  Forall (fun o => wf_loc (co_loc o) /\ IsRangeMarker o = false) objs -> NoDup (co_loc <$> objs) ->
  Forall wf_range (unk ++ tmo) -> disjoint_ranges (unk ++ tmo) ->
  (forall o, o ∈ objs -> ~ covers (unk ++ tmo) (co_loc o)) ->
  (forall o, o ∈ cached -> o ∈ objs) -> (forall o, o ∈ objs -> o ∈ cached \/ sent o) ->
  (forall l, wf_loc l -> in_range range l -> ~ covers (unk ++ tmo) l -> (forall o, o ∈ objs -> co_loc o <> l) ->
     covers (knownFromCache cached ++ absent) l \/ denied l) ->
  served_ok sent denied (fetchElements objs unk tmo order).
Proof.
  intros H1 H2 H3 H4 H5 Hsub Hsup Hgap.
  destruct (fetchElements_ok objs unk tmo order H1 H2 H3 H4 H5) as [Hs Hst']. split_and!.
  - done.
  - intros o Ho. rewrite Forall_forall in H1. specialize (Hsub o Ho). destruct (H1 o Hsub) as [Hw _].
    by apply (Hst' (co_loc o) Hw).
  - intros l o Hl Hp. apply (Hst' l Hl) in Hp as [Ho E]. auto.
  - intros l Hl Hin Ha. destruct (Hst' l Hl) as (P & U & T). apply Hgap; [done|done| |].
    + rewrite covers_app. intros [H|H]; [apply U in H|apply T in H]; congruence.
    + intros o Ho E. assert (status_at order (fetchElements objs unk tmo order) l = Present o) by (by apply P).
      congruence.
Qed.

(** Nothing usable came from upstream: the unknown Locations are marked. *)
Lemma served_alone sent denied unk tmo : let unknown := unknownIn absent cached (Lo range) (Hi range) arriving in
  unk ++ tmo = unknown ++ arriving -> served_ok sent denied (fetchElements cached unk tmo order).
Proof.
  intros unknown E. destruct unknown_spec as (W & A & U). fold unknown in W, A, U.
  apply served_elements; try rewrite E.
  - apply cached_plain.
  - apply (hs_NoDup _ _ Hst).
  - apply Forall_app. split; [done|apply (hs_wf _ _ Hst)].
  - apply disjoint_app_intro; [by apply ascending_disjoint|apply (hs_disjoint _ _ Hst)|].
    intros l Hl H. by apply U in H as (_ & _ & H).
  - intros o Ho. rewrite covers_app. intros [H|H]; [by apply (cached_unknown_apart o)|by apply (hs_apart _ _ Hst o)].
  - done.
  - by left.
  - intros l Hl Hin Hn _. left. rewrite covers_app, U in Hn by done.
    destruct (decide (covers (knownFromCache cached ++ absent) l)); [done|]. exfalso. apply Hn.
    destruct (decide (covers arriving l)); tauto.
Qed.

Lemma dropHeld_covers objs l : wf_loc l ->
  covers (dropHeld arriving objs) l <-> covers arriving l /\ holds objs l = false.
Proof.
  intros Hl. pose proof (hs_single _ _ Hst) as Hs. rewrite Forall_forall in Hs. unfold covers, dropHeld.
  rewrite !Exists_exists. split.
  - intros (r & Hr & Hin). apply list_elem_of_In, List.filter_In in Hr as [Hr Hh]. apply list_elem_of_In in Hr.
    specialize (Hs r Hr). apply negb_true_iff in Hh. assert (Lo r = l) as <-; [|eauto].
    destruct r as [lo hi], lo, l; simpl in *; subst. clear -Hin. f_equal; loc_lia.
  - intros [(r & Hr & Hin) Hh]. exists r. split; [|done]. apply list_elem_of_In, List.filter_In.
    split; [by apply list_elem_of_In|]. specialize (Hs r Hr). assert (Lo r = l) as ->; [|by rewrite Hh].
    destruct r as [lo hi], lo, l; simpl in *; subst. clear -Hin. f_equal; loc_lia.
Qed.

Lemma span_covers us u v : Forall wf_range (u :: us) -> ascending (u :: us) -> last (u :: us) = Some v ->
  wf_range (MkRange (Lo u) (Hi v)) /\ forall l, covers (u :: us) l -> in_range (MkRange (Lo u) (Hi v)) l.
Proof.
  unfold ascending. revert u. induction us as [|w us IH]; intros u Hw Ha Hl.
  - injection Hl as ->. apply Forall_cons in Hw as [Hw _]. split; [by destruct v|].
    intros l Hc. apply covers_cons in Hc as [Hc|Hc]; [done|by apply covers_nil in Hc].
  - apply Forall_cons in Hw as [Hw Hws]. apply StronglySorted_inv in Ha as [Ha Hu].
    apply Forall_cons in Hu as [Hu _]. destruct (IH w Hws Ha Hl) as [I1 I2]. clear IH.
    split; [clear -Hw Hu I1; loc_lia|]. intros l Hc. apply covers_cons in Hc as [Hc|Hc].
    + clear -Hc Hw Hu I1. loc_lia.
    + specialize (I2 l Hc). clear -I2 Hw Hu. loc_lia.
Qed.

Lemma served_answered sent denied span ans : let unknown := unknownIn absent cached (Lo range) (Hi range) arriving in
  (forall l, covers unknown l -> in_range span l) -> answer_ok span sent denied ans ->
  let merged := cached ++ List.filter (fun o => negb (holds cached (co_loc o))) (a_objs ans) in
  served_ok sent denied (fetchElements merged (intersect (a_unknown ans) unknown)
    (intersect (a_timedOut ans) unknown ++ dropHeld arriving merged) order).
Proof.
  intros unknown Hspan [_ A2 A3 A4 A5 A6 A7 A8] merged.
  destruct unknown_spec as (W & A & U). fold unknown in W, A, U.
  assert (Hmer : forall o, o ∈ merged <-> o ∈ cached \/ (o ∈ a_objs ans /\ holds cached (co_loc o) = false)).
  { intros o. unfold merged. rewrite elem_of_app, !list_elem_of_In, List.filter_In, negb_true_iff. done. }
  assert (Hwf : Forall (fun o => wf_loc (co_loc o) /\ IsRangeMarker o = false) merged).
  { apply Forall_app. split; [apply cached_plain|]. apply Forall_forall. intros o Ho.
    apply list_elem_of_In, List.filter_In in Ho as [Ho _]. apply list_elem_of_In in Ho.
    rewrite Forall_forall in A4. by destruct (A4 o Ho) as (? & _ & ?). }
  apply Forall_app in A2 as [Au At]. destruct (disjoint_app _ _ A3) as (Du & Dt & Dut).
  assert (Hcov : forall l, wf_loc l -> covers (intersect (a_unknown ans) unknown ++
      intersect (a_timedOut ans) unknown ++ dropHeld arriving merged) l <->
    covers (a_unknown ans ++ a_timedOut ans) l /\ covers unknown l \/ covers arriving l /\ holds merged l = false).
  { intros l Hl. rewrite !covers_app, !intersect_covers, dropHeld_covers by done. tauto. }
  assert (Hw' : forall o, o ∈ merged -> wf_loc (co_loc o)).
  { intros o Ho. rewrite Forall_forall in Hwf. by apply Hwf. }
  apply served_elements.
  - done.
  - apply merged_NoDup; [apply (hs_NoDup _ _ Hst)|done].
  - apply Forall_app. split; [by apply intersect_wf|]. apply Forall_app. split; [by apply intersect_wf|].
    apply Forall_forall. intros r Hr. apply list_elem_of_In, List.filter_In in Hr as [Hr _].
    pose proof (hs_wf _ _ Hst) as Hwa. rewrite Forall_forall in Hwa. by apply Hwa, list_elem_of_In.
  - apply disjoint_app_intro; [by apply intersect_disjoint, ascending_disjoint| |].
    + apply disjoint_app_intro; [by apply intersect_disjoint, ascending_disjoint| |].
      * apply filter_disjoint, (hs_disjoint _ _ Hst).
      * intros l Hl. rewrite intersect_covers, dropHeld_covers by done. intros [_ H] [Har _].
        by apply U in H as (_ & _ & H).
    + intros l Hl. rewrite covers_app, !intersect_covers, dropHeld_covers by done.
      intros [H1 H2] [[H3 _]|[H3 _]]; [by eapply Dut|]. by apply U in H2 as (_ & _ & H2).
  - intros o Ho. rewrite Hcov by auto. intros [[H1 H2]|[_ H]].
    + apply Hmer in Ho as [Ho|[Ho _]]; [by apply (cached_unknown_apart o)|]. by apply (A7 o).
    + rewrite holds_false in H. by eapply H.
  - intros o Ho. apply Hmer. by left.
  - intros o Ho. apply Hmer in Ho as [Ho|[Ho _]]; [by left|right]. rewrite Forall_forall in A5. auto.
  - intros l Hl Hin Hn Hno. rewrite Hcov in Hn by done.
    destruct (decide (covers (knownFromCache cached ++ absent) l)) as [|Hk]; [by left|right].
    assert (Hh : holds merged l = false) by (by apply holds_false).
    assert (Hu : covers unknown l) by (apply U; [done|]; split_and!; [done|done|tauto]).
    apply A8; [done|by apply Hspan|tauto|].
    intros o Ho E. destruct (holds cached (co_loc o)) eqn:Eh.
    + apply holds_spec in Eh as (x & Hx & Ex). apply (Hno x); [apply Hmer; by left|congruence].
    + apply (Hno o); [apply Hmer; by right|done].
Qed.
End Stitched.

(** ** Theorems *)

Section Served.
Context (up : option (Params -> reply)) (order : Z).

(** The body of the upstream's response to our FETCH for [span]. *)
Definition answers (span : LocRange) (ok : FetchOK) (rd : Stream) : Prop :=
  exists u x y, up = Some u /\ wf_range span /\ u (upstream_params span order) = ReplyOK ok x (Body rd y).

Definition supplied (o : CachedObject) : Prop :=
  exists span ok rd, answers span ok rd /\ in_range span (co_loc o) /\ supplies order rd o.

Definition denied (l : Location) : Prop :=
  exists span ok rd, answers span ok rd /\ in_range span l /\ denies order ok rd l.

(** FETCH_OK's End Location is a parsed one, and a descending response is not
    capped. *)
Definition uncapped : Prop := forall u span ok x resp, up = Some u ->
  u (upstream_params span order) = ReplyOK ok x resp ->
  wf_loc (EndLocation ok) /\ (order = GroupOrderDescending -> loc_le (Hi span) (EndLocation ok)).
End Served.

Lemma answer_ok_in span sent denied ans : answer_ok span sent denied ans ->
  answer_ok span (fun o => in_range span (co_loc o) /\ sent o) (fun l => in_range span l /\ denied l) ans.
Proof.
  intros [H1 H2 H3 H4 H5 H6 H7 H8]. split; try done; [|auto].
  apply Forall_forall. intros o Ho. rewrite Forall_forall in H4. rewrite Forall_forall in H5.
  destruct (H4 o Ho) as (_ & ? & _). auto.
Qed.

Lemma fetchUpstreamRange_ok known u now span order fill : wf_range span -> uncapped (Some u) order ->
  match fetchUpstreamRange known u now span order fill with
  | Ok ans => failed ans = upstreamUnknown \/ failed ans = upstreamTimedOut \/
      answer_ok span (supplied (Some u) order) (denied (Some u) order) ans
  | Err e => isTrackPropertiesErr e = true \/ errors_Is e ErrMalformedTrack = true
  end.
Proof.
  intros Hspan Hun. unfold fetchUpstreamRange. destruct (fill =? 0); [by right; left|].
  assert (Hf : forall e (x : bool), match (if isTrackPropertiesErr e then Err e
      else if x then Ok (answer0 upstreamTimedOut) else Ok (answer0 upstreamUnknown)) with
    | Ok ans => failed ans = upstreamUnknown \/ failed ans = upstreamTimedOut \/
        answer_ok span (supplied (Some u) order) (denied (Some u) order) ans
    | Err e => isTrackPropertiesErr e = true \/ errors_Is e ErrMalformedTrack = true
    end).
  { intros e x. destruct (isTrackPropertiesErr e) eqn:E; [by left|]. destruct x; auto. }
  cbv zeta. destruct (u _) as [e x|ok x resp] eqn:Eu; [apply Hf|].
  destruct (session_Fetch _ _ _) as [[]|e] eqn:Es; [|apply Hf].
  destruct resp as [| |rd y]; [by right; left|by left|].
  destruct (Hun u span ok x (Body rd y) eq_refl Eu) as [He Hcap].
  assert (Ha : answers (Some u) order span ok rd) by (by exists u, x, y).
  apply session_Fetch_start in Es; [|done].
  pose proof (collect_ok ok span order y now rd Hspan He Es Hcap (S (length (sbytes rd))) [] None
    (NewIncomingFetch rd order) (answer0 upstreamAnswered)) as Hc.
  destruct (collect _ _ _ _ _ _ _ _ _) as [ans|e]; [|right; apply Hc; try done; [simpl; lia|constructor|apply collected_nil]].
  destruct Hc as [->|Hc]; try done; [simpl; lia|constructor|apply collected_nil|by left|].
  do 2 right. apply answer_ok_in in Hc. eapply answer_ok_mono; [| |exact Hc].
  - intros o [Hin Hs]. by exists span, ok, rd.
  - intros l [Hin Hs]. by exists span, ok, rd.
Qed.

(** What a range scan of the entry's cache gives the assembly. *)
Lemma scanned_ok now c range : wf_cache c ->
  (forall o, Get now c (co_GroupID o) (co_ObjectID o) = Some o -> held_ok o) ->
  let got := GetRange now c (Lo range) (Hi range) GroupOrderAscending in
  Forall held_ok got /\ NoDup (co_loc <$> got).
Proof.
  intros Hw Hok got. destruct (GetRange_ok c now (Lo range) (Hi range) GroupOrderAscending Hw) as [Hs Hin].
  fold got in Hs, Hin. split.
  - apply Forall_forall. intros o Ho. apply Hok. by apply Hin.
  - clear -Hs. induction Hs as [|x l _ IH Hx]; simpl; [constructor|]. constructor; [|done].
    intros H. apply list_elem_of_fmap in H as (y & E & Hy). rewrite Forall_forall in Hx. specialize (Hx y Hy).
    rewrite E in Hx. by apply stream_lt_irrefl in Hx.
Qed.

(** A response is assembled from held Objects, the upstream's, and well-formed ranges. *)
Definition assembled_of (cached : list CachedObject) (sent : CachedObject -> Prop) (order : Z) (elems : list CachedObject) : Prop :=
  exists objs unk tmo, elems = fetchElements objs unk tmo order /\ Forall (fun o => o ∈ cached \/ sent o) objs /\ Forall wf_range (unk ++ tmo).

Lemma answered_assembled cached arriving unknown order sent denied span ans : Forall wf_range unknown -> Forall wf_range arriving ->
  answer_ok span sent denied ans ->
  let merged := cached ++ List.filter (fun o => negb (holds cached (co_loc o))) (a_objs ans) in
  assembled_of cached sent order (fetchElements merged (intersect (a_unknown ans) unknown)
    (intersect (a_timedOut ans) unknown ++ dropHeld arriving merged) order).
Proof.
  intros Hu Ha Hok merged. pose proof (ao_wf _ _ _ _ Hok) as Hwf. apply Forall_app in Hwf as [Hwu Hwt].
  eexists merged, _, _. split; [done|]. split.
  - apply Forall_app. split; [apply Forall_forall; by left|]. apply Forall_forall. intros o Ho. right.
    apply list_elem_of_In, List.filter_In in Ho as [Ho _]. pose proof (ao_sent _ _ _ _ Hok) as Hs. rewrite Forall_forall in Hs. by apply Hs, list_elem_of_In.
  - apply Forall_app. split; [by apply intersect_wf|]. apply Forall_app. split; [by apply intersect_wf|].
    apply Forall_forall. intros r Hr. apply list_elem_of_In, List.filter_In in Hr as [Hr _]. rewrite Forall_forall in Ha. by apply Ha, list_elem_of_In.
Qed.

Lemma stitched_assembled clock entry wait range order fill known now up :
  wf_range range -> ledger_wf entry -> wf_cache (t_Cache entry) ->
  (forall o, Get clock (t_Cache entry) (co_GroupID o) (co_ObjectID o) = Some o -> held_ok o) ->
  (forall handed still, wait = Some (handed, still) ->
     Forall held_ok handed /\ Forall wf_loc still /\ NoDup still) ->
  uncapped up order ->
  let got := GetRange clock (t_Cache entry) (Lo range) (Hi range) GroupOrderAscending in
  match stitchedFetchObjects clock entry wait (Lo range) (Hi range) order
          ((fun u span => fetchUpstreamRange known u now span order fill) <$> up) with
  | Ok elems => served_ok (held_objects got wait).1 (KnownAbsent entry) range order
                  (supplied up order) (denied up order) elems /\
                assembled_of (held_objects got wait).1 (supplied up order) order elems
  | Err e => isTrackPropertiesErr e = true \/ errors_Is e ErrMalformedTrack = true
  end.
Proof.
  intros Hr Hent Hcw Hheld Hw Hun got. destruct (scanned_ok clock (t_Cache entry) range Hcw Hheld) as [Hg Hnd].
  pose proof (absent_wf entry Hent) as Habs. unfold stitchedFetchObjects. fold got in Hg, Hnd |- *.
  set (absent := KnownAbsent entry) in *. clearbody absent got.
  pose proof (held_objects_ok got wait Hg Hnd Hw) as Hst.
  destruct (held_objects got wait) as [cached arriving]. cbn [fst].
  pose proof (fun s d => served_alone cached arriving absent range order Hst Habs Hr s d) as Halone.
  destruct (unknown_spec cached arriving absent range Hst Habs Hr) as (W & A & _).
  pose proof (fun s d => served_answered cached arriving absent range order Hst Habs Hr s d) as Hans.
  pose proof (hs_wf _ _ Hst) as Har.
  cbv zeta in *. set (unknown := unknownIn absent cached (Lo range) (Hi range) arriving) in *.
  clearbody unknown.
  assert (Hof : forall unk tmo, unk ++ tmo = unknown ++ arriving -> assembled_of cached (supplied up order) order (fetchElements cached unk tmo order)).
  { intros unk tmo E. exists cached, unk, tmo. split; [done|]. split; [apply Forall_forall; by left|]. rewrite E. by apply Forall_app. }
  destruct unknown as [|u us]; [split; [by apply Halone|by apply Hof]|].
  destruct (last (u :: us)) as [v|] eqn:El; [|by apply last_None in El].
  destruct up as [up|]; cbn [fmap option_fmap option_map]; [|split; [by apply Halone|by apply Hof]].
  destruct (span_covers us u v W A El) as [Hspan Hcov].
  pose proof (fetchUpstreamRange_ok known up now (MkRange (Lo u) (Hi v)) order fill Hspan Hun) as Hup.
  destruct (fetchUpstreamRange _ _ _ _ _ _) as [ans|e]; cbn [mbind result_bind]; [|done].
  destruct Hup as [E|[E|Hok]].
  - rewrite E. split; [by apply Halone|by apply Hof].
  - rewrite E. split; [by apply Halone|by apply Hof].
  - rewrite (ao_answered _ _ _ _ Hok). split; [by eapply Hans|]. by apply answered_assembled with (ans := ans) (denied := denied (Some up) order) (span := MkRange (Lo u) (Hi v)).
Qed.

(** C4: what a relay's FETCH response asserts.  However the upstream behaves, except
    that a descending response must not be capped (its FETCH_OK's End Location lies at
    or above the end of the span asked for, [uncapped]; [capped_descending_unsorted]
    shows that the order is lost otherwise), the response is in stream order; every Object the relay holds (unexpired in
    the cache, or handed over by the wait for in-flight ones) is in it; every
    Object in it is held or was read from the upstream's response inside the span
    asked for; and a Location of the requested range skipped without a marker is
    one the relay knows to be absent (from cached Objects' statuses and gaps, or
    the ledger) or one that the upstream's response, read to a clean FIN, skipped
    without a marker and within its End Location.  The track is refused only for
    its Track Properties or a malformed Object. *)
Theorem stitched_fetch_sound clock entry wait range order fill known now up :
  wf_range range -> ledger_wf entry -> wf_cache (t_Cache entry) ->
  (forall o, Get clock (t_Cache entry) (co_GroupID o) (co_ObjectID o) = Some o -> held_ok o) ->
  (forall handed still, wait = Some (handed, still) ->
     Forall held_ok handed /\ Forall wf_loc still /\ NoDup still) ->
  uncapped up order ->
  let got := GetRange clock (t_Cache entry) (Lo range) (Hi range) GroupOrderAscending in
  match stitchedFetchObjects clock entry wait (Lo range) (Hi range) order
          ((fun u span => fetchUpstreamRange known u now span order fill) <$> up) with
  | Ok elems => served_ok (held_objects got wait).1 (KnownAbsent entry) range order
                  (supplied up order) (denied up order) elems
  | Err e => isTrackPropertiesErr e = true \/ errors_Is e ErrMalformedTrack = true
  end.
Proof.
  intros Hr Hent Hcw Hheld Hw Hun got. pose proof (stitched_assembled clock entry wait range order fill known now up Hr Hent Hcw Hheld Hw Hun) as H.
  fold got in H. destruct (stitchedFetchObjects _ _ _ _ _ _ _); [|done]. by destruct H.
Qed.

(** An upstream that answers every FETCH with the given elements. *)
Definition sample_upstream (stop : Location) (elems : list CachedObject) (ps : Params) : reply :=
  ReplyOK (MkFetchOK false stop [] []) false
    (Body (MkStream (fetch_wire (streamFetchObjects ok_writes elems None).1.1) Fin) false).

Lemma stitched_fetch_sound_witness :
  let up := sample_upstream (MkLoc 2 5) [sample_cached 1 2; unknownRangeMarker (MkLoc 1 3); sample_cached 2 1] in
  let entry := ledger0 (Put 7 (Some (sample_cached 1 0)) (NewObjectCache 4 0)) in
  let r := stitchedFetchObjects 8 entry (Some ([], [MkLoc 1 4])) (MkLoc 1 0) (MkLoc 2 5)
    GroupOrderAscending (Some (fun span => fetchUpstreamRange ∅ up (fun _ => 9) span GroupOrderAscending 100)) in
  exists elems, r = Ok elems /\
    co_loc <$> elems = [MkLoc 1 0; MkLoc 1 2; MkLoc 1 3; MkLoc 1 4; MkLoc 2 1] /\
    served_ok [sample_cached 1 0] [] (MkRange (MkLoc 1 0) (MkLoc 2 5)) GroupOrderAscending
      (supplied (Some up) GroupOrderAscending) (denied (Some up) GroupOrderAscending) elems.
Proof.
  intros up entry r. pose proof (stitched_fetch_sound 8 entry (Some ([], [MkLoc 1 4]))
    (MkRange (MkLoc 1 0) (MkLoc 2 5)) GroupOrderAscending 100 ∅ (fun _ => 9) (Some up)) as H.
  change (stitchedFetchObjects _ _ _ _ _ _ _) with r in H.
  destruct r as [elems|e] eqn:E; [|vm_compute in E; discriminate E].
  exists elems. split; [reflexivity|]. split.
  - vm_compute in E. injection E as <-. reflexivity.
  - apply H.
    + unfold wf_range; simpl. split_and!; by_decide.
    + apply ledger0_wf.
    + apply insertLocked_wf, NewObjectCache_wf.
    + intros o Ho. apply Get_ring in Ho.
      change (ring (t_Cache entry)) with [Some (sample_cached 1 0); None; None; None] in Ho.
      rewrite !elem_of_cons, elem_of_nil in Ho. destruct Ho as [Ho|[Ho|[Ho|[Ho|[]]]]]; try discriminate Ho.
      injection Ho as ->. split; [by_decide|]. split; reflexivity.
    + intros handed still [= <- <-]. split_and!; by_decide || constructor.
    + intros u span ok x resp [= <-] [= <- _ _]. split; [by_decide|discriminate].
Defined.

(** The condition on descending responses is needed.  When the upstream caps
    its End Location in a descending response that opens with an End of Timed-Out
    Range marker, the Locations past the End Location are recorded both as timed
    out and as unknown, and the response assembled from them carries two markers
    at one Location: it is not in stream order. *)
Theorem capped_descending_unsorted :
  let up := sample_upstream (MkLoc 3 7) [timedOutRangeMarker (MkLoc 3 7)] in
  exists elems, stitchedFetchObjects 8 (ledger0 (NewObjectCache 4 0)) None (MkLoc 1 0) (MkLoc 5 9) GroupOrderDescending
      (Some (fun span => fetchUpstreamRange ∅ up (fun _ => 9) span GroupOrderDescending 100)) = Ok elems /\
    take 2 (co_loc <$> elems) = [MkLoc 5 9; MkLoc 5 9] /\ ~ stream_sorted GroupOrderDescending elems.
Proof.
  intros up. eexists. split; [vm_compute; reflexivity|]. split; [reflexivity|].
  intros H. apply StronglySorted_inv in H as [_ H]. apply Forall_cons in H as [H _].
  by apply stream_lt_irrefl in H.
Qed.
