(* ===== verification/Tokens.v ===== *)
(** * Tokens: authorization tokens

    [pkg/moqt/message/token.go] (the Token structure and its parameter),
    [pkg/moqt/session/token_cache.go] (the alias cache of one direction of a
    session) and [token_verify.go] (processing the tokens of requests and of
    SETUP, the verifier, and the sender's replay of its peer's cache).

    A failed call leaves the cache as the tokens before it made it, so the
    operations return the cache beside their result.  The application's verifier
    is a parameter. *)

From stdpp Require Import gmap.
From S2P Require Import Prelude Codes Varint Wire KV Filter Params Properties RangeFilter Messages.

(** ** The Token structure *)

Definition AliasTypeDelete : Z := 0.
Definition AliasTypeRegister : Z := 1.
Definition AliasTypeUseAlias : Z := 2.
Definition AliasTypeUseValue : Z := 3.

Record Token : Type := MkToken { AliasType : Z; TokenAlias : Z; TokenType : Z; TokenValue : bytes }.
#[global] Instance Token_eq_dec : EqDecision Token.
Proof. solve_decision. Defined.

Definition Token_Append (w : Writer) (t : Token) : Writer :=
  let w := w_Varint w (AliasType t) in
  if AliasType t =? AliasTypeDelete then w_Varint w (TokenAlias t)
  else if AliasType t =? AliasTypeRegister
  then w_FixedBytes (w_Varint (w_Varint w (TokenAlias t)) (TokenType t)) (TokenValue t)
  else if AliasType t =? AliasTypeUseAlias then w_Varint w (TokenAlias t)
  else if AliasType t =? AliasTypeUseValue then w_FixedBytes (w_Varint w (TokenType t)) (TokenValue t)
  else w.

Definition Token_Bytes (t : Token) : bytes := Token_Append [] t.

(** The [switch] of [Token.Parse]. *)
Definition token_fields (at' : Z) : M Reader Token :=
  if at' =? AliasTypeDelete then
    alias ← wrap_err (Wrapf "token alias (DELETE)") r_Varint; mret (MkToken at' alias 0 [])
  else if at' =? AliasTypeRegister then
    alias ← wrap_err (Wrapf "token alias (REGISTER)") r_Varint;
    tokenType ← wrap_err (Wrapf "token type (REGISTER)") r_Varint;
    v ← r_RemainingBytes; mret (MkToken at' alias tokenType v)
  else if at' =? AliasTypeUseAlias then
    alias ← wrap_err (Wrapf "token alias (USE_ALIAS)") r_Varint; mret (MkToken at' alias 0 [])
  else if at' =? AliasTypeUseValue then
    tokenType ← wrap_err (Wrapf "token type (USE_VALUE)") r_Varint;
    v ← r_RemainingBytes; mret (MkToken at' 0 tokenType v)
  else fail (Errorf "unknown token alias type").

Definition no_trailing (t : Token) : M Reader Token := fun r =>
  if 0 <? Remaining r then Err (Errorf "trailing bytes after token alias") else Ok (t, r).

Definition token_parse : M Reader Token :=
  at' ← wrap_err (Wrapf "token alias type") r_Varint; t ← token_fields at'; no_trailing t.

Definition Token_Parse (raw : bytes) : result Token := fst <$> token_parse (NewReader raw).

Definition AuthorizationTokenParam (t : Token) : Param := BytesParam ParamAuthorizationToken (Token_Bytes t).

Fixpoint TokensFromParam (ps : Params) : result (list Token) :=
  match ps with
  | [] => Ok []
  | p :: ps' =>
      if negb (p_Type p =? ParamAuthorizationToken) then TokensFromParam ps'
      else t ← map_err (Wrapf "AUTHORIZATION_TOKEN") (Token_Parse (p_Bytes p));
           ts ← TokensFromParam ps'; Ok (t :: ts)
  end.

(** ** The alias cache *)

Record tokenCacheEntry : Type := MkCacheEntry { ce_tokenType : Z; ce_value : bytes; ce_size : Z }.
Record TokenCache : Type := MkTokenCache {
  tc_maxSize : Z; tc_used : Z; tc_entries : gmap Z tokenCacheEntry }.

Definition NewTokenCache (maxSize : Z) : TokenCache := MkTokenCache maxSize 0 ∅.

Definition Register (alias tokenType : Z) (value : bytes) (c : TokenCache) : result unit * TokenCache :=
  let size := u64 (16 + len value) in
  match tc_entries c !! alias with
  | Some _ => (Err (Wrapf "token alias already registered" (ErrSession SessionDuplicateAuthTokenAlias)), c)
  | None =>
      if tc_maxSize c =? 0
      then (Err (Wrapf "token alias registration prohibited" (ErrSession SessionAuthTokenCacheOverflow)), c)
      else if u64 (tc_used c + size) >? tc_maxSize c
      then (Err (Wrapf "token cache overflow" (ErrSession SessionAuthTokenCacheOverflow)), c)
      else (Ok tt, MkTokenCache (tc_maxSize c) (u64 (tc_used c + size))
                     (<[alias := MkCacheEntry tokenType value size]> (tc_entries c)))
  end.

Definition token_Delete (alias : Z) (c : TokenCache) : result unit * TokenCache :=
  match tc_entries c !! alias with
  | None => (Err (Wrapf "token alias not registered" (ErrSession SessionUnknownAuthTokenAlias)), c)
  | Some e => (Ok tt, MkTokenCache (tc_maxSize c) (u64 (tc_used c - ce_size e)) (delete alias (tc_entries c)))
  end.

Definition Resolve (alias : Z) (c : TokenCache) : result (Z * bytes) :=
  match tc_entries c !! alias with
  | None => Err (Wrapf "token alias not registered" (ErrSession SessionUnknownAuthTokenAlias))
  | Some e => Ok (ce_tokenType e, ce_value e)
  end.

Definition sessionCodeForCacheErr (e : error) : Z :=
  match List.find (fun c => errors_Is e (ErrSession c))
          [SessionDuplicateAuthTokenAlias; SessionAuthTokenCacheOverflow; SessionUnknownAuthTokenAlias] with
  | Some c => c
  | None => SessionMalformedAuthToken
  end.

(** ** Processing tokens *)

Record ResolvedToken : Type := MkResolved { rt_Type : Z; rt_Value : bytes }.

Definition cache_err (e : error) : error := ErrTokenCache (sessionCodeForCacheErr e).

(** [Ok None]: a DELETE, which resolves to nothing. *)
Definition applyToken (t : Token) (c : TokenCache) : result (option ResolvedToken) * TokenCache :=
  if AliasType t =? AliasTypeRegister then
    match Register (TokenAlias t) (TokenType t) (TokenValue t) c with
    | (Err e, c) => (Err (cache_err e), c)
    | (Ok _, c) => (Ok (Some (MkResolved (TokenType t) (TokenValue t))), c)
    end
  else if AliasType t =? AliasTypeUseAlias then
    match Resolve (TokenAlias t) c with
    | Err e => (Err (cache_err e), c)
    | Ok (typ, val) => (Ok (Some (MkResolved typ val)), c)
    end
  else if AliasType t =? AliasTypeUseValue then (Ok (Some (MkResolved (TokenType t) (TokenValue t))), c)
  else if AliasType t =? AliasTypeDelete then
    match token_Delete (TokenAlias t) c with
    | (Err e, c) => (Err (cache_err e), c)
    | (Ok _, c) => (Ok None, c)
    end
  else (Ok None, c).

Fixpoint apply_tokens (ts : list Token) (c : TokenCache) : result (list ResolvedToken) * TokenCache :=
  match ts with
  | [] => (Ok [], c)
  | t :: ts' =>
      match applyToken t c with
      | (Err e, c) => (Err e, c)
      | (Ok tok, c) => let '(r, c) := apply_tokens ts' c in ((fun l => option_list tok ++ l) <$> r, c)
      end
  end.

Definition processRequestTokens (msg : Message) (c : TokenCache) : result (list ResolvedToken) * TokenCache :=
  match ParamsOf msg with
  | None => (Ok [], c)
  | Some ps =>
      match TokensFromParam ps with
      | Err _ => (Err (ErrTokenCache SessionKeyValueFormattingError), c)
      | Ok tokens => apply_tokens tokens c
      end
  end.

(** The [TokenDeniedError] an error wraps, if any; its code, 0 standing for
    UNAUTHORIZED. *)
Fixpoint as_denied (e : error) : option Z :=
  match e with
  | ErrTokenDenied code => Some code
  | Wrapf _ e' => as_denied e'
  | Wrapf2 _ e1 e2 => match as_denied e1 with Some c => Some c | None => as_denied e2 end
  | _ => None
  end.
Definition RequestErrorCode (code : Z) : Z := if code =? 0 then RequestUnauthorized else code.

Fixpoint verify_loop (verify : ResolvedToken -> option error) (toks : list ResolvedToken) : result unit :=
  match toks with
  | [] => Ok tt
  | tok :: toks' =>
      match verify tok with
      | Some e => Err (ErrTokenDenied (default RequestUnauthorized (as_denied e)))
      | None => verify_loop verify toks'
      end
  end.
Definition VerifyTokens (verifier : option (ResolvedToken -> option error)) (toks : list ResolvedToken) : result unit :=
  match verifier with None => Ok tt | Some v => verify_loop v toks end.

(** ** Tokens in SETUP *)

Inductive role : Type := roleClient | roleServer.
#[global] Instance role_eq_dec : EqDecision role.
Proof. solve_decision. Defined.

Definition SetupOptionPath : Z := 1.
Definition SetupOptionAuthorizationToken : Z := 3.
Definition SetupOptionMaxAuthTokenCache : Z := 4.
Definition SetupOptionAuthority : Z := 5.
Definition SetupOptionMaxFilterRanges : Z := 6.
Definition SetupOptionMOQTImplementation : Z := 7.
Definition SetupOptionMaxRequestUpdates : Z := 8.

Definition setup_token (r : role) (raw : bytes) (c : TokenCache) : result (option ResolvedToken) * TokenCache :=
  match Token_Parse raw with
  | Err _ => (Err (ErrTokenCache SessionKeyValueFormattingError), c)
  | Ok t =>
      if bool_decide (r = roleServer) && ((AliasType t =? AliasTypeDelete) || (AliasType t =? AliasTypeUseAlias))
      then (Err (ErrTokenCache SessionProtocolViolation), c)
      else
        match applyToken t c with
        | (Err e, c) =>
            if (AliasType t =? AliasTypeRegister) && bool_decide (e = ErrTokenCache SessionAuthTokenCacheOverflow)
            then (Ok (Some (MkResolved (TokenType t) (TokenValue t))), c)
            else (Err e, c)
        | (Ok tok, c) => (Ok tok, c)
        end
  end.

Fixpoint processSetupTokens (r : role) (peerOptions : list KVPair) (c : TokenCache)
    : result (list ResolvedToken) * TokenCache :=
  match peerOptions with
  | [] => (Ok [], c)
  | opt :: opts =>
      if negb (kv_Type opt =? SetupOptionAuthorizationToken) then processSetupTokens r opts c
      else
        match setup_token r (kv_ByteVal opt) c with
        | (Err e, c) => (Err e, c)
        | (Ok tok, c) => let '(res, c) := processSetupTokens r opts c in ((fun l => option_list tok ++ l) <$> res, c)
        end
  end.

Fixpoint check_setup_loop (registered : list Z) (toks : list Token) : result unit :=
  match toks with
  | [] => Ok tt
  | t :: toks' =>
      if AliasType t =? AliasTypeRegister then
        if bool_decide (TokenAlias t ∈ registered)
        then Err (Errorf "AUTHORIZATION TOKEN setup option registers an alias twice")
        else check_setup_loop (registered ++ [TokenAlias t]) toks'
      else if AliasType t =? AliasTypeUseValue then check_setup_loop registered toks'
      else Err (Errorf "AUTHORIZATION TOKEN setup option")
  end.
Definition checkOutboundSetupTokens (toks : list Token) : result unit := check_setup_loop [] toks.

(** The limit the peer advertised: its last MAX_AUTH_TOKEN_CACHE_SIZE, 0 without one. *)
Definition cache_limit (peerOptions : list KVPair) : Z :=
  fold_left (fun limit opt => if kv_Type opt =? SetupOptionMaxAuthTokenCache then kv_IntVal opt else limit) peerOptions 0.

Fixpoint held_loop (limit used : Z) (toks : list Token) : list Z :=
  match toks with
  | [] => []
  | t :: toks' =>
      if negb (AliasType t =? AliasTypeRegister) then held_loop limit used toks'
      else
        let size := u64 (16 + len (TokenValue t)) in
        if u64 (used + size) >? limit then held_loop limit used toks'
        else TokenAlias t :: held_loop limit (u64 (used + size)) toks'
  end.
Definition heldSetupAliases (toks : list Token) (peerOptions : list KVPair) : list Z :=
  held_loop (cache_limit peerOptions) 0 toks.

(** The option [WithSetupToken] appends. *)
Definition token_option (t : Token) : KVPair := MkKV SetupOptionAuthorizationToken 0 (Token_Bytes t).

(** ** The codec *)

(** A token with only the fields its Alias Type carries. *)
Definition wf_token (t : Token) : Prop :=
  ((AliasType t = AliasTypeDelete \/ AliasType t = AliasTypeUseAlias) /\
     is_u64 (TokenAlias t) /\ TokenType t = 0 /\ TokenValue t = []) \/
  (AliasType t = AliasTypeRegister /\ is_u64 (TokenAlias t) /\ is_u64 (TokenType t)) \/
  (AliasType t = AliasTypeUseValue /\ TokenAlias t = 0 /\ is_u64 (TokenType t)).
#[global] Instance wf_token_dec t : Decision (wf_token t).
Proof. unfold wf_token. apply _. Defined.

Lemma no_trailing_end t : decodes_end (no_trailing t) [] t.
Proof.
  intros r Hl Hr. unfold no_trailing. rewrite <- rest_length, Hr by done. simpl. do 3 f_equal.
  destruct r as [b o]. unfold r_end; simpl in *. f_equal. unfold rest in Hr; simpl in Hr.
  apply (f_equal length) in Hr. rewrite length_drop in Hr. simpl in Hr. lia.
Qed.

(** Reading the token, then checking that nothing is left. *)
Lemma trailing_after (p : M Reader Token) e t :
  decodes_end p e t -> decodes_end (p ≫= no_trailing) e t.
Proof.
  intros Hp r Hl Hr. rewrite (M_bind_Ok _ _ _ _ _ (Hp r Hl Hr)). refine (no_trailing_end t (r_end r) _ _).
  - simpl. lia.
  - unfold rest, r_end; simpl. by rewrite drop_all.
Qed.

(** Decide the comparisons of Alias Types. *)
Ltac alias_types :=
  repeat match goal with
  | |- context [?a =? ?b] => let v := eval vm_compute in (a =? b) in change (a =? b) with v
  end; cbv iota.

Lemma decodes_token t : wf_token t -> decodes_end token_parse (Token_Bytes t) t.
Proof.
  unfold wf_token. intros Ht. unfold token_parse, Token_Bytes, Token_Append. destruct t as [at' alias typ v].
  cbn [AliasType TokenAlias TokenType TokenValue] in *.
  destruct Ht as [([-> | ->] & Ha & -> & ->)|[(-> & Ha & Hty)|(-> & -> & Hty)]]; alias_types;
    rewrite ?w_FixedBytes_app, !w_Varint_app, <- ?app_assoc, app_nil_l;
    (eapply decodes_end_bind; [apply decodes_wrap, r_decodes_Varint; by_decide|]); apply trailing_after;
    unfold token_fields; alias_types;
    try (rewrite <- (app_nil_r (e_Varint alias));
      eapply decodes_end_bind; [by apply decodes_wrap, r_decodes_Varint|]; apply decodes_end_of, decodes_ret);
    repeat (eapply decodes_end_bind; [by apply decodes_wrap, r_decodes_Varint|]);
    intros r Hl Hr; by rewrite (M_bind_Ok _ _ _ _ _ (decodes_end_RemainingBytes _ r Hl Hr)).
Qed.

Lemma Token_Parse_Bytes t : wf_token t -> Token_Parse (Token_Bytes t) = Ok t.
Proof. intros Ht. unfold Token_Parse. by rewrite (decodes_NewReader _ _ _ (decodes_token t Ht)). Qed.

Lemma r_RemainingBytes_len r v r' : r_wf r -> r_RemainingBytes r = Ok (v, r') -> go_len v.
Proof.
  intros [Hg Ho]. unfold r_RemainingBytes. case_match; intros [= <- _]; [done|].
  unfold go_len, len in *. rewrite length_drop. lia.
Qed.

Lemma token_fields_wf at' r t r' : r_wf r -> token_fields at' r = Ok (t, r') -> wf_token t /\ go_len (TokenValue t).
Proof.
  intros Hr. unfold token_fields, wf_token.
  destruct (Z.eqb_spec at' AliasTypeDelete) as [->|?]; [|destruct (Z.eqb_spec at' AliasTypeRegister) as [->|?];
    [|destruct (Z.eqb_spec at' AliasTypeUseAlias) as [->|?];
    [|destruct (Z.eqb_spec at' AliasTypeUseValue) as [->|?]; [|done]]]]; intros H; mpeel; simplify_eq/=.
  - apply r_Varint_snd in H0 as [? _]; [|done]. split; [|done]. left. eauto.
  - apply r_Varint_snd in H0 as [? Hw]; [|done]. apply r_Varint_snd in H1 as [? Hw2]; [|done].
    split; [|by eapply r_RemainingBytes_len]. right. left. eauto.
  - apply r_Varint_snd in H0 as [? _]; [|done]. split; [|done]. left. eauto.
  - apply r_Varint_snd in H0 as [? Hw]; [|done]. split; [|by eapply r_RemainingBytes_len]. right. right. eauto.
Qed.

Lemma Token_Parse_wf raw t : go_len raw -> Token_Parse raw = Ok t -> wf_token t /\ go_len (TokenValue t).
Proof.
  intros Hraw H. unfold Token_Parse in H. destruct (token_parse (NewReader raw)) as [[t0 r0]|] eqn:E; [|done].
  simpl in H. simplify_eq. unfold token_parse in E. mpeel.
  assert (Hr : r_wf (NewReader raw)) by (split; simpl; [done|lia]).
  apply r_Varint_snd in H as [_ Hr']; [|done].
  unfold no_trailing in E. case_match; simplify_eq. eapply token_fields_wf; [exact Hr'|eassumption].
Qed.

Lemma plain_token_parse : plain_errs token_parse.
Proof.
  assert (Hn : forall t, plain_errs (no_trailing t)).
  { intros t r e. unfold no_trailing. case_match; [by intros [= <-]|done]. }
  unfold token_parse, token_fields. plain_tac.
Qed.

(** The token codec.  Every token with the fields its Alias Type carries is read
    back exactly; whatever is accepted is such a token; a refusal is an ordinary
    error. *)
Theorem token_codec t raw : go_len raw ->
  (wf_token t -> Token_Parse (Token_Bytes t) = Ok t) /\
  (forall t', Token_Parse raw = Ok t' -> wf_token t' /\ Token_Parse (Token_Bytes t') = Ok t') /\
  (forall e, Token_Parse raw = Err e -> plain e = true).
Proof.
  intros Hraw. split_and!; [apply Token_Parse_Bytes|..].
  - intros t' H. apply Token_Parse_wf in H as [H _]; [|done]. split; [done|]. by apply Token_Parse_Bytes.
  - intros e. unfold Token_Parse. destruct (token_parse (NewReader raw)) eqn:E; [done|].
    intros [= <-]. by eapply plain_token_parse.
Qed.

Lemma token_codec_witness :
  let t := MkToken AliasTypeRegister 7 1 [x41] in
  Token_Parse (Token_Bytes t) = Ok t /\ Token_Parse [x00; x07; x09] = Err (Errorf "trailing bytes after token alias").
Proof.
  intros t. split; [|reflexivity]. destruct (token_codec t [x00] ltac:(by_decide)) as [H _]. apply H. by_decide.
Defined.

(** ** The cache refines a map with a byte budget *)

Abbreviation token_map := (gmap Z (Z * bytes)).
Definition entry_size (v : Z * bytes) : Z := 16 + len v.2.
Definition total (m : token_map) : Z := map_fold (fun _ v acc => entry_size v + acc) 0 m.

(** What processing one token means: the aliases held and the budget. *)
Definition spec_token (max : Z) (t : Token) (m : token_map) : result (option ResolvedToken) * token_map :=
  if AliasType t =? AliasTypeRegister then
    if bool_decide (is_Some (m !! TokenAlias t)) then (Err (ErrTokenCache SessionDuplicateAuthTokenAlias), m)
    else if total m + 16 + len (TokenValue t) <=? max
    then (Ok (Some (MkResolved (TokenType t) (TokenValue t))), <[TokenAlias t := (TokenType t, TokenValue t)]> m)
    else (Err (ErrTokenCache SessionAuthTokenCacheOverflow), m)
  else if AliasType t =? AliasTypeUseValue then (Ok (Some (MkResolved (TokenType t) (TokenValue t))), m)
  else
    match m !! TokenAlias t with
    | None => (Err (ErrTokenCache SessionUnknownAuthTokenAlias), m)
    | Some (typ, v) =>
        if AliasType t =? AliasTypeUseAlias then (Ok (Some (MkResolved typ v)), m)
        else (Ok None, delete (TokenAlias t) m)
    end.

Fixpoint spec_tokens (max : Z) (ts : list Token) (m : token_map) : result (list ResolvedToken) * token_map :=
  match ts with
  | [] => (Ok [], m)
  | t :: ts' =>
      match spec_token max t m with
      | (Err e, m) => (Err e, m)
      | (Ok tok, m) => let '(r, m) := spec_tokens max ts' m in ((fun l => option_list tok ++ l) <$> r, m)
      end
  end.

Definition abs (c : TokenCache) : token_map := (fun e => (ce_tokenType e, ce_value e)) <$> tc_entries c.

(** The largest cache for which a total cannot wrap, whatever the token. *)
Definition max_budget : Z := 2 ^ 63 - 16.

Record cache_inv (max : Z) (c : TokenCache) : Prop := {
  ci_max : tc_maxSize c = max;
  ci_used : tc_used c = total (abs c);
  ci_fits : total (abs c) <= max;
  ci_sizes : forall a e, tc_entries c !! a = Some e -> ce_size e = 16 + len (ce_value e) }.

Lemma total_nonneg m : 0 <= total m.
Proof.
  apply (map_fold_weak_ind (fun acc _ => 0 <= acc)); [done|]. intros k v m' acc _ H.
  unfold entry_size. pose proof (len_nonneg v.2). lia.
Qed.

Lemma total_insert m k v : m !! k = None -> total (<[k := v]> m) = entry_size v + total m.
Proof. intros Hk. unfold total. rewrite map_fold_insert_L; [done|intros; lia|done]. Qed.

Lemma total_delete m k v : m !! k = Some v -> total (delete k m) = total m - entry_size v.
Proof.
  intros Hk. rewrite <- (insert_delete_id m k v) at 2 by done. rewrite total_insert by apply lookup_delete_eq. lia.
Qed.

Lemma abs_lookup c a : abs c !! a = (fun e => (ce_tokenType e, ce_value e)) <$> (tc_entries c !! a).
Proof. apply lookup_fmap. Qed.

Lemma abs_register c m u a t v s :
  abs (MkTokenCache m u (<[a := MkCacheEntry t v s]> (tc_entries c))) = <[a := (t, v)]> (abs c).
Proof. unfold abs; simpl. by rewrite fmap_insert. Qed.
Lemma abs_delete c m u a : abs (MkTokenCache m u (delete a (tc_entries c))) = delete a (abs c).
Proof. unfold abs; simpl. by rewrite fmap_delete. Qed.

Lemma apply_token_refines max t c : 0 <= max <= max_budget -> wf_token t -> go_len (TokenValue t) -> cache_inv max c ->
  spec_token max t (abs c) = ((applyToken t c).1, abs (applyToken t c).2) /\ cache_inv max (applyToken t c).2.
Proof.
  intros Hmax Ht Hlen [H1 H2 H3 H4]. pose proof (total_nonneg (abs c)) as Hpos. unfold go_len, max_budget in *.
  pose proof (len_nonneg (TokenValue t)) as Hl.
  unfold spec_token, applyToken, Register, token_Delete, Resolve. rewrite !abs_lookup.
  destruct (Z.eqb_spec (AliasType t) AliasTypeRegister) as [_|Hr].
  - destruct (tc_entries c !! TokenAlias t) as [e|] eqn:E; simpl; [by split|].
    assert (Hs : u64 (16 + len (TokenValue t)) = 16 + len (TokenValue t)) by (apply u64_small; zlia).
    rewrite Hs, H1, H2. rewrite (u64_small (total (abs c) + _)) by zlia. rewrite Z.gtb_ltb, Z.leb_antisym.
    destruct (Z.eqb_spec max 0) as [->|Hm]; simpl.
    { rewrite (proj2 (Z.ltb_lt _ _)) by lia. simpl. done. }
    rewrite <- Z.add_assoc. destruct (Z.ltb_spec max (total (abs c) + (16 + len (TokenValue t)))); simpl; [done|].
    rewrite abs_register. split; [done|].
    assert (Ht' : total (<[TokenAlias t := (TokenType t, TokenValue t)]> (abs c)) = total (abs c) + (16 + len (TokenValue t))).
    { rewrite total_insert by (by rewrite abs_lookup, E). unfold entry_size; simpl. lia. }
    split; rewrite ?abs_register; simpl; [done|done|lia|].
    intros a e. rewrite lookup_insert_Some. intros [[<- <-]|[_ ?]]; [done|eauto].
  - destruct (Z.eqb_spec (AliasType t) AliasTypeUseAlias) as [Hu|Hu].
    + rewrite Hu. simpl. destruct (tc_entries c !! TokenAlias t) as [e|]; simpl; by split.
    + destruct (Z.eqb_spec (AliasType t) AliasTypeUseValue) as [Hv|Hv]; [by split|].
      assert (Hd : AliasType t = AliasTypeDelete) by (unfold wf_token in Ht; naive_solver). rewrite Hd. simpl.
      destruct (tc_entries c !! TokenAlias t) as [e|] eqn:E; simpl; [|by split].
      assert (Htd : total (delete (TokenAlias t) (abs c)) = total (abs c) - ce_size e).
      { rewrite (total_delete _ _ (ce_tokenType e, ce_value e)) by (by rewrite abs_lookup, E).
        unfold entry_size; simpl. by rewrite (H4 _ _ E). }
      pose proof (total_nonneg (delete (TokenAlias t) (abs c))) as Hnn.
      assert (Hsz : 16 <= ce_size e) by (rewrite (H4 _ _ E); pose proof (len_nonneg (ce_value e)); lia).
      rewrite abs_delete. split; [done|]. split; rewrite ?abs_delete; simpl; [done| |lia|].
      * rewrite H2, Htd. apply u64_small. zlia.
      * intros a e'. rewrite lookup_delete_Some. intros [_ ?]. eauto.
Qed.

Lemma apply_tokens_refines max ts : 0 <= max <= max_budget ->
  forall c, Forall (fun t => wf_token t /\ go_len (TokenValue t)) ts -> cache_inv max c ->
  spec_tokens max ts (abs c) = ((apply_tokens ts c).1, abs (apply_tokens ts c).2) /\
  cache_inv max (apply_tokens ts c).2.
Proof.
  intros Hmax. induction ts as [|t ts IH]; intros c Hts Hc; simpl; [done|]. apply Forall_cons in Hts as [[Ht Hl] Hts].
  destruct (apply_token_refines max t c Hmax Ht Hl Hc) as [H1 H2]. rewrite H1.
  destruct (applyToken t c) as [[tok|e] c1]; simpl in *; [|done].
  destruct (IH c1 Hts H2) as [H3 H4]. rewrite H3. destruct (apply_tokens ts c1) as [r c2]; simpl in *. done.
Qed.

Lemma new_cache_inv max : 0 <= max -> cache_inv max (NewTokenCache max).
Proof.
  intros. unfold NewTokenCache. split; simpl; [done|..].
  - unfold abs; simpl. by rewrite fmap_empty.
  - unfold abs; simpl. rewrite fmap_empty. done.
  - intros a e. by rewrite lookup_empty.
Qed.

(** *** Whole requests *)

(** The requests of a session in the order they are accepted, until one of them
    closes it. *)
Fixpoint process_requests (msgs : list Message) (c : TokenCache) : result (list (list ResolvedToken)) * TokenCache :=
  match msgs with
  | [] => (Ok [], c)
  | m :: msgs' =>
      match processRequestTokens m c with
      | (Err e, c) => (Err e, c)
      | (Ok l, c) => let '(r, c) := process_requests msgs' c in (cons l <$> r, c)
      end
  end.

Fixpoint spec_requests (max : Z) (msgs : list Message) (m : token_map) : result (list (list ResolvedToken)) * token_map :=
  match msgs with
  | [] => (Ok [], m)
  | msg :: msgs' =>
      match TokensFromParam (default [] (ParamsOf msg)) with
      | Err _ => (Err (ErrTokenCache SessionKeyValueFormattingError), m)
      | Ok ts =>
          match spec_tokens max ts m with
          | (Err e, m) => (Err e, m)
          | (Ok l, m) => let '(r, m) := spec_requests max msgs' m in (cons l <$> r, m)
          end
      end
  end.

Definition sized_params (msg : Message) : Prop :=
  Forall (fun p => go_len (p_Bytes p)) (default [] (ParamsOf msg)).

Lemma TokensFromParam_wf ps ts : Forall (fun p => go_len (p_Bytes p)) ps -> TokensFromParam ps = Ok ts ->
  Forall (fun t => wf_token t /\ go_len (TokenValue t)) ts.
Proof.
  revert ts. induction ps as [|p ps IH]; intros ts Hps; simpl; [by intros [= <-]|].
  apply Forall_cons in Hps as [Hp Hps]. case_match; simpl; [by apply IH|].
  destruct (Token_Parse (p_Bytes p)) as [t|] eqn:E; simpl; [|done].
  destruct (TokensFromParam ps) as [l|] eqn:El; simpl; [|done]. intros [= <-].
  constructor; [by eapply Token_Parse_wf|]. by apply IH.
Qed.

Lemma process_requests_refines max msgs : 0 <= max <= max_budget ->
  forall c, Forall sized_params msgs -> cache_inv max c ->
  spec_requests max msgs (abs c) = ((process_requests msgs c).1, abs (process_requests msgs c).2) /\
  cache_inv max (process_requests msgs c).2.
Proof.
  intros Hmax. induction msgs as [|msg msgs IH]; intros c Hs Hc; simpl; [done|]. apply Forall_cons in Hs as [Hm Hs].
  unfold processRequestTokens, sized_params in *. destruct (ParamsOf msg) as [ps|]; simpl in *.
  2: { destruct (IH c Hs Hc) as [-> Hi]. by destruct (process_requests msgs c). }
  destruct (TokensFromParam ps) as [ts|] eqn:Et; [|done].
  destruct (apply_tokens_refines max ts Hmax c (TokensFromParam_wf _ _ Hm Et) Hc) as [H1 H2]. rewrite H1.
  destruct (apply_tokens ts c) as [[l|e] c1]; simpl in *; [|done].
  destruct (IH c1 Hs H2) as [-> Hi]. by destruct (process_requests msgs c1).
Qed.

(** C31: the alias cache refines a plain map with a byte budget.  Over any sequence
    of requests, up to the first that closes the session, the cache resolves every
    token as the map does and fails with the same session code: a repeated REGISTER
    as a duplicate, one beyond the budget as an overflow, an alias that is not held
    as unknown.  Its byte count is the exact total of what it holds and never
    exceeds the advertised size. *)
Theorem token_cache_refines max msgs : 0 <= max <= max_budget -> Forall sized_params msgs ->
  let '(r, c) := process_requests msgs (NewTokenCache max) in
  spec_requests max msgs ∅ = (r, abs c) /\ tc_used c = total (abs c) /\ tc_used c <= max.
Proof.
  intros Hmax Hs. destruct (process_requests_refines max msgs Hmax (NewTokenCache max) Hs) as [H1 H2].
  { apply new_cache_inv. lia. }
  destruct (process_requests msgs (NewTokenCache max)) as [r c]. simpl in *. destruct H2 as [H2 H3 H4 _].
  split_and!; [|done|lia]. rewrite <- H1. unfold abs; simpl. by rewrite fmap_empty.
Qed.

Definition sample_request (ts : list Token) : Message :=
  MSubscribeNamespace (MkSubscribeNamespace 0 [] (AuthorizationTokenParam <$> ts)).

Lemma token_cache_refines_witness :
  let msgs := [sample_request [MkToken AliasTypeRegister 7 1 [x41]]; sample_request [MkToken AliasTypeUseAlias 7 0 []];
               sample_request [MkToken AliasTypeRegister 8 1 [x42]]] in
  (process_requests (take 2 msgs) (NewTokenCache 20)).1 = Ok [[MkResolved 1 [x41]]; [MkResolved 1 [x41]]] /\
  (process_requests msgs (NewTokenCache 20)).1 = Err (ErrTokenCache SessionAuthTokenCacheOverflow) /\
  let '(r, c) := process_requests msgs (NewTokenCache 20) in tc_used c = total (abs c) /\ tc_used c <= 20.
Proof.
  intros msgs. split; [vm_compute; reflexivity|]. split; [vm_compute; reflexivity|].
  pose proof (token_cache_refines 20 msgs ltac:(unfold max_budget; lia) ltac:(by repeat constructor)) as H.
  destruct (process_requests msgs (NewTokenCache 20)) as [r c]. destruct H as (_ & H1 & H2). split; [exact H1|exact H2].
Defined.

(** ** SETUP: both ends agree on the aliases held *)

Definition resolved (t : Token) : ResolvedToken := MkResolved (TokenType t) (TokenValue t).
Definition is_token_option (o : KVPair) : bool := kv_Type o =? SetupOptionAuthorizationToken.

(** What the sender's replay has to know of the receiver's cache. *)
Record replay_inv (limit used : Z) (registered : list Z) (c : TokenCache) : Prop := {
  ri_max : tc_maxSize c = limit;
  ri_used : tc_used c = used;
  ri_zero : limit = 0 -> used = 0;
  ri_seen : forall a, is_Some (tc_entries c !! a) -> a ∈ registered }.

(** One token of SETUP at the receiver, beside the sender's check and replay. *)
Lemma setup_token_step r t c limit used registered :
  wf_token t -> go_len (TokenValue t) -> replay_inv limit used registered c -> 0 <= limit ->
  check_setup_loop registered [t] = Ok tt ->
  let size := u64 (16 + len (TokenValue t)) in
  let keep := (AliasType t =? AliasTypeRegister) && negb (u64 (used + size) >? limit) in
  let c' := if keep then MkTokenCache limit (u64 (used + size))
                           (<[TokenAlias t := MkCacheEntry (TokenType t) (TokenValue t) size]> (tc_entries c)) else c in
  setup_token r (Token_Bytes t) c = (Ok (Some (resolved t)), c') /\
  held_loop limit used [t] = (if keep then [TokenAlias t] else []) /\
  replay_inv limit (if keep then u64 (used + size) else used)
    (if AliasType t =? AliasTypeRegister then registered ++ [TokenAlias t] else registered) c' /\
  (keep = true -> tc_entries c !! TokenAlias t = None).
Proof.
  intros Hw Hl [R1 R2 R3 R4] Hlim. unfold setup_token, resolved. rewrite Token_Parse_Bytes by done. simpl.
  destruct (Z.eqb_spec (AliasType t) AliasTypeRegister) as [Ht|Ht]; simpl.
  - case_bool_decide as Hin; [done|]. intros _. rewrite Ht, andb_false_r.
    assert (Hnone : tc_entries c !! TokenAlias t = None).
    { apply eq_None_not_Some. intros Hs. by apply Hin, R4. }
    unfold applyToken, Register. rewrite Ht, Hnone. simpl. rewrite R1, R2.
    set (size := u64 (16 + len (TokenValue t))).
    assert (Hs : 16 <= size <= MaxUint64).
    { unfold size. rewrite u64_small; unfold go_len in Hl; pose proof (len_nonneg (TokenValue t)); zlia. }
    destruct (Z.eqb_spec limit 0) as [->|Hz].
    { specialize (R3 eq_refl) as ->. rewrite (u64_small (0 + size)) by zlia. rewrite Z.gtb_ltb, (proj2 (Z.ltb_lt _ _)) by lia.
      simpl. split_and!; [done|done| |done]. split; [done..|]. intros a Ha. apply elem_of_app. left. auto. }
    destruct (u64 (used + size) >? limit); simpl.
    + split_and!; [done|done| |done]. split; [done..|]. intros a Ha. apply elem_of_app. left. auto.
    + split_and!; [done|done| |done]. split; simpl; [done|done|done|]. intros a. rewrite lookup_insert_is_Some.
      rewrite elem_of_app, list_elem_of_singleton. intros [->|[_ ?]]; [by right|left; auto].
  - destruct (Z.eqb_spec (AliasType t) AliasTypeUseValue) as [Hv|Hv]; [|done]. intros _. rewrite Hv, andb_false_r. simpl.
    unfold applyToken. rewrite Hv. simpl. by split_and!.
Qed.

Lemma check_setup_cons registered t toks : check_setup_loop registered (t :: toks) = Ok tt ->
  check_setup_loop registered [t] = Ok tt /\
  check_setup_loop (if AliasType t =? AliasTypeRegister then registered ++ [TokenAlias t] else registered) toks = Ok tt.
Proof. simpl. repeat case_match; try done. Qed.

Lemma held_cons limit used t toks : held_loop limit used (t :: toks) =
  held_loop limit used [t] ++
  held_loop limit (if (AliasType t =? AliasTypeRegister) && negb (u64 (used + u64 (16 + len (TokenValue t))) >? limit)
                   then u64 (used + u64 (16 + len (TokenValue t))) else used) toks.
Proof. simpl. destruct (AliasType t =? AliasTypeRegister); simpl; [|done]. by destruct (_ >? limit). Qed.

(** No alias of a checked list is registered twice. *)
Lemma check_setup_fresh toks : forall registered t, check_setup_loop registered toks = Ok tt -> t ∈ toks ->
  AliasType t = AliasTypeRegister -> TokenAlias t ∉ registered.
Proof.
  induction toks as [|t0 toks IH]; intros registered t Hc Hin Ht; [by apply elem_of_nil in Hin|].
  destruct (check_setup_cons _ _ _ Hc) as [H1 H2]. apply elem_of_cons in Hin as [->|Hin].
  - simpl in H1. rewrite Ht in H1. simpl in H1. by case_bool_decide.
  - intros Hr. apply (IH _ t H2 Hin Ht). case_match; [|done]. apply elem_of_app. by left.
Qed.

Lemma held_registered limit toks : forall used a, a ∈ held_loop limit used toks ->
  exists t, t ∈ toks /\ AliasType t = AliasTypeRegister /\ TokenAlias t = a.
Proof.
  induction toks as [|t toks IH]; intros used a; simpl; [by intros ?%elem_of_nil|].
  destruct (Z.eqb_spec (AliasType t) AliasTypeRegister) as [Ht|Ht]; simpl.
  - case_match.
    + intros (t' & ? & ?)%IH. exists t'. split; [by right|done].
    + intros [->|(t' & ? & ?)%IH]%elem_of_cons; [exists t; split; [by left|done]|exists t'; split; [by right|done]].
  - intros (t' & ? & ?)%IH. exists t'. split; [by right|done].
Qed.

Lemma setup_replay r opts : forall toks c limit used registered,
  List.filter is_token_option opts = token_option <$> toks ->
  Forall (fun t => wf_token t /\ go_len (TokenValue t)) toks -> replay_inv limit used registered c -> 0 <= limit ->
  check_setup_loop registered toks = Ok tt ->
  exists c', processSetupTokens r opts c = (Ok (resolved <$> toks), c') /\
    (forall a, is_Some (tc_entries c' !! a) <-> is_Some (tc_entries c !! a) \/ a ∈ held_loop limit used toks) /\
    (forall a e, tc_entries c !! a = Some e -> tc_entries c' !! a = Some e) /\
    (forall t, t ∈ toks -> AliasType t = AliasTypeRegister -> TokenAlias t ∈ held_loop limit used toks ->
       Resolve (TokenAlias t) c' = Ok (TokenType t, TokenValue t)).
Proof.
  induction opts as [|o opts IH]; intros toks c limit used registered Hf Hw Hc Hlim Hchk.
  { destruct toks; [|done]. exists c. split_and!; [done| |done|by intros ? ?%elem_of_nil].
    intros a. simpl. rewrite elem_of_nil. naive_solver. }
  cbn [List.filter processSetupTokens] in *. change (kv_Type o =? SetupOptionAuthorizationToken) with (is_token_option o).
  destruct (is_token_option o); cbn [negb] in *; [|by eapply IH].
  destruct toks as [|t toks]; [done|]. simpl in Hf. injection Hf as -> Hf. apply Forall_cons in Hw as [[Ht Hl] Hw].
  destruct (check_setup_cons _ _ _ Hchk) as [Hc1 Hc2].
  destruct (setup_token_step r t c limit used registered Ht Hl Hc Hlim Hc1) as (E1 & E2 & Hi & Hnew).
  rewrite held_cons, E2. set (keep := (AliasType t =? AliasTypeRegister) && _) in *.
  set (c1 := if keep then _ else c) in *.
  cbn [kv_ByteVal token_option]. rewrite E1.
  destruct (IH toks c1 _ _ _ Hf Hw Hi Hlim Hc2) as (c' & -> & D1 & D2 & D3). exists c'.
  assert (Hfresh : AliasType t = AliasTypeRegister -> forall t', t' ∈ toks -> AliasType t' = AliasTypeRegister ->
    TokenAlias t' <> TokenAlias t).
  { intros Hr t' Hin Hr' Heq. apply (check_setup_fresh _ _ _ Hc2 Hin Hr'). rewrite Hr. simpl. rewrite Heq.
    apply elem_of_app. right. by apply list_elem_of_singleton. }
  split_and!; [done| | |].
  - intros a. rewrite D1, elem_of_app. unfold c1. destruct keep; simpl; rewrite ?lookup_insert_is_Some, ?elem_of_nil,
      ?list_elem_of_singleton; [|naive_solver].
    destruct (decide (TokenAlias t = a)); naive_solver.
  - intros a e He. apply D2. unfold c1. destruct keep; simpl; [|done]. rewrite lookup_insert_ne; [done|].
    intros <-. by rewrite Hnew in He.
  - intros t' Hin Hr. apply elem_of_cons in Hin as [->|Hin].
    + rewrite elem_of_app. intros [Hk|Hk].
      * unfold Resolve. destruct keep eqn:Ek; [|by apply elem_of_nil in Hk].
        rewrite (D2 (TokenAlias t) (MkCacheEntry (TokenType t) (TokenValue t) (u64 (16 + len (TokenValue t))))); [done|].
        unfold c1; simpl. apply lookup_insert_eq.
      * destruct (held_registered _ _ _ _ Hk) as (t' & Hin & Hr' & Heq). by destruct (Hfresh Hr t' Hin Hr').
    + rewrite elem_of_app. intros [Hk|Hk]; [|by apply D3].
      unfold keep in Hk. destruct (AliasType t =? AliasTypeRegister) eqn:Er; [|by apply elem_of_nil in Hk].
      apply Z.eqb_eq in Er. exfalso. apply (Hfresh Er t' Hin Hr).
      destruct (negb _); [by apply list_elem_of_singleton in Hk|by apply elem_of_nil in Hk].
Qed.

(** After SETUP the two ends agree on the token aliases.  For the tokens a
    sender lets into its SETUP, whatever other options surround them, the receiver
    accepts them all and resolves each; the aliases its cache then holds are exactly
    those the sender computed from the size the receiver advertised, each bound to
    the token the sender registered.  A registration that does not fit is used
    once and forgotten by both. *)
Theorem setup_aliases_agree r toks opts receiverOptions :
  Forall (fun t => wf_token t /\ go_len (TokenValue t)) toks -> checkOutboundSetupTokens toks = Ok tt ->
  List.filter is_token_option opts = token_option <$> toks ->
  0 <= cache_limit receiverOptions ->
  exists c, processSetupTokens r opts (NewTokenCache (cache_limit receiverOptions)) = (Ok (resolved <$> toks), c) /\
    (forall a, is_Some (tc_entries c !! a) <-> a ∈ heldSetupAliases toks receiverOptions) /\
    (forall t, t ∈ toks -> AliasType t = AliasTypeRegister -> TokenAlias t ∈ heldSetupAliases toks receiverOptions ->
       Resolve (TokenAlias t) c = Ok (TokenType t, TokenValue t)).
Proof.
  intros Hw Hchk Hf Hlim.
  destruct (setup_replay r opts toks (NewTokenCache (cache_limit receiverOptions)) (cache_limit receiverOptions) 0 [] Hf Hw)
    as (c & H1 & H2 & _ & H3);
    [split; [done..|]; simpl; intros a; rewrite lookup_empty; by intros []|done|done|].
  exists c. split_and!; [done| |done]. intros a. rewrite H2. simpl. rewrite lookup_empty.
  split; [intros [Hs|?]; [by destruct Hs|done]|by right].
Qed.

Lemma setup_aliases_agree_witness :
  let toks := [MkToken AliasTypeRegister 7 1 [x41]; MkToken AliasTypeRegister 8 1 [x42]; MkToken AliasTypeUseValue 0 2 [x43]] in
  let limits := [MkKV SetupOptionMaxAuthTokenCache 20 []] in
  heldSetupAliases toks limits = [7] /\
  exists c, processSetupTokens roleServer (MkKV SetupOptionPath 0 [x2f] :: (token_option <$> toks)) (NewTokenCache 20) =
      (Ok [MkResolved 1 [x41]; MkResolved 1 [x42]; MkResolved 2 [x43]], c) /\
    forall a, is_Some (tc_entries c !! a) <-> a ∈ heldSetupAliases toks limits.
Proof.
  intros toks limits. split; [vm_compute; reflexivity|].
  destruct (setup_aliases_agree roleServer toks (MkKV SetupOptionPath 0 [x2f] :: (token_option <$> toks)) limits)
    as (c & H1 & H2 & _); [repeat constructor; by_decide|vm_compute; reflexivity|vm_compute; reflexivity|by_decide|].
  exists c. split; [exact H1|exact H2].
Defined.
