(* ===== verification/Session.v ===== *)
(** * Session: the state one MoQT session keeps

    [pkg/moqt/session/session.go] (closing, Request ID allocation), [request.go]
    (accepting requests, Request ID checks, REQUEST_UPDATE limits, redirects,
    rejections), [trackalias.go], [goaway.go], [control.go] and [reserved.go].

    The parts of a [Session] that share no field are records of their own, with the
    operations on them; [Session] puts them together.  Each operation is the code
    between taking and releasing the session's lock, or a sequence of such pieces
    where the source releases the lock in between and nothing depends on it.  An
    operation that fails keeps the state it has built, as closing a session and
    registering a token persist; [sess] is the monad for that. *)

From stdpp Require Import gmap sorting.
From S2P Require Import Prelude Codes Varint Wire KV Track Filter Params Properties RangeFilter Messages Tokens.
From S2P Require Import Objects Streams Cache FetchRanges FetchServe Ledger Stitch.

(** ** What is done to a request stream

    [marshal_events wok m] is what [message.Marshal(stream, m)] leaves: nothing
    when the message does not encode or the transport refuses the write ([wok] is
    [false]). *)
Inductive req_event : Type :=
| RqMsg (m : Message)
| RqClose
| RqCancelRead (code : Z)
| RqCancelWrite (code : Z)
| RqDiscard.

Definition marshal_events (wok : bool) (m : Message) : option (list req_event) :=
  match Marshal [] m with
  | Ok _ => if wok then Some [RqMsg m] else None
  | Err _ => None
  end.

Definition resetStream : list req_event :=
  [RqCancelRead StreamResetInternalError; RqCancelWrite StreamResetInternalError].
Definition cancelRequest : list req_event :=
  [RqCancelRead StreamResetCancelled; RqCancelWrite StreamResetCancelled].

(** ** Closing *)

Record ClosedError : Type := MkClosed { cl_Code : Z; cl_Remote : bool }.
(** [cs_conn] is the code the connection was closed with. *)
Record CloseState : Type := MkClose { cs_done : bool; cs_err : option ClosedError; cs_conn : option Z }.

Definition terminate (cause : option ClosedError) (code : Z) (c : CloseState) : CloseState :=
  if cs_done c then c else MkClose true cause (Some code).
Definition Close (code : Z) (c : CloseState) : CloseState :=
  terminate (if code =? SessionNoError then None else Some (MkClosed code false)) code c.

Fixpoint as_peer_closed (e : error) : option Z :=
  match e with
  | ErrPeerClosed code => Some code
  | Wrapf _ e' => as_peer_closed e'
  | Wrapf2 _ e1 e2 => match as_peer_closed e1 with Some c => Some c | None => as_peer_closed e2 end
  | _ => None
  end.
Definition closeOnTransport (e : error) (code : Z) (c : CloseState) : CloseState :=
  match as_peer_closed e with
  | Some pc => terminate (Some (MkClosed pc true)) pc c
  | None => Close code c
  end.

(** ** Peer Request IDs *)

Definition maxTrackedRequestIDGaps : Z := 1024.

Record RequestIDs : Type := MkRIDs { rid_seen : bool; rid_max : Z; rid_gaps : gset Z }.

Definition evictLowestGapsLocked (gaps : gset Z) (n : Z) : gset Z :=
  let ids := merge_sort Z.le (elements gaps) in
  gaps ∖ list_to_set (take (Z.to_nat n) ids).

(** The [newGaps] IDs below [rid], newest first. *)
Fixpoint gap_ids (rid : Z) (n : nat) : list Z :=
  match n with O => [] | S n' => u64 (rid - 2) :: gap_ids (u64 (rid - 2)) n' end.

Definition recordRequestIDGapsLocked (rid : Z) (peerMustBeEven : bool) (r : RequestIDs) : RequestIDs :=
  let lo := if rid_seen r then u64 (rid_max r + 2) else if peerMustBeEven then 0 else 1 in
  if rid <=? lo then r
  else
    let d := (rid - lo) / 2 in
    let newGaps := if d <? maxTrackedRequestIDGaps then d else maxTrackedRequestIDGaps in
    let excess := Z.of_nat (base.size (rid_gaps r)) + newGaps - maxTrackedRequestIDGaps in
    let gaps := if 0 <? excess then evictLowestGapsLocked (rid_gaps r) excess else rid_gaps r in
    MkRIDs (rid_seen r) (rid_max r) (gaps ∪ list_to_set (gap_ids rid (Z.to_nat newGaps))).

Definition CheckPeerRequestID (ro : role) (rid : Z) (r : RequestIDs) : result unit * RequestIDs :=
  let peerMustBeEven := bool_decide (ro = roleServer) in
  if peerMustBeEven && negb (rid mod 2 =? 0) then (Err (ErrRequestIDParity rid), r)
  else if negb peerMustBeEven && negb (rid mod 2 =? 1) then (Err (ErrRequestIDParity rid), r)
  else if negb (rid_seen r) || (rid >? rid_max r)
  then (Ok tt, MkRIDs true rid (rid_gaps (recordRequestIDGapsLocked rid peerMustBeEven r)))
  else if bool_decide (rid ∈ rid_gaps r)
  then (Ok tt, MkRIDs (rid_seen r) (rid_max r) (rid_gaps r ∖ {[rid]}))
  else (Err (ErrDuplicateRequestID rid), r).

(** ** Outstanding REQUEST_UPDATEs *)

Record RequestUpdateLimiter : Type := MkLimiter { lim_limit : Z; lim_outstanding : Z }.
Definition Received (l : RequestUpdateLimiter) : result unit * RequestUpdateLimiter :=
  if negb (lim_limit l =? 0) && (lim_outstanding l >=? lim_limit l)
  then (Err (ErrTooManyRequestUpdates (lim_limit l)), l)
  else (Ok tt, MkLimiter (lim_limit l) (u64 (lim_outstanding l + 1))).
Definition Responded (l : RequestUpdateLimiter) : RequestUpdateLimiter :=
  MkLimiter (lim_limit l) (u64 (lim_outstanding l - 1)).

(** ** Inbound track aliases *)

Record InboundTrack : Type := MkInbound { in_Key : Key; in_DefaultPublisherPriority : Z; in_MaxCacheDuration : option Z }.
Record AliasTable : Type := MkAliases { at_tracks : gmap Z InboundTrack; at_refs : gmap Z Z }.

Definition inbound_of (key : Key) (trackProperties : bytes) : InboundTrack :=
  MkInbound key (TrackDefaultPublisherPriority trackProperties) (TrackMaxCacheDuration trackProperties).

Definition registerInboundTrack (alias : Z) (inb : InboundTrack) (t : AliasTable) : result unit * AliasTable :=
  match at_tracks t !! alias with
  | Some existing =>
      if bool_decide (in_Key existing = in_Key inb)
      then (Ok tt, MkAliases (<[alias := inb]> (at_tracks t)) (<[alias := default 0 (at_refs t !! alias) + 1]> (at_refs t)))
      else (Err (ErrDuplicateTrackAlias alias), t)
  | None => (Ok tt, MkAliases (<[alias := inb]> (at_tracks t)) (<[alias := 1]> (at_refs t)))
  end.

Definition UnregisterInboundTrackAlias (alias : Z) (t : AliasTable) : AliasTable :=
  let n := default 0 (at_refs t !! alias) in
  if n >? 1 then MkAliases (at_tracks t) (<[alias := n - 1]> (at_refs t))
  else MkAliases (delete alias (at_tracks t)) (delete alias (at_refs t)).

Definition LookupInboundTrack (alias : Z) (t : AliasTable) : option InboundTrack := at_tracks t !! alias.
Definition LookupInboundTrackAlias (alias : Z) (t : AliasTable) : option Key := in_Key <$> LookupInboundTrack alias t.

(** ** GOAWAY

    A handler is a number; [ga_calls] records the goroutines started for handlers. *)
Record GoawayState : Type := MkGoawayState {
  ga_received : option Goaway; ga_sent : bool; ga_handler : option Z; ga_fired : bool; ga_calls : list (Z * Goaway) }.

Definition call_handler (h : option Z) (g : Goaway) : list (Z * Goaway) := match h with Some h => [(h, g)] | None => [] end.

Definition OnGoaway (handler : option Z) (s : GoawayState) : GoawayState :=
  match ga_received s with
  | Some g =>
      if negb (ga_fired s)
      then MkGoawayState (ga_received s) (ga_sent s) (ga_handler s) true (ga_calls s ++ call_handler handler g)
      else MkGoawayState (ga_received s) (ga_sent s) handler (ga_fired s) (ga_calls s)
  | None => MkGoawayState (ga_received s) (ga_sent s) handler (ga_fired s) (ga_calls s)
  end.

Definition checkGoawayURI (ro : role) (m : Goaway) : result unit :=
  if bool_decide (ro = roleServer) && (0 <? len (NewSessionURI m))
  then Err (Errorf "GOAWAY from client carries non-empty URI") else Ok tt.

Definition handleGoaway (ro : role) (m : Goaway) (s : GoawayState) : result unit * GoawayState :=
  match ga_received s with
  | Some _ => (Err (Errorf "duplicate GOAWAY on control stream"), s)
  | None =>
      match checkGoawayURI ro m with
      | Err e => (Err e, s)
      | Ok _ =>
          let fire := bool_decide (is_Some (ga_handler s)) && negb (ga_fired s) in
          (Ok tt, MkGoawayState (Some m) (ga_sent s) (ga_handler s) (ga_fired s || fire)
                    (ga_calls s ++ if fire then call_handler (ga_handler s) m else []))
      end
  end.

(** The message queued for the control stream; [timeout] in nanoseconds. *)
Definition SendGoaway (ro : role) (timeout : Z) (newURI : bytes) (s : GoawayState) : result Goaway * GoawayState :=
  if bool_decide (ro = roleClient) && negb (len newURI =? 0)
  then (Err (Errorf "client MUST send a zero-length New Session URI in GOAWAY"), s)
  else if ga_sent s then (Err (Errorf "GOAWAY already sent"), s)
  else (Ok (MkGoaway newURI (u64 (Z.quot timeout 1000000))),
        MkGoawayState (ga_received s) true (ga_handler s) (ga_fired s) (ga_calls s)).

(** ** The session *)

Record Session : Type := MkSession {
  s_role : role; s_knownMandatory : gset Z; s_maxRequestUpdates : Z;
  s_nextRequestID : Z; s_nextAlias : Z;
  s_close : CloseState; s_rids : RequestIDs; s_aliases : AliasTable; s_goaway : GoawayState; s_tokens : TokenCache }.

Definition set_close (s : Session) (c : CloseState) : Session :=
  MkSession (s_role s) (s_knownMandatory s) (s_maxRequestUpdates s) (s_nextRequestID s) (s_nextAlias s) c (s_rids s)
    (s_aliases s) (s_goaway s) (s_tokens s).
Definition set_rids (s : Session) (r : RequestIDs) : Session :=
  MkSession (s_role s) (s_knownMandatory s) (s_maxRequestUpdates s) (s_nextRequestID s) (s_nextAlias s) (s_close s) r
    (s_aliases s) (s_goaway s) (s_tokens s).
Definition set_aliases (s : Session) (t : AliasTable) : Session :=
  MkSession (s_role s) (s_knownMandatory s) (s_maxRequestUpdates s) (s_nextRequestID s) (s_nextAlias s) (s_close s)
    (s_rids s) t (s_goaway s) (s_tokens s).
Definition set_goaway (s : Session) (g : GoawayState) : Session :=
  MkSession (s_role s) (s_knownMandatory s) (s_maxRequestUpdates s) (s_nextRequestID s) (s_nextAlias s) (s_close s)
    (s_rids s) (s_aliases s) g (s_tokens s).
Definition set_tokens (s : Session) (c : TokenCache) : Session :=
  MkSession (s_role s) (s_knownMandatory s) (s_maxRequestUpdates s) (s_nextRequestID s) (s_nextAlias s) (s_close s)
    (s_rids s) (s_aliases s) (s_goaway s) c.
Definition set_next (s : Session) (id alias : Z) : Session :=
  MkSession (s_role s) (s_knownMandatory s) (s_maxRequestUpdates s) id alias (s_close s) (s_rids s) (s_aliases s)
    (s_goaway s) (s_tokens s).

(** What [open] builds before the handshake, given the token-cache size and the
    other limits of its options. *)
Definition new_session (ro : role) (known : gset Z) (maxTokenCache maxUpdates : Z) : Session :=
  MkSession ro known maxUpdates (if decide (ro = roleServer) then 1 else 0) 0 (MkClose false None None)
    (MkRIDs false 0 ∅) (MkAliases ∅ ∅) (MkGoawayState None false None false []) (NewTokenCache maxTokenCache).

Definition AllocRequestID (s : Session) : Z * Session :=
  let n := u64 (s_nextRequestID s + 2) in (u64 (n - 2), set_next s n (s_nextAlias s)).
Definition AllocOutboundTrackAlias (s : Session) : Z * Session :=
  let n := u64 (s_nextAlias s + 1) in (n, set_next s (s_nextRequestID s) n).
Definition NewRequestUpdateLimiter (s : Session) : RequestUpdateLimiter := MkLimiter (s_maxRequestUpdates s) 0.

Definition close_session (code : Z) (s : Session) : Session := set_close s (Close code (s_close s)).

(** Fallible operations on a session. *)
Definition sess (A : Type) : Type := Session -> result A * Session.
#[global] Instance sess_ret : MRet sess := fun A a s => (Ok a, s).
#[global] Instance sess_bind : MBind sess := fun A B f m s => match m s with (Ok a, s) => f a s | (Err e, s) => (Err e, s) end.

Definition sfail {A} (e : error) : sess A := fun s => (Err e, s).
(** [s.Close(code, err.Error()); return err]. *)
Definition fail_closing {A} (code : Z) (e : error) : sess A := fun s => (Err e, close_session code s).
Definition closeProtocolViolation {A} (e : error) : sess A := fail_closing SessionProtocolViolation e.
(** Run a check and close the session with what it reports. *)
Definition or_close {A} (code : Z) (r : result A) : sess A := match r with Ok a => mret a | Err e => fail_closing code e end.

Definition sess_checkTrackPropertyValues (raw : bytes) : sess unit :=
  or_close SessionProtocolViolation (checkTrackPropertyValues raw).
Definition known_properties (raw : bytes) : sess unit := fun s =>
  match ValidateTrackProperties raw (s_knownMandatory s) with Ok _ => (Ok tt, s) | Err e => (Err e, s) end.
Definition sess_validateTrackProperties (raw : bytes) : sess unit :=
  _ ← sess_checkTrackPropertyValues raw; known_properties raw.

Definition RegisterInboundTrack (alias : Z) (key : Key) (props : bytes) : sess unit := fun s =>
  match registerInboundTrack alias (inbound_of key props) (s_aliases s) with
  | (Ok _, t) => (Ok tt, set_aliases s t)
  | (Err e, t) => fail_closing SessionDuplicateTrackAlias e (set_aliases s t)
  end.
Definition s_Unregister (alias : Z) (s : Session) : Session :=
  set_aliases s (UnregisterInboundTrackAlias alias (s_aliases s)).

Definition s_CheckPeerRequestID (rid : Z) : sess unit := fun s =>
  let '(r, ids) := CheckPeerRequestID (s_role s) rid (s_rids s) in (r, set_rids s ids).

Definition CheckPeerParams (scope : Z) (m : Message) : sess unit :=
  match ParamsOf m with
  | None => mret tt
  | Some ps =>
      match CheckScope ps scope with
      | Ok _ => mret tt
      | Err e => if errors_Is e ErrValueFormatting then fail_closing SessionKeyValueFormattingError e
                 else closeProtocolViolation e
      end
  end.

Definition s_processRequestTokens (m : Message) : sess (list ResolvedToken) := fun s =>
  let '(r, c) := processRequestTokens m (s_tokens s) in (r, set_tokens s c).
(** [if tce is a *TokenCacheError { s.Close(tce.Code, ...) }]. *)
Definition close_on_token_error {A} (e : error) : sess A :=
  match e with ErrTokenCache code => fail_closing code e | _ => sfail e end.
Definition tokens_or_close (m : Message) : sess (list ResolvedToken) := fun s =>
  match s_processRequestTokens m s with (Err e, s) => close_on_token_error e s | r => r end.

(** *** The control stream after SETUP *)
Definition dispatchControl (m : Message) : sess unit := fun s =>
  match m with
  | MGoaway g => let '(r, ga) := handleGoaway (s_role s) g (s_goaway s) in (r, set_goaway s ga)
  | MSetup _ => sfail (Errorf "duplicate SETUP on control stream") s
  | _ => sfail (Errorf "unexpected message on control stream") s
  end.

(** One turn of [controlRecvLoop]: [true] when the loop goes on.  [cause] is what
    [closeOnControlLoss] learns from the connection while it waits. *)
Definition controlRecv (parsed : result Message) (cause : option error) (s : Session) : bool * Session :=
  match parsed with
  | Err e =>
      if cs_done (s_close s) then (false, s)
      else (false, set_close s (closeOnTransport (match as_peer_closed e with Some _ => e | None => default e cause end)
                                  SessionProtocolViolation (s_close s)))
  | Ok m =>
      match dispatchControl m s with
      | (Ok _, s) => (true, s)
      | (Err e, s) => if cs_done (s_close s) then (false, s) else (false, close_session SessionProtocolViolation s)
      end
  end.

(** ** Rejections and redirects *)

(** [rej] is a [RequestRejectedError]; its text is dropped. *)
Record RequestRejectedError : Type := MkRejected {
  rej_Code : Z; rej_Reason : bytes; rej_RetryInterval : Z; rej_Redirect : option Redirect }.

Definition namespace_scoped (req : Z) : bool :=
  (req =? TypeSubscribeNamespace) || (req =? TypePublishNamespace) || (req =? TypeSubscribeTracks).

Definition redirectViolation (rd : option Redirect) (req : Z) (atServer : bool) : result unit :=
  match rd with
  | None => Ok tt
  | Some rd =>
      if atServer && (0 <? len (ConnectURI rd)) then Err (Errorf "a Redirect with a Connect URI at a server")
      else if (0 <? len (rd_TrackName rd)) && namespace_scoped req
      then Err (Errorf "a Redirect with a Track Name for a namespace request")
      else Ok tt
  end.

(** A REQUEST_ERROR answering a request of type [req], as the requester's error. *)
Definition rejection {A} (m : RequestError) (req : Z) : sess A := fun s =>
  match redirectViolation (re_Redirect m) req (bool_decide (s_role s = roleServer)) with
  | Err e => closeProtocolViolation (Wrapf "moqt/session: received" e) s
  | Ok _ => sfail (ErrRequestRejected (ErrorCode m) (RetryInterval m)) s
  end.

(** [time.Duration] in nanoseconds, and whether to retry at all. *)
Definition RetryAfter (retryInterval : Z) : Z * bool :=
  if retryInterval =? 0 then (0, false)
  else
    let ms := retryInterval - 1 in
    if ms >? (2 ^ 63 - 1) / 1000000 then (2 ^ 63 - 1, true) else (ms * 1000000, true).

(** [Request.Reject]: what it does to the stream.  Nothing when the rejection is
    one the peer would close the session over. *)
Definition Reject (wok : bool) (first : Message) (ro : role) (rej : RequestRejectedError)
    : result unit * list req_event :=
  let m := MkRequestError (rej_Code rej) (rej_RetryInterval rej) (rej_Reason rej) (rej_Redirect rej) in
  match ValidateRedirect m with
  | Err e => (Err (Wrapf "moqt/session: Reject" e), [])
  | Ok _ =>
      match redirectViolation (rej_Redirect rej) (msg_Type first) (bool_decide (ro = roleClient)) with
      | Err e => (Err (Wrapf "moqt/session: Reject" e), [])
      | Ok _ =>
          match marshal_events wok (MRequestError m) with
          | None => (Err (ErrTransport "write"), resetStream)
          | Some ev => (Ok tt, ev ++ [RqClose; RqDiscard])
          end
      end
  end.
Definition RejectError (wok : bool) (first : Message) (ro : role) (code : Z) (reason : bytes) : result unit * list req_event :=
  Reject wok first ro (MkRejected code reason 0 None).

(** ** Track Properties of a REQUEST_OK *)

(** [req] is what the REQUEST_OK answers, [None] for a REQUEST_UPDATE. *)
Definition emptyPropertiesOK (req : option Message) : bool :=
  match req with
  | None | Some (MSubscribe _) | Some (MFetch _) | Some (MPublish _) | Some (MPublishNamespace _)
  | Some (MSubscribeNamespace _) => true
  | Some _ => false
  end.

Definition checkRequestOKTrackProperties (req : option Message) (resp : Message) : sess unit :=
  match resp with
  | MRequestOK ok =>
      if len (rok_TrackProperties ok) =? 0 then mret tt
      else if emptyPropertiesOK req then closeProtocolViolation (Errorf "moqt/session: Track Properties in a REQUEST_OK")
      else mret tt
  | _ => mret tt
  end.

(** [Request.Reply]; [okSent] and whether it is set. *)
Definition Reply (wok : bool) (first msg : Message) (okSent : bool) : result unit * list req_event * bool :=
  let is_ok := match msg with MRequestOK _ => true | _ => false end in
  let refused := match msg with
                 | MRequestOK ok =>
                     (0 <? len (rok_TrackProperties ok)) &&
                     emptyPropertiesOK (match first with MSubscribeTracks _ => if okSent then None else Some first
                                        | _ => Some first end)
                 | _ => false
                 end in
  if refused then (Err (Wrapf "" ErrTrackPropertiesNotAllowed), [], okSent)
  else
    match marshal_events wok msg with
    | None => (Err (ErrTransport "write"), [], okSent)
    | Some ev => (Ok tt, ev, okSent || is_ok)
    end.

(** ** Accepting requests *)

Definition isRequestOpener (m : Message) : bool :=
  match m with
  | MSubscribe _ | MPublish _ | MFetch _ | MTrackStatus _ | MPublishNamespace _ | MSubscribeNamespace _
  | MSubscribeTracks _ => true
  | _ => false
  end.

Definition requestNamespace (m : Message) : option TrackNamespace :=
  match m with
  | MSubscribe m => Some (sub_Namespace m) | MPublish m => Some (pub_Namespace m)
  | MTrackStatus m => Some (ts_Namespace m) | MPublishNamespace m => Some (pn_Namespace m)
  | MSubscribeNamespace m => Some (sn_Prefix m) | MSubscribeTracks m => Some (st_Prefix m)
  | MFetch m => Some (fetch_Namespace m)
  | _ => None
  end.

Definition reservedDot : bytes := [x2e].
Definition sessionNamespace : bytes := String.list_byte_of_string ".session".
(** The section sign in UTF-8. *)
Definition section_sign : bytes := [xc2; xa7].
Definition reason_dot : bytes :=
  String.list_byte_of_string "reserved namespace " ++ [x22; x2e; x22] ++ String.list_byte_of_string " (" ++ section_sign ++
  String.list_byte_of_string "2.4.3)".
Definition reason_session : bytes :=
  String.list_byte_of_string "unrecognized session-level namespace (" ++ section_sign ++ String.list_byte_of_string "6.5)".

Definition reservedNamespaceRejection (m : Message) : option bytes :=
  match requestNamespace m with
  | Some (first :: _) =>
      if bool_decide (first = reservedDot) then Some reason_dot
      else if bool_decide (first = sessionNamespace) then Some reason_session
      else None
  | _ => None
  end.

Fixpoint as_unknown_type (e : error) : option Z :=
  match e with
  | ErrUnknownType t => Some t
  | Wrapf _ e' => as_unknown_type e'
  | Wrapf2 _ e1 e2 => match as_unknown_type e1 with Some t => Some t | None => as_unknown_type e2 end
  | _ => None
  end.

(** [parsed] is what [message.Parse] makes of the stream. *)
Definition readResponse (ctxDone : bool) (parsed : result Message) : sess Message :=
  match parsed with
  | Ok m => mret m
  | Err e =>
      if ctxDone then sfail ErrContextDone
      else if errors_Is e ErrMalformedMessage then closeProtocolViolation e
      else sfail e
  end.

Definition check_opener (m : Message) : sess unit :=
  match m with
  | MRequestUpdate u => closeProtocolViolation (ErrUnexpectedRequestUpdate (ru_RequestID u))
  | MPublishStateNotify _ => closeProtocolViolation ErrUnexpectedPublishStateNotify
  | _ => if isRequestOpener m then mret tt else closeProtocolViolation (ErrUnexpectedRequestOpener (msg_Type m))
  end.

Definition check_publish (m : Message) : sess unit :=
  match m with MPublish p => sess_checkTrackPropertyValues (pub_TrackProperties p) | _ => mret tt end.

Definition rid_or_close (rid : Z) : sess unit := fun s =>
  match s_CheckPeerRequestID rid s with (Err e, s) => fail_closing SessionInvalidRequestID e s | r => r end.

Definition check_rid (m : Message) : sess unit :=
  match GetRequestID m with Some rid => rid_or_close rid | None => mret tt end.

(** The checks of [AcceptRequest] on the first message, in order. *)
Definition check_request (m : Message) : sess (list ResolvedToken) :=
  _ ← check_opener m;
  _ ← CheckPeerParams (ScopeOfRequest (msg_Type m)) m;
  _ ← check_publish m;
  _ ← check_rid m;
  tokens_or_close m.

Inductive accepted : Type :=
| AccRequest (first : Message) (tokens : list ResolvedToken)
| AccNext
| AccFail (e : error).

(** One turn of [AcceptRequest]'s loop on a stream: the outcome, what is done to the
    stream, and the session.  [ctxDone] says whether the context ended during the
    read, [ctxLate] whether it had ended when the error was looked at. *)
Definition accept_stream (ctxDone ctxLate wok : bool) (parsed : result Message) (s : Session)
    : accepted * list req_event * Session :=
  match readResponse ctxDone parsed s with
  | (Err e, s) =>
      if ctxDone || ctxLate then (AccFail ErrContextDone, resetStream, s)
      else
        match as_unknown_type e with
        | Some t =>
            let '(_, s) := closeProtocolViolation (A:=unit) (ErrUnexpectedRequestOpener t) s in
            (AccFail (ErrUnexpectedRequestOpener t), resetStream, s)
        | None =>
            if errors_Is e ErrMalformedMessage
            then (AccFail (Wrapf "moqt/session: parse request first message" e), resetStream, s)
            else (AccNext, cancelRequest, s)
        end
  | (Ok m, s) =>
      match check_request m s with
      | (Err e, s) => (AccFail e, resetStream, s)
      | (Ok toks, s) =>
          match reservedNamespaceRejection m with
          | Some reason => (AccNext, (RejectError wok m (s_role s) RequestDoesNotExist reason).2, s)
          | None => (AccRequest m toks, [], s)
          end
      end
  end.

(** [AcceptRequest] over the streams that arrive, up to the first it returns on. *)
Fixpoint AcceptRequest (streams : list (bool * bool * bool * result Message)) (s : Session)
    : option accepted * list (list req_event) * Session :=
  match streams with
  | [] => (None, [], s)
  | (ctxDone, ctxLate, wok, parsed) :: streams' =>
      let '(o, ev, s) := accept_stream ctxDone ctxLate wok parsed s in
      match o with
      | AccNext => let '(r, evs, s) := AcceptRequest streams' s in (r, ev :: evs, s)
      | _ => (Some o, [ev], s)
      end
  end.

(** ** Answering a SUBSCRIBE or a PUBLISH *)

(** The SUBSCRIBE_OK written, its alias allocated when it is zero. *)
Definition AcceptSubscribe (wok : bool) (first : Message) (ok : SubscribeOK) : sess (SubscribeOK * list req_event) := fun s =>
  match first with
  | MSubscribe sub =>
      let '(ok, s) := if sok_TrackAlias ok =? 0
                      then let '(a, s) := AllocOutboundTrackAlias s in
                           (MkSubscribeOK a (sok_Parameters ok) (sok_TrackProperties ok), s)
                      else (ok, s) in
      match marshal_events wok (MSubscribeOK ok) with
      | None => (Err (Wrapf "moqt/session: write SUBSCRIBE_OK" (ErrTransport "write")), s)
      | Some ev => (Ok (ok, ev), s)
      end
  | _ => (Err (Errorf "moqt/session: AcceptSubscribe on another request"), s)
  end.

Definition TrackPropertiesRejectCode (e : error) : Z :=
  if is_unsupported e then RequestUnsupportedExtension else RequestInternalError.

Definition AcceptPublish (wok : bool) (reason : bytes) (first : Message) (s : Session)
    : result Z * list req_event * Session :=
  match first with
  | MPublish pub =>
      match sess_validateTrackProperties (pub_TrackProperties pub) s with
      | (Err e, s) => (Err e, (RejectError wok first (s_role s) (TrackPropertiesRejectCode e) reason).2, s)
      | (Ok _, s) =>
          match RegisterInboundTrack (pub_TrackAlias pub) (NewKey (pub_Namespace pub) (pub_Name pub))
                  (pub_TrackProperties pub) s with
          | (Err e, s) => (Err e, [], s)
          | (Ok _, s) =>
              match marshal_events wok (MRequestOK (MkRequestOK [] [])) with
              | None => (Err (Wrapf "moqt/session: write PUBLISH REQUEST_OK" (ErrTransport "write")), [],
                         s_Unregister (pub_TrackAlias pub) s)
              | Some ev => (Ok (pub_TrackAlias pub), ev, s)
              end
          end
      end
  | _ => (Err (Errorf "moqt/session: AcceptPublish on another request"), [], s)
  end.

(** ** Request IDs: each accepted once *)

Definition id_base (ro : role) : Z := if decide (ro = roleServer) then 0 else 1.
(** An ID the peer may use: of its parity. *)
Definition peer_id (ro : role) (rid : Z) : Prop := is_u64 rid /\ rid mod 2 = id_base ro.

(** The IDs accepted out of the calls [ids], in order. *)
Fixpoint run_ids (ro : role) (ids : list Z) (r : RequestIDs) : list Z * RequestIDs :=
  match ids with
  | [] => ([], r)
  | rid :: ids' =>
      let '(ok, r) := CheckPeerRequestID ro rid r in
      let '(acc, r) := run_ids ro ids' r in
      (match ok with Ok _ => rid :: acc | Err _ => acc end, r)
  end.

Definition init_ids : RequestIDs := MkRIDs false 0 ∅.

(** How many IDs below the mark have not arrived. *)
Definition missing (ro : role) (r : RequestIDs) (acc : list Z) : Z :=
  if rid_seen r then (rid_max r - id_base ro) / 2 + 1 - len acc else 0.

Lemma gap_ids_elem n : forall rid g, is_u64 rid -> 0 <= rid - 2 * Z.of_nat n ->
  g ∈ gap_ids rid n <-> rid - 2 * Z.of_nat n <= g < rid /\ (rid - g) mod 2 = 0.
Proof.
  induction n as [|n IH]; intros rid g Hr Hn; simpl.
  { rewrite elem_of_nil. lia. }
  rewrite u64_small by zlia. rewrite elem_of_cons, IH by zlia.
  assert (Hm : (rid - 2 - g) mod 2 = (rid - g) mod 2) by (Z.to_euclidean_division_equations; lia). rewrite Hm.
  destruct (decide (g = rid - 2)) as [->|Hne].
  - split; [|by left]. intros _. split; [lia|]. replace (rid - (rid - 2)) with 2 by lia. done.
  - split; [intros [?|[? ?]]; [done|split; [lia|done]]|]. intros [? Hg]. right. split; [|done].
    assert (g <> rid - 1); [|lia]. intros ->. replace (rid - (rid - 1)) with 1 in Hg by lia. done.
Qed.

Lemma gap_ids_NoDup n : forall rid, is_u64 rid -> 0 <= rid - 2 * Z.of_nat n -> NoDup (gap_ids rid n).
Proof.
  induction n as [|n IH]; intros rid Hr Hn; simpl; [constructor|]. rewrite u64_small by zlia. constructor.
  - rewrite gap_ids_elem by zlia. lia.
  - apply IH; zlia.
Qed.
Lemma gap_ids_length n : forall rid, length (gap_ids rid n) = n.
Proof. induction n as [|n IH]; intros rid; simpl; [done|]. by rewrite IH. Qed.

Lemma evict_sub gaps n : evictLowestGapsLocked gaps n ⊆ gaps.
Proof. unfold evictLowestGapsLocked. set_solver. Qed.

Lemma evict_size gaps n : 0 <= n <= Z.of_nat (base.size gaps) ->
  Z.of_nat (base.size (evictLowestGapsLocked gaps n)) = Z.of_nat (base.size gaps) - n.
Proof.
  intros Hn. unfold evictLowestGapsLocked. set (ids := merge_sort Z.le (elements gaps)).
  assert (Hp : ids ≡ₚ elements gaps) by apply merge_sort_Permutation.
  assert (Hnd : NoDup ids) by (rewrite Hp; apply NoDup_elements).
  assert (Hsub : list_to_set (take (Z.to_nat n) ids) ⊆ gaps).
  { intros x. rewrite elem_of_list_to_set. intros Hx. apply elem_of_elements. rewrite <- Hp.
    rewrite <- (take_drop (Z.to_nat n) ids). apply elem_of_app. by left. }
  rewrite size_difference by done. rewrite size_list_to_set.
  2: { rewrite <- (take_drop (Z.to_nat n) ids) in Hnd. by apply NoDup_app in Hnd as [? _]. }
  rewrite length_take. assert (length ids = base.size gaps) as -> by (rewrite Hp; done). lia.
Qed.

Record ids_inv (ro : role) (r : RequestIDs) (acc : list Z) : Prop := {
  ii_fresh : rid_seen r = false -> acc = [] /\ rid_gaps r = ∅;
  ii_max : rid_seen r = true -> rid_max r ∈ acc;
  ii_acc : forall id, id ∈ acc -> peer_id ro id /\ id <= rid_max r;
  ii_gaps : forall g, g ∈ rid_gaps r -> peer_id ro g /\ g < rid_max r /\ g ∉ acc;
  ii_nodup : NoDup acc;
  ii_size : Z.of_nat (base.size (rid_gaps r)) <= maxTrackedRequestIDGaps }.

(** Nothing was evicted so far: every ID below the mark is accounted for. *)
Record ids_complete (ro : role) (r : RequestIDs) (acc : list Z) : Prop := {
  ic_all : rid_seen r = true -> forall id, peer_id ro id -> id <= rid_max r -> id ∈ acc \/ id ∈ rid_gaps r;
  ic_count : Z.of_nat (base.size (rid_gaps r)) = missing ro r acc }.

Lemma init_ids_inv ro : ids_inv ro init_ids [] /\ ids_complete ro init_ids [].
Proof.
  split; split; simpl; try done; try (intros ?; set_solver). constructor.
Qed.

Lemma parity_check ro rid (x : result unit * RequestIDs) r : is_u64 rid ->
  (if bool_decide (ro = roleServer) && negb (rid mod 2 =? 0) then (Err (ErrRequestIDParity rid), r)
   else if negb (bool_decide (ro = roleServer)) && negb (rid mod 2 =? 1) then (Err (ErrRequestIDParity rid), r) else x) =
  (if decide (rid mod 2 = id_base ro) then x else (Err (ErrRequestIDParity rid), r)).
Proof.
  intros Hr. unfold id_base.
  destruct ro; rewrite ?bool_decide_true, ?bool_decide_false, ?decide_True, ?decide_False by done; simpl;
    [destruct (Z.eqb_spec (rid mod 2) 1)|destruct (Z.eqb_spec (rid mod 2) 0)]; simpl;
    rewrite ?decide_True, ?decide_False by done; done.
Qed.

Lemma same_parity ro a b : peer_id ro a -> peer_id ro b -> (a - b) mod 2 = 0.
Proof. intros [_ Ha] [_ Hb]. unfold id_base in *. case_decide; Z.to_euclidean_division_equations; lia. Qed.

(** The low end of what an advance of the mark skips. *)
Definition gap_lo (ro : role) (r : RequestIDs) : Z := if rid_seen r then rid_max r + 2 else id_base ro.

(** An advance of the mark to a new ID. *)
Lemma record_gaps_spec ro r acc rid : ids_inv ro r acc -> peer_id ro rid ->
  (rid_seen r = true -> rid_max r < rid) ->
  let gaps := rid_gaps (recordRequestIDGapsLocked rid (bool_decide (ro = roleServer)) r) in
  let lo := gap_lo ro r in
  lo <= rid /\
  (forall g, g ∈ gaps -> g ∈ rid_gaps r \/ (peer_id ro g /\ lo <= g < rid)) /\
  Z.of_nat (base.size gaps) <= maxTrackedRequestIDGaps /\
  (Z.of_nat (base.size (rid_gaps r)) + (rid - lo) / 2 <= maxTrackedRequestIDGaps ->
     Z.of_nat (base.size gaps) = Z.of_nat (base.size (rid_gaps r)) + (rid - lo) / 2 /\
     (forall g, g ∈ rid_gaps r -> g ∈ gaps) /\ (forall g, peer_id ro g -> lo <= g < rid -> g ∈ gaps)).
Proof.
  intros Hi Hp Hlt. cbv zeta. set (lo := gap_lo ro r). destruct Hp as [Hu Hpar].
  assert (Hlo : lo <= rid /\ 0 <= lo /\ (rid - lo) mod 2 = 0 /\
    (if rid_seen r then u64 (rid_max r + 2) else if bool_decide (ro = roleServer) then 0 else 1) = lo).
  { unfold lo, gap_lo. destruct (rid_seen r) eqn:Es.
    - specialize (Hlt eq_refl). destruct (ii_acc _ _ _ Hi _ (ii_max _ _ _ Hi Es)) as [Hm _].
      pose proof (same_parity _ _ _ (conj Hu Hpar) Hm) as Hsp. destruct Hm as [Hm _].
      assert (rid_max r + 2 <= rid) by (Z.to_euclidean_division_equations; lia).
      split_and!; [done|zlia|Z.to_euclidean_division_equations; lia|apply u64_small; zlia].
    - unfold id_base in *. case_decide; case_bool_decide; try done; split_and!; try done; try zlia;
        Z.to_euclidean_division_equations; zlia. }
  destruct Hlo as (H1 & H0 & Hev & Heq). pose proof (ii_size _ _ _ Hi) as Hsz. split; [done|].
  unfold recordRequestIDGapsLocked. cbv zeta. rewrite Heq.
  destruct (Z.leb_spec rid lo) as [Hle|Hgt].
  { assert (rid = lo) as -> by lia. rewrite Z.sub_diag. split_and!; [by left|done|]. intros _. split_and!; [rewrite Zdiv_0_l; lia|done|].
    intros g _ ?. lia. }
  set (d := (rid - lo) / 2) in *. set (ng := if d <? maxTrackedRequestIDGaps then d else maxTrackedRequestIDGaps) in *.
  assert (Hd : rid - lo = 2 * d) by (unfold d; Z.to_euclidean_division_equations; lia).
  assert (Hng : 0 <= ng <= d /\ ng <= maxTrackedRequestIDGaps /\ (d <= maxTrackedRequestIDGaps -> ng = d)).
  { unfold ng, maxTrackedRequestIDGaps. destruct (Z.ltb_spec d 1024); lia. }
  set (excess := Z.of_nat (base.size (rid_gaps r)) + ng - maxTrackedRequestIDGaps) in *.
  set (old := if 0 <? excess then evictLowestGapsLocked (rid_gaps r) excess else rid_gaps r) in *. cbn [rid_gaps].
  assert (Hold : old ⊆ rid_gaps r) by (unfold old; destruct (0 <? excess); [apply evict_sub|done]).
  assert (Hosz : Z.of_nat (base.size old) + ng <= maxTrackedRequestIDGaps).
  { unfold old. destruct (Z.ltb_spec 0 excess); [|lia]. rewrite evict_size by lia. lia. }
  assert (Hnew : forall g, g ∈ gap_ids rid (Z.to_nat ng) <-> rid - 2 * ng <= g < rid /\ (rid - g) mod 2 = 0).
  { intros g. rewrite gap_ids_elem by zlia. rewrite Z2Nat.id by lia. done. }
  assert (Hpeer : forall g, rid - 2 * ng <= g < rid -> (rid - g) mod 2 = 0 -> peer_id ro g).
  { intros g Hg Hm. split; [zlia|]. rewrite <- Hpar. Z.to_euclidean_division_equations; lia. }
  assert (Hdis : old ## list_to_set (gap_ids rid (Z.to_nat ng))).
  { intros g Hg Hg2. rewrite elem_of_list_to_set, Hnew in Hg2. apply Hold in Hg.
    destruct (rid_seen r) eqn:Es.
    - apply (ii_gaps _ _ _ Hi) in Hg as (_ & Hg & _). unfold lo, gap_lo in *. rewrite Es in *. lia.
    - apply (ii_fresh _ _ _ Hi) in Es as [_ Es]. rewrite Es in Hg. by apply elem_of_empty in Hg. }
  assert (Hsize : Z.of_nat (base.size (old ∪ list_to_set (gap_ids rid (Z.to_nat ng)))) = Z.of_nat (base.size old) + ng).
  { rewrite size_union by done. rewrite size_list_to_set, gap_ids_length by (apply gap_ids_NoDup; zlia). lia. }
  split_and!.
  - intros g [Hg|Hg]%elem_of_union; [left; by apply Hold|right]. rewrite elem_of_list_to_set, Hnew in Hg.
    destruct Hg as [Hg Hm]. split; [by apply Hpeer|lia].
  - lia.
  - intros Hfit. assert (ng = d) as -> by (apply Hng; lia).
    assert (old = rid_gaps r) as Ho by (unfold old; destruct (Z.ltb_spec 0 excess); [lia|done]). rewrite Ho in *.
    split_and!; [lia|intros g ?; apply elem_of_union; by left|].
    intros g Hg Hb. apply elem_of_union. right. rewrite elem_of_list_to_set, Hnew. split; [lia|].
    by apply (same_parity ro).
Qed.

Lemma check_id_step ro rid r acc : is_u64 rid -> ids_inv ro r acc ->
  let '(ok, r') := CheckPeerRequestID ro rid r in
  match ok with
  | Ok _ => (rid ∉ acc) /\ ids_inv ro r' (acc ++ [rid]) /\
      (ids_complete ro r acc -> missing ro r' (acc ++ [rid]) <= maxTrackedRequestIDGaps ->
         ids_complete ro r' (acc ++ [rid]))
  | Err _ => r' = r /\ (ids_complete ro r acc -> peer_id ro rid -> rid ∈ acc)
  end.
Proof.
  intros Hu Hi. unfold CheckPeerRequestID. rewrite (parity_check ro rid _ r Hu). case_decide as Hpar.
  2: { split; [done|]. by intros _ [_ ?]. }
  assert (Hp : peer_id ro rid) by done.
  destruct (negb (rid_seen r) || (rid >? rid_max r)) eqn:Eadv.
  - assert (Hlt : rid_seen r = true -> rid_max r < rid).
    { intros Es. rewrite Es in Eadv. simpl in Eadv. rewrite Z.gtb_ltb in Eadv. by apply Z.ltb_lt. }
    assert (Hnin : rid ∉ acc).
    { intros Hin. destruct (rid_seen r) eqn:Es.
      - destruct (ii_acc _ _ _ Hi _ Hin) as [_ ?]. specialize (Hlt eq_refl). lia.
      - destruct (ii_fresh _ _ _ Hi Es) as [-> _]. by apply elem_of_nil in Hin. }
    destruct (record_gaps_spec ro r acc rid Hi Hp Hlt) as (Hlo & Hg & Hsz & Hfit).
    set (gaps := rid_gaps _) in *. split; [done|]. split.
    + split; simpl; [done| | | | |done].
      * intros _. apply elem_of_app. right. by apply list_elem_of_singleton.
      * intros id. rewrite elem_of_app, list_elem_of_singleton. intros [Hin| ->]; [|split; [done|lia]].
        destruct (ii_acc _ _ _ Hi _ Hin) as [Hid Hle]. split; [done|]. destruct (rid_seen r) eqn:Es; [specialize (Hlt eq_refl); lia|].
        destruct (ii_fresh _ _ _ Hi Es) as [-> _]. by apply elem_of_nil in Hin.
      * intros g Hin. rewrite elem_of_app, list_elem_of_singleton. destruct (Hg g Hin) as [Hin'|[Hpg Hb]].
        -- destruct (ii_gaps _ _ _ Hi _ Hin') as (Hpg & Hlt' & Hna). destruct (rid_seen r) eqn:Es.
           ++ specialize (Hlt eq_refl). split_and!; [done|lia|]. intros [?|?]; [done|lia].
           ++ destruct (ii_fresh _ _ _ Hi Es) as [_ Eg]. rewrite Eg in Hin'. by apply elem_of_empty in Hin'.
        -- split_and!; [done|lia|]. intros [Hin'|?]; [|lia]. destruct (rid_seen r) eqn:Es.
           ++ destruct (ii_acc _ _ _ Hi _ Hin'). unfold gap_lo in Hb. rewrite Es in Hb. lia.
           ++ destruct (ii_fresh _ _ _ Hi Es) as [-> _]. by apply elem_of_nil in Hin'.
      * apply NoDup_app. split_and!; [apply Hi|by intros x Hx ->%list_elem_of_singleton|apply NoDup_singleton].
    + intros Hc. unfold missing; simpl. unfold len; rewrite length_app; simpl. intros Hm.
      assert (Hcount : (rid - id_base ro) / 2 + 1 - Z.of_nat (length acc + 1) =
        Z.of_nat (base.size (rid_gaps r)) + (rid - gap_lo ro r) / 2).
      { rewrite (ic_count _ _ _ Hc). unfold missing, gap_lo, len. destruct (rid_seen r) eqn:Es.
        - specialize (Hlt eq_refl). destruct (ii_acc _ _ _ Hi _ (ii_max _ _ _ Hi Es)) as [Hmx _].
          pose proof (same_parity _ _ _ Hp Hmx). destruct Hmx as [_ Hmx]. unfold id_base in *. clear -H Hpar Hmx Hlt.
          case_decide; Z.to_euclidean_division_equations; lia.
        - destruct (ii_fresh _ _ _ Hi Es) as [-> _]. simpl. lia. }
      destruct Hfit as (F1 & F2 & F3); [lia|]. split; simpl.
      * intros _ id Hid Hle. rewrite elem_of_app, list_elem_of_singleton.
        destruct (decide (id = rid)) as [->|Hne]; [by left; right|].
        destruct (decide (gap_lo ro r <= id)); [right; apply F3; [done|lia]|].
        unfold gap_lo in *. destruct (rid_seen r) eqn:Es.
        -- destruct (ii_acc _ _ _ Hi _ (ii_max _ _ _ Hi Es)) as [Hmx _]. pose proof (same_parity _ _ _ Hid Hmx).
           destruct (ic_all _ _ _ Hc Es id Hid) as [?|?]; [Z.to_euclidean_division_equations; lia|by left; left|right; by apply F2].
        -- exfalso. destruct Hid as [Hidu Hidp]. unfold id_base in *. case_decide; Z.to_euclidean_division_equations; zlia.
      * unfold missing; simpl. unfold len. rewrite length_app; simpl. lia.
  - apply orb_false_iff in Eadv as [Es Ele]. apply negb_false_iff in Es. rewrite Z.gtb_ltb in Ele. apply Z.ltb_ge in Ele.
    case_bool_decide as Hin.
    + destruct (ii_gaps _ _ _ Hi _ Hin) as (_ & Hlt & Hnin). split; [done|].
      assert (Hsz : Z.of_nat (base.size (rid_gaps r ∖ {[rid]})) = Z.of_nat (base.size (rid_gaps r)) - 1).
      { rewrite size_difference by set_solver. rewrite size_singleton.
        assert (base.size (rid_gaps r) <> 0%nat); [|lia]. intros E%size_empty_inv. set_solver. }
      split.
      * split; simpl; [congruence|..].
        -- intros _. apply elem_of_app. left. by apply Hi.
        -- intros id. rewrite elem_of_app, list_elem_of_singleton. intros [?| ->]; [by apply Hi|split; [done|lia]].
        -- intros g [Hg Hne]%elem_of_difference. destruct (ii_gaps _ _ _ Hi _ Hg) as (? & ? & ?). split_and!; [done|done|].
           rewrite elem_of_app, list_elem_of_singleton. set_solver.
        -- apply NoDup_app. split_and!; [apply Hi|by intros x Hx ->%list_elem_of_singleton|apply NoDup_singleton].
        -- pose proof (ii_size _ _ _ Hi). lia.
      * intros Hc _. split; simpl.
        -- intros _ id Hid Hle. rewrite elem_of_app, list_elem_of_singleton.
           destruct (decide (id = rid)) as [->|Hne]; [by left; right|].
           destruct (ic_all _ _ _ Hc Es id Hid Hle) as [?|?]; [by left; left|right; set_solver].
        -- rewrite Hsz, (ic_count _ _ _ Hc). unfold missing; simpl. rewrite Es. unfold len. rewrite length_app; simpl. lia.
    + split; [done|]. intros Hc _. by destruct (ic_all _ _ _ Hc Es rid Hp Ele).
Qed.

(** At no point of the run were more IDs missing below the mark than are tracked. *)
Definition in_window (ro : role) (ids : list Z) (r : RequestIDs) (acc : list Z) : Prop :=
  forall k, let '(a, r') := run_ids ro (take k ids) r in missing ro r' (acc ++ a) <= maxTrackedRequestIDGaps.

Lemma run_ids_spec ro ids : forall r acc, Forall is_u64 ids -> ids_inv ro r acc ->
  let '(a, r') := run_ids ro ids r in
  ids_inv ro r' (acc ++ a) /\ (forall rid, rid ∈ a -> rid ∈ ids) /\
  (ids_complete ro r acc -> in_window ro ids r acc -> forall rid, rid ∈ ids -> peer_id ro rid -> rid ∈ acc ++ a).
Proof.
  induction ids as [|rid ids IH]; intros r acc Hu Hi; simpl.
  { rewrite app_nil_r. split_and!; [done|done|]. by intros _ _ rid ?%elem_of_nil. }
  apply Forall_cons in Hu as [Hrid Hu]. pose proof (check_id_step ro rid r acc Hrid Hi) as Hs.
  destruct (CheckPeerRequestID ro rid r) as [[u|e] r1] eqn:Ec.
  - destruct Hs as (Hn & Hi1 & Hc1). specialize (IH r1 (acc ++ [rid]) Hu Hi1).
    destruct (run_ids ro ids r1) as [a r2] eqn:Er. destruct IH as (I1 & I2 & I3).
    rewrite <- app_assoc in *. simpl in *. split_and!; [done| |].
    + intros x [->|Hx]%elem_of_cons; [by left|right; by apply I2].
    + intros Hc Hw x Hx Hp.
      assert (Hm : missing ro r1 (acc ++ [rid]) <= maxTrackedRequestIDGaps).
      { specialize (Hw 1%nat). simpl in Hw. by rewrite Ec in Hw. }
      apply elem_of_cons in Hx as [->|Hx]; [apply elem_of_app; right; by left|].
      apply I3; [by apply Hc1| |done|done]. intros k. specialize (Hw (S k)). simpl in Hw. rewrite Ec in Hw.
      destruct (run_ids ro (take k ids) r1). by rewrite <- app_assoc.
  - destruct Hs as (-> & Hdup). specialize (IH r acc Hu Hi). destruct (run_ids ro ids r) as [a r2] eqn:Er.
    destruct IH as (I1 & I2 & I3). split_and!; [done|intros x Hx; right; by apply I2|].
    intros Hc Hw x Hx Hp. apply elem_of_cons in Hx as [->|Hx]; [apply elem_of_app; left; by apply Hdup|].
    apply I3; [done| |done|done]. intros k. specialize (Hw (S k)). simpl in Hw. rewrite Ec in Hw.
    by destruct (run_ids ro (take k ids) r).
Qed.

(** C29: Request IDs.  Whatever IDs a peer sends, in whatever order, none is accepted
    twice and every one accepted has the peer's parity; the record of IDs that may
    still arrive stays within its bound.  If never more than 1024 IDs below the mark
    were missing, exactly the distinct IDs of the right parity are accepted: no
    reordering within that window is taken for a duplicate. *)
Theorem request_id_once ro ids : Forall is_u64 ids ->
  let '(acc, r) := run_ids ro ids init_ids in
  NoDup acc /\ Forall (peer_id ro) acc /\ Z.of_nat (base.size (rid_gaps r)) <= maxTrackedRequestIDGaps /\
  (in_window ro ids init_ids [] -> forall rid, rid ∈ acc <-> rid ∈ ids /\ peer_id ro rid).
Proof.
  intros Hu. destruct (init_ids_inv ro) as [Hi Hc]. pose proof (run_ids_spec ro ids init_ids [] Hu Hi) as H.
  destruct (run_ids ro ids init_ids) as [acc r]. simpl in H. destruct H as (I1 & I2 & I3).
  split_and!; [apply I1| |apply I1|].
  - apply Forall_forall. intros x Hx. by apply (ii_acc _ _ _ I1).
  - intros Hw rid. split; [intros Hx; split; [by apply I2|by apply (ii_acc _ _ _ I1)]|]. intros [? ?]. by apply I3.
Qed.

Lemma request_id_once_witness :
  let ids := [4; 0; 3; 2; 4; 2] in
  (run_ids roleServer ids init_ids).1 = [4; 0; 2] /\
  let '(acc, r) := run_ids roleServer ids init_ids in NoDup acc /\ Forall (peer_id roleServer) acc.
Proof.
  intros ids. split; [vm_compute; reflexivity|].
  pose proof (request_id_once roleServer ids ltac:(repeat constructor; by_decide)) as H.
  destruct (run_ids roleServer ids init_ids) as [acc r]. destruct H as (H1 & H2 & _). split; [exact H1|exact H2].
Defined.

(** ** Track aliases: counted registrations *)

Inductive alias_op : Type :=
| ARegister (alias : Z) (key : Key) (props : bytes)
| AUnregister (alias : Z).

(** Give up one registration of [alias]. *)
Fixpoint release (alias : Z) (held : list (Z * Key)) : list (Z * Key) :=
  match held with
  | [] => []
  | x :: held' => if x.1 =? alias then held' else x :: release alias held'
  end.
Definition holders (alias : Z) (held : list (Z * Key)) : list Key := (List.filter (fun x => x.1 =? alias) held).*2.

(** The registrations in force beside the table that implements them. *)
Definition alias_step (o : alias_op) (st : list (Z * Key) * AliasTable) : list (Z * Key) * AliasTable :=
  match o with
  | ARegister alias key props =>
      match registerInboundTrack alias (inbound_of key props) st.2 with
      | (Ok _, t) => ((alias, key) :: st.1, t)
      | (Err _, t) => (st.1, t)
      end
  | AUnregister alias => (release alias st.1, UnregisterInboundTrackAlias alias st.2)
  end.

Record alias_inv (held : list (Z * Key)) (t : AliasTable) : Prop := {
  ai_refs : forall a, default 0 (at_refs t !! a) = len (holders a held);
  ai_tracks : forall a, is_Some (at_tracks t !! a) <-> holders a held <> [];
  ai_keys : forall a k inb, at_tracks t !! a = Some inb -> k ∈ holders a held -> k = in_Key inb }.

Lemma holders_cons a x held : holders a (x :: held) = (if x.1 =? a then [x.2] else []) ++ holders a held.
Proof. unfold holders. simpl. by destruct (x.1 =? a). Qed.

Lemma holders_release a b held : holders b (release a held) = if decide (a = b) then tail (holders b held) else holders b held.
Proof.
  induction held as [|x held IH]; simpl; [by case_decide|]. rewrite holders_cons.
  destruct (Z.eqb_spec x.1 a) as [E|E].
  - case_decide as Eb; [subst; by rewrite Z.eqb_refl|]. by rewrite (proj2 (Z.eqb_neq _ _)) by congruence.
  - rewrite holders_cons, IH. case_decide as Eb; [|done]. subst. by rewrite (proj2 (Z.eqb_neq _ _)).
Qed.

Lemma alias_step_inv o st : alias_inv st.1 st.2 -> alias_inv (alias_step o st).1 (alias_step o st).2.
Proof.
  destruct st as [held t]. intros [H1 H2 H3]. simpl in *. destruct o as [a k props|a]; simpl.
  - unfold registerInboundTrack. destruct (at_tracks t !! a) as [ex|] eqn:E; [case_bool_decide as Ek|]; simpl.
    + split; intros b; rewrite holders_cons; simpl; destruct (Z.eqb_spec a b) as [->|Hne]; simpl.
      * rewrite lookup_insert_eq; simpl. rewrite H1, len_cons. lia.
      * by rewrite lookup_insert_ne.
      * rewrite lookup_insert_eq. split; [done|by eexists].
      * by rewrite lookup_insert_ne.
      * intros k' inb. rewrite lookup_insert_eq. intros [= <-] [->|Hk]%elem_of_cons; [done|]. simpl in *. rewrite <- Ek. by eapply H3.
      * intros k' inb. rewrite lookup_insert_ne by done. apply H3.
    + by split.
    + assert (Hnil : holders a held = []).
      { destruct (holders a held) eqn:Eh; [done|]. destruct (proj2 (H2 a)) as [? Hs]; [by rewrite Eh|]. by rewrite E in Hs. }
      split; intros b; rewrite holders_cons; simpl; destruct (Z.eqb_spec a b) as [->|Hne]; simpl.
      * rewrite lookup_insert_eq, Hnil. done.
      * by rewrite lookup_insert_ne.
      * rewrite lookup_insert_eq. split; [done|by eexists].
      * by rewrite lookup_insert_ne.
      * intros k' inb. rewrite lookup_insert_eq, Hnil. intros [= <-] ->%list_elem_of_singleton. done.
      * intros k' inb. rewrite lookup_insert_ne by done. apply H3.
  - unfold UnregisterInboundTrackAlias. rewrite H1. destruct (len (holders a held) >? 1) eqn:En; rewrite Z.gtb_ltb in En.
    + apply Z.ltb_lt in En.
      assert (Htl : len (tail (holders a held)) = len (holders a held) - 1 /\ tail (holders a held) <> []).
      { destruct (holders a held) as [|x [|y l]]; unfold len in *; simpl in *; [lia|lia|split; [lia|done]]. }
      split; intros b; rewrite holders_release; simpl; case_decide as Eb; subst.
      * rewrite lookup_insert_eq; simpl. lia.
      * by rewrite lookup_insert_ne.
      * rewrite H2. split; [intros _; apply Htl|intros _ Hn; rewrite Hn in En; done].
      * apply H2.
      * intros k inb E Hk. eapply H3; [done|]. destruct (holders b held); [done|by right].
      * apply H3.
    + apply Z.ltb_ge in En. assert (Htl : tail (holders a held) = []).
      { destruct (holders a held) as [|x [|y l]]; unfold len in *; simpl in *; [done|done|lia]. }
      split; intros b; rewrite holders_release; simpl; case_decide as Eb; subst.
      * by rewrite lookup_delete_eq, Htl.
      * by rewrite lookup_delete_ne.
      * rewrite lookup_delete_eq, Htl. split; [by intros []|done].
      * by rewrite lookup_delete_ne.
      * intros k inb. by rewrite lookup_delete_eq.
      * intros k inb. rewrite lookup_delete_ne by done. apply H3.
Qed.

Definition alias_run (ops : list alias_op) : list (Z * Key) * AliasTable :=
  fold_left (fun st o => alias_step o st) ops ([], MkAliases ∅ ∅).

Lemma alias_fold_inv ops : forall st, alias_inv st.1 st.2 ->
  let st' := fold_left (fun st o => alias_step o st) ops st in alias_inv st'.1 st'.2.
Proof. induction ops as [|o ops IH]; intros st Hst; simpl; [done|]. by apply IH, alias_step_inv. Qed.

Lemma alias_run_inv ops : alias_inv (alias_run ops).1 (alias_run ops).2.
Proof.
  apply alias_fold_inv. split; intros a; simpl; rewrite ?lookup_empty; [done|split; [by intros []|done]|done].
Qed.

(** C30: track aliases.  After any sequence of registrations and releases, an alias
    resolves to a track exactly while some registration of it for that track is in
    force, so it never stands for two tracks at once; a further registration
    fails, leaving everything as it was and closing the session with
    DUPLICATE_TRACK_ALIAS, exactly when the alias is held for another track. *)
Theorem alias_bindings ops alias key props s :
  let '(held, t) := alias_run ops in
  (forall a k, LookupInboundTrackAlias a t = Some k <-> k ∈ holders a held) /\
  (s_aliases s = t ->
     ((exists e s', RegisterInboundTrack alias key props s = (Err e, s')) <-> exists k, k ∈ holders alias held /\ k <> key) /\
     forall e s', RegisterInboundTrack alias key props s = (Err e, s') ->
       s_aliases s' = t /\ s_close s' = Close SessionDuplicateTrackAlias (s_close s)).
Proof.
  pose proof (alias_run_inv ops) as Hi. destruct (alias_run ops) as [held t]. simpl in Hi. destruct Hi as [H1 H2 H3]. split.
  - intros a k. unfold LookupInboundTrackAlias, LookupInboundTrack. destruct (at_tracks t !! a) as [inb|] eqn:E; simpl.
    + split; [|intros Hk; f_equal; symmetry; by eapply H3]. intros [= <-].
      destruct (holders a held) as [|k' l] eqn:Eh.
      * destruct (proj1 (H2 a)); [by eexists|done].
      * rewrite <- (H3 a k' inb E) by (rewrite Eh; by left). by left.
    + split; [done|]. intros Hk. destruct (proj2 (H2 a)) as [? Hs]; [intros Hn; rewrite Hn in Hk; by apply elem_of_nil in Hk|].
      by rewrite E in Hs.
  - intros Hs. unfold RegisterInboundTrack, registerInboundTrack. rewrite Hs.
    destruct (at_tracks t !! alias) as [inb|] eqn:E; simpl.
    + assert (Hk : in_Key inb ∈ holders alias held).
      { destruct (holders alias held) as [|k' l] eqn:Eh.
        - destruct (proj1 (H2 alias)); [by eexists|done].
        - rewrite <- (H3 alias k' inb E) by (rewrite Eh; by left). by left. }
      case_bool_decide as Ek; simpl.
      * split; [|by intros e s' [= ]]. split; [by intros (e & s' & [= ])|]. intros (k & Hk' & Hne). destruct Hne.
        rewrite <- Ek. by eapply H3.
      * split; [|intros e s' [= _ <-]; by split]. split; [|by eexists _, _]. intros _. by exists (in_Key inb).
    + split; [|by intros e s' [= ]]. split; [by intros (e & s' & [= ])|]. intros (k & Hk & _).
      destruct (proj2 (H2 alias)) as [? Hs']; [intros Hn; rewrite Hn in Hk; by apply elem_of_nil in Hk|]. by rewrite E in Hs'.
Qed.

Lemma alias_bindings_witness :
  let k1 := NewKey [[x61]] [x62] in let k2 := NewKey [[x61]] [x63] in
  let ops := [ARegister 5 k1 []; ARegister 5 k1 []; ARegister 6 k2 []; AUnregister 5; AUnregister 6] in
  let s := set_aliases (new_session roleClient ∅ 0 0) (alias_run ops).2 in
  LookupInboundTrackAlias 5 (alias_run ops).2 = Some k1 /\ LookupInboundTrackAlias 6 (alias_run ops).2 = None /\
  exists e s', RegisterInboundTrack 5 k2 [] s = (Err e, s').
Proof.
  intros k1 k2 ops s. pose proof (alias_bindings ops 5 k2 [] s) as H.
  split; [vm_compute; reflexivity|]. split; [vm_compute; reflexivity|].
  destruct (alias_run ops) as [held t] eqn:E. destruct H as [_ H]. apply H; [reflexivity|].
  exists k1. vm_compute in E. injection E as <- <-. split; [vm_compute; left|vm_compute; discriminate].
Defined.

(** ** GOAWAY: at most once *)

Inductive goaway_op : Type :=
| GOn (handler : option Z)
| GReceive (m : Goaway)
| GSend (timeout : Z) (uri : bytes).

Definition goaway_step (ro : role) (o : goaway_op) (s : GoawayState) : option (result unit) * GoawayState :=
  match o with
  | GOn h => (None, OnGoaway h s)
  | GReceive m => let '(r, s) := handleGoaway ro m s in (Some r, s)
  | GSend t uri => let '(r, s) := SendGoaway ro t uri s in (None, s)
  end.

(** The GOAWAYs accepted in a run, and the state it ends in. *)
Fixpoint goaway_run (ro : role) (ops : list goaway_op) (s : GoawayState) : list Goaway * GoawayState :=
  match ops with
  | [] => ([], s)
  | o :: ops' =>
      let '(r, s) := goaway_step ro o s in
      let '(l, s) := goaway_run ro ops' s in
      (match o, r with GReceive m, Some (Ok _) => m :: l | _, _ => l end, s)
  end.

Definition init_goaway : GoawayState := MkGoawayState None false None false [].

Record goaway_inv (ro : role) (l : list Goaway) (s : GoawayState) : Prop := {
  gi_received : l = option_list (ga_received s);
  gi_uri : forall m, ga_received s = Some m -> ro = roleServer -> NewSessionURI m = [];
  gi_calls : ga_calls s = [] \/ exists h m, ga_calls s = [(h, m)] /\ ga_received s = Some m /\ ga_fired s = true;
  gi_fired : ga_fired s = false -> ga_calls s = [];
  gi_quiet : ga_received s = None -> ga_fired s = false }.

Lemma goaway_step_inv ro o s l : goaway_inv ro l s ->
  let '(r, s') := goaway_step ro o s in
  goaway_inv ro (l ++ match o, r with GReceive m, Some (Ok _) => [m] | _, _ => [] end) s'.
Proof.
  intros [H1 H2 H3 H4 H5]. destruct o as [h|m|t uri]; simpl.
  - rewrite app_nil_r. unfold OnGoaway. destruct (ga_received s) as [g|] eqn:E; [destruct (ga_fired s) eqn:Ef|];
      split; simpl; rewrite ?E; try done.
    rewrite (H4 eq_refl). destruct h as [h|]; simpl; [right; by exists h, g|by left].
  - unfold handleGoaway. destruct (ga_received s) as [g|] eqn:E; simpl.
    { rewrite app_nil_r. split; rewrite ?E; done. }
    unfold checkGoawayURI. destruct (bool_decide (ro = roleServer) && _) eqn:Eu; simpl.
    { rewrite app_nil_r. split; rewrite ?E; done. }
    specialize (H5 eq_refl). rewrite H5, H1. simpl. rewrite (H4 H5). split; simpl.
    + done.
    + intros m' [= <-] Hr. rewrite bool_decide_true in Eu by done. simpl in Eu. apply Z.ltb_ge in Eu.
      apply len_zero. pose proof (len_nonneg (NewSessionURI m)). lia.
    + destruct (ga_handler s) as [h|]; simpl; [right; by exists h, m|by left].
    + by destruct (ga_handler s).
    + done.
  - unfold SendGoaway. rewrite app_nil_r. repeat case_match; simplify_eq/=; split; simpl; done.
Qed.

Lemma goaway_run_inv ro ops : forall s l, goaway_inv ro l s ->
  let '(l', s') := goaway_run ro ops s in goaway_inv ro (l ++ l') s'.
Proof.
  induction ops as [|o ops IH]; intros s l Hi; simpl; [by rewrite app_nil_r|].
  pose proof (goaway_step_inv ro o s l Hi) as Hs. destruct (goaway_step ro o s) as [r s1].
  specialize (IH s1 _ Hs). destruct (goaway_run ro ops s1) as [l' s']. rewrite <- app_assoc in IH.
  by destruct o, r as [[]|].
Qed.

(** GOAWAY is handled at most once.  Whatever handlers are registered and
    GOAWAYs received and sent, in any order, at most one GOAWAY is accepted and at
    most one handler is ever started, on that GOAWAY; a server accepts none that
    carries a URI; and once one was sent no other is. *)
Theorem goaway_once ro ops :
  let '(l, s) := goaway_run ro ops init_goaway in
  len l <= 1 /\ len (ga_calls s) <= 1 /\ (forall h m, (h, m) ∈ ga_calls s -> l = [m]) /\
  (ro = roleServer -> Forall (fun m => NewSessionURI m = []) l) /\
  (forall t uri, ga_sent s = true -> exists e, SendGoaway ro t uri s = (Err e, s)).
Proof.
  assert (H0 : goaway_inv ro [] init_goaway) by (split; simpl; try done; by left).
  pose proof (goaway_run_inv ro ops init_goaway [] H0) as H. destruct (goaway_run ro ops init_goaway) as [l s].
  simpl in H. destruct H as [H1 H2 H3 H4 H5]. split_and!.
  - rewrite H1. by destruct (ga_received s).
  - destruct H3 as [->|(h & m & -> & _)]; done.
  - intros h m Hin. destruct H3 as [E|(h' & m' & E & Er & _)]; rewrite E in Hin; [by apply elem_of_nil in Hin|].
    apply list_elem_of_singleton in Hin as [= -> ->]. by rewrite H1, Er.
  - intros Hr. rewrite H1. destruct (ga_received s) as [m|]; simpl; [|constructor]. constructor; [by apply H2|constructor].
  - intros t uri Hs. unfold SendGoaway. rewrite Hs. case_match; by eexists.
Qed.

Lemma fired_keeps ro ops : forall s, ga_fired s = true -> is_Some (ga_received s) ->
  ga_calls (goaway_run ro ops s).2 = ga_calls s.
Proof.
  induction ops as [|o ops IH]; intros s Hf Hr; simpl; [done|].
  assert (Hs : ga_calls (goaway_step ro o s).2 = ga_calls s /\ ga_fired (goaway_step ro o s).2 = true /\
    is_Some (ga_received (goaway_step ro o s).2)).
  { destruct Hr as [m Hm]. destruct o; simpl; unfold OnGoaway, handleGoaway, SendGoaway; rewrite ?Hm, ?Hf; simpl;
      repeat case_match; simplify_eq/=; rewrite ?Hm, ?Hf; eauto. }
  destruct (goaway_step ro o s) as [r s1]. simpl in Hs. destruct Hs as (E1 & E2 & E3). rewrite <- E1, <- (IH s1 E2 E3).
  by destruct (goaway_run ro ops s1).
Qed.

(** A handler registered after a GOAWAY has started another handler is not started
    itself, and a nil handler registered after a GOAWAY keeps every later one from
    starting, although the GOAWAY started none. *)
Lemma late_handler_silent ro g h h' ops : checkGoawayURI ro g = Ok tt ->
  (goaway_run ro ([GOn (Some h); GReceive g; GOn (Some h')] ++ ops) init_goaway).2.(ga_calls) = [(h, g)] /\
  (goaway_run ro ([GReceive g; GOn None; GOn (Some h')] ++ ops) init_goaway).2.(ga_calls) = [].
Proof.
  intros Hg.
  simpl. unfold handleGoaway. simpl. rewrite Hg. simpl. split.
  - match goal with |- context [goaway_run ro ops ?s] => pose proof (fired_keeps ro ops s eq_refl ltac:(by eexists)) as E end.
    by destruct (goaway_run ro ops _).
  - match goal with |- context [goaway_run ro ops ?s] => pose proof (fired_keeps ro ops s eq_refl ltac:(by eexists)) as E end.
    by destruct (goaway_run ro ops _).
Qed.

(** ** Accepting a request *)

(** The codes [AcceptRequest] closes a session with, by what went wrong. *)
Definition closed_for (e : error) (code : Z) : Prop :=
  (code = SessionInvalidRequestID /\ exists rid, e = ErrRequestIDParity rid \/ e = ErrDuplicateRequestID rid) \/
  e = ErrTokenCache code \/
  (code = SessionKeyValueFormattingError /\ errors_Is e ErrValueFormatting = true) \/
  code = SessionProtocolViolation.

(** A failing operation on an open session closed it for its error. *)
Definition closes {A} (m : sess A) : Prop :=
  forall s e s', cs_done (s_close s) = false -> m s = (Err e, s') ->
    exists code, s_close s' = Close code (s_close s) /\ code <> SessionNoError /\ closed_for e code.
(** A succeeding one left it open. *)
Definition leaves_open {A} (m : sess A) : Prop := forall s a s', m s = (Ok a, s') -> s_close s' = s_close s.

Lemma closes_bind {A B} (m : sess A) (f : A -> sess B) :
  closes m -> leaves_open m -> (forall a, closes (f a)) -> closes (m ≫= f).
Proof.
  intros Hm Ho Hf s e s' Hs. unfold mbind, sess_bind. destruct (m s) as [[a|e1] s1] eqn:E.
  - intros H. rewrite <- (Ho _ _ _ E). apply (Hf a); [by rewrite (Ho _ _ _ E)|done].
  - intros [= <- <-]. by eapply Hm.
Qed.
Lemma leaves_open_bind {A B} (m : sess A) (f : A -> sess B) :
  leaves_open m -> (forall a, leaves_open (f a)) -> leaves_open (m ≫= f).
Proof.
  intros Hm Hf s b s'. unfold mbind, sess_bind. destruct (m s) as [[a|e1] s1] eqn:E; [|done].
  intros H. rewrite <- (Hm _ _ _ E). by eapply Hf.
Qed.
Lemma closes_ret {A} (a : A) : closes (mret (M:=sess) a) /\ leaves_open (mret (M:=sess) a).
Proof. split; [by intros s e s' _ [= ]|by intros s a' s' [= _ <-]]. Qed.
Lemma closes_violation {A} e : closes (closeProtocolViolation (A:=A) e) /\ leaves_open (closeProtocolViolation (A:=A) e).
Proof.
  split; [|by intros s a' s' [= ]]. intros s e' s' _ [= <- <-]. exists SessionProtocolViolation.
  split_and!; [done|done|]. by right; right; right.
Qed.
#[local] Hint Resolve closes_bind leaves_open_bind : moq.

Lemma check_opener_closes m : closes (check_opener m) /\ leaves_open (check_opener m).
Proof. destruct m; simpl; first [apply closes_ret|apply closes_violation]. Qed.

Lemma CheckPeerParams_closes scope m : closes (CheckPeerParams scope m) /\ leaves_open (CheckPeerParams scope m).
Proof.
  unfold CheckPeerParams. destruct (ParamsOf m) as [ps|]; [|apply closes_ret].
  destruct (CheckScope ps scope) as [?|e0]; [apply closes_ret|].
  destruct (errors_Is e0 ErrValueFormatting) eqn:Ev; [|apply closes_violation].
  split; [|by intros s a s' [= ]]. intros s e s' _ [= <- <-]. eexists. split_and!; [done|done|]. right; right; by left.
Qed.

Lemma check_publish_closes m : closes (check_publish m) /\ leaves_open (check_publish m).
Proof.
  destruct m; simpl; try apply closes_ret. unfold sess_checkTrackPropertyValues, or_close.
  destruct (checkTrackPropertyValues _); [apply closes_ret|apply closes_violation].
Qed.

Lemma CheckPeerRequestID_err ro rid r e r' : CheckPeerRequestID ro rid r = (Err e, r') ->
  e = ErrRequestIDParity rid \/ e = ErrDuplicateRequestID rid.
Proof. unfold CheckPeerRequestID. repeat case_match; intros [= <- _]; auto. Qed.

Lemma check_rid_closes m : closes (check_rid m) /\ leaves_open (check_rid m).
Proof.
  unfold check_rid. destruct (GetRequestID m) as [rid|]; [|apply closes_ret].
  unfold rid_or_close, s_CheckPeerRequestID. split.
  - intros s e s' _. destruct (CheckPeerRequestID (s_role s) rid (s_rids s)) as [[u|e0] r'] eqn:E; [done|].
    intros [= <- <-]. exists SessionInvalidRequestID. split_and!; [done|done|]. left. split; [done|].
    exists rid. by eapply CheckPeerRequestID_err.
  - intros s a s'. destruct (CheckPeerRequestID (s_role s) rid (s_rids s)) as [[u|e0] r'] eqn:E; [|done]. by intros [= _ <-].
Qed.

Lemma cache_err_code e : exists code, cache_err e = ErrTokenCache code /\ code <> SessionNoError.
Proof.
  unfold cache_err, sessionCodeForCacheErr. eexists. split; [done|].
  destruct (List.find _ _) as [c|] eqn:E; [|done]. apply find_some in E as [Hin _]. intros ->.
  by destruct Hin as [?|[?|[?|[]]]].
Qed.
Lemma applyToken_err t c e c' : applyToken t c = (Err e, c') -> exists code, e = ErrTokenCache code /\ code <> SessionNoError.
Proof.
  unfold applyToken, Register, token_Delete, Resolve.
  intros H. repeat (case_match; simplify_eq/=); simplify_eq/=; apply cache_err_code.
Qed.
Lemma apply_tokens_err ts : forall c e c', apply_tokens ts c = (Err e, c') ->
  exists code, e = ErrTokenCache code /\ code <> SessionNoError.
Proof.
  induction ts as [|t ts IH]; intros c e c'; simpl; [done|].
  destruct (applyToken t c) as [[tok|e1] c1] eqn:E; [|intros [= <- <-]; by eapply applyToken_err].
  destruct (apply_tokens ts c1) as [[l|e2] c2] eqn:E2; simpl; [done|]. intros [= <- <-]. by eapply IH.
Qed.
Lemma processRequestTokens_err m c e c' : processRequestTokens m c = (Err e, c') ->
  exists code, e = ErrTokenCache code /\ code <> SessionNoError.
Proof.
  unfold processRequestTokens. destruct (ParamsOf m) as [ps|]; [|done]. destruct (TokensFromParam ps).
  - apply apply_tokens_err.
  - intros [= <- _]. by eexists.
Qed.

Lemma tokens_or_close_closes m : closes (tokens_or_close m) /\ leaves_open (tokens_or_close m).
Proof.
  unfold tokens_or_close, s_processRequestTokens. split.
  - intros s e s' _. destruct (processRequestTokens m (s_tokens s)) as [[l|e0] c] eqn:E; [done|].
    destruct (processRequestTokens_err _ _ _ _ E) as (code & -> & Hc). intros [= <- <-]. exists code.
    split_and!; [done|done|]. right. by left.
  - intros s a s'. destruct (processRequestTokens m (s_tokens s)) as [[l|e0] c] eqn:E; [by intros [= _ <-]|].
    destruct (processRequestTokens_err _ _ _ _ E) as (code & -> & Hc). done.
Qed.

Lemma check_request_closes m : closes (check_request m) /\ leaves_open (check_request m).
Proof.
  unfold check_request. pose proof (check_opener_closes m) as [? ?].
  pose proof (CheckPeerParams_closes (ScopeOfRequest (msg_Type m)) m) as [? ?]. pose proof (check_publish_closes m) as [? ?].
  pose proof (check_rid_closes m) as [? ?]. pose proof (tokens_or_close_closes m) as [? ?]. auto 10 with moq.
Qed.

(** Its parameters are in scope; a PUBLISH's Track Properties have legal values. *)
Definition in_scope (m : Message) : Prop := forall ps, ParamsOf m = Some ps -> CheckScope ps (ScopeOfRequest (msg_Type m)) = Ok tt.
Definition legal_values (m : Message) : Prop := forall p, m = MPublish p -> checkTrackPropertyValues (pub_TrackProperties p) = Ok tt.

(** What a request must satisfy to reach the application. *)
Record acceptable (s : Session) (m : Message) (toks : list ResolvedToken) (s' : Session) : Prop := {
  acc_opener : isRequestOpener m = true;
  acc_scope : in_scope m;
  acc_values : legal_values m;
  acc_id : exists rid, GetRequestID m = Some rid /\ CheckPeerRequestID (s_role s) rid (s_rids s) = (Ok tt, s_rids s');
  acc_tokens : processRequestTokens m (s_tokens s) = (Ok toks, s_tokens s');
  acc_rest : s' = set_tokens (set_rids s (s_rids s')) (s_tokens s') }.

Lemma check_request_ok m s toks s' : check_request m s = (Ok toks, s') <-> acceptable s m toks s'.
Proof.
  unfold check_request, mbind, sess_bind. split.
  - destruct (check_opener m s) as [[u|] s1] eqn:E1; [|done].
    assert (Hop : isRequestOpener m = true /\ s1 = s).
    { destruct m; simpl in E1; try done; by injection E1 as <- <-. }
    destruct Hop as [Hop ->]. destruct (CheckPeerParams _ m s) as [[u2|] s2] eqn:E2; [|done].
    assert (Hsc : (forall ps, ParamsOf m = Some ps -> CheckScope ps (ScopeOfRequest (msg_Type m)) = Ok tt) /\ s2 = s).
    { unfold CheckPeerParams in E2. destruct (ParamsOf m) as [ps|]; [|injection E2 as <- <-; split; [done|done]].
      destruct (CheckScope ps _) as [[]|] eqn:Ec; [injection E2 as <- <-; split; [by intros ? [= <-]|done]|].
      by destruct (errors_Is _ _). }
    destruct Hsc as [Hsc ->]. destruct (check_publish m s) as [[u3|] s3] eqn:E3; [|done].
    assert (Hpb : (forall p, m = MPublish p -> checkTrackPropertyValues (pub_TrackProperties p) = Ok tt) /\ s3 = s).
    { destruct m; simpl in E3; try (injection E3 as <- <-; done). unfold sess_checkTrackPropertyValues, or_close in E3.
      destruct (checkTrackPropertyValues _) as [[]|] eqn:Ev; [|done]. injection E3 as <- <-. split; [by intros ? [= <-]|done]. }
    destruct Hpb as [Hpb ->]. unfold check_rid.
    destruct (GetRequestID m) as [rid|] eqn:Er; [|by destruct m].
    unfold rid_or_close, s_CheckPeerRequestID.
    destruct (CheckPeerRequestID (s_role s) rid (s_rids s)) as [[[]|] r'] eqn:Ei; [|done].
    unfold tokens_or_close, s_processRequestTokens. simpl.
    destruct (processRequestTokens m (s_tokens s)) as [[l|e] c'] eqn:Et.
    + intros [= <- <-]. split; simpl; try done. by exists rid.
    + unfold close_on_token_error. by destruct e.
  - intros [A1 A2 A3 (rid & A4 & A5) A6 ->].
    assert (check_opener m s = (Ok tt, s)) as -> by (destruct m; simpl in *; done).
    assert (CheckPeerParams (ScopeOfRequest (msg_Type m)) m s = (Ok tt, s)) as ->.
    { unfold CheckPeerParams. destruct (ParamsOf m) as [ps|] eqn:Ep; [|done]. by rewrite (A2 ps Ep). }
    assert (check_publish m s = (Ok tt, s)) as ->.
    { destruct m; simpl; try done. unfold sess_checkTrackPropertyValues, or_close. by rewrite (A3 _ eq_refl). }
    unfold check_rid. rewrite A4. unfold rid_or_close, s_CheckPeerRequestID. rewrite A5.
    unfold tokens_or_close, s_processRequestTokens. simpl. by rewrite A6.
Qed.

(** The first thing wrong with a request, as the error and the code the session is
    closed with. *)
Inductive violation (s : Session) (m : Message) : error -> Z -> Prop :=
| vi_update u : m = MRequestUpdate u -> violation s m (ErrUnexpectedRequestUpdate (ru_RequestID u)) SessionProtocolViolation
| vi_notify n : m = MPublishStateNotify n -> violation s m ErrUnexpectedPublishStateNotify SessionProtocolViolation
| vi_opener : isRequestOpener m = false -> (forall u, m <> MRequestUpdate u) -> (forall n, m <> MPublishStateNotify n) ->
    violation s m (ErrUnexpectedRequestOpener (msg_Type m)) SessionProtocolViolation
| vi_format ps e : isRequestOpener m = true -> ParamsOf m = Some ps -> CheckScope ps (ScopeOfRequest (msg_Type m)) = Err e ->
    errors_Is e ErrValueFormatting = true -> violation s m e SessionKeyValueFormattingError
| vi_scope ps e : isRequestOpener m = true -> ParamsOf m = Some ps -> CheckScope ps (ScopeOfRequest (msg_Type m)) = Err e ->
    errors_Is e ErrValueFormatting = false -> violation s m e SessionProtocolViolation
| vi_values p e : in_scope m -> m = MPublish p -> checkTrackPropertyValues (pub_TrackProperties p) = Err e ->
    violation s m e SessionProtocolViolation
| vi_id rid e r : isRequestOpener m = true -> in_scope m -> legal_values m -> GetRequestID m = Some rid ->
    CheckPeerRequestID (s_role s) rid (s_rids s) = (Err e, r) -> violation s m e SessionInvalidRequestID
| vi_tokens rid r code c : isRequestOpener m = true -> in_scope m -> legal_values m -> GetRequestID m = Some rid ->
    CheckPeerRequestID (s_role s) rid (s_rids s) = (Ok tt, r) -> processRequestTokens m (s_tokens s) = (Err (ErrTokenCache code), c) ->
    violation s m (ErrTokenCache code) code.

Lemma violation_code s m e code : violation s m e code -> code <> SessionNoError.
Proof.
  destruct 1 as [| | | | | | |? ? code c ? ? ? ? ? Ht]; try done.
  destruct (processRequestTokens_err _ _ _ _ Ht) as (code' & [= <-] & Hn). done.
Qed.

Lemma check_opener_err m s e s' : check_opener m s = (Err e, s') -> violation s m e SessionProtocolViolation /\ s_close s' = Close SessionProtocolViolation (s_close s).
Proof.
  destruct m; simpl; try done; intros [= <- <-]; (split; [|done]);
    first [by eapply vi_update|by eapply vi_notify|by apply vi_opener].
Qed.

Lemma check_rest_err m s e s' : isRequestOpener m = true -> in_scope m ->
  (_ ← check_publish m; _ ← check_rid m; tokens_or_close m) s = (Err e, s') -> exists code, violation s m e code /\ s_close s' = Close code (s_close s).
Proof.
  intros Hop Hsc. unfold mbind, sess_bind. destruct (check_publish m s) as [[u|e3] s3] eqn:E3.
  2: { destruct m; simpl in E3; try done. unfold sess_checkTrackPropertyValues, or_close in E3.
       destruct (checkTrackPropertyValues _) as [[]|] eqn:Ev; [done|]. injection E3 as <- <-. intros [= <- <-].
       eexists. split; [by eapply vi_values|reflexivity]. }
  assert (Hpb : legal_values m /\ s3 = s).
  { destruct m; simpl in E3; try (injection E3 as <- <-; done). unfold sess_checkTrackPropertyValues, or_close in E3.
    destruct (checkTrackPropertyValues _) as [[]|] eqn:Ev; [|done]. injection E3 as <- <-. split; [by intros ? [= <-]|done]. }
  destruct Hpb as [Hpb ->]. unfold check_rid. destruct (GetRequestID m) as [rid|] eqn:Er; [|by destruct m].
  unfold rid_or_close, s_CheckPeerRequestID.
  destruct (CheckPeerRequestID (s_role s) rid (s_rids s)) as [[[]|e4] r'] eqn:Ei.
  2: { intros [= <- <-]. eexists. split; [by eapply vi_id|reflexivity]. }
  unfold tokens_or_close, s_processRequestTokens. simpl.
  destruct (processRequestTokens m (s_tokens s)) as [[l|e5] c'] eqn:Et; [done|].
  destruct (processRequestTokens_err _ _ _ _ Et) as (code & -> & _). intros [= <- <-].
  exists code. split; [by eapply vi_tokens|reflexivity].
Qed.

(** What [check_request] refuses, and how it closes the session. *)
Lemma check_request_err m s e s' : check_request m s = (Err e, s') ->
  exists code, violation s m e code /\ s_close s' = Close code (s_close s).
Proof.
  unfold check_request, mbind, sess_bind.
  destruct (check_opener m s) as [[u|e1] s1] eqn:E1; [|intros [= <- <-]; eexists; by apply check_opener_err].
  assert (Hop : isRequestOpener m = true /\ s1 = s) by (destruct m; simpl in E1; try done; by injection E1 as <- <-).
  destruct Hop as [Hop ->]. unfold CheckPeerParams.
  assert (Hsc : match ParamsOf m with Some ps => CheckScope ps (ScopeOfRequest (msg_Type m)) = Ok tt | None => True end -> in_scope m).
  { intros H ps Ep. by rewrite Ep in H. }
  destruct (ParamsOf m) as [ps|] eqn:Ep.
  - destruct (CheckScope ps _) as [[]|e2] eqn:Ec.
    2: { destruct (errors_Is e2 ErrValueFormatting) eqn:Ef; intros [= <- <-]; eexists; (split; [|reflexivity]); [by eapply vi_format|by eapply vi_scope]. }
    specialize (Hsc eq_refl). by apply check_rest_err.
  - specialize (Hsc I). by apply check_rest_err.
Qed.

(** Reserved namespaces: those that begin with [.] or [.session]. *)
Definition names_reserved (m : Message) : Prop :=
  exists first rest, requestNamespace m = Some (first :: rest) /\ (first = [x2e] \/ first = String.list_byte_of_string ".session").
Lemma reserved_spec m : reservedNamespaceRejection m = None <-> ~ names_reserved m.
Proof.
  unfold reservedNamespaceRejection, names_reserved. destruct (requestNamespace m) as [[|first rest]|].
  - split; [|done]. intros _ (? & ? & [=] & _).
  - case_bool_decide as E1; [split; [done|]; intros H; destruct H; exists first, rest; auto|].
    case_bool_decide as E2; [split; [done|]; intros H; destruct H; exists first, rest; auto|].
    split; [|done]. intros _ (? & ? & [= <- <-] & [?|?]); done.
  - split; [|done]. by intros _ (? & ? & [=] & _).
Qed.

(** The send side of a stream was closed or reset. *)
Definition answered (ev : list req_event) : bool :=
  existsb (fun e => match e with RqClose | RqCancelWrite _ => true | _ => false end) ev.

Lemma RejectError_answers wok m ro code reason : code <> RequestRedirect ->
  answered (RejectError wok m ro code reason).2 = true.
Proof.
  intros Hc. unfold RejectError, Reject, ValidateRedirect. simpl. rewrite (proj2 (Z.eqb_neq _ _)) by done. simpl.
  unfold marshal_events. destruct (Marshal _ _); [|done]. by destruct wok.
Qed.

(** C28: accepting requests on an open session.  A request reaches the application
    exactly when it opens with a request message whose parameters are in scope, whose
    Request ID is fresh, whose tokens resolve and whose namespace does not begin with
    [.] or [.session]; the IDs and tokens are then the only changes.  A violation resets
    the stream and closes the session with the code of the first thing wrong:
    KEY_VALUE_FORMATTING_ERROR, INVALID_REQUEST_ID, the token cache's code, or
    PROTOCOL_VIOLATION, the code of a malformed or unknown first message too.  A request
    that only names a reserved namespace is answered REQUEST_ERROR with DOES_NOT_EXIST, a
    stream that ends early is cancelled; in both cases the session stays open and the
    loop goes on. *)
Theorem accept_request_checked ctxDone ctxLate wok parsed s o ev s' :
  cs_done (s_close s) = false -> accept_stream ctxDone ctxLate wok parsed s = (o, ev, s') ->
  (forall m toks, o = AccRequest m toks <-> parsed = Ok m /\ acceptable s m toks s' /\ ~ names_reserved m) /\
  (o = AccNext -> s_close s' = s_close s /\ answered ev = true /\
     ((exists m toks reason, parsed = Ok m /\ acceptable s m toks s' /\ names_reserved m /\
         ev = match marshal_events wok (MRequestError (MkRequestError RequestDoesNotExist 0 reason None)) with
              | Some w => w ++ [RqClose; RqDiscard]
              | None => resetStream
              end) \/
      (exists e, parsed = Err e /\ errors_Is e ErrMalformedMessage = false /\ as_unknown_type e = None /\ ev = cancelRequest))) /\
  (forall e, o = AccFail e -> ev = resetStream /\
     ((ctxDone || ctxLate = true /\ e = ErrContextDone /\ exists e0, parsed = Err e0) \/
      exists code, s_close s' = MkClose true (Some (MkClosed code false)) (Some code) /\
        ((exists m, parsed = Ok m /\ violation s m e code) \/
         (exists e0, parsed = Err e0 /\ code = SessionProtocolViolation /\
            ((exists t, as_unknown_type e0 = Some t /\ e = ErrUnexpectedRequestOpener t) \/
             (as_unknown_type e0 = None /\ errors_Is e0 ErrMalformedMessage = true)))))).
Proof.
  intros Hopen. unfold accept_stream.
  assert (Hclose : forall code, code <> SessionNoError ->
    Close code (s_close s) = MkClose true (Some (MkClosed code false)) (Some code)).
  { intros code Hc. unfold Close, terminate. by rewrite Hopen, (proj2 (Z.eqb_neq _ _)). }
  destruct parsed as [m|e0]; simpl.
  - destruct (check_request m s) as [[toks|e] s1] eqn:E; simpl.
    + assert (Ha : acceptable s m toks s1) by by apply check_request_ok.
      destruct (reservedNamespaceRejection m) as [reason|] eqn:Er; intros [= <- <- <-].
      * assert (Hr : ~ ~ names_reserved m) by (intros Hn; apply reserved_spec in Hn; congruence).
        split_and!; [| |done].
        -- intros m' toks'. split; [done|]. intros ([= <-] & _ & Hn). done.
        -- intros _. split; [by eapply (check_request_closes m)|]. split; [by apply RejectError_answers|]. left.
           exists m, toks, reason. split_and!; [done|done| |].
           ++ revert Er. unfold reservedNamespaceRejection, names_reserved. destruct (requestNamespace m) as [[|first rest]|]; [done| |done].
              do 2 (case_bool_decide; [intros _; eexists _, _; split; [done|]; auto|]). done.
           ++ unfold RejectError, Reject, ValidateRedirect. simpl. by destruct (marshal_events _ _).
      * apply reserved_spec in Er. split_and!; [|done|done]. intros m' toks'. split.
        -- by intros [= <- <-].
        -- intros ([= <-] & Ha' & _). apply check_request_ok in Ha'. rewrite E in Ha'. by injection Ha' as <-.
    + intros [= <- <- <-]. destruct (check_request_err _ _ _ _ E) as (code & Hv & Hc). split_and!; [|done|].
      * intros m' toks'. split; [done|]. intros ([= <-] & Ha & _). apply check_request_ok in Ha. by rewrite E in Ha.
      * intros e' [= <-]. split; [done|]. right. exists code. split; [rewrite Hc; by eapply Hclose, violation_code|]. left. by exists m.
  - assert (Hno : forall o' s'', (forall m toks, o' <> AccRequest m toks) -> forall m toks,
      o' = AccRequest m toks <-> Err e0 = Ok m /\ acceptable s m toks s'' /\ ~ names_reserved m).
    { intros o' s'' Ho m toks. split; [intros H; by destruct (Ho m toks)|by intros [[= ] _]]. }
    destruct ctxDone; simpl.
    { intros [= <- <- <-]. split_and!; [by apply Hno|done|]. intros e [= <-]. split; [done|]. left. by split_and!; [..|exists e0]. }
    destruct (errors_Is e0 ErrMalformedMessage) eqn:Hmal; simpl;
      (destruct ctxLate; simpl; [intros [= <- <- <-]; split_and!; [by apply Hno|done|]; intros e [= <-]; split; [done|]; left; by split_and!; [..|exists e0]|]);
      destruct (as_unknown_type e0) as [t|] eqn:Et; rewrite ?Hmal; intros [= <- <- <-]; (split_and!; [by apply Hno| |]).
    1,3,5: done.
    4: { intros _. split_and!; [done|done|]. right. by exists e0. }
    4: done.
    all: intros e [= <-]; split; [done|]; right; exists SessionProtocolViolation; split;
      [unfold close_session; simpl; rewrite Hclose by done; reflexivity|]; right; exists e0; split_and!; [done|done|]; eauto.
Qed.

Definition sample_opener : Message := MSubscribeNamespace (MkSubscribeNamespace 0 [[x61]] []).

Lemma accept_request_checked_witness :
  let s := new_session roleServer ∅ 0 0 in
  let s1 := (accept_stream false false true (Ok sample_opener) s).2 in
  acceptable s sample_opener [] s1 /\
  exists code, s_close (accept_stream false false true (Ok sample_opener) s1).2 =
    MkClose true (Some (MkClosed code false)) (Some code) /\ violation s1 sample_opener (ErrDuplicateRequestID 0) code.
Proof.
  intros s s1. split.
  - destruct (accept_request_checked false false true (Ok sample_opener) s (AccRequest sample_opener []) [] s1
      ltac:(reflexivity) ltac:(vm_compute; reflexivity)) as [H _].
    apply (H sample_opener []). reflexivity.
  - destruct (accept_request_checked false false true (Ok sample_opener) s1 (AccFail (ErrDuplicateRequestID 0)) resetStream
      (accept_stream false false true (Ok sample_opener) s1).2
      ltac:(vm_compute; reflexivity) ltac:(vm_compute; reflexivity)) as (_ & _ & H).
    destruct (H _ eq_refl) as [_ [[Hf _]|(code & Hc & [(m & [= <-] & Hv)|(e0 & [=] & _)])]]; [discriminate Hf|]. exists code. split; [exact Hc|exact Hv].
Defined.
