(* ===== verification/Broker.v ===== *)
(** * Broker: follow-ups on an established request stream

    [pkg/moqt/session/broker.go], the typed request handle it serves
    ([requestHandle] of [request.go]) and the GOAWAY check of a request stream
    ([RequestGoaways] of [goaway.go]).

    Callers of [Update] and the one reader in [Serve] share the broker under its
    lock.  The model runs one critical section at a time: writing an update and
    queueing its waiter, giving up on it, routing a response, closing.  What the
    broker delivers on a waiter's channel is appended to a log. *)

From stdpp Require Import gmap.
From S2P Require Import Prelude Codes Varint Wire KV Track Filter Params Properties RangeFilter Messages Tokens Session.

(** ** Request handles *)

Record requestHandle : Type := MkHandle {
  h_namespaces : bool; h_answered : Z; h_holdsAlias : bool; h_inboundAlias : Z; h_released : bool; h_peerDone : bool;
  h_finished : bool; h_goaways : bool }.

Definition set_released (h : requestHandle) : requestHandle :=
  MkHandle (h_namespaces h) (h_answered h) (h_holdsAlias h) (h_inboundAlias h) true (h_peerDone h) (h_finished h) (h_goaways h).
Definition set_peerDone (h : requestHandle) : requestHandle :=
  MkHandle (h_namespaces h) (h_answered h) (h_holdsAlias h) (h_inboundAlias h) (h_released h) true (h_finished h) (h_goaways h).
Definition set_finished (h : requestHandle) : requestHandle :=
  MkHandle (h_namespaces h) (h_answered h) (h_holdsAlias h) (h_inboundAlias h) (h_released h) (h_peerDone h) true (h_goaways h).
Definition set_goaways (h : requestHandle) : requestHandle :=
  MkHandle (h_namespaces h) (h_answered h) (h_holdsAlias h) (h_inboundAlias h) (h_released h) (h_peerDone h) (h_finished h) true.

(** [requestHandle.terminated]. *)
Definition terminated (h : requestHandle) (s : Session) : requestHandle * Session :=
  if h_holdsAlias h && negb (h_released h) then (set_released h, s_Unregister (h_inboundAlias h) s) else (h, s).

Definition peerFinished (h : requestHandle) (s : Session) : requestHandle * Session :=
  if h_holdsAlias h then terminated (set_peerDone h) s else (h, s).

Definition handle_Close (h : requestHandle) (s : Session) : list req_event * requestHandle * Session :=
  let '(h, s) := terminated h s in
  (if h_peerDone h then [RqClose]
   else if h_finished h then [RqCancelRead StreamResetCancelled]
   else cancelRequest, h, s).

(** ** The broker *)

(** A waiter's channel is named by the number of its update; [uw_prefix] is the
    prefix the update switches to. *)
Record updateWaiter : Type := MkWaiter { uw_ch : Z; uw_prefix : option TrackNamespace }.

Record RequestBroker : Type := MkBroker {
  b_waiters : list updateWaiter; b_updatesClosed : bool; b_streamClosed : bool; b_updated : bool;
  b_updateScope : Z; b_noPeerUpdate : bool; b_noPeerNotify : bool;
  b_handle : option requestHandle; b_goaways : bool;
  b_nsPrefix : TrackNamespace; b_namespaces : gset Key; b_nsPrefixLost : bool;
  b_next : Z;
  b_delivered : list (Z * result RequestOK);
  b_events : list req_event }.

Definition set_waiters (b : RequestBroker) (ws : list updateWaiter) (closed updated : bool) (next : Z)
    (log : list (Z * result RequestOK)) (ev : list req_event) : RequestBroker :=
  MkBroker ws closed (b_streamClosed b) updated (b_updateScope b) (b_noPeerUpdate b) (b_noPeerNotify b) (b_handle b)
    (b_goaways b) (b_nsPrefix b) (b_namespaces b) (b_nsPrefixLost b) next log ev.
Definition set_handle (b : RequestBroker) (h : option requestHandle) (g : bool) : RequestBroker :=
  MkBroker (b_waiters b) (b_updatesClosed b) (b_streamClosed b) (b_updated b) (b_updateScope b) (b_noPeerUpdate b)
    (b_noPeerNotify b) h g (b_nsPrefix b) (b_namespaces b) (b_nsPrefixLost b) (b_next b) (b_delivered b) (b_events b).
Definition set_prefix (b : RequestBroker) (p : TrackNamespace) (ns : gset Key) (lost : bool) : RequestBroker :=
  MkBroker (b_waiters b) (b_updatesClosed b) (b_streamClosed b) (b_updated b) (b_updateScope b) (b_noPeerUpdate b)
    (b_noPeerNotify b) (b_handle b) (b_goaways b) p ns lost (b_next b) (b_delivered b) (b_events b).
Definition set_events (b : RequestBroker) (closed : bool) (ev : list req_event) : RequestBroker :=
  MkBroker (b_waiters b) (b_updatesClosed b) closed (b_updated b) (b_updateScope b) (b_noPeerUpdate b)
    (b_noPeerNotify b) (b_handle b) (b_goaways b) (b_nsPrefix b) (b_namespaces b) (b_nsPrefixLost b) (b_next b) (b_delivered b) ev.

(** [NewRequestBroker], or [requestHandle.Broker] with the handle's settings. *)
Definition NewRequestBroker : RequestBroker :=
  MkBroker [] false false false 0 false false None false [] ∅ false 0 [] [].
Definition handle_Broker (h : requestHandle) (peerUpdate peerNotify : bool) (scope : Z) (prefix : TrackNamespace) : RequestBroker :=
  MkBroker [] false false false scope (negb peerUpdate) (negb peerNotify) (Some h) false prefix ∅ false 0 [] [].

(** [WriteMessage]. *)
Definition broker_write (wok : bool) (m : Message) (b : RequestBroker) : result unit * RequestBroker :=
  match marshal_events wok m with
  | None => (Err (ErrTransport "write"), b)
  | Some ev => (Ok tt, set_events b (b_streamClosed b) (b_events b ++ ev))
  end.

(** The prefix a REQUEST_UPDATE asks for, when it parses. *)
Definition update_prefix (ps : Params) : option TrackNamespace :=
  match p_Find ps ParamTrackNamespacePrefix with
  | Some p => match TrackNamespacePrefixFromParam p with Ok prefix => Some prefix | Err _ => None end
  | None => None
  end.

(** [Update] up to its wait: the number of the update, or the error it returns. *)
Definition Update (wok : bool) (ps : Params) (b : RequestBroker) (s : Session) : result Z * RequestBroker * Session :=
  if b_updatesClosed b then (Err ErrRequestStreamClosed, b, s)
  else
    let '(rid, s) := AllocRequestID s in
    match marshal_events wok (MRequestUpdate (MkRequestUpdate rid ps)) with
    | None => (Err (Wrapf "moqt/session: write REQUEST_UPDATE" (ErrTransport "write")), b, s)
    | Some ev =>
        (Ok (b_next b),
         set_waiters b (b_waiters b ++ [MkWaiter (b_next b) (update_prefix ps)]) false true (b_next b + 1)
           (b_delivered b) (b_events b ++ ev), s)
    end.

(** ... and when its context ends first. *)
Definition abandon_update (ch : Z) (b : RequestBroker) : RequestBroker :=
  if existsb (fun w => uw_ch w =? ch) (b_waiters b)
  then
    let b := match b_handle b with
             | Some h => if h_namespaces h then set_prefix b (b_nsPrefix b) (b_namespaces b) true else b
             | None => b
             end in
    set_waiters b (List.filter (fun w => negb (uw_ch w =? ch)) (b_waiters b)) (b_updatesClosed b) (b_updated b) (b_next b)
      (b_delivered b) (b_events b)
  else b.

(** A response to a REQUEST_UPDATE as its caller sees it. *)
Definition mapUpdateResponse (m : Message) : sess RequestOK :=
  match m with
  | MRequestOK ok =>
      _ ← checkRequestOKTrackProperties None m;
      _ ← CheckPeerParams ScopeRequestUpdateOK m;
      mret ok
  | MRequestError e => rejection e TypeRequestUpdate
  | _ => sfail (Errorf "moqt/session: unexpected message in REQUEST_UPDATE response")
  end.

Definition deliver (r : result RequestOK) (ws : list updateWaiter) : list (Z * result RequestOK) := (fun w => (uw_ch w, r)) <$> ws.

(** [route]: whether a waiter consumed the message.  The outcome goes into each
    recipient's channel once [b.mu] is released; a channel has room for it and nobody
    else sends on it, so here, and in [closeUpdates], it is part of the same step. *)
Definition route (m : Message) (b : RequestBroker) (s : Session) : bool * RequestBroker * Session :=
  match b_waiters b with
  | [] => (false, b, s)
  | w :: ws =>
      let '(recipients, rest) := match m with MRequestError _ => (w :: ws, []) | _ => ([w], ws) end in
      let '(r, s) := mapUpdateResponse m s in
      let b := match r, uw_prefix w with
               | Ok _, Some p => set_prefix b p (b_namespaces b) (b_nsPrefixLost b)
               | _, _ => b
               end in
      (true, set_waiters b rest (b_updatesClosed b) (b_updated b) (b_next b) (b_delivered b ++ deliver r recipients) (b_events b), s)
  end.

Definition closeUpdates (b : RequestBroker) : RequestBroker :=
  set_waiters b [] true (b_updated b) (b_next b) (b_delivered b ++ deliver (Err ErrRequestStreamClosed) (b_waiters b))
    (b_events b).

Definition b_terminated (b : RequestBroker) (s : Session) : RequestBroker * Session :=
  match b_handle b with
  | Some h => let '(h, s) := terminated h s in (set_handle b (Some h) (b_goaways b), s)
  | None => (b, s)
  end.

Definition broker_Close (code : Z) (b : RequestBroker) (s : Session) : RequestBroker * Session :=
  let '(b, s) := b_terminated b s in
  let b := closeUpdates b in
  (if b_streamClosed b then b
   else set_events b true (b_events b ++ [RqCancelRead code; RqCancelWrite code]), s).

(** *** GOAWAYs of a request stream *)
(** [RequestGoaways.Received]; [seen] is its state. *)
Definition goaways_Received (m : Goaway) (seen : bool) : sess bool := fun s =>
  if seen then closeProtocolViolation (Errorf "moqt/session: second GOAWAY on a request stream") s
  else match checkGoawayURI (s_role s) m with
       | Err e => closeProtocolViolation (Wrapf "moqt/session: request stream" e) s
       | Ok _ => (Ok true, s)
       end.

Definition goaway_seen (b : RequestBroker) : bool := match b_handle b with Some h => h_goaways h | None => b_goaways b end.
Definition mark_goaway (b : RequestBroker) : RequestBroker :=
  match b_handle b with Some h => set_handle b (Some (set_goaways h)) (b_goaways b) | None => set_handle b None true end.

(** ... on a broker's own state, or its handle's. *)
Definition goaway_received (m : Goaway) (b : RequestBroker) (s : Session) : result unit * RequestBroker * Session :=
  if goaway_seen b
  then let '(r, s) := closeProtocolViolation (A:=unit) (Errorf "moqt/session: second GOAWAY on a request stream") s in (r, b, s)
  else
    let b := mark_goaway b in
    match checkGoawayURI (s_role s) m with
    | Err e => let '(r, s) := closeProtocolViolation (A:=unit) (Wrapf "moqt/session: request stream" e) s in (r, b, s)
    | Ok _ => (Ok tt, b, s)
    end.

(** *** NAMESPACE and NAMESPACE_DONE *)
Definition tracks_namespaces (b : RequestBroker) : bool :=
  match b_handle b with Some h => h_namespaces h | None => false end.

Definition namespaceFollowup (m : Message) (b : RequestBroker) (s : Session) : result unit * RequestBroker * Session :=
  if negb (tracks_namespaces b) || b_nsPrefixLost b then (Ok tt, b, s)
  else
    match m with
    | MNamespace n =>
        (Ok tt, set_prefix b (b_nsPrefix b) ({[NewKey (b_nsPrefix b ++ ns_Suffix n) []]} ∪ b_namespaces b) (b_nsPrefixLost b), s)
    | MNamespaceDone n =>
        let key := NewKey (b_nsPrefix b ++ nsd_Suffix n) [] in
        if bool_decide (key ∈ b_namespaces b)
        then (Ok tt, set_prefix b (b_nsPrefix b) (b_namespaces b ∖ {[key]}) (b_nsPrefixLost b), s)
        else let '(r, s) := closeProtocolViolation (A:=unit) (Errorf "moqt/session: NAMESPACE_DONE before its NAMESPACE") s in (r, b, s)
    | _ => (Ok tt, b, s)
    end.

(** ** Serving the stream *)

Section Serve.
(** The reason text an error carries; the application's handlers, which may close
    the session, and its callback. *)
Context (text : error -> bytes).
Context (onUpdate : option (RequestUpdate -> sess (option RequestOK))) (onUpdateFailed : Session -> Session).

(** What is written in answer to a REQUEST_UPDATE. *)
Definition update_answer (r : result (option RequestOK)) : Message * bool :=
  let reject e :=
    let '(code, retry) := match as_rejected e with
                          | Some (c, i) => if c =? RequestRedirect then (RequestInternalError, 0) else (c, i)
                          | None => (RequestInternalError, 0)
                          end in
    (MRequestError (MkRequestError code retry (text e) None), false) in
  match r with
  | Err e => reject e
  | Ok ok =>
      let ok := default (MkRequestOK [] []) ok in
      if 0 <? len (rok_TrackProperties ok) then reject (Wrapf "" ErrTrackPropertiesNotAllowed)
      else (MRequestOK ok, true)
  end.

Definition answerUpdate (wok : bool) (upd : RequestUpdate) (b : RequestBroker) (s : Session)
    : result bool * RequestBroker * Session :=
  let '(r, s) := match onUpdate with
                 | None => sfail (ErrRequestRejected RequestNotSupported 0) s
                 | Some h => h upd s
                 end in
  if cs_done (s_close s)
  then (Err (match r with Ok _ => ErrRequestStreamClosed | Err e => e end), b, s)
  else
    let '(m, accepted) := update_answer r in
    match broker_write wok m b with
    | (Err e, b) => (Err (Wrapf "moqt/session: write REQUEST_UPDATE answer" e), b, s)
    | (Ok _, b) => (Ok accepted, b, s)
    end.

Definition receiveUpdate (wok : bool) (m : RequestUpdate) (l : RequestUpdateLimiter) (b : RequestBroker) (s : Session)
    : result unit * RequestUpdateLimiter * RequestBroker * Session :=
  if b_noPeerUpdate b
  then let '(r, s) := closeProtocolViolation (A:=unit) (Errorf "moqt/session: REQUEST_UPDATE from a peer that may not send one") s in
       (r, l, b, s)
  else
    match (if b_updateScope b =? 0 then mret tt else CheckPeerParams (b_updateScope b) (MRequestUpdate m)) s with
    | (Err e, s) => (Err e, l, b, s)
    | (Ok _, s) =>
        match rid_or_close (ru_RequestID m) s with
        | (Err e, s) => (Err e, l, b, s)
        | (Ok _, s) =>
            match Received l with
            | (Err e, l) => (Err e, l, b, close_session SessionTooManyRequestUpdates s)
            | (Ok _, l) =>
                match answerUpdate wok m b s with
                | (Err e, b, s) => (Err e, l, b, s)
                | (Ok accepted, b, s) => (Ok tt, Responded l, b, if accepted then s else onUpdateFailed s)
                end
            end
        end
    end.

(** Whether the loop goes on and hands the message to the callback, goes on without
    it, or ends with an error. *)
Inductive served : Type := SMessage | SConsumed | SStop (e : error).

Definition stop_or {A} (k : A) (r : result unit) (go : served) : served * A :=
  (match r with Ok _ => go | Err e => SStop e end, k).

(** A REQUEST_OK or REQUEST_ERROR: [ok_checks] are its checks, in order. *)
Definition response_checks (m : Message) (b : RequestBroker) : sess unit :=
  _ ← (if b_updated b then mret tt else closeProtocolViolation (Errorf "moqt/session: response before any REQUEST_UPDATE"));
  _ ← checkRequestOKTrackProperties None m;
  _ ← (fun s => match m with
                | MRequestError e =>
                    match redirectViolation (re_Redirect e) TypeRequestUpdate (bool_decide (s_role s = roleServer)) with
                    | Err v => closeProtocolViolation (Wrapf "moqt/session: received" v) s
                    | Ok _ => (Ok tt, s)
                    end
                | _ => (Ok tt, s)
                end : result unit * Session);
  CheckPeerParams ScopeRequestUpdateOK m.

(** One message of [Serve]'s loop, up to the callback. *)
Definition serve_step (wok : bool) (m : Message) (l : RequestUpdateLimiter) (b : RequestBroker) (s : Session)
    : served * RequestUpdateLimiter * RequestBroker * Session :=
  match tokens_or_close m s with
  | (Err e, s) => (SStop e, l, b, s)
  | (Ok _, s) =>
      match m with
      | MSubscribeOK _ =>
          if match b_handle b with Some h => h_answered h =? TypeSubscribe | None => false end
          then let '(r, s) := closeProtocolViolation (A:=unit) (Errorf "moqt/session: SUBSCRIBE_OK after the response") s in
               (stop_or l r SMessage, b, s)
          else (SMessage, l, b, s)
      | MRequestOK _ | MRequestError _ =>
          match response_checks m b s with
          | (Err e, s) => (SStop e, l, b, s)
          | (Ok _, s) => let '(used, b, s) := route m b s in (if used then SConsumed else SMessage, l, b, s)
          end
      | MGoaway g => let '(r, b, s) := goaway_received g b s in (stop_or l r SMessage, b, s)
      | MNamespace _ | MNamespaceDone _ => let '(r, b, s) := namespaceFollowup m b s in (stop_or l r SMessage, b, s)
      | MPublishStateNotify _ =>
          if b_noPeerNotify b
          then let '(r, s) := closeProtocolViolation (A:=unit)
                 (Errorf "moqt/session: PUBLISH_STATE_NOTIFY from a peer that may not send one") s in
               (stop_or l r SMessage, b, s)
          else let '(r, s) := CheckPeerParams ScopePublishStateNotify m s in (stop_or l r SMessage, b, s)
      | MRequestUpdate u =>
          let '(r, l, b, s) := receiveUpdate wok u l b s in (stop_or l r SMessage, b, s)
      | _ => (SMessage, l, b, s)
      end
  end.

(** A read that fails ends the loop: what [Serve] returns. *)
Definition readFailed (ctxDone : bool) (e : error) (b : RequestBroker) (s : Session)
    : result unit * RequestBroker * Session :=
  if ctxDone then (Err ErrContextDone, b, s)
  else if errors_Is e EOF then
    match b_handle b with
    | Some h => let '(h, s) := peerFinished h s in (Ok tt, set_handle b (Some h) (b_goaways b), s)
    | None => (Ok tt, b, s)
    end
  else
    let b := set_events b (b_streamClosed b) (b_events b ++ [RqCancelRead StreamResetInternalError]) in
    if errors_Is e ErrMalformedMessage
    then let '(r, s) := closeProtocolViolation (A:=unit) e s in (r, b, s)
    else (Err e, b, s).

(** The deferred calls: [stopped] says the callback ended the loop. *)
Definition serve_exit (stopped : bool) (b : RequestBroker) (s : Session) : RequestBroker * Session :=
  let '(b, s) := if stopped then (b, s) else b_terminated b s in (closeUpdates b, s).

(** [Serve] over what the reader parses; [onMsg] is the callback's answer. *)
Fixpoint Serve (onMsg : Message -> bool) (ctxDone : bool) (reads : list (result Message * bool)) (l : RequestUpdateLimiter)
    (b : RequestBroker) (s : Session) : option (result unit) * RequestBroker * Session :=
  match reads with
  | [] => (None, b, s)
  | (Err e, _) :: _ =>
      let '(r, b, s) := readFailed ctxDone e b s in let '(b, s) := serve_exit false b s in (Some r, b, s)
  | (Ok m, wok) :: reads' =>
      let '(o, l, b, s) := serve_step wok m l b s in
      match o with
      | SStop e => let '(b, s) := serve_exit false b s in (Some (Err e), b, s)
      | SConsumed => Serve onMsg ctxDone reads' l b s
      | SMessage =>
          if onMsg m then Serve onMsg ctxDone reads' l b s
          else let '(b, s) := serve_exit true b s in (Some (Ok tt), b, s)
      end
  end.
End Serve.

(** ** Every update is answered once, in order *)

Definition waiting (b : RequestBroker) : list Z := uw_ch <$> b_waiters b.
(** The updates answered and those still waiting, in the order of their queue. *)
Definition queue (b : RequestBroker) : list Z := (b_delivered b).*1 ++ waiting b.

(** Any interleaving of callers with the reader, beside whatever else happens to the
    session.  The last component collects the updates that gave up. *)
Inductive broker_step (text : error -> bytes) (onUpdate : option (RequestUpdate -> sess (option RequestOK)))
    (onFailed : Session -> Session) :
    RequestBroker * Session * list Z -> RequestBroker * Session * list Z -> Prop :=
| bs_update wok ps b s g r b' s' : Update wok ps b s = (r, b', s') -> broker_step text onUpdate onFailed (b, s, g) (b', s', g)
| bs_give_up ch b s g : ch ∈ waiting b -> broker_step text onUpdate onFailed (b, s, g) (abandon_update ch b, s, ch :: g)
| bs_serve wok m l b s g o l' b' s' : serve_step text onUpdate onFailed wok m l b s = (o, l', b', s') ->
    broker_step text onUpdate onFailed (b, s, g) (b', s', g)
| bs_read_failed ctx e b s g r b' s' : readFailed ctx e b s = (r, b', s') ->
    broker_step text onUpdate onFailed (b, s, g) (b', s', g)
| bs_exit stopped b s g b' s' : serve_exit stopped b s = (b', s') -> broker_step text onUpdate onFailed (b, s, g) (b', s', g)
| bs_close code b s g b' s' : broker_Close code b s = (b', s') -> broker_step text onUpdate onFailed (b, s, g) (b', s', g)
| bs_write wok m b s g r b' : broker_write wok m b = (r, b') -> broker_step text onUpdate onFailed (b, s, g) (b', s, g)
| bs_session b s s' g : broker_step text onUpdate onFailed (b, s, g) (b, s', g).

Record broker_inv (b : RequestBroker) (g : list Z) : Prop := {
  bi_all : queue b ++ g ≡ₚ seqZ 0 (b_next b);
  bi_order : StronglySorted Z.lt (queue b);
  bi_exact : g = [] -> queue b = seqZ 0 (b_next b);
  bi_next : 0 <= b_next b;
  bi_closed : b_updatesClosed b = true -> b_waiters b = [] }.

(** A section that leaves the queue and the counters alone. *)
Definition same_queue (b b' : RequestBroker) : Prop :=
  queue b' = queue b /\ b_next b' = b_next b /\ (b_waiters b = [] -> b_waiters b' = []) /\
  (b_updatesClosed b' = true -> b_updatesClosed b = true \/ b_waiters b' = []).

Lemma same_queue_refl b : same_queue b b.
Proof. split_and!; auto. Qed.
Lemma same_queue_trans b1 b2 b3 : same_queue b1 b2 -> same_queue b2 b3 -> same_queue b1 b3.
Proof.
  intros (A1 & A2 & A3 & A4) (B1 & B2 & B3 & B4). split_and!; [congruence|congruence|auto|].
  intros H. destruct (B4 H) as [?|?]; [|by right]. destruct (A4 H0) as [?|?]; [by left|right; auto].
Qed.

Lemma same_queue_inv b b' g : same_queue b b' -> broker_inv b g -> broker_inv b' g.
Proof.
  intros (E1 & E2 & E3 & E4) [H1 H2 H3 H4 H5]. split; rewrite ?E1, ?E2; [done|done|done|done|].
  intros H. destruct (E4 H) as [?|?]; [|done]. auto.
Qed.

Lemma deliver_ids r ws : (deliver r ws).*1 = uw_ch <$> ws.
Proof. unfold deliver. rewrite <- list_fmap_compose. done. Qed.

Lemma closeUpdates_queue b : same_queue b (closeUpdates b).
Proof.
  unfold same_queue, queue, waiting, closeUpdates; simpl. rewrite fmap_app, deliver_ids, app_nil_r. auto.
Qed.

Lemma route_queue m b s used b' s' : route m b s = (used, b', s') -> same_queue b b'.
Proof.
  unfold route. destruct (b_waiters b) as [|w ws] eqn:Ew; [intros [= <- <- <-]; apply same_queue_refl|].
  destruct (match m with MRequestError _ => _ | _ => _ end) as [rec rest] eqn:Er.
  assert (Hrr : rec ++ rest = w :: ws) by (destruct m; simplify_eq; rewrite ?app_nil_r; done).
  destruct (mapUpdateResponse m s) as [r s1]. set (b1 := match r with Ok _ => _ | Err _ => _ end).
  assert (Hb : b_delivered b1 = b_delivered b /\ b_next b1 = b_next b /\ b_updatesClosed b1 = b_updatesClosed b).
  { unfold b1. destruct r, (uw_prefix w); done. }
  destruct Hb as (B1 & B2 & B3). intros [= <- <- <-]. unfold same_queue, queue, waiting; simpl.
  rewrite B1, B2, B3, Ew, <- Hrr, fmap_app, deliver_ids, fmap_app, <- app_assoc. split_and!; [done|done| |by left].
  intros Hn. rewrite Hrr in Hn. done.
Qed.

Lemma write_queue wok m b r b' : broker_write wok m b = (r, b') -> same_queue b b'.
Proof. unfold broker_write. case_match; intros [= <- <-]; [|apply same_queue_refl]. split_and!; auto. Qed.

Lemma terminated_queue b s b' s' : b_terminated b s = (b', s') -> same_queue b b'.
Proof.
  unfold b_terminated. destruct (b_handle b) as [h|]; [|intros [= <- <-]; apply same_queue_refl].
  destruct (terminated h s). intros [= <- <-]. split_and!; auto.
Qed.
#[local] Hint Resolve same_queue_refl same_queue_trans closeUpdates_queue route_queue write_queue terminated_queue : moq.

Lemma goaway_queue m b s r b' s' : goaway_received m b s = (r, b', s') -> same_queue b b'.
Proof.
  unfold goaway_received, mark_goaway. repeat case_match; intros [= <- <- <-]; try apply same_queue_refl;
    split_and!; auto.
Qed.
Lemma namespace_queue m b s r b' s' : namespaceFollowup m b s = (r, b', s') -> same_queue b b'.
Proof.
  unfold namespaceFollowup. repeat case_match; intros [= <- <- <-]; try apply same_queue_refl; split_and!; auto.
Qed.
Lemma answer_queue text on wok u b s r b' s' : answerUpdate text on wok u b s = (r, b', s') -> same_queue b b'.
Proof.
  unfold answerUpdate. destruct (match on with Some _ => _ | None => _ end) as [x s1].
  case_match; [intros [= <- <- <-]; apply same_queue_refl|]. destruct (update_answer _ _) as [m acc].
  destruct (broker_write wok m b) as [[?|?] b1] eqn:E; intros [= <- <- <-]; eauto with moq.
Qed.
Lemma receive_queue text on onf wok u l b s r l' b' s' :
  receiveUpdate text on onf wok u l b s = (r, l', b', s') -> same_queue b b'.
Proof.
  unfold receiveUpdate. repeat (case_match; simplify_eq/=); intros H'; simplify_eq/=; eauto using answer_queue with moq.
Qed.

Lemma serve_queue text on onf wok m l b s o l' b' s' :
  serve_step text on onf wok m l b s = (o, l', b', s') -> same_queue b b'.
Proof.
  unfold serve_step, stop_or. intros H. repeat (case_match; simplify_eq/=); simplify_eq/=;
    eauto using goaway_queue, namespace_queue, receive_queue with moq.
Qed.

Lemma readFailed_queue ctx e b s r b' s' : readFailed ctx e b s = (r, b', s') -> same_queue b b'.
Proof.
  unfold readFailed. intros H. repeat (case_match; simplify_eq/=); simplify_eq/=; auto with moq; split_and!; auto.
Qed.
Lemma exit_queue stopped b s b' s' : serve_exit stopped b s = (b', s') -> same_queue b b'.
Proof.
  unfold serve_exit. destruct stopped; [intros [= <- <-]; auto with moq|].
  destruct (b_terminated b s) as [b1 s1] eqn:E. intros [= <- <-]. eauto with moq.
Qed.
Lemma close_queue code b s b' s' : broker_Close code b s = (b', s') -> same_queue b b'.
Proof.
  unfold broker_Close. destruct (b_terminated b s) as [b1 s1] eqn:E. intros [= <- <-].
  apply (same_queue_trans _ b1); [by eapply terminated_queue|].
  apply (same_queue_trans _ (closeUpdates b1)); [apply closeUpdates_queue|].
  case_match; [apply same_queue_refl|]. split_and!; auto.
Qed.

Lemma update_inv wok ps b s r b' s' g : Update wok ps b s = (r, b', s') -> broker_inv b g -> broker_inv b' g.
Proof.
  unfold Update. destruct (b_updatesClosed b) eqn:Ec; [by intros [= <- <- <-]|]. destruct (AllocRequestID s) as [rid s1].
  case_match; intros [= <- <- <-]; [|done]. intros [H1 H2 H3 H4 H5].
  assert (Hq : queue (set_waiters b (b_waiters b ++ [MkWaiter (b_next b) (update_prefix ps)]) false true (b_next b + 1)
    (b_delivered b) (b_events b ++ l)) = queue b ++ [b_next b]).
  { unfold queue, waiting; simpl. rewrite fmap_app, app_assoc. done. }
  assert (Hs : seqZ 0 (b_next b + 1) = seqZ 0 (b_next b) ++ [b_next b]).
  { rewrite seqZ_app by lia. rewrite Z.add_0_l. done. }
  split; rewrite ?Hq; simpl; rewrite ?Hs.
  - rewrite <- H1, <- !app_assoc. apply Permutation_app_head. apply Permutation_app_comm.
  - assert (Hlt : forall x, x ∈ queue b -> x < b_next b).
    { intros x Hx. assert (Hx' : x ∈ seqZ 0 (b_next b)) by (rewrite <- H1; apply elem_of_app; by left).
      apply elem_of_seqZ in Hx'. lia. }
    clear -H2 Hlt. induction (queue b) as [|x l IH]; simpl; [repeat constructor|].
    apply StronglySorted_inv in H2 as [Hs Hf]. constructor.
    + apply IH; [done|]. intros y Hy. apply Hlt. by right.
    + apply Forall_app. split; [done|]. constructor; [|constructor]. apply Hlt. by left.
  - intros Hg. by rewrite H3.
  - lia.
  - done.
Qed.

Lemma filter_sorted (f : Z -> bool) (l : list Z) : StronglySorted Z.lt l -> StronglySorted Z.lt (List.filter f l).
Proof.
  induction 1 as [|x l Hs IH Hf]; simpl; [constructor|]. case_match; [|done]. constructor; [done|].
  rewrite Forall_forall in *. intros y Hy. apply Hf. apply list_elem_of_In, filter_In in Hy as [Hy _]. by apply list_elem_of_In.
Qed.

(** Taking one number out of a list without repetitions. *)
Lemma filter_out (x : Z) l : NoDup l -> x ∈ l -> l ≡ₚ x :: List.filter (fun y => negb (y =? x)) l.
Proof.
  induction 1 as [|y l Hy Hl IH]; intros Hx; [by apply elem_of_nil in Hx|]. simpl.
  destruct (Z.eqb_spec y x) as [->|Hne]; simpl.
  - f_equiv. clear IH Hx Hl. induction l as [|z l IH]; [done|]. simpl. apply not_elem_of_cons in Hy as [Hz Hy].
    rewrite (proj2 (Z.eqb_neq z x)) by done. simpl. by rewrite <- IH.
  - apply elem_of_cons in Hx as [->|Hx]; [done|]. rewrite (IH Hx) at 1. apply Permutation_swap.
Qed.
Lemma keep_all (x : Z) l : x ∉ l -> List.filter (fun y => negb (y =? x)) l = l.
Proof.
  induction l as [|y l IH]; simpl; [done|]. intros [Hne Hx]%not_elem_of_cons.
  rewrite (proj2 (Z.eqb_neq y x)) by done. simpl. by rewrite IH.
Qed.
Lemma waiting_filter ch ws :
  uw_ch <$> List.filter (fun w => negb (uw_ch w =? ch)) ws = List.filter (fun y => negb (y =? ch)) (uw_ch <$> ws).
Proof.
  induction ws as [|w ws IH]; [done|]. rewrite fmap_cons. cbn [List.filter]. destruct (uw_ch w =? ch); cbn [negb]; [done|].
  by rewrite fmap_cons, IH.
Qed.

Lemma abandon_update_inv ch b g : ch ∈ waiting b -> broker_inv b g -> broker_inv (abandon_update ch b) (ch :: g).
Proof.
  intros Hin [H1 H2 H3 H4 H5].
  assert (Hnd : NoDup (queue b ++ g)) by (rewrite H1; apply NoDup_seqZ).
  apply NoDup_app in Hnd as (Hq & _ & _). assert (Hnd := Hq). unfold queue in Hnd. apply NoDup_app in Hnd as (_ & Hdis & Hw).
  assert (Hd : ch ∉ (b_delivered b).*1) by (intros Hx; by apply (Hdis ch)).
  unfold abandon_update. assert (existsb (fun w => uw_ch w =? ch) (b_waiters b) = true) as ->.
  { apply existsb_exists. unfold waiting in Hin. apply list_elem_of_fmap in Hin as (w & -> & Hw').
    exists w. split; [by apply list_elem_of_In|apply Z.eqb_refl]. }
  set (b1 := match b_handle b with Some _ => _ | None => _ end).
  assert (Hb : b_delivered b1 = b_delivered b /\ b_waiters b1 = b_waiters b /\ b_next b1 = b_next b /\
    b_updatesClosed b1 = b_updatesClosed b) by (unfold b1; by repeat case_match).
  destruct Hb as (B1 & B2 & B3 & B4).
  set (b2 := set_waiters b1 _ _ _ _ _ _).
  assert (Hq2 : queue b2 = List.filter (fun y => negb (y =? ch)) (queue b)).
  { unfold b2, queue, waiting; simpl. rewrite B1, B2, waiting_filter, List.filter_app, (keep_all ch (b_delivered b).*1) by done. done. }
  split; simpl; rewrite ?Hq2, ?B3.
  - rewrite <- H1. rewrite (filter_out ch (queue b)) at 2; [|done|unfold queue; apply elem_of_app; by right].
    rewrite <- Permutation_middle. done.
  - by apply filter_sorted.
  - done.
  - done.
  - rewrite B4, B2. intros Hc. by rewrite H5.
Qed.

Lemma broker_step_inv text on onf b s g b' s' g' :
  broker_step text on onf (b, s, g) (b', s', g') -> broker_inv b g -> broker_inv b' g'.
Proof.
  inversion 1; subst; eauto using update_inv, abandon_update_inv; apply same_queue_inv;
    eauto using serve_queue, readFailed_queue, exit_queue, close_queue with moq.
Qed.

Definition fresh_broker (b : RequestBroker) : Prop :=
  b_waiters b = [] /\ b_delivered b = [] /\ b_next b = 0.

Lemma fresh_inv b : fresh_broker b -> broker_inv b [].
Proof.
  intros (E1 & E2 & E3). assert (Hq : queue b = []) by (unfold queue, waiting; by rewrite E1, E2).
  split; rewrite ?Hq, ?E3; [done|constructor|done|done|done].
Qed.

Lemma broker_reach_inv text on onf st0 st : rtc (broker_step text on onf) st0 st ->
  broker_inv st0.1.1 st0.2 -> broker_inv st.1.1 st.2.
Proof.
  induction 1 as [|[[b1 s1] g1] [[b2 s2] g2] st3 Hs _ IH]; [done|]. intros Hi. apply IH. simpl in *.
  by eapply broker_step_inv.
Qed.

(** C27: pipelined updates.  However callers, the reader and a close interleave, every
    REQUEST_UPDATE written is, at any time, either answered, waiting or given up,
    never two of these; answers are handed out in the order the updates were
    written, and when none gave up the k-th answer goes to the k-th update; once the
    stream has ended every update that did not give up has its answer. *)
Theorem updates_answered_in_order text onUpdate onFailed b0 s0 b s g :
  fresh_broker b0 -> rtc (broker_step text onUpdate onFailed) (b0, s0, []) (b, s, g) ->
  (b_delivered b).*1 ++ waiting b ++ g ≡ₚ seqZ 0 (b_next b) /\
  StronglySorted Z.lt ((b_delivered b).*1 ++ waiting b) /\
  (g = [] -> (b_delivered b).*1 ++ waiting b = seqZ 0 (b_next b)) /\
  (b_updatesClosed b = true -> (b_delivered b).*1 ++ g ≡ₚ seqZ 0 (b_next b)).
Proof.
  intros H0 Hrun.
  pose proof (broker_reach_inv _ _ _ _ _ Hrun (fresh_inv _ H0)) as Hi. simpl in Hi.
  destruct Hi as [H1 H2 H3 H4 H5]. rewrite app_assoc. split_and!; [done|done|done|].
  intros Hc. rewrite <- H1. unfold queue, waiting. by rewrite (H5 Hc), app_nil_r.
Qed.

Definition sample_ok : Message := MRequestOK (MkRequestOK [] []).

Lemma updates_answered_in_order_witness :
  let s := new_session roleClient ∅ 0 0 in
  exists b s' g, b_delivered b = [(0, Ok (MkRequestOK [] [])); (2, Err ErrRequestStreamClosed)] /\ g = [1] /\
    rtc (broker_step (fun _ => []) None id) (NewRequestBroker, s, []) (b, s', g) /\
    (b_delivered b).*1 ++ g ≡ₚ seqZ 0 (b_next b).
Proof.
  intros s. eexists _, _, _. split; [|split; [|split]]; cycle 2.
  - eapply rtc_l; [eapply (bs_update _ _ _ true []); reflexivity|].
    eapply rtc_l; [eapply (bs_update _ _ _ true []); reflexivity|].
    eapply rtc_l; [eapply (bs_update _ _ _ true []); reflexivity|].
    eapply rtc_l; [apply (bs_give_up _ _ _ 1); right; left|].
    eapply rtc_l; [eapply (bs_serve _ _ _ true sample_ok (MkLimiter 0 0)); vm_compute; reflexivity|].
    eapply rtc_l; [eapply (bs_exit _ _ _ true); vm_compute; reflexivity|].
    apply rtc_refl.
  - eapply (updates_answered_in_order (fun _ => []) None id NewRequestBroker s); [by split_and!| |vm_compute; reflexivity].
    eapply rtc_l; [eapply (bs_update _ _ _ true []); reflexivity|].
    eapply rtc_l; [eapply (bs_update _ _ _ true []); reflexivity|].
    eapply rtc_l; [eapply (bs_update _ _ _ true []); reflexivity|].
    eapply rtc_l; [apply (bs_give_up _ _ _ 1); right; left|].
    eapply rtc_l; [eapply (bs_serve _ _ _ true sample_ok (MkLimiter 0 0)); vm_compute; reflexivity|].
    eapply rtc_l; [eapply (bs_exit _ _ _ true); vm_compute; reflexivity|].
    apply rtc_refl.
  - vm_compute. reflexivity.
  - reflexivity.
Defined.

(** ** The alias of a subscription is released once *)

Inductive handle_op : Type := HTerminated | HPeerFinished | HClose.
Definition handle_step (o : handle_op) (st : requestHandle * Session) : requestHandle * Session :=
  match o with
  | HTerminated => terminated st.1 st.2
  | HPeerFinished => peerFinished st.1 st.2
  | HClose => let '(_, h, s) := handle_Close st.1 st.2 in (h, s)
  end.

Lemma released_stays ops : forall h s, h_released h = true ->
  let st := fold_left (fun st o => handle_step o st) ops (h, s) in h_released st.1 = true /\ st.2 = s.
Proof.
  induction ops as [|o ops IH]; intros h s Hr; simpl; [done|].
  assert (E : exists h', handle_step o (h, s) = (h', s) /\ h_released h' = true).
  { destruct o; simpl; unfold handle_Close, peerFinished, terminated; simpl; rewrite ?Hr; simpl; rewrite ?andb_false_r;
      repeat case_match; simplify_eq/=; eauto. }
  destruct E as (h' & -> & Hr'). by apply IH.
Qed.

(** A subscription's end releases its Track Alias exactly once, however often
    and in whatever order the end is noticed (the peer's FIN, the reader's exit,
    the application's close); a request that holds no alias releases none. *)
Theorem alias_released_once ops h s : h_released h = false ->
  let st := fold_left (fun st o => handle_step o st) ops (h, s) in
  st.2 = if h_holdsAlias h && negb (bool_decide (ops = [])) then s_Unregister (h_inboundAlias h) s else s.
Proof.
  intros Hr. destruct (h_holdsAlias h) eqn:Eh; simpl.
  - destruct ops as [|o ops]; simpl; [done|].
    assert (E : exists h', handle_step o (h, s) = (h', s_Unregister (h_inboundAlias h) s) /\ h_released h' = true).
    { destruct o; simpl; unfold handle_Close, peerFinished, terminated; simpl; rewrite ?Eh, ?Hr; simpl; eauto. }
    destruct E as (h' & -> & Hr'). apply (released_stays ops h' _ Hr').
  - assert (Hno : forall o h', h_holdsAlias h' = false ->
      exists h'', handle_step o (h', s) = (h'', s) /\ h_holdsAlias h'' = false).
    { intros o h' E. destruct o; simpl; unfold handle_Close, peerFinished, terminated; simpl; rewrite ?E; simpl; eauto. }
    clear Hr. revert h Eh. induction ops as [|o ops IH]; intros h Eh; simpl; [done|].
    destruct (Hno o h Eh) as (h'' & -> & Eh''). by apply IH.
Qed.

Lemma alias_released_once_witness :
  let h := MkHandle false TypeSubscribe true 5 false false false false in
  let s := set_aliases (new_session roleClient ∅ 0 0)
             (alias_run [ARegister 5 (NewKey [[x61]] []) []; ARegister 5 (NewKey [[x61]] []) []]).2 in
  let st := fold_left (fun st o => handle_step o st) [HPeerFinished; HTerminated; HClose] (h, s) in
  st.2 = s_Unregister 5 s /\ LookupInboundTrackAlias 5 (s_aliases st.2) = Some (NewKey [[x61]] []).
Proof.
  intros h s st. split; [|vm_compute; reflexivity].
  exact (alias_released_once [HPeerFinished; HTerminated; HClose] h s eq_refl).
Defined.

(** ** Follow-ups from the peer *)

Lemma closes_done {A} (m : sess A) s e s' : closes m -> cs_done (s_close s) = false -> m s = (Err e, s') ->
  cs_done (s_close s') = true.
Proof.
  intros Hm Hs H. destruct (Hm _ _ _ Hs H) as (code & -> & _ & _). unfold Close, terminate. by rewrite Hs.
Qed.

Lemma ok_properties_closes req m : closes (checkRequestOKTrackProperties req m) /\ leaves_open (checkRequestOKTrackProperties req m).
Proof. destruct m; simpl; try apply closes_ret. repeat case_match; first [apply closes_ret|apply closes_violation]. Qed.

Lemma response_checks_closes m b : closes (response_checks m b) /\ leaves_open (response_checks m b).
Proof.
  unfold response_checks.
  assert (H1 : forall c : bool, closes (if c then mret tt else closeProtocolViolation (A:=unit)
    (Errorf "moqt/session: response before any REQUEST_UPDATE")) /\ leaves_open (if c then mret tt else
    closeProtocolViolation (A:=unit) (Errorf "moqt/session: response before any REQUEST_UPDATE"))).
  { intros []; [apply closes_ret|apply closes_violation]. }
  destruct (H1 (b_updated b)) as [A1 A2], (ok_properties_closes None m) as [B1 B2],
    (CheckPeerParams_closes ScopeRequestUpdateOK m) as [C1 C2].
  set (redirect := fun s : Session => _ : result unit * Session).
  assert (H2 : closes (A:=unit) redirect /\ leaves_open (A:=unit) redirect).
  { unfold redirect. split.
    - intros s e s' Hs. destruct m; try done. destruct (redirectViolation _ _ _) as [?|v]; [done|]. by apply closes_violation.
    - intros s u s'. destruct m; try (by intros [= _ <-]). destruct (redirectViolation _ _ _) as [?|v]; [by intros [= _ <-]|done]. }
  destruct H2 as [D1 D2]. split; [repeat (apply closes_bind; [done|done|intros ?])|repeat (apply leaves_open_bind; [done|intros ?])]; done.
Qed.

Lemma rid_or_close_closes rid : closes (rid_or_close rid) /\ leaves_open (rid_or_close rid).
Proof.
  unfold rid_or_close, s_CheckPeerRequestID. split.
  - intros s e s' _. destruct (CheckPeerRequestID (s_role s) rid (s_rids s)) as [[u|e0] r'] eqn:E; [done|].
    intros [= <- <-]. exists SessionInvalidRequestID. split_and!; [done|done|]. left. split; [done|].
    exists rid. by eapply CheckPeerRequestID_err.
  - intros s a s'. destruct (CheckPeerRequestID (s_role s) rid (s_rids s)) as [[u|e0] r'] eqn:E; [|done]. by intros [= _ <-].
Qed.

(** What a handled REQUEST_UPDATE leaves. *)
Definition update_handled (u : RequestUpdate) (l l' : RequestUpdateLimiter) (b b' : RequestBroker) (s : Session) : Prop :=
  b_noPeerUpdate b = false /\ lim_limit l' = lim_limit l /\ lim_outstanding l' = u64 (u64 (lim_outstanding l + 1) - 1) /\
  (exists r', CheckPeerRequestID (s_role s) (ru_RequestID u) (s_rids s) = (Ok tt, r')) /\
  exists a, b_events b' = b_events b ++ [RqMsg a] /\
    ((exists ok, a = MRequestOK ok /\ rok_TrackProperties ok = []) \/
     exists e, a = MRequestError e /\ ErrorCode e <> RequestRedirect /\ re_Redirect e = None).

Lemma update_answer_ok text r :
  (exists ok, (update_answer text r).1 = MRequestOK ok /\ rok_TrackProperties ok = []) \/
  (exists e, (update_answer text r).1 = MRequestError e /\ ErrorCode e <> RequestRedirect /\ re_Redirect e = None).
Proof.
  unfold update_answer. destruct r as [ok|e].
  - destruct (Z.ltb_spec 0 (len (rok_TrackProperties (default (MkRequestOK [] []) ok)))) as [?|Hl].
    + right. eexists. by split_and!.
    + left. eexists. split; [done|]. apply len_zero.
      pose proof (len_nonneg (rok_TrackProperties (default (MkRequestOK [] []) ok))). lia.
  - right. destruct (as_rejected e) as [[c i]|]; [destruct (Z.eqb_spec c RequestRedirect)|]; eexists; by split_and!.
Qed.

Lemma answerUpdate_ok text on wok u b s acc b' s' : answerUpdate text on wok u b s = (Ok acc, b', s') ->
  exists a, b_events b' = b_events b ++ [RqMsg a] /\
    ((exists ok, a = MRequestOK ok /\ rok_TrackProperties ok = []) \/
     exists e, a = MRequestError e /\ ErrorCode e <> RequestRedirect /\ re_Redirect e = None).
Proof.
  unfold answerUpdate. destruct (match on with Some _ => _ | None => _ end) as [x s1]. case_match; [done|].
  pose proof (update_answer_ok text x) as Ha. destruct (update_answer text x) as [m acc']. simpl in Ha.
  unfold broker_write, marshal_events. destruct (Marshal [] m); [|done]. destruct wok; [|done].
  intros [= <- <- <-]. by exists m.
Qed.

Lemma answerUpdate_err text on wok u b s e b' s' : answerUpdate text on wok u b s = (Err e, b', s') ->
  cs_done (s_close s') = true \/ errors_Is e (ErrTransport "write") = true.
Proof.
  unfold answerUpdate. destruct (match on with Some _ => _ | None => _ end) as [x s1]. case_match eqn:Ed.
  - intros [= _ _ <-]. by left.
  - destruct (update_answer text x) as [m acc']. unfold broker_write. destruct (marshal_events wok m); [done|].
    intros [= <- _ _]. by right.
Qed.

Lemma receiveUpdate_spec text on onf wok u l b s r l' b' s' : cs_done (s_close s) = false ->
  receiveUpdate text on onf wok u l b s = (r, l', b', s') ->
  match r with
  | Ok _ => update_handled u l l' b b' s
  | Err e => cs_done (s_close s') = true \/ errors_Is e (ErrTransport "write") = true
  end.
Proof.
  intros Hs. unfold receiveUpdate. destruct (b_noPeerUpdate b) eqn:En.
  { intros [= <- _ _ <-]. left. simpl. unfold Close, terminate. by rewrite Hs. }
  set (chk := if b_updateScope b =? 0 then _ else _).
  assert (Hchk : closes chk /\ leaves_open chk).
  { unfold chk. case_match; [apply closes_ret|apply CheckPeerParams_closes]. }
  assert (Hsame : forall s1 x, chk s = (Ok x, s1) -> s1 = s).
  { unfold chk, CheckPeerParams. intros s1 x. repeat case_match; intros [= _ <-]; done. }
  destruct (chk s) as [[x|e] s1] eqn:E1.
  2: { intros [= <- _ _ <-]. left. eapply closes_done; [apply Hchk|done|done]. }
  rewrite (Hsame _ _ eq_refl) in *. destruct (rid_or_close_closes (ru_RequestID u)) as [Hr1 Hr2].
  destruct (rid_or_close (ru_RequestID u) s) as [[y|e] s2] eqn:E2.
  2: { intros [= <- _ _ <-]. left. by eapply closes_done. }
  pose proof (Hr2 _ _ _ E2) as Hs2. destruct (Received l) as [[z|e] l1] eqn:El.
  2: { intros [= <- _ _ <-]. left. simpl. unfold Close, terminate. by rewrite Hs2, Hs. }
  destruct (answerUpdate text on wok u b s2) as [[[acc|e] b3] s3] eqn:E3; intros [= <- <- <- <-].
  - unfold Received in El. case_match; simplify_eq. unfold update_handled, Responded; simpl. split_and!; [done|done|done| |].
    + unfold rid_or_close, s_CheckPeerRequestID in E2.
      destruct (CheckPeerRequestID (s_role s) (ru_RequestID u) (s_rids s)) as [[[]|] r']; [by exists r'|done].
    + by eapply answerUpdate_ok.
  - by eapply answerUpdate_err.
Qed.

Lemma goaway_err_closes m b s e b' s' : cs_done (s_close s) = false ->
  goaway_received m b s = (Err e, b', s') -> cs_done (s_close s') = true.
Proof.
  intros Hs. unfold goaway_received. intros E.
  repeat (case_match; simplify_eq/=); simplify_eq/=; unfold Close, terminate; by rewrite Hs.
Qed.
Lemma namespace_err_closes m b s e b' s' : cs_done (s_close s) = false ->
  namespaceFollowup m b s = (Err e, b', s') -> cs_done (s_close s') = true.
Proof.
  intros Hs. unfold namespaceFollowup. intros E.
  repeat (case_match; simplify_eq/=); simplify_eq/=; unfold Close, terminate; by rewrite Hs.
Qed.

(** The part of the loop that handles a REQUEST_OK or REQUEST_ERROR. *)
Lemma response_served m (l : RequestUpdateLimiter) b s o l' b' s' : cs_done (s_close s) = false ->
  (match response_checks m b s with
   | (Err e, s) => (SStop e, l, b, s)
   | (Ok _, s) => let '(used, b, s) := route m b s in (if used then SConsumed else SMessage, l, b, s)
   end) = (o, l', b', s') ->
  (forall e, o = SStop e -> cs_done (s_close s') = true) /\
  (o = SConsumed -> b_updated b = true /\ b_waiters b <> [] /\ (length (b_waiters b') < length (b_waiters b))%nat).
Proof.
  intros Hs. destruct (response_checks m b s) as [[u|e1] s2] eqn:E.
  2: { intros [= <- <- <- <-]. split; [|done]. intros e _. eapply closes_done; [apply response_checks_closes|done|done]. }
  destruct (route m b s2) as [[used b1] s3] eqn:Er. intros [= <- <- <- <-]. split; [by destruct used|].
  intros Hu. destruct used; [|done]. unfold response_checks, mbind, sess_bind in E. destruct (b_updated b); [|done].
  split; [done|]. unfold route in Er. destruct (b_waiters b) as [|w ws]; [done|]. split; [done|].
  destruct (match m with MRequestError _ => _ | _ => _ end) as [rec rest] eqn:Em.
  destruct (mapUpdateResponse _ s2) as [r s4]. injection Er as <- _. simpl. destruct m; simplify_eq; simpl; lia.
Qed.

(** follow-ups on a request stream.  The reader ends with an error only after
    closing the session for it, or when its own write failed; a peer's
    REQUEST_UPDATE that it acts on had a fresh Request ID, is answered by exactly one
    REQUEST_OK without Track Properties or REQUEST_ERROR without a redirect, and
    gives its credit back; a response is consumed only by a waiting update. *)
Theorem followups_checked text onUpdate onFailed wok m l b s o l' b' s' : cs_done (s_close s) = false ->
  serve_step text onUpdate onFailed wok m l b s = (o, l', b', s') ->
  (forall e, o = SStop e -> cs_done (s_close s') = true \/ errors_Is e (ErrTransport "write") = true) /\
  (forall u, m = MRequestUpdate u -> o = SMessage -> exists s1, update_handled u l l' b b' s1 /\ s_rids s1 = s_rids s) /\
  (o = SConsumed -> b_updated b = true /\ b_waiters b <> [] /\ length (b_waiters b') < length (b_waiters b))%nat.
Proof.
  intros Hs. unfold serve_step. destruct (tokens_or_close_closes m) as [Ht1 Ht2].
  destruct (tokens_or_close m s) as [[toks|e0] s1] eqn:Et.
  2: { intros [= <- <- <- <-]. split_and!; [|done|done]. intros e [= <-]. left. by eapply closes_done. }
  assert (Hs1 : cs_done (s_close s1) = false) by (by rewrite (Ht2 _ _ _ Et)).
  assert (Hrids : s_rids s1 = s_rids s).
  { unfold tokens_or_close, s_processRequestTokens in Et. destruct (processRequestTokens m (s_tokens s)) as [[?|e0] c]; simplify_eq/=; [done|].
    by destruct e0. }
  assert (Hviol : forall e, cs_done (s_close (closeProtocolViolation (A:=unit) e s1).2) = true).
  { intros e. simpl. unfold Close, terminate. by rewrite Hs1. }
  clear Et Ht1 Ht2. destruct m; unfold stop_or; try (intros [= <- <- <- <-]; by split_and!).
  - destruct (goaway_received m b s1) as [[r b1] s2] eqn:E. intros [= <- <- <- <-]. split_and!; [|done|by destruct r].
    intros e He. destruct r as [u|e1]; [done|]. left. by eapply goaway_err_closes.
  - destruct (match b_handle b with Some h => _ | None => _ end); intros [= <- <- <- <-]; split_and!; try done.
    intros e _. left. apply (Hviol (Errorf "")).
  - destruct (b_noPeerNotify b); [intros [= <- <- <- <-]; split_and!; try done; intros e _; left; apply (Hviol (Errorf ""))|].
    destruct (CheckPeerParams _ _ s1) as [r s2] eqn:E. intros [= <- <- <- <-]. split_and!; [|done|by destruct r].
    intros e. destruct r as [u|e1]; [done|]. intros _. left. eapply closes_done; [apply CheckPeerParams_closes|done|done].
  - destruct (receiveUpdate _ _ _ _ _ _ _ s1) as [[[r l1] b1] s2] eqn:E. intros [= <- <- <- <-].
    pose proof (receiveUpdate_spec _ _ _ _ _ _ _ _ _ _ _ _ Hs1 E) as Hr. split_and!; [|intros u [= <-]|by destruct r].
    + intros e. destruct r as [u|e1]; [done|]. by intros [= <-].
    + destruct r as [u|e1]; [|done]. intros _. by exists s1.
  - intros E. destruct (response_served _ _ _ _ _ _ _ _ Hs1 E) as [H1 H2]. split_and!; [by left; eapply H1|done|done].
  - intros E. destruct (response_served _ _ _ _ _ _ _ _ Hs1 E) as [H1 H2]. split_and!; [by left; eapply H1|done|done].
  - destruct (namespaceFollowup _ b s1) as [[r b1] s2] eqn:E. intros [= <- <- <- <-]. split_and!; [|done|by destruct r].
    intros e He. destruct r as [u|e1]; [done|]. left. by eapply namespace_err_closes.
  - destruct (namespaceFollowup _ b s1) as [[r b1] s2] eqn:E. intros [= <- <- <- <-]. split_and!; [|done|by destruct r].
    intros e He. destruct r as [u|e1]; [done|]. left. by eapply namespace_err_closes.
Qed.

Lemma followups_checked_witness :
  let s := new_session roleServer ∅ 0 0 in
  let '(o, l', b', s') := serve_step (fun _ => []) None id true (MRequestUpdate (MkRequestUpdate 4 [])) (MkLimiter 2 0)
                            NewRequestBroker s in
  o = SMessage /\ b_events b' = [RqMsg (MRequestError (MkRequestError RequestNotSupported 0 [] None))] /\
  exists s1, update_handled (MkRequestUpdate 4 []) (MkLimiter 2 0) l' NewRequestBroker b' s1 /\ s_rids s1 = s_rids s.
Proof.
  intros s. destruct (serve_step (fun _ => []) None id true (MRequestUpdate (MkRequestUpdate 4 [])) (MkLimiter 2 0)
    NewRequestBroker s) as [[[o l'] b'] s'] eqn:E.
  destruct (followups_checked (fun _ => []) None id true (MRequestUpdate (MkRequestUpdate 4 [])) (MkLimiter 2 0)
    NewRequestBroker s o l' b' s' ltac:(reflexivity) E) as (_ & H & _).
  assert (Ho : o = SMessage) by (vm_compute in E; congruence).
  split; [exact Ho|]. split; [vm_compute in E; injection E as _ _ <- _; reflexivity|]. exact (H _ eq_refl Ho).
Defined.
