(* ===== verification/Namespaces.v ===== *)
(** * Namespaces: the relay's namespace registry

    [pkg/relay/internal/registry/namespace.go] and [namespace_state.go], with the
    waiters of [arrivals.go]: which sessions advertise which namespaces, which
    prefixes are subscribed to, and the NAMESPACE and NAMESPACE_DONE messages each
    SUBSCRIBE_NAMESPACE is owed.

    Every operation of the registry runs under its lock and is one step.  A
    subscriber's messages go through a queue of its own ([Outbox]); the goroutine
    that empties it ([RunWriter]) takes steps of its own, so other operations come
    in between as they may in the program.  Entries are shared by pointer; a pointer
    is a number here, and an operation on an entry that has left the registry
    changes nothing in it.  An operation reads the clock once ([now]), and takes
    the order in which Go iterates over a map as an argument ([iter]). *)

From stdpp Require Import gmap.
From S2P Require Import Prelude Codes Varint Wire KV Track Filter Params Properties RangeFilter Messages Tokens.
From S2P Require Import Objects Streams Session Discovery.

(** ** The queue of a namespace subscription *)

(** Without a message, the finish marker; [q_at] is when it was queued. *)
Record queuedMessage : Type := MkQueued { q_m : option Message; q_at : Z }.

(** Where [RunWriter] stands: waiting for [outReady], looking for the next
    message, writing one, returned. *)
Inductive writer : Type := WWait | WDrain | WWrite (q : queuedMessage) | WDone.

Record Outbox : Type := MkOutbox {
  ob_outbox : list queuedMessage; ob_stopped : bool; ob_ready : bool;
  ob_writer : writer; ob_closed : bool; ob_events : list req_event }.

Definition new_outbox : Outbox := MkOutbox [] false false WWait false [].

Definition maxQueuedMessages : Z := 1024.
Definition maxUnsentWait : Z := 1000000000.

Definition blockedLocked (now : Z) (o : Outbox) : bool :=
  let unsent := len (ob_outbox o) in
  let '(unsent, oldest) :=
    match ob_writer o with
    | WWrite q => (unsent + 1, q_at q)
    | _ => (unsent, match ob_outbox o with q :: _ => q_at q | [] => 0 end)
    end in
  (unsent >=? maxQueuedMessages) && (now - oldest >? maxUnsentWait).

Definition push (now : Z) (m : Message) (last : bool) (o : Outbox) : Outbox :=
  if ob_stopped o then o
  else if blockedLocked now o
  then MkOutbox [] true (ob_ready o) (ob_writer o) (ob_closed o)
         (ob_events o ++ [RqCancelWrite StreamResetExcessiveLoad; RqCancelRead StreamResetExcessiveLoad])
  else MkOutbox (ob_outbox o ++ MkQueued (Some m) now :: (if last then [MkQueued None now] else []))
         last true (ob_writer o) (ob_closed o) (ob_events o).

Definition set_writer (o : Outbox) (w : writer) (ready : bool) (out : list queuedMessage) (ev : list req_event) : Outbox :=
  MkOutbox out (ob_stopped o) ready w (ob_closed o) (ob_events o ++ ev).

(** One turn of [RunWriter].  [wok] is whether the transport takes the write, and
    [pick] which case the [select] takes when both are ready. *)
Definition writer_step (wok pick : bool) (o : Outbox) : Outbox :=
  match ob_writer o with
  | WWait =>
      if ob_closed o && (pick || negb (ob_ready o)) then set_writer o WDone (ob_ready o) (ob_outbox o) []
      else if ob_ready o then set_writer o WDrain false (ob_outbox o) []
      else o
  | WDrain =>
      match ob_outbox o with
      | [] => set_writer o (if ob_stopped o then WDone else WWait) (ob_ready o) [] []
      | q :: rest =>
          match q_m q with
          | None => set_writer o WDone (ob_ready o) rest [RqClose]
          | Some _ => set_writer o (WWrite q) (ob_ready o) rest []
          end
      end
  | WWrite q =>
      match q_m q with
      | None => o
      | Some m =>
          match marshal_events wok m with
          | Some ev => set_writer o WDrain (ob_ready o) (ob_outbox o) ev
          | None => MkOutbox [] true (ob_ready o) WDone (ob_closed o)
                      (ob_events o ++ [RqCancelRead StreamResetInternalError])
          end
      end
  | WDone => o
  end.

(** ** Entries *)

Record PublisherEntry : Type := MkPublisher {
  pe_id : Z; pe_Namespace : TrackNamespace; pe_Session : Z; pe_announced : bool; pe_Seq : Z }.

Record TracksParams : Type := MkTracksParams {
  tp_Params : Params; tp_Forward : bool; tp_GroupOrder : Z; tp_RangeFilters : option RangeFilterSet }.
Definition defaultTracksParams : TracksParams := MkTracksParams [] true 0 None.

(** The PUBLISHes being forwarded to a SUBSCRIBE_TRACKS, and those given up. *)
Record Forwards : Type := MkForwards { fw_forwarding : gset Key; fw_closed : bool; fw_skipped : gmap Key Z }.

Definition ClaimForward (key : Key) (epoch : Z) (f : Forwards) : bool * Forwards :=
  if bool_decide (key ∈ fw_forwarding f) || fw_closed f then (false, f)
  else if match fw_skipped f !! key with Some at' => at' >=? epoch | None => false end then (false, f)
  else (true, MkForwards ({[key]} ∪ fw_forwarding f) (fw_closed f) (fw_skipped f)).
Definition NoteSkipped (key : Key) (epoch : Z) (f : Forwards) : Forwards :=
  MkForwards (fw_forwarding f) (fw_closed f) (<[key := epoch]> (fw_skipped f)).
Definition ReleaseForward (key : Key) (f : Forwards) : Forwards :=
  MkForwards (fw_forwarding f ∖ {[key]}) (fw_closed f) (fw_skipped f).

Record SubscriberEntry : Type := MkSubscriber {
  se_id : Z; se_prefix : TrackNamespace; se_Session : Z; se_WantsTracks : bool; se_tracks : TracksParams;
  se_fwd : Forwards; se_announced : gmap bytes Z; se_out : Outbox }.

Definition set_view (s : SubscriberEntry) (prefix : TrackNamespace) (a : gmap bytes Z) (o : Outbox) : SubscriberEntry :=
  MkSubscriber (se_id s) prefix (se_Session s) (se_WantsTracks s) (se_tracks s) (se_fwd s) a o.
Definition SetTracksParams (p : option TracksParams) (s : SubscriberEntry) : SubscriberEntry :=
  MkSubscriber (se_id s) (se_prefix s) (se_Session s) (se_WantsTracks s) (default defaultTracksParams p) (se_fwd s)
    (se_announced s) (se_out s).
(** [close], on unregistration: what is left is the writer's business. *)
Definition sub_close (s : SubscriberEntry) : SubscriberEntry :=
  let o := se_out s in
  MkSubscriber (se_id s) (se_prefix s) (se_Session s) (se_WantsTracks s) (se_tracks s)
    (MkForwards (fw_forwarding (se_fwd s)) true (fw_skipped (se_fwd s))) (se_announced s)
    (MkOutbox (ob_outbox o) (ob_stopped o) (ob_ready o) (ob_writer o) true (ob_events o)).

Definition enqueue (now : Z) (m : Message) (s : SubscriberEntry) : SubscriberEntry :=
  set_view s (se_prefix s) (se_announced s) (push now m false (se_out s)).
Definition Finish (now : Z) (m : Message) (s : SubscriberEntry) : SubscriberEntry :=
  set_view s (se_prefix s) (se_announced s) (push now m true (se_out s)).

Definition suffixAfter (ns prefix : TrackNamespace) : TrackNamespace := drop (length prefix) ns.
Definition namespaceMessage (ns prefix : TrackNamespace) : Message := MNamespace (MkNamespace (suffixAfter ns prefix)).
Definition namespaceDoneMessage (ns prefix : TrackNamespace) : Message :=
  MNamespaceDone (MkNamespaceDone (suffixAfter ns prefix)).

(** ** The sources of a namespace *)

Record remoteNamespace : Type := MkRemote { rn_ns : TrackNamespace; rn_relays : gset bytes }.

Definition src := (gmap bytes Z * gmap bytes TrackNamespace)%type.
Definition count_pub (prefix : TrackNamespace) (acc : src) (p : PublisherEntry) : src :=
  if pe_announced p && HasPrefix (pe_Namespace p) prefix
  then let k := namespaceWireKey (pe_Namespace p) in
       (<[k := default 0 (acc.1 !! k) + 1]> acc.1, <[k := pe_Namespace p]> acc.2)
  else acc.
Definition count_remote (prefix : TrackNamespace) (k : bytes) (rn : remoteNamespace) (acc : src) : src :=
  if HasPrefix (rn_ns rn) prefix
  then (<[k := default 0 (acc.1 !! k) + Z.of_nat (base.size (rn_relays rn))]> acc.1, <[k := rn_ns rn]> acc.2)
  else acc.
(** The counts and the names by wire key; the order in which remote namespaces are
    visited does not matter, as each has its own key. *)
Definition namespaceSources (pubs : list PublisherEntry) (remote : gmap bytes remoteNamespace) (prefix : TrackNamespace)
    : src :=
  map_fold (count_remote prefix) (fold_left (count_pub prefix) pubs (∅, ∅)) remote.

Definition add_source (now : Z) (ns : TrackNamespace) (s : SubscriberEntry) : SubscriberEntry :=
  let k := namespaceWireKey ns in
  if se_WantsTracks s || negb (HasPrefix ns (se_prefix s)) then s
  else
    let n := default 0 (se_announced s !! k) + 1 in
    let s := set_view s (se_prefix s) (<[k := n]> (se_announced s)) (se_out s) in
    if n =? 1 then enqueue now (namespaceMessage ns (se_prefix s)) s else s.

Definition remove_source (now : Z) (ns : TrackNamespace) (s : SubscriberEntry) : SubscriberEntry :=
  let k := namespaceWireKey ns in
  if se_WantsTracks s || (default 0 (se_announced s !! k) =? 0) then s
  else
    let n := default 0 (se_announced s !! k) - 1 in
    if n =? 0
    then enqueue now (namespaceDoneMessage ns (se_prefix s)) (set_view s (se_prefix s) (delete k (se_announced s)) (se_out s))
    else set_view s (se_prefix s) (<[k := n]> (se_announced s)) (se_out s).

(** ** What the registry asks of a discovery store *)

Class NsAdvertiser (D : Type) : Type := {
  nsa_publish : NamespaceInfo -> D -> D;
  nsa_unpublish : TrackNamespace -> bytes -> D -> D;
  nsa_has : D -> bytes -> bytes -> bool;
  nsa_ready : D -> bytes -> Prop }.

(** The laws are about an address that is not withdrawn from an open store. *)
Class NsAdvertiserLaws (D : Type) `{!NsAdvertiser D} : Prop := {
  nsa_publish_has d i k a : nsa_ready d (ni_RelayAddr i) ->
    nsa_has (nsa_publish i d) k a = bool_decide (k = namespaceWireKey (ni_Prefix i) /\ a = ni_RelayAddr i) || nsa_has d k a;
  nsa_unpublish_has d ns a k' a' : nsa_ready d a ->
    nsa_has (nsa_unpublish ns a d) k' a' = negb (bool_decide (k' = namespaceWireKey ns /\ a' = a)) && nsa_has d k' a';
  nsa_publish_ready d i a : nsa_ready d a -> nsa_ready (nsa_publish i d) a;
  nsa_unpublish_ready d ns a a' : nsa_ready d a' -> nsa_ready (nsa_unpublish ns a d) a' }.

(** ** The registry *)

Record nsArrival : Type := MkNsArrival { na_ch : Z; na_ns : TrackNamespace; na_waiters : Z }.

Record NamespaceRegistry (D : Type) : Type := MkNames {
  nr_publishers : list PublisherEntry; nr_subscribers : list SubscriberEntry;
  nr_pubCount : gmap bytes Z; nr_seq : Z; nr_arrivals : gmap bytes nsArrival;
  nr_remote : gmap bytes remoteNamespace; nr_discovery : option D; nr_relayAddr : bytes }.
Arguments MkNames {D} _ _ _ _ _ _ _ _.
Arguments nr_publishers {D} _. Arguments nr_subscribers {D} _. Arguments nr_pubCount {D} _. Arguments nr_seq {D} _.
Arguments nr_arrivals {D} _. Arguments nr_remote {D} _. Arguments nr_discovery {D} _. Arguments nr_relayAddr {D} _.

(** The order of an iteration over a map. *)
Definition Iter : Type := forall A : Type, gmap bytes A -> list (bytes * A).
Definition is_iter (iter : Iter) : Prop := forall A (m : gmap bytes A), iter A m ≡ₚ map_to_list m.
Definition sorted_iter : Iter := fun A m => map_to_list m.

Definition notifyCoveredLocked (ns : TrackNamespace) (a : gmap bytes nsArrival) : gmap bytes nsArrival :=
  filter (fun kw => HasPrefix (na_ns kw.2) ns = false) a.
Definition ns_waitLocked (ns : TrackNamespace) (fresh : Z) (a : gmap bytes nsArrival) : Z * gmap bytes nsArrival :=
  let k := namespaceWireKey ns in
  let w := match a !! k with Some w => w | None => MkNsArrival fresh ns 0 end in
  (na_ch w, <[k := MkNsArrival (na_ch w) (na_ns w) (na_waiters w + 1)]> a).

Section Registry.
Context {D : Type} `{!NsAdvertiser D}.
Implicit Types (r : NamespaceRegistry D).

Definition NewNamespaceRegistry (d : option D) (relayAddr : bytes) : NamespaceRegistry D :=
  MkNames [] [] ∅ 0 ∅ ∅ d relayAddr.

Definition set_subscribers r (ss : list SubscriberEntry) : NamespaceRegistry D :=
  MkNames (nr_publishers r) ss (nr_pubCount r) (nr_seq r) (nr_arrivals r) (nr_remote r) (nr_discovery r) (nr_relayAddr r).
Definition set_publishers r (ps : list PublisherEntry) (cnt : gmap bytes Z) (d : option D) : NamespaceRegistry D :=
  MkNames ps (nr_subscribers r) cnt (nr_seq r) (nr_arrivals r) (nr_remote r) d (nr_relayAddr r).
Definition set_remote r (m : gmap bytes remoteNamespace) (a : gmap bytes nsArrival) : NamespaceRegistry D :=
  MkNames (nr_publishers r) (nr_subscribers r) (nr_pubCount r) (nr_seq r) a m (nr_discovery r) (nr_relayAddr r).

Definition addSourceLocked (now : Z) (ns : TrackNamespace) r : NamespaceRegistry D :=
  set_subscribers r (add_source now ns <$> nr_subscribers r).
Definition removeSourceLocked (now : Z) (ns : TrackNamespace) r : NamespaceRegistry D :=
  set_subscribers r (remove_source now ns <$> nr_subscribers r).

Definition publishNamespaceToDiscovery (ns : TrackNamespace) r (d : option D) : option D :=
  nsa_publish (MkNamespaceInfo ns (nr_relayAddr r) 0) <$> d.
Definition unpublishNamespaceFromDiscovery (ns : TrackNamespace) r (d : option D) : option D :=
  nsa_unpublish ns (nr_relayAddr r) <$> d.

(** *** Publishers *)

Definition RegisterPublisher (id : Z) (ns : TrackNamespace) (sess : Z) r : NamespaceRegistry D :=
  let key := namespaceWireKey ns in
  let seq := u64 (nr_seq r + 1) in
  let n := default 0 (nr_pubCount r !! key) + 1 in
  MkNames (nr_publishers r ++ [MkPublisher id ns sess false seq]) (nr_subscribers r) (<[key := n]> (nr_pubCount r)) seq
    (notifyCoveredLocked ns (nr_arrivals r)) (nr_remote r)
    (if n =? 1 then publishNamespaceToDiscovery ns r (nr_discovery r) else nr_discovery r) (nr_relayAddr r).

Definition AwaitPublisher (ns : TrackNamespace) (fresh : Z) r : Z * NamespaceRegistry D :=
  let '(ch, a) := ns_waitLocked ns fresh (nr_arrivals r) in (ch, set_remote r (nr_remote r) a).

Definition announce (id : Z) (p : PublisherEntry) : PublisherEntry :=
  if pe_id p =? id then MkPublisher (pe_id p) (pe_Namespace p) (pe_Session p) true (pe_Seq p) else p.
Definition AnnouncePublisher (now id : Z) r : NamespaceRegistry D :=
  match List.find (fun p => pe_id p =? id) (nr_publishers r) with
  | None => r
  | Some p =>
      addSourceLocked now (pe_Namespace p)
        (set_publishers r (announce id <$> nr_publishers r) (nr_pubCount r) (nr_discovery r))
  end.

(** What the loss of the publisher [p] does to the source and namespace counts; the
    second component is whether its namespace lost its last publisher. *)
Definition drop_publisher (now : Z) (p : PublisherEntry) r : NamespaceRegistry D * bool :=
  let r := if pe_announced p then removeSourceLocked now (pe_Namespace p) r else r in
  let key := namespaceWireKey (pe_Namespace p) in
  let n := default 0 (nr_pubCount r !! key) - 1 in
  let cnt := if n <=? 0 then delete key (nr_pubCount r) else <[key := n]> (nr_pubCount r) in
  (set_publishers r (nr_publishers r) cnt (nr_discovery r), n <=? 0).

Definition UnregisterPublisher (now id : Z) r : bool * NamespaceRegistry D :=
  match List.find (fun p => pe_id p =? id) (nr_publishers r) with
  | None => (false, r)
  | Some p =>
      let r := set_publishers r (List.filter (fun p => negb (pe_id p =? id)) (nr_publishers r)) (nr_pubCount r) (nr_discovery r) in
      let '(r, last) := drop_publisher now p r in
      (true, set_publishers r (nr_publishers r) (nr_pubCount r)
               (if last then unpublishNamespaceFromDiscovery (pe_Namespace p) r (nr_discovery r) else nr_discovery r))
  end.

(** *** Subscribers *)

(** The NAMESPACEs a new subscription starts with: those of local publishers in
    registration order, then the remote ones. *)
Fixpoint seed_local (now : Z) (prefix : TrackNamespace) (pubs : list PublisherEntry) (names : gmap bytes TrackNamespace)
    (s : SubscriberEntry) : gmap bytes TrackNamespace * SubscriberEntry :=
  match pubs with
  | [] => (names, s)
  | p :: pubs =>
      let k := namespaceWireKey (pe_Namespace p) in
      match names !! k with
      | Some _ =>
          if pe_announced p
          then seed_local now prefix pubs (delete k names) (enqueue now (namespaceMessage (pe_Namespace p) prefix) s)
          else seed_local now prefix pubs names s
      | None => seed_local now prefix pubs names s
      end
  end.
Definition enqueue_all (now : Z) (ms : list Message) (s : SubscriberEntry) : SubscriberEntry :=
  fold_left (fun s m => enqueue now m s) ms s.

Definition seed (now : Z) (iter : Iter) (s : SubscriberEntry) r : SubscriberEntry :=
  let '(counts, names) := namespaceSources (nr_publishers r) (nr_remote r) (se_prefix s) in
  let s := set_view s (se_prefix s) counts (se_out s) in
  let '(names, s) := seed_local now (se_prefix s) (nr_publishers r) names s in
  enqueue_all now ((fun kn => namespaceMessage kn.2 (se_prefix s)) <$> iter _ names) s.

Definition RegisterSubscriber (now : Z) (iter : Iter) (id : Z) (prefix : TrackNamespace) (sess : Z) (wantsTracks : bool)
    (params : option TracksParams) r : NamespaceRegistry D :=
  let s := MkSubscriber id prefix sess wantsTracks (default defaultTracksParams params) (MkForwards ∅ false ∅) ∅ new_outbox in
  set_subscribers r (nr_subscribers r ++ [if wantsTracks then s else seed now iter s r]).

Definition UnregisterSubscriber (id : Z) r : bool * NamespaceRegistry D :=
  (existsb (fun s => se_id s =? id) (nr_subscribers r),
   set_subscribers r (List.filter (fun s => negb (se_id s =? id)) (nr_subscribers r))).

Definition update_entry (id : Z) (f : SubscriberEntry -> SubscriberEntry) r : NamespaceRegistry D :=
  set_subscribers r ((fun s => if se_id s =? id then f s else s) <$> nr_subscribers r).

(** [UpdatePrefix] on the entry [s]: the old namespaces done, the answer, the new
    ones announced. *)
Definition update_prefix_of (now : Z) (iter : Iter) (prefix : TrackNamespace) (ok : Message) r (s : SubscriberEntry)
    : SubscriberEntry :=
  let old := se_prefix s in
  let s' := set_view s prefix (se_announced s) (se_out s) in
  if se_WantsTracks s then enqueue now ok s'
  else
    let '(counts, names) := namespaceSources (nr_publishers r) (nr_remote r) prefix in
    let oldNames := (namespaceSources (nr_publishers r) (nr_remote r) old).2 in
    let gone := List.filter (fun kn => bool_decide (counts !! kn.1 = None)) (iter _ (se_announced s)) in
    let fresh := List.filter (fun kn => bool_decide (se_announced s !! kn.1 = None)) (iter _ names) in
    let s' := enqueue_all now ((fun kn => namespaceDoneMessage (default [] (oldNames !! kn.1)) old) <$> gone) s' in
    let s' := enqueue now ok s' in
    let s' := enqueue_all now ((fun kn => namespaceMessage kn.2 prefix) <$> fresh) s' in
    set_view s' prefix counts (se_out s').
Definition UpdatePrefix (now : Z) (iter : Iter) (id : Z) (prefix : TrackNamespace) (ok : Message) r : NamespaceRegistry D :=
  update_entry id (update_prefix_of now iter prefix ok r) r.

Definition reg_PublishSkipped (now id : Z) (ns : TrackNamespace) (name : bytes) r : bool * NamespaceRegistry D :=
  match List.find (fun s => se_id s =? id) (nr_subscribers r) with
  | None => (false, r)
  | Some s =>
      if negb (HasPrefix ns (se_prefix s)) then (false, r)
      else (true, update_entry id (fun s => enqueue now (MPublishSkipped (MkPublishSkipped (suffixAfter ns (se_prefix s)) name)) s) r)
  end.

(** *** Sessions and remote relays *)

(** The loop over the publishers of a session that ends. *)
Definition drop_publishers (now : Z) (ps : list PublisherEntry) (acc : NamespaceRegistry D * list TrackNamespace)
    : NamespaceRegistry D * list TrackNamespace :=
  fold_left (fun acc p => let '(r, last) := drop_publisher now p acc.1 in
                          (r, acc.2 ++ (if last then [pe_Namespace p] else []))) ps acc.

Definition ns_RemoveSession (now sess : Z) r : (Z * Z) * NamespaceRegistry D :=
  let '(r, toUnadvertise) := drop_publishers now (List.filter (fun p => pe_Session p =? sess) (nr_publishers r)) (r, []) in
  let pubs := List.filter (fun p => negb (pe_Session p =? sess)) (nr_publishers r) in
  let subs := List.filter (fun s => negb (se_Session s =? sess)) (nr_subscribers r) in
  (len (nr_publishers r) - len pubs, len (nr_subscribers r) - len subs,
   MkNames pubs subs (nr_pubCount r) (nr_seq r) (nr_arrivals r) (nr_remote r)
     (fold_left (fun d ns => unpublishNamespaceFromDiscovery ns r d) toUnadvertise (nr_discovery r)) (nr_relayAddr r)).

(** One more relay, or one fewer, advertising [ns]. *)
Definition add_relay (now : Z) (ns : TrackNamespace) (addr : bytes) r : NamespaceRegistry D :=
  let k := namespaceWireKey ns in
  let rn := match nr_remote r !! k with Some rn => rn | None => MkRemote ns ∅ end in
  if bool_decide (addr ∈ rn_relays rn) then r
  else addSourceLocked now ns
         (set_remote r (<[k := MkRemote (rn_ns rn) ({[addr]} ∪ rn_relays rn)]> (nr_remote r)) (notifyCoveredLocked ns (nr_arrivals r))).
Definition remove_relay (now : Z) (ns : TrackNamespace) (addr : bytes) r : NamespaceRegistry D :=
  let k := namespaceWireKey ns in
  match nr_remote r !! k with
  | None => r
  | Some rn =>
      if bool_decide (addr ∈ rn_relays rn) then
        let left := rn_relays rn ∖ {[addr]} in
        removeSourceLocked now ns
          (set_remote r (if bool_decide (left = ∅) then delete k (nr_remote r) else <[k := MkRemote (rn_ns rn) left]> (nr_remote r))
             (nr_arrivals r))
      else r
  end.
Definition RemoteNamespace (now : Z) (ns : TrackNamespace) (relayAddr : bytes) (published : bool) r : NamespaceRegistry D :=
  if published then add_relay now ns relayAddr r else remove_relay now ns relayAddr r.

(** What a snapshot asks for, by wire key. *)
Definition wanted (ads : list NamespaceInfo) : gmap bytes remoteNamespace :=
  fold_left (fun m ad =>
    let k := namespaceWireKey (ni_Prefix ad) in
    let w := match m !! k with Some w => w | None => MkRemote (ni_Prefix ad) ∅ end in
    <[k := MkRemote (rn_ns w) ({[ni_RelayAddr ad]} ∪ rn_relays w)]> m) ads ∅.

(** [ReplaceRemote]: every wanted advertisement added, then the others removed.  A
    namespace's relays have the same effect on its subscribers, so the order among
    them does not matter. *)
Definition ReplaceRemote (now : Z) (iter : Iter) (ads : list NamespaceInfo) r : NamespaceRegistry D :=
  let want := wanted ads in
  let r := fold_left (fun r kw => fold_left (fun r addr => add_relay now (rn_ns kw.2) addr r) (elements (rn_relays kw.2)) r)
             (iter _ want) r in
  fold_left (fun r kn =>
    let keep := match want !! kn.1 with Some w => rn_relays w | None => ∅ end in
    fold_left (fun r addr => remove_relay now (rn_ns kn.2) addr r) (elements (rn_relays kn.2 ∖ keep)) r)
    (iter _ (nr_remote r)) r.

(** *** Queries *)

Definition MatchPublishers (ns : TrackNamespace) r : list PublisherEntry :=
  List.filter (fun p => HasPrefix ns (pe_Namespace p)) (nr_publishers r).
Definition MatchSubscribers (ns : TrackNamespace) r : list SubscriberEntry :=
  List.filter (fun s => HasPrefix ns (se_prefix s)) (nr_subscribers r).
End Registry.

(** The in-memory store is a discovery store for namespaces. *)
#[global] Instance MemoryStore_NsAdvertiser : NsAdvertiser MemoryStore := {
  nsa_publish i s := (PublishNamespace 1 i s).2;
  nsa_unpublish ns a s := (UnpublishNamespace ns a s).2;
  nsa_has s k a := bool_decide (is_Some (ms_namespaces s !! (k, a)));
  nsa_ready s a := ms_closed s = false /\ a ∉ ms_withdrawn s }.

#[global] Instance MemoryStore_NsLaws : NsAdvertiserLaws MemoryStore.
Proof.
  split; simpl.
  - intros d i k a [Hc Hw]. unfold PublishNamespace. rewrite Hc, (bool_decide_false (_ ∈ _)) by done. simpl.
    set (j := if ni_PublishedAt i =? 0 then _ else _).
    assert (Hj : namespaceEntryKey j = (namespaceWireKey (ni_Prefix i), ni_RelayAddr i)) by (unfold j; by case_match).
    rewrite Hj. apply eq_iff_eq_true. rewrite orb_true_iff, !bool_decide_eq_true.
    destruct (decide (k = namespaceWireKey (ni_Prefix i) /\ a = ni_RelayAddr i)) as [[-> ->]|Hne].
    + rewrite lookup_insert_eq. naive_solver.
    + rewrite lookup_insert_ne; [naive_solver|]. intros E. apply Hne. by simplify_eq.
  - intros d ns a k' a' [Hc _]. unfold UnpublishNamespace. rewrite Hc.
    apply eq_iff_eq_true. rewrite andb_true_iff, negb_true_iff, bool_decide_eq_false, !bool_decide_eq_true.
    destruct (ms_namespaces d !! (namespaceWireKey ns, a)) as [info|] eqn:E; simpl.
    + destruct (decide (k' = namespaceWireKey ns /\ a' = a)) as [[-> ->]|Hne].
      * rewrite lookup_delete_eq. split; [by intros []|naive_solver].
      * rewrite lookup_delete_ne; [naive_solver|]. intros E'. apply Hne. by simplify_eq.
    + split; [|naive_solver]. intros Hs. split; [|done]. intros [-> ->]. rewrite E in Hs. by destruct Hs.
  - intros d i a [Hc Hw]. unfold PublishNamespace. rewrite Hc. by case_bool_decide.
  - intros d ns a a' [Hc Hw]. unfold UnpublishNamespace. rewrite Hc. by case_match.
Qed.

(** The answer to an update. *)
Definition update_ok : RequestOK := MkRequestOK [] [].

(** ** What a subscriber makes of its stream

    A subscriber knows its prefix, the REQUEST_UPDATEs it awaits an answer to (the
    prefix each asks for, if any) and the namespaces announced and not withdrawn.
    It cannot make sense of a NAMESPACE for a namespace it knows, of a
    NAMESPACE_DONE for one it does not know, of an answer to nothing, or of a message
    that does not belong on the stream. *)
Record view : Type := MkView {
  v_prefix : TrackNamespace; v_pending : list (option TrackNamespace); v_known : gset bytes }.

Definition view_step (v : view) (m : Message) : option view :=
  match m with
  | MNamespace n =>
      let k := namespaceWireKey (v_prefix v ++ ns_Suffix n) in
      if bool_decide (k ∈ v_known v) then None else Some (MkView (v_prefix v) (v_pending v) ({[k]} ∪ v_known v))
  | MNamespaceDone n =>
      let k := namespaceWireKey (v_prefix v ++ nsd_Suffix n) in
      if bool_decide (k ∈ v_known v) then Some (MkView (v_prefix v) (v_pending v) (v_known v ∖ {[k]})) else None
  | MRequestOK (MkRequestOK [] []) =>
      match v_pending v with
      | [] => None
      | u :: us => Some (MkView (default (v_prefix v) u) us (v_known v))
      end
  | MRequestError _ | MPublishSkipped _ => Some v
  | _ => None
  end.

Fixpoint replay (v : view) (ms : list Message) : option view :=
  match ms with [] => Some v | m :: ms' => match view_step v m with Some v' => replay v' ms' | None => None end end.

Definition msgs_of (ev : list req_event) : list Message := omap (fun e => match e with RqMsg m => Some m | _ => None end) ev.
Definition in_hand (w : writer) : list Message := match w with WWrite q => option_list (q_m q) | _ => [] end.
(** What has been written, is being written and waits to be. *)
Definition history (o : Outbox) : list Message := msgs_of (ob_events o) ++ in_hand (ob_writer o) ++ omap q_m (ob_outbox o).

(** The queue [o] takes a subscriber from [v0] to [v], unless it was stopped. *)
Definition tracks (v0 : view) (o : Outbox) (v : view) : Prop :=
  exists v', replay v0 (history o) = Some v' /\ (ob_stopped o = false -> v' = v).

Lemma replay_app v l1 l2 : replay v (l1 ++ l2) = match replay v l1 with Some v' => replay v' l2 | None => None end.
Proof. revert v. induction l1 as [|m l1 IH]; intros v; simpl; [done|]. destruct (view_step v m); [apply IH|done]. Qed.

Lemma replay_prefix v l1 l2 v' : l1 `prefix_of` l2 -> replay v l2 = Some v' -> exists v1, replay v l1 = Some v1.
Proof. intros [k ->]. rewrite replay_app. destruct (replay v l1); [eauto|done]. Qed.

Lemma push_history now m last o :
  history (push now m last o) `prefix_of` history o ++ [m] /\
  (ob_stopped (push now m last o) = false -> ob_stopped o = false /\ history (push now m last o) = history o ++ [m]).
Proof.
  unfold push. destruct (ob_stopped o) eqn:Es.
  { split; [by apply prefix_app_r|congruence]. }
  destruct (blockedLocked now o).
  - unfold history; simpl. split; [|done]. unfold msgs_of. rewrite omap_app; simpl. rewrite !app_nil_r, <- !app_assoc.
    apply prefix_app, prefix_app_r, reflexivity.
  - assert (E : history (MkOutbox (ob_outbox o ++ MkQueued (Some m) now :: (if last then [MkQueued None now] else [])) last true
                (ob_writer o) (ob_closed o) (ob_events o)) = history o ++ [m]).
    { unfold history; simpl. rewrite omap_app. rewrite <- !app_assoc. by destruct last. }
    by rewrite E.
Qed.

Lemma tracks_push v0 o v now m last v2 : view_step v m = Some v2 -> tracks v0 o v ->
  tracks v0 (push now m last o) v2.
Proof.
  intros Hm (v' & Hr & Hv). destruct (push_history now m last o) as [Hp Hs]. destruct (ob_stopped o) eqn:Es.
  - exists v'. unfold push. rewrite Es. split; [done|congruence].
  - specialize (Hv eq_refl) as ->. assert (Ha : replay v0 (history o ++ [m]) = Some v2).
    { rewrite replay_app, Hr. simpl. by rewrite Hm. }
    destruct (replay_prefix _ _ _ _ Hp Ha) as [v1 Hv1]. exists v1. split; [done|]. intros Hn.
    destruct (Hs Hn) as [_ E]. rewrite E in Hv1. congruence.
Qed.

Lemma writer_history wok pick o :
  history (writer_step wok pick o) `prefix_of` history o /\
  (ob_stopped (writer_step wok pick o) = false ->
   ob_stopped o = false /\ history (writer_step wok pick o) = history o).
Proof.
  assert (Hsame : forall o', history o' = history o -> ob_stopped o' = ob_stopped o ->
    history o' `prefix_of` history o /\ (ob_stopped o' = false -> ob_stopped o = false /\ history o' = history o)).
  { intros o' -> ->. done. }
  unfold writer_step. destruct (ob_writer o) as [| |q|] eqn:Ew; [| | |by apply Hsame].
  - repeat case_match; apply Hsame; try done; unfold history, set_writer; simpl; by rewrite app_nil_r, Ew.
  - destruct (ob_outbox o) as [|q rest] eqn:Eo.
    + apply Hsame; [|done]. unfold history, set_writer; simpl. rewrite app_nil_r, Ew, Eo. by destruct (ob_stopped o).
    + destruct (q_m q) as [m|] eqn:Eq; apply Hsame; try done; unfold history, set_writer, msgs_of; simpl;
        rewrite ?omap_app, Ew, Eo; simpl; rewrite Eq, ?app_nil_r; done.
  - destruct (q_m q) as [m|] eqn:Eq; [|by apply Hsame]. unfold marshal_events. destruct (Marshal [] m); simpl.
    + destruct wok; simpl.
      * apply (Hsame (set_writer o WDrain (ob_ready o) (ob_outbox o) [RqMsg m])); [|done].
        unfold history, set_writer, msgs_of; simpl. rewrite omap_app, Ew; simpl. rewrite Eq.
        by rewrite <- app_assoc.
      * split; [|done]. unfold history, msgs_of; simpl. rewrite omap_app; simpl. rewrite !app_nil_r. by apply prefix_app_r.
    + split; [|done]. unfold history, msgs_of; simpl. rewrite omap_app; simpl. rewrite !app_nil_r. by apply prefix_app_r.
Qed.

Lemma tracks_writer v0 o v wok pick : tracks v0 o v -> tracks v0 (writer_step wok pick o) v.
Proof.
  intros (v' & Hr & Hv). destruct (writer_history wok pick o) as [Hp Hs].
  destruct (replay_prefix _ _ _ _ Hp Hr) as [v1 Hv1]. exists v1. split; [done|]. intros Hn.
  destruct (Hs Hn) as [Hn' E]. rewrite E, Hr in Hv1. injection Hv1 as <-. auto.
Qed.

(** One more REQUEST_UPDATE, [u], is under way. *)
Definition ask (u : option TrackNamespace) (v : view) : view := MkView (v_prefix v) (v_pending v ++ [u]) (v_known v).

Lemma view_step_ask u v m v' : view_step v m = Some v' -> view_step (ask u v) m = Some (ask u v').
Proof.
  destruct m; simpl; try done; try (by intros [= <-]); try (repeat case_bool_decide; naive_solver).
  repeat case_match; naive_solver.
Qed.

Lemma replay_ask u ms : forall v v', replay v ms = Some v' -> replay (ask u v) ms = Some (ask u v').
Proof.
  induction ms as [|m ms IH]; intros v v'; simpl; [by intros [= <-]|].
  destruct (view_step v m) as [v1|] eqn:E; [|done]. intros H. rewrite (view_step_ask _ _ _ _ E). auto.
Qed.

Lemma tracks_ask u v0 o v : tracks v0 o v -> tracks (ask u v0) o (ask u v).
Proof. intros (v' & Hr & Hv). exists (ask u v'). split; [by apply replay_ask|]. intros H. by rewrite (Hv H). Qed.

(** Several messages in a row. *)
Definition push_all (now : Z) (ms : list Message) (o : Outbox) : Outbox := fold_left (fun o m => push now m false o) ms o.

Lemma tracks_push_all v0 now ms : forall o v v2, replay v ms = Some v2 -> tracks v0 o v -> tracks v0 (push_all now ms o) v2.
Proof.
  induction ms as [|m ms IH]; intros o v v2; simpl; [by intros [= <-]|].
  destruct (view_step v m) as [v1|] eqn:E; [|done]. intros H Ht. eapply IH; [done|]. by eapply tracks_push.
Qed.

Lemma set_view_id s : set_view s (se_prefix s) (se_announced s) (se_out s) = s.
Proof. by destruct s. Qed.

Lemma enqueue_all_view now ms : forall s,
  enqueue_all now ms s = set_view s (se_prefix s) (se_announced s) (push_all now ms (se_out s)).
Proof.
  induction ms as [|m ms IH]; intros s; [by unfold enqueue_all; simpl; rewrite set_view_id|].
  change (enqueue_all now (m :: ms) s) with (enqueue_all now ms (enqueue now m s)). by rewrite IH.
Qed.

Lemma suffix_app ns prefix : HasPrefix ns prefix = true -> prefix ++ suffixAfter ns prefix = ns.
Proof. rewrite HasPrefix_spec. intros [k ->]. unfold suffixAfter. by rewrite drop_app_length. Qed.

(** A namespace under [prefix], with its wire key. *)
Definition named (prefix : TrackNamespace) (k : bytes) (ns : TrackNamespace) : Prop :=
  wf_ns ns /\ namespaceWireKey ns = k /\ HasPrefix ns prefix = true.

Lemma named_inj p p' k ns ns' : named p k ns -> named p' k ns' -> ns = ns'.
Proof. intros (Hw & <- & _) (Hw' & E & _). by apply namespaceWireKey_inj. Qed.

Lemma replay_announce prefix pend l : forall K, NoDup l.*1 -> (forall k ns, (k, ns) ∈ l -> named prefix k ns /\ k ∉ K) ->
  replay (MkView prefix pend K) ((fun kn : bytes * TrackNamespace => namespaceMessage kn.2 prefix) <$> l)
  = Some (MkView prefix pend (K ∪ list_to_set l.*1)).
Proof.
  induction l as [|[k ns] l IH]; intros K Hnd Hl; simpl; [do 2 f_equal; set_solver|].
  apply NoDup_cons in Hnd as [Hk Hnd]. destruct (Hl k ns) as [(Hw & Hkey & Hp) HK]; [left|].
  rewrite suffix_app by done. rewrite Hkey, bool_decide_false by done. rewrite IH.
  - do 2 f_equal. set_solver.
  - done.
  - intros k' ns' Hin. destruct (Hl k' ns') as [Hn HK']; [by right|]. split; [done|].
    intros [->%elem_of_singleton|]%elem_of_union; [|done]. apply Hk, list_elem_of_fmap. by exists (k, ns').
Qed.

Lemma replay_withdraw {A} (name : bytes -> TrackNamespace) prefix pend (l : list (bytes * A)) : forall K, NoDup l.*1 ->
  (forall k, k ∈ l.*1 -> named prefix k (name k) /\ k ∈ K) ->
  replay (MkView prefix pend K) ((fun kn => namespaceDoneMessage (name kn.1) prefix) <$> l)
  = Some (MkView prefix pend (K ∖ list_to_set l.*1)).
Proof.
  induction l as [|[k a] l IH]; intros K Hnd Hl; simpl; [do 2 f_equal; set_solver|].
  apply NoDup_cons in Hnd as [Hk Hnd]. destruct (Hl k) as [(Hw & Hkey & Hp) HK]; [left|].
  rewrite suffix_app by done. rewrite Hkey, bool_decide_true by done. rewrite IH.
  - do 2 f_equal. set_solver.
  - done.
  - intros k' Hin. destruct (Hl k') as [Hn HK']; [by right|]. split; [done|]. set_solver.
Qed.

(** ** Counting sources *)

(** A count as the map holds it: no entry for 0. *)
Definition cnt (n : Z) : option Z := if n =? 0 then None else Some n.

Definition is_source (prefix : TrackNamespace) (k : bytes) (p : PublisherEntry) : bool :=
  pe_announced p && HasPrefix (pe_Namespace p) prefix && bool_decide (namespaceWireKey (pe_Namespace p) = k).
Definition pub_at (ps : list PublisherEntry) (prefix : TrackNamespace) (k : bytes) : Z :=
  len (List.filter (is_source prefix k) ps).
Definition rem_at (rm : gmap bytes remoteNamespace) (prefix : TrackNamespace) (k : bytes) : Z :=
  match rm !! k with
  | Some rn => if HasPrefix (rn_ns rn) prefix then Z.of_nat (base.size (rn_relays rn)) else 0
  | None => 0
  end.
(** How many sources the namespace with wire key [k] has, if it is under [prefix]. *)
Definition src_at (ps : list PublisherEntry) (rm : gmap bytes remoteNamespace) (prefix : TrackNamespace) (k : bytes) : Z :=
  pub_at ps prefix k + rem_at rm prefix k.

Definition pubs_ok (ps : list PublisherEntry) : Prop := Forall (fun p => wf_ns (pe_Namespace p)) ps.
Definition rem_ok (rm : gmap bytes remoteNamespace) : Prop :=
  forall k rn, rm !! k = Some rn -> wf_ns (rn_ns rn) /\ namespaceWireKey (rn_ns rn) = k /\ rn_relays rn <> ∅.

Lemma cnt_default n : default 0 (cnt n) = n.
Proof. unfold cnt. destruct (Z.eqb_spec n 0); simpl; lia. Qed.

Lemma cnt_pos n : n <> 0 -> cnt n = Some n.
Proof. unfold cnt. by destruct (Z.eqb_spec n 0). Qed.

Lemma pub_at_nonneg ps prefix k : 0 <= pub_at ps prefix k.
Proof. apply len_nonneg. Qed.
Lemma rem_at_nonneg rm prefix k : 0 <= rem_at rm prefix k.
Proof. unfold rem_at. repeat case_match; lia. Qed.
Lemma src_at_nonneg ps rm prefix k : 0 <= src_at ps rm prefix k.
Proof. unfold src_at. pose proof (pub_at_nonneg ps prefix k). pose proof (rem_at_nonneg rm prefix k). lia. Qed.

Lemma pub_at_cons p ps prefix k : pub_at (p :: ps) prefix k = (if is_source prefix k p then 1 else 0) + pub_at ps prefix k.
Proof. unfold pub_at. simpl. destruct (is_source prefix k p); rewrite ?len_cons; lia. Qed.

(** What holds of the two maps once the namespaces counted are those of [c]. *)
Record src_spec (prefix : TrackNamespace) (acc : src) (c : bytes -> Z) : Prop := {
  sp_counts k : acc.1 !! k = cnt (c k);
  sp_dom k : is_Some (acc.2 !! k) <-> is_Some (acc.1 !! k);
  sp_names k ns : acc.2 !! k = Some ns -> named prefix k ns }.

(** Counting [n] more sources of [ns]. *)
Lemma src_spec_add prefix acc c ns n : wf_ns ns -> HasPrefix ns prefix = true -> 0 < n -> (forall k, 0 <= c k) ->
  src_spec prefix acc c ->
  let k0 := namespaceWireKey ns in
  src_spec prefix (<[k0 := default 0 (acc.1 !! k0) + n]> acc.1, <[k0 := ns]> acc.2)
    (fun k => c k + if bool_decide (k0 = k) then n else 0).
Proof.
  intros Hw Hp Hn Hc H k0. split; simpl; intros k.
  - destruct (decide (k0 = k)) as [<-|Hne].
    + rewrite lookup_insert_eq, bool_decide_true, (sp_counts _ _ _ H), cnt_default by done. symmetry. apply cnt_pos.
      specialize (Hc k0). lia.
    + rewrite lookup_insert_ne, bool_decide_false, (sp_counts _ _ _ H) by done. f_equal. lia.
  - destruct (decide (k0 = k)) as [<-|Hne]; [rewrite !lookup_insert_eq; naive_solver|].
    rewrite !lookup_insert_ne by done. apply H.
  - intros ns'. destruct (decide (k0 = k)) as [<-|Hne].
    + rewrite lookup_insert_eq. by intros [= <-].
    + rewrite lookup_insert_ne by done. apply H.
Qed.

Lemma src_spec_ext prefix acc c c' : (forall k, c k = c' k) -> src_spec prefix acc c -> src_spec prefix acc c'.
Proof. intros E H. split; [intros k; rewrite <- E|..]; apply H. Qed.

Lemma fold_pub_spec prefix ps : forall acc c, pubs_ok ps -> (forall k, 0 <= c k) -> src_spec prefix acc c ->
  src_spec prefix (fold_left (count_pub prefix) ps acc) (fun k => c k + pub_at ps prefix k).
Proof.
  induction ps as [|p ps IH]; intros acc c Hp Hc H; simpl.
  - eapply src_spec_ext; [|done]. intros k. unfold pub_at; simpl. rewrite len_nil. lia.
  - apply Forall_cons in Hp as [Hw Hp]. unfold count_pub at 2. destruct (pe_announced p && _) eqn:E.
    + pose proof E as [Ea Eh]%andb_true_iff.
      eapply src_spec_ext; [|apply IH; [done| |apply (src_spec_add prefix acc c _ 1); [done|done|lia|done|done]]].
      * intros k. simpl. rewrite pub_at_cons. unfold is_source. rewrite E; simpl. lia.
      * intros k. simpl. specialize (Hc k). case_bool_decide; lia.
    + eapply src_spec_ext; [|by apply IH]. intros k. simpl. rewrite pub_at_cons. unfold is_source. rewrite E; simpl. lia.
Qed.

Lemma namespaceSources_spec ps rm prefix : pubs_ok ps -> rem_ok rm ->
  src_spec prefix (namespaceSources ps rm prefix) (src_at ps rm prefix).
Proof.
  intros Hp. unfold namespaceSources.
  assert (Hb : src_spec prefix (fold_left (count_pub prefix) ps (∅, ∅)) (fun k => pub_at ps prefix k)).
  { eapply src_spec_ext; [|apply (fold_pub_spec prefix ps (∅, ∅) (fun _ => 0)); [done|lia|]].
    - intros k. simpl. lia.
    - split; simpl; intros k; rewrite ?lookup_empty; try done. }
  revert Hb. generalize (fold_left (count_pub prefix) ps (∅, ∅)). intros b Hb. revert rm.
  apply (map_fold_weak_ind (fun (acc : src) (rm : gmap bytes remoteNamespace) => rem_ok rm -> src_spec prefix acc (src_at ps rm prefix))).
  - intros _. eapply src_spec_ext; [|exact Hb]. intros k. unfold src_at, rem_at. rewrite lookup_empty. lia.
  - intros k0 rn rm acc Hk0 IH Hr. destruct (Hr k0 rn) as (Hw & Hkey & Hne); [by rewrite lookup_insert_eq|].
    assert (Hr' : rem_ok rm).
    { intros k rn' E. apply Hr. rewrite lookup_insert_ne; [done|]. intros ->. congruence. }
    specialize (IH Hr'). unfold count_remote. destruct (HasPrefix (rn_ns rn) prefix) eqn:Eh.
    + assert (Hpos : 0 < Z.of_nat (base.size (rn_relays rn))).
      { enough (base.size (rn_relays rn) <> 0%nat) by lia. intros E%size_empty_inv. by apply Hne, leibniz_equiv. }
      pose proof (src_spec_add prefix acc _ _ _ Hw Eh Hpos (src_at_nonneg ps rm prefix) IH) as Hs. simpl in Hs.
      rewrite Hkey in Hs. eapply src_spec_ext; [|exact Hs]. intros k. simpl. unfold src_at, rem_at.
      destruct (decide (k0 = k)) as [<-|Hn].
      * rewrite lookup_insert_eq, bool_decide_true, Hk0, Eh by done. lia.
      * rewrite lookup_insert_ne, bool_decide_false by done. lia.
    + eapply src_spec_ext; [|exact IH]. intros k. unfold src_at, rem_at. destruct (decide (k0 = k)) as [<-|Hn].
      * by rewrite lookup_insert_eq, Hk0, Eh.
      * by rewrite lookup_insert_ne.
Qed.

(** ** A subscriber that is up to date

    [c prefix k] is the number of sources; [v0] is the view the subscriber started
    from, with the updates it has sent since. *)
Record sub_ok (c : TrackNamespace -> bytes -> Z) (v0 : view) (s : SubscriberEntry) : Prop := {
  so_counts k : se_announced s !! k = if se_WantsTracks s then None else cnt (c (se_prefix s) k);
  so_tracks : tracks v0 (se_out s) (MkView (se_prefix s) [] (dom (se_announced s))) }.

Definition delta (ns prefix : TrackNamespace) (k : bytes) : Z :=
  if HasPrefix ns prefix && bool_decide (namespaceWireKey ns = k) then 1 else 0.

Lemma sub_ok_ext c c' v0 s : (forall p k, c' p k = c p k) -> sub_ok c v0 s -> sub_ok c' v0 s.
Proof. intros E [H1 H2]. split; [intros k; by rewrite E|done]. Qed.

Lemma sub_ok_announced c v0 s k : se_WantsTracks s = false -> sub_ok c v0 s -> default 0 (se_announced s !! k) = c (se_prefix s) k.
Proof. intros Hw H. by rewrite (so_counts _ _ _ H), Hw, cnt_default. Qed.

Lemma sub_ok_known c v0 s k : se_WantsTracks s = false -> sub_ok c v0 s -> k ∈ dom (se_announced s) <-> c (se_prefix s) k <> 0.
Proof.
  intros Hw H. rewrite elem_of_dom, (so_counts _ _ _ H), Hw. unfold cnt. destruct (Z.eqb_spec (c (se_prefix s) k) 0); [|naive_solver].
  split; [by intros []|done].
Qed.

Lemma add_source_ok now ns c c' v0 s : (forall p k, 0 <= c p k) -> (forall p k, c' p k = c p k + delta ns p k) ->
  sub_ok c v0 s -> sub_ok c' v0 (add_source now ns s).
Proof.
  intros Hc Hc' H. unfold add_source. destruct (se_WantsTracks s) eqn:Ew; simpl.
  { split; [|apply H]. intros k. rewrite (so_counts _ _ _ H), Ew. done. }
  destruct (HasPrefix ns (se_prefix s)) eqn:Eh; simpl.
  2:{ split; [|apply H]. intros k. rewrite (so_counts _ _ _ H), Ew, Hc'. unfold delta. rewrite Eh; simpl. f_equal. lia. }
  rewrite (sub_ok_announced _ _ _ _ Ew H). set (k0 := namespaceWireKey ns). set (n := c (se_prefix s) k0 + 1).
  assert (Hcounts : forall k, <[k0 := n]> (se_announced s) !! k = cnt (c' (se_prefix s) k)).
  { intros k. rewrite Hc'. unfold delta. rewrite Eh; simpl. fold k0. destruct (decide (k0 = k)) as [<-|Hne].
    - rewrite lookup_insert_eq, bool_decide_true by done. symmetry. apply cnt_pos. specialize (Hc (se_prefix s) k0). lia.
    - rewrite lookup_insert_ne, bool_decide_false, (so_counts _ _ _ H), Ew by done. f_equal. lia. }
  destruct (Z.eqb_spec n 1) as [En|En].
  - split; simpl; [intros k; rewrite Ew; apply Hcounts|]. eapply tracks_push; [|apply H]. simpl.
    rewrite suffix_app by done. fold k0. rewrite bool_decide_false; [by rewrite dom_insert_L|].
    rewrite (sub_ok_known _ _ _ _ Ew H). unfold n in En. lia.
  - split; simpl; [intros k; rewrite Ew; apply Hcounts|]. rewrite dom_insert_L.
    replace ({[k0]} ∪ dom (se_announced s)) with (dom (se_announced s)); [apply H|].
    assert (k0 ∈ dom (se_announced s)); [|set_solver]. rewrite (sub_ok_known _ _ _ _ Ew H). unfold n in En. lia.
Qed.

Lemma remove_source_ok now ns c c' v0 s : (forall p k, 0 <= c' p k) -> (forall p k, c' p k = c p k - delta ns p k) ->
  (forall p, HasPrefix ns p = false -> c p (namespaceWireKey ns) = 0) ->
  sub_ok c v0 s -> sub_ok c' v0 (remove_source now ns s).
Proof.
  intros Hc Hc' Hz H. unfold remove_source. destruct (se_WantsTracks s) eqn:Ew; simpl.
  { split; [|apply H]. intros k. rewrite (so_counts _ _ _ H), Ew. done. }
  rewrite (sub_ok_announced _ _ _ _ Ew H). set (k0 := namespaceWireKey ns) in *. pose proof (Hc (se_prefix s) k0) as Hc0.
  destruct (Z.eqb_spec (c (se_prefix s) k0) 0) as [E0|E0].
  { split; [|apply H]. intros k. rewrite (so_counts _ _ _ H), Ew. f_equal. rewrite Hc' in Hc0 |- *.
    unfold delta in Hc0 |- *. fold k0 in Hc0 |- *.
    rewrite (bool_decide_true (k0 = k0)) in Hc0 by done.
    destruct (HasPrefix ns (se_prefix s)); simpl in *; [|lia]. case_bool_decide; lia. }
  destruct (HasPrefix ns (se_prefix s)) eqn:Eh; [|by rewrite Hz in E0].
  assert (Hk : c' (se_prefix s) k0 = c (se_prefix s) k0 - 1).
  { rewrite Hc'. unfold delta. fold k0. by rewrite Eh, bool_decide_true. }
  assert (Hn : forall k, k0 <> k -> se_announced s !! k = cnt (c' (se_prefix s) k)).
  { intros k Hne. rewrite (so_counts _ _ _ H), Ew, Hc'. unfold delta. fold k0. rewrite bool_decide_false, andb_false_r by done.
    f_equal. lia. }
  destruct (Z.eqb_spec (c (se_prefix s) k0 - 1) 0) as [E1|E1]; split; simpl.
  - intros k. rewrite Ew. destruct (decide (k0 = k)) as [<-|Hne]; [|rewrite lookup_delete_ne; auto].
    rewrite lookup_delete_eq, Hk, E1. done.
  - eapply tracks_push; [|apply H]. simpl. rewrite suffix_app by done. fold k0.
    rewrite bool_decide_true; [by rewrite dom_delete_L|]. by rewrite (sub_ok_known _ _ _ _ Ew H).
  - intros k. rewrite Ew. destruct (decide (k0 = k)) as [<-|Hne]; [|rewrite lookup_insert_ne; auto].
    rewrite lookup_insert_eq, Hk. symmetry. by apply cnt_pos.
  - rewrite dom_insert_L. replace ({[k0]} ∪ dom (se_announced s)) with (dom (se_announced s)); [apply H|].
    assert (k0 ∈ dom (se_announced s)); [|set_solver]. by rewrite (sub_ok_known _ _ _ _ Ew H).
Qed.

Implicit Types (iter : Iter).

Lemma iter_nodup iter A (m : gmap bytes A) : is_iter iter -> NoDup (iter A m).*1.
Proof. intros H. rewrite (H A m). apply NoDup_fst_map_to_list. Qed.
Lemma iter_elem iter A (m : gmap bytes A) k x : is_iter iter -> (k, x) ∈ iter A m <-> m !! k = Some x.
Proof. intros H. rewrite (H A m). apply elem_of_map_to_list. Qed.

Lemma nodup_filter_fst {A B} (f : A * B -> bool) (l : list (A * B)) : NoDup l.*1 -> NoDup (List.filter f l).*1.
Proof.
  induction l as [|x l IH]; simpl; [done|]. intros [Hx Hl]%NoDup_cons. destruct (f x); [|auto]. simpl. apply NoDup_cons.
  split; [|auto]. intros (y & E & Hy)%list_elem_of_fmap. apply Hx. rewrite E. apply list_elem_of_fmap_2.
  rewrite list_elem_of_In in *. by apply filter_In in Hy as [Hy _].
Qed.

Lemma filter_keys {A} iter (f : bytes -> bool) (m : gmap bytes A) k : is_iter iter ->
  k ∈ (List.filter (fun kn => f kn.1) (iter A m)).*1 <-> is_Some (m !! k) /\ f k = true.
Proof.
  intros Hi. rewrite list_elem_of_fmap. split.
  - intros ([k' x] & -> & Hin). rewrite list_elem_of_In, filter_In, <- list_elem_of_In in Hin.
    rewrite iter_elem in Hin by done. simpl in *. naive_solver.
  - intros [[x Hx] Hf]. exists (k, x). split; [done|].
    rewrite list_elem_of_In, filter_In, <- list_elem_of_In, iter_elem by done. done.
Qed.

(** What queueing does not change. *)
Lemma seed_local_ok now prefix v0 pubs : forall names s K, pubs_ok pubs ->
  (forall k ns, names !! k = Some ns -> named prefix k ns) -> K ## dom names ->
  tracks v0 (se_out s) (MkView prefix [] K) ->
  exists names' o' K', seed_local now prefix pubs names s = (names', set_view s (se_prefix s) (se_announced s) o') /\
    (forall k ns, names' !! k = Some ns -> named prefix k ns) /\ K' ## dom names' /\
    K' ∪ dom names' = K ∪ dom names /\ tracks v0 o' (MkView prefix [] K').
Proof.
  induction pubs as [|p pubs IH]; intros names s K Hp Hn Hd Ht; simpl.
  { exists names, (se_out s), K. by rewrite set_view_id. }
  apply Forall_cons in Hp as [Hw Hp]. set (k := namespaceWireKey (pe_Namespace p)).
  destruct (names !! k) as [ns|] eqn:Ek; [|by apply IH]. destruct (pe_announced p); [|by apply IH].
  pose proof (Hn _ _ Ek) as (Hw' & Hkey & Hpre).
  assert (pe_Namespace p = ns) as Epn by (by apply namespaceWireKey_inj).
  assert (k ∈ dom names) as Hk by (apply elem_of_dom; eauto).
  destruct (IH (delete k names) (enqueue now (namespaceMessage (pe_Namespace p) prefix) s) ({[k]} ∪ K))
    as (names' & o' & K' & E & H1 & H2 & H3 & H4); [done| | | |].
  - intros k' ns' (_ & ?)%lookup_delete_Some. auto.
  - rewrite dom_delete_L. set_solver.
  - simpl. eapply tracks_push; [|exact Ht]. simpl. rewrite Epn, suffix_app, Hkey, bool_decide_false; [done|set_solver|done].
  - exists names', o', K'. split; [by rewrite E|]. do 2 (split; [done|]). split; [|done]. rewrite H3, dom_delete_L.
    apply leibniz_equiv. intros x. destruct (decide (x = k)); set_solver.
Qed.

Lemma list_to_set_keys {A} iter (m : gmap bytes A) : is_iter iter -> list_to_set (iter A m).*1 = (dom m : gset bytes).
Proof.
  intros Hi. apply leibniz_equiv. intros k. rewrite elem_of_list_to_set, elem_of_dom, list_elem_of_fmap. split.
  - intros ([k' x] & -> & H%iter_elem); [by exists x|done].
  - intros [x Hx]. exists (k, x). by rewrite iter_elem.
Qed.

Lemma src_spec_dom prefix acc c : src_spec prefix acc c -> dom acc.2 = (dom acc.1 : gset bytes).
Proof. intros H. apply leibniz_equiv. intros k. rewrite !elem_of_dom. apply H. Qed.

Section RegistryProofs.
Context {D : Type} `{!NsAdvertiser D}.
Implicit Types (r : NamespaceRegistry D).

Definition sources r : TrackNamespace -> bytes -> Z := src_at (nr_publishers r) (nr_remote r).

Lemma seed_ok now iter r s : is_iter iter -> pubs_ok (nr_publishers r) -> rem_ok (nr_remote r) ->
  se_WantsTracks s = false -> se_out s = new_outbox ->
  sub_ok (sources r) (MkView (se_prefix s) [] ∅) (seed now iter s r) /\
  se_id (seed now iter s r) = se_id s /\ se_prefix (seed now iter s r) = se_prefix s.
Proof.
  intros Hi Hp Hr Hw Ho. unfold seed.
  pose proof (namespaceSources_spec _ _ (se_prefix s) Hp Hr) as Hs.
  destruct (namespaceSources _ _ _) as [counts names] eqn:Es. simpl in *. pose proof (src_spec_dom _ _ _ Hs) as Hdom. simpl in Hdom.
  edestruct (seed_local_ok now (se_prefix s) (MkView (se_prefix s) [] ∅) (nr_publishers r) names
    (set_view s (se_prefix s) counts (se_out s)) ∅) as (names' & o' & K' & E & H1 & H2 & H3 & H4); [done|apply Hs|set_solver| |].
  { simpl. rewrite Ho. by exists (MkView (se_prefix s) [] ∅). }
  rewrite E, enqueue_all_view. simpl. split; [|done]. split; simpl.
  - intros k. rewrite Hw. apply Hs.
  - eapply tracks_push_all; [|exact H4]. rewrite replay_announce.
    + do 2 f_equal. rewrite list_to_set_keys by done. rewrite <- Hdom. set_solver.
    + by apply iter_nodup.
    + intros k ns Hin%iter_elem; [|done]. split; [auto|]. intros Hk. apply (H2 k); [done|]. apply elem_of_dom. eauto.
Qed.

Lemma update_prefix_ok now iter prefix r v0 s : is_iter iter -> pubs_ok (nr_publishers r) -> rem_ok (nr_remote r) ->
  sub_ok (sources r) v0 s ->
  sub_ok (sources r) (ask (Some prefix) v0) (update_prefix_of now iter prefix (MRequestOK update_ok) r s).
Proof.
  intros Hi Hp Hr H. pose proof (tracks_ask (Some prefix) _ _ _ (so_tracks _ _ _ H)) as Ht. unfold update_prefix_of.
  destruct (se_WantsTracks s) eqn:Ew.
  { split; simpl; [intros k; rewrite Ew, (so_counts _ _ _ H), Ew; done|].
    by eapply tracks_push; [|exact Ht]. }
  pose proof (namespaceSources_spec _ _ prefix Hp Hr) as Hs.
  pose proof (namespaceSources_spec _ _ (se_prefix s) Hp Hr) as Hold.
  destruct (namespaceSources _ _ prefix) as [counts names] eqn:Es. simpl in Hs.
  destruct (namespaceSources _ _ (se_prefix s)) as [ocounts onames] eqn:Eo. simpl in *.
  assert (Hann : se_announced s = ocounts).
  { apply map_eq. intros k. by rewrite (so_counts _ _ _ H), Ew, (sp_counts _ _ _ Hold). }
  pose proof (src_spec_dom _ _ _ Hs) as Hdom. simpl in Hdom.
  rewrite !enqueue_all_view. split; simpl; [intros k; rewrite Ew; apply Hs|].
  set (gone := List.filter _ (iter _ (se_announced s))). set (fresh := List.filter _ (iter _ names)).
  assert (Hgone : forall k, k ∈ gone.*1 <-> is_Some (se_announced s !! k) /\ counts !! k = None).
  { intros k. pose proof (filter_keys iter (fun k => bool_decide (counts !! k = None)) (se_announced s) k Hi) as E.
    rewrite bool_decide_eq_true in E. exact E. }
  assert (Hfresh : forall k, k ∈ fresh.*1 <-> is_Some (names !! k) /\ se_announced s !! k = None).
  { intros k. pose proof (filter_keys iter (fun k => bool_decide (se_announced s !! k = None)) names k Hi) as E.
    rewrite bool_decide_eq_true in E. exact E. }
  eapply tracks_push_all; [|eapply tracks_push; [|eapply tracks_push_all; [|exact Ht]]].
  3:{ unfold ask; simpl. apply (replay_withdraw (fun k => default [] (onames !! k))).
      - apply nodup_filter_fst. by apply iter_nodup.
      - intros k [Hk _]%Hgone. split; [|by apply elem_of_dom]. rewrite Hann in Hk.
        apply (sp_dom _ _ _ Hold) in Hk as [ns Hns]. simpl in Hns. rewrite Hns. by apply Hold. }
  2: done.
  simpl. rewrite replay_announce.
  - do 2 f_equal. apply leibniz_equiv. intros k. rewrite elem_of_union, elem_of_difference, !elem_of_list_to_set, Hgone, Hfresh.
    assert (Hd : is_Some (names !! k) <-> k ∈ (dom counts : gset bytes)) by (by rewrite <- Hdom, elem_of_dom).
    rewrite Hd, !elem_of_dom. destruct (counts !! k) eqn:E1, (se_announced s !! k) eqn:E2; simpl; try naive_solver.
    all: rewrite <- eq_None_not_Some; naive_solver.
  - apply nodup_filter_fst. by apply iter_nodup.
  - intros k ns Hin. pose proof Hin as Hin2. rewrite list_elem_of_In in Hin. unfold fresh in Hin. apply filter_In in Hin as [Hin Hb].
    rewrite <- list_elem_of_In in Hin. apply iter_elem in Hin; [|done]. split; [by apply Hs|]. simpl in Hb.
    apply bool_decide_eq_true in Hb. intros [Hk _]%elem_of_difference. apply elem_of_dom in Hk as [? Hk]. congruence.
Qed.

(** ** How operations change the sources *)

Lemma pub_at_perm ps ps' prefix k : ps ≡ₚ ps' -> pub_at ps prefix k = pub_at ps' prefix k.
Proof.
  induction 1 as [|p l l' _ IH|p q l|l1 l2 l3 _ IH1 _ IH2]; rewrite ?pub_at_cons; [done|by rewrite IH|lia|congruence].
Qed.

Lemma is_source_delta p prefix k : pe_announced p = true -> (if is_source prefix k p then 1 else 0) = delta (pe_Namespace p) prefix k.
Proof. intros H. unfold is_source, delta. by rewrite H. Qed.

Lemma pub_at_prefix ps prefix ns : pubs_ok ps -> wf_ns ns -> HasPrefix ns prefix = false ->
  pub_at ps prefix (namespaceWireKey ns) = 0.
Proof.
  intros Hp Hw Hh. induction Hp as [|p ps Hwp _ IH]; [done|]. rewrite pub_at_cons, IH. unfold is_source.
  case_bool_decide as E; [|by rewrite andb_false_r]. apply namespaceWireKey_inj in E; [|done|done].
  by rewrite E, Hh, andb_false_r.
Qed.

Lemma rem_at_prefix rm prefix ns : rem_ok rm -> wf_ns ns -> HasPrefix ns prefix = false ->
  rem_at rm prefix (namespaceWireKey ns) = 0.
Proof.
  intros Hr Hw Hh. unfold rem_at. destruct (rm !! _) as [rn|] eqn:E; [|done]. destruct (Hr _ _ E) as (Hw' & Hk & _).
  apply namespaceWireKey_inj in Hk; [|done|done]. by rewrite Hk, Hh.
Qed.

(** The subscribers of [ss] are up to date; [g] holds their starting views. *)
Definition subs_ok (c : TrackNamespace -> bytes -> Z) (g : gmap Z view) (ss : list SubscriberEntry) : Prop :=
  Forall (fun s => exists v0, g !! se_id s = Some v0 /\ sub_ok c v0 s) ss.

Lemma subs_map (f : SubscriberEntry -> SubscriberEntry) c c' g ss :
  (forall s v0, sub_ok c v0 s -> sub_ok c' v0 (f s) /\ se_id (f s) = se_id s) -> subs_ok c g ss -> subs_ok c' g (f <$> ss).
Proof.
  intros Hf H. apply Forall_fmap. eapply Forall_impl; [exact H|]. intros s (v0 & Hg & Hs). destruct (Hf s v0 Hs) as [H1 H2].
  exists v0. simpl. by rewrite H2.
Qed.

Lemma subs_ext c c' g ss : (forall p k, c' p k = c p k) -> subs_ok c g ss -> subs_ok c' g ss.
Proof. intros E H. eapply Forall_impl; [exact H|]. intros s (v0 & ? & Hs). exists v0. split; [done|]. by apply (sub_ok_ext c). Qed.

Lemma add_source_id now ns s : se_id (add_source now ns s) = se_id s.
Proof. unfold add_source. by repeat case_match. Qed.
Lemma remove_source_id now ns s : se_id (remove_source now ns s) = se_id s.
Proof. unfold remove_source. by repeat case_match. Qed.

Lemma add_subs now ns ps rm c' g ss : (forall p k, c' p k = src_at ps rm p k + delta ns p k) ->
  subs_ok (src_at ps rm) g ss -> subs_ok c' g (add_source now ns <$> ss).
Proof.
  intros Hc. apply subs_map. intros s v0 Hs. split; [|apply add_source_id].
  eapply add_source_ok; [apply src_at_nonneg|apply Hc|done].
Qed.

Lemma remove_subs now ns ps rm c' g ss : pubs_ok ps -> rem_ok rm -> wf_ns ns -> (forall p k, 0 <= c' p k) ->
  (forall p k, c' p k = src_at ps rm p k - delta ns p k) ->
  subs_ok (src_at ps rm) g ss -> subs_ok c' g (remove_source now ns <$> ss).
Proof.
  intros Hp Hr Hw H0 Hc. apply subs_map. intros s v0 Hs. split; [|apply remove_source_id].
  eapply remove_source_ok; [done|apply Hc| |done]. intros p Hh. unfold src_at. by rewrite pub_at_prefix, rem_at_prefix.
Qed.

(** A publisher that leaves. *)
Definition drop_subs (now : Z) (p : PublisherEntry) (ss : list SubscriberEntry) : list SubscriberEntry :=
  if pe_announced p then remove_source now (pe_Namespace p) <$> ss else ss.

Lemma drop_subs_ok now p ps ps' rm g ss : ps ≡ₚ p :: ps' -> pubs_ok ps -> rem_ok rm ->
  subs_ok (src_at ps rm) g ss -> subs_ok (src_at ps' rm) g (drop_subs now p ss).
Proof.
  intros Hperm Hp Hr H. unfold drop_subs.
  assert (Hsrc : forall q k, src_at ps rm q k = (if is_source q k p then 1 else 0) + src_at ps' rm q k).
  { intros q k. unfold src_at. rewrite (pub_at_perm _ _ _ _ Hperm), pub_at_cons. lia. }
  assert (Hw : wf_ns (pe_Namespace p)).
  { unfold pubs_ok in Hp. rewrite Hperm in Hp. by apply Forall_cons in Hp as [? _]. }
  destruct (pe_announced p) eqn:Ea.
  - eapply remove_subs; [done|done|done|apply src_at_nonneg| |done]. intros q k. rewrite Hsrc, is_source_delta by done. lia.
  - eapply subs_ext; [|done]. intros q k. rewrite Hsrc. unfold is_source. rewrite Ea. simpl. lia.
Qed.

Lemma filter_id_perm ps p : NoDup (pe_id <$> ps) -> p ∈ ps ->
  ps ≡ₚ p :: List.filter (fun q => negb (pe_id q =? pe_id p)) ps.
Proof.
  induction ps as [|q ps IH]; [by intros _ ?%not_elem_of_nil|]. simpl. intros [Hq Hnd]%NoDup_cons [<-|Hin]%elem_of_cons.
  - rewrite Z.eqb_refl. simpl. f_equiv. assert (Hne : Forall (fun x => pe_id x <> pe_id p) ps).
    { apply Forall_forall. intros x Hx E. apply Hq. rewrite <- E. by apply list_elem_of_fmap_2. }
    clear -Hne. induction Hne as [|x ps Hx _ IH]; [done|]. simpl. destruct (Z.eqb_spec (pe_id x) (pe_id p)); [done|]. simpl. by f_equiv.
  - destruct (Z.eqb_spec (pe_id q) (pe_id p)) as [E|E]; simpl.
    + exfalso. apply Hq. rewrite E. by apply list_elem_of_fmap_2.
    + rewrite Permutation_swap. f_equiv. auto.
Qed.

Lemma announce_other id (ps : list PublisherEntry) : id ∉ pe_id <$> ps -> announce id <$> ps = ps.
Proof.
  induction ps as [|q ps IH]; [done|]. rewrite !fmap_cons, not_elem_of_cons. intros [Hq Hn]. rewrite IH by done. f_equal.
  unfold announce. destruct (Z.eqb_spec (pe_id q) id); [congruence|done].
Qed.

Lemma announce_pub_at ps p prefix k : NoDup (pe_id <$> ps) -> p ∈ ps -> pe_announced p = false ->
  pub_at (announce (pe_id p) <$> ps) prefix k = pub_at ps prefix k + delta (pe_Namespace p) prefix k.
Proof.
  induction ps as [|q ps IH]; [by intros _ ?%not_elem_of_nil|]. rewrite !fmap_cons. intros [Hq Hnd]%NoDup_cons Hin Ha.
  rewrite !pub_at_cons. apply elem_of_cons in Hin as [<-|Hin].
  - rewrite announce_other by done.
    unfold announce. rewrite Z.eqb_refl. unfold is_source, delta; simpl. rewrite Ha. simpl. lia.
  - rewrite IH by done. unfold announce at 1. destruct (Z.eqb_spec (pe_id q) (pe_id p)) as [E|]; [|lia].
    exfalso. apply Hq. rewrite E. by apply list_elem_of_fmap_2.
Qed.

(** One relay more, or fewer, for a remote namespace. *)
Lemma rem_at_add rm ns addr prefix k : rem_ok rm -> wf_ns ns ->
  let rn := match rm !! namespaceWireKey ns with Some rn => rn | None => MkRemote ns ∅ end in
  addr ∉ rn_relays rn ->
  let rm' := <[namespaceWireKey ns := MkRemote (rn_ns rn) ({[addr]} ∪ rn_relays rn)]> rm in
  rem_ok rm' /\ rem_at rm' prefix k = rem_at rm prefix k + delta ns prefix k.
Proof.
  intros Hr Hw rn Ha rm'.
  assert (Hns : rn_ns rn = ns).
  { unfold rn. destruct (rm !! _) as [rn'|] eqn:E; [|done]. destruct (Hr _ _ E) as (Hw' & Hk & _). by apply namespaceWireKey_inj. }
  split.
  - intros k' rn'. unfold rm'. destruct (decide (namespaceWireKey ns = k')) as [<-|Hne].
    + rewrite lookup_insert_eq. intros [= <-]; simpl. rewrite Hns. split_and!; [done|done|set_solver].
    + rewrite lookup_insert_ne by done. apply Hr.
  - unfold rm', rem_at, delta. destruct (decide (namespaceWireKey ns = k)) as [<-|Hne].
    + rewrite lookup_insert_eq, bool_decide_true, andb_true_r by done. simpl. rewrite Hns.
      assert (Hs : base.size ({[addr]} ∪ rn_relays rn) = S (base.size (rn_relays rn))).
      { rewrite size_union, size_singleton by set_solver. lia. }
      rewrite Hs. unfold rn in *. destruct (rm !! _) as [rn'|] eqn:E; simpl in *.
      * rewrite Hns. destruct (HasPrefix ns prefix); lia.
      * by destruct (HasPrefix ns prefix).
    + rewrite lookup_insert_ne, bool_decide_false, andb_false_r by done. lia.
Qed.

Lemma rem_at_remove rm ns addr prefix k rn : rem_ok rm -> wf_ns ns -> rm !! namespaceWireKey ns = Some rn ->
  addr ∈ rn_relays rn ->
  let left := rn_relays rn ∖ {[addr]} in
  let rm' := if bool_decide (left = ∅) then delete (namespaceWireKey ns) rm
             else <[namespaceWireKey ns := MkRemote (rn_ns rn) left]> rm in
  rem_ok rm' /\ rem_at rm' prefix k = rem_at rm prefix k - delta ns prefix k.
Proof.
  intros Hr Hw E Ha left rm'. destruct (Hr _ _ E) as (Hw' & Hk & Hne0).
  assert (Hns : rn_ns rn = ns) by (by apply namespaceWireKey_inj).
  assert (Hs : base.size (rn_relays rn) = S (base.size left)).
  { unfold left. rewrite (union_difference_singleton_L addr (rn_relays rn)) at 1 by done.
    rewrite size_union, size_singleton by set_solver. lia. }
  split.
  - intros k' rn'. unfold rm'. case_bool_decide as El.
    + intros (_ & H)%lookup_delete_Some. by apply Hr.
    + destruct (decide (namespaceWireKey ns = k')) as [<-|Hne].
      * rewrite lookup_insert_eq. intros [= <-]; simpl. by rewrite Hns.
      * rewrite lookup_insert_ne by done. apply Hr.
  - unfold rm', rem_at, delta. destruct (decide (namespaceWireKey ns = k)) as [<-|Hne].
    + rewrite (bool_decide_true (namespaceWireKey ns = namespaceWireKey ns)), andb_true_r by done.
      rewrite E, Hns. case_bool_decide as El.
      * rewrite lookup_delete_eq. rewrite El, size_empty in Hs. destruct (HasPrefix ns prefix); lia.
      * rewrite lookup_insert_eq. cbn [rn_ns rn_relays]. rewrite ?Hns. destruct (HasPrefix ns prefix); lia.
    + rewrite (bool_decide_false (namespaceWireKey ns = k)), andb_false_r by done.
      case_bool_decide; [rewrite lookup_delete_ne by done|rewrite lookup_insert_ne by done]; lia.
Qed.
End RegistryProofs.

(** ** Runs of the registry *)

(** What the handlers and the writers of subscriptions do. *)
Inductive ns_op : Type :=
| OpRegisterPublisher (id : Z) (ns : TrackNamespace) (sess : Z)
| OpAwait (ns : TrackNamespace) (fresh : Z)
| OpAnnounce (now id : Z)
| OpUnregisterPublisher (now id : Z)
| OpRegisterSubscriber (now : Z) (iter : Iter) (id : Z) (prefix : TrackNamespace) (sess : Z) (wants : bool)
    (params : option TracksParams)
| OpUnregisterSubscriber (id : Z)
| OpSetTracks (id : Z) (params : option TracksParams)
| OpClaim (id : Z) (key : Key) (epoch : Z)
| OpNoteSkipped (id : Z) (key : Key) (epoch : Z)
| OpRelease (id : Z) (key : Key)
| OpUpdate (now id : Z)
| OpUpdatePrefix (now : Z) (iter : Iter) (id : Z) (prefix : TrackNamespace)
| OpFinish (now id : Z) (u : option TrackNamespace) (e : RequestError)
| OpSkipped (now id : Z) (ns : TrackNamespace) (name : bytes)
| OpWriter (id : Z) (wok pick : bool)
| OpRemoveSession (now sess : Z)
| OpRemote (now : Z) (ns : TrackNamespace) (addr : bytes) (published : bool)
| OpReplaceRemote (now : Z) (iter : Iter) (ads : list NamespaceInfo).

Definition set_fwd (f : Forwards) (s : SubscriberEntry) : SubscriberEntry :=
  MkSubscriber (se_id s) (se_prefix s) (se_Session s) (se_WantsTracks s) (se_tracks s) f (se_announced s) (se_out s).
Definition set_out (o : Outbox) (s : SubscriberEntry) : SubscriberEntry := set_view s (se_prefix s) (se_announced s) o.

Section Runs.
Context {D : Type} `{!NsAdvertiser D}.
Implicit Types (r : NamespaceRegistry D) (g : gmap Z view).

(** [g] is what each subscriber started from and has asked for. *)
Definition ns_step (o : ns_op) (st : NamespaceRegistry D * gmap Z view) : NamespaceRegistry D * gmap Z view :=
  let '(r, g) := st in
  match o with
  | OpRegisterPublisher id ns sess => (RegisterPublisher id ns sess r, g)
  | OpAwait ns fresh => ((AwaitPublisher ns fresh r).2, g)
  | OpAnnounce now id => (AnnouncePublisher now id r, g)
  | OpUnregisterPublisher now id => ((UnregisterPublisher now id r).2, g)
  | OpRegisterSubscriber now iter id prefix sess wants params =>
      (RegisterSubscriber now iter id prefix sess wants params r, <[id := MkView prefix [] ∅]> g)
  | OpUnregisterSubscriber id => ((UnregisterSubscriber id r).2, g)
  | OpSetTracks id params => (update_entry id (SetTracksParams params) r, g)
  | OpClaim id key epoch => (update_entry id (fun s => set_fwd (ClaimForward key epoch (se_fwd s)).2 s) r, g)
  | OpNoteSkipped id key epoch => (update_entry id (fun s => set_fwd (NoteSkipped key epoch (se_fwd s)) s) r, g)
  | OpRelease id key => (update_entry id (fun s => set_fwd (ReleaseForward key (se_fwd s)) s) r, g)
  | OpUpdate now id => (update_entry id (enqueue now (MRequestOK update_ok)) r, alter (ask None) id g)
  | OpUpdatePrefix now iter id prefix => (UpdatePrefix now iter id prefix (MRequestOK update_ok) r, alter (ask (Some prefix)) id g)
  | OpFinish now id u e => (update_entry id (Finish now (MRequestError e)) r, alter (ask u) id g)
  | OpSkipped now id ns name => ((reg_PublishSkipped now id ns name r).2, g)
  | OpWriter id wok pick => (update_entry id (fun s => set_out (writer_step wok pick (se_out s)) s) r, g)
  | OpRemoveSession now sess => ((ns_RemoveSession now sess r).2, g)
  | OpRemote now ns addr published => (RemoteNamespace now ns addr published r, g)
  | OpReplaceRemote now iter ads => (ReplaceRemote now iter ads r, g)
  end.

(** Namespaces come from messages, so their parts have lengths Go can represent; a
    new pointer is fresh; a publisher is announced once. *)
Definition op_ok (o : ns_op) (st : NamespaceRegistry D * gmap Z view) : Prop :=
  match o with
  | OpRegisterPublisher id ns sess => wf_ns ns /\ id ∉ pe_id <$> nr_publishers st.1
  | OpAnnounce now id => forall p, p ∈ nr_publishers st.1 -> pe_id p = id -> pe_announced p = false
  | OpRegisterSubscriber now iter id prefix sess wants params => is_iter iter /\ st.2 !! id = None
  | OpUpdatePrefix now iter id prefix => is_iter iter
  | OpRemote now ns addr published => wf_ns ns
  | OpReplaceRemote now iter ads => is_iter iter /\ Forall (fun ad => wf_ns (ni_Prefix ad)) ads
  | _ => True
  end.

Inductive ns_reach (r0 : NamespaceRegistry D) : NamespaceRegistry D * gmap Z view -> Prop :=
| nr_start : ns_reach r0 (r0, ∅)
| nr_step o st : ns_reach r0 st -> op_ok o st -> ns_reach r0 (ns_step o st).

(** *** Subscribers are up to date in every reachable registry *)

Record names_ok r g : Prop := {
  no_pubs : pubs_ok (nr_publishers r);
  no_rem : rem_ok (nr_remote r);
  no_ids : NoDup (pe_id <$> nr_publishers r);
  no_subs : subs_ok (sources r) g (nr_subscribers r) }.

Lemma subs_alter (f : SubscriberEntry -> SubscriberEntry) (h : view -> view) c g id ss :
  (forall s v0, sub_ok c v0 s -> sub_ok c (h v0) (f s) /\ se_id (f s) = se_id s) -> subs_ok c g ss ->
  subs_ok c (alter h id g) ((fun s => if se_id s =? id then f s else s) <$> ss).
Proof.
  intros Hf H. apply Forall_fmap. eapply Forall_impl; [exact H|]. intros s (v0 & Hg & Hs). simpl.
  destruct (Z.eqb_spec (se_id s) id) as [<-|Hne].
  - destruct (Hf s v0 Hs) as [H1 H2]. exists (h v0). rewrite H2, lookup_alter_eq, Hg. done.
  - exists v0. by rewrite lookup_alter_ne.
Qed.

Lemma update_names_ok (f : SubscriberEntry -> SubscriberEntry) (h : view -> view) r g id :
  (forall s v0, sub_ok (sources r) v0 s -> sub_ok (sources r) (h v0) (f s) /\ se_id (f s) = se_id s) ->
  names_ok r g -> names_ok (update_entry id f r) (alter h id g).
Proof. intros Hf [H1 H2 H3 H4]. split; [done|done|done|]. by apply subs_alter. Qed.

Lemma alter_id_view g id : alter (fun v => v) id g = g.
Proof. apply map_eq. intros i. destruct (decide (i = id)) as [->|Hne]; [rewrite lookup_alter_eq|rewrite lookup_alter_ne by done]; [|done]. by destruct (g !! id). Qed.

Lemma touch_names_ok (f : SubscriberEntry -> SubscriberEntry) r g id :
  (forall s v0, sub_ok (sources r) v0 s -> sub_ok (sources r) v0 (f s) /\ se_id (f s) = se_id s) ->
  names_ok r g -> names_ok (update_entry id f r) g.
Proof. intros Hf H. rewrite <- (alter_id_view g id). by apply update_names_ok. Qed.

Lemma sub_ok_out c v0 v0' s o : tracks v0' o (MkView (se_prefix s) [] (dom (se_announced s))) ->
  sub_ok c v0 s -> sub_ok c v0' (set_out o s).
Proof. intros Ht H. split; [apply H|done]. Qed.

Lemma subs_sub c g ss ss' : ss' ⊆ ss -> subs_ok c g ss -> subs_ok c g ss'.
Proof. intros Hs. unfold subs_ok. rewrite !Forall_forall. auto. Qed.

Lemma filter_elem_sub {A} (f : A -> bool) l : List.filter f l ⊆ l.
Proof. intros x Hx. rewrite list_elem_of_In in *. by apply filter_In in Hx as [? _]. Qed.

Lemma filter_nodup_ids (f : PublisherEntry -> bool) (l : list PublisherEntry) : NoDup (pe_id <$> l) -> NoDup (pe_id <$> List.filter f l).
Proof.
  induction l as [|x l IH]; [done|]. rewrite fmap_cons. intros [Hx Hl]%NoDup_cons. simpl. destruct (f x); [|auto].
  rewrite fmap_cons. apply NoDup_cons. split; [|auto]. intros (y & E & Hy)%list_elem_of_fmap. apply Hx. rewrite E.
  apply list_elem_of_fmap_2. by apply filter_elem_sub in Hy.
Qed.

Lemma keep_pubs_ok (f : PublisherEntry -> bool) ps : pubs_ok ps -> pubs_ok (List.filter f ps).
Proof. unfold pubs_ok. rewrite !Forall_forall. intros H x Hx%filter_elem_sub. auto. Qed.

Lemma register_publisher_ok id ns sess r g : wf_ns ns -> id ∉ pe_id <$> nr_publishers r -> names_ok r g ->
  names_ok (RegisterPublisher id ns sess r) g.
Proof.
  intros Hw Hid [H1 H2 H3 H4]. split; simpl; [apply Forall_app_2; [done|by apply Forall_singleton]|done| |].
  - rewrite fmap_app. apply NoDup_app. split; [done|]. split; [|apply NoDup_singleton].
    intros x Hx ->%list_elem_of_singleton. done.
  - eapply subs_ext; [|exact H4]. intros p k. unfold sources, src_at; simpl.
    assert (E : nr_publishers r ++ [MkPublisher id ns sess false (u64 (nr_seq r + 1))]
      ≡ₚ MkPublisher id ns sess false (u64 (nr_seq r + 1)) :: nr_publishers r) by (by rewrite Permutation_app_comm).
    rewrite (pub_at_perm _ _ _ _ E), pub_at_cons. unfold is_source. simpl. lia.
Qed.

Lemma announce_ok now id r g : (forall p, p ∈ nr_publishers r -> pe_id p = id -> pe_announced p = false) -> names_ok r g ->
  names_ok (AnnouncePublisher now id r) g.
Proof.
  intros Ha H. unfold AnnouncePublisher. destruct (List.find _ _) as [p|] eqn:E; [|done].
  apply find_some in E as [Hin Hid%Z.eqb_eq]. apply list_elem_of_In in Hin. subst id. specialize (Ha p Hin eq_refl).
  destruct H as [H1 H2 H3 H4]. split; simpl.
  - apply Forall_fmap. eapply Forall_impl; [exact H1|]. intros q Hq. unfold compose, announce. by case_match.
  - done.
  - replace (pe_id <$> (announce (pe_id p) <$> nr_publishers r)) with (pe_id <$> nr_publishers r); [done|].
    rewrite <- list_fmap_compose. apply list_fmap_ext. intros i x _. unfold compose, announce. by case_match.
  - eapply add_subs; [|exact H4]. intros q k. unfold sources, src_at; simpl. rewrite announce_pub_at by done. lia.
Qed.

(** What [drop_publisher] leaves of the registry. *)
Lemma drop_publisher_fields now p r :
  nr_publishers (drop_publisher now p r).1 = nr_publishers r /\
  nr_remote (drop_publisher now p r).1 = nr_remote r /\
  nr_subscribers (drop_publisher now p r).1 = drop_subs now p (nr_subscribers r) /\
  nr_discovery (drop_publisher now p r).1 = nr_discovery r /\
  nr_relayAddr (drop_publisher now p r).1 = nr_relayAddr r /\
  nr_pubCount (drop_publisher now p r).1 =
    (let k := namespaceWireKey (pe_Namespace p) in let n := default 0 (nr_pubCount r !! k) - 1 in
     if n <=? 0 then delete k (nr_pubCount r) else <[k := n]> (nr_pubCount r)).
Proof. unfold drop_publisher, drop_subs. by destruct (pe_announced p). Qed.

Lemma unregister_ok now id r g : names_ok r g -> names_ok (UnregisterPublisher now id r).2 g.
Proof.
  intros [H1 H2 H3 H4]. unfold UnregisterPublisher. destruct (List.find _ _) as [p|] eqn:E; [|done].
  apply find_some in E as [Hin Hid%Z.eqb_eq]. apply list_elem_of_In in Hin. subst id.
  set (rest := List.filter _ (nr_publishers r)). set (r1 := set_publishers r rest _ _).
  pose proof (drop_publisher_fields now p r1) as (F1 & F2 & F3 & F4 & F5 & F6).
  destruct (drop_publisher now p r1) as [r2 last]. simpl in *. split; simpl.
  - rewrite F1. by apply keep_pubs_ok.
  - by rewrite F2.
  - rewrite F1. by apply filter_nodup_ids.
  - rewrite F3. unfold sources; simpl. rewrite F1, F2. eapply drop_subs_ok; [by apply filter_id_perm|done|done|done].
Qed.

Lemma drop_publishers_fields now L : forall r acc,
  nr_publishers (drop_publishers now L (r, acc)).1 = nr_publishers r /\
  nr_remote (drop_publishers now L (r, acc)).1 = nr_remote r /\
  nr_subscribers (drop_publishers now L (r, acc)).1 = fold_left (fun ss p => drop_subs now p ss) L (nr_subscribers r) /\
  nr_discovery (drop_publishers now L (r, acc)).1 = nr_discovery r /\
  nr_relayAddr (drop_publishers now L (r, acc)).1 = nr_relayAddr r.
Proof.
  induction L as [|p L IH]; intros r acc; [done|].
  change (drop_publishers now (p :: L) (r, acc)) with
    (drop_publishers now L (let '(r1, last) := drop_publisher now p r in (r1, acc ++ (if last then [pe_Namespace p] else [])))).
  pose proof (drop_publisher_fields now p r) as (F1 & F2 & F3 & F4 & F5 & _). destruct (drop_publisher now p r) as [r1 last].
  destruct (IH r1 (acc ++ (if last then [pe_Namespace p] else []))) as (G1 & G2 & G3 & G4 & G5). cbn [fst] in *.
  rewrite G1, G2, G3, G4, G5, F1, F2, F3, F4, F5. done.
Qed.

Lemma drop_list_ok now rm g Q L : forall ps ss, ps ≡ₚ L ++ Q -> pubs_ok ps -> rem_ok rm -> subs_ok (src_at ps rm) g ss ->
  subs_ok (src_at Q rm) g (fold_left (fun ss p => drop_subs now p ss) L ss).
Proof.
  induction L as [|p L IH]; intros ps ss Hp Hok Hr H; simpl.
  - eapply subs_ext; [|exact H]. intros q k. unfold src_at. by rewrite (pub_at_perm _ _ _ _ Hp).
  - eapply (IH (L ++ Q)); [done| |done|].
    + unfold pubs_ok in *. rewrite Hp in Hok. by apply Forall_cons in Hok as [_ ?].
    + by eapply drop_subs_ok.
Qed.

Lemma filter_split {A} (f : A -> bool) l : l ≡ₚ List.filter f l ++ List.filter (fun x => negb (f x)) l.
Proof.
  induction l as [|x l IH]; [done|]. simpl. destruct (f x); simpl; [by f_equiv|]. rewrite IH at 1. apply Permutation_middle.
Qed.

Lemma remove_session_ok now sess r g : names_ok r g -> names_ok (ns_RemoveSession now sess r).2 g.
Proof.
  intros [H1 H2 H3 H4]. unfold ns_RemoveSession. set (L := List.filter _ (nr_publishers r)).
  pose proof (drop_publishers_fields now L r []) as (F1 & F2 & F3 & F4 & F5).
  destruct (drop_publishers now L (r, [])) as [r1 un]. simpl in *. split; simpl.
  - rewrite F1. by apply keep_pubs_ok.
  - by rewrite F2.
  - rewrite F1. by apply filter_nodup_ids.
  - rewrite F3. eapply subs_sub; [apply filter_elem_sub|]. unfold sources; simpl. rewrite F1, F2.
    eapply drop_list_ok; [apply filter_split|done|done|exact H4].
Qed.

Lemma add_relay_ok now ns addr r g : wf_ns ns -> names_ok r g -> names_ok (add_relay now ns addr r) g.
Proof.
  intros Hw H. unfold add_relay. set (rn := match nr_remote r !! _ with Some rn => rn | None => _ end).
  case_bool_decide as Ea; [done|]. destruct H as [H1 H2 H3 H4].
  assert (Hrem := fun p k => rem_at_add (nr_remote r) ns addr p k H2 Hw Ea). simpl in Hrem. fold rn in Hrem.
  split; simpl; [done|apply (Hrem [] [])|done|].
  eapply add_subs; [|exact H4]. intros p k. unfold sources, src_at; simpl. destruct (Hrem p k) as [_ ->]. lia.
Qed.

Lemma remove_relay_ok now ns addr r g : wf_ns ns -> names_ok r g -> names_ok (remove_relay now ns addr r) g.
Proof.
  intros Hw H. unfold remove_relay. destruct (nr_remote r !! _) as [rn|] eqn:E; [|done].
  case_bool_decide as Ea; [|done]. destruct H as [H1 H2 H3 H4].
  assert (Hrem := fun p k => rem_at_remove (nr_remote r) ns addr p k rn H2 Hw E Ea). simpl in Hrem.
  split; simpl; [done|apply (Hrem [] [])|done|].
  eapply remove_subs; [exact H1|exact H2|done|intros; apply src_at_nonneg| |exact H4].
  intros p k. unfold sources, src_at; simpl. destruct (Hrem p k) as [_ ->]. lia.
Qed.

Lemma fold_names_ok {A} (f : NamespaceRegistry D -> A -> NamespaceRegistry D) (P : A -> Prop) g l : forall r,
  (forall r x, P x -> names_ok r g -> names_ok (f r x) g) -> Forall P l -> names_ok r g -> names_ok (fold_left f l r) g.
Proof.
  induction l as [|x l IH]; intros r Hf Hl H; simpl; [done|]. apply Forall_cons in Hl as [Hx Hl]. apply IH; auto.
Qed.

Lemma wanted_ok ads : Forall (fun ad => wf_ns (ni_Prefix ad)) ads -> rem_ok (wanted ads).
Proof.
  intros Ha. unfold wanted. assert (Hm : rem_ok ∅) by (intros k rn; by rewrite lookup_empty).
  revert Hm. generalize (∅ : gmap bytes remoteNamespace). induction Ha as [|ad ads Hw _ IH]; intros m Hm; [done|]. simpl.
  apply IH. set (k0 := namespaceWireKey (ni_Prefix ad)).
  intros k rn. destruct (decide (k0 = k)) as [<-|Hne]; [rewrite lookup_insert_eq|rewrite lookup_insert_ne by done; apply Hm].
  intros [= <-]; simpl. split_and!; [| |set_solver]; destruct (m !! k0) as [w|] eqn:E; try done; by apply (Hm _ _ E).
Qed.

Lemma iter_wf iter m : is_iter iter -> rem_ok m -> Forall (fun kn : bytes * remoteNamespace => wf_ns (rn_ns kn.2)) (iter _ m).
Proof. intros Hi Hm. apply Forall_forall. intros [k rn] Hin%iter_elem; [|done]. by apply (Hm _ _ Hin). Qed.

Lemma replace_remote_ok now iter ads r g : is_iter iter -> Forall (fun ad => wf_ns (ni_Prefix ad)) ads -> names_ok r g ->
  names_ok (ReplaceRemote now iter ads r) g.
Proof.
  intros Hi Ha H. unfold ReplaceRemote.
  eapply (fold_names_ok _ (fun kn => wf_ns (rn_ns kn.2))); [| |].
  - intros r' kn Hw Hr. eapply (fold_names_ok _ (fun _ => True)); [|by apply Forall_true|done]. intros. by apply remove_relay_ok.
  - apply iter_wf; [done|]. apply (no_rem _ g).
    eapply (fold_names_ok _ (fun kn => wf_ns (rn_ns kn.2))); [|apply iter_wf; [done|by apply wanted_ok]|done].
    intros r' kn Hw Hr. eapply (fold_names_ok _ (fun _ => True)); [|by apply Forall_true|done]. intros. by apply add_relay_ok.
  - eapply (fold_names_ok _ (fun kn => wf_ns (rn_ns kn.2))); [|apply iter_wf; [done|by apply wanted_ok]|done].
    intros r' kn Hw Hr. eapply (fold_names_ok _ (fun _ => True)); [|by apply Forall_true|done]. intros. by apply add_relay_ok.
Qed.

Lemma register_subscriber_ok now iter id prefix sess wants params r g : is_iter iter -> g !! id = None -> names_ok r g ->
  names_ok (RegisterSubscriber now iter id prefix sess wants params r) (<[id := MkView prefix [] ∅]> g).
Proof.
  intros Hi Hg [H1 H2 H3 H4]. split; simpl; [done|done|done|]. apply Forall_app_2.
  - eapply Forall_impl; [exact H4|]. intros s (v0 & Hs & Ho). exists v0. rewrite lookup_insert_ne; [done|]. congruence.
  - apply Forall_singleton. exists (MkView prefix [] ∅). set (s0 := MkSubscriber _ _ _ _ _ _ _ _). destruct wants.
    + simpl. rewrite lookup_insert_eq. split; [done|]. split; [done|]. by exists (MkView prefix [] ∅).
    + destruct (seed_ok now iter r s0 Hi H1 H2 eq_refl eq_refl) as (Hs & Hid & _). rewrite Hid. simpl. by rewrite lookup_insert_eq.
Qed.

Lemma enqueue_ok now m (h : view -> view) c v0 s :
  (forall o v, tracks v0 o v -> tracks (h v0) o (h v)) ->
  view_step (h (MkView (se_prefix s) [] (dom (se_announced s)))) m = Some (MkView (se_prefix s) [] (dom (se_announced s))) ->
  sub_ok c v0 s -> sub_ok c (h v0) (enqueue now m s) /\ se_id (enqueue now m s) = se_id s.
Proof. intros Hh Hm H. split; [|done]. split; [apply H|]. simpl. eapply tracks_push; [exact Hm|]. apply Hh, H. Qed.

Lemma finish_names_ok now e u c v0 s : sub_ok c v0 s ->
  sub_ok c (ask u v0) (Finish now (MRequestError e) s) /\ se_id (Finish now (MRequestError e) s) = se_id s.
Proof.
  intros H. split; [|done]. split; [apply H|]. simpl.
  destruct (tracks_push _ _ _ now (MRequestError e) true _ eq_refl (tracks_ask u _ _ _ (so_tracks _ _ _ H))) as (v' & Hr & _).
  exists v'. split; [done|]. unfold push. destruct (ob_stopped (se_out s)) eqn:E; [congruence|]. by destruct (blockedLocked _ _).
Qed.

Lemma ns_step_ok o st : names_ok st.1 st.2 -> op_ok o st -> names_ok (ns_step o st).1 (ns_step o st).2.
Proof.
  destruct st as [r g]. simpl. intros H Ho. destruct o; simpl in *.
  - destruct Ho. by apply register_publisher_ok.
  - destruct H. by split.
  - by apply announce_ok.
  - by apply unregister_ok.
  - destruct Ho. by apply register_subscriber_ok.
  - destruct H as [H1 H2 H3 H4]. split; simpl; [done|done|done|]. eapply subs_sub; [apply filter_elem_sub|exact H4].
  - apply touch_names_ok; [|done]. intros s v0 [Hs1 Hs2]. by split.
  - apply touch_names_ok; [|done]. intros s v0 [Hs1 Hs2]. by split.
  - apply touch_names_ok; [|done]. intros s v0 [Hs1 Hs2]. by split.
  - apply touch_names_ok; [|done]. intros s v0 [Hs1 Hs2]. by split.
  - apply update_names_ok; [|done]. intros s v0 Hs. apply enqueue_ok; [intros; by apply tracks_ask|done|done].
  - apply update_names_ok; [|done]. intros s v0 Hs. split; [apply update_prefix_ok; try done; apply H|].
    unfold update_prefix_of. repeat case_match; rewrite ?enqueue_all_view; done.
  - apply update_names_ok; [|done]. intros s v0 Hs. by apply finish_names_ok.
  - unfold reg_PublishSkipped. repeat case_match; try done. simpl. apply touch_names_ok; [|done]. intros s' v0 Hs.
    apply (enqueue_ok _ _ (fun v => v)); [done|done|done].
  - apply touch_names_ok; [|done]. intros s v0 Hs. split; [|done]. eapply sub_ok_out; [|exact Hs]. apply tracks_writer, Hs.
  - by apply remove_session_ok.
  - unfold RemoteNamespace. destruct published; [by apply add_relay_ok|by apply remove_relay_ok].
  - destruct Ho. by apply replace_remote_ok.
Qed.

Lemma ns_reach_ok d addr st : ns_reach (NewNamespaceRegistry d addr) st -> names_ok st.1 st.2.
Proof.
  induction 1 as [|o st _ IH Ho]; [|by apply ns_step_ok]. split; simpl; [by constructor| |constructor|constructor].
  intros k rn. by rewrite lookup_empty.
Qed.
End Runs.

(** ** What subscribers are told *)

(** The local publishers that announced [ns] and the remote relays that advertise it. *)
Definition source_count {D} (r : NamespaceRegistry D) (ns : TrackNamespace) : Z :=
  len (List.filter (fun p => pe_announced p && bool_decide (pe_Namespace p = ns)) (nr_publishers r)) +
  match nr_remote r !! namespaceWireKey ns with Some rn => Z.of_nat (base.size (rn_relays rn)) | None => 0 end.

Lemma source_count_nonneg {D} (r : NamespaceRegistry D) ns : 0 <= source_count r ns.
Proof. unfold source_count. apply Z.add_nonneg_nonneg; [apply len_nonneg|]. case_match; lia. Qed.

Lemma sources_count {D} (r : NamespaceRegistry D) prefix ns : pubs_ok (nr_publishers r) -> rem_ok (nr_remote r) -> wf_ns ns ->
  sources r prefix (namespaceWireKey ns) = if HasPrefix ns prefix then source_count r ns else 0.
Proof.
  intros Hp Hr Hw. unfold sources, src_at. destruct (HasPrefix ns prefix) eqn:Eh; [|by rewrite pub_at_prefix, rem_at_prefix].
  unfold source_count. f_equal.
  - unfold pub_at. f_equal. induction Hp as [|p ps Hwp _ IH]; [done|]. simpl. rewrite IH. unfold is_source.
    destruct (decide (pe_Namespace p = ns)) as [->|Hne].
    + by rewrite Eh, !bool_decide_true, andb_true_r by done.
    + rewrite !bool_decide_false; [by rewrite !andb_false_r|done|]. intros E. by apply Hne, namespaceWireKey_inj.
  - unfold rem_at. destruct (nr_remote r !! _) as [rn|] eqn:E; [|done]. destruct (Hr _ _ E) as (Hw' & Hk & _).
    apply namespaceWireKey_inj in Hk; [|done|done]. by rewrite Hk, Eh.
Qed.

(** C35: in every reachable registry, a SUBSCRIBE_NAMESPACE counts for each namespace
    under its prefix exactly the local publishers and remote relays that announce
    it, and none for any other; and a peer that replays what was written to its
    stream and what waits in its queue makes sense of every message, and, unless the
    stream was stopped, ends with the current prefix, no update unanswered and
    exactly the namespaces that have a source. *)
Theorem announcements_exact {D} `{!NsAdvertiser D} (d : option D) addr r g s :
  ns_reach (NewNamespaceRegistry d addr) (r, g) -> s ∈ nr_subscribers r -> se_WantsTracks s = false ->
  (forall ns, wf_ns ns ->
     default 0 (se_announced s !! namespaceWireKey ns) = if HasPrefix ns (se_prefix s) then source_count r ns else 0) /\
  exists v0 v, g !! se_id s = Some v0 /\ replay v0 (history (se_out s)) = Some v /\
    (ob_stopped (se_out s) = false -> v_prefix v = se_prefix s /\ v_pending v = [] /\
       forall ns, wf_ns ns -> namespaceWireKey ns ∈ v_known v <-> HasPrefix ns (se_prefix s) = true /\ 0 < source_count r ns).
Proof.
  intros Hreach Hin Hw. apply ns_reach_ok in Hreach as [H1 H2 _ H4]. simpl in *.
  pose proof (proj1 (Forall_forall _ _) H4 s Hin) as (v0 & Hg & Hs).
  split.
  - intros ns Hns. by rewrite (sub_ok_announced _ _ _ _ Hw Hs), sources_count.
  - destruct (so_tracks _ _ _ Hs) as (v & Hv & Hst). exists v0, v. do 2 (split; [done|]). intros Hn. rewrite (Hst Hn). simpl.
    do 2 (split; [done|]). intros ns Hns. rewrite (sub_ok_known _ _ _ _ Hw Hs), sources_count by done.
    pose proof (source_count_nonneg r ns).
    destruct (HasPrefix ns (se_prefix s)); [|naive_solver]. split; [intros; split; [done|lia]|intros [_ ?]; lia].
Qed.

(** A run from its list of operations. *)
Definition ns_run {D} `{!NsAdvertiser D} (ops : list ns_op) (st : NamespaceRegistry D * gmap Z view) :
    NamespaceRegistry D * gmap Z view := fold_left (fun st o => ns_step o st) ops st.
Fixpoint ops_ok {D} `{!NsAdvertiser D} (ops : list ns_op) (st : NamespaceRegistry D * gmap Z view) : Prop :=
  match ops with [] => True | o :: ops => op_ok o st /\ ops_ok ops (ns_step o st) end.

Lemma ns_run_reach {D} `{!NsAdvertiser D} (r0 : NamespaceRegistry D) ops : forall st, ns_reach r0 st -> ops_ok ops st ->
  ns_reach r0 (ns_run ops st).
Proof. induction ops as [|o ops IH]; intros st H; simpl; [done|]. intros [Ho Hops]. apply IH; [by constructor|done]. Qed.

Definition ns_a : TrackNamespace := [[x61]].
Definition ns_ab : TrackNamespace := [[x61]; [x62]].

(** Two publishers of the namespace (a, b) and a remote relay of (a); a subscriber of the
    empty prefix then moves to the prefix (a, b), and one of the publishers leaves. *)
Definition sample_ns_ops : list ns_op :=
  [OpRegisterPublisher 1 ns_ab 1; OpAnnounce 1 1; OpRegisterSubscriber 2 sorted_iter 1 [] 2 false None;
   OpRegisterPublisher 2 ns_ab 3; OpAnnounce 3 2; OpRemote 4 ns_a [x72] true; OpUpdatePrefix 5 sorted_iter 1 ns_ab;
   OpUnregisterPublisher 6 1].

Lemma sorted_iter_ok : is_iter sorted_iter.
Proof. intros A m. reflexivity. Qed.

Definition sample_names : NamespaceRegistry MemoryStore * gmap Z view :=
  ns_run sample_ns_ops (NewNamespaceRegistry (Some (NewMemoryStore 4)) [x72; x30], ∅).

Lemma wf_small (ns : TrackNamespace) : (len ns <=? 10) = true -> forallb (fun f => len f <=? 10) ns = true -> wf_ns ns.
Proof.
  intros H1 H2. split; [unfold go_len; lia|]. apply Forall_forall. intros f Hf. rewrite forallb_forall in H2.
  specialize (H2 f). rewrite <- list_elem_of_In in H2. specialize (H2 Hf). unfold go_len. lia.
Qed.

Lemma sample_names_reach : ns_reach (NewNamespaceRegistry (Some (NewMemoryStore 4)) [x72; x30]) sample_names.
Proof.
  apply ns_run_reach; [constructor|]. cbn [ops_ok sample_ns_ops op_ok].
  split_and!; try apply sorted_iter_ok; try (by apply wf_small); try done; try (vm_compute; set_solver).
  all: intros p Hp; vm_compute in Hp; set_solver.
Qed.

Definition sample_sub : SubscriberEntry :=
  default (MkSubscriber 0 [] 0 true defaultTracksParams (MkForwards ∅ false ∅) ∅ new_outbox) (head (nr_subscribers sample_names.1)).

Lemma announcements_exact_witness :
  source_count sample_names.1 ns_ab = 1 /\ default 0 (se_announced sample_sub !! namespaceWireKey ns_ab) = 1 /\
  history (se_out sample_sub) =
    [MNamespace (MkNamespace ns_ab); MNamespace (MkNamespace ns_a); MNamespaceDone (MkNamespaceDone ns_a); MRequestOK update_ok] /\
  exists v0 v, replay v0 (history (se_out sample_sub)) = Some v /\
    namespaceWireKey ns_ab ∈ v_known v /\ ~ namespaceWireKey ns_a ∈ v_known v.
Proof.
  split; [by vm_compute|]. assert (Hin : sample_sub ∈ nr_subscribers sample_names.1) by (vm_compute; left).
  assert (Hreach : ns_reach (NewNamespaceRegistry (Some (NewMemoryStore 4)) [x72; x30]) (sample_names.1, sample_names.2))
    by apply sample_names_reach.
  destruct (announcements_exact (Some (NewMemoryStore 4)) [x72; x30] sample_names.1 sample_names.2 sample_sub Hreach Hin eq_refl)
    as (H1 & v0 & v & H2 & H3 & H4).
  split; [rewrite (H1 ns_ab) by (by apply wf_small); by vm_compute|]. split; [by vm_compute|].
  exists v0, v. split; [done|]. destruct H4 as (_ & _ & H4); [by vm_compute|].
  split; [apply H4; [by apply wf_small|split; by vm_compute]|]. intros [Hk _]%H4; [by vm_compute in Hk|by apply wf_small].
Defined.

(** ** What other relays are told *)

Definition reg_at (ps : list PublisherEntry) (k : bytes) : Z :=
  len (List.filter (fun p => bool_decide (namespaceWireKey (pe_Namespace p) = k)) ps).

Lemma reg_at_cons p ps k : reg_at (p :: ps) k = (if bool_decide (namespaceWireKey (pe_Namespace p) = k) then 1 else 0) + reg_at ps k.
Proof. unfold reg_at. simpl. case_bool_decide; rewrite ?len_cons; lia. Qed.
Lemma reg_at_perm ps ps' k : ps ≡ₚ ps' -> reg_at ps k = reg_at ps' k.
Proof.
  induction 1 as [|p l l' _ IH|p q l|l1 l2 l3 _ IH1 _ IH2]; rewrite ?reg_at_cons; [done|by rewrite IH|lia|congruence].
Qed.
Lemma reg_at_nonneg ps k : 0 <= reg_at ps k.
Proof. apply len_nonneg. Qed.

Lemma cnt_Some n : is_Some (cnt n) <-> n <> 0.
Proof. unfold cnt. destruct (Z.eqb_spec n 0); [|naive_solver]. split; [by intros []|done]. Qed.

Section Advertised.
Context {D : Type} `{!NsAdvertiser D, !NsAdvertiserLaws D}.
Implicit Types (r : NamespaceRegistry D).

(** The store [d] lists, for this relay, the namespaces [f] holds of. *)
Definition lists (addr : bytes) (d : option D) (f : bytes -> Prop) : Prop :=
  forall d', d = Some d' -> nsa_ready d' addr /\ forall k, nsa_has d' k addr = true <-> f k.

Lemma lists_ext addr d f f' : (forall k, f k <-> f' k) -> lists addr d f -> lists addr d f'.
Proof. intros E H d' Hd. destruct (H d' Hd) as [H1 H2]. split; [done|]. intros k. by rewrite H2. Qed.

Lemma lists_publish ns r d f : lists (nr_relayAddr r) d f ->
  lists (nr_relayAddr r) (publishNamespaceToDiscovery ns r d) (fun k => k = namespaceWireKey ns \/ f k).
Proof.
  intros H d'. destruct d as [d0|]; [|done]. simpl. intros [= <-]. destruct (H d0 eq_refl) as [H1 H2].
  split; [by apply nsa_publish_ready|]. intros k. rewrite nsa_publish_has by done. simpl.
  rewrite orb_true_iff, bool_decide_eq_true, H2. naive_solver.
Qed.

Lemma lists_unpublish ns r d f : lists (nr_relayAddr r) d f ->
  lists (nr_relayAddr r) (unpublishNamespaceFromDiscovery ns r d) (fun k => k <> namespaceWireKey ns /\ f k).
Proof.
  intros H d'. destruct d as [d0|]; [|done]. simpl. intros [= <-]. destruct (H d0 eq_refl) as [H1 H2].
  split; [by apply nsa_unpublish_ready|]. intros k. rewrite nsa_unpublish_has by done.
  rewrite andb_true_iff, negb_true_iff, bool_decide_eq_false, H2. naive_solver.
Qed.

Lemma lists_unpublish_all r l : forall d f, lists (nr_relayAddr r) d f ->
  lists (nr_relayAddr r) (fold_left (fun d ns => unpublishNamespaceFromDiscovery ns r d) l d)
    (fun k => (k ∉ namespaceWireKey <$> l) /\ f k).
Proof.
  induction l as [|ns l IH]; intros d f H; cbn [fold_left].
  - eapply lists_ext; [|exact H]. intros k. split; [|naive_solver]. intros ?. split; [apply not_elem_of_nil|done].
  - eapply lists_ext; [|apply IH, lists_unpublish, H]. intros k. cbn beta. rewrite fmap_cons, not_elem_of_cons. tauto.
Qed.

(** Registered publishers are counted, and what is counted is advertised. *)
Record adv_inv (addr : bytes) r : Prop := {
  ai_addr : nr_relayAddr r = addr;
  ai_ids : NoDup (pe_id <$> nr_publishers r);
  ai_count k : nr_pubCount r !! k = cnt (reg_at (nr_publishers r) k);
  ai_disc : lists (nr_relayAddr r) (nr_discovery r) (fun k => reg_at (nr_publishers r) k <> 0) }.

Lemma ads_same addr r r' : nr_publishers r' = nr_publishers r -> nr_pubCount r' = nr_pubCount r ->
  nr_discovery r' = nr_discovery r -> nr_relayAddr r' = nr_relayAddr r -> adv_inv addr r -> adv_inv addr r'.
Proof. intros E1 E2 E3 E4 [Haddr H1 H2 H3]. split; rewrite ?E1, ?E2, ?E3, ?E4; done. Qed.

Lemma adv_register addr id ns sess r : id ∉ pe_id <$> nr_publishers r -> adv_inv addr r -> adv_inv addr (RegisterPublisher id ns sess r).
Proof.
  intros Hid [Haddr H1 H2 H3]. unfold RegisterPublisher. set (p := MkPublisher id ns sess false _).
  assert (Hp : nr_publishers r ++ [p] ≡ₚ p :: nr_publishers r) by (by rewrite Permutation_app_comm).
  assert (Hreg : forall k, reg_at (nr_publishers r ++ [p]) k = (if bool_decide (namespaceWireKey ns = k) then 1 else 0) + reg_at (nr_publishers r) k).
  { intros k. by rewrite (reg_at_perm _ _ _ Hp), reg_at_cons. }
  rewrite H2, cnt_default. pose proof (reg_at_nonneg (nr_publishers r)) as H0. split; simpl.
  - done.
  - rewrite Hp, fmap_cons. by apply NoDup_cons.
  - intros k. rewrite Hreg. destruct (decide (namespaceWireKey ns = k)) as [<-|Hne].
    + rewrite lookup_insert_eq, bool_decide_true by done. rewrite cnt_pos; [f_equal; lia|]. specialize (H0 (namespaceWireKey ns)). lia.
    + rewrite lookup_insert_ne, bool_decide_false, H2 by done. f_equal.
  - specialize (H0 (namespaceWireKey ns)). destruct (Z.eqb_spec (reg_at (nr_publishers r) (namespaceWireKey ns) + 1) 1) as [E|E].
    + eapply lists_ext; [|by apply lists_publish, H3]. intros k. simpl. rewrite Hreg. case_bool_decide as Ek; [subst k|].
      * split; [lia|auto].
      * split; [intros [->|]; [done|lia]|right; lia].
    + eapply lists_ext; [|exact H3]. intros k. simpl. rewrite Hreg. case_bool_decide as Ek; [subst k|]; lia.
Qed.

(** One publisher fewer: [last] says its namespace has none left. *)
Lemma drop_count now p ps' r : (forall k, nr_pubCount r !! k = cnt (reg_at (p :: ps') k)) ->
  (forall k, nr_pubCount (drop_publisher now p r).1 !! k = cnt (reg_at ps' k)) /\
  ((drop_publisher now p r).2 = true <-> reg_at ps' (namespaceWireKey (pe_Namespace p)) = 0).
Proof.
  intros H. pose proof (drop_publisher_fields now p r) as (_ & _ & _ & _ & _ & E).
  cbn zeta in E. set (k0 := namespaceWireKey (pe_Namespace p)) in *.
  assert (Hn : default 0 (nr_pubCount r !! k0) - 1 = reg_at ps' k0).
  { rewrite H, cnt_default, reg_at_cons. fold k0. rewrite bool_decide_true by done. lia. }
  pose proof (reg_at_nonneg ps' k0). split.
  - intros k. rewrite E, Hn. destruct (decide (k0 = k)) as [<-|Hne].
    + destruct (Z.leb_spec (reg_at ps' k0) 0).
      * rewrite lookup_delete_eq. unfold cnt. by destruct (Z.eqb_spec (reg_at ps' k0) 0); [|lia].
      * rewrite lookup_insert_eq, cnt_pos; [done|lia].
    + assert (Hk : nr_pubCount r !! k = cnt (reg_at ps' k)).
      { rewrite H, reg_at_cons. fold k0. rewrite bool_decide_false by done. f_equal. }
      destruct (reg_at ps' k0 <=? 0); [by rewrite lookup_delete_ne|by rewrite lookup_insert_ne].
  - unfold drop_publisher. destruct (pe_announced p); cbn -[Z.leb]; fold k0; rewrite Hn, Z.leb_le; lia.
Qed.

Lemma adv_unregister addr now id r : adv_inv addr r -> adv_inv addr (UnregisterPublisher now id r).2.
Proof.
  intros [Haddr H1 H2 H3]. unfold UnregisterPublisher. destruct (List.find _ _) as [p|] eqn:E; [|done].
  apply find_some in E as [Hin Hid%Z.eqb_eq]. apply list_elem_of_In in Hin. subst id.
  pose proof (filter_id_perm _ _ H1 Hin) as Hperm.
  set (rest := List.filter _ (nr_publishers r)) in *. set (r1 := set_publishers r rest _ _).
  pose proof (drop_publisher_fields now p r1) as (F1 & _ & _ & F4 & F5 & _).
  destruct (drop_count now p rest r1) as [Hc Hl]; [intros k; by rewrite <- (reg_at_perm _ _ _ Hperm), <- H2|].
  destruct (drop_publisher now p r1) as [r2 last]. simpl in *. split; simpl.
  - by rewrite F5.
  - rewrite F1. by apply filter_nodup_ids.
  - intros k. rewrite F1. apply Hc.
  - rewrite F1, F4, F5.
    assert (Hreg : forall k, reg_at (nr_publishers r) k
      = (if bool_decide (namespaceWireKey (pe_Namespace p) = k) then 1 else 0) + reg_at rest k).
    { intros k. by rewrite (reg_at_perm _ _ _ Hperm), reg_at_cons. }
    pose proof (reg_at_nonneg rest) as H0. rewrite <- F5. destruct last.
    + eapply lists_ext; [|apply lists_unpublish; rewrite F5; exact H3]. intros k. simpl. rewrite Hreg.
      pose proof (proj1 Hl eq_refl). case_bool_decide as Ek; [subst k; naive_solver|]. split; [lia|]. intros ?. split; [congruence|lia].
    + rewrite F5. eapply lists_ext; [|exact H3]. intros k. simpl. rewrite Hreg. case_bool_decide as Ek; [|lia]. subst k.
      specialize (H0 (namespaceWireKey (pe_Namespace p))). split; [|lia]. intros _ E0. by apply Hl in E0.
Qed.

Lemma drop_publishers_count now Q L : forall r acc, (forall k, nr_pubCount r !! k = cnt (reg_at (L ++ Q) k)) ->
  (forall k, nr_pubCount (drop_publishers now L (r, acc)).1 !! k = cnt (reg_at Q k)) /\
  exists un, (drop_publishers now L (r, acc)).2 = acc ++ un /\
    forall k, k ∈ namespaceWireKey <$> un <-> reg_at (L ++ Q) k <> 0 /\ reg_at Q k = 0.
Proof.
  induction L as [|p L IH]; intros r acc H.
  { split; [done|]. exists []. split; [by rewrite app_nil_r|]. intros k. simpl. split; [by intros ?%not_elem_of_nil|tauto]. }
  change (drop_publishers now (p :: L) (r, acc)) with
    (drop_publishers now L (let '(r1, last) := drop_publisher now p r in (r1, acc ++ (if last then [pe_Namespace p] else [])))).
  destruct (drop_count now p (L ++ Q) r H) as [Hc Hl]. destruct (drop_publisher now p r) as [r1 last]. simpl in Hc, Hl.
  destruct (IH r1 (acc ++ (if last then [pe_Namespace p] else [])) Hc) as [H1 (un & H2 & H3)].
  split; [done|]. exists ((if last then [pe_Namespace p] else []) ++ un). split; [by rewrite H2, app_assoc|].
  intros k. rewrite fmap_app, elem_of_app, H3. rewrite <- app_comm_cons, reg_at_cons. pose proof (reg_at_nonneg (L ++ Q) k) as H0.
  assert (HQ : reg_at Q k <= reg_at (L ++ Q) k).
  { clear. induction L as [|q L IH]; simpl; [lia|]. rewrite reg_at_cons. case_bool_decide; lia. }
  pose proof (reg_at_nonneg Q k). destruct last; simpl.
  - rewrite list_elem_of_singleton. pose proof (proj1 Hl eq_refl) as E0. case_bool_decide as Ek; [subst k|].
    + split; [|auto]. intros _. split; [lia|]. lia.
    + split; [intros [->|?]; [done|lia]|right; lia].
  - assert (Hne : reg_at (L ++ Q) (namespaceWireKey (pe_Namespace p)) <> 0) by (intros E0; by apply Hl in E0).
    case_bool_decide as Ek; [subst k|]; (split; [intros [?%not_elem_of_nil|?]; [done|lia]|intros [? ?]; right; lia]).
Qed.

Lemma adv_remove_session addr now sess r : adv_inv addr r -> adv_inv addr (ns_RemoveSession now sess r).2.
Proof.
  intros [Haddr H1 H2 H3]. unfold ns_RemoveSession. set (L := List.filter _ (nr_publishers r)).
  set (Q := List.filter (fun p => negb (pe_Session p =? sess)) (nr_publishers r)).
  assert (Hperm : nr_publishers r ≡ₚ L ++ Q) by apply filter_split.
  pose proof (drop_publishers_fields now L r []) as (F1 & _ & _ & F4 & F5).
  destruct (drop_publishers_count now Q L r []) as [Hc (un & Hu & Hk)]; [intros k; by rewrite <- (reg_at_perm _ _ _ Hperm), <- H2|].
  destruct (drop_publishers now L (r, [])) as [r1 un']. simpl in *. subst un'. split; simpl.
  - by rewrite F5.
  - rewrite F1. by apply filter_nodup_ids.
  - intros k. rewrite F1. apply Hc.
  - rewrite F4. eapply lists_ext; [|apply lists_unpublish_all; rewrite F5; exact H3]. intros k. simpl. rewrite F1. fold Q.
    rewrite Hk, (reg_at_perm _ _ _ Hperm). pose proof (reg_at_nonneg Q k).
    assert (HQ : reg_at Q k <= reg_at (L ++ Q) k).
    { clear. induction L as [|q L IH]; simpl; [lia|]. rewrite reg_at_cons. case_bool_decide; lia. }
    lia.
Qed.

Lemma fold_adv_inv addr {A} (f : NamespaceRegistry D -> A -> NamespaceRegistry D) l : forall r,
  (forall r x, adv_inv addr r -> adv_inv addr (f r x)) -> adv_inv addr r -> adv_inv addr (fold_left f l r).
Proof. induction l as [|x l IH]; intros r Hf H; simpl; [done|]. auto. Qed.

Lemma adv_add_relay addr now ns a r : adv_inv addr r -> adv_inv addr (add_relay now ns a r).
Proof. intros H. unfold add_relay. case_bool_decide; [done|]. by apply (ads_same _ r). Qed.
Lemma adv_remove_relay addr now ns a r : adv_inv addr r -> adv_inv addr (remove_relay now ns a r).
Proof. intros H. unfold remove_relay. repeat case_match; try done; by apply (ads_same _ r). Qed.

Lemma adv_step addr o st : adv_inv addr st.1 -> op_ok o st -> adv_inv addr (ns_step o st).1.
Proof.
  destruct st as [r g]. simpl. intros H Ho. destruct o; simpl in *; try (by apply (ads_same _ r)).
  - destruct Ho as [_ Ho]. by apply adv_register.
  - unfold AnnouncePublisher. destruct (List.find _ _) as [p|]; [|done]. destruct H as [Haddr H1 H2 H3].
    assert (Er : forall k, reg_at (announce id <$> nr_publishers r) k = reg_at (nr_publishers r) k).
    { intros k. clear. induction (nr_publishers r) as [|q l IH]; [done|]. rewrite fmap_cons, !reg_at_cons, IH.
      f_equal. unfold announce. by destruct (pe_id q =? id). }
    split; simpl; [done| |intros k; by rewrite Er|eapply lists_ext; [|exact H3]; intros k; simpl; by rewrite Er].
    rewrite <- list_fmap_compose. erewrite list_fmap_ext; [exact H1|]. intros i x _. unfold compose, announce. by case_match.
  - by apply adv_unregister.
  - unfold reg_PublishSkipped. repeat case_match; try done; by apply (ads_same _ r).
  - by apply adv_remove_session.
  - unfold RemoteNamespace. destruct published; [by apply adv_add_relay|by apply adv_remove_relay].
  - unfold ReplaceRemote. apply fold_adv_inv; [intros; apply fold_adv_inv; [|done]; intros; by apply adv_remove_relay|].
    apply fold_adv_inv; [|done]. intros. apply fold_adv_inv; [|done]. intros. by apply adv_add_relay.
Qed.

(** In every reachable registry the discovery store advertises, for this relay,
    exactly the namespaces that have a registered publisher, however many sessions
    publish a namespace and in whatever order they come and go. *)
Theorem namespace_advertised (d : D) addr r g : nsa_ready d addr -> (forall k, nsa_has d k addr = false) ->
  ns_reach (NewNamespaceRegistry (Some d) addr) (r, g) ->
  forall d', nr_discovery r = Some d' -> forall k,
    nsa_has d' k addr = true <-> exists p, p ∈ nr_publishers r /\ namespaceWireKey (pe_Namespace p) = k.
Proof.
  intros Hd H0 Hreach d' Hd' k.
  assert (Hinv : adv_inv addr (r, g).1).
  { induction Hreach as [|o st _ IH Ho]; [|by apply adv_step]. split; simpl; [done|constructor|intros k'; by rewrite lookup_empty|].
    intros d0 [= <-]. split; [done|]. intros k'. by rewrite H0. }
  simpl in Hinv. destruct Hinv as [Haddr H1 H2 H3]. destruct (H3 d' Hd') as [_ Hk]. rewrite Haddr in Hk. rewrite Hk. clear.
  unfold reg_at. split.
  - intros Hne. destruct (List.filter _ _) as [|p l] eqn:E; [done|].
    assert (Hin : p ∈ List.filter (fun p => bool_decide (namespaceWireKey (pe_Namespace p) = k)) (nr_publishers r)) by (rewrite E; left).
    rewrite list_elem_of_In in Hin. apply filter_In in Hin as [Hin Hb%bool_decide_eq_true]. exists p. by rewrite list_elem_of_In.
  - intros (p & Hin & Hp) E%len_zero. assert (Hf : p ∈ List.filter (fun p => bool_decide (namespaceWireKey (pe_Namespace p) = k)) (nr_publishers r)).
    { rewrite list_elem_of_In in *. apply filter_In. by rewrite bool_decide_eq_true. }
    rewrite E in Hf. by apply not_elem_of_nil in Hf.
Qed.
End Advertised.

Lemma sample_names_pair : ns_reach (NewNamespaceRegistry (Some (NewMemoryStore 4)) [x72; x30]) (sample_names.1, sample_names.2).
Proof. pose proof sample_names_reach as H. by destruct sample_names. Qed.
Lemma sample_disc_ready : nsa_ready (NewMemoryStore 4) [x72; x30].
Proof. split; [done|set_solver]. Qed.
Lemma sample_disc_empty k : nsa_has (NewMemoryStore 4) k [x72; x30] = false.
Proof. done. Qed.
Lemma sample_publishers : nr_publishers sample_names.1 = [MkPublisher 2 ns_ab 3 true 2].
Proof. by vm_compute. Qed.
Lemma sample_disc_some : exists d', nr_discovery sample_names.1 = Some d'.
Proof. destruct (nr_discovery sample_names.1) eqn:E; [eauto|by vm_compute in E]. Qed.

Lemma namespace_advertised_witness :
  exists d', nr_discovery sample_names.1 = Some d' /\ nsa_has d' (namespaceWireKey ns_ab) [x72; x30] = true /\
    ~ nsa_has d' (namespaceWireKey ns_a) [x72; x30] = true.
Proof.
  destruct sample_disc_some as [d' E]. exists d'. split; [exact E|].
  pose proof (namespace_advertised (NewMemoryStore 4) [x72; x30] sample_names.1 sample_names.2 sample_disc_ready sample_disc_empty
    sample_names_pair d' E) as H. rewrite sample_publishers in H. split.
  - apply H. exists (MkPublisher 2 ns_ab 3 true 2). split; [left|done].
  - intros (p & Hp & Hk)%H. apply list_elem_of_singleton in Hp as ->. done.
Defined.

(** ** The queue empties *)

(** The states a queue goes through, whatever the transport does. *)
Inductive ob_reach : Outbox -> Prop :=
| ob_new : ob_reach new_outbox
| ob_push now m last o : ob_reach o -> ob_reach (push now m last o)
| ob_write wok pick o : ob_reach o -> ob_reach (writer_step wok pick o).

Fixpoint run_writer (n : nat) (o : Outbox) : Outbox :=
  match n with O => o | S n' => run_writer n' (writer_step true false o) end.

Definition finish_mark (l : list queuedMessage) : Prop := l = [] \/ exists t, l = [MkQueued None t].

Record ob_inv (o : Outbox) : Prop := {
  oi_closed : ob_closed o = false;
  oi_mark : exists ms mk, ob_outbox o = ms ++ mk /\ Forall (fun q => is_Some (q_m q)) ms /\
              (mk = [] \/ (exists t, mk = [MkQueued None t]) /\ ob_stopped o = true);
  oi_wake : ob_writer o = WWait -> ob_outbox o <> [] \/ ob_stopped o = true -> ob_ready o = true;
  oi_hand q : ob_writer o = WWrite q -> is_Some (q_m q);
  oi_done : ob_writer o = WDone -> ob_outbox o = [] /\ ob_stopped o = true }.

Ltac no_marker := by (exists [], []; split_and!; [done|constructor|left]).

Lemma push_inv now m last o : ob_inv o -> ob_inv (push now m last o).
Proof.
  intros H. unfold push. destruct (ob_stopped o) eqn:Es; [done|]. destruct H as [Hc (ms & mk & E & Hms & Hmk) Hw Hh Hd].
  rewrite Es in Hmk, Hd.
  destruct (blockedLocked now o) eqn:Eb; split; simpl; try done.
  - no_marker.
  - intros HW _. apply Hw; [done|]. left. intros E0. unfold blockedLocked in Eb. rewrite HW, E0 in Eb. done.
  - destruct Hmk as [->|[_ ?]]; [|done]. rewrite app_nil_r in E. rewrite E.
    exists (ms ++ [MkQueued (Some m) now]), (if last then [MkQueued None now] else []).
    split; [by rewrite <- app_assoc|]. split; [apply Forall_app_2; [done|by apply Forall_singleton; eauto]|].
    destruct last; [right; eauto|by left].
  - intros HW. by apply Hd in HW as [_ ?].
Qed.

Lemma writer_inv wok pick o : ob_inv o -> ob_inv (writer_step wok pick o).
Proof.
  intros H. pose proof H as [Hc (ms & mk & E & Hms & Hmk) Hw Hh Hd]. unfold writer_step. rewrite Hc. simpl.
  destruct (ob_writer o) as [| |q|] eqn:EW; [| | |done].
  - destruct (ob_ready o) eqn:Er; [|done]. split; simpl; try done. by exists ms, mk.
  - destruct (ob_outbox o) as [|q rest] eqn:Eo.
    + destruct (ob_stopped o) eqn:Es; split; simpl; try done; try no_marker. intros _ [?|?]; congruence.
    + destruct ms as [|q' ms]; simpl in E.
      * destruct Hmk as [->|[[t ->] Hs]]; [done|]. injection E as -> ->. simpl. split; simpl; try done. no_marker.
      * injection E as -> ->. apply Forall_cons in Hms as [[m Hm] Hms]. rewrite Hm. split; simpl; try done.
        -- by exists ms, mk.
        -- intros q0 [= <-]. eauto.
  - destruct (Hh q eq_refl) as [m Hm]. rewrite Hm. destruct (marshal_events wok m); split; simpl; try done.
    + by exists ms, mk.
    + no_marker.
Qed.

Lemma ob_reach_inv o : ob_reach o -> ob_inv o.
Proof.
  induction 1; [|by apply push_inv|by apply writer_inv]. split; simpl; try done; [no_marker|].
  intros _ [?|?]; done.
Qed.

Lemma run_writer_add n k o : run_writer (n + k) o = run_writer k (run_writer n o).
Proof. revert o. induction n as [|n IH]; intros o; simpl; [done|apply IH]. Qed.

(** What [RunWriter] comes to: everything sent, and the goroutine returned if no more
    can come. *)
Definition drained (h : list Message) (o : Outbox) : Prop :=
  ob_outbox o = [] /\ msgs_of (ob_events o) = h /\ ob_writer o = if ob_stopped o then WDone else WWait.

Definition result_opt {A} (r : result A) : option A := match r with Ok a => Some a | Err _ => None end.
Definition encodes (m : Message) : Prop := exists bs, Marshal [] m = Ok bs.

Lemma encodes_events m : encodes m -> marshal_events true m = Some [RqMsg m].
Proof. intros [bs H]. unfold marshal_events. by rewrite H. Qed.

Lemma drain_loop ms : forall o mk, ob_writer o = WDrain -> ob_outbox o = ms ++ mk -> Forall (fun q => is_Some (q_m q)) ms ->
  (mk = [] \/ (exists t, mk = [MkQueued None t]) /\ ob_stopped o = true) -> Forall encodes (omap q_m ms) ->
  drained (history o) (run_writer (2 * length ms + 1) o).
Proof.
  induction ms as [|q ms IH]; intros o mk EW Eo Hms Hmk Henc; simpl in Eo.
  - simpl. unfold writer_step. rewrite EW, Eo. destruct Hmk as [->|[[t ->] Hs]]; simpl.
    + unfold drained, history; simpl. rewrite EW, Eo, !app_nil_r. by destruct (ob_stopped o).
    + unfold drained, history, msgs_of; simpl. rewrite EW, Eo, Hs, omap_app; simpl. by rewrite !app_nil_r.
  - apply Forall_cons in Hms as [[m Hm] Hms]. simpl in Henc. rewrite Hm in Henc. apply Forall_cons in Henc as [Hem Henc].
    replace (2 * length (q :: ms) + 1)%nat with (2 + (2 * length ms + 1))%nat by (simpl; lia).
    rewrite run_writer_add.
    assert (E2 : run_writer 2 o = MkOutbox (ms ++ mk) (ob_stopped o) (ob_ready o) WDrain (ob_closed o) (ob_events o ++ [RqMsg m])).
    { simpl. unfold writer_step at 2. rewrite EW, Eo, Hm. unfold set_writer, writer_step; simpl.
      rewrite Hm, (encodes_events _ Hem). simpl. by rewrite app_nil_r. }
    rewrite E2. set (o2 := MkOutbox _ _ _ _ _ _).
    replace (history o) with (history o2); [by eapply (IH o2 mk)|].
    unfold history, o2, msgs_of; simpl. rewrite EW, Eo, omap_app; simpl. rewrite Hm. by rewrite <- app_assoc.
Qed.

(** no message queued for a namespace subscription is forgotten: from any state
    its queue can be in, when the transport takes the writes, the writer sends
    everything queued, in order, within two steps a message, and then waits, or has
    returned if the subscription is finished or reset. *)
Theorem queue_drained o : ob_reach o -> Forall encodes (history o) ->
  exists n, (n <= 2 * length (ob_outbox o) + 3)%nat /\ drained (history o) (run_writer n o).
Proof.
  intros [Hc (ms & mk & E & Hms & Hmk) Hw Hh Hd]%ob_reach_inv Henc.
  assert (Hlen : (length ms <= length (ob_outbox o))%nat) by (rewrite E, length_app; lia).
  assert (Hms' : Forall encodes (omap q_m ms)).
  { unfold history in Henc. rewrite E, omap_app in Henc. rewrite !Forall_app in Henc. tauto. }
  destruct (ob_writer o) as [| |q|] eqn:EW.
  - destruct (ob_ready o) eqn:Er.
    + exists (1 + (2 * length ms + 1))%nat. split; [lia|]. rewrite run_writer_add. simpl run_writer at 2.
      assert (E1 : writer_step true false o = set_writer o WDrain false (ob_outbox o) []).
      { unfold writer_step. by rewrite EW, Hc, Er. }
      rewrite E1. replace (history o) with (history (set_writer o WDrain false (ob_outbox o) [])).
      * by eapply (drain_loop ms _ mk).
      * unfold history; simpl. by rewrite app_nil_r, EW.
    + exists 0%nat. split; [lia|]. simpl. unfold drained, history. rewrite EW.
      destruct (ob_outbox o) eqn:Eo; [|by assert (false = true) by (apply Hw; [done|by left])]. destruct (ob_stopped o) eqn:Es.
      * by assert (false = true) by (apply Hw; [done|by right]).
      * simpl. by rewrite !app_nil_r.
  - exists (2 * length ms + 1)%nat. split; [lia|]. by eapply drain_loop.
  - destruct (Hh q eq_refl) as [m Hm]. exists (1 + (2 * length ms + 1))%nat. split; [lia|]. rewrite run_writer_add.
    simpl run_writer at 2. assert (Hem : encodes m).
    { rewrite Forall_forall in Henc. apply Henc. unfold history. rewrite EW. apply elem_of_app. right. simpl. rewrite Hm. left. }
    assert (E1 : writer_step true false o = set_writer o WDrain (ob_ready o) (ob_outbox o) [RqMsg m]).
    { unfold writer_step. by rewrite EW, Hm, (encodes_events _ Hem). }
    rewrite E1. replace (history o) with (history (set_writer o WDrain (ob_ready o) (ob_outbox o) [RqMsg m])).
    + by eapply (drain_loop ms _ mk).
    + unfold history, msgs_of; simpl. rewrite omap_app, EW; simpl. rewrite Hm. by rewrite <- app_assoc.
  - destruct (Hd eq_refl) as [Eo Es]. exists 0%nat. split; [lia|]. simpl. unfold drained, history. rewrite EW, Eo, Es. simpl.
    by rewrite !app_nil_r.
Qed.

Definition sample_queue : Outbox :=
  push 2 (MRequestOK update_ok) true (push 1 (namespaceMessage ns_ab []) false new_outbox).
Lemma sample_queue_reach : ob_reach sample_queue.
Proof. repeat constructor. Qed.
Lemma sample_queue_encodes : Forall encodes (history sample_queue).
Proof.
  change (history sample_queue) with [namespaceMessage ns_ab []; MRequestOK update_ok].
  apply Forall_cons; split; [|apply Forall_singleton].
  - exists (default [] (result_opt (Marshal [] (namespaceMessage ns_ab [])))). by vm_compute.
  - exists (default [] (result_opt (Marshal [] (MRequestOK update_ok)))). by vm_compute.
Qed.

Lemma queue_drained_witness :
  exists n, (n <= 9)%nat /\ msgs_of (ob_events (run_writer n sample_queue)) = [namespaceMessage ns_ab []; MRequestOK update_ok] /\
    ob_writer (run_writer n sample_queue) = if ob_stopped (run_writer n sample_queue) then WDone else WWait.
Proof.
  destruct (queue_drained sample_queue sample_queue_reach sample_queue_encodes) as (n & Hn & _ & Hm & Hw).
  exists n. split; [exact Hn|]. split; [exact Hm|exact Hw].
Defined.
