(* ===== verification/NsHandlers.v ===== *)
(** * NsHandlers: serving namespace subscriptions

    [pkg/relay/handler_namespace.go]: the handler of SUBSCRIBE_NAMESPACE, with the
    prefixes a session has reserved, on top of the namespace registry; and what the
    subscriber's side of the stream, the [RequestBroker] of the session library,
    makes of what the relay sends.

    The authoriser and the token verifier are callbacks of the application: what
    they answer is an argument. *)

From stdpp Require Import gmap.
From S2P Require Import Prelude Codes Varint Wire KV Track Filter Params Properties RangeFilter Messages Tokens.
From S2P Require Import Objects Streams Session Broker Discovery Namespaces.

(** ** Reserved prefixes *)

Definition overlap (a b : TrackNamespace) : bool := HasPrefix a b || HasPrefix b a.

(** [prefixSet]: the prefixes of one session's subscriptions. *)
Abbreviation prefixSet := (list TrackNamespace).

Definition reserve (prefix : TrackNamespace) (ps : prefixSet) : bool * prefixSet :=
  if existsb (fun have => overlap have prefix) ps then (false, ps) else (true, ps ++ [prefix]).

Fixpoint IndexFunc (old : TrackNamespace) (ps : prefixSet) : option nat :=
  match ps with
  | [] => None
  | have :: ps' => if bool_decide (have = old) then Some O else S <$> IndexFunc old ps'
  end.

(** [None]: the slice is indexed with -1, a panic. *)
Definition replace_prefix (old prefix : TrackNamespace) (ps : prefixSet) : option (bool * prefixSet) :=
  let i := IndexFunc old ps in
  if existsb (fun jh => negb (bool_decide (Some jh.1 = i)) && overlap jh.2 prefix) (imap pair ps) then Some (false, ps)
  else match i with Some i => Some (true, <[i := prefix]> ps) | None => None end.

Definition release (prefix : TrackNamespace) (ps : prefixSet) : prefixSet :=
  match IndexFunc prefix ps with Some i => delete i ps | None => ps end.

(** ** Tokens and parameters of an update *)

Definition authorizing_token (p : Param) : bool :=
  (p_Type p =? ParamAuthorizationToken) &&
  match Token_Parse (p_Bytes p) with Ok tok => negb (AliasType tok =? AliasTypeDelete) | Err _ => false end.
Definition authorizingTokens (ps : Params) : Params := List.filter authorizing_token ps.

Definition updatedTokens (cur upd : Params) : Params :=
  let toks := authorizingTokens upd in if 0 <? len toks then toks else cur.
Definition withTokens (ps toks : Params) : Params :=
  List.filter (fun p => negb (p_Type p =? ParamAuthorizationToken)) ps ++ toks.

Definition mergeTracksUpdate (stored upd : Params) : Params :=
  List.filter (fun p => negb (existsb (fun u => p_Type u =? p_Type p) upd)) stored ++
  List.filter (fun p => negb ((p_Type p =? ParamTrackNamespacePrefix) || (p_Type p =? ParamAuthorizationToken)) &&
                        negb (IsRangeFilterParam (p_Type p) && (len (p_Bytes p) =? 0))) upd.

Definition subscribeTracksForwarding (ps : Params) : bool * Z :=
  (match p_Find ps ParamForward with Some p => negb (p_Byte p =? 0) | None => true end,
   match p_Find ps ParamGroupOrder with Some p => p_Byte p | None => 0 end).

(** The prefix an update asks for; an undecodable one closes the session. *)
Definition updatePrefixParam (upd : RequestUpdate) : result (option TrackNamespace) :=
  match p_Find (ru_Parameters upd) ParamTrackNamespacePrefix with
  | None => Ok None
  | Some p => Some <$> TrackNamespacePrefixFromParam p
  end.

(** [tokens] is the verifier's refusal, [authorize] the authoriser's. *)
Definition refuseUpdate (tokens : option RequestError) (prefixChanged : bool) (authorize : option RequestError)
    : option RequestError :=
  match tokens with
  | Some rej => Some rej
  | None => if prefixChanged then authorize else None
  end.

Definition overlap_reason : bytes := String.list_byte_of_string "updated prefix overlaps another subscription in this session".
Definition prefix_overlap : RequestError := MkRequestError RequestPrefixOverlap 0 overlap_reason None.

(** ** The relay's namespace subscriptions *)

(** A running SUBSCRIBE_NAMESPACE handler: its session, its request, its current
    prefix and authorising tokens. *)
Record NsSub : Type := MkNsSub { nu_sess : Z; nu_msg : SubscribeNamespace; nu_cur : TrackNamespace; nu_tokens : Params }.

Record NsRelay (D : Type) : Type := MkNsRelay {
  nl_names : NamespaceRegistry D; nl_prefixes : gmap Z prefixSet; nl_subs : gmap Z NsSub }.
Arguments MkNsRelay {D} _ _ _. Arguments nl_names {D} _. Arguments nl_prefixes {D} _. Arguments nl_subs {D} _.

Section Handlers.
Context {D : Type} `{!NsAdvertiser D}.
Implicit Types (st : NsRelay D).

Definition prefixes st (sess : Z) : prefixSet := default [] (nl_prefixes st !! sess).

(** [handleSubscribeNamespace] up to its loop: [Some code] is the REQUEST_ERROR it
    answers with.  [replied] is whether the REQUEST_OK could be written. *)
Definition handleSubscribeNamespace (auth : option RequestError) (replied : bool) (now : Z) (iter : Iter) (id sess : Z)
    (msg : SubscribeNamespace) st : option Z * NsRelay D :=
  match auth with
  | Some rej => (Some (ErrorCode rej), st)
  | None =>
      match reserve (sn_Prefix msg) (prefixes st sess) with
      | (false, _) => (Some RequestPrefixOverlap, st)
      | (true, ps) =>
          if replied
          then (None, MkNsRelay (RegisterSubscriber now iter id (sn_Prefix msg) sess false None (nl_names st))
                        (<[sess := ps]> (nl_prefixes st))
                        (<[id := MkNsSub sess msg (sn_Prefix msg) (authorizingTokens (sn_Parameters msg))]> (nl_subs st)))
          else (None, MkNsRelay (nl_names st) (<[sess := release (sn_Prefix msg) ps]> (nl_prefixes st)) (nl_subs st))
      end
  end.

(** The end of the handler: its deferred calls. *)
Definition endSubscribeNamespace (id : Z) st : NsRelay D :=
  match nl_subs st !! id with
  | None => st
  | Some u =>
      MkNsRelay (UnregisterSubscriber id (nl_names st)).2
        (<[nu_sess u := release (nu_cur u) (prefixes st (nu_sess u))]> (nl_prefixes st)) (delete id (nl_subs st))
  end.

(** What [namespaceUpdate] makes of a REQUEST_UPDATE: the request goes on, ends once
    the queue is written, or ends with the session closed; or the code panics. *)
Inductive updated : Type := UpdContinue | UpdFinish | UpdClose | UpdPanic.

Definition namespaceUpdate (tokens : option RequestError) (authorize : SubscribeNamespace -> option RequestError)
    (now : Z) (iter : Iter) (id : Z) (upd : RequestUpdate) st : updated * NsRelay D :=
  match nl_subs st !! id with
  | None => (UpdContinue, st)
  | Some u =>
      match updatePrefixParam upd with
      | Err _ => (UpdClose, st)
      | Ok prefix =>
          let updTokens := updatedTokens (nu_tokens u) (ru_Parameters upd) in
          let asked := MkSubscribeNamespace (sn_RequestID (nu_msg u)) (default [] prefix)
                         (withTokens (sn_Parameters (nu_msg u)) updTokens) in
          let names f := MkNsRelay (update_entry id f (nl_names st)) (nl_prefixes st) (nl_subs st) in
          match refuseUpdate tokens (bool_decide (is_Some prefix)) (authorize asked) with
          | Some rej => (UpdFinish, names (Finish now (MRequestError rej)))
          | None =>
              match prefix with
              | None =>
                  let u := MkNsSub (nu_sess u) (nu_msg u) (nu_cur u) updTokens in
                  (UpdContinue, MkNsRelay (update_entry id (enqueue now (MRequestOK update_ok)) (nl_names st))
                                  (nl_prefixes st) (<[id := u]> (nl_subs st)))
              | Some p =>
                  match replace_prefix (nu_cur u) p (prefixes st (nu_sess u)) with
                  | None => (UpdPanic, st)
                  | Some (false, _) => (UpdFinish, names (Finish now (MRequestError prefix_overlap)))
                  | Some (true, ps) =>
                      (UpdContinue,
                       MkNsRelay (UpdatePrefix now iter id p (MRequestOK update_ok) (nl_names st))
                         (<[nu_sess u := ps]> (nl_prefixes st))
                         (<[id := MkNsSub (nu_sess u) (nu_msg u) p updTokens]> (nl_subs st)))
                  end
              end
          end
      end
  end.
End Handlers.

(** ** Reservations never overlap *)

Definition disjoint_prefixes (ps : prefixSet) : Prop :=
  forall i j a b, ps !! i = Some a -> ps !! j = Some b -> i <> j -> overlap a b = false.

Lemma overlap_comm a b : overlap a b = overlap b a.
Proof. apply orb_comm. Qed.

(** Two prefixes of one namespace overlap. *)
Lemma overlap_common ns a b : HasPrefix ns a = true -> HasPrefix ns b = true -> overlap a b = true.
Proof.
  rewrite !HasPrefix_spec. intros Ha Hb. unfold overlap. rewrite orb_true_iff, !HasPrefix_spec.
  destruct (prefix_weak_total _ _ _ Ha Hb); auto.
Qed.

Lemma IndexFunc_spec old ps i : IndexFunc old ps = Some i -> ps !! i = Some old.
Proof.
  revert i. induction ps as [|h ps IH]; intros i; simpl; [done|]. case_bool_decide as E; [by intros [= <-]; subst|].
  destruct (IndexFunc old ps) as [j|]; [|done]. intros [= <-]. simpl. by apply IH.
Qed.
Lemma IndexFunc_in old ps : old ∈ ps -> is_Some (IndexFunc old ps).
Proof.
  induction ps as [|h ps IH]; [by intros ?%not_elem_of_nil|]. intros [->|H]%elem_of_cons; simpl.
  - rewrite bool_decide_true by done. eauto.
  - case_bool_decide; [eauto|]. destruct (IH H) as [j ->]. eauto.
Qed.

Lemma reserve_disjoint p ps ps' : disjoint_prefixes ps -> reserve p ps = (true, ps') ->
  disjoint_prefixes ps' /\ ps' ≡ₚ p :: ps.
Proof.
  intros H. unfold reserve. destruct (existsb _ _) eqn:E; [done|]. intros [= <-].
  split; [|by rewrite Permutation_app_comm].
  assert (Hp : forall a i, ps !! i = Some a -> overlap a p = false).
  { intros a i Hi. apply not_true_iff_false. intros Ho. apply not_true_iff_false in E. apply E, existsb_exists.
    exists a. split; [|done]. apply list_elem_of_In. by eapply list_elem_of_lookup_2. }
  intros i j a b Hi Hj Hne. apply lookup_snoc_Some in Hi as [[Hi1 Hi]|[Hi1 <-]], Hj as [[Hj1 Hj]|[Hj1 <-]].
  - by eapply H.
  - by eapply Hp.
  - rewrite overlap_comm. by eapply Hp.
  - lia.
Qed.

Lemma replace_disjoint old p ps : disjoint_prefixes ps -> old ∈ ps ->
  exists b ps', replace_prefix old p ps = Some (b, ps') /\ (b = false -> ps' = ps) /\
    (b = true -> disjoint_prefixes ps' /\ exists rest, ps ≡ₚ old :: rest /\ ps' ≡ₚ p :: rest).
Proof.
  intros H Hin. unfold replace_prefix. destruct (IndexFunc_in _ _ Hin) as [i Ei]. rewrite Ei.
  pose proof (IndexFunc_spec _ _ _ Ei) as Hi. destruct (existsb _ _) eqn:E; [by exists false, ps|].
  exists true, (<[i := p]> ps). do 2 (split; [done|]). intros _.
  assert (Hp : forall a j, j <> i -> ps !! j = Some a -> overlap a p = false).
  { intros a j Hne Hj. apply not_true_iff_false. intros Ho. apply not_true_iff_false in E. apply E, existsb_exists.
    exists (j, a). split; [|simpl; rewrite Ho, bool_decide_false; [done|congruence]].
    apply list_elem_of_In, elem_of_lookup_imap. eauto. }
  assert (Hlen : (i < length ps)%nat) by (by eapply lookup_lt_Some). split.
  - intros j k a b Hj Hk Hne. destruct (decide (j = i)) as [->|Hji], (decide (k = i)) as [->|Hki]; [done|..].
    + rewrite list_lookup_insert_eq in Hj by done. injection Hj as <-. rewrite list_lookup_insert_ne in Hk by done.
      rewrite overlap_comm. by eapply Hp.
    + rewrite list_lookup_insert_eq in Hk by done. injection Hk as <-. rewrite list_lookup_insert_ne in Hj by done. by eapply Hp.
    + rewrite list_lookup_insert_ne in Hj, Hk by done. by eapply H.
  - exists (delete i ps). split; [by apply delete_Permutation|].
    rewrite (delete_Permutation (<[i := p]> ps) i p) by (by apply list_lookup_insert_eq).
    f_equiv. apply reflexive_eq. rewrite !delete_take_drop. f_equal; [by apply take_insert_ge|apply drop_insert_lt; lia].
Qed.

Lemma release_disjoint p ps : disjoint_prefixes ps -> p ∈ ps -> disjoint_prefixes (release p ps) /\ ps ≡ₚ p :: release p ps.
Proof.
  intros H Hin. unfold release. destruct (IndexFunc_in _ _ Hin) as [i Ei]. rewrite Ei.
  pose proof (IndexFunc_spec _ _ _ Ei) as Hi. split; [|by apply delete_Permutation].
  assert (Hd : forall k, delete i ps !! k = ps !! (if decide (k < i)%nat then k else S k)).
  { intros k. case_decide; [by apply list_lookup_delete_lt|apply list_lookup_delete_ge; lia]. }
  intros j k a b Hj Hk Hne. rewrite Hd in Hj, Hk. eapply H; [exact Hj|exact Hk|]. repeat case_decide; lia.
Qed.

(** ** The subscriptions of a session *)

#[local] Instance filter_perm {A} (f : A -> bool) : Proper ((≡ₚ) ==> (≡ₚ)) (List.filter f).
Proof.
  intros l l'. induction 1 as [|x l l' _ IH|x y l|l1 l2 l3 _ IH1 _ IH2]; simpl; [done|by destruct (f x); [f_equiv|]| |by etrans].
  destruct (f x), (f y); try done. apply Permutation_swap.
Qed.

(** The current prefixes of the handlers of a session. *)
Definition curs (m : gmap Z NsSub) (sess : Z) : list TrackNamespace :=
  nu_cur <$> List.filter (fun u => nu_sess u =? sess) (map_to_list m).*2.
Definition cur_of (u : NsSub) (sess : Z) : list TrackNamespace := if nu_sess u =? sess then [nu_cur u] else [].

Lemma curs_insert m id u sess : m !! id = None -> curs (<[id := u]> m) sess ≡ₚ cur_of u sess ++ curs m sess.
Proof.
  intros H. unfold curs, cur_of. rewrite (map_to_list_insert m id u H). simpl. by destruct (nu_sess u =? sess).
Qed.
Lemma curs_lookup m id u sess : m !! id = Some u -> curs m sess ≡ₚ cur_of u sess ++ curs (delete id m) sess.
Proof. intros H. rewrite <- (insert_delete_id m id u H) at 1. apply curs_insert, lookup_delete_eq. Qed.

Lemma curs_elem m id u : m !! id = Some u -> nu_cur u ∈ curs m (nu_sess u).
Proof. intros H. rewrite (curs_lookup m id u _ H). unfold cur_of. rewrite Z.eqb_refl. left. Qed.

Section Relay.
Context {D : Type} `{!NsAdvertiser D}.
Implicit Types (st : NsRelay D).

Record relay_ok st : Prop := {
  ro_subs s : s ∈ nr_subscribers (nl_names st) -> se_WantsTracks s = false ->
    exists u, nl_subs st !! se_id s = Some u /\ nu_sess u = se_Session s /\ nu_cur u = se_prefix s;
  ro_perm sess : prefixes st sess ≡ₚ curs (nl_subs st) sess;
  ro_disj sess : disjoint_prefixes (prefixes st sess) }.

(** The same subscriptions, seen from the registry. *)
Definition skel (s : SubscriberEntry) : Z * Z * bool * TrackNamespace := (se_id s, se_Session s, se_WantsTracks s, se_prefix s).
Definition keeps_skel (ss ss' : list SubscriberEntry) : Prop :=
  forall s', s' ∈ ss' -> se_WantsTracks s' = false -> exists s, s ∈ ss /\ skel s = skel s'.

Lemma keeps_refl ss : keeps_skel ss ss.
Proof. intros s Hs _. by exists s. Qed.
Lemma keeps_trans ss1 ss2 ss3 : keeps_skel ss1 ss2 -> keeps_skel ss2 ss3 -> keeps_skel ss1 ss3.
Proof.
  intros H1 H2 s3 Hs3 Hw. destruct (H2 s3 Hs3 Hw) as (s2 & Hs2 & E2).
  assert (Hw2 : se_WantsTracks s2 = false) by (unfold skel in E2; congruence).
  destruct (H1 s2 Hs2 Hw2) as (s1 & Hs1 & E1). exists s1. split; [done|congruence].
Qed.
Lemma keeps_map (f : SubscriberEntry -> SubscriberEntry) ss : (forall s, skel (f s) = skel s) -> keeps_skel ss (f <$> ss).
Proof. intros Hf s' (s & -> & Hs)%list_elem_of_fmap _. exists s. by rewrite Hf. Qed.
Lemma keeps_filter (f : SubscriberEntry -> bool) ss : keeps_skel ss (List.filter f ss).
Proof. intros s Hs _. exists s. split; [by apply filter_elem_sub in Hs|done]. Qed.

Lemma keeps_update id (f : SubscriberEntry -> SubscriberEntry) (r : NamespaceRegistry D) : (forall s, skel (f s) = skel s) ->
  keeps_skel (nr_subscribers r) (nr_subscribers (update_entry id f r)).
Proof. intros Hf. apply keeps_map. intros s. by case_match. Qed.

Lemma add_source_skel now ns s : skel (add_source now ns s) = skel s.
Proof. unfold add_source. by repeat case_match. Qed.
Lemma remove_source_skel now ns s : skel (remove_source now ns s) = skel s.
Proof. unfold remove_source. by repeat case_match. Qed.

Lemma keeps_add now ns ss : keeps_skel ss (add_source now ns <$> ss).
Proof. apply keeps_map, add_source_skel. Qed.
Lemma keeps_remove now ns ss : keeps_skel ss (remove_source now ns <$> ss).
Proof. apply keeps_map, remove_source_skel. Qed.
Lemma keeps_drop now p ss : keeps_skel ss (drop_subs now p ss).
Proof. unfold drop_subs. destruct (pe_announced p); [apply keeps_remove|apply keeps_refl]. Qed.

Lemma keeps_fold {A} (f : NamespaceRegistry D -> A -> NamespaceRegistry D) l : forall r,
  (forall r x, keeps_skel (nr_subscribers r) (nr_subscribers (f r x))) ->
  keeps_skel (nr_subscribers r) (nr_subscribers (fold_left f l r)).
Proof. induction l as [|x l IH]; intros r Hf; simpl; [apply keeps_refl|]. eapply keeps_trans; [apply Hf|by apply IH]. Qed.
Lemma keeps_drops now L : forall ss, keeps_skel ss (fold_left (fun ss p => drop_subs now p ss) L ss).
Proof. induction L as [|p L IH]; intros ss; simpl; [apply keeps_refl|]. eapply keeps_trans; [apply keeps_drop|apply IH]. Qed.

Lemma keeps_add_relay now ns a (r : NamespaceRegistry D) : keeps_skel (nr_subscribers r) (nr_subscribers (add_relay now ns a r)).
Proof. unfold add_relay. case_bool_decide; [apply keeps_refl|apply keeps_add]. Qed.
Lemma keeps_remove_relay now ns a (r : NamespaceRegistry D) : keeps_skel (nr_subscribers r) (nr_subscribers (remove_relay now ns a r)).
Proof. unfold remove_relay. repeat case_match; try apply keeps_refl; apply keeps_remove. Qed.

(** Operations that are not the handlers' of this file. *)
Definition other_op (o : ns_op) st : Prop :=
  match o with
  | OpRegisterSubscriber _ _ id _ _ wants _ => wants = true
  | OpUnregisterSubscriber id => nl_subs st !! id = None
  | OpUpdatePrefix _ _ id _ => forall s, s ∈ nr_subscribers (nl_names st) -> se_id s = id -> se_WantsTracks s = true
  | _ => True
  end.

Lemma other_keeps o st : other_op o st -> keeps_skel (nr_subscribers (nl_names st)) (nr_subscribers (ns_step o (nl_names st, ∅)).1).
Proof.
  intros Ho. set (r := nl_names st) in *. destruct o; simpl in *; try apply keeps_refl; try (by apply keeps_update).
  - unfold AnnouncePublisher. case_match; [apply keeps_add|apply keeps_refl].
  - unfold UnregisterPublisher. destruct (List.find _ _) as [p|]; [|apply keeps_refl].
    set (r1 := set_publishers r _ _ _). pose proof (drop_publisher_fields now p r1) as (_ & _ & F & _).
    destruct (drop_publisher now p r1) as [r2 last]. simpl in *. rewrite F. apply keeps_drop.
  - subst wants. intros s' [Hs'|Hs']%elem_of_app Hw; [by exists s'|]. apply list_elem_of_singleton in Hs' as ->. done.
  - apply keeps_filter.
  - intros s' (s & -> & Hs)%list_elem_of_fmap Hw. destruct (Z.eqb_spec (se_id s) id) as [E|E]; [|by exists s].
    exfalso. pose proof (Ho s Hs E) as Hw'. unfold update_prefix_of in Hw. rewrite Hw' in Hw. simpl in Hw. congruence.
  - unfold reg_PublishSkipped. repeat case_match; try apply keeps_refl. by apply keeps_update.
  - unfold ns_RemoveSession. set (L := List.filter _ (nr_publishers r)).
    pose proof (drop_publishers_fields now L r []) as (_ & _ & F & _). destruct (drop_publishers now L (r, [])) as [r1 un].
    simpl in *. rewrite F. eapply keeps_trans; [apply keeps_drops|apply keeps_filter].
  - unfold RemoteNamespace. destruct published; [apply keeps_add_relay|apply keeps_remove_relay].
  - unfold ReplaceRemote. eapply keeps_trans; [|apply keeps_fold; intros r' kn; apply keeps_fold; intros; apply keeps_remove_relay].
    apply keeps_fold. intros r' kn. apply keeps_fold. intros. apply keeps_add_relay.
Qed.

Lemma seed_local_skel now prefix ps : forall names s, skel (seed_local now prefix ps names s).2 = skel s.
Proof.
  induction ps as [|p ps IH]; intros names s; simpl; [done|]. destruct (names !! _); [|apply IH].
  destruct (pe_announced p); [|apply IH]. by rewrite IH.
Qed.
Lemma seed_skel now iter s (r : NamespaceRegistry D) : skel (seed now iter s r) = skel s.
Proof.
  unfold seed. destruct (namespaceSources _ _ _) as [counts names].
  pose proof (seed_local_skel now (se_prefix s) (nr_publishers r) names (set_view s (se_prefix s) counts (se_out s))) as E.
  simpl. destruct (seed_local _ _ _ _ _) as [names' s']. rewrite enqueue_all_view. exact E.
Qed.

Inductive nl_reach st0 : NsRelay D -> Prop :=
| nl_start : nl_reach st0 st0
| nl_subscribe auth replied now iter id sess msg st : nl_reach st0 st -> is_iter iter -> nl_subs st !! id = None ->
    (id ∉ se_id <$> nr_subscribers (nl_names st)) ->
    nl_reach st0 (handleSubscribeNamespace auth replied now iter id sess msg st).2
| nl_update tokens authorize now iter id upd st : nl_reach st0 st -> is_iter iter ->
    nl_reach st0 (namespaceUpdate tokens authorize now iter id upd st).2
| nl_end id st : nl_reach st0 st -> nl_reach st0 (endSubscribeNamespace id st)
| nl_other o st : nl_reach st0 st -> other_op o st ->
    nl_reach st0 (MkNsRelay (ns_step o (nl_names st, ∅)).1 (nl_prefixes st) (nl_subs st)).

Lemma keeps_relay_ok st names : keeps_skel (nr_subscribers (nl_names st)) (nr_subscribers names) -> relay_ok st ->
  relay_ok (MkNsRelay names (nl_prefixes st) (nl_subs st)).
Proof.
  intros Hk [H1 H2 H3]. split; [|apply H2|apply H3]. simpl. intros s Hs Hw. destruct (Hk s Hs Hw) as (s0 & Hs0 & E).
  unfold skel in E. injection E as E1 E2 E3 E4. destruct (H1 s0 Hs0) as (u & Hu & Hu2 & Hu3); [congruence|].
  exists u. rewrite <- E1, <- E2, <- E4. done.
Qed.

(** The reservations of one session change. *)
Lemma set_prefixes_ok st names sess ps subs :
  (forall s, s ∈ nr_subscribers names -> se_WantsTracks s = false ->
     exists u, subs !! se_id s = Some u /\ nu_sess u = se_Session s /\ nu_cur u = se_prefix s) ->
  relay_ok st -> disjoint_prefixes ps -> ps ≡ₚ curs subs sess ->
  (forall sess', sess' <> sess -> curs subs sess' ≡ₚ curs (nl_subs st) sess') ->
  relay_ok (MkNsRelay names (<[sess := ps]> (nl_prefixes st)) subs).
Proof.
  intros Hs [H1 H2 H3] Hd Hp Ho.
  assert (E : forall sess', prefixes (MkNsRelay names (<[sess := ps]> (nl_prefixes st)) subs) sess'
    = if decide (sess' = sess) then ps else prefixes st sess').
  { intros sess'. unfold prefixes; simpl. case_decide as Es; [by rewrite Es, lookup_insert_eq|by rewrite lookup_insert_ne]. }
  split; [done|..]; intros sess'; rewrite E; case_decide as Es; subst; try done. by rewrite H2, Ho.
Qed.

Lemma curs_same m id u u' sess : m !! id = Some u -> nu_sess u' = nu_sess u -> (nu_cur u' = nu_cur u \/ nu_sess u <> sess) ->
  curs (<[id := u']> m) sess ≡ₚ curs m sess.
Proof.
  intros Hu Hs Hc. rewrite (curs_lookup m id u) by done. rewrite <- insert_delete_eq, curs_insert by apply lookup_delete_eq.
  unfold cur_of. rewrite Hs. destruct (Z.eqb_spec (nu_sess u) sess); [|done]. destruct Hc as [->|]; done.
Qed.

Lemma subscribe_relay_ok auth replied now iter id sess msg st : is_iter iter -> nl_subs st !! id = None ->
  (id ∉ se_id <$> nr_subscribers (nl_names st)) -> relay_ok st ->
  relay_ok (handleSubscribeNamespace auth replied now iter id sess msg st).2.
Proof.
  intros Hi Hid Hid2 H. unfold handleSubscribeNamespace. destruct auth as [rej|]; [done|].
  destruct (reserve _ _) as [[] ps] eqn:E; [|done]. apply reserve_disjoint in E as [Hd Hp]; [|apply H].
  destruct replied; simpl.
  - apply (set_prefixes_ok st); [|done|done| |].
    + simpl. intros s [Hs|Hs]%elem_of_app Hw.
      * destruct (ro_subs _ H s Hs Hw) as (u & Hu & ?). exists u. split; [|done]. rewrite lookup_insert_ne; [done|]. congruence.
      * apply list_elem_of_singleton in Hs as ->.
        pose proof (seed_skel now iter (MkSubscriber id (sn_Prefix msg) sess false defaultTracksParams (MkForwards ∅ false ∅) ∅ new_outbox)
          (nl_names st)) as E. unfold skel in E; simpl in E. injection E as -> -> _ ->.
        eexists. by rewrite lookup_insert_eq.
    + rewrite Hp, curs_insert by done. unfold cur_of; simpl. rewrite Z.eqb_refl. simpl. f_equiv. apply H.
    + intros sess' Hne. rewrite curs_insert by done. unfold cur_of; simpl. by destruct (Z.eqb_spec sess sess').
  - apply (set_prefixes_ok st); [apply H|done| | |done].
    + apply release_disjoint; [done|]. rewrite Hp. left.
    + assert (Hr : ps ≡ₚ sn_Prefix msg :: release (sn_Prefix msg) ps) by (apply release_disjoint; [done|rewrite Hp; left]).
      rewrite Hr in Hp. apply Permutation_cons_inv in Hp. rewrite Hp. apply H.
Qed.

Lemma update_prefix_skel now iter p ok (r : NamespaceRegistry D) s :
  skel (update_prefix_of now iter p ok r s) = (se_id s, se_Session s, se_WantsTracks s, p).
Proof.
  unfold update_prefix_of, skel. destruct (se_WantsTracks s) eqn:E; [simpl; by rewrite E|].
  destruct (namespaceSources _ _ p) as [counts names]. rewrite !enqueue_all_view. simpl. by rewrite E.
Qed.

Lemma update_relay_ok tokens authorize now iter id upd st : is_iter iter -> relay_ok st ->
  relay_ok (namespaceUpdate tokens authorize now iter id upd st).2 /\
  (namespaceUpdate tokens authorize now iter id upd st).1 <> UpdPanic.
Proof.
  intros Hi H. unfold namespaceUpdate. destruct (nl_subs st !! id) as [u|] eqn:Eu; [|done].
  destruct (updatePrefixParam upd) as [prefix|]; [|done].
  assert (Hf : forall rej, relay_ok (MkNsRelay (update_entry id (Finish now (MRequestError rej)) (nl_names st)) (nl_prefixes st) (nl_subs st))).
  { intros rej. apply keeps_relay_ok; [|done]. by apply keeps_update. }
  destruct (refuseUpdate _ _ _) as [rej|]; [by split; [apply Hf|]|]. destruct prefix as [p|].
  - destruct (replace_disjoint (nu_cur u) p (prefixes st (nu_sess u))) as (b & ps & E & Hb1 & Hb2); [apply H| |].
    { rewrite (ro_perm _ H). by eapply curs_elem. }
    rewrite E. destruct b; simpl; [|by split; [apply Hf|]]. split; [|done]. destruct (Hb2 eq_refl) as [Hd (rest & Hp1 & Hp2)].
    assert (Hrest : rest ≡ₚ curs (delete id (nl_subs st)) (nu_sess u)).
    { apply (Permutation_cons_inv (a:=nu_cur u)). rewrite <- Hp1, (ro_perm _ H), (curs_lookup _ id u) by done.
      unfold cur_of. by rewrite Z.eqb_refl. }
    apply (set_prefixes_ok st); [|done|done| |].
    + intros s (s0 & -> & Hs0)%list_elem_of_fmap Hw. destruct (Z.eqb_spec (se_id s0) id) as [E0|E0].
      * assert (Hsk : skel (update_prefix_of now iter p (MRequestOK update_ok) (nl_names st) s0)
          = (se_id s0, se_Session s0, se_WantsTracks s0, p)).
          by apply update_prefix_skel.
        unfold skel in Hsk. injection Hsk as -> -> Hw0 ->. rewrite Hw0 in Hw.
        destruct (ro_subs _ H s0 Hs0 Hw) as (u0 & Hu0 & Hs & _). rewrite E0 in Hu0 |- *. rewrite Eu in Hu0. injection Hu0 as ->.
        eexists. rewrite lookup_insert_eq. split; [done|]. by simpl.
      * destruct (ro_subs _ H s0 Hs0 Hw) as (u0 & Hu0 & ?). exists u0. by rewrite lookup_insert_ne.
    + rewrite Hp2, Hrest, <- insert_delete_eq, curs_insert by apply lookup_delete_eq. unfold cur_of; simpl. by rewrite Z.eqb_refl.
    + intros sess' Hne. eapply curs_same; [done|done|]. right. done.
  - split; [|done]. set (u' := MkNsSub _ _ _ _).
    assert (Hc : forall sess, curs (<[id := u']> (nl_subs st)) sess ≡ₚ curs (nl_subs st) sess).
    { intros sess. eapply curs_same; [done|done|by left]. }
    destruct H as [H1 H2 H3]. split; simpl; [|intros sess; rewrite Hc; apply H2|apply H3].
    intros s (s0 & -> & Hs0)%list_elem_of_fmap Hw.
    assert (Hsk : skel (if se_id s0 =? id then enqueue now (MRequestOK update_ok) s0 else s0) = skel s0) by (by case_match).
    unfold skel in Hsk. injection Hsk as -> -> Hw0 ->. rewrite Hw0 in Hw. destruct (H1 s0 Hs0 Hw) as (u0 & Hu0 & Ha & Hb).
    destruct (decide (se_id s0 = id)) as [E0|Hne].
    + rewrite E0 in Hu0 |- *. exists u'. rewrite lookup_insert_eq. rewrite Eu in Hu0. injection Hu0 as ->. done.
    + exists u0. by rewrite lookup_insert_ne.
Qed.

Lemma end_relay_ok id st : relay_ok st -> relay_ok (endSubscribeNamespace id st).
Proof.
  intros H. unfold endSubscribeNamespace. destruct (nl_subs st !! id) as [u|] eqn:Eu; [|done].
  destruct (release_disjoint (nu_cur u) (prefixes st (nu_sess u))) as [Hd Hp]; [apply H| |].
  { rewrite (ro_perm _ H). by eapply curs_elem. }
  apply (set_prefixes_ok st); [|done|done| |].
  - simpl. intros s Hs Hw. rewrite list_elem_of_In, filter_In, <- list_elem_of_In in Hs. destruct Hs as [Hs Hne].
    destruct (Z.eqb_spec (se_id s) id); [done|]. destruct (ro_subs _ H s Hs Hw) as (u0 & Hu0 & ?). exists u0.
    by rewrite lookup_delete_ne.
  - apply (Permutation_cons_inv (a:=nu_cur u)). rewrite <- Hp, (ro_perm _ H), (curs_lookup _ id u) by done.
    unfold cur_of. by rewrite Z.eqb_refl.
  - intros sess' Hne. rewrite (curs_lookup (nl_subs st) id u sess') by done. unfold cur_of. by destruct (Z.eqb_spec (nu_sess u) sess').
Qed.

Lemma nl_reach_ok names st : nr_subscribers names = [] -> nl_reach (MkNsRelay names ∅ ∅) st -> relay_ok st.
Proof.
  intros Hn. induction 1 as [| | | |o st _ IH Ho].
  - split; simpl; [rewrite Hn; by intros s ?%not_elem_of_nil|done|]. intros sess i j a b. unfold prefixes; simpl.
    by rewrite lookup_empty.
  - by apply subscribe_relay_ok.
  - by apply update_relay_ok.
  - by apply end_relay_ok.
  - apply keeps_relay_ok; [by apply other_keeps|done].
Qed.

Lemma disjoint_pair ps a b rest : disjoint_prefixes ps -> ps ≡ₚ a :: b :: rest -> overlap a b = false.
Proof.
  intros H Hp. symmetry in Hp. apply Permutation_inj in Hp as (_ & f & Hf & Hl).
  apply (H (f O) (f 1%nat)); [by rewrite <- Hl|by rewrite <- Hl|]. intros E. by apply Hf in E.
Qed.

(** a session's SUBSCRIBE_NAMESPACEs never overlap, whatever prefixes its requests
    and updates ask for, so no namespace is announced on two of its streams; and
    answering an update never indexes the reservations out of range. *)
Theorem announced_on_one_stream names st s1 s2 : nr_subscribers names = [] -> nl_reach (MkNsRelay names ∅ ∅) st ->
  s1 ∈ nr_subscribers (nl_names st) -> s2 ∈ nr_subscribers (nl_names st) -> se_id s1 <> se_id s2 ->
  se_Session s1 = se_Session s2 -> se_WantsTracks s1 = false -> se_WantsTracks s2 = false ->
  (forall ns, ~ (HasPrefix ns (se_prefix s1) = true /\ HasPrefix ns (se_prefix s2) = true)) /\
  forall tokens authorize now iter id upd, is_iter iter -> (namespaceUpdate tokens authorize now iter id upd st).1 <> UpdPanic.
Proof.
  intros Hn Hreach H1 H2 Hne Hs Hw1 Hw2. apply nl_reach_ok in Hreach as Hok; [|done].
  split; [|intros; by apply update_relay_ok].
  destruct (ro_subs _ Hok s1 H1 Hw1) as (u1 & Hu1 & Hs1 & <-), (ro_subs _ Hok s2 H2 Hw2) as (u2 & Hu2 & Hs2 & <-).
  intros ns [Hp1 Hp2]. pose proof (overlap_common _ _ _ Hp1 Hp2) as Ho.
  rewrite (disjoint_pair (prefixes st (se_Session s1)) (nu_cur u1) (nu_cur u2)
    (curs (delete (se_id s2) (delete (se_id s1) (nl_subs st))) (se_Session s1))) in Ho; [done|apply Hok|].
  rewrite (ro_perm _ Hok), (curs_lookup _ (se_id s1) u1) by done.
  rewrite (curs_lookup (delete (se_id s1) (nl_subs st)) (se_id s2) u2) by (by rewrite lookup_delete_ne).
  unfold cur_of. rewrite Hs1, Hs2, Hs, Z.eqb_refl. done.
Qed.
End Relay.

(** ** The subscriber's broker *)

Section Client.
Context (text : error -> bytes).
Context (onUpdate : option (RequestUpdate -> sess (option RequestOK))) (onUpdateFailed : Session -> Session).

Definition oks (ms : list Message) : nat := length (omap (fun m => match m with MRequestOK _ => Some tt | _ => None end) ms).

(** A subscriber's run on its SUBSCRIBE_NAMESPACE: the updates it has sent and the
    messages it has read.  An answer is read only after the update it answers was
    sent. *)
Inductive client_run (start : RequestBroker * Session)
    : list (option TrackNamespace) -> list Message -> RequestUpdateLimiter * RequestBroker * Session -> Prop :=
| cr_start l : client_run start [] [] (l, start.1, start.2)
| cr_update asks reads l b s ps ch b' s' : client_run start asks reads (l, b, s) ->
    Update true ps b s = (Ok ch, b', s') ->
    client_run start (asks ++ [update_prefix ps]) reads (l, b', s')
| cr_read asks reads l b s wok m o l' b' s' : client_run start asks reads (l, b, s) ->
    (oks (reads ++ [m]) <= length asks)%nat ->
    serve_step text onUpdate onUpdateFailed wok m l b s = (o, l', b', s') -> (forall e, o <> SStop e) ->
    client_run start asks (reads ++ [m]) (l', b', s').

(** The broker's picture is the view [v]. *)
Record sees (v : view) (b : RequestBroker) : Prop := {
  se_handle : tracks_namespaces b = true;
  se_lost : b_nsPrefixLost b = false;
  se_pre : b_nsPrefix b = v_prefix v;
  se_wait : uw_prefix <$> b_waiters b = v_pending v;
  se_upd : b_waiters b <> [] -> b_updated b = true;
  se_names : b_namespaces b = set_map (fun k => MkKey k []) (v_known v) }.

Lemma no_tokens m s : ParamsOf m = None \/ ParamsOf m = Some [] -> exists s', tokens_or_close m s = (Ok [], s').
Proof.
  intros H. unfold tokens_or_close, s_processRequestTokens, processRequestTokens. destruct H as [-> | ->]; simpl; eauto.
Qed.

Lemma key_in (k : bytes) (S : gset bytes) : MkKey k [] ∈ (set_map (fun k => MkKey k []) S : gset Key) <-> k ∈ S.
Proof. rewrite elem_of_map. split; [by intros (x & [= <-] & ?)|]. intros. by exists k. Qed.

Lemma ok_checks b s : b_updated b = true -> response_checks (MRequestOK update_ok) b s = (Ok tt, s).
Proof. intros H. unfold response_checks. by rewrite H. Qed.

Lemma route_ok b s w ws : b_waiters b = w :: ws ->
  exists d, route (MRequestOK update_ok) b s =
    (true, set_waiters (match uw_prefix w with Some p => set_prefix b p (b_namespaces b) (b_nsPrefixLost b) | None => b end)
             ws (b_updatesClosed b) (b_updated b) (b_next b) d (b_events b), s).
Proof. intros H. unfold route. rewrite H. simpl. destruct (uw_prefix w); eauto. Qed.

(** A message the view makes sense of is served, and the pictures still agree. *)
Lemma serve_sees wok m l b s v v' : sees v b -> (forall e, m <> MRequestError e) -> view_step v m = Some v' ->
  exists o l' b' s', serve_step text onUpdate onUpdateFailed wok m l b s = (o, l', b', s') /\ (forall e, o <> SStop e) /\ sees v' b'.
Proof.
  intros [H1 H2 H3 H4 H5 H6] Hne Hv. destruct m; simpl in Hv; try done.
  - destruct m as [[|] [|]]; try done. destruct (no_tokens (MRequestOK update_ok) s) as [s1 E]; [by right|].
    destruct (v_pending v) as [|u us] eqn:Ep; [done|]. injection Hv as <-. destruct (b_waiters b) as [|w ws] eqn:Ew; [done|].
    injection H4 as Hw1 Hw2. unfold serve_step. change (MkRequestOK [] []) with update_ok. rewrite E, ok_checks by auto.
    destruct (route_ok b s1 w ws Ew) as [d Er]. rewrite Er. do 4 eexists. split; [done|]. split; [done|].
    unfold tracks_namespaces in *. split; simpl; destruct (uw_prefix w) eqn:Euw; subst u; simpl; auto.
  - by destruct (Hne m).
  - destruct (no_tokens (MNamespace m) s) as [s1 E]; [by left|]. unfold serve_step. rewrite E.
    unfold namespaceFollowup. rewrite H1, H2. simpl. do 4 eexists. split; [done|]. split; [done|].
    case_bool_decide; [done|]. injection Hv as <-. split; simpl; try done. rewrite H6, H3. set_solver.
  - destruct (no_tokens (MNamespaceDone m) s) as [s1 E]; [by left|]. unfold serve_step. rewrite E.
    unfold namespaceFollowup. rewrite H1, H2. simpl. case_bool_decide as Hk; [|done]. injection Hv as <-.
    rewrite bool_decide_true; [|rewrite H6, H3; by apply key_in].
    do 4 eexists. split; [done|]. split; [done|]. split; simpl; try done. rewrite H6, H3. apply leibniz_equiv. intros [kn kk].
    rewrite elem_of_difference, !elem_of_map, elem_of_singleton. unfold NewKey, fn_Key; simpl. split.
    + intros [(x & [= -> ->] & Hx) Hnk]. exists x. split; [done|]. apply elem_of_difference. split; [done|].
      intros ->%elem_of_singleton. by apply Hnk.
    + intros (x & [= -> ->] & [Hx Hn]%elem_of_difference). split; [by exists x|]. intros [= ->]. apply Hn. by apply elem_of_singleton.
  - destruct (no_tokens (MPublishSkipped m) s) as [s1 E]; [by left|]. unfold serve_step. rewrite E. injection Hv as <-.
    do 4 eexists. split; [done|]. split; [done|]. by split.
Qed.

Lemma update_sees v b s ps ch b' s' : sees v b -> Update true ps b s = (Ok ch, b', s') -> sees (ask (update_prefix ps) v) b'.
Proof.
  intros [H1 H2 H3 H4 H5 H6]. unfold Update. destruct (b_updatesClosed b); [done|]. destruct (AllocRequestID s) as [rid s1].
  destruct (marshal_events _ _); [|done]. intros [= <- <- <-]. unfold tracks_namespaces in *. split; simpl; try done.
  by rewrite fmap_app, H4.
Qed.

(** Updates sent later do not change what the messages read so far mean. *)
Lemma view_step_later v m v' later : view_step (MkView (v_prefix v) (v_pending v ++ later) (v_known v)) m = Some v' ->
  (oks [m] <= length (v_pending v))%nat ->
  exists v1, view_step v m = Some v1 /\ v' = MkView (v_prefix v1) (v_pending v1 ++ later) (v_known v1) /\
    length (v_pending v1) = (length (v_pending v) - oks [m])%nat.
Proof.
  destruct m; simpl; try done; try (intros [= <-] _; eexists; split_and!; [done|done|by rewrite Nat.sub_0_r]).
  - destruct m as [[|] [|]]; try done. destruct (v_pending v) as [|u us]; simpl; [intros _ ?; unfold oks in *; simpl in *; lia|].
    intros [= <-] _. eexists. split_and!; [done|done|]. simpl. by rewrite Nat.sub_0_r.
  - case_bool_decide; [done|]. intros [= <-] _. eexists. split_and!; [done|done|]. by rewrite Nat.sub_0_r.
  - case_bool_decide; [|done]. intros [= <-] _. eexists. split_and!; [done|done|]. by rewrite Nat.sub_0_r.
Qed.

Lemma oks_cons m ms : oks (m :: ms) = (oks [m] + oks ms)%nat.
Proof. unfold oks. simpl. by destruct m. Qed.

Lemma replay_later later ms : forall v v', replay (MkView (v_prefix v) (v_pending v ++ later) (v_known v)) ms = Some v' ->
  (oks ms <= length (v_pending v))%nat ->
  exists v1, replay v ms = Some v1 /\ v' = MkView (v_prefix v1) (v_pending v1 ++ later) (v_known v1).
Proof.
  induction ms as [|m ms IH]; intros v v'; simpl; [intros [= <-] _; by exists v|]. rewrite oks_cons.
  destruct (view_step _ m) as [v2|] eqn:E; [|done]. intros H Hl.
  destruct (view_step_later v m v2 later E) as (v1 & E1 & -> & Hlen); [lia|]. rewrite E1. apply IH; [done|lia].
Qed.

Lemma run_oks start asks reads st : client_run start asks reads st -> (oks reads <= length asks)%nat.
Proof. induction 1; [unfold oks; simpl; lia|rewrite length_app; lia|done]. Qed.

Definition not_error (m : Message) : Prop := forall e, m <> MRequestError e.

Lemma client_sees start asks reads st p0 : client_run start asks reads st -> sees (MkView p0 [] ∅) start.1 ->
  Forall not_error reads -> (exists later v, replay (MkView p0 (asks ++ later) ∅) reads = Some v) ->
  exists v, replay (MkView p0 asks ∅) reads = Some v /\ sees v st.1.2.
Proof.
  intros Hrun H0. induction Hrun as [l|asks reads l b s ps ch b' s' Hrun IH Hu|asks reads l b s wok m o l' b' s' Hrun IH Hc Hs Ho];
    intros Herr (later & v & Hv).
  - by exists (MkView p0 [] ∅).
  - destruct IH as (v1 & Hr & Hsee); [done|exists (update_prefix ps :: later), v; by rewrite <- app_assoc in Hv|].
    exists (ask (update_prefix ps) v1). split; [by apply (replay_ask (update_prefix ps) reads (MkView p0 asks ∅))|].
    by eapply update_sees.
  - apply Forall_app in Herr as [Herr Hm]. apply Forall_cons in Hm as [Hm _].
    destruct (replay_later later (reads ++ [m]) (MkView p0 asks ∅) v Hv Hc) as (v2 & Hv2 & _).
    rewrite replay_app in Hv2. destruct (replay (MkView p0 asks ∅) reads) as [v1|] eqn:E1; [|done].
    assert (Hpre : exists later v, replay (MkView p0 (asks ++ later) ∅) reads = Some v).
    { rewrite replay_app in Hv. destruct (replay (MkView p0 (asks ++ later) ∅) reads) as [w|] eqn:E; [by exists later, w|done]. }
    destruct (IH Herr Hpre) as (v1' & [= <-] & Hsee).
    simpl in Hv2. destruct (view_step v1 m) as [v3|] eqn:E3; [|done]. injection Hv2 as ->.
    exists v2. rewrite replay_app, E1. simpl. rewrite E3. split; [done|].
    destruct (serve_sees wok m l b s v1 v2 Hsee Hm E3) as (o2 & l2 & b2 & s2 & E & _ & Hsee2). simpl in *.
    rewrite Hs in E. by injection E as -> -> -> ->.
Qed.
End Client.

(** The views subscribers start from. *)
Lemma start_views {D} `{!NsAdvertiser D} r0 (st : NamespaceRegistry D * gmap Z view) : ns_reach r0 st ->
  forall id v, st.2 !! id = Some v -> v_known v = ∅.
Proof.
  assert (Hal : forall (g : gmap Z view) u i id v, (forall id v, g !! id = Some v -> v_known v = ∅) ->
    alter (ask u) i g !! id = Some v -> v_known v = ∅).
  { intros g u i id v H. destruct (decide (i = id)) as [->|Hne]; [|rewrite lookup_alter_ne by done; apply H].
    rewrite lookup_alter_eq. destruct (g !! id) eqn:E; [|done]. intros [= <-]. simpl. by eapply H. }
  induction 1 as [|o [r g] _ IH _]; [intros id v; simpl; by rewrite lookup_empty|]. simpl in IH.
  destruct o; simpl; try done; try (intros i v; by apply Hal). intros i v. destruct (decide (id = i)) as [->|Hne].
  - rewrite lookup_insert_eq. by intros [= <-].
  - rewrite lookup_insert_ne by done. apply IH.
Qed.

(** C36: the relay and the subscriber agree about namespaces.  A subscriber whose broker
    sends the updates the relay has received (and possibly later ones) and reads
    what the relay writes on its stream is never made to close the session; and once
    it has read everything, with no update of its own on the way, it holds exactly
    the namespaces under its prefix that have a source at the relay. *)
Theorem namespace_view_agrees {D} `{!NsAdvertiser D} (d : option D) addr r g s v0 text onUpdate onFailed h pu pn scope s0
    asks reads l b s1 :
  ns_reach (NewNamespaceRegistry d addr) (r, g) -> s ∈ nr_subscribers r -> se_WantsTracks s = false ->
  g !! se_id s = Some v0 -> h_namespaces h = true ->
  client_run text onUpdate onFailed (handle_Broker h pu pn scope (v_prefix v0), s0) asks reads (l, b, s1) ->
  v_pending v0 `prefix_of` asks -> reads `prefix_of` history (se_out s) -> Forall not_error reads ->
  (forall wok m, reads ++ [m] `prefix_of` history (se_out s) -> not_error m -> (oks (reads ++ [m]) <= length asks)%nat ->
     exists o l' b' s2, serve_step text onUpdate onFailed wok m l b s1 = (o, l', b', s2) /\ (forall e, o <> SStop e)) /\
  (reads = history (se_out s) -> ob_stopped (se_out s) = false -> asks = v_pending v0 ->
     forall ns, wf_ns ns -> NewKey ns [] ∈ b_namespaces b <-> HasPrefix ns (se_prefix s) = true /\ 0 < source_count r ns).
Proof.
  intros Hreach Hin Hw Hg Hh Hrun [later ->] Hpre Herr.
  pose proof (start_views _ _ Hreach _ _ Hg) as Hk0. pose proof (ns_reach_ok _ _ _ Hreach) as [H1 H2 _ H4]. simpl in *.
  pose proof (proj1 (Forall_forall _ _) H4 s Hin) as (v0' & Hg' & Hs). rewrite Hg in Hg'. injection Hg' as <-.
  destruct (so_tracks _ _ _ Hs) as (v & Hv & Hst). destruct v0 as [p0 asked K0]. simpl in *. subst K0.
  assert (Hall : forall later, exists v', replay (MkView p0 (asked ++ later) ∅) (history (se_out s)) = Some v').
  { intros l'. clear -Hv. revert v Hv. induction l' as [|u l' IH] using rev_ind; intros v Hv; [rewrite app_nil_r; eauto|].
    destruct (IH v Hv) as [v' Hv']. exists (ask u v'). rewrite app_assoc. by apply (replay_ask u _ (MkView p0 (asked ++ l') ∅)). }
  assert (H0 : sees (MkView p0 [] ∅) (handle_Broker h pu pn scope p0)) by (split; try done; by unfold tracks_namespaces).
  assert (Hlater : exists l2 v', replay (MkView p0 ((asked ++ later) ++ l2) ∅) reads = Some v').
  { exists []. rewrite app_nil_r. destruct (Hall later) as [v' Hv']. by eapply replay_prefix. }
  destruct (client_sees _ _ _ _ _ _ _ p0 Hrun H0 Herr Hlater) as (v1 & Hv1 & Hsee). simpl in Hsee. split.
  - intros wok m Hm Hne Hc. destruct (Hall later) as [v' Hv']. destruct (replay_prefix _ _ _ _ Hm Hv') as [v2 Hv2].
    rewrite replay_app, Hv1 in Hv2. simpl in Hv2. destruct (view_step v1 m) as [v3|] eqn:E; [|done].
    destruct (serve_sees text onUpdate onFailed wok m l b s1 v1 v3 Hsee Hne E) as (o & l2 & b2 & s2 & E2 & Ho & _). eauto 10.
  - intros -> Hn Ha ns Hns. rewrite Ha in Hv1. rewrite Hv1 in Hv. injection Hv as ->. rewrite (Hst Hn) in Hsee.
    rewrite (se_names _ _ Hsee). unfold NewKey, fn_Key; simpl. fold (namespaceWireKey ns). rewrite key_in.
    rewrite (sub_ok_known _ _ _ _ Hw Hs), sources_count by done. pose proof (source_count_nonneg r ns).
    destruct (HasPrefix ns (se_prefix s)); [|naive_solver]. split; [intros; split; [done|lia]|intros [_ ?]; lia].
Qed.

(** ** Sample runs *)

Definition sample_start : NsRelay MemoryStore := MkNsRelay (NewNamespaceRegistry (Some (NewMemoryStore 4)) [x72]) ∅ ∅.
Definition subscribe_b : SubscribeNamespace := MkSubscribeNamespace 2 [[x62]] [].
Definition sample_one : NsRelay MemoryStore :=
  (handleSubscribeNamespace None true 1 sorted_iter 1 7 (MkSubscribeNamespace 0 ns_a []) sample_start).2.
Definition sample_two : NsRelay MemoryStore := (handleSubscribeNamespace None true 2 sorted_iter 2 7 subscribe_b sample_one).2.
Definition nth_sub (n : nat) (st : NsRelay MemoryStore) : SubscriberEntry := nth n (nr_subscribers (nl_names st)) sample_sub.

Lemma sample_two_reach : nl_reach sample_start sample_two.
Proof.
  apply nl_subscribe; [|apply sorted_iter_ok|by vm_compute|vm_compute; set_solver].
  apply nl_subscribe; [constructor|apply sorted_iter_ok|done|]. simpl. set_solver.
Qed.
Lemma sample_two_subs : nth_sub 0 sample_two ∈ nr_subscribers (nl_names sample_two) /\
  nth_sub 1 sample_two ∈ nr_subscribers (nl_names sample_two).
Proof. split; vm_compute; [left|right; left]. Qed.

Lemma announced_on_one_stream_witness :
  se_prefix (nth_sub 0 sample_two) = ns_a /\ se_prefix (nth_sub 1 sample_two) = [[x62]] /\
  ~ (HasPrefix ns_ab (se_prefix (nth_sub 0 sample_two)) = true /\ HasPrefix ns_ab (se_prefix (nth_sub 1 sample_two)) = true) /\
  (handleSubscribeNamespace None true 3 sorted_iter 3 7 (MkSubscribeNamespace 4 ns_ab []) sample_two).1 = Some RequestPrefixOverlap.
Proof.
  split; [by vm_compute|]. split; [by vm_compute|]. split; [|by vm_compute].
  destruct (announced_on_one_stream (NewNamespaceRegistry (Some (NewMemoryStore 4)) [x72]) sample_two (nth_sub 0 sample_two) (nth_sub 1 sample_two)
    eq_refl sample_two_reach (proj1 sample_two_subs) (proj2 sample_two_subs)) as [H _]; try (by vm_compute). apply H.
Defined.

(** A subscriber with no handlers of its own, its run as a function. *)
Definition client_serve := serve_step (fun _ => []) None (fun s => s).
Definition read_one (m : Message) (st : RequestUpdateLimiter * RequestBroker * Session) : RequestUpdateLimiter * RequestBroker * Session :=
  let '(_, l, b, s) := client_serve true m st.1.1 st.1.2 st.2 in (l, b, s).
Definition reads_on (m : Message) (st : RequestUpdateLimiter * RequestBroker * Session) : bool :=
  match (client_serve true m st.1.1 st.1.2 st.2).1.1.1 with SStop _ => false | _ => true end.
Definition update_one (ps : Params) (st : RequestUpdateLimiter * RequestBroker * Session) : RequestUpdateLimiter * RequestBroker * Session :=
  let '(_, b, s) := Update true ps st.1.2 st.2 in (st.1.1, b, s).
Definition update_sent (ps : Params) (st : RequestUpdateLimiter * RequestBroker * Session) : bool :=
  match (Update true ps st.1.2 st.2).1.1 with Ok _ => true | Err _ => false end.

Lemma run_read start asks reads st m : client_run (fun _ => []) None (fun s => s) start asks reads st ->
  (oks (reads ++ [m]) <= length asks)%nat -> reads_on m st = true ->
  client_run (fun _ => []) None (fun s => s) start asks (reads ++ [m]) (read_one m st).
Proof.
  destruct st as [[l b] s]. intros H Hc. unfold reads_on, read_one, client_serve. simpl.
  destruct (serve_step _ _ _ true m l b s) as [[[o l'] b'] s'] eqn:E. simpl. intros Ho.
  eapply cr_read; [exact H|exact Hc|exact E|]. intros e ->. done.
Qed.
Lemma run_update start asks reads st ps : client_run (fun _ => []) None (fun s => s) start asks reads st ->
  update_sent ps st = true -> client_run (fun _ => []) None (fun s => s) start (asks ++ [update_prefix ps]) reads (update_one ps st).
Proof.
  destruct st as [[l b] s]. intros H. unfold update_sent, update_one. simpl.
  destruct (Update true ps b s) as [[[ch|e] b'] s'] eqn:E; simpl; [|done]. intros _. by eapply cr_update.
Qed.

Definition sample_handle : requestHandle := MkHandle true TypeSubscribeNamespace false 0 false false false false.
Definition sample_client : RequestBroker * Session := (handle_Broker sample_handle false false 0 [], new_session roleClient ∅ 0 0).
Definition sample_client_end : RequestUpdateLimiter * RequestBroker * Session :=
  read_one (MRequestOK update_ok) (read_one (namespaceDoneMessage ns_a []) (read_one (namespaceMessage ns_a [])
    (update_one [TrackNamespacePrefixParam ns_ab] (read_one (namespaceMessage ns_ab []) (MkLimiter 0 0, sample_client.1, sample_client.2))))).

Lemma sample_client_run : client_run (fun _ => []) None (fun s => s) sample_client [Some ns_ab] (history (se_out sample_sub)) sample_client_end.
Proof.
  replace (history (se_out sample_sub)) with
    (((([] ++ [namespaceMessage ns_ab []]) ++ [namespaceMessage ns_a []]) ++ [namespaceDoneMessage ns_a []]) ++ [MRequestOK update_ok])
    by (by vm_compute).
  replace [Some ns_ab] with ([] ++ [update_prefix [TrackNamespacePrefixParam ns_ab]]) by (by vm_compute).
  repeat (apply run_read; [|vm_compute; lia|by vm_compute]). apply run_update; [|by vm_compute].
  apply run_read; [constructor|vm_compute; lia|by vm_compute].
Qed.
Lemma sample_sub_in : sample_sub ∈ nr_subscribers sample_names.1.
Proof. vm_compute. left. Qed.
Lemma sample_view0 : sample_names.2 !! se_id sample_sub = Some (MkView [] [Some ns_ab] ∅).
Proof. by vm_compute. Qed.
Lemma sample_not_error : Forall not_error (history (se_out sample_sub)).
Proof. replace (history (se_out sample_sub)) with
    [namespaceMessage ns_ab []; namespaceMessage ns_a []; namespaceDoneMessage ns_a []; MRequestOK update_ok] by (by vm_compute).
  repeat constructor; intros e; done.
Qed.
Lemma sample_prefix : se_prefix sample_sub = ns_ab.
Proof. by vm_compute. Qed.
Lemma sample_sources : source_count sample_names.1 ns_ab = 1.
Proof. by vm_compute. Qed.
Lemma sample_not_stopped : ob_stopped (se_out sample_sub) = false.
Proof. by vm_compute. Qed.

Lemma namespace_view_agrees_witness :
  NewKey ns_ab [] ∈ b_namespaces sample_client_end.1.2 /\ ~ NewKey ns_a [] ∈ b_namespaces sample_client_end.1.2.
Proof.
  destruct (namespace_view_agrees (Some (NewMemoryStore 4)) [x72; x30] sample_names.1 sample_names.2 sample_sub
    (MkView [] [Some ns_ab] ∅) (fun _ => []) None (fun s => s) sample_handle false false 0 (new_session roleClient ∅ 0 0) [Some ns_ab]
    (history (se_out sample_sub)) sample_client_end.1.1 sample_client_end.1.2 sample_client_end.2
    sample_names_pair sample_sub_in eq_refl sample_view0 eq_refl) as [_ H].
  - pose proof sample_client_run as Hr. destruct sample_client_end as [[? ?] ?]. exact Hr.
  - exists []. done.
  - done.
  - exact sample_not_error.
  - specialize (H eq_refl sample_not_stopped eq_refl). rewrite sample_prefix in H. split.
    + apply H; [by apply wf_small|]. rewrite sample_sources. done.
    + intros [Hp _]%H; [done|by apply wf_small].
Defined.
