(* ===== verification/Subs.v ===== *)
(** * Subs: the relay's subscription objects

    [pkg/relay/internal/registry/subscription.go]: the state common to both
    directions ([Subscription]), the upstream side ([UpstreamSub]) and the
    downstream side ([DownstreamSub]) with its accounting of open streams and
    datagrams, its per-object forwarding decision and its termination.

    A [DownstreamSub] is shared by many goroutines.  Its fields are guarded by
    [mu], its request stream and [okSent] by [writeMu], and the answer to a
    terminated request is written by a goroutine of its own.  [sub_step] below runs one
    critical section at a time, in any order the two locks allow, so a run of steps
    is any interleaving of the callers. *)

From stdpp Require Import gmap.
From S2P Require Import Prelude Codes Varint Wire KV Filter Params Properties RangeFilter Messages Tokens Session.

(** ** The state common to both directions *)

Inductive SubState : Type := SubTerminated | SubEstablished.
#[global] Instance SubState_eq_dec : EqDecision SubState.
Proof. solve_decision. Defined.

(** [Session] and [Stream] are references set at construction; whether the
    stream is present is kept where the code tests it ([d_hasStream]). *)
Record Subscription : Type := MkSubscription {
  s_state : SubState; s_ID : Z; s_RequestID : Z; s_TrackAlias : Z; forwardState : Z }.

Definition set_state (v : SubState) (s : Subscription) : Subscription :=
  MkSubscription v (s_ID s) (s_RequestID s) (s_TrackAlias s) (forwardState s).

Definition Terminate (s : Subscription) : bool * Subscription :=
  if bool_decide (s_state s = SubTerminated) then (false, s) else (true, set_state SubTerminated s).

Definition IsEstablished (s : Subscription) : bool := bool_decide (s_state s = SubEstablished).
Definition IsTerminated (s : Subscription) : bool := bool_decide (s_state s = SubTerminated).

Definition SetForwardState (v : Z) (s : Subscription) : Subscription :=
  MkSubscription (s_state s) (s_ID s) (s_RequestID s) (s_TrackAlias s) v.

(** ** The upstream side

    The request broker of an upstream is modelled with the session; [u_done] is the
    PUBLISH_DONE the upstream ended with. *)

Record UpstreamSub : Type := MkUp {
  u_sub : Subscription; u_Filter : option LocationFilter; FetchCapable : bool; OnDemand : bool;
  u_done : option PublishDone }.

Definition NewUpstreamSub (id trackAlias requestID : Z) : UpstreamSub :=
  MkUp (MkSubscription SubEstablished id requestID trackAlias 1) None false false None.
Definition SetPublishDone (pd : PublishDone) (u : UpstreamSub) : UpstreamSub :=
  MkUp (u_sub u) (u_Filter u) (FetchCapable u) (OnDemand u) (Some pd).
Definition u_SetFilter (f : option LocationFilter) (u : UpstreamSub) : UpstreamSub :=
  MkUp (u_sub u) f (FetchCapable u) (OnDemand u) (u_done u).

Definition DownstreamDoneCode (upstream : option PublishDone) : Z :=
  match upstream with
  | None => PublishDoneTrackEnded
  | Some pd =>
      if (pd_StatusCode pd =? PublishDoneTrackEnded) || (pd_StatusCode pd =? PublishDoneMalformedTrack)
      then pd_StatusCode pd
      else PublishDoneInternalError
  end.

(** ** The downstream side *)

Record pendingPublishDone : Type := MkPending { pp_code : Z; pp_reason : bytes }.

Record DownstreamSub : Type := MkDown {
  d_sub : Subscription;
  d_hasStream : bool;
  okSent : bool;
  d_Filter : option LocationFilter;
  rangeFilters : option RangeFilterSet;
  deliveryTimeouts : DeliveryTimeouts;
  LargestAtSubscribe : Location;
  HasLargestAtSubscribe : bool;
  d_Priority : Z;
  d_GroupOrder : Z;
  omitProperties : bool;
  streamsOpened : Z;
  streamsOpening : Z;
  streamsOpen : Z;
  datagramsSending : Z;
  pendingDone : option pendingPublishDone;
  d_cancelled : bool
}.

Definition set_sub (v : Subscription) (d : DownstreamSub) : DownstreamSub :=
  MkDown v (d_hasStream d) (okSent d) (d_Filter d) (rangeFilters d) (deliveryTimeouts d)
    (LargestAtSubscribe d) (HasLargestAtSubscribe d) (d_Priority d) (d_GroupOrder d)
    (omitProperties d) (streamsOpened d) (streamsOpening d) (streamsOpen d) (datagramsSending d)
    (pendingDone d) (d_cancelled d).
Definition set_okSent (v : bool) (d : DownstreamSub) : DownstreamSub :=
  MkDown (d_sub d) (d_hasStream d) v (d_Filter d) (rangeFilters d) (deliveryTimeouts d)
    (LargestAtSubscribe d) (HasLargestAtSubscribe d) (d_Priority d) (d_GroupOrder d)
    (omitProperties d) (streamsOpened d) (streamsOpening d) (streamsOpen d) (datagramsSending d)
    (pendingDone d) (d_cancelled d).
Definition SetFilter (v : option LocationFilter) (d : DownstreamSub) : DownstreamSub :=
  MkDown (d_sub d) (d_hasStream d) (okSent d) v (rangeFilters d) (deliveryTimeouts d)
    (LargestAtSubscribe d) (HasLargestAtSubscribe d) (d_Priority d) (d_GroupOrder d)
    (omitProperties d) (streamsOpened d) (streamsOpening d) (streamsOpen d) (datagramsSending d)
    (pendingDone d) (d_cancelled d).
Definition SetRangeFilters (v : option RangeFilterSet) (d : DownstreamSub) : DownstreamSub :=
  MkDown (d_sub d) (d_hasStream d) (okSent d) (d_Filter d) v (deliveryTimeouts d)
    (LargestAtSubscribe d) (HasLargestAtSubscribe d) (d_Priority d) (d_GroupOrder d)
    (omitProperties d) (streamsOpened d) (streamsOpening d) (streamsOpen d) (datagramsSending d)
    (pendingDone d) (d_cancelled d).
Definition SetDeliveryTimeouts (v : DeliveryTimeouts) (d : DownstreamSub) : DownstreamSub :=
  MkDown (d_sub d) (d_hasStream d) (okSent d) (d_Filter d) (rangeFilters d) v
    (LargestAtSubscribe d) (HasLargestAtSubscribe d) (d_Priority d) (d_GroupOrder d)
    (omitProperties d) (streamsOpened d) (streamsOpening d) (streamsOpen d) (datagramsSending d)
    (pendingDone d) (d_cancelled d).
Definition set_LargestAtSubscribe (v : Location) (d : DownstreamSub) : DownstreamSub :=
  MkDown (d_sub d) (d_hasStream d) (okSent d) (d_Filter d) (rangeFilters d) (deliveryTimeouts d)
    v (HasLargestAtSubscribe d) (d_Priority d) (d_GroupOrder d) (omitProperties d)
    (streamsOpened d) (streamsOpening d) (streamsOpen d) (datagramsSending d) (pendingDone d)
    (d_cancelled d).
Definition set_HasLargestAtSubscribe (v : bool) (d : DownstreamSub) : DownstreamSub :=
  MkDown (d_sub d) (d_hasStream d) (okSent d) (d_Filter d) (rangeFilters d) (deliveryTimeouts d)
    (LargestAtSubscribe d) v (d_Priority d) (d_GroupOrder d) (omitProperties d) (streamsOpened d) (streamsOpening d) (streamsOpen d) (datagramsSending d) (pendingDone d) (d_cancelled d).
Definition SetPriority (v : Z) (d : DownstreamSub) : DownstreamSub :=
  MkDown (d_sub d) (d_hasStream d) (okSent d) (d_Filter d) (rangeFilters d) (deliveryTimeouts d)
    (LargestAtSubscribe d) (HasLargestAtSubscribe d) v (d_GroupOrder d) (omitProperties d)
    (streamsOpened d) (streamsOpening d) (streamsOpen d) (datagramsSending d) (pendingDone d)
    (d_cancelled d).
Definition SetGroupOrder (v : Z) (d : DownstreamSub) : DownstreamSub :=
  MkDown (d_sub d) (d_hasStream d) (okSent d) (d_Filter d) (rangeFilters d) (deliveryTimeouts d)
    (LargestAtSubscribe d) (HasLargestAtSubscribe d) (d_Priority d) v (omitProperties d)
    (streamsOpened d) (streamsOpening d) (streamsOpen d) (datagramsSending d) (pendingDone d)
    (d_cancelled d).
Definition set_omitProperties (v : bool) (d : DownstreamSub) : DownstreamSub :=
  MkDown (d_sub d) (d_hasStream d) (okSent d) (d_Filter d) (rangeFilters d) (deliveryTimeouts d)
    (LargestAtSubscribe d) (HasLargestAtSubscribe d) (d_Priority d) (d_GroupOrder d) v
    (streamsOpened d) (streamsOpening d) (streamsOpen d) (datagramsSending d) (pendingDone d)
    (d_cancelled d).
Definition set_streamsOpened (v : Z) (d : DownstreamSub) : DownstreamSub :=
  MkDown (d_sub d) (d_hasStream d) (okSent d) (d_Filter d) (rangeFilters d) (deliveryTimeouts d)
    (LargestAtSubscribe d) (HasLargestAtSubscribe d) (d_Priority d) (d_GroupOrder d)
    (omitProperties d) v (streamsOpening d) (streamsOpen d) (datagramsSending d) (pendingDone d)
    (d_cancelled d).
Definition set_streamsOpening (v : Z) (d : DownstreamSub) : DownstreamSub :=
  MkDown (d_sub d) (d_hasStream d) (okSent d) (d_Filter d) (rangeFilters d) (deliveryTimeouts d)
    (LargestAtSubscribe d) (HasLargestAtSubscribe d) (d_Priority d) (d_GroupOrder d)
    (omitProperties d) (streamsOpened d) v (streamsOpen d) (datagramsSending d) (pendingDone d)
    (d_cancelled d).
Definition set_streamsOpen (v : Z) (d : DownstreamSub) : DownstreamSub :=
  MkDown (d_sub d) (d_hasStream d) (okSent d) (d_Filter d) (rangeFilters d) (deliveryTimeouts d)
    (LargestAtSubscribe d) (HasLargestAtSubscribe d) (d_Priority d) (d_GroupOrder d)
    (omitProperties d) (streamsOpened d) (streamsOpening d) v (datagramsSending d) (pendingDone d) (d_cancelled d).
Definition set_datagramsSending (v : Z) (d : DownstreamSub) : DownstreamSub :=
  MkDown (d_sub d) (d_hasStream d) (okSent d) (d_Filter d) (rangeFilters d) (deliveryTimeouts d)
    (LargestAtSubscribe d) (HasLargestAtSubscribe d) (d_Priority d) (d_GroupOrder d)
    (omitProperties d) (streamsOpened d) (streamsOpening d) (streamsOpen d) v (pendingDone d)
    (d_cancelled d).
Definition set_pendingDone (v : option pendingPublishDone) (d : DownstreamSub) : DownstreamSub :=
  MkDown (d_sub d) (d_hasStream d) (okSent d) (d_Filter d) (rangeFilters d) (deliveryTimeouts d)
    (LargestAtSubscribe d) (HasLargestAtSubscribe d) (d_Priority d) (d_GroupOrder d)
    (omitProperties d) (streamsOpened d) (streamsOpening d) (streamsOpen d) (datagramsSending d)
    v (d_cancelled d).
Definition set_cancelled (v : bool) (d : DownstreamSub) : DownstreamSub :=
  MkDown (d_sub d) (d_hasStream d) (okSent d) (d_Filter d) (rangeFilters d) (deliveryTimeouts d)
    (LargestAtSubscribe d) (HasLargestAtSubscribe d) (d_Priority d) (d_GroupOrder d)
    (omitProperties d) (streamsOpened d) (streamsOpening d) (streamsOpen d) (datagramsSending d)
    (pendingDone d) v.

Definition d_state (d : DownstreamSub) : SubState := s_state (d_sub d).
Definition terminated (d : DownstreamSub) : DownstreamSub := set_sub (set_state SubTerminated (d_sub d)) d.

Definition NewDownstreamSub (id trackAlias : Z) (hasStream : bool) : DownstreamSub :=
  MkDown (MkSubscription SubEstablished id 0 trackAlias 1) hasStream false None None (MkDT 0 0)
    (MkLoc 0 0) false 128 0 false 0 0 0 0 None false.

(** *** Streams and datagrams in flight

    Every operation that can release the answer of a terminated request returns it
    with the state, for [sendPublishDone] to write. *)

Definition BeginStream (d : DownstreamSub) : bool * DownstreamSub :=
  if bool_decide (d_state d = SubTerminated) then (false, d)
  else (true, set_streamsOpening (streamsOpening d + 1) d).

Definition takeReadyDoneLocked (d : DownstreamSub) : option (pendingPublishDone * Z) * DownstreamSub :=
  match pendingDone d with
  | None => (None, d)
  | Some done =>
      if (0 <? streamsOpen d) || (0 <? streamsOpening d) || (0 <? datagramsSending d) then (None, d)
      else (Some (done, streamsOpened d), set_pendingDone None d)
  end.

Definition EndStream (opened : bool) (d : DownstreamSub) : option (pendingPublishDone * Z) * DownstreamSub :=
  let d := set_streamsOpening (streamsOpening d - 1) d in
  let d := if opened
           then set_streamsOpen (streamsOpen d + 1) (set_streamsOpened (u64 (streamsOpened d + 1)) d)
           else d in
  takeReadyDoneLocked d.

Definition StreamClosed (d : DownstreamSub) : option (pendingPublishDone * Z) * DownstreamSub :=
  takeReadyDoneLocked (set_streamsOpen (streamsOpen d - 1) d).

Definition BeginDatagram (d : DownstreamSub) : bool * DownstreamSub :=
  if bool_decide (d_state d = SubTerminated) then (false, d)
  else (true, set_datagramsSending (datagramsSending d + 1) d).

Definition EndDatagram (d : DownstreamSub) : option (pendingPublishDone * Z) * DownstreamSub :=
  takeReadyDoneLocked (set_datagramsSending (datagramsSending d - 1) d).

Definition d_Cancel (d : DownstreamSub) : DownstreamSub := set_cancelled true (terminated d).

Definition TerminateWithPublishDone (code : Z) (reason : bytes) (d : DownstreamSub)
    : option (pendingPublishDone * Z) * DownstreamSub :=
  if bool_decide (d_state d = SubTerminated) then (None, d)
  else takeReadyDoneLocked (set_pendingDone (Some (MkPending code reason)) (terminated d)).

(** The section of [EndRefused] under [mu]; [true] when the request is still to be
    closed by the section under [writeMu]. *)
Definition EndRefused (d : DownstreamSub) : bool * DownstreamSub :=
  (bool_decide (d_state d <> SubTerminated) || bool_decide (is_Some (pendingDone d)),
   set_pendingDone None (terminated d)).

Definition OpenedByPublish (d : DownstreamSub) : DownstreamSub := set_okSent true d.

Definition SetIncludeProperties (b : bool) (d : DownstreamSub) : DownstreamSub :=
  set_omitProperties (negb b) d.
Definition IncludesProperties (d : DownstreamSub) : bool := negb (omitProperties d).
Definition SetLargestAtSubscribe (loc : Location) (has : bool) (d : DownstreamSub) : DownstreamSub :=
  set_HasLargestAtSubscribe has (set_LargestAtSubscribe loc d).

(** *** Priorities and the forwarding decision *)

Record StreamPriority : Type := MkPrio { sp_Subscriber : Z; sp_Publisher : Z; sp_GroupKey : Z; sp_Subgroup : Z }.

Definition EffectiveStreamPriority (publisherPriority groupID subgroupID : Z) (d : DownstreamSub)
    : StreamPriority :=
  MkPrio (d_Priority d) publisherPriority
    (if d_GroupOrder d =? GroupOrderDescending then Z.lxor groupID MaxUint64 else groupID) subgroupID.

(** [1 + int8(uint16(p.Subscriber)*6/255)]. *)
Definition Urgency (p : StreamPriority) : Z := 1 + (sp_Subscriber p * 6) / 255.

Inductive ForwardVerdict : Type :=
| Forward | SkipBeforeStart | SkipObject | SkipPaused | SkipGroup | SkipEnded.
#[global] Instance ForwardVerdict_eq_dec : EqDecision ForwardVerdict.
Proof. solve_decision. Defined.

Definition GroupOutOfRange (group : Z) (f : option LocationFilter) : bool :=
  match f with
  | None => false
  | Some f =>
      if Unfiltered f || RelativeStart f || NextObject f then false
      else if group <? StartGroup f then true
      else match lf_End f with Some e => Group e <? group | None => false end
  end.

(** The Range Filters, consulted when the Location Filter passes. *)
Definition range_verdict (d : DownstreamSub) (subgroupID object priority : Z) (objProps : bytes)
    : result ForwardVerdict :=
  match rangeFilters d with
  | None => Ok Forward
  | Some rf =>
      (fun m : bool => if m then Forward else SkipObject) <$>
        MatchesObject (Some rf) subgroupID object priority objProps
  end.

Definition ForwardDecision (group object subgroupID priority : Z) (objProps : bytes) (d : DownstreamSub)
    : result ForwardVerdict :=
  if bool_decide (d_state d = SubTerminated) then Ok SkipEnded
  else if forwardState (d_sub d) =? 0 then Ok SkipPaused
  else
    let loc := MkLoc group object in
    let largest := LargestAtSubscribe d in
    let has := HasLargestAtSubscribe d in
    match d_Filter d with
    | Some f =>
        if negb (Matches f loc largest has) then
          if GroupOutOfRange group (Some f) then Ok SkipGroup
          else if Less loc (lf_Start f largest has) then Ok SkipBeforeStart
          else Ok SkipObject
        else range_verdict d subgroupID object priority objProps
    | None => range_verdict d subgroupID object priority objProps
    end.

(** ** The request stream and the goroutines that write to it

    The events are those of [Session]. *)

Definition request_error (done : pendingPublishDone) : Message :=
  MRequestError (MkRequestError RequestDoesNotExist 0 (pp_reason done) None).
Definition publish_done (done : pendingPublishDone) (count : Z) : Message :=
  MPublishDone (MkPublishDone (pp_code done) count (pp_reason done)).

(** The body of [sendPublishDone]'s goroutine, under [writeMu]. *)
Definition answer_request (wok : bool) (done : pendingPublishDone) (count : Z) (d : DownstreamSub)
    : list req_event :=
  if negb (okSent d) then
    match marshal_events wok (request_error done) with
    | Some ev => ev ++ [RqClose; RqDiscard]
    | None => [RqCancelRead StreamResetInternalError; RqCancelWrite StreamResetInternalError]
    end
  else default [] (marshal_events wok (publish_done done count)) ++ [RqClose].

(** What is waiting to run: a spawned answer, the second section of [EndRefused],
    the reset by which the fan-out ends a slow reader's request once [Terminate]
    returned true. *)
Inductive sub_task : Type :=
| TaskDone (done : pendingPublishDone) (count : Z)
| TaskRefused
| TaskReset (code : Z).

(** A caller inside [WriteSubscribeOK] or [WriteMessage], past its check. *)
Inductive writing : Type :=
| WritingOK (m : SubscribeOK)
| WritingMsg (m : Message).

Record SharedSub : Type := MkShared {
  sh_d : DownstreamSub; sh_tasks : list sub_task; sh_writer : option writing; sh_log : list req_event }.

(** The setters, each a critical section of [mu]. *)
Inductive sub_param : Type :=
| PFilter (f : option LocationFilter) | PForward (v : Z) | PPriority (v : Z) | PGroupOrder (v : Z)
| PProperties (b : bool) | PTimeouts (t : DeliveryTimeouts) | PRange (f : option RangeFilterSet)
| PLargest (loc : Location) (has : bool).

Definition set_param (p : sub_param) (d : DownstreamSub) : DownstreamSub :=
  match p with
  | PFilter f => SetFilter f d
  | PForward v => set_sub (SetForwardState v (d_sub d)) d
  | PPriority v => SetPriority v d
  | PGroupOrder v => SetGroupOrder v d
  | PProperties b => SetIncludeProperties b d
  | PTimeouts t => SetDeliveryTimeouts t d
  | PRange f => SetRangeFilters f d
  | PLargest loc has => SetLargestAtSubscribe loc has d
  end.

Inductive sub_op : Type :=
| OSet (p : sub_param)
| OBeginStream | OEndStream (opened : bool) | OStreamClosed
| OBeginDatagram | OEndDatagram
| OTerminateWithPublishDone (code : Z) (reason : bytes)
| OTerminate (code : Z) | OCancel | OEndRefused
| OWrite (w : writing) | OWritten (wok : bool)
| OTask (i : nat) (wok : bool).

(** [sendPublishDone]: a no-op without an answer or a stream. *)
Definition sendPublishDone (r : option (pendingPublishDone * Z) * DownstreamSub) (s : SharedSub) : SharedSub :=
  let '(done, d) := r in
  MkShared d
    (match done with
     | Some (p, count) => if d_hasStream d then sh_tasks s ++ [TaskDone p count] else sh_tasks s
     | None => sh_tasks s
     end) (sh_writer s) (sh_log s).

(** A write on a stream whose send side was closed or reset fails. *)
Definition closes_send (e : req_event) : bool :=
  match e with RqClose | RqCancelWrite _ => true | _ => false end.
Definition send_closed (log : list req_event) : bool := existsb closes_send log.

Definition on_d (f : DownstreamSub -> DownstreamSub) (s : SharedSub) : SharedSub :=
  MkShared (f (sh_d s)) (sh_tasks s) (sh_writer s) (sh_log s).

Definition written_msg (w : writing) : Message :=
  match w with WritingOK m => MSubscribeOK m | WritingMsg m => m end.

(** [WriteSubscribeOK] and [WriteMessage] up to their check: with the lock free,
    [ErrSubscriptionTerminated] or on to the write. *)
Definition begin_write (w : writing) (s : SharedSub) : result unit * SharedSub :=
  if IsTerminated (d_sub (sh_d s)) then (Err ErrSubscriptionTerminated, s)
  else (Ok tt, MkShared (sh_d s) (sh_tasks s) (Some w) (sh_log s)).

(** ... and from the write on, which gives the lock back. *)
Definition end_write (wok : bool) (w : writing) (s : SharedSub) : result unit * SharedSub :=
  match marshal_events (wok && negb (send_closed (sh_log s))) (written_msg w) with
  | None => (Err (ErrTransport "write"), MkShared (sh_d s) (sh_tasks s) None (sh_log s))
  | Some ev =>
      (Ok tt, MkShared (match w with WritingOK _ => set_okSent true (sh_d s) | WritingMsg _ => sh_d s end)
                (sh_tasks s) None (sh_log s ++ ev))
  end.

Definition run_task (wok : bool) (t : sub_task) (s : SharedSub) : list req_event :=
  match t with
  | TaskDone p count => answer_request wok p count (sh_d s)
  | TaskRefused => [RqClose; RqCancelRead StreamResetCancelled]
  | TaskReset code => [RqCancelRead code; RqCancelWrite code]
  end.

(** Tasks under [writeMu] wait for a writer to finish; a reset does not take it. *)
Definition task_ready (t : sub_task) (s : SharedSub) : bool :=
  match t with TaskReset _ => true | _ => bool_decide (sh_writer s = None) end.

(** One critical section.  [None]: the section cannot run now, because a lock is
    held, or because a caller ends what it did not begin. *)
Definition sub_step (o : sub_op) (s : SharedSub) : option SharedSub :=
  let d := sh_d s in
  match o with
  | OSet p => Some (on_d (set_param p) s)
  | OBeginStream => Some (on_d (fun d => (BeginStream d).2) s)
  | OEndStream opened => if 0 <? streamsOpening d then Some (sendPublishDone (EndStream opened d) s) else None
  | OStreamClosed => if 0 <? streamsOpen d then Some (sendPublishDone (StreamClosed d) s) else None
  | OBeginDatagram => Some (on_d (fun d => (BeginDatagram d).2) s)
  | OEndDatagram => if 0 <? datagramsSending d then Some (sendPublishDone (EndDatagram d) s) else None
  | OTerminateWithPublishDone code reason => Some (sendPublishDone (TerminateWithPublishDone code reason d) s)
  | OTerminate code =>
      let '(first, sub) := Terminate (d_sub d) in
      Some (MkShared (set_sub sub d)
              (if first && d_hasStream d then sh_tasks s ++ [TaskReset code] else sh_tasks s)
              (sh_writer s) (sh_log s))
  | OCancel => Some (on_d d_Cancel s)
  | OEndRefused =>
      let '(ended, d') := EndRefused d in
      Some (MkShared d' (if ended then sh_tasks s ++ [TaskRefused] else sh_tasks s) (sh_writer s) (sh_log s))
  | OWrite w => match sh_writer s with Some _ => None | None => Some (begin_write w s).2 end
  | OWritten wok => match sh_writer s with Some w => Some (end_write wok w s).2 | None => None end
  | OTask i wok =>
      match sh_tasks s !! i with
      | Some t =>
          if task_ready t s
          then Some (MkShared d (delete i (sh_tasks s)) (sh_writer s) (sh_log s ++ run_task wok t s))
          else None
      | None => None
      end
  end.

Fixpoint sub_run (ops : list sub_op) (s : SharedSub) : option SharedSub :=
  match ops with [] => Some s | o :: ops' => sub_step o s ≫= sub_run ops' end.

(** ** Termination: what the invariant of every interleaving says *)

Definition sub_init (published : bool) (id alias : Z) : SharedSub :=
  let d := NewDownstreamSub id alias true in
  MkShared (if published then OpenedByPublish d else d) [] None [].

(** The first of the four terminations takes effect, later ones do nothing. *)
Definition terminates (o : sub_op) : bool :=
  match o with OTerminateWithPublishDone _ _ | OTerminate _ | OCancel | OEndRefused => true | _ => false end.
Definition ended_by (ops : list sub_op) : option sub_op := List.find terminates ops.
Definition refuses (o : sub_op) : bool := match o with OEndRefused => true | _ => false end.

(** The answer's own write failed. *)
Definition fails (o : sub_op) : bool := match o with OTask _ wok => negb wok | _ => false end.

(** What a run has done so far: its first termination, whether the subscriber refused
    the request, and whether the write of an answer failed. *)
Abbreviation history := (option sub_op * bool * bool)%type.
Definition ended_next (h : history) (o : sub_op) : history :=
  (match h.1.1 with Some w => Some w | None => if terminates o then Some o else None end, h.1.2 || refuses o, h.2 || fails o).
Definition history_of (ops : list sub_op) : history := (ended_by ops, existsb refuses ops, existsb fails ops).

Definition opens (o : sub_op) : bool := match o with OEndStream b => b | _ => false end.
Definition opened (ops : list sub_op) : Z := len (List.filter opens ops).

Definition idle (d : DownstreamSub) : Prop :=
  streamsOpen d = 0 /\ streamsOpening d = 0 /\ datagramsSending d = 0.

Definition is_msg (e : req_event) : Prop := exists m, e = RqMsg m.

(** The answer [m] cannot be written: it does not encode, or the transport refused it. *)
Definition unwritable (failed : bool) (m : Message) : Prop := failed = true \/ exists e, Marshal [] m = Err e.

(** How a request ends: the events that close its stream, given what terminated it. *)
Inductive answer (h : history) (d : DownstreamSub) : list req_event -> Prop :=
| ans_done p : h.1.1 = Some (OTerminateWithPublishDone (pp_code p) (pp_reason p)) -> okSent d = true -> idle d ->
    answer h d [RqMsg (publish_done p (streamsOpened d)); RqClose]
| ans_done_lost p : h.1.1 = Some (OTerminateWithPublishDone (pp_code p) (pp_reason p)) -> okSent d = true ->
    idle d -> unwritable h.2 (publish_done p (streamsOpened d)) -> answer h d [RqClose]
| ans_error p : h.1.1 = Some (OTerminateWithPublishDone (pp_code p) (pp_reason p)) -> okSent d = false ->
    idle d -> answer h d [RqMsg (request_error p); RqClose; RqDiscard]
| ans_error_lost p : h.1.1 = Some (OTerminateWithPublishDone (pp_code p) (pp_reason p)) -> okSent d = false ->
    idle d -> unwritable h.2 (request_error p) ->
    answer h d [RqCancelRead StreamResetInternalError; RqCancelWrite StreamResetInternalError]
| ans_refused : h.1.2 = true -> answer h d [RqClose; RqCancelRead StreamResetCancelled]
| ans_reset code : h.1.1 = Some (OTerminate code) -> answer h d [RqCancelRead code; RqCancelWrite code].

Definition task_ok (h : history) (d : DownstreamSub) (t : sub_task) : Prop :=
  match t with
  | TaskDone p count =>
      h.1.1 = Some (OTerminateWithPublishDone (pp_code p) (pp_reason p)) /\ count = streamsOpened d /\ idle d
  | TaskRefused => h.1.2 = true
  | TaskReset code => h.1.1 = Some (OTerminate code)
  end.

(** The phases of a request: live; terminated with its PUBLISH_DONE waiting for the
    streams; its last write waiting to run; cancelled by the peer; closed. *)
Inductive phase (h : history) (s : SharedSub) : Prop :=
| ph_live : h = (None, false, false) -> d_state (sh_d s) = SubEstablished -> pendingDone (sh_d s) = None ->
    sh_tasks s = [] -> Forall is_msg (sh_log s) -> phase h s
| ph_pending p : h.1.1 = Some (OTerminateWithPublishDone (pp_code p) (pp_reason p)) ->
    d_state (sh_d s) = SubTerminated -> pendingDone (sh_d s) = Some p -> ~ idle (sh_d s) ->
    sh_tasks s = [] -> Forall is_msg (sh_log s) -> phase h s
| ph_task t : is_Some h.1.1 -> d_state (sh_d s) = SubTerminated -> pendingDone (sh_d s) = None ->
    sh_tasks s = [t] -> task_ok h (sh_d s) t -> Forall is_msg (sh_log s) -> phase h s
| ph_cancelled : h.1.1 = Some OCancel -> d_state (sh_d s) = SubTerminated -> pendingDone (sh_d s) = None ->
    sh_tasks s = [] -> Forall is_msg (sh_log s) -> phase h s
| ph_closed msgs tail : is_Some h.1.1 -> d_state (sh_d s) = SubTerminated -> pendingDone (sh_d s) = None ->
    sh_tasks s = [] -> sh_log s = msgs ++ tail -> Forall is_msg msgs -> answer h (sh_d s) tail -> phase h s.

Record accounts (n : Z) (d : DownstreamSub) : Prop := {
  acc_stream : d_hasStream d = true;
  acc_open : 0 <= streamsOpen d;
  acc_opening : 0 <= streamsOpening d;
  acc_datagrams : 0 <= datagramsSending d;
  acc_opened : streamsOpened d = u64 n }.

Lemma init_accounts published id alias : accounts 0 (sh_d (sub_init published id alias)).
Proof. by destruct published. Qed.

Lemma init_phase published id alias : phase (None, false, false) (sub_init published id alias).
Proof. by apply ph_live; destruct published. Qed.

Lemma u64_succ n : u64 (u64 n + 1) = u64 (n + 1).
Proof. unfold u64. by rewrite Zplus_mod_idemp_l. Qed.

(** Run the definitions of one critical section. *)
Ltac sub_unfold :=
  unfold sub_step, on_d, BeginStream, BeginDatagram, EndStream, StreamClosed, EndDatagram,
    TerminateWithPublishDone, takeReadyDoneLocked, EndRefused, Terminate, d_Cancel, sendPublishDone, terminated,
    begin_write, end_write, d_state, IsTerminated in *.

Lemma step_accounts o s s' n : accounts n (sh_d s) -> sub_step o s = Some s' ->
  accounts (n + if opens o then 1 else 0) (sh_d s').
Proof.
  destruct s as [d tasks wr log]. intros [H1 H2 H3 H4 H5]. destruct d; simpl in *. subst.
  destruct o as [[]| | | | | | | | | | | |]; sub_unfold; simpl; intros Hs; repeat (case_match; simplify_eq/=); simplify_eq/=;
    rewrite ?Z.add_0_r; (split; simpl; try done; try lia); rewrite ?u64_succ; done.
Qed.

Lemma msg_snoc log ev wok m : Forall is_msg log -> marshal_events wok m = Some ev -> Forall is_msg (log ++ ev).
Proof.
  unfold marshal_events. intros Hl Hm. repeat case_match; simplify_eq.
  apply Forall_app. split; [done|]. constructor; [by eexists|constructor].
Qed.

(** A finished writer adds a message to an open stream and nothing to a closed one. *)
Lemma phase_write w s wok x : phase w s -> phase w (end_write wok x s).2.
Proof.
  assert (Hd : forall ev, let d := match x with WritingOK _ => set_okSent true (sh_d s) | WritingMsg _ => sh_d s end in
    marshal_events (wok && negb (send_closed (sh_log s))) (written_msg x) = Some ev ->
    d_state d = d_state (sh_d s) /\ pendingDone d = pendingDone (sh_d s) /\ (idle d <-> idle (sh_d s)) /\
    (forall t, task_ok w (sh_d s) t -> task_ok w d t)).
  { intros ev d _. destruct x; subst d; done. }
  unfold end_write. destruct (marshal_events _ _) as [ev|] eqn:Hm; simpl.
  2: { intros []; [eapply ph_live|eapply ph_pending|eapply ph_task|eapply ph_cancelled|eapply ph_closed]; eauto. }
  destruct (Hd ev eq_refl) as (E1 & E2 & E3 & E4).
  intros [| | | |msgs tail Hw Hs Hp Ht Hlog Hmsgs Ha].
  - apply ph_live; simpl; try congruence. by eapply msg_snoc.
  - eapply ph_pending; simpl; [done|congruence|congruence| |done|by eapply msg_snoc]. by rewrite E3.
  - eapply ph_task; simpl; try congruence; eauto. by eapply msg_snoc.
  - eapply ph_cancelled; simpl; try congruence. by eapply msg_snoc.
  - exfalso. assert (send_closed (sh_log s) = true) as Hc.
    { unfold send_closed. rewrite Hlog, existsb_app.
      apply orb_true_iff. right. by destruct Ha. }
    rewrite Hc, andb_false_r in Hm. unfold marshal_events in Hm. by destruct (Marshal _ _).
Qed.

(** Ending a stream or datagram can only release the answer that is waiting. *)
Lemma phase_release w s d0 : phase w (MkShared d0 (sh_tasks s) (sh_writer s) (sh_log s)) \/
    (exists p, pendingDone d0 = Some p /\ w.1.1 = Some (OTerminateWithPublishDone (pp_code p) (pp_reason p)) /\
       d_state d0 = SubTerminated /\ sh_tasks s = [] /\ Forall is_msg (sh_log s)) ->
  d_hasStream d0 = true -> 0 <= streamsOpen d0 -> 0 <= streamsOpening d0 -> 0 <= datagramsSending d0 ->
  phase w (sendPublishDone (takeReadyDoneLocked d0) s).
Proof.
  intros Hc Hst H1 H2 H3. unfold takeReadyDoneLocked. destruct (pendingDone d0) as [p|] eqn:Ep.
  2: { destruct Hc as [Hc|(p & ? & _)]; [|congruence]. done. }
  assert (Hp : w.1.1 = Some (OTerminateWithPublishDone (pp_code p) (pp_reason p)) /\
       d_state d0 = SubTerminated /\ sh_tasks s = [] /\ Forall is_msg (sh_log s)).
  { destruct Hc as [Hc|(p' & ? & ?)]; [|by simplify_eq]. by destruct Hc; simplify_eq/=. }
  destruct Hp as (Hw & Hs & Ht & Hl). case_match eqn:E; simpl.
  - eapply ph_pending; simpl; eauto. unfold idle. lia.
  - rewrite Hst, Ht. simpl. eapply ph_task; simpl; eauto.
    split_and!; [done|done|]. unfold idle; simpl. lia.
Qed.

(** Counters that only move keep a phase, except that the last one to reach zero
    makes a waiting answer ready. *)
Lemma phase_counters w s d0 : phase w s -> d_state d0 = d_state (sh_d s) ->
  pendingDone d0 = pendingDone (sh_d s) -> okSent d0 = okSent (sh_d s) ->
  (idle (sh_d s) -> False) ->
  phase w (MkShared d0 (sh_tasks s) (sh_writer s) (sh_log s)) \/
    (exists p, pendingDone d0 = Some p /\ w.1.1 = Some (OTerminateWithPublishDone (pp_code p) (pp_reason p)) /\
       d_state d0 = SubTerminated /\ sh_tasks s = [] /\ Forall is_msg (sh_log s)).
Proof.
  intros [| p | t | | msgs tail] E1 E2 E3 Hi.
  - left. apply ph_live; simpl; congruence.
  - right. exists p. split_and!; congruence.
  - left. eapply ph_task; simpl; try congruence; eauto. by destruct t as [q c| |]; [destruct H3 as (_ & _ & ?)|..].
  - left. apply ph_cancelled; simpl; congruence.
  - left. eapply ph_closed; simpl; try congruence; eauto.
    by destruct H5; try done; [eapply ans_refused|eapply ans_reset].
Qed.

Lemma answer_stable h d d' tail : answer h d tail -> okSent d' = okSent d -> streamsOpened d' = streamsOpened d ->
  (idle d -> idle d') -> answer h d' tail.
Proof.
  intros [p ? ? ?|p|p|p| |code] E1 E2 Hi; [rewrite <- E2; apply ans_done|eapply ans_done_lost|eapply ans_error|
    eapply ans_error_lost|eapply ans_refused|eapply ans_reset]; eauto; congruence.
Qed.

Lemma ended_next_id w o : terminates o = false -> fails o = false -> ended_next w o = w.
Proof. intros Ht Hf. unfold ended_next. rewrite Ht, Hf, !orb_false_r. destruct w as [[[] b] f]; destruct o; try done; by rewrite orb_false_r. Qed.

(** A termination of a terminated subscription changes no phase. *)
Lemma ended_next_Some w o s : phase w s -> d_state (sh_d s) = SubTerminated ->
  ended_next w o = (w.1.1, w.1.2 || refuses o, w.2 || fails o).
Proof.
  unfold ended_next. intros Hp Hs. do 2 f_equal. destruct w as [[[]]]; simpl; [done|].
  destruct Hp; simpl in *; try congruence; match goal with H : is_Some None |- _ => by destruct H end.
Qed.

Lemma ended_next_keep w o s : phase w s -> d_state (sh_d s) = SubTerminated -> refuses o = false -> fails o = false ->
  ended_next w o = w.
Proof. intros Hp Hs Ho Hf. rewrite (ended_next_Some _ _ _ Hp Hs), Ho, Hf, !orb_false_r. by destruct w as [[]]. Qed.

(** A later refusal only widens what the history allows. *)
Lemma answer_mono h h' d tail : answer h d tail -> h'.1.1 = h.1.1 -> (h.1.2 = true -> h'.1.2 = true) -> h'.2 = h.2 -> answer h' d tail.
Proof.
  intros [] E1 E2 E3; [eapply ans_done|eapply ans_done_lost|eapply ans_error|eapply ans_error_lost|
    eapply ans_refused|eapply ans_reset]; rewrite ?E1, ?E3; eauto.
Qed.

Lemma phase_live_inv w s : phase w s -> d_state (sh_d s) = SubEstablished ->
  w = (None, false, false) /\ pendingDone (sh_d s) = None /\ sh_tasks s = [] /\ Forall is_msg (sh_log s).
Proof. intros []; try congruence. done. Qed.

Lemma phase_begin w s d0 : phase w s -> d_state (sh_d s) = SubEstablished ->
  d_state d0 = SubEstablished -> pendingDone d0 = None -> phase w (on_d (fun _ => d0) s).
Proof. intros Hp Hs ? ?. destruct (phase_live_inv _ _ Hp Hs) as (-> & _ & ? & ?). by apply ph_live. Qed.

(** The setters leave alone what the request's end depends on. *)
Lemma phase_set w s p : phase w s -> phase w (on_d (set_param p) s).
Proof.
  destruct s as [d tasks wr log]. intros Hp.
  assert (E : d_state (set_param p d) = d_state d /\ pendingDone (set_param p d) = pendingDone d /\
    okSent (set_param p d) = okSent d /\ streamsOpened (set_param p d) = streamsOpened d /\
    (idle d <-> idle (set_param p d))) by (by destruct p, d).
  destruct E as (E1 & E2 & E3 & E4 & E5). unfold on_d. simpl in *.
  destruct Hp as [|q|t ? ? ? ? Ht|?|msgs tail ? ? ? ? ? ? Ha];
    [eapply ph_live|eapply ph_pending|eapply ph_task|eapply ph_cancelled|eapply ph_closed]; simpl in *;
    rewrite ?E1, ?E2; eauto.
  - by rewrite <- E5.
  - destruct t; simpl in *; [|done..]. by rewrite E4, <- E5.
  - eapply answer_stable; eauto. apply E5.
Qed.

Lemma phase_end_count w s d0 : phase w s -> d_state d0 = d_state (sh_d s) ->
  pendingDone d0 = pendingDone (sh_d s) -> okSent d0 = okSent (sh_d s) -> d_hasStream d0 = true ->
  0 <= streamsOpen d0 -> 0 <= streamsOpening d0 -> 0 <= datagramsSending d0 -> ~ idle (sh_d s) ->
  phase w (sendPublishDone (takeReadyDoneLocked d0) s).
Proof. intros. apply phase_release; [by apply phase_counters|done..]. Qed.

Lemma phase_terminate w s d0 t : phase w s -> d_state (sh_d s) = SubEstablished ->
  d_state d0 = SubTerminated -> pendingDone d0 = None -> forall o, terminates o = true ->
  task_ok (Some o, refuses o, false) d0 t ->
  phase (ended_next w o) (MkShared d0 (sh_tasks s ++ [t]) (sh_writer s) (sh_log s)).
Proof.
  intros Hp Hs ? ? o Ho Ht. destruct (phase_live_inv _ _ Hp Hs) as (-> & _ & E & ?).
  unfold ended_next; simpl. rewrite Ho, E. by eapply ph_task.
Qed.

Lemma phase_task w s i wok t : phase w s -> sh_tasks s !! i = Some t -> task_ready t s = true ->
  phase (ended_next w (OTask i wok)) (MkShared (sh_d s) (delete i (sh_tasks s)) (sh_writer s) (sh_log s ++ run_task wok t s)).
Proof.
  intros Hp Hi _. assert (Hs : sh_tasks s <> [] -> d_state (sh_d s) = SubTerminated) by (by destruct Hp).
  assert (E0 : sh_tasks s <> []) by (intros E; by rewrite E in Hi).
  rewrite (ended_next_Some _ _ _ Hp (Hs E0)), orb_false_r. clear Hs E0. simpl (fails _). destruct Hp as [? ? ? E| ? ? ? ? ? E|t' Hw ? ? E Ht Hl|? ? ? E|? ? ? ? ? E];
    rewrite E in Hi |- *; try done.
  destruct i as [|[]]; simplify_eq/=. eapply ph_closed; simpl; try done.
  destruct t as [p c| |code]; simpl in *.
  - destruct Ht as (Hh & -> & Hidle). unfold answer_request. destruct (okSent (sh_d s)) eqn:Eo; simpl.
    + unfold marshal_events. destruct (Marshal _ _) eqn:Em, wok; simpl; try (by eapply ans_done); eapply ans_done_lost; try done; simpl.
      2-3: right; by eexists. left. apply orb_true_r.
    + unfold marshal_events. destruct (Marshal _ _) eqn:Em, wok; simpl; try (by eapply ans_error); eapply ans_error_lost; try done; simpl.
      2-3: right; by eexists. left. apply orb_true_r.
  - by apply ans_refused.
  - by apply ans_reset.
Qed.

Lemma not_terminated st : st <> SubTerminated -> st = SubEstablished.
Proof. by destruct st. Qed.

Lemma phase_TerminateWithPublishDone w s code reason : phase w s -> d_hasStream (sh_d s) = true ->
  0 <= streamsOpen (sh_d s) -> 0 <= streamsOpening (sh_d s) -> 0 <= datagramsSending (sh_d s) ->
  phase (ended_next w (OTerminateWithPublishDone code reason))
    (sendPublishDone (TerminateWithPublishDone code reason (sh_d s)) s).
Proof.
  intros Hp ? ? ? ?. unfold TerminateWithPublishDone. case_bool_decide as E; simpl.
  - rewrite (ended_next_keep _ _ _ Hp E) by done. by destruct s.
  - apply not_terminated in E. destruct (phase_live_inv _ _ Hp E) as (-> & _ & ? & ?).
    apply phase_release; simpl; try done. right. exists (MkPending code reason). done.
Qed.

Lemma phase_Terminate w s code : phase w s -> d_hasStream (sh_d s) = true ->
  phase (ended_next w (OTerminate code)) (MkShared (set_sub (Terminate (d_sub (sh_d s))).2 (sh_d s))
    (if (Terminate (d_sub (sh_d s))).1 && d_hasStream (sh_d s) then sh_tasks s ++ [TaskReset code] else sh_tasks s)
    (sh_writer s) (sh_log s)).
Proof.
  intros Hp Hst. unfold Terminate. case_bool_decide as E; simpl.
  - rewrite (ended_next_keep _ _ _ Hp E) by done. by destruct s as [[] ? ? ?].
  - rewrite Hst. apply not_terminated in E. pose proof (phase_live_inv _ _ Hp E) as (_ & Hpd & _ & _).
    by apply phase_terminate.
Qed.

Lemma phase_Cancel w s : phase w s -> phase (ended_next w OCancel) (on_d d_Cancel s).
Proof.
  intros Hp. destruct (decide (d_state (sh_d s) = SubTerminated)) as [E|E].
  - rewrite (ended_next_keep _ _ _ Hp E) by done.
    destruct Hp as [|p|t|w' s'|msgs tail]; [congruence|eapply ph_pending|eapply ph_task|eapply ph_cancelled|eapply ph_closed];
      simpl; eauto. by eapply answer_stable.
  - apply not_terminated in E. destruct (phase_live_inv _ _ Hp E) as (-> & ? & ? & ?). by apply ph_cancelled.
Qed.

Lemma phase_EndRefused w s : phase w s -> phase (ended_next w OEndRefused)
  (MkShared (EndRefused (sh_d s)).2 (if (EndRefused (sh_d s)).1 then sh_tasks s ++ [TaskRefused] else sh_tasks s)
    (sh_writer s) (sh_log s)).
Proof.
  intros Hp. unfold EndRefused. simpl. destruct (decide (d_state (sh_d s) = SubTerminated)) as [E|E].
  - rewrite (ended_next_Some _ _ _ Hp E). rewrite (bool_decide_false (_ <> _)) by congruence. simpl.
    destruct Hp as [|p ? ? Ep ? Et|t ? ? Ep|? ? Ep|msgs tail ? ? Ep]; [congruence|..].
    + rewrite Ep, Et. simpl. eapply ph_task; simpl; eauto. by rewrite orb_true_r.
    + rewrite bool_decide_false by (rewrite Ep; by intros []). eapply ph_task; simpl; eauto.
      destruct t; simpl in *; [done|by rewrite orb_true_r|done].
    + rewrite bool_decide_false by (rewrite Ep; by intros []). by eapply ph_cancelled.
    + rewrite bool_decide_false by (rewrite Ep; by intros []). eapply ph_closed; simpl; eauto.
      eapply answer_mono; [by eapply answer_stable|done|by intros ->|by rewrite orb_false_r].
  - rewrite bool_decide_true by done. apply not_terminated in E. simpl. by apply phase_terminate.
Qed.

Lemma phase_step w o s s' n : accounts n (sh_d s) -> phase w s -> sub_step o s = Some s' ->
  phase (ended_next w o) s'.
Proof.
  intros Hacc Hp Hs. destruct (step_accounts _ _ _ _ Hacc Hs) as [A1 A2 A3 A4 _].
  destruct Hacc as [B1 B2 B3 B4 _]. destruct o; simpl in Hs; try (rewrite ended_next_id by done).
  - simplify_eq. by apply phase_set.
  - simplify_eq. unfold on_d, BeginStream. case_bool_decide as E; simpl; [by destruct s|].
    apply not_terminated in E. pose proof (phase_live_inv _ _ Hp E) as (_ & Hpd & _ & _).
    by apply (phase_begin w s).
  - case_match eqn:E; simplify_eq/=. unfold EndStream. apply phase_end_count; try done;
      try (by destruct opened0); [..|unfold idle; lia]; destruct opened0; simpl; lia.
  - case_match eqn:E; simplify_eq/=. apply phase_end_count; simpl; try done; [lia|unfold idle; lia].
  - simplify_eq. unfold on_d, BeginDatagram. case_bool_decide as E; simpl; [by destruct s|].
    apply not_terminated in E. pose proof (phase_live_inv _ _ Hp E) as (_ & Hpd & _ & _).
    by apply (phase_begin w s).
  - case_match eqn:E; simplify_eq/=. apply phase_end_count; simpl; try done; [lia|unfold idle; lia].
  - simplify_eq. by apply phase_TerminateWithPublishDone.
  - pose proof (phase_Terminate w s code Hp B1) as H. destruct (Terminate _) as [b sub]. by simplify_eq/=.
  - simplify_eq. by apply phase_Cancel.
  - pose proof (phase_EndRefused w s Hp) as H. by simplify_eq/=.
  - case_match; simplify_eq. unfold begin_write. case_match; simpl; [done|].
    destruct Hp; [eapply ph_live|eapply ph_pending|eapply ph_task|eapply ph_cancelled|eapply ph_closed]; eauto.
  - case_match; simplify_eq. by apply phase_write.
  - repeat case_match; simplify_eq. by apply phase_task.
Qed.

Lemma history_step h o ops :
  (match h.1.1 with Some w => Some w | None => ended_by (o :: ops) end, h.1.2 || existsb refuses (o :: ops), h.2 || existsb fails (o :: ops)) =
  (match (ended_next h o).1.1 with Some w => Some w | None => ended_by ops end,
   (ended_next h o).1.2 || existsb refuses ops, (ended_next h o).2 || existsb fails ops).
Proof.
  unfold ended_next, ended_by; simpl. rewrite !orb_assoc. do 2 f_equal. destruct h as [[[] b] f]; simpl; [done|].
  by destruct (terminates o).
Qed.

Lemma sub_run_inv ops : forall s s' n h, accounts n (sh_d s) -> phase h s -> sub_run ops s = Some s' ->
  accounts (n + opened ops) (sh_d s') /\
  phase (match h.1.1 with Some w => Some w | None => ended_by ops end, h.1.2 || existsb refuses ops, h.2 || existsb fails ops) s'.
Proof.
  induction ops as [|o ops IH]; intros s s' n h Ha Hp Hr.
  - simplify_eq/=. rewrite !orb_false_r, Z.add_0_r. split; [done|]. by destruct h as [[[] ?] ?].
  - simpl in Hr. destruct (sub_step o s) as [s1|] eqn:E; [|done]. rewrite history_step.
    replace (n + opened (o :: ops)) with (n + (if opens o then 1 else 0) + opened ops).
    2: { unfold opened. simpl. destruct (opens o); rewrite ?len_cons; lia. }
    eapply IH; [by eapply step_accounts|by eapply phase_step|done].
Qed.

Lemma sub_run_app ops1 ops2 s : sub_run (ops1 ++ ops2) s = sub_run ops1 s ≫= sub_run ops2.
Proof.
  revert s. induction ops1 as [|o ops1 IH]; intros s; [done|]. simpl.
  destruct (sub_step o s); simpl; [apply IH|done].
Qed.

Lemma msgs_open log : Forall is_msg log -> send_closed log = false.
Proof. induction 1 as [|e l [m ->] _ IH]; [done|]. exact IH. Qed.

Lemma answer_closes h d tail : answer h d tail -> send_closed tail = true.
Proof. by destruct 1. Qed.

Lemma closed_app l k : send_closed (l ++ k) = send_closed l || send_closed k.
Proof. apply existsb_app. Qed.

(** Once closed, the stream sees nothing more. *)
Lemma closed_step h o s s' : phase h s -> send_closed (sh_log s) = true -> sub_step o s = Some s' ->
  sh_log s' = sh_log s.
Proof.
  intros Hp Hc Hs. assert (Ht : sh_tasks s = []).
  { by destruct Hp as [? ? ? ? Hl|? ? ? ? ? ? Hl|? ? ? ? ? ? Hl|? ? ? ? Hl|]; try done;
      apply msgs_open in Hl; congruence. }
  destruct o; simpl in Hs; unfold sendPublishDone in Hs; repeat case_match; simplify_eq/=; try done.
  - unfold begin_write. by case_match.
  - unfold end_write. rewrite Hc, andb_false_r. unfold marshal_events. by destruct (Marshal _ _).
  - rewrite Ht in *. done.
Qed.

Lemma closed_run ops : forall s s' n h, accounts n (sh_d s) -> phase h s -> send_closed (sh_log s) = true ->
  sub_run ops s = Some s' -> sh_log s' = sh_log s.
Proof.
  induction ops as [|o ops IH]; intros s s' n h Ha Hp Hc Hr; simpl in Hr; [by simplify_eq|].
  destruct (sub_step o s) as [s1|] eqn:E; [|done]. pose proof (closed_step _ _ _ _ Hp Hc E) as El.
  rewrite <- El. rewrite <- El in Hc. eapply IH; [by eapply step_accounts|by eapply phase_step|done|done].
Qed.

(** C25: the end of a downstream request, over every interleaving of the
    goroutines that share it.  While nothing has terminated it only messages are
    written; afterwards its stream is either still open or closed by exactly one
    answer to the first termination: a PUBLISH_DONE (REQUEST_ERROR when no response
    had been sent) with that termination's code and reason, written only once no
    stream is open or opening and no datagram is being sent, its Stream Count the
    number of streams opened; nothing follows a closing answer. *)
Theorem publish_done_once published id alias ops ops' s s' :
  sub_run ops (sub_init published id alias) = Some s -> sub_run ops' s = Some s' ->
  streamsOpened (sh_d s) = u64 (opened ops) /\
  (send_closed (sh_log s) = true -> sh_log s' = sh_log s) /\
  match ended_by ops with
  | None => d_state (sh_d s) = SubEstablished /\ Forall is_msg (sh_log s)
  | Some w => d_state (sh_d s) = SubTerminated /\
      exists msgs tail, sh_log s = msgs ++ tail /\ Forall is_msg msgs /\
        (tail = [] \/ answer (history_of ops) (sh_d s) tail)
  end.
Proof.
  intros H1 H2. destruct (sub_run_inv _ _ _ _ _ (init_accounts _ _ _) (init_phase _ _ _) H1) as [Ha Hp].
  split; [apply Ha|]. split; [intros Hc; by eapply closed_run|]. simpl in Hp.
  destruct (ended_by ops) as [w|] eqn:Ew.
  - unfold history_of. rewrite Ew. destruct Hp as [?|p|t|?|msgs tail]; simplify_eq/=; (split; [done|]).
    1-3: exists (sh_log s), []; rewrite app_nil_r; by auto.
    exists msgs, tail. auto.
  - destruct Hp; simplify_eq/=; try done; by match goal with H : is_Some None |- _ => destruct H end.
Qed.

Definition sample_sub_run : list sub_op :=
  [OBeginStream; OWrite (WritingOK (MkSubscribeOK 7 [] [])); OEndStream true; OWritten true; OBeginDatagram;
   OTerminateWithPublishDone PublishDoneTrackEnded []; OBeginStream; OStreamClosed; OTerminate 5; OEndDatagram;
   OTask 0 true].

Lemma publish_done_once_witness :
  exists s, sub_run sample_sub_run (sub_init false 1 7) = Some s /\
    sh_log s = [RqMsg (MSubscribeOK (MkSubscribeOK 7 [] []));
                RqMsg (MPublishDone (MkPublishDone PublishDoneTrackEnded 1 [])); RqClose] /\
    streamsOpened (sh_d s) = u64 (opened sample_sub_run) /\
    (send_closed (sh_log s) = true -> sh_log s = sh_log s) /\
    d_state (sh_d s) = SubTerminated.
Proof.
  eexists. split; [vm_compute; reflexivity|]. split; [vm_compute; reflexivity|].
  pose proof (publish_done_once false 1 7 sample_sub_run []) as H.
  destruct (H _ _ ltac:(vm_compute; reflexivity) ltac:(vm_compute; reflexivity)) as (H1 & H2 & H3).
  split; [exact H1|]. split; [exact H2|]. exact (proj1 H3).
Defined.

(** ** Termination: every answer owed is written

    The steps by which goroutines finish what they began; each takes something off
    [outstanding]. *)
Definition completing (o : sub_op) : bool :=
  match o with OEndStream _ | OStreamClosed | OEndDatagram | OWritten _ | OTask _ _ => true | _ => false end.

Definition outstanding (s : SharedSub) : Z :=
  2 * streamsOpening (sh_d s) + streamsOpen (sh_d s) + datagramsSending (sh_d s) +
  (match pendingDone (sh_d s) with Some _ => 2 | None => 0 end) + len (sh_tasks s) +
  match sh_writer s with Some _ => 1 | None => 0 end.

Lemma release_outstanding d s : let s' := sendPublishDone (takeReadyDoneLocked d) s in
  outstanding s' <= outstanding (MkShared d (sh_tasks s) (sh_writer s) (sh_log s)).
Proof.
  unfold takeReadyDoneLocked, outstanding. destruct (pendingDone d) as [p|] eqn:E; simpl; [|rewrite E; lia].
  case_match; simpl; [rewrite E; lia|]. rewrite E. unfold len. case_match; rewrite ?length_app; simpl; lia.
Qed.

Lemma completing_outstanding o s s' : completing o = true -> sub_step o s = Some s' ->
  outstanding s' < outstanding s.
Proof.
  destruct o; simpl; try done; intros _ Hs.
  - case_match eqn:E; simplify_eq. unfold EndStream. eapply Z.le_lt_trans; [apply release_outstanding|].
    unfold outstanding. destruct opened0; simpl; lia.
  - case_match eqn:E; simplify_eq. eapply Z.le_lt_trans; [apply release_outstanding|]. unfold outstanding; simpl; lia.
  - case_match eqn:E; simplify_eq. eapply Z.le_lt_trans; [apply release_outstanding|]. unfold outstanding; simpl; lia.
  - case_match eqn:E; simplify_eq. unfold end_write, outstanding. rewrite E.
    case_match; simpl; [destruct w; simpl|]; lia.
  - destruct (sh_tasks s !! i) as [t|] eqn:Hi; [|done]. case_match; simplify_eq. unfold outstanding. simpl.
    assert (len (delete i (sh_tasks s)) < len (sh_tasks s)); [|lia].
    unfold len. rewrite length_delete by (by eexists). apply lookup_lt_Some in Hi. lia.
Qed.

(** With nothing left to complete, an answer that was owed has been written. *)
Lemma completed_closed n h s p : accounts n (sh_d s) -> phase h s ->
  h.1.1 = Some (OTerminateWithPublishDone (pp_code p) (pp_reason p)) ->
  (forall o, completing o = true -> sub_step o s = None) -> send_closed (sh_log s) = true.
Proof.
  intros [_ A1 A2 A3 _] Hp Hh Hstuck.
  assert (Hw : sh_writer s = None).
  { specialize (Hstuck (OWritten true) eq_refl). simpl in Hstuck. by case_match. }
  destruct Hp as [->|q ? ? ? Hidle|t Hw' ? ? Et|?|msgs tail ? ? ? ? -> ? Ha]; [done| | |congruence|].
  - exfalso. apply Hidle.
    pose proof (Hstuck (OEndStream true) eq_refl) as S1. pose proof (Hstuck OStreamClosed eq_refl) as S2.
    pose proof (Hstuck OEndDatagram eq_refl) as S3. simpl in S1, S2, S3.
    repeat (case_match; try done). unfold idle. lia.
  - exfalso. specialize (Hstuck (OTask 0 true) eq_refl). simpl in Hstuck. rewrite Et in Hstuck. simpl in Hstuck.
    assert (Hr : task_ready t s = true) by (destruct t; simpl; [by apply bool_decide_eq_true..|done]).
    by rewrite Hr in Hstuck.
  - by rewrite closed_app, (answer_closes _ _ _ Ha), orb_true_r.
Qed.

Lemma ended_by_app ops ops' w : ended_by ops = Some w -> ended_by (ops ++ ops') = Some w.
Proof.
  unfold ended_by. induction ops as [|o ops IH]; simpl; [done|]. by destruct (terminates o).
Qed.

Lemma outstanding_nonneg n s : accounts n (sh_d s) -> 0 <= outstanding s.
Proof.
  intros [_ ? ? ? _]. unfold outstanding. pose proof (len_nonneg (sh_tasks s)). repeat case_match; lia.
Qed.

Lemma completing_bound ops : forall s s' n h, accounts n (sh_d s) -> phase h s ->
  Forall (fun o => completing o = true) ops -> sub_run ops s = Some s' -> len ops <= outstanding s.
Proof.
  induction ops as [|o ops IH]; intros s s' n h Ha Hp Hall Hr; [rewrite len_nil; by eapply outstanding_nonneg|].
  apply Forall_cons in Hall as [Ho Hall]. simpl in Hr. destruct (sub_step o s) as [s1|] eqn:E; [|done].
  rewrite len_cons. pose proof (completing_outstanding _ _ _ Ho E).
  pose proof (IH s1 s' _ _ (step_accounts _ _ _ _ Ha E) (phase_step _ _ _ _ _ Ha Hp E) Hall Hr). lia.
Qed.

(** C26: a terminated request is answered.  After a termination that asks for a
    PUBLISH_DONE, however the goroutines finish what they began (streams being
    opened or open, datagrams, writes, spawned answers), they do so in a bounded
    number of steps, and when nothing is left to finish the request stream is
    closed: after a PUBLISH_DONE with that termination's code and reason, where the
    request had been accepted, and a REQUEST_ERROR with its reason where it had not.
    Only when that message does not encode or its write failed is an accepted request
    closed without one, and the other reset; a request the subscriber refused is closed
    without an answer. *)
Theorem publish_done_delivered published id alias code reason ops ops' s s' :
  sub_run ops (sub_init published id alias) = Some s ->
  ended_by ops = Some (OTerminateWithPublishDone code reason) ->
  Forall (fun o => completing o = true) ops' -> sub_run ops' s = Some s' ->
  len ops' <= outstanding s /\
  ((forall o, completing o = true -> sub_step o s' = None) ->
   exists msgs tail, sh_log s' = msgs ++ tail /\ Forall is_msg msgs /\
     let accepted := okSent (sh_d s') in
     let done := publish_done (MkPending code reason) (u64 (opened (ops ++ ops'))) in
     let error := request_error (MkPending code reason) in
     let failed := existsb fails (ops ++ ops') in
     ((accepted = true /\ tail = [RqMsg done; RqClose]) \/
      (accepted = true /\ unwritable failed done /\ tail = [RqClose]) \/
      (accepted = false /\ tail = [RqMsg error; RqClose; RqDiscard]) \/
      (accepted = false /\ unwritable failed error /\
       tail = [RqCancelRead StreamResetInternalError; RqCancelWrite StreamResetInternalError]) \/
      (existsb refuses (ops ++ ops') = true /\ tail = [RqClose; RqCancelRead StreamResetCancelled]))).
Proof.
  intros H1 Hw Hall H2. destruct (sub_run_inv _ _ _ _ _ (init_accounts _ _ _) (init_phase _ _ _) H1) as [Ha Hp].
  split; [by eapply completing_bound|]. intros Hstuck.
  assert (H : sub_run (ops ++ ops') (sub_init published id alias) = Some s') by (by rewrite sub_run_app, H1).
  destruct (sub_run_inv _ _ _ _ _ (init_accounts _ _ _) (init_phase _ _ _) H) as [Ha' Hp'].
  assert (Hw' : ended_by (ops ++ ops') = Some (OTerminateWithPublishDone code reason)).
  { by apply ended_by_app. }
  simpl in Hp'. rewrite Hw' in Hp'.
  pose proof (completed_closed _ _ _ (MkPending code reason) Ha' Hp' eq_refl Hstuck) as Hc.
  pose proof (acc_opened _ _ Ha') as Ho. rewrite Z.add_0_l in Ho.
  destruct Hp' as [|? ? ? ? ? ? Hl|? ? ? ? ? ? Hl|? ? ? ? Hl|msgs tail Hs ? ? ? Hlog Hm Hans]; try done;
    try (by apply msgs_open in Hl; congruence).
  exists msgs, tail. split; [done|]. split; [done|]. cbv zeta. rewrite <- Ho.
  destruct Hans as [p Hq Hk _|p Hq Hk _ Hu|p Hq Hk _|p Hq Hk _ Hu|Hr|? Hq]; [..|right; right; right; right; done|discriminate Hq].
  all: destruct p as [c r]; simpl in Hq; injection Hq as -> ->.
  - by left.
  - right; left. done.
  - right; right; left. done.
  - right; right; right; left. done.
Qed.

Lemma publish_done_delivered_witness :
  exists s s', sub_run (take 6 sample_sub_run) (sub_init false 1 7) = Some s /\
    sub_run [OStreamClosed; OEndDatagram; OTask 0 true] s = Some s' /\
    len [OStreamClosed; OEndDatagram; OTask 0 true] <= outstanding s /\
    exists msgs tail, sh_log s' = msgs ++ tail /\
      tail = [RqMsg (publish_done (MkPending PublishDoneTrackEnded []) 1); RqClose].
Proof.
  eexists _, _. split; [vm_compute; reflexivity|]. split; [vm_compute; reflexivity|].
  edestruct (publish_done_delivered false 1 7 PublishDoneTrackEnded [] (take 6 sample_sub_run)
    [OStreamClosed; OEndDatagram; OTask 0 true]) as [H1 H2];
    [vm_compute; reflexivity|vm_compute; reflexivity|by repeat constructor|vm_compute; reflexivity|].
  split; [exact H1|]. destruct H2 as (msgs & tail & H & _ & Ht).
  - intros [] Ho; try discriminate Ho; try (vm_compute; reflexivity).
  - exists msgs, tail. split; [exact H|].
    destruct Ht as [[_ Ht]|[(_ & [Hf|[e Hf]] & _)|[[Hf _]|[[Hf _]|[Hf _]]]]]; [exact Ht|vm_compute in Hf; discriminate Hf..].
Defined.

(** ** The forwarding decision *)

(** What the subscriber's Location Filter selects, resolved against the largest
    Location at subscription time. *)
Definition selected (d : DownstreamSub) (loc : Location) : Prop :=
  match d_Filter d with
  | None => True
  | Some f => spec_selects f (if HasLargestAtSubscribe d then Some (LargestAtSubscribe d) else None) loc
  end.

Definition filters_ok (d : DownstreamSub) : Prop :=
  wf_loc (LargestAtSubscribe d) /\ forall f, d_Filter d = Some f -> wf_lf f /\ lf_Validate f = Ok tt.

(** A group the decision drops for good holds no Object the filter selects,
    whatever the largest Location. *)
Lemma GroupOutOfRange_empty f group object largest :
  wf_lf f -> lf_Validate f = Ok tt -> GroupOutOfRange group (Some f) = true ->
  ~ spec_selects f largest (MkLoc group object).
Proof.
  intros Hf Hv. destruct (wf_lf_StartGroup _ Hf) as [H1 H2]. apply lf_Validate_spec in Hv as [_ Hend].
  unfold GroupOutOfRange, spec_selects. destruct (Unfiltered f || _ || _) eqn:E; [done|].
  assert (Hs : spec_start f largest = MkLoc (StartGroup f) (StartObject f)).
  { unfold spec_start. rewrite !orb_false_iff in E. destruct E as [[-> ->] ->]. by destruct largest. }
  rewrite Hs. destruct (Z.ltb_spec group (StartGroup f)); simpl.
  - intros _ [Hle _]. unfold loc_le in Hle; simpl in Hle. lia.
  - unfold lf_End. destruct (HasEnd f) eqn:EH; simpl; [|done]. specialize (Hend eq_refl).
    rewrite u64_small by zlia. intros Hg [_ Hle]. specialize (Hle eq_refl). unfold loc_le in Hle; simpl in Hle. lia.
Qed.

Lemma range_verdict_spec d l sub object prio props : buildRangeFilterSet l = Ok (rangeFilters d) ->
  exists v, range_verdict d sub object prio props = Ok v /\ (v = Forward \/ v = SkipObject) /\
    (v = Forward <-> dnf l (fun f => object_match f sub object prio (searchable true props))).
Proof.
  intros Hb. destruct (set_matches_object l _ sub object prio props Hb) as (m & Hm & Hd).
  unfold range_verdict. destruct (rangeFilters d) as [rf|].
  - rewrite Hm. exists (if m then Forward else SkipObject). split; [done|].
    destruct m; (split; [by auto|]); rewrite <- Hd; done.
  - injection Hm as <-. exists Forward. split_and!; [done|by left|]. rewrite <- Hd. done.
Qed.

(** The Location Filter's part of the decision. *)
Definition filter_verdict (d : DownstreamSub) (f : LocationFilter) (loc : Location) : ForwardVerdict :=
  if GroupOutOfRange (Group loc) (Some f) then SkipGroup
  else if Less loc (lf_Start f (LargestAtSubscribe d) (HasLargestAtSubscribe d)) then SkipBeforeStart
  else SkipObject.

Lemma filter_verdict_spec d f group object v : filters_ok d -> d_Filter d = Some f ->
  let start := spec_start f (if HasLargestAtSubscribe d then Some (LargestAtSubscribe d) else None) in
  (Matches f (MkLoc group object) (LargestAtSubscribe d) (HasLargestAtSubscribe d) = true /\ (v = Forward \/ v = SkipObject)) \/
  (Matches f (MkLoc group object) (LargestAtSubscribe d) (HasLargestAtSubscribe d) = false /\
   v = filter_verdict d f (MkLoc group object)) ->
  (v = SkipGroup -> forall x largest, ~ spec_selects f largest (MkLoc group x)) /\
  (v = SkipBeforeStart \/ v = SkipObject -> (v = SkipBeforeStart <-> loc_lt (MkLoc group object) start)).
Proof.
  intros [Hl Hf] Ed start Hv. destruct (Hf f Ed) as [Hwf Hval].
  destruct (wf_lf_StartGroup _ Hwf) as [Hs _].
  pose proof (Matches_selects f (MkLoc group object) _ (HasLargestAtSubscribe d) Hwf Hval Hl) as Hm.
  destruct Hv as [[E Hv]|[_ ->]].
  - split; [by destruct Hv as [-> | ->]|]. intros [-> | ->]; [by destruct Hv|]. split; [done|]. intros Hlt.
    apply Hm in E as [Hle _]. by apply loc_le_lt in Hle.
  - unfold filter_verdict; cbn [Group]. destruct (GroupOutOfRange group (Some f)) eqn:Eg.
    + split; [|intros [?|?]; discriminate]. intros _ x largest. by apply GroupOutOfRange_empty.
    + rewrite lf_Start_option by done. fold start. destruct (Less _ start) eqn:El.
      * split; [done|]. intros _. split; [|done]. intros _. by apply Less_spec.
      * split; [done|]. intros _. split; [done|]. intros Hlt. apply Less_spec in Hlt. congruence.
Qed.

Lemma verdict_not_forward d f loc : filter_verdict d f loc <> Forward /\ filter_verdict d f loc <> SkipEnded /\
  filter_verdict d f loc <> SkipPaused.
Proof. unfold filter_verdict. by repeat case_match. Qed.

(** the per-object forwarding decision.  With filters the request handlers
    accept, the decision never fails; an Object is forwarded iff the subscription
    is live and not paused and both its Location Filter and its Range Filters pass
    the Object; a group is given up only if no Object of it can ever pass, whatever
    the largest Location; an Object is skipped as "before the start" only if it
    precedes the start the filter resolves to, and as an object on its own only if
    it does not. *)
Theorem forward_decision_exact d l group object sub prio props :
  filters_ok d -> buildRangeFilterSet l = Ok (rangeFilters d) ->
  exists v, ForwardDecision group object sub prio props d = Ok v /\
    (v = Forward <-> d_state d = SubEstablished /\ forwardState (d_sub d) <> 0 /\ selected d (MkLoc group object) /\
       dnf l (fun f => object_match f sub object prio (searchable true props))) /\
    (v = SkipEnded <-> d_state d = SubTerminated) /\
    (v = SkipPaused <-> d_state d = SubEstablished /\ forwardState (d_sub d) = 0) /\
    (forall f, d_Filter d = Some f ->
       (v = SkipGroup -> forall x largest, ~ spec_selects f largest (MkLoc group x)) /\
       (v = SkipBeforeStart \/ v = SkipObject ->
          (v = SkipBeforeStart <->
           loc_lt (MkLoc group object)
             (spec_start f (if HasLargestAtSubscribe d then Some (LargestAtSubscribe d) else None))))).
Proof.
  intros Hok Hb. destruct (range_verdict_spec d l sub object prio props Hb) as (rv & Hrv & Hor & Hdnf).
  unfold ForwardDecision, selected. case_bool_decide as Et.
  { exists SkipEnded. rewrite Et. naive_solver. }
  apply not_terminated in Et. rewrite Et. destruct (Z.eqb_spec (forwardState (d_sub d)) 0) as [Ef|Ef].
  { exists SkipPaused. naive_solver. }
  destruct (d_Filter d) as [f|] eqn:Ed.
  2: { exists rv. rewrite Hrv. destruct Hor as [-> | ->]; naive_solver. }
  pose proof (filter_verdict_spec d f group object) as Hfv. destruct Hok as [Hl Hf].
  destruct (Hf f Ed) as [Hwf Hval].
  pose proof (Matches_selects f (MkLoc group object) _ (HasLargestAtSubscribe d) Hwf Hval Hl) as Hm.
  destruct (Matches f _ _ _) eqn:Em; cbn [negb].
  - exists rv. specialize (Hfv rv (conj Hl Hf) Ed (or_introl (conj eq_refl Hor))).
    rewrite Hrv. destruct Hor as [-> | ->]; naive_solver.
  - exists (filter_verdict d f (MkLoc group object)).
    specialize (Hfv _ (conj Hl Hf) Ed (or_intror (conj eq_refl eq_refl))).
    destruct (verdict_not_forward d f (MkLoc group object)) as (N1 & N2 & N3).
    split; [|naive_solver]. unfold filter_verdict. cbn [Group].
    destruct (GroupOutOfRange _ _); [done|]. by destruct (Less _ _).
Qed.

Lemma forward_decision_exact_witness :
  let d := SetLargestAtSubscribe (MkLoc 3 4) true (SetFilter (Some (MkLF 4 5 2 1 9)) (NewDownstreamSub 1 7 true)) in
  filters_ok d /\ ForwardDecision 6 10 0 128 [] d = Ok SkipObject /\ ForwardDecision 7 0 0 128 [] d = Ok SkipGroup /\
  exists v, ForwardDecision 5 2 0 128 [] d = Ok v /\ (v = SkipEnded <-> d_state d = SubTerminated).
Proof.
  intros d. assert (Hok : filters_ok d).
  { split; [by_decide|]. intros f [= <-]. split; [by_decide|reflexivity]. }
  split; [exact Hok|]. split; [vm_compute; reflexivity|]. split; [vm_compute; reflexivity|].
  destruct (forward_decision_exact d [] 5 2 0 128 [] Hok eq_refl) as (v & H1 & _ & H2 & _).
  exists v. split; [exact H1|exact H2].
Defined.

(** ** Scheduling priority *)

Lemma lxor_max g : is_u64 g -> Z.lxor g MaxUint64 = MaxUint64 - g.
Proof.
  intros Hg. change MaxUint64 with (Z.ones 64) in *.
  assert (Hl : Z.ldiff g (Z.ones 64) = 0).
  { rewrite Z.ldiff_ones_r, Z.shiftr_div_pow2 by lia. rewrite Z.div_small by (unfold is_u64, MaxUint64 in Hg; lia).
    apply Z.shiftl_0_l. }
  rewrite Z.sub_nocarry_ldiff by done. apply Z.bits_inj'. intros i Hi.
  rewrite Z.lxor_spec, Z.ldiff_spec. assert (Hb : Z.testbit (Z.ldiff g (Z.ones 64)) i = false) by (rewrite Hl; apply Z.bits_0).
  rewrite Z.ldiff_spec in Hb. by destruct (Z.testbit g i), (Z.testbit (Z.ones 64) i).
Qed.

(** The key is compared lexicographically, lower first. *)
Definition prio_before (a b : StreamPriority) : Prop :=
  sp_Subscriber a < sp_Subscriber b \/ (sp_Subscriber a = sp_Subscriber b /\
    (sp_Publisher a < sp_Publisher b \/ (sp_Publisher a = sp_Publisher b /\
      (sp_GroupKey a < sp_GroupKey b \/ (sp_GroupKey a = sp_GroupKey b /\ sp_Subgroup a < sp_Subgroup b))))).

(** C37: stream priorities follow the four rules of section 5.1.2.  A subscription's
    streams are ordered by publisher priority, then by group in the requested
    group order (the complemented key never ties or wraps), then by subgroup; a
    stream of a subscriber with a lower priority number comes first whatever the
    rest; and the urgency handed to the transport is 1 to 7 and never puts a more
    urgent subscriber behind a less urgent one. *)
Theorem stream_priority_order d d' pp1 pp2 g1 g2 s1 s2 :
  is_u64 g1 -> is_u64 g2 -> is_u8 (d_Priority d) -> is_u8 (d_Priority d') ->
  (prio_before (EffectiveStreamPriority pp1 g1 s1 d) (EffectiveStreamPriority pp2 g2 s2 d) <->
   pp1 < pp2 \/ (pp1 = pp2 /\
     ((if decide (d_GroupOrder d = GroupOrderDescending) then g2 < g1 else g1 < g2) \/ (g1 = g2 /\ s1 < s2)))) /\
  (d_Priority d < d_Priority d' ->
     prio_before (EffectiveStreamPriority pp1 g1 s1 d) (EffectiveStreamPriority pp2 g2 s2 d')) /\
  1 <= Urgency (EffectiveStreamPriority pp1 g1 s1 d) <= 7 /\
  (d_Priority d <= d_Priority d' ->
     Urgency (EffectiveStreamPriority pp1 g1 s1 d) <= Urgency (EffectiveStreamPriority pp2 g2 s2 d')).
Proof.
  intros H1 H2 H3 H4. unfold prio_before, EffectiveStreamPriority, Urgency; simpl. split_and!.
  - destruct (Z.eqb_spec (d_GroupOrder d) GroupOrderDescending); case_decide; try done;
      rewrite ?lxor_max by done; lia.
  - lia.
  - u64_unfold. Z.to_euclidean_division_equations. lia.
  - u64_unfold. Z.to_euclidean_division_equations. lia.
  - intros. apply Z.add_le_mono_l, Z.div_le_mono; lia.
Qed.

Lemma stream_priority_order_witness :
  let d := SetGroupOrder GroupOrderDescending (NewDownstreamSub 1 7 true) in
  prio_before (EffectiveStreamPriority 3 9 0 d) (EffectiveStreamPriority 3 8 0 d) /\
  1 <= Urgency (EffectiveStreamPriority 3 9 0 d) <= 7.
Proof.
  intros d. destruct (stream_priority_order d d 3 3 9 8 0 0 ltac:(by_decide) ltac:(by_decide)
    ltac:(by_decide) ltac:(by_decide)) as (H1 & _ & H3 & _).
  split; [|exact H3]. apply H1. vm_compute. right. split; [reflexivity|]. left. reflexivity.
Defined.
