(* ===== verification/TrackTable.v ===== *)
(** * TrackTable: the relay's track registry

    [pkg/relay/internal/registry/track_registry.go], the parts of [track_entry.go]
    and [properties.go] it relies on, and [arrivals.go].

    The registry maps track keys to entries.  An entry lists the upstreams that feed
    the track and the downstream subscriptions it feeds.  Every change of the lists
    is made under the registry's lock, and so is the call that advertises or
    withdraws the track at the discovery store.  What an operation does after it has
    released the lock, namely terminating subscriptions whose track lost its last
    upstream, is recorded in [r_notify] and done by steps of its own, so other
    operations come in between as they may in the program. *)

From stdpp Require Import gmap.
From S2P Require Import Prelude Codes Varint Wire KV Filter Params Properties RangeFilter Messages Objects Cache.
From S2P Require Import FetchRanges Ledger Subs Track Discovery.

(** ** What the registry asks of a discovery store

    The registry publishes with a bounded call and only logs a failure; the laws
    are about calls that succeed, for an address that is not withdrawn
    ([adv_ready]). *)
Class Advertiser (D : Type) : Type := {
  adv_publish : TrackInfo -> D -> D;
  adv_unpublish : Key -> bytes -> D -> D;
  adv_has : D -> Key -> bytes -> bool;
  adv_ready : D -> bytes -> Prop }.

Class AdvertiserLaws (D : Type) `{!Advertiser D} : Prop := {
  adv_publish_has d i k a : adv_ready d (ti_RelayAddr i) ->
    adv_has (adv_publish i d) k a = bool_decide (k = ti_Key i /\ a = ti_RelayAddr i) || adv_has d k a;
  adv_unpublish_has d k a k' a' : adv_ready d a ->
    adv_has (adv_unpublish k a d) k' a' = negb (bool_decide (k' = k /\ a' = a)) && adv_has d k' a';
  adv_publish_ready d i a : adv_ready d a -> adv_ready (adv_publish i d) a;
  adv_unpublish_ready d k a a' : adv_ready d a' -> adv_ready (adv_unpublish k a d) a' }.

(** The in-memory store is one; [now] stamps its entries. *)
#[global] Instance MemoryStore_Advertiser : Advertiser MemoryStore := {
  adv_publish i s := (PublishTrack 1 i s).2;
  adv_unpublish k a s := (UnpublishTrack k a s).2;
  adv_has s k a := bool_decide (is_Some (ms_tracks s !! (k, a)));
  adv_ready s a := ms_closed s = false /\ a ∉ ms_withdrawn s }.

#[global] Instance MemoryStore_laws : AdvertiserLaws MemoryStore.
Proof.
  split; simpl.
  - intros d i k a [Hc Hw]. unfold PublishTrack. rewrite Hc, (bool_decide_false (_ ∈ _)) by done. simpl.
    set (j := if ti_PublishedAt i =? 0 then _ else _).
    assert (Hj : trackEntryKey j = (ti_Key i, ti_RelayAddr i)) by (unfold j; by case_match).
    rewrite Hj. apply eq_iff_eq_true. rewrite orb_true_iff, !bool_decide_eq_true.
    destruct (decide (k = ti_Key i /\ a = ti_RelayAddr i)) as [[-> ->]|Hne].
    + rewrite lookup_insert_eq. naive_solver.
    + rewrite lookup_insert_ne; [naive_solver|]. intros E. apply Hne. by simplify_eq.
  - intros d k a k' a' [Hc _]. unfold UnpublishTrack. rewrite Hc.
    apply eq_iff_eq_true. rewrite andb_true_iff, negb_true_iff, bool_decide_eq_false, !bool_decide_eq_true.
    destruct (ms_tracks d !! (k, a)) as [info|] eqn:E; simpl.
    + destruct (decide (k' = k /\ a' = a)) as [[-> ->]|Hne].
      * rewrite lookup_delete_eq. split; [by intros []|naive_solver].
      * rewrite lookup_delete_ne; [naive_solver|]. intros E'. apply Hne. by simplify_eq.
    + split; [|naive_solver]. intros Hs. split; [|done]. intros [-> ->]. rewrite E in Hs. by destruct Hs.
  - intros d i a [Hc Hw]. unfold PublishTrack. rewrite Hc. by case_bool_decide.
  - intros d k a a' [Hc Hw]. unfold UnpublishTrack. rewrite Hc. by case_match.
Qed.

(** ** Decoded Track Properties *)

Record decodedProperties : Type := MkDecoded {
  dp_parseErr : option error; dp_dynamicGroups : bool; dp_timeouts : DeliveryTimeouts; dp_groupOrder : Z }.

Definition decode_pair (d : decodedProperties) (kv : KVPair) : decodedProperties :=
  let t := kv_Type kv in let v := kv_IntVal kv in
  if t =? PropertyDynamicGroups then MkDecoded (dp_parseErr d) (v =? 1) (dp_timeouts d) (dp_groupOrder d)
  else if t =? PropertyObjectDeliveryTimeout then
    MkDecoded (dp_parseErr d) (dp_dynamicGroups d) (MkDT (MillisecondTimeout v) (dt_Subgroup (dp_timeouts d)))
      (dp_groupOrder d)
  else if t =? PropertySubgroupDeliveryTimeout then
    MkDecoded (dp_parseErr d) (dp_dynamicGroups d) (MkDT (dt_Object (dp_timeouts d)) (MillisecondTimeout v))
      (dp_groupOrder d)
  else if t =? PropertyDefaultPublisherGroupOrder then
    MkDecoded (dp_parseErr d) (dp_dynamicGroups d) (dp_timeouts d)
      (if v =? GroupOrderDescending then GroupOrderDescending else GroupOrderAscending)
  else d.

Definition decoded0 : decodedProperties := MkDecoded None false (MkDT 0 0) 0.

Definition decodeTrackProperties (raw : bytes) : decodedProperties :=
  match (pairs ← ParseTrackProperties raw; ExpandImmutable pairs) with
  | Err e => MkDecoded (Some e) false (MkDT 0 0) 0
  | Ok pairs => fold_left decode_pair (reverse pairs) decoded0
  end.

Definition DynamicGroups (d : decodedProperties) : result bool :=
  match dp_parseErr d with Some e => Err e | None => Ok (dp_dynamicGroups d) end.
Definition TrackDeliveryTimeouts (d : decodedProperties) : DeliveryTimeouts :=
  match dp_parseErr d with Some _ => MkDT 0 0 | None => dp_timeouts d end.
Definition DefaultGroupOrder (d : decodedProperties) : Z :=
  match dp_parseErr d with
  | Some _ => GroupOrderAscending
  | None => if dp_groupOrder d =? 0 then GroupOrderAscending else dp_groupOrder d
  end.

(** ** Entries and the registry *)

(** A subscription in a list: the object (by its process-wide ID) and its session. *)
Record UpRef : Type := MkUpRef { ur_sub : UpstreamSub; ur_Session : Z }.
Record DownRef : Type := MkDownRef { dr_ID : Z; dr_Session : Z }.

Definition ur_ID (u : UpRef) : Z := s_ID (u_sub (ur_sub u)).

Record TrackEntry : Type := MkEntry {
  te_FullName : FullTrackName; te_Properties : bytes; te_decoded : decodedProperties; te_mark : Watermark;
  te_Upstream : list UpRef; te_epoch : Z; te_Downstream : list DownRef; te_gen : Z; te_Cache : ObjectCache }.

Record arrival : Type := MkArrival { ar_ch : Z; ar_waiters : Z }.

Record TrackRegistry (D : Type) : Type := MkReg {
  r_tracks : gmap Key TrackEntry;
  r_cacheMaxSize : Z; r_cacheMaxDuration : Z; r_ttl : option (FullTrackName -> Z);
  r_discovery : option D; r_relayAddr : bytes;
  r_claims : gset (Z * Key); r_inflight : gmap (Z * Z * Key) Z; r_arrivals : gmap Key arrival;
  r_epochs : Z;
  r_subs : gmap Z SharedSub;
  r_notify : list (Z * Z * bytes) }.
Arguments MkReg {D} _ _ _ _ _ _ _ _ _ _ _ _.
Arguments r_tracks {D} _. Arguments r_cacheMaxSize {D} _. Arguments r_cacheMaxDuration {D} _.
Arguments r_ttl {D} _. Arguments r_discovery {D} _. Arguments r_relayAddr {D} _. Arguments r_claims {D} _.
Arguments r_inflight {D} _. Arguments r_arrivals {D} _. Arguments r_epochs {D} _. Arguments r_subs {D} _.
Arguments r_notify {D} _.

Definition DefaultCacheMaxSize : Z := 1024.
Definition DefaultCacheMaxDuration : Z := 30000000000.

Definition upstream_gone : bytes := String.list_byte_of_string "relay: upstream gone".
Definition session_gone : bytes := String.list_byte_of_string "relay: publisher session gone".

Section Registry.
Context {D : Type} `{!Advertiser D}.
Implicit Types (r : TrackRegistry D) (e : TrackEntry).

(** [NewTrackRegistry] with the cache, policy and discovery options. *)
Definition NewTrackRegistry (maxSize maxDuration : Z) (ttl : option (FullTrackName -> Z)) (d : option D)
    (relayAddr : bytes) : TrackRegistry D :=
  MkReg ∅ (if 0 <? maxSize then maxSize else DefaultCacheMaxSize)
    (if 0 <? maxDuration then maxDuration else DefaultCacheMaxDuration) ttl d relayAddr ∅ ∅ ∅ 0 ∅ [].

(** The table and the discovery store after a change. *)
Definition set_table r (m : gmap Key TrackEntry) (d : option D) : TrackRegistry D :=
  MkReg m (r_cacheMaxSize r) (r_cacheMaxDuration r) (r_ttl r) d (r_relayAddr r) (r_claims r) (r_inflight r)
    (r_arrivals r) (r_epochs r) (r_subs r) (r_notify r).
Definition set_notify r (l : list (Z * Z * bytes)) : TrackRegistry D :=
  MkReg (r_tracks r) (r_cacheMaxSize r) (r_cacheMaxDuration r) (r_ttl r) (r_discovery r) (r_relayAddr r) (r_claims r)
    (r_inflight r) (r_arrivals r) (r_epochs r) (r_subs r) l.
Definition set_subs r (m : gmap Z SharedSub) : TrackRegistry D :=
  MkReg (r_tracks r) (r_cacheMaxSize r) (r_cacheMaxDuration r) (r_ttl r) (r_discovery r) (r_relayAddr r) (r_claims r)
    (r_inflight r) (r_arrivals r) (r_epochs r) m (r_notify r).
Definition set_requests r (c : gset (Z * Key)) (i : gmap (Z * Z * Key) Z) (a : gmap Key arrival) : TrackRegistry D :=
  MkReg (r_tracks r) (r_cacheMaxSize r) (r_cacheMaxDuration r) (r_ttl r) (r_discovery r) (r_relayAddr r) c i a
    (r_epochs r) (r_subs r) (r_notify r).
Definition set_epochs r (n : Z) : TrackRegistry D :=
  MkReg (r_tracks r) (r_cacheMaxSize r) (r_cacheMaxDuration r) (r_ttl r) (r_discovery r) (r_relayAddr r) (r_claims r)
    (r_inflight r) (r_arrivals r) n (r_subs r) (r_notify r).

Definition with_Upstream (us : list UpRef) e : TrackEntry :=
  MkEntry (te_FullName e) (te_Properties e) (te_decoded e) (te_mark e) us (te_epoch e) (te_Downstream e) (te_gen e)
    (te_Cache e).
Definition with_Downstream (ds : list DownRef) (gen : Z) e : TrackEntry :=
  MkEntry (te_FullName e) (te_Properties e) (te_decoded e) (te_mark e) (te_Upstream e) (te_epoch e) ds gen (te_Cache e).
Definition setPropertiesLocked (raw : bytes) e : TrackEntry :=
  MkEntry (te_FullName e) raw (decodeTrackProperties raw) (te_mark e) (te_Upstream e) (te_epoch e) (te_Downstream e)
    (te_gen e) (te_Cache e).

Definition publishTrackToDiscovery e r : option D :=
  adv_publish (MkTrackInfo (fn_Key (te_FullName e)) (te_FullName e) (te_Properties e) (r_relayAddr r) 0) <$> r_discovery r.
Definition unpublishTrackFromDiscovery e r : option D :=
  adv_unpublish (fn_Key (te_FullName e)) (r_relayAddr r) <$> r_discovery r.

Definition resolveCacheTTL (fullName : FullTrackName) r : Z :=
  match r_ttl r with
  | None => r_cacheMaxDuration r
  | Some policy =>
      let d := policy fullName in if d <? 0 then 0 else if 0 <? d then d else r_cacheMaxDuration r
  end.

Definition new_entry (fullName : FullTrackName) r : TrackEntry :=
  MkEntry fullName [] decoded0 (MkMark (MkLoc 0 0) false false 0 0) [] 0 [] 0
    (NewObjectCache (r_cacheMaxSize r) (resolveCacheTTL fullName r)).

Definition getOrCreateLocked (fullName : FullTrackName) r : TrackEntry :=
  match r_tracks r !! fn_Key fullName with Some e => e | None => new_entry fullName r end.

Definition put_entry e r : TrackRegistry D := set_table r (<[fn_Key (te_FullName e) := e]> (r_tracks r)) (r_discovery r).

Definition GetOrCreateNew (fullName : FullTrackName) r : bool * TrackRegistry D :=
  match r_tracks r !! fn_Key fullName with
  | Some _ => (false, r)
  | None => (true, put_entry (getOrCreateLocked fullName r) r)
  end.

Definition DeleteIfUnused (fullName : FullTrackName) r : TrackRegistry D :=
  match r_tracks r !! fn_Key fullName with
  | None => r
  | Some e =>
      if HasLargestObject (te_mark e) || (0 <? Len (te_Cache e)) then r
      else if (len (te_Upstream e) =? 0) && (len (te_Downstream e) =? 0)
      then set_table r (delete (fn_Key fullName) (r_tracks r)) (r_discovery r)
      else r
  end.

Definition MatchNamespace (prefix : TrackNamespace) (it : list (Key * TrackEntry)) : list TrackEntry :=
  List.filter (fun e => HasPrefix (fn_Namespace (te_FullName e)) prefix) it.*2.

(** *** Waiting for an upstream

    A channel is named by a number; [notifyLocked] closes the one a key's waiters
    hold, by dropping the entry. *)
Definition waitLocked (k : Key) (fresh : Z) (a : gmap Key arrival) : Z * gmap Key arrival :=
  let w := match a !! k with Some w => w | None => MkArrival fresh 0 end in
  (ar_ch w, <[k := MkArrival (ar_ch w) (ar_waiters w + 1)]> a).
(** The stop returned with the channel [ch]. *)
Definition stopWait (k : Key) (ch : Z) (a : gmap Key arrival) : gmap Key arrival :=
  match a !! k with
  | Some w => if ar_ch w =? ch
              then if ar_waiters w - 1 =? 0 then delete k a else <[k := MkArrival ch (ar_waiters w - 1)]> a
              else a
  | None => a
  end.
Definition notifyLocked (k : Key) (a : gmap Key arrival) : gmap Key arrival := delete k a.

(** *** Adding *)

Definition AddUpstream (fullName : FullTrackName) (sub : UpRef) (props : option bytes) r : bool * TrackRegistry D :=
  let e := getOrCreateLocked fullName r in
  let becameNonEmpty := len (te_Upstream e) =? 0 in
  let epoch := u64 (r_epochs r + 1) in
  let e := MkEntry (te_FullName e) (te_Properties e) (te_decoded e) (te_mark e) (te_Upstream e ++ [sub]) epoch
             (te_Downstream e) (te_gen e) (te_Cache e) in
  let e := match props with
           | Some p => if len (te_Properties e) =? 0 then setPropertiesLocked p e else e
           | None => e
           end in
  let r := set_epochs (put_entry e r) epoch in
  let r := if becameNonEmpty then set_table r (r_tracks r) (publishTrackToDiscovery e r) else r in
  (becameNonEmpty, set_requests r (r_claims r) (r_inflight r) (notifyLocked (fn_Key fullName) (r_arrivals r))).

(** Appends [sub] if the track still has an upstream, and returns the watermark of
    that moment. *)
Definition AddDownstreamSnapshotLargest (fullName : FullTrackName) (sub : DownRef) r
    : option (Location * bool) * TrackRegistry D :=
  match r_tracks r !! fn_Key fullName with
  | None => (None, r)
  | Some e =>
      if len (te_Upstream e) =? 0 then (None, r)
      else (Some (GetLargest (te_mark e)),
            put_entry (with_Downstream (te_Downstream e ++ [sub]) (u64 (te_gen e + 1)) e) r)
  end.

(** *** Removing *)

(** Both lists empty: the entry leaves the table; otherwise it is put back. *)
Definition settle_entry (empty : bool) e r : TrackRegistry D :=
  if empty then set_table r (delete (fn_Key (te_FullName e)) (r_tracks r)) (r_discovery r) else put_entry e r.

Definition notify (ids : list Z) (code : Z) (reason : bytes) r : TrackRegistry D :=
  set_notify r (r_notify r ++ ((fun i => (i, code, reason)) <$> ids)).

Definition RemoveUpstream (fullName : FullTrackName) (subID : Z) r : (bool * bool * bool) * TrackRegistry D :=
  match r_tracks r !! fn_Key fullName with
  | None => ((false, false, false), r)
  | Some e =>
      let gone := last (List.filter (fun u => ur_ID u =? subID) (te_Upstream e)) in
      let us := List.filter (fun u => negb (ur_ID u =? subID)) (te_Upstream e) in
      let removed := len us <? len (te_Upstream e) in
      let upstreamEmpty := len us =? 0 in
      if negb removed then ((false, upstreamEmpty, false), put_entry (with_Upstream us e) r)
      else
        let e := with_Upstream us e in
        let allEmpty := upstreamEmpty && (len (te_Downstream e) =? 0) in
        let r := settle_entry allEmpty e r in
        let r := if upstreamEmpty then set_table r (r_tracks r) (unpublishTrackFromDiscovery e r) else r in
        let r := if upstreamEmpty
                 then notify (dr_ID <$> te_Downstream e) (DownstreamDoneCode (gone ≫= fun u => u_done (ur_sub u)))
                        upstream_gone r
                 else r in
        ((true, upstreamEmpty, allEmpty), r)
  end.

Definition stripOnDemandLocked e : list UpRef * TrackEntry :=
  (List.filter (fun u => OnDemand (ur_sub u)) (te_Upstream e),
   with_Upstream (List.filter (fun u => negb (OnDemand (ur_sub u))) (te_Upstream e)) e).

(** The upstreams to close on demand come with the result. *)
Definition RemoveDownstream (fullName : FullTrackName) (subID : Z) r
    : (bool * bool * bool) * list UpRef * TrackRegistry D :=
  match r_tracks r !! fn_Key fullName with
  | None => ((false, false, false), [], r)
  | Some e =>
      let ds := List.filter (fun d => negb (dr_ID d =? subID)) (te_Downstream e) in
      let removed := len ds <? len (te_Downstream e) in
      let downstreamEmpty := len ds =? 0 in
      let e := with_Downstream ds (te_gen e) e in
      if negb removed then ((false, downstreamEmpty, false), [], put_entry e r)
      else
        let hadUpstream := negb (len (te_Upstream e) =? 0) in
        let '(stranded, e) := if downstreamEmpty then stripOnDemandLocked e else ([], e) in
        let upstreamEmpty := len (te_Upstream e) =? 0 in
        let allEmpty := downstreamEmpty && upstreamEmpty in
        let r := settle_entry allEmpty e r in
        let r := if hadUpstream && upstreamEmpty then set_table r (r_tracks r) (unpublishTrackFromDiscovery e r) else r in
        ((true, downstreamEmpty, allEmpty), stranded, r)
  end.

Definition ReleaseIfUnsubscribed (fullName : FullTrackName) (upID : Z) r : bool * TrackRegistry D :=
  match r_tracks r !! fn_Key fullName with
  | None => (false, r)
  | Some e =>
      let us := if len (te_Downstream e) =? 0
                then List.filter (fun u => negb (ur_ID u =? upID)) (te_Upstream e) else te_Upstream e in
      let released := len us <? len (te_Upstream e) in
      let e := with_Upstream us e in
      if released && (len us =? 0)
      then (true, set_table r (delete (fn_Key fullName) (r_tracks r)) (unpublishTrackFromDiscovery e r))
      else (released, put_entry e r)
  end.

(** *** A session goes away

    What [RemoveSession] does to one entry: the entry left, whether its last
    upstream went, the subscriptions to notify, the upstreams to close. *)
Record purge : Type := MkPurge { pg_entry : TrackEntry; pg_orphaned : bool; pg_notify : list Z; pg_stranded : list UpRef }.

Definition purge_entry (sess : Z) e : purge :=
  let us := List.filter (fun u => negb (ur_Session u =? sess)) (te_Upstream e) in
  let orphaned := negb (len (te_Upstream e) =? 0) && (len us =? 0) in
  let notify := if orphaned then dr_ID <$> List.filter (fun d => negb (dr_Session d =? sess)) (te_Downstream e) else [] in
  let ds := List.filter (fun d => negb (dr_Session d =? sess)) (te_Downstream e) in
  let removedD := len ds <? len (te_Downstream e) in
  let e := with_Downstream ds (te_gen e) (with_Upstream us e) in
  if removedD && (len ds =? 0) && negb (len us =? 0)
  then let '(stranded, e) := stripOnDemandLocked e in
       MkPurge e (orphaned || (negb (len stranded =? 0) && (len (te_Upstream e) =? 0))) notify stranded
  else MkPurge e orphaned notify [].

(** One turn of the loop over the table. *)
Definition purge_step (sess : Z) r (k : Key) : TrackRegistry D :=
  match r_tracks r !! k with
  | None => r
  | Some e =>
      let p := purge_entry sess e in
      let e := pg_entry p in
      let r := set_table r (if (len (te_Upstream e) =? 0) && (len (te_Downstream e) =? 0)
                            then delete k (r_tracks r) else <[k := e]> (r_tracks r)) (r_discovery r) in
      let r := if pg_orphaned p then set_table r (r_tracks r) (unpublishTrackFromDiscovery e r) else r in
      notify (pg_notify p) PublishDoneTrackEnded session_gone r
  end.

(** [it] is the order in which the loop visits the keys. *)
Definition RemoveSession (sess : Z) (it : list Key) r : TrackRegistry D := fold_left (purge_step sess) it r.

(** *** Claims and requests in flight *)

Definition HasUpstreamOn (sess : Z) e : bool := existsb (fun u => ur_Session u =? sess) (te_Upstream e).

Definition ClaimUpstream (sess : Z) (key : Key) r : bool * TrackRegistry D :=
  if bool_decide ((sess, key) ∈ r_claims r) then (false, r)
  else if match r_tracks r !! key with Some e => HasUpstreamOn sess e | None => false end then (false, r)
  else (true, set_requests r ({[(sess, key)]} ∪ r_claims r) (r_inflight r) (r_arrivals r)).
Definition ReleaseClaim (sess : Z) (key : Key) r : TrackRegistry D :=
  set_requests r (r_claims r ∖ {[(sess, key)]}) (r_inflight r) (r_arrivals r).

Definition BeginRequest (typ sess : Z) (key : Key) r : TrackRegistry D :=
  set_requests r (r_claims r) (<[(typ, sess, key) := default 0 (r_inflight r !! (typ, sess, key)) + 1]> (r_inflight r))
    (r_arrivals r).
Definition DoneRequest (typ sess : Z) (key : Key) r : TrackRegistry D :=
  let n := default 0 (r_inflight r !! (typ, sess, key)) - 1 in
  set_requests r (r_claims r)
    (if n =? 0 then delete (typ, sess, key) (r_inflight r) else <[(typ, sess, key) := n]> (r_inflight r)) (r_arrivals r).
Definition RequestPending (typ sess : Z) (key : Key) r : bool := 0 <? default 0 (r_inflight r !! (typ, sess, key)).

(** A notification runs, once the lock is released: [sub.TerminateWithPublishDone]. *)
Definition run_notify (i : nat) r : TrackRegistry D :=
  match r_notify r !! i with
  | None => r
  | Some (id, code, reason) =>
      let r := set_notify r (delete i (r_notify r)) in
      match r_subs r !! id with
      | None => r
      | Some s =>
          set_subs r (<[id := sendPublishDone (TerminateWithPublishDone code reason (sh_d s)) s]> (r_subs r))
      end
  end.

Definition AwaitUpstream (key : Key) (fresh : Z) r : Z * TrackRegistry D :=
  let '(ch, a) := waitLocked key fresh (r_arrivals r) in (ch, set_requests r (r_claims r) (r_inflight r) a).
(** ** Every reachable registry *)

(** Whether [key] has an upstream. *)
Definition has_up (m : gmap Key TrackEntry) (k : Key) : bool :=
  match m !! k with Some e => negb (len (te_Upstream e) =? 0) | None => false end.

(** Objects arriving move an entry's watermark and fill its cache. *)
Definition touch_entry (k : Key) (mark : Watermark) (c : ObjectCache) r : TrackRegistry D :=
  match r_tracks r !! k with
  | None => r
  | Some e => set_table r (<[k := MkEntry (te_FullName e) (te_Properties e) (te_decoded e) mark (te_Upstream e) (te_epoch e)
                 (te_Downstream e) (te_gen e) c]> (r_tracks r)) (r_discovery r)
  end.

(** A call on the shared object of an upstream: its PUBLISH_DONE recorded, its
    Forward State set, its termination. *)
Inductive up_op : Type := UDone (pd : PublishDone) | UForward (v : Z) | UTerminate.
Definition up_apply (o : up_op) (u : UpstreamSub) : UpstreamSub :=
  match o with
  | UDone pd => SetPublishDone pd u
  | UForward v => MkUp (SetForwardState v (u_sub u)) (u_Filter u) (FetchCapable u) (OnDemand u) (u_done u)
  | UTerminate => MkUp (Terminate (u_sub u)).2 (u_Filter u) (FetchCapable u) (OnDemand u) (u_done u)
  end.
Definition up_entry (id : Z) (o : up_op) e : TrackEntry :=
  with_Upstream ((fun u => if ur_ID u =? id then MkUpRef (up_apply o (ur_sub u)) (ur_Session u) else u) <$> te_Upstream e) e.
Definition on_upstream (id : Z) (o : up_op) r : TrackRegistry D :=
  set_table r (up_entry id o <$> r_tracks r) (r_discovery r).

Inductive reg_step r : TrackRegistry D -> Prop :=
| rs_create name : reg_step r (GetOrCreateNew name r).2
| rs_unused name : reg_step r (DeleteIfUnused name r)
| rs_add_up name sub props : reg_step r (AddUpstream name sub props r).2
| rs_new_sub id published alias : r_subs r !! id = None ->
    reg_step r (set_subs r (<[id := sub_init published id alias]> (r_subs r)))
| rs_add_down name sub : is_Some (r_subs r !! dr_ID sub) -> reg_step r (AddDownstreamSnapshotLargest name sub r).2
| rs_remove_up name id : reg_step r (RemoveUpstream name id r).2
| rs_remove_down name id : reg_step r (RemoveDownstream name id r).2
| rs_release name id : reg_step r (ReleaseIfUnsubscribed name id r).2
| rs_session sess it : it ≡ₚ (map_to_list (r_tracks r)).*1 -> reg_step r (RemoveSession sess it r)
| rs_notify i : reg_step r (run_notify i r)
| rs_sub id s s' o : r_subs r !! id = Some s -> sub_step o s = Some s' ->
    reg_step r (set_subs r (<[id := s']> (r_subs r)))
| rs_touch k mark c : reg_step r (touch_entry k mark c r)
| rs_upstream id o : reg_step r (on_upstream id o r)
| rs_claim sess k : reg_step r (ClaimUpstream sess k r).2
| rs_unclaim sess k : reg_step r (ReleaseClaim sess k r)
| rs_begin typ sess k : reg_step r (BeginRequest typ sess k r)
| rs_end typ sess k : reg_step r (DoneRequest typ sess k r)
| rs_await k fresh : reg_step r (AwaitUpstream k fresh r).2.

(** A subscription on a track without upstream has been ended, or is about to be. *)
Definition ending_sub (subs : gmap Z SharedSub) (pending : list (Z * Z * bytes)) (id : Z) : Prop :=
  (exists code reason, (id, code, reason) ∈ pending) \/
  (exists s, subs !! id = Some s /\ d_state (sh_d s) = SubTerminated).

(** The advertisements of this relay are the tracks that have an upstream. *)
Definition adv_ok (m : gmap Key TrackEntry) (disc : option D) (a : bytes) : Prop :=
  forall d, disc = Some d -> adv_ready d a /\ forall k, adv_has d k a = has_up m k.

Record tab_ok (m : gmap Key TrackEntry) (disc : option D) (a : bytes) (subs : gmap Z SharedSub)
    (pending : list (Z * Z * bytes)) : Prop := {
  ti_keys : forall k e, m !! k = Some e -> fn_Key (te_FullName e) = k;
  ti_adv : adv_ok m disc a;
  ti_subs : forall k e x, m !! k = Some e -> x ∈ te_Downstream e -> is_Some (subs !! dr_ID x);
  ti_orphans : forall k e x, m !! k = Some e -> te_Upstream e = [] -> x ∈ te_Downstream e ->
    ending_sub subs pending (dr_ID x) }.

Definition tab_inv r : Prop := tab_ok (r_tracks r) (r_discovery r) (r_relayAddr r) (r_subs r) (r_notify r).

Context `{!AdvertiserLaws D}.

Lemma has_up_insert m k e k' : has_up (<[k := e]> m) k' =
  if decide (k' = k) then negb (len (te_Upstream e) =? 0) else has_up m k'.
Proof.
  unfold has_up. case_decide as E; [subst; by rewrite lookup_insert_eq|by rewrite lookup_insert_ne].
Qed.
Lemma has_up_delete m k k' : has_up (delete k m) k' = if decide (k' = k) then false else has_up m k'.
Proof.
  unfold has_up. case_decide as E; [subst; by rewrite lookup_delete_eq|by rewrite lookup_delete_ne].
Qed.
Lemma has_up_lookup m k e : m !! k = Some e -> has_up m k = negb (len (te_Upstream e) =? 0).
Proof. unfold has_up. by intros ->. Qed.

Lemma adv_same m m' disc a : adv_ok m disc a -> (forall k, has_up m' k = has_up m k) -> adv_ok m' disc a.
Proof. intros Ha Hm d Hd. destruct (Ha d Hd) as [H1 H2]. split; [done|]. intros k. by rewrite H2. Qed.

Lemma adv_pub m m' disc a info : adv_ok m disc a -> ti_RelayAddr info = a ->
  (forall k, has_up m' k = bool_decide (k = ti_Key info) || has_up m k) -> adv_ok m' (adv_publish info <$> disc) a.
Proof.
  intros Ha <- Hm d Hd. destruct disc as [d0|]; simplify_eq/=. destruct (Ha d0 eq_refl) as [H1 H2].
  split; [by apply adv_publish_ready|]. intros k. rewrite adv_publish_has, Hm, H2 by done. f_equal.
  apply bool_decide_ext. naive_solver.
Qed.

Lemma adv_unpub m m' disc a k0 : adv_ok m disc a ->
  (forall k, has_up m' k = negb (bool_decide (k = k0)) && has_up m k) -> adv_ok m' (adv_unpublish k0 a <$> disc) a.
Proof.
  intros Ha Hm d Hd. destruct disc as [d0|]; simplify_eq/=. destruct (Ha d0 eq_refl) as [H1 H2].
  split; [by apply adv_unpublish_ready|]. intros k. rewrite adv_unpublish_has, Hm, H2 by done. f_equal. f_equal.
  apply bool_decide_ext. naive_solver.
Qed.

Lemma ending_sub_mono subs p q id : ending_sub subs p id -> ending_sub subs (p ++ q) id.
Proof.
  intros [(c & rs & Hin)|Hs]; [left|by right]. exists c, rs. apply elem_of_app. by left.
Qed.

(** Replacing or adding one entry. *)
Lemma tab_put m m' disc disc' a subs p q k e :
  tab_ok m disc a subs p -> m' = <[k := e]> m -> fn_Key (te_FullName e) = k -> adv_ok m' disc' a ->
  (forall x, x ∈ te_Downstream e -> is_Some (subs !! dr_ID x)) ->
  (te_Upstream e = [] -> forall x, x ∈ te_Downstream e -> ending_sub subs (p ++ q) (dr_ID x)) ->
  tab_ok m' disc' a subs (p ++ q).
Proof.
  intros [H1 H2 H3 H4] -> Hk Ha Hs Ho. split; [|done|..].
  - intros k' e'. rewrite lookup_insert_Some. intros [[<- <-]|[_ ?]]; [done|by apply H1].
  - intros k' e' x. rewrite lookup_insert_Some. intros [[<- <-]|[_ ?]] ?; [by apply Hs|by eapply H3].
  - intros k' e' x. rewrite lookup_insert_Some. intros [[<- <-]|[_ ?]] ? ?; [by apply Ho|].
    apply ending_sub_mono. by eapply H4.
Qed.

Lemma tab_del m m' disc disc' a subs p q k :
  tab_ok m disc a subs p -> m' = delete k m -> adv_ok m' disc' a -> tab_ok m' disc' a subs (p ++ q).
Proof.
  intros [H1 H2 H3 H4] -> Ha. split; [|done|..].
  - intros k' e'. rewrite lookup_delete_Some. intros [_ ?]. by apply H1.
  - intros k' e' x. rewrite lookup_delete_Some. intros [_ ?]. by eapply H3.
  - intros k' e' x. rewrite lookup_delete_Some. intros [_ ?] ? ?. apply ending_sub_mono. by eapply H4.
Qed.

Lemma tab_put' m m' disc disc' a subs p k e :
  tab_ok m disc a subs p -> m' = <[k := e]> m -> fn_Key (te_FullName e) = k -> adv_ok m' disc' a ->
  (forall x, x ∈ te_Downstream e -> is_Some (subs !! dr_ID x)) ->
  (te_Upstream e = [] -> forall x, x ∈ te_Downstream e -> ending_sub subs p (dr_ID x)) ->
  tab_ok m' disc' a subs p.
Proof. intros. rewrite <- (app_nil_r p). eapply tab_put; eauto. intros. apply ending_sub_mono. auto. Qed.

Lemma tab_del' m m' disc disc' a subs p k :
  tab_ok m disc a subs p -> m' = delete k m -> adv_ok m' disc' a -> tab_ok m' disc' a subs p.
Proof. intros. rewrite <- (app_nil_r p). by eapply tab_del. Qed.

(** *** Each operation *)

Lemma len_zero_iff {A} (l : list A) : (len l =? 0) = true <-> l = [].
Proof. rewrite Z.eqb_eq. split; [apply len_zero|]. by intros ->. Qed.
Lemma len_zero_false {A} (l : list A) : (len l =? 0) = false <-> l <> [].
Proof. rewrite <- not_true_iff_false, len_zero_iff. done. Qed.

(** The entry an operation works on: found, or new and empty. *)
Lemma getOrCreate_ok name r : tab_inv r ->
  let e := getOrCreateLocked name r in
  fn_Key (te_FullName e) = fn_Key name /\
  (len (te_Upstream e) =? 0) = negb (has_up (r_tracks r) (fn_Key name)) /\
  (forall x, x ∈ te_Downstream e -> is_Some (r_subs r !! dr_ID x)) /\
  (te_Upstream e = [] -> forall x, x ∈ te_Downstream e -> ending_sub (r_subs r) (r_notify r) (dr_ID x)).
Proof.
  intros [H1 H2 H3 H4]. unfold getOrCreateLocked, has_up. destruct (r_tracks r !! fn_Key name) as [e|] eqn:E; simpl.
  - split_and!; [by apply H1|by rewrite negb_involutive|eauto|eauto].
  - split_and!; [done|done|intros x; by rewrite elem_of_nil|intros _ x; by rewrite elem_of_nil].
Qed.

Lemma create_inv name r : tab_inv r -> tab_inv (GetOrCreateNew name r).2.
Proof.
  intros Hr. unfold GetOrCreateNew. destruct (r_tracks r !! fn_Key name) as [e|] eqn:E; [done|]. simpl.
  destruct (getOrCreate_ok name r Hr) as (Hk & Hu & Hd & Ho). unfold put_entry, tab_inv; simpl. rewrite Hk.
  eapply tab_put'; eauto. eapply adv_same; [apply Hr|]. intros k. rewrite has_up_insert. case_decide; [|done]. subst.
  by rewrite Hu, negb_involutive.
Qed.

Lemma unused_inv name r : tab_inv r -> tab_inv (DeleteIfUnused name r).
Proof.
  intros Hr. unfold DeleteIfUnused. destruct (r_tracks r !! fn_Key name) as [e|] eqn:E; [|done].
  case_match; [done|]. destruct (len (te_Upstream e) =? 0) eqn:Hu; [|done]. destruct (len (te_Downstream e) =? 0); [|done].
  simpl. unfold tab_inv; simpl. eapply tab_del'; [done|done|]. eapply adv_same; [apply Hr|]. intros k.
  rewrite has_up_delete. case_decide; [|done]. subst. by rewrite (has_up_lookup _ _ _ E), Hu.
Qed.

Lemma add_up_inv name sub props r : tab_inv r -> tab_inv (AddUpstream name sub props r).2.
Proof.
  intros Hr. destruct (getOrCreate_ok name r Hr) as (Hk & Hu & Hd & _). unfold AddUpstream. simpl.
  set (e0 := getOrCreateLocked name r) in *. set (e2 := MkEntry _ _ _ _ (te_Upstream e0 ++ [sub]) _ _ _ _).
  set (e := match props with Some p => _ | None => _ end).
  assert (He : fn_Key (te_FullName e) = fn_Key name /\ te_Upstream e = te_Upstream e0 ++ [sub] /\
    te_Downstream e = te_Downstream e0).
  { unfold e. by repeat case_match. }
  destruct He as (He1 & He2 & He3).
  assert (Hne : (len (te_Upstream e) =? 0) = false).
  { apply len_zero_false. rewrite He2. by destruct (te_Upstream e0). }
  assert (Hemp : te_Upstream e <> []) by (by apply len_zero_false).
  unfold tab_inv, set_requests; destruct (len (te_Upstream e0) =? 0) eqn:Eb; simpl; rewrite He1.
  - eapply tab_put'; [exact Hr|done|done| |by rewrite He3|done].
    eapply adv_pub; [apply Hr|done|]. intros k. simpl. rewrite He1, has_up_insert, Hne.
    case_decide as Ek; [by rewrite bool_decide_true|by rewrite bool_decide_false].
  - eapply tab_put'; [exact Hr|done|done| |by rewrite He3|done].
    eapply adv_same; [apply Hr|]. intros k. rewrite has_up_insert, Hne. case_decide; [|done]. subst.
    by destruct (has_up _ _).
Qed.

(** Everything known of an entry in the table. *)
Lemma entry_ok r k e : tab_inv r -> r_tracks r !! k = Some e ->
  fn_Key (te_FullName e) = k /\ has_up (r_tracks r) k = negb (len (te_Upstream e) =? 0) /\
  (forall x, x ∈ te_Downstream e -> is_Some (r_subs r !! dr_ID x)) /\
  (te_Upstream e = [] -> forall x, x ∈ te_Downstream e -> ending_sub (r_subs r) (r_notify r) (dr_ID x)).
Proof. intros [H1 H2 H3 H4] E. split_and!; [by apply H1|by apply has_up_lookup|eauto|eauto]. Qed.

Lemma filter_sub {A} (f : A -> bool) (l : list A) x : x ∈ List.filter f l -> x ∈ l.
Proof. rewrite !list_elem_of_In, filter_In. by intros []. Qed.
Lemma filter_len {A} (f : A -> bool) (l : list A) : len (List.filter f l) <= len l.
Proof. induction l as [|x l IH]; simpl; [done|]. case_match; rewrite ?len_cons; lia. Qed.
Lemma filter_len_lt {A} (f : A -> bool) (l : list A) : (len (List.filter f l) <? len l) = false -> List.filter f l = l.
Proof.
  rewrite Z.ltb_ge. induction l as [|x l IH]; simpl; [done|]. pose proof (filter_len f l).
  case_match; rewrite ?len_cons; intros; [f_equal; apply IH; lia|lia].
Qed.

Lemma add_down_inv name sub r : is_Some (r_subs r !! dr_ID sub) -> tab_inv r ->
  tab_inv (AddDownstreamSnapshotLargest name sub r).2.
Proof.
  intros Hs Hr. unfold AddDownstreamSnapshotLargest. destruct (r_tracks r !! fn_Key name) as [e|] eqn:E; [|done].
  destruct (entry_ok _ _ _ Hr E) as (Hk & Hu & Hd & _). destruct (len (te_Upstream e) =? 0) eqn:Eu; [done|].
  unfold put_entry, tab_inv; simpl. rewrite Hk. eapply tab_put'; [exact Hr|done|done| |..].
  - eapply adv_same; [apply Hr|]. intros k. rewrite has_up_insert; simpl. case_decide; [|done]. subst. by rewrite Hu, Eu.
  - intros x. simpl. rewrite elem_of_app, list_elem_of_singleton. intros [?| ->]; [by apply Hd|done].
  - simpl. intros Hn. by apply len_zero_false in Eu.
Qed.

(** An entry that lost its last upstream: it leaves the table or stays for its
    subscriptions, and is no longer advertised. *)
Lemma settle_unpublish r k e (empty : bool) (q : list (Z * Z * bytes)) : tab_inv r -> is_Some (r_tracks r !! k) ->
  fn_Key (te_FullName e) = k ->
  te_Upstream e = [] -> (forall x, x ∈ te_Downstream e -> is_Some (r_subs r !! dr_ID x)) ->
  (empty = false -> forall x, x ∈ te_Downstream e -> ending_sub (r_subs r) (r_notify r ++ q) (dr_ID x)) ->
  tab_ok (if empty then delete k (r_tracks r) else <[k := e]> (r_tracks r))
    (adv_unpublish k (r_relayAddr r) <$> r_discovery r) (r_relayAddr r) (r_subs r) (r_notify r ++ q).
Proof.
  intros Hr Hk He Hu Hd Ho.
  assert (Ha : adv_ok (if empty then delete k (r_tracks r) else <[k := e]> (r_tracks r))
                 (adv_unpublish k (r_relayAddr r) <$> r_discovery r) (r_relayAddr r)).
  { eapply adv_unpub; [apply Hr|]. intros k'. destruct empty; rewrite ?has_up_insert, ?has_up_delete.
    - case_decide; [by rewrite bool_decide_true|by rewrite bool_decide_false].
    - rewrite Hu. case_decide; [by rewrite bool_decide_true|by rewrite bool_decide_false]. }
  destruct empty; [by eapply tab_del|]. eapply tab_put; eauto.
Qed.

Lemma remove_up_inv name id r : tab_inv r -> tab_inv (RemoveUpstream name id r).2.
Proof.
  intros Hr. unfold RemoveUpstream. destruct (r_tracks r !! fn_Key name) as [e|] eqn:E; [|done].
  destruct (entry_ok _ _ _ Hr E) as (Hk & Hu & Hd & Ho). set (us := List.filter _ _).
  destruct (len us <? len (te_Upstream e)) eqn:El; simpl.
  2: { apply filter_len_lt in El. fold us in El. unfold put_entry, tab_inv; simpl. rewrite Hk.
       eapply tab_put'; [exact Hr|done|done| |done|by rewrite El].
       eapply adv_same; [apply Hr|]. intros k. rewrite has_up_insert; simpl. rewrite El. case_decide; [|done]. by subst. }
  destruct (len us =? 0) eqn:Eu; simpl.
  - apply len_zero_iff in Eu. unfold settle_entry, notify, tab_inv.
    set (q := (fun i => (i, _, upstream_gone)) <$> (dr_ID <$> te_Downstream e)).
    pose proof (settle_unpublish r (fn_Key name) (with_Upstream us e) (len (te_Downstream e) =? 0) q Hr
      ltac:(by eexists) Hk Eu Hd) as Hgoal.
    destruct (len (te_Downstream e) =? 0) eqn:Ed; simpl in *; unfold unpublishTrackFromDiscovery, put_entry in *; simpl in *;
      rewrite !Hk; apply Hgoal; [done|].
    intros _ x Hx. left. eexists _, _. apply elem_of_app. right. apply list_elem_of_fmap. exists (dr_ID x).
    split; [done|]. by apply list_elem_of_fmap_2.
  - unfold settle_entry, put_entry, tab_inv; simpl. rewrite Hk. eapply tab_put'; [exact Hr|done|done| |done|].
    + eapply adv_same; [apply Hr|]. intros k. rewrite has_up_insert; simpl. rewrite Eu. case_decide; [|done]. subst.
      rewrite Hu. destruct (len (te_Upstream e) =? 0) eqn:E0; [|done]. apply len_zero_iff in E0.
      unfold us in Eu. by rewrite E0 in Eu.
    + simpl. intros Hn. by apply len_zero_false in Eu.
Qed.

Lemma filter_nil_sub {A} (f : A -> bool) (l : list A) : List.filter f l <> [] -> l <> [].
Proof. by intros H ->. Qed.

Lemma remove_down_inv name id r : tab_inv r -> tab_inv (RemoveDownstream name id r).2.
Proof.
  intros Hr. unfold RemoveDownstream. destruct (r_tracks r !! fn_Key name) as [e|] eqn:E; [|done].
  destruct (entry_ok _ _ _ Hr E) as (Hk & Hu & Hd & Ho). set (ds := List.filter _ _).
  assert (Hds : forall x, x ∈ ds -> x ∈ te_Downstream e) by (intros x; apply filter_sub).
  destruct (len ds <? len (te_Downstream e)); simpl.
  2: { unfold put_entry, tab_inv; simpl. rewrite Hk. eapply tab_put'; [exact Hr|done|done| |by eauto|by eauto].
       eapply adv_same; [apply Hr|]. intros k. rewrite has_up_insert; simpl. case_decide; [|done]. by subst. }
  destruct (len ds =? 0) eqn:Ed; simpl.
  - apply len_zero_iff in Ed. set (us := List.filter _ (te_Upstream e)). unfold settle_entry, tab_inv.
    destruct (len us =? 0) eqn:Eu; simpl.
    + unfold unpublishTrackFromDiscovery; simpl. destruct (len (te_Upstream e) =? 0) eqn:E0; simpl.
      * rewrite Hk. eapply tab_del'; [exact Hr|done|]. eapply adv_same; [apply Hr|]. intros k. rewrite has_up_delete.
        case_decide; [|done]. by subst.
      * apply len_zero_iff in Eu. rewrite Hk. rewrite <- (app_nil_r (r_notify r)).
        apply (settle_unpublish r (fn_Key name) (with_Upstream us (with_Downstream ds (te_gen e) e)) true []);
          simpl; [done|by rewrite E|done|done|by eauto|done].
    + rewrite andb_false_r. unfold put_entry; simpl. rewrite Hk. eapply tab_put'; [exact Hr|done|done| |by eauto|].
      * eapply adv_same; [apply Hr|]. intros k. rewrite has_up_insert; simpl. rewrite Eu. case_decide; [|done]. subst.
        rewrite Hu. destruct (len (te_Upstream e) =? 0) eqn:E0; [|done]. apply len_zero_iff in E0.
        unfold us in Eu. by rewrite E0 in Eu.
      * simpl. intros Hn. by apply len_zero_false in Eu.
  - unfold settle_entry, tab_inv. destruct (len (te_Upstream e) =? 0) eqn:E0; simpl; unfold put_entry; simpl; rewrite Hk.
    + eapply tab_put'; [exact Hr|done|done| |by eauto|by eauto]. eapply adv_same; [apply Hr|]. intros k.
      rewrite has_up_insert; simpl. case_decide; [|done]. subst. by rewrite Hu, E0.
    + eapply tab_put'; [exact Hr|done|done| |by eauto|by eauto]. eapply adv_same; [apply Hr|]. intros k.
      rewrite has_up_insert; simpl. case_decide; [|done]. subst. by rewrite Hu, E0.
Qed.

Lemma release_inv name id r : tab_inv r -> tab_inv (ReleaseIfUnsubscribed name id r).2.
Proof.
  intros Hr. unfold ReleaseIfUnsubscribed. destruct (r_tracks r !! fn_Key name) as [e|] eqn:E; [|done].
  destruct (entry_ok _ _ _ Hr E) as (Hk & Hu & Hd & Ho). set (us := if len (te_Downstream e) =? 0 then _ else _).
  assert (Hus : te_Upstream e = [] -> us = []) by (intros E0; unfold us; rewrite E0; by case_match).
  destruct ((len us <? len (te_Upstream e)) && (len us =? 0)) eqn:Er; simpl; unfold tab_inv; simpl.
  - apply andb_true_iff in Er as [_ Er]. apply len_zero_iff in Er. unfold unpublishTrackFromDiscovery; simpl. rewrite Hk.
    rewrite <- (app_nil_r (r_notify r)).
    by apply (settle_unpublish r (fn_Key name) (with_Upstream us e) true []).
  - rewrite Hk. eapply tab_put'; [exact Hr|done|done| |done|].
    + eapply adv_same; [apply Hr|]. intros k. rewrite has_up_insert; simpl. case_decide; [|done]. subst. rewrite Hu. f_equal.
      destruct (len us =? 0) eqn:E1, (len (te_Upstream e) =? 0) eqn:E2; try done.
      * rewrite andb_true_r in Er. exfalso. apply len_zero_iff in E1. apply len_zero_false in E2. rewrite E1 in Er.
        apply Z.ltb_ge in Er. rewrite len_nil in Er. apply E2. apply len_zero. pose proof (len_nonneg (te_Upstream e)). lia.
      * apply len_zero_iff in E2. apply len_zero_false in E1. by rewrite Hus in E1.
    + simpl. intros Hn x Hx. destruct (len (te_Downstream e) =? 0) eqn:E3.
      * apply len_zero_iff in E3. rewrite E3 in Hx. by apply elem_of_nil in Hx.
      * apply Ho; [|done]. unfold us in Hn. done.
Qed.

(** *** A session goes away *)

Lemma purge_entry_ok sess e :
  let p := purge_entry sess e in
  te_FullName (pg_entry p) = te_FullName e /\
  (forall x, x ∈ te_Downstream (pg_entry p) -> x ∈ te_Downstream e) /\
  (pg_orphaned p = true -> te_Upstream (pg_entry p) = []) /\
  (pg_orphaned p = false -> (len (te_Upstream (pg_entry p)) =? 0) = (len (te_Upstream e) =? 0)) /\
  (te_Upstream (pg_entry p) = [] -> forall x, x ∈ te_Downstream (pg_entry p) ->
     te_Upstream e = [] \/ dr_ID x ∈ pg_notify p).
Proof.
  unfold purge_entry. set (us := List.filter _ (te_Upstream e)). set (ds := List.filter _ (te_Downstream e)).
  assert (Hds : forall x, x ∈ ds -> x ∈ te_Downstream e) by (intros x; apply filter_sub).
  assert (Hus : te_Upstream e = [] -> us = []) by (intros E0; unfold us; by rewrite E0).
  destruct (len (te_Upstream e) =? 0) eqn:E0; simpl.
  { apply len_zero_iff in E0. rewrite (Hus E0) in *. simpl. rewrite andb_false_r. simpl.
    split_and!; try done. by left. }
  destruct (len us =? 0) eqn:E1; simpl.
  { rewrite andb_false_r. simpl. apply len_zero_iff in E1. split_and!; try done.
    intros _ x Hx. right. by apply list_elem_of_fmap_2. }
  destruct (_ && (len ds =? 0)) eqn:E2; simpl.
  - apply andb_true_iff in E2 as [_ E2]. apply len_zero_iff in E2. rewrite E2.
    set (us2 := List.filter _ us). split_and!; [done|intros x; by rewrite elem_of_nil| | |intros _ x; by rewrite elem_of_nil].
    + rewrite andb_true_iff, len_zero_iff. by intros [_ ?].
    + rewrite andb_false_iff. intros [Hst|Hst]; [|done].
      rewrite negb_false_iff, len_zero_iff in Hst. apply len_zero_false. intros Hu2. apply len_zero_false in E1.
      apply E1. clear -Hst Hu2. unfold us2 in *. clear us2. induction us as [|u us IH]; [done|]. simpl in *.
      by destruct (OnDemand (ur_sub u)).
  - split_and!; try done. intros Hn. by apply len_zero_false in E1.
Qed.

Lemma purge_step_inv sess r k : tab_inv r -> tab_inv (purge_step sess r k).
Proof.
  intros Hr. unfold purge_step. destruct (r_tracks r !! k) as [e|] eqn:E; [|done].
  destruct (entry_ok _ _ _ Hr E) as (Hk & Hu & Hd & Ho). destruct (purge_entry_ok sess e) as (P1 & P2 & P3 & P4 & P5).
  set (p := purge_entry sess e) in *. set (e' := pg_entry p) in *.
  set (q := (fun i => (i, PublishDoneTrackEnded, session_gone)) <$> pg_notify p).
  assert (Hd' : forall x, x ∈ te_Downstream e' -> is_Some (r_subs r !! dr_ID x)) by eauto.
  assert (Ho' : te_Upstream e' = [] -> forall x, x ∈ te_Downstream e' -> ending_sub (r_subs r) (r_notify r ++ q) (dr_ID x)).
  { intros Hn x Hx. destruct (P5 Hn x Hx) as [He|Hin].
    - apply ending_sub_mono. eauto.
    - left. eexists _, _. apply elem_of_app. right. apply list_elem_of_fmap. by exists (dr_ID x). }
  assert (Hk' : fn_Key (te_FullName e') = k) by congruence.
  set (empty := (len (te_Upstream e') =? 0) && (len (te_Downstream e') =? 0)).
  unfold notify, tab_inv. destruct (pg_orphaned p) eqn:Eo; simpl.
  - unfold unpublishTrackFromDiscovery; simpl. rewrite Hk'.
    pose proof (settle_unpublish r k e' empty q Hr ltac:(by eexists) Hk' (P3 eq_refl) Hd') as Hgoal.
    destruct empty; apply Hgoal; [done|]. intros _. by apply Ho', P3.
  - assert (Ha : adv_ok (if empty then delete k (r_tracks r) else <[k := e']> (r_tracks r)) (r_discovery r) (r_relayAddr r)).
    { eapply adv_same; [apply Hr|]. intros k0. specialize (P4 eq_refl). unfold empty. destruct (_ && _) eqn:Ee.
      - apply andb_true_iff in Ee as [Ee _]. rewrite has_up_delete. case_decide; [|done]. subst. rewrite Hu, <- P4.
        by fold e'; rewrite Ee.
      - rewrite has_up_insert. case_decide; [|done]. subst. by rewrite Hu, <- P4. }
    destruct empty; [by eapply tab_del|by eapply tab_put].
Qed.

Lemma session_inv sess it : forall r, tab_inv r -> tab_inv (RemoveSession sess it r).
Proof.
  unfold RemoveSession. induction it as [|k it IH]; simpl; [done|]. intros r Hr. by apply IH, purge_step_inv.
Qed.

(** *** Steps on subscriptions *)

Lemma step_keeps_terminated o s s' : sub_step o s = Some s' -> d_state (sh_d s) = SubTerminated ->
  d_state (sh_d s') = SubTerminated.
Proof.
  destruct s as [d tasks wr log]. destruct d as [[]]. destruct o as [[]| | | | | | | | | | | |]; sub_unfold; simpl; intros Hs Ht; subst;
    repeat (case_match; simplify_eq/=); simplify_eq/=; done.
Qed.

Lemma terminate_terminates code reason s :
  d_state (sh_d (sendPublishDone (TerminateWithPublishDone code reason (sh_d s)) s)) = SubTerminated.
Proof.
  destruct s as [d tasks wr log]. destruct d as [[st id rid al fs]]. destruct st; sub_unfold; simpl; [done|].
  by destruct (_ || _).
Qed.

(** A subscription changes and pending notifications are dropped, without losing an
    end that was due. *)
Lemma tab_sub r id s p : tab_inv r ->
  (forall s0, r_subs r !! id = Some s0 -> d_state (sh_d s0) = SubTerminated -> d_state (sh_d s) = SubTerminated) ->
  (forall i, (exists c rs, (i, c, rs) ∈ r_notify r) ->
     (exists c rs, (i, c, rs) ∈ p) \/ i = id /\ d_state (sh_d s) = SubTerminated) ->
  tab_ok (r_tracks r) (r_discovery r) (r_relayAddr r) (<[id := s]> (r_subs r)) p.
Proof.
  intros [H1 H2 H3 H4] Hs Hp. split; [done|done|..].
  - intros k e x E Hx. rewrite lookup_insert_is_Some. destruct (decide (id = dr_ID x)); [by left|right]. split; [done|]. eauto.
  - intros k e x E Hu Hx. destruct (H4 k e x E Hu Hx) as [Hn|(s0 & E0 & Ht)].
    + destruct (Hp _ Hn) as [Hn'|[Heq Ht]]; [by left|]. right. exists s. subst. by rewrite lookup_insert_eq.
    + right. destruct (decide (id = dr_ID x)) as [->|Hne].
      * exists s. rewrite lookup_insert_eq. eauto.
      * exists s0. by rewrite lookup_insert_ne.
Qed.

Lemma notify_inv i r : tab_inv r -> tab_inv (run_notify i r).
Proof.
  intros Hr. unfold run_notify. destruct (r_notify r !! i) as [[[id code] reason]|] eqn:E; [|done].
  assert (Hin : forall j c rs, (j, c, rs) ∈ r_notify r -> (j, c, rs) ∈ delete i (r_notify r) \/ j = id).
  { intros j c rs Hj. rewrite (delete_Permutation _ _ _ E) in Hj. apply elem_of_cons in Hj as [[= -> -> ->]|]; auto. }
  cbn [r_subs set_notify]. destruct (r_subs r !! id) as [s|] eqn:Es.
  - unfold tab_inv; simpl. apply tab_sub; [done|..].
    + intros s0 _ _. apply terminate_terminates.
    + intros j (c & rs & Hj). destruct (Hin _ _ _ Hj) as [? | ->]; [left; eauto|right]. split; [done|].
      apply terminate_terminates.
  - destruct Hr as [H1 H2 H3 H4]. unfold tab_inv; simpl. split; try done. intros k e x E1 Hu Hx.
    destruct (H4 k e x E1 Hu Hx) as [(c & rs & Hn)|?]; [|by right]. destruct (Hin _ _ _ Hn) as [?|Heq]; [left; eauto|].
    destruct (H3 k e x E1 Hx) as [s Hs]. by rewrite Heq, Es in Hs.
Qed.

Lemma same_tables r r' : tab_inv r -> r_tracks r' = r_tracks r -> r_discovery r' = r_discovery r ->
  r_relayAddr r' = r_relayAddr r -> r_subs r' = r_subs r -> r_notify r' = r_notify r -> tab_inv r'.
Proof. unfold tab_inv. by intros H -> -> -> -> ->. Qed.

Lemma touch_inv k mark c r : tab_inv r -> tab_inv (touch_entry k mark c r).
Proof.
  intros Hr. unfold touch_entry. destruct (r_tracks r !! k) as [e|] eqn:E; [|done].
  destruct (entry_ok _ _ _ Hr E) as (Hk & Hu & Hd & Ho). unfold tab_inv; simpl.
  eapply tab_put'; [exact Hr|done|done| |done|done]. eapply adv_same; [apply Hr|]. intros k'. rewrite has_up_insert; simpl.
  case_decide; [|done]. by subst.
Qed.

Lemma on_upstream_inv id o r : tab_inv r -> tab_inv (on_upstream id o r).
Proof.
  intros [H1 H2 H3 H4]. unfold on_upstream, up_entry, tab_inv; simpl. split.
  - intros k e'. rewrite lookup_fmap_Some. intros (e & <- & E). simpl. eauto.
  - eapply adv_same; [done|]. intros k. unfold has_up. rewrite lookup_fmap. destruct (_ !! k); [|done]. simpl.
    unfold len. by rewrite length_fmap.
  - intros k e' x. rewrite lookup_fmap_Some. intros (e & <- & E). simpl. eauto.
  - intros k e' x. rewrite lookup_fmap_Some. intros (e & <- & E). simpl. intros Hn%fmap_nil_inv. eauto.
Qed.

Lemma reg_step_inv r r' : reg_step r r' -> tab_inv r -> tab_inv r'.
Proof.
  destruct 1; intros Hr; auto using create_inv, unused_inv, add_up_inv, add_down_inv, remove_up_inv, remove_down_inv,
    release_inv, session_inv, notify_inv, touch_inv, on_upstream_inv.
  - unfold tab_inv; simpl. apply tab_sub; [done|intros ? ?; congruence|by left].
  - unfold tab_inv; simpl. apply tab_sub; [done| |by left]. intros s0 E. simplify_eq. by eapply step_keeps_terminated.
  - unfold ClaimUpstream. by repeat case_match.
Qed.

(** No operation changes the relay's address or drops its discovery store. *)
Definition same_store r r' : Prop :=
  r_relayAddr r' = r_relayAddr r /\ (is_Some (r_discovery r') <-> is_Some (r_discovery r)).

Lemma purge_step_store sess it : forall r, same_store r (RemoveSession sess it r).
Proof.
  unfold RemoveSession. induction it as [|k it IH]; simpl; [done|]. intros r. unfold same_store.
  destruct (IH (purge_step sess r k)) as [-> ->]. unfold purge_step. destruct (_ !! k); [|done]. unfold notify, unpublishTrackFromDiscovery.
  case_match; split; simpl; rewrite ?fmap_is_Some; done.
Qed.

Lemma reg_step_store r r' : reg_step r r' -> same_store r r'.
Proof.
  destruct 1; try done; try apply purge_step_store;
    unfold same_store, GetOrCreateNew, DeleteIfUnused, AddUpstream, AddDownstreamSnapshotLargest, RemoveUpstream,
      RemoveDownstream, ReleaseIfUnsubscribed, run_notify, touch_entry, ClaimUpstream, AwaitUpstream, settle_entry, notify,
      unpublishTrackFromDiscovery, publishTrackToDiscovery, waitLocked in *;
    repeat case_match; simplify_eq/=; rewrite ?fmap_is_Some; done.
Qed.

Lemma reachable_inv maxSize maxDuration ttl d addr r :
  (forall s, d = Some s -> adv_ready s addr /\ forall k, adv_has s k addr = false) ->
  rtc reg_step (NewTrackRegistry maxSize maxDuration ttl d addr) r ->
  tab_inv r /\ same_store (NewTrackRegistry maxSize maxDuration ttl d addr) r.
Proof.
  intros Hd. revert r. apply rtc_ind_r.
  - split; [|done]. split; simpl; try (intros *; by rewrite lookup_empty). intros s ->. destruct (Hd s eq_refl) as [H1 H2].
    split; [done|]. intros k. rewrite H2. unfold has_up. by rewrite lookup_empty.
  - intros r1 r2 _ Hstep [IH [H1 H2]]. split; [by eapply reg_step_inv|].
    destruct (reg_step_store _ _ Hstep) as [H3 H4]. split; [congruence|]. by rewrite H4.
Qed.

(** C33: discovery is exact.  Starting from a store that advertises nothing under
    the relay's address, after any sequence of registry operations the store
    advertises a track under that address iff the table has an upstream for it. *)
Theorem track_advertised maxSize maxDuration ttl d addr r k :
  adv_ready d addr -> (forall k', adv_has d k' addr = false) ->
  rtc reg_step (NewTrackRegistry maxSize maxDuration ttl (Some d) addr) r ->
  exists d', r_discovery r = Some d' /\
    (adv_has d' k addr = true <-> exists e, r_tracks r !! k = Some e /\ te_Upstream e <> []).
Proof.
  intros Hr He Hrun. destruct (reachable_inv _ _ _ (Some d) _ _ ltac:(by intros s [= <-]) Hrun) as [Hi [H1 H2]].
  simpl in *. destruct H2 as [_ [d' Hd']]; [by eexists|]. exists d'. split; [done|].
  destruct (ti_adv _ _ _ _ _ Hi d' Hd') as [_ Hadv]. rewrite H1 in Hadv. rewrite Hadv. unfold has_up.
  destruct (r_tracks r !! k) as [e|]; [|split; [done|by intros (? & ? & _)]].
  rewrite negb_true_iff, len_zero_false. naive_solver.
Qed.

(** C32: no subscriber is left waiting on a dead track.  In every reachable
    registry, a subscription listed under a track that has no upstream is
    terminated, or a notification that will terminate it is pending; once no
    notification is pending, forwarding to it is refused for good. *)
Theorem no_orphan_subscriber maxSize maxDuration ttl (d : option D) addr r k e x :
  (forall s, d = Some s -> adv_ready s addr /\ forall k', adv_has s k' addr = false) ->
  rtc reg_step (NewTrackRegistry maxSize maxDuration ttl d addr) r ->
  r_tracks r !! k = Some e -> te_Upstream e = [] -> x ∈ te_Downstream e ->
  (exists code reason, (dr_ID x, code, reason) ∈ r_notify r) \/
  (exists s, r_subs r !! dr_ID x = Some s /\ d_state (sh_d s) = SubTerminated /\
     forall group object sub prio props, ForwardDecision group object sub prio props (sh_d s) = Ok SkipEnded).
Proof.
  intros Hd Hrun Ek Hu Hx. destruct (reachable_inv _ _ _ _ _ _ Hd Hrun) as [Hi _].
  destruct (ti_orphans _ _ _ _ _ Hi _ _ _ Ek Hu Hx) as [?|(s & Hs & Ht)]; [by left|]. right. exists s.
  split_and!; [done|done|]. intros. unfold ForwardDecision. by rewrite bool_decide_true.
Qed.
End Registry.

(** A publisher comes, a subscriber joins, the publisher's session goes. *)
Definition sample_name : FullTrackName := MkName [[x61]] [x62].
Definition sample_disc : MemoryStore := NewMemoryStore 0.
Definition sample_up : UpRef := MkUpRef (NewUpstreamSub 1 7 0) 3.
Definition sample_reg0 : TrackRegistry MemoryStore := NewTrackRegistry 0 0 None (Some sample_disc) [x72].
Definition sample_reg1 : TrackRegistry MemoryStore :=
  let r := (AddUpstream sample_name sample_up None sample_reg0).2 in
  let r := set_subs r (<[2 := sub_init false 2 9]> (r_subs r)) in
  (AddDownstreamSnapshotLargest sample_name (MkDownRef 2 4) r).2.
Definition sample_reg2 : TrackRegistry MemoryStore := RemoveSession 3 [fn_Key sample_name] sample_reg1.

Lemma sample_run1 : rtc reg_step sample_reg0 sample_reg1.
Proof.
  eapply rtc_l; [apply (rs_add_up _ sample_name sample_up None)|].
  eapply rtc_l; [apply (rs_new_sub _ 2 false 9); vm_compute; reflexivity|].
  eapply rtc_once. apply (rs_add_down _ sample_name (MkDownRef 2 4)). eexists. vm_compute. reflexivity.
Qed.
Lemma sample_run2 : rtc reg_step sample_reg0 sample_reg2.
Proof.
  eapply rtc_r; [apply sample_run1|]. apply rs_session. vm_compute. reflexivity.
Qed.
Lemma sample_fresh k : adv_has sample_disc k [x72] = false.
Proof. cbn. by rewrite lookup_empty. Qed.

Lemma track_advertised_witness :
  let k := fn_Key sample_name in
  (exists d, r_discovery sample_reg1 = Some d /\ adv_has d k [x72] = true) /\
  (exists d, r_discovery sample_reg2 = Some d /\ (adv_has d k [x72] = true <->
     exists e, r_tracks sample_reg2 !! k = Some e /\ te_Upstream e <> [])).
Proof.
  assert (Hr : adv_ready sample_disc [x72]) by (split; [reflexivity|set_solver]).
  split.
  - destruct (track_advertised 0 0 None sample_disc [x72] sample_reg1 (fn_Key sample_name) Hr sample_fresh sample_run1)
      as (d & Hd & Hk).
    exists d. split; [exact Hd|]. apply Hk. eexists. split; [vm_compute; reflexivity|discriminate].
  - apply (track_advertised 0 0 None sample_disc [x72] sample_reg2 (fn_Key sample_name) Hr sample_fresh sample_run2).
Defined.

Lemma no_orphan_subscriber_witness :
  exists e, r_tracks sample_reg2 !! fn_Key sample_name = Some e /\ te_Upstream e = [] /\
    (exists code reason, (2, code, reason) ∈ r_notify sample_reg2) /\
    ((exists code reason, (2, code, reason) ∈ r_notify sample_reg2) \/
     exists s, r_subs sample_reg2 !! 2 = Some s /\ d_state (sh_d s) = SubTerminated).
Proof.
  eexists. split; [vm_compute; reflexivity|]. split; [reflexivity|]. split.
  - exists PublishDoneTrackEnded, session_gone. vm_compute. left.
  - destruct (no_orphan_subscriber 0 0 None (Some sample_disc) [x72] sample_reg2 (fn_Key sample_name) _ (MkDownRef 2 4)
      ltac:(intros s [= <-]; split; [split; [reflexivity|set_solver]|exact sample_fresh]) sample_run2
      ltac:(vm_compute; reflexivity) ltac:(reflexivity) ltac:(left)) as [H|(s & H1 & H2 & _)];
      [by left|right]. exists s. split; [exact H1|exact H2].
Defined.

(** ** Decoded properties *)

(** Every field is what the first pair of its type says, the mutable block before
    the Immutable Properties. *)
Definition decoded_of (pairs : list KVPair) : decodedProperties :=
  MkDecoded None (match propertyValue pairs PropertyDynamicGroups with Some v => v =? 1 | None => false end)
    (MkDT (match propertyValue pairs PropertyObjectDeliveryTimeout with Some v => MillisecondTimeout v | None => 0 end)
       (match propertyValue pairs PropertySubgroupDeliveryTimeout with Some v => MillisecondTimeout v | None => 0 end))
    (match propertyValue pairs PropertyDefaultPublisherGroupOrder with
     | Some v => if v =? GroupOrderDescending then GroupOrderDescending else GroupOrderAscending
     | None => 0
     end).

Lemma decode_fold pairs : fold_left decode_pair (reverse pairs) decoded0 = decoded_of pairs.
Proof.
  induction pairs as [|kv pairs IH]; [done|]. rewrite reverse_cons, fold_left_app, IH. simpl.
  destruct kv as [t v b]. unfold decode_pair, decoded_of; simpl.
  destruct (Z.eqb_spec t PropertyDynamicGroups) as [->|?]; [done|].
  destruct (Z.eqb_spec t PropertyObjectDeliveryTimeout) as [->|?]; [done|].
  destruct (Z.eqb_spec t PropertySubgroupDeliveryTimeout) as [->|?]; [done|].
  by destruct (Z.eqb_spec t PropertyDefaultPublisherGroupOrder) as [->|?].
Qed.

(** The cached Track Properties.  The one backward pass over a block gives the
    same values as looking each property up in the block with its Immutable
    Properties expanded, the first occurrence winning; what cannot be parsed
    reports its error, no timeout and the ascending order. *)
Theorem decoded_properties_exact raw :
  match (pairs ← ParseTrackProperties raw; ExpandImmutable pairs) with
  | Ok pairs => decodeTrackProperties raw = decoded_of pairs
  | Err e => DynamicGroups (decodeTrackProperties raw) = Err e /\
      TrackDeliveryTimeouts (decodeTrackProperties raw) = MkDT 0 0 /\
      DefaultGroupOrder (decodeTrackProperties raw) = GroupOrderAscending
  end.
Proof.
  unfold decodeTrackProperties. destruct (pairs ← ParseTrackProperties raw; ExpandImmutable pairs) as [pairs|e].
  - apply decode_fold.
  - done.
Qed.
