(* ===== verification/Fanout.v ===== *)
(** * Fanout: one subscriber's writer of a Subgroup

    The [subgroupWriter] of [relay/handler_fanout.go]: contributors offer it the
    Objects of a Subgroup ([admit], [skip], [publish], [close]), its goroutine drains
    a bounded queue onto outbound subgroup streams ([run], [finishStream]), opening a
    fresh stream where the next Object may not follow on the current one; with the
    queue pool of [subgroup_inbox.go].

    Each operation under [dropsMu] or by the goroutine between two queue reads is a
    step; metrics and logs are left out.  Time and what the transport answers are
    arguments.  Calls on the subscription are recorded in [r_calls], as the
    operations of [Subs]. *)

From stdpp Require Import gmap.
From S2P Require Import Prelude Codes Varint Wire KV Filter Params Properties RangeFilter Messages Objects Streams.
From S2P Require Import Tokens Session Subs.

(** ** Data *)

Record fwdObject : Type := MkFwd {
  fw_obj : SubgroupObject; fw_absID : Z; fw_enqueuedAt : Z; fw_headerAt : Z; fw_maxCacheAge : Z;
  fw_first : bool; fw_follows : bool; fw_pubTimeouts : option DeliveryTimeouts }.

(** An inbound stream is named by a number; [None] is the nil stream. *)
Record inboundPos : Type := MkPos { ip_src : option Z; ip_seq : Z }.
Definition no_pos : inboundPos := MkPos None 0.

Inductive ResetCause : Type :=
| ResetCauseGap | ResetCauseDeliveryTimeout | ResetCauseTooFarBehind | ResetCauseExcessiveLoad
| ResetCauseInboundReset | ResetCauseWriteError | ResetCauseProperties.

(** What a writer is opened with. *)
Record WriterConfig : Type := MkCfg {
  c_sub : Z; c_seq : Z; c_hdr : SubgroupHeader; c_cap : Z; c_maxDrops : Z; c_maxLag : Z;
  c_subTimeouts : DeliveryTimeouts; c_deadlines : bool; c_tracked : bool }.

(** The fields guarded by [dropsMu]; [g_once] is whether [closeOnce] has run, which
    closes the queue. *)
Record Gate : Type := MkGate {
  g_drops : Z; g_closed : bool; g_once : bool; g_inboundReset : bool; g_inboundResetCode : Z;
  g_incomplete : bool; g_incompleteCode : Z }.
Definition gate0 : Gate := MkGate 0 false false false 0 false 0.

(** The fields only [admit] and [publish] touch. *)
Record Admission : Type := MkAdm { a_lastAdmitted : Z; a_hasAdmitted : bool; a_lastPos : inboundPos }.
Definition adm0 : Admission := MkAdm 0 false no_pos.

(** The fields and variables of [run].  [r_streams] are the streams it is done with;
    [r_ctxDone] is whether [cancelIO] was called. *)
Record RunState : Type := MkRun {
  r_prevID : Z; r_hasWritten : bool; r_writeFailed : bool; r_dropped : bool; r_withProps : bool;
  r_pubTimeouts : DeliveryTimeouts; r_out : option OutgoingSubgroupStream; r_prio : option StreamPriority;
  r_streams : list OutgoingSubgroupStream; r_calls : list sub_op; r_ctxDone : bool; r_done : bool }.

Record subgroupWriter : Type := MkWriter {
  w_cfg : WriterConfig; w_gate : Gate; w_adm : Admission; w_inbox : list fwdObject; w_run : RunState }.

Definition new_writer (c : WriterConfig) (pub : DeliveryTimeouts) : subgroupWriter :=
  MkWriter c gate0 adm0 []
    (MkRun 0 false false false (sh_Properties (c_hdr c)) pub None None [] [] false false).

Definition set_gate (w : subgroupWriter) (g : Gate) : subgroupWriter :=
  MkWriter (w_cfg w) g (w_adm w) (w_inbox w) (w_run w).
Definition set_adm (w : subgroupWriter) (a : Admission) : subgroupWriter :=
  MkWriter (w_cfg w) (w_gate w) a (w_inbox w) (w_run w).
Definition set_run (w : subgroupWriter) (r : RunState) : subgroupWriter :=
  MkWriter (w_cfg w) (w_gate w) (w_adm w) (w_inbox w) r.

(** ** The contributors' side *)

Definition markIncompleteLocked (code : Z) (g : Gate) : Gate :=
  if negb (g_incomplete g) || (code =? StreamResetExcessiveLoad)
  then MkGate (g_drops g) (g_closed g) (g_once g) (g_inboundReset g) (g_inboundResetCode g) true code
  else g.
Definition markIncomplete (code : Z) (w : subgroupWriter) : subgroupWriter :=
  set_gate w (markIncompleteLocked code (w_gate w)).

Definition resetCode (w : subgroupWriter) : Z :=
  if g_incomplete (w_gate w) then g_incompleteCode (w_gate w) else StreamResetCancelled.

Definition gate_closed (g : Gate) : Gate :=
  MkGate (g_drops g) true (g_once g) (g_inboundReset g) (g_inboundResetCode g) (g_incomplete g) (g_incompleteCode g).

Definition w_close (reset : bool) (code : Z) (w : subgroupWriter) : subgroupWriter :=
  let g := w_gate w in
  if g_once g then w
  else set_gate w (MkGate (g_drops g) true true reset code (g_incomplete g) (g_incompleteCode g)).

Definition skip (v : ForwardVerdict) (objectID : Z) (w : subgroupWriter) : subgroupWriter :=
  match v with
  | SkipObject | SkipPaused => markIncomplete StreamResetCancelled w
  | SkipGroup | SkipEnded => w_close true StreamResetCancelled w
  | SkipBeforeStart =>
      if a_hasAdmitted (w_adm w) && (objectID >? a_lastAdmitted (w_adm w))
      then markIncomplete StreamResetCancelled w else w
  | Forward => w
  end.

(** [admit] with the verdict the subscription gives; the two answers are [take] and
    [follows]. *)
Definition admit_verdict (v : ForwardVerdict) (pos : inboundPos) (objectID : Z) (w : subgroupWriter)
    : bool * bool * subgroupWriter :=
  let lastPos := a_lastPos (w_adm w) in
  let follows := bool_decide (ip_src lastPos = ip_src pos) && (u64 (ip_seq lastPos + 1) =? ip_seq pos) in
  match v with
  | Forward => (true, follows, set_adm w (MkAdm objectID true pos))
  | _ =>
      let w := skip v objectID w in
      (false, false,
       if follows then set_adm w (MkAdm (a_lastAdmitted (w_adm w)) (a_hasAdmitted (w_adm w)) pos) else w)
  end.
Definition w_admit (pos : inboundPos) (hdr : SubgroupHeader) (objectID : Z) (props : bytes) (d : DownstreamSub)
    (w : subgroupWriter) : result (bool * bool * subgroupWriter) :=
  (fun v => admit_verdict v pos objectID w) <$>
    ForwardDecision (sh_GroupID hdr) objectID (sh_SubgroupID hdr) (sh_PublisherPriority hdr) props d.

Definition stamped (now : Z) (f : fwdObject) : fwdObject :=
  MkFwd (fw_obj f) (fw_absID f) now (fw_headerAt f) (fw_maxCacheAge f) (fw_first f) (fw_follows f) (fw_pubTimeouts f).

Definition drop_capped (w : subgroupWriter) : bool :=
  (0 <? c_maxDrops (w_cfg w)) && (g_drops (w_gate w) >? c_maxDrops (w_cfg w)).

Definition publish (now : Z) (f : fwdObject) (w : subgroupWriter) : subgroupWriter :=
  let g := w_gate w in
  if g_closed g then w
  else if len (w_inbox w) <? c_cap (w_cfg w)
  then MkWriter (w_cfg w) g (w_adm w) (w_inbox w ++ [stamped now f]) (w_run w)
  else
    let a := MkAdm (a_lastAdmitted (w_adm w)) (a_hasAdmitted (w_adm w)) no_pos in
    let g := MkGate (g_drops g + 1) (g_closed g) (g_once g) (g_inboundReset g) (g_inboundResetCode g)
               (g_incomplete g) (g_incompleteCode g) in
    let w := set_gate (set_adm w a) (markIncompleteLocked StreamResetExcessiveLoad g) in
    if drop_capped w then w_close true StreamResetExcessiveLoad w else w.

(** ** The goroutine's side *)

Definition lagging (now : Z) (f : fwdObject) (w : subgroupWriter) : bool :=
  (0 <? c_maxLag (w_cfg w)) && (now - fw_enqueuedAt f >? c_maxLag (w_cfg w)).
Definition expired (now : Z) (f : fwdObject) : bool :=
  (0 <? fw_maxCacheAge f) && (now - fw_enqueuedAt f >? fw_maxCacheAge f).

Definition set_out (r : RunState) (out : option OutgoingSubgroupStream) (streams : list OutgoingSubgroupStream)
    (calls : list sub_op) : RunState :=
  MkRun (r_prevID r) (r_hasWritten r) (r_writeFailed r) (r_dropped r) (r_withProps r) (r_pubTimeouts r)
    out (match out with Some _ => r_prio r | None => None end) streams calls (r_ctxDone r) (r_done r).

(** The stream is done with, in the state [o]: the subscription is told. *)
Definition dropOut_as (o : OutgoingSubgroupStream) (r : RunState) : RunState :=
  set_out r None (r_streams r ++ [o]) (r_calls r ++ [OStreamClosed]).
Definition dropOut (r : RunState) : RunState :=
  match r_out r with None => r | Some o => dropOut_as o r end.
Definition closeOut (fin : bool) (code : Z) (r : RunState) : RunState :=
  match r_out r with
  | None => r
  | Some o => dropOut_as (if fin then os_Close o else os_Cancel code o) r
  end.

Definition isNextObject (f : fwdObject) (prevID : Z) (dropped : bool) : bool :=
  if fw_absID f =? u64 (prevID + 1) then true
  else if dropped || (fw_absID f <=? prevID) then false
  else if fw_follows f then true
  else let '(gap, ok) := PriorObjectIDGap (so_Properties (fw_obj f)) in
       ok && (u64 (fw_absID f - gap) =? u64 (prevID + 1)).

Definition set_withProps (r : RunState) (b : bool) : RunState :=
  MkRun (r_prevID r) (r_hasWritten r) (r_writeFailed r) (r_dropped r) b (r_pubTimeouts r) (r_out r) (r_prio r)
    (r_streams r) (r_calls r) (r_ctxDone r) (r_done r).

Definition reopenCause (f : fwdObject) (r : RunState) : option ResetCause * RunState :=
  let needProps := negb (r_withProps r) && negb (len (so_Properties (fw_obj f)) =? 0) in
  let r := if needProps then set_withProps r true else r in
  (if negb (r_hasWritten r) then None
   else if needProps then Some ResetCauseProperties
   else if negb (isNextObject f (r_prevID r) (r_dropped r)) then Some ResetCauseGap
   else None, r).

(** What opening a stream meets: the subscription, and whether the session could open
    a stream and write its header. *)
Record OpenEnv : Type := MkOpen { oe_sub : DownstreamSub; oe_open : bool }.

Definition openCounted (env : OpenEnv) (c : WriterConfig) (hdr : SubgroupHeader) (r : RunState)
    : option OutgoingSubgroupStream * RunState :=
  let begun := (BeginStream (oe_sub env)).1 in
  let ok := oe_open env && negb (r_ctxDone r) in
  if negb begun then (None, set_out r (r_out r) (r_streams r) (r_calls r ++ [OBeginStream]))
  else (if ok then Some (NewOutgoingSubgroup hdr false (c_deadlines c) (c_tracked c)) else None,
        set_out r (r_out r) (r_streams r) (r_calls r ++ [OBeginStream; OEndStream ok])).

Definition stream_header (h : SubgroupHeader) (withProps first : bool) : SubgroupHeader :=
  MkSubgroupHeader withProps
    (if negb first && (sh_SubgroupIDMode h =? SubgroupIDImplicitFirstObject) then SubgroupIDExplicit else sh_SubgroupIDMode h)
    (sh_EndOfGroup h) (InlinePriority h) (negb first) (sh_TrackAlias h) (sh_GroupID h) (sh_SubgroupID h)
    (sh_PublisherPriority h).

Definition reopen (env : OpenEnv) (first : bool) (code : Z) (c : WriterConfig) (r : RunState) : bool * RunState :=
  let r := closeOut false code r in
  match openCounted env c (stream_header (c_hdr c) (r_withProps r) first) r with
  | (None, r) => (false, r)
  | (Some o, r) =>
      let o := WithDeliveryTimeouts o (r_pubTimeouts r) (c_subTimeouts c) in
      (true, MkRun (r_prevID r) false (r_writeFailed r) (r_dropped r) (r_withProps r) (r_pubTimeouts r) (Some o)
               (Some (EffectiveStreamPriority (sh_PublisherPriority (c_hdr c)) (sh_GroupID (c_hdr c))
                        (sh_SubgroupID (c_hdr c)) (oe_sub env)))
               (r_streams r) (r_calls r) (r_ctxDone r) (r_done r))
  end.

Definition failWrites (w : subgroupWriter) : subgroupWriter :=
  let r := w_run w in
  set_run (set_gate w (gate_closed (w_gate w)))
    (MkRun (r_prevID r) (r_hasWritten r) true (r_dropped r) (r_withProps r) (r_pubTimeouts r) (r_out r) (r_prio r)
       (r_streams r) (r_calls r) (r_ctxDone r) (r_done r)).

Definition dropExpired (w : subgroupWriter) : subgroupWriter :=
  let w := markIncomplete StreamResetCancelled w in
  let r := w_run w in
  let r := if r_hasWritten r then r else closeOut false StreamResetCancelled r in
  set_run w (MkRun (r_prevID r) (r_hasWritten r) (r_writeFailed r) true (r_withProps r) (r_pubTimeouts r) (r_out r)
    (r_prio r) (r_streams r) (r_calls r) (r_ctxDone r) (r_done r)).

(** What one turn of the loop meets: the clock at its three readings, the streams it
    opens, and the write. *)
Record RunEnv : Type := MkRunEnv {
  re_lagNow : Z; re_open : OpenEnv; re_reopen : OpenEnv; re_expNow : Z; re_writeNow : Z; re_write : write_outcome }.

Definition write_object (env : RunEnv) (f : fwdObject) (w : subgroupWriter) : subgroupWriter :=
  let r := w_run w in
  match r_out r with
  | None => w
  | Some o =>
      let delta := if r_hasWritten r then u64 (u64 (fw_absID f - r_prevID r) - 1) else fw_absID f in
      let wenv := MkEnv false false (re_writeNow env - fw_headerAt f) (re_write env) in
      match WriteObjectReceivedAt wenv (with_delta (fw_obj f) delta) o with
      | (Ok _, o') =>
          set_run w (MkRun (fw_absID f) true (r_writeFailed r) false (r_withProps r) (r_pubTimeouts r) (Some o')
                       (r_prio r) (r_streams r) (r_calls r) (r_ctxDone r) (r_done r))
      | (Err e, o') =>
          let r := set_out r (Some o') (r_streams r) (r_calls r) in
          failWrites (set_run w (if errors_Is e ErrDeliveryTimeout then dropOut r
                                 else closeOut false StreamResetInternalError r))
      end
  end.

(** The rest of a turn, once a stream is open: the expiry check and the write. *)
Definition send_object (env : RunEnv) (f : fwdObject) (w : subgroupWriter) : subgroupWriter :=
  if expired (re_expNow env) f then dropExpired w else write_object env f w.

(** A reopening of the stream, [k] being what follows it. *)
Definition reopened (env : OpenEnv) (first : bool) (k : subgroupWriter -> subgroupWriter) (w : subgroupWriter)
    : subgroupWriter :=
  match reopen env first (resetCode w) (w_cfg w) (w_run w) with
  | (true, r) => k (set_run w r)
  | (false, r) => failWrites (set_run w r)
  end.

Definition set_timeouts (f : fwdObject) (r : RunState) : RunState :=
  match fw_pubTimeouts f with
  | None => r
  | Some t => MkRun (r_prevID r) (r_hasWritten r) (r_writeFailed r) (r_dropped r) (r_withProps r) t (r_out r)
                (r_prio r) (r_streams r) (r_calls r) (r_ctxDone r) (r_done r)
  end.

Definition send_stale (env : RunEnv) (f : fwdObject) (stale : option ResetCause) (w : subgroupWriter) : subgroupWriter :=
  match stale with
  | Some _ => reopened (re_reopen env) (fw_first f) (send_object env f) w
  | None => send_object env f w
  end.

Definition run_object (env : RunEnv) (f : fwdObject) (w : subgroupWriter) : subgroupWriter :=
  if r_writeFailed (w_run w) then w
  else
    let '(stale, r) := reopenCause f (set_timeouts f (w_run w)) in
    let w := set_run w r in
    match r_out r with
    | None => reopened (re_open env) (fw_first f) (send_stale env f stale) w
    | Some _ => send_stale env f stale w
    end.

Definition add_calls (l : list sub_op) (r : RunState) : RunState :=
  MkRun (r_prevID r) (r_hasWritten r) (r_writeFailed r) (r_dropped r) (r_withProps r) (r_pubTimeouts r) (r_out r)
    (r_prio r) (r_streams r) (r_calls r ++ l) (r_ctxDone r) (r_done r).

Definition finishStream (lagExceeded writeFailed : bool) (w : subgroupWriter) : subgroupWriter :=
  let g := w_gate w in
  let dropCapped := drop_capped w in
  if lagExceeded || dropCapped then
    let code := if dropCapped && negb lagExceeded then StreamResetExcessiveLoad else StreamResetTooFarBehind in
    set_run (set_gate w (gate_closed g)) (add_calls [OTerminate code] (closeOut false code (w_run w)))
  else if writeFailed then w
  else match r_out (w_run w) with
       | None => w
       | Some _ =>
           set_run w (if g_inboundReset g then closeOut false (g_inboundResetCode g) (w_run w)
                      else if g_incomplete g then closeOut false (g_incompleteCode g) (w_run w)
                      else closeOut true 0 (w_run w))
       end.

(** [run]'s deferred calls: the guard on the stream, and [releaseInbox]. *)
Definition run_exit (w : subgroupWriter) : subgroupWriter :=
  let r := closeOut false StreamResetCancelled (w_run w) in
  MkWriter (w_cfg w) (gate_closed (w_gate w)) (w_adm w) []
    (MkRun (r_prevID r) (r_hasWritten r) (r_writeFailed r) (r_dropped r) (r_withProps r) (r_pubTimeouts r) (r_out r)
       (r_prio r) (r_streams r) (r_calls r) (r_ctxDone r) true).

Definition set_inbox (w : subgroupWriter) (l : list fwdObject) : subgroupWriter :=
  MkWriter (w_cfg w) (w_gate w) (w_adm w) l (w_run w).

(** One turn of [run]'s loop: [nextObject] yields a queued Object, waits, or, the
    queue closed and drained, ends the loop. *)
Definition run_step (env : RunEnv) (w : subgroupWriter) : subgroupWriter :=
  if r_done (w_run w) then w
  else match w_inbox w with
       | [] => if g_once (w_gate w) then run_exit (finishStream false (r_writeFailed (w_run w)) w) else w
       | f :: rest =>
           let w := set_inbox w rest in
           if lagging (re_lagNow env) f w then run_exit (finishStream true (r_writeFailed (w_run w)) w)
           else run_object env f w
       end.

(** [cancelIO]: the bridge resets the stream in flight, and no other can be opened. *)
Definition cancelIO (w : subgroupWriter) : subgroupWriter :=
  let r := w_run w in
  set_run w (MkRun (r_prevID r) (r_hasWritten r) (r_writeFailed r) (r_dropped r) (r_withProps r) (r_pubTimeouts r)
    (if r_ctxDone r then r_out r else os_Cancel StreamResetCancelled <$> r_out r)
    (r_prio r) (r_streams r) (r_calls r) true (r_done r)).

(** ** The pool of queues

    A channel with its capacity, what it holds and whether it is closed. *)

Record inbox_chan : Type := MkChan { ch_cap : Z; ch_items : list fwdObject; ch_closed : bool }.
Record subgroupInboxPool : Type := MkPool { ip_size : Z; ip_free : list inbox_chan }.

Definition maxCachedSubgroupInboxes : Z := 1024.
Definition maxPooledSubgroupQueueSize : Z := 256.

Definition newSubgroupInboxPool (size : Z) : option subgroupInboxPool :=
  if (size <=? 0) || (size >? maxPooledSubgroupQueueSize) then None else Some (MkPool size []).

Definition pool_get (p : subgroupInboxPool) : inbox_chan * subgroupInboxPool :=
  match ip_free p with
  | c :: free => (c, MkPool (ip_size p) free)
  | [] => (MkChan (ip_size p) [] false, p)
  end.

(** [put] drains the channel; a closed one is never kept. *)
Definition pool_put (c : inbox_chan) (p : subgroupInboxPool) : subgroupInboxPool :=
  if negb (ch_cap c =? ip_size p) || ch_closed c then p
  else if len (ip_free p) <? maxCachedSubgroupInboxes
  then MkPool (ip_size p) (ip_free p ++ [MkChan (ch_cap c) [] false])
  else p.

(** Cached channels are open, empty and of the pool's size, and few. *)
Definition pool_ok (p : subgroupInboxPool) : Prop :=
  len (ip_free p) <= maxCachedSubgroupInboxes /\ Forall (fun c => c = MkChan (ip_size p) [] false) (ip_free p).

Inductive pool_reach (size : Z) : subgroupInboxPool -> Prop :=
| PoolNew p : newSubgroupInboxPool size = Some p -> pool_reach size p
| PoolGet p : pool_reach size p -> pool_reach size (pool_get p).2
| PoolPut p c : pool_reach size p -> pool_reach size (pool_put c p).

Lemma pool_reach_ok size p : pool_reach size p -> pool_ok p /\ ip_size p = size.
Proof.
  induction 1 as [p Hn|p _ [[H1 H2] IH]|p c _ [[H1 H2] IH]].
  - unfold newSubgroupInboxPool in Hn. destruct (_ || _); [done|]. injection Hn as <-. by repeat split.
  - unfold pool_get. destruct (ip_free p) as [|c free] eqn:E; [by unfold pool_ok; simpl; rewrite E|].
    apply Forall_cons in H2 as [_ H2]. unfold pool_ok; simpl. rewrite len_cons in H1. split_and!; [lia|done|done].
  - unfold pool_put. destruct (negb _ || _) eqn:E; [done|]. destruct (Z.ltb_spec (len (ip_free p)) maxCachedSubgroupInboxes); [|done].
    apply orb_false_iff in E as [E _]. apply negb_false_iff, Z.eqb_eq in E. unfold pool_ok; simpl.
    rewrite len_app. split_and!; [|apply Forall_app; split; [done|]; apply Forall_singleton; by rewrite E|done].
    change (len [MkChan (ch_cap c) [] false]) with 1. lia.
Qed.

(** A writer never starts with another writer's Objects in its queue. *)
Lemma pooled_inbox_fresh size p : pool_reach size p -> (pool_get p).1 = MkChan size [] false.
Proof.
  intros [[H1 H2] <-]%pool_reach_ok. unfold pool_get. destruct (ip_free p) as [|c free]; [done|].
  by apply Forall_cons in H2 as [-> _].
Qed.

(** ** What the streams of a writer carry *)

Definition finned (o : OutgoingSubgroupStream) : Prop := exists t, EvClose t ∈ os_events o.
Definition last_id (l : list (Z * SubgroupObject)) : option Z := fst <$> last l.

(** The stream [o] of the writer of [c] was handed its header, the objects [l], each
    above the one before, and [tail]; no properties are lost on it. *)
Record carries (c : WriterConfig) (tail : bytes) (o : OutgoingSubgroupStream) (l : list (Z * SubgroupObject)) : Prop := {
  ca_wire : wire (os_events o) =
    WriteSubgroupHeader [] (os_header o) ++ enc (sh_Properties (os_header o)) None l ++ tail;
  ca_up : kept None l = l;
  ca_props : sh_Properties (os_header o) = false -> Forall (fun p => so_Properties p.2 = []) l;
  ca_hdr : exists wp first, os_header o = stream_header (c_hdr c) wp first }.
Definition carried (c : WriterConfig) (o : OutgoingSubgroupStream) (l : list (Z * SubgroupObject)) : Prop :=
  exists tail, carries c tail o l.

Lemma last_id_snoc l p : last_id (l ++ [p]) = Some p.1.
Proof. unfold last_id. by rewrite last_snoc. Qed.

Definition prev_of (prev : option Z) (l : list (Z * SubgroupObject)) : option Z :=
  match last_id l with Some p => Some p | None => prev end.

Lemma prev_of_cons prev p l : prev_of prev (p :: l) = prev_of (Some p.1) l.
Proof. unfold prev_of, last_id. destruct l as [|q l]; [done|]. cbn [last]. destruct (last (q :: l)) eqn:E; [done|]. by apply last_None in E. Qed.

Lemma enc_snoc hp id o l : forall prev,
  enc hp prev (l ++ [(id, o)]) = enc hp prev l ++ e_SO (with_delta o (delta_from (prev_of prev l) id)) hp.
Proof.
  induction l as [|[i x] l IH]; intros prev; simpl; [by rewrite app_nil_r|].
  by rewrite IH, prev_of_cons, app_assoc.
Qed.

Lemma kept_snoc id o l : forall prev, kept prev l = l -> (forall p, prev_of prev l = Some p -> p < id) ->
  kept prev (l ++ [(id, o)]) = l ++ [(id, o)].
Proof.
  induction l as [|[i x] l IH]; intros prev Hk Hlt; simpl in *.
  - unfold prev_of in Hlt; simpl in Hlt. destruct prev as [p|]; [|done]. specialize (Hlt p eq_refl).
    destruct (Z.leb_spec id p); [lia|done].
  - rewrite prev_of_cons in Hlt. simpl in Hlt. destruct (match prev with Some p => i <=? p | None => false end) eqn:E.
    + exfalso. apply (f_equal length) in Hk. simpl in Hk. pose proof (kept_length l prev). lia.
    + injection Hk as Hk. f_equal. by apply IH.
Qed.

(** A write adds its object, and on an error nothing that a reader would take for
    an object of the list. *)
Lemma write_carries c env id obj o l : carries c [] o l -> hooked o = false -> out_prev o = last_id l ->
  is_u64 id -> (forall p, last_id l = Some p -> is_u64 p /\ p < id) ->
  (sh_Properties (os_header o) = false -> so_Properties obj = []) ->
  let '(r, o') := WriteObjectReceivedAt env (with_delta obj (delta_from (last_id l) id)) o in
  (forall t, EvClose t ∈ os_events o' -> EvClose t ∈ os_events o) /\ hooked o' = false /\ os_header o' = os_header o /\
  match r with
  | Ok _ => carries c [] o' (l ++ [(id, obj)]) /\ out_prev o' = Some id
  | Err _ => carried c o' l
  end.
Proof.
  intros [Hw Hup Hpr Hh] Hhk Hprev Hid Hlt Hprop. set (x := with_delta obj _).
  unfold WriteObjectReceivedAt. set (t := first_object o (so_Properties x)).
  assert (Ht : os_events t = os_events o /\ os_header t = os_header o /\ hooked t = false /\ out_prev t = out_prev o).
  { by split_and!. }
  clearbody t. destruct Ht as (He & Hhd & Hht & Hop). rewrite Hht. simpl.
  rewrite app_nil_r in Hw.
  assert (Hcar : forall o' tl, wire (os_events o') = wire (os_events o) ++ tl -> os_header o' = os_header o -> carried c o' l).
  { intros o' tl E1 E2. exists tl. split; rewrite ?E2; [|done|done|done]. by rewrite E1, Hw, <- app_assoc. }
  destruct ((0 <? objectTimeout t) && _).
  { simpl. rewrite Hht, He. split_and!; [|done|done|].
    - intros u Hu. apply elem_of_app in Hu as [Hu|Hu]; [done|]. by apply list_elem_of_singleton in Hu.
    - apply (Hcar _ []); [|done]. simpl. rewrite Hht, wire_app, He. by cbn. }
  pose proof (attempt_spec env x t) as Ha. destruct (attempt_write env x t) as [r o'] eqn:Ea.
  destruct Ha as (Hr & Hwt & Hh' & Hhk' & _). split_and!; [|congruence|congruence|].
  - intros u. rewrite <- He. clear -Ea Hht. unfold attempt_write in Ea. rewrite Hht in Ea. simpl in Ea.
    intros Hu. assert (Hn : exists evs, os_events o' = os_events t ++ evs /\ Forall (fun ev => ev <> EvClose u) evs).
    { destruct (dst_Write env) as [|e b]; [|destruct ((0 <? objectTimeout t) && b)]; injection Ea as <- <-; simpl;
        rewrite ?Hht, <- ?app_assoc; eexists; (split; [reflexivity|]); destruct (_ && deadlines t); by repeat constructor. }
    destruct Hn as (evs & En & Hf). rewrite En in Hu. apply elem_of_app in Hu as [Hu|Hu]; [done|].
    rewrite Forall_forall in Hf. by destruct (Hf _ Hu).
  - destruct r as [[]|e]; [|by eapply Hcar; [rewrite Hwt, He; reflexivity|congruence]].
    assert (Ep : out_prev o' = Some id).
    { unfold attempt_write in Ea. destruct (dst_Write env) as [|e b]; [|by destruct (_ && b)]. injection Ea as <-.
      unfold out_prev at 1. simpl. f_equal. unfold x, delta_from; simpl. rewrite <- Hprev, <- Hop. unfold out_prev.
      destruct (encHavePrev t) eqn:Eh; [|done]. destruct (Hlt (encPrevObject t)) as [Hpu Hpl].
      { rewrite <- Hprev, <- Hop. unfold out_prev. by rewrite Eh. }
      rewrite (u64_small (encPrevObject t + (id - encPrevObject t - 1))) by zlia. rewrite u64_small by zlia. lia. }
    split; [|done]. rewrite He, Hhd in Hwt. rewrite Hhd in Hh'. split; rewrite ?Hh'; [| | |done].
    + rewrite app_nil_r, Hwt, Hw, so_Append_e, enc_snoc, <- app_assoc. do 3 f_equal. unfold x. do 2 f_equal.
      unfold prev_of. by destruct (last_id l).
    + apply kept_snoc; [done|]. intros p Hp. apply Hlt. unfold prev_of in Hp. by destruct (last_id l).
    + intros E. apply Forall_app. split; [by apply Hpr|]. apply Forall_singleton. by apply Hprop.
Qed.

(** *** The streams between two steps of the goroutine *)

Definition id_ok (p : Z * SubgroupObject) : Prop := 0 <= p.1 < MaxUint64.

Record open_ok (c : WriterConfig) (r : RunState) (o : OutgoingSubgroupStream) (cur : list (Z * SubgroupObject)) : Prop := {
  oo_carries : carries c [] o cur;
  oo_hook : hooked o = false;
  oo_prev : out_prev o = last_id cur;
  oo_fin : ~ finned o;
  oo_written : r_hasWritten r = bool_decide (cur <> []);
  oo_prevID : cur <> [] -> last_id cur = Some (r_prevID r);
  oo_ids : Forall id_ok cur }.

(** The open stream's header says whether its objects have properties. *)
Definition props_ok (r : RunState) : Prop :=
  forall o, r_out r = Some o -> sh_Properties (os_header o) = r_withProps r.

(** Streams opened and not yet reported closed, by the calls made. *)
Definition open_change (o : sub_op) : Z :=
  match o with OEndStream true => 1 | OStreamClosed => -1 | _ => 0 end.
Definition open_after (calls : list sub_op) : Z := foldr (fun o n => open_change o + n) 0 calls.
Lemma open_after_app a b : open_after (a ++ b) = open_after a + open_after b.
Proof. induction a as [|x a IH]; [done|]. cbn [app open_after foldr]. fold (open_after (a ++ b)) (open_after a). lia. Qed.

(** [ls] are the objects on the streams done with, [cur] those on the open one. *)
Record rinv (c : WriterConfig) (r : RunState) (ls : list (list (Z * SubgroupObject))) (cur : list (Z * SubgroupObject)) : Prop := {
  ri_streams : Forall2 (carried c) (r_streams r) ls;
  ri_fin : Forall (fun o => ~ finned o) (r_streams r);
  ri_calls : open_after (r_calls r) = match r_out r with Some _ => 1 | None => 0 end;
  ri_out : match r_out r with Some o => open_ok c r o cur | None => cur = [] end }.

Lemma finned_cancel code o : ~ finned o -> ~ finned (os_Cancel code o).
Proof.
  intros H [t Ht]. apply H. exists t. simpl in Ht. apply elem_of_app in Ht as [Ht|Ht]; [done|].
  apply elem_of_cons in Ht as [?|Ht]; [done|]. destruct (hooked o); [by apply list_elem_of_singleton in Ht|by apply elem_of_nil in Ht].
Qed.

Lemma carries_cancel c code tail o l : carries c tail o l -> carries c tail (os_Cancel code o) l.
Proof.
  intros [H1 H2 H3 H4]. split; [|done..]. simpl. rewrite wire_app, H1. destruct (hooked o); cbn; by rewrite app_nil_r.
Qed.

Lemma carries_close c tail o l : carries c tail o l -> carries c tail (os_Close o) l.
Proof.
  intros [H1 H2 H3 H4]. split; [|done..]. simpl. rewrite wire_app, H1. destruct (hooked o); cbn; by rewrite app_nil_r.
Qed.

(** Done with the open stream, not by a FIN. *)
Lemma drop_rinv c r ls cur o o' : rinv c r ls cur -> r_out r = Some o -> carried c o' cur -> ~ finned o' ->
  rinv c (dropOut_as o' r) (ls ++ [cur]) [].
Proof.
  intros [H1 H2 H3 H4] E Hc Hf. rewrite E in *. split; simpl; [| | |done].
  - apply Forall2_app; [done|]. by constructor.
  - apply Forall_app. split; [done|]. by apply Forall_singleton.
  - rewrite open_after_app, H3. done.
Qed.

Lemma closeOut_rinv c r ls cur code : rinv c r ls cur ->
  exists ls', rinv c (closeOut false code r) ls' [] /\ concat ls' = concat ls ++ cur /\ r_out (closeOut false code r) = None.
Proof.
  intros H. unfold closeOut. destruct (r_out r) as [o|] eqn:E.
  - pose proof (ri_out _ _ _ _ H) as Ho. rewrite E in Ho. destruct Ho as [Hc _ _ Hf _ _].
    exists (ls ++ [cur]). split_and!; [|by rewrite concat_app; simpl; rewrite app_nil_r|done].
    eapply drop_rinv; [done|done| |by apply finned_cancel]. exists []. by apply carries_cancel.
  - pose proof (ri_out _ _ _ _ H) as Ho. rewrite E in Ho. subst cur. exists ls. by rewrite app_nil_r.
Qed.

(** Fields a step on the streams leaves alone. *)
Record same_flags (r r' : RunState) : Prop := {
  sf_failed : r_writeFailed r' = r_writeFailed r; sf_dropped : r_dropped r' = r_dropped r;
  sf_props : r_withProps r' = r_withProps r; sf_pub : r_pubTimeouts r' = r_pubTimeouts r;
  sf_ctx : r_ctxDone r' = r_ctxDone r; sf_done : r_done r' = r_done r }.

Lemma closeOut_flags fin code r : same_flags r (closeOut fin code r).
Proof. unfold closeOut. by destruct (r_out r). Qed.

Lemma reopen_rinv env first code c r ls cur : rinv c r ls cur ->
  let '(ok, r') := reopen env first code c r in
  exists ls', rinv c r' ls' [] /\ concat ls' = concat ls ++ cur /\ same_flags r r' /\ props_ok r' /\
    if ok : bool then is_Some (r_out r') /\ r_hasWritten r' = false else r_out r' = None.
Proof.
  intros H. unfold reopen. destruct (closeOut_rinv _ _ _ _ code H) as (ls' & H' & Hc & Hn).
  pose proof (closeOut_flags false code r) as [F1 F2 F3 F4 F5 F6]. set (r1 := closeOut false code r) in *. clearbody r1.
  unfold openCounted. destruct H' as [G1 G2 G3 G4]. rewrite Hn in G3. destruct (BeginStream (oe_sub env)).1; simpl.
  2: { exists ls'. rewrite Hn. split_and!; [|done|by split|done|done]. split; simpl; [done|done| |done]. by rewrite open_after_app, G3. }
  rewrite Hn. destruct (oe_open env && negb (r_ctxDone r1)); simpl.
  - exists ls'. split_and!; [|done|by split|by intros o [= <-]|by eexists|done]. split; simpl; [done|done|by rewrite open_after_app, G3|].
    split; simpl; try done.
    + split; simpl; [|done|by constructor|by eexists _, _]. rewrite app_nil_r. unfold wire; simpl. by rewrite app_nil_r.
    + intros [t Ht]. simpl in Ht. by apply list_elem_of_singleton in Ht.
  - exists ls'. split_and!; [|done|by split|done|done]. split; simpl; [done|done|by rewrite open_after_app, G3|done].
Qed.

(** A gate as the goroutine leaves it. *)
Record gate_grows (w w' : subgroupWriter) : Prop := {
  gg_incomplete : g_incomplete (w_gate w) = true -> g_incomplete (w_gate w') = true;
  gg_once : g_once (w_gate w') = g_once (w_gate w);
  gg_reset : g_inboundReset (w_gate w') = g_inboundReset (w_gate w);
  gg_closed : g_closed (w_gate w') = true -> g_closed (w_gate w) = true \/ r_writeFailed (w_run w') = true;
  gg_shut : g_closed (w_gate w) = true -> g_closed (w_gate w') = true;
  gg_fail : r_writeFailed (w_run w') = true -> r_writeFailed (w_run w) = true \/ g_closed (w_gate w') = true;
  gg_failed : r_writeFailed (w_run w) = true -> r_writeFailed (w_run w') = true;
  gg_cfg : w_cfg w' = w_cfg w; gg_inbox : w_inbox w' = w_inbox w; gg_done : r_done (w_run w') = r_done (w_run w) }.

(** Where the loop stands between two turns. *)
Definition settled (r : RunState) : Prop := r_writeFailed r = false -> is_Some (r_out r) -> r_hasWritten r = true.

(** What a turn on the object [p] does to the streams. *)
Definition took (c : WriterConfig) (p : Z * SubgroupObject) (sent : list (Z * SubgroupObject)) (w w' : subgroupWriter) : Prop :=
  gate_grows w w' /\ settled (w_run w') /\ props_ok (w_run w') /\
  exists ls cur, rinv c (w_run w') ls cur /\
    (r_writeFailed (w_run w') = false -> g_incomplete (w_gate w') = false -> concat ls ++ cur = sent ++ [p]).

Lemma delta_of c r o cur f : open_ok c r o cur -> 0 <= fw_absID f < MaxUint64 ->
  (cur <> [] -> r_prevID r < fw_absID f) ->
  (if r_hasWritten r then u64 (u64 (fw_absID f - r_prevID r) - 1) else fw_absID f) = delta_from (last_id cur) (fw_absID f) /\
  forall p, last_id cur = Some p -> is_u64 p /\ p < fw_absID f.
Proof.
  intros [_ _ _ _ Hw Hp Hi] Hid Hlt. rewrite Hw. case_bool_decide as E.
  - specialize (Hp E). specialize (Hlt E). rewrite Hp. simpl.
    assert (Hu : is_u64 (r_prevID r)).
    { unfold last_id in Hp. destruct (last cur) as [q|] eqn:El; [|done]. injection Hp as <-.
      apply last_Some_elem_of in El. rewrite Forall_forall in Hi. specialize (Hi q El). unfold id_ok in Hi. zlia. }
    split; [|intros p [= <-]; split; [done|lia]]. rewrite (u64_small (fw_absID f - r_prevID r)) by zlia. by rewrite u64_small by zlia.
  - destruct cur as [|q cur]; [by split|done].
Qed.

Lemma write_object_took c env f w ls cur o : w_cfg w = c -> rinv c (w_run w) ls cur -> r_out (w_run w) = Some o ->
  r_writeFailed (w_run w) = false -> props_ok (w_run w) ->
  0 <= fw_absID f < MaxUint64 -> (cur <> [] -> r_prevID (w_run w) < fw_absID f) ->
  (r_withProps (w_run w) = false -> so_Properties (fw_obj f) = []) ->
  took c (fw_absID f, fw_obj f) (concat ls ++ cur) w (write_object env f w).
Proof.
  intros Hcfg H E Hwf H7 Hid Hlt Hpr. specialize (H7 o E). unfold write_object. rewrite E.
  pose proof (ri_out _ _ _ _ H) as Ho. rewrite E in Ho. destruct (delta_of _ _ _ _ f Ho Hid Hlt) as [Hd Hl].
  cbv zeta. rewrite Hd. pose proof Ho as [H1 H2 H3 H4 H5 H6 H8].
  pose proof (write_carries c (MkEnv false false (re_writeNow env - fw_headerAt f) (re_write env)) (fw_absID f)
    (fw_obj f) o cur H1 H2 H3 ltac:(zlia) Hl) as Hw. rewrite H7 in Hw. specialize (Hw Hpr).
  destruct (WriteObjectReceivedAt _ _ o) as [[[]|e] o']; destruct Hw as (Hev & Hh & Hhd & Hw).
  - destruct Hw as [Hw Hp]. split; [by split; auto|]. split; [done|]. split; [intros ? [= <-]; simpl; congruence|]. exists ls, (cur ++ [(fw_absID f, fw_obj f)]).
    split; [|intros; by rewrite app_assoc]. destruct H as [G1 G2 G3 G4]. rewrite E in G3. split; simpl; try done.
    split; simpl; try done.
    + by rewrite last_id_snoc.
    + intros [t Ht]. apply H4. exists t. auto.
    + by rewrite bool_decide_true by (by destruct cur).
    + intros _. by rewrite last_id_snoc.
    + apply Forall_app. split; [done|]. by apply Forall_singleton.
  - assert (Hf' : ~ finned o') by (intros [t Ht]; apply H4; exists t; auto).
    assert (Hd' : forall o'', carried c o'' cur -> ~ finned o'' ->
      rinv c (dropOut_as o'' (set_out (w_run w) (Some o') (r_streams (w_run w)) (r_calls (w_run w)))) (ls ++ [cur]) []).
    { intros o'' Hc Hn. destruct H as [G1 G2 G3 G4]. rewrite E in G3. split; simpl; [| | |done].
      - apply Forall2_app; [done|]. by constructor.
      - apply Forall_app. split; [done|]. by apply Forall_singleton.
      - by rewrite open_after_app, G3. }
    split; [split; simpl; auto; unfold closeOut, dropOut; by destruct (errors_Is e _)|].
    split; [by intros ?|]. split; [intros ?; simpl; by destruct (errors_Is e _)|]. exists (ls ++ [cur]), []. split; [|by intros ?].
    destruct (errors_Is e ErrDeliveryTimeout).
    + destruct (Hd' o' Hw Hf'). by split.
    + destruct Hw as [tl Hw]. destruct (Hd' (os_Cancel StreamResetInternalError o')); [|by apply finned_cancel|by split].
      exists tl. by apply carries_cancel.
Qed.

Lemma reopened_took c env first k f p sent w ls cur : w_cfg w = c -> rinv c (w_run w) ls cur -> sent = concat ls ++ cur ->
  r_writeFailed (w_run w) = false -> r_withProps (w_run w) = f ->
  (forall w' ls', w_cfg w' = c -> gate_grows w w' -> rinv c (w_run w') ls' [] -> concat ls' = sent ->
     is_Some (r_out (w_run w')) -> r_hasWritten (w_run w') = false -> r_writeFailed (w_run w') = false ->
     r_withProps (w_run w') = f -> props_ok (w_run w') -> took c p sent w' (k w')) ->
  took c p sent w (reopened env first k w).
Proof.
  intros Hcfg H -> Hwf Hpr Hk. unfold reopened. rewrite Hcfg.
  pose proof (reopen_rinv env first (resetCode w) c (w_run w) ls cur H) as Hr.
  destruct (reopen env first (resetCode w) c (w_run w)) as [[] r'];
    destruct Hr as (ls' & Hi & Hc & [F1 F2 F3 F4 F5 F6] & Hpo & Hout).
  - destruct Hout as [Hs Hh]. assert (Hg : gate_grows w (set_run w r')) by (split; simpl; auto; congruence).
    destruct (Hk (set_run w r') ls') as ([K1 K2 K3 K4 K5 K5' K5'' K6 K7 K7'] & K8 & K9); simpl; auto; [by rewrite F1|congruence|].
    split; [|done]. destruct Hg as [G1 G2 G3 G4 G5 G5' G5'' G6 G7 G7']. split; simpl in *; auto; try congruence.
    intros E. destruct (K5' E); [left; congruence|auto].
  - split; [split; simpl; auto|]. split; [by intros ?|]. split; [done|]. exists ls', []. destruct Hi as [I1 I2 I3 I4].
    split; [|by intros ?]. rewrite Hout in *. split; simpl; rewrite ?Hout; done.
Qed.

Lemma send_object_took c env f w ls cur : w_cfg w = c -> rinv c (w_run w) ls cur -> is_Some (r_out (w_run w)) ->
  r_writeFailed (w_run w) = false -> props_ok (w_run w) ->
  0 <= fw_absID f < MaxUint64 -> (cur <> [] -> r_prevID (w_run w) < fw_absID f) ->
  (r_withProps (w_run w) = false -> so_Properties (fw_obj f) = []) ->
  took c (fw_absID f, fw_obj f) (concat ls ++ cur) w (send_object env f w).
Proof.
  intros Hcfg H [o E] Hwf Hpo Hid Hlt Hpr. unfold send_object. destruct (expired _ f); [|by eapply write_object_took].
  unfold dropExpired. set (w1 := markIncomplete StreamResetCancelled w).
  assert (Hi : g_incomplete (w_gate w1) = true).
  { unfold w1, markIncomplete, markIncompleteLocked; simpl. by destruct (g_incomplete (w_gate w)) eqn:Ei; simpl. }
  assert (Hg : w_run w1 = w_run w /\ w_cfg w1 = w_cfg w /\ w_inbox w1 = w_inbox w /\ g_once (w_gate w1) = g_once (w_gate w) /\
    g_inboundReset (w_gate w1) = g_inboundReset (w_gate w) /\ g_closed (w_gate w1) = g_closed (w_gate w)).
  { unfold w1, markIncomplete, markIncompleteLocked; simpl. by destruct (_ || _). }
  clearbody w1. destruct Hg as (G1 & G2 & G3 & G4 & G5 & G6). rewrite G1.
  pose proof (ri_out _ _ _ _ H) as Ho. rewrite E in Ho. destruct (r_hasWritten (w_run w)) eqn:Ew.
  - split; [split; simpl; auto; rewrite ?G6; auto; congruence|]. split; [by intros ? ?; simpl|]. split; [done|].
    exists ls, cur. split; [|by simpl; rewrite Hi]. destruct H as [I1 I2 I3 I4]. rewrite E in *. split; simpl; try done; rewrite ?E; try done.
    destruct Ho. split; simpl; congruence || done.
  - destruct (closeOut_rinv _ _ _ _ StreamResetCancelled H) as (ls' & [I1 I2 I3 I4] & Hc & Hn).
    pose proof (closeOut_flags false StreamResetCancelled (w_run w)) as [F1 F2 F3 F4 F5 F6].
    split; [split; simpl; auto; rewrite ?G6; auto; congruence|]. split; [by intros _; simpl; rewrite Hn; intros []|]. split; [intros ?; simpl; by rewrite Hn|].
    exists ls', []. split; [|by simpl; rewrite Hi]. rewrite Hn in *. split; simpl; try done; by rewrite Hn.
Qed.

Lemma next_above f prevID dropped : 0 <= prevID < MaxUint64 -> isNextObject f prevID dropped = true -> prevID < fw_absID f.
Proof.
  unfold isNextObject. intros Hp. rewrite u64_small by zlia. destruct (Z.eqb_spec (fw_absID f) (prevID + 1)); [lia|].
  destruct dropped; simpl; [done|]. destruct (Z.leb_spec (fw_absID f) prevID); [done|lia].
Qed.

(** One turn of the loop puts the Object after what was sent before, or gives it up
    and says so. *)
Lemma run_object_took c env f w ls cur : w_cfg w = c -> rinv c (w_run w) ls cur -> settled (w_run w) -> props_ok (w_run w) ->
  0 <= fw_absID f < MaxUint64 -> took c (fw_absID f, fw_obj f) (concat ls ++ cur) w (run_object env f w).
Proof.
  intros Hcfg H Hs Hpo Hid. unfold run_object. destruct (r_writeFailed (w_run w)) eqn:Hwf.
  { split; [by split; auto|]. do 2 (split; [done|]). exists ls, cur. split; [done|]. by rewrite Hwf. }
  assert (H1 : rinv c (set_timeouts f (w_run w)) ls cur /\ settled (set_timeouts f (w_run w)) /\
    props_ok (set_timeouts f (w_run w)) /\ r_writeFailed (set_timeouts f (w_run w)) = false /\
    r_done (set_timeouts f (w_run w)) = r_done (w_run w)).
  { unfold set_timeouts. destruct (fw_pubTimeouts f); [|done]. split_and!; try done. destruct H as [I1 I2 I3 I4].
    split; simpl; try done. destruct (r_out (w_run w)) as [o|]; [|done]. destruct I4. by split. }
  clear H Hs Hpo. set (r0 := set_timeouts f (w_run w)) in *. clearbody r0. destruct H1 as (H & Hs & Hpo & Hwf0 & Hdn).
  assert (Hpu : r_out r0 <> None -> 0 <= r_prevID r0 < MaxUint64 \/ cur = []).
  { intros Hn. destruct (r_out r0) as [o|] eqn:E; [|done]. pose proof (ri_out _ _ _ _ H) as Ho. rewrite E in Ho.
    destruct cur as [|q cur]; [by right|left]. destruct Ho as [_ _ _ _ _ Hp Hi]. specialize (Hp ltac:(done)).
    unfold last_id in Hp. destruct (last (q :: cur)) as [x|] eqn:El; [|done]. injection Hp as <-.
    apply last_Some_elem_of in El. rewrite Forall_forall in Hi. by apply Hi. }
  destruct (reopenCause f r0) as [stale r] eqn:Er. unfold reopenCause in Er.
  set (need := negb (r_withProps r0) && negb (len (so_Properties (fw_obj f)) =? 0)) in *.
  assert (Hr : rinv c r ls cur /\ r_writeFailed r = false /\ r_done r = r_done (w_run w) /\ r_out r = r_out r0 /\ r_prevID r = r_prevID r0 /\
    r_hasWritten r = r_hasWritten r0 /\ (r_withProps r = false -> so_Properties (fw_obj f) = []) /\
    (need = false -> props_ok r)).
  { injection Er as <- <-. destruct need eqn:En; simpl.
    - split_and!; try done. destruct H as [I1 I2 I3 I4]. split; simpl; try done.
      destruct (r_out r0); [|done]. destruct I4. by split.
    - split_and!; try done. intros E. unfold need in En. rewrite E in En. simpl in En. apply negb_false_iff, Z.eqb_eq in En. by apply len_zero. }
  destruct Hr as (Hr & Hwr & Hdr & Eo & Ep & Eh & Hprops & Hpr).
  assert (Hstale : stale = None -> r_out r <> None -> need = false /\ (cur <> [] -> r_prevID r < fw_absID f)).
  { intros -> Hn. rewrite Eo in Hn. destruct (r_out r0) as [o|] eqn:Eo'; [|done].
    assert (Hw0 : r_hasWritten r0 = true) by (apply Hs; [done|by eexists]).
    injection Er as Er _. destruct need; simpl in Er; rewrite Hw0 in Er; simpl in Er; [done|]. split; [done|]. intros Hc.
    destruct (isNextObject f (r_prevID r0) (r_dropped r0)) eqn:En; [|done]. rewrite Ep. eapply next_above; [|done].
    by destruct (Hpu ltac:(done)). }
  clear Er. set (w1 := set_run w r). assert (Hg1 : gate_grows w w1) by (split; simpl; auto; congruence).
  assert (Hfin : forall w', took c (fw_absID f, fw_obj f) (concat ls ++ cur) w1 w' -> took c (fw_absID f, fw_obj f) (concat ls ++ cur) w w').
  { intros w' ([K1 K2 K3 K4 K5 K5' K5'' K6 K7 K7'] & K). split; [|done]. destruct Hg1. split; simpl in *; auto; try congruence.
    intros E. destruct (K5' E); [left; congruence|auto]. }
  assert (Hsend : forall w' ls', w_cfg w' = c -> rinv c (w_run w') ls' [] -> concat ls' = concat ls ++ cur ->
     is_Some (r_out (w_run w')) -> r_writeFailed (w_run w') = false -> r_withProps (w_run w') = r_withProps r ->
     props_ok (w_run w') -> took c (fw_absID f, fw_obj f) (concat ls ++ cur) w' (send_object env f w')).
  { intros w' ls' C1 C2 C3 C4 C5 C6 C7. rewrite <- C3, <- (app_nil_r (concat ls')).
    apply send_object_took; try done. by rewrite C6. }
  apply Hfin. destruct (r_out r) as [o|] eqn:Eout.
  - unfold send_stale. destruct stale as [cause|].
    + eapply reopened_took; [done|exact Hr|done|done|done|]. intros. by eapply Hsend.
    + destruct (Hstale eq_refl) as [Hn Hlt]; [done|].
      apply send_object_took; [done|done|by eexists|done|by apply Hpr|done|done|done].
  - eapply reopened_took; [done|exact Hr|done|done|done|]. intros w' ls' C1 C2 C3 C4 C5 C6 C7 C8 C9.
    unfold send_stale. destruct stale as [cause|]; [|by eapply Hsend].
    eapply reopened_took; [done|exact C3|by rewrite app_nil_r|done|done|]. intros. eapply Hsend; try done; congruence.
Qed.

(** ** A writer among its contributors *)

(** An Object offered to a writer, with the verdict of the writer's subscription. *)
Record offer : Type := MkOffer {
  of_verdict : ForwardVerdict; of_pos : inboundPos; of_id : Z; of_obj : SubgroupObject; of_first : bool;
  of_maxAge : Z; of_headerAt : Z; of_pub : option DeliveryTimeouts }.

(** The body of [forward]'s loop over the writers. *)
Definition offer_one (now : Z) (x : offer) (w : subgroupWriter) : subgroupWriter :=
  let '(take, follows, w) := admit_verdict (of_verdict x) (of_pos x) (of_id x) w in
  if take : bool
  then publish now (MkFwd (of_obj x) (of_id x) 0 (of_headerAt x) (of_maxAge x) (of_first x) follows (of_pub x)) w
  else w.

(** The body of [admitAgedOut]'s loop: the Object is dropped. *)
Definition omit_one (v : ForwardVerdict) (id : Z) (w : subgroupWriter) : subgroupWriter :=
  if bool_decide (v = Forward) then markIncomplete StreamResetInternalError w else skip v id w.

Inductive writer_op : Type :=
| WOffer (now : Z) (x : offer)
| WOmit (x : offer)
| WClose (reset : bool) (code : Z)
| WRun (env : RunEnv)
| WCancelIO.

(** The writer, and the Objects offered before it was closed. *)
Definition writer_step (st : subgroupWriter * list offer) (o : writer_op) : subgroupWriter * list offer :=
  let '(w, offs) := st in
  let seen x := if g_once (w_gate w) then offs else offs ++ [x] in
  match o with
  | WOffer now x => (offer_one now x w, seen x)
  | WOmit x => (omit_one (of_verdict x) (of_id x) w, seen x)
  | WClose reset code => (w_close reset code w, offs)
  | WRun env => (run_step env w, offs)
  | WCancelIO => (cancelIO w, offs)
  end.

Definition op_ids (o : writer_op) : Prop :=
  match o with WOffer _ x | WOmit x => 0 <= of_id x < MaxUint64 | _ => True end.

Definition writer_run (ops : list writer_op) (c : WriterConfig) (pub : DeliveryTimeouts) : subgroupWriter * list offer :=
  fold_left writer_step ops (new_writer c pub, []).

(** The Objects the subscription selects, and whether only Objects before its start
    were left out. *)
Definition selected_of (offs : list offer) : list (Z * SubgroupObject) :=
  omap (fun x => if bool_decide (of_verdict x = Forward) then Some (of_id x, of_obj x) else None) offs.
Definition passes (x : offer) : Prop := of_verdict x = Forward \/ of_verdict x = SkipBeforeStart.
Definition queued (l : list fwdObject) : list (Z * SubgroupObject) := (fun f => (fw_absID f, fw_obj f)) <$> l.

(** A writer that has neither failed, nor dropped, nor been told to reset. *)
Definition whole (w : subgroupWriter) : Prop :=
  r_writeFailed (w_run w) = false /\ g_incomplete (w_gate w) = false /\ g_inboundReset (w_gate w) = false.

(** What a FIN says of all the streams. *)
Definition complete (c : WriterConfig) (streams : list OutgoingSubgroupStream) (o : OutgoingSubgroupStream) (offs : list offer) : Prop :=
  exists init ls l, streams = init ++ [o] /\ Forall2 (carried c) init ls /\ carries c [] o l /\
    concat ls ++ l = selected_of offs /\ Forall passes offs.

Record winv (c : WriterConfig) (st : subgroupWriter * list offer) : Prop := {
  wi_cfg : w_cfg st.1 = c;
  wi_queue : Forall (fun f => 0 <= fw_absID f < MaxUint64) (w_inbox st.1);
  wi_gate : g_closed (w_gate st.1) = true -> g_once (w_gate st.1) = true \/ r_writeFailed (w_run st.1) = true \/ r_done (w_run st.1) = true;
  wi_once : g_once (w_gate st.1) = true -> g_closed (w_gate st.1) = true;
  wi_reset : g_once (w_gate st.1) = false -> g_inboundReset (w_gate st.1) = false;
  wi_fail : r_writeFailed (w_run st.1) = true -> g_closed (w_gate st.1) = true;
  wi_pass : g_incomplete (w_gate st.1) = false -> g_inboundReset (w_gate st.1) = false -> Forall passes st.2;
  wi_loop : r_done (w_run st.1) = false -> settled (w_run st.1) /\ props_ok (w_run st.1) /\
    exists ls cur, rinv c (w_run st.1) ls cur /\
      (whole st.1 -> concat ls ++ cur ++ queued (w_inbox st.1) = selected_of st.2);
  wi_done : r_done (w_run st.1) = true -> r_out (w_run st.1) = None /\ w_inbox st.1 = [] /\
    g_closed (w_gate st.1) = true /\ open_after (r_calls (w_run st.1)) = 0 /\
    forall o, o ∈ r_streams (w_run st.1) -> finned o ->
      g_once (w_gate st.1) = true /\ g_inboundReset (w_gate st.1) = false /\ complete c (r_streams (w_run st.1)) o st.2 }.

Lemma new_winv c pub : winv c (new_writer c pub, []).
Proof.
  split; simpl; try done. intros _. split; [by intros _ []|]. split; [done|]. exists [], []. split; [|done].
  split; simpl; [by constructor|by constructor|done|done].
Qed.

Lemma passes_snoc offs x : Forall passes offs -> passes x -> Forall passes (offs ++ [x]).
Proof. intros. apply Forall_app. split; [done|]. by apply Forall_singleton. Qed.

Lemma selected_snoc offs x : selected_of (offs ++ [x]) =
  selected_of offs ++ (if bool_decide (of_verdict x = Forward) then [(of_id x, of_obj x)] else []).
Proof. unfold selected_of. rewrite omap_app. simpl. by case_bool_decide. Qed.

(** How a contributor's call may change a writer: the goroutine's state stays. *)
Record gated (w w' : subgroupWriter) : Prop := {
  ga_cfg : w_cfg w' = w_cfg w; ga_run : w_run w' = w_run w; ga_inbox : w_inbox w' = w_inbox w;
  ga_incomplete : g_incomplete (w_gate w) = true -> g_incomplete (w_gate w') = true;
  ga_closed : g_closed (w_gate w) = true -> g_closed (w_gate w') = true;
  ga_new : g_closed (w_gate w') = true -> g_closed (w_gate w) = true \/ g_once (w_gate w') = true;
  ga_once : g_once (w_gate w) = true -> g_once (w_gate w') = true /\ g_inboundReset (w_gate w') = g_inboundReset (w_gate w);
  ga_old : g_once (w_gate w') = true -> g_once (w_gate w) = true \/ g_closed (w_gate w') = true;
  ga_reset : g_once (w_gate w') = false -> g_inboundReset (w_gate w') = g_inboundReset (w_gate w) }.

Lemma gated_refl w : gated w w.
Proof. split; auto. Qed.
Lemma gated_mark code w : gated w (markIncomplete code w) /\ g_incomplete (w_gate (markIncomplete code w)) = true.
Proof.
  unfold markIncomplete, markIncompleteLocked. destruct (g_incomplete (w_gate w)) eqn:E; simpl; [destruct (code =? _)|];
    (split; [split; simpl; auto|done]).
Qed.
Lemma gated_close reset code w : gated w (w_close reset code w) /\ g_once (w_gate (w_close reset code w)) = true /\
  (g_once (w_gate w) = false -> g_inboundReset (w_gate (w_close reset code w)) = reset) /\ g_closed (w_gate (w_close reset code w)) = true \/
  g_once (w_gate w) = true /\ w_close reset code w = w.
Proof.
  unfold w_close. destruct (g_once (w_gate w)) eqn:E; [by right|left]. split; [|done]. split; simpl; auto; congruence.
Qed.

Lemma gated_trans w1 w2 w3 : gated w1 w2 -> gated w2 w3 -> gated w1 w3.
Proof.
  intros [A1 A2 A3 A4 A5 A6 A7 A8 A9] [B1 B2 B3 B4 B5 B6 B7 B8 B9]. split; try congruence; auto.
  - intros H. destruct (B6 H) as [E|E]; [|auto]. destruct (A6 E) as [?|E']; [auto|]. right. by apply B7.
  - intros H. destruct (A7 H) as [E1 E2]. destruct (B7 E1) as [F1 F2]. split; congruence.
  - intros H. destruct (B8 H) as [E|E]; [|auto]. destruct (A8 E) as [?|?]; [auto|]. right. auto.
  - intros H. rewrite (B9 H). apply A9. destruct (g_once (w_gate w2)) eqn:E; [|done]. destruct (B7 eq_refl). congruence.
Qed.

(** The Objects seen once [x] is offered to [w]. *)
Definition seen (w : subgroupWriter) (offs : list offer) (x : offer) : list offer :=
  if g_once (w_gate w) then offs else offs ++ [x].

Lemma gated_whole c w offs w' : winv c (w, offs) -> gated w w' -> whole w' -> whole w.
Proof.
  intros H G (Hf & Hi & Hr). destruct G. rewrite ga_run0 in Hf. split; [done|]. split.
  - destruct (g_incomplete (w_gate w)) eqn:E; [|done]. by rewrite ga_incomplete0 in Hi.
  - destruct (g_once (w_gate w)) eqn:E; [|by apply H]. destruct (ga_once0 eq_refl). congruence.
Qed.

Lemma gated_winv c w offs w' offs' : winv c (w, offs) -> gated w w' ->
  (g_once (w_gate w) = true -> offs' = offs) ->
  (g_incomplete (w_gate w') = false -> g_inboundReset (w_gate w') = false -> Forall passes offs') ->
  (r_done (w_run w) = false -> whole w' -> selected_of offs' = selected_of offs) -> winv c (w', offs').
Proof.
  intros H G Ho Hp Hs. pose proof (gated_whole _ _ _ _ H G) as Hw. destruct H as [H1 H2 H3 H4 H5 H6 H7 H8 H9], G as [G1 G2 G3 G4 G5 G6 G7 G8 G9].
  simpl in *. split; simpl; rewrite ?G2, ?G3; auto; try congruence.
  - intros E. destruct (G6 E) as [E'|?]; [|auto]. destruct (H3 E') as [?|?]; [|auto]. left. by apply G7.
  - intros E. destruct (G8 E); auto.
  - intros E. rewrite (G9 E). apply H5. destruct (g_once (w_gate w)) eqn:E'; [|done]. destruct (G7 eq_refl). congruence.
  - intros Hd. destruct (H8 Hd) as (K1 & K2 & ls & cur & K3 & K4). split; [done|]. split; [done|]. exists ls, cur. split; [done|].
    intros Hw'. rewrite (Hs Hd Hw'). auto.
  - intros Hd. destruct (H9 Hd) as (K1 & K2 & K3 & K4 & K5). split_and!; auto. intros o Hin Hf.
    destruct (K5 o Hin Hf) as (E & Er & Hc). rewrite (Ho E). destruct (G7 E) as [-> ->]. done.
Qed.

Lemma gated_adm w a : gated w (set_adm w a).
Proof. split; auto. Qed.

Lemma skip_gated v id w : gated w (skip v id w).
Proof.
  unfold skip. destruct v; try apply gated_refl; try apply gated_mark.
  - destruct (_ && _); [apply gated_mark|apply gated_refl].
  - destruct (gated_close true StreamResetCancelled w) as [[? _]|[_ ->]]; [done|apply gated_refl].
  - destruct (gated_close true StreamResetCancelled w) as [[? _]|[_ ->]]; [done|apply gated_refl].
Qed.

(** A skipped Object that is not before the start leaves its mark. *)
Lemma skip_marks v id w : v <> Forward -> v <> SkipBeforeStart -> g_once (w_gate w) = false ->
  g_incomplete (w_gate (skip v id w)) = true \/ g_inboundReset (w_gate (skip v id w)) = true.
Proof.
  intros H1 H2 Ho. destruct v; try done; simpl.
  - left. apply gated_mark.
  - left. apply gated_mark.
  - right. unfold w_close. by rewrite Ho.
  - right. unfold w_close. by rewrite Ho.
Qed.

Lemma skip_winv c w offs x w' : winv c (w, offs) -> of_verdict x <> Forward -> gated (skip (of_verdict x) (of_id x) w) w' ->
  w_gate w' = w_gate (skip (of_verdict x) (of_id x) w) -> winv c (w', seen w offs x).
Proof.
  intros H Hv G Hg. eapply gated_winv; [exact H|by eapply gated_trans; [apply skip_gated|]|..]; unfold seen.
  - by intros ->.
  - intros Hi Hr. pose proof (gated_trans _ _ _ (skip_gated _ _ _) G) as GG.
    destruct (g_once (w_gate w)) eqn:Eo.
    + destruct GG as [_ _ _ GI _ _ GO _ _]. apply H; simpl.
      * destruct (g_incomplete (w_gate w)); [|done]. by rewrite GI in Hi.
      * destruct (GO Eo) as [_ E]. congruence.
    + apply passes_snoc.
      * apply H; simpl; [|by apply H]. destruct (g_incomplete (w_gate w)) eqn:E; [|done]. by rewrite (ga_incomplete _ _ GG E) in Hi.
      * destruct (decide (of_verdict x = SkipBeforeStart)); [by right|]. rewrite Hg in Hi, Hr.
        destruct (skip_marks (of_verdict x) (of_id x) w); congruence.
  - intros _ _. destruct (g_once (w_gate w)); [done|]. rewrite selected_snoc. rewrite bool_decide_false by done. by rewrite app_nil_r.
Qed.

Lemma publish_winv c w offs x now f : winv c (w, offs) -> of_verdict x = Forward -> 0 <= of_id x < MaxUint64 ->
  fw_absID f = of_id x -> fw_obj f = of_obj x -> winv c (publish now f w, seen w offs x).
Proof.
  intros H Hv Hid Hf1 Hf2. unfold publish. destruct (g_closed (w_gate w)) eqn:Ec.
  { eapply gated_winv; [exact H|apply gated_refl|..]; unfold seen.
    - by intros ->.
    - intros Hi Hr. destruct (g_once _); [by apply H|]. apply passes_snoc; [by apply H|by left].
    - intros Hd (Hwf & _). destruct (wi_gate _ _ H Ec) as [E|[?|?]]; simpl in *; [by rewrite E|simpl in *; congruence|simpl in *; congruence]. }
  assert (Ho : g_once (w_gate w) = false).
  { destruct (g_once (w_gate w)) eqn:E; [|done]. pose proof (wi_once _ _ H E). simpl in *. congruence. }
  assert (Hd : r_done (w_run w) = false).
  { destruct (r_done (w_run w)) eqn:E; [|done]. destruct (wi_done _ _ H E) as (_ & _ & ? & _). simpl in *. congruence. }
  unfold seen. rewrite Ho. destruct (Z.ltb_spec (len (w_inbox w)) (c_cap (w_cfg w))).
  - destruct H as [H1 H2 H3 H4 H5 H6 H7 H8 H9]. simpl in *. split; simpl; auto.
    + apply Forall_app. split; [done|]. apply Forall_singleton. simpl. by rewrite Hf1.
    + intros. apply passes_snoc; [auto|by left].
    + intros _. destruct (H8 Hd) as (K1 & K2 & ls & cur & K3 & K4). do 2 (split; [done|]). exists ls, cur. split; [done|].
      intros Hw. rewrite selected_snoc, bool_decide_true by done. unfold queued. rewrite fmap_app, !app_assoc. simpl.
      rewrite Hf1, Hf2. f_equal. rewrite <- app_assoc. by apply K4.
    + congruence.
  - set (w1 := set_gate _ _). assert (G1 : gated w w1 /\ g_incomplete (w_gate w1) = true).
    { unfold w1, markIncompleteLocked. rewrite Z.eqb_refl, orb_true_r. split; [split; simpl; auto; congruence|done]. }
    destruct G1 as [G1 I1]. clearbody w1. assert (G2 : gated w1 (if drop_capped w1 then w_close true StreamResetExcessiveLoad w1 else w1)).
    { destruct (drop_capped w1); [|apply gated_refl]. destruct (gated_close true StreamResetExcessiveLoad w1) as [[? _]|[_ ->]]; [done|apply gated_refl]. }
    pose proof (ga_incomplete _ _ G2 I1) as I2. eapply gated_winv; [exact H|by eapply gated_trans|..].
    + congruence.
    + congruence.
    + intros _ (_ & E & _). congruence.
Qed.

Lemma offer_winv c w offs now x : winv c (w, offs) -> 0 <= of_id x < MaxUint64 -> winv c (offer_one now x w, seen w offs x).
Proof.
  intros H Hid. unfold offer_one, admit_verdict. set (follows := bool_decide _ && _).
  destruct (decide (of_verdict x = Forward)) as [E|E].
  - rewrite E. set (w1 := set_adm w _). assert (Hw : winv c (w1, offs)).
    { eapply gated_winv; [exact H|apply gated_adm|done|apply H|done]. }
    change (seen w offs x) with (seen w1 offs x). by apply publish_winv.
  - assert (Hk : winv c (if follows then set_adm (skip (of_verdict x) (of_id x) w)
        (MkAdm (a_lastAdmitted (w_adm (skip (of_verdict x) (of_id x) w)))
           (a_hasAdmitted (w_adm (skip (of_verdict x) (of_id x) w))) (of_pos x)) else skip (of_verdict x) (of_id x) w, seen w offs x)).
    { apply skip_winv; [done|done| |by destruct follows]. destruct follows; [apply gated_adm|apply gated_refl]. }
    by destruct (of_verdict x).
Qed.

Lemma omit_winv c w offs x : winv c (w, offs) -> winv c (omit_one (of_verdict x) (of_id x) w, seen w offs x).
Proof.
  intros H. unfold omit_one. case_bool_decide as E.
  - destruct (gated_mark StreamResetInternalError w) as [G I]. eapply gated_winv; [exact H|exact G|..]; unfold seen.
    + by intros ->.
    + congruence.
    + intros _ (_ & Hi & _). congruence.
  - apply skip_winv; [done|done|apply gated_refl|done].
Qed.

Lemma close_winv c w offs reset code : winv c (w, offs) -> winv c (w_close reset code w, offs).
Proof.
  intros H. destruct (gated_close reset code w) as [(G & _ & Hr & _)|[_ ->]]; [|done].
  eapply gated_winv; [exact H|exact G|done| |done].
  intros Hi Hr'. apply H; simpl.
  - destruct (g_incomplete (w_gate w)) eqn:E; [|done]. by rewrite (ga_incomplete _ _ G E) in Hi.
  - destruct (g_once (w_gate w)) eqn:E; [|by apply H]. destruct (ga_once _ _ G E). congruence.
Qed.

(** *** The goroutine's steps *)

Lemma cancel_open c code r r' o cur : r_hasWritten r' = r_hasWritten r -> r_prevID r' = r_prevID r ->
  open_ok c r o cur -> open_ok c r' (os_Cancel code o) cur.
Proof.
  intros E1 E2 [H1 H2 H3 H4 H5 H6 H7]. split; try congruence; try done.
  - by apply carries_cancel.
  - by apply finned_cancel.
  - intros ?. rewrite E2. auto.
Qed.

Lemma cancelIO_winv c w offs : winv c (w, offs) -> winv c (cancelIO w, offs).
Proof.
  intros [H1 H2 H3 H4 H5 H6 H7 H8 H9]. simpl in *. unfold cancelIO. split; simpl; auto.
  - intros Hd. destruct (H8 Hd) as (K1 & K2 & ls & cur & [R1 R2 R3 R4] & K4). split; [|split].
    + intros Hf [o Ho]. simpl in *. apply K1; [done|]. destruct (r_ctxDone (w_run w)); [by eexists|].
      destruct (r_out (w_run w)); [by eexists|done].
    + intros o Ho. simpl in *. destruct (r_ctxDone (w_run w)); [by apply K2|]. destruct (r_out (w_run w)) as [o'|] eqn:E; [|done].
      injection Ho as <-. simpl. by apply (K2 o').
    + exists ls, cur. split; [|done]. destruct (r_out (w_run w)) as [o|] eqn:E.
      * split; simpl; [done|done|by destruct (r_ctxDone _)|]. destruct (r_ctxDone _); simpl.
        -- destruct R4. by split.
        -- eapply (cancel_open c _ (w_run w)); [done|done|exact R4].
      * split; simpl; [done|done|by destruct (r_ctxDone _)|by destruct (r_ctxDone _)].
  - intros Hd. destruct (H9 Hd) as (K1 & K). rewrite K1. split; [by destruct (r_ctxDone _)|done].
Qed.

Lemma queued_cons f rest : queued (f :: rest) = (fw_absID f, fw_obj f) :: queued rest.
Proof. done. Qed.

Definition finished (r : RunState) : RunState :=
  MkRun (r_prevID r) (r_hasWritten r) (r_writeFailed r) (r_dropped r) (r_withProps r) (r_pubTimeouts r) (r_out r)
    (r_prio r) (r_streams r) (r_calls r) (r_ctxDone r) true.

(** Ending the goroutine: a FIN only after everything selected was sent. *)
Lemma finished_winv c w offs g r : winv c (w, offs) -> g_once g = g_once (w_gate w) ->
  g_inboundReset g = g_inboundReset (w_gate w) -> g_incomplete g = g_incomplete (w_gate w) ->
  r_out r = None -> open_after (r_calls r) = 0 ->
  (forall o, o ∈ r_streams r -> finned o ->
     g_once (w_gate w) = true /\ g_inboundReset (w_gate w) = false /\ complete c (r_streams r) o offs) ->
  winv c (MkWriter (w_cfg w) (gate_closed g) (w_adm w) [] (finished r), offs).
Proof.
  intros [H1 H2 H3 H4 H5 H6 H7 H8 H9] E1 E2 E3 Ho Hc Hf. simpl in *. split; simpl; rewrite ?E1, ?E2, ?E3; auto; done.
Qed.

Lemma reset_winv c w offs g r ls cur code calls : winv c (w, offs) -> rinv c r ls cur -> g_once g = g_once (w_gate w) ->
  g_inboundReset g = g_inboundReset (w_gate w) -> g_incomplete g = g_incomplete (w_gate w) -> open_after calls = 0 ->
  winv c (MkWriter (w_cfg w) (gate_closed g) (w_adm w) [] (finished (add_calls calls (closeOut false code r))), offs).
Proof.
  intros H Hr E1 E2 E3 E4. destruct (closeOut_rinv _ _ _ _ code Hr) as (ls' & [R1 R2 R3 R4] & _ & Hn). rewrite Hn in R3.
  apply finished_winv; try done; simpl.
  - by rewrite open_after_app, R3, E4.
  - intros o Hin Hf. rewrite Forall_forall in R2. by apply R2 in Hf.
Qed.

Lemma add_no_calls r : add_calls [] r = r.
Proof. unfold add_calls. rewrite app_nil_r. by destruct r. Qed.

Lemma closeOut_twice b code fin code' r : closeOut b code (closeOut fin code' r) = closeOut fin code' r.
Proof. unfold closeOut at 2 3. destruct (r_out r) eqn:E; [done|]. unfold closeOut. by rewrite E. Qed.

Lemma closeOut_add_calls b code l r : r_out r = None -> closeOut b code (add_calls l r) = add_calls l r.
Proof. intros E. unfold closeOut. simpl. by rewrite E. Qed.

Lemma closeOut_none b code r : r_out (closeOut b code r) = None.
Proof. unfold closeOut. by destruct (r_out r) eqn:E. Qed.

Lemma run_exit_eq w : run_exit w =
  MkWriter (w_cfg w) (gate_closed (w_gate w)) (w_adm w) [] (finished (closeOut false StreamResetCancelled (w_run w))).
Proof. done. Qed.

Lemma finish_winv c w offs lag : winv c (w, offs) -> r_done (w_run w) = false ->
  (lag = false -> w_inbox w = [] /\ g_once (w_gate w) = true) ->
  winv c (run_exit (finishStream lag (r_writeFailed (w_run w)) w), offs).
Proof.
  intros H Hd Hlag. destruct (wi_loop _ _ H Hd) as (K1 & K2 & ls & cur & Hr & K4). simpl in *.
  assert (Hreset : forall g code calls, g_once g = g_once (w_gate w) -> g_inboundReset g = g_inboundReset (w_gate w) ->
    g_incomplete g = g_incomplete (w_gate w) -> open_after calls = 0 ->
    winv c (run_exit (set_run (set_gate w g) (add_calls calls (closeOut false code (w_run w)))), offs)).
  { intros g code calls E1 E2 E3 E4. rewrite run_exit_eq. simpl.
    rewrite closeOut_add_calls by apply closeOut_none. by eapply reset_winv. }
  assert (Hend : forall code, winv c (run_exit (set_run w (closeOut false code (w_run w))), offs)).
  { intros code. specialize (Hreset (w_gate w) code [] eq_refl eq_refl eq_refl eq_refl).
    by rewrite add_no_calls in Hreset. }
  unfold finishStream. destruct (lag || drop_capped w) eqn:El.
  { by apply Hreset; simpl. }
  apply orb_false_iff in El as [-> Edrop]. destruct (Hlag eq_refl) as [Hq Ho].
  assert (Hkeep : winv c (run_exit w, offs)).
  { rewrite run_exit_eq, <- (add_no_calls (closeOut _ _ _)). by eapply reset_winv. }
  destruct (r_writeFailed (w_run w)) eqn:Hwf; [done|]. destruct (r_out (w_run w)) as [o|] eqn:Eo; [|done].
  destruct (g_inboundReset (w_gate w)) eqn:Er.
  { apply Hend. }
  destruct (g_incomplete (w_gate w)) eqn:Ei.
  { apply Hend. }
  rewrite run_exit_eq. simpl. rewrite closeOut_twice. unfold closeOut. rewrite Eo.
  destruct Hr as [R1 R2 R3 R4]. rewrite Eo in *. apply finished_winv; try done; simpl.
  - by rewrite open_after_app, R3.
  - intros o' Hin Hf. split; [done|]. split; [done|]. apply elem_of_app in Hin as [Hin|Hin].
    { rewrite Forall_forall in R2. by apply R2 in Hf. }
    apply list_elem_of_singleton in Hin as ->. exists (r_streams (w_run w)), ls, cur. split_and!; [done|done| | |].
    + apply carries_close, R4.
    + rewrite <- K4 by done. rewrite Hq. simpl. by rewrite app_nil_r.
    + by apply H.
Qed.

Lemma run_winv c w offs env : winv c (w, offs) -> winv c (run_step env w, offs).
Proof.
  intros H. unfold run_step. destruct (r_done (w_run w)) eqn:Hd; [done|].
  destruct (w_inbox w) as [|f rest] eqn:Eq.
  { destruct (g_once (w_gate w)) eqn:Eo; [|done]. by apply finish_winv. }
  destruct (lagging (re_lagNow env) f (set_inbox w rest)) eqn:El.
  - pose proof H as [H1 H2 H3 H4 H5 H6 H7 H8 H9]. simpl in *.
    change (r_writeFailed (w_run (set_inbox w rest))) with (r_writeFailed (w_run w)).
    assert (Ex : run_exit (finishStream true (r_writeFailed (w_run w)) (set_inbox w rest)) =
      run_exit (finishStream true (r_writeFailed (w_run w)) w)) by done.
    rewrite Ex. by apply finish_winv.
  - destruct H as [H1 H2 H3 H4 H5 H6 H7 H8 H9]. simpl in *. rewrite Eq in *. apply Forall_cons in H2 as [Hf H2].
    destruct (H8 Hd) as (K1 & K2 & ls & cur & Hr & K4).
    destruct (run_object_took c env f (set_inbox w rest) ls cur) as ([T1 T2 T3 T4 T5 T5' T5'' T6 T7 T7'] & T8 & T9 & ls' & cur' & Hr' & T10); [done..|].
    set (w' := run_object env f (set_inbox w rest)) in *. clearbody w'. simpl in *.
    assert (Hinc : g_incomplete (w_gate w') = false -> g_incomplete (w_gate w) = false).
    { intros E. destruct (g_incomplete (w_gate w)); [|done]. by rewrite T1 in E. }
    split; simpl; rewrite ?T7; auto; try congruence.
    + intros E. rewrite T2, T7'. destruct (T4 E) as [E'|?]; [|auto]. destruct (H3 E') as [?|[?|?]]; [auto|right; left; auto|auto].
    + rewrite T2. auto.
    + rewrite T2, T3. auto.
    + intros E. destruct (T5' E) as [E'|?]; [|done]. auto.
    + intros Hi Hrs. apply H7; [auto|congruence].
    + intros _. split; [done|]. split; [done|]. exists ls', cur'. split; [done|]. intros (W1 & W2 & W3).
      rewrite app_assoc, T10 by done. rewrite <- app_assoc. simpl. rewrite <- K4; [by rewrite <- app_assoc|].
      split_and!; [|auto|congruence]. destruct (r_writeFailed (w_run w)); [|done]. by rewrite T5'' in W1.
Qed.

Lemma writer_step_winv c st o : winv c st -> op_ids o -> winv c (writer_step st o).
Proof.
  destruct st as [w offs]. intros H Ho. destruct o as [now x|x|reset code|env|]; simpl in *.
  - by apply offer_winv.
  - by apply omit_winv.
  - by apply close_winv.
  - by apply run_winv.
  - by apply cancelIO_winv.
Qed.

Lemma writer_run_winv ops c pub : Forall op_ids ops -> winv c (writer_run ops c pub).
Proof.
  intros H. unfold writer_run. pose proof (new_winv c pub) as Hw. revert Hw. generalize (new_writer c pub, @nil offer).
  induction H as [|o ops Ho _ IH]; intros st Hst; simpl; [done|]. by apply IH, writer_step_winv.
Qed.

(** ** What subscribers see *)

(** An Object as a contributor read it: valid, its ID below the largest one. *)
Definition offer_wf (o : writer_op) : Prop :=
  match o with WOffer _ x | WOmit x => of_id x < MaxUint64 /\ obj_ok true (of_id x, of_obj x) | _ => True end.

Lemma offer_wf_ids o : offer_wf o -> op_ids o.
Proof. destruct o; simpl; try done; intros (H1 & H2 & _); simpl in H2; zlia. Qed.

Lemma seen_objects ops st : Forall offer_wf ops -> Forall (obj_ok true) (selected_of st.2) ->
  Forall (obj_ok true) (selected_of (fold_left writer_step ops st).2).
Proof.
  intros H. revert st. induction H as [|o ops Ho _ IH]; intros [w offs] Hst; cbn [fold_left]; [done|]. apply IH.
  assert (Hx : forall x, obj_ok true (of_id x, of_obj x) -> Forall (obj_ok true) (selected_of (seen w offs x))).
  { intros x Hok. unfold seen. destruct (g_once _); [done|]. rewrite selected_snoc. apply Forall_app. split; [done|].
    case_bool_decide; [by apply Forall_singleton|constructor]. }
  destruct o; simpl in *; try done; apply Hx, Ho.
Qed.

Lemma stream_header_wf h wp first : wf_sh h -> wf_sh (stream_header h wp first).
Proof.
  intros (H1 & H2 & H3 & H4 & H5). unfold wf_sh, stream_header; simpl. split_and!; try done.
  destruct (negb first && _); [|done]. unfold modes. apply elem_of_cons. rewrite !elem_of_cons. auto.
Qed.

Lemma obj_ok_props hp p : obj_ok true p -> (hp = false -> so_Properties p.2 = []) -> obj_ok hp p.
Proof. intros (H1 & (W1 & W2 & W3 & W4 & W5 & W6) & H3) Hp. unfold obj_ok, wf_so. by split_and!. Qed.

(** What a stream carries in full, a subscriber reads. *)
Lemma carries_read c o l : wf_sh (c_hdr c) -> carries c [] o l -> Forall (obj_ok true) l ->
  exists r s' e, acceptDataStream None (MkStream (wire (os_events o)) Fin) = Accepted (DSSubgroup r) /\
    reads r (expect (os_header o) (stream_subgroup (os_header o) l) <$> l) s' /\
    ReadDecoded s' = Failed e false /\ errors_Is e EOF = true.
Proof.
  intros Hh [H1 H2 H3 (wp & first & H4)] Hl. set (h := os_header o) in *.
  assert (Hw : wf_sh h) by (rewrite H4; by apply stream_header_wf).
  rewrite H1, accept_written by done. set (r := NewIncomingSubgroup (norm_sh h) _). exists r.
  destruct (reads_enc l r []) as (s' & Hr & Hhd & Ht); [|done|done|done|].
  { apply Forall_forall. intros p Hp. rewrite Forall_forall in Hl. apply obj_ok_props; [by apply Hl|].
    intros E. specialize (H3 E). rewrite Forall_forall in H3. by apply H3. }
  destruct (ReadDecoded_end s' Ht) as (e & He & Hf). exists s', e. split_and!; [done| |done|done].
  rewrite <- expect_norm by done. exact Hr.
Qed.

Definition is_fin (ev : event) : bool := match ev with EvClose _ => true | _ => false end.
Lemma finned_dec o : existsb is_fin (os_events o) = true -> finned o.
Proof.
  intros (ev & Hin & He)%existsb_exists. destruct ev; try done. eexists. by apply list_elem_of_In.
Qed.

(** A FIN tells a subscriber the truth.  Under any interleaving of contributors
    offering and dropping Objects, the writer's goroutine, cancellations, failing
    writes, queue overflow and expiry, a Subgroup writer ends a stream with a FIN
    only if every Object offered to it since it was opened, and before it was closed,
    was either sent or precedes the subscription's start; the Objects it sent are
    spread over its streams in the order offered; and on the stream it ends, the
    subscriber reads exactly its share of them, with their Object IDs, properties
    and payloads, and then a clean end. *)
Theorem fin_means_complete c pub ops o : wf_sh (c_hdr c) -> Forall offer_wf ops ->
  let '(w, offs) := writer_run ops c pub in
  o ∈ r_streams (w_run w) -> finned o ->
  exists init ls l, r_streams (w_run w) = init ++ [o] /\ Forall2 (carried c) init ls /\
    concat ls ++ l = selected_of offs /\ Forall passes offs /\
    exists r s' e, acceptDataStream None (MkStream (wire (os_events o)) Fin) = Accepted (DSSubgroup r) /\
      reads r (expect (os_header o) (stream_subgroup (os_header o) l) <$> l) s' /\
      ReadDecoded s' = Failed e false /\ errors_Is e EOF = true.
Proof.
  intros Hh Hops. pose proof (writer_run_winv ops c pub) as Hw.
  pose proof (seen_objects ops (new_writer c pub, []) Hops ltac:(constructor)) as Hok. fold (writer_run ops c pub) in Hok.
  destruct (writer_run ops c pub) as [w offs]. simpl in Hok. intros Hin Hf.
  destruct Hw as [_ _ _ _ _ _ _ Hloop Hdone]; [by eapply Forall_impl; [|exact offer_wf_ids]|]. simpl in *.
  destruct (r_done (w_run w)) eqn:Hd.
  - destruct (Hdone eq_refl) as (_ & _ & _ & _ & Hc). destruct (Hc o Hin Hf) as (_ & _ & init & ls & l & E1 & E2 & E3 & E4 & E5).
    exists init, ls, l. split_and!; try done. eapply carries_read; [done|done|]. rewrite <- E4 in Hok. by apply Forall_app in Hok as [_ ?].
  - destruct (Hloop eq_refl) as (_ & _ & ls & cur & [_ R2 _ _] & _). rewrite Forall_forall in R2. by apply R2 in Hf.
Qed.

Definition sample_cfg : WriterConfig :=
  MkCfg 1 0 (MkSubgroupHeader false SubgroupIDExplicit false true false 7 3 5 128) 4 0 0 (MkDT 0 0) false false.
Definition sample_offer (v : ForwardVerdict) (seq id : Z) : offer :=
  MkOffer v (MkPos (Some 1) seq) id sample_object (seq =? 1) 0 0 None.
Definition sample_env : RunEnv :=
  MkRunEnv 0 (MkOpen (NewDownstreamSub 1 7 true) true) (MkOpen (NewDownstreamSub 1 7 true) true) 0 0 Written.
Definition sample_ops : list writer_op :=
  [WOffer 0 (sample_offer SkipBeforeStart 1 2); WOffer 0 (sample_offer Forward 2 4); WRun sample_env;
   WOffer 0 (sample_offer Forward 3 9); WClose false 0; WRun sample_env; WRun sample_env].
Definition sample_stream : OutgoingSubgroupStream :=
  default (NewOutgoingSubgroup (c_hdr sample_cfg) false false false)
    (last (r_streams (w_run (writer_run sample_ops sample_cfg (MkDT 0 0)).1))).

Lemma fin_means_complete_witness :
  (exists ls l, concat ls ++ l = [(4, sample_object); (9, sample_object)]) /\
  exists r s' e, acceptDataStream None (MkStream (wire (os_events sample_stream)) Fin) = Accepted (DSSubgroup r) /\
    reads r [Some (MkDecSub 3 5 4 0 [] [Byte.x01; Byte.x02]); Some (MkDecSub 3 5 9 0 [] [Byte.x01; Byte.x02])] s' /\
    ReadDecoded s' = Failed e false /\ errors_Is e EOF = true.
Proof.
  assert (Hso : wf_so (S:=Stream) true sample_object).
  { unfold wf_so; simpl. rewrite ?MaxStreamFieldSize_val. split_and!; by_decide || done. }
  assert (Hx : forall v seq id, 0 <= id < MaxUint64 -> offer_wf (WOffer 0 (sample_offer v seq id))).
  { intros v seq id Hid. split; [apply Hid|]. split; [simpl; zlia|]. by split. }
  assert (Hall : Forall offer_wf sample_ops).
  { unfold sample_ops. rewrite !Forall_cons. split_and!; try done; apply Hx; zlia. }
  assert (Hh : wf_sh (c_hdr sample_cfg)).
  { unfold wf_sh, modes. simpl. split_and!; [rewrite !elem_of_cons; auto|zlia|zlia|zlia|zlia]. }
  pose proof (fin_means_complete sample_cfg (MkDT 0 0) sample_ops sample_stream Hh) as H.
  specialize (H Hall). destruct (writer_run sample_ops sample_cfg (MkDT 0 0)) as [w offs] eqn:E.
  assert (Es : r_streams (w_run w) = [sample_stream] /\ selected_of offs = [(4, sample_object); (9, sample_object)]).
  { unfold sample_stream. rewrite E. simpl. vm_compute in E. injection E as <- <-. split; reflexivity. }
  destruct Es as [Es Eo]. destruct H as (init & ls & l & H1 & H2 & H3 & _ & Hr).
  - rewrite Es. left.
  - apply finned_dec. vm_compute. reflexivity.
  - rewrite Eo in H3. split; [by exists ls, l|]. rewrite Es in H1. apply (f_equal length) in H1. rewrite length_app in H1. cbn [length] in H1.
    destruct init as [|? ?]; [|cbn [length] in H1; lia]. apply Forall2_nil_inv_l in H2. subst ls. cbn [concat app] in H3.
    subst l. exact Hr.
Defined.

(** *** The goroutine ends *)

Lemma finish_once lag wf w : g_once (w_gate (run_exit (finishStream lag wf w))) = g_once (w_gate w).
Proof. unfold finishStream. destruct (lag || drop_capped w); [done|]. destruct wf; [done|]. by destruct (r_out (w_run w)). Qed.

Lemma run_step_once c env w offs : winv c (w, offs) -> g_once (w_gate w) = true -> r_done (w_run w) = false ->
  g_once (w_gate (run_step env w)) = true /\
  (r_done (w_run (run_step env w)) = true \/ S (length (w_inbox (run_step env w))) = length (w_inbox w)).
Proof.
  intros H Ho Hd. unfold run_step. rewrite Hd. destruct (w_inbox w) as [|f rest] eqn:Eq.
  - rewrite Ho, finish_once. by split; [|left].
  - destruct (lagging _ f _); [rewrite finish_once; by split; [|left]|].
    destruct (wi_loop _ _ H Hd) as (K1 & K2 & ls & cur & Hr & _). pose proof (wi_queue _ _ H) as Hq. simpl in *. rewrite Eq in Hq.
    destruct (run_object_took c env f (set_inbox w rest) ls cur) as ([] & _); simpl in *; [apply H|done|done|done|by inversion Hq|].
    rewrite gg_once0, gg_inbox0. split; [done|]. by right.
Qed.

Definition run_steps (envs : list RunEnv) (w : subgroupWriter) : subgroupWriter := fold_left (fun w env => run_step env w) envs w.

Lemma run_steps_done c envs : forall w offs, winv c (w, offs) -> g_once (w_gate w) = true ->
  r_done (w_run w) = true \/ (length (w_inbox w) < length envs)%nat ->
  winv c (run_steps envs w, offs) /\ r_done (w_run (run_steps envs w)) = true.
Proof.
  induction envs as [|env envs IH]; intros w offs H Ho Hl; cbn [run_steps fold_left].
  - split; [done|]. destruct Hl as [?|Hl]; [done|simpl in Hl; lia].
  - apply IH; [by apply run_winv| |].
    + destruct (r_done (w_run w)) eqn:Hd; [unfold run_step; by rewrite Hd|]. by eapply run_step_once.
    + destruct (r_done (w_run w)) eqn:Hd; [left; unfold run_step; by rewrite Hd|].
      destruct (run_step_once c env w offs H Ho Hd) as [_ [?|E]]; [by left|]. right.
      destruct Hl as [?|Hl]; [done|]. simpl in Hl. lia.
Qed.

(** C10: a Subgroup writer always ends.  Once it has been closed, whatever the
    transport and the clock do, its goroutine ends after as many turns as it has
    queued Objects and one more; then it has no stream open, every stream it opened
    has been reported closed to the subscription, whose PUBLISH_DONE waits for that,
    and its queue is empty. *)
Theorem writer_ends c pub ops envs : Forall op_ids ops ->
  let '(w, _) := writer_run ops c pub in
  g_once (w_gate w) = true -> (length (w_inbox w) < length envs)%nat ->
  let r := w_run (run_steps envs w) in
  r_done r = true /\ r_out r = None /\ open_after (r_calls r) = 0 /\ w_inbox (run_steps envs w) = [].
Proof.
  intros Hops. pose proof (writer_run_winv ops c pub Hops) as Hw. destruct (writer_run ops c pub) as [w offs]. intros Ho Hl.
  destruct (run_steps_done c envs w offs Hw Ho) as [H Hd]; [by right|]. destruct (wi_done _ _ H Hd) as (? & ? & _ & ? & _). done.
Qed.

Lemma writer_ends_witness :
  let w := (writer_run (take 5 sample_ops) sample_cfg (MkDT 0 0)).1 in
  length (w_inbox w) = 1%nat /\ r_done (w_run w) = false /\
  r_done (w_run (run_steps [sample_env; sample_env] w)) = true /\
  r_calls (w_run (run_steps [sample_env; sample_env] w)) = [OBeginStream; OEndStream true; OStreamClosed].
Proof.
  assert (Hops : Forall op_ids (take 5 sample_ops)) by (repeat constructor; simpl; zlia).
  pose proof (writer_ends sample_cfg (MkDT 0 0) (take 5 sample_ops) [sample_env; sample_env] Hops) as H.
  destruct (writer_run (take 5 sample_ops) sample_cfg (MkDT 0 0)) as [w offs] eqn:E. simpl.
  assert (Hw : length (w_inbox w) = 1%nat /\ r_done (w_run w) = false /\ g_once (w_gate w) = true /\
    r_calls (w_run (run_steps [sample_env; sample_env] w)) = [OBeginStream; OEndStream true; OStreamClosed]).
  { vm_compute in E. injection E as <- _. by vm_compute. }
  destruct Hw as (E1 & E2 & E3 & E4). split; [exact E1|]. split; [exact E2|]. split; [|exact E4].
  apply H; [exact E3|rewrite E1; simpl; lia].
Defined.

(** *** The largest Object ID

    [isNextObject] adds one to the previous Object ID without a bound, so Object 0
    of another contributor counts as the next one after Object 2^64-1. *)

Definition wrap_ops : list writer_op :=
  [WOffer 0 (sample_offer Forward 1 MaxUint64); WRun sample_env; WOffer 0 (MkOffer Forward (MkPos (Some 2) 1) 0 sample_object false 0 0 None);
   WClose false 0; WRun sample_env; WRun sample_env].

Definition wrapped_stream : OutgoingSubgroupStream :=
  default (NewOutgoingSubgroup (c_hdr sample_cfg) false false false)
    (last (r_streams (w_run (writer_run wrap_ops sample_cfg (MkDT 0 0)).1))).

(** A reader's first object is the last one there can be, and its next read closes
    the session. *)
Definition closes_after_last (bs : bytes) : bool :=
  match acceptDataStream None (MkStream bs Fin) with
  | Accepted (DSSubgroup r) =>
      match ReadDecoded r with
      | Got d s' => (ds_ObjectID d =? MaxUint64) && match ReadDecoded s' with Failed _ closed => closed | _ => false end
      | _ => false
      end
  | _ => false
  end.

(** After Object 2^64-1 the writer puts Object 0 on the same stream, and the
    subscriber that reads it closes the session. *)
Theorem object_id_wraps :
  r_streams (w_run (writer_run wrap_ops sample_cfg (MkDT 0 0)).1) = [wrapped_stream] /\ finned wrapped_stream /\
  exists r d s' e, acceptDataStream None (MkStream (wire (os_events wrapped_stream)) Fin) = Accepted (DSSubgroup r) /\
    ReadDecoded r = Got d s' /\ ds_ObjectID d = MaxUint64 /\ ReadDecoded s' = Failed e true.
Proof.
  split; [vm_compute; reflexivity|]. split; [apply finned_dec; vm_compute; reflexivity|].
  assert (H : closes_after_last (wire (os_events wrapped_stream)) = true) by (vm_compute; reflexivity).
  unfold closes_after_last in H. destruct (acceptDataStream _ _) as [[r|r]| |]; try done.
  destruct (ReadDecoded r) as [d s'| |] eqn:E1; try done. apply andb_true_iff in H as [Hd H]. apply Z.eqb_eq in Hd.
  destruct (ReadDecoded s') as [| |e []] eqn:E2; try done. by exists r, d, s', e.
Qed.
