(* ===== verification/FanoutSet.v ===== *)
(** * FanoutSet: one Subgroup, fanned out

    The [subgroupWriterSet] of [relay/handler_fanout.go]: the writers of a Subgroup's
    subscribers, shared by every inbound stream that contributes the Subgroup, with
    what decides whether the outbound streams end with a FIN or a reset; and the
    duplicate check of [handler_duplicate.go].

    A Go map of writers is an association list; each loop over it treats every writer
    on its own, so the order does not matter.  Sections under [sg.Mu] are steps.  The
    subscriptions' states are an argument, [subs]. *)

From stdpp Require Import gmap.
From S2P Require Import Prelude Codes Varint Wire KV Filter Params Properties RangeFilter Messages Objects Streams.
From S2P Require Import Cache FetchRanges Ledger Tokens Session Subs Fanout.

(** ** Which Objects went through the set *)

Record Marks : Type := MkMarks {
  m_lowest : Z; m_forwarded : bool; m_runLo : Z; m_runHi : Z; m_hasRun : bool; m_unbroken : bool }.
Definition marks0 : Marks := MkMarks 0 false 0 0 false false.

Definition claim_run (objectID : Z) (m : Marks) : Marks :=
  let low := m_lowest m in let fwd := m_forwarded m in
  if negb (m_hasRun m) then MkMarks low fwd objectID objectID true true
  else if (m_runHi m <? MaxUint64) && (objectID =? u64 (m_runHi m + 1)) then MkMarks low fwd (m_runLo m) objectID true (m_unbroken m)
  else if (0 <? m_runLo m) && (objectID =? u64 (m_runLo m - 1)) then MkMarks low fwd objectID (m_runHi m) true (m_unbroken m)
  else MkMarks low fwd (Z.min (m_runLo m) objectID) (Z.max (m_runHi m) objectID) true false.

Definition claimFirst (objectID : Z) (claimed : bool) (m : Marks) : bool * Marks :=
  let lowest := negb (m_forwarded m) || (objectID <? m_lowest m) in
  let m := if lowest then MkMarks objectID true (m_runLo m) (m_runHi m) (m_hasRun m) (m_unbroken m) else m in
  (claimed && lowest, claim_run objectID m).

(** ** How the contributors ended *)

Record Ends : Type := MkEnds { n_cleanFrom : Z; n_sawClean : bool; n_resetCode : Z }.
Definition ends0 : Ends := MkEnds 0 false 0.

Definition leave (reset : bool) (code : Z) (covers : bool) (coverFrom : Z) (n : Ends) : Ends :=
  if reset then MkEnds (n_cleanFrom n) (n_sawClean n) code
  else if covers && (negb (n_sawClean n) || (coverFrom <? n_cleanFrom n)) then MkEnds coverFrom true (n_resetCode n)
  else n.

Definition outcome (m : Marks) (n : Ends) : bool * Z :=
  if negb (n_sawClean n) then (true, n_resetCode n)
  else if (n_cleanFrom n <=? m_lowest m) ||
          (m_unbroken m && (m_runLo m =? m_lowest m) && (m_runHi m >=? u64 (n_cleanFrom n - 1)))
  then (false, 0)
  else (true, StreamResetCancelled).

(** ** The set *)

Record objHeard : Type := MkHeard { oh_id : Z; oh_heard : Z; oh_readers : Z }.

Abbreviation writer_map := (list (Z * option subgroupWriter)).

Record subgroupWriterSet : Type := MkSet {
  s_writers : writer_map; s_hdr : SubgroupHeader; s_gen : Z; s_opened : Z; s_reading : list objHeard;
  s_marks : Marks; s_ends : Ends; s_pub : option DeliveryTimeouts }.

Definition new_set (hdr : SubgroupHeader) : subgroupWriterSet := MkSet [] hdr 0 0 [] marks0 ends0 None.

Definition set_writers (s : subgroupWriterSet) (ws : writer_map) : subgroupWriterSet :=
  MkSet ws (s_hdr s) (s_gen s) (s_opened s) (s_reading s) (s_marks s) (s_ends s) (s_pub s).
Definition set_marks (s : subgroupWriterSet) (m : Marks) : subgroupWriterSet :=
  MkSet (s_writers s) (s_hdr s) (s_gen s) (s_opened s) (s_reading s) m (s_ends s) (s_pub s).

Fixpoint writer_of (id : Z) (ws : writer_map) : option (option subgroupWriter) :=
  match ws with [] => None | (i, w) :: ws => if i =? id then Some w else writer_of id ws end.

Fixpoint noteHeader_in (id heard : Z) (l : list objHeard) : Z * list objHeard :=
  match l with
  | [] => (heard, [MkHeard id heard 1])
  | h :: l =>
      if oh_id h =? id then (oh_heard h, MkHeard (oh_id h) (oh_heard h) (oh_readers h + 1) :: l)
      else let '(r, l) := noteHeader_in id heard l in (r, h :: l)
  end.
Fixpoint doneReading_in (id : Z) (l : list objHeard) : list objHeard :=
  match l with
  | [] => []
  | h :: l =>
      if oh_id h =? id then (if oh_readers h - 1 =? 0 then l else MkHeard (oh_id h) (oh_heard h) (oh_readers h - 1) :: l)
      else h :: doneReading_in id l
  end.
Definition set_reading (s : subgroupWriterSet) (l : list objHeard) : subgroupWriterSet :=
  MkSet (s_writers s) (s_hdr s) (s_gen s) (s_opened s) l (s_marks s) (s_ends s) (s_pub s).
Definition noteHeader (id heard : Z) (s : subgroupWriterSet) : Z * subgroupWriterSet :=
  let '(r, l) := noteHeader_in id heard (s_reading s) in (r, set_reading s l).
Definition doneReading (id : Z) (s : subgroupWriterSet) : subgroupWriterSet := set_reading s (doneReading_in id (s_reading s)).

(** *** Opening writers *)

(** The handler's configuration: the queue's size, the drop cap, the lag window, and
    what the subscriber's transport can do. *)
Record FanConfig : Type := MkFan { fc_queue : Z; fc_maxDrops : Z; fc_maxLag : Z; fc_deadlines : bool; fc_tracked : bool }.

Definition sub_header (h : SubgroupHeader) (d : DownstreamSub) : SubgroupHeader :=
  MkSubgroupHeader (sh_Properties h) (sh_SubgroupIDMode h) (sh_EndOfGroup h)
    (if IncludesProperties d then InlinePriority h else true) (ReplayingSubgroup h) (s_TrackAlias (d_sub d))
    (sh_GroupID h) (sh_SubgroupID h) (sh_PublisherPriority h).

Definition writer_cfg (c : FanConfig) (hdr : SubgroupHeader) (id seq : Z) (d : DownstreamSub) : WriterConfig :=
  MkCfg id seq (sub_header hdr d) (fc_queue c) (fc_maxDrops c) (fc_maxLag c) (deliveryTimeouts d) (fc_deadlines c) (fc_tracked c).

(** [seq] is 0 for a writer opened with the set. *)
Definition openWriterForSub (c : FanConfig) (hdr : SubgroupHeader) (id seq : Z) (d : DownstreamSub) (pub : DeliveryTimeouts)
    (ws : writer_map) : writer_map :=
  match writer_of id ws with
  | Some _ => ws
  | None =>
      if negb (IsEstablished (d_sub d)) then ws ++ [(id, None)]
      else ws ++ [(id, Some (new_writer (writer_cfg c hdr id seq d) pub))]
  end.

(** The block of [runFanout] for the contributor that created the set. *)
Definition created (c : FanConfig) (initial : list (Z * DownstreamSub)) (gen : Z) (pub : DeliveryTimeouts)
    (lowest : Z) (forwarded : bool) (s : subgroupWriterSet) : subgroupWriterSet :=
  let m := s_marks s in
  let m := if forwarded && (negb (m_forwarded m) || (lowest <? m_lowest m))
           then MkMarks lowest true (m_runLo m) (m_runHi m) (m_hasRun m) (m_unbroken m) else m in
  MkSet (fold_left (fun ws sub => openWriterForSub c (s_hdr s) sub.1 0 sub.2 pub ws) initial (s_writers s))
    (s_hdr s) gen (s_opened s) (s_reading s) m (s_ends s) (s_pub s).

(** The subscribers [UpdateLargestAndDetectNew] reports as new. *)
Definition detect_new (downstream : list (Z * DownstreamSub)) (gen lastGen : Z) (ws : writer_map) : list (Z * DownstreamSub) :=
  if gen =? lastGen then []
  else List.filter (fun sub => match writer_of sub.1 ws with Some _ => false | None => true end) downstream.

Definition open_joiner (c : FanConfig) (pub : DeliveryTimeouts) (s : subgroupWriterSet) (sub : Z * DownstreamSub) : subgroupWriterSet :=
  let ws := openWriterForSub c (s_hdr s) sub.1 (s_opened s + 1) sub.2 pub (s_writers s) in
  MkSet ws (s_hdr s) (s_gen s)
    (match writer_of sub.1 ws with Some (Some _) => s_opened s + 1 | _ => s_opened s end)
    (s_reading s) (s_marks s) (s_ends s) (s_pub s).

Definition set_gen (s : subgroupWriterSet) (gen : Z) : subgroupWriterSet :=
  MkSet (s_writers s) (s_hdr s) gen (s_opened s) (s_reading s) (s_marks s) (s_ends s) (s_pub s).

Definition headerRead (c : FanConfig) (downstream : list (Z * DownstreamSub)) (gen : Z) (pub : DeliveryTimeouts) (objectID : Z)
    (s : subgroupWriterSet) : Z * subgroupWriterSet :=
  let newSubs := detect_new downstream gen (s_gen s) (s_writers s) in
  let s := fold_left (open_joiner c pub) newSubs (set_gen s gen) in
  noteHeader objectID (s_opened s) s.

(** *** Forwarding *)

Definition decide_for (hdr : SubgroupHeader) (objectID : Z) (props : bytes) (d : DownstreamSub) : result ForwardVerdict :=
  ForwardDecision (sh_GroupID hdr) objectID (sh_SubgroupID hdr) (sh_PublisherPriority hdr) props d.

Definition each_writer (f : Z -> subgroupWriter -> result subgroupWriter) (ws : writer_map) : result writer_map :=
  mapM (fun iw : Z * option subgroupWriter =>
    match iw.2 with
    | None => Ok iw
    | Some w => (fun w => (iw.1, Some w)) <$> f iw.1 w
    end) ws.

(** An Object as a contributor read it, and what it says of it. *)
Record inbound : Type := MkIn {
  in_pos : inboundPos; in_hdr : SubgroupHeader; in_id : Z; in_obj : SubgroupObject; in_claimed : bool;
  in_maxAge : Z; in_heard : Z; in_headerAt : Z }.

Definition offer_of (x : inbound) (first : bool) (pub : option DeliveryTimeouts) (v : ForwardVerdict) : offer :=
  MkOffer v (in_pos x) (in_id x) (in_obj x) first (in_maxAge x) (in_headerAt x) pub.

Definition forward (now : Z) (track : DeliveryTimeouts) (subs : Z -> DownstreamSub) (x : inbound) (s : subgroupWriterSet)
    : result subgroupWriterSet :=
  let '(first, m) := claimFirst (in_id x) (in_claimed x) (s_marks s) in
  let pub := match s_pub s with
             | Some t => Some t
             | None => if first then Some (ApplyObjectProperties track (so_Properties (in_obj x))) else None
             end in
  ws ← each_writer (fun id w =>
         if c_seq (w_cfg w) >? in_heard x then Ok w
         else v ← decide_for (in_hdr x) (in_id x) (so_Properties (in_obj x)) (subs id);
              Ok (offer_one now (offer_of x first pub v) w)) (s_writers s);
  Ok (MkSet ws (s_hdr s) (s_gen s) (s_opened s) (s_reading s) m (s_ends s) pub).

(** [admitAgedOut]; the answer is whether the Object goes on. *)
Definition in_run (objectID : Z) (m : Marks) : bool :=
  m_hasRun m && ((objectID =? m_runLo m) || (objectID =? m_runHi m) ||
                 (m_unbroken m && (m_runLo m <? objectID) && (objectID <? m_runHi m))).
Definition admitAgedOut (subs : Z -> DownstreamSub) (claim : Claim) (x : inbound) (s : subgroupWriterSet)
    : result (bool * subgroupWriterSet) :=
  let m := s_marks s in
  if negb (bool_decide (claim = ClaimAgedOut)) || (m_hasRun m && (in_id x >? m_runHi m)) then Ok (true, s)
  else if in_run (in_id x) m then Ok (false, s)
  else
    ws ← each_writer (fun id w =>
           v ← decide_for (in_hdr x) (in_id x) (so_Properties (in_obj x)) (subs id);
           Ok (omit_one v (in_id x) w)) (s_writers s);
    Ok (false, set_writers s ws).

(** The section under [sg.Mu] of a turn of [runFanout]'s loop, for a claim that is
    not redundant; the answer is whether the Object was forwarded. *)
Definition deliver_section (now : Z) (track : DeliveryTimeouts) (subs : Z -> DownstreamSub) (claim : Claim) (x : inbound)
    (s : subgroupWriterSet) : result (bool * subgroupWriterSet) :=
  '(go, s) ← admitAgedOut subs claim x (doneReading (in_id x) s);
  if go : bool then s ← forward now track subs x s; Ok (true, s) else Ok (false, s).

(** *** Ends *)

(** The last contributor closes the writers. *)
Definition close_writers (hdr : SubgroupHeader) (subs : Z -> DownstreamSub) (reset : bool) (code : Z) (ws : writer_map) : writer_map :=
  (fun iw : Z * option subgroupWriter =>
     (iw.1, (fun w =>
        let out := negb reset && GroupOutOfRange (sh_GroupID hdr) (d_Filter (subs iw.1)) in
        w_close (reset || out) (if out then StreamResetCancelled else code) w) <$> iw.2)) <$> ws.

Definition leave_set (reset : bool) (code : Z) (covers : bool) (coverFrom : Z) (s : subgroupWriterSet) : subgroupWriterSet :=
  MkSet (s_writers s) (s_hdr s) (s_gen s) (s_opened s) (s_reading s) (s_marks s) (leave reset code covers coverFrom (s_ends s)) (s_pub s).

(** The deferred block of [runFanout]; [last] is what [ReleaseSubgroup] answers. *)
Definition contributor_left (hdr : SubgroupHeader) (subs : Z -> DownstreamSub) (reset : bool) (code : Z) (covers : bool) (coverFrom : Z)
    (last : bool) (s : subgroupWriterSet) : subgroupWriterSet :=
  let s := leave_set reset code covers coverFrom s in
  if negb last then s
  else let '(reset, code) := outcome (s_marks s) (s_ends s) in set_writers s (close_writers hdr subs reset code (s_writers s)).

(** [resetWriters] on one set: the writers it closes leave the set. *)
Definition resetWriters (subs : list Z) (s : subgroupWriterSet) : list subgroupWriter * subgroupWriterSet :=
  let hit iw := existsb (Z.eqb (iw : Z * option subgroupWriter).1) subs in
  (omap (fun iw => if hit iw then w_close true StreamResetMalformedTrack <$> iw.2 else None) (s_writers s),
   set_writers s ((fun iw => if hit iw then (iw.1, None) else iw) <$> s_writers s)).

(** ** Copies of an Object *)

Definition sameImmutableProperties (a b : bytes) : bool :=
  bool_decide (ImmutableProperties a = ImmutableProperties b).

Definition duplicate_differs (first dup : CachedObject) : bool :=
  if negb (bool_decide (ForwardingPref first = ForwardingPref dup)) then true
  else if bool_decide (ForwardingPref first = ForwardingSubgroup) && negb (co_SubgroupID first =? co_SubgroupID dup) then true
  else if negb (co_PublisherPriority first =? co_PublisherPriority dup) then true
  else if negb (is_normal (co_Status first)) || negb (is_normal (co_Status dup)) then false
  else if negb (bool_decide (co_Payload first = co_Payload dup)) then true
  else negb (sameImmutableProperties (co_Properties first) (co_Properties dup)).

Definition checkDuplicate (now : Z) (dup : CachedObject) (c : ObjectCache) : result unit * ObjectCache :=
  match Get now c (co_GroupID dup) (co_ObjectID dup) with
  | None => (Ok tt, c)
  | Some first =>
      if IsRangeMarker first then (Ok tt, c)
      else if duplicate_differs first dup
      then (malformed "a duplicate differs", Delete (co_GroupID dup) (co_ObjectID dup) c)
      else (Ok tt, c)
  end.

Definition recordRedundant (now : Z) (o : ObjectInfo) (dup : CachedObject) (e : TrackLedger) : result unit * TrackLedger :=
  let '(r, c) := checkDuplicate now dup (t_Cache e) in
  match r with
  | Err err => (Err err, set_cache e c)
  | Ok _ => RecordDuplicate now o (set_cache e c)
  end.

(** ** What the marks say

    [F] are the IDs of the Objects forwarded through the set. *)

Record marks_ok (m : Marks) (F : list Z) : Prop := {
  mo_u64 : Forall is_u64 F;
  mo_none : m_hasRun m = false -> F = [] /\ m_unbroken m = false;
  mo_run : m_hasRun m = true -> m_runLo m ∈ F /\ m_runHi m ∈ F /\ (forall i, i ∈ F -> m_runLo m <= i <= m_runHi m);
  mo_unbroken : m_unbroken m = true -> forall i, m_runLo m <= i <= m_runHi m -> i ∈ F;
  mo_low : forall i, i ∈ F -> m_forwarded m = true /\ m_lowest m <= i;
  mo_pos : 0 <= m_lowest m }.

Lemma marks0_ok : marks_ok marks0 [].
Proof. split; simpl; try done. intros i ?%elem_of_nil. done. Qed.

Lemma lower_marks m F low fwd : marks_ok m F -> 0 <= low ->
  marks_ok (if fwd && (negb (m_forwarded m) || (low <? m_lowest m))
            then MkMarks low true (m_runLo m) (m_runHi m) (m_hasRun m) (m_unbroken m) else m) F.
Proof.
  intros [H1 H2 H3 H4 H5 H6] Hl. destruct (fwd && _) eqn:E; [|done]. split; simpl; try done.
  intros i Hi. destruct (H5 i Hi) as [Hf Hle]. apply andb_true_iff in E as [_ E]. rewrite Hf in E. simpl in E.
  apply Z.ltb_lt in E. split; [done|lia].
Qed.

Lemma claim_run_ok id m F : marks_ok m F -> is_u64 id -> m_forwarded m = true -> m_lowest m <= id ->
  marks_ok (claim_run id m) (F ++ [id]).
Proof.
  intros [H1 H2 H3 H4 H5 H6] Hid Hf Hle.
  assert (Hu : Forall is_u64 (F ++ [id])) by (apply Forall_app; split; [done|by apply Forall_singleton]).
  assert (Hlow : forall i, i ∈ F ++ [id] -> m_forwarded m = true /\ m_lowest m <= i).
  { intros i [Hi| ->%list_elem_of_singleton]%elem_of_app; auto. }
  unfold claim_run. destruct (m_hasRun m) eqn:Er; simpl.
  2: { destruct (H2 eq_refl) as [-> _]. split; simpl; try done.
    - intros _. split_and!; [left|left|]. intros i ->%list_elem_of_singleton. lia.
    - intros _ i Hi. apply list_elem_of_singleton. lia. }
  destruct (H3 eq_refl) as (Hlo & Hhi & Hall). clear H2 H3.
  assert (Hb : is_u64 (m_runLo m) /\ is_u64 (m_runHi m)).
  { rewrite Forall_forall in H1. by split; apply H1. }
  destruct Hb as [Hb1 Hb2].
  destruct ((m_runHi m <? MaxUint64) && (id =? u64 (m_runHi m + 1))) eqn:E1.
  { apply andb_true_iff in E1 as [E1 E2]. apply Z.ltb_lt in E1. apply Z.eqb_eq in E2. rewrite u64_small in E2 by zlia.
    pose proof (Hall _ Hhi). split; simpl; try done.
    - intros _. split_and!; [by apply elem_of_app; left|apply elem_of_app; right; left|].
      intros i [Hi| ->%list_elem_of_singleton]%elem_of_app; [specialize (Hall i Hi)|]; lia.
    - intros Eb i Hi. apply elem_of_app. destruct (decide (i = id)) as [->|]; [right; left|]. left. apply H4; [done|lia]. }
  destruct ((0 <? m_runLo m) && (id =? u64 (m_runLo m - 1))) eqn:E2.
  { apply andb_true_iff in E2 as [E2 E3]. apply Z.ltb_lt in E2. apply Z.eqb_eq in E3. rewrite u64_small in E3 by zlia.
    pose proof (Hall _ Hhi). split; simpl; try done.
    - intros _. split_and!; [apply elem_of_app; right; left|by apply elem_of_app; left|].
      intros i [Hi| ->%list_elem_of_singleton]%elem_of_app; [specialize (Hall i Hi)|]; lia.
    - intros Eb i Hi. apply elem_of_app. destruct (decide (i = id)) as [->|]; [right; left|]. left. apply H4; [done|lia]. }
  split; simpl; try done. intros _. split_and!.
  - apply elem_of_app. destruct (Z.min_spec (m_runLo m) id) as [[_ ->]|[_ ->]]; [by left|right; left].
  - apply elem_of_app. destruct (Z.max_spec (m_runHi m) id) as [[_ ->]|[_ ->]]; [right; left|by left].
  - intros i [Hi| ->%list_elem_of_singleton]%elem_of_app; [specialize (Hall i Hi)|]; lia.
Qed.

Lemma claimFirst_ok id claimed m F : marks_ok m F -> is_u64 id -> marks_ok (claimFirst id claimed m).2 (F ++ [id]).
Proof.
  intros H Hid. unfold claimFirst. simpl. destruct (negb (m_forwarded m) || (id <? m_lowest m)) eqn:E.
  - apply claim_run_ok; [|done|done|simpl; lia]. destruct H as [H1 H2 H3 H4 H5 H6]. split; simpl; try done; [|zlia].
    intros i Hi. destruct (H5 i Hi) as [Hf Hle]. rewrite Hf in E. simpl in E. apply Z.ltb_lt in E. split; [done|lia].
  - apply orb_false_iff in E as [E1 E2]. apply negb_false_iff in E1. apply Z.ltb_ge in E2. by apply claim_run_ok.
Qed.

Lemma in_run_ok id m F : marks_ok m F -> in_run id m = true -> id ∈ F.
Proof.
  intros [_ _ H3 H4 _ _] H. unfold in_run in H. apply andb_true_iff in H as [Hr H]. destruct (H3 Hr) as (Hlo & Hhi & _).
  apply orb_true_iff in H as [H|H]; [apply orb_true_iff in H as [H|H]; apply Z.eqb_eq in H; by rewrite H|].
  apply andb_true_iff in H as [H E]. apply andb_true_iff in H as [Hu E']. apply Z.ltb_lt in E, E'. apply H4; [done|lia].
Qed.

(** A FIN: every Object between the lowest one forwarded and the first one of a
    contributor that ended cleanly went through the set. *)
Lemma outcome_fin m n F code : marks_ok m F -> is_u64 (n_cleanFrom n) -> outcome m n = (false, code) ->
  n_sawClean n = true /\ forall i, m_lowest m <= i < n_cleanFrom n -> i ∈ F.
Proof.
  intros [_ H2 H3 H4 _ H6] Hc H. unfold outcome in H. destruct (n_sawClean n); simpl in H; [|done]. split; [done|].
  destruct (Z.leb_spec (n_cleanFrom n) (m_lowest m)) as [Hle|Hlt]; [lia|]. simpl in H.
  destruct (m_unbroken m && _ && _) eqn:E; [|done]. apply andb_true_iff in E as [E E3]. apply andb_true_iff in E as [E1 E2].
  apply Z.eqb_eq in E2. rewrite Z.geb_leb in E3. apply Z.leb_le in E3. rewrite u64_small in E3 by zlia.
  intros i Hi. apply H4; [done|lia].
Qed.

(** ** Each writer on its own *)

Definition each_rel (R : Z -> subgroupWriter -> subgroupWriter -> Prop) (a b : Z * option subgroupWriter) : Prop :=
  b.1 = a.1 /\ match a.2, b.2 with Some w, Some w' => R a.1 w w' | None, None => True | _, _ => False end.

Lemma each_writer_ok f ws ws' : each_writer f ws = Ok ws' -> Forall2 (each_rel (fun id w w' => f id w = Ok w')) ws ws'.
Proof.
  revert ws'. induction ws as [|[i [w|]] ws IH]; intros ws' H; cbn in H.
  - injection H as <-. constructor.
  - destruct (f i w) as [w'|e] eqn:E; simpl in H; [|done]. fold (each_writer f ws) in H.
    destruct (each_writer f ws) as [l|e] eqn:El; simpl in H; [|done]. injection H as <-. constructor; [by split|]. by apply IH.
  - fold (each_writer f ws) in H. destruct (each_writer f ws) as [l|e] eqn:El; simpl in H; [|done]. injection H as <-.
    constructor; [by split|]. by apply IH.
Qed.
