(* ===== verification/Contributors.v ===== *)
(** * Contributors: the inbound streams of a Subgroup

    [runFanout] of [relay/handler_fanout.go]: what each inbound subgroup stream does,
    from its Track Alias to its end, with the Track's ledger, and the Subgroup they
    all feed.  A contributor is a state machine whose phases lie between the sections
    under [sg.Mu] and the calls on the ledger; the steps of several contributors, of
    the writers' goroutines and of the Track's other streams interleave.  A relay here
    is one Subgroup's set, from its creation to its last contributor's leaving, with
    the ledger; the Track's in-flight Objects are in [Inflight]. *)

From stdpp Require Import gmap.
From S2P Require Import Prelude Codes Varint Wire KV Track Filter Params Properties RangeFilter Messages Objects Streams.
From S2P Require Import Cache FetchRanges Ledger Tokens Session Subs Fanout FanoutSet.

(** ** Before the Subgroup *)

Definition maxEarlyStreams : Z := 32.

(** [bound] is what the Track Alias is bound to as the stream arrives, [early] the
    streams waiting for theirs, [awaited] what [AwaitInboundTrack] answers; an
    unresolved stream is cancelled with the code. *)
Definition resolveInboundTrack (bound : option InboundTrack) (early : Z) (awaited : option InboundTrack) : InboundTrack + Z :=
  match bound with
  | Some inb => inl inb
  | None =>
      if early + 1 >? maxEarlyStreams then inr StreamResetExcessiveLoad
      else match awaited with Some inb => inl inb | None => inr StreamResetInternalError end
  end.

Definition inherit_priority (inb : InboundTrack) (h : SubgroupHeader) : SubgroupHeader :=
  if InlinePriority h then h
  else MkSubgroupHeader (sh_Properties h) (sh_SubgroupIDMode h) (sh_EndOfGroup h) (InlinePriority h) (ReplayingSubgroup h)
         (sh_TrackAlias h) (sh_GroupID h) (sh_SubgroupID h) (in_DefaultPublisherPriority inb).

(** What [resolveImplicitSubgroupID] does with the first Object's header, if it reads
    it: an abandoned stream is cancelled with a code, if any, and may end the track. *)
Inductive implicit_id : Type :=
| Resolved (hdr : SubgroupHeader) (pending : option SubgroupObject)
| Unresolved (cancel : option Z) (endTrack : bool).

Definition resolveImplicitSubgroupID (h : SubgroupHeader) (first : result SubgroupObject) : implicit_id :=
  if negb (sh_SubgroupIDMode h =? SubgroupIDImplicitFirstObject) then Resolved h None
  else match first with
       | Err err =>
           if errors_Is err EOF then Unresolved None false
           else if errors_Is err ErrMalformedTrack then Unresolved (Some StreamResetMalformedTrack) true
           else Unresolved (Some StreamResetInternalError) false
       | Ok obj =>
           Resolved (MkSubgroupHeader (sh_Properties h) SubgroupIDExplicit (sh_EndOfGroup h) (InlinePriority h)
                       (ReplayingSubgroup h) (sh_TrackAlias h) (sh_GroupID h) (ObjectIDDelta obj) (sh_PublisherPriority h))
             (Some obj)
       end.

(** ** One contributor *)

Inductive phase : Type :=
| PCreate                                 (* acquired the set it created *)
| PCreating (initial : list (Z * DownstreamSub)) (gen : Z) (pub : DeliveryTimeouts) (lowest : Z) (forwarded : bool)
| PHeader                                 (* about to read an Object's header *)
| PPayload (heard headerAt : Z) (obj : SubgroupObject)
| PDeliver (claim : Claim) (x : inbound)  (* claimed an Object to deliver *)
| PLeave (reset : bool) (code : Z)
| PGone (reset : bool).

Record contributor : Type := MkContrib {
  k_src : Z; k_in : InboundTrack; k_hdr : SubgroupHeader; k_covers : bool; k_coverFrom : Z; k_first : bool; k_seq : Z;
  k_terminal : bool; k_last : option SubgroupObject; k_objectID : Z; k_phase : phase }.

Definition start_contributor (src : Z) (inb : InboundTrack) (hdr : SubgroupHeader) (creates : bool) : contributor :=
  MkContrib src inb hdr (negb (ReplayingSubgroup hdr)) 0 true 0 false None 0 (if creates then PCreate else PHeader).

Definition set_phase (k : contributor) (p : phase) : contributor :=
  MkContrib (k_src k) (k_in k) (k_hdr k) (k_covers k) (k_coverFrom k) (k_first k) (k_seq k) (k_terminal k) (k_last k)
    (k_objectID k) p.

Definition object_info (h : SubgroupHeader) (objectID : Z) (obj : SubgroupObject) : ObjectInfo :=
  MkInfo (sh_GroupID h) objectID (sh_SubgroupID h) false (sh_PublisherPriority h) (so_ObjectStatus obj) false
    (ObjectPriorGaps (so_Properties obj)).

Definition cached_object (inb : InboundTrack) (h : SubgroupHeader) (objectID : Z) (obj : SubgroupObject) : CachedObject :=
  MkCached (sh_GroupID h) objectID (sh_SubgroupID h) (sh_PublisherPriority h) ForwardingSubgroup (so_ObjectStatus obj)
    (so_Properties obj) (so_Payload obj) 0 (default 0 (in_MaxCacheDuration inb)) (bool_decide (is_Some (in_MaxCacheDuration inb)))
    false false false.

(** A copy compared with the first one carries no cache lifetime. *)
Definition redundant_copy (h : SubgroupHeader) (objectID : Z) (obj : SubgroupObject) : CachedObject :=
  MkCached (sh_GroupID h) objectID (sh_SubgroupID h) (sh_PublisherPriority h) ForwardingSubgroup (so_ObjectStatus obj)
    (so_Properties obj) (so_Payload obj) 0 0 false false false false.

(** The object read from a stream whose header is read and whose payload arrives. *)
Definition object_read (k : contributor) (obj : SubgroupObject) : contributor :=
  MkContrib (k_src k) (k_in k) (k_hdr k) true (if k_covers k then k_coverFrom k else k_objectID k) false (u64 (k_seq k + 1))
    (IsTerminal obj) (Some obj) (k_objectID k) (k_phase k).

(** From a payload read to the end of the claim; [now] is the ledger's clock. *)
Definition payload_read (now heard headerAt : Z) (obj : SubgroupObject) (k : contributor) (e : TrackLedger)
    : phase * contributor * TrackLedger :=
  let objectID := k_objectID k in
  if k_terminal k then
    (PLeave true StreamResetMalformedTrack,
     MkContrib (k_src k) (k_in k) (k_hdr k) (k_covers k) (k_coverFrom k) (k_first k) (k_seq k) (k_terminal k) (Some obj)
       (k_objectID k) (k_phase k), e)
  else
    let isTrueFirst := k_first k && negb (ReplayingSubgroup (k_hdr k)) in
    let k := object_read k obj in
    let info := object_info (k_hdr k) objectID obj in
    match ClaimDelivered now info e with
    | (Err _, e) => (PLeave true StreamResetMalformedTrack, k, e)
    | (Ok ClaimRedundant, e) =>
        match recordRedundant now info (redundant_copy (k_hdr k) objectID obj) e with
        | (Err _, e) => (PLeave true StreamResetMalformedTrack, k, e)
        | (Ok _, e) => (PHeader, k, e)
        end
    | (Ok claim, e) =>
        (PDeliver claim (MkIn (MkPos (Some (k_src k)) (k_seq k)) (k_hdr k) objectID obj isTrueFirst
                          (default 0 (in_MaxCacheDuration (k_in k))) heard headerAt), k, e)
    end.

Definition inboundEnded (now : Z) (err : error) (k : contributor) (e : TrackLedger) : bool * Z * TrackLedger :=
  if errors_Is err EOF then
    match k_last k with
    | None => (false, 0, e)
    | Some obj =>
        let h := k_hdr k in
        match SubgroupEnded now (MkInfo (sh_GroupID h) (k_objectID k) (sh_SubgroupID h) false (sh_PublisherPriority h)
                                   (so_ObjectStatus obj) false (MkGaps 0 0 false false)) (sh_EndOfGroup h) e with
        | (Ok _, e) => (false, 0, e)
        | (Err _, e) => (true, StreamResetMalformedTrack, e)
        end
    end
  else if errors_Is err ErrContextDone then (true, StreamResetCancelled, e)
  else if negb (errors_Is err ErrMalformedTrack) then (true, StreamResetCancelled, e)
  else (true, StreamResetMalformedTrack, e).

(** ** The contributors of a Subgroup *)

Record Relay : Type := MkRelay { y_e : TrackLedger; y_set : subgroupWriterSet; y_ks : list contributor }.

(** The first contributor has acquired the Subgroup. *)
Definition relay0 (src : Z) (inb : InboundTrack) (hdr : SubgroupHeader) (e : TrackLedger) : Relay :=
  MkRelay e (new_set hdr) [start_contributor src inb hdr true].

Definition is_gone (k : contributor) : bool := match k_phase k with PGone _ => true | _ => false end.
Definition over (y : Relay) : bool := forallb is_gone (y_ks y).

Definition put (y : Relay) (i : nat) (k : contributor) (s : subgroupWriterSet) (e : TrackLedger) : Relay :=
  MkRelay e s (<[i := k]> (y_ks y)).

Inductive relay_op : Type :=
| YJoin (src : Z) (inb : InboundTrack) (hdr : SubgroupHeader)
| YSnapshot (i : nat) (initial : list (Z * DownstreamSub)) (gen : Z) (pub : DeliveryTimeouts)
| YCreated (i : nat) (c : FanConfig)
| YHeader (i : nat) (c : FanConfig) (downstream : list (Z * DownstreamSub)) (gen : Z) (pub : DeliveryTimeouts) (id headerAt : Z) (obj : SubgroupObject)
| YFail (i : nat) (now : Z) (err : error)
| YPayload (i : nat) (now : Z)
| YDeliver (i : nat) (now : Z) (track : DeliveryTimeouts) (subs : Z -> DownstreamSub)
| YLeave (i : nat) (subs : Z -> DownstreamSub)
| YReset (subs : list Z)
| YRun (id : Z) (env : RunEnv)
| YCancel (id : Z)
| YLedger (o : ledger_op).

Definition on_writer (id : Z) (f : subgroupWriter -> subgroupWriter) (s : subgroupWriterSet) : subgroupWriterSet :=
  set_writers s ((fun iw : Z * option subgroupWriter => if iw.1 =? id then (iw.1, f <$> iw.2) else iw) <$> s_writers s).

(** [ReleaseSubgroup]: whether the [i]th contributor is the last one. *)
Definition is_last (i : nat) (ks : list contributor) : bool :=
  forallb is_gone (take i ks) && forallb is_gone (drop (S i) ks).

Definition set_objectID (k : contributor) (id : Z) : contributor :=
  MkContrib (k_src k) (k_in k) (k_hdr k) (k_covers k) (k_coverFrom k) (k_first k) (k_seq k) (k_terminal k) (k_last k) id (k_phase k).

Definition k_step (y : Relay) (i : nat) (k : contributor) (o : relay_op) : Relay :=
  let s := y_set y in let e := y_e y in
  match o, k_phase k with
  | YSnapshot _ initial gen pub, PCreate =>
      let '(lowest, forwarded) := LowestForwarded e (sh_GroupID (k_hdr k)) (sh_SubgroupID (k_hdr k)) in
      put y i (set_phase k (PCreating initial gen pub lowest forwarded)) s e
  | YCreated _ c, PCreating initial gen pub lowest forwarded =>
      put y i (set_phase k PHeader) (created c initial gen pub lowest forwarded s) e
  | YHeader _ c downstream gen pub id headerAt obj, PHeader =>
      let '(heard, s) := headerRead c downstream gen pub id s in
      put y i (set_phase (set_objectID k id) (PPayload heard headerAt obj)) s e
  | YFail _ now err, PHeader =>
      let '(reset, code, e) := inboundEnded now err k e in put y i (set_phase k (PLeave reset code)) s e
  | YFail _ now err, PPayload _ _ _ =>
      let '(reset, code, e) := inboundEnded now err k e in
      put y i (set_phase k (PLeave reset code)) (doneReading (k_objectID k) s) e
  | YPayload _ now, PPayload heard headerAt obj =>
      let '(p, k, e) := payload_read now heard headerAt obj k e in
      put y i (set_phase k p) (match p with PDeliver _ _ => s | _ => doneReading (k_objectID k) s end) e
  | YDeliver _ now track subs, PDeliver claim x =>
      match deliver_section now track subs claim x s with
      | Ok (forwarded, s) =>
          put y i (set_phase k PHeader) s
            (if forwarded : bool
             then set_cache e (Put now (Some (cached_object (k_in k) (in_hdr x) (in_id x) (in_obj x))) (t_Cache e)) else e)
      | Err _ => y
      end
  | YLeave _ subs, PLeave reset code =>
      put y i (set_phase k (PGone reset))
        (contributor_left (k_hdr k) subs reset code (k_covers k) (k_coverFrom k) (is_last i (y_ks y)) s) e
  | _, _ => y
  end.

Definition same_subgroup (a b : SubgroupHeader) : bool :=
  (sh_GroupID a =? sh_GroupID b) && (sh_SubgroupID a =? sh_SubgroupID b).

Definition relay_step (y : Relay) (o : relay_op) : Relay :=
  match o with
  | YJoin src inb hdr =>
      if over y || negb (same_subgroup hdr (s_hdr (y_set y))) then y
      else MkRelay (y_e y) (y_set y) (y_ks y ++ [start_contributor src inb hdr false])
  | YSnapshot i _ _ _ | YCreated i _ | YHeader i _ _ _ _ _ _ _ | YFail i _ _ | YPayload i _ | YDeliver i _ _ _ | YLeave i _ =>
      match y_ks y !! i with Some k => k_step y i k o | None => y end
  | YReset subs => MkRelay (y_e y) (resetWriters subs (y_set y)).2 (y_ks y)
  | YRun id env => MkRelay (y_e y) (on_writer id (run_step env) (y_set y)) (y_ks y)
  | YCancel id => MkRelay (y_e y) (on_writer id cancelIO (y_set y)) (y_ks y)
  | YLedger o => MkRelay (ledger_step (y_e y, []) o).1 (y_set y) (y_ks y)
  end.

(** ** What happened

    An Object that went through the set: forwarded, or, aged out of the dedup window,
    dropped; the opened count it was heard at, and the subscriptions then. *)
Record entry : Type := MkEntry { en_x : inbound; en_drop : bool; en_stamp : Z; en_subs : Z -> DownstreamSub }.
Definition en_id (en : entry) : Z := in_id (en_x en).
Definition en_verdict (id : Z) (en : entry) : result ForwardVerdict :=
  decide_for (in_hdr (en_x en)) (en_id en) (so_Properties (in_obj (en_x en))) (en_subs en id).

(** The history of a relay: what went through the set, the Objects each contributor
    read, the Locations claimed by others, and the Objects of the Group announced not
    to exist. *)
Record History : Type := MkHistory {
  hi_log : list entry; hi_read : list (nat * Z); hi_else : list Location; hi_absent : list Z }.

Definition logged (s : subgroupWriterSet) (claim : Claim) (x : inbound) (subs : Z -> DownstreamSub) (forwarded : bool) : list entry :=
  if forwarded then [MkEntry x false (in_heard x) subs]
  else if in_run (in_id x) (s_marks s) then []
  else [MkEntry x true (s_opened s) subs].

Definition history_step (y : Relay) (h : History) (o : relay_op) : History :=
  match o with
  | YPayload i now =>
      match y_ks y !! i with
      | Some k =>
          match k_phase k with
          | PPayload _ _ _ =>
              if k_terminal k then h
              else
                let group := sh_GroupID (k_hdr k) in
                MkHistory (hi_log h) ((i, k_objectID k) :: hi_read h) (hi_else h)
                  (if announcedAbsentLocked (y_e y) (delivered (y_e y) !! group) group (k_objectID k)
                   then k_objectID k :: hi_absent h else hi_absent h)
          | _ => h
          end
      | None => h
      end
  | YDeliver i now track subs =>
      match y_ks y !! i with
      | Some k =>
          match k_phase k with
          | PDeliver claim x =>
              match deliver_section now track subs claim x (y_set y) with
              | Ok (forwarded, _) => MkHistory (hi_log h ++ logged (y_set y) claim x subs forwarded) (hi_read h) (hi_else h) (hi_absent h)
              | Err _ => h
              end
          | _ => h
          end
      | None => h
      end
  | YLedger o => MkHistory (hi_log h) (hi_read h) ((ledger_step (y_e y, []) o).2 ++ hi_else h) (hi_absent h)
  | _ => h
  end.

Definition relay_run (ops : list relay_op) (y : Relay) (h : History) : Relay * History :=
  fold_left (fun st o => (relay_step st.1 o, history_step st.1 st.2 o)) ops (y, h).

(** ** A writer and the history *)

Definition sees (seq : Z) (en : entry) : bool := seq <=? en_stamp en.
Definition offer_for (id : Z) (en : entry) (x : offer) : Prop :=
  of_id x = en_id en /\ of_obj x = in_obj (en_x en) /\ en_verdict id en = Ok (of_verdict x).

(** Closed, and not by a reset. *)
Definition wfin (w : subgroupWriter) : Prop := g_once (w_gate w) = true /\ g_inboundReset (w_gate w) = false.

(** The writer [w] of [id] was offered what went through the set after it was opened,
    until it was closed. *)
Definition wrel (log : list entry) (opened id : Z) (w : subgroupWriter) : Prop :=
  exists ops pub offs pre post rest,
    writer_run ops (w_cfg w) pub = (w, offs) /\ Forall offer_wf ops /\ wf_sh (c_hdr (w_cfg w)) /\ c_seq (w_cfg w) <= opened /\
    log = pre ++ post ++ rest /\ (wfin w \/ g_once (w_gate w) = false -> rest = []) /\
    Forall2 (offer_for id) (List.filter (sees (c_seq (w_cfg w))) post) offs.

Lemma writer_run_snoc ops o c pub : writer_run (ops ++ [o]) c pub = writer_step (writer_run ops c pub) o.
Proof. unfold writer_run. by rewrite fold_left_app. Qed.

Lemma wrel_new log opened id c pub : wf_sh (c_hdr c) -> c_seq c <= opened -> wrel log opened id (new_writer c pub).
Proof.
  intros Hh Hs. exists [], pub, [], log, [], []. split_and!; try done. by rewrite !app_nil_r.
Qed.

Lemma wrel_opened log opened opened' id w : wrel log opened id w -> opened <= opened' -> wrel log opened' id w.
Proof.
  intros (ops & pub & offs & pre & post & rest & H1 & H2 & H3 & H4 & H5) Hle. exists ops, pub, offs, pre, post, rest.
  split_and!; try done; [lia|apply H5..].
Qed.

(** The goroutine, and a close. *)
Lemma wrel_quiet log opened id w o w' : wrel log opened id w -> writer_step (w, []) o = (w', []) ->
  match o with WOffer _ _ | WOmit _ => False | _ => True end -> w_cfg w' = w_cfg w ->
  (g_once (w_gate w) = true -> g_once (w_gate w') = true /\ g_inboundReset (w_gate w') = g_inboundReset (w_gate w)) ->
  wrel log opened id w'.
Proof.
  intros (ops & pub & offs & pre & post & rest & H1 & H2 & H3 & H4 & H5 & H6 & H7) Hs Ho Hc Hg.
  exists (ops ++ [o]), pub, offs, pre, post, rest. rewrite Hc. split_and!; try done.
  - rewrite writer_run_snoc, H1. destruct o; try done; simpl in *; congruence.
  - apply Forall_app. split; [done|]. apply Forall_singleton. by destruct o.
  - intros Hf. apply H6. destruct (g_once (w_gate w)) eqn:E; [|by right]. left. destruct (Hg eq_refl) as [E1 E2].
    destruct Hf as [[_ ?]|?]; [|congruence]. split; congruence.
Qed.

(** The gate after an Object is offered or dropped: only a reset closes it. *)
Record offered (w w' : subgroupWriter) : Prop := {
  od_cfg : w_cfg w' = w_cfg w;
  od_once : g_once (w_gate w) = true -> g_once (w_gate w') = true /\ g_inboundReset (w_gate w') = g_inboundReset (w_gate w);
  od_reset : g_once (w_gate w) = false -> g_once (w_gate w') = true -> g_inboundReset (w_gate w') = true }.

Lemma offered_refl w : offered w w.
Proof. split; [done|done|]. intros E E'. congruence. Qed.

Lemma offered_trans w1 w2 w3 : offered w1 w2 -> offered w2 w3 -> offered w1 w3.
Proof.
  intros [A1 A2 A3] [B1 B2 B3]. split; [congruence| |].
  - intros E. destruct (A2 E) as [E1 E2]. destruct (B2 E1) as [? ?]. split; congruence.
  - intros E E'. destruct (g_once (w_gate w2)) eqn:E2; [|auto]. destruct (B2 eq_refl) as [_ ->]. auto.
Qed.

Lemma offered_close code w : offered w (w_close true code w).
Proof. unfold w_close. destruct (g_once (w_gate w)) eqn:E; [apply offered_refl|]. split; simpl; try done. intros E'. congruence. Qed.

Lemma offered_mark code w : offered w (markIncomplete code w).
Proof.
  unfold markIncomplete, markIncompleteLocked. destruct (_ || _); split; simpl; try done; intros E E'; congruence.
Qed.

Lemma offered_skip v id w : offered w (skip v id w).
Proof.
  unfold skip. destruct v; try apply offered_refl; try apply offered_mark; try apply offered_close.
  destruct (_ && _); [apply offered_mark|apply offered_refl].
Qed.

Lemma offered_publish now f w : offered w (publish now f w).
Proof.
  unfold publish. destruct (g_closed _); [apply offered_refl|]. destruct (_ <? _).
  { split; simpl; try done. intros E E'. congruence. }
  cbv zeta. eapply offered_trans; [|destruct (drop_capped _); [apply offered_close|apply offered_refl]].
  unfold markIncompleteLocked. destruct (_ || _); split; simpl; try done; intros E E'; congruence.
Qed.

Lemma offered_adm w a : offered w (set_adm w a).
Proof. split; simpl; try done. intros E E'. congruence. Qed.

Lemma offered_offer now x w : offered w (offer_one now x w).
Proof.
  assert (H : forall v (follows : bool) pos, offered w (let w := skip v (of_id x) w in
    if follows then set_adm w (MkAdm (a_lastAdmitted (w_adm w)) (a_hasAdmitted (w_adm w)) pos) else w)).
  { intros v [] pos; cbv zeta; [|apply offered_skip]. eapply offered_trans; [apply offered_skip|apply offered_adm]. }
  unfold offer_one, admit_verdict. destruct (of_verdict x); try apply H.
  eapply offered_trans; [apply offered_adm|apply offered_publish].
Qed.

Lemma offered_omit v id w : offered w (omit_one v id w).
Proof. unfold omit_one. destruct (bool_decide _); [apply offered_mark|apply offered_skip]. Qed.

Lemma offered_fin w w' : offered w w' -> wfin w' -> wfin w.
Proof.
  intros [_ H2 H3] [E1 E2]. destruct (g_once (w_gate w)) eqn:E; [|rewrite H3 in E2 by done; done].
  destruct (H2 eq_refl) as [_ E3]. split; congruence.
Qed.

(** An Object goes through the set: the writers that see it are offered it. *)
Lemma wrel_seen log opened id w o x en w' : wrel log opened id w -> ~ wfin w ->
  (o = WOmit x \/ exists now, o = WOffer now x) -> offer_wf o -> offer_for id en x -> sees (c_seq (w_cfg w)) en = true ->
  w' = (writer_step (w, []) o).1 -> offered w w' -> wrel (log ++ [en]) opened id w'.
Proof.
  intros (ops & pub & offs & pre & post & rest & H1 & H2 & H3 & H4 & H5 & H6 & H7) Hn Ho Hwf Hx Hsee Hw' Hd.
  pose proof (offered_fin _ _ Hd) as Hfin. destruct Hd as [D1 D2 D3].
  assert (Hrun : writer_run (ops ++ [o]) (w_cfg w) pub = (w', if g_once (w_gate w) then offs else offs ++ [x])).
  { rewrite writer_run_snoc, H1, Hw'. by destruct Ho as [-> | [now ->]]; simpl; destruct (g_once _). }
  assert (Hall : Forall offer_wf (ops ++ [o])) by (apply Forall_app; split; [done|by apply Forall_singleton]).
  destruct (g_once (w_gate w)) eqn:E.
  - exists (ops ++ [o]), pub, offs, pre, post, (rest ++ [en]). rewrite D1. split_and!; try done.
    + by rewrite H5, !app_assoc.
    + intros [Hf|Hf]; [by apply Hfin in Hf|]. destruct (D2 eq_refl). congruence.
  - rewrite (H6 (or_intror eq_refl)) in H5. exists (ops ++ [o]), pub, (offs ++ [x]), pre, (post ++ [en]), []. rewrite D1.
    split_and!; try done.
    + by rewrite H5, !app_nil_r, !app_assoc.
    + rewrite List.filter_app. simpl. rewrite Hsee. apply Forall2_app; [done|]. by constructor.
Qed.

Lemma wrel_unseen log opened id w en : wrel log opened id w -> ~ wfin w -> sees (c_seq (w_cfg w)) en = false ->
  wrel (log ++ [en]) opened id w.
Proof.
  intros (ops & pub & offs & pre & post & rest & H1 & H2 & H3 & H4 & H5 & H6 & H7) Hn Hsee.
  destruct (g_once (w_gate w)) eqn:E.
  - exists ops, pub, offs, pre, post, (rest ++ [en]). split_and!; try done.
    + by rewrite H5, !app_assoc.
    + rewrite E. by intros [Hf|?].
  - rewrite (H6 (or_intror eq_refl)) in H5. exists ops, pub, offs, pre, (post ++ [en]), []. split_and!; try done.
    + by rewrite H5, !app_nil_r, !app_assoc.
    + rewrite List.filter_app. simpl. by rewrite Hsee, app_nil_r.
Qed.

(** ** The set and the history *)

Definition fwd_ids (log : list entry) : list Z := omap (fun en => if en_drop en then None else Some (en_id en)) log.

Lemma fwd_ids_app a b : fwd_ids (a ++ b) = fwd_ids a ++ fwd_ids b.
Proof. apply omap_app. Qed.

Lemma fwd_ids_logged log id : id ∈ fwd_ids log -> exists en, en ∈ log /\ en_id en = id.
Proof.
  unfold fwd_ids. intros (en & Hin & He)%list_elem_of_omap. exists en. split; [done|]. destruct (en_drop en); congruence.
Qed.

Definition wall (P : Z -> subgroupWriter -> Prop) (ws : writer_map) : Prop :=
  Forall (fun iw : Z * option subgroupWriter => forall w, iw.2 = Some w -> P iw.1 w) ws.

Lemma wall_impl P Q ws : wall P ws -> (forall id w, P id w -> Q id w) -> wall Q ws.
Proof. intros H HPQ. eapply Forall_impl; [exact H|]. intros iw Hw w E. apply HPQ. by apply Hw. Qed.

Lemma wall_fmap P Q f ws : wall P ws ->
  (forall iw w', (f iw : Z * option subgroupWriter).2 = Some w' -> (forall w, iw.2 = Some w -> P iw.1 w) -> Q (f iw).1 w') ->
  wall Q (f <$> ws).
Proof. intros H HPQ. apply Forall_fmap. eapply Forall_impl; [exact H|]. intros iw Hw w' E. by apply HPQ. Qed.

Lemma wall_each P Q R ws ws' : wall P ws -> Forall2 (each_rel R) ws ws' ->
  (forall id w w', P id w -> R id w w' -> Q id w') -> wall Q ws'.
Proof.
  intros H HR HPQ. unfold wall in *. induction HR as [|[i a] [j b] ws ws' [E Hr] HR IH]; [constructor|]. simpl in *. subst j.
  apply Forall_cons in H as [H1 H2]. constructor; [|by apply IH]. simpl. intros w ->. destruct a as [w0|]; [|done].
  eapply HPQ; [by apply H1|done].
Qed.

Record sinv (hdr : SubgroupHeader) (log : list entry) (fin : Prop) (s : subgroupWriterSet) : Prop := {
  si_hdr : s_hdr s = hdr;
  si_marks : marks_ok (s_marks s) (fwd_ids log);
  si_writers : wall (fun id w => wrel log (s_opened s) id w /\ (wfin w -> fin)) (s_writers s) }.

Definition sub_ok (sub : Z * DownstreamSub) : Prop := is_u64 (s_TrackAlias (d_sub sub.2)).

Lemma sub_header_wf h d : wf_sh h -> is_u64 (s_TrackAlias (d_sub d)) -> wf_sh (sub_header h d).
Proof. intros (H1 & H2 & H3 & H4 & H5) Hd. by split_and!. Qed.

Lemma open_writers c hdr log opened fin seq sub pub ws : wf_sh hdr -> sub_ok sub -> seq <= opened ->
  wall (fun id w => wrel log opened id w /\ (wfin w -> fin)) ws ->
  wall (fun id w => wrel log opened id w /\ (wfin w -> fin)) (openWriterForSub c hdr sub.1 seq sub.2 pub ws).
Proof.
  intros Hh Hs Hseq H. unfold openWriterForSub. destruct (writer_of _ _); [done|].
  destruct (negb _); apply Forall_app; (split; [done|]); apply Forall_singleton; simpl; [done|].
  intros w [= <-]. split; [|by intros [? _]]. apply wrel_new; [|done]. by apply sub_header_wf.
Qed.

Lemma created_sinv c initial gen pub lowest fwd hdr log fin s : wf_sh hdr -> Forall sub_ok initial -> 0 <= lowest -> 0 <= s_opened s ->
  sinv hdr log fin s -> sinv hdr log fin (created c initial gen pub lowest fwd s).
Proof.
  intros Hh Hi Hl Ho [H1 H2 H3]. split; simpl; [done|by apply lower_marks|]. rewrite H1. clear H1 H2.
  revert H3. generalize (s_writers s). induction Hi as [|sub initial Hs _ IH]; intros ws H; cbn [fold_left]; [done|].
  apply IH. by apply open_writers.
Qed.

Lemma open_joiner_sinv c pub hdr log fin s sub : wf_sh hdr -> sub_ok sub -> sinv hdr log fin s ->
  sinv hdr log fin (open_joiner c pub s sub) /\ s_opened s <= s_opened (open_joiner c pub s sub) /\
  s_ends (open_joiner c pub s sub) = s_ends s.
Proof.
  intros Hh Hs [H1 H2 H3]. unfold open_joiner. rewrite H1.
  assert (Hw : wall (fun id w => wrel log (s_opened s + 1) id w /\ (wfin w -> fin))
    (openWriterForSub c hdr sub.1 (s_opened s + 1) sub.2 pub (s_writers s))).
  { apply open_writers; [done|done|lia|]. eapply wall_impl; [exact H3|]. intros id w [Hw Hf]. split; [|done].
    eapply wrel_opened; [done|lia]. }
  split; [|split; [simpl; destruct (writer_of _ _) as [[]|]; lia|done]]. split; simpl; [done|done|].
  destruct (writer_of sub.1 (s_writers s)) as [o|] eqn:E.
  - unfold openWriterForSub in *. rewrite E in *. rewrite E. destruct o; [exact Hw|exact H3].
  - revert Hw. unfold openWriterForSub. rewrite E. destruct (negb _) eqn:En; intros Hw.
    + destruct (writer_of sub.1 (s_writers s ++ [(sub.1, None)])) as [[]|]; [done| |]; apply Forall_app; (split; [done|]);
        by apply Forall_singleton.
    + assert (Ew : forall (ws : writer_map) w, writer_of sub.1 ws = None -> writer_of sub.1 (ws ++ [(sub.1, Some w)]) = Some (Some w)).
      { clear. induction ws as [|[i o] ws IH]; intros w E; simpl in *; [by rewrite Z.eqb_refl|]. destruct (i =? sub.1); [done|auto]. }
      by rewrite Ew.
Qed.

Lemma headerRead_sinv c downstream gen pub id hdr log fin s : wf_sh hdr -> Forall sub_ok downstream -> sinv hdr log fin s ->
  sinv hdr log fin (headerRead c downstream gen pub id s).2 /\ s_opened s <= s_opened (headerRead c downstream gen pub id s).2 /\
  s_ends (headerRead c downstream gen pub id s).2 = s_ends s.
Proof.
  intros Hh Hd H. unfold headerRead. set (new := detect_new _ _ _ _).
  assert (Hn : Forall sub_ok new).
  { unfold new, detect_new. destruct (gen =? s_gen s); [constructor|]. apply Forall_forall. intros x Hx.
    apply list_elem_of_In, filter_In in Hx as [Hx _]. rewrite Forall_forall in Hd. apply Hd. by apply list_elem_of_In. }
  assert (Hs : sinv hdr log fin (set_gen s gen)) by (destruct H; by split).
  assert (Ho : s_opened s <= s_opened (set_gen s gen)) by (simpl; lia).
  assert (He : s_ends (set_gen s gen) = s_ends s) by done.
  revert Hs Ho He. generalize (set_gen s gen). clearbody new. induction Hn as [|sub new Hsub _ IH]; intros s1 Hs Ho He; cbn [fold_left].
  - unfold noteHeader. destruct (noteHeader_in id _ _) as [r l]. simpl. split; [|done]. destruct Hs. by split.
  - destruct (open_joiner_sinv c pub hdr log fin s1 sub Hh Hsub Hs) as (H1 & H2 & H3). apply IH; [done|lia|congruence].
Qed.

Lemma doneReading_sinv id hdr log fin s : sinv hdr log fin s -> sinv hdr log fin (doneReading id s).
Proof. intros []. by split. Qed.

Definition x_ok (x : inbound) : Prop := 0 <= in_id x < MaxUint64 /\ obj_ok true (in_id x, in_obj x).

Lemma forward_sinv now track subs x hdr log s s' : x_ok x -> forward now track subs x s = Ok s' -> sinv hdr log False s ->
  sinv hdr (log ++ [MkEntry x false (in_heard x) subs]) False s' /\ s_opened s' = s_opened s /\ s_ends s' = s_ends s.
Proof.
  intros [Hid Hok] Hf [H1 H2 H3]. unfold forward in Hf. pose proof (claimFirst_ok (in_id x) (in_claimed x) _ _ H2) as Hm.
  destruct (claimFirst (in_id x) (in_claimed x) (s_marks s)) as [first m]. simpl in Hm.
  set (pub := match s_pub s with Some t => _ | None => _ end) in Hf.
  destruct (each_writer _ (s_writers s)) as [ws|] eqn:Ew; simpl in Hf; [|done]. injection Hf as <-. split; [|done].
  apply each_writer_ok in Ew. split; simpl; [done| |].
  - rewrite fwd_ids_app. simpl. apply Hm. zlia.
  - eapply wall_each; [exact H3|exact Ew|]. simpl. intros id w w' [Hw Hn] E. rewrite Z.gtb_ltb in E.
    set (en := MkEntry x false (in_heard x) subs).
    destruct (Z.ltb_spec (in_heard x) (c_seq (w_cfg w))) as [Hlt|Hge].
    + injection E as <-. split; [|done]. apply wrel_unseen; [done|done|]. unfold sees. simpl. apply Z.leb_gt. lia.
    + destruct (decide_for _ _ _ (subs id)) as [v|] eqn:Ev; simpl in E; [|done]. injection E as <-.
      set (o := offer_of x first pub v). pose proof (offered_offer now o w) as Hd. split.
      * eapply (wrel_seen log _ id w (WOffer now o) o en); try done; [by right; eexists|by split; [apply Hid|]|].
        unfold sees. simpl. apply Z.leb_le. lia.
      * intros Hfin. apply Hn. by eapply offered_fin.
Qed.

Lemma admit_sinv subs claim x hdr log s r : x_ok x -> admitAgedOut subs claim x s = Ok r -> sinv hdr log False s ->
  (r.1 = true /\ r.2 = s) \/
  (r.1 = false /\ claim = ClaimAgedOut /\ in_run (in_id x) (s_marks s) = true /\ r.2 = s) \/
  (r.1 = false /\ claim = ClaimAgedOut /\ in_run (in_id x) (s_marks s) = false /\
   sinv hdr (log ++ [MkEntry x true (s_opened s) subs]) False r.2 /\ s_opened r.2 = s_opened s /\ s_ends r.2 = s_ends s).
Proof.
  intros Hx Ha [H1 H2 H3]. unfold admitAgedOut in Ha. destruct (negb _ || _) eqn:E; [injection Ha as <-; by left|].
  apply orb_false_iff in E as [E _]. apply negb_false_iff, bool_decide_eq_true in E.
  destruct (in_run (in_id x) (s_marks s)) eqn:Er; [injection Ha as <-; right; left; by split_and!|]. right; right.
  destruct (each_writer _ (s_writers s)) as [ws|] eqn:Ew; simpl in Ha; [|done]. injection Ha as <-. simpl. split_and!; try done.
  apply each_writer_ok in Ew. split; simpl; [done|by rewrite fwd_ids_app, app_nil_r|].
  eapply wall_each; [exact H3|exact Ew|]. simpl. intros id w w' [Hw Hn] E'.
  destruct (decide_for _ _ _ (subs id)) as [v|] eqn:Ev; simpl in E'; [|done]. injection E' as <-.
  set (o := offer_of x false None v). pose proof (offered_omit v (in_id x) w) as Hd.
  split; [|intros Hfin; apply Hn; by eapply offered_fin].
  eapply (wrel_seen log _ id w (WOmit o) o); try done; [by left|destruct Hx as [[? ?] ?]; by split|].
  destruct Hw as (? & ? & ? & ? & ? & ? & _ & _ & _ & Hs & _). unfold sees. simpl. by apply Z.leb_le.
Qed.

Lemma deliver_sinv now track subs claim x hdr log s fw s' : x_ok x -> deliver_section now track subs claim x s = Ok (fw, s') ->
  sinv hdr log False s ->
  sinv hdr (log ++ logged s claim x subs fw) False s' /\ s_opened s' = s_opened s /\ s_ends s' = s_ends s /\
  (claim = ClaimFresh -> fw = true) /\ exists en, en ∈ log ++ logged s claim x subs fw /\ en_id en = in_id x.
Proof.
  intros Hx Hd H. unfold deliver_section in Hd. apply (doneReading_sinv (in_id x)) in H.
  change (s_marks s) with (s_marks (doneReading (in_id x) s)). change (s_opened s) with (s_opened (doneReading (in_id x) s)).
  change (s_ends s) with (s_ends (doneReading (in_id x) s)).
  assert (El : logged s claim x subs fw = logged (doneReading (in_id x) s) claim x subs fw) by done. rewrite El. clear El.
  set (s0 := doneReading (in_id x) s) in *. clearbody s0.
  destruct (admitAgedOut subs claim x s0) as [[go s1]|] eqn:Ea; simpl in Hd; [|done].
  pose proof (admit_sinv _ _ _ _ _ _ _ Hx Ea H) as Hcase. simpl in Hcase.
  destruct Hcase as [[-> ->]|[(-> & -> & Er & ->)|(-> & -> & Er & Hs1 & E1 & E2)]]; simpl in Hd.
  - destruct (forward now track subs x s0) as [s2|] eqn:Ef; simpl in Hd; [|done]. injection Hd as <- <-.
    destruct (forward_sinv _ _ _ _ _ _ _ _ Hx Ef H) as (Hs2 & E1 & E2). split_and!; try done.
    eexists. split; [apply elem_of_app; right; left|done].
  - injection Hd as <- <-. unfold logged. rewrite Er, app_nil_r. split_and!; try done.
    apply (in_run_ok _ _ (fwd_ids log)) in Er; [|apply H]. apply fwd_ids_logged in Er as (en & ? & ?). by exists en.
  - injection Hd as <- <-. unfold logged. rewrite Er. split_and!; try done. eexists. split; [apply elem_of_app; right; left|done].
Qed.

(** *** Closing *)

Lemma close_wrel log opened id reset code w : wrel log opened id w -> wrel log opened id (w_close reset code w).
Proof.
  intros H. eapply (wrel_quiet _ _ _ _ (WClose reset code)); [exact H|done|done| |].
  - unfold w_close. by destruct (g_once _).
  - intros E. unfold w_close. by rewrite E.
Qed.

Lemma close_fin (fin : Prop) reset code w : (wfin w -> fin) -> (reset = false -> fin) -> wfin (w_close reset code w) -> fin.
Proof.
  intros Hn Hr [H1 H2]. unfold w_close in *. destruct (g_once (w_gate w)) eqn:E; [apply Hn; split; congruence|]. by apply Hr.
Qed.

Lemma left_sinv h subs reset code covers coverFrom last hdr log s (fin : Prop) :
  let s' := contributor_left h subs reset code covers coverFrom last s in
  sinv hdr log False s -> (last = true -> (outcome (s_marks s') (s_ends s')).1 = false -> fin) ->
  sinv hdr log fin s' /\ s_opened s' = s_opened s /\ s_ends s' = leave reset code covers coverFrom (s_ends s) /\ s_marks s' = s_marks s.
Proof.
  cbv zeta. intros [H1 H2 H3] Hfin. unfold contributor_left in *. destruct last; simpl in *.
  - destruct (outcome (s_marks s) (leave reset code covers coverFrom (s_ends s))) as [r cd] eqn:Eo. simpl in *. split; [|done]. split; simpl; [done|done|].
    apply (wall_fmap _ _ _ _ H3). intros [i o] w' Hw' Hw. simpl in *. destruct o as [w|]; [|done].
    injection Hw' as <-. destruct (Hw w eq_refl) as [Hr Hn]. split; [by apply close_wrel|].
    apply close_fin; [by intros ?%Hn|]. intros Er. apply orb_false_iff in Er as [-> _]. rewrite Eo in Hfin. by apply Hfin.
  - split; [|done]. split; simpl; [done|done|]. eapply wall_impl; [exact H3|]. intros id w [Hw Hn]. split; [done|]. by intros ?%Hn.
Qed.

Lemma reset_sinv subs hdr log fin s : sinv hdr log fin s -> sinv hdr log fin (resetWriters subs s).2.
Proof.
  intros [H1 H2 H3]. split; simpl; [done|done|]. apply (wall_fmap _ _ _ _ H3). intros [i o] w' Hw' Hw. simpl in *.
  destruct (existsb _ subs); [done|]. by apply Hw.
Qed.

Lemma run_step_gate env w : w_cfg (run_step env w) = w_cfg w /\ g_once (w_gate (run_step env w)) = g_once (w_gate w) /\
  g_inboundReset (w_gate (run_step env w)) = g_inboundReset (w_gate w).
Proof.
  assert (Hfin : forall lag wf w0, w_cfg (run_exit (finishStream lag wf w0)) = w_cfg w0 /\
    g_once (w_gate (run_exit (finishStream lag wf w0))) = g_once (w_gate w0) /\
    g_inboundReset (w_gate (run_exit (finishStream lag wf w0))) = g_inboundReset (w_gate w0)).
  { intros lag wf w0. unfold finishStream. destruct (lag || _); [done|]. destruct wf; [done|]. by destruct (r_out _). }
  unfold run_step. destruct (r_done _); [done|]. destruct (w_inbox w) as [|f rest].
  { destruct (g_once (w_gate w)) eqn:E; [|done]. destruct (Hfin false (r_writeFailed (w_run w)) w) as (-> & -> & ->). done. }
  destruct (lagging _ _ _); [apply (Hfin true _ (set_inbox w rest))|].
  assert (Hd : forall w0, w_cfg (dropExpired w0) = w_cfg w0 /\ g_once (w_gate (dropExpired w0)) = g_once (w_gate w0) /\
    g_inboundReset (w_gate (dropExpired w0)) = g_inboundReset (w_gate w0)).
  { intros w0. unfold dropExpired, markIncomplete, markIncompleteLocked. by destruct (_ || _). }
  assert (Hs : forall w0, w_cfg (send_object env f w0) = w_cfg w0 /\ g_once (w_gate (send_object env f w0)) = g_once (w_gate w0) /\
    g_inboundReset (w_gate (send_object env f w0)) = g_inboundReset (w_gate w0)).
  { intros w0. unfold send_object. destruct (expired _ _); [apply Hd|]. unfold write_object. destruct (r_out _); [|done].
    destruct (WriteObjectReceivedAt _ _ _) as [[|] ?]; done. }
  assert (Hr : forall oe first k w0, (forall w1, w_cfg (k w1) = w_cfg w1 /\ g_once (w_gate (k w1)) = g_once (w_gate w1) /\
    g_inboundReset (w_gate (k w1)) = g_inboundReset (w_gate w1)) ->
    w_cfg (reopened oe first k w0) = w_cfg w0 /\ g_once (w_gate (reopened oe first k w0)) = g_once (w_gate w0) /\
    g_inboundReset (w_gate (reopened oe first k w0)) = g_inboundReset (w_gate w0)).
  { intros oe first k w0 Hk. unfold reopened. destruct (reopen _ _ _ _ _) as [[] r]; [|done]. destruct (Hk (set_run w0 r)) as (-> & -> & ->). done. }
  assert (Ht : forall stale w0, w_cfg (send_stale env f stale w0) = w_cfg w0 /\ g_once (w_gate (send_stale env f stale w0)) = g_once (w_gate w0) /\
    g_inboundReset (w_gate (send_stale env f stale w0)) = g_inboundReset (w_gate w0)).
  { intros stale w0. unfold send_stale. destruct stale; [by apply Hr|apply Hs]. }
  unfold run_object. destruct (r_writeFailed _); [done|]. destruct (reopenCause _ _) as [stale r].
  destruct (r_out r); [|destruct (Hr (re_open env) (fw_first f) (send_stale env f stale) (set_run (set_inbox w rest) r) (Ht stale)) as (-> & -> & ->); done].
  destruct (Ht stale (set_run (set_inbox w rest) r)) as (-> & -> & ->). done.
Qed.

Lemma on_writer_sinv id f o hdr log fin s :
  (forall w, w_cfg (f w) = w_cfg w /\ g_once (w_gate (f w)) = g_once (w_gate w) /\ g_inboundReset (w_gate (f w)) = g_inboundReset (w_gate w)) ->
  (forall w, writer_step (w, []) o = (f w, [])) -> match o with WOffer _ _ | WOmit _ => False | _ => True end ->
  sinv hdr log fin s -> sinv hdr log fin (on_writer id f s).
Proof.
  intros Hf Ho Hq [H1 H2 H3]. split; simpl; [done|done|]. apply (wall_fmap _ _ _ _ H3). intros [i [w|]] w' Hw' Hw; simpl in *.
  2: { by destruct (i =? id). }
  destruct (Hw w eq_refl) as [Hr Hn]. destruct (i =? id); simpl in *; [|by injection Hw' as <-]. injection Hw' as <-.
  destruct (Hf w) as (E1 & E2 & E3). split; [|unfold wfin; by rewrite E2, E3].
  eapply wrel_quiet; [exact Hr|apply Ho|done|done|]. by rewrite E2, E3.
Qed.

Lemma sinv_mono hdr log (fin fin' : Prop) s : sinv hdr log fin s -> (fin -> fin') -> sinv hdr log fin' s.
Proof. intros [H1 H2 H3] Hf. split; [done|done|]. eapply wall_impl; [exact H3|]. intros id w [Hw Hn]. split; [done|]. auto. Qed.

(** ** The ledger's answers *)

Lemma redundant_why now o e fresh e' : ledger_wf e -> hist_ok e fresh -> info_wf o -> ClaimDelivered now o e = (Ok ClaimRedundant, e') ->
  announcedAbsentLocked e (delivered e !! oi_Group o) (oi_Group o) (oi_Object o) = true \/ oi_loc o ∈ fresh.
Proof.
  intros He Hh Ho. unfold ClaimDelivered. destruct (aged_out e (oi_Group o)) eqn:Hage; [done|]. destruct (two_group_gaps _ _); [done|].
  destruct (checkEndsLocked now e (delivered e !! oi_Group o) o) as [[[]|err] c] eqn:Ec; [|done].
  apply check_ends_ok in Ec as (C1 & C2 & C3). destruct (announcedAbsentLocked _ _ _ _) eqn:Ea; [by left|].
  pose proof (claim_object_ok (set_cache e c) o fresh (ledger_wf_cache e c He) (hist_cache e c fresh Hh) Ho (conj C1 C2) Hage (fun g Hg => C3 g Hg)) as Hok.
  destruct (claim_object (set_cache e c) o) as [claim e2]. destruct Hok as [_ [(-> & Hin & _)|(-> & _ & _)]]; [by right|done].
Qed.

Lemma recordRedundant_ok now o dup e fresh r e' : ledger_wf e -> hist_ok e fresh -> info_wf o -> recordRedundant now o dup e = (r, e') ->
  ledger_wf e' /\ hist_ok e' fresh.
Proof.
  intros He Hh Ho H. unfold recordRedundant in H. destruct (checkDuplicate now dup (t_Cache e)) as [[[]|err] c].
  - pose proof (duplicate_step now o (set_cache e c) fresh (ledger_wf_cache e c He) (hist_cache e c fresh Hh) Ho) as Hd. by rewrite H in Hd.
  - injection H as _ <-. split; [by apply ledger_wf_cache|by apply hist_cache].
Qed.

(** What became of a payload read. *)
Inductive claimed_as (k : contributor) (obj : SubgroupObject) (e : TrackLedger) (fresh : list Location) : phase -> list Location -> Prop :=
| ca_leave code : claimed_as k obj e fresh (PLeave true code) fresh
| ca_redundant : announcedAbsentLocked e (delivered e !! sh_GroupID (k_hdr k)) (sh_GroupID (k_hdr k)) (k_objectID k) = true \/
    MkLoc (sh_GroupID (k_hdr k)) (k_objectID k) ∈ fresh -> claimed_as k obj e fresh PHeader fresh
| ca_fresh x : in_id x = k_objectID k -> in_obj x = obj -> in_hdr x = k_hdr k ->
    claimed_as k obj e fresh (PDeliver ClaimFresh x) (MkLoc (sh_GroupID (k_hdr k)) (k_objectID k) :: fresh)
| ca_aged x : in_id x = k_objectID k -> in_obj x = obj -> in_hdr x = k_hdr k -> claimed_as k obj e fresh (PDeliver ClaimAgedOut x) fresh.

Lemma payload_read_ok now heard headerAt obj k e p k' e' fresh : ledger_wf e -> hist_ok e fresh ->
  info_wf (object_info (k_hdr k) (k_objectID k) obj) -> payload_read now heard headerAt obj k e = (p, k', e') ->
  k_hdr k' = k_hdr k /\ k_objectID k' = k_objectID k /\ (k_coverFrom k' = k_coverFrom k \/ k_coverFrom k' = k_objectID k) /\
  (k_terminal k = true -> exists code, p = PLeave true code) /\
  ledger_wf e' /\ exists fresh', hist_ok e' fresh' /\ claimed_as k obj e fresh p fresh'.
Proof.
  intros He Hh Ho H. unfold payload_read in H. destruct (k_terminal k).
  { injection H as <- <- <-. split_and!; try done; [by left|by eexists|]. exists fresh. split; [done|constructor]. }
  set (info := object_info _ _ _) in *. assert (Ek : k_coverFrom (object_read k obj) = k_coverFrom k \/ k_coverFrom (object_read k obj) = k_objectID k).
  { simpl. destruct (k_covers k); auto. }
  pose proof (claim_step now info e fresh He Hh Ho) as Hc. pose proof (fun e' => redundant_why now info e fresh e' He Hh Ho) as Hwhy.
  change (object_info (k_hdr (object_read k obj)) (k_objectID k) obj) with info in H.
  destruct (ClaimDelivered now info e) as [[[| |]|err] e1]; destruct Hc as [Hw Hp]; simpl in Hp.
  - injection H as <- <- <-. destruct Hp as [_ Hp]. split_and!; try done. exists (oi_loc info :: fresh). split; [done|]. by apply ca_fresh.
  - destruct Hp as [_ Hp]. destruct (recordRedundant _ _ _ e1) as [[[]|err] e2] eqn:Er; injection H as <- <- <-;
      apply (recordRedundant_ok _ _ _ _ fresh) in Er as [W1 W2]; try done; split_and!; try done; exists fresh; (split; [done|]).
    + constructor. exact (Hwhy e1 eq_refl).
    + constructor.
  - injection H as <- <- <-. destruct Hp as [-> _]. split_and!; try done. exists fresh. split; [done|]. by apply ca_aged.
  - injection H as <- <- <-. destruct Hp as [_ [c ->]]. split_and!; try done. exists fresh. split; [by apply hist_cache|constructor].
Qed.

Lemma inboundEnded_ok now err k e reset code e' fresh : ledger_wf e -> hist_ok e fresh -> wf_loc (MkLoc (sh_GroupID (k_hdr k)) (k_objectID k)) ->
  inboundEnded now err k e = (reset, code, e') -> ledger_wf e' /\ hist_ok e' fresh.
Proof.
  intros He Hh Hw H. unfold inboundEnded in H. destruct (errors_Is err EOF).
  - destruct (k_last k) as [obj|]; [|by injection H as _ _ <-].
    set (info := MkInfo _ _ _ _ _ _ _ _) in H. pose proof (ended_step now info (sh_EndOfGroup (k_hdr k)) e fresh He Hh) as Hd.
    destruct (SubgroupEnded _ _ _ _) as [[[]|] e1]; injection H as _ _ <-; apply Hd; by split_and!.
  - destruct (errors_Is err ErrContextDone); [by injection H as _ _ <-|]. destruct (negb _); by injection H as _ _ <-.
Qed.

Lemma LowestForwarded_pos e group sub : ledger_wf e -> 0 <= (LowestForwarded e group sub).1.
Proof.
  intros He. unfold LowestForwarded. destruct (delivered e !! group) as [g|] eqn:Eg; simpl; [|lia].
  pose proof (lw_groups _ He _ _ Eg) as Hg. simpl in Hg. destruct (subgroups g !! sub) as [sg|] eqn:Es; simpl; [|lia].
  pose proof (gw_subgroups _ Hg _ _ Es) as Hsg. simpl in Hsg. pose proof (sw_min _ Hsg). zlia.
Qed.

(** ** The relay *)

Definition phase_ok (k : contributor) : Prop :=
  match k_phase k with
  | PCreating initial _ _ lowest _ => Forall sub_ok initial /\ 0 <= lowest
  | PPayload _ _ obj => obj_ok true (k_objectID k, obj) /\ info_wf (object_info (k_hdr k) (k_objectID k) obj)
  | PDeliver claim x => x_ok x /\ claim <> ClaimRedundant
  | _ => True
  end.

Record k_ok (hdr : SubgroupHeader) (k : contributor) : Prop := {
  ko_group : sh_GroupID (k_hdr k) = sh_GroupID hdr;
  ko_id : 0 <= k_objectID k < MaxUint64;
  ko_cover : is_u64 (k_coverFrom k);
  ko_phase : phase_ok k }.

(** A contributor that ended cleanly, vouching for the Objects from [k_coverFrom]. *)
Definition clean (k : contributor) : Prop := k_phase k = PGone false /\ k_covers k = true.
Definition resetting (k : contributor) : Prop := match k_phase k with PLeave true _ | PGone true => True | _ => False end.
Definition delivering (k : contributor) (id : Z) : Prop := exists claim x, k_phase k = PDeliver claim x /\ in_id x = id.
Definition pending (k : contributor) (id : Z) : Prop := exists x, k_phase k = PDeliver ClaimFresh x /\ in_id x = id.

Definition claimed (ks : list contributor) (log : list entry) (id : Z) : Prop :=
  id ∈ fwd_ids log \/ exists k, k ∈ ks /\ pending k id.

(** Why an Object a contributor read need not be forwarded again. *)
Definition accounted (hdr : SubgroupHeader) (ks : list contributor) (h : History) (id : Z) : Prop :=
  claimed ks (hi_log h) id \/ (exists en, en ∈ hi_log h /\ en_id en = id) \/
  MkLoc (sh_GroupID hdr) id ∈ hi_else h \/ id ∈ hi_absent h.

Definition reads_ok (hdr : SubgroupHeader) (ks : list contributor) (h : History) : Prop :=
  forall i id, (i, id) ∈ hi_read h -> exists k, ks !! i = Some k /\ (resetting k \/ delivering k id \/ accounted hdr ks h id).

Definition fresh_ok (hdr : SubgroupHeader) (ks : list contributor) (h : History) (e : TrackLedger) : Prop :=
  exists fresh, hist_ok e fresh /\ forall l, l ∈ fresh -> l ∈ hi_else h \/ Group l = sh_GroupID hdr /\ claimed ks (hi_log h) (Object l).

Definition ends_ok (ks : list contributor) (n : Ends) : Prop :=
  is_u64 (n_cleanFrom n) /\ (n_sawClean n = true -> exists k, k ∈ ks /\ clean k /\ k_coverFrom k = n_cleanFrom n).

Definition fin_of (y : Relay) : Prop := over y = true /\ (outcome (s_marks (y_set y)) (s_ends (y_set y))).1 = false.

Record yinv (hdr : SubgroupHeader) (y : Relay) (h : History) : Prop := {
  yi_ledger : ledger_wf (y_e y);
  yi_fresh : fresh_ok hdr (y_ks y) h (y_e y);
  yi_set : sinv hdr (hi_log h) (fin_of y) (y_set y);
  yi_opened : 0 <= s_opened (y_set y);
  yi_ends : ends_ok (y_ks y) (s_ends (y_set y));
  yi_ks : Forall (k_ok hdr) (y_ks y);
  yi_read : reads_ok hdr (y_ks y) h }.

(** One contributor moves from [k] to [k'], the log growing from [log] to [log']. *)
Definition carries_on (k k' : contributor) (log' : list entry) : Prop :=
  forall id, pending k id -> pending k' id \/ id ∈ fwd_ids log'.

Lemma claimed_put ks i k k' log more id : ks !! i = Some k -> carries_on k k' (log ++ more) ->
  claimed ks log id -> claimed (<[i := k']> ks) (log ++ more) id.
Proof.
  intros Hi Hc [H|(k0 & Hin & Hp)]; [left; rewrite fwd_ids_app; apply elem_of_app; by left|].
  apply list_elem_of_lookup in Hin as [j Hj]. destruct (decide (i = j)) as [<-|Hne].
  - rewrite Hi in Hj. injection Hj as <-. destruct (Hc id Hp) as [Hp'|?]; [|by left]. right. exists k'. split; [|done].
    apply list_elem_of_lookup. exists i. apply list_lookup_insert_eq. by eapply lookup_lt_Some.
  - right. exists k0. split; [|done]. apply list_elem_of_lookup. exists j. by rewrite list_lookup_insert_ne.
Qed.

(** The history only grows. *)
Record grows (h h' : History) (more : list entry) : Prop := {
  gr_log : hi_log h' = hi_log h ++ more;
  gr_else : forall l, l ∈ hi_else h -> l ∈ hi_else h';
  gr_absent : forall id, id ∈ hi_absent h -> id ∈ hi_absent h' }.

Lemma grows_refl h : grows h h [].
Proof. split; [by rewrite app_nil_r|done|done]. Qed.

Lemma accounted_put hdr ks i k k' h h' more id : ks !! i = Some k -> grows h h' more -> carries_on k k' (hi_log h') ->
  accounted hdr ks h id -> accounted hdr (<[i := k']> ks) h' id.
Proof.
  intros Hi [G1 G2 G3] Hc. unfold accounted. rewrite G1 in *. intros [H|[(en & Hin & E)|[H|H]]].
  - left. by eapply claimed_put.
  - right; left. exists en. split; [|done]. apply elem_of_app. by left.
  - right; right; left. auto.
  - right; right; right. auto.
Qed.

Lemma reads_put hdr ks i k k' h h' more : ks !! i = Some k -> grows h h' more -> carries_on k k' (hi_log h') ->
  (resetting k -> resetting k') -> (forall id, delivering k id -> delivering k' id \/ accounted hdr (<[i := k']> ks) h' id) ->
  reads_ok hdr ks h ->
  (forall j id, (j, id) ∈ hi_read h' -> (j, id) ∈ hi_read h \/
     j = i /\ (resetting k' \/ delivering k' id \/ accounted hdr (<[i := k']> ks) h' id)) ->
  reads_ok hdr (<[i := k']> ks) h'.
Proof.
  intros Hi Hg Hc Hr Hd H Hnew j id Hin. pose proof (list_lookup_insert_eq ks i k' (lookup_lt_Some _ _ _ Hi)) as Hself.
  destruct (Hnew j id Hin) as [Hold|[-> Hk]]; [|by exists k'].
  destruct (H j id Hold) as (k0 & Hj & Hk). destruct (decide (i = j)) as [<-|Hne].
  - rewrite Hi in Hj. injection Hj as <-. exists k'. split; [done|]. destruct Hk as [?|[Hk|Hk]]; [left; auto| |].
    + destruct (Hd id Hk); auto.
    + right; right. by eapply accounted_put.
  - exists k0. rewrite list_lookup_insert_ne by done. split; [done|]. destruct Hk as [?|[?|Hk]]; [by left|by right; left|].
    right; right. by eapply accounted_put.
Qed.

Lemma fresh_put hdr ks i k k' h h' more e' (fresh fresh' : list Location) : ks !! i = Some k -> grows h h' more -> carries_on k k' (hi_log h') ->
  (forall l, l ∈ fresh -> l ∈ hi_else h \/ Group l = sh_GroupID hdr /\ claimed ks (hi_log h) (Object l)) ->
  hist_ok e' fresh' ->
  (forall l, l ∈ fresh' -> l ∈ fresh \/ Group l = sh_GroupID hdr /\ pending k' (Object l)) -> fresh_ok hdr (<[i := k']> ks) h' e'.
Proof.
  intros Hi [G1 G2 G3] Hc Hf Hh Hnew. rewrite G1 in *. exists fresh'. split; [done|]. intros l Hl. rewrite G1.
  destruct (Hnew l Hl) as [Hold|[Hgr Hp]].
  - destruct (Hf l Hold) as [?|[? ?]]; [left; auto|]. right. split; [done|]. by eapply claimed_put.
  - right. split; [done|]. right. exists k'. split; [|done]. apply list_elem_of_lookup. exists i. apply list_lookup_insert_eq.
    by eapply lookup_lt_Some.
Qed.

Lemma not_over y i k : y_ks y !! i = Some k -> is_gone k = false -> over y = false.
Proof.
  intros Hi Hg. unfold over. destruct (forallb is_gone (y_ks y)) eqn:E; [|done]. rewrite forallb_forall in E.
  rewrite E in Hg; [done|]. apply list_elem_of_In. by eapply list_elem_of_lookup_2.
Qed.

Lemma ends_put ks i k k' n : ks !! i = Some k -> is_gone k = false -> ends_ok ks n -> ends_ok (<[i := k']> ks) n.
Proof.
  intros Hi Hg [H1 H2]. split; [done|]. intros Hs. destruct (H2 Hs) as (k0 & Hin & Hk & E). exists k0. split; [|done].
  apply list_elem_of_lookup in Hin as [j Hj]. apply list_elem_of_lookup. exists j. rewrite list_lookup_insert_ne; [done|].
  intros <-. rewrite Hi in Hj. injection Hj as <-. destruct Hk as [Hk _]. unfold is_gone in Hg. by rewrite Hk in Hg.
Qed.

(** A contributor's step that leaves the ends alone. *)
Lemma yinv_put hdr y h i k k' s' e' h' more (fresh fresh' : list Location) : yinv hdr y h -> y_ks y !! i = Some k -> is_gone k = false ->
  (forall l : Location, l ∈ fresh -> l ∈ hi_else h \/ Group l = sh_GroupID hdr /\ claimed (y_ks y) (hi_log h) (Object l)) ->
  grows h h' more -> carries_on k k' (hi_log h') -> (resetting k -> resetting k') ->
  (forall id, delivering k id -> delivering k' id \/ accounted hdr (<[i := k']> (y_ks y)) h' id) ->
  (forall j id, (j, id) ∈ hi_read h' -> (j, id) ∈ hi_read h \/
     j = i /\ (resetting k' \/ delivering k' id \/ accounted hdr (<[i := k']> (y_ks y)) h' id)) ->
  hist_ok e' fresh' -> (forall l, l ∈ fresh' -> l ∈ fresh \/ Group l = sh_GroupID hdr /\ pending k' (Object l)) ->
  ledger_wf e' -> k_ok hdr k' -> sinv hdr (hi_log h') False s' -> s_opened (y_set y) <= s_opened s' -> s_ends s' = s_ends (y_set y) ->
  yinv hdr (put y i k' s' e') h'.
Proof.
  intros [I1 I2 I3 I4 I5 I6 I7] Hi Hg Hf G C R D N Hh Hl Hw Hk Hs Ho He. split; simpl; [done| | |lia| | |].
  - by eapply fresh_put.
  - by eapply sinv_mono.
  - rewrite He. by eapply ends_put.
  - by apply Forall_insert.
  - by eapply reads_put.
Qed.

(** Phases in which nothing is pending. *)
Lemma not_delivering k id : (forall claim x, k_phase k <> PDeliver claim x) -> ~ delivering k id.
Proof. intros H (claim & x & E & _). by apply H in E. Qed.
Lemma pending_delivering k id : pending k id -> delivering k id.
Proof. intros (x & E & <-). by eexists _, _. Qed.

Definition op_ok (group : Z) (o : relay_op) : Prop :=
  match o with
  | YSnapshot _ initial _ _ => Forall sub_ok initial
  | YHeader _ _ downstream _ _ id _ obj =>
      Forall sub_ok downstream /\ 0 <= id < MaxUint64 /\ obj_ok true (id, obj) /\
      let g := ObjectPriorGaps (so_Properties obj) in
      (HasGroup g = true -> 0 <= pg_Group g <= group) /\ (HasObject g = true -> 0 <= pg_Object g <= id)
  | YLedger o => op_wf o
  | _ => True
  end.

Lemma active_set hdr y h i k : yinv hdr y h -> y_ks y !! i = Some k -> is_gone k = false -> sinv hdr (hi_log h) False (y_set y).
Proof. intros [_ _ Hs _ _ _ _] Hi Hg. eapply sinv_mono; [exact Hs|]. intros [Ho _]. by erewrite not_over in Ho. Qed.

Definition quiet (k : contributor) : Prop := is_gone k = false /\ ~ resetting k /\ forall claim x, k_phase k <> PDeliver claim x.

Lemma yinv_quiet hdr y h i k k' s' e' (fresh : list Location) : yinv hdr y h -> y_ks y !! i = Some k -> quiet k ->
  (forall l, l ∈ fresh -> l ∈ hi_else h \/ Group l = sh_GroupID hdr /\ claimed (y_ks y) (hi_log h) (Object l)) ->
  hist_ok e' fresh -> ledger_wf e' -> k_ok hdr k' -> sinv hdr (hi_log h) False s' ->
  s_opened (y_set y) <= s_opened s' -> s_ends s' = s_ends (y_set y) -> yinv hdr (put y i k' s' e') h.
Proof.
  intros H Hi (Hg & Hr & Hq) Hf Hh Hw Hk Hs Ho He. eapply (yinv_put hdr y h i k k' s' e' h [] fresh fresh); try done.
  - apply grows_refl.
  - intros id Hp. by apply pending_delivering, not_delivering in Hp.
  - intros id Hd. by apply not_delivering in Hd.
  - intros j id Hin. by left.
  - intros l Hl. by left.
Qed.

Ltac quiet_phase E := unfold quiet, is_gone, resetting; rewrite E; split_and!; [done|tauto|by intros ? ?].

Lemma snapshot_yinv hdr y h i k initial gen pub : yinv hdr y h -> y_ks y !! i = Some k -> k_phase k = PCreate -> Forall sub_ok initial ->
  yinv hdr (k_step y i k (YSnapshot i initial gen pub)) h.
Proof.
  intros H Hi E Hs. unfold k_step. rewrite E. pose proof (LowestForwarded_pos (y_e y) (sh_GroupID (k_hdr k)) (sh_SubgroupID (k_hdr k)) (yi_ledger _ _ _ H)) as Hl.
  destruct (LowestForwarded _ _ _) as [lowest fwd]. destruct (yi_fresh _ _ _ H) as (fresh & Hh & Hf).
  pose proof (Forall_lookup_1 _ _ _ _ (yi_ks _ _ _ H) Hi) as [K1 K2 K3 K4].
  eapply yinv_quiet; try done; [quiet_phase E|apply H|]. eapply active_set; [done|done|]. unfold is_gone. by rewrite E.
Qed.

Lemma created_yinv hdr y h i k c : wf_sh hdr -> yinv hdr y h -> y_ks y !! i = Some k -> yinv hdr (k_step y i k (YCreated i c)) h.
Proof.
  intros Hwf H Hi. unfold k_step. destruct (k_phase k) as [|initial gen pub lowest fwd| | | | |] eqn:E; try done.
  destruct (yi_fresh _ _ _ H) as (fresh & Hh & Hf).
  pose proof (Forall_lookup_1 _ _ _ _ (yi_ks _ _ _ H) Hi) as [K1 K2 K3 K4]. unfold phase_ok in K4. rewrite E in K4. destruct K4 as [K4 K5].
  eapply yinv_quiet; try done; [quiet_phase E|apply H|]. apply created_sinv; try done; [apply H|].
  eapply active_set; [done|done|]. unfold is_gone. by rewrite E.
Qed.

Lemma header_yinv hdr y h i k c downstream gen pub id headerAt obj : wf_sh hdr -> yinv hdr y h -> y_ks y !! i = Some k ->
  op_ok (sh_GroupID hdr) (YHeader i c downstream gen pub id headerAt obj) ->
  yinv hdr (k_step y i k (YHeader i c downstream gen pub id headerAt obj)) h.
Proof.
  intros Hwf H Hi (O1 & O2 & O3 & O4). unfold k_step. destruct (k_phase k) eqn:E; try done.
  destruct (yi_fresh _ _ _ H) as (fresh & Hh & Hf).
  pose proof (Forall_lookup_1 _ _ _ _ (yi_ks _ _ _ H) Hi) as [K1 K2 K3 K4].
  assert (Hs : sinv hdr (hi_log h) False (y_set y)) by (eapply active_set; [done|done|]; unfold is_gone; by rewrite E).
  pose proof (headerRead_sinv c downstream gen pub id hdr (hi_log h) False (y_set y) Hwf O1 Hs) as (S1 & S2 & S3).
  destruct (headerRead c downstream gen pub id (y_set y)) as [heard s']. simpl in *.
  eapply yinv_quiet; try done; [quiet_phase E|apply H|]. split; simpl; try done. unfold phase_ok; simpl. split; [done|].
  assert (Hwg : is_u64 (sh_GroupID hdr)) by apply Hwf. rewrite <- K1 in *. split; [|done]. split; simpl; zlia.
Qed.

Lemma fail_yinv hdr y h i k now err : wf_sh hdr -> yinv hdr y h -> y_ks y !! i = Some k -> yinv hdr (k_step y i k (YFail i now err)) h.
Proof.
  intros Hwf H Hi. unfold k_step. destruct (yi_fresh _ _ _ H) as (fresh & Hh & Hf).
  pose proof (Forall_lookup_1 _ _ _ _ (yi_ks _ _ _ H) Hi) as [K1 K2 K3 K4].
  assert (Hl : wf_loc (MkLoc (sh_GroupID (k_hdr k)) (k_objectID k))).
  { rewrite K1. split; simpl; [apply Hwf|zlia]. }
  pose proof (fun r c e' => inboundEnded_ok now err k (y_e y) r c e' fresh (yi_ledger _ _ _ H) Hh Hl) as He.
  destruct (inboundEnded now err k (y_e y)) as [[reset code] e'] eqn:Ee. destruct (He _ _ _ eq_refl) as [W1 W2].
  destruct (k_phase k) eqn:E; try done; (eapply yinv_quiet; try done; [quiet_phase E|]); [|apply doneReading_sinv];
    (eapply active_set; [done|done|]; unfold is_gone; by rewrite E).
Qed.

Lemma payload_yinv hdr y h i k now : wf_sh hdr -> yinv hdr y h -> y_ks y !! i = Some k ->
  yinv hdr (k_step y i k (YPayload i now)) (history_step y h (YPayload i now)).
Proof.
  intros Hwf H Hi. unfold k_step, history_step. rewrite Hi. destruct (k_phase k) as [| | |heard headerAt obj| | |] eqn:E; try done.
  destruct (yi_fresh _ _ _ H) as (fresh & Hh & Hf).
  pose proof (Forall_lookup_1 _ _ _ _ (yi_ks _ _ _ H) Hi) as [K1 K2 K3 K4]. unfold phase_ok in K4. rewrite E in K4. destruct K4 as [K4 K5].
  destruct (payload_read now heard headerAt obj k (y_e y)) as [[p k'] e'] eqn:Ep.
  apply (payload_read_ok _ _ _ _ _ _ _ _ _ fresh) in Ep as (P1 & P2 & P3 & P4 & W & fresh' & Hh' & Hc); [|apply H|done|done].
  assert (Hs : sinv hdr (hi_log h) False (y_set y)) by (eapply active_set; [done|done|]; unfold is_gone; by rewrite E).
  assert (Hg : is_gone k = false) by (unfold is_gone; by rewrite E).
  assert (Hnd : forall id, ~ delivering k id) by (intros id; apply not_delivering; congruence).
  assert (Hnr : ~ resetting k) by (unfold resetting; rewrite E; tauto).
  set (h' := if k_terminal k then h else _).
  assert (Hgr : grows h h' []).
  { unfold h'. destruct (k_terminal k); [apply grows_refl|]. split; simpl; [by rewrite app_nil_r|done|].
    intros id Hid. destruct (announcedAbsentLocked _ _ _ _); [by right|done]. }
  assert (Hk : k_ok hdr (set_phase k' p)).
  { split; simpl; [congruence|by rewrite P2|destruct P3 as [-> | ->]; [done|zlia]|]. unfold phase_ok; simpl.
    inversion Hc; simplify_eq; try done; (split; [|done]); (split; [congruence|]); unfold obj_ok in *; simpl in *; congruence. }
  eapply (yinv_put hdr y h i k (set_phase k' p) _ e' h' [] fresh fresh'); try done.
  - intros id Hp. by apply pending_delivering, Hnd in Hp.
  - intros id Hd. by apply Hnd in Hd.
  - intros j id Hin. unfold h' in Hin |- *. destruct (k_terminal k) eqn:Et; [by left|]. simpl in Hin.
    apply elem_of_cons in Hin as [[= -> ->]|Hin]; [|by left]. right. split; [done|]. inversion Hc as [|Hor|x ? ? ?|x ? ? ?]; subst; simpl.
    + by left.
    + right; right. unfold accounted. simpl. destruct Hor as [-> |Hor]; [right; right; right; left|].
      destruct (Hf _ Hor) as [Hel|[_ Hcl]]; [right; right; left; by rewrite <- K1|]. left. simpl in Hcl.
      assert (Hc2 := claimed_put (y_ks y) i k (set_phase k' PHeader) (hi_log h) [] (k_objectID k) Hi). rewrite app_nil_r in Hc2.
      apply Hc2; [|done]. intros id Hp. by apply pending_delivering, Hnd in Hp.
    + right; left. by eexists _, x.
    + right; left. by eexists _, x.
  - intros l Hl. inversion Hc as [|Hor|x ? ? ?|x ? ? ?]; subst; try by left.
    apply elem_of_cons in Hl as [-> |Hl]; [|by left]. right. split; [done|]. by exists x.
  - rewrite (gr_log _ _ _ Hgr), app_nil_r. destruct p; by apply doneReading_sinv || done.
  - by destruct p.
  - by destruct p.
Qed.

Lemma deliver_yinv hdr y h i k now track subs : yinv hdr y h -> y_ks y !! i = Some k ->
  yinv hdr (k_step y i k (YDeliver i now track subs)) (history_step y h (YDeliver i now track subs)).
Proof.
  intros H Hi. unfold k_step, history_step. rewrite Hi. destruct (k_phase k) as [| | | |claim x| |] eqn:E; try done.
  destruct (yi_fresh _ _ _ H) as (fresh & Hh & Hf).
  pose proof (Forall_lookup_1 _ _ _ _ (yi_ks _ _ _ H) Hi) as [K1 K2 K3 K4]. unfold phase_ok in K4. rewrite E in K4. destruct K4 as [K4 K5].
  destruct (deliver_section now track subs claim x (y_set y)) as [[fw s']|] eqn:Ed; [|done].
  assert (Hg : is_gone k = false) by (unfold is_gone; by rewrite E).
  pose proof (active_set _ _ _ _ _ H Hi Hg) as Hs.
  destruct (deliver_sinv _ _ _ _ _ _ _ _ _ _ K4 Ed Hs) as (S1 & S2 & S3 & S4 & en & Hin & Hen).
  set (more := logged (y_set y) claim x subs fw) in *. set (h' := MkHistory _ _ _ _).
  assert (Hgr : grows h h' more) by done.
  assert (Hacc : forall id, delivering k id -> accounted hdr (<[i := set_phase k PHeader]> (y_ks y)) h' id).
  { intros id (cl & x' & E' & <-). rewrite E in E'. injection E' as _ <-. right; left. by exists en. }
  assert (Hc : carries_on k (set_phase k PHeader) (hi_log h')).
  { intros id (x' & E' & <-). rewrite E in E'. injection E' as -> <-. right. simpl. rewrite fwd_ids_app. apply elem_of_app. right.
    unfold more, logged. rewrite S4 by done. left. }
  eapply (yinv_put hdr y h i k (set_phase k PHeader) s' _ h' more fresh fresh); try done.
  - unfold resetting. by rewrite E.
  - intros id Hd. right. by apply Hacc.
  - intros j id Hj. by left.
  - destruct fw; [by apply hist_cache|done].
  - intros l Hl. by left.
  - destruct fw; [apply ledger_wf_cache, H|apply H].
  - lia.
Qed.

Lemma last_over ks i k : is_gone k = true -> is_last i ks = true -> forallb is_gone (<[i := k]> ks) = true.
Proof.
  intros Hk Hl. unfold is_last in Hl. apply andb_true_iff in Hl as [H1 H2]. rewrite forallb_forall in H1, H2.
  apply forallb_forall. intros k0 Hin. apply list_elem_of_In, list_elem_of_lookup in Hin as [j Hj].
  destruct (decide (i = j)) as [<-|Hne].
  - destruct (decide (i < length ks)%nat) as [Hlt|Hge]; [rewrite list_lookup_insert_eq in Hj by done; by injection Hj as <-|].
    apply lookup_lt_Some in Hj. rewrite length_insert in Hj. lia.
  - rewrite list_lookup_insert_ne in Hj by done. destruct (decide (j < i)%nat).
    + apply H1, list_elem_of_In, list_elem_of_lookup. exists j. by rewrite lookup_take_lt.
    + apply H2, list_elem_of_In, list_elem_of_lookup. exists (j - S i)%nat. rewrite lookup_drop.
      replace (S i + (j - S i))%nat with j by lia. done.
Qed.

Lemma leave_yinv hdr y h i k subs : yinv hdr y h -> y_ks y !! i = Some k -> yinv hdr (k_step y i k (YLeave i subs)) h.
Proof.
  intros H Hi. unfold k_step. destruct (k_phase k) as [| | | | |reset code|] eqn:E; try done.
  destruct (yi_fresh _ _ _ H) as (fresh & Hh & Hf).
  pose proof (Forall_lookup_1 _ _ _ _ (yi_ks _ _ _ H) Hi) as [K1 K2 K3 K4].
  assert (Hg : is_gone k = false) by (unfold is_gone; by rewrite E).
  pose proof (active_set _ _ _ _ _ H Hi Hg) as Hs. set (k' := set_phase k (PGone reset)).
  set (s' := contributor_left _ _ _ _ _ _ _ _). set (y' := put y i k' s' (y_e y)).
  destruct (left_sinv (k_hdr k) subs reset code (k_covers k) (k_coverFrom k) (is_last i (y_ks y)) hdr (hi_log h) (y_set y) (fin_of y')) as (S1 & S2 & S3 & S4); [done| |].
  { intros Hl Ho. split; [|done]. unfold over, y'. simpl. by apply last_over. }
  fold s' in S1, S2, S3, S4. assert (Hnd : forall id, ~ delivering k id) by (intros id; apply not_delivering; congruence).
  assert (Hco : carries_on k k' (hi_log h)) by (intros id Hp; by apply pending_delivering, Hnd in Hp).
  split; simpl; [apply H| |done|rewrite S2; apply H| |apply Forall_insert; [apply H|by split]|].
  - eapply (fresh_put hdr (y_ks y) i k k' h h [] _ fresh fresh); [done|apply grows_refl|done|done|done|by left].
  - rewrite S3. pose proof (ends_put (y_ks y) i k k' _ Hi Hg (yi_ends _ _ _ H)) as Hends. unfold leave.
    destruct reset; [done|]. destruct (k_covers k && _) eqn:Ec; [|done]. apply andb_true_iff in Ec as [Ec _].
    split; simpl; [done|]. intros _. exists k'. split_and!; [|done|done]. apply list_elem_of_lookup. exists i.
    apply list_lookup_insert_eq. by eapply lookup_lt_Some.
  - eapply (reads_put hdr (y_ks y) i k k' h h []); try done; [apply grows_refl| |by intros id Hd%Hnd|apply H|by left].
    unfold resetting, k'. rewrite E. simpl. by destruct reset.
Qed.

Lemma join_yinv hdr y h src inb jh : yinv hdr y h -> wf_sh hdr -> yinv hdr (relay_step y (YJoin src inb jh)) h.
Proof.
  intros H Hwf. unfold relay_step. destruct (over y || negb _) eqn:E; [done|]. apply orb_false_iff in E as [Eo Es].
  apply negb_false_iff in Es. unfold same_subgroup in Es. apply andb_true_iff in Es as [Es _]. apply Z.eqb_eq in Es.
  destruct H as [I1 (fresh & Hh & Hf) I3 I4 I5 I6 I7]. rewrite (si_hdr _ _ _ _ I3) in Es.
  set (k := start_contributor src inb jh false).
  assert (Hcl : forall id, claimed (y_ks y) (hi_log h) id -> claimed (y_ks y ++ [k]) (hi_log h) id).
  { intros id [?|(k0 & Hin & Hp)]; [by left|]. right. exists k0. split; [|done]. apply elem_of_app. by left. }
  split; simpl; try done.
  - exists fresh. split; [done|]. intros l Hl. destruct (Hf l Hl) as [?|[? ?]]; [by left|right; auto].
  - eapply sinv_mono; [exact I3|]. intros [Ho _]. congruence.
  - destruct I5 as [E1 E2]. split; [done|]. intros Hc. destruct (E2 Hc) as (k0 & Hin & Hk). exists k0. split; [|done].
    apply elem_of_app. by left.
  - apply Forall_app. split; [done|]. apply Forall_singleton. split; simpl; [done|zlia|zlia|done].
  - intros i id Hin. destruct (I7 i id Hin) as (k0 & Hk & Hc). exists k0. rewrite lookup_app_l by (by eapply lookup_lt_Some).
    split; [done|]. destruct Hc as [?|[?|[?|?]]]; [by left|by right; left|right; right; left; auto|by right; right; right].
Qed.

Lemma ledger_op_fresh o e fresh : ledger_wf e -> hist_ok e fresh -> op_wf o ->
  ledger_wf (ledger_step (e, []) o).1 /\ hist_ok (ledger_step (e, []) o).1 ((ledger_step (e, []) o).2 ++ fresh).
Proof.
  intros He Hh Ho. destruct o as [now o|now o|now o b]; simpl in *.
  - pose proof (claim_step now o _ _ He Hh Ho) as Hc. destruct (ClaimDelivered now o e) as [[[| |]|err] e']; destruct Hc as [W Hc]; simpl in *;
      (split; [done|]); [apply Hc|apply Hc|by destruct Hc as [-> _]|]. destruct Hc as [_ [c ->]]. by apply hist_cache.
  - pose proof (duplicate_step now o _ _ He Hh Ho) as Hc. by destruct (RecordDuplicate now o e).
  - pose proof (ended_step now o b _ _ He Hh Ho) as Hc. by destruct (SubgroupEnded now o b e).
Qed.

Lemma ledger_yinv hdr y h o : yinv hdr y h -> op_wf o -> yinv hdr (relay_step y (YLedger o)) (history_step y h (YLedger o)).
Proof.
  intros [I1 (fresh & Hh & Hf) I3 I4 I5 I6 I7] Ho.
  pose proof (ledger_op_fresh o _ _ I1 Hh Ho) as Hs.
  unfold relay_step, history_step. destruct (ledger_step (y_e y, []) o) as [e' new]. simpl in Hs. destruct Hs as [W Hh'].
  split; simpl; try done.
  - exists (new ++ fresh). split; [done|]. intros l [Hl|Hl]%elem_of_app; [left; apply elem_of_app; by left|].
    destruct (Hf l Hl) as [?|?]; [left; apply elem_of_app; by right|by right].
  - intros i id Hin. destruct (I7 i id Hin) as (k & Hk & Hc). exists k. split; [done|]. destruct Hc as [?|[?|Hc]]; [by left|by right; left|].
    right; right. unfold accounted in *; simpl. destruct Hc as [?|[?|[?|?]]]; [by left|by right; left| |by right; right; right].
    right; right; left. apply elem_of_app. by right.
Qed.

Lemma relay_step_yinv hdr y h o : wf_sh hdr -> yinv hdr y h -> op_ok (sh_GroupID hdr) o ->
  yinv hdr (relay_step y o) (history_step y h o).
Proof.
  intros Hwf H Ho. assert (Hset : forall s', sinv hdr (hi_log h) (fin_of y) s' -> s_opened s' = s_opened (y_set y) ->
    s_ends s' = s_ends (y_set y) -> s_marks s' = s_marks (y_set y) -> yinv hdr (MkRelay (y_e y) s' (y_ks y)) h).
  { intros s' Hs E1 E2 E3. destruct H as [I1 I2 I3 I4 I5 I6 I7]. split; simpl; try done; [|by rewrite E1|by rewrite E2].
    eapply sinv_mono; [exact Hs|]. unfold fin_of, over; simpl. by rewrite E2, E3. }
  destruct o as [src inb jh|i|i c|i c d g p id ha obj|i|i|i|i|subs|id env|id|o]; try (by apply join_yinv || by apply ledger_yinv);
    try (unfold relay_step; destruct (y_ks y !! i) as [k|] eqn:Hi; [|unfold history_step; by rewrite ?Hi]); simpl history_step.
  - destruct (k_phase k) eqn:E; try (unfold k_step; by rewrite E). by apply snapshot_yinv.
  - by apply created_yinv.
  - by apply header_yinv.
  - by apply fail_yinv.
  - by apply payload_yinv.
  - by apply deliver_yinv.
  - by apply leave_yinv.
  - apply Hset; [|done..]. apply reset_sinv, H.
  - apply Hset; [|done..]. eapply (on_writer_sinv id _ (WRun env)); [intros w; apply run_step_gate|done|done|apply H].
  - apply Hset; [|done..]. by eapply (on_writer_sinv id _ WCancelIO); [..|apply H].
Qed.

Definition history0 (fresh : list Location) : History := MkHistory [] [] fresh [].

Lemma relay0_yinv src inb hdr e fresh : ledger_wf e -> hist_ok e fresh -> yinv hdr (relay0 src inb hdr e) (history0 fresh).
Proof.
  intros He Hh. split; simpl; try done.
  - exists fresh. split; [done|]. auto.
  - split; simpl; [done|apply marks0_ok|constructor].
  - apply Forall_singleton. split; simpl; [done|zlia|zlia|done].
  - intros i id Hin. by apply elem_of_nil in Hin.
Qed.

Lemma relay_run_yinv hdr ops y h : wf_sh hdr -> Forall (op_ok (sh_GroupID hdr)) ops -> yinv hdr y h ->
  yinv hdr (relay_run ops y h).1 (relay_run ops y h).2.
Proof.
  intros Hwf Hops. unfold relay_run. revert y h. induction Hops as [|o ops Ho _ IH]; intros y h H; cbn [fold_left]; [done|].
  apply IH. by apply relay_step_yinv.
Qed.

(** What went through the set to the subscriber [id]: the Objects its subscription
    selects. *)
Definition sent_to (id : Z) (en : entry) : option (Z * SubgroupObject) :=
  match en_verdict id en with Ok Forward => Some (en_id en, in_obj (en_x en)) | _ => None end.

(** The Object [obj] need not reach the subscriber: it went through the set before its
    writer was opened or its header was read before then, or it is before the
    subscription's start; or another stream of the Track claimed it; or it was
    announced not to exist. *)
Definition excused (hdr : SubgroupHeader) (h : History) (pre : list entry) (id seq obj : Z) : Prop :=
  (exists en, en ∈ hi_log h /\ en_id en = obj /\ (en ∈ pre \/ sees seq en = false \/ en_verdict id en = Ok SkipBeforeStart)) \/
  MkLoc (sh_GroupID hdr) obj ∈ hi_else h \/ obj ∈ hi_absent h.

Lemma offers_selected id ens offs : Forall2 (offer_for id) ens offs -> Forall passes offs ->
  selected_of offs = omap (sent_to id) ens /\
  forall en, en ∈ ens -> sent_to id en = Some (en_id en, in_obj (en_x en)) \/ en_verdict id en = Ok SkipBeforeStart.
Proof.
  induction 1 as [|en x ens offs (E1 & E2 & E3) H IH]; intros Hp.
  - split; [done|]. by intros en ?%elem_of_nil.
  - apply Forall_cons in Hp as [Hx Hp]. destruct (IH Hp) as [IH1 IH2]. split.
    + assert (Es : sent_to id en = if bool_decide (of_verdict x = Forward) then Some (of_id x, of_obj x) else None).
      { unfold sent_to. rewrite E3, E1, E2. by destruct Hx as [-> | ->]. }
      unfold selected_of in *. cbn -[sent_to]. rewrite Es. destruct (bool_decide _); [f_equal|]; exact IH1.
    + intros en' [-> |Hin]%elem_of_cons; [|auto]. unfold sent_to. rewrite E3. destruct Hx as [-> | ->]; auto.
Qed.

(** An Object read by a contributor that ended cleanly is on the log, or excused. *)
Lemma clean_read hdr y h i k obj : yinv hdr y h -> over y = true -> y_ks y !! i = Some k -> clean k -> (i, obj) ∈ hi_read h ->
  (exists en, en ∈ hi_log h /\ en_id en = obj) \/ MkLoc (sh_GroupID hdr) obj ∈ hi_else h \/ obj ∈ hi_absent h.
Proof.
  intros H Ho Hi [Hk _] Hin. destruct (yi_read _ _ _ H i obj Hin) as (k0 & Hi' & Hc). rewrite Hi in Hi'. injection Hi' as <-.
  destruct Hc as [Hr|[(cl & x & E & _)|Hc]]; [unfold resetting in Hr; by rewrite Hk in Hr|congruence|].
  destruct Hc as [[Hf|(k1 & Hk1 & x & E & _)]|Hc]; [left; by apply fwd_ids_logged| |done].
  exfalso. unfold over in Ho. rewrite forallb_forall in Ho. specialize (Ho k1). unfold is_gone in Ho. rewrite E in Ho.
  discriminate Ho. by apply list_elem_of_In.
Qed.

Lemma complete_read c o l offs ops pub w ls : writer_run ops c pub = (w, offs) -> Forall offer_wf ops ->
  wf_sh (c_hdr c) -> carries c [] o l -> concat ls ++ l = selected_of offs ->
  exists r s' e, acceptDataStream None (MkStream (wire (os_events o)) Fin) = Accepted (DSSubgroup r) /\
      reads r (expect (os_header o) (stream_subgroup (os_header o) l) <$> l) s' /\
      ReadDecoded s' = Failed e false /\ errors_Is e EOF = true.
Proof.
  intros Hrun Hops Hh Hc E. eapply carries_read; [done|done|].
  pose proof (seen_objects ops (new_writer c pub, []) Hops ltac:(constructor)) as Hok. fold (writer_run ops c pub) in Hok.
  rewrite Hrun in Hok. simpl in Hok. rewrite <- E in Hok. by apply Forall_app in Hok as [_ ?].
Qed.

(** C8: a FIN tells a subscriber the truth about the Subgroup.  Several upstreams
    feed a Subgroup, with duplicates, resets and out-of-window Objects, while
    subscribers join, the Track's other streams use the ledger, and the writers'
    goroutines run, in any order.  If a subscriber of the Subgroup is sent a FIN, then
    every contributor has left; one ended cleanly, and every Object from the lowest
    one forwarded to its first one went through the set; the subscriber reads, on its
    streams in order, the Objects forwarded since its writer was opened that it
    selects; and every Object that any cleanly ended contributor read is one of
    them, unless the subscriber is owed it otherwise: it was received before its
    writer was opened, precedes its start, was claimed by another stream of the
    Track, or was announced not to exist. *)
Theorem fin_end_to_end src inb hdr e fresh ops : wf_sh hdr -> ledger_wf e -> hist_ok e fresh ->
  Forall (op_ok (sh_GroupID hdr)) ops ->
  let '(y, h) := relay_run ops (relay0 src inb hdr e) (history0 fresh) in
  forall id w o, (id, Some w) ∈ s_writers (y_set y) -> o ∈ r_streams (w_run w) -> finned o ->
  over y = true /\
  (exists k, k ∈ y_ks y /\ clean k /\ forall j, m_lowest (s_marks (y_set y)) <= j < k_coverFrom k -> j ∈ fwd_ids (hi_log h)) /\
  exists init ls l pre post, r_streams (w_run w) = init ++ [o] /\ Forall2 (carried (w_cfg w)) init ls /\
    hi_log h = pre ++ post /\ concat ls ++ l = omap (sent_to id) (List.filter (sees (c_seq (w_cfg w))) post) /\
    (exists r s' err, acceptDataStream None (MkStream (wire (os_events o)) Fin) = Accepted (DSSubgroup r) /\
       reads r (expect (os_header o) (stream_subgroup (os_header o) l) <$> l) s' /\
       ReadDecoded s' = Failed err false /\ errors_Is err EOF = true) /\
    forall i k obj, y_ks y !! i = Some k -> clean k -> (i, obj) ∈ hi_read h ->
      obj ∈ (concat ls ++ l).*1 \/ excused hdr h pre id (c_seq (w_cfg w)) obj.
Proof.
  intros Hwf He Hh Hops. pose proof (relay_run_yinv hdr ops _ _ Hwf Hops (relay0_yinv src inb hdr e fresh He Hh)) as H.
  destruct (relay_run ops _ _) as [y h]. simpl in H. intros id w o Hin Ho Hf.
  pose proof (si_writers _ _ _ _ (yi_set _ _ _ H)) as Hall. unfold wall in Hall. rewrite Forall_forall in Hall.
  destruct (Hall _ Hin w eq_refl) as [(wops & pub & offs & pre & post & rest & R1 & R2 & R3 & R4 & R5 & R6 & R7) Hfin]. simpl in *.
  pose proof (writer_run_winv wops (w_cfg w) pub) as Hw. rewrite R1 in Hw.
  destruct Hw as [_ _ _ _ _ _ _ Hloop Hdone]; [by eapply Forall_impl; [|exact offer_wf_ids]|]. simpl in *.
  destruct (r_done (w_run w)) eqn:Hd.
  2: { destruct (Hloop eq_refl) as (_ & _ & ls & cur & [_ N _ _] & _). rewrite Forall_forall in N. by apply N in Hf. }
  destruct (Hdone eq_refl) as (_ & _ & _ & _ & Hc).
  destruct (Hc o Ho Hf) as (Eo & Er & init & ls & l & E1 & E2 & E3 & E4 & E5).
  destruct (Hfin (conj Eo Er)) as [Hov Hout]. rewrite (R6 (or_introl (conj Eo Er))), app_nil_r in R5.
  destruct (offers_selected _ _ _ R7 E5) as [S1 S2]. split; [done|]. split.
  - destruct (outcome _ _) as [b code] eqn:Eout. simpl in Hout. subst b.
    destruct (yi_ends _ _ _ H) as [U Hcl]. destruct (outcome_fin _ _ _ _ (si_marks _ _ _ _ (yi_set _ _ _ H)) U Eout) as [Hsaw Hids].
    destruct (Hcl Hsaw) as (k & Hk & Hkc & Ek). exists k. rewrite Ek. done.
  - exists init, ls, l, pre, post. split_and!; try done; [congruence|by eapply complete_read|].
    intros i k obj Hi Hk Hobj. destruct (clean_read _ _ _ _ _ _ H Hov Hi Hk Hobj) as [(en & Hen & <-)|[?|?]];
      [|right; right; by left|right; right; by right].
    pose proof Hen as Hen'. rewrite R5 in Hen'. apply elem_of_app in Hen' as [Hp|Hp]; [right; left; exists en; auto|].
    destruct (sees (c_seq (w_cfg w)) en) eqn:Es; [|right; left; exists en; auto].
    assert (Hfl : en ∈ List.filter (sees (c_seq (w_cfg w))) post) by (apply list_elem_of_In, filter_In; by rewrite <- list_elem_of_In).
    destruct (S2 en Hfl) as [Hs|Hs]; [|right; left; exists en; auto]. left. rewrite E4, S1.
    apply list_elem_of_fmap. exists (en_id en, in_obj (en_x en)). split; [done|]. apply list_elem_of_omap. by exists en.
Qed.

Definition demo_hdr : SubgroupHeader := c_hdr sample_cfg.
Definition demo_inb : InboundTrack := MkInbound (NewKey [[Byte.x61]] [Byte.x62]) 128 None.
Definition demo_subs (id : Z) : DownstreamSub := NewDownstreamSub id 7 true.
Definition demo_fan : FanConfig := MkFan 4 0 0 false false.
Definition demo_header (i : nat) (id : Z) : relay_op := YHeader i demo_fan [(1, demo_subs 1)] 1 (MkDT 0 0) id 0 sample_object.

(** Two upstreams, each with Objects 0 and 1; the second ends with a reset. *)
Definition demo_ops : list relay_op :=
  [YSnapshot 0 [(1, demo_subs 1)] 1 (MkDT 0 0); YCreated 0 demo_fan; YJoin 2 demo_inb demo_hdr;
   demo_header 0 0; demo_header 1 0; YPayload 1 0; YDeliver 1 0 (MkDT 0 0) demo_subs; YPayload 0 0;
   YRun 1 sample_env; demo_header 0 1; YPayload 0 0; YDeliver 0 0 (MkDT 0 0) demo_subs;
   YFail 1 0 (StreamReset 5); YLeave 1 demo_subs; YFail 0 0 EOF; YLeave 0 demo_subs; YRun 1 sample_env; YRun 1 sample_env].
Definition demo_end : Relay * History := relay_run demo_ops (relay0 1 demo_inb demo_hdr (ledger0 (NewObjectCache 16 0))) (history0 []).
Definition demo_writer : subgroupWriter :=
  match s_writers (y_set demo_end.1) with (_, Some w) :: _ => w | _ => new_writer sample_cfg (MkDT 0 0) end.
Definition demo_stream : OutgoingSubgroupStream :=
  default (NewOutgoingSubgroup demo_hdr false false false) (last (r_streams (w_run demo_writer))).

Lemma demo_hdr_wf : wf_sh demo_hdr.
Proof. unfold wf_sh, modes. simpl. split_and!; [rewrite !elem_of_cons; auto|zlia|zlia|zlia|zlia]. Qed.

Lemma demo_subs_ok : Forall sub_ok [(1, demo_subs 1)].
Proof. apply Forall_singleton. unfold sub_ok. simpl. zlia. Qed.

Lemma demo_header_ok i id : 0 <= id < MaxUint64 -> op_ok (sh_GroupID demo_hdr) (demo_header i id).
Proof.
  intros Hid. assert (Hso : wf_so (S:=Stream) true sample_object).
  { unfold wf_so; simpl. rewrite ?MaxStreamFieldSize_val. split_and!; by_decide || done. }
  split; [exact demo_subs_ok|]. split; [done|]. split; [|by split]. split; [simpl; zlia|]. by split.
Qed.

Lemma demo_ops_ok : Forall (op_ok (sh_GroupID demo_hdr)) demo_ops.
Proof. unfold demo_ops. rewrite !Forall_cons. split_and!; try done; try (apply demo_header_ok; zlia). exact demo_subs_ok. Qed.

Lemma ledger0_hist c : hist_ok (ledger0 c) [].
Proof. split; [intros ? ? ? E; simpl in E; by rewrite lookup_empty in E|by intros ? ?%elem_of_nil]. Qed.

Lemma fin_end_to_end_witness :
  over demo_end.1 = true /\ (length (y_ks demo_end.1) = 2)%nat /\
  exists ls l pre, (forall obj, obj ∈ [0; 1] ->
    obj ∈ (concat ls ++ l).*1 \/ excused demo_hdr demo_end.2 pre 1 (c_seq (w_cfg demo_writer)) obj) /\
  exists r s' err, acceptDataStream None (MkStream (wire (os_events demo_stream)) Fin) = Accepted (DSSubgroup r) /\
    reads r (expect (os_header demo_stream) (stream_subgroup (os_header demo_stream) l) <$> l) s' /\
    ReadDecoded s' = Failed err false.
Proof.
  pose proof (fin_end_to_end 1 demo_inb demo_hdr (ledger0 (NewObjectCache 16 0)) [] demo_ops demo_hdr_wf (ledger0_wf _) (ledger0_hist _) demo_ops_ok) as H.
  assert (Ew : s_writers (y_set demo_end.1) = [(1, Some demo_writer)]) by (vm_compute; reflexivity).
  assert (Es : r_streams (w_run demo_writer) = [demo_stream]) by (vm_compute; reflexivity).
  assert (Ef : finned demo_stream) by (apply finned_dec; vm_compute; reflexivity).
  assert (Ek : (fun k => (k_phase k, k_covers k)) <$> (y_ks demo_end.1 !! 0%nat) = Some (PGone false, true)) by (vm_compute; reflexivity).
  assert (El : length (y_ks demo_end.1) = 2%nat) by (vm_compute; reflexivity).
  assert (Er : hi_read demo_end.2 = [(0%nat, 1); (0%nat, 0); (1%nat, 0)]) by (vm_compute; reflexivity).
  generalize dependent demo_stream. generalize dependent demo_writer. intros w Ew st Es Ef.
  destruct (relay_run _ _ _) as [y h] eqn:Ey. assert (Ey' : demo_end = (y, h)) by (unfold demo_end; exact Ey). rewrite Ey' in *. clear Ey Ey'.
  cbn [fst snd] in *.
  destruct (H 1 w st) as (H1 & _ & init & ls & l & pre & post & E1 & E2 & E3 & E4 & (r & s' & err & E5 & E6 & E7 & _) & E8); [rewrite Ew; left|rewrite Es; left|done|].
  split; [exact H1|]. split; [exact El|]. exists ls, l, pre. split; [|by exists r, s', err].
  destruct (y_ks y !! 0%nat) as [k|] eqn:Hk; [|done]. injection Ek as Ek1 Ek2. intros obj Hobj. apply (E8 0%nat k obj Hk (conj Ek1 Ek2)). rewrite Er. rewrite !elem_of_cons, elem_of_nil in Hobj.
  destruct Hobj as [-> |[-> |[]]]; [right; left|left].
Defined.

(** ** At most once *)

(** A Group that has aged out of the window stays out. *)
Lemma aged_hist e fresh g z : ledger_wf e -> hist_ok e fresh -> aged_out e g = true -> hist_ok e (MkLoc g z :: fresh).
Proof.
  intros He [H1 H2] Ha. unfold aged_out in Ha. apply andb_true_iff in Ha as [Ha Hlt]. apply andb_true_iff in Ha as [Hn Hsz].
  apply bool_decide_eq_true in Hn. apply Z.ltb_lt in Hlt. rewrite Z.geb_leb in Hsz. apply Z.leb_le in Hsz.
  split; [intros id g' x Hg Hx; right; eauto|]. intros l [-> |Hl]%elem_of_cons; [|auto]. right. simpl.
  pose proof (lw_window _ He). split_and!; [lia|done|done].
Qed.

Lemma hist_aged e (fresh1 fresh2 : list Location) g z : hist_ok e fresh1 -> hist_ok e fresh2 -> MkLoc g z ∈ fresh1 -> ~ MkLoc g z ∈ fresh2 ->
  aged_out e g = true.
Proof.
  intros [_ H1] [H2 _] Hin Hn. destruct (H1 _ Hin) as [(g' & Hg & Hz)|(Hs & Hl & Hlt)]; simpl in *; [by apply (H2 _ _ _ Hg) in Hz|].
  unfold aged_out. rewrite bool_decide_true by done. rewrite Hs. simpl. by apply Z.ltb_lt.
Qed.

Lemma fresh_z (fresh : list Location) (z : Z) : exists z', z' <> z /\ forall g, ~ MkLoc g z' ∈ fresh.
Proof.
  set (l := z :: (Object <$> fresh)). exists (stdpp.base.fresh l). pose proof (infinite_is_fresh l) as Hl. split.
  - intros E. apply Hl. rewrite E. left.
  - intros g Hin. apply Hl. right. apply list_elem_of_fmap. by exists (MkLoc g (stdpp.base.fresh l)).
Qed.

Lemma claim_aged now o e g fresh r e' : ledger_wf e -> hist_ok e fresh -> info_wf o -> ClaimDelivered now o e = (r, e') ->
  aged_out e g = true -> aged_out e' g = true.
Proof.
  intros He Hh Ho E Ha. destruct (fresh_z fresh (oi_Object o)) as (z & Hz & Hn).
  pose proof (aged_hist e fresh g z He Hh Ha) as Hh'.
  pose proof (claim_step now o e fresh He Hh Ho) as H2. pose proof (claim_step now o e (MkLoc g z :: fresh) He Hh' Ho) as H1.
  rewrite E in H1, H2. destruct H1 as [_ H1], H2 as [_ H2].
  destruct r as [[| |]|err]; simpl in H1, H2.
  - eapply (hist_aged e'); [apply H1|apply H2|right; left|]. intros [E'|?]%elem_of_cons; [|by eapply Hn].
    injection E' as _ E'. done.
  - eapply (hist_aged e'); [apply H1|apply H2|left|apply Hn].
  - by destruct H1 as [-> _].
  - by destruct H1 as [_ [c ->]].
Qed.

Lemma redundant_aged now o dup e g fresh r e' : ledger_wf e -> hist_ok e fresh -> info_wf o -> recordRedundant now o dup e = (r, e') ->
  aged_out e g = true -> aged_out e' g = true.
Proof.
  intros He Hh Ho E Ha. destruct (fresh_z fresh 0) as (z & _ & Hn).
  pose proof (recordRedundant_ok _ _ _ _ _ _ _ He Hh Ho E) as [_ H2].
  pose proof (recordRedundant_ok _ _ _ _ _ _ _ He (aged_hist e fresh g z He Hh Ha) Ho E) as [_ H1].
  eapply (hist_aged e'); [apply H1|apply H2|left|apply Hn].
Qed.

Lemma payload_aged now heard headerAt obj k e p k' e' fresh g : ledger_wf e -> hist_ok e fresh ->
  info_wf (object_info (k_hdr k) (k_objectID k) obj) -> payload_read now heard headerAt obj k e = (p, k', e') ->
  aged_out e g = true -> aged_out e' g = true.
Proof.
  intros He Hh Ho H Ha. unfold payload_read in H. destruct (k_terminal k); [by injection H as _ _ <-|].
  change (k_hdr (object_read k obj)) with (k_hdr k) in H. pose proof (claim_step now _ e fresh He Hh Ho) as Hc.
  destruct (ClaimDelivered now _ e) as [r e1] eqn:E. pose proof (claim_aged _ _ _ g _ _ _ He Hh Ho E Ha) as Ha1. destruct Hc as [Hw Hc].
  destruct r as [[| |]|err]; try (by injection H as _ _ <-). destruct (recordRedundant _ _ _ e1) as [[[]|] e2] eqn:Er; injection H as _ _ <-;
    (eapply redundant_aged; [exact Hw|apply Hc|exact Ho|exact Er|done]).
Qed.

Lemma ended_aged now err k e r code e' fresh g : ledger_wf e -> hist_ok e fresh -> wf_loc (MkLoc (sh_GroupID (k_hdr k)) (k_objectID k)) ->
  inboundEnded now err k e = (r, code, e') -> aged_out e g = true -> aged_out e' g = true.
Proof.
  intros He Hh Hw E Ha. destruct (fresh_z fresh 0) as (z & _ & Hn).
  pose proof (inboundEnded_ok _ _ _ _ _ _ _ _ He Hh Hw E) as [_ H2].
  pose proof (inboundEnded_ok _ _ _ _ _ _ _ _ He (aged_hist e fresh g z He Hh Ha) Hw E) as [_ H1].
  eapply (hist_aged e'); [apply H1|apply H2|left|apply Hn].
Qed.

Lemma ledger_aged o e fresh g : ledger_wf e -> hist_ok e fresh -> op_wf o -> aged_out e g = true ->
  aged_out (ledger_step (e, []) o).1 g = true.
Proof.
  intros He Hh Ho Ha. set (z0 := match (ledger_step (e, []) o).2 with l :: _ => Object l | [] => 0 end).
  destruct (fresh_z fresh z0) as (z & Hz & Hn).
  eapply hist_aged; [apply (ledger_op_fresh o e (MkLoc g z :: fresh)); [done|by apply aged_hist|done]|by apply (ledger_op_fresh o e fresh)| |].
  - apply elem_of_app. right. left.
  - intros [H|H]%elem_of_app; [|by eapply Hn]. unfold z0 in Hz. destruct o as [now o|now o|now o b]; simpl in *; try by apply elem_of_nil in H.
    destruct (ClaimDelivered now o e) as [[[| |]|] ?]; simpl in *; try by apply elem_of_nil in H.
    apply list_elem_of_singleton in H. injection H as _ H. done.
Qed.

Lemma aged_forward now track subs x s s' : deliver_section now track subs ClaimAgedOut x s = Ok (true, s') ->
  m_hasRun (s_marks s) = true /\ m_runHi (s_marks s) < in_id x.
Proof.
  unfold deliver_section. intros H. destruct (admitAgedOut subs ClaimAgedOut x (doneReading (in_id x) s)) as [[go s1]|] eqn:E; simpl in H; [|done].
  destruct go; simpl in H; [|done]. unfold admitAgedOut in E. simpl in E.
  destruct (m_hasRun (s_marks s)) eqn:Er; simpl in E.
  - rewrite Z.gtb_ltb in E. destruct (Z.ltb_spec (m_runHi (s_marks s)) (in_id x)); [done|].
    destruct (in_run _ _); [done|]. by destruct (each_writer _ _).
  - unfold in_run in E. rewrite Er in E. simpl in E. by destruct (each_writer _ _).
Qed.

(** Which Objects can still be forwarded. *)
Record oinv (hdr : SubgroupHeader) (fresh : list Location) (y : Relay) (h : History) : Prop := {
  oi_hist : hist_ok (y_e y) fresh;
  oi_once : NoDup (fwd_ids (hi_log h));
  oi_fwd : forall id, id ∈ fwd_ids (hi_log h) -> MkLoc (sh_GroupID hdr) id ∈ fresh \/ aged_out (y_e y) (sh_GroupID hdr) = true;
  oi_pending : forall i k id, y_ks y !! i = Some k -> pending k id -> MkLoc (sh_GroupID hdr) id ∈ fresh /\ ~ id ∈ fwd_ids (hi_log h);
  oi_unique : forall i j k k' id, y_ks y !! i = Some k -> y_ks y !! j = Some k' -> pending k id -> pending k' id -> i = j;
  oi_aged : forall i k x, y_ks y !! i = Some k -> k_phase k = PDeliver ClaimAgedOut x -> aged_out (y_e y) (sh_GroupID hdr) = true }.

(** A step of the [i]th contributor that forwards nothing. *)
Lemma oinv_put hdr (fresh fresh' : list Location) y h i k k' s' e' h' : oinv hdr fresh y h -> y_ks y !! i = Some k -> hi_log h' = hi_log h ->
  hist_ok e' fresh' -> (forall l, l ∈ fresh -> l ∈ fresh') ->
  (aged_out (y_e y) (sh_GroupID hdr) = true -> aged_out e' (sh_GroupID hdr) = true) ->
  (forall id, pending k' id -> MkLoc (sh_GroupID hdr) id ∈ fresh' /\ ~ (MkLoc (sh_GroupID hdr) id ∈ fresh) /\ ~ id ∈ fwd_ids (hi_log h)) ->
  (forall x, k_phase k' = PDeliver ClaimAgedOut x -> aged_out e' (sh_GroupID hdr) = true) ->
  oinv hdr fresh' (put y i k' s' e') h'.
Proof.
  intros [O1 O2 O3 O4 O5 O6] Hi El Hh Hsub Ha Hp Hx. pose proof (lookup_lt_Some _ _ _ Hi) as Hlt.
  assert (Hlook : forall j k0, y_ks (put y i k' s' e') !! j = Some k0 -> (j = i /\ k0 = k') \/ (j <> i /\ y_ks y !! j = Some k0)).
  { intros j k0 Hj. simpl in Hj. destruct (decide (i = j)) as [<-|Hne]; [rewrite list_lookup_insert_eq in Hj by done; left; by injection Hj as <-|].
    rewrite list_lookup_insert_ne in Hj by done. by right. }
  split; simpl; rewrite ?El; [done|done| | | |].
  - intros id Hid. destruct (O3 id Hid) as [?|?]; [left|right]; auto.
  - intros j k0 id Hj Hid. destruct (Hlook j k0 Hj) as [[-> ->]|[Hne Hj']].
    + destruct (Hp id Hid) as (? & _ & ?). done.
    + destruct (O4 _ _ _ Hj' Hid). split; [auto|done].
  - intros a b ka kb id Hka Hkb Hpa Hpb. destruct (Hlook a ka Hka) as [[-> ->]|[Hna Ha']], (Hlook b kb Hkb) as [[-> ->]|[Hnb Hb']]; [done| | |by eapply O5].
    + destruct (Hp id Hpa) as (_ & Hn & _). by destruct (O4 _ _ _ Hb' Hpb).
    + destruct (Hp id Hpb) as (_ & Hn & _). by destruct (O4 _ _ _ Ha' Hpa).
  - intros j k0 x Hj Ex. destruct (Hlook j k0 Hj) as [[-> ->]|[Hne Hj']]; [by eapply Hx|]. apply Ha. by eapply O6.
Qed.

Lemma oinv_idle hdr (fresh : list Location) y h i k k' s' e' : oinv hdr fresh y h -> y_ks y !! i = Some k -> hist_ok e' fresh ->
  (aged_out (y_e y) (sh_GroupID hdr) = true -> aged_out e' (sh_GroupID hdr) = true) ->
  (forall claim x, k_phase k' <> PDeliver claim x) -> oinv hdr fresh (put y i k' s' e') h.
Proof.
  intros H Hi Hh Ha Hq. eapply oinv_put; try done.
  - intros id (x & E & _). by apply Hq in E.
  - intros x E. by apply Hq in E.
Qed.

Lemma payload_oinv hdr fresh y h i k now : wf_sh hdr -> yinv hdr y h -> oinv hdr fresh y h -> y_ks y !! i = Some k ->
  exists fresh', oinv hdr fresh' (k_step y i k (YPayload i now)) (history_step y h (YPayload i now)).
Proof.
  intros Hwf H O Hi. unfold k_step, history_step. rewrite Hi. destruct (k_phase k) as [| | |heard headerAt obj| | |] eqn:E; try (by exists fresh).
  pose proof (Forall_lookup_1 _ _ _ _ (yi_ks _ _ _ H) Hi) as [K1 K2 K3 K4]. unfold phase_ok in K4. rewrite E in K4. destruct K4 as [K4 K5].
  destruct (payload_read now heard headerAt obj k (y_e y)) as [[p k'] e'] eqn:Ep.
  assert (Ha : aged_out (y_e y) (sh_GroupID hdr) = true -> aged_out e' (sh_GroupID hdr) = true).
  { intros Ha. eapply payload_aged; [apply H|apply O|exact K5|exact Ep|done]. }
  set (h' := if k_terminal k then h else _). assert (El : hi_log h' = hi_log h) by (unfold h'; by destruct (k_terminal k)). clearbody h'.
  set (s' := match p with PDeliver _ _ => _ | _ => _ end). clearbody s'.
  unfold payload_read in Ep. destruct (k_terminal k).
  { injection Ep as <- <- <-. exists fresh. eapply oinv_put; try done; [apply O|by intros id (? & ? & _)]. }
  change (k_hdr (object_read k obj)) with (k_hdr k) in Ep. set (info := object_info (k_hdr k) (k_objectID k) obj) in *.
  pose proof (claim_step now info (y_e y) fresh (yi_ledger _ _ _ H) (oi_hist _ _ _ _ O) K5) as Hc.
  assert (Hag : forall e1, ClaimDelivered now info (y_e y) = (Ok ClaimFresh, e1) -> aged_out (y_e y) (sh_GroupID hdr) = false).
  { intros e1 Ec. unfold ClaimDelivered in Ec. change (oi_Group info) with (sh_GroupID (k_hdr k)) in Ec. rewrite K1 in Ec.
    by destruct (aged_out (y_e y) (sh_GroupID hdr)). }
  assert (Hgd : forall e1, ClaimDelivered now info (y_e y) = (Ok ClaimAgedOut, e1) -> aged_out (y_e y) (sh_GroupID hdr) = true).
  { intros e1 Ec. unfold ClaimDelivered in Ec. change (oi_Group info) with (sh_GroupID (k_hdr k)) in Ec. rewrite K1 in Ec.
    destruct (aged_out (y_e y) (sh_GroupID hdr)); [done|]. destruct (two_group_gaps _ _); [done|]. destruct (checkEndsLocked _ _ _ _) as [[]]; [|done].
    destruct (announcedAbsentLocked _ _ _ _); [done|]. unfold claim_object in Ec. destruct (match _ with Some _ => _ | None => _ end).
    destruct (recordGapsLocked _ _ _ _ _). by destruct (bool_decide _). }
  destruct (ClaimDelivered now info (y_e y)) as [[[| |]|err] e1] eqn:Ec; destruct Hc as [Hw Hp]; simpl in Hp.
  - injection Ep as <- <- <-. specialize (Hag e1 eq_refl). destruct Hp as [Hnew Hp]. change (oi_loc info) with (MkLoc (sh_GroupID (k_hdr k)) (k_objectID k)) in *. rewrite K1 in *.
    exists (MkLoc (sh_GroupID hdr) (k_objectID k) :: fresh). eapply (oinv_put hdr fresh); try done; [intros l ?; by right|].
    intros id (x & E' & <-). injection E' as <-. simpl. split_and!; [left|done|]. intros Hid. destruct (oi_fwd _ _ _ _ O _ Hid); [done|congruence].
  - destruct Hp as [_ Hp]. exists fresh. destruct (recordRedundant _ _ _ e1) as [[[]|err] e2] eqn:Er; injection Ep as <- <- <-;
      apply (recordRedundant_ok _ _ _ _ fresh) in Er as [W1 W2]; try done;
      (eapply oinv_put; try done; by intros id (? & ? & _)).
  - injection Ep as <- <- <-. destruct Hp as [-> _]. exists fresh. eapply oinv_put; try done; [apply O|by intros id (? & ? & _)|].
    intros x _. by apply (Hgd (y_e y)).
  - injection Ep as <- <- <-. destruct Hp as [_ [c ->]]. exists fresh. eapply oinv_put; try done; [by apply hist_cache, O|by intros id (? & ? & _)].
Qed.

(** No contributor delivers an aged-out copy of an Object another has claimed and not
    yet forwarded. *)
Definition is_pending (id : Z) (k : contributor) : bool :=
  match k_phase k with PDeliver ClaimFresh x => in_id x =? id | _ => false end.
Definition unraced (y : Relay) (o : relay_op) : bool :=
  match o with
  | YDeliver i _ _ _ =>
      match k_phase <$> (y_ks y !! i) with
      | Some (PDeliver ClaimAgedOut x) => negb (existsb (is_pending (in_id x)) (y_ks y))
      | _ => true
      end
  | _ => true
  end.
Fixpoint unraced_run (ops : list relay_op) (y : Relay) : bool :=
  match ops with [] => true | o :: ops => unraced y o && unraced_run ops (relay_step y o) end.

Lemma deliver_oinv hdr fresh y h i k now track subs : yinv hdr y h -> oinv hdr fresh y h -> y_ks y !! i = Some k ->
  unraced y (YDeliver i now track subs) = true ->
  oinv hdr fresh (k_step y i k (YDeliver i now track subs)) (history_step y h (YDeliver i now track subs)).
Proof.
  intros H O Hi Hu. unfold k_step, history_step. unfold unraced in Hu. rewrite Hi in Hu |- *. simpl in Hu.
  destruct (k_phase k) as [| | | |claim x| |] eqn:E; try done.
  pose proof (Forall_lookup_1 _ _ _ _ (yi_ks _ _ _ H) Hi) as [K1 K2 K3 K4]. unfold phase_ok in K4. rewrite E in K4. destruct K4 as [K4 K5].
  destruct (deliver_section now track subs claim x (y_set y)) as [[fw s']|] eqn:Ed; [|done].
  destruct fw; cycle 1.
  { assert (El : fwd_ids (hi_log h ++ logged (y_set y) claim x subs false) = fwd_ids (hi_log h)).
    { rewrite fwd_ids_app. unfold logged. by destruct (in_run _ _); rewrite app_nil_r. }
    destruct (oinv_idle hdr fresh y h i k (set_phase k PHeader) s' (y_e y) O Hi (oi_hist _ _ _ _ O)) as [P1 P2 P3 P4 P5 P6]; [done|done|].
    set (lg := logged _ _ _ _ _) in *. clearbody lg. split; simpl; try done; intros *; rewrite ?El; [done|apply P3|apply P4]. }
  pose proof O as [O1 O2 O3 O4 O5 O6].
  (* the Object forwarded is new, and nobody else will forward it *)
  assert (Hnew : ~ in_id x ∈ fwd_ids (hi_log h) /\ (forall j k0, y_ks y !! j = Some k0 -> j <> i -> ~ pending k0 (in_id x)) /\
    (MkLoc (sh_GroupID hdr) (in_id x) ∈ fresh \/ aged_out (y_e y) (sh_GroupID hdr) = true)).
  { destruct claim; [| done |].
    - assert (Hp : pending k (in_id x)) by (by exists x). destruct (O4 _ _ _ Hi Hp) as [Hf Hn]. split_and!; [done| |by left].
      intros j k0 Hj Hne Hp'. apply Hne. by eapply (O5 j i).
    - apply aged_forward in Ed as [Hr Hlt]. split_and!; [|  |right; by eapply O6].
      + intros Hin. destruct (mo_run _ _ (si_marks _ _ _ _ (yi_set _ _ _ H)) Hr) as (_ & _ & Hall). specialize (Hall _ Hin). lia.
      + intros j k0 Hj Hne (x' & Ex & Eid). apply negb_true_iff in Hu. assert (Hex : existsb (is_pending (in_id x)) (y_ks y) = true); [|congruence].
        apply existsb_exists. exists k0. split; [apply list_elem_of_In; by eapply list_elem_of_lookup_2|]. unfold is_pending. rewrite Ex. by apply Z.eqb_eq. }
  destruct Hnew as (Hn & Hother & Hwhy). pose proof (lookup_lt_Some _ _ _ Hi) as Hlt.
  assert (Hlook : forall j k0 id, <[i := set_phase k PHeader]> (y_ks y) !! j = Some k0 -> pending k0 id -> j <> i /\ y_ks y !! j = Some k0).
  { intros j k0 id Hj Hp. destruct (decide (i = j)) as [<-|Hne]; [|by rewrite list_lookup_insert_ne in Hj].
    rewrite list_lookup_insert_eq in Hj by done. injection Hj as <-. by destruct Hp as (? & ? & _). }
  split; simpl; rewrite ?fwd_ids_app.
  - by apply hist_cache.
  - apply NoDup_app. split_and!; [done| |apply NoDup_singleton]. intros id Hin ->%list_elem_of_singleton. done.
  - intros id [Hin| ->%list_elem_of_singleton]%elem_of_app; [by apply O3|done].
  - intros j k0 id Hj Hp. destruct (Hlook _ _ _ Hj Hp) as [Hne Hj']. destruct (O4 _ _ _ Hj' Hp) as [P1 P2]. split; [done|].
    intros [Hin| ->%list_elem_of_singleton]%elem_of_app; [done|]. by eapply Hother.
  - intros a b ka kb id Ha Hb Hpa Hpb. destruct (Hlook _ _ _ Ha Hpa), (Hlook _ _ _ Hb Hpb). by eapply O5.
  - intros j k0 x' Hj Ex. destruct (decide (i = j)) as [<-|Hne].
    + rewrite list_lookup_insert_eq in Hj by done. by injection Hj as <-.
    + rewrite list_lookup_insert_ne in Hj by done. by eapply O6.
Qed.

Lemma relay_step_oinv hdr fresh y h o : wf_sh hdr -> yinv hdr y h -> oinv hdr fresh y h -> op_ok (sh_GroupID hdr) o -> unraced y o = true ->
  exists fresh', oinv hdr fresh' (relay_step y o) (history_step y h o).
Proof.
  intros Hwf H O Ho Hu. assert (Hset : forall s', oinv hdr fresh (MkRelay (y_e y) s' (y_ks y)) h) by (intros s'; destruct O; by split).
  destruct o as [src inb jh|i ini g p|i c|i c d g p id ha obj|i now err|i now|i now tr subs|i subs|subs|id env|id|o];
    try (by exists fresh; apply Hset);
    try (unfold relay_step; destruct (y_ks y !! i) as [k|] eqn:Hi; [|unfold history_step; rewrite ?Hi; by exists fresh]); simpl history_step.
  - exists fresh. unfold relay_step. destruct (_ || _); [done|]. destruct O as [O1 O2 O3 O4 O5 O6].
    set (k := start_contributor src inb jh false). assert (Hl : forall j k0, (y_ks y ++ [k]) !! j = Some k0 -> y_ks y !! j = Some k0 \/ k0 = k).
    { intros j k0 Hj. apply lookup_app_Some in Hj as [Hj|[_ Hj]]; [by left|]. right. by apply list_lookup_singleton_Some in Hj as [_ ->]. }
    assert (Hk : forall id, ~ pending k id) by (by intros id (? & ? & _)).
    split; simpl; try done.
    + intros j k0 id Hj Hp. destruct (Hl _ _ Hj) as [? | ->]; [by eapply O4|by apply Hk in Hp].
    + intros a b ka kb id Ha Hb Hpa Hpb. destruct (Hl _ _ Ha) as [? | ->], (Hl _ _ Hb) as [? | ->]; [by eapply O5|by apply Hk in Hpb|by apply Hk in Hpa|by apply Hk in Hpa].
    + intros j k0 x Hj Ex. destruct (Hl _ _ Hj) as [? | ->]; [by eapply O6|done].
  - exists fresh. unfold k_step. destruct (k_phase k); try done. destruct (LowestForwarded _ _ _). by eapply oinv_idle; [| |apply O|..].
  - exists fresh. unfold k_step. destruct (k_phase k); try done. by eapply oinv_idle; [| |apply O|..].
  - exists fresh. unfold k_step. destruct (k_phase k); try done. destruct (headerRead _ _ _ _ _ _). by eapply oinv_idle; [| |apply O|..].
  - exists fresh. pose proof (Forall_lookup_1 _ _ _ _ (yi_ks _ _ _ H) Hi) as [K1 K2 K3 K4].
    assert (Hl : wf_loc (MkLoc (sh_GroupID (k_hdr k)) (k_objectID k))) by (rewrite K1; split; simpl; [apply Hwf|zlia]).
    unfold k_step. destruct (inboundEnded now err k (y_e y)) as [[r c] e'] eqn:Ee.
    assert (He : hist_ok e' fresh /\ (aged_out (y_e y) (sh_GroupID hdr) = true -> aged_out e' (sh_GroupID hdr) = true)).
    { split; [by eapply inboundEnded_ok; [apply H|apply O|exact Hl|exact Ee]|]. intros Ha. by eapply ended_aged; [apply H|apply O|exact Hl|exact Ee|]. }
    destruct He as [He1 He2]. destruct (k_phase k); try done; by eapply oinv_idle.
  - by apply (payload_oinv hdr fresh).
  - exists fresh. by apply deliver_oinv.
  - exists fresh. unfold k_step. destruct (k_phase k); try done. by eapply oinv_idle; [| |apply O|..].
  - exists ((ledger_step (y_e y, []) o).2 ++ fresh). pose proof O as [O1 O2 O3 O4 O5 O6].
    assert (Hag : aged_out (y_e y) (sh_GroupID hdr) = true -> aged_out (ledger_step (y_e y, []) o).1 (sh_GroupID hdr) = true).
    { intros Ha. eapply ledger_aged; [apply H|exact O1|done|done]. }
    split; simpl; try done.
    + by apply (ledger_op_fresh o); [apply H|..].
    + intros id Hid. destruct (O3 id Hid) as [?|?]; [left; apply elem_of_app; by right|right; auto].
    + intros j k0 id Hj Hp. destruct (O4 _ _ _ Hj Hp). split; [apply elem_of_app; by right|done].
    + intros j k0 x Hj Ex. apply Hag. by eapply O6.
Qed.

(** C9: an Object goes through a Subgroup's set at most once.  Whatever copies the
    upstreams send, and in whatever order contributors, subscribers, writers and the
    Track's other streams move, no Object is forwarded twice, also when its Group has
    left the dedup window; as long as no contributor delivers an out-of-window copy
    of an Object between another's claim of it and that one's forwarding. *)
Theorem forwarded_once src inb hdr e fresh ops : wf_sh hdr -> ledger_wf e -> hist_ok e fresh ->
  Forall (op_ok (sh_GroupID hdr)) ops -> unraced_run ops (relay0 src inb hdr e) = true ->
  NoDup (fwd_ids (hi_log (relay_run ops (relay0 src inb hdr e) (history0 fresh)).2)).
Proof.
  intros Hwf He Hh Hops Hu. pose proof (relay0_yinv src inb hdr e fresh He Hh) as H.
  assert (O : exists fresh', oinv hdr fresh' (relay0 src inb hdr e) (history0 fresh)).
  { exists fresh. split; simpl; try done; [constructor|by intros id ?%elem_of_nil| | |];
      intros; repeat match goal with Hl : [_] !! _ = Some _ |- _ => apply list_lookup_singleton_Some in Hl as [-> <-] end; try done.
    by match goal with Hp : pending _ _ |- _ => destruct Hp as (? & ? & _) end. }
  revert H O Hu. unfold relay_run. generalize (relay0 src inb hdr e) (history0 fresh).
  induction Hops as [|o ops Ho _ IH]; intros y h H [fr O] Hu; cbn [fold_left]; [apply O|]. cbn [unraced_run] in Hu. apply andb_true_iff in Hu as [Hu1 Hu2].
  apply IH; [by apply relay_step_yinv|by eapply relay_step_oinv|done].
Qed.

Lemma forwarded_once_witness : fwd_ids (hi_log demo_end.2) = [0; 1] /\ NoDup (fwd_ids (hi_log demo_end.2)).
Proof.
  split; [vm_compute; reflexivity|].
  unfold demo_end. apply forwarded_once; [exact demo_hdr_wf|apply ledger0_wf|apply ledger0_hist|apply demo_ops_ok|vm_compute; reflexivity].
Defined.

(** *** An out-of-window copy can still be a repeat

    The condition of [forwarded_once] is needed: between a contributor's claim of an
    Object and the section that forwards it, the Object's Group can leave the dedup
    window, and another's copy, above every Object forwarded so far, goes on. *)

Definition other_claim (group : Z) : relay_op :=
  YLedger (OpClaim 0 (MkInfo group 0 0 false 128 0 false (MkGaps 0 0 false false))).
Definition race_ops : list relay_op :=
  [YSnapshot 0 [(1, demo_subs 1)] 1 (MkDT 0 0); YCreated 0 demo_fan; YJoin 2 demo_inb demo_hdr;
   demo_header 0 4; YPayload 0 0; YDeliver 0 0 (MkDT 0 0) demo_subs; demo_header 0 5; YPayload 0 0] ++
  ((fun n => other_claim (4 + Z.of_nat n)) <$> seq 0 32) ++
  [demo_header 1 5; YPayload 1 0; YDeliver 1 0 (MkDT 0 0) demo_subs; YDeliver 0 0 (MkDT 0 0) demo_subs].

(** Two contributors can both forward the same Object: after the first claims
    it, 32 newer Groups start, and the second's copy, aged out, is taken for one that
    cannot repeat an Object. *)
Theorem aged_out_copy_repeats :
  Forall (op_ok (sh_GroupID demo_hdr)) race_ops /\
  fwd_ids (hi_log (relay_run race_ops (relay0 1 demo_inb demo_hdr (ledger0 (NewObjectCache 16 0))) (history0 [])).2) = [4; 5; 5].
Proof.
  split; [|vm_compute; reflexivity].
  unfold race_ops. rewrite !Forall_app, !Forall_cons. split_and!; try done; try (apply demo_header_ok; zlia).
  - exact demo_subs_ok.
  - apply Forall_fmap, Forall_forall. intros n Hn. apply elem_of_seq in Hn. unfold compose, op_ok, other_claim, op_wf, info_wf; simpl.
    split_and!; try done. split; simpl; zlia.
Qed.
