(* ===== verification/Inflight.v ===== *)
(** * Inflight: waiting for Objects that are arriving

    [relay/internal/registry/inflight.go]: each inbound subgroup stream of a track has
    a slot for the Object it is part way through; a FETCH or fill that covers such an
    Object registers a wait, is handed the Object when it completes, and otherwise
    learns that it was abandoned or is still arriving.

    Slots and waits are named by numbers, for the pointers of the code.  Operations
    under the entry's [mu] are steps; the waiting goroutine takes its wake-up and
    drains in two steps, so that streams can post between them. *)

From stdpp Require Import gmap.
From S2P Require Import Prelude Varint Wire KV Filter Params Properties Objects Cache.

(** ** State *)

Record InFlight : Type := MkSlot { f_loc : Location; f_active : bool; f_waiters : list Z }.

Abbreviation flightResult := (Location * option CachedObject)%type.

(** Where the goroutine in [Wait] stands: in its [select], past it (by the timer or
    the context if [true]), or returned with its answer. *)
Inductive wait_phase : Type :=
| PSelect
| PDrain (gaveUp : bool)
| PReturned (done : list CachedObject) (stillArriving : list Location).

Record FlightWait : Type := MkWait {
  fl_slots : list Z; fl_results : list flightResult; fl_notify : bool; fl_pending : gmap Location Z;
  fl_done : list CachedObject; fl_phase : wait_phase }.

(** [fs_slots] is [TrackEntry.inflight]. *)
Record Flights : Type := MkFlights { fs_slots : gmap Z InFlight; fs_waits : gmap Z FlightWait }.
Definition no_flights : Flights := MkFlights ∅ ∅.

(** ** The streams' side *)

Definition NewInFlight (f : Z) (e : Flights) : Flights :=
  MkFlights (<[f := MkSlot (MkLoc 0 0) false []]> (fs_slots e)) (fs_waits e).

(** The part of [UpdateLargestAndDetectNew] that marks a slot active. *)
Definition activate (f : Z) (loc : Location) (e : Flights) : Flights :=
  MkFlights (alter (fun s => MkSlot loc true (f_waiters s)) f (fs_slots e)) (fs_waits e).

Definition post (r : flightResult) (w : FlightWait) : FlightWait :=
  MkWait (fl_slots w) (fl_results w ++ [r]) true (fl_pending w) (fl_done w) (fl_phase w).

Definition endInFlightLocked (f : Z) (obj : option CachedObject) (e : Flights) : Flights :=
  match fs_slots e !! f with
  | None => e
  | Some s =>
      if negb (f_active s) then e
      else MkFlights (<[f := MkSlot (f_loc s) false []]> (fs_slots e))
             (foldr (fun w ws => alter (post (f_loc s, obj)) w ws) (fs_waits e) (f_waiters s))
  end.
Definition EndInFlight (f : Z) (obj : option CachedObject) (e : Flights) : Flights := endInFlightLocked f obj e.
Definition ReleaseInFlight (f : Z) (e : Flights) : Flights :=
  let e := endInFlightLocked f None e in MkFlights (delete f (fs_slots e)) (fs_waits e).

(** ** The FETCH's side *)

(** [registerLocked]: a wait [wid] in the state [w] joins the slot [f]. *)
Definition registerLocked (wid f : Z) (we : FlightWait * gmap Z InFlight) : FlightWait * gmap Z InFlight :=
  let '(w, slots) := we in
  match slots !! f with
  | None => (w, slots)
  | Some s =>
      (MkWait (fl_slots w ++ [f]) (fl_results w) (fl_notify w)
         (<[f_loc s := default 0 (fl_pending w !! f_loc s) + 1]> (fl_pending w)) (fl_done w) (fl_phase w),
       <[f := MkSlot (f_loc s) (f_active s) (f_waiters s ++ [wid])]> slots)
  end.

(** The loops over the slots take them in no particular order; each slot adds to the
    counts on its own. *)
Definition matching (P : InFlight -> bool) (slots : gmap Z InFlight) : list Z :=
  (List.filter (fun fs => P fs.2) (map_to_list slots)).*1.
Definition register_all (wid : Z) (fs : list Z) (we : FlightWait * gmap Z InFlight) : FlightWait * gmap Z InFlight :=
  fold_left (fun we f => registerLocked wid f we) fs we.

Definition covered (start end' : Location) (s : InFlight) : bool :=
  f_active s && negb (Less (f_loc s) start) && negb (Less end' (f_loc s)).

Definition new_wait : FlightWait := MkWait [] [] false ∅ [] PSelect.
Definition WaitInFlight (wid : Z) (start end' : Location) (e : Flights) : bool * Flights :=
  match matching (covered start end') (fs_slots e) with
  | [] => (false, e)
  | fs =>
      let '(w, slots) := register_all wid fs (new_wait, fs_slots e) in
      (true, MkFlights slots (<[wid := w]> (fs_waits e)))
  end.

Definition set_pending (w : FlightWait) (p : gmap Location Z) : FlightWait :=
  MkWait (fl_slots w) (fl_results w) (fl_notify w) p (fl_done w) (fl_phase w).
Definition Forget (wid : Z) (loc : Location) (e : Flights) : Flights :=
  MkFlights (fs_slots e) (alter (fun w => set_pending w (delete loc (fl_pending w))) wid (fs_waits e)).

(** The body of [drain]'s loop. *)
Definition rereading (wid : Z) (loc : Location) (s : InFlight) : bool :=
  f_active s && bool_decide (f_loc s = loc) && negb (bool_decide (wid ∈ f_waiters s)).
Definition drain_one (wid : Z) (we : FlightWait * gmap Z InFlight) (r : flightResult) : FlightWait * gmap Z InFlight :=
  let '(w, slots) := we in
  match fl_pending w !! r.1 with
  | None => we
  | Some n =>
      match r.2 with
      | Some obj =>
          (MkWait (fl_slots w) (fl_results w) (fl_notify w) (delete r.1 (fl_pending w)) (fl_done w ++ [obj]) (fl_phase w), slots)
      | None =>
          if n - 1 >? 0 then (set_pending w (<[r.1 := n - 1]> (fl_pending w)), slots)
          else register_all wid (matching (rereading wid r.1) slots) (set_pending w (delete r.1 (fl_pending w)), slots)
      end
  end.

Definition set_results (w : FlightWait) (l : list flightResult) : FlightWait :=
  MkWait (fl_slots w) l (fl_notify w) (fl_pending w) (fl_done w) (fl_phase w).
Definition drain (wid : Z) (w : FlightWait) (slots : gmap Z InFlight) : FlightWait * gmap Z InFlight :=
  fold_left (drain_one wid) (fl_results w) (set_results w [], slots).

Definition StillArriving (w : FlightWait) : list Location := (map_to_list (fl_pending w)).*1.

Definition Stop (wid : Z) (w : FlightWait) (slots : gmap Z InFlight) : gmap Z InFlight :=
  fold_left (fun slots f => alter (fun s => MkSlot (f_loc s) (f_active s) (List.filter (fun x => negb (x =? wid)) (f_waiters s))) f slots)
    (fl_slots w) slots.

Definition set_phase (w : FlightWait) (notify : bool) (p : wait_phase) : FlightWait :=
  MkWait (fl_slots w) (fl_results w) notify (fl_pending w) (fl_done w) p.

(** The deferred [Stop] with [Wait]'s return. *)
Definition wait_return (wid : Z) (w : FlightWait) (still : list Location) (e : Flights) : Flights :=
  MkFlights (Stop wid w (fs_slots e)) (<[wid := set_phase w (fl_notify w) (PReturned (fl_done w) still)]> (fs_waits e)).

Inductive wake : Type := WakeNotify | WakeTimer.

(** One move of the goroutine in [Wait]; [None] when it stays blocked. *)
Definition Wait (wid : Z) (by' : wake) (e : Flights) : option Flights :=
  match fs_waits e !! wid with
  | None => None
  | Some w =>
      match fl_phase w with
      | PReturned _ _ => None
      | PSelect =>
          if bool_decide (fl_pending w = ∅) then Some (wait_return wid w [] e)
          else match by' with
               | WakeNotify =>
                   if fl_notify w then Some (MkFlights (fs_slots e) (<[wid := set_phase w false (PDrain false)]> (fs_waits e))) else None
               | WakeTimer => Some (MkFlights (fs_slots e) (<[wid := set_phase w (fl_notify w) (PDrain true)]> (fs_waits e)))
               end
      | PDrain gaveUp =>
          let '(w, slots) := drain wid w (fs_slots e) in
          let e := MkFlights slots (<[wid := set_phase w (fl_notify w) PSelect]> (fs_waits e)) in
          Some (if gaveUp then wait_return wid w (StillArriving w) e else e)
      end
  end.

(** ** Counting the streams a wait depends on *)

Implicit Types (P : InFlight -> bool) (slots : gmap Z InFlight) (s : InFlight) (f wid : Z) (loc : Location) (w : FlightWait).

Lemma matching_elem P slots f : f ∈ matching P slots <-> exists s, slots !! f = Some s /\ P s = true.
Proof.
  unfold matching. rewrite list_elem_of_fmap. setoid_rewrite list_elem_of_In. setoid_rewrite filter_In.
  setoid_rewrite <- list_elem_of_In. split.
  - intros ([g s] & -> & Hin & Hp). exists s. simpl. by apply elem_of_map_to_list in Hin.
  - intros (s & Hs & Hp). exists (f, s). split; [done|]. by rewrite elem_of_map_to_list.
Qed.

Lemma filter_perm {A} (P : A -> bool) l1 l2 : l1 ≡ₚ l2 -> List.filter P l1 ≡ₚ List.filter P l2.
Proof.
  induction 1 as [|x l1 l2 _ IH|x y l|l1 l2 l3 _ IH1 _ IH2]; simpl; [done| | |by rewrite IH1].
  - destruct (P x); by rewrite IH.
  - destruct (P x), (P y); try done. by rewrite Permutation_swap.
Qed.

Lemma matching_insert P slots f s : slots !! f = None ->
  matching P (<[f := s]> slots) ≡ₚ (if P s then [f] else []) ++ matching P slots.
Proof.
  intros H. unfold matching. rewrite (filter_perm _ _ _ (map_to_list_insert slots f s H)). simpl. by destruct (P s).
Qed.

Lemma matching_update P slots f s s' : slots !! f = Some s ->
  (if P s then [f] else []) ++ matching P (<[f := s']> slots) ≡ₚ (if P s' then [f] else []) ++ matching P slots.
Proof.
  intros H. assert (E : slots = <[f := s]> (delete f slots)) by (by rewrite insert_delete_id).
  rewrite E at 2. rewrite <- (insert_delete_eq slots f s').
  rewrite !matching_insert by apply lookup_delete_eq. rewrite !app_assoc. by rewrite (Permutation_app_comm (if P s then _ else _)).
Qed.

Definition cnt (P : InFlight -> bool) (slots : gmap Z InFlight) : Z := len (matching P slots).

Lemma len_if (b : bool) (f : Z) : len (if b then [f] else []) = if b then 1 else 0.
Proof. by destruct b. Qed.
Lemma len_perm {A} (l1 l2 : list A) : l1 ≡ₚ l2 -> len l1 = len l2.
Proof. unfold len. by intros ->. Qed.

Lemma cnt_insert P slots f s : slots !! f = None -> cnt P (<[f := s]> slots) = (if P s then 1 else 0) + cnt P slots.
Proof. intros H. unfold cnt. rewrite (len_perm _ _ (matching_insert P slots f s H)), len_app, len_if. done. Qed.
Lemma cnt_update P slots f s s' : slots !! f = Some s ->
  cnt P (<[f := s']> slots) = (if P s' then 1 else 0) - (if P s then 1 else 0) + cnt P slots.
Proof.
  intros H. pose proof (len_perm _ _ (matching_update P slots f s s' H)) as E. rewrite !len_app, !len_if in E. unfold cnt. lia.
Qed.
Lemma cnt_delete P slots f s : slots !! f = Some s -> cnt P (delete f slots) = cnt P slots - (if P s then 1 else 0).
Proof.
  intros H. rewrite <- (insert_delete_id slots f s H) at 2. rewrite cnt_insert by apply lookup_delete_eq. lia.
Qed.
Lemma flight_cnt_pos P slots : 0 < cnt P slots -> exists f s, slots !! f = Some s /\ P s = true.
Proof.
  unfold cnt. intros H. destruct (matching P slots) as [|f l] eqn:E; [done|]. exists f. apply matching_elem. rewrite E. left.
Qed.
Lemma flight_cnt_nonneg P slots : 0 <= cnt P slots.
Proof. apply len_nonneg. Qed.
Lemma cnt_zero P slots f s : cnt P slots = 0 -> slots !! f = Some s -> P s = false.
Proof.
  unfold cnt. intros H%len_zero Hs. destruct (P s) eqn:E; [|done]. assert (Hin : f ∈ matching P slots) by (apply matching_elem; eauto).
  rewrite H in Hin. by apply elem_of_nil in Hin.
Qed.

(** Streams at [loc] that the wait [wid] is registered on, and posted results for
    [loc] it has not seen. *)
Definition registered (wid : Z) (loc : Location) (s : InFlight) : bool :=
  f_active s && bool_decide (f_loc s = loc) && bool_decide (wid ∈ f_waiters s).
Definition posted (loc : Location) (rs : list flightResult) : Z :=
  len (List.filter (fun r : flightResult => bool_decide (r.1 = loc)) rs).

Lemma posted_app loc a b : posted loc (a ++ b) = posted loc a + posted loc b.
Proof. unfold posted. by rewrite List.filter_app, len_app. Qed.
Lemma posted_cons loc r rs : posted loc (r :: rs) = (if bool_decide (r.1 = loc) then 1 else 0) + posted loc rs.
Proof. unfold posted. simpl. case_bool_decide; [by rewrite len_cons|done]. Qed.
Lemma posted_nonneg loc rs : 0 <= posted loc rs.
Proof. apply len_nonneg. Qed.

(** ** The invariant *)

Definition returned (w : FlightWait) : Prop := match fl_phase w with PReturned _ _ => True | _ => False end.

(** What a wait knows, [rs] being the results still to be seen. *)
Record wait_ok (wid : Z) (w : FlightWait) (rs : list flightResult) (slots : gmap Z InFlight) : Prop := {
  wo_pending : forall loc k, fl_pending w !! loc = Some k -> k = cnt (registered wid loc) slots + posted loc rs /\ 0 < k;
  wo_done : NoDup (co_loc <$> fl_done w);
  wo_apart : forall o, o ∈ fl_done w -> fl_pending w !! co_loc o = None;
  wo_results : Forall (fun r : flightResult => forall o, r.2 = Some o -> co_loc o = r.1) rs;
  wo_slots : forall f s, slots !! f = Some s -> wid ∈ f_waiters s -> f ∈ fl_slots w }.

Record slot_ok (waits : gmap Z FlightWait) (s : InFlight) : Prop := {
  sl_idle : f_active s = false -> f_waiters s = [];
  sl_nodup : NoDup (f_waiters s);
  sl_waits : forall wid, wid ∈ f_waiters s -> exists w, waits !! wid = Some w /\ ~ returned w }.

Record flights_ok (e : Flights) : Prop := {
  fo_slots : forall f s, fs_slots e !! f = Some s -> slot_ok (fs_waits e) s;
  fo_waits : forall wid w, fs_waits e !! wid = Some w -> ~ returned w ->
    wait_ok wid w (fl_results w) (fs_slots e) /\ (fl_results w <> [] -> fl_notify w = true \/ exists b, fl_phase w = PDrain b);
  fo_left : forall wid w f s, fs_waits e !! wid = Some w -> returned w -> fs_slots e !! f = Some s -> wid ∉ f_waiters s }.

(** A step that touches one slot and no wait, with the same waiters. *)
Lemma cnt_same P slots f s s' : slots !! f = Some s -> P s' = P s -> cnt P (<[f := s']> slots) = cnt P slots.
Proof. intros H E. rewrite (cnt_update P slots f s s' H), E. lia. Qed.

Lemma idle_unregistered wid loc s : f_waiters s = [] -> registered wid loc s = false.
Proof. intros E. unfold registered. rewrite E, (bool_decide_false (wid ∈ [])) by apply not_elem_of_nil. by rewrite andb_false_r. Qed.

(** A wait does not notice slots it is not on. *)
Lemma wait_ok_slots wid w rs slots slots' : wait_ok wid w rs slots ->
  (forall loc, cnt (registered wid loc) slots' = cnt (registered wid loc) slots) ->
  (forall f s, slots' !! f = Some s -> wid ∈ f_waiters s -> exists s0, slots !! f = Some s0 /\ wid ∈ f_waiters s0) ->
  wait_ok wid w rs slots'.
Proof.
  intros [H1 H2 H3 H4 H5] Hc Hs. split; try done.
  - intros loc k Hk. rewrite Hc. by apply H1.
  - intros f s Hf Hin. destruct (Hs f s Hf Hin) as (s0 & H0 & Hin0). by eapply H5.
Qed.

Lemma new_flights_ok e f : flights_ok e -> fs_slots e !! f = None -> flights_ok (NewInFlight f e).
Proof.
  intros [H1 H2 H3] Hf. assert (Hl : forall g s, <[f := MkSlot (MkLoc 0 0) false []]> (fs_slots e) !! g = Some s ->
    s = MkSlot (MkLoc 0 0) false [] \/ fs_slots e !! g = Some s).
  { intros g s. destruct (decide (f = g)) as [<-|Hne]; [rewrite lookup_insert_eq; intros [= <-]; by left|].
    rewrite lookup_insert_ne by done. by right. }
  split; simpl.
  - intros g s [-> |Hg]%Hl; [|by eapply H1]. split; simpl; [done|constructor|by intros ? ?%not_elem_of_nil].
  - intros wid w Hw Hr. destruct (H2 wid w Hw Hr) as [Hok Hn]. split; [|done]. eapply wait_ok_slots; [exact Hok| |].
    + intros loc. rewrite cnt_insert by done. by rewrite idle_unregistered.
    + intros g s [-> |Hg]%Hl Hin; [by apply not_elem_of_nil in Hin|eauto].
  - intros wid w g s Hw Hr [-> |Hg]%Hl; [by apply not_elem_of_nil|by eapply H3].
Qed.

Lemma activate_flights_ok e f loc s : flights_ok e -> fs_slots e !! f = Some s -> f_active s = false -> flights_ok (activate f loc e).
Proof.
  intros [H1 H2 H3] Hf Ha. pose proof (sl_idle _ _ (H1 f s Hf) Ha) as Hi. unfold activate.
  assert (E : alter (fun s => MkSlot loc true (f_waiters s)) f (fs_slots e) = <[f := MkSlot loc true []]> (fs_slots e)).
  { apply map_eq. intros g. destruct (decide (f = g)) as [<-|Hne].
    - rewrite lookup_alter_eq, lookup_insert_eq, Hf. simpl. by rewrite Hi.
    - by rewrite lookup_alter_ne, lookup_insert_ne. }
  rewrite E. assert (Hl : forall g x, <[f := MkSlot loc true []]> (fs_slots e) !! g = Some x ->
    x = MkSlot loc true [] \/ fs_slots e !! g = Some x).
  { intros g x. destruct (decide (f = g)) as [<-|Hne]; [rewrite lookup_insert_eq; intros [= <-]; by left|].
    rewrite lookup_insert_ne by done. by right. }
  split; simpl.
  - intros g x [-> |Hg]%Hl; [|by eapply H1]. split; simpl; [done|constructor|by intros ? ?%not_elem_of_nil].
  - intros wid w Hw Hr. destruct (H2 wid w Hw Hr) as [Hok Hn]. split; [|done]. eapply wait_ok_slots; [exact Hok| |].
    + intros loc'. eapply cnt_same; [done|]. by rewrite !idle_unregistered.
    + intros g x [-> |Hg]%Hl Hin; [by apply not_elem_of_nil in Hin|eauto].
  - intros wid w g x Hw Hr [-> |Hg]%Hl; [by apply not_elem_of_nil|by eapply H3].
Qed.

(** Posting one result to each waiter of a slot. *)
Lemma post_all_lookup r (ws : list Z) (waits : gmap Z FlightWait) wid : NoDup ws ->
  foldr (fun (x : Z) ws => alter (post r) x ws) waits ws !! wid = (if decide (wid ∈ ws) then post r else id) <$> waits !! wid.
Proof.
  induction 1 as [|x ws Hx _ IH]; simpl.
  - destruct (decide (wid ∈ [])) as [H|H]; [by apply not_elem_of_nil in H|]. by destruct (waits !! wid).
  - destruct (decide (x = wid)) as [<-|Hne].
    + rewrite lookup_alter_eq, IH. rewrite decide_False by done. rewrite decide_True by left. by destruct (waits !! x).
    + rewrite lookup_alter_ne, IH by done. destruct (decide (wid ∈ ws)).
      * rewrite decide_True by (by right). done.
      * rewrite decide_False; [done|]. intros [->|]%elem_of_cons; done.
Qed.

Lemma end_flights_ok e f obj : flights_ok e ->
  (forall s o, fs_slots e !! f = Some s -> f_active s = true -> obj = Some o -> co_loc o = f_loc s) ->
  flights_ok (endInFlightLocked f obj e).
Proof.
  intros Hok Hobj. unfold endInFlightLocked. destruct (fs_slots e !! f) as [s|] eqn:Hf; [|done].
  destruct (f_active s) eqn:Ha; simpl; [|done]. specialize (Hobj s).
  pose proof Hok as [H1 H2 H3]. pose proof (H1 f s Hf) as [_ Hnd Hws].
  assert (Hl : forall g x, <[f := MkSlot (f_loc s) false []]> (fs_slots e) !! g = Some x ->
    x = MkSlot (f_loc s) false [] \/ (f <> g /\ fs_slots e !! g = Some x)).
  { intros g x. destruct (decide (f = g)) as [<-|Hne]; [rewrite lookup_insert_eq; intros [= <-]; by left|].
    rewrite lookup_insert_ne by done. by right. }
  set (waits' := foldr _ _ _). assert (Hlk : forall wid, waits' !! wid = (if decide (wid ∈ f_waiters s) then post (f_loc s, obj) else id) <$> fs_waits e !! wid).
  { intros wid. by apply post_all_lookup. }
  clearbody waits'.
  assert (Hret : forall wid w, waits' !! wid = Some w -> exists w0, fs_waits e !! wid = Some w0 /\
    w = (if decide (wid ∈ f_waiters s) then post (f_loc s, obj) else id) w0 /\ (returned w <-> returned w0)).
  { intros wid w Hw. rewrite Hlk in Hw. destruct (fs_waits e !! wid) as [w0|]; [|done]. injection Hw as <-. exists w0.
    split_and!; [done|done|]. by destruct (decide _). }
  split; simpl.
  - intros g x [-> |[_ Hg]]%Hl; [split; simpl; [done|constructor|by intros ? ?%not_elem_of_nil]|].
    destruct (H1 g x Hg) as [A1 A2 A3]. split; try done. intros wid Hin. destruct (A3 wid Hin) as (w & Hw & Hr). rewrite Hlk, Hw.
    eexists. split; [done|]. by destruct (decide _).
  - intros wid w Hw Hr. destruct (Hret _ _ Hw) as (w0 & Hw0 & -> & Hrr).
    destruct (H2 wid w0 Hw0) as [[P1 P2 P3 P4 P5] Hn]; [tauto|].
    assert (Hreg : forall loc, cnt (registered wid loc) (<[f := MkSlot (f_loc s) false []]> (fs_slots e)) =
      cnt (registered wid loc) (fs_slots e) - (if bool_decide (f_loc s = loc) && bool_decide (wid ∈ f_waiters s) then 1 else 0)).
    { intros loc. rewrite (cnt_update _ _ f s) by done. rewrite idle_unregistered by done.
      unfold registered. rewrite Ha. simpl. lia. }
    assert (Hsl : forall g x, <[f := MkSlot (f_loc s) false []]> (fs_slots e) !! g = Some x -> wid ∈ f_waiters x -> g ∈ fl_slots w0).
    { intros g x [-> |[_ Hg]]%Hl Hin; [by apply not_elem_of_nil in Hin|by eapply P5]. }
    destruct (decide (wid ∈ f_waiters s)) as [Hin|Hin]; simpl; (split; [split; simpl; try done|]).
    + intros loc k Hk. destruct (P1 loc k Hk) as [E Hp]. rewrite Hreg, posted_app, (bool_decide_true (wid ∈ _)) by done.
      rewrite posted_cons. cbn [fst]. rewrite andb_true_r. change (posted loc []) with 0. split; [|done]. destruct (bool_decide _); lia.
    + apply Forall_app. split; [done|]. apply Forall_singleton. simpl. intros o Ho. by apply Hobj.
    + intros _. by left.
    + intros loc k Hk. destruct (P1 loc k Hk) as [E Hp]. rewrite Hreg, (bool_decide_false (wid ∈ _)) by done. rewrite andb_false_r. split; [lia|done].
    + done.
  - intros wid w g x Hw Hr [-> |[_ Hg]]%Hl; [by apply not_elem_of_nil|]. destruct (Hret _ _ Hw) as (w0 & Hw0 & _ & Hrr). eapply H3; [exact Hw0|tauto|exact Hg].
Qed.

Lemma delete_flights_ok e f : flights_ok e -> (forall s, fs_slots e !! f = Some s -> f_active s = false) ->
  flights_ok (MkFlights (delete f (fs_slots e)) (fs_waits e)).
Proof.
  intros [H1 H2 H3] Hf. assert (Hl : forall g x, delete f (fs_slots e) !! g = Some x -> fs_slots e !! g = Some x).
  { intros g x. rewrite lookup_delete_Some. tauto. }
  split; simpl; [intros g x Hg; eauto| |intros; eauto].
  intros wid w Hw Hr. destruct (H2 wid w Hw Hr) as [Hok Hn]. split; [|done]. eapply wait_ok_slots; [exact Hok| |eauto].
  intros loc. destruct (fs_slots e !! f) as [s|] eqn:E; [|by rewrite delete_id].
  rewrite (cnt_delete _ _ f s) by done. rewrite idle_unregistered; [lia|]. eapply sl_idle; eauto.
Qed.

Lemma release_flights_ok e f : flights_ok e -> flights_ok (ReleaseInFlight f e).
Proof.
  intros H. unfold ReleaseInFlight. apply delete_flights_ok; [by apply end_flights_ok|].
  intros s. unfold endInFlightLocked. destruct (fs_slots e !! f) as [x|] eqn:E; [|congruence].
  destruct (f_active x) eqn:Ea; simpl; [rewrite lookup_insert_eq; by intros [= <-]|rewrite E; by intros [= <-]].
Qed.

(** Counts see slots only through the predicate. *)
Lemma matching_NoDup P slots : NoDup (matching P slots).
Proof.
  unfold matching. pose proof (NoDup_fst_map_to_list slots) as H. induction (map_to_list slots) as [|[f s] l IH]; simpl in *; [constructor|].
  apply NoDup_cons in H as [H1 H2]. destruct (P s); [|by apply IH]. apply NoDup_cons. split; [|by apply IH].
  intros Hin. apply H1. apply list_elem_of_fmap in Hin as ([g x] & Eg & Hin). simpl in Eg. subst g. apply list_elem_of_In, filter_In in Hin as [Hin _].
  apply list_elem_of_fmap. exists (f, x). split; [done|]. by apply list_elem_of_In.
Qed.

Lemma cnt_pointwise P P' slots slots' : (forall f, P <$> slots !! f = P' <$> slots' !! f) -> cnt P slots = cnt P' slots'.
Proof.
  intros H. unfold cnt. apply len_perm, NoDup_Permutation; [apply matching_NoDup|apply matching_NoDup|]. intros f. rewrite !matching_elem.
  specialize (H f). destruct (slots !! f) as [s|], (slots' !! f) as [s'|]; simpl in H; try done; [|naive_solver].
  injection H as H. split; intros (x & [= <-] & Hx); eexists; (split; [done|]); congruence.
Qed.

(** *** A wait joining slots *)

Inductive joins (wid : Z) (s s' : InFlight) : Prop :=
| JStay : s' = s -> joins wid s s'
| JJoin : f_active s = true -> wid ∉ f_waiters s -> s' = MkSlot (f_loc s) (f_active s) (f_waiters s ++ [wid]) -> joins wid s s'.
Definition joined (wid : Z) (slots slots' : gmap Z InFlight) : Prop := forall f, option_Forall2 (joins wid) (slots !! f) (slots' !! f).

Lemma joined_refl wid slots : joined wid slots slots.
Proof. intros f. destruct (slots !! f); constructor. by left. Qed.
Lemma joined_trans wid a b c : joined wid a b -> joined wid b c -> joined wid a c.
Proof.
  intros H1 H2 f. specialize (H1 f). specialize (H2 f). destruct H1 as [s s' H1|]; inversion H2 as [s1 s'' H3|]; subst; constructor.
  destruct H1 as [-> |A1 A2 ->]; [done|]. destruct H3 as [-> |B1 B2 ->]; [by right|]. exfalso. apply B2. simpl. apply elem_of_app. right. left.
Qed.

Lemma joined_lookup wid slots slots' f s' : joined wid slots slots' -> slots' !! f = Some s' ->
  exists s, slots !! f = Some s /\ joins wid s s'.
Proof. intros H E. specialize (H f). rewrite E in H. inversion H; subst; eauto. Qed.

Lemma joins_other wid wid' s s' : joins wid s s' -> wid' <> wid -> wid' ∈ f_waiters s' <-> wid' ∈ f_waiters s.
Proof. intros [-> |_ _ ->] Hne; [done|]. simpl. rewrite elem_of_app, list_elem_of_singleton. naive_solver. Qed.

Lemma joined_cnt wid wid' loc slots slots' : joined wid slots slots' -> wid' <> wid ->
  cnt (registered wid' loc) slots' = cnt (registered wid' loc) slots.
Proof.
  intros H Hne. apply cnt_pointwise. intros f. specialize (H f). inversion H as [s s' Hj E1 E2|E1 E2]; simpl; [|done]. f_equal.
  unfold registered. rewrite (bool_decide_ext _ _ (joins_other _ _ _ _ Hj Hne)). by destruct Hj as [-> |_ _ ->].
Qed.

(** Putting the changed wait and slots back. *)
Lemma joined_flights_ok e wid w slots' : flights_ok e -> joined wid (fs_slots e) slots' ->
  (forall w0, fs_waits e !! wid = Some w0 -> ~ returned w0) -> ~ returned w ->
  wait_ok wid w (fl_results w) slots' -> (fl_results w <> [] -> fl_notify w = true \/ exists b, fl_phase w = PDrain b) ->
  flights_ok (MkFlights slots' (<[wid := w]> (fs_waits e))).
Proof.
  intros [H1 H2 H3] Hj Hold Hr Hw Hn. split; simpl.
  - intros f s' Hf. destruct (joined_lookup _ _ _ _ _ Hj Hf) as (s & Hs & Hjs). destruct (H1 f s Hs) as [A1 A2 A3].
    assert (Hin : forall x, x ∈ f_waiters s -> exists y, <[wid := w]> (fs_waits e) !! x = Some y /\ ~ returned y).
    { intros x Hx. destruct (decide (wid = x)) as [<-|Hne]; [rewrite lookup_insert_eq; eauto|]. rewrite lookup_insert_ne by done. by apply A3. }
    destruct Hjs as [-> |B1 B2 ->]; [by split|]. split; simpl.
    + congruence.
    + apply NoDup_app. split_and!; [done| |by apply NoDup_singleton]. intros x Hx. rewrite list_elem_of_singleton. by intros ->.
    + intros x [Hx|Hx%list_elem_of_singleton]%elem_of_app; [auto|]. subst x. rewrite lookup_insert_eq. eauto.
  - intros x y. destruct (decide (wid = x)) as [<-|Hne]; [rewrite lookup_insert_eq; by intros [= <-] _|].
    rewrite lookup_insert_ne by done. intros Hy Hry. destruct (H2 x y Hy Hry) as [Hok Hnot]. split; [|done].
    eapply wait_ok_slots; [exact Hok|intros loc; by eapply joined_cnt|].
    intros f s' Hf Hin. destruct (joined_lookup _ _ _ _ _ Hj Hf) as (s & Hs & Hjs). exists s. split; [done|]. by apply (joins_other _ x _ _ Hjs).
  - intros x y f s'. destruct (decide (wid = x)) as [<-|Hne]; [rewrite lookup_insert_eq; by intros [= <-]|].
    rewrite lookup_insert_ne by done. intros Hy Hry Hf. destruct (joined_lookup _ _ _ _ _ Hj Hf) as (s & Hs & Hjs).
    rewrite (joins_other _ x _ _ Hjs) by done. by eapply H3.
Qed.

(** While a wait joins slots at the Locations [L]: it counts exactly what it is on. *)
Definition counting (wid : Z) (L : Location -> Prop) (w : FlightWait) (rs : list flightResult) (slots : gmap Z InFlight) : Prop :=
  wait_ok wid w rs slots /\ forall loc, L loc -> fl_pending w !! loc = None -> cnt (registered wid loc) slots + posted loc rs = 0.

Lemma register_counting wid L w rs slots f s : counting wid L w rs slots -> slots !! f = Some s -> f_active s = true ->
  L (f_loc s) -> wid ∉ f_waiters s -> (forall o, o ∈ fl_done w -> co_loc o <> f_loc s) ->
  let '(w', slots') := registerLocked wid f (w, slots) in
  counting wid L w' rs slots' /\ joined wid slots slots' /\ fl_done w' = fl_done w /\ fl_results w' = fl_results w /\
  fl_notify w' = fl_notify w /\ fl_phase w' = fl_phase w /\
  fl_pending w' = <[f_loc s := default 0 (fl_pending w !! f_loc s) + 1]> (fl_pending w).
Proof.
  intros [[P1 P2 P3 P4 P5] Hz] Hs Ha HL Hni Hd. unfold registerLocked. rewrite Hs.
  set (s' := MkSlot (f_loc s) (f_active s) (f_waiters s ++ [wid])).
  assert (Hreg : forall loc, cnt (registered wid loc) (<[f := s']> slots) = cnt (registered wid loc) slots + (if bool_decide (f_loc s = loc) then 1 else 0)).
  { intros loc. rewrite (cnt_update _ _ f s) by done. unfold registered, s'; simpl. rewrite Ha. simpl.
    rewrite (bool_decide_false (wid ∈ f_waiters s)) by done. rewrite (bool_decide_true (wid ∈ _ ++ _)) by (apply elem_of_app; right; left).
    rewrite andb_true_r, andb_false_r. lia. }
  pose proof (Hz (f_loc s) HL) as Hz0.
  split_and!; try done.
  - split; [split; simpl|].
    + intros loc k. rewrite Hreg. destruct (decide (f_loc s = loc)) as [<-|Hne].
      * rewrite lookup_insert_eq, bool_decide_true by done. intros [= <-]. pose proof (flight_cnt_nonneg (registered wid (f_loc s)) slots).
        pose proof (posted_nonneg (f_loc s) rs). destruct (fl_pending w !! f_loc s) as [k|] eqn:Ek; simpl; [|specialize (Hz0 eq_refl); lia].
        destruct (P1 _ _ Ek). lia.
      * rewrite lookup_insert_ne, bool_decide_false by done. intros Hk. destruct (P1 _ _ Hk). lia.
    + done.
    + intros o Ho. rewrite lookup_insert_ne; [by apply P3|]. intros E. by apply (Hd o Ho).
    + done.
    + intros g x. destruct (decide (f = g)) as [<-|Hne]; [intros _ _; apply elem_of_app; right; left|].
      rewrite lookup_insert_ne by done. intros Hg Hin. apply elem_of_app. left. by eapply P5.
    + intros loc HLl. simpl. rewrite Hreg. destruct (decide (f_loc s = loc)) as [<-|Hne]; [by rewrite lookup_insert_eq|].
    rewrite lookup_insert_ne, bool_decide_false by done. intros Hk. specialize (Hz loc HLl Hk). lia.
  - intros g. destruct (decide (f = g)) as [<-|Hne].
    + rewrite Hs, lookup_insert_eq. constructor. right; done.
    + rewrite lookup_insert_ne by done. destruct (slots !! g); constructor. by left.
Qed.

Lemma register_all_counting wid L fs : forall w rs slots, counting wid L w rs slots -> NoDup fs ->
  (forall f, f ∈ fs -> exists s, slots !! f = Some s /\ f_active s = true /\ L (f_loc s) /\ wid ∉ f_waiters s) ->
  (forall o loc, o ∈ fl_done w -> L loc -> co_loc o <> loc) ->
  let '(w', slots') := register_all wid fs (w, slots) in
  counting wid L w' rs slots' /\ joined wid slots slots' /\ fl_done w' = fl_done w /\ fl_results w' = fl_results w /\
  fl_notify w' = fl_notify w /\ fl_phase w' = fl_phase w /\
  (forall loc, ~ L loc -> fl_pending w' !! loc = fl_pending w !! loc) /\
  (forall loc, is_Some (fl_pending w !! loc) -> is_Some (fl_pending w' !! loc)) /\
  (forall f s, f ∈ fs -> slots !! f = Some s -> is_Some (fl_pending w' !! f_loc s)).
Proof.
  induction fs as [|f fs IH]; intros w rs slots Hc Hnd Hfs Hd; cbn [register_all fold_left].
  { split_and!; try done; [apply joined_refl|by intros f s ?%not_elem_of_nil]. }
  apply NoDup_cons in Hnd as [Hf Hnd]. destruct (Hfs f) as (s & Hs & Ha & HL & Hni); [by left|].
  pose proof (register_counting wid L w rs slots f s Hc Hs Ha HL Hni) as H1.
  destruct (registerLocked wid f (w, slots)) as [w1 slots1] eqn:E1. destruct H1 as (Hc1 & Hj1 & D1 & R1 & N1 & F1 & E2); [intros o Ho; by apply Hd|].
  specialize (IH w1 rs slots1 Hc1 Hnd). unfold register_all in IH.
  destruct (fold_left _ fs (w1, slots1)) as [w2 slots2]. destruct IH as (Hc2 & Hj2 & D2 & R2 & N2 & F2 & A2 & B2 & C2).
  - intros g Hg. destruct (Hfs g) as (x & Hx & Hax & HLx & Hnx); [by right|]. exists x.
    unfold registerLocked in E1. rewrite Hs in E1. injection E1 as _ <-. rewrite lookup_insert_ne; [done|]. by intros ->.
  - intros o loc Ho. rewrite D1 in Ho. by apply Hd.
  - split_and!; try congruence; [by eapply joined_trans| | |].
    + intros loc Hloc. rewrite A2, E2 by done. apply lookup_insert_ne. by intros <-.
    + intros loc Hloc. apply B2. rewrite E2. destruct (decide (f_loc s = loc)) as [<-|]; [rewrite lookup_insert_eq; eauto|by rewrite lookup_insert_ne].
    + intros g x [-> |Hg]%elem_of_cons Hx; [|eapply C2; [done|]].
      * rewrite Hs in Hx. injection Hx as <-. apply B2. rewrite E2, lookup_insert_eq. eauto.
      * unfold registerLocked in E1. rewrite Hs in E1. injection E1 as _ <-. rewrite lookup_insert_ne; [done|]. by intros ->.
Qed.

Lemma cnt_none P slots : (forall f s, slots !! f = Some s -> P s = false) -> cnt P slots = 0.
Proof.
  intros H. pose proof (flight_cnt_nonneg P slots). destruct (decide (0 < cnt P slots)) as [Hp|]; [|lia].
  apply flight_cnt_pos in Hp as (f & s & Hs & Ht). specialize (H f s Hs). congruence.
Qed.

Lemma unregistered wid loc s : wid ∉ f_waiters s -> registered wid loc s = false.
Proof. intros H. unfold registered. rewrite (bool_decide_false (wid ∈ _)) by done. by rewrite andb_false_r. Qed.

(** A wait is registered on what is being read of its range. *)
Lemma covered_spec start end' s : covered start end' s = true <->
  f_active s = true /\ loc_le start (f_loc s) /\ loc_le (f_loc s) end'.
Proof. unfold covered. rewrite !andb_true_iff, !negb_true_iff, !Less_false. tauto. Qed.

Definition arriving_in (start end' : Location) (slots : gmap Z InFlight) (loc : Location) : Prop :=
  loc_le start loc /\ loc_le loc end' /\ exists f s, slots !! f = Some s /\ f_active s = true /\ f_loc s = loc.

Lemma register_range e wid start end' : flights_ok e -> fs_waits e !! wid = None ->
  let '(w, slots') := register_all wid (matching (covered start end') (fs_slots e)) (new_wait, fs_slots e) in
  wait_ok wid w [] slots' /\ joined wid (fs_slots e) slots' /\ fl_done w = [] /\ fl_results w = [] /\ fl_phase w = PSelect /\
  forall loc, is_Some (fl_pending w !! loc) <-> arriving_in start end' (fs_slots e) loc.
Proof.
  intros Hok Hw. assert (Hno : forall f s, fs_slots e !! f = Some s -> wid ∉ f_waiters s).
  { intros f s Hs Hin. destruct (sl_waits _ _ (fo_slots _ Hok f s Hs) wid Hin) as (w & E & _). congruence. }
  pose proof (register_all_counting wid (arriving_in start end' (fs_slots e)) (matching (covered start end') (fs_slots e))
    new_wait [] (fs_slots e)) as H.
  destruct (register_all wid _ (new_wait, fs_slots e)) as [w slots'].
  destruct H as ((Hwok & _) & Hj & D & R & N & F & A & _ & C).
  - assert (Hz : forall loc, cnt (registered wid loc) (fs_slots e) = 0).
    { intros loc. apply cnt_none. intros f s Hs. apply unregistered. exact (Hno f s Hs). }
    split; [split; simpl; try done|].
    + constructor.
    + intros f s Hs Hin. by destruct (Hno f s Hs).
    + intros loc _ _. by rewrite Hz.
  - apply matching_NoDup.
  - intros f (s & Hs & (Ha & H1 & H2)%covered_spec)%matching_elem. exists s. split_and!; [done|done| |exact (Hno f s Hs)].
    split_and!; [done|done|]. by exists f, s.
  - simpl. by intros o loc ?%not_elem_of_nil.
  - split_and!; try done. intros loc. split.
    + intros Hp. destruct (decide (loc ∈ f_loc <$> omap (fun f => fs_slots e !! f) (matching (covered start end') (fs_slots e)))) as [Hin|Hn].
      * apply list_elem_of_fmap in Hin as (s & -> & Hin). apply list_elem_of_omap in Hin as (f & Hf & Hs).
        apply matching_elem in Hf as (s' & Hs' & (Ha & H1 & H2)%covered_spec). rewrite Hs in Hs'. injection Hs' as <-.
        split_and!; [done|done|]. by exists f, s.
      * exfalso. rewrite A in Hp; [simpl in Hp; rewrite lookup_empty in Hp; by destruct Hp|].
        intros (H1 & H2 & f & s & Hs & Ha & <-). apply Hn, list_elem_of_fmap. exists s. split; [done|]. apply list_elem_of_omap.
        exists f. split; [|done]. apply matching_elem. exists s. split; [done|]. by apply covered_spec.
    + intros (H1 & H2 & f & s & Hs & Ha & <-). eapply (C f); [|done]. apply matching_elem. exists s. split; [done|]. by apply covered_spec.
Qed.

Lemma wait_flights_ok e wid start end' : flights_ok e -> fs_waits e !! wid = None -> flights_ok (WaitInFlight wid start end' e).2.
Proof.
  intros Hok Hw. unfold WaitInFlight. pose proof (register_range e wid start end' Hok Hw) as H.
  destruct (matching _ (fs_slots e)) as [|f0 fs0] eqn:E; [done|].
  destruct (register_all wid (f0 :: fs0) (new_wait, fs_slots e)) as [w slots']. destruct H as (Hwok & Hj & _ & R & F & _).
  simpl. apply joined_flights_ok; try done; rewrite ?R; try done.
  - intros w0 E0. congruence.
  - unfold returned. rewrite F. tauto.
Qed.

(** *** Draining *)

Definition arrived (w : FlightWait) (loc : Location) : Prop := exists o, o ∈ fl_done w /\ co_loc o = loc.
(** No stream is reading the Object. *)
Definition gone (slots : gmap Z InFlight) (loc : Location) : Prop :=
  forall f s, slots !! f = Some s -> f_active s = true -> f_loc s <> loc.

Lemma joined_gone wid slots slots' loc : joined wid slots slots' -> gone slots' loc <-> gone slots loc.
Proof.
  intros H. split; intros Hg f s Hs Ha E.
  - specialize (H f). rewrite Hs in H. inversion H as [x y Hj|]; subst x. destruct Hj as [-> |A B ->]; by eapply Hg.
  - destruct (joined_lookup _ _ _ _ _ H Hs) as (x & Hx & [-> |A B ->]); by eapply Hg.
Qed.

Definition drains (loc : Location) (w w' : FlightWait) (slots : gmap Z InFlight) (rs : list flightResult) : Prop :=
  (is_Some (fl_pending w !! loc) -> (is_Some (fl_pending w' !! loc) \/ arrived w' loc \/ gone slots loc)) /\
  (is_Some (fl_pending w !! loc) -> (exists o, (loc, Some o) ∈ rs) -> arrived w' loc) /\
  (is_Some (fl_pending w' !! loc) -> is_Some (fl_pending w !! loc)) /\
  (arrived w' loc -> arrived w loc \/ is_Some (fl_pending w !! loc)) /\
  (arrived w loc -> arrived w' loc).

Lemma drain_one_ok wid w slots r rs : wait_ok wid w (r :: rs) slots ->
  let '(w', slots') := drain_one wid (w, slots) r in
  wait_ok wid w' rs slots' /\ joined wid slots slots' /\ fl_results w' = fl_results w /\ fl_notify w' = fl_notify w /\ fl_phase w' = fl_phase w /\
  forall loc, drains loc w w' slots [r] /\ (is_Some (fl_pending w !! loc) -> is_Some (fl_pending w' !! loc) \/ arrived w' loc \/ posted loc rs = 0).
Proof.
  intros Hok. pose proof Hok as [P1 P2 P3 P4 P5]. apply Forall_cons in P4 as [Hr P4]. unfold drain_one.
  assert (Hsame : forall loc, drains loc w w slots [] ).
  { intros loc. unfold drains. split_and!; auto. by intros _ (o & ?%not_elem_of_nil). }
  destruct (fl_pending w !! r.1) as [n|] eqn:En.
  2: { split_and!; try done; [|apply joined_refl|].
    - split; try done. intros loc k Hk. destruct (P1 loc k Hk) as [E Hp]. split; [|done]. rewrite posted_cons in E.
      rewrite bool_decide_false in E; [lia|]. intros <-. congruence.
    - intros loc. destruct (Hsame loc) as (A & B & C & D & F). split; [|auto]. split_and!; auto.
      intros [k Hk] (o & Ho%list_elem_of_singleton). rewrite <- Ho in En. simpl in En. congruence. }
  destruct (P1 _ _ En) as [En1 Enp]. rewrite posted_cons, bool_decide_true in En1 by done.
  destruct (r.2) as [obj|] eqn:Er.
  - specialize (Hr obj eq_refl). split_and!; try done; [|apply joined_refl|].
    + split; simpl; try done.
      * intros loc k Hk. apply lookup_delete_Some in Hk as [Hne Hk]. destruct (P1 loc k Hk) as [E Hp]. split; [|done].
        rewrite posted_cons, bool_decide_false in E by done. lia.
      * rewrite fmap_app. apply NoDup_app. split_and!; [done| |by apply NoDup_singleton].
        intros l Hl%list_elem_of_fmap Hl2. simpl in Hl2. apply list_elem_of_singleton in Hl2. destruct Hl as (o & -> & Ho).
        specialize (P3 o Ho). congruence.
      * intros o [Ho|Ho]%elem_of_app; [|apply list_elem_of_singleton in Ho as ->; by rewrite Hr, lookup_delete_eq].
        apply lookup_delete_None. right. by apply P3.
    + assert (Harr : forall w', fl_done w' = fl_done w ++ [obj] -> arrived w' r.1).
      { intros w' E. exists obj. rewrite E. split; [|done]. apply elem_of_app. right. left. }
      intros loc. unfold drains. simpl. destruct (decide (r.1 = loc)) as [<-|Hne].
      * split_and!; eauto.
      * rewrite lookup_delete_ne by done. split_and!; auto.
        -- intros _ (o & Ho%list_elem_of_singleton). rewrite <- Ho in Hne. done.
        -- intros (o & [Ho|Ho]%elem_of_app & El); [left; by exists o|]. apply list_elem_of_singleton in Ho as ->. congruence.
        -- intros (o & Ho & El). exists o. split; [|done]. apply elem_of_app. by left.
  - destruct (Z.gtb_spec (n - 1) 0) as [Hgt|Hle].
    + split_and!; try done; [|apply joined_refl|].
      * split; simpl; try done.
        -- intros loc k Hk. destruct (decide (r.1 = loc)) as [<-|Hne].
           ++ rewrite lookup_insert_eq in Hk. injection Hk as <-. split; lia.
           ++ rewrite lookup_insert_ne in Hk by done. destruct (P1 loc k Hk) as [E Hp]. split; [|done].
              rewrite posted_cons, bool_decide_false in E by done. lia.
        -- intros o Ho. rewrite lookup_insert_ne; [by apply P3|]. intros E. specialize (P3 o Ho). congruence.
      * assert (Hiff : forall loc, is_Some (<[r.1 := n - 1]> (fl_pending w) !! loc) <-> is_Some (fl_pending w !! loc)).
        { intros loc. destruct (decide (r.1 = loc)) as [<-|Hne]; [rewrite lookup_insert_eq, En; by split; eauto|by rewrite lookup_insert_ne]. }
        intros loc. unfold drains. simpl. rewrite Hiff. split_and!; auto.
        intros _ (o & Ho%list_elem_of_singleton). rewrite <- Ho in Er. done.
    + pose proof (flight_cnt_nonneg (registered wid r.1) slots) as Hcn. pose proof (posted_nonneg r.1 rs) as Hpn.
      assert (Hreg : cnt (registered wid r.1) slots = 0) by lia. assert (Hpost : posted r.1 rs = 0) by lia.
      pose proof (register_all_counting wid (fun loc => loc = r.1) (matching (rereading wid r.1) slots)
        (set_pending w (delete r.1 (fl_pending w))) rs slots) as H.
      destruct (register_all wid _ _) as [w' slots'] eqn:Ereg. destruct H as ((Hwok & Hz) & Hj & D & R & N & F & A & B & C).
      * split; [split; simpl; try done|].
        -- intros loc k Hk. apply lookup_delete_Some in Hk as [Hne Hk]. destruct (P1 loc k Hk) as [E Hp]. split; [|done].
           rewrite posted_cons, bool_decide_false in E by done. lia.
        -- intros o Ho. apply lookup_delete_None. right. by apply P3.
        -- intros loc -> _. lia.
      * apply matching_NoDup.
      * intros f (s & Hs & Hc)%matching_elem. exists s. unfold rereading in Hc. rewrite !andb_true_iff in Hc.
        destruct Hc as [[Ha Hl%bool_decide_eq_true] Hn%negb_true_iff%bool_decide_eq_false]. by split_and!.
      * simpl. intros o loc Ho -> E. specialize (P3 o Ho). rewrite E in P3. congruence.
      * split_and!; try done. intros loc.
        assert (Harr : arrived w' loc <-> arrived w loc) by (unfold arrived; by rewrite D).
        assert (Hp : r.1 <> loc -> fl_pending w' !! loc = fl_pending w !! loc).
        { intros Hne. rewrite A by congruence. by apply lookup_delete_ne. }
        unfold drains. rewrite Harr. destruct (decide (r.1 = loc)) as [<-|Hne].
        -- split_and!; eauto.
           ++ intros _. destruct (matching (rereading wid r.1) slots) as [|f fs] eqn:Em.
              ** right. right. intros f s Hs Ha El. pose proof (cnt_zero _ _ f s Hreg Hs) as Hu. unfold registered in Hu.
                 rewrite Ha, El, (bool_decide_true (r.1 = r.1)) in Hu by done. simpl in Hu. apply bool_decide_eq_false in Hu.
                 assert (Hin : f ∈ matching (rereading wid r.1) slots).
                 { apply matching_elem. exists s. split; [done|]. unfold rereading. rewrite Ha, El, bool_decide_true by done.
                   simpl. by rewrite bool_decide_false by done. }
                 rewrite Em in Hin. by apply not_elem_of_nil in Hin.
              ** left. assert (Hin : f ∈ matching (rereading wid r.1) slots) by (rewrite Em; left).
                 apply matching_elem in Hin as (s & Hs & Hc). unfold rereading in Hc. rewrite !andb_true_iff in Hc.
                 destruct Hc as [[_ <-%bool_decide_eq_true] _]. eapply C; [by left|done].
           ++ intros _ (o & Ho%list_elem_of_singleton). rewrite <- Ho in Er. done.
        -- rewrite Hp by done. split_and!; auto. intros _ (o & Ho%list_elem_of_singleton). rewrite <- Ho in Hne. done.
Qed.

Lemma drain_fold wid rs : forall w slots, wait_ok wid w rs slots ->
  let '(w', slots') := fold_left (drain_one wid) rs (w, slots) in
  wait_ok wid w' [] slots' /\ joined wid slots slots' /\ fl_results w' = fl_results w /\ fl_notify w' = fl_notify w /\
  fl_phase w' = fl_phase w /\ forall loc, drains loc w w' slots rs.
Proof.
  induction rs as [|r rs IH]; intros w slots Hok; cbn [fold_left].
  { split_and!; try done; [apply joined_refl|]. intros loc. unfold drains. split_and!; auto. by intros _ (o & ?%not_elem_of_nil). }
  pose proof (drain_one_ok wid w slots r rs Hok) as H1. destruct (drain_one wid (w, slots) r) as [w1 slots1].
  destruct H1 as (Hok1 & Hj1 & R1 & N1 & F1 & D1). specialize (IH w1 slots1 Hok1).
  destruct (fold_left _ rs (w1, slots1)) as [w2 slots2]. destruct IH as (Hok2 & Hj2 & R2 & N2 & F2 & D2).
  split_and!; [done|by eapply joined_trans|congruence|congruence|congruence|]. intros loc.
  destruct (D1 loc) as [(A1 & B1 & C1 & E1 & G1) K1], (D2 loc) as (A2 & B2 & C2 & E2 & G2). unfold drains.
  rewrite (joined_gone _ _ _ loc Hj1) in A2. split_and!; auto.
  - intros Hp. destruct (A1 Hp) as [Hp1|[Ha|Hg]]; auto.
  - intros Hp (o & [Ho|Ho]%elem_of_cons).
    + apply G2, B1; [done|]. exists o. rewrite Ho. left.
    + destruct (K1 Hp) as [Hp1|[Ha|Hz]]; [apply B2; eauto|auto|]. exfalso. unfold posted in Hz. apply len_zero in Hz.
      assert (Hin : In (loc, Some o) (List.filter (fun r : flightResult => bool_decide (r.1 = loc)) rs)).
      { apply filter_In. split; [by apply list_elem_of_In|by apply bool_decide_eq_true]. }
      by rewrite Hz in Hin.
  - intros Ha. destruct (E2 Ha) as [Ha1|Hp1]; auto.
Qed.

(** Draining hands over what was posted for the Locations waited for. *)
Lemma register_all_done wid fs : forall w slots, fl_done (register_all wid fs (w, slots)).1 = fl_done w.
Proof.
  unfold register_all. induction fs as [|f fs IH]; intros w slots; cbn [fold_left]; [done|].
  destruct (registerLocked wid f (w, slots)) as [w1 slots1] eqn:E. rewrite IH. unfold registerLocked in E.
  destruct (slots !! f); by injection E as <- _.
Qed.

Definition handed_over (rs : list flightResult) (w : FlightWait) (o : CachedObject) : Prop :=
  (co_loc o, Some o) ∈ rs /\ is_Some (fl_pending w !! co_loc o).

Lemma drain_one_done wid w slots r rs : wait_ok wid w (r :: rs) slots ->
  exists new, fl_done (drain_one wid (w, slots) r).1 = fl_done w ++ new /\ Forall (handed_over [r] w) new.
Proof.
  intros [_ _ _ [Hr _]%Forall_cons _]. unfold drain_one. destruct r as [loc [obj|]]; simpl in *.
  - destruct (fl_pending w !! loc) eqn:En; [|exists []; by rewrite app_nil_r]. exists [obj]. split; [done|].
    specialize (Hr obj eq_refl). apply Forall_singleton. split; rewrite Hr; [by left|by eexists].
  - exists []. rewrite app_nil_r. destruct (fl_pending w !! loc); [|done]. destruct (_ >? _); [done|].
    by rewrite register_all_done.
Qed.

Lemma drain_done wid rs : forall w slots, wait_ok wid w rs slots ->
  exists new, fl_done (fold_left (drain_one wid) rs (w, slots)).1 = fl_done w ++ new /\ Forall (handed_over rs w) new.
Proof.
  induction rs as [|r rs IH]; intros w slots Hok; cbn [fold_left]; [exists []; by rewrite app_nil_r|].
  destruct (drain_one_done wid w slots r rs Hok) as (n1 & E1 & F1).
  pose proof (drain_one_ok wid w slots r rs Hok) as H1. destruct (drain_one wid (w, slots) r) as [w1 slots1].
  destruct H1 as (Hok1 & _ & _ & _ & _ & D1). destruct (IH w1 slots1 Hok1) as (n2 & E2 & F2).
  exists (n1 ++ n2). simpl in E1. rewrite E2, E1, app_assoc. split; [done|]. apply Forall_app. split; (eapply Forall_impl; [eassumption|]).
  - intros o [Ho%list_elem_of_singleton Hp]. split; [|done]. rewrite Ho. by left.
  - intros o [Ho Hp]. split; [by right|]. by apply (proj1 (proj2 (proj2 (proj1 (D1 (co_loc o)))))).
Qed.

(** *** Leaving *)

Definition leave_slot (wid : Z) (s : InFlight) : InFlight :=
  MkSlot (f_loc s) (f_active s) (List.filter (fun x => negb (x =? wid)) (f_waiters s)).

Lemma leave_absent wid s : wid ∉ f_waiters s -> leave_slot wid s = s.
Proof.
  intros H. destruct s as [l a ws]. unfold leave_slot; simpl in *. f_equal. induction ws as [|x ws IH]; [done|].
  apply not_elem_of_cons in H as [H1 H2]. simpl. destruct (Z.eqb_spec x wid); [congruence|]. simpl. by rewrite IH.
Qed.
Lemma leave_elem wid x s : x ∈ f_waiters (leave_slot wid s) <-> x ∈ f_waiters s /\ x <> wid.
Proof.
  simpl. rewrite !list_elem_of_In, filter_In, negb_true_iff, Z.eqb_neq. done.
Qed.
Lemma leave_twice wid s : leave_slot wid (leave_slot wid s) = leave_slot wid s.
Proof. apply leave_absent. rewrite leave_elem. tauto. Qed.

Lemma Stop_lookup wid w slots f : (forall s, slots !! f = Some s -> wid ∈ f_waiters s -> f ∈ fl_slots w) ->
  Stop wid w slots !! f = leave_slot wid <$> slots !! f.
Proof.
  unfold Stop. fold (leave_slot wid). generalize (fl_slots w). intros l. revert slots. induction l as [|g l IH]; intros slots H; cbn [fold_left].
  - destruct (slots !! f) as [s|] eqn:E; [|done]. simpl. f_equal. symmetry. apply leave_absent. intros Hin.
    by apply (H s eq_refl), not_elem_of_nil in Hin.
  - destruct (decide (g = f)) as [->|Hne].
    + destruct (slots !! f) as [s|] eqn:E.
      * rewrite IH; [|intros x; rewrite lookup_alter_eq, E; simpl; intros [= <-]; rewrite leave_elem; tauto].
        rewrite lookup_alter_eq, E. simpl. by rewrite leave_twice.
      * rewrite IH; rewrite lookup_alter_eq, E; done.
    + rewrite IH; rewrite lookup_alter_ne by done; [done|]. intros s Hs Hin. specialize (H s Hs Hin).
      apply elem_of_cons in H as [->|]; done.
Qed.

Lemma return_flights_ok e wid w still : flights_ok e -> fs_waits e !! wid = Some w -> ~ returned w ->
  flights_ok (wait_return wid w still e).
Proof.
  intros [H1 H2 H3] Hw Hr. destruct (H2 wid w Hw Hr) as [[P1 P2 P3 P4 P5] _].
  assert (Hl : forall f, Stop wid w (fs_slots e) !! f = leave_slot wid <$> fs_slots e !! f).
  { intros f. apply Stop_lookup. intros s Hs Hin. by eapply P5. }
  assert (Hlk : forall f x, Stop wid w (fs_slots e) !! f = Some x -> exists s, fs_slots e !! f = Some s /\ x = leave_slot wid s).
  { intros f x. rewrite Hl. destruct (fs_slots e !! f); [|done]. intros [= <-]. eauto. }
  split; simpl.
  - intros f x (s & Hs & ->)%Hlk. destruct (H1 f s Hs) as [A1 A2 A3]. split.
    + simpl. intros Ha. by rewrite A1.
    + simpl. apply NoDup_ListNoDup, List.NoDup_filter. by apply NoDup_ListNoDup.
    + intros y [Hy Hne]%leave_elem. destruct (A3 y Hy) as (z & Hz & Hzr). exists z. by rewrite lookup_insert_ne.
  - intros y z. destruct (decide (wid = y)) as [<-|Hne]; [rewrite lookup_insert_eq; intros [= <-] []; done|].
    rewrite lookup_insert_ne by done. intros Hz Hzr. destruct (H2 y z Hz Hzr) as [Hok Hn]. split; [|done].
    eapply wait_ok_slots; [exact Hok| |].
    + intros loc. apply cnt_pointwise. intros f. rewrite Hl. destruct (fs_slots e !! f) as [s|]; [|done]. simpl. f_equal.
      unfold registered. change (f_active (leave_slot wid s)) with (f_active s). change (f_loc (leave_slot wid s)) with (f_loc s).
      f_equal. apply bool_decide_ext. rewrite leave_elem. naive_solver.
    + intros f x (s & Hs & ->)%Hlk [Hin _]%leave_elem. eauto.
  - intros y z f x. destruct (decide (wid = y)) as [<-|Hne].
    + intros _ _ (s & Hs & ->)%Hlk. rewrite leave_elem. tauto.
    + rewrite lookup_insert_ne by done. intros Hz Hzr (s & Hs & ->)%Hlk. rewrite leave_elem. intros [Hin _]. by eapply H3.
Qed.

Lemma phase_flights_ok e wid w n p : flights_ok e -> fs_waits e !! wid = Some w -> ~ returned w ->
  (match p with PReturned _ _ => False | PSelect => fl_results w = [] \/ n = true | PDrain _ => True end) ->
  flights_ok (MkFlights (fs_slots e) (<[wid := set_phase w n p]> (fs_waits e))).
Proof.
  intros Hok Hw Hr Hp. destruct (fo_waits _ Hok wid w Hw Hr) as [[P1 P2 P3 P4 P5] Hn].
  apply joined_flights_ok; try done; [apply joined_refl|by intros w0 [= <-]%(eq_trans (eq_sym Hw))| |].
  - unfold returned; simpl. destruct p; tauto.
  - simpl. intros Hne. destruct p as [|b|]; [|right; by exists b|done]. left. by destruct Hp.
Qed.

Lemma Wait_flights_ok e wid by' e' : flights_ok e -> Wait wid by' e = Some e' -> flights_ok e'.
Proof.
  intros Hok. unfold Wait. destruct (fs_waits e !! wid) as [w|] eqn:Hw; [|done]. destruct (fl_phase w) as [|b|d s] eqn:Hp; [| |done].
  - assert (Hr : ~ returned w) by (unfold returned; rewrite Hp; tauto). case_bool_decide as Ep.
    { intros [= <-]. by apply return_flights_ok. }
    destruct by'; [destruct (fl_notify w) eqn:En; [|done]|]; intros [= <-]; by apply phase_flights_ok.
  - assert (Hr : ~ returned w) by (unfold returned; rewrite Hp; tauto). unfold drain.
    destruct (fo_waits _ Hok wid w Hw Hr) as [Hwok _].
    assert (Hw0 : wait_ok wid (set_results w []) (fl_results w) (fs_slots e)) by (destruct Hwok; by split).
    pose proof (drain_fold wid (fl_results w) (set_results w []) (fs_slots e) Hw0) as H.
    destruct (fold_left _ _ _) as [w' slots']. destruct H as (Hok' & Hj & R & N & F & _). simpl in R.
    assert (Hf : flights_ok (MkFlights slots' (<[wid := set_phase w' (fl_notify w') PSelect]> (fs_waits e)))).
    { apply joined_flights_ok; try done; simpl.
      - by intros w0 [= <-]%(eq_trans (eq_sym Hw)).
      - unfold returned; simpl. tauto.
      - rewrite R. destruct Hok'. by split. }
    destruct b; intros [= <-]; [|done].
    apply (return_flights_ok (MkFlights slots' (<[wid := set_phase w' (fl_notify w') PSelect]> (fs_waits e))) wid
      (set_phase w' (fl_notify w') PSelect) (StillArriving w')); [exact Hf|simpl; apply lookup_insert_eq|unfold returned; simpl; tauto].
Qed.

(** ** Runs *)

Inductive flight_op : Type :=
| FNew (f : Z) | FActivate (f : Z) (loc : Location) | FEnd (f : Z) (obj : option CachedObject) | FRelease (f : Z)
| FWait (wid : Z) (start end' : Location) | FForget (wid : Z) (loc : Location) | FMove (wid : Z) (by' : wake) | FStop (wid : Z).

(** [None]: the step cannot happen, since a slot reads one Object at a time, a wait is
    used by one goroutine, and [Wait] may be blocked. *)
Definition flight_step (o : flight_op) (e : Flights) : option Flights :=
  match o with
  | FNew f => match fs_slots e !! f with None => Some (NewInFlight f e) | Some _ => None end
  | FActivate f loc =>
      match fs_slots e !! f with Some s => if f_active s then None else Some (activate f loc e) | None => None end
  | FEnd f obj =>
      match fs_slots e !! f with
      | Some s =>
          if match obj with Some o => bool_decide (co_loc o = f_loc s) | None => true end then Some (EndInFlight f obj e) else None
      | None => None
      end
  | FRelease f => Some (ReleaseInFlight f e)
  | FWait wid start end' => match fs_waits e !! wid with None => Some (WaitInFlight wid start end' e).2 | Some _ => None end
  | FForget wid loc =>
      match fs_waits e !! wid with
      | Some w => match fl_phase w with PSelect => Some (Forget wid loc e) | _ => None end
      | None => None
      end
  | FMove wid by' => Wait wid by' e
  | FStop wid =>
      match fs_waits e !! wid with
      | Some w => match fl_phase w with PSelect => Some (wait_return wid w (StillArriving w) e) | _ => None end
      | None => None
      end
  end.

Inductive flight_reach : Flights -> Prop :=
| FR0 : flight_reach no_flights
| FRS e o e' : flight_reach e -> flight_step o e = Some e' -> flight_reach e'.

Lemma forget_flights_ok e wid loc w : flights_ok e -> fs_waits e !! wid = Some w -> ~ returned w -> flights_ok (Forget wid loc e).
Proof.
  intros Hok Hw Hr. destruct (fo_waits _ Hok wid w Hw Hr) as [[P1 P2 P3 P4 P5] Hn]. unfold Forget.
  assert (E : alter (fun w => set_pending w (delete loc (fl_pending w))) wid (fs_waits e) =
    <[wid := set_pending w (delete loc (fl_pending w))]> (fs_waits e)).
  { apply map_eq. intros x. destruct (decide (wid = x)) as [<-|Hne]; [by rewrite lookup_alter_eq, lookup_insert_eq, Hw|].
    by rewrite lookup_alter_ne, lookup_insert_ne. }
  rewrite E. apply joined_flights_ok; try done; [apply joined_refl|by intros w0 [= <-]%(eq_trans (eq_sym Hw))|].
  split; simpl; try done.
  - intros l k [_ Hk]%lookup_delete_Some. by apply P1.
  - intros o Ho. apply lookup_delete_None. right. by apply P3.
Qed.

Lemma flight_reach_ok e : flight_reach e -> flights_ok e.
Proof.
  induction 1 as [|e o e' _ IH Hs]; [split; simpl; intros; done|]. destruct o as [f|f loc|f obj|f|wid a b|wid loc|wid by'|wid]; simpl in Hs.
  - destruct (fs_slots e !! f) eqn:E; [done|]. injection Hs as <-. by apply new_flights_ok.
  - destruct (fs_slots e !! f) as [s|] eqn:E; [|done]. destruct (f_active s) eqn:Ea; [done|]. injection Hs as <-. by eapply activate_flights_ok.
  - destruct (fs_slots e !! f) as [s|] eqn:E; [|done]. destruct (match obj with Some o => _ | None => _ end) eqn:Eo; [|done]. injection Hs as <-.
    apply end_flights_ok; [done|]. intros x o [= <-]%(eq_trans (eq_sym E)) _ ->. by apply bool_decide_eq_true in Eo.
  - injection Hs as <-. by apply release_flights_ok.
  - destruct (fs_waits e !! wid) eqn:E; [done|]. injection Hs as <-. by apply wait_flights_ok.
  - destruct (fs_waits e !! wid) as [w|] eqn:E; [|done]. destruct (fl_phase w) eqn:Ep; try done. injection Hs as <-.
    eapply forget_flights_ok; [done|exact E|]. unfold returned. rewrite Ep. tauto.
  - by eapply Wait_flights_ok.
  - destruct (fs_waits e !! wid) as [w|] eqn:E; [|done]. destruct (fl_phase w) eqn:Ep; try done. injection Hs as <-.
    apply return_flights_ok; [done|done|]. unfold returned. rewrite Ep. tauto.
Qed.

(** The streams reading the Object at [loc], and whether the wait is on one. *)
Definition reading (e : Flights) (loc : Location) : Prop := ~ gone (fs_slots e) loc.

Lemma pending_reading e wid w loc : flights_ok e -> fs_waits e !! wid = Some w -> ~ returned w -> fl_results w = [] ->
  is_Some (fl_pending w !! loc) -> exists f s, fs_slots e !! f = Some s /\ f_active s = true /\ f_loc s = loc /\ wid ∈ f_waiters s.
Proof.
  intros Hok Hw Hr Hres [k Hk]. destruct (fo_waits _ Hok wid w Hw Hr) as [[P1 _ _ _ _] _]. destruct (P1 loc k Hk) as [E Hp].
  rewrite Hres in E. change (posted loc []) with 0 in E. destruct (flight_cnt_pos (registered wid loc) (fs_slots e)) as (f & s & Hs & Hreg); [lia|].
  exists f, s. unfold registered in Hreg. rewrite !andb_true_iff, !bool_decide_eq_true in Hreg. tauto.
Qed.

Lemma keys_elem (m : gmap Location Z) loc : loc ∈ (map_to_list m).*1 <-> is_Some (m !! loc).
Proof.
  rewrite list_elem_of_fmap. split.
  - intros ([l k] & -> & Hin%elem_of_map_to_list). simpl. eauto.
  - intros [k Hk]. exists (loc, k). split; [done|]. by apply elem_of_map_to_list.
Qed.

(** The answer to a request to wait: nothing is registered exactly when no Object of
    the range is arriving; otherwise the wait is for exactly those that are. *)
Definition waits_for_range (start end' : Location) (wid : Z) (e : Flights) : Prop :=
  let '(ok, e') := WaitInFlight wid start end' e in
  if ok then
    (exists loc, arriving_in start end' (fs_slots e) loc) /\
    exists w, fs_waits e' !! wid = Some w /\ fl_done w = [] /\ fl_phase w = PSelect /\
      forall loc, is_Some (fl_pending w !! loc) <-> arriving_in start end' (fs_slots e) loc
  else e' = e /\ forall loc, ~ arriving_in start end' (fs_slots e) loc.

Lemma WaitInFlight_range start end' wid e : flights_ok e -> fs_waits e !! wid = None -> waits_for_range start end' wid e.
Proof.
  intros Hok Hw. unfold waits_for_range, WaitInFlight. pose proof (register_range e wid start end' Hok Hw) as H.
  pose proof (matching_elem (covered start end') (fs_slots e)) as Hm.
  destruct (matching _ (fs_slots e)) as [|f0 fs0] eqn:E.
  - split; [done|]. intros loc (H1 & H2 & f & s & Hs & Ha & <-). apply (not_elem_of_nil f), Hm. exists s.
    split; [done|]. by apply covered_spec.
  - destruct (register_all wid (f0 :: fs0) (new_wait, fs_slots e)) as [w slots']. destruct H as (_ & _ & D & _ & F & P).
    split; [|exists w; split; [apply lookup_insert_eq|done]].
    destruct (proj1 (Hm f0) (list_elem_of_here _ _)) as (s & Hs & (Ha & H1 & H2)%covered_spec). exists (f_loc s). split_and!; [done|done|].
    by exists f0, s.
Qed.

(** One move of a wait: it is handed exactly Objects that were posted for Locations it
    waited for, waits for no new Location, and, when it returns, answers with all it
    was handed and with the Locations it still waits for. *)
Definition move_answers (wid : Z) (by' : wake) (e : Flights) (w : FlightWait) : Prop := forall e', Wait wid by' e = Some e' ->
  exists w' new, fs_waits e' !! wid = Some w' /\ fl_done w' = fl_done w ++ new /\ Forall (handed_over (fl_results w) w) new /\
    (forall loc, is_Some (fl_pending w' !! loc) -> is_Some (fl_pending w !! loc)) /\
    forall d still, fl_phase w' = PReturned d still -> d = fl_done w' /\ forall loc, loc ∈ still <-> is_Some (fl_pending w' !! loc).

Lemma Wait_answers e wid w by' : flights_ok e -> fs_waits e !! wid = Some w -> ~ returned w -> move_answers wid by' e w.
Proof.
  intros Hok Hw Hr e'. unfold Wait. rewrite Hw. destruct (fl_phase w) as [|b|] eqn:Hp; [| |unfold returned in Hr; by rewrite Hp in Hr].
  - case_bool_decide as Ep; [|destruct by'; [destruct (fl_notify w); [|done]|]]; intros [= <-]; eexists _, []; simpl;
      rewrite app_nil_r, lookup_insert_eq; (split; [done|]); simpl; split_and!; try done.
    intros d still [= <- <-]. split; [done|]. intros loc. rewrite Ep, lookup_empty. split; [by intros ?%not_elem_of_nil|by intros []].
  - unfold drain. destruct (fo_waits _ Hok wid w Hw Hr) as [[P1 P2 P3 P4 P5] _].
    assert (Hw0 : wait_ok wid (set_results w []) (fl_results w) (fs_slots e)) by (by split).
    pose proof (drain_fold wid (fl_results w) (set_results w []) (fs_slots e) Hw0) as H.
    pose proof (drain_done wid (fl_results w) (set_results w []) (fs_slots e) Hw0) as (new & Hd & Hn).
    destruct (fold_left _ _ _) as [w' slots']. destruct H as (_ & _ & _ & _ & _ & D). simpl in Hd.
    intros [= <-]. assert (Hsub : forall loc, is_Some (fl_pending w' !! loc) -> is_Some (fl_pending w !! loc)) by (intros loc; apply (D loc)).
    destruct b; eexists _, new; simpl; rewrite lookup_insert_eq; (split; [done|]); simpl; split_and!; try done.
    intros d still [= <- <-]. split; [done|]. intros loc. apply keys_elem.
Qed.

(** An Object that ends is posted to every wait on its stream. *)
Lemma end_posts e f s obj wid w : flights_ok e -> fs_slots e !! f = Some s -> f_active s = true -> wid ∈ f_waiters s ->
  fs_waits e !! wid = Some w -> fs_waits (EndInFlight f obj e) !! wid = Some (post (f_loc s, obj) w).
Proof.
  intros Hok Hf Ha Hin Hw. unfold EndInFlight, endInFlightLocked. rewrite Hf, Ha. simpl.
  rewrite post_all_lookup by (eapply sl_nodup; by apply (fo_slots _ Hok f)). by rewrite decide_True, Hw.
Qed.

(** C11: a FETCH waits for exactly the Objects that are arriving.  In every reachable
    state: a new wait is for exactly the Locations of its range (both ends included) that
    a stream is reading, and there is none when nothing in the range is.  For a wait
    that has not returned: the Objects handed to it are at distinct
    Locations, none of which it still waits for; a stream that ends an Object, whole or
    not, posts it to every wait on it; if it is blocked, then each Location
    it waits for is being read by a stream that will post to it, so no wake-up is
    lost; every move hands it only Objects posted for Locations it waits for, and adds
    no Location; when it looks at what was posted, every Location it waited for whose
    Object was handed over is answered by an Object, every other one is waited for
    still or read by no stream any more; and it returns all the Objects it was handed
    and, as still arriving, exactly the Locations it waits for, each of which a stream is
    reading, and no slot keeps it. *)
Theorem fetch_waits_for_arriving e : flight_reach e ->
  (forall start end' new, fs_waits e !! new = None -> waits_for_range start end' new e) /\
  forall wid w by', fs_waits e !! wid = Some w -> ~ returned w ->
  (forall f s obj, fs_slots e !! f = Some s -> f_active s = true -> wid ∈ f_waiters s ->
     exists w1, fs_waits (EndInFlight f obj e) !! wid = Some w1 /\ (f_loc s, obj) ∈ fl_results w1 /\ fl_notify w1 = true) /\
  move_answers wid by' e w /\
  NoDup (co_loc <$> fl_done w) /\ (forall o, o ∈ fl_done w -> fl_pending w !! co_loc o = None) /\
  (fl_phase w = PSelect -> Wait wid WakeNotify e = None ->
     fl_pending w <> ∅ /\ forall loc, is_Some (fl_pending w !! loc) ->
       exists f s, fs_slots e !! f = Some s /\ f_active s = true /\ f_loc s = loc /\ wid ∈ f_waiters s) /\
  (forall b, fl_phase w = PDrain b -> exists e' w', Wait wid by' e = Some e' /\ fs_waits e' !! wid = Some w' /\
     forall loc, is_Some (fl_pending w !! loc) ->
       ((exists o, (loc, Some o) ∈ fl_results w) -> arrived w' loc) /\
       (is_Some (fl_pending w' !! loc) /\ reading e loc \/ arrived w' loc \/ gone (fs_slots e) loc)) /\
  (forall e', Wait wid by' e = Some e' -> forall w' d still, fs_waits e' !! wid = Some w' -> fl_phase w' = PReturned d still ->
     (forall loc, loc ∈ still -> reading e loc) /\ forall f s, fs_slots e' !! f = Some s -> wid ∉ f_waiters s).
Proof.
  intros Hreach. pose proof (flight_reach_ok _ Hreach) as Hok.
  split; [intros start end' new Hnew; by apply WaitInFlight_range|]. intros wid w by' Hw Hr. destruct (fo_waits _ Hok wid w Hw Hr) as [Hwok Hnot].
  pose proof Hwok as [P1 P2 P3 P4 P5].
  split. { intros f s obj Hf Ha Hin. eexists. split; [by eapply end_posts|]. simpl. split; [apply elem_of_app; right; by left|done]. }
  split; [by apply Wait_answers|]. split; [done|]. split; [done|].
  assert (Hdr : forall b, fl_phase w = PDrain b -> exists e' w', Wait wid by' e = Some e' /\ fs_waits e' !! wid = Some w' /\
     (forall d st, fl_phase w' = PReturned d st -> st = StillArriving w') /\
     (forall loc, drains loc w w' (fs_slots e) (fl_results w)) /\ forall loc, is_Some (fl_pending w' !! loc) -> reading e loc).
  { intros b Hp. unfold Wait. rewrite Hw, Hp. unfold drain.
    assert (Hw0 : wait_ok wid (set_results w []) (fl_results w) (fs_slots e)) by (destruct Hwok; by split).
    pose proof (drain_fold wid (fl_results w) (set_results w []) (fs_slots e) Hw0) as H.
    destruct (fold_left _ _ _) as [w' slots']. destruct H as ([Q1 Q2 Q3 Q4 Q5] & Hj & R & N & F & D).
    assert (Hread : forall loc, is_Some (fl_pending w' !! loc) -> reading e loc).
    { intros loc [k Hk] Hg. destruct (Q1 loc k Hk) as [E Hp']. change (posted loc []) with 0 in E.
      destruct (flight_cnt_pos (registered wid loc) slots') as (f & s & Hs & Hreg); [lia|].
      rewrite <- (joined_gone _ _ _ loc Hj) in Hg. unfold registered in Hreg. rewrite !andb_true_iff, !bool_decide_eq_true in Hreg.
      destruct Hreg as [[Ha El] _]. by apply (Hg f s Hs Ha). }
    destruct b; eexists _, _; (split; [done|]); (split; [apply lookup_insert_eq|]); split_and!; try done. by intros d st [= _ <-]. }
  split_and!.
  - intros Hp Hb. unfold Wait in Hb. rewrite Hw, Hp in Hb. case_bool_decide as Ep; [done|]. destruct (fl_notify w) eqn:En; [done|].
    split; [done|]. intros loc Hloc. eapply pending_reading; try done. destruct (fl_results w) eqn:Er; [done|].
    destruct (Hnot ltac:(done)) as [?|[b Hb2]]; [done|]. rewrite Hp in Hb2. done.
  - intros b Hp. destruct (Hdr b Hp) as (e' & w' & H1 & H2 & _ & H3 & H4). exists e', w'. split_and!; [done|done|]. intros loc Hloc.
    destruct (H3 loc) as (A & B & C & D & E). split; [auto|]. destruct (A Hloc) as [?|[?|?]]; auto.
  - intros e' He' w' d still Hw' Hp'. split.
    + destruct (fl_phase w) as [|b|] eqn:Hp; [| |unfold returned in Hr; by rewrite Hp in Hr].
      * unfold Wait in He'. rewrite Hw, Hp in He'. case_bool_decide as Ep; [|destruct by'; [destruct (fl_notify w)|]; try done; injection He' as <-; simpl in Hw';
          rewrite lookup_insert_eq in Hw'; injection Hw' as <-; done].
        injection He' as <-. simpl in Hw'. rewrite lookup_insert_eq in Hw'. injection Hw' as <-. simpl in Hp'. injection Hp' as <- <-.
        by intros loc ?%not_elem_of_nil.
      * destruct (Hdr b eq_refl) as (e1 & w1 & H1 & H2 & H3 & _ & H5). rewrite He' in H1. injection H1 as <-.
        rewrite Hw' in H2. injection H2 as <-. rewrite (H3 _ _ Hp'). intros loc Hloc%keys_elem. auto.
    + intros f s Hs. eapply (fo_left e'); [by eapply Wait_flights_ok|exact Hw'| |exact Hs]. unfold returned. by rewrite Hp'.
Qed.

Definition flight_run (ops : list flight_op) (e : Flights) : option Flights :=
  fold_left (fun r o => r ≫= flight_step o) ops (Some e).

Lemma flight_run_None ops : fold_left (fun r o => r ≫= flight_step o) ops None = None.
Proof. by induction ops. Qed.
Lemma flight_run_reach ops : forall e e', flight_reach e -> flight_run ops e = Some e' -> flight_reach e'.
Proof.
  unfold flight_run. induction ops as [|o ops IH]; intros e e' He; cbn [fold_left]; [by intros [= <-]|].
  change (Some e ≫= flight_step o) with (flight_step o e). destruct (flight_step o e) as [e1|] eqn:E1; [|by rewrite flight_run_None].
  apply IH. by eapply FRS.
Qed.

Definition sample_arrival : CachedObject := MkCached 3 4 0 128 ForwardingSubgroup 0 [] [] 0 0 false false false false.
Definition sample_flight : list flight_op :=
  [FNew 1; FNew 2; FActivate 1 (MkLoc 3 4); FActivate 2 (MkLoc 3 5); FWait 9 (MkLoc 3 0) (MkLoc 3 9);
   FEnd 1 (Some sample_arrival); FMove 9 WakeNotify].

Lemma fetch_waits_for_arriving_witness :
  exists e w, flight_run sample_flight no_flights = Some e /\ fs_waits e !! 9 = Some w /\ fl_phase w = PDrain false /\
    exists e' w', Wait 9 WakeTimer e = Some e' /\ fs_waits e' !! 9 = Some w' /\ arrived w' (MkLoc 3 4).
Proof.
  destruct (flight_run sample_flight no_flights) as [e|] eqn:He; [|by vm_compute in He].
  destruct (fs_waits e !! 9) as [w|] eqn:Hw; [|by vm_compute in He; injection He as <-].
  assert (Hf : fl_phase w = PDrain false /\ is_Some (fl_pending w !! MkLoc 3 4) /\ fl_results w = [(MkLoc 3 4, Some sample_arrival)]).
  { vm_compute in He. injection He as <-. vm_compute in Hw. injection Hw as <-. split; [done|]. split; [eexists; vm_compute; reflexivity|done]. }
  destruct Hf as (Hp & Hl & Hres).
  assert (Hr : ~ returned w) by (unfold returned; rewrite Hp; tauto).
  destruct (fetch_waits_for_arriving e (flight_run_reach _ _ _ FR0 He)) as [_ H].
  destruct (H 9 w WakeTimer Hw Hr) as (_ & _ & _ & _ & _ & Hd & _).
  destruct (Hd false Hp) as (e' & w' & H1 & H2 & H3). destruct (H3 _ Hl) as [Ha _].
  exists e, w. split; [exact eq_refl|]. split; [exact Hw|]. split; [exact Hp|].
  exists e', w'. split; [exact H1|]. split; [exact H2|]. apply Ha. exists sample_arrival. rewrite Hres. left.
Defined.
