(* ===== verification/FetchRouter.v ===== *)
(** * FetchRouter: bringing upstream FETCH responses to their readers

    [relay/internal/registry/fetch_router.go]: the handler that issued an upstream FETCH
    registers for its response, the data loop of the upstream session delivers the
    response stream, in either order; a stream nobody takes is reset by the reader's
    cleanup or by a grace timer.

    Rendezvous channels and streams are named by numbers; a channel is given by the
    stream parked in it, if any.  Each section under [mu] and each channel operation
    is a step of its own where the code releases the lock between them. *)

From stdpp Require Import gmap.
From S2P Require Import Prelude.

Abbreviation fetchKey := (Z * Z)%type.

(** Where a reader stands: it holds the channel; its cleanup has removed the entry;
    its cleanup has drained the channel. *)
Inductive reader_phase : Type := RdWaiting | RdRemoved | RdDone.
Record reader : Type := MkReader { rd_key : fetchKey; rd_ch : Z; rd_phase : reader_phase }.

(** A grace timer: armed, or past its section under the lock. *)
Inductive timer_phase : Type := TmArmed | TmDraining | TmDone.
Record timer : Type := MkTimer { tm_key : fetchKey; tm_ch : Z; tm_phase : timer_phase }.

(** A [Deliver] between its section under the lock and its send. *)
Record delivery : Type := MkDelivery { dl_key : fetchKey; dl_ch : Z; dl_created : bool; dl_stream : Z }.

Inductive fate : Type := Taken | Reset.

Record FetchRouter : Type := MkRouter {
  fr_pending : gmap fetchKey Z; fr_parked : gmap Z Z; fr_next : Z;
  fr_readers : gmap Z reader; fr_timers : list timer; fr_deliveries : list delivery;
  fr_fates : list (Z * fate) }.
Definition NewFetchRouter : FetchRouter := MkRouter ∅ ∅ 0 ∅ [] [] [].

(** ** Operations *)

Definition chanLocked (key : fetchKey) (r : FetchRouter) : Z * bool * FetchRouter :=
  match fr_pending r !! key with
  | Some ch => (ch, false, r)
  | None => (fr_next r, true, MkRouter (<[key := fr_next r]> (fr_pending r)) (fr_parked r) (fr_next r + 1)
                                (fr_readers r) (fr_timers r) (fr_deliveries r) (fr_fates r))
  end.

Definition set_readers (r : FetchRouter) (rs : gmap Z reader) : FetchRouter :=
  MkRouter (fr_pending r) (fr_parked r) (fr_next r) rs (fr_timers r) (fr_deliveries r) (fr_fates r).
Definition set_timers (r : FetchRouter) (ts : list timer) : FetchRouter :=
  MkRouter (fr_pending r) (fr_parked r) (fr_next r) (fr_readers r) ts (fr_deliveries r) (fr_fates r).
Definition set_deliveries (r : FetchRouter) (ds : list delivery) : FetchRouter :=
  MkRouter (fr_pending r) (fr_parked r) (fr_next r) (fr_readers r) (fr_timers r) ds (fr_fates r).

Definition Register (id : Z) (key : fetchKey) (r : FetchRouter) : FetchRouter :=
  let '(ch, _, r) := chanLocked key r in set_readers r (<[id := MkReader key ch RdWaiting]> (fr_readers r)).

(** The stream parked in [ch], if any, meets its fate. *)
Definition unpark (ch : Z) (f : fate) (r : FetchRouter) : FetchRouter :=
  match fr_parked r !! ch with
  | None => r
  | Some s => MkRouter (fr_pending r) (delete ch (fr_parked r)) (fr_next r) (fr_readers r) (fr_timers r) (fr_deliveries r)
                (fr_fates r ++ [(s, f)])
  end.

(** The entry is removed if it is still this channel's. *)
Definition remove_entry (key : fetchKey) (ch : Z) (r : FetchRouter) : FetchRouter :=
  if bool_decide (fr_pending r !! key = Some ch)
  then MkRouter (delete key (fr_pending r)) (fr_parked r) (fr_next r) (fr_readers r) (fr_timers r) (fr_deliveries r) (fr_fates r)
  else r.

Definition take_stream (id : Z) (r : FetchRouter) : FetchRouter :=
  match fr_readers r !! id with
  | Some rd => match rd_phase rd with RdWaiting => unpark (rd_ch rd) Taken r | _ => r end
  | None => r
  end.

(** The cleanup [Register] returns, its two parts. *)
Definition cleanup_remove (id : Z) (r : FetchRouter) : FetchRouter :=
  match fr_readers r !! id with
  | Some rd =>
      match rd_phase rd with
      | RdWaiting =>
          set_readers (remove_entry (rd_key rd) (rd_ch rd) r) (<[id := MkReader (rd_key rd) (rd_ch rd) RdRemoved]> (fr_readers r))
      | _ => r
      end
  | None => r
  end.
Definition cleanup_drain (id : Z) (r : FetchRouter) : FetchRouter :=
  match fr_readers r !! id with
  | Some rd =>
      match rd_phase rd with
      | RdRemoved => set_readers (unpark (rd_ch rd) Reset r) (<[id := MkReader (rd_key rd) (rd_ch rd) RdDone]> (fr_readers r))
      | _ => r
      end
  | None => r
  end.

(** [Deliver], its section under the lock and its send.  The answer says whether the
    stream was accepted; the caller resets it if not. *)
Definition deliver_lock (key : fetchKey) (s : Z) (r : FetchRouter) : FetchRouter :=
  let '(ch, created, r) := chanLocked key r in set_deliveries r (fr_deliveries r ++ [MkDelivery key ch created s]).
Definition deliver_send (d : delivery) (r : FetchRouter) : bool * FetchRouter :=
  match fr_parked r !! dl_ch d with
  | Some _ => (false, r)
  | None =>
      (true, MkRouter (fr_pending r) (<[dl_ch d := dl_stream d]> (fr_parked r)) (fr_next r) (fr_readers r)
               (if dl_created d then fr_timers r ++ [MkTimer (dl_key d) (dl_ch d) TmArmed] else fr_timers r)
               (fr_deliveries r) (fr_fates r))
  end.
Definition Deliver (key : fetchKey) (s : Z) (r : FetchRouter) : bool * FetchRouter :=
  let '(ch, created, r) := chanLocked key r in deliver_send (MkDelivery key ch created s) r.

Definition timer_fire (i : nat) (r : FetchRouter) : FetchRouter :=
  match fr_timers r !! i with
  | Some t =>
      match tm_phase t with
      | TmArmed =>
          if bool_decide (fr_pending r !! tm_key t = Some (tm_ch t))
          then set_timers (remove_entry (tm_key t) (tm_ch t) r) (<[i := MkTimer (tm_key t) (tm_ch t) TmDraining]> (fr_timers r))
          else set_timers r (<[i := MkTimer (tm_key t) (tm_ch t) TmDone]> (fr_timers r))
      | _ => r
      end
  | None => r
  end.
Definition timer_drain (i : nat) (r : FetchRouter) : FetchRouter :=
  match fr_timers r !! i with
  | Some t =>
      match tm_phase t with
      | TmDraining => set_timers (unpark (tm_ch t) Reset r) (<[i := MkTimer (tm_key t) (tm_ch t) TmDone]> (fr_timers r))
      | _ => r
      end
  | None => r
  end.

(** ** Runs

    [RtDeliver] is a [Deliver] that nothing interrupts; [RtLock] and [RtSend] are its
    two parts. *)
Inductive router_op : Type :=
| RtRegister (id : Z) (key : fetchKey) | RtTake (id : Z) | RtRemove (id : Z) | RtDrain (id : Z)
| RtDeliver (key : fetchKey) (s : Z) | RtFire (i : nat) | RtTimerDrain (i : nat)
| RtLock (key : fetchKey) (s : Z) | RtSend (i : nat).

Definition whole (o : router_op) : bool := match o with RtLock _ _ | RtSend _ => false | _ => true end.

(** The router, and the streams it accepted. *)
Definition router_step (st : FetchRouter * list Z) (o : router_op) : FetchRouter * list Z :=
  let '(r, acc) := st in
  match o with
  | RtRegister id key => (match fr_readers r !! id with None => Register id key r | Some _ => r end, acc)
  | RtTake id => (take_stream id r, acc)
  | RtRemove id => (cleanup_remove id r, acc)
  | RtDrain id => (cleanup_drain id r, acc)
  | RtDeliver key s => let '(ok, r) := Deliver key s r in (r, if ok then acc ++ [s] else acc)
  | RtFire i => (timer_fire i r, acc)
  | RtTimerDrain i => (timer_drain i r, acc)
  | RtLock key s => (deliver_lock key s r, acc)
  | RtSend i =>
      match fr_deliveries r !! i with
      | Some d => let '(ok, r) := deliver_send d (set_deliveries r (delete i (fr_deliveries r))) in (r, if ok then acc ++ [dl_stream d] else acc)
      | None => st
      end
  end.
Definition router_run (ops : list router_op) : FetchRouter * list Z := fold_left router_step ops (NewFetchRouter, []).

(** ** Every accepted stream has an owner *)

(** Who will empty the channel: a reader that has not finished its cleanup, a timer
    past its section, or one whose entry is still in the table. *)
Definition owned (r : FetchRouter) (ch : Z) : Prop :=
  (exists id rd, fr_readers r !! id = Some rd /\ rd_ch rd = ch /\ rd_phase rd <> RdDone) \/
  (exists t, t ∈ fr_timers r /\ tm_ch t = ch /\
     (tm_phase t = TmDraining \/ tm_phase t = TmArmed /\ fr_pending r !! tm_key t = Some ch)).

(** Who will remove the entry. *)
Definition kept (r : FetchRouter) (key : fetchKey) (ch : Z) : Prop :=
  (exists id, fr_readers r !! id = Some (MkReader key ch RdWaiting)) \/ MkTimer key ch TmArmed ∈ fr_timers r.

Record router_ok (st : FetchRouter * list Z) : Prop := {
  ro_pending : forall key ch, fr_pending st.1 !! key = Some ch -> kept st.1 key ch /\ ch < fr_next st.1;
  ro_unique : forall k1 k2 ch, fr_pending st.1 !! k1 = Some ch -> fr_pending st.1 !! k2 = Some ch -> k1 = k2;
  ro_fresh : forall ch s, fr_parked st.1 !! ch = Some s -> ch < fr_next st.1;
  ro_parked : forall ch s, fr_parked st.1 !! ch = Some s -> owned st.1 ch;
  ro_accounted : (map_to_list (fr_parked st.1)).*2 ++ (fr_fates st.1).*1 ≡ₚ st.2 }.

Lemma owned_ext r r' ch : owned r ch ->
  (forall id rd, fr_readers r !! id = Some rd -> rd_phase rd <> RdDone ->
     exists id' rd', fr_readers r' !! id' = Some rd' /\ rd_ch rd' = rd_ch rd /\ rd_phase rd' <> RdDone) ->
  (forall t, t ∈ fr_timers r -> t ∈ fr_timers r') ->
  (forall key, fr_pending r !! key = Some ch -> fr_pending r' !! key = Some ch) -> owned r' ch.
Proof.
  intros [(id & rd & H1 & H2 & H3)|(t & H1 & H2 & H3)] Hr Ht Hp.
  - left. destruct (Hr id rd H1 H3) as (id' & rd' & E1 & E2 & E3). exists id', rd'. by rewrite E2.
  - right. exists t. split; [auto|]. split; [done|]. destruct H3 as [?|[? ?]]; auto.
Qed.

Lemma kept_ext r r' key ch : kept r key ch -> (forall id rd, fr_readers r !! id = Some rd -> fr_readers r' !! id = Some rd) ->
  (forall t, t ∈ fr_timers r -> t ∈ fr_timers r') -> kept r' key ch.
Proof. intros [(id & H)|H] Hr Ht; [left; exists id; auto|right; auto]. Qed.

(** A kept entry's channel is owned. *)
Lemma kept_owned r key ch : kept r key ch -> fr_pending r !! key = Some ch -> owned r ch.
Proof.
  intros [(id & H)|H] Hp; [left; by exists id, (MkReader key ch RdWaiting)|].
  right. exists (MkTimer key ch TmArmed). simpl. auto.
Qed.

(** The entry for a key, created or not; what it lacks if created is a keeper. *)
Lemma chanLocked_ok key r acc : router_ok (r, acc) ->
  let '(ch, created, r1) := chanLocked key r in
  fr_pending r1 !! key = Some ch /\ ch < fr_next r1 /\ fr_parked r1 = fr_parked r /\ fr_fates r1 = fr_fates r /\
  fr_readers r1 = fr_readers r /\ fr_timers r1 = fr_timers r /\ (created = true -> fr_parked r !! ch = None) /\
  (forall k c, fr_pending r1 !! k = Some c -> (kept r k c \/ k = key /\ created = true) /\ c < fr_next r1) /\
  (forall k1 k2 c, fr_pending r1 !! k1 = Some c -> fr_pending r1 !! k2 = Some c -> k1 = k2) /\
  (forall k c, fr_pending r !! k = Some c -> fr_pending r1 !! k = Some c) /\ fr_next r <= fr_next r1.
Proof.
  intros [H1 H2 H3 H4 H5]. simpl in *. unfold chanLocked. destruct (fr_pending r !! key) as [ch|] eqn:E; simpl.
  - split_and!; try done.
    + by apply (H1 key ch).
    + intros k c Hk. destruct (H1 k c Hk). auto.
  - assert (Hn : forall k, fr_pending r !! k = Some (fr_next r) -> False) by (intros k Hk; destruct (H1 k _ Hk); lia).
    rewrite lookup_insert_eq. split_and!; try done; [lia| | | | |lia].
    + intros _. destruct (fr_parked r !! fr_next r) eqn:Ep; [|done]. apply H3 in Ep. lia.
    + intros k c. destruct (decide (key = k)) as [<-|Hne]; [rewrite lookup_insert_eq; intros [= <-]; split; [auto|lia]|].
      rewrite lookup_insert_ne by done. intros Hk. destruct (H1 k c Hk). split; [auto|lia].
    + intros k1 k2 c. destruct (decide (key = k1)) as [<-|Hne1], (decide (key = k2)) as [<-|Hne2];
        rewrite ?lookup_insert_eq, ?lookup_insert_ne by done; [done| | |by apply H2].
      * intros [= <-] Hk. by apply Hn in Hk.
      * intros Hk [= <-]. by apply Hn in Hk.
    + intros k c Hk. rewrite lookup_insert_ne; [done|]. intros <-. congruence.
Qed.

Lemma register_ok id key r acc : router_ok (r, acc) -> fr_readers r !! id = None -> router_ok (Register id key r, acc).
Proof.
  intros Hok Hid. pose proof (chanLocked_ok key r acc Hok) as H. unfold Register. destruct (chanLocked key r) as [[ch created] r1].
  destruct H as (P1 & P2 & P3 & P4 & P5 & P6 & P7 & P8 & P9 & P10 & P11). destruct Hok as [H1 H2 H3 H4 H5]. simpl in *.
  assert (Hrd : forall i rd, fr_readers r !! i = Some rd -> <[id := MkReader key ch RdWaiting]> (fr_readers r1) !! i = Some rd).
  { intros i rd Hi. rewrite P5, lookup_insert_ne; [done|]. intros <-. congruence. }
  split; simpl.
  - intros k c Hk. destruct (P8 k c Hk) as [[Hkept|[-> _]] Hlt]; (split; [|done]).
    + eapply kept_ext; [exact Hkept|exact Hrd|simpl; by rewrite P6].
    + left. exists id. simpl. rewrite lookup_insert_eq. f_equal. congruence.
  - exact P9.
  - intros c s Hs. rewrite P3 in Hs. apply H3 in Hs. lia.
  - intros c s Hs. rewrite P3 in Hs. eapply owned_ext; [by eapply H4| | |]; simpl.
    + intros i rd Hi Hp. exists i, rd. split; [by apply Hrd|done].
    + by rewrite P6.
    + auto.
  - by rewrite P3, P4.
Qed.

Lemma deliver_ok key s r acc : router_ok (r, acc) -> router_ok (router_step (r, acc) (RtDeliver key s)).
Proof.
  intros Hok. pose proof (chanLocked_ok key r acc Hok) as H. simpl. unfold Deliver. destruct (chanLocked key r) as [[ch created] r1].
  destruct H as (P1 & P2 & P3 & P4 & P5 & P6 & P7 & P8 & P9 & P10 & P11). destruct Hok as [H1 H2 H3 H4 H5]. simpl in *.
  unfold deliver_send. cbn [dl_ch dl_created dl_key dl_stream]. rewrite P3. destruct (fr_parked r !! ch) as [s0|] eqn:Ep.
  - assert (Ec : created = false) by (destruct created; [specialize (P7 eq_refl); congruence|done]). split; simpl.
    + intros k c Hk. destruct (P8 k c Hk) as [[Hkept|[_ ?]] Hlt]; [|congruence]. split; [|done].
      eapply kept_ext; [exact Hkept|by rewrite P5|by rewrite P6].
    + exact P9.
    + intros c x Hx. rewrite P3 in Hx. apply H3 in Hx. lia.
    + intros c x Hx. rewrite P3 in Hx. eapply owned_ext; [by eapply H4|rewrite P5; eauto|by rewrite P6|auto].
    + by rewrite P3, P4.
  - set (ts := if created then _ else _). assert (Hts : forall t, t ∈ fr_timers r -> t ∈ ts).
    { intros t Ht. unfold ts. destruct created; rewrite P6; [|done]. apply elem_of_app. by left. }
    assert (Hk : forall k c, fr_pending r1 !! k = Some c ->
      kept (MkRouter (fr_pending r1) (<[ch := s]> (fr_parked r)) (fr_next r1) (fr_readers r1) ts (fr_deliveries r1) (fr_fates r1)) k c).
    { intros k c Hk. destruct (P8 k c Hk) as [[Hkept|[-> Hc]] Hlt].
      - eapply kept_ext; [exact Hkept|simpl; by rewrite P5|done].
      - right. simpl. unfold ts. rewrite Hc. apply elem_of_app. right. apply list_elem_of_singleton. f_equal. congruence. }
    split; simpl.
    + intros k c Hkc. split; [by apply Hk|]. by destruct (P8 k c Hkc).
    + exact P9.
    + intros c x. destruct (decide (ch = c)) as [<-|Hne]; [done|]. rewrite lookup_insert_ne by done. intros Hx. apply H3 in Hx. lia.
    + intros c x. destruct (decide (ch = c)) as [<-|Hne].
      * intros _. eapply kept_owned; [by apply Hk|exact P1].
      * rewrite lookup_insert_ne by done. intros Hx. eapply owned_ext; [by eapply H4|simpl; rewrite P5; eauto|done|simpl; auto].
    + rewrite map_to_list_insert by done. simpl. rewrite P4, H5. by rewrite Permutation_app_comm.
Qed.

(** Emptying a channel. *)
Lemma unpark_ok ch f r acc : router_ok (r, acc) ->
  router_ok (unpark ch f r, acc) /\ fr_parked (unpark ch f r) !! ch = None /\ fr_readers (unpark ch f r) = fr_readers r /\
  fr_timers (unpark ch f r) = fr_timers r /\ fr_pending (unpark ch f r) = fr_pending r.
Proof.
  intros Hok. unfold unpark. destruct (fr_parked r !! ch) as [s|] eqn:E; [|done]. destruct Hok as [H1 H2 H3 H4 H5]. simpl in *.
  split; [|by split_and!; try done; apply lookup_delete_eq]. split; simpl; try done.
  - intros c x [_ Hx]%lookup_delete_Some. by eapply H3.
  - intros c x [_ Hx]%lookup_delete_Some. destruct (H4 c x Hx) as [?|?]; [by left|by right].
  - rewrite <- H5. rewrite fmap_app. simpl. rewrite <- (map_to_list_delete _ _ _ E). simpl. rewrite app_assoc.
    rewrite <- Permutation_cons_append. done.
Qed.

(** Removing the entry of a channel that a drain will follow. *)
Lemma remove_ok key ch r acc rs ts : router_ok (r, acc) -> 
  (forall k c, fr_pending r !! k = Some c -> (k, c) <> (key, ch) -> kept r k c ->
     kept (MkRouter (fr_pending r) (fr_parked r) (fr_next r) rs ts (fr_deliveries r) (fr_fates r)) k c) ->
  (forall c s, fr_parked r !! c = Some s -> owned (MkRouter (fr_pending (remove_entry key ch r)) (fr_parked r) (fr_next r) rs ts (fr_deliveries r) (fr_fates r)) c) ->
  (fr_pending r !! key <> Some ch \/ fr_pending (remove_entry key ch r) !! key = None) ->
  router_ok (MkRouter (fr_pending (remove_entry key ch r)) (fr_parked r) (fr_next r) rs ts (fr_deliveries r) (fr_fates r), acc).
Proof.
  intros [H1 H2 H3 H4 H5] Hk Ho Hd. simpl in *.
  assert (Hp : forall k c, fr_pending (remove_entry key ch r) !! k = Some c -> fr_pending r !! k = Some c /\ (k, c) <> (key, ch)).
  { intros k c. unfold remove_entry in *. case_bool_decide as E; simpl in *.
    - intros [Hne Hkc]%lookup_delete_Some. split; [done|]. by intros [= -> ->].
    - intros Hkc. split; [done|]. intros [= -> ->]. done. }
  split; simpl; try done.
  - intros k c Hkc. destruct (Hp k c Hkc) as [Hkc' Hne]. destruct (H1 k c Hkc') as [Hkept Hlt]. split; [|done]. by apply Hk.
  - intros k1 k2 c A B. destruct (Hp _ _ A), (Hp _ _ B). by eapply H2.
Qed.

Lemma reader_phase_ok id rd p r acc : router_ok (r, acc) -> fr_readers r !! id = Some rd -> rd_phase rd <> RdWaiting ->
  (forall s, fr_parked r !! rd_ch rd = Some s -> p <> RdDone) ->
  router_ok (set_readers r (<[id := MkReader (rd_key rd) (rd_ch rd) p]> (fr_readers r)), acc).
Proof.
  intros [H1 H2 H3 H4 H5] Hid Hph Hp. simpl in *. split; simpl; try done.
  - intros k c Hk. destruct (H1 k c Hk) as [[(i & Hi)|Ht] Hlt]; (split; [|done]).
    + left. exists i. simpl. rewrite lookup_insert_ne; [done|]. intros <-. rewrite Hi in Hid. injection Hid as <-. done.
    + by right.
  - intros c s Hs. destruct (H4 c s Hs) as [(i & x & A & B & C)|?]; [|by right]. left. destruct (decide (id = i)) as [<-|Hne].
    + rewrite Hid in A. injection A as <-. exists id. eexists. simpl. rewrite lookup_insert_eq. split; [done|]. split; [done|]. simpl.
      apply (Hp s). by rewrite B.
    + exists i, x. simpl. by rewrite lookup_insert_ne.
Qed.

Lemma elem_insert_ne {A} (l : list A) i x y z : l !! i = Some x -> z ∈ l -> z <> x -> z ∈ <[i := y]> l.
Proof.
  intros Hi Hz Hne. apply list_elem_of_lookup in Hz as [j Hj]. apply list_elem_of_lookup. exists j.
  rewrite list_lookup_insert_ne; [done|]. intros <-. congruence.
Qed.

(** A timer that nothing depends on moves on. *)
Lemma timer_phase_ok i t p r acc : router_ok (r, acc) -> fr_timers r !! i = Some t ->
  (tm_phase t = TmArmed -> fr_pending r !! tm_key t <> Some (tm_ch t)) ->
  (tm_phase t = TmDraining -> fr_parked r !! tm_ch t = None) ->
  router_ok (set_timers r (<[i := MkTimer (tm_key t) (tm_ch t) p]> (fr_timers r)), acc).
Proof.
  intros [H1 H2 H3 H4 H5] Hi Ha Hd. simpl in *. split; simpl; try done.
  - intros k c Hk. destruct (H1 k c Hk) as [[Hr|Ht] Hlt]; (split; [|done]); [by left|]. right. simpl. eapply elem_insert_ne; [done|done|].
    intros <-. simpl in *. by apply Ha.
  - intros c s Hs. destruct (H4 c s Hs) as [?|(x & A & B & C)]; [by left|]. right. exists x. split; [|done]. simpl.
    eapply elem_insert_ne; [done|done|]. intros ->. destruct C as [C|[C1 C2]]; [rewrite <- B in Hs; rewrite Hd in Hs; done|].
    apply (Ha C1). by rewrite B.
Qed.

Lemma router_step_ok st o : router_ok st -> whole o = true -> router_ok (router_step st o).
Proof.
  destruct st as [r acc]. intros Hok Ho. destruct o as [id key|id|id|id|key s|i|i|key s|i]; try done; cbn [router_step].
  - destruct (fr_readers r !! id) eqn:E; [done|]. by apply register_ok.
  - unfold take_stream. destruct (fr_readers r !! id) as [rd|]; [|done]. destruct (rd_phase rd); try done. by apply unpark_ok.
  - unfold cleanup_remove. destruct (fr_readers r !! id) as [rd|] eqn:E; [|done]. destruct (rd_phase rd) eqn:Ep; try done.
    pose proof Hok as [H1 H2 H3 H4 H5]. simpl in *.
    assert (Er : set_readers (remove_entry (rd_key rd) (rd_ch rd) r) (<[id := MkReader (rd_key rd) (rd_ch rd) RdRemoved]> (fr_readers r)) =
      MkRouter (fr_pending (remove_entry (rd_key rd) (rd_ch rd) r)) (fr_parked r) (fr_next r)
        (<[id := MkReader (rd_key rd) (rd_ch rd) RdRemoved]> (fr_readers r)) (fr_timers r) (fr_deliveries r) (fr_fates r)).
    { unfold remove_entry. by case_bool_decide. }
    rewrite Er. apply remove_ok; [done| | |].
    + intros k c Hk Hne [(i & Hi)|Ht]; [|by right]. left. exists i. simpl. rewrite lookup_insert_ne; [done|]. intros <-.
      rewrite E in Hi. injection Hi as ->. done.
    + intros c s Hs. destruct (decide (c = rd_ch rd)) as [->|Hne].
      { left. exists id. eexists. simpl. rewrite lookup_insert_eq. done. }
      destruct (H4 c s Hs) as [(i & x & A & B & C)|(t & A & B & C)].
      * left. exists i, x. simpl. rewrite lookup_insert_ne; [done|]. intros <-. congruence.
      * right. exists t. simpl. split; [done|]. split; [done|]. destruct C as [?|[C1 C2]]; [by left|right]. split; [done|].
        unfold remove_entry. case_bool_decide as Ed; simpl; [|done]. rewrite lookup_delete_ne; [done|]. intros Ek. rewrite Ek in Ed. congruence.
    + unfold remove_entry. case_bool_decide as Ed; simpl; [right; apply lookup_delete_eq|by left].
  - unfold cleanup_drain. destruct (fr_readers r !! id) as [rd|] eqn:E; [|done]. destruct (rd_phase rd) eqn:Ep; try done.
    destruct (unpark_ok (rd_ch rd) Reset r acc Hok) as (Hok' & Hn & Er & _). rewrite <- Er.
    apply reader_phase_ok; [done|by rewrite Er|by rewrite Ep|]. rewrite Hn. done.
  - by apply deliver_ok.
  - unfold timer_fire. destruct (fr_timers r !! i) as [t|] eqn:E; [|done]. destruct (tm_phase t) eqn:Ep; try done.
    case_bool_decide as Ed; [|by apply timer_phase_ok; try done; rewrite Ep]. pose proof Hok as [H1 H2 H3 H4 H5]. simpl in *.
    set (ts := <[i := _]> _).
    assert (Er : set_timers (remove_entry (tm_key t) (tm_ch t) r) ts =
      MkRouter (fr_pending (remove_entry (tm_key t) (tm_ch t) r)) (fr_parked r) (fr_next r) (fr_readers r) ts (fr_deliveries r) (fr_fates r)).
    { unfold remove_entry. by rewrite bool_decide_true. }
    rewrite Er. apply remove_ok; [done| | |].
    + intros k c Hk Hne [?|Ht]; [by left|]. right. simpl. eapply elem_insert_ne; [done|done|]. intros <-. done.
    + intros c s Hs. destruct (decide (c = tm_ch t)) as [->|Hne].
      { right. exists (MkTimer (tm_key t) (tm_ch t) TmDraining). simpl. split; [|auto]. apply list_elem_of_lookup. exists i.
        apply list_lookup_insert_eq. by eapply lookup_lt_Some. }
      destruct (H4 c s Hs) as [?|(x & A & B & C)]; [by left|]. right. exists x. simpl. split; [|split; [done|]].
      * eapply elem_insert_ne; [done|done|]. by intros ->.
      * destruct C as [?|[C1 C2]]; [by left|right]. split; [done|]. unfold remove_entry. rewrite bool_decide_true by done. simpl.
        rewrite lookup_delete_ne; [done|]. intros Ek. rewrite Ek in Ed. congruence.
    + right. unfold remove_entry. rewrite bool_decide_true by done. apply lookup_delete_eq.
  - unfold timer_drain. destruct (fr_timers r !! i) as [t|] eqn:E; [|done]. destruct (tm_phase t) eqn:Ep; try done.
    destruct (unpark_ok (tm_ch t) Reset r acc Hok) as (Hok' & Hn & _ & Et & _). rewrite <- Et.
    apply timer_phase_ok; [done|by rewrite Et|by rewrite Ep|done].
Qed.

Lemma router_run_ok ops : Forall (fun o => whole o = true) ops -> router_ok (router_run ops).
Proof.
  intros H. unfold router_run. assert (H0 : router_ok (NewFetchRouter, [])) by (by split).
  revert H0. generalize (NewFetchRouter, @nil Z). induction H as [|o ops Ho _ IH]; intros st Hst; cbn [fold_left]; [done|].
  by apply IH, router_step_ok.
Qed.

(** C12: no FETCH response is lost or handed out twice.  As long as each [Deliver] runs
    undisturbed, whatever the order of registrations, deliveries, cleanups and grace
    timers, the streams accepted are exactly those parked, taken by a reader or
    reset; and a parked one has an owner that will take or reset it, so that once
    every reader has cleaned up and every timer has fired none is left. *)
Theorem fetch_responses_owned ops : Forall (fun o => whole o = true) ops ->
  let '(r, acc) := router_run ops in
  (map_to_list (fr_parked r)).*2 ++ (fr_fates r).*1 ≡ₚ acc /\
  (forall ch s, fr_parked r !! ch = Some s -> owned r ch) /\
  ((forall id rd, fr_readers r !! id = Some rd -> rd_phase rd = RdDone) -> (forall t, t ∈ fr_timers r -> tm_phase t = TmDone) ->
   (fr_fates r).*1 ≡ₚ acc).
Proof.
  intros H. pose proof (router_run_ok ops H) as [_ _ _ H4 H5]. destruct (router_run ops) as [r acc]. simpl in *.
  split; [done|]. split; [done|]. intros Hr Ht. rewrite <- H5. destruct (map_eq_dec_empty (fr_parked r)) as [-> |Hne]; [done|].
  apply map_choose in Hne as (ch & s & Hs). exfalso. destruct (H4 ch s Hs) as [(id & rd & A & B & C)|(t & A & B & C)].
  - by apply C, (Hr id).
  - rewrite (Ht t A) in C. naive_solver.
Qed.

Lemma fetch_responses_owned_witness :
  let '(r, acc) := router_run [RtDeliver (1, 2) 7; RtDeliver (1, 2) 8; RtFire 0; RtTimerDrain 0; RtRegister 5 (1, 2); RtDeliver (1, 2) 9; RtTake 5; RtRemove 5; RtDrain 5] in
  acc = [7; 9] /\ fr_fates r = [(7, Reset); (9, Taken)] /\ (fr_fates r).*1 ≡ₚ acc.
Proof.
  pose proof (fetch_responses_owned [RtDeliver (1, 2) 7; RtDeliver (1, 2) 8; RtFire 0; RtTimerDrain 0; RtRegister 5 (1, 2); RtDeliver (1, 2) 9; RtTake 5; RtRemove 5; RtDrain 5]
    ltac:(repeat constructor)) as H.
  destruct (router_run _) as [r acc] eqn:E. vm_compute in E. injection E as <- <-. destruct H as (H & _). simpl in *.
  split; [reflexivity|]. split; [reflexivity|]. exact H.
Defined.

(** *** The window inside [Deliver] *)

(** A response can leak.  When the reader cleans up between [Deliver]'s section
    under the lock and its send, the stream is accepted into a channel that nobody
    holds: no reader, no timer and no entry is left, and nothing resets it. *)
Theorem fetch_response_leaks :
  let '(r, acc) := router_run [RtRegister 5 (1, 2); RtLock (1, 2) 7; RtRemove 5; RtDrain 5; RtSend 0] in
  acc = [7] /\ fr_fates r = [] /\ (exists ch, fr_parked r !! ch = Some 7 /\ ~ owned r ch) /\ fr_pending r = ∅ /\ fr_deliveries r = [].
Proof.
  destruct (router_run _) as [r acc] eqn:E. vm_compute in E. injection E as <- <-. simpl. split_and!; try done.
  exists 0. split; [reflexivity|]. intros [(id & rd & A & B & C)|(t & A & _)]; [|by apply not_elem_of_nil in A].
  simpl in A. destruct (decide (id = 5)) as [->|Hne].
  - vm_compute in A. injection A as <-. done.
  - assert (Hl : (<[5 := MkReader (1, 2) 0 RdDone]> (∅ : gmap Z reader)) !! id = Some rd) by exact A.
    rewrite lookup_insert_ne in Hl by done. done.
Qed.
