(* ===== verification/Candidates.v ===== *)
(** * Candidates: choosing among the answers of a track's publishers

    [pkg/relay/handler_subscribe.go]: a SUBSCRIBE the relay cannot serve from an
    upstream it has is sent on to every matching source, and when all of them fail
    the subscriber gets one REQUEST_ERROR.  Here is what that answer is made of:
    which failures leave the track without a publisher for now
    ([awaitsPublisher]), which of two failures is answered ([preferCandidateErr])
    and how one becomes a REQUEST_ERROR ([upstreamRejection]). *)

From S2P Require Import Prelude Codes Varint Wire KV Filter Params Properties RangeFilter Messages Objects Cache.
From S2P Require Import FetchRanges FetchServe Ledger Stitch Tokens Session.

(** ** Retry Intervals *)

(** Durations are nanoseconds; [rnd] is what [rand.Uint64N(ms/2)] drew. *)
Definition retryIntervalAfter (d rnd : Z) : Z := d / 1000000 + rnd + 1.
Definition jitter (d rnd : Z) : Prop := 0 <= rnd < d / 1000000 / 2.

Definition excessiveLoadRetry : Z := 1000000000.
Definition goingAwayRetryAfter : Z := 1000000000.
Definition goingAwayRetry : Z := goingAwayRetryAfter / 1000000 * 3 / 2.
Definition excessiveLoadRetryMax : Z := excessiveLoadRetry / 1000000 * 3 / 2.

(** ** Kinds of failure

    [None] is Go's nil error. *)

Definition transportFailure (e : error) : bool :=
  if errors_Is e ErrGoingAway || isTrackPropertiesErr e || errors_Is e ErrNoStreamCredit then false
  else match as_rejected e with Some _ => false | None => true end.

Definition awaitsPublisher (err : option error) : bool :=
  match err with
  | None => true
  | Some e =>
      if errors_Is e ErrGoingAway || transportFailure e then true
      else match as_rejected e with
           | Some (code, _) =>
               (code =? RequestDoesNotExist) || (code =? RequestTimeout) || (code =? RequestGoingAway)
           | None => false
           end
  end.

Definition candidateRetry (err : option error) : Z :=
  match err with
  | None => 0
  | Some e =>
      if errors_Is e ErrGoingAway then goingAwayRetry
      else if errors_Is e ErrNoStreamCredit then excessiveLoadRetryMax
      else match as_rejected e with
           | None => 0
           | Some (code, retry) =>
               if (code =? RequestGoingAway) && (retry =? 0) then goingAwayRetry else retry
           end
  end.

Definition candidateErrRank (err : option error) : Z :=
  match err with
  | None => 0
  | Some e =>
      if is_unsupported e then 6
      else if isTrackPropertiesErr e then 5
      else if negb (awaitsPublisher err) then 4
      else if errors_Is e ErrGoingAway then 3
      else match as_rejected e with
           | Some (code, _) =>
               if code =? RequestGoingAway then 3 else if code =? RequestTimeout then 2 else 1
           | None => 1
           end
  end.

(** ** The answer *)

(** The upstream codes that are about the track or the publisher's load. *)
Definition passes_through (code : Z) : bool :=
  (code =? RequestDoesNotExist) || (code =? RequestTimeout) || (code =? RequestExcessiveLoad) ||
  (code =? RequestUnsupportedExtension) || (code =? RequestGoingAway).

Definition upstreamRejection (rnd : Z) (err : option error) : RequestRejectedError :=
  let rejected code retry := MkRejected code [] retry None in
  match err with
  | None => rejected RequestDoesNotExist 0
  | Some e =>
      if isTrackPropertiesErr e then rejected (TrackPropertiesRejectCode e) 0
      else if errors_Is e ErrGoingAway then rejected RequestGoingAway (retryIntervalAfter goingAwayRetryAfter rnd)
      else if errors_Is e ErrNoStreamCredit
      then rejected RequestExcessiveLoad (retryIntervalAfter excessiveLoadRetry rnd)
      else match as_rejected e with
           | None => rejected RequestDoesNotExist 0
           | Some (code, retry) =>
               if passes_through code
               then rejected code (if (code =? RequestGoingAway) && (retry =? 0)
                                   then retryIntervalAfter goingAwayRetryAfter rnd else retry)
               else rejected RequestInternalError retry
           end
  end.

(** Only the codes of the two rejections are compared, so the jitter drawn for
    them is of no account. *)
Definition preferCandidateErr (last err : option error) : option error :=
  let r := candidateErrRank err in let l := candidateErrRank last in
  if negb (r =? l) then if r >? l then err else last
  else
    let a := candidateRetry err in let b := candidateRetry last in
    if negb (a =? b) then if negb (a =? 0) && ((b =? 0) || (a <? b)) then err else last
    else
      let a := rej_Code (upstreamRejection 0 err) in let b := rej_Code (upstreamRejection 0 last) in
      if negb (a =? b) && ((b =? RequestInternalError) || (negb (a =? RequestInternalError) && (a <? b)))
      then err else last.

(** What is left of the candidates' errors, in the order they failed. *)
Definition candidates_err (errs : list error) : option error :=
  fold_left (fun last e => preferCandidateErr last (Some e)) errs None.

(** ** Preference is a choice of the least key *)

Lemma rejection_code rnd err : rej_Code (upstreamRejection rnd err) = rej_Code (upstreamRejection 0 err).
Proof. unfold upstreamRejection. by repeat case_match. Qed.

(** An error has one cause, and what a REQUEST_ERROR carries are 64-bit numbers. *)
Record cand_wf (e : error) : Prop := {
  cw_cause : isTrackPropertiesErr e = true ->
    errors_Is e ErrGoingAway = false /\ errors_Is e ErrNoStreamCredit = false /\ as_rejected e = None;
  cw_code : forall code retry, as_rejected e = Some (code, retry) -> is_u64 code /\ is_u64 retry }.

Definition key (err : option error) : Z * Z * Z :=
  let retry := candidateRetry err in
  let code := rej_Code (upstreamRejection 0 err) in
  (- candidateErrRank err, if retry =? 0 then 2 ^ 64 else retry,
   if code =? RequestInternalError then 2 ^ 64 else code).

Definition key_lt (a b : Z * Z * Z) : bool :=
  let '(a1, a2, a3) := a in let '(b1, b2, b3) := b in
  (a1 <? b1) || ((a1 =? b1) && ((a2 <? b2) || ((a2 =? b2) && (a3 <? b3)))).

Definition err_u64 (err : option error) : Prop :=
  is_u64 (candidateRetry err) /\ is_u64 (rej_Code (upstreamRejection 0 err)).

Lemma cand_u64 err : (forall e, err = Some e -> cand_wf e) -> err_u64 err.
Proof.
  intros Hwf. unfold err_u64. destruct err as [e|]; [|done]. specialize (Hwf e eq_refl).
  unfold candidateRetry, upstreamRejection, TrackPropertiesRejectCode.
  destruct (as_rejected e) as [[code retry]|] eqn:E; [destruct (cw_code _ Hwf _ _ E)|];
    split; repeat case_match; try done.
Qed.

Lemma rank_range err : 0 <= candidateErrRank err <= 6 /\ (candidateErrRank err = 0 <-> err = None).
Proof. destruct err as [e|]; simpl; repeat case_match; (split; [lia|]); split; (done || lia). Qed.

Lemma prefer_key last err : err_u64 last -> err_u64 err ->
  preferCandidateErr last err = if key_lt (key err) (key last) then err else last.
Proof.
  unfold err_u64, is_u64, MaxUint64. intros [H1 H2] [H3 H4]. unfold preferCandidateErr, key, key_lt.
  generalize dependent (rej_Code (upstreamRejection 0 err)). generalize dependent (rej_Code (upstreamRejection 0 last)).
  generalize dependent (candidateRetry err). generalize dependent (candidateRetry last).
  generalize (candidateErrRank err) (candidateErrRank last). intros.
  repeat (case_match; try lia); done.
Qed.

Lemma key_lt_trans a b c : key_lt a b = true -> key_lt b c = true -> key_lt a c = true.
Proof. destruct a as [[]], b as [[]], c as [[]]. unfold key_lt. lia. Qed.

Lemma key_total a b : key_lt a b = false -> key_lt b a = false -> a = b.
Proof. destruct a as [[]], b as [[]]. unfold key_lt. intros. repeat f_equal; lia. Qed.

Lemma prefer_wf last err : err_u64 last -> err_u64 err -> err_u64 (preferCandidateErr last err).
Proof. intros. rewrite prefer_key by done. by case_match. Qed.

(** The fold keeps an error no candidate is preferred to, and it is one of them. *)
Lemma fold_least errs : forall last, err_u64 last -> Forall cand_wf errs ->
  let res := fold_left (fun last e => preferCandidateErr last (Some e)) errs last in
  (res = last \/ exists e, e ∈ errs /\ res = Some e) /\
  key_lt (key last) (key res) = false /\ forall e, e ∈ errs -> key_lt (key (Some e)) (key res) = false.
Proof.
  induction errs as [|e errs IH]; intros last Hl Hwf; cbn [fold_left].
  - split_and!; [by left|destruct (key last) as [[]]; unfold key_lt; lia|]. intros e He. by apply elem_of_nil in He.
  - apply Forall_cons in Hwf as [He Hwf].
    assert (Hu : err_u64 (Some e)) by (apply cand_u64; naive_solver).
    pose proof (prefer_wf _ _ Hl Hu) as Hp. specialize (IH _ Hp Hwf). cbv zeta in IH.
    destruct IH as (H1 & H2 & H3).
    set (res := fold_left _ errs _) in *. clearbody res. rewrite prefer_key in H1, H2 by done.
    split_and!.
    + destruct H1 as [->|(x & Hx & ->)]; [|right; exists x; split; [by right|done]].
      case_match; [right; exists e; split; [by left|done]|by left].
    + destruct (key_lt (key (Some e)) (key last)) eqn:E; [|done].
      destruct (key_lt (key last) (key res)) eqn:E2; [|done]. by rewrite (key_lt_trans _ _ _ E E2) in H2.
    + intros x [->|Hx]%elem_of_cons; [|by apply H3].
      destruct (key_lt (key (Some e)) (key last)) eqn:E; [done|].
      destruct (key_lt (key (Some e)) (key res)) eqn:E2; [|done].
      destruct (key (Some e)) as [[]], (key last) as [[]], (key res) as [[]]. unfold key_lt in *. lia.
Qed.

Lemma none_u64 : err_u64 None.
Proof. done. Qed.

Lemma candidates_least errs : Forall cand_wf errs ->
  (forall e, e ∈ errs -> key_lt (key (Some e)) (key (candidates_err errs)) = false) /\
  (errs = [] /\ candidates_err errs = None \/ exists e, e ∈ errs /\ candidates_err errs = Some e).
Proof.
  intros Hwf. destruct (fold_least errs None none_u64 Hwf) as (H1 & _ & H3). fold (candidates_err errs) in *.
  split; [done|]. destruct H1 as [H1|H1]; [|by right]. destruct errs as [|e errs]; [by left|]. exfalso.
  specialize (H3 e ltac:(by left)). rewrite H1 in H3. destruct (rank_range (Some e)) as [Hr Hn].
  unfold key, key_lt in H3. change (candidateErrRank None) with 0 in H3.
  assert (candidateErrRank (Some e) <> 0) by (intros ?%Hn; done). lia.
Qed.

Lemma candidates_key_perm errs errs' : errs ≡ₚ errs' -> Forall cand_wf errs ->
  key (candidates_err errs) = key (candidates_err errs').
Proof.
  intros Hp Hwf. assert (Hwf' : Forall cand_wf errs') by (by rewrite <- Hp).
  destruct (candidates_least _ Hwf) as [H1 H2]. destruct (candidates_least _ Hwf') as [H1' H2'].
  destruct H2 as [[-> E]|(e & He & E)].
  { apply Permutation_nil_l in Hp as ->. done. }
  destruct H2' as [[-> _]|(e' & He' & E')]; [by apply Permutation_nil_r in Hp as ->; apply elem_of_nil in He|].
  apply key_total; rewrite ?E, ?E' in *; [apply H1'; by rewrite <- Hp|apply H1; by rewrite Hp].
Qed.

(** A failure that does not leave the track waiting for a publisher outranks all
    that do. *)
Lemma awaits_rank e : cand_wf e -> awaitsPublisher (Some e) = (candidateErrRank (Some e) <=? 3).
Proof.
  intros Hwf. unfold candidateErrRank. destruct (is_unsupported e) eqn:Eu.
  - assert (Ht : isTrackPropertiesErr e = true) by (unfold isTrackPropertiesErr; by rewrite Eu).
    destruct (cw_cause _ Hwf Ht) as (E1 & E2 & E3). unfold awaitsPublisher, transportFailure. by rewrite E1, Ht, E3.
  - destruct (isTrackPropertiesErr e) eqn:Ht.
    + destruct (cw_cause _ Hwf Ht) as (E1 & E2 & E3). unfold awaitsPublisher, transportFailure. by rewrite E1, Ht, E3.
    + destruct (awaitsPublisher (Some e)); simpl; repeat case_match; done.
Qed.

Lemma key_rank a b : key_lt (key a) (key b) = false -> candidateErrRank a <= candidateErrRank b.
Proof. unfold key, key_lt. lia. Qed.

Lemma candidates_awaits errs : Forall cand_wf errs ->
  awaitsPublisher (candidates_err errs) = forallb (fun e => awaitsPublisher (Some e)) errs.
Proof.
  intros Hwf. destruct (candidates_least _ Hwf) as [H1 [[-> ->]|(e & He & E)]]; [done|]. rewrite E in *.
  rewrite Forall_forall in Hwf. apply eq_iff_eq_true. rewrite forallb_forall, (awaits_rank e) by auto. split.
  - intros Hr x Hx%list_elem_of_In. rewrite awaits_rank by auto. specialize (key_rank _ _ (H1 x Hx)). lia.
  - intros H. rewrite <- awaits_rank by auto. by apply H, list_elem_of_In.
Qed.

Lemma rejection_retry rnd e : cand_wf e -> jitter goingAwayRetryAfter rnd -> jitter excessiveLoadRetry rnd ->
  let r := rej_RetryInterval (upstreamRejection rnd (Some e)) in
  (r = 0 <-> candidateRetry (Some e) = 0) /\ r <= candidateRetry (Some e).
Proof.
  unfold jitter. change (goingAwayRetryAfter / 1000000 / 2) with 500. change (excessiveLoadRetry / 1000000 / 2) with 500.
  intros Hwf Hj _. unfold upstreamRejection, candidateRetry, retryIntervalAfter.
  change (goingAwayRetryAfter / 1000000) with 1000. change (excessiveLoadRetry / 1000000) with 1000.
  change goingAwayRetry with 1500. change excessiveLoadRetryMax with 1500.
  destruct (isTrackPropertiesErr e) eqn:Ht; [destruct (cw_cause _ Hwf Ht) as (-> & -> & ->); simpl; lia|].
  destruct (errors_Is e ErrGoingAway); [simpl; lia|]. destruct (errors_Is e ErrNoStreamCredit); [simpl; lia|].
  destruct (as_rejected e) as [[code retry]|] eqn:E; [|simpl; lia].
  destruct (cw_code _ Hwf _ _ E) as [Hc Hr]. unfold is_u64 in *.
  unfold passes_through. repeat case_match; simpl; lia.
Qed.

Lemma key_fields a b : err_u64 a -> err_u64 b -> key a = key b ->
  candidateRetry a = candidateRetry b /\ rej_Code (upstreamRejection 0 a) = rej_Code (upstreamRejection 0 b).
Proof.
  unfold err_u64, is_u64, MaxUint64. intros [H1 H2] [H3 H4] E. unfold key in E.
  injection E as _ E1 E2. split; repeat case_match; lia.
Qed.

(** the REQUEST_ERROR a subscriber gets when every candidate failed does not
    depend on the order in which they failed: its code, whether the SUBSCRIBE is held for
    a publisher and the longest its Retry Interval can be are the same for any
    permutation.  It holds the SUBSCRIBE only if every candidate's failure does; an
    unknown Mandatory Track Property among the failures is always the one answered;
    and the Retry Interval stays within that bound, asking not to retry exactly when
    the bound does. *)
Theorem candidate_answer_order errs errs' rnd rnd' : errs ≡ₚ errs' -> Forall cand_wf errs ->
  jitter goingAwayRetryAfter rnd -> jitter excessiveLoadRetry rnd ->
  let a := candidates_err errs in let b := candidates_err errs' in
  let ra := upstreamRejection rnd a in let rb := upstreamRejection rnd' b in
  rej_Code ra = rej_Code rb /\ candidateRetry a = candidateRetry b /\
  awaitsPublisher a = awaitsPublisher b /\
  awaitsPublisher a = forallb (fun e => awaitsPublisher (Some e)) errs /\
  (existsb is_unsupported errs = true -> rej_Code ra = RequestUnsupportedExtension) /\
  (rej_RetryInterval ra = 0 <-> candidateRetry a = 0) /\ rej_RetryInterval ra <= candidateRetry a.
Proof.
  intros Hp Hwf Hj1 Hj2. cbv zeta. pose proof (candidates_key_perm _ _ Hp Hwf) as Hk.
  destruct (candidates_least _ Hwf) as [Hbest Hone].
  assert (Hwf' : Forall cand_wf errs') by (by rewrite <- Hp).
  assert (Hau : forall l, Forall cand_wf l -> forall e, candidates_err l = Some e -> cand_wf e).
  { intros l Hl e E. destruct (candidates_least _ Hl) as [_ [[_ ?]|(x & Hx & Ex)]]; [congruence|].
    rewrite E in Ex. injection Ex as ->. rewrite Forall_forall in Hl. by apply Hl. }
  destruct (key_fields _ _ (cand_u64 _ (Hau _ Hwf)) (cand_u64 _ (Hau _ Hwf')) Hk) as [Er Ec].
  assert (Haw := candidates_awaits _ Hwf).
  split_and!.
  - rewrite (rejection_code rnd), (rejection_code rnd'). done.
  - done.
  - rewrite Haw, (candidates_awaits _ Hwf'). apply eq_iff_eq_true. rewrite !forallb_forall.
    split; intros H x Hx; apply H, list_elem_of_In; apply list_elem_of_In in Hx; [by rewrite Hp|by rewrite <- Hp].
  - done.
  - intros (x & Hx & Hu)%existsb_exists. apply list_elem_of_In in Hx. specialize (key_rank _ _ (Hbest x Hx)).
    destruct Hone as [[-> _]|(e & He & E)]; [by apply elem_of_nil in Hx|]. rewrite E.
    destruct (rank_range (Some e)) as [Hr _]. unfold candidateErrRank at 1. rewrite Hu. intros H6.
    assert (Hue : is_unsupported e = true) by (unfold candidateErrRank in *; repeat case_match; simplify_eq; lia || done).
    unfold upstreamRejection, isTrackPropertiesErr, TrackPropertiesRejectCode. by rewrite Hue.
  - destruct (candidates_err errs) as [e|] eqn:E; [|done]. by apply (rejection_retry rnd e (Hau _ Hwf _ E)).
  - destruct (candidates_err errs) as [e|] eqn:E; [|done]. by apply (rejection_retry rnd e (Hau _ Hwf _ E)).
Qed.

(** A draining relay, a TIMEOUT and a failed connection: the answer is GOING_AWAY,
    to be retried. *)
Definition sample_failures : list error :=
  [ErrTransport "reset"; ErrRequestRejected RequestTimeout 0; ErrGoingAway].

Lemma candidate_answer_order_witness :
  rej_Code (upstreamRejection 7 (candidates_err sample_failures)) = RequestGoingAway /\
  rej_Code (upstreamRejection 9 (candidates_err (reverse sample_failures))) = RequestGoingAway /\
  rej_RetryInterval (upstreamRejection 7 (candidates_err sample_failures)) <= 1500.
Proof.
  destruct (candidate_answer_order sample_failures (reverse sample_failures) 7 9) as (E & Er & _ & _ & _ & _ & Hr).
  - symmetry. apply reverse_Permutation.
  - unfold sample_failures. apply Forall_cons; split; [by split|]. apply Forall_cons; split; [|by apply Forall_singleton].
    split; [done|]. intros ? ? [= <- <-]. done.
  - done.
  - done.
  - split; [vm_compute; reflexivity|]. split; [rewrite <- E; vm_compute; reflexivity|exact Hr].
Defined.

(** The Retry Interval itself can depend on the order: a draining publisher's is
    drawn, and one that asked for exactly the longest the draw can give is as
    good. *)
Example retry_interval_order_dependent :
  let exact := ErrRequestRejected RequestGoingAway goingAwayRetry in
  rej_RetryInterval (upstreamRejection 0 (candidates_err [exact; ErrGoingAway])) = 1500 /\
  rej_RetryInterval (upstreamRejection 0 (candidates_err [ErrGoingAway; exact])) = 1001.
Proof. split; vm_compute; reflexivity. Qed.
