(* ===== verification/Subscribing.v ===== *)
(** * Subscribing: finding an upstream for a SUBSCRIBE

    [pkg/relay/handler_subscribe.go]: a SUBSCRIBE is served from an upstream the
    track has, or else the relay subscribes on every matching source
    ([subscribeUpstream]); with a RENDEZVOUS_TIMEOUT it is held and the sources are
    looked at again as publishers arrive ([acquireUpstream]).

    The handler shares the track registry with every other session, so what others
    did to it is an argument at each point where the handler waits ([k_before],
    [k_during]: any registry operations).  What a session answers, the relays
    discovery resolves and the clock are arguments too.  Logging is left out. *)

From stdpp Require Import gmap.
From S2P Require Import Prelude Codes Varint Wire KV Filter Params Properties RangeFilter Messages Objects Cache.
From S2P Require Import FetchRanges FetchServe Ledger Stitch Tokens Session Subs Track Discovery TrackTable Candidates.

(** ** Holds *)

(** Sessions are named by numbers; times and durations are nanoseconds. *)
Record rendezvous : Type := MkRendezvous { rv_deadline : Z; rv_asked : gset Z }.

Definition newRendezvous (maxRendezvous now : Z) (ps : Params) : option rendezvous :=
  match p_Find ps ParamRendezvousTimeout with
  | None => None
  | Some p =>
      if (p_Varint p =? 0) || (maxRendezvous <=? 0) then None
      else
        let d := if p_Varint p <? u64 (Z.quot maxRendezvous 1000000) then MillisecondTimeout (p_Varint p)
                 else maxRendezvous in
        Some (MkRendezvous (now + d) ∅)
  end.

(** ** One look at the sources *)

Section Look.
Context {D : Type} `{!Advertiser D}.
Implicit Types (r : TrackRegistry D).

(** What happens at a candidate's turn: whether the look has ended when it comes;
    the state of the session; its answer to SUBSCRIBE and what others do to the
    registry before the turn and while the answer is awaited; whether the look has ended by then;
    the IDs allocated. *)
Record Turn : Type := MkTurn {
  k_sess : Z;
  k_ended : bool;
  k_before : TrackRegistry D -> TrackRegistry D;
  k_goaway : bool;
  k_during : TrackRegistry D -> TrackRegistry D;
  k_reply : result SubscribeOK;
  k_cut : bool;
  k_subID : Z;
  k_requestID : Z }.

Definition saveLargestLocation (key : Key) (ps : Params) r : TrackRegistry D :=
  match p_Find ps ParamLargestObject, r_tracks r !! key with
  | Some p, Some e => touch_entry key (UpdateLargest (MkLoc (p_Group p) (p_Object p)) (te_mark e)).2 (te_Cache e) r
  | _, _ => r
  end.

Definition next_object : LocationFilter := MkLF LocationFilterNextObject 0 0 0 0.

(** The parameters of the upstream SUBSCRIBE. *)
Definition upstream_params (wantForward : bool) (extra : Params) : Params :=
  [LocationFilterParam next_object] ++ (if wantForward then [] else [ForwardParam false]) ++ extra.

Definition new_upstream (t : Turn) (wantForward : bool) (ok : SubscribeOK) : UpRef :=
  let u := u_SetFilter (Some next_object) (NewUpstreamSub (k_subID t) (sok_TrackAlias ok) (k_requestID t)) in
  let u := if wantForward then u else up_apply (UForward 0) u in
  MkUpRef (MkUp (u_sub u) (u_Filter u) true true (u_done u)) (k_sess t).

(** The message sent, if one is, and what became of it. *)
Definition subscribeUpstreamOnSession (t : Turn) (fullName : FullTrackName) (extra : Params) (wantForward : bool) r
    : option Subscribe * result unit * TrackRegistry D :=
  if k_goaway t then (None, Err ErrGoingAway, r)
  else
    let subMsg := MkSubscribe (k_requestID t) (fn_Namespace fullName) (fn_Name fullName)
                    (upstream_params wantForward extra) in
    let '(entryCreated, r) := GetOrCreateNew fullName r in
    let r := k_during t r in
    match k_reply t with
    | Err e => (Some subMsg, Err e, if entryCreated then DeleteIfUnused fullName r else r)
    | Ok ok =>
        let r := (AddUpstream fullName (new_upstream t wantForward ok) (Some (sok_TrackProperties ok)) r).2 in
        (Some subMsg, Ok tt, saveLargestLocation (fn_Key fullName) (sok_Parameters ok) r)
    end.

(** What became of a candidate: already subscribed or asked; the look over before
    its turn; the requester itself, a SUBSCRIBE for the track to it pending; asked,
    and the look over before the answer; asked, and refused or failed; subscribed.
    With the message, when one was sent (none on a session with a GOAWAY). *)
Inductive turn_outcome : Type :=
| Skipped | Ended | Declined | CutShort (m : option Subscribe) | Failed (m : option Subscribe) (e : error)
| Established (m : option Subscribe).

Record Look : Type := MkLook {
  l_reg : TrackRegistry D; l_subscribed : gset Z; l_retry : list Z; l_lastErr : option error; l_trace : list (Z * turn_outcome) }.

Section Establish.
Context (self : Z) (fullName : FullTrackName) (wantForward : bool).

(** [establish] inside [subscribeUpstream]; [l_trace] records the outcomes. *)
Definition establish (extra : Params) (l : Look) (t : Turn) : Look :=
  let sess := k_sess t in
  let r := k_before t (l_reg l) in
  let done r subscribed retry err o := MkLook r subscribed retry err (l_trace l ++ [(sess, o)]) in
  if bool_decide (sess ∈ l_subscribed l) then done r (l_subscribed l) (l_retry l) (l_lastErr l) Skipped
  else if k_ended t then done r (l_subscribed l) (l_retry l) (l_lastErr l) Ended
  else
    let subscribed := {[sess]} ∪ l_subscribed l in
    let '(claimed, r) := ClaimUpstream sess (fn_Key fullName) r in
    if negb claimed && (sess =? self) then done r subscribed (l_retry l) (l_lastErr l) Declined
    else
      let '(sent, res, r) := subscribeUpstreamOnSession t fullName extra wantForward r in
      let r := if claimed then ReleaseClaim sess (fn_Key fullName) r else r in
      match res with
      | Err e =>
          if k_cut t
          then done r (subscribed ∖ {[sess]}) (l_retry l) (l_lastErr l) (CutShort sent)
          else done r subscribed (if transportFailure e then l_retry l ++ [sess] else l_retry l)
                 (preferCandidateErr (l_lastErr l) (Some e)) (Failed sent e)
      | Ok _ => done r subscribed (l_retry l) (l_lastErr l) (Established sent)
      end.

Definition serving (e : option TrackEntry) : gset Z :=
  match e with Some e => list_to_set (ur_Session <$> te_Upstream e) | None => ∅ end.

Definition is_established (x : Z * turn_outcome) : bool := match x.2 with Established _ => true | _ => false end.

(** [locals] are the turns of the publishers [MatchPublishers] lists, [remotes] and
    [draining] what [resolveUpstreams] returned.  The result is whether one was
    established and the error otherwise, the sessions a hold does not ask again,
    the registry, and the trace. *)
Definition subscribeUpstream (now : Z) (rv : option rendezvous) (extra : Params) (locals remotes : list Turn)
    (draining : bool) r : bool * option error * gset Z * TrackRegistry D * list (Z * turn_outcome) :=
  let remoteExtra := match rv with
                     | Some rv => if 0 <? rv_deadline rv - now
                                  then extra ++ [RendezvousTimeoutParam (rv_deadline rv - now)] else extra
                     | None => extra
                     end in
  let subscribed := match rv with Some rv => rv_asked rv | None => ∅ end ∪ serving (r_tracks r !! fn_Key fullName) in
  let l := fold_left (establish extra) locals (MkLook r subscribed [] None []) in
  let l := if draining then MkLook (l_reg l) (l_subscribed l) (l_retry l)
                              (preferCandidateErr (l_lastErr l) (Some ErrGoingAway)) (l_trace l) else l in
  let l := fold_left (establish remoteExtra) remotes l in
  let asked := l_subscribed l ∖ list_to_set (l_retry l) in
  if existsb is_established (l_trace l) then (true, None, asked, l_reg l, l_trace l)
  else (false, l_lastErr l, asked, l_reg l, l_trace l).
End Establish.

(** ** What a look does *)

(** The turn took place. *)
Definition tried (o : turn_outcome) : bool := match o with Skipped | Ended => false | _ => true end.
(** ... and the look did not end under it. *)
Definition kept (o : turn_outcome) : bool :=
  match o with Declined | Failed _ _ | Established _ => true | _ => false end.
(** ... and it was about the track. *)
Definition answered (o : turn_outcome) : bool :=
  match o with Declined | Established _ => true | Failed _ e => negb (transportFailure e) | _ => false end.
Definition sent_on (x : Z * turn_outcome) : option Subscribe :=
  match x.2 with CutShort m | Failed m _ | Established m => m | _ => None end.
Definition failure_of (x : Z * turn_outcome) : option error := match x.2 with Failed _ e => Some e | _ => None end.
Definition tried_on (tr : list (Z * turn_outcome)) : list Z := (List.filter (fun x => tried x.2) tr).*1.

(** The others only run registry operations. *)
Definition turn_ok (t : Turn) : Prop :=
  (forall r, rtc reg_step r (k_before t r)) /\ (forall r, rtc reg_step r (k_during t r)).

(** Once the look has ended it stays ended. *)
Fixpoint ends_once (ended : bool) (ts : list Turn) : Prop :=
  match ts with
  | [] => True
  | t :: ts => (ended = true -> k_ended t = true) /\ ends_once (k_ended t || k_cut t) ts
  end.

Lemma saveLargest_steps key ps r : rtc reg_step r (saveLargestLocation key ps r).
Proof. unfold saveLargestLocation. repeat case_match; [apply rtc_once, rs_touch|done..]. Qed.

Lemma on_session_steps t fullName extra fwd r : turn_ok t ->
  rtc reg_step r (subscribeUpstreamOnSession t fullName extra fwd r).2.
Proof.
  intros [_ Hd]. unfold subscribeUpstreamOnSession. case_match; [done|].
  pose proof (rs_create r fullName) as H1. destruct (GetOrCreateNew fullName r) as [created r1]. simpl in H1.
  eapply rtc_l; [exact H1|]. etrans; [apply Hd|]. case_match; cbn [snd].
  - etrans; [|apply saveLargest_steps]. apply rtc_once, rs_add_up.
  - case_match; [apply rtc_once, rs_unused|done].
Qed.

Lemma on_session_result t fullName extra fwd r :
  let res := (subscribeUpstreamOnSession t fullName extra fwd r).1 in
  (forall m, res.1 = Some m -> k_goaway t = false /\
     m = MkSubscribe (k_requestID t) (fn_Namespace fullName) (fn_Name fullName) (upstream_params fwd extra)) /\
  match res.2 with
  | Err e => if k_goaway t then e = ErrGoingAway else k_reply t = Err e
  | Ok _ => k_goaway t = false /\ exists ok, k_reply t = Ok ok
  end.
Proof.
  unfold subscribeUpstreamOnSession. destruct (k_goaway t); simpl; [done|].
  destruct (GetOrCreateNew fullName r). destruct (k_reply t); simpl; (split; [by intros m [= <-]|]); [|done]. eauto.
Qed.

(** Why a turn ended as it did. *)
Definition caused (self : Z) (t : Turn) (o : turn_outcome) : Prop :=
  match o with
  | Skipped | Ended => True
  | Declined => k_sess t = self
  | CutShort _ => k_cut t = true
  | Failed _ e => if k_goaway t then e = ErrGoingAway else k_reply t = Err e
  | Established _ => k_goaway t = false /\ exists ok, k_reply t = Ok ok
  end.

(** What [establish] did with the turn of [t]: the effect of each outcome. *)
Record establish_post (self : Z) (fullName : FullTrackName) (fwd : bool) (extra : Params) (l l' : Look) (t : Turn) (o : turn_outcome) : Prop := {
  ep_caused : caused self t o;
  ep_sent : forall m, sent_on (k_sess t, o) = Some m -> k_goaway t = false /\
    m = MkSubscribe (k_requestID t) (fn_Namespace fullName) (fn_Name fullName) (upstream_params fwd extra);
  ep_trace : l_trace l' = l_trace l ++ [(k_sess t, o)];
  ep_reg : turn_ok t -> rtc reg_step (l_reg l) (l_reg l');
  ep_sub : l_subscribed l' = if kept o then {[k_sess t]} ∪ l_subscribed l else l_subscribed l;
  ep_retry : l_retry l' = l_retry l ++ (if kept o && negb (answered o) then [k_sess t] else []);
  ep_err : l_lastErr l' = match failure_of (k_sess t, o) with
                          | Some e => preferCandidateErr (l_lastErr l) (Some e) | None => l_lastErr l end;
  ep_new : if bool_decide (k_sess t ∈ l_subscribed l) then o = Skipped
           else if k_ended t then o = Ended else tried o = true;
  ep_cut : tried o = true -> kept o = false -> k_cut t = true }.

Lemma establish_spec self fullName fwd extra l t :
  exists o, establish_post self fullName fwd extra l (establish self fullName fwd extra l t) t o.
Proof.
  unfold establish. cbv zeta.
  assert (Hb : turn_ok t -> rtc reg_step (l_reg l) (k_before t (l_reg l))) by (intros [H _]; apply H).
  case_bool_decide as Hin.
  { exists Skipped. split; simpl; rewrite ?app_nil_r; try done. by rewrite bool_decide_true. }
  destruct (k_ended t) eqn:Ee.
  { exists Ended. split; simpl; rewrite ?app_nil_r; try done. by rewrite bool_decide_false, Ee. }
  pose proof (rs_claim (k_before t (l_reg l)) (k_sess t) (fn_Key fullName)) as Hc.
  destruct (ClaimUpstream _ _ _) as [claimed r1]. simpl in Hc.
  assert (Hr1 : turn_ok t -> rtc reg_step (l_reg l) r1) by (intros H; etrans; [by apply Hb|by apply rtc_once]).
  destruct (negb claimed && (k_sess t =? self)) eqn:Eself.
  { apply andb_true_iff in Eself as [_ Eself%Z.eqb_eq]. exists Declined. split; simpl; rewrite ?app_nil_r; try done. by rewrite bool_decide_false, Ee. }
  pose proof (on_session_steps t fullName extra fwd r1) as Hs.
  pose proof (on_session_result t fullName extra fwd r1) as Hres.
  destruct (subscribeUpstreamOnSession _ _ _ _ _) as [[sent res] r2]. simpl in Hs, Hres. destruct Hres as [Hsent Hres].
  set (r3 := if claimed then _ else _).
  assert (Hr3 : turn_ok t -> rtc reg_step (l_reg l) r3).
  { intros H. etrans; [by apply Hr1|]. etrans; [by apply Hs|]. unfold r3.
    destruct claimed; [apply rtc_once, rs_unclaim|done]. }
  clearbody r3. destruct res as [[]|e].
  { exists (Established sent). split; simpl; auto; rewrite ?app_nil_r; try done. by rewrite bool_decide_false, Ee. }
  destruct (k_cut t) eqn:Ek.
  - exists (CutShort sent). split; simpl; auto; rewrite ?app_nil_r; try done; [set_solver|by rewrite bool_decide_false, Ee].
  - exists (Failed sent e). split; simpl; auto; try done; [|by rewrite bool_decide_false, Ee].
    rewrite negb_involutive. by destruct (transportFailure e); rewrite ?app_nil_r.
Qed.

(** The state of a look after the turns [ts], with the failures [errs], started
    with the sessions [S0] excluded. *)
Record look_ok (self : Z) (fullName : FullTrackName) (fwd : bool) (S0 : gset Z) r0 (ts : list Turn) (errs : list error) (ended : bool) (l : Look) : Prop := {
  lo_sess : (l_trace l).*1 = k_sess <$> ts;
  lo_caused : forall x, x ∈ l_trace l -> exists t, t ∈ ts /\ k_sess t = x.1 /\ caused self t x.2;
  lo_sent : forall x m, x ∈ l_trace l -> sent_on x = Some m -> exists t ex, t ∈ ts /\ k_sess t = x.1 /\ k_goaway t = false /\
    m = MkSubscribe (k_requestID t) (fn_Namespace fullName) (fn_Name fullName) (upstream_params fwd ex);
  lo_reg : rtc reg_step r0 (l_reg l);
  lo_sub : forall x, x ∈ l_subscribed l <-> x ∈ S0 \/ exists o, (x, o) ∈ l_trace l /\ kept o = true;
  lo_retry : forall x, x ∈ l_retry l <-> exists o, (x, o) ∈ l_trace l /\ kept o = true /\ answered o = false;
  lo_err : l_lastErr l = candidates_err errs;
  lo_new : forall x o, (x, o) ∈ l_trace l -> tried o = true -> x ∉ S0;
  lo_once : NoDup (tried_on (l_trace l));
  lo_skip : forall x, (x, Skipped) ∈ l_trace l -> x ∈ S0 \/ exists o, (x, o) ∈ l_trace l /\ tried o = true;
  lo_over : forall x, (x, Ended) ∈ l_trace l -> ended = true;
  lo_cut : forall x o, (x, o) ∈ l_trace l -> tried o = true -> kept o = false -> ended = true }.

Lemma tried_on_elem tr x : x ∈ tried_on tr <-> exists o, (x, o) ∈ tr /\ tried o = true.
Proof.
  unfold tried_on. rewrite list_elem_of_fmap. split.
  - intros ([y o] & -> & H). apply list_elem_of_In, filter_In in H as [H1 H2]. exists o. split; [by apply list_elem_of_In|done].
  - intros (o & H1 & H2). exists (x, o). split; [done|]. apply list_elem_of_In, filter_In. split; [by apply list_elem_of_In|done].
Qed.

Lemma kept_tried o : kept o = true -> tried o = true.
Proof. by destruct o. Qed.
Lemma answered_kept o : answered o = true -> kept o = true.
Proof. by destruct o. Qed.

Lemma prefer_snoc errs e : candidates_err (errs ++ [e]) = preferCandidateErr (candidates_err errs) (Some e).
Proof. unfold candidates_err. by rewrite fold_left_app. Qed.

Lemma trace_snoc (P : turn_outcome -> Prop) (x y : Z) (o : turn_outcome) (tr : list (Z * turn_outcome)) :
  (exists o', (x, o') ∈ tr ++ [(y, o)] /\ P o') <-> (exists o', (x, o') ∈ tr /\ P o') \/ (x = y /\ P o).
Proof.
  setoid_rewrite elem_of_app. setoid_rewrite list_elem_of_singleton. split.
  - intros (o' & [H|[= -> ->]] & HP); eauto.
  - intros [(o' & H & HP)|[-> HP]]; eauto.
Qed.

Lemma establish_ok S0 r0 ts errs ended self fullName fwd extra l t :
  look_ok self fullName fwd S0 r0 ts errs ended l -> turn_ok t -> (ended = true -> k_ended t = true) ->
  exists o, let l' := establish self fullName fwd extra l t in
    l_trace l' = l_trace l ++ [(k_sess t, o)] /\
    look_ok self fullName fwd S0 r0 (ts ++ [t]) (errs ++ option_list (failure_of (k_sess t, o))) (k_ended t || k_cut t) l'.
Proof.
  intros [H1 Hfl Hsn H2 H3 H4 H5 H6 H7 H8 H9 H10] Ht He.
  destruct (establish_spec self fullName fwd extra l t) as [o [Pf Ps P1 P2 P3 P4 P5 P6 P7]].
  exists o. cbv zeta. split; [done|]. set (l' := establish _ _ _ _ _ _) in *. clearbody l'. split.
  - by rewrite P1, !fmap_app, H1.
  - intros x. rewrite P1, elem_of_app, list_elem_of_singleton. setoid_rewrite elem_of_app.
    intros [H| ->]; [destruct (Hfl _ H) as (t' & ? & ? & ?); exists t'; auto|]. exists t. split; [right; by left|done].
  - intros x m. rewrite P1, elem_of_app, list_elem_of_singleton. setoid_rewrite elem_of_app.
    intros [H| ->] Hx; [destruct (Hsn _ _ H Hx) as (t' & ex & ? & ? & ? & ?); exists t', ex; auto|].
    destruct (Ps _ Hx). exists t, extra. split; [right; by left|done].
  - etrans; [exact H2|by apply P2].
  - intros x. rewrite P1, (trace_snoc (fun o => kept o = true)), P3.
    destruct (kept o); rewrite ?elem_of_union, ?elem_of_singleton, H3; clear; intuition done.
  - intros x. rewrite P1, (trace_snoc (fun o => kept o = true /\ answered o = false)), P4, elem_of_app, H4.
    destruct (kept o), (answered o); simpl; rewrite ?list_elem_of_singleton, ?elem_of_nil; clear; intuition done.
  - rewrite P5, H5. destruct (failure_of _); simpl; [by rewrite prefer_snoc|by rewrite app_nil_r].
  - intros x o'. rewrite P1, elem_of_app, list_elem_of_singleton. intros [H|[= -> ->]] Ho; [eauto|].
    case_bool_decide as Hin; [by subst|]. intros Hx. apply Hin, H3. by left.
  - rewrite P1. unfold tried_on. rewrite List.filter_app, fmap_app. fold (tried_on (l_trace l)).
    apply NoDup_app. split; [done|]. simpl. destruct (tried o) eqn:Eo; simpl; [|split; [intros ? _ ?%elem_of_nil; done|constructor]].
    split; [|apply NoDup_singleton]. intros x Hx ->%list_elem_of_singleton.
    apply tried_on_elem in Hx as (o' & Ho' & Ht'). case_bool_decide as Hin; [by subst|].
    destruct (k_ended t) eqn:Ek; [by subst|]. destruct (kept o') eqn:Eo'.
    + apply Hin, H3. right. eauto.
    + by specialize (He (H10 _ _ Ho' Ht' Eo')).
  - intros x. rewrite P1, (trace_snoc (fun o => tried o = true)), elem_of_app, list_elem_of_singleton.
    intros [H|[= -> <-]]; [destruct (H8 _ H); auto|]. case_bool_decide as Hin; [|by destruct (k_ended t)].
    apply H3 in Hin as [?|(o' & ? & ?)]; [by left|]. right. left. eauto using kept_tried.
  - intros x. rewrite P1, elem_of_app, list_elem_of_singleton. intros [H|[= -> <-]].
    + apply H9, He in H. by rewrite H.
    + case_bool_decide as Hin; [done|]. by destruct (k_ended t).
  - intros x o'. rewrite P1, elem_of_app, list_elem_of_singleton. intros [H|[= -> ->]] Ho Hk.
    + rewrite (He (H10 _ _ H Ho Hk)). done.
    + rewrite (P7 Ho Hk). apply orb_true_r.
Qed.
Definition ends_after (ended : bool) (ts : list Turn) : bool := fold_left (fun _ t => k_ended t || k_cut t) ts ended.

Lemma ends_once_app ts ts' : forall ended, ends_once ended (ts ++ ts') ->
  ends_once ended ts /\ ends_once (ends_after ended ts) ts'.
Proof. induction ts as [|t ts IH]; intros ended; [done|]. simpl. intros [H1 H2%IH]. tauto. Qed.

Lemma ends_after_true ts : forall ended, ends_after ended ts = true ->
  ended = true \/ exists t, t ∈ ts /\ (k_ended t || k_cut t = true).
Proof.
  induction ts as [|t ts IH]; intros ended H; [by left|]. right.
  destruct (IH _ H) as [Ht|(t' & ? & ?)]; [exists t|exists t']; (split; [|done]); [by left|by right].
Qed.

Lemma establish_all_ok S0 r0 self fullName fwd extra ts' : forall ts errs ended l,
  look_ok self fullName fwd S0 r0 ts errs ended l -> Forall turn_ok ts' -> ends_once ended ts' ->
  exists tr, let l' := fold_left (establish self fullName fwd extra) ts' l in
    l_trace l' = l_trace l ++ tr /\ length tr = length ts' /\
    look_ok self fullName fwd S0 r0 (ts ++ ts') (errs ++ omap failure_of tr) (ends_after ended ts') l'.
Proof.
  induction ts' as [|t ts' IH]; intros ts errs ended l Hl Hok Hend; simpl in *.
  - exists []. simpl. by rewrite !app_nil_r.
  - apply Forall_cons in Hok as [Ht Hok]. destruct Hend as [He Hend].
    destruct (establish_ok _ _ _ _ _ self _ _ extra _ _ Hl Ht He) as (o & E & Hl').
    destruct (IH _ _ _ _ Hl' Hok Hend) as (tr & E' & Hlen & Hl''). exists ((k_sess t, o) :: tr).
    split_and!; [by rewrite E', E, <- app_assoc|simpl; by rewrite Hlen|].
    rewrite <- !app_assoc in Hl''. simpl. destruct (failure_of _); exact Hl''.
Qed.

Lemma drained_ok self fullName fwd S0 r0 ts errs ended l : look_ok self fullName fwd S0 r0 ts errs ended l ->
  look_ok self fullName fwd S0 r0 ts (errs ++ [ErrGoingAway]) ended
    (MkLook (l_reg l) (l_subscribed l) (l_retry l) (preferCandidateErr (l_lastErr l) (Some ErrGoingAway)) (l_trace l)).
Proof. intros []. split; simpl; try done. rewrite prefer_snoc. by f_equal. Qed.

Lemma tried_unique tr x o o' : NoDup (tried_on tr) -> (x, o) ∈ tr -> (x, o') ∈ tr ->
  tried o = true -> tried o' = true -> o = o'.
Proof.
  unfold tried_on. induction tr as [|[y p] tr IH]; [intros _ H; by apply elem_of_nil in H|]. simpl.
  intros Hnd H H' Ho Ho'. destruct (tried p) eqn:Ep; simpl in Hnd.
  - apply NoDup_cons in Hnd as [Hy Hnd]. apply elem_of_cons in H as [[= -> ->]|H], H' as [H'|H'].
    + by injection H'.
    + exfalso. apply Hy. apply (tried_on_elem tr). eauto.
    + injection H' as -> ->. exfalso. apply Hy. apply (tried_on_elem tr). eauto.
    + by apply IH.
  - apply elem_of_cons in H as [[= -> ->]|H]; [congruence|]. apply elem_of_cons in H' as [[= -> ->]|H']; [congruence|].
    by apply IH.
Qed.

(** The sessions a look does not ask: those serving the track, and during a hold
    those that answered before. *)
Definition excluded (rv : option rendezvous) (fullName : FullTrackName) r : gset Z :=
  match rv with Some rv => rv_asked rv | None => ∅ end ∪ serving (r_tracks r !! fn_Key fullName).

(** What a look at the sources does.  Every candidate gets one turn, in order; no
    session is tried twice, nor one that already serves the track or, during a
    hold, one that answered before; and a candidate is passed over only for that or because the look
    ended.  A held SUBSCRIBE asks a session again only if its request failed at the
    transport or the look ended under it.  The look succeeds iff some candidate was
    subscribed, and otherwise fails with the error chosen among all the failures;
    and whatever the others did meanwhile, the registry is one that registry
    operations lead to. *)
Lemma look_exact self fullName fwd now rv extra locals remotes draining r :
  Forall turn_ok (locals ++ remotes) -> ends_once false (locals ++ remotes) ->
  let '(est, err, asked, r', tr) := subscribeUpstream self fullName fwd now rv extra locals remotes draining r in
  let S0 := excluded rv fullName r in
  tr.*1 = k_sess <$> locals ++ remotes /\
  NoDup (tried_on tr) /\ (forall x, x ∈ tried_on tr -> x ∉ S0) /\
  (forall t, t ∈ locals ++ remotes -> k_sess t ∈ S0 \/ k_sess t ∈ tried_on tr \/
     exists t', t' ∈ locals ++ remotes /\ (k_ended t' || k_cut t' = true)) /\
  (forall x, x ∈ asked <-> x ∈ S0 \/ exists o, (x, o) ∈ tr /\ answered o = true) /\
  (forall x, x ∈ tr -> exists t, t ∈ locals ++ remotes /\ k_sess t = x.1 /\ caused self t x.2) /\
  (forall x m, x ∈ tr -> sent_on x = Some m -> exists t ex, t ∈ locals ++ remotes /\ k_sess t = x.1 /\ k_goaway t = false /\
     m = MkSubscribe (k_requestID t) (fn_Namespace fullName) (fn_Name fullName) (upstream_params fwd ex)) /\
  est = existsb is_established tr /\
  err = (if est then None
         else candidates_err (omap failure_of (take (length locals) tr) ++ (if draining then [ErrGoingAway] else []) ++
                              omap failure_of (drop (length locals) tr))) /\
  rtc reg_step r r'.
Proof.
  intros Hok Hend. unfold subscribeUpstream. cbv zeta. fold (excluded rv fullName r).
  set (S0 := excluded rv fullName r). apply Forall_app in Hok as [Hok1 Hok2]. apply ends_once_app in Hend as [He1 He2].
  assert (H0 : look_ok self fullName fwd S0 r [] [] false (MkLook r S0 [] None [])).
  { split; simpl; try done; try (by intros ? ?%elem_of_nil); try (by intros ? ? ?%elem_of_nil); [| |constructor].
    - intros x. split; [by left|]. intros [?|(o & ?%elem_of_nil & _)]; done.
    - intros x. rewrite elem_of_nil. split; [done|]. by intros (o & ?%elem_of_nil & _). }
  destruct (establish_all_ok S0 r self fullName fwd extra locals _ _ _ _ H0 Hok1 He1) as (tr1 & E1 & Hlen1 & H1).
  set (l1 := fold_left _ locals _) in *. clearbody l1. simpl in E1, H1.
  set (l2 := if draining then _ else l1).
  assert (H2 : look_ok self fullName fwd S0 r locals (omap failure_of tr1 ++ if draining then [ErrGoingAway] else [])
            (ends_after false locals) l2 /\ l_trace l2 = tr1).
  { unfold l2. destruct draining; [by split; [apply drained_ok|]|]. by rewrite app_nil_r. }
  clearbody l2. destruct H2 as [H2 E2]. set (rx := match rv with Some _ => _ | None => extra end). clearbody rx.
  destruct (establish_all_ok S0 r self fullName fwd rx remotes _ _ _ _ H2 Hok2 He2) as (tr2 & E3 & Hlen2 & H3).
  set (l3 := fold_left _ remotes l2) in *. clearbody l3. rewrite E2 in E3.
  rewrite <- app_assoc in H3. destruct H3 as [L1 Lf Ls L2 L3 L4 L5 L6 L7 L8 L9 L10].
  assert (Htake : take (length locals) (l_trace l3) = tr1) by (by rewrite E3, take_app_length').
  assert (Hdrop : drop (length locals) (l_trace l3) = tr2) by (by rewrite E3, drop_app_length').
  assert (Hall : forall t, t ∈ locals ++ remotes -> k_sess t ∈ S0 \/ k_sess t ∈ tried_on (l_trace l3) \/
     exists t', t' ∈ locals ++ remotes /\ (k_ended t' || k_cut t' = true)).
  { intros t Ht. assert (Hin : k_sess t ∈ (l_trace l3).*1) by (rewrite L1; by apply list_elem_of_fmap_2).
    apply list_elem_of_fmap in Hin as ([x o] & -> & Hin). simpl. rewrite tried_on_elem.
    destruct o as [| | | | |]; try (right; left; by eauto).
    - destruct (L8 _ Hin); auto.
    - apply L9, ends_after_true in Hin as [Hb|(t' & ? & ?)]; right; right.
      + apply ends_after_true in Hb as [?|(t' & ? & ?)]; [done|]. exists t'. rewrite elem_of_app. auto.
      + exists t'. rewrite elem_of_app. auto. }
  assert (Hasked : forall x, x ∈ l_subscribed l3 ∖ list_to_set (l_retry l3) <->
      x ∈ S0 \/ exists o, (x, o) ∈ l_trace l3 /\ answered o = true).
  { intros x. rewrite elem_of_difference, elem_of_list_to_set, L3, L4. split.
    - intros [[?|(o & Ho & Hk)] Hn]; [by left|]. right. exists o. split; [done|].
      destruct (answered o) eqn:Ea; [done|]. exfalso. eauto.
    - intros [Hx|(o & Ho & Ha)].
      + split; [by left|]. intros (o & Ho & Hk & _). by apply (L6 x o Ho (kept_tried _ Hk)).
      + split; [right; eauto using answered_kept|]. intros (o' & Ho' & Hk' & Ha').
        rewrite (tried_unique _ _ _ _ L7 Ho Ho') in Ha; [congruence| |]; eauto using kept_tried, answered_kept. }
  assert (Hnew : forall x, x ∈ tried_on (l_trace l3) -> x ∉ S0).
  { intros x (o & Ho & Ht)%tried_on_elem. eauto. }
  destruct (existsb is_established (l_trace l3)) eqn:Eest;
    split_and!; try done; rewrite ?Htake, ?Hdrop; done.
Qed.
(** ** Holding for a publisher *)

Definition hasEstablishedUpstream (e : option TrackEntry) : bool :=
  match e with Some e => existsb (fun u => IsEstablished (u_sub (ur_sub u))) (te_Upstream e) | None => false end.

Definition forwards (d : DownstreamSub) : bool := forwardState (d_sub d) =? 1.
Definition anyDownstreamForwards (e : option TrackEntry) r : bool :=
  match e with
  | Some e => existsb (fun x => match r_subs r !! dr_ID x with Some s => forwards (sh_d s) | None => false end) (te_Downstream e)
  | None => false
  end.

(** One iteration of [acquireUpstream]'s loop: what others did before it, the
    publisher Seq, the clock and the sources it finds; whether a GOAWAY is on the
    requester's session and the look's context has ended when the sources have
    failed; whether a publisher arrived by the end of [look.wait], and the
    subscriber or the session is gone by then. *)
Record Round : Type := MkRound {
  o_before : TrackRegistry D -> TrackRegistry D;
  o_seq : Z; o_now : Z;
  o_locals : list Turn; o_remotes : list Turn; o_draining : bool;
  o_goingAway : bool; o_ended : bool; o_arrived : bool; o_gone : bool; o_rnd : Z }.

(** What the request gets: an upstream to be served from, found or subscribed; a
    REQUEST_ERROR; nothing, the subscriber being gone; or it is still held. *)
Inductive acquired : Type :=
| Reused (pubSeq : Z) | Acquired (pubSeq : Z) | Refused (rej : RequestRejectedError) | Gone | Held.

Section Acquire.
Context (text : error -> bytes) (self : Z) (msg : Subscribe) (sub : DownstreamSub).

Definition sub_name : FullTrackName := MkName (sub_Namespace msg) (sub_Name msg).
Definition new_group_extra : Params :=
  match p_Find (sub_Parameters msg) ParamNewGroupRequest with
  | Some p => [NewGroupRequestParam (p_Varint p)]
  | None => []
  end.
Definition no_publisher : bytes := String.list_byte_of_string "relay: no publisher for namespace".
Definition no_rendezvous : bytes := String.list_byte_of_string "relay: no publisher within RENDEZVOUS_TIMEOUT".

(** The look of a round, when the track has no established upstream. *)
Definition look_of (o : Round) (rv : option rendezvous) r :=
  subscribeUpstream self sub_name
    (forwards sub || anyDownstreamForwards (r_tracks r !! fn_Key sub_name) r) (o_now o) rv new_group_extra
    (o_locals o) (o_remotes o) (o_draining o) r.

Definition asks (rv : option rendezvous) (asked : gset Z) : option rendezvous :=
  (fun rv => MkRendezvous (rv_deadline rv) asked) <$> rv.

(** The answer when the sources failed and the SUBSCRIBE is not held. *)
Definition refusal (rnd : Z) (err : option error) : RequestRejectedError :=
  match err with
  | Some e => let rej := upstreamRejection rnd err in
      MkRejected (rej_Code rej) (String.list_byte_of_string "relay: no upstream for track: " ++ text e) (rej_RetryInterval rej)
        (rej_Redirect rej)
  | None => MkRejected RequestDoesNotExist no_publisher 0 None
  end.

Definition holds (o : Round) (rv : option rendezvous) (err : option error) : bool :=
  bool_decide (is_Some rv) && negb (o_goingAway o) && (awaitsPublisher err || o_ended o).

(** The loop over the rounds; with the hold as it leaves it and the outcomes of
    each look. *)
Fixpoint acquireUpstream (rounds : list Round) (rv : option rendezvous) r
    : acquired * option rendezvous * list (list (Z * turn_outcome)) * TrackRegistry D :=
  match rounds with
  | [] => (Held, rv, [], r)
  | o :: rounds =>
      let r := o_before o r in
      if hasEstablishedUpstream (r_tracks r !! fn_Key sub_name) then (Reused (o_seq o), rv, [], r)
      else
        let '(established, err, asked, r, tr) := look_of o rv r in
        let rv := asks rv asked in
        if (established : bool) then (Acquired (o_seq o), rv, [tr], r)
        else if holds o rv err then
          if o_arrived o then
            let '(res, rv, trs, r) := acquireUpstream rounds rv r in (res, rv, tr :: trs, r)
          else if o_gone o then (Gone, rv, [tr], r)
          else (Refused (MkRejected RequestTimeout no_rendezvous 0 None), rv, [tr], r)
        else (Refused (refusal (o_rnd o) err), rv, [tr], r)
  end.

(** *** What a hold does *)

(** The others only run registry operations, a look that has ended stays ended, and
    the failures are well formed. *)
Record round_ok (o : Round) : Prop := {
  ro_before : forall r, rtc reg_step r (o_before o r);
  ro_turns : Forall turn_ok (o_locals o ++ o_remotes o);
  ro_ends : ends_once false (o_locals o ++ o_remotes o);
  ro_ended : forall t, t ∈ o_locals o ++ o_remotes o -> k_ended t || k_cut t = true -> o_ended o = true;
  ro_errs : forall t e, t ∈ o_locals o ++ o_remotes o -> k_reply t = Err e -> cand_wf e }.

Definition asked_of (rv : option rendezvous) : gset Z := match rv with Some rv => rv_asked rv | None => ∅ end.

Definition served_by (x : Z) r : Prop := x ∈ serving (r_tracks r !! fn_Key sub_name).

(** [x] was tried in look [j], or had answered in an earlier one. *)
Definition answered_before (trs : list (list (Z * turn_outcome))) (j : nat) (x : Z) : Prop :=
  exists i tr o, (i < j)%nat /\ trs !! i = Some tr /\ (x, o) ∈ tr /\ answered o = true.

Record hold_ok (rounds : list Round) (rv : option rendezvous) r (trs : list (list (Z * turn_outcome))) (r' : TrackRegistry D)
    : Prop := {
  ho_reg : rtc reg_step r r';
  ho_once : Forall (fun tr => NoDup (tried_on tr)) trs;
  ho_asked : forall x tr, x ∈ asked_of rv -> tr ∈ trs -> x ∉ tried_on tr;
  ho_answered : is_Some rv -> forall j tr x, trs !! j = Some tr -> answered_before trs j x -> x ∉ tried_on tr;
  ho_all : forall j o tr t, rounds !! j = Some o -> trs !! j = Some tr -> o_ended o = false ->
    t ∈ o_locals o ++ o_remotes o ->
    k_sess t ∈ tried_on tr \/ k_sess t ∈ asked_of rv \/ answered_before trs j (k_sess t) \/
    exists r1, rtc reg_step r r1 /\ served_by (k_sess t) r1 }.

(** The failures of a look, in the order they came: the publishers', that of a drained
    relay, the relays'. *)
Definition failures (o : Round) (tr : list (Z * turn_outcome)) : list error :=
  omap failure_of (take (length (o_locals o)) tr) ++ (if o_draining o then [ErrGoingAway] else []) ++
  omap failure_of (drop (length (o_locals o)) tr).

Lemma look_of_exact o rv r est err asked r' tr : round_ok o -> look_of o rv r = (est, err, asked, r', tr) ->
  (forall x, x ∈ asked <-> x ∈ excluded rv sub_name r \/ exists o, (x, o) ∈ tr /\ answered o = true) /\
  NoDup (tried_on tr) /\ (forall x, x ∈ tried_on tr -> x ∉ excluded rv sub_name r) /\ rtc reg_step r r' /\
  (forall t, t ∈ o_locals o ++ o_remotes o -> o_ended o = false ->
     k_sess t ∈ excluded rv sub_name r \/ k_sess t ∈ tried_on tr) /\ est = existsb is_established tr /\
  (est = false -> err = candidates_err (failures o tr)) /\ Forall cand_wf (failures o tr) /\
  (forall x, x ∈ tr -> exists t, t ∈ o_locals o ++ o_remotes o /\ k_sess t = x.1 /\ caused self t x.2).
Proof.
  intros [R1 R2 R3 R4 R5] El. unfold look_of in El.
  pose proof (look_exact self sub_name (forwards sub || anyDownstreamForwards (r_tracks r !! fn_Key sub_name) r)
    (o_now o) rv new_group_extra (o_locals o) (o_remotes o) (o_draining o) r R2 R3) as H.
  rewrite El in H. destruct H as (_ & H2 & H3 & H4 & H5 & H6 & _ & H7 & H8 & H9).
  split_and!; [done..| |done| | |done].
  - intros t Ht Hend. destruct (H4 _ Ht) as [?|[?|(t' & Ht' & Hc)]]; [auto..|]. by rewrite (R4 _ Ht' Hc) in Hend.
  - by intros ->.
  - assert (Hel : forall x e, x ∈ tr -> failure_of x = Some e -> cand_wf e).
    { intros [x out] e Hx Hf. destruct (H6 _ Hx) as (t & Ht & _ & Hc). destruct out; try done. injection Hf as ->.
      simpl in Hc. destruct (k_goaway t); [subst; by split|by eapply R5]. }
    unfold failures. rewrite !Forall_app. split_and!.
    + apply Forall_forall. intros e (x & Hx & Hf)%list_elem_of_omap. eapply Hel; [|done]. by eapply subseteq_take.
    + destruct (o_draining o); [apply Forall_singleton; by split|constructor].
    + apply Forall_forall. intros e (x & Hx & Hf)%list_elem_of_omap. eapply Hel; [|done]. by eapply subseteq_drop.
Qed.

Lemma hold_last o rounds rv r0 r tr r' : round_ok o -> r = o_before o r0 -> (exists est err asked,
    look_of o rv r = (est, err, asked, r', tr)) -> hold_ok (o :: rounds) rv r0 [tr] r'.
Proof.
  intros Ho -> (est & err & asked & El).
  destruct (look_of_exact _ _ _ _ _ _ _ _ Ho El) as (_ & H2 & H3 & H7 & H4 & _). split.
  - etrans; [by apply Ho|exact H7].
  - by apply Forall_singleton.
  - intros x tr' Hx ->%list_elem_of_singleton Ht. apply (H3 _ Ht). unfold excluded. apply elem_of_union. by left.
  - intros _ j tr' x Hj (i & tr'' & o' & Hi & Htr & _). destruct j; [lia|]. by rewrite lookup_cons, lookup_nil in Hj.
  - intros j o' tr' t Hro Htr Hend Hin. destruct j as [|j]; [|by rewrite lookup_cons, lookup_nil in Htr].
    simplify_eq/=. destruct (H4 _ Hin Hend) as [Hx|Hx]; [|by left].
    right. unfold excluded in Hx. apply elem_of_union in Hx as [Hx|Hx]; [by left|]. right. right.
    exists (o_before o' r0). split; [by apply Ho|done].
Qed.

Lemma hold_more o rounds rv r0 r tr est err asked r1 trs r' : round_ok o -> is_Some rv -> r = o_before o r0 ->
  look_of o rv r = (est, err, asked, r1, tr) -> hold_ok rounds (asks rv asked) r1 trs r' ->
  hold_ok (o :: rounds) rv r0 (tr :: trs) r'.
Proof.
  intros Ho [v ->] -> El [A1 A2 A3 A4 A5].
  destruct (hold_last o rounds (Some v) r0 _ tr r1 Ho eq_refl ltac:(by eauto)) as [B1 B2 B3 B4 B5].
  destruct (look_of_exact _ _ _ _ _ _ _ _ Ho El) as (H5 & _). unfold excluded in H5.
  assert (Hsplit : forall j x, answered_before (tr :: trs) (S j) x ->
    (exists o', (x, o') ∈ tr /\ answered o' = true) \/ answered_before trs j x).
  { intros j x ([|i] & tr' & o' & Hi & Htr & Hx); simpl in *; simplify_eq; [eauto|]. right. exists i, tr', o'.
    split; [lia|done]. }
  split.
  - by etrans.
  - apply Forall_cons in B2 as [B2 _]. by constructor.
  - intros x tr' Hx [->|Hin]%elem_of_cons; [by apply B3; [|left]|]. apply A3; [|done]. apply H5. left.
    apply elem_of_union. by left.
  - intros _ [|j] tr' x Hj Hb; [destruct Hb as (i & ? & ? & ? & _); lia|].
    apply Hsplit in Hb as [Hx|Hx].
    + apply A3; [apply H5; by right|]. by apply (list_elem_of_lookup_2 trs j).
    + by apply (A4 ltac:(by eexists) j).
  - intros [|j] o' tr' t Hro Htr Hend Hin; simpl in *.
    { simplify_eq. destruct (B5 0%nat o' tr' t eq_refl eq_refl Hend Hin) as [?|[?|[(i & ? & ? & ? & _)|?]]]; [auto..|lia|auto]. }
    destruct (A5 _ _ _ _ Hro Htr Hend Hin) as [?|[Hx|[(i & tr'' & o'' & Hi & Hx)|(r2 & Hr & Hs)]]]; [by left| | |].
    + simpl in Hx. apply H5 in Hx as [[Hx|Hx]%elem_of_union|(o'' & Hx & Ha)]; [by right; left|..].
      * do 3 right. exists (o_before o r0). split; [by apply Ho|done].
      * do 2 right. left. exists 0%nat, tr, o''. split; [lia|done].
    + do 2 right. left. exists (S i), tr'', o''. split; [lia|done].
    + do 3 right. exists r2. split; [by etrans|done].
Qed.

Lemma acquire_holds rounds : forall rv r, Forall round_ok rounds ->
  let '(_, _, trs, r') := acquireUpstream rounds rv r in hold_ok rounds rv r trs r'.
Proof.
  induction rounds as [|o rounds IH]; intros rv r Hok; simpl.
  { split; [done|by apply Forall_nil|by intros ? ? _ ?%elem_of_nil|intros _|]; intros *; by rewrite lookup_nil. }
  apply Forall_cons in Hok as [Ho Hok]. destruct (hasEstablishedUpstream _).
  { split; [by apply Ho|by apply Forall_nil|by intros ? ? _ ?%elem_of_nil| |].
    - intros _ *. by rewrite lookup_nil.
    - intros * _. by rewrite lookup_nil. }
  destruct (look_of o rv (o_before o r)) as [[[[est err] asked] r1] tr] eqn:El.
  assert (Hlast : hold_ok (o :: rounds) rv r [tr] r1) by (eapply hold_last; eauto).
  cbv zeta. destruct est; [done|]. destruct (holds o (asks rv asked) err) eqn:Eh; [|done].
  destruct (o_arrived o); [|by destruct (o_gone o)].
  specialize (IH (asks rv asked) r1 Hok). destruct (acquireUpstream _ _ _) as [[[res rv'] trs] r2].
  eapply hold_more; eauto. unfold holds in Eh. apply andb_true_iff in Eh as [[Eh _]%andb_true_iff _].
  apply bool_decide_eq_true in Eh. by apply fmap_is_Some in Eh.
Qed.

(** a SUBSCRIBE that waits for a publisher bothers each source once.  Over all the
    looks of a hold (or the one look without): no look tries a session twice, and a
    session that answered one about the track, by SUBSCRIBE_OK or a refusal, is not tried in a later one; yet a
    look that runs to its end has tried every source it found that had not answered
    before and was not serving the track. *)
Theorem hold_asks_once rounds rv r res rv' trs r' :
  acquireUpstream rounds (Some rv) r = (res, rv', trs, r') -> Forall round_ok rounds -> rv_asked rv = ∅ ->
  Forall (fun tr => NoDup (tried_on tr)) trs /\
  (forall j tr x, trs !! j = Some tr -> answered_before trs j x -> x ∉ tried_on tr) /\
  (forall j o tr t, rounds !! j = Some o -> trs !! j = Some tr -> o_ended o = false -> t ∈ o_locals o ++ o_remotes o ->
     k_sess t ∈ tried_on tr \/ answered_before trs j (k_sess t) \/
     exists r1, rtc reg_step r r1 /\ served_by (k_sess t) r1) /\
  rtc reg_step r r'.
Proof.
  intros E Hok Hrv. pose proof (acquire_holds rounds (Some rv) r Hok) as H. rewrite E in H.
  destruct H as [H1 H2 H3 H4 H5]. split_and!; [done| |  |done].
  - apply H4. by eexists.
  - intros j o tr t Ho Htr He Hin. destruct (H5 _ _ _ _ Ho Htr He Hin) as [?|[Hx|?]]; [auto| |auto].
    simpl in Hx. rewrite Hrv in Hx. by apply elem_of_empty in Hx.
Qed.




End Acquire.
End Look.

(** ** A held SUBSCRIBE, run *)

Definition sample_turn (sess : Z) (reply : result SubscribeOK) : Turn (D := MemoryStore) :=
  MkTurn sess false id false id reply false (10 + sess) 0.
Definition sample_round (locals : list (Turn (D := MemoryStore))) (arrived : bool) : Round (D := MemoryStore) :=
  MkRound id 1 0 locals [] false false false arrived false 0.
Definition sample_msg : Subscribe := MkSubscribe 0 [[x61]] [x62] [VarintParam ParamRendezvousTimeout 1000].
Definition sample_ok : SubscribeOK := MkSubscribeOK 7 [LargestObjectParam 3 4] [].

(** Session 4 says DOES_NOT_EXIST and session 5's stream is reset; when a publisher arrives,
    session 5 is asked again and session 4 is not. *)
Definition sample_rounds : list Round :=
  [sample_round [sample_turn 4 (Err (ErrRequestRejected RequestDoesNotExist 0)); sample_turn 5 (Err (StreamReset 1))] true;
   sample_round [sample_turn 4 (Ok sample_ok); sample_turn 5 (Ok sample_ok)] false].
Definition sample_hold := acquireUpstream (fun _ => []) 9 sample_msg (NewDownstreamSub 1 2 true) sample_rounds
  (newRendezvous 5000000000 0 (sub_Parameters sample_msg)) sample_reg0.

Lemma sample_cand e : match e with ErrRequestRejected c r => is_u64 c /\ is_u64 r | StreamReset _ => True | _ => False end ->
  cand_wf e.
Proof. destruct e; try done; split; try done. by intros ? ? [= <- <-]. Qed.

Lemma sample_round_ok locals arrived :
  Forall (fun t => exists x reply, t = sample_turn x reply /\ forall e, reply = Err e -> cand_wf e) locals ->
  round_ok (sample_round locals arrived).
Proof.
  intros Hl. rewrite Forall_forall in Hl. split; simpl; rewrite ?app_nil_r.
  - done.
  - apply Forall_forall. intros t Ht. by destruct (Hl t Ht) as (x & reply & -> & _).
  - clear arrived. assert (H : forall t, t ∈ locals -> k_ended t || k_cut t = false).
    { intros t Ht. by destruct (Hl t Ht) as (x & reply & -> & _). }
    clear Hl. induction locals as [|t locals IH]; simpl; [done|]. split; [done|]. rewrite H by (by left).
    apply IH. intros. apply H. by right.
  - intros t Ht. by destruct (Hl t Ht) as (x & reply & -> & _).
  - intros t e Ht. destruct (Hl t Ht) as (x & reply & -> & H). apply H.
Qed.

Lemma sample_rounds_ok : Forall round_ok sample_rounds.
Proof.
  unfold sample_rounds. apply Forall_cons; split; [|apply Forall_singleton]; apply sample_round_ok;
    apply Forall_cons; (split; [|apply Forall_singleton]); eexists _, _; (split; [reflexivity|]); try done;
    intros e [= <-]; by apply sample_cand.
Qed.

Lemma hold_asks_once_witness :
  sample_hold.1.1.1 = Acquired 1 /\
    (tried_on <$> sample_hold.1.2) = [[4; 5]; [5]] /\ Forall (fun tr => NoDup (tried_on tr)) sample_hold.1.2.
Proof.
  split; [vm_compute; reflexivity|]. split; [vm_compute; reflexivity|].
  destruct (hold_asks_once (fun _ => []) 9 sample_msg (NewDownstreamSub 1 2 true) sample_rounds
    (MkRendezvous 1000000000 ∅) sample_reg0 sample_hold.1.1.1 sample_hold.1.1.2 sample_hold.1.2 sample_hold.2) as (H & _).
  - vm_compute. reflexivity.
  - exact sample_rounds_ok.
  - reflexivity.
  - exact H.
Defined.



