(* ===== verification/SubscribeHandler.v ===== *)
(** * SubscribeHandler: serving a SUBSCRIBE

    [pkg/relay/handler_subscribe.go]: the parameters of a SUBSCRIBE or
    REQUEST_UPDATE recorded on the downstream subscription
    ([installSubscribeParams]), what a change of Forward State or a
    NEW_GROUP_REQUEST sends to the track's upstreams ([reconcileForwardUpstream],
    [propagateNewGroupUpstream]), the answer to a REQUEST_UPDATE
    ([handleSubscribeUpdate]) and its reader ([readSubscribeUpdates], with the
    follow-up checks of [session_handler.go]), and the handler of the SUBSCRIBE
    itself up to its SUBSCRIBE_OK ([handleSubscribe]).

    The subscription and the upstreams are the shared objects of the track
    registry.  Where the handler waits, what others do to the registry is an
    argument.  A fill fetch stream, a scheduled pause, the SUBSCRIBEs to publishers that
    came meanwhile and the PUBLISHes to SUBSCRIBE_TRACKS holders are left to the
    components that serve them. *)

From stdpp Require Import gmap.
From S2P Require Import Prelude Codes Varint Wire KV Filter Params Properties RangeFilter Messages Objects Cache.
From S2P Require Import FetchRanges Ledger Stitch Tokens Session Subs Track Discovery TrackTable Candidates Broker Subscribing.

(** ** Parameters *)

(** The setters called for the parameters of one kind. *)
Definition param_set (ps : Params) (t : Z) (f : Param -> sub_param) : list sub_param :=
  match p_Find ps t with Some p => [f p] | None => [] end.

(** Each timeout separately. *)
Definition updated_timeouts (ps : Params) (t : DeliveryTimeouts) : DeliveryTimeouts :=
  MkDT (match p_Find ps ParamObjectDeliveryTimeout with Some p => MillisecondTimeout (p_Varint p) | None => dt_Object t end)
    (match p_Find ps ParamSubgroupDeliveryTimeout with Some p => MillisecondTimeout (p_Varint p) | None => dt_Subgroup t end).

(** The setters [installSubscribeParams] calls, in order, and what it returns. *)
Definition install_sets (maxFilterRanges : Z) (ps : Params) (d : DownstreamSub) : list sub_param * result unit :=
  let sets :=
    (match LocationFilterFromParam ps with Ok (Some f) => [PFilter (Some f)] | _ => [] end) ++
    param_set ps ParamForward (fun p => PForward (p_Byte p)) ++
    param_set ps ParamSubscriberPriority (fun p => PPriority (p_Byte p)) ++
    param_set ps ParamGroupOrder (fun p => PGroupOrder (p_Byte p)) ++
    param_set ps ParamIncludeProperties (fun p => PProperties (negb (p_Byte p =? 0))) ++
    [PTimeouts (updated_timeouts ps (deliveryTimeouts d))] in
  if negb (existsb (fun p => IsRangeFilterParam (p_Type p)) ps) then (sets, Ok tt)
  else
    match rs_Update (rangeFilters d) ps with
    | Err e => (sets, Err e)
    | Ok rf =>
        match rs_Validate rf maxFilterRanges with
        | Err e => (sets, Err e)
        | Ok _ => (sets ++ [PRange rf], Ok tt)
        end
    end.

Definition set_params (l : list sub_param) (d : DownstreamSub) : DownstreamSub := fold_left (fun d p => set_param p d) l d.

Definition installSubscribeParams (maxFilterRanges : Z) (ps : Params) (d : DownstreamSub) : result unit * DownstreamSub :=
  let '(sets, res) := install_sets maxFilterRanges ps d in (res, set_params sets d).

Definition includeProperties (ps : Params) : bool :=
  match p_Find ps ParamIncludeProperties with Some p => negb (p_Byte p =? 0) | None => true end.

Definition resolveGroupOrder (e : TrackEntry) (d : DownstreamSub) : DownstreamSub :=
  if d_GroupOrder d =? 0 then SetGroupOrder (DefaultGroupOrder (te_decoded e)) d else d.

(** ** Upstream round trips *)

Section Updating.
Context {D : Type} `{!Advertiser D}.
Implicit Types (r : TrackRegistry D).

(** The answer to a REQUEST_UPDATE on an upstream, and what others did to the
    registry while it was awaited. *)
Record Exchange : Type := MkExchange { x_result : result RequestOK; x_during : TrackRegistry D -> TrackRegistry D }.

Definition upstreams (key : Key) r : list UpRef := match r_tracks r !! key with Some e => te_Upstream e | None => [] end.
(** The upstream object with this ID, while the track lists it. *)
Definition up_of (key : Key) r (id : Z) : option UpRef := List.find (fun u => ur_ID u =? id) (upstreams key r).
Definition up_fwd (u : UpRef) : Z := forwardState (u_sub (ur_sub u)).
Definition up_est (u : UpRef) : bool := IsEstablished (u_sub (ur_sub u)).

(** One upstream of the copy [reconcileForwardUpstream] runs through: the
    REQUEST_UPDATE sent on it, if one is. *)
Definition reconcile_one (key : Key) (want : Z) (xs : Z -> Exchange) (st : list (Z * Params) * TrackRegistry D) (u : UpRef)
    : list (Z * Params) * TrackRegistry D :=
  let '(sent, r) := st in
  let cur := default u (up_of key r (ur_ID u)) in
  if (up_fwd cur =? want) || negb (up_est cur) || ((want =? 0) && OnDemand (ur_sub cur)) then (sent, r)
  else
    let x := xs (ur_ID u) in
    let sent := sent ++ [(ur_ID u, [ForwardParam (want =? 1)])] in
    let r := x_during x r in
    match x_result x with
    | Err _ => (sent, r)
    | Ok resp =>
        let r := on_upstream (ur_ID u) (UForward want) r in
        (sent, if want =? 1 then saveLargestLocation key (rok_Parameters resp) r else r)
    end.

(** With [ForwardMu] held throughout. *)
Definition reconcileForwardUpstream (fullName : FullTrackName) (pause : bool) (xs : Z -> Exchange) r
    : list (Z * Params) * TrackRegistry D :=
  let key := fn_Key fullName in
  match r_tracks r !! key with
  | None => ([], r)
  | Some e =>
      let go want := fold_left (reconcile_one key want xs) (te_Upstream e) ([], r) in
      if anyDownstreamForwards (Some e) r then go 1 else if pause then go 0 else ([], r)
  end.

Definition propagate_one (key : Key) (value : Z) (xs : Z -> Exchange) (st : list (Z * Params) * TrackRegistry D) (u : UpRef)
    : list (Z * Params) * TrackRegistry D :=
  let '(sent, r) := st in
  if negb (up_est (default u (up_of key r (ur_ID u)))) then (sent, r)
  else
    let x := xs (ur_ID u) in
    let sent := sent ++ [(ur_ID u, [NewGroupRequestParam value])] in
    let r := x_during x r in
    match x_result x with
    | Err _ => (sent, r)
    | Ok resp => (sent, saveLargestLocation key (rok_Parameters resp) r)
    end.

Definition propagateNewGroupUpstream (fullName : FullTrackName) (value : Z) (xs : Z -> Exchange) r
    : list (Z * Params) * TrackRegistry D :=
  let key := fn_Key fullName in
  match r_tracks r !! key with
  | None => ([], r)
  | Some e =>
      match DynamicGroups (te_decoded e) with
      | Err _ => ([], r)
      | Ok dynamic =>
          let '(go, mark) := ConsiderNewGroupRequest value dynamic (te_mark e) in
          let r := touch_entry key mark (te_Cache e) r in
          if negb go then ([], r) else fold_left (propagate_one key value xs) (te_Upstream e) ([], r)
      end
  end.

(** ** REQUEST_UPDATE *)

Section Update.
Context (text : error -> bytes) (maxFilterRanges : Z).

Definition tokenDenial (denyErr : error) : Z * bytes :=
  match as_denied denyErr with
  | Some code => (RequestErrorCode code, text denyErr)
  | None => (RequestUnauthorized, text denyErr)
  end.

(** [verified] is what [VerifyTokens] returned for the update's tokens. *)
Definition refuseUpdateTokens (verified : result unit) : option RequestError :=
  match verified with
  | Ok _ => None
  | Err e => let '(code, reason) := tokenDenial e in Some (MkRequestError code 0 reason None)
  end.

(** Run [f] on the subscription [id], which others share. *)
Definition with_sub (id : Z) (s : SharedSub) r : TrackRegistry D := set_subs r (<[id := s]> (r_subs r)).

(** [DownstreamSub.WriteMessage], with the write lock free. *)
Definition sub_WriteMessage (wok : bool) (m : Message) (s : SharedSub) : result unit * SharedSub :=
  match begin_write (WritingMsg m) s with
  | (Err e, s) => (Err e, s)
  | (Ok _, s) => end_write wok (WritingMsg m) s
  end.

(** What the handler left behind: the update refused, its answer not written, or
    accepted with this answer; then whether a pause of the upstreams is scheduled, the REQUEST_UPDATEs sent upstream,
    and the Largest Object a fill starts from when the track has an entry. *)
Inductive update_outcome : Type :=
| UpdateRefused (rej : RequestError)
| UpdateLost (e : error)
| UpdateAccepted (ok : RequestOK) (pause : bool) (forwardSent newGroupSent : list (Z * Params))
    (fill : option (Location * bool)).

(** Refused: REQUEST_ERROR, then PUBLISH_DONE / UPDATE_FAILED. *)
Definition fail_update (wok : bool) (rej : RequestError) (s : SharedSub) : SharedSub :=
  let s := (sub_WriteMessage wok (MRequestError rej) s).2 in
  sendPublishDone (TerminateWithPublishDone PublishDoneUpdateFailed (ErrorReason rej) (sh_d s)) s.

Definition update_reply (e : option TrackEntry) : RequestOK * (Location * bool) :=
  match e with
  | Some e =>
      let '(largest, has) := GetLargest (te_mark e) in
      (MkRequestOK (if has then [LargestObjectParam (Group largest) (Object largest)] else []) [], (largest, has))
  | None => (MkRequestOK [] [], (MkLoc 0 0, false))
  end.

Definition handleSubscribeUpdate (id : Z) (fullName : FullTrackName) (upd : RequestUpdate) (verified : result unit)
    (wok : bool) (xs ys : Z -> Exchange) (s : SharedSub) r : update_outcome * TrackRegistry D :=
  match refuseUpdateTokens verified with
  | Some rej => (UpdateRefused rej, with_sub id (fail_update wok rej s) r)
  | None =>
      let prevForward := forwardState (d_sub (sh_d s)) in
      let '(res, d) := installSubscribeParams maxFilterRanges (ru_Parameters upd) (sh_d s) in
      let s := on_d (fun _ => d) s in
      match res with
      | Err e =>
          let rej := MkRequestError RequestInvalidFilter 0 (text e) None in
          (UpdateRefused rej, with_sub id (fail_update wok rej s) r)
      | Ok _ =>
          let '(reply, largest) := update_reply (r_tracks r !! fn_Key fullName) in
          match sub_WriteMessage wok (MRequestOK reply) s with
          | (Err e, s) => (UpdateLost e, with_sub id s r)
          | (Ok _, s) =>
              let r := with_sub id s r in
              let nowForward := forwardState (d_sub d) in
              let '(sent, r) := if (prevForward =? 0) && (nowForward =? 1)
                                then reconcileForwardUpstream fullName false xs r else ([], r) in
              let pause := negb ((prevForward =? 0) && (nowForward =? 1)) && (prevForward =? 1) && (nowForward =? 0) in
              let '(groupSent, r) := match p_Find (ru_Parameters upd) ParamNewGroupRequest with
                                     | Some p => propagateNewGroupUpstream fullName (p_Varint p) ys r
                                     | None => ([], r)
                                     end in
              (UpdateAccepted reply pause sent groupSent
                 (match r_tracks r !! fn_Key fullName with Some _ => Some largest | None => None end), r)
          end
      end
  end.
End Update.

(** ** Reading a subscriber's request stream *)

(** The end of the reading: a FIN of the requester, or anything else. *)
Inductive read_end : Type := ReadFin | ReadStop.

(** What [readRequestStream] does with a read that failed: the reset of the read
    side, and the end. *)
Definition read_failed (e : error) (s : Session) : list req_event * read_end * Session :=
  let eof := errors_Is e EOF in
  (if eof then [] else [RqCancelRead StreamResetInternalError], if eof then ReadFin else ReadStop,
   if errors_Is e ErrMalformedMessage then close_session SessionProtocolViolation s else s).

(** ... and with a message, before [onMsg]: the GOAWAY state, or the end. *)
Definition read_message (m : Message) (seen : bool) : sess bool := fun s =>
  match m with
  | MGoaway g => goaways_Received g seen s
  | MRequestOK _ | MRequestError _ => closeProtocolViolation (Errorf "no REQUEST_UPDATE to answer") s
  | _ => (Ok seen, s)
  end.

(** The checks of a REQUEST_UPDATE: its parameters, its Request ID, the limit, its
    tokens. *)
Definition limit_or_close (l : RequestUpdateLimiter) : sess RequestUpdateLimiter := fun s =>
  match Received l with
  | (Err e, _) => fail_closing SessionTooManyRequestUpdates e s
  | (Ok _, l) => (Ok l, s)
  end.

Definition check_update (scope : Z) (upd : RequestUpdate) (l : RequestUpdateLimiter) : sess (RequestUpdateLimiter * list ResolvedToken) :=
  _ ← CheckPeerParams scope (MRequestUpdate upd);
  _ ← rid_or_close (ru_RequestID upd);
  l ← limit_or_close l;
  toks ← tokens_or_close (MRequestUpdate upd);
  mret (l, toks).

(** [onMsg] of [readSubscribeUpdates], with [scope] that of a subscriber's update: the tokens of an update to be handled, if the
    message is one. *)
Definition on_message (scope : Z) (m : Message) (l : RequestUpdateLimiter) : sess (RequestUpdateLimiter * option (RequestUpdate * list ResolvedToken)) := fun s =>
  match m with
  | MPublishStateNotify _ => fail_closing SessionProtocolViolation (Errorf "PUBLISH_STATE_NOTIFY from the requester") s
  | MRequestUpdate upd =>
      match check_update scope upd l s with
      | (Err e, s) => (Err e, s)
      | (Ok (l, toks), s) => (Ok (Responded l, Some (upd, toks)), s)
      end
  | _ => (Ok (l, None), s)
  end.

(** The loop over what arrives: the updates handed to [handleSubscribeUpdate], in
    order, what is done to the stream, and how it ends ([None]: still reading). *)
Fixpoint readSubscribeUpdates (reads : list (result Message)) (seen : bool) (l : RequestUpdateLimiter) (s : Session)
    : list (RequestUpdate * list ResolvedToken) * list req_event * option read_end * Session :=
  match reads with
  | [] => ([], [], None, s)
  | Err e :: _ => let '(ev, res, s) := read_failed e s in ([], ev, Some res, s)
  | Ok m :: reads =>
      match read_message m seen s with
      | (Err _, s) => ([], [], Some ReadStop, s)
      | (Ok seen, s) =>
          match on_message ScopeUpdateFromSubscriber m l s with
          | (Err _, s) => ([], [], Some ReadStop, s)
          | (Ok (l, upd), s) =>
              let '(upds, ev, res, s) := readSubscribeUpdates reads seen l s in
              (option_list upd ++ upds, ev, res, s)
          end
      end
  end.

(** ** The SUBSCRIBE handler *)

(** One attempt to register: the rounds of [acquireUpstream], then what others do
    before the registration. *)
Record Attempt : Type := MkAttempt { at_rounds : list (Round (D := D)); at_before : TrackRegistry D -> TrackRegistry D }.

(** A SUBSCRIBE refused, abandoned, still held, or registered: on a reused upstream or not, having looked at
    this publisher Seq, with this snapshot of Largest, and the subscription as it is then. *)
Inductive registration : Type :=
| SRefused (rej : RequestRejectedError) | SGone | SHeld
| SRegistered (reused : bool) (pubSeq : Z) (largest : Location * bool) (d : DownstreamSub).

Section Handle.
Context (text : error -> bytes) (self id : Z) (msg : Subscribe).

Definition vanished : RequestRejectedError :=
  MkRejected RequestDoesNotExist (String.list_byte_of_string "relay: upstream vanished") 0 None.

Fixpoint register_loop (attempts : list Attempt) (rv : option rendezvous) (d : DownstreamSub) r
    : registration * TrackRegistry D :=
  match attempts with
  | [] => (SRefused vanished, r)
  | a :: attempts =>
      let register reused pubSeq rv r :=
        let r := at_before a r in
        let d := match r_tracks r !! fn_Key (sub_name msg) with Some e => resolveGroupOrder e d | None => d end in
        match AddDownstreamSnapshotLargest (sub_name msg) (MkDownRef id self) r with
        | (Some (loc, has), r) =>
            (SRegistered reused pubSeq (loc, has) (SetLargestAtSubscribe loc has d),
             with_sub id (MkShared (SetLargestAtSubscribe loc has d) [] None []) r)
        | (None, r) => register_loop attempts rv d r
        end in
      let '(res, rv, _, r) := acquireUpstream text self msg d (at_rounds a) rv r in
      match res with
      | Reused pubSeq => register true pubSeq rv r
      | Acquired pubSeq => register false pubSeq rv r
      | Refused rej => (SRefused rej, r)
      | Gone => (SGone, r)
      | Held => (SHeld, r)
      end
  end.

(** [authorize]: the Authorizer's refusal.  [first], [second] are the two attempts. *)
Definition subscribe_request (maxFilterRanges maxRendezvous now alias : Z) (authorize : option RequestRejectedError)
    (first second : Attempt) r : registration * TrackRegistry D :=
  match authorize with
  | Some rej => (SRefused rej, r)
  | None =>
      let '(res, d) := installSubscribeParams maxFilterRanges (sub_Parameters msg) (NewDownstreamSub id alias true) in
      match res with
      | Err e => (SRefused (MkRejected RequestInvalidFilter (text e) 0 None), r)
      | Ok _ => register_loop [first; second] (newRendezvous maxRendezvous now (sub_Parameters msg)) d r
      end
  end.

Definition subscribe_ok (alias : Z) (d : DownstreamSub) (e : option TrackEntry) : SubscribeOK :=
  MkSubscribeOK alias
    (if HasLargestAtSubscribe d
     then [LargestObjectParam (Group (LargestAtSubscribe d)) (Object (LargestAtSubscribe d))] else [])
    (if IncludesProperties d then match e with Some e => te_Properties e | None => [] end else []).

(** [DownstreamSub.WriteSubscribeOK], with the write lock free. *)
Definition sub_WriteSubscribeOK (wok : bool) (m : SubscribeOK) (s : SharedSub) : result unit * SharedSub :=
  match begin_write (WritingOK m) s with
  | (Err e, s) => (Err e, s)
  | (Ok _, s) => end_write wok (WritingOK m) s
  end.

(** From the registration to the answer and the upstream updates it calls for. *)
Definition subscribe_answer (alias : Z) (reused wok : bool) (xs ys : Z -> Exchange) (s : SharedSub) r
    : result unit * list (Z * Params) * TrackRegistry D :=
  let key := fn_Key (sub_name msg) in
  match sub_WriteSubscribeOK wok (subscribe_ok alias (sh_d s) (r_tracks r !! key)) s with
  | (Err e, s) => (Err e, [], with_sub id s r)
  | (Ok _, s) =>
      let r := with_sub id s r in
      let '(sent, r) := match p_Find (sub_Parameters msg) ParamNewGroupRequest with
                        | Some p => if (reused : bool) then propagateNewGroupUpstream (sub_name msg) (p_Varint p) ys r else ([], r)
                        | None => ([], r)
                        end in
      let '(sent', r) := if reused && (forwardState (d_sub (sh_d s)) =? 1)
                         then reconcileForwardUpstream (sub_name msg) false xs r else ([], r) in
      (Ok tt, sent ++ sent', r)
  end.

(** The whole handler: the events on the request stream, and the outcome.
    [between] is what others do from the registration to the answer. *)
Definition handleSubscribe (maxFilterRanges maxRendezvous now alias : Z) (authorize : option RequestRejectedError) (ro : role)
    (first second : Attempt) (between : TrackRegistry D -> TrackRegistry D) (wok : bool) (xs ys : Z -> Exchange) r
    : registration * list req_event * TrackRegistry D :=
  match subscribe_request maxFilterRanges maxRendezvous now alias authorize first second r with
  | (SRefused rej, r) => (SRefused rej, (Reject wok (MSubscribe msg) ro rej).2, r)
  | (SRegistered reused pubSeq largest d, r) =>
      let r := between r in
      match r_subs r !! id with
      | Some s =>
          let '(_, _, r) := subscribe_answer alias reused wok xs ys s r in
          (SRegistered reused pubSeq largest d, match r_subs r !! id with Some s => sh_log s | None => [] end, r)
      | None => (SRegistered reused pubSeq largest d, [], r)
      end
  | (res, r) => (res, [], r)
  end.
End Handle.

(** ** The upstreams' Forward State *)

Lemma find_fmap {A} (p : A -> bool) (f : A -> A) (l : list A) : (forall x, p (f x) = p x) ->
  List.find p (f <$> l) = f <$> List.find p l.
Proof. intros H. induction l as [|x l IH]; [done|]. simpl. rewrite H. by destruct (p x). Qed.

Lemma up_apply_id o u : s_ID (u_sub (up_apply o u)) = s_ID (u_sub u).
Proof. destruct o; simpl; try done. unfold Terminate. by case_match. Qed.

Lemma up_of_on_upstream key id o r id' :
  up_of key (on_upstream id o r) id' =
  (fun u => if ur_ID u =? id then MkUpRef (up_apply o (ur_sub u)) (ur_Session u) else u) <$> up_of key r id'.
Proof.
  unfold up_of, upstreams, on_upstream. simpl. rewrite lookup_fmap. destruct (r_tracks r !! key) as [e|]; [|done]. simpl.
  rewrite find_fmap; [done|]. intros u. case_match; [|done]. unfold ur_ID. simpl. by rewrite up_apply_id.
Qed.

Lemma up_of_touch key k mark c r id : up_of key (touch_entry k mark c r) id = up_of key r id.
Proof.
  unfold touch_entry. destruct (r_tracks r !! k) as [e|] eqn:E; [|done]. unfold up_of, upstreams. simpl.
  destruct (decide (k = key)) as [->|Hne]; [by rewrite lookup_insert_eq, E|by rewrite lookup_insert_ne].
Qed.

Lemma up_of_saveLargest key k ps r id : up_of key (saveLargestLocation k ps r) id = up_of key r id.
Proof. unfold saveLargestLocation. repeat case_match; [apply up_of_touch|done..]. Qed.

Lemma up_of_ID key r id u : up_of key r id = Some u -> ur_ID u = id.
Proof. intros H. apply find_some in H as [_ H]. by apply Z.eqb_eq. Qed.

(** The upstream [id] has the Forward State wanted, or need not: it is gone, ended,
    or an on-demand one that is not paused. *)
Definition settled (key : Key) (want : Z) r (id : Z) : Prop :=
  forall u, up_of key r id = Some u -> up_est u = true -> (want = 0 -> OnDemand (ur_sub u) = false) -> up_fwd u = want.

(** Others may end or remove the upstreams [ids] but, [ForwardMu] being held, not
    change their Forward State. *)
Definition quiet (key : Key) (ids : list Z) (f : TrackRegistry D -> TrackRegistry D) : Prop :=
  forall r id u', id ∈ ids -> up_of key (f r) id = Some u' ->
    exists u, up_of key r id = Some u /\ up_fwd u' = up_fwd u /\ OnDemand (ur_sub u') = OnDemand (ur_sub u) /\
      (up_est u' = true -> up_est u = true).

Lemma settled_quiet key ids f want r id : quiet key ids f -> id ∈ ids -> settled key want r id -> settled key want (f r) id.
Proof.
  intros Hq Hid Hs u' Hu Hest Hod. destruct (Hq _ _ _ Hid Hu) as (u & Hu0 & -> & Ho & He).
  apply Hs; [done|by apply He|]. by rewrite <- Ho.
Qed.

Lemma settled_forward key want r id id' : (id = id' \/ settled key want r id) ->
  settled key want (on_upstream id' (UForward want) r) id.
Proof.
  intros Hs u. rewrite up_of_on_upstream. destruct (up_of key r id) as [v|] eqn:E; [|done]. intros [= <-].
  pose proof (up_of_ID _ _ _ _ E) as Hid. destruct (Z.eqb_spec (ur_ID v) id'); [done|].
  destruct Hs as [->|Hs]; [congruence|]. by apply Hs.
Qed.

Section Reconcile.
Context (key : Key) (want : Z) (xs : Z -> Exchange) (ids : list Z).
Context (Hquiet : forall id, id ∈ ids -> quiet key ids (x_during (xs id))).

Lemma reconcile_one_ok sent r u : ur_ID u ∈ ids -> (exists resp, x_result (xs (ur_ID u)) = Ok resp) ->
  let '(sent', r') := reconcile_one key want xs (sent, r) u in
  (forall id, id ∈ ids -> id = ur_ID u \/ settled key want r id -> settled key want r' id) /\
  (sent' = sent \/ sent' = sent ++ [(ur_ID u, [ForwardParam (want =? 1)])]).
Proof.
  intros Hin [resp Hr]. unfold reconcile_one. cbv zeta.
  destruct (_ || _ || _) eqn:E.
  - split; [|by left]. intros id Hid [->|?]; [|done]. intros v Hv Hest Hod. rewrite Hv in E. simpl in E.
    rewrite Hest in E. simpl in E. rewrite orb_false_r in E. apply orb_true_iff in E as [E|E]; [lia|].
    apply andb_true_iff in E as [E1 E2]. rewrite Hod in E2 by lia. done.
  - rewrite Hr. split; [|by right].
    assert (H : forall id, id ∈ ids -> id = ur_ID u \/ settled key want r id ->
      settled key want (on_upstream (ur_ID u) (UForward want) (x_during (xs (ur_ID u)) r)) id).
    { intros id Hid Hs. apply settled_forward. destruct Hs; [by left|right].
      eapply settled_quiet; [by apply Hquiet|done|done]. }
    intros id Hid Hs. case_match; [|by apply H]. intros v. rewrite up_of_saveLargest. by apply H.
Qed.

Lemma reconcile_all us : forall sent r, (ur_ID <$> us) ⊆ ids ->
  (forall u, u ∈ us -> exists resp, x_result (xs (ur_ID u)) = Ok resp) ->
  let '(sent', r') := fold_left (reconcile_one key want xs) us (sent, r) in
  (forall id, id ∈ ids -> id ∈ ur_ID <$> us \/ settled key want r id -> settled key want r' id) /\
  exists more, sent' = sent ++ more /\ more.*1 `sublist_of` (ur_ID <$> us) /\
    Forall (fun x => x.2 = [ForwardParam (want =? 1)]) more.
Proof.
  induction us as [|u us IH]; intros sent r Hsub Hok; cbn [fold_left].
  { split; [intros id _ [H|H]; [by apply elem_of_nil in H|done]|]. exists []. rewrite app_nil_r. split_and!; [done|simpl; constructor|by apply Forall_nil]. }
  pose proof (reconcile_one_ok sent r u) as H1.
  destruct (reconcile_one key want xs (sent, r) u) as [sent1 r1].
  destruct H1 as [Hs Hsent]; [apply Hsub; by left|apply Hok; by left|].
  specialize (IH sent1 r1). destruct (fold_left _ us _) as [sent2 r2].
  destruct IH as (Hs' & more & -> & Hsl & Hall).
  { intros x Hx. apply Hsub. by right. }
  { intros u' Hu'. apply Hok. by right. }
  split.
  - intros id Hid Hor. apply Hs'; [done|]. destruct Hor as [Hor|Hor]; [|right; apply Hs; auto].
    apply elem_of_cons in Hor as [->|Hor]; [right; apply Hs; auto|by left].
  - destruct Hsent as [-> | ->].
    + exists more. split_and!; [done|by apply sublist_cons|done].
    + exists ((ur_ID u, [ForwardParam (want =? 1)]) :: more). split_and!; [by rewrite <- app_assoc|by apply sublist_skip|by constructor].
Qed.
End Reconcile.

(** upstreams follow their subscribers.  Reconciling a track whose
    upstreams all answer asks each at most once and leaves every one still established with the Forward State
    its downstreams want: 1 when one forwards, and, when a pause is due, 0 for the
    published ones when none does; whatever others do to the track meanwhile, short
    of changing a Forward State, which the lock prevents. *)
Theorem forward_reconciled fullName pause xs r e sent r' :
  r_tracks r !! fn_Key fullName = Some e ->
  (forall u, u ∈ te_Upstream e -> quiet (fn_Key fullName) (ur_ID <$> te_Upstream e) (x_during (xs (ur_ID u))) /\
     exists resp, x_result (xs (ur_ID u)) = Ok resp) ->
  reconcileForwardUpstream fullName pause xs r = (sent, r') ->
  let want := if anyDownstreamForwards (Some e) r then 1 else 0 in
  if (want =? 1) || pause then
    (forall u u', u ∈ te_Upstream e -> up_of (fn_Key fullName) r' (ur_ID u) = Some u' -> up_est u' = true ->
       (want = 0 -> OnDemand (ur_sub u') = false) -> up_fwd u' = want) /\
    sent.*1 `sublist_of` (ur_ID <$> te_Upstream e) /\ Forall (fun x => x.2 = [ForwardParam (want =? 1)]) sent
  else sent = [] /\ r' = r.
Proof.
  intros He Hq Hrun. unfold reconcileForwardUpstream in Hrun. rewrite He in Hrun.
  assert (Hgo : forall want, fold_left (reconcile_one (fn_Key fullName) want xs) (te_Upstream e) ([], r) = (sent, r') ->
    (forall u u', u ∈ te_Upstream e -> up_of (fn_Key fullName) r' (ur_ID u) = Some u' -> up_est u' = true ->
       (want = 0 -> OnDemand (ur_sub u') = false) -> up_fwd u' = want) /\
    sent.*1 `sublist_of` (ur_ID <$> te_Upstream e) /\ Forall (fun x => x.2 = [ForwardParam (want =? 1)]) sent).
  { intros want Hrun'. pose proof (reconcile_all (fn_Key fullName) want xs (ur_ID <$> te_Upstream e)) as H.
    specialize (H ltac:(intros id (u & -> & Hu)%list_elem_of_fmap; by apply Hq) (te_Upstream e) [] r ltac:(done)
      ltac:(intros u Hu; by apply Hq)).
    rewrite Hrun' in H. destruct H as (Hs & more & -> & H2 & H3). split_and!; [|done|done].
    intros u u' Hu. assert (Hid : ur_ID u ∈ ur_ID <$> te_Upstream e) by (by apply list_elem_of_fmap_2).
    by apply Hs; [|left]. }
  cbv zeta. destruct (anyDownstreamForwards (Some e) r); simpl; [by apply Hgo|].
  destruct pause; [by apply Hgo|]. by injection Hrun.
Qed.

(** ** The answer to a REQUEST_UPDATE *)

(** What others do while an upstream answers are registry operations. *)
Definition exchanges_ok (xs : Z -> Exchange) : Prop := forall id r, rtc reg_step r (x_during (xs id) r).

Lemma reconcile_steps key want xs us : exchanges_ok xs -> forall sent r,
  rtc reg_step r (fold_left (reconcile_one key want xs) us (sent, r)).2.
Proof.
  intros Hx. induction us as [|u us IH]; intros sent r; [done|]. cbn [fold_left].
  assert (H : rtc reg_step r (reconcile_one key want xs (sent, r) u).2).
  { unfold reconcile_one. cbv zeta. destruct (_ || _ || _); [done|].
    destruct (x_result _); cbn [snd]; [|apply Hx]. etrans; [apply Hx|].
    eapply rtc_l; [apply rs_upstream|]. case_match; [apply saveLargest_steps|done]. }
  destruct (reconcile_one _ _ _ _ _) as [sent1 r1]. etrans; [exact H|apply IH].
Qed.

Lemma reconcileForward_steps fullName pause xs r : exchanges_ok xs ->
  rtc reg_step r (reconcileForwardUpstream fullName pause xs r).2.
Proof.
  intros Hx. unfold reconcileForwardUpstream. repeat case_match; try done; by apply reconcile_steps.
Qed.

Lemma propagate_steps key value xs us : exchanges_ok xs -> forall sent r,
  rtc reg_step r (fold_left (propagate_one key value xs) us (sent, r)).2.
Proof.
  intros Hx. induction us as [|u us IH]; intros sent r; [done|]. cbn [fold_left].
  assert (H : rtc reg_step r (propagate_one key value xs (sent, r) u).2).
  { unfold propagate_one. cbv zeta. destruct (negb _); [done|].
    destruct (x_result _); cbn [snd]; [|apply Hx]. etrans; [apply Hx|apply saveLargest_steps]. }
  destruct (propagate_one _ _ _ _ _) as [sent1 r1]. etrans; [exact H|apply IH].
Qed.

Lemma propagateNewGroup_steps fullName value xs r : exchanges_ok xs ->
  rtc reg_step r (propagateNewGroupUpstream fullName value xs r).2.
Proof.
  intros Hx. unfold propagateNewGroupUpstream. destruct (r_tracks r !! _) as [e|]; [|done].
  destruct (DynamicGroups _); [|done]. destruct (ConsiderNewGroupRequest _ _ _) as [go mark]. cbv zeta.
  destruct (negb go); cbn [snd]; [apply rtc_once, rs_touch|].
  eapply rtc_l; [apply rs_touch|by apply propagate_steps].
Qed.

(** Present parameters override, omitted ones are kept, and nothing else changes;
    the Range Filters only if they are valid. *)
Definition param_or {A} (ps : Params) (t : Z) (f : Param -> A) (a : A) : A :=
  match p_Find ps t with Some p => f p | None => a end.

Record installed (ps : Params) (d d' : DownstreamSub) : Prop := {
  in_filter : d_Filter d' = match LocationFilterFromParam ps with Ok (Some f) => Some f | _ => d_Filter d end;
  in_forward : forwardState (d_sub d') = param_or ps ParamForward p_Byte (forwardState (d_sub d));
  in_priority : d_Priority d' = param_or ps ParamSubscriberPriority p_Byte (d_Priority d);
  in_order : d_GroupOrder d' = param_or ps ParamGroupOrder p_Byte (d_GroupOrder d);
  in_props : IncludesProperties d' = param_or ps ParamIncludeProperties (fun p => negb (p_Byte p =? 0)) (IncludesProperties d);
  in_timeouts : deliveryTimeouts d' = updated_timeouts ps (deliveryTimeouts d);
  in_rest : d_state d' = d_state d /\ d_hasStream d' = d_hasStream d /\ okSent d' = okSent d /\
    pendingDone d' = pendingDone d /\ streamsOpen d' = streamsOpen d /\ streamsOpening d' = streamsOpening d /\
    streamsOpened d' = streamsOpened d /\ datagramsSending d' = datagramsSending d /\ d_cancelled d' = d_cancelled d /\
    LargestAtSubscribe d' = LargestAtSubscribe d /\ HasLargestAtSubscribe d' = HasLargestAtSubscribe d }.

Lemma install_spec maxRanges ps d : let '(res, d') := installSubscribeParams maxRanges ps d in
  installed ps d d' /\
  match res with
  | Ok _ => if existsb (fun p => IsRangeFilterParam (p_Type p)) ps
            then rs_Update (rangeFilters d) ps = Ok (rangeFilters d') /\ rs_Validate (rangeFilters d') maxRanges = Ok tt
            else rangeFilters d' = rangeFilters d
  | Err _ => rangeFilters d' = rangeFilters d
  end.
Proof.
  unfold installSubscribeParams, install_sets.
  set (sets := _ ++ _ ++ _ ++ _ ++ _ ++ [_]).
  assert (Hs : forall more, (exists rf, more = [PRange rf]) \/ more = [] ->
    installed ps d (set_params (sets ++ more) d) /\
    rangeFilters (set_params (sets ++ more) d) = match more with [PRange rf] => rf | _ => rangeFilters d end).
  { intros more Hm. unfold sets, set_params, param_set. clear sets. destruct d as [[] ? ? ? ? ? ? ? ? ? ? ? ? ? ? ? ?].
    destruct Hm as [[rf ->]| ->]; split; try split;
      unfold param_or, IncludesProperties, SetIncludeProperties, d_state;
      repeat match goal with |- context [p_Find ps ?t] => destruct (p_Find ps t) end;
      destruct (LocationFilterFromParam ps) as [[]|]; simpl; rewrite ?negb_involutive; done. }
  clearbody sets. pose proof (Hs [] ltac:(by right)) as [Hi Hr]. rewrite app_nil_r in Hi, Hr.
  destruct (existsb _ ps); simpl; [|done]. destruct (rs_Update _ ps) as [rf|e] eqn:Eu; [|done].
  destruct (rs_Validate rf maxRanges) as [[]|e] eqn:Ev; [|done].
  destruct (Hs [PRange rf] ltac:(left; by eexists)) as [Hi' Hr']. split; [done|]. by rewrite Hr'.
Qed.

Lemma marshal_one wok m ev : marshal_events wok m = Some ev -> ev = [RqMsg m].
Proof. unfold marshal_events. by repeat case_match; intros [= <-]. Qed.

(** A message written on a live subscription, or nothing. *)
Lemma write_live wok m s : d_state (sh_d s) = SubEstablished -> sh_writer s = None ->
  let '(res, s') := sub_WriteMessage wok m s in
  sh_d s' = sh_d s /\ sh_tasks s' = sh_tasks s /\ sh_writer s' = None /\
  match res with
  | Ok _ => sh_log s' = sh_log s ++ [RqMsg m]
  | Err _ => sh_log s' = sh_log s /\ marshal_events (wok && negb (send_closed (sh_log s))) m = None
  end.
Proof.
  intros Hst Hw. unfold sub_WriteMessage, begin_write, IsTerminated.
  rewrite bool_decide_false by (unfold d_state in Hst; by rewrite Hst). unfold end_write. simpl.
  destruct (marshal_events _ m) as [ev|] eqn:E; simpl; [|done]. by rewrite (marshal_one _ _ _ E).
Qed.

(** How a refused update ends the subscription: REQUEST_ERROR if it can be written,
    and UPDATE_FAILED as its end. *)
Record ended_by_update (rej : RequestError) (wok : bool) (d : DownstreamSub) (s s' : SharedSub) : Prop := {
  eu_state : d_state (sh_d s') = SubTerminated;
  eu_log : sh_log s' = sh_log s ++ [RqMsg (MRequestError rej)] \/
    sh_log s' = sh_log s /\ marshal_events (wok && negb (send_closed (sh_log s))) (MRequestError rej) = None;
  eu_done : let done := MkPending PublishDoneUpdateFailed (ErrorReason rej) in
    pendingDone (sh_d s') = Some done \/ sh_tasks s' = sh_tasks s ++ [TaskDone done (streamsOpened d)];
  eu_params : d_Filter (sh_d s') = d_Filter d /\ d_Priority (sh_d s') = d_Priority d /\
    forwardState (d_sub (sh_d s')) = forwardState (d_sub d) /\ deliveryTimeouts (sh_d s') = deliveryTimeouts d /\
    rangeFilters (sh_d s') = rangeFilters d }.

Lemma fail_update_ends wok rej s : d_state (sh_d s) = SubEstablished -> sh_writer s = None -> d_hasStream (sh_d s) = true ->
  ended_by_update rej wok (sh_d s) s (fail_update wok rej s).
Proof.
  intros Hst Hw Hstr. unfold fail_update. pose proof (write_live wok (MRequestError rej) s Hst Hw) as H.
  destruct (sub_WriteMessage _ _ s) as [res s1]. cbn [snd]. destruct H as (Ed & Et & _ & Hres).
  unfold TerminateWithPublishDone. rewrite Ed, bool_decide_false by (by rewrite Hst).
  unfold takeReadyDoneLocked. simpl. destruct (_ || _ || _); simpl; rewrite ?Hstr;
    (split; simpl; [done|by destruct res; [left|right]|rewrite ?Et; by auto|done]).
Qed.

(** a REQUEST_UPDATE gets one answer.  On a live subscription: one whose tokens are
    denied, or whose Range Filters are invalid, gets REQUEST_ERROR (if it can be
    written at all) and ends the subscription with UPDATE_FAILED, a denied one
    without any parameter applied; any other gets REQUEST_OK with the track's Largest
    Object, and then the subscription has exactly the parameters present, over the ones it had. What follows the answer,
    with whatever others do, are registry operations. *)
Theorem update_answered text maxRanges id fullName upd verified wok xs ys s r :
  d_state (sh_d s) = SubEstablished -> sh_writer s = None -> d_hasStream (sh_d s) = true ->
  exchanges_ok xs -> exchanges_ok ys ->
  let '(o, r') := handleSubscribeUpdate text maxRanges id fullName upd verified wok xs ys s r in
  match o with
  | UpdateRefused rej => exists s', r' = with_sub id s' r /\
      match verified with
      | Err e => ErrorCode rej = (tokenDenial text e).1 /\ ended_by_update rej wok (sh_d s) s s'
      | Ok _ => ErrorCode rej = RequestInvalidFilter /\
          ended_by_update rej wok (installSubscribeParams maxRanges (ru_Parameters upd) (sh_d s)).2 s s' /\
          rangeFilters (sh_d s') = rangeFilters (sh_d s)
      end
  | UpdateLost e => verified = Ok tt /\ exists s' m, r' = with_sub id s' r /\ sh_log s' = sh_log s /\
      marshal_events (wok && negb (send_closed (sh_log s))) m = None
  | UpdateAccepted ok pause _ _ fill => verified = Ok tt /\ exists s',
      sh_log s' = sh_log s ++ [RqMsg (MRequestOK ok)] /\ installed (ru_Parameters upd) (sh_d s) (sh_d s') /\
      ok = (update_reply (r_tracks r !! fn_Key fullName)).1 /\
      pause = (forwardState (d_sub (sh_d s)) =? 1) && (forwardState (d_sub (sh_d s')) =? 0) /\
      rtc reg_step (with_sub id s' r) r'
  end.
Proof.
  intros Hst Hw Hstr Hx Hy. unfold handleSubscribeUpdate, refuseUpdateTokens. destruct verified as [[]|e].
  2: { destruct (tokenDenial text e) as [code reason] eqn:Et. cbv zeta iota. eexists. split; [done|].
       split; [done|by apply fail_update_ends]. }
  pose proof (install_spec maxRanges (ru_Parameters upd) (sh_d s)) as Hi.
  destruct (installSubscribeParams maxRanges _ _) as [res d]. destruct Hi as [Hi Hrf].
  assert (Hst' : d_state d = SubEstablished) by (by rewrite (proj1 (in_rest _ _ _ Hi))).
  destruct res as [[]|e].
  2: { cbv zeta iota. eexists. split; [done|]. split; [done|].
       assert (He := fail_update_ends wok (MkRequestError RequestInvalidFilter 0 (text e) None) (on_d (fun _ => d) s)
         Hst' Hw ltac:(simpl; by rewrite (proj1 (proj2 (in_rest _ _ _ Hi))))).
       split; [destruct He; split; done|]. rewrite <- Hrf. apply He. }
  destruct (update_reply _) as [reply largest]. cbv zeta.
  pose proof (write_live wok (MRequestOK reply) (on_d (fun _ => d) s) Hst' Hw) as Hwr.
  destruct (sub_WriteMessage _ _ _) as [[[]|e] s1]; destruct Hwr as (Ed & _ & _ & Hl).
  2: { split; [done|]. exists s1, (MRequestOK reply). split; [done|]. exact Hl. }
  destruct (if (_ =? 0) && _ then _ else _) as [sent r1] eqn:E1.
  assert (H1 : rtc reg_step (with_sub id s1 r) r1).
  { destruct (_ && _); [|by simplify_eq].
    pose proof (reconcileForward_steps fullName false xs (with_sub id s1 r) Hx) as H1. by rewrite E1 in H1. }
  destruct (match p_Find _ ParamNewGroupRequest with Some _ => _ | None => _ end) as [gs r2] eqn:E2.
  assert (H2 : rtc reg_step r1 r2).
  { destruct (p_Find _ ParamNewGroupRequest) as [p|]; [|by simplify_eq].
    pose proof (propagateNewGroup_steps fullName (p_Varint p) ys r1 Hy) as H2. by rewrite E2 in H2. }
  split; [done|]. exists s1. simpl in Hl, Ed. rewrite Ed. split_and!; [done|done|done|lia|by etrans].
Qed.

(** ** Reading to the end *)

Lemma closed_done code c : cs_done (Close code c) = true.
Proof. unfold Close, terminate. by destruct (cs_done c) eqn:E. Qed.

Lemma limit_or_close_closes l s : let '(res, s') := limit_or_close l s in
  match res with Ok _ => s_close s' = s_close s | Err _ => cs_done (s_close s') = true end.
Proof. unfold limit_or_close. destruct (Received l) as [[]]; [done|apply closed_done]. Qed.

(** A check that fails has closed the session, one that passes has left it alone. *)
Definition gate {A} (m : sess A) : Prop := forall s, cs_done (s_close s) = false ->
  let '(res, s') := m s in match res with Ok _ => s_close s' = s_close s | Err _ => cs_done (s_close s') = true end.

Lemma closes_gate {A} (m : sess A) : closes m -> leaves_open m -> gate m.
Proof.
  intros Hc Ho s Hs. destruct (m s) as [[a|e] s'] eqn:E; [by eapply Ho|].
  destruct (Hc _ _ _ Hs E) as (code & -> & _). apply closed_done.
Qed.

Lemma gate_bind {A B} (m : sess A) (f : A -> sess B) : gate m -> (forall a, gate (f a)) -> gate (m ≫= f).
Proof.
  intros Hm Hf s Hs. unfold mbind, sess_bind. specialize (Hm s Hs). destruct (m s) as [[a|e] s1]; [|done].
  specialize (Hf a s1). rewrite Hm in Hf. specialize (Hf Hs). by destruct (f a s1) as [[] s2].
Qed.

Lemma gate_ret {A} (a : A) : gate (mret a).
Proof. by intros s Hs. Qed.

Lemma check_update_gate scope upd l : gate (check_update scope upd l).
Proof.
  unfold check_update. destruct (CheckPeerParams_closes scope (MRequestUpdate upd)).
  destruct (tokens_or_close_closes (MRequestUpdate upd)).
  apply gate_bind; [by apply closes_gate|intros _].
  destruct (check_rid_closes (MRequestUpdate upd)) as [Hr1 Hr2]. apply gate_bind; [by apply closes_gate|intros _].
  apply gate_bind; [intros s _; apply limit_or_close_closes|intros l'].
  apply gate_bind; [by apply closes_gate|intros toks; apply gate_ret].
Qed.

Lemma read_message_gate m seen : gate (read_message m seen).
Proof.
  intros s Hs. destruct m; simpl; try done; try apply closed_done. unfold goaways_Received.
  destruct seen; [apply closed_done|]. destruct (checkGoawayURI _ _); [done|apply closed_done].
Qed.

Lemma on_message_gate scope m l : gate (on_message scope m l).
Proof.
  intros s Hs. destruct m; simpl; try done; try apply closed_done.
  pose proof (check_update_gate scope m l s Hs) as H. by destruct (check_update scope m l s) as [[[]|] s'].
Qed.

Definition update_of (x : result Message) : option RequestUpdate :=
  match x with Ok (MRequestUpdate upd) => Some upd | _ => None end.

Lemma on_message_update scope m l s l' upd s' : on_message scope m l s = (Ok (l', upd), s') -> fst <$> upd = update_of (Ok m).
Proof.
  destruct m; simpl; try (by intros [= _ <- _]); try done. destruct (check_update scope _ l s) as [[[]|] s1]; [|done].
  by intros [= _ <- _].
Qed.

(** A subscriber's stream is read until it ends or the session does.  Every
    REQUEST_UPDATE read is handled, in order, once its parameters, its Request ID,
    the update limit and its tokens pass; the reading stops only at a failed read or by closing the
    session, and a FIN is told from anything else. *)
Theorem updates_read reads : forall seen l s upds ev res s', cs_done (s_close s) = false ->
  readSubscribeUpdates reads seen l s = (upds, ev, res, s') ->
  upds.*1 `prefix_of` omap update_of reads /\
  match res with
  | None => upds.*1 = omap update_of reads /\ ev = [] /\ s_close s' = s_close s
  | Some ReadFin => exists e, Err e ∈ reads /\ errors_Is e EOF = true /\ ev = []
  | Some ReadStop => cs_done (s_close s') = true \/
      exists e, Err e ∈ reads /\ errors_Is e EOF = false /\ ev = [RqCancelRead StreamResetInternalError]
  end.
Proof.
  induction reads as [|[m|e] reads IH]; intros seen l s upds ev res s' Hs; simpl.
  - intros [= <- <- <- <-]. done.
  - pose proof (read_message_gate m seen s Hs) as H1. destruct (read_message m seen s) as [[seen1|e1] s1].
    2: { intros [= <- <- <- <-]. split; [apply prefix_nil|]. by left. }
    rewrite <- H1 in Hs. pose proof (on_message_gate ScopeUpdateFromSubscriber m l s1 Hs) as H2.
    destruct (on_message ScopeUpdateFromSubscriber m l s1) as [[[l1 upd]|e2] s2] eqn:Em.
    2: { intros [= <- <- <- <-]. split; [apply prefix_nil|]. by left. }
    rewrite <- H2 in Hs. destruct (readSubscribeUpdates reads seen1 l1 s2) as [[[upds' ev'] res'] s3] eqn:Er.
    intros [= <- <- <- <-]. destruct (IH _ _ _ _ _ _ _ Hs Er) as [Hp Hres].
    pose proof (on_message_update _ _ _ _ _ _ _ Em) as Hu. cbn [update_of] in Hu.
    assert (E : (option_list upd ++ upds').*1 = option_list (update_of (Ok m)) ++ upds'.*1).
    { rewrite fmap_app. f_equal. cbn [update_of]. rewrite <- Hu. by destruct upd as [[]|]. }
    assert (Eo : omap update_of (Ok m :: reads) = option_list (update_of (Ok m)) ++ omap update_of reads).
    { by destruct m. }
    rewrite E. change (list_omap _ _ update_of (Ok m :: reads)) with (omap update_of (Ok m :: reads)) in *. simpl in Eo.
    split; [rewrite Eo; by apply prefix_app|]. destruct res' as [[]|].
    + destruct Hres as (e & He & ?). exists e. split; [by right|done].
    + destruct Hres as [?|(e & He & ?)]; [by left|right]. exists e. split; [by right|done].
    + destruct Hres as (-> & -> & ->). split_and!; [done|done|congruence].
  - unfold read_failed. intros [= <- <- <- <-]. split; [apply prefix_nil|].
    destruct (errors_Is e EOF) eqn:Ee; [exists e|right; exists e]; (split; [by left|done]).
Qed.

(** ** Registering a SUBSCRIBE *)

Section Register.
Context `{!AdvertiserLaws D}.











End Register.
End Updating.

(** ** A subscription, run *)

(** A published track whose upstream is paused, with one subscriber, 5. *)
Definition paused_up : UpRef := MkUpRef (up_apply (UForward 0) (NewUpstreamSub 1 7 0)) 3.
Definition live_sub (fwd : Z) : SharedSub := MkShared (set_param (PForward fwd) (NewDownstreamSub 5 9 true)) [] None [].
Definition sample_track (fwd : Z) : TrackRegistry MemoryStore :=
  let r := (AddUpstream sample_name paused_up None sample_reg0).2 in
  with_sub 5 (live_sub fwd) (AddDownstreamSnapshotLargest sample_name (MkDownRef 5 8) r).2.
Definition sample_exchange (_ : Z) : Exchange (D := MemoryStore) := MkExchange (Ok (MkRequestOK [LargestObjectParam 3 4] [])) id.

Lemma id_quiet key ids : quiet (D := MemoryStore) key ids id.
Proof. intros r i u' _ H. exists u'. by split_and!. Qed.

Definition sample_reconciled := reconcileForwardUpstream sample_name false sample_exchange (sample_track 1).

Lemma sample_track_entry : exists e, r_tracks (sample_track 1) !! fn_Key sample_name = Some e /\ te_Upstream e = [paused_up] /\
  anyDownstreamForwards (Some e) (sample_track 1) = true.
Proof. eexists. split; [vm_compute; reflexivity|]. split; vm_compute; reflexivity. Qed.

Lemma forward_reconciled_witness :
  exists u', up_of (fn_Key sample_name) sample_reconciled.2 1 = Some u' /\ up_fwd u' = 1 /\
    sample_reconciled.1 = [(1, [ForwardParam true])].
Proof.
  destruct sample_track_entry as (e & He & Hu & Hf).
  pose proof (forward_reconciled sample_name false sample_exchange (sample_track 1) e sample_reconciled.1 sample_reconciled.2 He
    (fun u _ => conj (id_quiet _ _) (ex_intro _ _ eq_refl)) (surjective_pairing _)) as H.
  cbv zeta in H. rewrite Hf in H. destruct H as (H & _).
  assert (E : exists u', up_of (fn_Key sample_name) sample_reconciled.2 1 = Some u' /\ up_est u' = true)
    by (eexists; split; vm_compute; reflexivity).
  destruct E as (u' & E & Eest). exists u'. split; [exact E|]. split; [|vm_compute; reflexivity].
  apply (H paused_up); [rewrite Hu; by left|exact E|exact Eest|done].
Defined.

(** Subscriber 5 turns forwarding on. *)
Definition sample_update : RequestUpdate := MkRequestUpdate 4 [ByteParam ParamForward 1].
Definition sample_updated := handleSubscribeUpdate (D := MemoryStore) (fun _ => []) 0 5 sample_name sample_update (Ok tt) true
  sample_exchange sample_exchange (live_sub 0) (sample_track 0).

Lemma update_answered_witness :
  exists ok, sample_updated.1 = UpdateAccepted ok false [(1, [ForwardParam true])] [] (Some (MkLoc 0 0, false)) /\
    exists s', sh_log s' = [RqMsg (MRequestOK ok)] /\ rtc reg_step (with_sub 5 s' (sample_track 0)) sample_updated.2.
Proof.
  assert (E : sample_updated.1 = UpdateAccepted (MkRequestOK [] []) false [(1, [ForwardParam true])] [] (Some (MkLoc 0 0, false)))
    by (vm_compute; reflexivity).
  exists (MkRequestOK [] []). split; [exact E|].
  pose proof (update_answered (D := MemoryStore) (fun _ => []) 0 5 sample_name sample_update (Ok tt) true
    sample_exchange sample_exchange (live_sub 0) (sample_track 0) eq_refl eq_refl eq_refl (fun _ r => rtc_refl _ r)
    (fun _ r => rtc_refl _ r)) as H.
  fold sample_updated in H. destruct sample_updated as [o r']. cbn [fst snd] in *. subst o.
  destruct H as (_ & s' & H1 & _ & _ & _ & H2). exists s'. split; [exact H1|exact H2].
Defined.

Lemma updates_read_witness :
  let s := new_session roleServer ∅ 0 0 in
  let run := readSubscribeUpdates [Ok (MRequestUpdate sample_update); Ok (MPublishDone (MkPublishDone 0 0 [])); Err EOF] false
               (MkLimiter 2 0) s in
  run.1.2 = Some ReadFin /\ run.1.1.1 = [(sample_update, [])] /\ exists e, Err e ∈ [Err EOF : result Message] /\ errors_Is e EOF = true.
Proof.
  cbv zeta. split; [vm_compute; reflexivity|]. split; [vm_compute; reflexivity|].
  destruct (updates_read [Err EOF : result Message] false (MkLimiter 2 0) (new_session roleServer ∅ 0 0)
    [] [] (Some ReadFin) (new_session roleServer ∅ 0 0) eq_refl eq_refl) as (_ & e & H1 & H2 & _).
  exists e. split; [exact H1|exact H2].
Defined.

(** *** A SUBSCRIBE registered *)

Definition sample_attempt : Attempt (D := MemoryStore) := MkAttempt [sample_round [sample_turn 4 (Ok sample_ok)] false] id.





(** An upstream that ends before the registration.  Without a RENDEZVOUS_TIMEOUT the
    second attempt subscribes on the publisher again; with one it does not, since
    the hold counts the publisher as asked, and the SUBSCRIBE times out. *)
Definition vanishing_attempt : Attempt (D := MemoryStore) :=
  MkAttempt (at_rounds sample_attempt) (fun r => (RemoveUpstream sample_name 14 r).2).
Definition sample_nohold : Subscribe := MkSubscribe 0 [[x61]] [x62] [].

Example held_subscribe_not_retried :
  let run msg := (subscribe_request (fun _ => []) 9 5 msg 0 5000000000 0 2 None vanishing_attempt sample_attempt sample_reg0).1 in
  match run sample_nohold with SRegistered false _ _ _ => True | _ => False end /\
  match run sample_msg with SRefused rej => rej_Code rej = RequestTimeout | _ => False end.
Proof. split; vm_compute; done. Qed.
