(* ===== verification/FetchHandler.v ===== *)
(** * FetchHandler: serving a FETCH and the fill of a subscription

    [pkg/relay/handler_fetch.go] ([handleFetch], [readFetchUpdates]),
    [handler_fill.go] and the fetch streams of [session_handler.go]
    ([serveFetchObjects], [streamFetchRange]): a FETCH is refused or answered with
    FETCH_OK, its range is assembled ([Stitch]), thinned by its Range Filters and
    written ([FetchServe]); a SUBSCRIBE with FILL_PARAMETERS gets such a stream too.

    What the registry holds when it is read, what the wait for arriving Objects and the
    upstream give, whether the context has ended when the code looks, and what the
    transport does are arguments.  Logging, metrics and the goroutine a fill is served on
    are left out, as is the end of the context while follow-ups are read. *)

From stdpp Require Import gmap.
From S2P Require Import Prelude Codes Varint Wire KV Filter Params Properties RangeFilter Messages Objects Streams Cache.
From S2P Require Import FetchRanges FetchServe Ledger Stitch Tokens Session Subs Track Discovery TrackTable Broker SubscribeHandler.

(** ** Answering a FETCH *)

Definition defaultUpstreamFetchTimeout : Z := 5000000000.

Definition trackKnown (e : TrackEntry) : bool :=
  if (GetLargest (te_mark e)).2 then true
  else (0 <? len (te_Upstream e)) || (0 <? len (te_Downstream e)).

Definition resolveFillBudget (ps : Params) : Z :=
  let '(d, ok) := FillTimeoutFromParamOK ps in if ok then d else defaultUpstreamFetchTimeout.

Definition fetchGroupOrder (ps : Params) : Z :=
  match p_Find ps ParamGroupOrder with Some p => p_Byte p | None => GroupOrderAscending end.

Definition capFetchEndLocation (filter : LocationFilter) (largest : Location) : Location :=
  match lf_End filter with
  | Some stop => if Less largest stop then largest else stop
  | None => largest
  end.

Definition fetchRangeFilters (maxFilterRanges : Z) (ps : Params) : result (option RangeFilterSet) :=
  rf ← RangeFiltersFromParams ps;
  match rf with
  | Some _ => _ ← rs_Validate rf maxFilterRanges; Ok rf
  | None => Ok None
  end.

(** The filter of a parameter list, [LocationFilter{}] when there is none. *)
Definition no_filter : LocationFilter := MkLF LocationFilterNone 0 0 0 0.
Definition request_filter (ps : Params) : option LocationFilter :=
  match LocationFilterFromParam ps with Ok f => f | Err _ => None end.

(** What is to be streamed. *)
Record fetch_plan : Type := MkPlan {
  fp_start : Location; fp_end : Location; fp_order : Z; fp_budget : Z; fp_filters : option RangeFilterSet }.

Inductive fetch_decision : Type :=
| Decline (code : Z) (reason : bytes)
| Serve (ok : FetchOK) (plan : fetch_plan).

Definition reason (s : string) : bytes := String.list_byte_of_string s.

Section Fetching.
Context (text : error -> bytes) (maxFilterRanges : Z).

(** [entry] is the one in the table; [mark], [trackEnd] and [properties] are read from
    it later. *)
Definition decide_fetch (ps : Params) (entry : option TrackEntry) (mark : Watermark) (trackEnd : Location * bool)
    (properties : bytes) : fetch_decision :=
  if negb (match entry with Some e => trackKnown e | None => false end)
  then Decline RequestDoesNotExist (reason "relay: track not known")
  else
    let '(largest, hasLargest) := GetLargest mark in
    if negb hasLargest then Decline RequestInvalidRange (reason "relay: no objects published")
    else
      let filter := default no_filter (request_filter ps) in
      let start := lf_Start filter largest hasLargest in
      if Less largest start then Decline RequestInvalidRange (reason "relay: start beyond largest object")
      else if match lf_End filter with Some stop => Less stop start | None => false end
      then Decline RequestInvalidRange (reason "relay: end before start")
      else
        match fetchRangeFilters maxFilterRanges ps with
        | Err e => Decline RequestInvalidFilter (text e)
        | Ok rangeFilters =>
            let endLocation := capFetchEndLocation filter largest in
            let '(finalLoc, ended) := trackEnd in
            Serve (MkFetchOK (ended && bool_decide (endLocation = finalLoc)) endLocation []
                     (if includeProperties ps then properties else []))
              (MkPlan start endLocation (fetchGroupOrder ps) (resolveFillBudget ps) rangeFilters)
        end.

(** [authorize]: the Authorizer's refusal.  The events on the request stream, and what
    is served after FETCH_OK. *)
Definition handleFetch (ro : role) (msg : Fetch) (authorize : option (Z * bytes)) (entry : option TrackEntry)
    (mark : Watermark) (trackEnd : Location * bool) (properties : bytes) (wok : bool) : list req_event * option fetch_plan :=
  let reject code why := ((RejectError wok (MFetch msg) ro code why).2, None) in
  match authorize with
  | Some (code, why) => reject code why
  | None =>
      match decide_fetch (fetch_Parameters msg) entry mark trackEnd properties with
      | Decline code why => reject code why
      | Serve ok plan =>
          match Reply wok (MFetch msg) (MFetchOK ok) false with
          | (Ok _, ev, _) => (ev, Some plan)
          | (Err _, ev, _) => (ev, None)
          end
      end
  end.
End Fetching.

(** The upstream a stitch FETCH goes to.  [goingAway] says which sessions are. *)
Definition pickFetchUpstream {D} (self : Z) (goingAway : Z -> bool) (e : TrackEntry) (r : TrackRegistry D) : option UpRef :=
  List.find (fun u => FetchCapable (ur_sub u) && up_est u && negb (goingAway (ur_Session u)) &&
    negb ((ur_Session u =? self) && RequestPending TypeFetch (ur_Session u) (fn_Key (te_FullName e)) r)) (te_Upstream e).

(** ** The fetch stream *)

Definition errRequestCancelled : error := Errorf "relay: request cancelled".

(** [cause] is [context.Cause] of a context that ended. *)
Definition ctxResetCode (cause : error) : Z :=
  if errors_Is cause errRequestCancelled then StreamResetCancelled
  else if errors_Is cause ErrMalformedTrack then StreamResetMalformedTrack
  else StreamResetSessionClosed.

(** What happens to a fetch stream and, for a fill, to its subscription. *)
Inductive stream_event : Type :=
| SvSub (o : sub_op)
| SvOpen (requestID : Z)
| SvWrote (o : FetchObject)
| SvReset (code : Z)
| SvFin.

(** [began]: what [BeginStream] said on the subscription of a fill, [None] for a FETCH;
    [opened]: whether [OpenFetchStream] succeeds. *)
Definition openFillOrFetchStream (began : option bool) (requestID : Z) (opened : bool) : bool * list stream_event :=
  let open := if opened then [SvOpen requestID] else [] in
  match began with
  | None => (opened, open)
  | Some false => (false, [SvSub OBeginStream])
  | Some true => (opened, [SvSub OBeginStream] ++ open ++ [SvSub (OEndStream opened)])
  end.

(** [slices.DeleteFunc]: range markers stay, whatever the filters. *)
Fixpoint drop_unmatched (rf : option RangeFilterSet) (objs : list CachedObject) : result (list CachedObject) :=
  match objs with
  | [] => Ok []
  | o :: objs =>
      keep ← (if IsRangeMarker o then Ok true
              else MatchesObject rf (co_SubgroupID o) (co_ObjectID o) (co_PublisherPriority o) (co_Properties o));
      rest ← drop_unmatched rf objs;
      Ok (if (keep : bool) then o :: rest else rest)
  end.

(** Whether the context has ended, and why: when the Objects are assembled, when a
    write failed, when all are written; and [c_late], for one that ends after the last
    look and resets the stream before the code does. *)
Record ctx_ends : Type := MkEnds { c_stitched : option error; c_write : option error; c_done : option error; c_late : option error }.

Definition reset_by (late : option error) (code : Z) : list stream_event :=
  match late with Some cause => [SvReset (ctxResetCode cause)] | None => [] end ++ [SvReset code].

(** The result: what happened, whether the stream was FINed, whether the track must not
    be forwarded, and the code. *)
Definition served_stream : Type := list stream_event * bool * bool * Z.

Definition ctxEnded (before : list stream_event) (cause : error) : served_stream :=
  (before ++ [SvReset (ctxResetCode cause)], false, ctxResetCode cause =? StreamResetMalformedTrack, ctxResetCode cause).

(** From the assembled Objects to the FIN. *)
Definition write_range (plan : fetch_plan) (objs : result (list CachedObject)) (ends : ctx_ends)
    (wr : nat -> option error) (expired : CachedObject -> bool) : result served_stream :=
  match c_stitched ends with
  | Some cause => Ok (ctxEnded [] cause)
  | None =>
      match objs with
      | Err refusal =>
          let code := if errors_Is refusal ErrMalformedTrackProperties || errors_Is refusal ErrMalformedTrack
                      then StreamResetMalformedTrack else StreamResetInternalError in
          Ok (reset_by (c_late ends) code, false, true, code)
      | Ok objs =>
          objs ← (match fp_filters plan with Some rf => drop_unmatched (Some rf) objs | None => Ok objs end);
          let '(fos, _, res) := streamFetchObjects wr objs (Some expired) in
          let wrote := SvWrote <$> fos in
          match res with
          | Err _ =>
              match c_write ends with
              | Some cause => Ok (ctxEnded wrote cause)
              | None => Ok (wrote ++ reset_by (c_late ends) StreamResetInternalError, false, false, 0)
              end
          | Ok _ =>
              match c_done ends with
              | Some cause => Ok (ctxEnded wrote cause)
              | None => Ok (wrote ++ [SvFin], true, false, 0)
              end
          end
      end
  end.

Definition streamFetchRange (began : option bool) (requestID : Z) (opened : bool) (plan : fetch_plan)
    (objs : result (list CachedObject)) (ends : ctx_ends) (wr : nat -> option error) (expired : CachedObject -> bool)
    : result served_stream :=
  match openFillOrFetchStream began requestID opened with
  | (false, ev) => Ok (ev, false, false, 0)
  | (true, ev) =>
      '(tr, fin, refused, code) ← write_range plan objs ends wr expired;
      Ok (ev ++ tr ++ match began with Some _ => [SvSub OStreamClosed] | None => [] end, fin, refused, code)
  end.

(** [stitchedFetchObjects] for a plan; [up] is what the picked upstream answers to a
    FETCH and [left] the time left of the budget when it is asked. *)
Definition plan_objects (knownMandatory : gset Z) (plan : fetch_plan) (now : Z) (clock : nat -> Z) (entry : TrackLedger)
    (wait : option (list CachedObject * list Location)) (up : option (Params -> reply)) (left : Z) : result (list CachedObject) :=
  stitchedFetchObjects now entry wait (fp_start plan) (fp_end plan) (fp_order plan)
    ((fun u span => fetchUpstreamRange knownMandatory u clock span (fp_order plan)
                      (if 0 <? fp_budget plan then Z.max left 0 else fp_budget plan)) <$> up).

(** ** After the FIN *)

(** A REQUEST_UPDATE on the request: the events, and the reset of the data stream when
    its tokens are denied, which ends the FETCH. *)
Definition handleFetchUpdate (text : error -> bytes) (ro : role) (msg : Fetch) (wok : bool) (verified : result unit)
    : list req_event * option Z :=
  match refuseUpdateTokens text verified with
  | Some rej =>
      ((RejectError wok (MFetch msg) ro (ErrorCode rej) (ErrorReason rej)).2,
       Some (if ErrorCode rej =? RequestExpiredAuthToken then StreamResetExpiredAuthToken else StreamResetCancelled))
  | None => ((Reply wok (MFetch msg) (MRequestOK (MkRequestOK [] [])) false).1.2, None)
  end.

(** How the reading of the request stream ends. *)
Inductive updates_end : Type := UpdStream (e : read_end) | UpdRefused (code : Z).

(** [reads] is what the stream yields, with whether a write after it succeeds. *)
Fixpoint readFetchUpdates (text : error -> bytes) (ro : role) (msg : Fetch) (verify : list ResolvedToken -> result unit)
    (reads : list (result Message * bool)) (seen : bool) (l : RequestUpdateLimiter) (s : Session)
    : list req_event * option updates_end * Session :=
  match reads with
  | [] => ([], None, s)
  | (Err e, _) :: _ =>
      let '(ev, res, s) := read_failed e s in
      (ev ++ match res with ReadFin => [RqClose] | ReadStop => [] end, Some (UpdStream res), s)
  | (Ok m, wok) :: reads =>
      match read_message m seen s with
      | (Err _, s) => ([], Some (UpdStream ReadStop), s)
      | (Ok seen, s) =>
          match on_message ScopeUpdateFetch m l s with
          | (Err _, s) => ([], Some (UpdStream ReadStop), s)
          | (Ok (l, None), s) => readFetchUpdates text ro msg verify reads seen l s
          | (Ok (l, Some (upd, toks)), s) =>
              match handleFetchUpdate text ro msg wok (verify toks) with
              | (ev, Some code) => (ev, Some (UpdRefused code), s)
              | (ev, None) =>
                  let '(ev', res, s) := readFetchUpdates text ro msg verify reads seen l s in (ev ++ ev', res, s)
              end
          end
      end
  end.

(** The events on the request stream; [cancelled]: the requester's STOP_SENDING has
    ended its context. *)
Definition serveFetchObjects (cancelled : bool) (served : served_stream) (updates : list req_event) : list req_event :=
  let '(_, fin, refused, code) := served in
  if fin then updates
  else
    let reset code := [RqCancelRead code; RqCancelWrite code] in
    if cancelled then reset StreamResetCancelled else if refused : bool then reset code else [].

(** ** Fill fetch streams *)

Inductive fill_decision : Type := NoFill | FillFails (e : error) | FillServes (plan : fetch_plan).

Definition fill_parameters (ps : Params) : Params * bool :=
  match FillParametersFromParam ps with Ok p => p | Err _ => ([], true) end.

(** [d] is the subscription, [largest] the Largest Object it was told. *)
Definition maybeServeFill (maxFilterRanges : Z) (d : DownstreamSub) (ps : Params) (largest : Location) (hasLargest : bool)
    : fill_decision :=
  let '(inner, requested) := fill_parameters ps in
  if negb requested then NoFill
  else if negb (forwardState (d_sub d) =? 1) then NoFill
  else if negb hasLargest then NoFill
  else
    let filter := match request_filter inner with Some f => f | None => default no_filter (d_Filter d) end in
    let start := lf_Start filter largest hasLargest in
    let stop := capFetchEndLocation filter largest in
    if Less largest start || Less stop start then NoFill
    else
      let order := match p_Find inner ParamGroupOrder with Some p => p_Byte p | None => d_GroupOrder d end in
      let plan := MkPlan start stop order (resolveFillBudget inner) in
      if negb (existsb (fun p => IsRangeFilterParam (p_Type p)) inner) then FillServes (plan (rangeFilters d))
      else
        match rs_Update (rangeFilters d) inner with
        | Err e => FillFails e
        | Ok None => FillServes (plan None)
        | Ok (Some rf) =>
            match rs_Validate (Some rf) maxFilterRanges with
            | Err e => FillFails e
            | Ok _ => FillServes (plan (Some rf))
            end
        end.

(** A failure opens the stream and resets it. *)
Definition resetFillStream (began : bool) (requestID : Z) (opened : bool) : list stream_event :=
  match openFillOrFetchStream (Some began) requestID opened with
  | (false, ev) => ev
  | (true, ev) => ev ++ [SvReset StreamResetInternalError; SvSub OStreamClosed]
  end.

(** ** Lemmas *)

(** *** The range of a request *)

Definition asked (ps : Params) : LocationFilter := default no_filter (request_filter ps).

(** The Locations a FETCH asks for: what its filter selects, up to the Largest Object. *)
Definition wanted (f : LocationFilter) (largest l : Location) : Prop :=
  spec_selects f (Some largest) l /\ loc_le l largest.

Definition filter_ok (f : LocationFilter) : Prop := wf_lf f /\ lf_Validate f = Ok tt.

Lemma no_filter_ok : filter_ok no_filter.
Proof. split; [by_decide|done]. Qed.

Lemma asked_ok ps : Forall (fun p => go_len (p_Bytes p)) ps -> filter_ok (asked ps).
Proof.
  intros Hg. unfold asked, request_filter, LocationFilterFromParam.
  destruct (p_Find ps ParamLocationFilter) as [p|] eqn:E; [|apply no_filter_ok].
  destruct (ParseLocationFilter (p_Bytes p)) as [f|] eqn:Ep; [|apply no_filter_ok].
  apply ParseLocationFilter_snd in Ep as (? & ? & _); [by split|].
  rewrite Forall_forall in Hg. pose proof (p_Find_spec ps ParamLocationFilter) as H. rewrite E in H. apply Hg, H.
Qed.

(** The fields of a filter the decoder produces. *)
Lemma wf_lf_fields f : wf_lf f -> is_u64 (StartGroup f) /\ is_u64 (StartObject f) /\ is_u64 (EndGroupDelta f) /\ is_u64 (EndObject f).
Proof.
  intros (_ & Hf & Hv). rewrite Hf. unfold lf_of; simpl.
  assert (Hd : forall i, is_u64 (default 0 (lf_values f !! i))).
  { intros i. destruct (lf_values f !! i) as [v|] eqn:E; simpl; [|zlia]. rewrite Forall_lookup in Hv. eauto. }
  split_and!; apply Hd.
Qed.

Lemma spec_start_wf f largest : wf_lf f -> wf_loc largest -> wf_loc (spec_start f (Some largest)).
Proof.
  intros Hf [Hg Ho]. destruct (wf_lf_fields f Hf) as (H1 & H2 & _). unfold spec_start, clamp64, wf_loc.
  repeat case_match; simpl; zlia.
Qed.

(** The range of a filter, capped at the Largest Object. *)
Lemma capped_range f largest : filter_ok f -> wf_loc largest ->
  let start := lf_Start f largest true in let stop := capFetchEndLocation f largest in
  wf_loc start /\ wf_loc stop /\ loc_le stop largest /\
  (forall l, in_range (MkRange start stop) l <-> wanted f largest l) /\
  (forall e, lf_End f = Some e -> loc_lt e start -> forall l, ~ wanted f largest l).
Proof.
  intros [Hf Hv] Hl start stop. destruct (wf_lf_fields f Hf) as (H1 & H2 & H3 & H4).
  assert (Es : start = spec_start f (Some largest)) by (apply (lf_Start_option f largest true); [zlia|done]).
  pose proof (spec_start_wf f largest Hf Hl) as Hw. rewrite <- Es in Hw.
  apply lf_Validate_spec in Hv as [_ Hend]. unfold stop, capFetchEndLocation, wanted, spec_selects, in_range.
  rewrite <- Es. clearbody start. clear Es stop. unfold lf_End. simpl.
  destruct (HasEnd f) eqn:EH; simpl.
  - specialize (Hend eq_refl). rewrite u64_small by zlia.
    set (e := MkLoc _ (if HasEndObject f then _ else _)).
    assert (He : wf_loc e) by (unfold e, wf_loc; simpl; destruct (HasEndObject f); zlia).
    clearbody e. split_and!; [done|by destruct (Less largest e)| | |].
    + destruct (Less largest e) eqn:E; [unfold loc_le; lia|by apply Less_false].
    + intros l. destruct (Less largest e) eqn:E.
      * apply Less_spec in E. clear -E. split; [|tauto]. intros [? ?]. split_and!; [done| |done].
        intros _. unfold loc_lt, loc_le in *. lia.
      * apply Less_false in E. clear -E. split; [|intros [[? H] ?]; auto].
        intros [? ?]. split_and!; [done|done|]. unfold loc_le in *. lia.
    + intros e' [= <-] Hlt l [[H5 H6] _]. specialize (H6 eq_refl). clear -Hlt H5 H6. unfold loc_lt, loc_le in *. lia.
  - split_and!; [done|done|unfold loc_le; lia| |done]. intros l. split; [|tauto]. intros [? ?]. by split_and!.
Qed.

(** What the requester makes of FETCH_OK. *)

(** Parameters that passed their scope check: the values of the request and of a fill. *)
Lemma scope_values ps scope : CheckScope ps scope = Ok tt ->
  exists inner requested, FillParametersFromParam ps = Ok (inner, requested) /\ checkValues inner = Ok tt /\ checkValues ps = Ok tt.
Proof.
  unfold CheckScope. destruct (check_allowed ps scope); [|done]. simpl.
  destruct (firstDuplicate ps); [done|]. destruct (FillParametersFromParam ps) as [[inner b]|]; [|done]. simpl.
  destruct (checkValues inner) as [[]|] eqn:E; [|done]. simpl. eauto.
Qed.

Lemma partial_is_asked ps scope p : CheckScope ps scope = Ok tt -> p_Find ps ParamLocationFilter = Some p ->
  lf_Parse_partial (p_Bytes p) = asked ps.
Proof.
  intros (_ & _ & _ & _ & Hv)%scope_values E. apply checkValues_find in Hv as (_ & _ & _ & f & Ef).
  unfold asked, request_filter. rewrite Ef. unfold LocationFilterFromParam in Ef. rewrite E in Ef. unfold ParseLocationFilter in Ef.
  destruct (lf_Parse (NewReader (p_Bytes p))) as [[g r]|] eqn:Ep; [|done]. simpl in Ef.
  apply lf_Parse_partial_ok in Ep. destruct (negb (Empty r)); [done|]. destruct (lf_Validate g); [|done].
  simpl in Ef. by injection Ef as <-.
Qed.

Lemma fetch_ok_accepted ps largest ok : CheckScope ps ScopeFetch = Ok tt -> Forall (fun p => go_len (p_Bytes p)) ps ->
  wf_loc largest -> Group largest <> MaxUint64 -> Object largest <> MaxUint64 ->
  loc_le (lf_Start (asked ps) largest true) largest -> loc_le (lf_Start (asked ps) largest true) (EndLocation ok) ->
  checkFetchOKEnd ps ok = Ok tt.
Proof.
  intros Hc Hg Hl Hmg Hmo Hs He. unfold checkFetchOKEnd. destruct (p_Find ps ParamLocationFilter) as [p|] eqn:E; [|done].
  rewrite (partial_is_asked ps ScopeFetch p Hc E). destruct (asked_ok ps Hg) as [Hf _]. set (f := asked ps) in *. clearbody f.
  destruct (wf_lf_fields f Hf) as (H1 & _). cbv zeta.
  rewrite (lf_Start_option f largest true) in Hs, He by (zlia || done).
  rewrite (lf_Start_option f (MkLoc 0 0) false) by (zlia || by_decide). unfold spec_start, clamp64 in *.
  assert (Hx : Unfiltered f = true -> RelativeStart f = false /\ NextObject f = false).
  { unfold Unfiltered, RelativeStart, NextObject. rewrite Z.eqb_eq. by intros ->. }
  assert (Hy : RelativeStart f = true -> NextObject f = false).
  { unfold RelativeStart, NextObject. rewrite Z.eqb_eq. by intros ->. }
  destruct (Unfiltered f); [destruct (Hx eq_refl) as [-> ->]; simpl|simpl].
  - destruct (Less _ _) eqn:El; [|done]. apply Less_spec in El. exfalso. clear -El He. loc_lia.
  - destruct (RelativeStart f); [rewrite (Hy eq_refl)|destruct (NextObject f)]; simpl in *.
    + destruct (Z.eqb_spec (StartGroup f) 0) as [E0|]; simpl; [|done]. exfalso. rewrite E0 in Hs. clear -Hs Hl Hmg. loc_lia.
    + exfalso. clear -Hs Hl Hmo. loc_lia.
    + destruct (Less _ _) eqn:El; [|done]. apply Less_spec in El. exfalso. clear -El He. loc_lia.
Qed.

(** *** What an upstream's response yields can be served *)

Lemma s_UInt8_u8 s v s' : s_UInt8 s = Ok (v, s') -> is_u8 v.
Proof. unfold s_UInt8. intros H. mpeel. apply b2z_u8. Qed.

Lemma fo_Parse_fields s o s' : fo_Parse (S:=Stream) fetch0 s = Ok (o, s') ->
  is_u64 (fo_SubgroupID o) /\ is_u8 (fo_PublisherPriority o) /\
  len (fo_Properties o) <= MaxStreamFieldSize /\ len (ObjectPayload o) <= MaxStreamFieldSize.
Proof.
  intros H. assert (H0 : is_u64 0 /\ is_u8 0 /\ len (@nil byte) <= MaxStreamFieldSize) by by_decide.
  destruct H0 as (H0 & H0' & H0''). unfold fo_Parse, trunc_wrap in H. mpeel. destruct (isEndOfRange _); mpeel; simpl; [done|].
  split_and!.
  - destruct (hasSubgroupIDField _); mpeel; [by eapply ReadVarint_snd|done].
  - destruct (has _ FetchFlagPriority); mpeel; [|done].
    by eapply s_UInt8_u8.
  - destruct (has _ FetchFlagProperties); mpeel; [by eapply s_VarintBytes_snd|done].
  - by eapply s_VarintBytes_snd.
Qed.

Definition prior_wf (s : IncomingFetchStream) : Prop := fetch_wf s /\ is_u64 (decPrevSubgroup s) /\ is_u8 (decPrevPriority s).

(** An Object that was read: what the reader checked, and fields in range. *)
Definition read_wf (d : DecodedFetchObject) : Prop := is_object d ->
  wf_loc (df_loc d) /\ is_u64 (df_SubgroupID d) /\ is_u8 (df_PublisherPriority d) /\
  len (df_Properties d) <= MaxStreamFieldSize /\ len (df_Payload d) <= MaxStreamFieldSize /\
  check_properties (df_Properties d) (df_GroupID d) (df_ObjectID d) = Ok tt.

Lemma read_decoded_wf s d s' : prior_wf s -> fetch_ReadDecoded s = Got d s' -> read_wf d /\ prior_wf s'.
Proof.
  intros (Hw & Hsg & Hpr) Hd. destruct (fetch_read_ok _ _ _ Hw Hd) as (Hl & _ & Hw' & _).
  unfold fetch_ReadDecoded, fetch_ReadObject in Hd.
  destruct (fo_Parse fetch0 (if_rd s)) as [[raw rd]|e] eqn:E; [|by destruct (errors_Is e _)].
  apply fo_Parse_fields in E as (F1 & F2 & F3 & F4). destruct (isEndOfRange _) eqn:Ee.
  - injection Hd as <- <-. split; [|by split_and!]. intros (Hk1 & Hk2 & Hk3). simpl in Hk1, Hk2, Hk3. unfold isEndOfRange in Ee. by rewrite Hk1, Hk2, Hk3 in Ee.
  - destruct (check_prior s raw); [|done]. destruct (resolve_location s raw) as [[g o]|]; [|done].
    destruct (check_properties _ _ _) as [[]|] eqn:Ec; [|done]. injection Hd as <- <-.
    assert (Hg : is_u64 (if IsDatagram raw then 0 else resolve_fetch_subgroup s raw)).
    { destruct (IsDatagram raw); [by_decide|]. unfold resolve_fetch_subgroup.
      repeat case_match; try done; try apply u64_range; by_decide. }
    assert (Hp : is_u8 (if has (SerializationFlags raw) FetchFlagPriority then fo_PublisherPriority raw else decPrevPriority s))
      by (by destruct (has _ _)).
    split; [intros _; by split_and!|]. split_and!; simpl; [done| |done]. by destruct (IsDatagram raw).
Qed.

Lemma freads_wf s l s' : freads s (Some <$> l) s' -> prior_wf s -> Forall read_wf l /\ prior_wf s'.
Proof.
  revert s. induction l as [|d l IH]; intros s H Hw; simpl in H; inversion H; subst; [done|].
  match goal with E : fetch_ReadDecoded _ = Got _ _ |- _ => destruct (read_decoded_wf _ _ _ Hw E) as [Hd Hw1] end.
  edestruct IH as [Hl Hw2]; [done|done|]. by split; [constructor|].
Qed.

(** Objects fit to be served. *)
Definition fit (o : CachedObject) : Prop := held_ok o /\ wf_cached o.

Lemma supplied_fit up order o : supplied up order o -> fit o.
Proof.
  intros (span & ok & rd & _ & _ & items & s' & Hr & d & now & maxAge & Hd & Ho & ->).
  apply freads_wf in Hr as [Hr _]; [|by_decide]. rewrite Forall_forall in Hr.
  destruct (Hr d Hd Ho) as (H1 & H2 & H3 & H4 & H5 & H6). split; [by split_and!|by split_and!].
Qed.

Lemma Forall_filter_In {A} (P : A -> Prop) f l : Forall P l -> Forall P (List.filter f l).
Proof.
  rewrite !Forall_forall. intros H x Hx. apply H. apply list_elem_of_In in Hx. apply List.filter_In in Hx as [Hx _]. by apply list_elem_of_In.
Qed.

(** *** What is assembled is fit *)

Lemma fetchElements_fit objs unk tmo order : Forall fit objs -> Forall wf_range (unk ++ tmo) ->
  Forall (fun o => wf_cached o /\ (IsRangeMarker o = true \/ fit o)) (fetchElements objs unk tmo order).
Proof.
  intros Ho [Hu Ht]%Forall_app. apply Forall_forall. intros o Hin. apply coalesce_elem in Hin.
  rewrite sort_stable_perm in Hin. rewrite !elem_of_app in Hin.
  assert (Hm : forall l u t, wf_loc l -> wf_cached (marker l u t)).
  { intros l u t Hl. unfold wf_cached, marker; simpl. split_and!; [by destruct l|by_decide|by_decide|by_decide|by_decide]. }
  destruct Hin as [Hin|[Hin|Hin]].
  - rewrite Forall_forall in Ho. pose proof (Ho o Hin) as Hf. split; [apply Hf|by right].
  - apply list_elem_of_fmap in Hin as (l & -> & Hl). apply ends_covers in Hl as [Hl _]; [|done].
    split; [by apply Hm|by left].
  - apply list_elem_of_fmap in Hin as (l & -> & Hl). apply ends_covers in Hl as [Hl _]; [|done].
    split; [by apply Hm|by left].
Qed.

Lemma held_fit got wait : Forall fit got -> (forall handed still, wait = Some (handed, still) -> Forall fit handed) ->
  Forall fit (held_objects got wait).1.
Proof.
  intros Hg Hw. unfold held_objects. destruct wait as [[handed still]|]; [|done]. cbn [fst].
  assert (Hh : Forall fit (handedLive handed)).
  { apply Forall_fmap. eapply Forall_impl; [by eapply Hw|]. intros o Ho. simpl. by destruct (_ && _). }
  clear Hw. unfold withObjects. revert got Hg. induction Hh as [|m more Hm _ IH]; intros got Hg; simpl; [done|].
  apply IH. destruct (holds got (co_loc m)); [done|]. apply Forall_app. split; [done|]. by constructor.
Qed.

(** Everything a FETCH response is assembled of can be written. *)
Lemma stitched_fit clock entry wait range order fill known now up :
  wf_range range -> ledger_wf entry -> wf_cache (t_Cache entry) ->
  (forall o, Get clock (t_Cache entry) (co_GroupID o) (co_ObjectID o) = Some o -> fit o) ->
  (forall handed still, wait = Some (handed, still) -> Forall fit handed /\ Forall wf_loc still /\ NoDup still) ->
  uncapped up order ->
  forall elems, stitchedFetchObjects clock entry wait (Lo range) (Hi range) order
    ((fun u span => fetchUpstreamRange known u now span order fill) <$> up) = Ok elems ->
  Forall (fun o => wf_cached o /\ (IsRangeMarker o = true \/ fit o)) elems.
Proof.
  intros Hr Hent Hcw Hheld Hw Hun elems E.
  assert (Hheld' : forall o, Get clock (t_Cache entry) (co_GroupID o) (co_ObjectID o) = Some o -> held_ok o) by (intros o Ho; by apply Hheld).
  assert (Hw' : forall handed still, wait = Some (handed, still) -> Forall held_ok handed /\ Forall wf_loc still /\ NoDup still).
  { intros handed still Ew. destruct (Hw _ _ Ew) as (H1 & H2). split; [|done]. eapply Forall_impl; [exact H1|]. by intros o []. }
  pose proof (stitched_assembled clock entry wait range order fill known now up Hr Hent Hcw Hheld' Hw' Hun) as H.
  cbv zeta in H. rewrite E in H. destruct H as (_ & objs & unk & tmo & -> & Ho & Hu). apply fetchElements_fit; [|done].
  destruct (GetRange_ok (t_Cache entry) clock (Lo range) (Hi range) GroupOrderAscending Hcw) as [_ Hin].
  pose proof (held_fit _ wait ltac:(apply Forall_forall; intros o Hx; apply Hheld; by apply Hin) ltac:(intros ? ? Ew; by apply (Hw _ _ Ew))) as Hc.
  rewrite Forall_forall in Hc. eapply Forall_impl; [exact Ho|]. intros o [Hx|Hx]; [by apply Hc|by eapply supplied_fit].
Qed.

(** ** Theorems *)

(** A FETCH is answered by its range.  It is refused with DOES_NOT_EXIST exactly when
    the track has no Object, upstream or subscriber; then with INVALID_RANGE exactly when
    nothing was published or no Location up to the Largest Object is asked for; then with
    INVALID_FILTER for Range Filters that do not parse or exceed the limit.  Otherwise
    FETCH_OK ends the range that is served, which is exactly the Locations asked for up to
    the Largest Object, says END OF TRACK exactly when the Track ends there, and passes
    the requester's check, unless the Largest Object has the greatest Group or Object
    ID. *)
Theorem fetch_answered text maxRanges ps entry mark trackEnd properties :
  CheckScope ps ScopeFetch = Ok tt -> Forall (fun p => go_len (p_Bytes p)) ps -> wf_loc (LargestObject mark) ->
  let largest := LargestObject mark in
  let known := exists e, entry = Some e /\ (HasLargestObject (te_mark e) = true \/ te_Upstream e <> [] \/ te_Downstream e <> []) in
  let some := HasLargestObject mark = true /\ exists l, wanted (asked ps) largest l in
  match decide_fetch text maxRanges ps entry mark trackEnd properties with
  | Decline code _ =>
      code = RequestDoesNotExist /\ ~ known \/ known /\
      (code = RequestInvalidRange /\ ~ some \/ some /\
        code = RequestInvalidFilter /\ exists e, fetchRangeFilters maxRanges ps = Err e)
  | Serve ok plan =>
      known /\ some /\ fetchRangeFilters maxRanges ps = Ok (fp_filters plan) /\
      wf_range (MkRange (fp_start plan) (fp_end plan)) /\
      (forall l, in_range (MkRange (fp_start plan) (fp_end plan)) l <-> wanted (asked ps) largest l) /\
      EndLocation ok = fp_end plan /\
      (EndOfTrack ok = true <-> trackEnd = (fp_end plan, true)) /\
      fok_TrackProperties ok = (if includeProperties ps then properties else []) /\
      (Group largest <> MaxUint64 -> Object largest <> MaxUint64 -> checkFetchOKEnd ps ok = Ok tt)
  end.
Proof.
  intros Hc Hg Hl largest known some. unfold decide_fetch, GetLargest. fold largest in Hl |- *.
  assert (Hk : (match entry with Some e => trackKnown e | None => false end) = true <-> known).
  { unfold known. destruct entry as [e|]; [|by split; [|intros (? & ? & _)]]. unfold trackKnown, GetLargest; cbn [snd].
    assert (Hlen : forall {A} (l : list A), (0 <? len l) = true <-> l <> []).
    { intros A [|x l]; [done|]. rewrite len_cons. pose proof (len_nonneg l). split; [done|]. intros _. lia. }
    assert (Hone : forall P : TrackEntry -> Prop, (exists x, Some e = Some x /\ P x) <-> P e).
    { intros P. split; [by intros (x & [= <-] & ?)|eauto]. }
    rewrite Hone. destruct (HasLargestObject (te_mark e)); [tauto|]. rewrite orb_true_iff, !Hlen.
    split; [by right|]. by intros [|]. }
  destruct (match entry with Some e => trackKnown e | None => false end); simpl;
    [|left; split; [done|]; intros ?%Hk; done].
  assert (known) as Hkn by (by apply Hk). clear Hk.
  destruct (HasLargestObject mark) eqn:Eh; simpl; [|right; split; [done|]; left; split; [done|]; intros [? _]; done].
  change (default no_filter (request_filter ps)) with (asked ps).
  pose proof (asked_ok ps Hg) as Hf.
  destruct (capped_range (asked ps) largest Hf Hl) as (Hs & Hst & Hcap & Hin & Hend). cbv zeta in *.
  set (start := lf_Start (asked ps) largest true) in *. set (stop := capFetchEndLocation (asked ps) largest) in *.
  destruct (Less largest start) eqn:E1.
  { right. split; [done|]. left. split; [done|]. intros (_ & l & Hw). apply Less_spec in E1. apply Hin in Hw as [Hw1 Hw2].
    clear -E1 Hw1 Hw2 Hcap. loc_lia. }
  apply Less_false in E1. destruct (match lf_End (asked ps) with Some s => Less s start | None => false end) eqn:E2.
  { right. split; [done|]. left. split; [done|]. intros (_ & l & Hw).
    destruct (lf_End (asked ps)) as [e|]; [|done]. apply Less_spec in E2. by eapply Hend. }
  assert (Hle : loc_le start stop).
  { unfold stop, capFetchEndLocation. destruct (lf_End (asked ps)) as [e|]; [|done]. apply Less_false in E2.
    by destruct (Less largest e). }
  assert (Hsome : some).
  { split; [done|]. exists start. apply Hin. split; simpl; [unfold loc_le; lia|done]. }
  destruct (fetchRangeFilters maxRanges ps) as [rf|e]; [|right; split; [done|]; right; split; [done|]; split; [done|by eexists]].
  destruct trackEnd as [final ended]. simpl. split_and!; try done.
  - split; [|by intros [= -> ->]; rewrite bool_decide_true].
    intros [-> H]%andb_true_iff. apply bool_decide_eq_true in H. by rewrite H.
  - intros H1 H2. by apply (fetch_ok_accepted ps largest).
Qed.

(** An element goes out when it is a range marker or its Object passes the filters. *)
Definition passes (rf : option RangeFilterSet) (o : CachedObject) : Prop :=
  IsRangeMarker o = true \/ match rf with
                            | None => True
                            | Some _ => MatchesObject rf (co_SubgroupID o) (co_ObjectID o) (co_PublisherPriority o) (co_Properties o) = Ok true
                            end.

Lemma drop_unmatched_ok rf objs : forall kept, drop_unmatched (Some rf) objs = Ok kept ->
  kept `sublist_of` objs /\ forall o, o ∈ kept <-> o ∈ objs /\ passes (Some rf) o.
Proof.
  induction objs as [|o objs IH]; intros kept; cbn [drop_unmatched]; [intros [= <-]; split; [done|]; intros o; split; [by intros ?%not_elem_of_nil|by intros [?%not_elem_of_nil _]]|].
  destruct (if IsRangeMarker o then _ else _) as [keep|] eqn:Ek; [|done]. cbn [mbind result_bind].
  destruct (drop_unmatched (Some rf) objs) as [rest|]; [|done]. cbn [mbind result_bind]. intros [= <-]. destruct (IH rest eq_refl) as [Hs He].
  assert (Hp : passes (Some rf) o <-> keep = true).
  { unfold passes. destruct (IsRangeMarker o); [injection Ek as <-; by split; [|left]|]. rewrite Ek.
    split; [by intros [?|[= ->]]|by intros ->; right]. }
  destruct keep; (split; [by constructor|]); intros x; rewrite ?elem_of_cons, He; split.
  - intros [->|[? ?]]; [split; [by left|by apply Hp]|by split; [right|]].
  - intros [[->|?] ?]; auto.
  - intros [? ?]. by split; [right|].
  - intros [[->|?] Hx]; [by apply Hp in Hx|done].
Qed.

Lemma sublist_sorted {A} (R : relation A) l l' : l `sublist_of` l' -> StronglySorted R l' -> StronglySorted R l.
Proof.
  induction 1 as [|x l l' Hs IH|x l l' Hs IH]; [done| |]; intros [Hl Hx]%StronglySorted_inv; [|by apply IH].
  constructor; [by apply IH|]. rewrite Forall_forall in Hx |- *. intros y Hy. apply Hx. by eapply elem_of_sublist.
Qed.

Definition no_ends : ctx_ends := MkEnds None None None None.

(** A FETCH served to its end.  With every write taken and no context ended, the stream
    is FINed, and the requester reads exactly the assembled elements that pass the
    FETCH's Range Filters (an Object whose cache duration ran out meanwhile as a
    marker), in stream order, and then the end; and what was assembled is right: every
    Object held is there, none from elsewhere, and a Location skipped without a marker
    is known to be absent. *)
Theorem fetch_end_to_end clock entry wait plan fill known now up expired elems served :
  let range := MkRange (fp_start plan) (fp_end plan) in
  wf_range range -> ledger_wf entry -> wf_cache (t_Cache entry) ->
  (forall o, Get clock (t_Cache entry) (co_GroupID o) (co_ObjectID o) = Some o -> fit o) ->
  (forall handed still, wait = Some (handed, still) -> Forall fit handed /\ Forall wf_loc still /\ NoDup still) ->
  uncapped up (fp_order plan) ->
  stitchedFetchObjects clock entry wait (fp_start plan) (fp_end plan) (fp_order plan)
    ((fun u span => fetchUpstreamRange known u now span (fp_order plan) fill) <$> up) = Ok elems ->
  write_range plan (Ok elems) no_ends ok_writes expired = Ok served ->
  served_ok (held_objects (GetRange clock (t_Cache entry) (fp_start plan) (fp_end plan) GroupOrderAscending) wait).1
    (KnownAbsent entry) range (fp_order plan) (supplied up (fp_order plan)) (denied up (fp_order plan)) elems /\
  exists fos kept s' e, served = ((SvWrote <$> fos) ++ [SvFin], true, false, 0) /\
    stream_sorted (fp_order plan) kept /\ (forall o, o ∈ kept <-> o ∈ elems /\ passes (fp_filters plan) o) /\
    freads (NewIncomingFetch (MkStream (fetch_wire fos) Fin) (fp_order plan)) (decoded <$> serialized (Some expired) kept) s' /\
    fetch_ReadDecoded s' = Failed e false /\ errors_Is e EOF = true.
Proof.
  intros range Hr Hent Hcw Hheld Hw Hun He Hwr.
  assert (Hok : served_ok (held_objects (GetRange clock (t_Cache entry) (fp_start plan) (fp_end plan) GroupOrderAscending) wait).1
    (KnownAbsent entry) range (fp_order plan) (supplied up (fp_order plan)) (denied up (fp_order plan)) elems).
  { pose proof (stitched_assembled clock entry wait range (fp_order plan) fill known now up Hr Hent Hcw) as H. simpl in H. rewrite He in H.
    apply H; [intros o Ho; by apply Hheld| |done]. intros handed still E. destruct (Hw _ _ E) as (H1 & H2). split; [|done].
    eapply Forall_impl; [exact H1|]. by intros o []. }
  pose proof (stitched_fit clock entry wait range (fp_order plan) fill known now up Hr Hent Hcw Hheld Hw Hun elems He) as Hfit.
  split; [exact Hok|]. destruct Hok as [Hsort _].
  assert (Hkept : forall objs, (match fp_filters plan with Some rf => drop_unmatched (Some rf) elems | None => Ok elems end) = Ok objs ->
    objs `sublist_of` elems /\ forall o, o ∈ objs <-> o ∈ elems /\ passes (fp_filters plan) o).
  { intros objs. destruct (fp_filters plan) as [rf|]; [apply drop_unmatched_ok|]. intros [= <-]. split; [done|]. intros o. unfold passes. split; [|tauto]. by auto. }
  unfold write_range in Hwr. simpl in Hwr. destruct (match fp_filters plan with Some rf => _ | None => _ end) as [kept|]; [|done].
  destruct (Hkept kept eq_refl) as [Hs Hk]. simpl in Hwr.
  assert (Hsk : stream_sorted (fp_order plan) kept) by by eapply sublist_sorted.
  assert (Hwf : Forall wf_cached kept).
  { rewrite Forall_forall in Hfit |- *. intros o Ho. apply Hfit. by apply Hk. }
  unfold streamFetchObjects in Hwr.
  destruct (serve_loop_served (fp_order plan) (Some expired) kept encoder0 [] 0 Hwf Hsk) as (H1 & _ & H3); [done|done|].
  destruct (serve_loop ok_writes (Some expired) encoder0 kept [] 0) as [[fos n] res]. simpl in H1, H3. subst res.
  destruct (H3 fos (NewIncomingFetch (MkStream (fetch_wire fos) Fin) (fp_order plan)) []) as (s' & Hf & Ht);
    [done|by split|simpl; by rewrite app_nil_r|].
  simpl in Hwr. injection Hwr as <-. exists fos, kept, s', EOF. split_and!; try done.
  unfold fetch_ReadDecoded, fetch_ReadObject. by rewrite Ht.
Qed.

(** ** A FETCH, run

    The cache holds Object 0 of Group 1, the upstream sends Object 2 and leaves 3 unknown;
    the range is served in full, then FINed; a cancelled requester resets it. *)
Definition sample_plan : fetch_plan := MkPlan (MkLoc 1 0) (MkLoc 2 5) GroupOrderAscending 100 None.
Definition sample_objects : result (list CachedObject) :=
  plan_objects ∅ sample_plan 8 (fun _ => 9) (ledger0 (Put 7 (Some (sample_cached 1 0)) (NewObjectCache 4 0))) (Some ([], [MkLoc 1 4]))
    (Some (fun _ => sample_upstream (MkLoc 2 5) [sample_cached 1 2; unknownRangeMarker (MkLoc 1 3); sample_cached 2 1] [])) 100.

Lemma sample_served :
  (exists tr, write_range sample_plan sample_objects no_ends ok_writes (fun _ => false) = Ok (tr ++ [SvFin], true, false, 0) /\ len tr = 5) /\
  write_range sample_plan sample_objects (MkEnds (Some errRequestCancelled) None None None) ok_writes (fun _ => false) =
    Ok ([SvReset StreamResetCancelled], false, false, StreamResetCancelled).
Proof.
  split; [|vm_compute; reflexivity].
  destruct (write_range sample_plan sample_objects no_ends ok_writes (fun _ => false)) as [[[[ev fin] refused] code]|] eqn:E; [|vm_compute in E; discriminate E].
  vm_compute in E. injection E as <- <- <- <-. eexists (_ :: _ :: _ :: _ :: _ :: []). split; [reflexivity|reflexivity].
Qed.
