(* ===== verification/UpstreamPool.v ===== *)
(** * UpstreamPool: the relays a relay subscribes to

    [pkg/relay/relay_upstream_pool.go]: the remote relays that serve a namespace,
    ranked by rendezvous hashing ([rankByAffinity], [resolveUpstreams]), and the
    pool of sessions to them, where concurrent callers of one address share a dial
    ([get]).  What a dial gives and when a session ends are inputs; the pool's
    critical sections are the steps of [pool_step], so a run is any interleaving of
    its callers. *)

From stdpp Require Import gmap sorting.
From S2P Require Import Prelude Codes Varint Wire KV Track Discovery.

(** ** Ranking *)

(** FNV-1a, 64 bits ([hash/fnv]). *)
Definition fnv_offset : Z := 14695981039346656037.
Definition fnv_prime : Z := 1099511628211.
Definition fnv1a (h : Z) (b : bytes) : Z :=
  fold_left (fun h x => u64 (Z.lxor h (Z.of_N (Byte.to_N x)) * fnv_prime)) b h.

Definition namespaceAffinityKey (ns : TrackNamespace) : bytes := namespaceWireKey ns.
Definition hrwWeight (nsKey addr : bytes) : Z := fnv1a (fnv1a fnv_offset nsKey) addr.

(** Go's order on strings. *)
Fixpoint bytes_le (a b : bytes) : bool :=
  match a, b with
  | [], _ => true
  | _ :: _, [] => false
  | x :: a, y :: b =>
      if (Byte.to_N x <? Byte.to_N y)%N then true else if (Byte.to_N y <? Byte.to_N x)%N then false else bytes_le a b
  end.

(** The comparison of [rankByAffinity] is not positive. *)
Definition addr_le (nsKey a b : bytes) : Prop :=
  hrwWeight nsKey b < hrwWeight nsKey a \/ (hrwWeight nsKey a = hrwWeight nsKey b /\ bytes_le a b = true).
#[global] Instance addr_le_dec nsKey a b : Decision (addr_le nsKey a b).
Proof. unfold addr_le. apply _. Defined.
Definition info_le (nsKey : bytes) (a b : NamespaceInfo) : Prop := addr_le nsKey (ni_RelayAddr a) (ni_RelayAddr b).
#[global] Instance info_le_dec nsKey a b : Decision (info_le nsKey a b).
Proof. unfold info_le. apply _. Defined.

Definition rankByAffinity (ns : TrackNamespace) (infos : list NamespaceInfo) : list NamespaceInfo :=
  merge_sort (info_le (namespaceAffinityKey ns)) infos.

(** ** Resolving

    [get] is what the pool returns for an address: a session and whether a GOAWAY
    is on it.  The result are the sessions and whether one was left out for its
    GOAWAY, with the addresses asked for, in order. *)
Section Resolve.
Context (self : bytes) (fanIn : Z) (get : bytes -> option (Z * bool)).

Fixpoint resolve_loop (addrs : list bytes) (seen : list bytes) (out : list Z) (draining : bool)
    : list Z * bool * list bytes :=
  match addrs with
  | [] => (out, draining, seen)
  | a :: addrs =>
      if bool_decide (a = []) || bool_decide (a = self) || bool_decide (a ∈ seen) then resolve_loop addrs seen out draining
      else
        let seen := seen ++ [a] in
        match get a with
        | None => resolve_loop addrs seen out draining
        | Some (sess, true) => resolve_loop addrs seen out true
        | Some (sess, false) =>
            let out := out ++ [sess] in
            if (0 <? fanIn) && (fanIn <=? len out) then (out, draining, seen) else resolve_loop addrs seen out draining
        end
  end.

(** [found] is what [FindNamespace] returned; a relay without discovery resolves
    nothing. *)
Definition resolveUpstreams (ns : TrackNamespace) (found : option (result (list NamespaceInfo))) : list Z * bool * list bytes :=
  match found with
  | None | Some (Err _) => ([], false, [])
  | Some (Ok infos) => resolve_loop (ni_RelayAddr <$> rankByAffinity ns infos) [] [] false
  end.
End Resolve.

(** *** The order *)

Lemma bytes_le_refl a : bytes_le a a = true.
Proof. induction a as [|x a IH]; simpl; [done|]. by rewrite N.ltb_irrefl. Qed.

Lemma bytes_le_total a : forall b, bytes_le a b = true \/ bytes_le b a = true.
Proof.
  induction a as [|x a IH]; intros [|y b]; simpl; auto.
  destruct (N.ltb_spec (Byte.to_N x) (Byte.to_N y)); [by left|].
  destruct (N.ltb_spec (Byte.to_N y) (Byte.to_N x)); [by right|]. apply IH.
Qed.

Lemma bytes_le_antisym a : forall b, bytes_le a b = true -> bytes_le b a = true -> a = b.
Proof.
  induction a as [|x a IH]; intros [|y b]; simpl; try done.
  destruct (N.ltb_spec (Byte.to_N x) (Byte.to_N y)), (N.ltb_spec (Byte.to_N y) (Byte.to_N x)); try done; try lia.
  intros H1 H2. f_equal; [|by apply IH]. assert (E : Byte.to_N x = Byte.to_N y) by lia.
  apply (f_equal Byte.of_N) in E. rewrite !Byte.of_to_N in E. by injection E.
Qed.

Lemma bytes_le_trans a : forall b c, bytes_le a b = true -> bytes_le b c = true -> bytes_le a c = true.
Proof.
  induction a as [|x a IH]; intros [|y b] [|z c]; simpl; try done.
  destruct (N.ltb_spec (Byte.to_N x) (Byte.to_N y)), (N.ltb_spec (Byte.to_N y) (Byte.to_N x)),
    (N.ltb_spec (Byte.to_N y) (Byte.to_N z)), (N.ltb_spec (Byte.to_N z) (Byte.to_N y)),
    (N.ltb_spec (Byte.to_N x) (Byte.to_N z)), (N.ltb_spec (Byte.to_N z) (Byte.to_N x)); try done; try lia. apply IH.
Qed.

#[global] Instance addr_le_trans nsKey : Transitive (addr_le nsKey).
Proof. intros a b c [?|[? ?]] [?|[? ?]]; unfold addr_le; [left; lia..|]. right. split; [congruence|by eapply bytes_le_trans]. Qed.
#[global] Instance addr_le_antisym nsKey : AntiSymm (=) (addr_le nsKey).
Proof. intros a b [?|[? ?]] [?|[? ?]]; try lia. by apply bytes_le_antisym. Qed.
#[global] Instance addr_le_total nsKey : Total (addr_le nsKey).
Proof.
  intros a b. unfold addr_le. destruct (Z.lt_trichotomy (hrwWeight nsKey a) (hrwWeight nsKey b)) as [?|[E|?]]; [by right; left| |by left; left].
  destruct (bytes_le_total a b); [left|right]; right; by split.
Qed.
#[global] Instance info_le_trans nsKey : Transitive (info_le nsKey).
Proof. intros a b c. apply addr_le_trans. Qed.
#[global] Instance info_le_total nsKey : Total (info_le nsKey).
Proof. intros a b. apply addr_le_total. Qed.

Lemma sorted_addrs nsKey l : Sorted (info_le nsKey) l -> Sorted (addr_le nsKey) (ni_RelayAddr <$> l).
Proof.
  intros H. apply StronglySorted_Sorted. apply Sorted_StronglySorted in H; [|apply _].
  induction H as [|x l _ IH Hx]; [constructor|]. simpl. constructor; [done|]. by apply Forall_fmap.
Qed.

(** Any two sorted arrangements of the same advertisements name the relays in the
    same order, whatever the sort does with equal ones. *)
Lemma rank_unique nsKey l1 l2 : l1 ≡ₚ l2 -> Sorted (info_le nsKey) l1 -> Sorted (info_le nsKey) l2 ->
  ni_RelayAddr <$> l1 = ni_RelayAddr <$> l2.
Proof.
  intros Hp H1 H2. apply (Sorted_unique (addr_le nsKey)); [by apply sorted_addrs..|]. by apply fmap_Permutation.
Qed.

(** *** What is resolved *)

Section Resolved.
Context (self : bytes) (fanIn : Z) (get : bytes -> option (Z * bool)).

Definition usable (a : bytes) : option Z := match get a with Some (s, false) => Some s | _ => None end.
Definition drains (a : bytes) : bool := match get a with Some (_, true) => true | _ => false end.
Definition eligible (a : bytes) : Prop := a <> [] /\ a <> self.

Record resolved (addrs seen : list bytes) (res : list Z * bool * list bytes) : Prop := {
  rv_more : exists more, res.2 = seen ++ more /\ more `sublist_of` addrs /\ Forall eligible more;
  rv_once : NoDup res.2;
  rv_out : res.1.1 = omap usable res.2;
  rv_drain : res.1.2 = existsb drains res.2;
  rv_bound : 0 < fanIn -> len res.1.1 <= fanIn;
  rv_all : fanIn <= 0 \/ len res.1.1 < fanIn -> forall a, a ∈ addrs -> eligible a -> a ∈ res.2 }.

Lemma omap_snoc (seen : list bytes) a : omap usable (seen ++ [a]) = omap usable seen ++ option_list (usable a).
Proof. rewrite omap_app. simpl. by destruct (usable a). Qed.

Lemma drains_snoc (seen : list bytes) a : existsb drains (seen ++ [a]) = existsb drains seen || drains a.
Proof. rewrite existsb_app. simpl. by rewrite orb_false_r. Qed.

Lemma resolved_step a addrs seen res : a ∉ seen -> eligible a -> resolved addrs (seen ++ [a]) res ->
  resolved (a :: addrs) seen res.
Proof.
  intros Ha He [(more & E1 & E2 & E3) H2 H3 H4 H5 H6]. split; try done.
  - exists (a :: more). rewrite E1, <- app_assoc. split_and!; [done|by apply sublist_skip|by apply Forall_cons].
  - intros Hf b [->|Hb]%elem_of_cons Hel; [|by apply H6]. rewrite E1. apply elem_of_app. left. apply elem_of_app. right. by left.
Qed.

Lemma resolve_loop_ok addrs : forall seen out draining, NoDup seen -> out = omap usable seen ->
  draining = existsb drains seen -> (0 < fanIn -> len out < fanIn) ->
  resolved addrs seen (resolve_loop self fanIn get addrs seen out draining).
Proof.
  induction addrs as [|a addrs IH]; intros seen out draining Hnd Ho Hd Hf; simpl.
  { split; simpl; try done; [|lia|by intros _ a ?%elem_of_nil]. exists []. rewrite app_nil_r. split_and!; [done|constructor|by apply Forall_nil]. }
  destruct (bool_decide (a = []) || bool_decide (a = self) || bool_decide (a ∈ seen)) eqn:Esk.
  - destruct (IH seen out draining Hnd Ho Hd Hf) as [(more & E1 & E2 & E3) H2 H3 H4 H5 H6].
    split; try done; [exists more; split_and!; [done|by apply sublist_cons|done]|].
    intros Hfi b [->|Hb]%elem_of_cons [Hn Hs]; [|by apply H6].
    rewrite !orb_true_iff, !bool_decide_eq_true in Esk. destruct Esk as [[?|?]|Hin]; [done..|]. rewrite E1. apply elem_of_app. by left.
  - rewrite !orb_false_iff, !bool_decide_eq_false in Esk. destruct Esk as [[Hn Hs] Hin].
    assert (Hnd' : NoDup (seen ++ [a])).
    { apply NoDup_app. split_and!; [done|intros x Hx ->%list_elem_of_singleton; done|apply NoDup_singleton]. }
    assert (Ho' := omap_snoc seen a). assert (Hd' := drains_snoc seen a).
    change (usable a) with (match get a with Some (s, false) => Some s | _ => None end) in Ho'.
    change (drains a) with (match get a with Some (_, true) => true | _ => false end) in Hd'.
    destruct (get a) as [[s []]|] eqn:Eg; simpl in Ho', Hd'; rewrite ?app_nil_r, ?orb_false_r, ?orb_true_r in *.
    + apply resolved_step; [done|done|]. apply IH; [done|by rewrite Ho'|done|done].
    + destruct ((0 <? fanIn) && (fanIn <=? len (out ++ [s]))) eqn:Eb.
      * apply resolved_step; [done|done|]. rewrite Ho in *. apply andb_true_iff in Eb as [Eb1 Eb2].
        assert (El : len (omap usable seen ++ [s]) = fanIn).
        { rewrite len_app in *. change (len [s]) with 1 in *. lia. }
        split; simpl; rewrite ?Ho', ?Hd'; try done; [|lia|lia].
        exists []. rewrite app_nil_r. split_and!; [done|apply sublist_nil_l|by apply Forall_nil].
      * apply resolved_step; [done|done|]. apply IH; [done|by rewrite Ho', Ho|by rewrite Hd', Hd|]. intros Hfi. lia.
    + apply resolved_step; [done|done|]. apply IH; [done|by rewrite Ho'|by rewrite Hd'|done].
Qed.

(** Relays with the same view of discovery converge on the same upstreams.  For a
    namespace, however the advertisements are listed and whatever sort ranks them,
    the same addresses are asked for in the same order, each once, never the relay's own; the sessions
    returned are those of the addresses that answered without a GOAWAY, at most
    [fanIn] of them if it is positive; and every other advertised relay has been asked
    for unless that bound was reached. *)
Theorem upstreams_converge ns infos infos' ranked :
  infos ≡ₚ infos' -> ranked ≡ₚ infos' -> Sorted (info_le (namespaceAffinityKey ns)) ranked ->
  let '(out, draining, asked) := resolveUpstreams self fanIn get ns (Some (Ok infos)) in
  resolve_loop self fanIn get (ni_RelayAddr <$> ranked) [] [] false = (out, draining, asked) /\
  StronglySorted (addr_le (namespaceAffinityKey ns)) asked /\ NoDup asked /\ Forall eligible asked /\
  out = omap usable asked /\ draining = existsb drains asked /\ (0 < fanIn -> len out <= fanIn) /\
  (fanIn <= 0 \/ len out < fanIn -> forall i, i ∈ infos -> eligible (ni_RelayAddr i) -> ni_RelayAddr i ∈ asked).
Proof.
  intros Hp Hr Hs. unfold resolveUpstreams, rankByAffinity. set (key := namespaceAffinityKey ns) in *.
  pose proof (merge_sort_Permutation (info_le key) infos) as Hm. pose proof (Sorted_merge_sort (info_le key) infos) as Hsm.
  set (l := merge_sort (info_le key) infos) in *. clearbody l.
  rewrite (rank_unique key ranked l); [|by rewrite Hr, Hm, Hp|done|done].
  pose proof (resolve_loop_ok (ni_RelayAddr <$> l) [] [] false ltac:(constructor) eq_refl eq_refl) as H.
  destruct (resolve_loop _ _ _ _ _ _ _) as [[out draining] asked]. simpl in H.
  destruct H as [(more & E1 & E2 & E3) H2 H3 H4 H5 H6]; [done|]. simpl in *. subst more. split_and!; try done.
  - apply sorted_addrs, Sorted_StronglySorted in Hsm; [|apply _].
    assert (Hsub : forall k k' : list bytes, k `sublist_of` k' -> StronglySorted (addr_le key) k' -> StronglySorted (addr_le key) k).
    { clear. induction 1 as [|x k k' Hk IH|x k k' Hk IH]; intros Hs; [done|..]; apply StronglySorted_inv in Hs as [Hs Hx].
      - constructor; [by apply IH|]. rewrite Forall_forall in Hx |- *. intros y Hy. eapply Hx, elem_of_sublist; eauto.
      - by apply IH. }
    by eapply Hsub.
  - intros Hf i Hi He. apply H6; [done| |done]. apply list_elem_of_fmap_2. by rewrite Hm.
Qed.
End Resolved.

(** ** The pool

    An entry is named by a number; its [ready] channel is closed when its result is
    set. *)
Record poolEntry : Type := MkPoolEntry { pe_addr : bytes; pe_result : option (result Z) }.

(** A call of [get]: about to take the lock; dialing the entry it published; its
    dial done; waiting for another's; having found that session ended; returned. *)
Inductive caller : Type :=
| CCalling (a : bytes) | CDialing (e : Z) | CDialed (e : Z) | CWaiting (a : bytes) (e : Z) | CStale (a : bytes) (e : Z)
| CReturned (a : bytes) (r : result Z).

(** [p_serving]: entries whose session the relay serves, and whose [onClose] is
    still to run.  [p_ended]: sessions that are done. *)
Record upstreamPool : Type := MkPool {
  p_entries : gmap bytes Z; p_slots : gmap Z poolEntry; p_next : Z; p_noDial : bool;
  p_ended : gset Z; p_serving : list Z; p_callers : gmap Z caller }.

Definition pool0 : upstreamPool := MkPool ∅ ∅ 0 false ∅ [] ∅.
Definition set_entries (p : upstreamPool) (m : gmap bytes Z) : upstreamPool :=
  MkPool m (p_slots p) (p_next p) (p_noDial p) (p_ended p) (p_serving p) (p_callers p).
Definition set_caller (c : Z) (x : caller) (p : upstreamPool) : upstreamPool :=
  MkPool (p_entries p) (p_slots p) (p_next p) (p_noDial p) (p_ended p) (p_serving p) (<[c := x]> (p_callers p)).

(** [if p.entries[relayAddr] == e { delete(p.entries, relayAddr) }]. *)
Definition drop_entry (a : bytes) (e : Z) (p : upstreamPool) : upstreamPool :=
  if bool_decide (p_entries p !! a = Some e) then set_entries p (delete a (p_entries p)) else p.

(** The first section of [get]. *)
Definition get_section (c : Z) (a : bytes) (p : upstreamPool) : upstreamPool :=
  match p_entries p !! a with
  | Some e => set_caller c (CWaiting a e) p
  | None =>
      if p_noDial p then set_caller c (CReturned a (Err (Errorf "relay: upstream dialing stopped for shutdown"))) p
      else
        let e := p_next p in
        MkPool (<[a := e]> (p_entries p)) (<[e := MkPoolEntry a None]> (p_slots p)) (e + 1) (p_noDial p) (p_ended p)
          (p_serving p) (<[c := CDialing e]> (p_callers p))
  end.

(** The dial returned: the result is set and [ready] closed. *)
Definition dial_returns (c e : Z) (res : result Z) (p : upstreamPool) : upstreamPool :=
  MkPool (p_entries p) (alter (fun s => MkPoolEntry (pe_addr s) (Some res)) e (p_slots p)) (p_next p) (p_noDial p) (p_ended p)
    (p_serving p) (<[c := CDialed e]> (p_callers p)).

(** The rest of the call that dialed: the entry dropped, or its session served. *)
Definition dial_finish (c e : Z) (p : upstreamPool) : upstreamPool :=
  match p_slots p !! e with
  | Some (MkPoolEntry a (Some (Err err))) => set_caller c (CReturned a (Err err)) (drop_entry a e p)
  | Some (MkPoolEntry a (Some (Ok s))) =>
      set_caller c (CReturned a (Ok s))
        (MkPool (p_entries p) (p_slots p) (p_next p) (p_noDial p) (p_ended p) (p_serving p ++ [e]) (p_callers p))
  | _ => p
  end.

(** A waiter past [<-e.ready]. *)
Definition wait_returns (c : Z) (a : bytes) (e : Z) (p : upstreamPool) : upstreamPool :=
  match p_slots p !! e with
  | Some (MkPoolEntry _ (Some (Err err))) => set_caller c (CReturned a (Err err)) p
  | Some (MkPoolEntry _ (Some (Ok s))) =>
      if bool_decide (s ∈ p_ended p) then set_caller c (CStale a e) p else set_caller c (CReturned a (Ok s)) p
  | _ => p
  end.

Definition stopDialing (p : upstreamPool) : upstreamPool :=
  MkPool (p_entries p) (p_slots p) (p_next p) true (p_ended p) (p_serving p) (p_callers p).

Definition session_ends (s : Z) (p : upstreamPool) : upstreamPool :=
  MkPool (p_entries p) (p_slots p) (p_next p) (p_noDial p) ({[s]} ∪ p_ended p) (p_serving p) (p_callers p).

(** [onClose] of the [i]th session served, once it is done. *)
Definition evict (i : nat) (p : upstreamPool) : upstreamPool :=
  match p_serving p !! i with
  | None => p
  | Some e =>
      match p_slots p !! e with
      | Some (MkPoolEntry a (Some (Ok s))) =>
          if bool_decide (s ∈ p_ended p)
          then drop_entry a e (MkPool (p_entries p) (p_slots p) (p_next p) (p_noDial p) (p_ended p) (delete i (p_serving p)) (p_callers p))
          else p
      | _ => p
      end
  end.

Inductive pool_step (p : upstreamPool) : upstreamPool -> Prop :=
| ps_call c a : p_callers p !! c = None -> pool_step p (set_caller c (CCalling a) p)
| ps_get c a : p_callers p !! c = Some (CCalling a) -> pool_step p (get_section c a p)
| ps_dialed c e res : p_callers p !! c = Some (CDialing e) -> pool_step p (dial_returns c e res p)
| ps_finish c e : p_callers p !! c = Some (CDialed e) -> pool_step p (dial_finish c e p)
| ps_ready c a e : p_callers p !! c = Some (CWaiting a e) -> pool_step p (wait_returns c a e p)
| ps_stale c a e : p_callers p !! c = Some (CStale a e) -> pool_step p (set_caller c (CCalling a) (drop_entry a e p))
| ps_stop : pool_step p (stopDialing p)
| ps_ended s : pool_step p (session_ends s p)
| ps_evict i : pool_step p (evict i p).

(** ** One dial at a time per address *)

Definition in_flight (p : upstreamPool) (e : Z) (a : bytes) : Prop := p_slots p !! e = Some (MkPoolEntry a None).

Definition caller_ok (p : upstreamPool) (x : caller) : Prop :=
  match x with
  | CCalling _ => True
  | CDialing e => exists a, in_flight p e a
  | CDialed e => exists a res, p_slots p !! e = Some (MkPoolEntry a (Some res))
  | CWaiting a e => exists res, p_slots p !! e = Some (MkPoolEntry a res)
  | CStale a e => exists res, p_slots p !! e = Some (MkPoolEntry a (Some res))
  | CReturned a (Ok s) => exists e, p_slots p !! e = Some (MkPoolEntry a (Some (Ok s)))
  | CReturned a (Err err) => (exists e, p_slots p !! e = Some (MkPoolEntry a (Some (Err err)))) \/ p_noDial p = true
  end.

Record pool_ok (p : upstreamPool) : Prop := {
  po_flight : forall e a, in_flight p e a -> p_entries p !! a = Some e /\ exists c, p_callers p !! c = Some (CDialing e);
  po_entry : forall a e, p_entries p !! a = Some e -> exists res, p_slots p !! e = Some (MkPoolEntry a res);
  po_caller : forall c x, p_callers p !! c = Some x -> caller_ok p x;
  po_dialer : forall c c' e, p_callers p !! c = Some (CDialing e) -> p_callers p !! c' = Some (CDialing e) -> c = c';
  po_next : forall e, is_Some (p_slots p !! e) -> e < p_next p }.

(** A caller moves on without touching entries. *)
Lemma set_caller_ok c x p : pool_ok p -> caller_ok p x -> (forall e, p_callers p !! c <> Some (CDialing e)) ->
  (forall e, x <> CDialing e) -> pool_ok (set_caller c x p).
Proof.
  intros [H1 H2 H3 H4 H5] Hx Hc Hn. split; simpl; try done.
  - intros e a Hf. destruct (H1 e a Hf) as [? [c' Hc']]. split; [done|]. exists c'.
    rewrite lookup_insert_ne; [done|]. intros ->. by apply Hc in Hc'.
  - intros c' y. rewrite lookup_insert_Some. intros [[<- <-]|[_ ?]]; [done|]. by eapply H3.
  - intros c1 c2 e. rewrite !lookup_insert_Some. intros [[_ E]|[_ E1]] [[_ E']|[_ E2]]; [by apply Hn in E|by apply Hn in E|by apply Hn in E'|].
    by eapply H4.
Qed.

(** Only an entry whose result is set is ever dropped. *)
Lemma drop_entry_ok a e p res : pool_ok p -> p_slots p !! e = Some (MkPoolEntry a (Some res)) -> pool_ok (drop_entry a e p).
Proof.
  intros [H1 H2 H3 H4 H5] He. unfold drop_entry. case_bool_decide as Ee; [|done]. split; simpl; try done.
  - intros e' a' Hf. destruct (H1 e' a' Hf) as [Hl Hc]. split; [|done]. rewrite lookup_delete_ne; [done|]. intros ->.
    rewrite Ee in Hl. injection Hl as ->. unfold in_flight in Hf. simpl in Hf. congruence.
  - intros a' e'. rewrite lookup_delete_Some. intros [_ ?]. by apply H2.
Qed.

Lemma get_section_ok c a p : pool_ok p -> p_callers p !! c = Some (CCalling a) -> pool_ok (get_section c a p).
Proof.
  intros Hp Hc. unfold get_section.
  assert (Hnd : forall e, p_callers p !! c <> Some (CDialing e)) by congruence.
  destruct (p_entries p !! a) as [e|] eqn:Ee; [apply set_caller_ok; try done; by apply Hp|].
  destruct (p_noDial p) eqn:Edial; [apply set_caller_ok; try done; by right|]. destruct Hp as [H1 H2 H3 H4 H5].
  assert (Hfresh : p_slots p !! p_next p = None).
  { destruct (p_slots p !! p_next p) eqn:E; [|done]. specialize (H5 (p_next p) ltac:(by eexists)). lia. }
  assert (Hkeep : forall e s, p_slots p !! e = Some s -> <[p_next p := MkPoolEntry a None]> (p_slots p) !! e = Some s).
  { intros e s E. rewrite lookup_insert_ne; [done|]. congruence. }
  assert (Hold : forall x, caller_ok p x -> caller_ok (MkPool (<[a := p_next p]> (p_entries p))
    (<[p_next p := MkPoolEntry a None]> (p_slots p)) (p_next p + 1) false (p_ended p) (p_serving p)
    (<[c := CDialing (p_next p)]> (p_callers p))) x).
  { intros [| | | | |? []]; unfold caller_ok, in_flight; simpl; rewrite ?Edial; naive_solver. }
  split; simpl.
  - intros e a'. unfold in_flight. simpl. rewrite lookup_insert_Some. intros [[<- [= <-]]|[Hne Hf]].
    + rewrite lookup_insert_eq. split; [done|]. exists c. by rewrite lookup_insert_eq.
    + destruct (H1 e a' Hf) as [Hl [c' Hc']]. rewrite lookup_insert_ne by congruence. split; [done|]. exists c'.
      rewrite lookup_insert_ne; [done|]. congruence.
  - intros a' e. rewrite lookup_insert_Some. intros [[<- <-]|[_ Hl]].
    + exists None. by rewrite lookup_insert_eq.
    + destruct (H2 _ _ Hl) as [res Hr]. eauto.
  - intros c' x. rewrite lookup_insert_Some. intros [[<- <-]|[_ Hl]]; [|by apply Hold, (H3 c')].
    exists a. unfold in_flight. simpl. by rewrite lookup_insert_eq.
  - intros c1 c2 e. rewrite !lookup_insert_Some.
    assert (Hno : forall c', p_callers p !! c' <> Some (CDialing (p_next p))).
    { intros c' E. destruct (H3 _ _ E) as [a' Hf]. unfold in_flight in Hf. congruence. }
    intros [[<- [= <-]]|[_ E1]] [[<- E2]|[_ E2]]; try done; try (by apply Hno in E2); [|by eapply H4].
    injection E2 as <-. by apply Hno in E1.
  - intros e. rewrite lookup_insert_is_Some'. intros [->|He]; [lia|]. apply H5 in He. lia.
Qed.

Lemma dial_returns_ok c e res p : pool_ok p -> p_callers p !! c = Some (CDialing e) -> pool_ok (dial_returns c e res p).
Proof.
  intros [H1 H2 H3 H4 H5] Hc. destruct (H3 _ _ Hc) as [a He]. unfold in_flight in He.
  assert (Hsl : forall e' s, p_slots p !! e' = Some s ->
    alter (fun s => MkPoolEntry (pe_addr s) (Some res)) e (p_slots p) !! e' =
    Some (if decide (e' = e) then MkPoolEntry (pe_addr s) (Some res) else s)).
  { intros e' s E. case_decide; [subst; by rewrite lookup_alter_eq, E|by rewrite lookup_alter_ne]. }
  assert (Hold : forall x, caller_ok p x -> (forall c', x <> CDialing c' \/ c' <> e) -> caller_ok (dial_returns c e res p) x).
  { intros [| | | | |? []]; unfold caller_ok, in_flight; simpl; try done.
    - intros [a' E] Hn. exists a'. rewrite (Hsl _ _ E), decide_False; [done|]. destruct (Hn e0); congruence.
    - intros (a' & r & E) _. rewrite (Hsl _ _ E). case_decide; eauto.
    - intros (r & E) _. rewrite (Hsl _ _ E). case_decide; simpl; eauto.
    - intros (r & E) _. rewrite (Hsl _ _ E). case_decide; simpl; eauto.
    - intros (e' & E) _. exists e'. rewrite (Hsl _ _ E). rewrite decide_False; [done|]. intros ->. congruence.
    - intros [(e' & E)|?] _; [left|by right]. exists e'. rewrite (Hsl _ _ E). rewrite decide_False; [done|]. intros ->. congruence. }
  split.
  - intros e' a' Hf. unfold in_flight in Hf. simpl in Hf.
    destruct (decide (e' = e)) as [->|Hne]; [by rewrite (Hsl _ _ He), decide_True in Hf|].
    rewrite lookup_alter_ne in Hf by done. destruct (H1 e' a' Hf) as [Hl [c' Hc']]. split; [done|]. exists c'. simpl.
    rewrite lookup_insert_ne; [done|]. congruence.
  - simpl. intros a' e' Hl. destruct (H2 _ _ Hl) as [r Hr]. rewrite (Hsl _ _ Hr). case_decide; simpl; eauto.
  - simpl. intros c' x. rewrite lookup_insert_Some. intros [[<- <-]|[Hne Hl]].
    + exists a, res. simpl. by rewrite (Hsl _ _ He), decide_True.
    + apply Hold; [by eapply H3|]. intros e'. destruct (decide (e' = e)) as [->|]; [left|by right]. intros ->.
      apply Hne. by eapply H4.
  - simpl. intros c1 c2 e'. rewrite !lookup_insert_Some. intros [[_ ?]|[_ E1]] [[_ ?]|[_ E2]]; try done. by eapply H4.
  - simpl. intros e' [s Hs]. apply H5. destruct (decide (e' = e)) as [->|]; [by rewrite He|by rewrite lookup_alter_ne in Hs].
Qed.

Lemma pool_step_ok p p' : pool_step p p' -> pool_ok p -> pool_ok p'.
Proof.
  destruct 1 as [c a Hc|c a Hc|c e res Hc|c e Hc|c a e Hc|c a e Hc| |s|i]; intros Hp.
  - apply set_caller_ok; try done. congruence.
  - by apply get_section_ok.
  - by apply dial_returns_ok.
  - unfold dial_finish. destruct (po_caller _ Hp _ _ Hc) as (a & res & E). rewrite E.
    destruct res as [s|err].
    + apply set_caller_ok; [|simpl; eauto|simpl; congruence|done]. by destruct Hp.
    + apply set_caller_ok; [by eapply drop_entry_ok| | |done]; unfold drop_entry; case_bool_decide; simpl; eauto; congruence.
  - unfold wait_returns. destruct (po_caller _ Hp _ _ Hc) as (res & E). rewrite E.
    destruct res as [[s|err]|]; [|by apply set_caller_ok; [|left; eexists|congruence|]|done].
    case_bool_decide; (apply set_caller_ok; [done|simpl; eauto|congruence|done]).
  - destruct (po_caller _ Hp _ _ Hc) as (res & E).
    apply set_caller_ok; [by eapply drop_entry_ok|done| |done]. unfold drop_entry. case_bool_decide; simpl; congruence.
  - destruct Hp as [H1 H2 H3 H4 H5]. split; try done. intros c x Hc. specialize (H3 c x Hc).
    destruct x as [| | | | |? []]; try done. by right.
  - by destruct Hp.
  - unfold evict. destruct (p_serving p !! i) as [e|]; [|done].
    destruct (p_slots p !! e) as [[a [[s|]|]]|] eqn:E; try done. case_bool_decide; [|done].
    eapply drop_entry_ok; [by destruct Hp|done].
Qed.

Lemma pool_reachable_ok p : rtc pool_step pool0 p -> pool_ok p.
Proof.
  apply rtc_ind_r; [|intros; by eapply pool_step_ok].
  split; unfold in_flight; simpl; intros *; rewrite ?lookup_empty; done.
Qed.

(** The outcome of a dial never changes. *)
Lemma slot_kept p p' e a res : pool_ok p -> pool_step p p' -> p_slots p !! e = Some (MkPoolEntry a (Some res)) ->
  p_slots p' !! e = Some (MkPoolEntry a (Some res)).
Proof.
  intros Hp Hs He. destruct Hs as [c a' Hc|c a' Hc|c e' res' Hc|c e' Hc|c a' e' Hc|c a' e' Hc| |s|i]; try done; simpl.
  - unfold get_section. destruct (p_entries p !! a'); [done|]. destruct (p_noDial p); [done|]. simpl.
    rewrite lookup_insert_ne; [done|]. intros <-. pose proof (po_next _ Hp _ ltac:(by eexists)). lia.
  - destruct (po_caller _ Hp _ _ Hc) as [a'' Hf]. unfold in_flight in Hf. rewrite lookup_alter_ne; [done|congruence].
  - unfold dial_finish, drop_entry. repeat case_match; simpl; try done; by case_bool_decide.
  - unfold wait_returns. repeat case_match; done.
  - unfold drop_entry. by case_bool_decide.
  - unfold evict, drop_entry. repeat case_match; simpl; try done; by case_bool_decide.
Qed.

(** What a caller is left with by the outcome of the dial of [e]: its error, its
    session, or, the session having ended, another try. *)
Definition outcome (p : upstreamPool) (a : bytes) (e : Z) (res : result Z) : caller :=
  match res with
  | Err err => CReturned a (Err err)
  | Ok s => if bool_decide (s ∈ p_ended p) then CStale a e else CReturned a (Ok s)
  end.

Definition gets_outcome (p : upstreamPool) (c : Z) (a : bytes) (e : Z) : Prop :=
  (forall res, p_slots p !! e = Some (MkPoolEntry a (Some res)) ->
     exists p1, pool_step p p1 /\ p_callers p1 !! c = Some (outcome p a e res)) /\
  (forall p1, pool_step p p1 -> p_callers p1 !! c = Some (CWaiting a e) \/
     exists res, p_slots p !! e = Some (MkPoolEntry a (Some res)) /\ p_callers p1 !! c = Some (outcome p a e res)).

Lemma waiter_gets p c a e : pool_ok p -> p_callers p !! c = Some (CWaiting a e) -> gets_outcome p c a e.
Proof.
  intros Hp Hc. assert (Hw : forall res, p_slots p !! e = Some (MkPoolEntry a (Some res)) ->
    p_callers (wait_returns c a e p) !! c = Some (outcome p a e res)).
  { intros res He. unfold wait_returns, outcome. rewrite He. destruct res as [s|err]; [case_bool_decide|]; apply lookup_insert_eq. }
  split; [intros res He; exists (wait_returns c a e p); split; [by apply ps_ready|by apply Hw]|].
  intros p1 Hs. assert (Hoth : forall c' x y, p_callers p !! c' = Some y -> y <> CWaiting a e -> <[c' := x]> (p_callers p) !! c = Some (CWaiting a e)).
  { intros c' x y Hc' Hy. rewrite lookup_insert_ne; [done|]. intros ->. congruence. }
  destruct Hs as [c' a' Hc'|c' a' Hc'|c' e' res' Hc'|c' e' Hc'|c' a' e' Hc'|c' a' e' Hc'| |s|i]; try (by left); simpl.
  - left. rewrite lookup_insert_ne; [done|]. intros ->. congruence.
  - left. unfold get_section. destruct (p_entries p !! a'); [by eapply Hoth|]. destruct (p_noDial p); by eapply Hoth.
  - left. by eapply Hoth.
  - left. unfold dial_finish, drop_entry. repeat case_match; simpl; try done; try case_bool_decide; simpl; by eapply Hoth.
  - destruct (decide (c' = c)) as [->|Hne].
    + rewrite Hc in Hc'. injection Hc' as <- <-. destruct (po_caller _ Hp _ _ Hc) as ([res|] & He); [right; exists res; auto|left].
      unfold wait_returns. by rewrite He.
    + left. unfold wait_returns. repeat case_match; simpl; try done; by rewrite lookup_insert_ne.
  - left. unfold drop_entry. case_bool_decide; simpl; by eapply Hoth.
  - left. unfold evict, drop_entry. repeat case_match; simpl; try done; by case_bool_decide.
Qed.

(** The caller that dialed: its dial gives the entry its outcome, which it returns. *)
Definition dialer_returns (p : upstreamPool) (c e : Z) : Prop := forall p1, pool_step p p1 ->
  p_callers p1 !! c = Some (CDialed e) \/
  exists a res, p_slots p !! e = Some (MkPoolEntry a (Some res)) /\ p_callers p1 !! c = Some (CReturned a res).

Lemma dialed_returns p c e : pool_ok p -> p_callers p !! c = Some (CDialed e) -> dialer_returns p c e.
Proof.
  intros Hp Hc p1 Hs. assert (Hoth : forall c' x y, p_callers p !! c' = Some y -> y <> CDialed e -> <[c' := x]> (p_callers p) !! c = Some (CDialed e)).
  { intros c' x y Hc' Hy. rewrite lookup_insert_ne; [done|]. intros ->. congruence. }
  destruct Hs as [c' a' Hc'|c' a' Hc'|c' e' res' Hc'|c' e' Hc'|c' a' e' Hc'|c' a' e' Hc'| |s|i]; try (by left); simpl.
  - left. rewrite lookup_insert_ne; [done|]. intros ->. congruence.
  - left. unfold get_section. destruct (p_entries p !! a'); [by eapply Hoth|]. destruct (p_noDial p); by eapply Hoth.
  - left. by eapply Hoth.
  - destruct (decide (c' = c)) as [->|Hne].
    + rewrite Hc in Hc'. injection Hc' as <-. destruct (po_caller _ Hp _ _ Hc) as (a & res & He). right. exists a, res.
      split; [done|]. unfold dial_finish. rewrite He. destruct res; simpl; apply lookup_insert_eq.
    + left. unfold dial_finish, drop_entry. repeat case_match; simpl; try done; try case_bool_decide; simpl; by rewrite lookup_insert_ne.
  - left. unfold wait_returns. repeat case_match; simpl; try done; by eapply Hoth.
  - left. unfold drop_entry. case_bool_decide; simpl; by eapply Hoth.
  - left. unfold evict, drop_entry. repeat case_match; simpl; try done; by case_bool_decide.
Qed.

Lemma no_dial_step p p' : pool_step p p' -> p_noDial p = true -> p_noDial p' = true /\ dom (p_slots p') = dom (p_slots p).
Proof.
  destruct 1; intros Hn; unfold get_section, dial_finish, wait_returns, evict, drop_entry; simpl; rewrite ?dom_alter_L; try done;
    repeat (case_match; simpl); simplify_eq; done.
Qed.

(** C15: Callers of one address share a dial.  In every interleaving: at most one dial
    of an address is under way, and it is the entry later callers find; a caller that waits does so on an entry that is
    ready or that some caller is dialing, so none waits for nothing; once it is ready the
    caller can go on, and it stays until it does and then has the outcome of that very dial: its error,
    its session, or, when that session has ended, another try; a dial sets the outcome
    of its entry, which never changes, and returns it; an error
    returned for an address is that of a dial of it or of a pool that was stopped, and a session
    returned for it was dialed for it; and once dialing has been stopped no
    new dial starts. *)
Theorem pool_shares_dials p p' : rtc pool_step pool0 p -> rtc pool_step p p' ->
  (forall e e' a, in_flight p e a -> in_flight p e' a -> e = e') /\
  (forall e a, in_flight p e a -> p_entries p !! a = Some e) /\
  (forall c a e, p_callers p !! c = Some (CWaiting a e) ->
     ((exists res, p_slots p !! e = Some (MkPoolEntry a (Some res))) \/ exists c', p_callers p !! c' = Some (CDialing e)) /\
     gets_outcome p c a e) /\
  (forall c e res, p_callers p !! c = Some (CDialing e) -> exists p1 a, pool_step p p1 /\ in_flight p e a /\
     p_slots p1 !! e = Some (MkPoolEntry a (Some res))) /\
  (forall c e, p_callers p !! c = Some (CDialed e) -> dialer_returns p c e) /\
  (forall e a res, p_slots p !! e = Some (MkPoolEntry a (Some res)) -> p_slots p' !! e = Some (MkPoolEntry a (Some res))) /\
  (forall c a res, p_callers p !! c = Some (CReturned a res) ->
     (exists e, p_slots p !! e = Some (MkPoolEntry a (Some res))) \/ p_noDial p = true /\ exists err, res = Err err) /\
  (p_noDial p = true -> dom (p_slots p') = dom (p_slots p)).
Proof.
  intros Hr Hr'. pose proof (pool_reachable_ok _ Hr) as Hp. pose proof Hp as [H1 H2 H3 H4 H5]. split_and!.
  - intros e e' a Hf Hf'. destruct (H1 _ _ Hf) as [E _], (H1 _ _ Hf') as [E' _]. congruence.
  - intros e a Hf. by apply H1.
  - intros c a e Hc. split; [|by apply waiter_gets]. destruct (H3 _ _ Hc) as ([res|] & E); [left; eauto|]. right. by apply (H1 e a).
  - intros c e res Hc. destruct (H3 _ _ Hc) as [a Hf]. eexists _, a. split; [by apply (ps_dialed p c e res)|]. split; [done|].
    simpl. unfold in_flight in Hf. by rewrite lookup_alter_eq, Hf.
  - intros c e Hc. by apply dialed_returns.
  - clear H1 H2 H3 H4 H5 Hr. induction Hr' as [|p p1 p' Hs _ IH]; [done|]. intros e a res He.
    apply IH; [by eapply pool_step_ok|by eapply slot_kept].
  - intros c a [s|err] Hc; [left; exact (H3 _ _ Hc)|]. destruct (H3 _ _ Hc) as [?|?]; [by left|right; eauto].
  - clear -Hr'. induction Hr' as [|p p1 p' Hs _ IH]; intros Hn; [done|].
    destruct (no_dial_step _ _ Hs Hn) as [Hn' <-]. by apply IH.
Qed.

(** ** Two relays, run *)

Definition sample_infos : list NamespaceInfo :=
  [MkNamespaceInfo [[x61]] [x31] 0; MkNamespaceInfo [[x61]; [x62]] [x32] 0; MkNamespaceInfo [] [x31] 0].
Definition sample_get (a : bytes) : option (Z * bool) := Some (len a, bool_decide (a = [x32])).
Definition sample_resolved := resolveUpstreams [x39] 1 sample_get [[x61]; [x62]] (Some (Ok sample_infos)).

Lemma upstreams_converge_witness :
  sample_resolved.1.1 = [1] /\ len sample_resolved.1.1 <= 1 /\
  resolve_loop [x39] 1 sample_get (ni_RelayAddr <$> rankByAffinity [[x61]; [x62]] (reverse sample_infos)) [] [] false = sample_resolved.
Proof.
  split; [vm_compute; reflexivity|].
  pose proof (upstreams_converge [x39] 1 sample_get [[x61]; [x62]] sample_infos (reverse sample_infos)
    (rankByAffinity [[x61]; [x62]] (reverse sample_infos))) as H.
  fold sample_resolved in H. destruct sample_resolved as [[out draining] asked].
  destruct H as (H1 & _ & _ & _ & _ & _ & H2 & _).
  - symmetry. apply reverse_Permutation.
  - apply merge_sort_Permutation.
  - apply (Sorted_merge_sort (info_le (namespaceAffinityKey [[x61]; [x62]]))).
  - split; [apply H2; done|exact H1].
Defined.

(** Two callers of one address: the second waits for the first's dial. *)
Definition sample_pool1 : upstreamPool := get_section 1 [x31] (set_caller 1 (CCalling [x31]) pool0).
Definition sample_pool2 : upstreamPool := get_section 2 [x31] (set_caller 2 (CCalling [x31]) sample_pool1).
Definition sample_pool3 : upstreamPool := wait_returns 2 [x31] 0 (dial_returns 1 0 (Ok 7) sample_pool2).

Lemma sample_pool_run : rtc pool_step pool0 sample_pool2.
Proof.
  eapply rtc_l; [apply (ps_call pool0 1 [x31]); reflexivity|].
  eapply rtc_l; [apply (ps_get _ 1 [x31]); reflexivity|]. fold sample_pool1.
  eapply rtc_l; [apply (ps_call sample_pool1 2 [x31]); reflexivity|].
  apply rtc_once, (ps_get _ 2 [x31]). reflexivity.
Qed.

Lemma sample_pool_returns : rtc pool_step sample_pool2 sample_pool3.
Proof.
  eapply rtc_l; [apply (ps_dialed sample_pool2 1 0 (Ok 7)); vm_compute; reflexivity|].
  apply rtc_once, (ps_ready _ 2 [x31] 0). vm_compute. reflexivity.
Qed.

Lemma pool_shares_dials_witness :
  p_callers sample_pool2 !! 2 = Some (CWaiting [x31] 0) /\ p_callers sample_pool3 !! 2 = Some (CReturned [x31] (Ok 7)) /\
  ((exists res, p_slots sample_pool2 !! 0 = Some (MkPoolEntry [x31] (Some res))) \/
   exists c', p_callers sample_pool2 !! c' = Some (CDialing 0)).
Proof.
  split; [vm_compute; reflexivity|]. split; [vm_compute; reflexivity|].
  destruct (pool_shares_dials sample_pool2 sample_pool3 sample_pool_run sample_pool_returns) as (_ & _ & H & _).
  apply (H 2 [x31] 0). vm_compute. reflexivity.
Defined.
