(* ===== verification/DatagramWriter.v ===== *)
(** * DatagramWriter: the datagrams of one connection

    [pkg/relay/datagram_writer.go]: the bounded queue and the one worker that send the
    datagrams of every subscription of a downstream session.  The sections under
    [w.mu], the worker's selects and calls, and the sections of the subscriptions
    themselves are the steps; a run is any interleaving of them.  What the transport
    and the clock answer are inputs. *)

From stdpp Require Import gmap.
From S2P Require Import Prelude Codes Varint Wire KV Filter Params Properties RangeFilter Messages Objects.
From S2P Require Import Tokens Session Subs.

Record queuedDatagram : Type := MkQueued { q_sub : Z; q_object : ObjectDatagram; q_receivedAt : Z }.

(** The goroutine of [run]: not started; at the select of [run]; in [send] before its
    select, before its checks, in [SendDatagram] (having looked at the clock at
    [checkedAt]); before [EndDatagram]; in the deferred function before [stop], at its
    select; ended. *)
Inductive worker : Type :=
| WNone | WSelect | WHeld (d : queuedDatagram) | WFresh (d : queuedDatagram)
| WCalling (d : queuedDatagram) (checkedAt : Z) | WEnd (d : queuedDatagram) (draining : bool)
| WStop | WDrain | WEnded.

(** [w_refused]: calls of [enqueue] that found the queue full, before their
    [EndDatagram].  [w_accepted] and [w_sent] record what was queued and what the
    transport took. *)
Record datagramWriter : Type := MkWriter {
  w_queue : list queuedDatagram; w_worker : worker; w_stopped : bool; w_sessDone : bool;
  w_refused : list Z; w_subs : gmap Z SharedSub; w_accepted : list queuedDatagram;
  w_sent : list (queuedDatagram * Z) }.

Definition newDatagramWriter : datagramWriter := MkWriter [] WNone false false [] ∅ [] [].

Definition set_worker (p : worker) (w : datagramWriter) : datagramWriter :=
  MkWriter (w_queue w) p (w_stopped w) (w_sessDone w) (w_refused w) (w_subs w) (w_accepted w) (w_sent w).
Definition set_queue (q : list queuedDatagram) (w : datagramWriter) : datagramWriter :=
  MkWriter q (w_worker w) (w_stopped w) (w_sessDone w) (w_refused w) (w_subs w) (w_accepted w) (w_sent w).
Definition set_subs (m : gmap Z SharedSub) (w : datagramWriter) : datagramWriter :=
  MkWriter (w_queue w) (w_worker w) (w_stopped w) (w_sessDone w) (w_refused w) m (w_accepted w) (w_sent w).
Definition set_refused (l : list Z) (w : datagramWriter) : datagramWriter :=
  MkWriter (w_queue w) (w_worker w) (w_stopped w) (w_sessDone w) l (w_subs w) (w_accepted w) (w_sent w).

(** [sub.EndDatagram()]. *)
Definition end_datagram (id : Z) (w : datagramWriter) : datagramWriter :=
  set_subs (alter (fun s => sendPublishDone (EndDatagram (sh_d s)) s) id (w_subs w)) w.

Definition w_stop (w : datagramWriter) : datagramWriter :=
  MkWriter (w_queue w) (w_worker w) true (w_sessDone w) (w_refused w) (w_subs w) (w_accepted w) (w_sent w).
Definition session_done (w : datagramWriter) : datagramWriter :=
  MkWriter (w_queue w) (w_worker w) (w_stopped w) true (w_refused w) (w_subs w) (w_accepted w) (w_sent w).

Section Writer.
Context (size maxLag : Z).

(** The section of [enqueue]; the first datagram starts the worker. *)
Definition enqueue (id : Z) (d : ObjectDatagram) (receivedAt : Z) (w : datagramWriter) : datagramWriter :=
  match w_subs w !! id with
  | None => w
  | Some s =>
      if w_stopped w then w
      else
        let '(ok, d') := BeginDatagram (sh_d s) in
        if negb ok then w
        else
          let subs := <[id := on_d (fun _ => d') s]> (w_subs w) in
          let p := match w_worker w with WNone => WSelect | p => p end in
          let q := MkQueued id d receivedAt in
          if len (w_queue w) <? size
          then MkWriter (w_queue w ++ [q]) p (w_stopped w) (w_sessDone w) (w_refused w) subs (w_accepted w ++ [q]) (w_sent w)
          else MkWriter (w_queue w) p (w_stopped w) (w_sessDone w) (w_refused w ++ [id]) subs (w_accepted w) (w_sent w)
  end.

(** One step of the worker.  A select with several channels ready takes any of them:
    [take] prefers the queue.  [now] is the clock, [sent] whether the transport took
    the datagram. *)
Definition worker_step (take : bool) (now : Z) (sent : bool) (w : datagramWriter) : option datagramWriter :=
  match w_worker w with
  | WNone | WEnded => None
  | WSelect =>
      if take then match w_queue w with d :: q => Some (set_worker (WHeld d) (set_queue q w)) | [] => None end
      else if w_stopped w || w_sessDone w then Some (set_worker WStop w) else None
  | WHeld d => Some (set_worker (if w_stopped w || w_sessDone w then WEnd d false else WFresh d) w)
  | WFresh d =>
      match w_subs w !! q_sub d with
      | None => None
      | Some s =>
          Some (set_worker (if d_cancelled (sh_d s) || (now - q_receivedAt d >? maxLag) then WEnd d false else WCalling d now) w)
      end
  | WCalling d checkedAt =>
      let ok := match dg_Validate (q_object d) with Ok _ => sent | Err _ => false end in
      Some (MkWriter (w_queue w) (WEnd d false) (w_stopped w) (w_sessDone w) (w_refused w) (w_subs w) (w_accepted w)
              (if ok then w_sent w ++ [(d, checkedAt)] else w_sent w))
  | WEnd d draining => Some (set_worker (if draining then WDrain else WSelect) (end_datagram (q_sub d) w))
  | WStop => Some (set_worker WDrain (w_stop w))
  | WDrain => match w_queue w with d :: q => Some (set_worker (WEnd d true) (set_queue q w)) | [] => Some (set_worker WEnded w) end
  end.

(** The steps of a connection: a subscription attached to its writer, a section of a
    subscription that is not the writer's, [enqueue], the end of a refused one, [stop],
    the end of the session, the worker. *)
Inductive dw_op : Type :=
| DAttach (id : Z) (published : bool) (alias : Z)
| DSub (id : Z) (o : sub_op)
| DEnqueue (id : Z) (d : ObjectDatagram) (receivedAt : Z)
| DRefused (i : nat)
| DStop | DDone
| DWorker (take : bool) (now : Z) (sent : bool).

Definition of_writer (o : sub_op) : bool := match o with OBeginDatagram | OEndDatagram => true | _ => false end.

Definition dw_step (op : dw_op) (w : datagramWriter) : option datagramWriter :=
  match op with
  | DAttach id published alias =>
      match w_subs w !! id with
      | Some _ => None
      | None => Some (set_subs (<[id := sub_init published id alias]> (w_subs w)) w)
      end
  | DSub id o =>
      if of_writer o then None
      else s ← w_subs w !! id; s' ← sub_step o s; Some (set_subs (<[id := s']> (w_subs w)) w)
  | DEnqueue id d receivedAt => Some (enqueue id d receivedAt w)
  | DRefused i => id ← w_refused w !! i; Some (end_datagram id (set_refused (delete i (w_refused w)) w))
  | DStop => Some (w_stop w)
  | DDone => Some (session_done w)
  | DWorker take now sent => worker_step take now sent w
  end.

Fixpoint dw_run (ops : list dw_op) (w : datagramWriter) : option datagramWriter :=
  match ops with [] => Some w | op :: ops => dw_step op w ≫= dw_run ops end.

(** ** What the writer owes the subscriptions *)

Definition in_hand (w : datagramWriter) : list queuedDatagram :=
  match w_worker w with WHeld d | WFresh d | WCalling d _ | WEnd d _ => [d] | _ => [] end.

(** The subscription of every datagram taken on and not yet ended. *)
Definition owed (w : datagramWriter) : list Z := (q_sub <$> in_hand w ++ w_queue w) ++ w_refused w.
Definition owes (id : Z) (l : list Z) : Z := len (filter (fun x => x = id) l).

Lemma owes_perm id l l' : l ≡ₚ l' -> owes id l = owes id l'.
Proof. intros H. unfold owes, len. f_equal. apply Permutation_length. by rewrite H. Qed.
Lemma owes_cons id x l : owes id (x :: l) = (if bool_decide (x = id) then 1 else 0) + owes id l.
Proof. unfold owes. rewrite filter_cons. case_decide; case_bool_decide; try done. by rewrite len_cons; lia. Qed.
Lemma owes_nonneg id l : 0 <= owes id l.
Proof. unfold owes. apply len_nonneg. Qed.
Lemma owes_zero id l : id ∉ l -> owes id l = 0.
Proof.
  intros H. induction l as [|x l IH]; [done|]. apply not_elem_of_cons in H as [Hx Hl].
  rewrite owes_cons, bool_decide_eq_false_2, IH; done.
Qed.
Lemma owes_pos id l : id ∈ l -> 0 < owes id l.
Proof.
  induction l as [|x l IH]; intros H; [by apply elem_of_nil in H|]. rewrite owes_cons. apply elem_of_cons in H as [Hx|H].
  - rewrite bool_decide_eq_true_2 by done. pose proof (owes_nonneg id l). lia.
  - specialize (IH H). case_bool_decide; lia.
Qed.

Record subs_ok (subs : gmap Z SharedSub) (l : list Z) : Prop := {
  so_run : forall id s, subs !! id = Some s -> exists published alias ops, sub_run ops (sub_init published id alias) = Some s;
  so_count : forall id s, subs !! id = Some s -> datagramsSending (sh_d s) = owes id l;
  so_known : forall id, id ∈ l -> is_Some (subs !! id) }.

Lemma subs_ok_perm subs l l' : subs_ok subs l -> l ≡ₚ l' -> subs_ok subs l'.
Proof.
  intros [H1 H2 H3] Hp. split; [done|..].
  - intros id s Hs. by rewrite <- (owes_perm _ _ _ Hp), H2 with (id := id).
  - intros id Hid. apply H3. by rewrite Hp.
Qed.

Lemma subs_ok_insert subs l l' id s o s' : subs_ok subs l -> subs !! id = Some s -> sub_step o s = Some s' ->
  datagramsSending (sh_d s') = owes id l' -> (forall i, i <> id -> owes i l' = owes i l) -> (forall i, i ∈ l' -> i = id \/ i ∈ l) ->
  subs_ok (<[id := s']> subs) l'.
Proof.
  intros [H1 H2 H3] Hs Ho Hd Hn Hl. split.
  - intros i x Hx. destruct (decide (i = id)) as [->|Hi].
    + rewrite lookup_insert_eq in Hx. simplify_eq. destruct (H1 _ _ Hs) as (p & a & ops & Hr).
      exists p, a, (ops ++ [o]). rewrite sub_run_app, Hr. simpl. by rewrite Ho.
    + rewrite lookup_insert_ne in Hx by done. by apply H1.
  - intros i x Hx. destruct (decide (i = id)) as [->|Hi].
    + rewrite lookup_insert_eq in Hx. by simplify_eq.
    + rewrite lookup_insert_ne in Hx by done. rewrite Hn by done. by apply H2.
  - intros i Hi. destruct (decide (i = id)) as [->|Hne]; [rewrite lookup_insert_eq; eauto|].
    rewrite lookup_insert_ne by done. apply H3. destruct (Hl i Hi); done.
Qed.

Lemma sub_step_datagrams o s s' : of_writer o = false -> sub_step o s = Some s' ->
  datagramsSending (sh_d s') = datagramsSending (sh_d s).
Proof.
  destruct s as [d tasks wr log]. destruct d.
  destruct o as [[]| | | | | | | | | | | |]; try done; intros _; sub_unfold; simpl; intros Hs; repeat (case_match; simplify_eq/=); simplify_eq/=; done.
Qed.

Lemma sub_init_datagrams published id alias : datagramsSending (sh_d (sub_init published id alias)) = 0.
Proof. by destruct published. Qed.

Lemma release_datagrams d s : datagramsSending (sh_d (sendPublishDone (takeReadyDoneLocked d) s)) = datagramsSending d.
Proof. unfold takeReadyDoneLocked. repeat case_match; done. Qed.

Lemma subs_ok_end subs id l : subs_ok subs (id :: l) ->
  subs_ok (alter (fun s => sendPublishDone (EndDatagram (sh_d s)) s) id subs) l.
Proof.
  intros H. destruct (so_known _ _ H id) as [s Hs]; [by left|].
  assert (Hd : datagramsSending (sh_d s) = 1 + owes id l).
  { rewrite (so_count _ _ H _ _ Hs), owes_cons. by rewrite bool_decide_eq_true_2. }
  assert (alter (fun s => sendPublishDone (EndDatagram (sh_d s)) s) id subs = <[id := sendPublishDone (EndDatagram (sh_d s)) s]> subs) as ->.
  { apply map_eq. intros i. destruct (decide (i = id)) as [->|Hi].
    - by rewrite lookup_alter_eq, lookup_insert_eq, Hs.
    - by rewrite lookup_alter_ne, lookup_insert_ne. }
  eapply (subs_ok_insert subs (id :: l) l id s OEndDatagram); [done|done|..].
  - unfold sub_step. assert ((0 <? datagramsSending (sh_d s)) = true) as ->; [|done].
    pose proof (owes_nonneg id l). lia.
  - unfold EndDatagram. rewrite release_datagrams. simpl. lia.
  - intros i Hi. rewrite owes_cons, bool_decide_eq_false_2; [lia|congruence].
  - intros i Hi. right. by right.
Qed.

Lemma subs_ok_begin subs id l s d : subs_ok subs l -> subs !! id = Some s -> BeginDatagram (sh_d s) = (true, d) ->
  subs_ok (<[id := on_d (fun _ => d) s]> subs) (id :: l).
Proof.
  intros H Hs Hb. eapply (subs_ok_insert subs l _ id s OBeginDatagram); [done|done|..].
  - simpl. unfold on_d. by rewrite Hb.
  - rewrite owes_cons, bool_decide_eq_true_2 by done. rewrite <- (so_count _ _ H _ _ Hs). unfold BeginDatagram in Hb.
    case_bool_decide; simplify_eq. simpl. lia.
  - intros i Hi. rewrite owes_cons, bool_decide_eq_false_2; [lia|congruence].
  - intros i Hi. by apply elem_of_cons.
Qed.

Lemma subs_ok_other subs id l s o s' : subs_ok subs l -> subs !! id = Some s -> of_writer o = false -> sub_step o s = Some s' ->
  subs_ok (<[id := s']> subs) l.
Proof.
  intros H Hs Ho Hst. eapply (subs_ok_insert subs l l); [done|done|done| |done|by right].
  by rewrite (sub_step_datagrams _ _ _ Ho Hst), (so_count _ _ H _ _ Hs).
Qed.

Lemma subs_ok_attach subs id l published alias : subs_ok subs l -> subs !! id = None ->
  subs_ok (<[id := sub_init published id alias]> subs) l.
Proof.
  intros [H1 H2 H3] Hn. split.
  - intros i s. destruct (decide (i = id)) as [->|Hi]; [|rewrite lookup_insert_ne by done; apply H1].
    rewrite lookup_insert_eq. intros [= <-]. by exists published, alias, [].
  - intros i s. destruct (decide (i = id)) as [->|Hi]; [|rewrite lookup_insert_ne by done; apply H2].
    rewrite lookup_insert_eq. intros [= <-]. rewrite sub_init_datagrams, owes_zero; [done|].
    intros Hin. apply H3 in Hin as [? ?]. congruence.
  - intros i Hi. destruct (H3 i Hi) as [s Hs]. rewrite lookup_insert_ne by congruence. eauto.
Qed.

Definition handled (w : datagramWriter) : list queuedDatagram := match w_worker w with WEnd d _ => [d] | _ => [] end.
Definition stops (p : worker) : bool := match p with WDrain | WEnd _ true | WEnded => true | _ => false end.

Record writer_ok (w : datagramWriter) : Prop := {
  wi_subs : subs_ok (w_subs w) (owed w);
  wi_fifo : exists past, w_accepted w = past ++ in_hand w ++ w_queue w /\ (w_sent w).*1 `sublist_of` past ++ handled w;
  wi_lag : Forall (fun x => x.2 - q_receivedAt x.1 <= maxLag) (w_sent w);
  wi_calling : forall d t, w_worker w = WCalling d t -> t - q_receivedAt d <= maxLag;
  wi_size : len (w_queue w) <= size;
  wi_stop : stops (w_worker w) = true -> w_stopped w = true;
  wi_rest : w_worker w = WNone \/ w_worker w = WEnded -> w_queue w = [] /\ (w_worker w = WNone -> w_refused w = []) }.

Lemma writer_init_ok : 0 < size -> writer_ok newDatagramWriter.
Proof.
  intros Hs. split; simpl; try done.
  - split; simpl; [done|done|]. by intros id ?%elem_of_nil.
  - by exists [].
  - rewrite len_nil. lia.
Qed.

(** A step that leaves the worker, the queue and the records as they are. *)
Lemma writer_ok_subs w w' : writer_ok w -> w_queue w' = w_queue w -> w_worker w' = w_worker w -> w_accepted w' = w_accepted w ->
  w_sent w' = w_sent w -> (w_stopped w = true -> w_stopped w' = true) -> (w_refused w = [] -> w_refused w' = []) ->
  subs_ok (w_subs w') (owed w') -> writer_ok w'.
Proof.
  intros [H1 H2 H3 H4 H5 H6 H7] Eq Ew Ea Es Hst Hr Hs. split.
  - done.
  - unfold in_hand, handled. by rewrite Eq, Ew, Ea, Es.
  - by rewrite Es.
  - by rewrite Ew.
  - by rewrite Eq.
  - rewrite Ew. auto.
  - rewrite Ew, Eq. intros H. destruct (H7 H) as [? ?]. split; auto.
Qed.

Lemma end_datagram_owed id l w : subs_ok (w_subs w) l -> l ≡ₚ id :: owed w -> subs_ok (w_subs (end_datagram id w)) (owed (end_datagram id w)).
Proof. intros H Hp. unfold end_datagram. simpl. apply subs_ok_end. by eapply subs_ok_perm. Qed.

Lemma dw_enqueue_ok id d at' w : writer_ok w -> writer_ok (enqueue id d at' w).
Proof.
  intros Hok. unfold enqueue. destruct (w_subs w !! id) as [s|] eqn:Es; [|done].
  destruct (w_stopped w) eqn:Est; [done|]. destruct (BeginDatagram (sh_d s)) as [[] d'] eqn:Eb; simpl; [|done].
  pose proof (subs_ok_begin _ _ _ _ _ (wi_subs _ Hok) Es Eb) as Hs. destruct Hok as [H1 (past & H2 & H2') H3 H4 H5 H6 H7].
  assert (Hh : forall q st r m a sn, in_hand (MkWriter q (match w_worker w with WNone => WSelect | p => p end) st (w_sessDone w) r m a sn) = in_hand w).
  { intros. unfold in_hand. simpl. by destruct (w_worker w). }
  destruct (len (w_queue w) <? size) eqn:El; split; simpl; try done.
  - eapply subs_ok_perm; [exact Hs|]. unfold owed. rewrite Hh. simpl. rewrite !fmap_app. simpl. solve_Permutation.
  - exists past. rewrite Hh. simpl. split; [by rewrite H2, <- !app_assoc|]. unfold handled in *. simpl. by destruct (w_worker w).
  - intros d0 t E. apply H4. by destruct (w_worker w).
  - rewrite len_app, len_cons, len_nil. lia.
  - intros E. specialize (H6 ltac:(by destruct (w_worker w))). congruence.
  - intros [E|E]; [by destruct (w_worker w)|]. specialize (H6 ltac:(destruct (w_worker w); simplify_eq; done)). congruence.
  - eapply subs_ok_perm; [exact Hs|]. unfold owed. rewrite Hh. simpl. solve_Permutation.
  - exists past. rewrite Hh. simpl. split; [done|]. unfold handled in *. simpl. by destruct (w_worker w).
  - intros d0 t E. apply H4. by destruct (w_worker w).
  - intros E. specialize (H6 ltac:(by destruct (w_worker w))). congruence.
  - intros [E|E]; [by destruct (w_worker w)|]. specialize (H6 ltac:(destruct (w_worker w); simplify_eq; done)). congruence.
Qed.

Lemma worker_step_ok take now sent w w' : writer_ok w -> worker_step take now sent w = Some w' -> writer_ok w'.
Proof.
  intros [H1 (past & H2 & H2') H3 H4 H5 H6 H7]. destruct w as [q p st sd rf subs acc sn]. unfold owed, in_hand, handled in *. simpl in *.
  unfold worker_step. simpl. destruct p as [| |d|d|d t|d b| | |]; simpl in *; try done.
  - destruct take.
    + destruct q as [|d q]; [done|]. intros [= <-]. rewrite len_cons in H5.
      split; simpl; try done; [|lia|by intros []]. exists past. by rewrite app_nil_r in *.
    + destruct (st || sd); [|done]. intros [= <-]. split; simpl; try done; [eauto|by intros []].
  - intros [= <-]. destruct (st || sd); split; simpl; try done; try (by intros []); [|eauto].
    exists past. split; [done|]. rewrite app_nil_r in H2'. by apply sublist_inserts_r.
  - destruct (subs !! q_sub d) as [s|]; [|done]. intros [= <-].
    destruct (d_cancelled (sh_d s) || (now - q_receivedAt d >? maxLag)) eqn:E; split; simpl; try done; try (by intros []).
    + exists past. split; [done|]. rewrite app_nil_r in H2'. by apply sublist_inserts_r.
    + eauto.
    + intros ? ? [= <- <-]. apply orb_false_iff in E as [_ E]. rewrite Z.gtb_ltb in E. lia.
  - intros [= <-]. rewrite app_nil_r in H2'. destruct (match dg_Validate (q_object d) with Ok _ => sent | Err _ => false end);
      split; simpl; try done; try (by intros []).
    + exists past. split; [done|]. rewrite fmap_app. simpl. by apply sublist_app.
    + apply Forall_app. split; [done|]. apply Forall_cons. split; [simpl; by apply H4|by apply Forall_nil].
    + exists past. split; [done|]. by apply sublist_inserts_r.
  - intros [= <-]. assert (Hs : subs_ok (alter (fun s => sendPublishDone (EndDatagram (sh_d s)) s) (q_sub d) subs) ((q_sub <$> q) ++ rf)).
    { by apply subs_ok_end. }
    assert (Hf : acc = (past ++ [d]) ++ [] ++ q) by (by rewrite <- app_assoc).
    destruct b; split; simpl; try done; try (by intros []); exists (past ++ [d]); by rewrite app_nil_r.
  - intros [= <-]. split; simpl; try done; [eauto|by intros []].
  - destruct q as [|d q]; intros [= <-]; (split; simpl; try done).
    + eauto.
    + exists past. split; [done|]. rewrite app_nil_r in H2'. by apply sublist_inserts_r.
    + rewrite len_cons in H5. lia.
    + by intros [].
Qed.

Lemma dw_step_ok op w w' : writer_ok w -> dw_step op w = Some w' -> writer_ok w'.
Proof.
  intros Hok. destruct op as [id pub alias|id o|id d at'|i| | |take now sent]; simpl.
  - destruct (w_subs w !! id) eqn:E; [done|]. intros [= <-]. eapply writer_ok_subs; try done. by apply subs_ok_attach; [apply Hok|].
  - destruct (of_writer o) eqn:Eo; [done|]. destruct (w_subs w !! id) as [s|] eqn:Es; [|done]. simpl.
    destruct (sub_step o s) as [s'|] eqn:Ess; [|done]. intros [= <-]. eapply writer_ok_subs; try done.
    eapply subs_ok_other; eauto. apply Hok.
  - intros [= <-]. by apply dw_enqueue_ok.
  - destruct (w_refused w !! i) as [id|] eqn:Ei; [|done]. intros [= <-]. eapply writer_ok_subs; try done.
    + simpl. intros E. by rewrite E in Ei.
    + eapply end_datagram_owed; [exact (wi_subs _ Hok)|]. unfold owed, in_hand. simpl.
      pose proof (delete_Permutation _ _ _ Ei) as Hp. set (rest := delete i (w_refused w)) in *. clearbody rest. rewrite Hp. solve_Permutation.
  - intros [= <-]. eapply writer_ok_subs; try done. apply Hok.
  - intros [= <-]. eapply writer_ok_subs; try done. apply Hok.
  - by apply worker_step_ok.
Qed.

Lemma dw_run_ok ops : forall w w', writer_ok w -> dw_run ops w = Some w' -> writer_ok w'.
Proof.
  induction ops as [|op ops IH]; simpl; intros w w' Hok Hr; [by simplify_eq|].
  destruct (dw_step op w) as [w1|] eqn:E; [|done]. eapply IH; [by eapply dw_step_ok|done].
Qed.

(** ** PUBLISH_DONE and the datagrams *)

(** The subscription's PUBLISH_DONE is on its way or written. *)
Definition done_released (s : SharedSub) : Prop :=
  (exists p count, TaskDone p count ∈ sh_tasks s) \/
  (exists log p count, sh_log s = log ++ [RqMsg (publish_done p count); RqClose]).

Lemma done_released_idle published id alias ops s : sub_run ops (sub_init published id alias) = Some s ->
  done_released s -> datagramsSending (sh_d s) = 0.
Proof.
  intros Hr Hd. destruct (sub_run_inv _ _ _ _ _ (init_accounts _ _ _) (init_phase _ _ _) Hr) as [_ Hp].
  destruct Hd as [(p & count & Hin)|(log & p & count & El)].
  - destruct Hp as [? ? ? Et|? ? ? ? ? Et|t ? ? ? Et Ht|? ? ? Et|? ? ? ? ? Et]; rewrite Et in Hin; try by apply elem_of_nil in Hin.
    apply list_elem_of_singleton in Hin as <-. apply Ht.
  - assert (Hnm : Forall is_msg (sh_log s) -> False).
    { rewrite El. intros H. apply Forall_app in H as [_ H]. apply Forall_cons in H as [_ H]. apply Forall_cons in H as [[m H] _]. done. }
    destruct Hp as [| | | |msgs tail _ _ _ _ El' _ Ha]; try (by exfalso; eauto).
    rewrite El in El'. assert (El2 : log ++ [RqMsg (publish_done p count)] ++ [RqClose] = msgs ++ tail) by (by rewrite <- El').
    destruct Ha as [q ? ? Hi|q ? ? Hi| | | |]; [by apply Hi|by apply Hi|..]; exfalso.
    + replace (msgs ++ _) with ((msgs ++ [RqMsg (request_error p0); RqClose]) ++ [RqDiscard]) in El2 by (by rewrite <- app_assoc).
      rewrite app_assoc in El2. by apply app_inj_tail in El2 as [_ ?].
    + rewrite app_assoc in El2. change [RqCancelRead StreamResetInternalError; RqCancelWrite StreamResetInternalError] with
        ([RqCancelRead StreamResetInternalError] ++ [RqCancelWrite StreamResetInternalError]) in El2. rewrite app_assoc in El2.
      by apply app_inj_tail in El2 as [_ ?].
    + rewrite app_assoc in El2. change [RqClose; RqCancelRead StreamResetCancelled] with ([RqClose] ++ [RqCancelRead StreamResetCancelled]) in El2.
      rewrite app_assoc in El2. by apply app_inj_tail in El2 as [_ ?].
    + rewrite app_assoc in El2. change [RqCancelRead code; RqCancelWrite code] with ([RqCancelRead code] ++ [RqCancelWrite code]) in El2.
      rewrite app_assoc in El2. by apply app_inj_tail in El2 as [_ ?].
Qed.

(** the datagrams of a connection are accounted for.  In every interleaving of
    enqueues, the worker, [stop], the end of the session and the subscriptions' own
    sections: a subscription counts exactly its datagrams that are queued, in the
    worker's hands or refused and not yet ended, and moves only by its own sections,
    so its PUBLISH_DONE is not released while one of them is outstanding; the
    transport gets the datagrams in the order they were queued, each at most once and
    none that had waited longer than [maxLag] when the worker last looked; and the
    queue keeps its bound. *)
Theorem datagrams_accounted ops w : 0 < size -> dw_run ops newDatagramWriter = Some w ->
  (forall id s, w_subs w !! id = Some s ->
     (exists published alias sops, sub_run sops (sub_init published id alias) = Some s) /\
     datagramsSending (sh_d s) = owes id (owed w) /\ (done_released s -> id ∉ owed w)) /\
  (exists past, w_accepted w = past ++ in_hand w ++ w_queue w /\ (w_sent w).*1 `sublist_of` past ++ handled w) /\
  Forall (fun x => x.2 - q_receivedAt x.1 <= maxLag) (w_sent w) /\
  len (w_queue w) <= size.
Proof.
  intros Hsz Hr. pose proof (dw_run_ok _ _ _ (writer_init_ok Hsz) Hr) as [H1 H2 H3 _ H5 _ _]. split; [|done].
  intros id s Hs. destruct (so_run _ _ H1 _ _ Hs) as (pub & al & sops & Hsr). split; [by exists pub, al, sops|].
  pose proof (so_count _ _ H1 _ _ Hs) as Hc. split; [done|]. intros Hd Hin.
  rewrite (done_released_idle _ _ _ _ _ Hsr Hd) in Hc. pose proof (owes_pos _ _ Hin). lia.
Qed.

(** ** After [stop] *)

Definition rank (p : worker) : Z :=
  match p with
  | WNone => 8 | WHeld _ => 7 | WFresh _ => 6 | WCalling _ _ => 5 | WEnd _ false => 4 | WSelect => 3
  | WEnd _ true => 2 | WStop => 2 | WDrain => 1 | WEnded => 0
  end.
Definition left_to_do (w : datagramWriter) : Z := 5 * len (w_queue w) + rank (w_worker w).
Definition is_worker (op : dw_op) : bool := match op with DWorker _ _ _ => true | _ => false end.

Lemma worker_step_left take now sent w w' : w_stopped w = true -> worker_step take now sent w = Some w' ->
  left_to_do w' < left_to_do w /\ w_stopped w' = true.
Proof.
  destruct w as [q p st sd rf subs acc sn]. unfold worker_step, left_to_do. simpl. intros ->.
  destruct p as [| |d|d|d t|d b| | |]; simpl; try done.
  - destruct take; [destruct q as [|d q]; [done|]|]; intros [= <-]; simpl; rewrite ?len_cons; split; done || lia.
  - intros [= <-]. simpl. split; done || lia.
  - destruct (subs !! q_sub d) as [s|]; [|done]. intros [= <-]. simpl. split; [|done]. case_match; simpl; lia.
  - intros [= <-]. simpl. split; done || lia.
  - intros [= <-]. destruct b; simpl; split; done || lia.
  - intros [= <-]. simpl. split; done || lia.
  - destruct q as [|d q]; intros [= <-]; simpl; rewrite ?len_cons; split; done || lia.
Qed.

Lemma other_step_left op w w' : w_stopped w = true -> is_worker op = false -> dw_step op w = Some w' ->
  left_to_do w' = left_to_do w /\ w_stopped w' = true.
Proof.
  intros Hs Hw. destruct op as [id pub alias|id o|id d at'|i| | |take now sent]; try done; simpl.
  - destruct (w_subs w !! id); [done|]. by intros [= <-].
  - destruct (of_writer o); [done|]. destruct (w_subs w !! id) as [s|]; [|done]. simpl.
    destruct (sub_step o s); [|done]. by intros [= <-].
  - intros [= <-]. unfold enqueue. rewrite Hs. by destruct (w_subs w !! id).
  - destruct (w_refused w !! i); [|done]. by intros [= <-].
  - by intros [= <-].
  - by intros [= <-].
Qed.

Lemma rank_pos p : 0 <= rank p.
Proof. destruct p; simpl; try lia. by destruct draining. Qed.

Lemma stopped_run ops : forall w w', w_stopped w = true -> dw_run ops w = Some w' ->
  len (List.filter is_worker ops) + left_to_do w' <= left_to_do w /\ w_stopped w' = true.
Proof.
  induction ops as [|op ops IH]; intros w w' Hs Hr; simpl in *; [simplify_eq; rewrite len_nil; split; done || lia|].
  destruct (dw_step op w) as [w1|] eqn:E; [|done]. destruct (is_worker op) eqn:Ew.
  - destruct op; try done. destruct (worker_step_left _ _ _ _ _ Hs E) as [Hl Hs1]. destruct (IH _ _ Hs1 Hr) as [Hl2 Hs2].
    rewrite len_cons. split; done || lia.
  - destruct (other_step_left _ _ _ Hs Ew E) as [Hl Hs1]. rewrite <- Hl. by apply IH.
Qed.

(** a stopped writer lets every subscription go.  Once [stop] has run, whatever
    else happens, the worker takes at most five steps per datagram queued and eight
    more; until it ends some step of it is enabled, whatever the transport answers;
    and when it has ended, or was never started, the only datagrams still counted are
    those of refused enqueues, each of which can be ended at any moment, so that
    without them no PUBLISH_DONE waits for a datagram. *)
Theorem stopped_writer_releases ops ops' w w' : 0 < size -> dw_run ops newDatagramWriter = Some w -> w_stopped w = true ->
  dw_run ops' w = Some w' ->
  len (List.filter is_worker ops') <= 5 * len (w_queue w) + 8 /\
  (w_worker w' = WNone \/ w_worker w' = WEnded \/ forall now sent, is_Some (worker_step false now sent w')) /\
  (w_worker w' = WNone \/ w_worker w' = WEnded -> owed w' = w_refused w') /\
  (forall i, is_Some (w_refused w' !! i) -> is_Some (dw_step (DRefused i) w')) /\
  (w_worker w' = WNone \/ w_worker w' = WEnded -> w_refused w' = [] ->
     forall id s, w_subs w' !! id = Some s -> datagramsSending (sh_d s) = 0).
Proof.
  intros Hsz Hr Hst Hr'. pose proof (dw_run_ok _ _ _ (writer_init_ok Hsz) Hr) as Hok.
  pose proof (dw_run_ok _ _ _ Hok Hr') as Hok'. destruct (stopped_run _ _ _ Hst Hr') as [Hl Hst'].
  assert (Ho : w_worker w' = WNone \/ w_worker w' = WEnded -> owed w' = w_refused w').
  { intros H. unfold owed, in_hand. destruct (wi_rest _ Hok' H) as [-> _]. by destruct H as [-> | ->]. }
  split_and!; [|..|done| |].
  - unfold left_to_do in Hl. assert (rank (w_worker w) <= 8) by (destruct (w_worker w); simpl; try lia; by destruct draining).
    pose proof (rank_pos (w_worker w')). pose proof (len_nonneg (w_queue w')). lia.
  - pose proof (wi_subs _ Hok') as Hsub. unfold worker_step, owed, in_hand in *. rewrite Hst'.
    destruct (w_worker w') as [| |d|d|d t|d b| | |]; try (by auto); right; right; intros now sent; simpl; try (by eexists).
    + destruct (so_known _ _ Hsub (q_sub d)) as [s ->]; [by left|]. by eexists.
    + destruct (w_queue w'); by eexists.
  - intros i [id Hi]. simpl. rewrite Hi. by eexists.
  - intros H Hrf id s Hs. rewrite (so_count _ _ (wi_subs _ Hok') _ _ Hs), (Ho H), Hrf. done.
Qed.
End Writer.

(** ** A connection, run

    Two subscriptions, a queue of one: the second datagram finds it full; the
    third waits too long; then the first subscription ends, and the writer stops. *)
Definition sample_dg (alias object : Z) : ObjectDatagram := MkDatagram 0 alias 3 object 9 [] 0 [Byte.x41].
Definition sample_ops : list dw_op :=
  [DAttach 1 false 10; DAttach 2 false 20; DEnqueue 1 (sample_dg 10 0) 0; DEnqueue 2 (sample_dg 20 0) 0; DWorker true 0 false;
   DEnqueue 1 (sample_dg 10 1) 1; DWorker false 5 false; DWorker false 5 false; DWorker false 5 true; DWorker false 5 false;
   DWorker true 9 false; DWorker true 9 false; DWorker true 9 false;
   DSub 1 (OTerminateWithPublishDone PublishDoneTrackEnded [])].
Definition sample_writer : option datagramWriter := dw_run 1 5 sample_ops newDatagramWriter.
Definition sample_stopped : option datagramWriter := sample_writer ≫= dw_run 1 5 [DStop].
Definition sample_tail : list dw_op :=
  [DWorker false 9 false; DRefused 0; DEnqueue 2 (sample_dg 20 1) 9; DWorker false 9 false; DWorker false 9 false; DWorker false 9 false].
Definition sample_end : option datagramWriter := sample_stopped ≫= dw_run 1 5 sample_tail.

Lemma datagrams_accounted_witness : exists w s, sample_writer = Some w /\ w_subs w !! 1 = Some s /\
  datagramsSending (sh_d s) = 1 /\ pendingDone (sh_d s) <> None /\ w_refused w = [2] /\ (w_sent w).*2 = [5] /\
  datagramsSending (sh_d s) = owes 1 (owed w) /\ len (w_queue w) <= 1.
Proof.
  destruct sample_writer as [w|] eqn:Ew; [|by vm_compute in Ew].
  assert (Hs : exists s, (sample_writer ≫= fun w => w_subs w !! 1) = Some s /\ datagramsSending (sh_d s) = 1 /\ pendingDone (sh_d s) <> None).
  { eexists. split; [vm_compute; reflexivity|]. by vm_compute. }
  assert (Hr : (w_refused <$> sample_writer, (fun w => (w_sent w).*2) <$> sample_writer) = (Some [2], Some [5])) by (vm_compute; reflexivity).
  rewrite Ew in Hs, Hr. destruct Hs as (s & Hs & H1 & H2). simpl in Hs, Hr. injection Hr as Hr1 Hr2.
  exists w, s. unfold sample_writer in Ew. destruct (datagrams_accounted 1 5 sample_ops w) as (A & _ & _ & B); [lia|done|].
  destruct (A 1 s Hs) as (_ & C & _). by split_and!.
Defined.

Lemma stopped_writer_releases_witness : exists w w' s, sample_stopped = Some w /\ sample_end = Some w' /\ w_worker w' = WEnded /\
  w_subs w' !! 1 = Some s /\ datagramsSending (sh_d s) = 0 /\ len (sh_tasks s) = 1.
Proof.
  destruct sample_stopped as [w|] eqn:Ew; [|by vm_compute in Ew]. destruct sample_end as [w'|] eqn:Ew'; [|by vm_compute in Ew'].
  assert (Hs : exists s, (sample_end ≫= fun w => w_subs w !! 1) = Some s /\ len (sh_tasks s) = 1).
  { eexists. split; [vm_compute; reflexivity|]. by vm_compute. }
  assert (Hr : (w_worker <$> sample_end, w_refused <$> sample_end, w_stopped <$> sample_stopped) = (Some WEnded, Some [], Some true)) by (vm_compute; reflexivity).
  rewrite Ew' in Hs, Hr. rewrite Ew in Hr. destruct Hs as (s & Hs & H1). simpl in Hs, Hr. injection Hr as Hr1 Hr2 Hr3.
  exists w, w', s. unfold sample_end in Ew'. rewrite Ew in Ew'.
  destruct (stopped_writer_releases 1 5 (sample_ops ++ [DStop]) sample_tail w w' ltac:(lia)) as (_ & _ & _ & _ & A); [|done|exact Ew'|].
  - rewrite <- Ew. vm_compute. reflexivity.
  - split_and!; try done. by apply (A (or_intror Hr1) Hr2 1 s Hs).
Defined.
