(* ===== verification/Datagrams.v ===== *)
(** * Datagrams: Objects that arrive in datagrams

    [pkg/relay/handler_datagram.go]: the receive loop of each upstream session
    ([runDatagramLoop], [handleDatagram]), for one Track.  A loop is a state machine
    whose phases lie between its calls on the Track's ledger, cache, watermark and
    subscriptions; the loops of several sessions, the Track's streams and its
    subscribers interleave.  The queue a forwarded datagram goes to is
    [DatagramWriter]. *)

From stdpp Require Import gmap.
From S2P Require Import Prelude Codes Varint Wire KV Track Filter Params Properties RangeFilter Messages Objects Streams.
From S2P Require Import Cache FetchRanges FetchServe Ledger Stitch Tokens Session Subs Fanout FanoutSet Contributors.

(** ** One datagram *)

Definition set_priority (p : Z) (d : ObjectDatagram) : ObjectDatagram :=
  MkDatagram (dg_Type d) (dg_TrackAlias d) (dg_GroupID d) (dg_ObjectID d) p (dg_Properties d) (dg_ObjectStatus d)
    (dg_ObjectPayload d).

(** DEFAULT_PUBLISHER_PRIORITY, for a datagram that omits its priority. *)
Definition resolve_priority (inb : InboundTrack) (d : ObjectDatagram) : ObjectDatagram :=
  if HasDefaultPriority d then set_priority (in_DefaultPublisherPriority inb) d else d.

Definition datagram_info (d : ObjectDatagram) : ObjectInfo :=
  MkInfo (dg_GroupID d) (dg_ObjectID d) 0 true (dg_PublisherPriority d) (dg_ObjectStatus d) (HasEndOfGroup d)
    (ObjectPriorGaps (dg_Properties d)).
Definition dg_loc (d : ObjectDatagram) : Location := MkLoc (dg_GroupID d) (dg_ObjectID d).

(** The copy a redundant datagram is compared as. *)
Definition duplicate_of (d : ObjectDatagram) : CachedObject :=
  MkCached (dg_GroupID d) (dg_ObjectID d) 0 (dg_PublisherPriority d) ForwardingDatagram (dg_ObjectStatus d)
    (dg_Properties d) (dg_ObjectPayload d) 0 0 false false false false.

Definition cache_datagram (now : Z) (inb : InboundTrack) (d : ObjectDatagram) (c : ObjectCache) : ObjectCache :=
  PutDatagram now (Some d) (default 0 (in_MaxCacheDuration inb)) (bool_decide (is_Some (in_MaxCacheDuration inb))) c.

(** Whether a subscription is offered a datagram, and the copy it gets. *)
Definition wants (sub : DownstreamSub) (d : ObjectDatagram) : bool :=
  match ForwardDecision (dg_GroupID d) (dg_ObjectID d) 0 (dg_PublisherPriority d) (dg_Properties d) sub with
  | Ok Forward => true
  | _ => false
  end.
Definition forwarded_copy (sub : DownstreamSub) (d : ObjectDatagram) : ObjectDatagram :=
  MkDatagram (if IncludesProperties sub then dg_Type d else Z.ldiff (dg_Type d) DatagramDefaultPriorityBit)
    (s_TrackAlias (d_sub sub)) (dg_GroupID d) (dg_ObjectID d) (dg_PublisherPriority d) (dg_Properties d) (dg_ObjectStatus d)
    (dg_ObjectPayload d).

(** ** The receive loops of a Track *)

Inductive dloop : Type :=
| LIdle | LReceived (inb : InboundTrack) (d : ObjectDatagram) | LRedundant (d : ObjectDatagram)
| LFresh (inb : InboundTrack) (d : ObjectDatagram) | LCached (d : ObjectDatagram) | LRaised (d : ObjectDatagram)
| LOffering (d : ObjectDatagram) (ids : list Z)
| LClosed (err : error).

(** A copy handed to a subscription: its state then, the datagram and the copy. *)
Record offer : Type := MkOffer { of_sub : Z; of_state : DownstreamSub; of_in : ObjectDatagram; of_out : ObjectDatagram }.

(** [dl_fresh] records the Locations claimed fresh on the Track, by datagrams and by
    streams; [dl_received] the datagrams that arrived, with the Track's binding;
    [dl_malformed] the errors the Track was ended with. *)
Record DatagramLoops : Type := MkLoops {
  dl_e : TrackLedger; dl_w : Watermark; dl_loops : gmap Z dloop; dl_fresh : list Location;
  dl_received : list (InboundTrack * ObjectDatagram); dl_offered : list offer; dl_malformed : list error }.

Definition loops0 (c : ObjectCache) (w : Watermark) (sessions : gset Z) : DatagramLoops :=
  MkLoops (ledger0 c) w (gset_to_gmap LIdle sessions) [] [] [] [].

Definition at_phase (c : Z) (p : dloop) (s : DatagramLoops) : DatagramLoops :=
  MkLoops (dl_e s) (dl_w s) (<[c := p]> (dl_loops s)) (dl_fresh s) (dl_received s) (dl_offered s) (dl_malformed s).
Definition with_ledger (e : TrackLedger) (fresh : list Location) (s : DatagramLoops) : DatagramLoops :=
  MkLoops e (dl_w s) (dl_loops s) fresh (dl_received s) (dl_offered s) (dl_malformed s).
Definition with_mark (w : Watermark) (s : DatagramLoops) : DatagramLoops :=
  MkLoops (dl_e s) w (dl_loops s) (dl_fresh s) (dl_received s) (dl_offered s) (dl_malformed s).
Definition malformed_track (err : error) (s : DatagramLoops) : DatagramLoops :=
  MkLoops (dl_e s) (dl_w s) (dl_loops s) (dl_fresh s) (dl_received s) (dl_offered s) (dl_malformed s ++ [err]).

(** A turn of [runDatagramLoop] up to the claim: [track] is the Track's binding when
    the datagram's alias names it. *)
Definition receive (c : Z) (track : option InboundTrack) (got : read ObjectDatagram (list bytes)) (s : DatagramLoops) : DatagramLoops :=
  match got with
  | Got d _ =>
      match track with
      | None => s
      | Some inb =>
          MkLoops (dl_e s) (dl_w s) (<[c := LReceived inb (resolve_priority inb d)]> (dl_loops s)) (dl_fresh s)
            (dl_received s ++ [(inb, d)]) (dl_offered s) (dl_malformed s)
      end
  | Malformed err (Some _) _ => match track with None => s | Some _ => malformed_track err s end
  | Malformed err None _ => s
  | Failed err _ => at_phase c (LClosed err) s
  end.

Definition claim_datagram (now : Z) (c : Z) (inb : InboundTrack) (d : ObjectDatagram) (s : DatagramLoops) : DatagramLoops :=
  let '(r, e) := ClaimDelivered now (datagram_info d) (dl_e s) in
  match r with
  | Err err => malformed_track err (at_phase c LIdle (with_ledger e (dl_fresh s) s))
  | Ok ClaimFresh => at_phase c (LFresh inb d) (with_ledger e (dg_loc d :: dl_fresh s) s)
  | Ok _ => at_phase c (LRedundant d) (with_ledger e (dl_fresh s) s)
  end.

Definition redundant_datagram (now : Z) (c : Z) (d : ObjectDatagram) (s : DatagramLoops) : DatagramLoops :=
  let '(r, e) := recordRedundant now (datagram_info d) (duplicate_of d) (dl_e s) in
  let s := at_phase c LIdle (with_ledger e (dl_fresh s) s) in
  match r with Err err => malformed_track err s | Ok _ => s end.

Definition offer_datagram (c : Z) (sub : DownstreamSub) (d : ObjectDatagram) (id : Z) (ids : list Z) (s : DatagramLoops) : DatagramLoops :=
  MkLoops (dl_e s) (dl_w s) (<[c := LOffering d ids]> (dl_loops s)) (dl_fresh s) (dl_received s)
    (if wants sub d then dl_offered s ++ [MkOffer id sub d (forwarded_copy sub d)] else dl_offered s) (dl_malformed s).

(** The steps: those of the loop of session [c], and what the Track's other streams
    do with the ledger, the cache and the watermark.  [RCopy] gives the subscribers
    [CopyDownstream] returns; [ROffer] the next one's state when its turn comes. *)
Inductive dl_op : Type :=
| RReceive (c : Z) (track : option InboundTrack) (raws : list bytes)
| RClaim (c now : Z) | RDuplicate (c now : Z) | RPut (c now : Z) | RRaise (c : Z)
| RCopy (c : Z) (ids : list Z) | ROffer (c : Z) (sub : DownstreamSub) | RNext (c : Z)
| RLedger (op : ledger_op) | RCache (ca : ObjectCache) | RMark (loc : Location).

Definition dl_step (op : dl_op) (s : DatagramLoops) : option DatagramLoops :=
  match op with
  | RReceive c track raws =>
      match dl_loops s !! c with
      | Some LIdle => (fun got => receive c track got s) <$> ReceiveDatagram raws
      | _ => None
      end
  | RClaim c now => match dl_loops s !! c with Some (LReceived inb d) => Some (claim_datagram now c inb d s) | _ => None end
  | RDuplicate c now => match dl_loops s !! c with Some (LRedundant d) => Some (redundant_datagram now c d s) | _ => None end
  | RPut c now =>
      match dl_loops s !! c with
      | Some (LFresh inb d) =>
          Some (at_phase c (LCached d) (with_ledger (set_cache (dl_e s) (cache_datagram now inb d (t_Cache (dl_e s)))) (dl_fresh s) s))
      | _ => None
      end
  | RRaise c =>
      match dl_loops s !! c with
      | Some (LCached d) => Some (at_phase c (LRaised d) (with_mark (UpdateLargest (dg_loc d) (dl_w s)).2 s))
      | _ => None
      end
  | RCopy c ids => match dl_loops s !! c with Some (LRaised d) => Some (at_phase c (LOffering d ids) s) | _ => None end
  | ROffer c sub =>
      match dl_loops s !! c with Some (LOffering d (id :: ids)) => Some (offer_datagram c sub d id ids s) | _ => None end
  | RNext c => match dl_loops s !! c with Some (LOffering d []) => Some (at_phase c LIdle s) | _ => None end
  | RLedger op => let '(e, fresh) := ledger_step (dl_e s, dl_fresh s) op in Some (with_ledger e fresh s)
  | RCache ca => Some (with_ledger (set_cache (dl_e s) ca) (dl_fresh s) s)
  | RMark loc => Some (with_mark (UpdateLargest loc (dl_w s)).2 s)
  end.

Fixpoint dl_run (ops : list dl_op) (s : DatagramLoops) : option DatagramLoops :=
  match ops with [] => Some s | op :: ops => dl_step op s ≫= dl_run ops end.

(** ** What arrives *)

Lemma walk_gaps fuel : forall prev nested r c c', r_wf r -> is_u64 prev -> walk_loop fuel prev nested r c = Ok c' ->
  0 <= groupGap c /\ 0 <= objectGap c -> 0 <= groupGap c' /\ 0 <= objectGap c'.
Proof.
  induction fuel as [|fuel IH]; intros prev nested r c c' Hw Hp; simpl; destruct (Empty r); try done; try (by intros [= ->]).
  destruct (r_KVPairView prev r) as [[[kv next] r1]|] eqn:Ek; [|done]. simpl.
  apply r_kvPair_snd in Ek as (Hkv & -> & _ & Hw1); [|done|done].
  assert (Hn : is_u64 (kv_Type kv)) by apply Hkv. assert (Hv : 0 <= kv_IntVal kv).
  { destruct Hkv as [_ Hkv]. destruct (IsBytes kv); [destruct Hkv; lia|destruct Hkv; zlia]. }
  intros H Hc. set (inner := if kv_Type kv =? PropertyImmutableProperties then _ else _) in H.
  destruct inner as [c1|] eqn:Ei; [|done]. simpl in H. eapply IH in H; [done..|]. subst inner. clear H.
  destruct (kv_Type kv =? PropertyImmutableProperties).
  - destruct nested; [done|]. simpl in Ei. destruct (immutables c + 1 >? 1); [done|].
    eapply IH in Ei; [done| |zlia|done].
    split; simpl; [|lia]. destruct Hkv as [_ Hkv]. unfold go_len. destruct (IsBytes kv).
    + destruct Hkv as [_ Hkv]. unfold MaxKVPairValueBytes in Hkv. lia.
    + destruct Hkv as [_ ->]. by vm_compute.
  - destruct (kv_Type kv =? PropertyPriorGroupIDGap); simpl in Ei.
    + destruct (groupGaps c + 1 >? 1); simplify_eq. simpl. lia.
    + destruct (kv_Type kv =? PropertyPriorObjectIDGap); simpl in Ei.
      * destruct (Properties.objectGaps c + 1 >? 1); simplify_eq. simpl. lia.
      * destruct (IsMandatoryTrackProperty _); by simplify_eq.
Qed.

Lemma gaps_nonneg raw : go_len raw -> 0 <= pg_Group (ObjectPriorGaps raw) /\ 0 <= pg_Object (ObjectPriorGaps raw).
Proof.
  intros Hg. unfold ObjectPriorGaps. destruct (walk raw false check0) as [c|] eqn:E; [|done].
  apply walk_gaps in E; [done|by split; simpl; [|lia]|zlia|done].
Qed.

(** What [ReceiveDatagram] hands on. *)
Definition received_ok (d : ObjectDatagram) : Prop :=
  wf_dg d /\ norm_dg d = d /\ dg_Validate d = Ok tt /\ check_properties (dg_Properties d) (dg_GroupID d) (dg_ObjectID d) = Ok tt.

Lemma got_ok raws : forall d rest, Forall go_len raws -> ReceiveDatagram raws = Some (Got d rest) -> received_ok d.
Proof.
  induction raws as [|raw raws IH]; intros d rest Hl H; [done|]. apply Forall_cons in Hl as [Hg Hl]. simpl in H.
  destruct (r_Varint (NewReader raw)) as [[typ r]|]; [|done]. destruct (IsValidDatagramType typ).
  - destruct (dg_Parse datagram0 (NewReader raw)) as [[obj r1]|] eqn:Ep; [|done].
    destruct (check_properties _ _ _) as [[]|] eqn:Ec; [|done]. simplify_eq.
    apply dg_Parse_snd in Ep as (H1 & H2 & H3); [done|by split; simpl; [|lia]].
  - destruct (typ =? paddingDatagramType); [by eapply IH|done].
Qed.

Lemma resolved_info_wf inb d : received_ok d -> info_wf (datagram_info (resolve_priority inb d)).
Proof.
  intros (Hw & _ & _ & Hc). pose proof (prior_gaps_le _ _ _ Hc) as [Hg Ho].
  destruct Hw as (_ & _ & W1 & W2 & _ & W3 & _). pose proof (gaps_nonneg _ W3) as [N1 N2].
  unfold resolve_priority. destruct (HasDefaultPriority d); split_and!; simpl; (done || (intros H; split; [done|auto])).
Qed.

(** ** The invariant *)

(** The datagram a loop has claimed and is handing on, and who it is still to be
    offered to (everyone, before [CopyDownstream]). *)
Definition handling (p : dloop) : option ObjectDatagram :=
  match p with LFresh _ d | LCached d | LRaised d | LOffering d _ => Some d | _ => None end.
Definition offered_by (p : dloop) (id : Z) : Prop := match p with LOffering _ ids => id ∉ ids | _ => False end.

Definition above (w : Watermark) (l : Location) : Prop := HasLargestObject w = true /\ Less (LargestObject w) l = false.

Definition from_received (s : DatagramLoops) (d : ObjectDatagram) : Prop :=
  exists inb raw, (inb, raw) ∈ dl_received s /\ received_ok raw /\ d = resolve_priority inb raw.

Definition loop_ok (s : DatagramLoops) (p : dloop) : Prop :=
  match p with
  | LIdle | LClosed _ => True
  | LReceived _ d | LRedundant d => from_received s d /\ info_wf (datagram_info d)
  | LFresh _ d | LCached d => from_received s d /\ dg_loc d ∈ dl_fresh s
  | LRaised d => from_received s d /\ dg_loc d ∈ dl_fresh s /\ above (dl_w s) (dg_loc d)
  | LOffering d ids => from_received s d /\ dg_loc d ∈ dl_fresh s /\ above (dl_w s) (dg_loc d) /\ NoDup ids
  end.

Definition offer_ok (s : DatagramLoops) (o : offer) : Prop :=
  from_received s (of_in o) /\ dg_loc (of_in o) ∈ dl_fresh s /\ above (dl_w s) (dg_loc (of_in o)) /\
  wants (of_state o) (of_in o) = true /\ of_out o = forwarded_copy (of_state o) (of_in o).

Definition offer_key (o : offer) : Z * Location := (of_sub o, dg_loc (of_in o)).

Record loops_ok (s : DatagramLoops) : Prop := {
  li_ledger : run_inv (dl_e s, dl_fresh s);
  li_loops : forall c p, dl_loops s !! c = Some p -> loop_ok s p;
  li_once : forall c c' p p' d d', dl_loops s !! c = Some p -> dl_loops s !! c' = Some p' -> handling p = Some d ->
    handling p' = Some d' -> dg_loc d = dg_loc d' -> c = c';
  li_offers : Forall (offer_ok s) (dl_offered s);
  li_unique : NoDup (offer_key <$> dl_offered s);
  li_turn : forall c p d o, dl_loops s !! c = Some p -> handling p = Some d -> o ∈ dl_offered s ->
    dg_loc (of_in o) = dg_loc d -> offered_by p (of_sub o) }.

Definition dl_op_wf (op : dl_op) : Prop :=
  match op with
  | RReceive _ _ raws => Forall go_len raws
  | RCopy _ ids => NoDup ids
  | RLedger op => op_wf op
  | _ => True
  end.

(** Growing what is known leaves what was known true. *)
Definition grows (s s' : DatagramLoops) : Prop :=
  (forall x, x ∈ dl_received s -> x ∈ dl_received s') /\ (forall l, l ∈ dl_fresh s -> l ∈ dl_fresh s') /\
  (forall l, above (dl_w s) l -> above (dl_w s') l).

Lemma grows_received s s' d : grows s s' -> from_received s d -> from_received s' d.
Proof. intros (H & _) (inb & raw & Hin & Hok & ->). exists inb, raw. auto. Qed.
Lemma grows_loop s s' p : grows s s' -> loop_ok s p -> loop_ok s' p.
Proof.
  intros Hg. pose proof Hg as (_ & H2 & H3). destruct p; simpl; try done.
  - intros [H ?]. split; [by eapply grows_received|done].
  - intros [H ?]. split; [by eapply grows_received|done].
  - intros [H ?]. split; [by eapply grows_received|auto].
  - intros [H ?]. split; [by eapply grows_received|auto].
  - intros (H & ? & ?). split_and!; [by eapply grows_received|auto|auto].
  - intros (H & ? & ? & ?). split_and!; [by eapply grows_received|auto|auto|done].
Qed.
Lemma grows_offer s s' o : grows s s' -> offer_ok s o -> offer_ok s' o.
Proof. intros Hg (H1 & H2 & H3 & H4 & H5). pose proof Hg as (_ & G2 & G3). split_and!; [by eapply grows_received|auto|auto|done|done]. Qed.

Lemma above_mark loc w l : above w l -> above (UpdateLargest loc w).2 l.
Proof.
  intros [H1 H2]. unfold UpdateLargest. rewrite H1. simpl. destruct (Less (LargestObject w) loc) eqn:E; [|done].
  split; [done|]. simpl. apply Less_false in H2. apply Less_spec in E. apply Less_false. unfold loc_lt, loc_le in *. loc_lia.
Qed.
Lemma above_raise loc w : above (UpdateLargest loc w).2 loc.
Proof.
  unfold UpdateLargest. destruct (negb (HasLargestObject w) || Less (LargestObject w) loc) eqn:E; simpl.
  - split; [done|]. simpl. apply Less_false. unfold loc_le, loc_lt. loc_lia.
  - apply orb_false_iff in E as [E1 E2]. apply negb_false_iff in E1. done.
Qed.

Lemma loops_grow s s' : loops_ok s -> grows s s' -> dl_loops s' = dl_loops s -> dl_offered s' = dl_offered s ->
  run_inv (dl_e s', dl_fresh s') -> loops_ok s'.
Proof.
  intros [H1 H2 H3 H4 H5 H6] Hg El Eo Hr. split; [done|..]; rewrite ?El, ?Eo; try done.
  - intros c p Hc. eapply grows_loop; eauto.
  - eapply Forall_impl; [exact H4|]. intros o. by apply grows_offer.
Qed.

Lemma loops_at s c p : loops_ok s -> loop_ok s p ->
  (forall d, handling p = Some d ->
     (forall c' p' d', c' <> c -> dl_loops s !! c' = Some p' -> handling p' = Some d' -> dg_loc d' <> dg_loc d) /\
     (forall o, o ∈ dl_offered s -> dg_loc (of_in o) = dg_loc d -> offered_by p (of_sub o))) ->
  loops_ok (at_phase c p s).
Proof.
  intros [H1 H2 H3 H4 H5 H6] Hp Hd. split; simpl; try done.
  - intros c' p' Hc. destruct (decide (c' = c)) as [->|Hn]; [rewrite lookup_insert_eq in Hc; simplify_eq; exact Hp|].
    rewrite lookup_insert_ne in Hc by done. exact (H2 c' _ Hc).
  - intros c1 c2 p1 p2 d1 d2 E1 E2 X1 X2 El.
    destruct (decide (c1 = c)) as [->|N1]; destruct (decide (c2 = c)) as [->|N2]; [done|..].
    + rewrite lookup_insert_eq in E1. rewrite lookup_insert_ne in E2 by done. injection E1 as <-.
      destruct (proj1 (Hd _ X1) c2 p2 d2 N2 E2 X2 (eq_sym El)).
    + rewrite lookup_insert_eq in E2. rewrite lookup_insert_ne in E1 by done. injection E2 as <-.
      destruct (proj1 (Hd _ X2) c1 p1 d1 N1 E1 X1 El).
    + rewrite lookup_insert_ne in E1, E2 by done. by eapply (H3 c1 c2).
  - intros c' p' d o Hc Hh Ho El. destruct (decide (c' = c)) as [->|Hn].
    + rewrite lookup_insert_eq in Hc. injection Hc as <-. exact (proj2 (Hd _ Hh) o Ho El).
    + rewrite lookup_insert_ne in Hc by done. exact (H6 c' _ _ _ Hc Hh Ho El).
Qed.

(** A loop that moves on with the datagram it handles. *)
Lemma loops_same s c q p d : loops_ok s -> dl_loops s !! c = Some q -> handling q = Some d -> handling p = Some d ->
  (forall id, offered_by q id -> offered_by p id) -> loop_ok s p -> loops_ok (at_phase c p s).
Proof.
  intros H Hc Hq Hp Hi Hl. apply loops_at; [done|done|]. intros d' Hd'. rewrite Hp in Hd'. injection Hd' as <-. split.
  - intros c' p' d' Hn Hc' Hh E. apply Hn. by eapply (li_once _ H c' c).
  - intros o Ho E. apply Hi. by eapply (li_turn _ H c).
Qed.

Lemma loops_release s c p : loops_ok s -> loop_ok s p -> handling p = None -> loops_ok (at_phase c p s).
Proof. intros H Hl Hh. apply loops_at; [done|done|]. intros d Hd. congruence. Qed.

Lemma loops_ledger s e fresh : loops_ok s -> run_inv (e, fresh) -> (forall l, l ∈ dl_fresh s -> l ∈ fresh) ->
  loops_ok (with_ledger e fresh s).
Proof. intros H Hr Hf. eapply loops_grow; [done| |done|done|done]. by split_and!. Qed.

Lemma loops_cache s ca : loops_ok s -> loops_ok (with_ledger (set_cache (dl_e s) ca) (dl_fresh s) s).
Proof.
  intros H. destruct (li_ledger _ H) as (W & Hh & Hn). apply loops_ledger; [done| |done].
  split_and!; [by apply ledger_wf_cache|by apply hist_cache|done].
Qed.

Lemma loops_malformed s err : loops_ok s -> loops_ok (malformed_track err s).
Proof. intros H. eapply loops_grow; [done| |done|done|apply H]. by split_and!. Qed.

Lemma receive_loops c track raws got s : Forall go_len raws -> ReceiveDatagram raws = Some got -> loops_ok s ->
  loops_ok (receive c track got s).
Proof.
  intros Hg Hr H. destruct got as [d rest|err [d|] rest|err b]; simpl.
  - destruct track as [inb|]; [|done]. apply (got_ok _ _ _ Hg) in Hr.
    set (s1 := MkLoops (dl_e s) (dl_w s) (dl_loops s) (dl_fresh s) (dl_received s ++ [(inb, d)]) (dl_offered s) (dl_malformed s)).
    assert (H1 : loops_ok s1).
    { eapply loops_grow; [exact H| |done|done|apply H]. split_and!; [|done|done]. intros x Hx. apply elem_of_app. by left. }
    apply (loops_release s1 c _ H1); [|done]. split; [|by apply resolved_info_wf].
    exists inb, d. split_and!; [|done|done]. apply elem_of_app. right. by left.
  - destruct track; [by apply loops_malformed|done].
  - done.
  - by apply loops_release.
Qed.

Lemma claim_loops now c inb d s : loops_ok s -> from_received s d -> info_wf (datagram_info d) -> loops_ok (claim_datagram now c inb d s).
Proof.
  intros H Hf Hw. destruct (li_ledger _ H) as (W & Hh & Hn). unfold claim_datagram.
  pose proof (claim_step now (datagram_info d) _ _ W Hh Hw) as Hc. simpl in W, Hh, Hn, Hc.
  destruct (ClaimDelivered now (datagram_info d) (dl_e s)) as [[[| |]|err] e]; destruct Hc as [W' Hp]; simpl in Hp.
  - destruct Hp as [Hnew Hh']. assert (H1 : loops_ok (with_ledger e (dg_loc d :: dl_fresh s) s)).
    { apply loops_ledger; [done| |by intros l ?; right]. split_and!; [done|done|by constructor]. }
    apply loops_at; [done|split; [done|by left]|]. intros d' [= <-]. simpl. split.
    + intros c' p' d' _ Hc' Hd' E. apply Hnew. change (oi_loc (datagram_info d)) with (dg_loc d). rewrite <- E.
      pose proof (li_loops _ H _ _ Hc') as Hl. destruct p'; simplify_eq/=; apply Hl.
    + intros o Ho E. apply Hnew. change (oi_loc (datagram_info d)) with (dg_loc d). rewrite <- E.
      pose proof (li_offers _ H) as Hl. rewrite Forall_forall in Hl. apply (Hl o Ho).
  - apply loops_release; [|done|done]. apply loops_ledger; [done| |done]. by destruct Hp as [_ Hp].
  - apply loops_release; [|done|done]. apply loops_ledger; [done| |done]. by destruct Hp as [-> _].
  - destruct Hp as [_ [ca ->]]. apply loops_malformed, loops_release; [|done|done]. by apply loops_cache.
Qed.

Lemma redundant_loops now c d s : loops_ok s -> info_wf (datagram_info d) -> loops_ok (redundant_datagram now c d s).
Proof.
  intros H Hw. destruct (li_ledger _ H) as (W & Hh & Hn). unfold redundant_datagram.
  destruct (recordRedundant now (datagram_info d) (duplicate_of d) (dl_e s)) as [r e] eqn:Er.
  apply (recordRedundant_ok _ _ _ _ (dl_fresh s)) in Er as [W' Hh']; [|done..].
  assert (H1 : loops_ok (at_phase c LIdle (with_ledger e (dl_fresh s) s))).
  { apply loops_release; [|done|done]. by apply loops_ledger. }
  destruct r; [done|by apply loops_malformed].
Qed.

Lemma offer_loops c sub d id ids s : loops_ok s -> dl_loops s !! c = Some (LOffering d (id :: ids)) ->
  loops_ok (offer_datagram c sub d id ids s).
Proof.
  intros H Hc. destruct (li_loops _ H _ _ Hc) as (L1 & L2 & L3 & L4). apply NoDup_cons in L4 as [L4 L5].
  assert (H1 : loops_ok (at_phase c (LOffering d ids) s)).
  { eapply loops_same; [done|done|done|done| |done]. simpl. intros x Hx Hi. apply Hx. by right. }
  unfold offer_datagram. destruct (wants sub d) eqn:Ew; [|done]. destruct H1 as [K1 K2 K3 K4 K5 K6].
  assert (Hnew : offer_ok (at_phase c (LOffering d ids) s) (MkOffer id sub d (forwarded_copy sub d))) by (by split_and!).
  split; try done; simpl.
  - apply Forall_app. split; [done|]. apply Forall_cons. split; [done|by apply Forall_nil].
  - rewrite fmap_app. simpl. apply NoDup_app. split_and!; [done| |apply NoDup_singleton].
    intros k Hk ->%list_elem_of_singleton. apply list_elem_of_fmap in Hk as (o & Ek & Ho). apply pair_equal_spec in Ek as [E1 E2]. simpl in E1.
    apply (li_turn _ H c _ d o Hc eq_refl Ho (eq_sym E2)). rewrite <- E1. by left.
  - intros c' p' d' o Hc' Hd' Ho El. apply elem_of_app in Ho as [Ho|Ho]; [by eapply (K6 c')|].
    apply list_elem_of_singleton in Ho as ->. simpl in *. assert (c' = c) as ->.
    { eapply (K3 c' c); [done|by rewrite lookup_insert_eq|done|done|done]. }
    rewrite lookup_insert_eq in Hc'. by simplify_eq.
Qed.

Lemma dl_step_ok op s s' : dl_op_wf op -> loops_ok s -> dl_step op s = Some s' -> loops_ok s'.
Proof.
  intros Hw H. destruct op as [c track raws|c now|c now|c now|c|c ids|c sub|c|op|ca|loc]; unfold dl_step, dl_op_wf in *;
    try (destruct (dl_loops s !! c) as [p|] eqn:Ec; [|done]; pose proof (li_loops _ H _ _ Ec) as Hl; destruct p; try done; simpl in Hl).
  - destruct (ReceiveDatagram raws) as [got|] eqn:Er; [|done]. intros [= <-]. by eapply receive_loops.
  - intros [= <-]. destruct Hl. by apply claim_loops.
  - intros [= <-]. destruct Hl. by apply redundant_loops.
  - intros [= <-]. eapply (loops_same _ c (LFresh inb d)); [by apply loops_cache|done|done|done|done|done].
  - intros [= <-]. destruct Hl as [L1 L2].
    assert (H1 : loops_ok (with_mark (UpdateLargest (dg_loc d) (dl_w s)).2 s)).
    { eapply loops_grow; [done| |done|done|apply H]. split_and!; [done|done|]. intros l. by apply above_mark. }
    eapply (loops_same _ c (LCached d)); [done|done|done|done|done|]. split_and!; [done|done|apply above_raise].
  - intros [= <-]. destruct Hl as (L1 & L2 & L3). eapply (loops_same _ c (LRaised d)); done.
  - destruct ids as [|id ids]; [done|]. intros [= <-]. by apply offer_loops.
  - destruct ids; [|done]. intros [= <-]. by apply loops_release.
  - destruct (li_ledger _ H) as (W & Hh & Hn). pose proof (ledger_op_ok (dl_e s, dl_fresh s) op (conj W (conj Hh Hn)) Hw) as Hr.
    destruct (ledger_step _ op) as [e fresh] eqn:Es. intros [= <-]. apply loops_ledger; [done|done|].
    intros l Hl. destruct op as [now o|now o|now o b]; simpl in Es.
    + destruct (ClaimDelivered now o (dl_e s)) as [[[| |]|] ?]; simplify_eq; try done. by right.
    + by simplify_eq.
    + by simplify_eq.
  - intros [= <-]. by apply loops_cache.
  - intros [= <-]. eapply loops_grow; [done| |done|done|apply H]. split_and!; [done|done|]. intros l. by apply above_mark.
Qed.

Lemma dl_run_ok ops : forall s s', Forall dl_op_wf ops -> loops_ok s -> dl_run ops s = Some s' -> loops_ok s'.
Proof.
  induction ops as [|op ops IH]; simpl; intros s s' Hw H Hr; [by simplify_eq|]. apply Forall_cons in Hw as [Ho Hw].
  destruct (dl_step op s) as [s1|] eqn:E; [|done]. eapply IH; [done| |done]. by eapply dl_step_ok.
Qed.

Lemma loops0_ok c w sessions : loops_ok (loops0 c w sessions).
Proof.
  split; simpl; try by constructor.
  - apply (ledger_run_ok [] c). by apply Forall_nil.
  - intros x p Hx. apply lookup_gset_to_gmap_Some in Hx as [_ <-]. done.
  - intros x x' p p' d d' Hx _ Hd. apply lookup_gset_to_gmap_Some in Hx as [_ <-]. done.
  - intros x p d o _ _ Ho. by apply elem_of_nil in Ho.
Qed.

(** ** The copy a subscriber reads *)

Lemma type_no_default t : IsValidDatagramType t = true -> 0 <= t ->
  let t' := Z.ldiff t DatagramDefaultPriorityBit in
  IsValidDatagramType t' = true /\ 0 <= t' <= 47 /\ has t' DatagramDefaultPriorityBit = false /\
  has t' DatagramPropertiesBit = has t DatagramPropertiesBit /\ has t' DatagramEndOfGroupBit = has t DatagramEndOfGroupBit /\
  has t' DatagramZeroObjectIDBit = has t DatagramZeroObjectIDBit /\ has t' DatagramStatusBit = has t DatagramStatusBit.
Proof.
  intros Hv Hp. assert (Ht : t <= 47).
  { unfold IsValidDatagramType, DatagramTypeStatusMax in Hv. destruct (t >? 47) eqn:E; [done|]. rewrite Z.gtb_ltb in E. lia. }
  assert (Hall : forallb (fun t => implb (IsValidDatagramType t) (let t' := Z.ldiff t DatagramDefaultPriorityBit in
    IsValidDatagramType t' && (0 <=? t') && (t' <=? 47) && negb (has t' DatagramDefaultPriorityBit) &&
    Bool.eqb (has t' DatagramPropertiesBit) (has t DatagramPropertiesBit) && Bool.eqb (has t' DatagramEndOfGroupBit) (has t DatagramEndOfGroupBit) &&
    Bool.eqb (has t' DatagramZeroObjectIDBit) (has t DatagramZeroObjectIDBit) && Bool.eqb (has t' DatagramStatusBit) (has t DatagramStatusBit)))
    (seqZ 0 48) = true) by (vm_compute; reflexivity).
  rewrite forallb_forall in Hall. specialize (Hall t ltac:(apply list_elem_of_In, elem_of_seqZ; lia)).
  rewrite Hv in Hall. cbv zeta in Hall |- *. simpl in Hall.
  repeat (apply andb_true_iff in Hall as [Hall ?]). 
  repeat match goal with H : Bool.eqb _ _ = true |- _ => apply Bool.eqb_prop in H | H : negb _ = true |- _ => apply negb_true_iff in H end.
  split_and!; done || lia.
Qed.

(** A valid datagram sent is received as its normal form. *)
Lemma send_receive d sent : wf_dg d -> dg_Validate d = Ok tt ->
  check_properties (dg_Properties (norm_dg d)) (dg_GroupID d) (dg_ObjectID (norm_dg d)) = Ok tt ->
  SendDatagram d sent = Ok (sent ++ [dg_Append [] d]) /\ ReceiveDatagram [dg_Append [] d] = Some (Got (norm_dg d) []).
Proof.
  intros Hw Hv Hc. unfold SendDatagram. rewrite Hv. split; [done|].
  assert (Hp : dg_Parse datagram0 (NewReader (dg_Append [] d)) = Ok (norm_dg d, MkReader (dg_Append [] d) (length (dg_Append [] d)))).
  { rewrite dg_Append_e. apply decodes_NewReader. by apply decodes_dg. }
  assert (Ht : exists r, r_Varint (NewReader (dg_Append [] d)) = Ok (dg_Type d, r)).
  { rewrite dg_Append_e. unfold e_DG. destruct (at_rest (NewReader ([] ++ e_DG d)) (e_Varint (dg_Type d))
      (e_Varint (dg_TrackAlias d) ++ e_Varint (dg_GroupID d) ++
       (if negb (HasZeroObjectID d) then e_Varint (dg_ObjectID d) else []) ++
       (if negb (HasDefaultPriority d) then e_UInt8 (dg_PublisherPriority d) else []) ++
       (if HasProperties d then e_VarintBytes (dg_Properties d) else []) ++
       (if HasStatus d then e_Varint (dg_ObjectStatus d) else dg_ObjectPayload d))) as [Ha _]; [simpl; lia|done|].
    eexists. exact (r_decodes_Varint (dg_Type d) (proj1 Hw) _ _ Ha). }
  destruct Ht as [r Ht]. cbn [ReceiveDatagram]. rewrite Ht, (dg_Validate_type d Hv), Hp.
  change (dg_GroupID (norm_dg d)) with (dg_GroupID d). by rewrite Hc.
Qed.

(** The same bits up to the default-priority one give the same normal form and the
    same checks. *)
Lemma copy_shape sub d : IsValidDatagramType (dg_Type d) = true -> 0 <= dg_Type d ->
  let out := forwarded_copy sub d in
  IsValidDatagramType (dg_Type out) = true /\ is_u64 (dg_Type out) /\ HasProperties out = HasProperties d /\ HasEndOfGroup out = HasEndOfGroup d /\
  HasZeroObjectID out = HasZeroObjectID d /\ HasStatus out = HasStatus d /\
  HasDefaultPriority out = HasDefaultPriority d && IncludesProperties sub.
Proof.
  intros Hv Hp. pose proof (type_no_default _ Hv Hp) as (T1 & T2 & T3 & T4 & T5 & T6 & T7).
  assert (Ht : dg_Type d <= 47).
  { unfold IsValidDatagramType, DatagramTypeStatusMax in Hv. destruct (dg_Type d >? 47) eqn:E; [done|]. rewrite Z.gtb_ltb in E. lia. }
  unfold forwarded_copy, HasProperties, HasEndOfGroup, HasZeroObjectID, HasStatus, HasDefaultPriority. simpl.
  destruct (IncludesProperties sub); rewrite ?andb_true_r, ?andb_false_r; split_and!; done || zlia.
Qed.

(** A datagram crosses the relay unchanged: the copy of a received datagram made for
    a subscription can be sent, and is received with the subscription's alias and
    otherwise as the original: the priority the subscriber takes it to have is
    inherited from the Track Properties where it was given them, written out where not. *)
Lemma copy_relayed d inb sub inb' sent : received_ok d ->
  is_u8 (in_DefaultPublisherPriority inb) -> is_u64 (s_TrackAlias (d_sub sub)) ->
  (IncludesProperties sub = true -> in_DefaultPublisherPriority inb' = in_DefaultPublisherPriority inb) ->
  let original := resolve_priority inb d in
  exists bs d', SendDatagram (forwarded_copy sub original) sent = Ok (sent ++ [bs]) /\
    ReceiveDatagram [bs] = Some (Got d' []) /\ dg_TrackAlias d' = s_TrackAlias (d_sub sub) /\
    dg_GroupID d' = dg_GroupID d /\ dg_ObjectID d' = dg_ObjectID d /\ dg_Properties d' = dg_Properties d /\
    dg_ObjectStatus d' = dg_ObjectStatus d /\ HasEndOfGroup d' = HasEndOfGroup d /\ dg_ObjectPayload d' = dg_ObjectPayload d /\
    dg_PublisherPriority (resolve_priority inb' d') = dg_PublisherPriority original.
Proof.
  intros (Hw & Hn & Hv & Hc) Hpr Hal Hinc original.
  assert (E : dg_Type original = dg_Type d /\ dg_GroupID original = dg_GroupID d /\ dg_ObjectID original = dg_ObjectID d /\
    dg_Properties original = dg_Properties d /\ dg_ObjectStatus original = dg_ObjectStatus d /\ dg_ObjectPayload original = dg_ObjectPayload d /\
    is_u8 (dg_PublisherPriority original)).
  { unfold original, resolve_priority. destruct (HasDefaultPriority d); split_and!; try done. apply Hw. }
  destruct E as (E1 & E2 & E3 & E4 & E5 & E6 & E7). set (out := forwarded_copy sub original).
  pose proof (dg_Validate_type _ Hv) as Hty. destruct Hw as (W1 & _ & W2 & W3 & _ & W4 & W5).
  destruct (copy_shape sub original) as (T1 & T2 & T3 & T4 & T5 & T6 & T7); [by rewrite E1|rewrite E1; zlia|]. fold out in T1, T2, T3, T4, T5, T6, T7.
  assert (Hb : HasProperties original = HasProperties d /\ HasEndOfGroup original = HasEndOfGroup d /\ HasZeroObjectID original = HasZeroObjectID d /\
    HasStatus original = HasStatus d /\ HasDefaultPriority original = HasDefaultPriority d).
  { unfold HasProperties, HasEndOfGroup, HasZeroObjectID, HasStatus, HasDefaultPriority. by rewrite E1. }
  destruct Hb as (B1 & B2 & B3 & B4 & B5). rewrite B1 in T3. rewrite B2 in T4. rewrite B3 in T5. rewrite B4 in T6. rewrite B5 in T7.
  assert (Hwo : wf_dg out) by (unfold wf_dg, out; simpl; rewrite ?E2, ?E3, ?E4, ?E5; split_and!; done).
  assert (Hvo : dg_Validate out = Ok tt).
  { rewrite <- Hv. unfold dg_Validate. rewrite T1, Hty, T3, T6. unfold out; simpl. by rewrite E4, E5. }
  assert (Hno : dg_ObjectID (norm_dg out) = dg_ObjectID d /\ dg_Properties (norm_dg out) = dg_Properties d /\
    dg_ObjectStatus (norm_dg out) = dg_ObjectStatus d /\ dg_ObjectPayload (norm_dg out) = dg_ObjectPayload d).
  { rewrite <- Hn. unfold norm_dg. simpl. rewrite T3, T5, T6. unfold out; simpl. by rewrite E3, E4, E5, E6. }
  destruct Hno as (N1 & N2 & N3 & N4).
  destruct (send_receive out sent Hwo Hvo) as [S1 S2]; [by rewrite N1, N2; simpl; rewrite E2|].
  exists (dg_Append [] out), (norm_dg out). split_and!; try done.
  assert (D : HasDefaultPriority (norm_dg out) = HasDefaultPriority d && IncludesProperties sub) by (by rewrite <- T7).
  unfold resolve_priority at 1. rewrite D. unfold original, resolve_priority. destruct (HasDefaultPriority d) eqn:Ed; simpl.
  - destruct (IncludesProperties sub) eqn:Es; simpl; [by apply Hinc|]. simpl in T7. rewrite T7. simpl. unfold original, resolve_priority. by rewrite Ed.
  - simpl in T7. rewrite T7. simpl. unfold original, resolve_priority. by rewrite Ed.
Qed.

(** C16: a datagram reaches each subscriber once, unchanged.  However the receive
    loops of several upstream sessions, the Track's streams and its subscribers
    interleave: no Location is claimed twice on the Track, so a subscription is handed
    an Object in a datagram at most once, in a state of the subscription that forwards
    it, with the Track's Largest Object by then at or above it.  What it is handed is a
    datagram that arrived: the copy can be sent, and a subscriber receives it under the
    subscription's alias with the Group, Object, properties, status, end-of-group mark
    and payload of the one that arrived; the priority it takes it to have is the
    original's, which it inherits from the Track Properties only where it was given
    them. *)
Theorem datagram_forwarded_once c w sessions ops s : Forall dl_op_wf ops -> dl_run ops (loops0 c w sessions) = Some s ->
  NoDup (dl_fresh s) /\ NoDup ((fun o => (of_sub o, dg_loc (of_in o))) <$> dl_offered s) /\
  forall o, o ∈ dl_offered s ->
    dg_loc (of_in o) ∈ dl_fresh s /\
    ForwardDecision (dg_GroupID (of_in o)) (dg_ObjectID (of_in o)) 0 (dg_PublisherPriority (of_in o)) (dg_Properties (of_in o)) (of_state o) = Ok Forward /\
    HasLargestObject (dl_w s) = true /\ loc_le (dg_loc (of_in o)) (LargestObject (dl_w s)) /\
    exists inb d, (inb, d) ∈ dl_received s /\ of_in o = resolve_priority inb d /\
      forall inb' sent, is_u8 (in_DefaultPublisherPriority inb) -> is_u64 (s_TrackAlias (d_sub (of_state o))) ->
        (IncludesProperties (of_state o) = true -> in_DefaultPublisherPriority inb' = in_DefaultPublisherPriority inb) ->
        exists bs d', SendDatagram (of_out o) sent = Ok (sent ++ [bs]) /\ ReceiveDatagram [bs] = Some (Got d' []) /\
          dg_TrackAlias d' = s_TrackAlias (d_sub (of_state o)) /\
          dg_GroupID d' = dg_GroupID d /\ dg_ObjectID d' = dg_ObjectID d /\ dg_Properties d' = dg_Properties d /\
          dg_ObjectStatus d' = dg_ObjectStatus d /\ HasEndOfGroup d' = HasEndOfGroup d /\ dg_ObjectPayload d' = dg_ObjectPayload d /\
          dg_PublisherPriority (resolve_priority inb' d') = dg_PublisherPriority (of_in o).
Proof.
  intros Hw Hr. pose proof (dl_run_ok _ _ _ Hw (loops0_ok c w sessions) Hr) as [H1 _ _ H4 H5 _].
  split; [apply H1|]. split; [exact H5|]. intros o Ho. rewrite Forall_forall in H4.
  destruct (H4 o Ho) as ((inb & d & K1 & Kd & Ke) & K2 & [K3 K4] & K5 & K6).
  split_and!; [done| |done|by apply Less_false|].
  - unfold wants in K5. destruct (ForwardDecision _ _ _ _ _ _) as [[]|]; done.
  - exists inb, d. split_and!; [done|done|]. intros inb' sent Hp Ha Hi. rewrite K6, Ke. by apply copy_relayed.
Qed.

(** ** A Track with two upstreams, run

    Both deliver Object 5 of Group 3, without a priority; the subscriber has no Track
    Properties. *)
Definition sample_dgram : ObjectDatagram := MkDatagram 8 2 3 5 0 [] 0 [Byte.x41].
Definition sample_raws : list bytes := [dg_Append [] sample_dgram].
Definition sample_inb : InboundTrack := MkInbound (NewKey [[Byte.x61]] [Byte.x62]) 77 None.
Definition sample_dsub : DownstreamSub := SetIncludeProperties false (NewDownstreamSub 7 9 true).
Definition sample_loops0 : DatagramLoops := loops0 (NewObjectCache 4 0) (MkMark (MkLoc 0 0) false false 0 0) {[1; 2]}.
Definition sample_loop_ops : list dl_op :=
  [RReceive 1 (Some sample_inb) sample_raws; RReceive 2 (Some sample_inb) sample_raws; RClaim 2 0; RClaim 1 0; RPut 2 0; RDuplicate 1 0;
   RRaise 2; RCopy 2 [7]; ROffer 2 sample_dsub; RNext 2].
Definition sample_loops : option DatagramLoops := dl_run sample_loop_ops sample_loops0.

Lemma sample_loop_ops_wf : Forall dl_op_wf sample_loop_ops.
Proof.
  assert (Hg : Forall go_len sample_raws) by (apply Forall_cons; split; [by vm_compute|by apply Forall_nil]).
  repeat (apply Forall_cons; split; [simpl; try done; try apply NoDup_singleton|]). by apply Forall_nil.
Qed.

Lemma datagram_forwarded_once_witness : exists s, sample_loops = Some s /\
  of_out <$> dl_offered s = [MkDatagram 0 9 3 5 77 [] 0 [Byte.x41]] /\ dl_malformed s = [] /\
  NoDup (dl_fresh s) /\ dl_fresh s = [MkLoc 3 5] /\
  forall o, o ∈ dl_offered s -> exists inb d, (inb, d) ∈ dl_received s /\ of_in o = resolve_priority inb d.
Proof.
  assert (Hr : ((fun s => of_out <$> dl_offered s) <$> sample_loops, dl_malformed <$> sample_loops, dl_fresh <$> sample_loops) =
    (Some [MkDatagram 0 9 3 5 77 [] 0 [Byte.x41]], Some [], Some [MkLoc 3 5])) by (vm_compute; reflexivity).
  destruct sample_loops as [s|] eqn:Es; [|discriminate Hr]. simpl in Hr. injection Hr as H1 H2 H3.
  pose proof (datagram_forwarded_once (NewObjectCache 4 0) (MkMark (MkLoc 0 0) false false 0 0) {[1; 2]} sample_loop_ops s sample_loop_ops_wf Es) as (A & _ & B).
  clear Es. exists s. split_and!; try done. intros o Ho. destruct (B o Ho) as (_ & _ & _ & _ & inb & d & ? & ? & _). by exists inb, d.
Defined.
