(* ===== verification/Demux.v ===== *)
(** * Demux: who gets an accepted stream

    [pkg/moqt/session/demux.go]: the demultiplexer that hands the data streams of a
    session to handlers by Track Alias or Request ID and parks subgroup streams that
    arrive before their handler; and [requestmux.go], which does the same for
    requests.  A handler is named by a number; its calls are recorded, what it does
    with the stream is its own.

    The sections under [d.mu] and the calls and resets between them are the steps, so a
    run is any interleaving of [Run] with the goroutines that register handlers. *)

From stdpp Require Import gmap.
From S2P Require Import Prelude Codes Varint Wire KV Filter Params Properties RangeFilter Messages Objects Streams.
From S2P Require Import Tokens Session.

Definition parkLimit : Z := 8.
Definition parkTotalLimit : Z := 32.

(** A subgroup stream, numbered by its arrival. *)
Abbreviation parked_stream := (Z * IncomingSubgroupStream)%type.
Definition alias_of (s : IncomingSubgroupStream) : Z := sh_TrackAlias (is_Header s).

Record Demux : Type := MkDemux {
  d_subgroup : gmap Z Z; d_fetch : gmap Z Z; d_parked : gmap Z (list parked_stream); d_parkedN : Z;
  d_retired : gset Z; d_onUnknown : option Z }.
Definition NewDemux : Demux := MkDemux ∅ ∅ ∅ 0 ∅ None.

Definition set_parked (m : gmap Z (list parked_stream)) (n : Z) (d : Demux) : Demux :=
  MkDemux (d_subgroup d) (d_fetch d) m n (d_retired d) (d_onUnknown d).

(** What is done with a stream: its handler called, the [OnUnknown] callback called,
    reset with a code; or it is to go through [unknown]. *)
Inductive action : Type :=
| ACall (h : Z) (st : Z * DataStream) | ACallUnknown (f : Z) (st : Z * DataStream)
| AReset (st : Z * DataStream) (code : Z) | AUnknown (st : Z * DataStream).
Definition action_id (a : action) : Z := match a with ACall _ st | ACallUnknown _ st | AReset st _ | AUnknown st => st.1 end.

Definition subgroup_of (p : parked_stream) : Z * DataStream := (p.1, DSSubgroup p.2).
Definition cancelled (p : parked_stream) : action := AReset (subgroup_of p) StreamResetCancelled.

(** The loop of [parkLocked]: what is reset, oldest first, and what stays. *)
Fixpoint evict_oldest (l : list parked_stream) : list parked_stream * list parked_stream :=
  match l with
  | [] => ([], [])
  | p :: l' => if len l >? parkLimit then let '(out, keep) := evict_oldest l' in (p :: out, keep) else ([], l)
  end.

Definition parkLocked (p : parked_stream) (d : Demux) : bool * list action * Demux :=
  let alias := alias_of p.2 in
  if bool_decide (alias ∈ d_retired d) then (false, [], d)
  else if d_parkedN d >=? parkTotalLimit then (false, [], d)
  else
    let '(out, keep) := evict_oldest (default [] (d_parked d !! alias) ++ [p]) in
    (true, cancelled <$> out, set_parked (<[alias := keep]> (d_parked d)) (d_parkedN d + 1 - len out) d).

Definition dropParkedLocked (alias : Z) (d : Demux) : Demux :=
  set_parked (delete alias (d_parked d)) (d_parkedN d - len (default [] (d_parked d !! alias))) d.

(** [HandleTrack]: the section, and what its caller then does, in order. *)
Definition HandleTrack (alias : Z) (h : option Z) (d : Demux) : Demux * list action :=
  let held := default [] (d_parked d !! alias) in
  match h with
  | None =>
      (dropParkedLocked alias
         (MkDemux (delete alias (d_subgroup d)) (d_fetch d) (d_parked d) (d_parkedN d) ({[alias]} ∪ d_retired d) (d_onUnknown d)),
       cancelled <$> held)
  | Some h =>
      (dropParkedLocked alias
         (MkDemux (<[alias := h]> (d_subgroup d)) (d_fetch d) (d_parked d) (d_parkedN d) (d_retired d ∖ {[alias]}) (d_onUnknown d)),
       (fun p => ACall h (subgroup_of p)) <$> held)
  end.

Definition HandleFetch (requestID : Z) (h : option Z) (d : Demux) : Demux :=
  MkDemux (d_subgroup d) (match h with None => delete requestID (d_fetch d) | Some h => <[requestID := h]> (d_fetch d) end)
    (d_parked d) (d_parkedN d) (d_retired d) (d_onUnknown d).
Definition OnUnknown (f : option Z) (d : Demux) : Demux :=
  MkDemux (d_subgroup d) (d_fetch d) (d_parked d) (d_parkedN d) (d_retired d) f.

Definition parked_all (m : gmap Z (list parked_stream)) : list parked_stream := concat (map_to_list m).*2.

(** [discardParked]; a Go map is walked in any order. *)
Definition discardParked (d : Demux) : list action * Demux :=
  (cancelled <$> parked_all (d_parked d), set_parked ∅ 0 d).

(** The section of [dispatch]: what is reset under the lock, what [Run] does next. *)
Definition dispatch (st : Z * DataStream) (d : Demux) : list action * list action * Demux :=
  match st.2 with
  | DSSubgroup s =>
      match d_subgroup d !! alias_of s with
      | Some h => ([], [ACall h st], d)
      | None =>
          let '(parked, out, d) := parkLocked (st.1, s) d in
          (out, if parked then [] else [AReset st StreamResetCancelled], d)
      end
  | DSFetch requestID s =>
      match d_fetch d !! requestID with
      | Some h => ([], [ACall h st], d)
      | None => ([], [AUnknown st], d)
      end
  end.

Definition unknown (st : Z * DataStream) (d : Demux) : action :=
  match d_onUnknown d with Some f => ACallUnknown f st | None => AReset st StreamResetInternalError end.

(** ** A session's demultiplexer

    [x_next] streams were accepted; [x_run] is what [Run] is still to do with the last
    one; [x_callers] what each call of [HandleTrack] is still to do; [x_log] what has
    been done; [x_regs] every registration made. *)
Record DemuxRun : Type := MkDRun {
  x_d : Demux; x_next : Z; x_run : list action; x_ended : bool; x_callers : list (list action); x_log : list action;
  x_regs : list (Z * Z) }.
Definition demux0 : DemuxRun := MkDRun NewDemux 0 [] false [] [] [].

Definition perform (a : action) (d : Demux) : action := match a with AUnknown st => unknown st d | _ => a end.

Definition run_returns (x : DemuxRun) : DemuxRun :=
  let '(out, d) := discardParked (x_d x) in
  MkDRun d (x_next x) [] true (x_callers x) (x_log x ++ out) (x_regs x).

Definition run_accepts (ds : DataStream) (x : DemuxRun) : DemuxRun :=
  let '(out, todo, d) := dispatch (x_next x, ds) (x_d x) in
  MkDRun d (x_next x + 1) todo (x_ended x) (x_callers x) (x_log x ++ out) (x_regs x).

(** [XAccept] is a turn of [Run] on the streams the peer opens; [XCancel] the end of
    its context while it waits. *)
Inductive demux_op : Type :=
| XAccept (streams : list Stream) | XCancel | XRun | XCaller (i : nat)
| XHandleTrack (alias : Z) (h : option Z) | XHandleFetch (requestID : Z) (h : option Z) | XOnUnknown (f : option Z).

Definition demux_step (op : demux_op) (x : DemuxRun) : option DemuxRun :=
  match op with
  | XAccept streams =>
      match x_run x, x_ended x with
      | [], false =>
          match AcceptDataStream streams with
          | None => None
          | Some (Accepted ds, _) => Some (run_accepts ds x)
          | Some (AcceptErr e _, _) => if errors_Is e ErrPaddingStream then Some x else Some (run_returns x)
          | Some (Aborted, _) => None
          end
      | _, _ => None
      end
  | XCancel => match x_run x, x_ended x with [], false => Some (run_returns x) | _, _ => None end
  | XRun =>
      match x_run x with
      | [] => None
      | a :: rest => Some (MkDRun (x_d x) (x_next x) rest (x_ended x) (x_callers x) (x_log x ++ [perform a (x_d x)]) (x_regs x))
      end
  | XCaller i =>
      match x_callers x !! i with
      | Some (a :: rest) =>
          Some (MkDRun (x_d x) (x_next x) (x_run x) (x_ended x) (<[i := rest]> (x_callers x)) (x_log x ++ [perform a (x_d x)]) (x_regs x))
      | _ => None
      end
  | XHandleTrack alias h =>
      let '(d, todo) := HandleTrack alias h (x_d x) in
      Some (MkDRun d (x_next x) (x_run x) (x_ended x) (x_callers x ++ [todo]) (x_log x)
              (match h with Some h => (alias, h) :: x_regs x | None => x_regs x end))
  | XHandleFetch requestID h =>
      Some (MkDRun (HandleFetch requestID h (x_d x)) (x_next x) (x_run x) (x_ended x) (x_callers x) (x_log x) (x_regs x))
  | XOnUnknown f =>
      Some (MkDRun (OnUnknown f (x_d x)) (x_next x) (x_run x) (x_ended x) (x_callers x) (x_log x) (x_regs x))
  end.

Fixpoint demux_run (ops : list demux_op) (x : DemuxRun) : option DemuxRun :=
  match ops with [] => Some x | op :: ops => demux_step op x ≫= demux_run ops end.

(** ** What is parked *)

Lemma parked_all_insert m a l : parked_all (<[a := l]> m) ≡ₚ l ++ parked_all (delete a m).
Proof.
  unfold parked_all. rewrite <- insert_delete_eq. rewrite map_to_list_insert by apply lookup_delete_eq. done.
Qed.

Lemma parked_all_delete m a : parked_all m ≡ₚ default [] (m !! a) ++ parked_all (delete a m).
Proof.
  destruct (m !! a) as [l|] eqn:E; simpl; [|by rewrite delete_id].
  rewrite <- (insert_id m a l E) at 1. apply parked_all_insert.
Qed.

Lemma evict_spec l : forall out keep, evict_oldest l = (out, keep) -> l = out ++ keep /\ len keep <= parkLimit /\ (len l <= parkLimit -> out = []).
Proof.
  induction l as [|p l IH]; intros out keep E; [by injection E as <- <-|]. unfold evict_oldest in E; fold evict_oldest in E.
  rewrite Z.gtb_ltb in E. destruct (Z.ltb_spec parkLimit (len (p :: l))) as [Hl|Hl].
  - destruct (evict_oldest l) as [out' keep'] eqn:El. injection E as <- <-. destruct (IH _ _ eq_refl) as (-> & Hk & _).
    split_and!; [done|done|lia].
  - injection E as <- <-. by split_and!.
Qed.

Definition arrives_before (p q : parked_stream) : Prop := p.1 < q.1.

Record queue_ok (x : DemuxRun) (a : Z) (l : list parked_stream) : Prop := {
  qo_handler : d_subgroup (x_d x) !! a = None;
  qo_retired : a ∉ d_retired (x_d x);
  qo_limit : len l <= parkLimit;
  qo_alias : Forall (fun p => alias_of p.2 = a /\ p.1 < x_next x) l;
  qo_order : StronglySorted arrives_before l }.

(** A subgroup stream is given only to a handler registered for its alias. *)
Definition call_ok (regs : list (Z * Z)) (a : action) : Prop :=
  match a with ACall h (_, DSSubgroup s) => (alias_of s, h) ∈ regs | _ => True end.
Definition in_order (l : list action) : Prop := StronglySorted Z.lt (action_id <$> l).

(** Where the accepted streams are: parked, about to be dealt with, dealt with. *)
Definition fates (x : DemuxRun) : list Z :=
  (parked_all (d_parked (x_d x))).*1 ++ (action_id <$> x_run x) ++ (action_id <$> concat (x_callers x)) ++ (action_id <$> x_log x).

Record demux_ok (x : DemuxRun) : Prop := {
  xi_next : 0 <= x_next x;
  xi_fates : fates x ≡ₚ seqZ 0 (x_next x);
  xi_count : d_parkedN (x_d x) = len (parked_all (d_parked (x_d x)));
  xi_total : d_parkedN (x_d x) <= parkTotalLimit;
  xi_queue : forall a l, d_parked (x_d x) !! a = Some l -> queue_ok x a l;
  xi_regs : forall a h, d_subgroup (x_d x) !! a = Some h -> (a, h) ∈ x_regs x;
  xi_calls : Forall (call_ok (x_regs x)) (x_run x ++ concat (x_callers x) ++ x_log x);
  xi_order : Forall in_order (x_callers x);
  xi_ended : x_ended x = true -> d_parked (x_d x) = ∅ /\ x_run x = [] }.

Lemma cancelled_ids l : action_id <$> (cancelled <$> l) = l.*1.
Proof. rewrite <- list_fmap_compose. done. Qed.
Lemma handed_ids h l : action_id <$> ((fun p => ACall h (subgroup_of p)) <$> l) = l.*1.
Proof. rewrite <- list_fmap_compose. done. Qed.
Lemma perform_id a d : action_id (perform a d) = action_id a.
Proof. destruct a; try done. simpl. unfold unknown. by destruct (d_onUnknown d). Qed.
Lemma perform_call regs a d : call_ok regs a -> call_ok regs (perform a d).
Proof. destruct a; try done. simpl. unfold unknown. by destruct (d_onUnknown d). Qed.
Lemma cancelled_calls regs l : Forall (call_ok regs) (cancelled <$> l).
Proof. apply Forall_fmap, Forall_forall. done. Qed.
Lemma ids_sorted l : StronglySorted arrives_before l -> StronglySorted Z.lt l.*1.
Proof.
  induction 1 as [|p l Hs IH Hf]; simpl; constructor; [done|]. apply Forall_fmap. eapply Forall_impl; [exact Hf|]. done.
Qed.

Lemma parked_len m a : len (parked_all m) = len (default [] (m !! a)) + len (parked_all (delete a m)).
Proof. rewrite <- len_app. unfold len. f_equal. apply Permutation_length, parked_all_delete. Qed.

Lemma arrivals_snoc (l : list parked_stream) p : StronglySorted arrives_before l -> Forall (fun q => q.1 < p.1) l ->
  StronglySorted arrives_before (l ++ [p]).
Proof.
  induction 1 as [|q l Hs IH Hq]; intros Hf; simpl; [by repeat constructor|]. apply Forall_cons in Hf as [Hp Hf].
  constructor; [by apply IH|]. apply Forall_app. split; [done|]. constructor; [done|constructor].
Qed.
Lemma sorted_app_r (l l' : list parked_stream) : StronglySorted arrives_before (l ++ l') -> StronglySorted arrives_before l'.
Proof. induction l as [|p l IH]; [done|]. simpl. intros H. apply IH. by apply StronglySorted_inv in H as [H _]. Qed.

Lemma demux0_ok : demux_ok demux0.
Proof. split; simpl; try done. Qed.

(** Dealing with a stream that waits. *)
Lemma step_log x run callers a d : demux_ok x ->
  (action_id <$> x_run x) ++ (action_id <$> concat (x_callers x)) ≡ₚ action_id a :: (action_id <$> run) ++ (action_id <$> concat callers) ->
  Forall (call_ok (x_regs x)) (a :: run ++ concat callers) -> Forall in_order callers -> (x_ended x = true -> run = []) ->
  demux_ok (MkDRun (x_d x) (x_next x) run (x_ended x) callers (x_log x ++ [perform a d]) (x_regs x)).
Proof.
  intros [H1 H2 H3 H4 H5 H6 H7 H8 H9] Hp Hc Ho He. apply Forall_cons in Hc as [Ha Hc]. split; simpl; try done.
  - rewrite <- H2. unfold fates. simpl. rewrite fmap_app. simpl. rewrite perform_id.
    rewrite !(app_assoc (action_id <$> x_run x)), Hp. rewrite (app_assoc (action_id <$> run)).
    set (u := (action_id <$> run) ++ (action_id <$> concat callers)). clearbody u. solve_Permutation.
  - intros a0 l Hl. destruct (H5 a0 l Hl). by split.
  - rewrite Forall_app in Hc. destruct Hc as [Hc1 Hc2]. rewrite !Forall_app in H7. destruct H7 as (_ & _ & H7).
    rewrite !Forall_app. split_and!; try done. apply Forall_cons. split; [by apply perform_call|by apply Forall_nil].
  - intros E. split; [by apply H9|auto].
Qed.

Lemma returns_ok x : demux_ok x -> x_run x = [] -> demux_ok (run_returns x).
Proof.
  intros [H1 H2 H3 H4 H5 H6 H7 H8 H9] Hr. split; simpl; try done.
  - rewrite <- H2. unfold fates. simpl. rewrite Hr. simpl. rewrite fmap_app, cancelled_ids.
    unfold parked_all at 1. rewrite map_to_list_empty. simpl. solve_Permutation.
  - rewrite Hr in H7. simpl in H7. rewrite Forall_app in H7. destruct H7 as [Ha Hb]. rewrite !Forall_app. split_and!; [done|done|apply cancelled_calls].
Qed.

Lemma next_seq n : 0 <= n -> seqZ 0 (n + 1) ≡ₚ n :: seqZ 0 n.
Proof. intros H. rewrite seqZ_app by lia. simpl. rewrite Z.add_0_l. change (seqZ n 1) with [n]. by rewrite Permutation_app_comm. Qed.

(** A stream that goes on to [Run] at once. *)
Lemma accepts_todo x a : demux_ok x -> x_run x = [] -> x_ended x = false -> action_id a = x_next x -> call_ok (x_regs x) a ->
  demux_ok (MkDRun (x_d x) (x_next x + 1) [a] (x_ended x) (x_callers x) (x_log x ++ []) (x_regs x)).
Proof.
  intros [H1 H2 H3 H4 H5 H6 H7 H8 H9] Hr He Hi Hc. rewrite app_nil_r. split; simpl; try done.
  - lia.
  - rewrite next_seq, <- H2 by done. unfold fates. simpl. rewrite Hr, Hi. simpl. solve_Permutation.
  - intros b l Hl. destruct (H5 b l Hl) as [Q1 Q2 Q3 Q4 Q5]. split; try done. eapply Forall_impl; [exact Q4|]. simpl. intros p [? ?]. split; [done|lia].
  - rewrite Hr in H7. by apply Forall_cons.
  - intros E. congruence.
Qed.

Lemma park_ok x s out d : demux_ok x -> x_run x = [] -> x_ended x = false -> d_subgroup (x_d x) !! alias_of s = None ->
  parkLocked (x_next x, s) (x_d x) = (true, out, d) ->
  demux_ok (MkDRun d (x_next x + 1) [] (x_ended x) (x_callers x) (x_log x ++ out) (x_regs x)).
Proof.
  intros [H1 H2 H3 H4 H5 H6 H7 H8 H9] Hr He Hh. unfold parkLocked. simpl. case_bool_decide as Hret; [done|].
  destruct (d_parkedN (x_d x) >=? parkTotalLimit) eqn:Et; [done|]. set (a := alias_of s) in *.
  set (old := default [] (d_parked (x_d x) !! a)) in *. destruct (evict_oldest (old ++ [(x_next x, s)])) as [o keep] eqn:Ee.
  intros [= <- <-]. pose proof (evict_spec _ _ _ Ee) as (Hok & Hk & _).
  assert (Hold : Forall (fun p => alias_of p.2 = a /\ p.1 < x_next x) old /\ StronglySorted arrives_before old).
  { subst old. destruct (d_parked (x_d x) !! a) as [l|] eqn:El; simpl; [|split; [by apply Forall_nil|constructor]].
    destruct (H5 a l El). done. }
  destruct Hold as [Ho1 Ho2].
  assert (Hkeep : Forall (fun p => alias_of p.2 = a /\ p.1 < x_next x + 1) keep /\ StronglySorted arrives_before keep).
  { assert (Hall : Forall (fun p => alias_of p.2 = a /\ p.1 < x_next x + 1) (o ++ keep)).
    { rewrite <- Hok. apply Forall_app. split; [eapply Forall_impl; [exact Ho1|]; simpl; intros p [? ?]; split; [done|lia]|].
      apply Forall_cons. split; [simpl; split; [done|lia]|by apply Forall_nil]. }
    apply Forall_app in Hall as [_ Hall]. split; [done|]. apply (sorted_app_r o). rewrite <- Hok. apply arrivals_snoc; [done|].
    eapply Forall_impl; [exact Ho1|]. simpl. by intros p [_ ?]. }
  assert (Hlen : len old + 1 = len o + len keep).
  { rewrite <- len_app, <- Hok, len_app, len_cons, len_nil. lia. }
  assert (Hn : d_parkedN (x_d x) + 1 - len o = len (parked_all (<[a:=keep]> (d_parked (x_d x))))).
  { rewrite H3, (parked_len (d_parked (x_d x)) a), (parked_len (<[a:=keep]> _) a), lookup_insert_eq, delete_insert_eq.
    simpl. fold old. lia. }
  split; simpl; try done.
  - lia.
  - rewrite next_seq, <- H2 by done. unfold fates. simpl. rewrite Hr. simpl. rewrite fmap_app, cancelled_ids.
    rewrite parked_all_insert, (parked_all_delete (d_parked (x_d x)) a). fold old. rewrite !fmap_app.
    assert (Hp : o.*1 ++ keep.*1 ≡ₚ x_next x :: old.*1).
    { rewrite <- fmap_app, <- Hok, fmap_app. simpl. solve_Permutation. }
    set (dl := (parked_all _).*1). clearbody dl. set (u := action_id <$> concat _). clearbody u. set (v := action_id <$> x_log x). clearbody v.
    trans ((o.*1 ++ keep.*1) ++ dl ++ u ++ v); [solve_Permutation|]. rewrite Hp. solve_Permutation.
  - pose proof (len_nonneg o). lia.
  - intros b l. destruct (decide (b = a)) as [->|Hb].
    + rewrite lookup_insert_eq. intros [= <-]. destruct Hkeep. by split.
    + rewrite lookup_insert_ne by done. intros Hl. destruct (H5 b l Hl) as [Q1 Q2 Q3 Q4 Q5]. split; try done.
      eapply Forall_impl; [exact Q4|]. simpl. intros p [? ?]. split; [done|lia].
  - rewrite Hr in H7. simpl in H7. rewrite Forall_app in H7. destruct H7 as [Ha Hb].
    rewrite !Forall_app. split_and!; [done|done|apply cancelled_calls].
  - intros E. congruence.
Qed.

Lemma accepts_ok ds x : demux_ok x -> x_run x = [] -> x_ended x = false -> demux_ok (run_accepts ds x).
Proof.
  intros Hok Hr He. unfold run_accepts, dispatch. simpl. destruct ds as [s|rid s].
  - destruct (d_subgroup (x_d x) !! alias_of s) as [h|] eqn:Eh.
    + apply accepts_todo; try done. simpl. by apply (xi_regs _ Hok).
    + destruct (parkLocked (x_next x, s) (x_d x)) as [[[] out] d] eqn:Ep; [by eapply park_ok|].
      assert (out = [] /\ d = x_d x) as [-> ->].
      { unfold parkLocked in Ep. simpl in Ep. destruct (bool_decide _); [by simplify_eq|]. destruct (_ >=? _); [by simplify_eq|].
        by destruct (evict_oldest _). }
      by apply accepts_todo.
  - destruct (d_fetch (x_d x) !! rid) as [h|]; by apply accepts_todo.
Qed.

Lemma handle_track_ok alias h x : demux_ok x ->
  let '(d, todo) := HandleTrack alias h (x_d x) in
  demux_ok (MkDRun d (x_next x) (x_run x) (x_ended x) (x_callers x ++ [todo]) (x_log x)
              (match h with Some h => (alias, h) :: x_regs x | None => x_regs x end)).
Proof.
  intros [H1 H2 H3 H4 H5 H6 H7 H8 H9]. set (held := default [] (d_parked (x_d x) !! alias)).
  assert (Hheld : Forall (fun p => alias_of p.2 = alias) held /\ StronglySorted arrives_before held).
  { subst held. destruct (d_parked (x_d x) !! alias) as [l|] eqn:El; simpl; [|split; [by apply Forall_nil|constructor]].
    destruct (H5 alias l El) as [_ _ _ Q4 Q5]. split; [|done]. eapply Forall_impl; [exact Q4|]. simpl. by intros p [? _]. }
  destruct Hheld as [Ha Hs]. pose proof (parked_len (d_parked (x_d x)) alias) as Hl. fold held in Hl. pose proof (len_nonneg held).
  assert (Hf : forall todo rg d', action_id <$> todo = held.*1 -> d_parked d' = delete alias (d_parked (x_d x)) ->
    fates (MkDRun d' (x_next x) (x_run x) (x_ended x) (x_callers x ++ [todo]) (x_log x) rg) ≡ₚ seqZ 0 (x_next x)).
  { intros todo rg d' Et Ed. rewrite <- H2. unfold fates. simpl. rewrite Ed, concat_app. simpl. rewrite app_nil_r, fmap_app, Et.
    rewrite (parked_all_delete (d_parked (x_d x)) alias). fold held. rewrite fmap_app.
    set (dl := (parked_all _).*1). clearbody dl. solve_Permutation. }
  assert (Hend : x_ended x = true -> delete alias (d_parked (x_d x)) = ∅ /\ x_run x = []).
  { intros E. destruct (H9 E) as [-> ?]. split; [apply delete_empty|done]. }
  destruct h as [h|]; simpl; fold held; split; simpl; try done; fold held; try lia.
  - apply Hf; [apply handed_ids|done].
  - intros b l Hb. apply lookup_delete_Some in Hb as [Hne Hb]. destruct (H5 b l Hb) as [Q1 Q2 Q3 Q4 Q5]. split; simpl; try done.
    + by rewrite lookup_insert_ne.
    + set_solver.
  - intros b h' Hb. destruct (decide (b = alias)) as [->|Hne].
    + rewrite lookup_insert_eq in Hb. simplify_eq. by left.
    + rewrite lookup_insert_ne in Hb by done. right. by apply H6.
  - rewrite concat_app. simpl. rewrite app_nil_r, !Forall_app. rewrite !Forall_app in H7. destruct H7 as (K1 & K2 & K3).
    assert (Hmono : forall l, Forall (call_ok (x_regs x)) l -> Forall (call_ok ((alias, h) :: x_regs x)) l).
    { intros l Hl'. eapply Forall_impl; [exact Hl'|]. intros [h' [i [s|r s]]| | |]; simpl; try done. by right. }
    split_and!; auto. apply Forall_fmap. eapply Forall_impl; [exact Ha|]. simpl. intros p ->. by left.
  - apply Forall_app. split; [done|]. apply Forall_cons. split; [|by apply Forall_nil]. unfold in_order. rewrite handed_ids. by apply ids_sorted.
  - apply Hf; [apply cancelled_ids|done].
  - intros b l Hb. apply lookup_delete_Some in Hb as [Hne Hb]. destruct (H5 b l Hb) as [Q1 Q2 Q3 Q4 Q5]. split; simpl; try done.
    + by rewrite lookup_delete_ne.
    + set_solver.
  - intros b h' Hb. apply lookup_delete_Some in Hb as [_ Hb]. by apply H6.
  - rewrite concat_app. simpl. rewrite app_nil_r, !Forall_app. rewrite !Forall_app in H7. destruct H7 as (K1 & K2 & K3).
    split_and!; try done. apply cancelled_calls.
  - apply Forall_app. split; [done|]. apply Forall_cons. split; [|by apply Forall_nil]. unfold in_order. rewrite cancelled_ids. by apply ids_sorted.
Qed.

Lemma demux_step_ok op x x' : demux_ok x -> demux_step op x = Some x' -> demux_ok x'.
Proof.
  intros Hok. destruct op as [streams| | |i|alias h|rid h|f]; unfold demux_step.
  - destruct (x_run x) eqn:Er; [|done]. destruct (x_ended x) eqn:Ee; [done|].
    destruct (AcceptDataStream streams) as [[[ds| |e b] rest]|]; try done.
    + intros [= <-]. by apply accepts_ok.
    + destruct (errors_Is e ErrPaddingStream); intros [= <-]; [done|]. by apply returns_ok.
  - destruct (x_run x) eqn:Er; [|done]. destruct (x_ended x); [done|]. intros [= <-]. by apply returns_ok.
  - destruct (x_run x) as [|a rest] eqn:Er; [done|]. intros [= <-]. pose proof (xi_calls _ Hok) as Hc. rewrite Er in Hc.
    apply step_log; [done|by rewrite Er| |apply Hok|].
    + simpl in Hc. apply Forall_cons in Hc as [Ha Hc]. rewrite !Forall_app in Hc. destruct Hc as (K1 & K2 & _).
      apply Forall_cons. split; [done|]. by apply Forall_app.
    + intros E. destruct (xi_ended _ Hok E) as [_ ?]. congruence.
  - destruct (x_callers x !! i) as [[|a rest]|] eqn:Ei; [done| |done]. intros [= <-]. pose proof (xi_calls _ Hok) as Hc.
    apply list_elem_of_split_length in Ei as (l1 & l2 & El & Hi). rewrite El. rewrite El in Hc.
    assert (Hins : <[i := rest]> (l1 ++ (a :: rest) :: l2) = l1 ++ rest :: l2) by (rewrite Hi, insert_app_r_alt, Nat.sub_diag; done).
    rewrite Hins. rewrite concat_app in Hc. simpl in Hc.
    apply step_log; [done|..].
    + rewrite El, !concat_app. simpl. rewrite !fmap_app. simpl. rewrite fmap_app. solve_Permutation.
    + rewrite concat_app. simpl. rewrite !Forall_app in Hc. destruct Hc as (K1 & (K2 & K3) & _). apply Forall_cons in K3 as [K3 K4].
      rewrite Forall_app in K4. destruct K4 as [K4 K5]. apply Forall_cons. split; [done|]. rewrite !Forall_app. by split_and!.
    + pose proof (xi_order _ Hok) as Ho. rewrite El in Ho. rewrite Forall_app in Ho |- *. destruct Ho as [Ho1 Ho2]. split; [done|].
      apply Forall_cons in Ho2 as [Ho2 Ho3]. apply Forall_cons. split; [|done]. unfold in_order in *. simpl in Ho2.
      by apply StronglySorted_inv in Ho2 as [? _].
    + intros E. by apply (xi_ended _ Hok).
  - pose proof (handle_track_ok alias h x Hok) as H. destruct (HandleTrack alias h (x_d x)) as [d todo]. by intros [= <-].
  - intros [= <-]. destruct Hok as [H1 H2 H3 H4 H5 H6 H7 H8 H9]. split; try done. intros a l Hl. destruct (H5 a l Hl). by split.
  - intros [= <-]. destruct Hok as [H1 H2 H3 H4 H5 H6 H7 H8 H9]. split; try done. intros a l Hl. destruct (H5 a l Hl). by split.
Qed.

Lemma demux_run_ok ops : forall x x', demux_ok x -> demux_run ops x = Some x' -> demux_ok x'.
Proof.
  induction ops as [|op ops IH]; simpl; intros x x' Hok Hr; [by simplify_eq|].
  destruct (demux_step op x) as [x1|] eqn:E; [|done]. eapply IH; [by eapply demux_step_ok|done].
Qed.

(** C18: every accepted data stream has one fate.  However [Run] and the goroutines
    that register and unregister handlers interleave: each stream accepted is parked,
    waiting to be dealt with, or has been given to a handler, given to [OnUnknown] or
    reset, exactly once; a subgroup stream is given only to a handler registered for its
    alias, and a call of [HandleTrack] hands the parked ones over in order of arrival;
    nothing is parked under an alias that has a handler or is retired, at most
    [parkLimit] streams are parked under an alias and [parkTotalLimit] in all, and the
    running count agrees; and nothing stays parked once [Run] has returned. *)
Theorem streams_have_one_fate ops x : demux_run ops demux0 = Some x ->
  NoDup (fates x) /\ (forall i, i ∈ fates x <-> 0 <= i /\ i < x_next x) /\
  d_parkedN (x_d x) = len (parked_all (d_parked (x_d x))) /\ d_parkedN (x_d x) <= parkTotalLimit /\
  (forall a l, d_parked (x_d x) !! a = Some l ->
     d_subgroup (x_d x) !! a = None /\ (a ∉ d_retired (x_d x)) /\ len l <= parkLimit /\ Forall (fun p => (alias_of p.2 = a)) l) /\
  (forall h i s, ACall h (i, DSSubgroup s) ∈ x_log x -> (alias_of s, h) ∈ x_regs x) /\
  Forall in_order (x_callers x) /\
  (x_ended x = true -> parked_all (d_parked (x_d x)) = []).
Proof.
  intros Hr. pose proof (demux_run_ok _ _ _ demux0_ok Hr) as [H1 H2 H3 H4 H5 H6 H7 H8 H9]. split_and!; try done.
  - rewrite H2. apply NoDup_seqZ.
  - intros i. rewrite H2, elem_of_seqZ. lia.
  - intros a l Hl. destruct (H5 a l Hl) as [Q1 Q2 Q3 Q4 Q5]. split_and!; try done.
    eapply Forall_impl; [exact Q4|]. simpl. by intros p [? _].
  - intros h i s Hin. rewrite !Forall_app, !Forall_forall in H7. destruct H7 as (_ & _ & H7). exact (H7 _ Hin).
  - intros E. destruct (H9 E) as [-> _]. unfold parked_all. by rewrite map_to_list_empty.
Qed.

(** ** A session, run *)
Definition early_stream (alias group : Z) : Stream :=
  MkStream (WriteSubgroupHeader [] (MkSubgroupHeader false 0 false true false alias group 0 7)) Fin.
Definition fetch_stream (requestID : Z) : Stream := MkStream (WriteFetchHeader [] requestID) Fin.

(** Two streams come before the handler of alias 5, which is then registered; a third
    goes to it at once; a FETCH response nobody asked for; a stream for alias 6 is
    still parked when the peer breaks off. *)
Definition sample_demux_ops : list demux_op :=
  [XAccept [early_stream 5 0]; XAccept [early_stream 5 1]; XHandleTrack 5 (Some 100); XAccept [early_stream 5 2]; XCaller 0; XRun;
   XCaller 0; XAccept [fetch_stream 9]; XRun; XAccept [early_stream 6 0]; XHandleTrack 5 None; XAccept [early_stream 5 3]; XRun;
   XAccept [MkStream [Byte.x3f] Fin]].
Definition action_kind (a : action) : Z * Z :=
  match a with ACall h st => (h, st.1) | ACallUnknown f st => (f, st.1) | AReset st code => (-1, st.1) | AUnknown st => (-2, st.1) end.

Lemma streams_have_one_fate_witness : exists x, demux_run sample_demux_ops demux0 = Some x /\
  action_kind <$> x_log x = [(100, 0); (100, 2); (100, 1); (-1, 3); (-1, 5); (-1, 4)] /\ x_ended x = true /\
  NoDup (fates x) /\ parked_all (d_parked (x_d x)) = [].
Proof.
  assert (Hr : ((fun x => action_kind <$> x_log x) <$> demux_run sample_demux_ops demux0, x_ended <$> demux_run sample_demux_ops demux0) =
    (Some [(100, 0); (100, 2); (100, 1); (-1, 3); (-1, 5); (-1, 4)], Some true)) by (vm_compute; reflexivity).
  destruct (demux_run sample_demux_ops demux0) as [x|] eqn:Ex; [|discriminate Hr]. simpl in Hr. injection Hr as H1 H2.
  pose proof (streams_have_one_fate sample_demux_ops x Ex) as (A & _ & _ & _ & _ & _ & _ & B).
  clear Ex. exists x. split_and!; try done. by apply B.
Defined.

(** ** Requests

    [RequestMux]: an accepted request goes to the handler of its first message's type,
    else to [OnUnknown], else is refused. *)
Record RequestMux : Type := MkMux { rm_handlers : gmap Z Z; rm_onUnknown : option Z }.
Definition NewRequestMux : RequestMux := MkMux ∅ None.
Definition Handle (t : Z) (h : option Z) (m : RequestMux) : RequestMux :=
  MkMux (match h with None => delete t (rm_handlers m) | Some h => <[t := h]> (rm_handlers m) end) (rm_onUnknown m).
Definition mux_OnUnknown (f : option Z) (m : RequestMux) : RequestMux := MkMux (rm_handlers m) f.

Definition no_handler : bytes := String.list_byte_of_string "moqt/session: no handler for request type".

Inductive muxed : Type :=
| ToHandler (h : Z) (first : Message) (tokens : list ResolvedToken)
| ToUnknown (f : Z) (first : Message) (tokens : list ResolvedToken)
| Refused (events : list req_event)
| MuxReturns (e : error).

Definition mux_dispatch (wok : bool) (first : Message) (tokens : list ResolvedToken) (ro : role) (m : RequestMux) : muxed :=
  match rm_handlers m !! msg_Type first with
  | Some h => ToHandler h first tokens
  | None =>
      match rm_onUnknown m with
      | Some f => ToUnknown f first tokens
      | None => Refused (RejectError wok first ro RequestNotSupported no_handler).2
      end
  end.

(** A turn of [RequestMux.Run]; the mux is as it stands when the request is
    dispatched. *)
Definition mux_turn (wok : bool) (streams : list (bool * bool * bool * result Message)) (m : RequestMux) (s : Session)
    : option muxed * Session :=
  let '(acc, _, s) := AcceptRequest streams s in
  match acc with
  | Some (AccRequest first tokens) => (Some (mux_dispatch wok first tokens (s_role s) m), s)
  | Some (AccFail e) => (Some (MuxReturns e), s)
  | _ => (None, s)
  end.

Lemma Reject_plain wok first ro reason : exists ev, (RejectError wok first ro RequestNotSupported reason).2 = ev /\
  (ev = resetStream \/ exists b, marshal_events wok (MRequestError (MkRequestError RequestNotSupported 0 reason None)) = Some b /\
     ev = b ++ [RqClose; RqDiscard]).
Proof.
  unfold RejectError, Reject. cbn [rej_Code rej_RetryInterval rej_Reason rej_Redirect redirectViolation].
  change (ValidateRedirect _) with (Ok (A:=unit) tt). cbv iota. destruct (marshal_events _ _) as [b|]; simpl.
  - exists (b ++ [RqClose; RqDiscard]). split; [done|]. right. by exists b.
  - exists resetStream. split; [done|by left].
Qed.

(** An accepted request reaches the handler registered last for its type, and no
    other; without one it reaches [OnUnknown], and without that it is refused with
    NOT_SUPPORTED and its stream is closed, or reset when that cannot be written. *)
Theorem request_dispatched wok streams m s first tokens evs s' : AcceptRequest streams s = (Some (AccRequest first tokens), evs, s') ->
  exists out, mux_turn wok streams m s = (Some out, s') /\
  (forall h, rm_handlers m !! msg_Type first = Some h -> out = ToHandler h first tokens) /\
  (rm_handlers m !! msg_Type first = None -> forall f, rm_onUnknown m = Some f -> out = ToUnknown f first tokens) /\
  (rm_handlers m !! msg_Type first = None -> rm_onUnknown m = None -> exists ev, out = Refused ev /\
     (ev = resetStream \/ exists b, marshal_events wok (MRequestError (MkRequestError RequestNotSupported 0 no_handler None)) = Some b /\
        ev = b ++ [RqClose; RqDiscard])).
Proof.
  intros H. unfold mux_turn. rewrite H. exists (mux_dispatch wok first tokens (s_role s') m). split; [done|]. unfold mux_dispatch.
  split_and!; [by intros h ->|by intros -> f ->|]. intros -> ->.
  destruct (Reject_plain wok first (s_role s') no_handler) as (ev & <- & Hev). eauto.
Qed.
