(* ===== verification/Admission.v ===== *)
(** * Admission: which requests a session may hold

    [pkg/relay/limiter.go] and the request loop of [pkg/relay/session_handler.go]
    ([requestMux], [verifyRequest], [namespaceRequest], the refusals): an accepted
    request is verified, counted against the session's caps and given to a handler that
    runs as long as the request.  Also [cachettl.go], the cache lifetime by Track Name.

    The handlers are opaque here: what matters is that one starts, returns, and, for a
    TRACK_STATUS, holds a subscription slot while it is forwarded. *)

From stdpp Require Import gmap.
From S2P Require Import Prelude Codes Varint Wire KV Filter Params Properties RangeFilter Messages Objects Streams Cache.
From S2P Require Import FetchRanges Ledger Stitch Tokens Session Subs Track Discovery TrackTable Candidates Broker Subscribing.
From S2P Require Import SubscribeHandler Demux.

(** ** The limiter *)

Record sessionLimiter : Type := MkLimiter { l_subs : Z; l_ns : Z; l_maxSubs : Z; l_maxNS : Z }.

Definition acquire (n limit : Z) : bool * Z :=
  if limit <=? 0 then (true, n) else if n >=? limit then (false, n) else (true, n + 1).
Definition release_slot (n limit : Z) : Z :=
  if limit <=? 0 then n else if n >? 0 then n - 1 else n.

Definition acquireSub (l : sessionLimiter) : bool * sessionLimiter :=
  let '(ok, n) := acquire (l_subs l) (l_maxSubs l) in (ok, MkLimiter n (l_ns l) (l_maxSubs l) (l_maxNS l)).
Definition releaseSub (l : sessionLimiter) : sessionLimiter :=
  MkLimiter (release_slot (l_subs l) (l_maxSubs l)) (l_ns l) (l_maxSubs l) (l_maxNS l).
Definition acquireNamespace (l : sessionLimiter) : bool * sessionLimiter :=
  let '(ok, n) := acquire (l_ns l) (l_maxNS l) in (ok, MkLimiter (l_subs l) n (l_maxSubs l) (l_maxNS l)).
Definition releaseNamespace (l : sessionLimiter) : sessionLimiter :=
  MkLimiter (l_subs l) (release_slot (l_ns l) (l_maxNS l)) (l_maxSubs l) (l_maxNS l).

Inductive slot : Type := SlotSub | SlotNS | SlotNone.
#[global] Instance slot_eq_dec : EqDecision slot.
Proof. solve_decision. Defined.

Definition take_slot (k : slot) (l : sessionLimiter) : bool * sessionLimiter :=
  match k with SlotSub => acquireSub l | SlotNS => acquireNamespace l | SlotNone => (true, l) end.
Definition give_slot (k : slot) (l : sessionLimiter) : sessionLimiter :=
  match k with SlotSub => releaseSub l | SlotNS => releaseNamespace l | SlotNone => l end.

(** ** The request loop *)

(** [requestMux]: a handler is named by the type it is registered for. *)
Definition requestMux : RequestMux :=
  fold_left (fun m t => Handle t (Some t) m)
    [TypeSubscribe; TypePublish; TypeFetch; TypeTrackStatus; TypePublishNamespace; TypeSubscribeNamespace; TypeSubscribeTracks]
    NewRequestMux.

(** What a handler of type [t] is counted as while it runs. *)
Definition slot_of (t : Z) : slot :=
  if t =? TypeSubscribe then SlotSub else if namespace_scoped t then SlotNS else SlotNone.

Definition limit_reason (k : slot) : bytes :=
  String.list_byte_of_string (match k with SlotNS => "relay: namespace request limit reached" | _ => "relay: subscription limit reached" end).

Definition rejectExcessiveLoad (wok : bool) (rnd : Z) (k : slot) (first : Message) (ro : role) : list req_event :=
  (Reject wok first ro (MkRejected RequestExcessiveLoad (limit_reason k) (retryIntervalAfter excessiveLoadRetry rnd) None)).2.

Inductive outcome : Type :=
| Spawned (t : Z) | Denied (code : Z) (events : list req_event) | Overloaded (k : slot) (events : list req_event)
| NotSupported (events : list req_event) | LoopEnds (e : error).

(** A handler running: the type of its request, and the slot it holds. *)
Record Admission : Type := MkAdm { a_sess : Session; a_lim : sessionLimiter; a_running : list (Z * slot); a_ended : bool }.
Definition admission0 (s : Session) (maxSubs maxNS : Z) : Admission := MkAdm s (MkLimiter 0 0 maxSubs maxNS) [] false.

Section Loop.
Context (text : error -> bytes) (verifier : option (ResolvedToken -> option error)).

(** A handler registered with the mux: [verifyRequest], the cap, [spawn]. *)
Definition on_request (wok : bool) (rnd t : Z) (first : Message) (toks : list ResolvedToken) (a : Admission) : outcome * Admission :=
  match VerifyTokens verifier toks with
  | Err e =>
      let '(code, reason) := tokenDenial text e in
      (Denied code (RejectError wok first (s_role (a_sess a)) code reason).2, a)
  | Ok _ =>
      let '(ok, l) := take_slot (slot_of t) (a_lim a) in
      if ok then (Spawned t, MkAdm (a_sess a) l (a_running a ++ [(t, slot_of t)]) (a_ended a))
      else (Overloaded (slot_of t) (rejectExcessiveLoad wok rnd (slot_of t) first (s_role (a_sess a))), a)
  end.

(** A turn of [runRequestLoop]: [None] while it waits. *)
Definition request_turn (wok : bool) (rnd : Z) (streams : list (bool * bool * bool * result Message)) (a : Admission)
    : option outcome * Admission :=
  let '(m, s) := mux_turn wok streams requestMux (a_sess a) in
  let a := MkAdm s (a_lim a) (a_running a) (a_ended a) in
  match m with
  | None => (None, a)
  | Some (ToHandler t first toks) => let '(o, a) := on_request wok rnd t first toks a in (Some o, a)
  | Some (ToUnknown _ _ _) => (None, a)
  | Some (Refused ev) => (Some (NotSupported ev), a)
  | Some (MuxReturns e) => (Some (LoopEnds e), MkAdm s (a_lim a) (a_running a) true)
  end.

(** The steps: a turn of the loop, a handler's return, a TRACK_STATUS that takes a
    slot to be forwarded and gives it back. *)
Inductive adm_op : Type :=
| AdRequest (wok : bool) (rnd : Z) (streams : list (bool * bool * bool * result Message))
| AdReturn (i : nat) | AdForward (i : nat) | AdForwarded (i : nat).

Definition adm_step (op : adm_op) (a : Admission) : option Admission :=
  match op with
  | AdRequest wok rnd streams => if a_ended a then None else Some (request_turn wok rnd streams a).2
  | AdReturn i =>
      match a_running a !! i with
      | Some (t, k) =>
          if (t =? TypeTrackStatus) && negb (bool_decide (k = SlotNone)) then None
          else Some (MkAdm (a_sess a) (give_slot k (a_lim a)) (delete i (a_running a)) (a_ended a))
      | None => None
      end
  | AdForward i =>
      match a_running a !! i with
      | Some (t, SlotNone) =>
          if t =? TypeTrackStatus then
            let '(ok, l) := acquireSub (a_lim a) in
            Some (MkAdm (a_sess a) l (if ok then <[i := (t, SlotSub)]> (a_running a) else a_running a) (a_ended a))
          else None
      | _ => None
      end
  | AdForwarded i =>
      match a_running a !! i with
      | Some (t, SlotSub) =>
          if t =? TypeTrackStatus
          then Some (MkAdm (a_sess a) (releaseSub (a_lim a)) (<[i := (t, SlotNone)]> (a_running a)) (a_ended a))
          else None
      | _ => None
      end
  end.

Fixpoint adm_run (ops : list adm_op) (a : Admission) : option Admission :=
  match ops with [] => Some a | op :: ops => adm_step op a ≫= adm_run ops end.

(** ** The counts *)

Definition holders (k : slot) (l : list (Z * slot)) : Z := len (filter (fun x => x.2 = k) l).

Lemma holders_perm k l l' : l ≡ₚ l' -> holders k l = holders k l'.
Proof. intros H. unfold holders, len. f_equal. apply Permutation_length. by rewrite H. Qed.
Lemma slots_cons k x l : holders k (x :: l) = (if bool_decide (x.2 = k) then 1 else 0) + holders k l.
Proof. unfold holders. rewrite filter_cons. case_decide; case_bool_decide; try done. rewrite len_cons. lia. Qed.
Lemma holders_snoc k x l : holders k (l ++ [x]) = holders k l + (if bool_decide (x.2 = k) then 1 else 0).
Proof. rewrite (holders_perm k _ (x :: l)) by (by rewrite Permutation_app_comm). rewrite slots_cons. lia. Qed.
Lemma holders_delete k i x l : l !! i = Some x -> holders k l = (if bool_decide (x.2 = k) then 1 else 0) + holders k (delete i l).
Proof. intros H. rewrite <- slots_cons. apply holders_perm. by apply delete_Permutation. Qed.
Lemma holders_insert k i x y l : l !! i = Some x ->
  holders k (<[i := y]> l) + (if bool_decide (x.2 = k) then 1 else 0) = holders k l + (if bool_decide (y.2 = k) then 1 else 0).
Proof.
  intros H. pose proof (holders_delete k i x l H) as H1.
  assert (H2 : <[i := y]> l !! i = Some y) by (apply list_lookup_insert_eq; by eapply lookup_lt_Some).
  pose proof (holders_delete k i y _ H2) as H3. assert (E : delete i (<[i := y]> l) = delete i l).
  { clear. revert i. induction l as [|z l IH]; intros [|i]; simpl; [done..|]. by f_equal. }
  rewrite E in H3. lia.
Qed.
Lemma holders_nonneg k l : 0 <= holders k l.
Proof. apply len_nonneg. Qed.

(** The counters are exact while their cap is on. *)
Definition count_ok (n limit held : Z) : Prop := 0 < limit -> n = held /\ held <= limit.
Record adm_ok (maxSubs maxNS : Z) (a : Admission) : Prop := {
  ao_max : l_maxSubs (a_lim a) = maxSubs /\ l_maxNS (a_lim a) = maxNS;
  ao_subs : count_ok (l_subs (a_lim a)) maxSubs (holders SlotSub (a_running a));
  ao_ns : count_ok (l_ns (a_lim a)) maxNS (holders SlotNS (a_running a)) }.

Lemma acquire_ok n limit held ok n' : count_ok n limit held -> acquire n limit = (ok, n') ->
  count_ok n' limit (held + if ok then 1 else 0) /\ (ok = false <-> 0 < limit /\ held = limit).
Proof.
  unfold count_ok, acquire. intros H. destruct (Z.leb_spec limit 0) as [Hl|Hl].
  - intros [= <- <-]. split; [lia|]. split; [done|lia].
  - rewrite Z.geb_leb. destruct (H Hl) as [-> Hle]. destruct (Z.leb_spec limit held); intros [= <- <-]; split; try lia; split; done || lia.
Qed.

Lemma release_count n limit held : count_ok n limit (1 + held) -> 0 <= held -> count_ok (release_slot n limit) limit held.
Proof.
  unfold count_ok, release_slot. intros H Hh Hl. destruct (H Hl) as [-> Hle]. destruct (Z.leb_spec limit 0); [lia|].
  rewrite Z.gtb_ltb. destruct (Z.ltb_spec 0 (1 + held)); lia.
Qed.

Lemma take_ok maxSubs maxNS k ok l a t : adm_ok maxSubs maxNS a -> take_slot k (a_lim a) = (ok, l) ->
  adm_ok maxSubs maxNS (MkAdm (a_sess a) l (if ok then a_running a ++ [(t, k)] else a_running a) (a_ended a)) /\
  (ok = false <-> match k with SlotSub => 0 < maxSubs /\ holders SlotSub (a_running a) = maxSubs
                  | SlotNS => 0 < maxNS /\ holders SlotNS (a_running a) = maxNS | SlotNone => False end).
Proof.
  intros [[M1 M2] H1 H2]. destruct k; unfold take_slot, acquireSub, acquireNamespace.
  - destruct (acquire (l_subs (a_lim a)) (l_maxSubs (a_lim a))) as [b n] eqn:E. rewrite M1 in E. intros [= <- <-].
    apply (acquire_ok _ _ _ _ _ H1) in E as [E1 E2]. split; [|done]. split; simpl; [done|..];
      destruct b; rewrite ?holders_snoc; simpl; rewrite ?Z.add_0_r in *; done.
  - destruct (acquire (l_ns (a_lim a)) (l_maxNS (a_lim a))) as [b n] eqn:E. rewrite M2 in E. intros [= <- <-].
    apply (acquire_ok _ _ _ _ _ H2) in E as [E1 E2]. split; [|done]. split; simpl; [done|..];
      destruct b; rewrite ?holders_snoc; simpl; rewrite ?Z.add_0_r in *; done.
  - intros [= <- <-]. split; [|done]. split; simpl; [done|..]; rewrite holders_snoc; simpl; by rewrite Z.add_0_r.
Qed.

Lemma turn_ok maxSubs maxNS wok rnd streams a : adm_ok maxSubs maxNS a -> adm_ok maxSubs maxNS (request_turn wok rnd streams a).2.
Proof.
  intros Hok. unfold request_turn. destruct (mux_turn wok streams requestMux (a_sess a)) as [m s].
  assert (H' : forall e, adm_ok maxSubs maxNS (MkAdm s (a_lim a) (a_running a) e)) by (intros e; by destruct Hok).
  destruct m as [[t first toks|f first toks|ev|e]|]; try apply H'. set (a' := MkAdm s _ _ _). unfold on_request.
  destruct (VerifyTokens verifier toks) as [|e]; [|destruct (tokenDenial text e); apply H'].
  destruct (take_slot (slot_of t) (a_lim a')) as [ok l] eqn:Et.
  pose proof (take_ok maxSubs maxNS _ _ _ a' t (H' _) Et) as [Hk _]. destruct ok; [exact Hk|apply H'].
Qed.

Lemma adm_step_ok maxSubs maxNS op a a' : adm_ok maxSubs maxNS a -> adm_step op a = Some a' -> adm_ok maxSubs maxNS a'.
Proof.
  intros Hok. destruct op as [wok rnd streams|i|i|i]; unfold adm_step.
  - destruct (a_ended a); [done|]. intros [= <-]. by apply turn_ok.
  - destruct (a_running a !! i) as [[t k]|] eqn:Ei; [|done]. destruct (_ && _); [done|]. intros [= <-].
    destruct Hok as [[M1 M2] H1 H2]. pose proof (holders_delete SlotSub i _ _ Ei) as D1. pose proof (holders_delete SlotNS i _ _ Ei) as D2.
    pose proof (holders_nonneg SlotSub (delete i (a_running a))). pose proof (holders_nonneg SlotNS (delete i (a_running a))).
    destruct k; simpl in D1, D2; unfold give_slot; (split; simpl; [done|..]); rewrite ?M1, ?M2, ?D1, ?D2 in *; try done; by apply release_count.
  - destruct (a_running a !! i) as [[t []]|] eqn:Ei; try done. destruct (t =? TypeTrackStatus); [|done].
    destruct Hok as [[M1 M2] H1 H2]. unfold acquireSub. destruct (acquire (l_subs (a_lim a)) (l_maxSubs (a_lim a))) as [ok n] eqn:E.
    rewrite M1 in E. intros [= <-]. apply (acquire_ok _ _ _ _ _ H1) in E as [E1 _].
    pose proof (holders_insert SlotSub i _ (t, SlotSub) _ Ei) as D1. pose proof (holders_insert SlotNS i _ (t, SlotSub) _ Ei) as D2.
    simpl in D1, D2. destruct ok; (split; simpl; [done|..]); rewrite ?Z.add_0_r in *; rewrite ?D1, ?D2; done.
  - destruct (a_running a !! i) as [[t []]|] eqn:Ei; try done. destruct (t =? TypeTrackStatus); [|done]. intros [= <-].
    destruct Hok as [[M1 M2] H1 H2].
    pose proof (holders_insert SlotSub i _ (t, SlotNone) _ Ei) as D1. pose proof (holders_insert SlotNS i _ (t, SlotNone) _ Ei) as D2.
    simpl in D1, D2. rewrite ?Z.add_0_r in *. split; simpl; [done|..]; rewrite ?D2; [|done]. rewrite M1.
    apply release_count; [|apply holders_nonneg]. by rewrite Z.add_comm, D1.
Qed.

Lemma adm_run_ok maxSubs maxNS ops : forall a a', adm_ok maxSubs maxNS a -> adm_run ops a = Some a' -> adm_ok maxSubs maxNS a'.
Proof.
  induction ops as [|op ops IH]; simpl; intros a a' Hok Hr; [by simplify_eq|].
  destruct (adm_step op a) as [a1|] eqn:E; [|done]. eapply IH; [by eapply adm_step_ok|done].
Qed.

Lemma admission0_ok s maxSubs maxNS : adm_ok maxSubs maxNS (admission0 s maxSubs maxNS).
Proof. split; simpl; [done|..]; intros H; (split; [done|]); unfold holders; simpl; change (len _) with 0; lia. Qed.

(** Every opener [AcceptRequest] lets through has a handler. *)
Lemma opener_handled m : isRequestOpener m = true -> rm_handlers requestMux !! msg_Type m = Some (msg_Type m).
Proof. by destruct m. Qed.

Lemma opener_checked m toks s s' : check_request m s = (Ok toks, s') -> isRequestOpener m = true.
Proof.
  unfold check_request, mbind, sess_bind. destruct (check_opener m s) as [[[]|e] s1] eqn:E; [|done]. intros _.
  destruct m; try done; simpl in E; unfold closeProtocolViolation in E; simpl in E; by simplify_eq.
Qed.

Lemma accepted_opener streams : forall s first toks evs s', AcceptRequest streams s = (Some (AccRequest first toks), evs, s') ->
  isRequestOpener first = true.
Proof.
  induction streams as [|[[[c1 c2] wok] parsed] streams IH]; intros s first toks evs s'; simpl; [done|].
  destruct (accept_stream c1 c2 wok parsed s) as [[o ev] s1] eqn:E. destruct o as [m tk| |e]; [| |by intros [= ]].
  - intros [= <- <- <- <-]. unfold accept_stream in E. destruct (readResponse c1 parsed s) as [[m'|e] s2].
    + destruct (check_request m' s2) as [[tk'|e] s3] eqn:Ec; [|done]. apply opener_checked in Ec.
      destruct (reservedNamespaceRejection m'); by simplify_eq.
    + destruct (c1 || c2); [done|]. destruct (as_unknown_type e); [by destruct (closeProtocolViolation _ _)|].
      by destruct (errors_Is e ErrMalformedMessage).
  - destruct (AcceptRequest streams s1) as [[r evs'] s2] eqn:Er. intros [= -> <- <-]. by eapply IH.
Qed.

(** a session holds what its caps allow.  However requests arrive, handlers
    return and TRACK_STATUSes are forwarded: while a cap is on, its counter is the
    number of handlers that hold a slot, within the cap, so no slot leaks and none is
    given back twice.  A request that [AcceptRequest] returns always has a handler:
    denied tokens are answered with their code and start nothing; otherwise a request
    whose cap is on and reached is answered with EXCESSIVE_LOAD and any other starts
    its handler, with a slot. *)
Theorem caps_exact s maxSubs maxNS ops a wok rnd streams first toks evs s' :
  adm_run ops (admission0 s maxSubs maxNS) = Some a -> AcceptRequest streams (a_sess a) = (Some (AccRequest first toks), evs, s') ->
  let held k := holders k (a_running a) in
  let full k := match k with SlotSub => 0 < maxSubs /\ held SlotSub = maxSubs | SlotNS => 0 < maxNS /\ held SlotNS = maxNS | SlotNone => False end in
  (0 < maxSubs -> l_subs (a_lim a) = held SlotSub /\ held SlotSub <= maxSubs) /\
  (0 < maxNS -> l_ns (a_lim a) = held SlotNS /\ held SlotNS <= maxNS) /\
  exists o a', request_turn wok rnd streams a = (Some o, a') /\
  match o with
  | Denied code ev => (exists e, VerifyTokens verifier toks = Err e /\ code = (tokenDenial text e).1) /\ a_running a' = a_running a
  | Overloaded k ev => VerifyTokens verifier toks = Ok tt /\ k = slot_of (msg_Type first) /\ full k /\ a_running a' = a_running a
  | Spawned t => VerifyTokens verifier toks = Ok tt /\ t = msg_Type first /\ ~ full (slot_of t) /\ a_running a' = a_running a ++ [(t, slot_of t)]
  | _ => False
  end.
Proof.
  intros Hr Ha held full. pose proof (adm_run_ok _ _ _ _ _ (admission0_ok s maxSubs maxNS) Hr) as Hok.
  split; [exact (ao_subs _ _ _ Hok)|]. split; [exact (ao_ns _ _ _ Hok)|].
  unfold request_turn, mux_turn. rewrite Ha. unfold mux_dispatch. rewrite (opener_handled first) by (by eapply accepted_opener).
  set (a1 := MkAdm s' (a_lim a) (a_running a) (a_ended a)). unfold on_request.
  destruct (VerifyTokens verifier toks) as [[]|e] eqn:Ev.
  2: { destruct (tokenDenial text e) as [code reason] eqn:Ed. eexists _, _. split; [done|]. split; [|done]. exists e. by rewrite Ed. }
  assert (Hok1 : adm_ok maxSubs maxNS a1) by (by destruct Hok). set (k := slot_of (msg_Type first)).
  destruct (take_slot k (a_lim a1)) as [ok l] eqn:Et. destruct (take_ok _ _ _ _ _ a1 (msg_Type first) Hok1 Et) as [_ Hfull].
  destruct ok; eexists _, _; (split; [done|]).
  - split_and!; try done. intros Hf. assert (true = false); [|done]. apply Hfull. subst full. simpl in Hf. fold k in Hf. by destruct k.
  - split_and!; try done. assert (H : false = false) by done. apply Hfull in H. subst full. fold k. by destruct k.
Qed.
End Loop.

(** ** Cache lifetime by Track Name *)

Definition CacheTTLInfinite : Z := -1.

(** [TrackNameTTL]; an empty name installs no policy. *)
Definition TrackNameTTL (name : bytes) (ttl : Z) : option (FullTrackName -> Z) :=
  if bool_decide (name = []) then None
  else
    let override := if ttl =? 0 then CacheTTLInfinite else ttl in
    Some (fun n => if bool_decide (fn_Name n = name) then override else 0).

(** Objects of a Track with that Name that carry no lifetime of their own expire after
    [ttl], or never when it is 0; other Tracks keep the registry's lifetime. *)
Theorem name_ttl_retention {D} (r : TrackRegistry D) name ttl fullName now obj :
  r_ttl r = TrackNameTTL name ttl -> name <> [] -> 0 <= ttl -> HasMaxCacheDuration obj = false ->
  let c := te_Cache (new_entry fullName r) in
  (fn_Name fullName = name -> (notExpiredLocked now c obj = true <-> ttl = 0 \/ now - ReceivedAt obj <= ttl)) /\
  (fn_Name fullName <> name -> maxAge c = r_cacheMaxDuration r).
Proof.
  intros Ht Hn Hp Ho c. subst c. unfold new_entry, resolveCacheTTL. rewrite Ht. unfold TrackNameTTL.
  rewrite (bool_decide_eq_false_2 (name = [])) by done. split.
  - intros ->. unfold notExpiredLocked. rewrite Ho. simpl. rewrite bool_decide_eq_true_2 by done.
    destruct (Z.eqb_spec ttl 0) as [->|Hz]; simpl; [split; [by left|done]|].
    rewrite orb_true_iff, !Z.leb_le. repeat case_match; lia.
  - intros Hne. simpl. by rewrite bool_decide_eq_false_2.
Qed.

(** ** A session, run

    One namespace request is allowed, and two come; the first handler then returns. *)
Definition ns_request (rid : Z) (ns : bytes) : list (bool * bool * bool * result Message) :=
  [(false, false, true, Ok (MSubscribeNamespace (MkSubscribeNamespace rid [ns] [])))].
Definition sample_adm : Admission := admission0 (new_session roleServer ∅ 0 0) 0 1.
Definition sample_adm_ops : list adm_op := [AdRequest true 0 (ns_request 0 [Byte.x61])].
Definition no_text (e : error) : bytes := [].

Lemma caps_exact_witness : exists a, adm_run no_text None sample_adm_ops sample_adm = Some a /\ holders SlotNS (a_running a) = 1 /\
  l_ns (a_lim a) = holders SlotNS (a_running a) /\
  (exists ev, (request_turn no_text None true 3 (ns_request 2 [Byte.x62]) a).1 = Some (Overloaded SlotNS ev)) /\
  0 < 1 /\ holders SlotNS (a_running a) <= 1.
Proof.
  assert (Hr : a_running <$> adm_run no_text None sample_adm_ops sample_adm = Some [(TypeSubscribeNamespace, SlotNS)]) by (vm_compute; reflexivity).
  assert (Ha : exists evs s', (fun a => AcceptRequest (ns_request 2 [Byte.x62]) (a_sess a)) <$> adm_run no_text None sample_adm_ops sample_adm =
    Some (Some (AccRequest (MSubscribeNamespace (MkSubscribeNamespace 2 [[Byte.x62]] [])) []), evs, s')).
  { eexists _, _. vm_compute. reflexivity. }
  destruct (adm_run no_text None sample_adm_ops sample_adm) as [a|] eqn:Ea; [|discriminate Hr].
  simpl in Hr. injection Hr as Hr. destruct Ha as (evs & s' & Ha). simpl in Ha. injection Ha as Ha.
  destruct (caps_exact no_text None (new_session roleServer ∅ 0 0) 0 1 sample_adm_ops a true 3
    (ns_request 2 [Byte.x62]) (MSubscribeNamespace (MkSubscribeNamespace 2 [[Byte.x62]] [])) [] evs s' Ea Ha) as (_ & H2 & o & a' & Ho & Hm).
  clear Ea. assert (Hh : holders SlotNS (a_running a) = 1) by (by rewrite Hr). exists a. rewrite Hh in *. destruct (H2 ltac:(lia)) as [H3 H4].
  split_and!; try done. exists (match o with Overloaded _ ev => ev | _ => [] end). rewrite Ho. simpl.
  destruct o as [t|code ev|k ev|ev|e]; try done.
  - destruct Hm as (_ & -> & Hm & _). destruct Hm. done.
  - destruct Hm as [(e & He & _) _]. done.
  - destruct Hm as (_ & -> & _). done.
Defined.
