(* ===== verification/TrackStatus.v ===== *)
(** * TrackStatus: answering TRACK_STATUS

    [pkg/relay/handler_track_status.go]: a TRACK_STATUS answered from the track's entry
    or forwarded to every candidate a SUBSCRIBE would try, the answers merged
    ([mergeTrackStatus]); the rounds that requests for one track share
    ([forwardTrackStatus]); and the answering side of [session/track_status.go].

    What the registry holds when it is read, whether a slot was free, what the
    candidates answer and what discovery resolves are arguments. *)

From stdpp Require Import gmap.
From S2P Require Import Prelude Codes Varint Wire KV Filter Params Properties RangeFilter Messages Objects Streams Cache.
From S2P Require Import FetchRanges Ledger Stitch Tokens Session Subs Track Discovery TrackTable Candidates Broker Subscribing.
From S2P Require Import SubscribeHandler Demux Admission.

(** ** Merging *)

Definition largest_of (ok : RequestOK) : option Location :=
  (fun p => MkLoc (p_Group p) (p_Object p)) <$> p_Find (rok_Parameters ok) ParamLargestObject.

Definition merge_one (acc : bytes * option Location) (ok : RequestOK) : bytes * option Location :=
  let '(properties, largest) := acc in
  (if len properties =? 0 then rok_TrackProperties ok else properties,
   match largest_of ok with
   | Some l => match largest with
               | Some l' => if Less l' l then Some l else largest
               | None => Some l
               end
   | None => largest
   end).
Definition mergeTrackStatus (oks : list RequestOK) (properties : bytes) (largest : option Location) : bytes * option Location :=
  fold_left merge_one oks (properties, largest).

(** ** Asking the candidates *)

Section Upstream.
Context (self : Z) (going pending : Z -> bool).

Record collected : Type := MkColl { c_candidates : list Z; c_seen : gset Z; c_err : option error }.

Definition fail (err : error) (c : collected) : collected :=
  MkColl (c_candidates c) (c_seen c) (preferCandidateErr (c_err c) (Some err)).
(** [add]. *)
Definition add_candidate (c : collected) (s : Z) : collected :=
  if bool_decide (s ∈ c_seen c) then c
  else
    let c := MkColl (c_candidates c) ({[s]} ∪ c_seen c) (c_err c) in
    if going s then fail ErrGoingAway c
    else if (s =? self) && pending s then c
    else MkColl (c_candidates c ++ [s]) (c_seen c) (c_err c).

Definition collect (pubs remotes : list Z) (draining : bool) : collected :=
  let c := fold_left add_candidate pubs (MkColl [] ∅ None) in
  let c := if draining then fail ErrGoingAway c else c in
  fold_left add_candidate remotes c.

(** A candidate's failure; [deadline e] says that [e] is the round's deadline, which
    counts as TIMEOUT. *)
Definition status_err (deadline : error -> bool) (e : error) : error :=
  if deadline e then ErrRequestRejected RequestTimeout 0 else e.

Definition trackStatusUpstream (deadline : error -> bool) (ask : Z -> result RequestOK) (pubs remotes : list Z) (draining : bool)
    : list RequestOK * option error * list Z :=
  let c := collect pubs remotes draining in
  let answers := ask <$> c_candidates c in
  (omap (fun r => match r with Ok ok => Some ok | Err _ => None end) answers,
   fold_left (fun last r => match r with Ok _ => last | Err e => preferCandidateErr last (Some (status_err deadline e)) end) answers (c_err c),
   c_candidates c).
End Upstream.

(** ** The handler *)

(** What the entry said when it was read: its properties, its watermark, and whether
    an upstream subscription was Established. *)
Record StatusReads : Type := MkReads { sr_properties : bytes; sr_largest : option Location; sr_established : bool }.

Inductive status_outcome : Type := StatusOK (ok : RequestOK) | StatusRefused (rej : RequestRejectedError).

Definition status_reply (ps : Params) (properties : bytes) (largest : option Location) : RequestOK :=
  MkRequestOK (match largest with Some l => [LargestObjectParam (Group l) (Object l)] | None => [] end)
    (if includeProperties ps then properties else []).

Section Handle.
Context (text : error -> bytes) (rnd : Z).

Definition rejectTrackStatus (err : option error) : RequestRejectedError :=
  match err with
  | None => MkRejected RequestDoesNotExist (String.list_byte_of_string "relay: track not known") 0 None
  | Some e =>
      let rej := upstreamRejection rnd err in
      MkRejected (rej_Code rej) (String.list_byte_of_string "relay: no upstream for track: " ++ text e) (rej_RetryInterval rej) (rej_Redirect rej)
  end.

(** [slot] is whether the limiter had a subscription slot; [forwarded] what
    [forwardTrackStatus] returns. *)
Definition handleTrackStatus (denied : option (Z * bytes)) (ps : Params) (reads : option StatusReads) (slot : bool)
    (forwarded : list RequestOK * option error) : status_outcome :=
  match denied with
  | Some (code, reason) => StatusRefused (MkRejected code reason 0 None)
  | None =>
      let properties := match reads with Some r => sr_properties r | None => [] end in
      let largest := match reads with Some r => sr_largest r | None => None end in
      if match reads with Some r => sr_established r | None => false end
      then StatusOK (status_reply ps properties largest)
      else if negb slot
      then StatusRefused (MkRejected RequestExcessiveLoad (limit_reason SlotSub) (retryIntervalAfter excessiveLoadRetry rnd) None)
      else
        let '(oks, err) := forwarded in
        if len oks =? 0 then StatusRefused (rejectTrackStatus err)
        else let '(properties, largest) := mergeTrackStatus oks properties largest in StatusOK (status_reply ps properties largest)
  end.
End Handle.

(** [AcceptTrackStatus], and what follows on the stream. *)
Definition AcceptTrackStatus (wok : bool) (ok : RequestOK) : list req_event :=
  match marshal_events wok (MRequestOK ok) with None => resetStream | Some ev => ev ++ [RqClose] end.

Definition answer_status (wok : bool) (first : Message) (ro : role) (o : status_outcome) : list req_event :=
  match o with StatusOK ok => AcceptTrackStatus wok ok | StatusRefused rej => (Reject wok first ro rej).2 end.

(** ** What is merged *)

Definition first_nonempty (l : list bytes) : bytes := default [] (List.find (fun p => negb (len p =? 0)) l).

Definition best (l : option Location) (ls : list Location) : Prop :=
  match l with
  | None => ls = []
  | Some m => m ∈ ls /\ forall x, x ∈ ls -> loc_le x m
  end.

Lemma merge_spec oks : forall properties largest known,
  best largest known ->
  let '(p, l) := mergeTrackStatus oks properties largest in
  p = first_nonempty (properties :: (rok_TrackProperties <$> oks)) /\ best l (known ++ omap largest_of oks).
Proof.
  induction oks as [|ok oks IH]; intros properties largest known Hb; simpl.
  - split; [|by rewrite app_nil_r]. unfold first_nonempty. simpl. destruct (len properties =? 0) eqn:E; [|done].
    destruct properties; [done|]. rewrite len_cons in E. pose proof (len_nonneg properties). lia.
  - unfold mergeTrackStatus in *. simpl fold_left. set (l1 := match largest_of ok with Some _ => _ | None => _ end).
    assert (Hb1 : best l1 (known ++ option_list (largest_of ok))).
    { subst l1. destruct (largest_of ok) as [l|]; simpl; [|by rewrite app_nil_r]. destruct largest as [m|]; simpl in *.
      - destruct Hb as [Hm Hle]. destruct (Less m l) eqn:El; simpl.
        + apply Less_spec in El. split; [apply elem_of_app; right; by left|]. intros x Hx. apply elem_of_app in Hx as [Hx|Hx].
          * specialize (Hle x Hx). unfold loc_le, loc_lt in *. lia.
          * apply list_elem_of_singleton in Hx as ->. unfold loc_le. lia.
        + apply Less_false in El. split; [apply elem_of_app; by left|]. intros x Hx. apply elem_of_app in Hx as [Hx|Hx]; [by apply Hle|].
          by apply list_elem_of_singleton in Hx as ->.
      - subst known. simpl. split; [by left|]. intros x ->%list_elem_of_singleton. unfold loc_le. lia. }
    specialize (IH (if len properties =? 0 then rok_TrackProperties ok else properties) l1 _ Hb1).
    destruct (fold_left merge_one oks _) as [p l]. destruct IH as [-> Hl]. split.
    + unfold first_nonempty. simpl. by destruct (len properties =? 0) eqn:E; simpl; rewrite ?E.
    + destruct (largest_of ok); simpl in *; rewrite <- app_assoc in Hl; done.
Qed.

(** ** Who is asked *)

Section Asked.
Context (self : Z) (going pending : Z -> bool).

(** A session that can be asked. *)
Definition askable (s : Z) : Prop := going s = false /\ (s =? self) && pending s = false.
Definition any_going (l : list Z) : bool := existsb going l.
Definition draining_err (b : bool) : list error := if b then [ErrGoingAway] else [].

Lemma prefer_going : forall b, preferCandidateErr (candidates_err (draining_err b)) (Some ErrGoingAway) = Some ErrGoingAway.
Proof. by intros []. Qed.

Record collect_ok (l : list Z) (drained : bool) (c : collected) : Prop := {
  co_nodup : NoDup (c_candidates c);
  co_asked : forall s, s ∈ c_candidates c <-> s ∈ l /\ askable s;
  co_seen : forall s, s ∈ c_seen c <-> s ∈ l;
  co_err : c_err c = candidates_err (draining_err (drained || any_going l)) }.

Lemma fail_ok l drained c : collect_ok l drained c -> collect_ok l true (fail ErrGoingAway c).
Proof. intros [H1 H2 H3 H4]. split; simpl; try done. by rewrite H4, prefer_going. Qed.

Lemma add_ok l drained c s : collect_ok l drained c -> collect_ok (l ++ [s]) drained (add_candidate self going pending c s).
Proof.
  intros [H1 H2 H3 H4]. unfold add_candidate. assert (Hg : any_going (l ++ [s]) = any_going l || going s).
  { unfold any_going. rewrite existsb_app. simpl. by rewrite orb_false_r. }
  case_bool_decide as Hs.
  - apply H3 in Hs. split; try done.
    + intros x. rewrite H2, elem_of_app, list_elem_of_singleton. split; [intros [? ?]; auto|intros [[?| ->] ?]; auto].
    + intros x. rewrite H3, elem_of_app, list_elem_of_singleton. split; [auto|intros [?| ->]; auto].
    + rewrite H4, Hg. assert (going s = true -> any_going l = true) as Hx.
      { intros Hx. unfold any_going. apply existsb_exists. exists s. split; [by apply list_elem_of_In|done]. }
      destruct (going s); [|by rewrite orb_false_r]. by rewrite Hx.
  - assert (Hseen : forall x, x ∈ {[s]} ∪ c_seen c <-> x ∈ l ++ [s]) by (intros x; rewrite elem_of_app, list_elem_of_singleton, <- H3; set_solver).
    assert (Hnc : s ∉ l) by (by rewrite <- H3).
    destruct (going s) eqn:Eg; [|destruct ((s =? self) && pending s) eqn:Ep].
    + split; simpl; try done.
      * intros x. rewrite H2, elem_of_app, list_elem_of_singleton. split; [intros [? ?]; auto|intros [[?| ->] [? ?]]; [done|congruence]].
      * by rewrite H4, prefer_going, Hg, !orb_true_r.
    + split; simpl; try done.
      * intros x. rewrite H2, elem_of_app, list_elem_of_singleton. split; [intros [? ?]; auto|intros [[?| ->] [? ?]]; [done|congruence]].
      * by rewrite H4, Hg, orb_false_r.
    + split; simpl; try done.
      * apply NoDup_app. split_and!; [done| |apply NoDup_singleton]. intros x Hx ->%list_elem_of_singleton. by apply H2 in Hx as [? _].
      * intros x. rewrite elem_of_app, H2, elem_of_app, !list_elem_of_singleton.
        split; [intros [[? ?]| ->]; [auto|split; [auto|done]]|intros [[?| ->] ?]; auto].
      * by rewrite H4, Hg, orb_false_r.
Qed.

Lemma add_all_ok k : forall l drained c, collect_ok l drained c ->
  collect_ok (l ++ k) drained (fold_left (add_candidate self going pending) k c).
Proof.
  induction k as [|s k IH]; intros l drained c Hc; simpl; [by rewrite app_nil_r|].
  rewrite (cons_middle s l k), app_assoc. by apply IH, add_ok.
Qed.

Lemma collect_spec pubs remotes draining :
  let c := collect self going pending pubs remotes draining in
  NoDup (c_candidates c) /\ (forall s, s ∈ c_candidates c <-> s ∈ pubs ++ remotes /\ askable s) /\
  c_err c = candidates_err (draining_err (draining || any_going (pubs ++ remotes))).
Proof.
  unfold collect. assert (H0 : collect_ok [] false (MkColl [] ∅ None)).
  { split; simpl; [constructor|..|done]; intros s.
    - split; [by intros ?%elem_of_nil|by intros [?%elem_of_nil _]].
    - split; [by intros ?%elem_of_empty|by intros ?%elem_of_nil]. }
  apply (add_all_ok pubs) in H0. simpl in H0. destruct draining.
  - apply fail_ok in H0. apply (add_all_ok remotes) in H0. destruct H0 as [H1 H2 _ H4]. by split_and!.
  - apply (add_all_ok remotes) in H0. destruct H0 as [H1 H2 _ H4]. by split_and!.
Qed.
End Asked.

Definition failures (deadline : error -> bool) (answers : list (result RequestOK)) : list error :=
  omap (fun r => match r with Ok _ => None | Err e => Some (status_err deadline e) end) answers.

Lemma failures_fold deadline answers : forall last,
  fold_left (fun last r => match r with Ok _ => last | Err e => preferCandidateErr last (Some (status_err deadline e)) end) answers last =
  fold_left (fun last e => preferCandidateErr last (Some e)) (failures deadline answers) last.
Proof. induction answers as [|[ok|e] answers IH]; intros last; simpl; [done|apply IH|apply IH]. Qed.

(** C19: a TRACK_STATUS is answered as a SUBSCRIBE would be.  A denied one is refused
    as denied.  A track with an Established upstream is answered from its entry.
    Otherwise, with a slot, the sessions asked are exactly the publishers and relays
    that are not draining and not the requester's own while it is being asked, each
    once; if any answers OK, the reply carries the entry's Track Properties, or else the
    first non-empty ones answered, where they are wanted, and the largest Location of
    all; if none does, the refusal is the one [preferCandidateErr] chooses among the
    draining mark and the failures, or DOES_NOT_EXIST without any. *)
Theorem track_status_answered text rnd self going pending deadline ask pubs remotes draining denied ps reads slot :
  let '(oks, err, asked) := trackStatusUpstream self going pending deadline ask pubs remotes draining in
  let entry_properties := match reads with Some r => sr_properties r | None => [] end in
  let entry_largest := match reads with Some r => option_list (sr_largest r) | None => [] end in
  let established := match reads with Some r => sr_established r | None => false end in
  NoDup asked /\
  (forall s, s ∈ asked <-> s ∈ pubs ++ remotes /\ going s = false /\ (s =? self) && pending s = false) /\
  err = candidates_err (draining_err (draining || existsb going (pubs ++ remotes)) ++ failures deadline (ask <$> asked)) /\
  match handleTrackStatus text rnd denied ps reads slot (oks, err) with
  | StatusRefused rej =>
      (exists code reason, denied = Some (code, reason) /\ rej_Code rej = code) \/
      (denied = None /\ established = false /\ slot = false /\ rej_Code rej = RequestExcessiveLoad) \/
      (denied = None /\ established = false /\ slot = true /\ oks = [] /\ rej_Code rej = rej_Code (upstreamRejection rnd err) /\
       rej_RetryInterval rej = rej_RetryInterval (upstreamRejection rnd err))
  | StatusOK ok =>
      denied = None /\
      exists properties largest, ok = status_reply ps properties largest /\
      if established then properties = entry_properties /\ best largest entry_largest
      else slot = true /\ oks <> [] /\ properties = first_nonempty (entry_properties :: (rok_TrackProperties <$> oks)) /\
           best largest (entry_largest ++ omap largest_of oks)
  end.
Proof.
  unfold trackStatusUpstream. destruct (collect_spec self going pending pubs remotes draining) as (C1 & C2 & C3).
  set (c := collect _ _ _ _ _ _) in *. set (oks := omap _ _). cbv zeta beta iota.
  set (err := fold_left _ _ (c_err c)).
  assert (He : err = candidates_err (draining_err (draining || existsb going (pubs ++ remotes)) ++ failures deadline (ask <$> c_candidates c))).
  { subst err. rewrite failures_fold, C3. unfold candidates_err. by rewrite fold_left_app. }
  clearbody err. split; [done|]. split; [exact C2|]. split; [done|]. clear C1 C2 C3 He. unfold handleTrackStatus.
  destruct denied as [[code reason]|]; [left; eauto|].
  assert (Hb : best (match reads with Some r => sr_largest r | None => None end) (match reads with Some r => option_list (sr_largest r) | None => [] end)).
  { destruct reads as [[p [l|] b]|]; simpl; try done. split; [by left|]. intros x ->%list_elem_of_singleton. unfold loc_le. lia. }
  destruct (match reads with Some r => sr_established r | None => false end) eqn:Ee.
  { split; [done|]. eexists _, _. split; [done|]. done. }
  destruct slot; simpl negb; cbv iota; [|right; left; done].
  destruct (len oks =? 0) eqn:El.
  - right; right. assert (oks = []) by (destruct oks; [done|]; rewrite len_cons in El; pose proof (len_nonneg oks); lia).
    split_and!; try done; by destruct err.
  - pose proof (merge_spec oks (match reads with Some r => sr_properties r | None => [] end) _ _ Hb) as Hm.
    destruct (mergeTrackStatus _ _ _) as [p l]. destruct Hm as [Hp Hl]. split; [done|]. exists p, l. split; [done|].
    split; [done|]. split; [by intros ->|done].
Qed.

(** ** Sharing a round

    A round's goroutine: asking, with a result, removed from the table, [done] closed. *)
Abbreviation round_result := (list RequestOK * option error)%type.
Inductive round_phase : Type :=
| RAsking | RHas (res : round_result) | RRemoved (res : round_result) | RDone (res : round_result).
Inductive requester : Type :=
| QOwn (k : Key) | QWaiting (k : Key) (round : Z) | QReturned (k : Key) (round : option Z) (res : round_result).

Record trackStatusRounds : Type := MkRounds {
  tr_rounds : gmap Key Z; tr_all : gmap Z (Key * round_phase); tr_next : Z; tr_req : gmap Z requester }.
Definition newTrackStatusRounds : trackStatusRounds := MkRounds ∅ ∅ 0 ∅.

Definition set_req (c : Z) (q : requester) (t : trackStatusRounds) : trackStatusRounds :=
  MkRounds (tr_rounds t) (tr_all t) (tr_next t) (<[c := q]> (tr_req t)).
Definition set_round (id : Z) (k : Key) (p : round_phase) (rounds : gmap Key Z) (t : trackStatusRounds) : trackStatusRounds :=
  MkRounds rounds (<[id := (k, p)]> (tr_all t)) (tr_next t) (tr_req t).

(** The section of [forwardTrackStatus]: a round in flight is joined, else started. *)
Definition join_round (c : Z) (k : Key) (t : trackStatusRounds) : trackStatusRounds :=
  match tr_rounds t !! k with
  | Some id => set_req c (QWaiting k id) t
  | None =>
      let id := tr_next t in
      MkRounds (<[k := id]> (tr_rounds t)) (<[id := (k, RAsking)]> (tr_all t)) (id + 1) (<[c := QWaiting k id]> (tr_req t))
  end.

Inductive round_step (t : trackStatusRounds) : trackStatusRounds -> Prop :=
| ro_call c k (looped : bool) : tr_req t !! c = None -> round_step t (if looped then set_req c (QOwn k) t else join_round c k t)
| ro_own c k res : tr_req t !! c = Some (QOwn k) -> round_step t (set_req c (QReturned k None res) t)
| ro_done c k id res : tr_req t !! c = Some (QWaiting k id) -> tr_all t !! id = Some (k, RDone res) ->
    round_step t (set_req c (QReturned k (Some id) res) t)
| ro_leave c k id : tr_req t !! c = Some (QWaiting k id) -> round_step t (set_req c (QReturned k None ([], Some ErrContextDone)) t)
| ro_result id k res : tr_all t !! id = Some (k, RAsking) -> round_step t (set_round id k (RHas res) (tr_rounds t) t)
| ro_remove id k res : tr_all t !! id = Some (k, RHas res) -> round_step t (set_round id k (RRemoved res) (delete k (tr_rounds t)) t)
| ro_close id k res : tr_all t !! id = Some (k, RRemoved res) -> round_step t (set_round id k (RDone res) (tr_rounds t) t).

Definition in_flight_round (p : round_phase) : bool := match p with RAsking | RHas _ => true | _ => false end.

Definition req_ok (t : trackStatusRounds) (q : requester) : Prop :=
  match q with
  | QOwn _ | QReturned _ None _ => True
  | QWaiting k id => exists p, tr_all t !! id = Some (k, p)
  | QReturned k (Some id) res => tr_all t !! id = Some (k, RDone res)
  end.

Record rounds_ok (t : trackStatusRounds) : Prop := {
  ro_table : forall k id, tr_rounds t !! k = Some id <-> exists p, tr_all t !! id = Some (k, p) /\ in_flight_round p = true;
  ro_bound : forall id kp, tr_all t !! id = Some kp -> id < tr_next t;
  ro_reqs : forall c q, tr_req t !! c = Some q -> req_ok t q }.

Lemma set_req_ok c q t : rounds_ok t -> req_ok t q -> rounds_ok (set_req c q t).
Proof.
  intros [H1 H2 H3] Hq. split; simpl; try done. intros c' q' Hc. destruct (decide (c' = c)) as [->|Hn].
  - rewrite lookup_insert_eq in Hc. by injection Hc as <-.
  - rewrite lookup_insert_ne in Hc by done. exact (H3 _ _ Hc).
Qed.

Lemma set_round_ok id k p p' rounds t : rounds_ok t -> tr_all t !! id = Some (k, p) ->
  (forall res, p <> RDone res) ->
  (forall k' id', rounds !! k' = Some id' <-> exists q, <[id := (k, p')]> (tr_all t) !! id' = Some (k', q) /\ in_flight_round q = true) ->
  rounds_ok (set_round id k p' rounds t).
Proof.
  intros [H1 H2 H3] Hid Hp Ht. split; simpl; [done|..].
  - intros i kp Hi. destruct (decide (i = id)) as [->|Hn]; [by eapply H2|]. rewrite lookup_insert_ne in Hi by done. by eapply H2.
  - intros c q Hc. specialize (H3 c q Hc). destruct q as [k'|k' i|k' [i|] res]; simpl in *; try done.
    + destruct H3 as [q Hq]. destruct (decide (i = id)) as [->|Hn]; [rewrite lookup_insert_eq; rewrite Hid in Hq; simplify_eq; eauto|].
      rewrite lookup_insert_ne by done. eauto.
    + destruct (decide (i = id)) as [->|Hn]; [rewrite Hid in H3; simplify_eq; by destruct (Hp res)|]. by rewrite lookup_insert_ne.
Qed.

Lemma table_same id k p p' t : rounds_ok t -> tr_all t !! id = Some (k, p) -> in_flight_round p = in_flight_round p' ->
  forall k' id', tr_rounds t !! k' = Some id' <-> exists q, <[id := (k, p')]> (tr_all t) !! id' = Some (k', q) /\ in_flight_round q = true.
Proof.
  intros [H1 _ _] Hid Hp k' id'. rewrite H1. destruct (decide (id' = id)) as [->|Hn].
  - rewrite lookup_insert_eq, Hid. split; intros (q & E & Hq); simplify_eq; eexists; split; done || congruence.
  - by rewrite lookup_insert_ne.
Qed.

Lemma round_step_ok t t' : round_step t t' -> rounds_ok t -> rounds_ok t'.
Proof.
  intros Hs Hok. destruct Hs as [c k looped Hc|c k res Hc|c k id res Hc Hd|c k id Hc|id k res Hi|id k res Hi|id k res Hi].
  - destruct looped; [by apply set_req_ok|]. unfold join_round. destruct (tr_rounds t !! k) as [id|] eqn:Ek.
    + apply set_req_ok; [done|]. apply (ro_table _ Hok) in Ek as (p & E & _). simpl. eauto.
    + destruct Hok as [H1 H2 H3]. assert (Hfresh : tr_all t !! tr_next t = None).
      { destruct (tr_all t !! tr_next t) eqn:E; [|done]. apply H2 in E. lia. }
      split; simpl.
      * intros k' id'. destruct (decide (id' = tr_next t)) as [->|Hn].
        -- rewrite lookup_insert_eq. split.
           ++ destruct (decide (k' = k)) as [->|Hk]; [rewrite lookup_insert_eq; eauto|]. rewrite lookup_insert_ne by done.
              intros E. apply H1 in E as (p & E & _). congruence.
           ++ intros (p & [= <- <-] & _). by rewrite lookup_insert_eq.
        -- rewrite (lookup_insert_ne (tr_all t)) by done. rewrite <- H1. destruct (decide (k' = k)) as [->|Hk].
           ++ rewrite lookup_insert_eq, Ek. split; [congruence|done].
           ++ by rewrite lookup_insert_ne.
      * intros i kp Hi. destruct (decide (i = tr_next t)) as [->|Hn]; [lia|]. rewrite lookup_insert_ne in Hi by done. apply H2 in Hi. lia.
      * intros c' q Hc'. destruct (decide (c' = c)) as [->|Hn].
        -- rewrite lookup_insert_eq in Hc'. injection Hc' as <-. simpl. rewrite lookup_insert_eq. eauto.
        -- rewrite lookup_insert_ne in Hc' by done. specialize (H3 _ _ Hc'). destruct q as [k'|k' i|k' [i|] res]; simpl in *; try done.
           ++ destruct H3 as [p Hp]. exists p. rewrite lookup_insert_ne; [done|congruence].
           ++ rewrite lookup_insert_ne; [done|congruence].
  - by apply set_req_ok.
  - by apply set_req_ok.
  - by apply set_req_ok.
  - eapply set_round_ok; [done|done|done|]. by eapply table_same.
  - eapply set_round_ok; [done|done|done|]. destruct Hok as [H1 _ _]. intros k' id'. rewrite lookup_delete_Some, H1.
    assert (Hk : tr_rounds t !! k = Some id) by (apply H1; eauto).
    destruct (decide (id' = id)) as [->|Hn].
    + rewrite lookup_insert_eq, Hi. split; [intros (Hne & p & [= -> _] & _); by destruct Hne|by intros (p & [= <- <-] & ?)].
    + rewrite lookup_insert_ne by done. split; [by intros [_ ?]|]. intros (p & E & Hp). split; [|eauto]. intros <-.
      assert (tr_rounds t !! k = Some id') by (apply H1; eauto). congruence.
  - eapply set_round_ok; [done|done|done|]. by eapply table_same.
Qed.

(** Requests for one track share a round.  In every interleaving: at most one round
    of a track is in flight, and it is the one a request joins; a request waits for a
    round of its own track, each round can take its next step until it is done, and
    what a request takes from a round is that round's result. *)
Theorem status_rounds_shared t : rtc round_step newTrackStatusRounds t ->
  (forall id id' k p p', tr_all t !! id = Some (k, p) -> tr_all t !! id' = Some (k, p') -> in_flight_round p = true -> in_flight_round p' = true -> id = id') /\
  (forall id k p, tr_all t !! id = Some (k, p) -> in_flight_round p = true -> forall c, join_round c k t = set_req c (QWaiting k id) t) /\
  (forall c k id, tr_req t !! c = Some (QWaiting k id) -> exists p, tr_all t !! id = Some (k, p) /\
     ((exists res, p = RDone res) \/ exists t' p', round_step t t' /\ tr_all t' !! id = Some (k, p') /\ p' <> p)) /\
  (forall c k id res, tr_req t !! c = Some (QReturned k (Some id) res) -> tr_all t !! id = Some (k, RDone res)).
Proof.
  intros Hr. assert (Hok : rounds_ok t).
  { assert (H0 : rounds_ok newTrackStatusRounds).
    { split; simpl; [|done|done]. intros k id. rewrite !lookup_empty. split; [done|by intros (p & ? & _)]. }
    induction Hr as [|x y z Hs _ IH]; [done|]. apply IH. by eapply round_step_ok. }
  destruct Hok as [H1 H2 H3]. split_and!.
  - intros id id' k p p' E E' Hp Hp'. assert (tr_rounds t !! k = Some id) by (apply H1; eauto).
    assert (tr_rounds t !! k = Some id') by (apply H1; eauto). congruence.
  - intros id k p E Hp c. unfold join_round. assert (tr_rounds t !! k = Some id) as ->; [apply H1; eauto|done].
  - intros c k id Hc. destruct (H3 _ _ Hc) as [p Hp]. exists p. split; [done|].
    destruct p as [|res|res|res]; [right|right|right|by left; eauto].
    + eexists _, (RHas ([], None)). split; [by eapply (ro_result _ id k)|]. simpl. by rewrite lookup_insert_eq.
    + eexists _, (RRemoved res). split; [by eapply (ro_remove _ id k)|]. simpl. by rewrite lookup_insert_eq.
    + eexists _, (RDone res). split; [by eapply (ro_close _ id k)|]. simpl. by rewrite lookup_insert_eq.
  - intros c k id res Hc. exact (H3 _ _ Hc).
Qed.
