(* ===== verification/Publication.v ===== *)
(** * Publication: the publishing side of a subscription

    [pkg/moqt/session/publish.go]: a track this side publishes, the subgroups and
    datagrams it opens and sends, REQUEST_UPDATEs ([ApplyUpdate]) and [Done], which ends
    it with one PUBLISH_DONE after every stream.  The sections under [subMu], the calls
    on the transport and the waits between them are the steps; a run interleaves any
    number of callers of each method.  A subgroup is named by a number. *)

From stdpp Require Import gmap.
From S2P Require Import Prelude Codes Varint Wire KV Filter Params Properties RangeFilter Messages Objects Streams.
From S2P Require Import Tokens Session Broker.

(** ** The publication *)

(** [p_open] is nil once [Done] has taken it; [p_endCtx] is whether [endCtx] has been
    cancelled; [p_opening] the count of the WaitGroup. *)
Record Publication : Type := MkPub {
  p_alias : Z; p_count : Z; p_open : option (gset Z); p_opening : Z; p_endCtx : bool; p_paused : bool;
  p_largest : option Location; p_ended : bool }.

Definition newPublication (alias : Z) (establishing announced : Params) : Publication :=
  MkPub alias 0 (Some ∅) 0 false
    (match p_Find establishing ParamForward with Some f => p_Byte f =? 0 | None => false end)
    ((fun lo => MkLoc (p_Group lo) (p_Object lo)) <$> p_Find announced ParamLargestObject) false.

Definition set_streams (n : Z) (o : option (gset Z)) (p : Publication) : Publication :=
  MkPub (p_alias p) n o (p_opening p) (p_endCtx p) (p_paused p) (p_largest p) (p_ended p).
Definition set_opening (n : Z) (p : Publication) : Publication :=
  MkPub (p_alias p) (p_count p) (p_open p) n (p_endCtx p) (p_paused p) (p_largest p) (p_ended p).
Definition set_ends (c e : bool) (p : Publication) : Publication :=
  MkPub (p_alias p) (p_count p) (p_open p) (p_opening p) c (p_paused p) (p_largest p) e.
Definition set_paused (b : bool) (p : Publication) : Publication :=
  MkPub (p_alias p) (p_count p) (p_open p) (p_opening p) (p_endCtx p) b (p_largest p) (p_ended p).

Definition noteObject (loc : Location) (p : Publication) : Publication :=
  MkPub (p_alias p) (p_count p) (p_open p) (p_opening p) (p_endCtx p) (p_paused p)
    (match p_largest p with Some l => if Less l loc then Some loc else Some l | None => Some loc end) (p_ended p).

(** ** REQUEST_UPDATE *)

Definition acceptedUpdateParams : list Z := [ParamSubscriberPriority; ParamNewGroupRequest; ParamAuthorizationToken].

Inductive update_verdict : Type := UVNext (forward : option bool) | UVViolation | UVDeclined.
Fixpoint update_params (ps : Params) (forward : option bool) : update_verdict :=
  match ps with
  | [] => UVNext forward
  | prm :: ps =>
      if p_Type prm =? ParamForward then
        if p_Byte prm >? 1 then UVViolation else update_params ps (Some (p_Byte prm =? 1))
      else if bool_decide (p_Type prm ∈ acceptedUpdateParams) then update_params ps forward
      else UVDeclined
  end.

Definition applied (ps : Params) (p : Publication) : Publication :=
  match update_params ps None with UVNext (Some f) => set_paused (negb f) p | _ => p end.

Definition ApplyUpdate (ps : Params) (p : Publication) : sess (RequestOK * Publication) :=
  match update_params ps None with
  | UVViolation => closeProtocolViolation (Errorf "moqt/session: FORWARD value in REQUEST_UPDATE")
  | UVDeclined => sfail (ErrRequestRejected RequestNotSupported 0)
  | UVNext _ =>
      let p := applied ps p in
      mret (MkRequestOK (match p_largest p with Some l => [LargestObjectParam (Group l) (Object l)] | None => [] end) [], p)
  end.

(** ** Opening, sending, ending *)

(** A call of [OpenSubgroup] past its check, with its header written, registered; of
    [SendDatagram] past its check, with its Object noted; either about to return, with
    its [opening.Done]. *)
Inductive opener : Type :=
| OpEntered | OpWrote (sg : Z) | OpSending (d : ObjectDatagram) | OpNoted (d : ObjectDatagram)
| OpLeaving (err : option error) | OpReturned (err : option error).

Inductive sg_state : Type := SgOpen | SgFinished | SgReset (code : Z).

(** A call of [Done]: having latched [ended]; waiting for [opening]; resetting the
    subgroups left; returned. *)
Inductive done_call : Type :=
| DnEntered (code : Z) (reason : bytes) | DnWaiting (code : Z) (reason : bytes)
| DnResetting (code : Z) (reason : bytes) (count : Z) (rest : list Z) | DnReturned.

(** [w_sgs]: every subgroup whose header was written; [w_forgets]: ended ones whose
    [onEnd] is still to run; [w_sent]: the datagrams handed to the session; [w_log]: what
    went on the request stream. *)
Record PubWorld : Type := MkPubWorld {
  w_p : Publication; w_openers : gmap Z opener; w_sgs : gmap Z sg_state; w_forgets : list Z; w_dones : gmap Z done_call;
  w_sent : list bytes; w_log : list req_event }.
Definition pub_world0 (p : Publication) : PubWorld := MkPubWorld p ∅ ∅ [] ∅ [] [].

Definition set_opener (c : Z) (o : opener) (p : Publication) (w : PubWorld) : PubWorld :=
  MkPubWorld p (<[c := o]> (w_openers w)) (w_sgs w) (w_forgets w) (w_dones w) (w_sent w) (w_log w).
Definition set_done (c : Z) (d : done_call) (p : Publication) (w : PubWorld) : PubWorld :=
  MkPubWorld p (w_openers w) (w_sgs w) (w_forgets w) (<[c := d]> (w_dones w)) (w_sent w) (w_log w).

(** The section [OpenSubgroup] and [SendDatagram] start with. *)
Definition enter (next : opener) (c : Z) (w : PubWorld) : PubWorld :=
  let p := w_p w in
  if p_ended p then set_opener c (OpReturned (Some ErrPublicationEnded)) p w
  else if p_paused p then set_opener c (OpReturned (Some ErrForwardPaused)) p w
  else set_opener c next (set_opening (p_opening p + 1) p) w.

(** [openSubgroup] returned: a new stream, or an error. *)
Definition header_written (c : Z) (res : Z + error) (w : PubWorld) : PubWorld :=
  match res with
  | inl sg => MkPubWorld (w_p w) (<[c := OpWrote sg]> (w_openers w)) (<[sg := SgOpen]> (w_sgs w)) (w_forgets w) (w_dones w) (w_sent w) (w_log w)
  | inr e => set_opener c (OpLeaving (Some (if p_endCtx (w_p w) then ErrPublicationEnded else e))) (w_p w) w
  end.

(** The last section of [OpenSubgroup]; a write to a nil map panics. *)
Definition register_subgroup (c sg : Z) (w : PubWorld) : option PubWorld :=
  match p_open (w_p w) with
  | None => None
  | Some o => Some (set_opener c (OpLeaving None) (set_streams (u64 (p_count (w_p w) + 1)) (Some ({[sg]} ∪ o)) (w_p w)) w)
  end.

Definition forget (sg : Z) (p : Publication) : Publication :=
  set_streams (p_count p) ((fun o => o ∖ {[sg]}) <$> p_open p) p.

(** [CancelWrite]: nothing to a stream that has ended. *)
Definition cancel_write (sg : Z) (m : gmap Z sg_state) : gmap Z sg_state :=
  match m !! sg with Some SgOpen => <[sg := SgReset StreamResetCancelled]> m | _ => m end.

(** [writeThenClose] with the PUBLISH_DONE. *)
Definition write_done (wok : bool) (code : Z) (reason : bytes) (count : Z) : list req_event :=
  match marshal_events wok (MPublishDone (MkPublishDone code count reason)) with Some ev => ev ++ [RqClose] | None => [] end.

Inductive pub_op : Type :=
| PuOpen (c : Z) | PuHeader (c : Z) (res : Z + error) | PuRegister (c : Z) | PuLeave (c : Z)
| PuDatagram (c : Z) (d : ObjectDatagram) | PuNoted (c : Z) | PuSend (c : Z)
| PuEnd (sg : Z) (how : sg_state) | PuForget (i : nat) | PuNote (loc : Location) | PuUpdate (ps : Params)
| PuDone (c : Z) (code : Z) (reason : bytes) | PuCancel (c : Z) | PuWaited (c : Z) | PuReset (c : Z) | PuWrite (c : Z) (wok : bool).

Definition sent_loc (d : ObjectDatagram) : Location := MkLoc (dg_GroupID d) (if HasZeroObjectID d then 0 else dg_ObjectID d).
Definition with_alias (a : Z) (d : ObjectDatagram) : ObjectDatagram :=
  MkDatagram (dg_Type d) a (dg_GroupID d) (dg_ObjectID d) (dg_PublisherPriority d) (dg_Properties d) (dg_ObjectStatus d) (dg_ObjectPayload d).

(** [SendDatagram]'s check and first section, and its call of [Session.SendDatagram]. *)
Definition send_enter (d : ObjectDatagram) (c : Z) (w : PubWorld) : PubWorld :=
  match dg_Validate d with Err e => set_opener c (OpReturned (Some e)) (w_p w) w | Ok _ => enter (OpSending d) c w end.
Definition send_datagram (d : ObjectDatagram) (c : Z) (w : PubWorld) : PubWorld :=
  match SendDatagram (with_alias (p_alias (w_p w)) d) (w_sent w) with
  | Ok sent => MkPubWorld (w_p w) (<[c := OpLeaving None]> (w_openers w)) (w_sgs w) (w_forgets w) (w_dones w) sent (w_log w)
  | Err e => set_opener c (OpLeaving (Some e)) (w_p w) w
  end.

Definition pub_step (op : pub_op) (w : PubWorld) : option PubWorld :=
  match op with
  | PuOpen c => match w_openers w !! c with None => Some (enter OpEntered c w) | _ => None end
  | PuHeader c res =>
      match w_openers w !! c with
      | Some OpEntered =>
          match res with
          | inl sg => if bool_decide (is_Some (w_sgs w !! sg)) then None else Some (header_written c res w)
          | inr _ => Some (header_written c res w)
          end
      | _ => None
      end
  | PuRegister c => match w_openers w !! c with Some (OpWrote sg) => register_subgroup c sg w | _ => None end
  | PuLeave c =>
      match w_openers w !! c with
      | Some (OpLeaving err) => Some (set_opener c (OpReturned err) (set_opening (p_opening (w_p w) - 1) (w_p w)) w)
      | _ => None
      end
  | PuDatagram c d => match w_openers w !! c with None => Some (send_enter d c w) | _ => None end
  | PuNoted c =>
      match w_openers w !! c with
      | Some (OpSending d) => Some (set_opener c (OpNoted d) (noteObject (sent_loc d) (w_p w)) w)
      | _ => None
      end
  | PuSend c => match w_openers w !! c with Some (OpNoted d) => Some (send_datagram d c w) | _ => None end
  | PuEnd sg how =>
      match w_sgs w !! sg, how with
      | Some SgOpen, SgFinished | Some SgOpen, SgReset _ =>
          Some (MkPubWorld (w_p w) (w_openers w) (<[sg := how]> (w_sgs w)) (w_forgets w ++ [sg]) (w_dones w) (w_sent w) (w_log w))
      | _, _ => None
      end
  | PuForget i =>
      match w_forgets w !! i with
      | Some sg => Some (MkPubWorld (forget sg (w_p w)) (w_openers w) (w_sgs w) (delete i (w_forgets w)) (w_dones w) (w_sent w) (w_log w))
      | None => None
      end
  | PuNote loc => Some (MkPubWorld (noteObject loc (w_p w)) (w_openers w) (w_sgs w) (w_forgets w) (w_dones w) (w_sent w) (w_log w))
  | PuUpdate ps => Some (MkPubWorld (applied ps (w_p w)) (w_openers w) (w_sgs w) (w_forgets w) (w_dones w) (w_sent w) (w_log w))
  | PuDone c code reason =>
      match w_dones w !! c with
      | None =>
          if p_ended (w_p w) then Some (set_done c DnReturned (w_p w) w)
          else Some (set_done c (DnEntered code reason) (set_ends (p_endCtx (w_p w)) true (w_p w)) w)
      | _ => None
      end
  | PuCancel c =>
      match w_dones w !! c with
      | Some (DnEntered code reason) => Some (set_done c (DnWaiting code reason) (set_ends true (p_ended (w_p w)) (w_p w)) w)
      | _ => None
      end
  | PuWaited c =>
      match w_dones w !! c with
      | Some (DnWaiting code reason) =>
          if p_opening (w_p w) =? 0
          then Some (set_done c (DnResetting code reason (p_count (w_p w)) (elements (default ∅ (p_open (w_p w)))))
                       (set_streams (p_count (w_p w)) None (w_p w)) w)
          else None
      | _ => None
      end
  | PuReset c =>
      match w_dones w !! c with
      | Some (DnResetting code reason count (sg :: rest)) =>
          Some (MkPubWorld (w_p w) (w_openers w) (cancel_write sg (w_sgs w)) (w_forgets w)
                  (<[c := DnResetting code reason count rest]> (w_dones w)) (w_sent w) (w_log w))
      | _ => None
      end
  | PuWrite c wok =>
      match w_dones w !! c with
      | Some (DnResetting code reason count []) =>
          Some (MkPubWorld (w_p w) (w_openers w) (w_sgs w) (w_forgets w) (<[c := DnReturned]> (w_dones w))
                  (w_sent w) (w_log w ++ write_done wok code reason count))
      | _ => None
      end
  end.

Fixpoint pub_run (ops : list pub_op) (w : PubWorld) : option PubWorld :=
  match ops with [] => Some w | op :: ops => pub_step op w ≫= pub_run ops end.

(** ** What holds in every state *)

Definition active (o : opener) : bool := match o with OpReturned _ => false | _ => true end.
Definition wrote (w : PubWorld) (sg : Z) : Prop := exists c, w_openers w !! c = Some (OpWrote sg).

(** [act]: the calls [opening] counts; [reg]: the subgroups [subgroupCount] counts. *)
Record openers_ok (w : PubWorld) (act reg : gset Z) : Prop := {
  oo_active c : c ∈ act <-> exists o, w_openers w !! c = Some o /\ active o = true;
  oo_opening : p_opening (w_p w) = Z.of_nat (base.size act);
  oo_sgs sg : is_Some (w_sgs w !! sg) <-> sg ∈ reg \/ wrote w sg;
  oo_fresh c c' sg : w_openers w !! c = Some (OpWrote sg) -> (sg ∉ reg) /\ (w_openers w !! c' = Some (OpWrote sg) -> c = c');
  oo_count : p_count (w_p w) = u64 (Z.of_nat (base.size reg)) }.

Definition total (w : PubWorld) : Z := u64 (Z.of_nat (base.size (w_sgs w))).
Definition is_open (w : PubWorld) (sg : Z) : Prop := w_sgs w !! sg = Some SgOpen.

Definition quiet (w : PubWorld) : Prop := p_ended (w_p w) = true /\ p_open (w_p w) = None /\ p_opening (w_p w) = 0.

(** What the call of [Done] that latched [ended] has done so far. *)
Definition phase_ok (w : PubWorld) (d : option done_call) : Prop :=
  match d with
  | None => p_ended (w_p w) = false /\ is_Some (p_open (w_p w)) /\ w_log w = []
  | Some (DnEntered _ _) | Some (DnWaiting _ _) => p_ended (w_p w) = true /\ is_Some (p_open (w_p w)) /\ w_log w = []
  | Some (DnResetting _ _ n rest) => quiet w /\ w_log w = [] /\ n = total w /\ (forall sg, is_open w sg -> sg ∈ rest)
  | Some DnReturned => quiet w /\ (forall sg, ~ is_open w sg) /\ exists wok code reason, w_log w = write_done wok code reason (total w)
  end.

Definition owner_ok (w : PubWorld) (owner : option Z) : Prop :=
  match owner with Some c => is_Some (w_dones w !! c) /\ phase_ok w (w_dones w !! c) | None => w_dones w = ∅ /\ phase_ok w None end.

Record pub_ok (w : PubWorld) (owner : option Z) (act reg : gset Z) : Prop := {
  po_openers : openers_ok w act reg;
  po_others c d : w_dones w !! c = Some d -> Some c <> owner -> d = DnReturned;
  po_phase : owner_ok w owner;
  po_open o sg : p_open (w_p w) = Some o -> is_open w sg -> sg ∈ o \/ wrote w sg;
  po_forgets sg : sg ∈ w_forgets w -> is_Some (w_sgs w !! sg) /\ ~ is_open w sg }.

Lemma world0_ok p : p_ended p = false -> p_open p = Some ∅ -> p_opening p = 0 -> p_count p = 0 -> pub_ok (pub_world0 p) None ∅ ∅.
Proof.
  intros He Ho Hn Hc. split; simpl; try done; [|intros sg Hs; by apply not_elem_of_nil in Hs].
  split; simpl; try done.
  - intros c. rewrite lookup_empty. split; [set_solver|intros (o & [=] & _)].
  - intros sg. unfold wrote. simpl. rewrite lookup_empty. split; [intros [? [=]]|intros [?|[c Hx]]; [set_solver|]]. by rewrite lookup_empty in Hx.
Qed.

(** *** Frames *)

Lemma phase_frame w w' d : phase_ok w d -> p_ended (w_p w') = p_ended (w_p w) -> (is_Some (p_open (w_p w')) <-> is_Some (p_open (w_p w))) ->
  p_opening (w_p w') = p_opening (w_p w) -> w_log w' = w_log w -> total w' = total w -> (forall sg, is_open w' sg -> is_open w sg) -> phase_ok w' d.
Proof.
  intros H He Hs Hn Hl Ht Ho. unfold phase_ok, quiet in *. rewrite He, Hl, Hn, Ht.
  assert (p_open (w_p w) = None -> p_open (w_p w') = None) as Hnone
    by (intros E; apply eq_None_not_Some; rewrite Hs, E; by intros [? [=]]).
  destruct d as [[]|]; [naive_solver..|naive_solver].
Qed.

Lemma owner_frame w w' ow : owner_ok w ow -> w_dones w' = w_dones w ->
  p_ended (w_p w') = p_ended (w_p w) -> (is_Some (p_open (w_p w')) <-> is_Some (p_open (w_p w))) ->
  p_opening (w_p w') = p_opening (w_p w) -> w_log w' = w_log w -> total w' = total w -> (forall sg, is_open w' sg -> is_open w sg) -> owner_ok w' ow.
Proof. intros H Hd. destruct ow as [c|]; destruct H as [H1 H2]; unfold owner_ok; rewrite Hd; intros; (split; [done|]); by eapply phase_frame. Qed.

(** A call in progress holds [Done] back. *)
Lemma owner_busy w w' ow : owner_ok w ow -> p_opening (w_p w) <> 0 -> w_dones w' = w_dones w ->
  p_ended (w_p w') = p_ended (w_p w) -> (is_Some (p_open (w_p w)) -> is_Some (p_open (w_p w'))) -> w_log w' = w_log w -> owner_ok w' ow.
Proof.
  intros H Hn Hd He Ho Hl. destruct ow as [c|]; destruct H as [H1 H2]; unfold owner_ok; rewrite Hd; (split; [done|]).
  - destruct (w_dones w !! c) as [[]|]; simpl in *; unfold quiet in *; rewrite ?He, ?Hl; naive_solver.
  - simpl in *. rewrite He, Hl. naive_solver.
Qed.

Lemma busy w act reg c o : openers_ok w act reg -> w_openers w !! c = Some o -> active o = true -> c ∈ act /\ p_opening (w_p w) <> 0.
Proof.
  intros H Ho Ha. assert (c ∈ act) as Hc by (apply (oo_active _ _ _ H); eauto). split; [done|]. rewrite (oo_opening _ _ _ H).
  assert (base.size act <> 0%nat); [|lia]. intros E. apply size_empty_inv in E. set_solver.
Qed.

Lemma busy_open w ow : owner_ok w ow -> p_opening (w_p w) <> 0 -> is_Some (p_open (w_p w)).
Proof.
  intros H Hn. destruct ow as [c|]; destruct H as [H1 H2]; [|naive_solver].
  destruct (w_dones w !! c) as [[]|]; simpl in *; unfold quiet in *; naive_solver.
Qed.

Lemma openers_frame w w' act reg : openers_ok w act reg -> w_openers w' = w_openers w -> p_opening (w_p w') = p_opening (w_p w) ->
  p_count (w_p w') = p_count (w_p w) -> (forall sg, is_Some (w_sgs w' !! sg) <-> is_Some (w_sgs w !! sg)) -> openers_ok w' act reg.
Proof.
  intros H Eo En Ec Es. split; unfold wrote.
  - rewrite Eo. apply (oo_active _ _ _ H).
  - rewrite En. apply (oo_opening _ _ _ H).
  - intros sg. rewrite Es, Eo. apply (oo_sgs _ _ _ H).
  - rewrite Eo. apply (oo_fresh _ _ _ H).
  - rewrite Ec. apply (oo_count _ _ _ H).
Qed.

Definition is_wrote (o : opener) : bool := match o with OpWrote _ => true | _ => false end.

(** A call moves between states other than [OpWrote]. *)
Lemma openers_set w w' act reg act' c o : openers_ok w act reg -> w_openers w' = <[c := o]> (w_openers w) -> is_wrote o = false ->
  (forall o', w_openers w !! c = Some o' -> is_wrote o' = false) -> w_sgs w' = w_sgs w -> p_count (w_p w') = p_count (w_p w) ->
  act' = (if active o then {[c]} ∪ act else act ∖ {[c]}) -> p_opening (w_p w') = Z.of_nat (base.size act') -> openers_ok w' act' reg.
Proof.
  intros H Eo Hw Hw' Es Ec -> En. assert (forall c' sg, w_openers w' !! c' = Some (OpWrote sg) <-> w_openers w !! c' = Some (OpWrote sg)) as Hsame.
  { intros c' sg. rewrite Eo. destruct (decide (c = c')) as [<-|]; [|by rewrite lookup_insert_ne]. rewrite lookup_insert_eq.
    split; [intros [= ->]; done|intros E; by specialize (Hw' _ E)]. }
  split; unfold wrote.
  - intros c'. rewrite Eo. destruct (decide (c = c')) as [<-|Hne].
    + rewrite lookup_insert_eq. destruct (active o) eqn:Ea; [set_solver|]. split; [set_solver|]. intros (? & [= <-] & ?). congruence.
    + rewrite lookup_insert_ne by done. rewrite <-(oo_active _ _ _ H). destruct (active o); set_solver.
  - done.
  - intros sg. rewrite Es, (oo_sgs _ _ _ H). unfold wrote. by setoid_rewrite Hsame.
  - intros c1 c2 sg. rewrite !Hsame. apply (oo_fresh _ _ _ H).
  - rewrite Ec. apply (oo_count _ _ _ H).
Qed.

(** *** Steps *)

Definition good (w : PubWorld) : Prop := exists ow act reg, pub_ok w ow act reg.

(** A step that leaves the calls, the subgroups and the ending alone. *)
Lemma same_ok w w' : good w -> w_openers w' = w_openers w -> w_sgs w' = w_sgs w -> w_forgets w' = w_forgets w -> w_dones w' = w_dones w ->
  w_log w' = w_log w -> p_opening (w_p w') = p_opening (w_p w) -> p_count (w_p w') = p_count (w_p w) -> p_open (w_p w') = p_open (w_p w) ->
  p_ended (w_p w') = p_ended (w_p w) -> good w'.
Proof.
  intros (ow & act & reg & H) Eo Es Ef Ed El En Ec Ep Ee. exists ow, act, reg. unfold is_open, wrote in *. split.
  - eapply openers_frame; [apply H|done..|]. intros. by rewrite Es.
  - rewrite Ed. apply (po_others _ _ _ _ H).
  - eapply owner_frame; [apply H|done|done| |done|done| |].
    + by rewrite Ep.
    + unfold total. by rewrite Es.
    + unfold is_open. intros. by rewrite <-Es.
  - rewrite Ep. unfold is_open, wrote. rewrite Es, Eo. apply (po_open _ _ _ _ H).
  - rewrite Ef. unfold is_open. rewrite Es. apply (po_forgets _ _ _ _ H).
Qed.

Definition in_progress (w : PubWorld) (c : Z) : bool := from_option active false (w_openers w !! c).

(** A call's step that writes no header and registers nothing. *)
Lemma opener_ok w w' c o : good w -> w_openers w' = <[c := o]> (w_openers w) -> is_wrote o = false ->
  (forall o', w_openers w !! c = Some o' -> is_wrote o' = false) -> w_sgs w' = w_sgs w -> w_forgets w' = w_forgets w -> w_dones w' = w_dones w ->
  w_log w' = w_log w -> p_count (w_p w') = p_count (w_p w) -> p_open (w_p w') = p_open (w_p w) -> p_ended (w_p w') = p_ended (w_p w) ->
  p_opening (w_p w') - p_opening (w_p w) =
    (if active o then 1 else 0) - (if in_progress w c then 1 else 0) ->
  (p_opening (w_p w') <> p_opening (w_p w) -> p_ended (w_p w) = false \/ p_opening (w_p w) <> 0) -> good w'.
Proof.
  intros (ow & act & reg & H) Eo Hw Hw' Es Ef Ed El Ec Ep Ee En Hq. exists ow, (if active o then {[c]} ∪ act else act ∖ {[c]}), reg.
  pose proof (po_openers _ _ _ _ H) as HO. split.
  - eapply openers_set; [exact HO|done..|]. pose proof (oo_opening _ _ _ HO) as Hn.
    assert (c ∈ act <-> in_progress w c = true) as Hact
      by (rewrite (oo_active _ _ _ HO); unfold in_progress; destruct (w_openers w !! c); simpl; naive_solver).
    destruct (in_progress w c); [assert (c ∈ act) by tauto|assert (c ∉ act) by (intros ?; intuition congruence)].
    all: destruct (active o).
    + assert ({[c]} ∪ act = act) as -> by set_solver. lia.
    + rewrite size_difference by set_solver. rewrite size_singleton. assert (base.size act <> 0%nat); [|lia]. intros E.
      apply size_empty_inv in E. set_solver.
    + rewrite size_union by set_solver. rewrite size_singleton. lia.
    + assert (act ∖ {[c]} = act) as -> by set_solver. lia.
  - rewrite Ed. apply (po_others _ _ _ _ H).
  - pose proof (po_phase _ _ _ _ H) as HP. destruct (decide (p_opening (w_p w') = p_opening (w_p w))) as [Heq|Hne].
    + eapply owner_frame; [exact HP|done|done| |done|done| |]; unfold total, is_open; rewrite ?Ep, ?Es; done.
    + destruct (Hq Hne) as [Hf|Hn]; [|by eapply owner_busy; [exact HP|done|done|done|rewrite Ep|]].
      unfold owner_ok in *. destruct ow as [o'|].
      * destruct HP as [[d Hs] HP]. rewrite Hs in HP. assert (p_ended (w_p w) = true); [|congruence].
        destruct d; simpl in HP; unfold quiet in HP; tauto.
      * rewrite Ed. simpl in *. by rewrite Ee, Ep, El.
  - rewrite Ep. unfold is_open, wrote. rewrite Es. intros op sg Hop Hsg. destruct (po_open _ _ _ _ H op sg Hop Hsg) as [|[c' Hx]]; [by left|].
    right. exists c'. rewrite Eo. destruct (decide (c = c')) as [<-|]; [by specialize (Hw' _ Hx)|by rewrite lookup_insert_ne].
  - rewrite Ef. unfold is_open. rewrite Es. apply (po_forgets _ _ _ _ H).
Qed.

Lemma header_ok w c sg : good w -> w_openers w !! c = Some OpEntered -> w_sgs w !! sg = None -> good (header_written c (inl sg) w).
Proof.
  intros (ow & act & reg & H) Hc Hsg. set (w' := header_written c (inl sg) w). pose proof (po_openers _ _ _ _ H) as HO.
  assert (w_openers w' = <[c := OpWrote sg]> (w_openers w)) as Eo by done.
  destruct (busy _ _ _ _ _ HO Hc eq_refl) as [Hca Hn]. exists ow, act, reg.
  assert (~ (sg ∈ reg \/ wrote w sg)) as Hnew by (rewrite <-(oo_sgs _ _ _ HO), Hsg; by intros [? [=]]).
  assert (forall s, wrote w' s <-> s = sg \/ wrote w s) as Hwr.
  { intros s. unfold wrote. rewrite Eo. split.
    - intros [c' Hx]. destruct (decide (c = c')) as [<-|]; [rewrite lookup_insert_eq in Hx; injection Hx as ->; by left|].
      rewrite lookup_insert_ne in Hx by done. eauto.
    - intros [->|[c' Hx]]; [exists c; by rewrite lookup_insert_eq|]. exists c'.
      destruct (decide (c = c')) as [<-|]; [congruence|by rewrite lookup_insert_ne]. }
  split.
  - split.
    + intros c'. rewrite Eo, (oo_active _ _ _ HO). destruct (decide (c = c')) as [<-|]; [|by rewrite lookup_insert_ne].
      rewrite lookup_insert_eq, Hc. naive_solver.
    + apply HO.
    + intros s. rewrite Hwr. simpl. destruct (decide (sg = s)) as [<-|]; [rewrite lookup_insert_eq; naive_solver|].
      rewrite lookup_insert_ne by done. rewrite (oo_sgs _ _ _ HO). intuition congruence.
    + intros c1 c2 s. rewrite Eo. destruct (decide (c = c1)) as [<-|Hn1].
      * rewrite lookup_insert_eq. intros [= <-]. split; [tauto|]. destruct (decide (c = c2)) as [<-|]; [done|]. rewrite lookup_insert_ne by done.
        intros Hx. destruct Hnew. right. by exists c2.
      * rewrite lookup_insert_ne by done. intros Hx. destruct (oo_fresh _ _ _ HO c1 c2 s Hx) as [Hr Hu]. split; [done|].
        destruct (decide (c = c2)) as [<-|]; [|by rewrite lookup_insert_ne]. rewrite lookup_insert_eq. intros [= ->]. destruct Hnew. right. by exists c1.
    + apply HO.
  - apply (po_others _ _ _ _ H).
  - eapply owner_busy; [apply H|done..].
  - intros o s Ho Hs. rewrite Hwr. unfold is_open in Hs. simpl in *. destruct (decide (sg = s)) as [<-|]; [tauto|].
    rewrite lookup_insert_ne in Hs by done. destruct (po_open _ _ _ _ H o s Ho Hs); tauto.
  - intros s Hs. unfold is_open. simpl. destruct (po_forgets _ _ _ _ H s Hs) as [[st Hst] Hno]. rewrite lookup_insert_ne by congruence. eauto.
Qed.

Lemma registered_ok w c sg w' : good w -> w_openers w !! c = Some (OpWrote sg) -> register_subgroup c sg w = Some w' -> good w'.
Proof.
  intros (ow & act & reg & H) Hc. pose proof (po_openers _ _ _ _ H) as HO. unfold register_subgroup. destruct (p_open (w_p w)) as [o|] eqn:Eo; [|done].
  intros [= <-]. set (w' := set_opener _ _ _ _). destruct (busy _ _ _ _ _ HO Hc eq_refl) as [Hca Hn]. destruct (oo_fresh _ _ _ HO c c sg Hc) as [Hr _].
  assert (forall s, wrote w' s <-> s <> sg /\ wrote w s) as Hwr.
  { intros s. unfold wrote. simpl. split.
    - intros [c' Hx]. destruct (decide (c = c')) as [<-|]; [by rewrite lookup_insert_eq in Hx|]. rewrite lookup_insert_ne in Hx by done.
      split; [|eauto]. intros ->. destruct (oo_fresh _ _ _ HO c c' sg Hc) as [_ Hu]. by specialize (Hu Hx).
    - intros [Hne [c' Hx]]. exists c'. rewrite lookup_insert_ne; [done|]. intros <-. congruence. }
  exists ow, act, ({[sg]} ∪ reg). split.
  - split.
    + intros c'. simpl. rewrite (oo_active _ _ _ HO). destruct (decide (c = c')) as [<-|]; [|by rewrite lookup_insert_ne].
      rewrite lookup_insert_eq, Hc. naive_solver.
    + apply HO.
    + intros s. rewrite Hwr. simpl. rewrite (oo_sgs _ _ _ HO), elem_of_union, elem_of_singleton. destruct (decide (s = sg)) as [->|]; [|tauto].
      split; [tauto|]. intros _. right. by exists c.
    + intros c1 c2 s. simpl. destruct (decide (c = c1)) as [<-|Hn1]; [by rewrite lookup_insert_eq|]. rewrite lookup_insert_ne by done. intros Hx.
      destruct (oo_fresh _ _ _ HO c1 c2 s Hx) as [Hr' Hu]. split.
      * rewrite not_elem_of_union, not_elem_of_singleton. split; [|done]. intros ->. destruct (oo_fresh _ _ _ HO c1 c sg Hx) as [_ Hu']. specialize (Hu' Hc). congruence.
      * destruct (decide (c = c2)) as [<-|]; [by rewrite lookup_insert_eq|by rewrite lookup_insert_ne].
    + simpl. rewrite (oo_count _ _ _ HO), size_union by set_solver. rewrite size_singleton. unfold u64. rewrite Z.add_mod_idemp_l by done. f_equal. lia.
  - apply (po_others _ _ _ _ H).
  - eapply owner_busy; [apply H|done..].
  - intros o' s [= <-] Hs. rewrite Hwr, elem_of_union, elem_of_singleton. destruct (decide (s = sg)); [tauto|].
    destruct (po_open _ _ _ _ H o s Eo Hs); tauto.
  - apply (po_forgets _ _ _ _ H).
Qed.

Lemma ends_some (m : gmap Z sg_state) sg st st' s : m !! sg = Some st' -> is_Some (<[sg := st]> m !! s) <-> is_Some (m !! s).
Proof. intros H. destruct (decide (sg = s)) as [<-|]; [rewrite lookup_insert_eq, H; split; eauto|by rewrite lookup_insert_ne]. Qed.

Lemma ends_size (m : gmap Z sg_state) sg st st' : m !! sg = Some st' -> base.size (<[sg := st]> m) = base.size m.
Proof. intros H. by rewrite map_size_insert, H. Qed.

(** A subgroup ends, by its writer or by [Done]. *)
Lemma ended_ok w w' sg st forgets : good w -> is_open w sg -> st <> SgOpen -> w_openers w' = w_openers w -> w_sgs w' = <[sg := st]> (w_sgs w) ->
  w_p w' = w_p w -> w_forgets w' = w_forgets w ++ forgets -> (forall s, s ∈ forgets -> s = sg) -> w_dones w' = w_dones w -> w_log w' = w_log w ->
  good w' /\ forall s, is_open w' s <-> is_open w s /\ s <> sg.
Proof.
  intros (ow & act & reg & H) Hsg Hst Eo Es Ep Ef Hf Ed El.
  assert (forall s, is_open w' s <-> is_open w s /\ s <> sg) as Hopen.
  { intros s. unfold is_open. rewrite Es. destruct (decide (sg = s)) as [<-|]; [rewrite lookup_insert_eq; naive_solver|]. rewrite lookup_insert_ne by done. naive_solver. }
  split; [|done]. exists ow, act, reg. split.
  - eapply openers_frame; [apply H|done|by rewrite Ep..|]. intros s. rewrite Es. by eapply ends_some.
  - rewrite Ed. apply (po_others _ _ _ _ H).
  - eapply owner_frame; [apply H|done|by rewrite Ep..|done| |].
    + unfold total. rewrite Es. by erewrite ends_size.
    + intros s. rewrite Hopen. tauto.
  - rewrite Ep. intros o s Ho. rewrite Hopen. intros [Hs _]. unfold wrote. rewrite Eo. by apply (po_open _ _ _ _ H).
  - intros s. rewrite Ef, elem_of_app, Hopen, Es. erewrite ends_some by done. intros [Hin|Hin].
    + destruct (po_forgets _ _ _ _ H s Hin). tauto.
    + rewrite (Hf s Hin), Hsg. split; [eauto|tauto].
Qed.

Lemma writer_end_ok w sg st : good w -> is_open w sg -> st <> SgOpen ->
  good (MkPubWorld (w_p w) (w_openers w) (<[sg := st]> (w_sgs w)) (w_forgets w ++ [sg]) (w_dones w) (w_sent w) (w_log w)).
Proof. intros H Hs Hst. eapply (ended_ok w _ sg st [sg]); try done. intros s Hx. by apply list_elem_of_singleton. Qed.

Lemma forget_ok w sg i : good w -> w_forgets w !! i = Some sg ->
  good (MkPubWorld (forget sg (w_p w)) (w_openers w) (w_sgs w) (delete i (w_forgets w)) (w_dones w) (w_sent w) (w_log w)).
Proof.
  intros (ow & act & reg & H) Hi. set (w' := MkPubWorld _ _ _ _ _ _ _). apply list_elem_of_lookup_2 in Hi as Hin. exists ow, act, reg. split.
  - by eapply openers_frame; [apply H|..].
  - apply (po_others _ _ _ _ H).
  - eapply owner_frame; [apply H|done|done| |done..]. simpl. by rewrite fmap_is_Some.
  - intros o s Ho Hs. simpl in Ho. destruct (p_open (w_p w)) as [o'|] eqn:Eo; [|done]. injection Ho as <-.
    destruct (po_open _ _ _ _ H o' s Eo Hs) as [Hx|Hx]; [|by right]. left. apply elem_of_difference. split; [done|].
    rewrite elem_of_singleton. intros ->. by apply (po_forgets _ _ _ _ H sg Hin).
  - simpl. intros s Hs. apply (po_forgets _ _ _ _ H). rewrite (delete_Permutation _ _ _ Hi). by right.
Qed.

Lemma owner_is w ow act reg c d : pub_ok w ow act reg -> w_dones w !! c = Some d -> d <> DnReturned -> ow = Some c /\ phase_ok w (Some d).
Proof.
  intros H Hc Hd. assert (ow = Some c) as -> by (apply dec_stable; intros Hne; apply Hd; by eapply (po_others _ _ _ _ H)).
  split; [done|]. destruct (po_phase _ _ _ _ H) as [_ HP]. by rewrite Hc in HP.
Qed.

(** The owner takes its next step, or a call becomes the owner. *)
Lemma done_moves w w' ow act reg c d' : pub_ok w ow act reg -> ow = Some c \/ ow = None -> w_openers w' = w_openers w -> w_sgs w' = w_sgs w ->
  w_forgets w' = w_forgets w -> w_dones w' = <[c := d']> (w_dones w) -> p_opening (w_p w') = p_opening (w_p w) -> p_count (w_p w') = p_count (w_p w) ->
  p_open (w_p w') = p_open (w_p w) \/ p_open (w_p w') = None -> phase_ok w' (Some d') -> good w'.
Proof.
  intros H Hc Eo Es Ef Ed En Ec Ep HP. exists (Some c), act, reg. split.
  - eapply openers_frame; [apply H|done..|]. by rewrite Es.
  - intros c' d. rewrite Ed. intros Hx Hne. assert (c <> c') by congruence. rewrite lookup_insert_ne in Hx by done.
    apply (po_others _ _ _ _ H c'); [done|]. destruct Hc as [->| ->]; congruence.
  - unfold owner_ok. rewrite Ed, lookup_insert_eq. eauto.
  - unfold is_open, wrote. rewrite Es, Eo. intros o sg Ho. destruct Ep as [Ep|Ep]; rewrite Ep in Ho; [by apply (po_open _ _ _ _ H)|done].
  - rewrite Ef. unfold is_open. rewrite Es. apply (po_forgets _ _ _ _ H).
Qed.

Lemma done_ok w c code reason w' : good w -> pub_step (PuDone c code reason) w = Some w' -> good w'.
Proof.
  intros (ow & act & reg & H). unfold pub_step. destruct (w_dones w !! c) eqn:Ec; [done|].
  pose proof (po_phase _ _ _ _ H) as HP. destruct (p_ended (w_p w)) eqn:Ee; intros [= <-].
  - destruct ow as [o|]; [|simpl in HP; intuition congruence]. exists (Some o), act, reg. destruct HP as [Hs HP].
    assert (c <> o) as Hco by (intros ->; rewrite Ec in Hs; by destruct Hs).
    split; [by eapply openers_frame; [apply H|..]| | |apply (po_open _ _ _ _ H)|apply (po_forgets _ _ _ _ H)].
    + simpl. intros c' d Hx Hne. destruct (decide (c = c')) as [<-|]; [rewrite lookup_insert_eq in Hx; congruence|].
      rewrite lookup_insert_ne in Hx by done. by apply (po_others _ _ _ _ H c').
    + unfold owner_ok. simpl. rewrite lookup_insert_ne by done. split; [done|]. by eapply phase_frame.
  - assert (ow = None) as ->.
    { destruct ow as [o|]; [|done]. destruct HP as [[d Hs] HP]. rewrite Hs in HP. destruct d; simpl in HP; unfold quiet in HP; exfalso; intuition congruence. }
    eapply (done_moves w _ None); [done|by right|done..|by left|]. simpl in *. naive_solver.
Qed.

Lemma waited_ok w c w' : good w -> pub_step (PuWaited c) w = Some w' -> good w'.
Proof.
  intros (ow & act & reg & H). unfold pub_step. destruct (w_dones w !! c) as [[]|] eqn:Ec; try done.
  destruct (p_opening (w_p w) =? 0) eqn:En; [|done]. apply Z.eqb_eq in En. intros [= <-].
  destruct (owner_is _ _ _ _ _ _ H Ec) as [-> HP]; [done|]. destruct HP as (He & [o Ho] & Hl). pose proof (po_openers _ _ _ _ H) as HO.
  eapply (done_moves w _ (Some c)); [done|by left|done..|by right|]. simpl. unfold quiet. simpl.
  assert (act = ∅) as ->.
  { apply leibniz_equiv, size_empty_inv. rewrite (oo_opening _ _ _ HO) in En. lia. }
  assert (forall sg, ~ wrote w sg) as Hw.
  { intros sg [c' Hx]. cut (c' ∈ (∅ : gset Z)); [set_solver|]. apply (oo_active _ _ _ HO). eauto. }
  split_and!; try done.
  - rewrite (oo_count _ _ _ HO). unfold total. simpl. f_equal. f_equal. assert (reg = dom (w_sgs w)) as ->; [|apply size_dom].
    apply set_eq. intros sg. rewrite elem_of_dom, (oo_sgs _ _ _ HO). specialize (Hw sg). tauto.
  - rewrite Ho. simpl. intros sg Hs. apply elem_of_elements. destruct (po_open _ _ _ _ H o sg Ho Hs) as [|Hx]; [done|by apply Hw in Hx].
Qed.

Lemma reset_ok w c w' : good w -> pub_step (PuReset c) w = Some w' -> good w'.
Proof.
  intros HG. unfold pub_step. destruct (w_dones w !! c) as [[| |code reason n [|sg rest]|]|] eqn:Ec; try done. intros [= <-].
  set (w1 := MkPubWorld (w_p w) (w_openers w) (cancel_write sg (w_sgs w)) (w_forgets w) (w_dones w) (w_sent w) (w_log w)).
  assert (good w1 /\ (forall s, is_open w1 s <-> is_open w s /\ s <> sg) /\ total w1 = total w) as (HG1 & Ho1 & Ht1).
  { unfold w1, cancel_write. destruct (w_sgs w !! sg) as [[]|] eqn:Es.
    { edestruct (ended_ok w w1 sg (SgReset StreamResetCancelled) []) as [HG1 Ho1]; try done.
      - unfold w1, cancel_write. by rewrite Es.
      - by rewrite app_nil_r.
      - intros s Hs. by apply not_elem_of_nil in Hs.
      - unfold w1, cancel_write in *. rewrite Es in *. split_and!; [done..|]. unfold total. simpl. by erewrite ends_size. }
    all: replace (MkPubWorld _ _ _ _ _ _ _) with w by (by destruct w).
    all: split_and!; [done|intros s; unfold is_open; split; [intros Hs; split; congruence|tauto]|done]. }
  destruct HG1 as (ow & act & reg & H). destruct (owner_is w1 _ _ _ c _ H Ec) as [-> HP]; [done|]. destruct HP as (Hq & Hl & Hn & Hr).
  eapply (done_moves w1 _ (Some c)); [done|by left|done..|by left|]. simpl. split_and!; [done..|].
  intros s Hs. destruct (proj1 (Ho1 s) Hs). specialize (Hr s Hs). apply elem_of_cons in Hr as [->|]; done.
Qed.

Lemma write_ok w c wok w' : good w -> pub_step (PuWrite c wok) w = Some w' -> good w'.
Proof.
  intros (ow & act & reg & H). unfold pub_step. destruct (w_dones w !! c) as [[| |code reason n [|]|]|] eqn:Ec; try done. intros [= <-].
  destruct (owner_is _ _ _ _ _ _ H Ec) as [-> HP]; [done|]. destruct HP as (Hq & Hl & -> & Hr).
  eapply (done_moves w _ (Some c)); [done|by left|done..|by left|]. simpl. split_and!; [done| |].
  - intros sg Hs. specialize (Hr sg Hs). by apply not_elem_of_nil in Hr.
  - exists wok, code, reason. by rewrite Hl.
Qed.

Lemma enter_ok next c w : good w -> is_wrote next = false -> active next = true -> w_openers w !! c = None -> good (enter next c w).
Proof.
  intros H Hw Ha Hc. unfold enter. assert (in_progress w c = false) as Hi by (unfold in_progress; by rewrite Hc).
  destruct (p_ended (w_p w)) eqn:Ee; [|destruct (p_paused (w_p w))].
  all: eapply (opener_ok w); [done|done|done|by rewrite Hc|done..| |]; rewrite ?Hi, ?Ha; simpl; [lia|try done]; tauto.
Qed.

Lemma move_ok w w' c o o' : good w -> w_openers w !! c = Some o' -> w_openers w' = <[c := o]> (w_openers w) -> is_wrote o = false -> is_wrote o' = false ->
  active o' = true -> w_sgs w' = w_sgs w -> w_forgets w' = w_forgets w -> w_dones w' = w_dones w ->
  w_log w' = w_log w -> p_count (w_p w') = p_count (w_p w) -> p_open (w_p w') = p_open (w_p w) -> p_ended (w_p w') = p_ended (w_p w) ->
  p_opening (w_p w') = p_opening (w_p w) - (if active o then 0 else 1) -> good w'.
Proof.
  intros HG Hc Eo Hw Hw' Ha Es Ef Ed El Ec Ep Ee En. eapply (opener_ok w w' c o); try done.
  - rewrite Hc. by intros ? [= <-].
  - unfold in_progress. rewrite Hc. simpl. rewrite Ha, En. destruct (active o); lia.
  - destruct HG as (ow & act & reg & H). intros _. right. by eapply busy; [apply H|..].
Qed.

Lemma pub_step_ok op w w' : good w -> pub_step op w = Some w' -> good w'.
Proof.
  intros H Hs. destruct op as [c|c res|c|c|c d|c|c|sg how|i|loc|ps|c code reason|c|c|c|c wok];
    [ | | | | | | | | | | |by eapply done_ok| |by eapply waited_ok|by eapply reset_ok|by eapply write_ok]; unfold pub_step in Hs.
  - destruct (w_openers w !! c) eqn:Ec; [done|]. injection Hs as <-. by apply enter_ok.
  - destruct (w_openers w !! c) as [[]|] eqn:Ec; try done. destruct res as [sg|e]; [|injection Hs as <-; eapply (move_ok w); try done; simpl; lia].
    case_bool_decide as Hb; [done|]. injection Hs as <-. apply header_ok; [done..|]. by apply eq_None_not_Some.
  - destruct (w_openers w !! c) as [[]|] eqn:Ec; try done. by eapply registered_ok.
  - destruct (w_openers w !! c) as [[]|] eqn:Ec; try done. injection Hs as <-. by eapply (move_ok w).
  - destruct (w_openers w !! c) eqn:Ec; [done|]. injection Hs as <-. unfold send_enter. destruct (dg_Validate d); [by apply enter_ok|].
    eapply (opener_ok w); try done; [by rewrite Ec|]. unfold in_progress. rewrite Ec. simpl. lia.
  - destruct (w_openers w !! c) as [[]|] eqn:Ec; try done. injection Hs as <-. eapply (move_ok w); try done; simpl; lia.
  - destruct (w_openers w !! c) as [[]|] eqn:Ec; try done. injection Hs as <-. unfold send_datagram.
    destruct (SendDatagram _ _); eapply (move_ok w); try done; simpl; lia.
  - destruct (w_sgs w !! sg) as [[]|] eqn:Es; try done. destruct how; [done|..]; injection Hs as <-.
    all: by eapply writer_end_ok.
  - destruct (w_forgets w !! i) eqn:Ei; [|done]. injection Hs as <-. by apply forget_ok.
  - injection Hs as <-. by eapply (same_ok w).
  - injection Hs as <-. eapply (same_ok w); try done; unfold applied; by destruct (update_params ps None) as [[]| |].
  - destruct (w_dones w !! c) as [[]|] eqn:Ec; try done. injection Hs as <-. destruct H as (ow & act & reg & H).
    destruct (owner_is _ _ _ _ _ _ H Ec) as [-> HP]; [done|]. eapply (done_moves w _ (Some c)); [done|by left|done..|by left|]. done.
Qed.

Lemma pub_run_ok ops : forall w w', good w -> pub_run ops w = Some w' -> good w'.
Proof.
  induction ops as [|op ops IH]; intros w w' H; simpl; [by intros [= <-]|]. destruct (pub_step op w) as [w1|] eqn:E; [|done].
  apply IH. by eapply pub_step_ok.
Qed.

(** Once PUBLISH_DONE is out nothing more is opened, sent or written. *)
Lemma done_is_last w op w' : good w -> w_log w <> [] -> pub_step op w = Some w' ->
  w_sgs w' = w_sgs w /\ w_sent w' = w_sent w /\ w_log w' = w_log w.
Proof.
  intros (ow & act & reg & H) Hl Hs. pose proof (po_openers _ _ _ _ H) as HO.
  assert (quiet w /\ (forall sg, ~ is_open w sg) /\ forall c d, w_dones w !! c = Some d -> d = DnReturned) as (Hq & Hno & Hd).
  { destruct ow as [c|]; [|destruct (po_phase _ _ _ _ H) as [_ HP]; simpl in HP; tauto].
    destruct (po_phase _ _ _ _ H) as [[d Hd] HP]. rewrite Hd in HP. destruct d; simpl in HP; [tauto..|]. split_and!; [tauto..|].
    intros c' d' Hx. destruct (decide (c' = c)) as [->|]; [congruence|]. apply (po_others _ _ _ _ H c'); congruence. }
  assert (forall c o, w_openers w !! c = Some o -> active o = false) as Ha.
  { intros c o Hc. apply not_true_is_false. intros Hx. destruct Hq as (_ & _ & Hz). by destruct (busy _ _ _ _ _ HO Hc Hx). }
  destruct op as [c|c res|c|c|c d|c|c|sg how|i|loc|ps|c code reason|c|c|c|c wok]; unfold pub_step in Hs.
  2-4,6-7: destruct (w_openers w !! c) as [[]|] eqn:Ec; try done; by specialize (Ha _ _ Ec).
  1-2: destruct (w_openers w !! c); [done|]; injection Hs as <-; unfold send_enter, enter.
  - destruct (p_ended _); [done|]. by destruct (p_paused _).
  - destruct (dg_Validate d); [|done]. destruct (p_ended _); [done|]. by destruct (p_paused _).
  - destruct (w_sgs w !! sg) as [[]|] eqn:Es; try done. by destruct (Hno sg).
  - destruct (w_forgets w !! i); [|done]. by injection Hs as <-.
  - by injection Hs as <-.
  - by injection Hs as <-.
  - destruct (w_dones w !! c); [done|]. destruct (p_ended _); by injection Hs as <-.
  - destruct (w_dones w !! c) as [[]|] eqn:Ec; try done. by specialize (Hd _ _ Ec).
  - destruct (w_dones w !! c) as [[]|] eqn:Ec; try done. by specialize (Hd _ _ Ec).
  - destruct (w_dones w !! c) as [[]|] eqn:Ec; try done. by specialize (Hd _ _ Ec).
  - destruct (w_dones w !! c) as [[]|] eqn:Ec; try done. by specialize (Hd _ _ Ec).
Qed.

(** ** The end of a publication *)

(** C17: However the callers of [OpenSubgroup], [SendDatagram] and [Done], the streams'
    ends and REQUEST_UPDATEs interleave, registering a subgroup never meets the map
    [Done] has taken away, and what is on the request stream, if anything, is one
    PUBLISH_DONE whose Stream Count is the number of subgroup streams whose header was
    written (modulo 2^64): every one of those has been finished or reset by then, and no
    later step opens a subgroup, sends a datagram or writes another PUBLISH_DONE. *)
Theorem publication_done_exact alias establishing announced ops w :
  pub_run ops (pub_world0 (newPublication alias establishing announced)) = Some w ->
  (forall c sg, w_openers w !! c = Some (OpWrote sg) -> is_Some (register_subgroup c sg w)) /\
  (w_log w <> [] ->
     (exists wok code reason, w_log w = write_done wok code reason (u64 (Z.of_nat (base.size (w_sgs w))))) /\
     (forall sg, w_sgs w !! sg <> Some SgOpen) /\
     forall op w', pub_step op w = Some w' -> w_sgs w' = w_sgs w /\ w_sent w' = w_sent w /\ w_log w' = w_log w).
Proof.
  intros Hr. assert (good w) as HG by (eapply pub_run_ok; [|exact Hr]; do 3 eexists; by apply world0_ok).
  pose proof HG as (ow & act & reg & H). split.
  - intros c sg Hc. destruct (busy _ _ _ _ _ (po_openers _ _ _ _ H) Hc eq_refl) as [_ Hn].
    destruct (busy_open _ _ (po_phase _ _ _ _ H) Hn) as [o Ho]. unfold register_subgroup. rewrite Ho. eauto.
  - intros Hl. split_and!; [| |intros op w'; by apply done_is_last].
    all: destruct ow as [c|]; destruct (po_phase _ _ _ _ H) as [Hd HP]; [|simpl in HP; tauto].
    all: destruct Hd as [d Hd]; rewrite Hd in HP; destruct d; simpl in HP; [tauto..|]; apply HP.
Qed.

(** [Done] overtakes two calls of [OpenSubgroup]: one has its header on the wire, the
    other's write is cancelled. *)
Definition sample_pub : Publication := newPublication 7 [] [LargestObjectParam 3 4].
Definition sample_pub_ops : list pub_op :=
  [PuOpen 1; PuOpen 2; PuHeader 1 (inl 10); PuDone 100 PublishDoneTrackEnded []; PuCancel 100; PuHeader 2 (inr (Errorf "reset")); PuRegister 1;
   PuLeave 1; PuLeave 2; PuDone 101 PublishDoneTrackEnded []; PuWaited 100; PuReset 100; PuWrite 100 true; PuOpen 3].

Lemma publication_done_exact_witness : exists w, pub_run sample_pub_ops (pub_world0 sample_pub) = Some w /\
  w_log w = [RqMsg (MPublishDone (MkPublishDone PublishDoneTrackEnded 1 [])); RqClose] /\ map_to_list (w_sgs w) = [(10, SgReset StreamResetCancelled)] /\
  w_openers w !! 2 = Some (OpReturned (Some ErrPublicationEnded)) /\ w_openers w !! 3 = Some (OpReturned (Some ErrPublicationEnded)) /\
  forall sg, w_sgs w !! sg <> Some SgOpen.
Proof.
  assert ((fun w => (w_log w, map_to_list (w_sgs w), w_openers w !! 2, w_openers w !! 3)) <$> pub_run sample_pub_ops (pub_world0 sample_pub) =
    Some ([RqMsg (MPublishDone (MkPublishDone PublishDoneTrackEnded 1 [])); RqClose], [(10, SgReset StreamResetCancelled)],
      Some (OpReturned (Some ErrPublicationEnded)), Some (OpReturned (Some ErrPublicationEnded)))) as Hr by (vm_compute; reflexivity).
  destruct (pub_run sample_pub_ops (pub_world0 sample_pub)) as [w|] eqn:E; [|discriminate Hr]. injection Hr as H1 H2 H3 H4.
  exists w. destruct (publication_done_exact 7 [] [LargestObjectParam 3 4] sample_pub_ops w E) as [_ Hx]. clear E.
  split_and!; try done. apply Hx. by rewrite H1.
Defined.
