(* ===== verification/Forwarding.v ===== *)
(** * Forwarding: PUBLISHes for a SUBSCRIBE_TRACKS

    [pkg/relay/handler_forward.go] and the parameters of [handler_publish.go]: the
    forwards of one track to the SUBSCRIBE_TRACKS subscribers of one session
    ([forwardTrack], [serveForwardedPublish]), beside the SUBSCRIBEs of that session for
    the same track ([beginSubscribe], [holdForward]) and whatever else happens to the
    track table.

    Every read of the entry or of a subscriber, every section under a lock and every
    call on the session is a step.  A forward works on the entry it was called with
    ([fw_te]): the one in the table, or, once that was removed, the object it was, which
    has no upstream and no downstream any more. *)

From stdpp Require Import gmap.
From S2P Require Import Prelude Codes Varint Wire KV Filter Params Properties RangeFilter Messages Objects Streams Cache.
From S2P Require Import Ledger Tokens Session Subs Track Discovery TrackTable Namespaces Candidates Broker Subscribing SubscribeHandler.

(** ** The PUBLISH *)

Definition notEchoedInPublish : list Z := [ParamAuthorizationToken; ParamForward; ParamGroupOrder; ParamLargestObject].

Definition publishParamsForSubscriber (tp : TracksParams) (e : TrackEntry) : Params :=
  List.filter (fun p => negb (bool_decide (p_Type p ∈ notEchoedInPublish)) &&
                 match CheckScope [p] ScopePublish with Ok _ => true | Err _ => false end) (tp_Params tp) ++
  (if tp_Forward tp then [] else [ForwardParam false]) ++
  [GroupOrderParam (if tp_GroupOrder tp =? 0 then DefaultGroupOrder (te_decoded e) else tp_GroupOrder tp)] ++
  (let '(largest, ok) := GetLargest (te_mark e) in if ok then [LargestObjectParam (Group largest) (Object largest)] else []).

Definition forwarded_publish (tp : TracksParams) (e : TrackEntry) (alias : Z) : Publish :=
  MkPublish 0 (fn_Namespace (te_FullName e)) (fn_Name (te_FullName e)) alias (publishParamsForSubscriber tp e)
    (if includeProperties (tp_Params tp) then te_Properties e else []).

(** The setters [serveForwardedPublish] calls on the new subscription, in order. *)
Definition forwarded_sets (maxFilterRanges : Z) (m : Publish) (ps : Params) (d : DownstreamSub) : list sub_param :=
  (install_sets maxFilterRanges ps d).1 ++ param_set (pub_Parameters m) ParamGroupOrder (fun p => PGroupOrder (p_Byte p)).

(** ** Forwards *)

(** Where a call of [forwardTrack] is, by what it does next. *)
Inductive fphase : Type :=
| FGoing | FPrefix | FFilter | FUp (tp : TracksParams) | FHold (tp : TracksParams) | FEpoch (tp : TracksParams)
| FClaim (tp : TracksParams) (epoch : Z) | FCheck (tp : TracksParams) (epoch : Z) | FBuild (tp : TracksParams) (epoch : Z)
| FOpen (tp : TracksParams) (epoch : Z) (m : Publish) | FSkip (epoch : Z) | FNew (tp : TracksParams) (m : Publish)
| FSet (id : Z) (sets : list sub_param) | FAdd (id : Z) | FRegistered (id : Z) (added : bool) | FServing (id : Z) | FReleasing | FReturned | FHeld.

(** [fw_seen]: the SUBSCRIBEs begun when it called [holdForward]; [fw_over]: those of
    them that had ended. *)
Record forward : Type := MkFwd { fw_sub : Z; fw_te : option TrackEntry; fw_seen : gset Z; fw_over : gset Z; fw_phase : fphase }.

(** A SUBSCRIBE of the session for the track, with its subscription: in flight, its
    downstream registered, ended with the subscribers whose forwards it is to offer
    again, over.  [offered]: the forwards it called for them; [dropped]: the subscribers
    it left alone, the track having no established upstream. *)
Inductive sbphase : Type :=
| SbBegun (id : Z) | SbAdded (id : Z) | SbEnded (id : Z) (held : list Z) | SbOffering (id : Z) (held offered : list Z)
| SbOver (id : Z) (dropped offered : list Z).

Definition settled (ph : sbphase) : bool := match ph with SbBegun _ | SbAdded _ => false | _ => true end.

(** [f_inflight]: the count and the held forwards of [inflightSubscribe]; [f_published]:
    the PUBLISHes sent, by subscriber; [f_stale]: whether a forward checked for a
    downstream on an entry that was no longer in the table; [f_ids]: whose subscription
    an ID is. *)
Record FwdWorld (D : Type) : Type := MkFW {
  f_r : TrackRegistry D; f_sess : Session; f_subs : gmap Z SubscriberEntry; f_inflight : option (Z * list Z);
  f_fwds : gmap Z forward; f_sbs : gmap Z sbphase; f_published : list (Z * Publish); f_stale : bool; f_ids : gmap Z (Z + Z) }.
Arguments MkFW {D} _ _ _ _ _ _ _ _ _.
Arguments f_r {D} _. Arguments f_sess {D} _. Arguments f_subs {D} _. Arguments f_inflight {D} _. Arguments f_fwds {D} _.
Arguments f_sbs {D} _. Arguments f_published {D} _. Arguments f_stale {D} _. Arguments f_ids {D} _.

Inductive open_result : Type := OpenFailed (credit : bool) | OpenWriteFailed | Opened.

Inductive fwd_op : Type :=
| FwCall (c s : Z) | FwGoing (c : Z) (going : bool) | FwPrefix (c : Z) | FwFilter (c : Z) | FwUp (c : Z) | FwHold (c : Z)
| FwEpoch (c : Z) | FwClaim (c : Z) | FwCheck (c : Z) | FwBuild (c : Z) | FwOpen (c : Z) (res : open_result) | FwSkip (c now : Z)
| FwNew (c id : Z) | FwSet (c : Z) | FwAdd (c : Z) | FwRegistered (c : Z) | FwRelease (c : Z)
| SbBegin (q id alias : Z) | SbAdd (q : Z) | SbEnd (q : Z) | SbLook (q : Z) | SbOffer (q c : Z)
| SuPrefix (s : Z) (prefix : TrackNamespace) | SuParams (s : Z) (tp : option TracksParams) | SuClose (s : Z) | SuWriter (s : Z) (o : Outbox).

Section Forward.
Context {D : Type} `{!Advertiser D}.
Context (sess : Z) (name : FullTrackName) (maxFilterRanges : Z).
Implicit Types (r : TrackRegistry D) (w : FwdWorld D).

Abbreviation K := (fn_Key name).

Definition HasDownstreamOn r (e : TrackEntry) : bool :=
  existsb (fun x => (dr_Session x =? sess) && negb (match r_subs r !! dr_ID x with Some s => IsTerminated (d_sub (sh_d s)) | None => false end))
    (te_Downstream e).

(** The entry a forward reads. *)
Definition the_entry r (f : forward) : TrackEntry :=
  match fw_te f with Some e => e | None => default (new_entry name r) (r_tracks r !! K) end.

(** The table changes: a forward whose entry leaves it keeps the object. *)
Definition unlisted (e : TrackEntry) : TrackEntry := with_Downstream [] (te_gen e) (with_Upstream [] e).
Definition fw_after r r' (f : forward) : forward :=
  match fw_te f, r_tracks r' !! K with
  | None, None => MkFwd (fw_sub f) (Some (unlisted (the_entry r f))) (fw_seen f) (fw_over f) (fw_phase f)
  | _, _ => f
  end.
Definition set_r r' w : FwdWorld D :=
  MkFW r' (f_sess w) (f_subs w) (f_inflight w) (fw_after (f_r w) r' <$> f_fwds w) (f_sbs w) (f_published w) (f_stale w) (f_ids w).

Definition set_f (c : Z) (f : forward) w : FwdWorld D :=
  MkFW (f_r w) (f_sess w) (f_subs w) (f_inflight w) (<[c := f]> (f_fwds w)) (f_sbs w) (f_published w) (f_stale w) (f_ids w).
Definition at_phase (c : Z) (f : forward) (ph : fphase) w : FwdWorld D := set_f c (MkFwd (fw_sub f) (fw_te f) (fw_seen f) (fw_over f) ph) w.
Definition set_sub (s : Z) (E : SubscriberEntry) w : FwdWorld D :=
  MkFW (f_r w) (f_sess w) (<[s := E]> (f_subs w)) (f_inflight w) (f_fwds w) (f_sbs w) (f_published w) (f_stale w) (f_ids w).
Definition set_sb (q : Z) (ph : sbphase) (fl : option (Z * list Z)) w : FwdWorld D :=
  MkFW (f_r w) (f_sess w) (f_subs w) fl (f_fwds w) (<[q := ph]> (f_sbs w)) (f_published w) (f_stale w) (f_ids w).
Definition set_sess (s : Session) w : FwdWorld D :=
  MkFW (f_r w) s (f_subs w) (f_inflight w) (f_fwds w) (f_sbs w) (f_published w) (f_stale w) (f_ids w).
Definition set_id (id : Z) (o : Z + Z) w : FwdWorld D :=
  MkFW (f_r w) (f_sess w) (f_subs w) (f_inflight w) (f_fwds w) (f_sbs w) (f_published w) (f_stale w) (<[id := o]> (f_ids w)).

(** The SUBSCRIBEs that have ended. *)
Definition ended_now (sbs : gmap Z sbphase) : gset Z := dom (filter (fun x => settled x.2 = true) sbs).

(** [holdForward]: whether the forward is held back, and the table after. *)
Definition holdForward (s : Z) (fl : option (Z * list Z)) : bool * option (Z * list Z) :=
  match fl with None => (false, None) | Some (n, held) => (true, Some (n, if bool_decide (s ∈ held) then held else held ++ [s])) end.

(** [beginSubscribe], and the section of the [end] it returns. *)
Definition beginSubscribe (fl : option (Z * list Z)) : option (Z * list Z) :=
  match fl with None => Some (1, []) | Some (n, held) => Some (n + 1, held) end.
Definition endSubscribe (fl : option (Z * list Z)) : list Z * option (Z * list Z) :=
  match fl with None => ([], None) | Some (n, held) => if n - 1 =? 0 then (held, None) else ([], Some (n - 1, held)) end.

(** [OpenPublish]: the Request ID is allocated once the stream is open. *)
Definition open_publish (c : Z) (f : forward) (tp : TracksParams) (epoch : Z) (m : Publish) (res : open_result) w : FwdWorld D :=
  match res with
  | OpenFailed true => at_phase c f FReleasing w
  | OpenFailed false => at_phase c f (FSkip epoch) w
  | OpenWriteFailed => at_phase c f FReleasing (set_sess (AllocRequestID (f_sess w)).2 w)
  | Opened =>
      let '(rid, s) := AllocRequestID (f_sess w) in
      let m := MkPublish rid (pub_Namespace m) (pub_Name m) (pub_TrackAlias m) (pub_Parameters m) (pub_TrackProperties m) in
      let w := at_phase c f (FNew tp m) (set_sess s w) in
      MkFW (f_r w) (f_sess w) (f_subs w) (f_inflight w) (f_fwds w) (f_sbs w) (f_published w ++ [(fw_sub f, m)]) (f_stale w) (f_ids w)
  end.

(** [emitPublishSkipped]. *)
Definition emitPublishSkipped (now : Z) (epoch : Z) (E : SubscriberEntry) : SubscriberEntry :=
  if negb (HasPrefix (fn_Namespace name) (se_prefix E)) then E
  else
    let E := enqueue now (MPublishSkipped (MkPublishSkipped (suffixAfter (fn_Namespace name) (se_prefix E)) (fn_Name name))) E in
    set_fwd (NoteSkipped K epoch (se_fwd E)) E.

Definition call_forward (c s : Z) w : option (FwdWorld D) :=
  match f_fwds w !! c, f_subs w !! s, r_tracks (f_r w) !! K with
  | None, Some _, Some _ => Some (set_f c (MkFwd s None ∅ ∅ FGoing) w)
  | _, _, _ => None
  end.

(** The next step of a forward [f] of the subscriber [E]. *)
Definition forward_step (op : fwd_op) (c : Z) (f : forward) (E : SubscriberEntry) w : option (FwdWorld D) :=
  let r := f_r w in
  let e := the_entry r f in
  match op, fw_phase f with
  | FwGoing _ going, FGoing => Some (at_phase c f (if (going : bool) then FReturned else FPrefix) w)
  | FwPrefix _, FPrefix => Some (at_phase c f (if HasPrefix (fn_Namespace name) (se_prefix E) then FFilter else FReturned) w)
  | FwFilter _, FFilter =>
      let tp := se_tracks E in
      Some (at_phase c f (if MatchesTrack (tp_RangeFilters tp) (te_Properties e) then FUp tp else FReturned) w)
  | FwUp _, FUp tp => Some (at_phase c f (if HasUpstreamOn sess e then FReturned else FHold tp) w)
  | FwHold _, FHold tp =>
      let '(held, fl) := holdForward (fw_sub f) (f_inflight w) in
      let w := MkFW r (f_sess w) (f_subs w) fl (f_fwds w) (f_sbs w) (f_published w) (f_stale w) (f_ids w) in
      Some (set_f c (MkFwd (fw_sub f) (fw_te f) (dom (f_sbs w)) (ended_now (f_sbs w)) (if (held : bool) then FHeld else FEpoch tp)) w)
  | FwEpoch _, FEpoch tp => Some (at_phase c f (FClaim tp (te_epoch e)) w)
  | FwClaim _, FClaim tp epoch =>
      let '(ok, F) := ClaimForward K epoch (se_fwd E) in
      Some (at_phase c f (if (ok : bool) then FCheck tp epoch else FReturned) (set_sub (fw_sub f) (set_fwd F E) w))
  | FwCheck _, FCheck tp epoch =>
      let w := MkFW r (f_sess w) (f_subs w) (f_inflight w) (f_fwds w) (f_sbs w) (f_published w)
                 (f_stale w || bool_decide (is_Some (fw_te f))) (f_ids w) in
      Some (at_phase c f (if HasDownstreamOn r e then FReleasing else FBuild tp epoch) w)
  | FwBuild _, FBuild tp epoch =>
      let '(alias, s) := AllocOutboundTrackAlias (f_sess w) in
      Some (at_phase c f (FOpen tp epoch (forwarded_publish tp e alias)) (set_sess s w))
  | FwOpen _ res, FOpen tp epoch m => Some (open_publish c f tp epoch m res w)
  | FwSkip _ now, FSkip epoch => Some (at_phase c f FReleasing (set_sub (fw_sub f) (emitPublishSkipped now epoch E) w))
  | FwNew _ id, FNew tp m =>
      match r_subs r !! id with
      | None =>
          let w := set_r (set_subs r (<[id := sub_init true id (pub_TrackAlias m)]> (r_subs r))) w in
          Some (at_phase c f (FSet id (forwarded_sets maxFilterRanges m (tp_Params tp) (sh_d (sub_init true id (pub_TrackAlias m)))))
                  (set_id id (inl c) w))
      | Some _ => None
      end
  | FwSet _, FSet id [] => Some (at_phase c f (FAdd id) w)
  | FwSet _, FSet id (p :: sets) =>
      match r_subs r !! id with
      | Some s =>
          let w := set_r (set_subs r (<[id := on_d (set_param p) s]> (r_subs r))) w in
          Some (at_phase c f (FSet id sets) w)
      | None => None
      end
  | FwAdd _, FAdd id =>
      let '(added, r') := AddDownstreamSnapshotLargest name (MkDownRef id sess) r in
      Some (at_phase c f (FRegistered id (bool_decide (is_Some added))) (set_r r' w))
  | FwRegistered _, FRegistered id added =>
      Some (at_phase c f (if (added : bool) then FServing id else FReturned) (set_sub (fw_sub f) (set_fwd (ReleaseForward K (se_fwd E)) E) w))
  | FwRelease _, FReleasing => Some (at_phase c f FReturned (set_sub (fw_sub f) (set_fwd (ReleaseForward K (se_fwd E)) E) w))
  | _, _ => None
  end.

(** The entry [Get] finds, for the forwards that were held. *)
Definition sb_step (op : fwd_op) (q : Z) (ph : option sbphase) w : option (FwdWorld D) :=
  let r := f_r w in
  match op, ph with
  | SbBegin _ id alias, None =>
      match r_subs r !! id with
      | None =>
          let w := set_r (set_subs r (<[id := sub_init false id alias]> (r_subs r))) w in
          Some (set_id id (inr q) (set_sb q (SbBegun id) (beginSubscribe (f_inflight w)) w))
      | Some _ => None
      end
  | SbAdd _, Some (SbBegun id) =>
      let '(added, r') := AddDownstreamSnapshotLargest name (MkDownRef id sess) r in
      Some (set_sb q (if bool_decide (is_Some added) then SbAdded id else SbBegun id) (f_inflight w) (set_r r' w))
  | SbEnd _, Some (SbBegun id) | SbEnd _, Some (SbAdded id) =>
      let '(held, fl) := endSubscribe (f_inflight w) in Some (set_sb q (SbEnded id held) fl w)
  | SbLook _, Some (SbEnded id held) =>
      Some (set_sb q (if negb (len held =? 0) && hasEstablishedUpstream (r_tracks r !! K) then SbOffering id held [] else SbOver id held []) (f_inflight w) w)
  | SbOffer _ c, Some (SbOffering id (s :: held) offered) =>
      call_forward c s (set_sb q (match held with [] => SbOver id [] (offered ++ [c]) | _ => SbOffering id held (offered ++ [c]) end) (f_inflight w) w)
  | _, _ => None
  end.

(** The SUBSCRIBE_TRACKS request is updated or ends, and its writer runs. *)
Definition su_step (op : fwd_op) (E : SubscriberEntry) : SubscriberEntry :=
  match op with
  | SuPrefix _ prefix => set_view E prefix (se_announced E) (se_out E)
  | SuParams _ tp => SetTracksParams tp E
  | SuClose _ => sub_close E
  | SuWriter _ o => set_view E (se_prefix E) (se_announced E) o
  | _ => E
  end.

Definition fwd_step (op : fwd_op) w : option (FwdWorld D) :=
  match op with
  | FwCall c s => call_forward c s w
  | FwGoing c _ | FwPrefix c | FwFilter c | FwUp c | FwHold c | FwEpoch c | FwClaim c | FwCheck c | FwBuild c | FwOpen c _ | FwSkip c _
  | FwNew c _ | FwSet c | FwAdd c | FwRegistered c | FwRelease c =>
      match f_fwds w !! c with
      | Some f => match f_subs w !! fw_sub f with Some E => forward_step op c f E w | None => None end
      | None => None
      end
  | SbBegin q _ _ | SbAdd q | SbEnd q | SbLook q | SbOffer q _ => sb_step op q (f_sbs w !! q) w
  | SuPrefix s _ | SuParams s _ | SuClose s | SuWriter s _ =>
      match f_subs w !! s with Some E => Some (set_sub s (su_step op E) w) | None => None end
  end.

Fixpoint fwd_run (ops : list fwd_op) w : option (FwdWorld D) :=
  match ops with [] => Some w | op :: ops => fwd_step op w ≫= fwd_run ops end.

Definition downs r : list DownRef := match r_tracks r !! K with Some e => te_Downstream e | None => [] end.

(** A step of this session's forwards and SUBSCRIBEs, or anything else that happens to
    the table: a downstream of this session is registered by the former only. *)
Inductive fstep w : FwdWorld D -> Prop :=
| fs_op op w' : fwd_step op w = Some w' -> fstep w w'
| fs_env r' : reg_step (f_r w) r' -> (forall id, MkDownRef id sess ∈ downs r' -> MkDownRef id sess ∈ downs (f_r w)) -> fstep w (set_r r' w).

Definition fwd_world0 r (s : Session) (subs : gmap Z SubscriberEntry) : FwdWorld D := MkFW r s subs None ∅ ∅ [] false ∅.

(** ** What holds in every state *)

Definition claims (ph : fphase) : bool :=
  match ph with
  | FCheck _ _ | FBuild _ _ | FOpen _ _ _ | FSkip _ | FNew _ _ | FSet _ _ | FAdd _ | FRegistered _ _ | FReleasing => true
  | _ => false
  end.
(** Past the check for a downstream, its own not registered yet. *)
Definition checked (ph : fphase) : bool :=
  match ph with FBuild _ _ | FOpen _ _ _ | FNew _ _ | FSet _ _ | FAdd _ => true | _ => false end.
Definition own_id (ph : fphase) : option Z :=
  match ph with FSet id _ | FAdd id | FRegistered id _ | FServing id => Some id | _ => None end.
Definition reg_id (ph : fphase) : option Z := match ph with FRegistered id true | FServing id => Some id | _ => None end.
Definition passed (ph : fphase) : bool := match ph with FEpoch _ | FClaim _ _ | FCheck _ _ => true | _ => checked ph || bool_decide (is_Some (reg_id ph)) end.
Definition sent (ph : fphase) : bool := checked ph || bool_decide (is_Some (reg_id ph)).

Definition sb_id (ph : sbphase) : Z := match ph with SbBegun id | SbAdded id | SbEnded id _ | SbOffering id _ _ | SbOver id _ _ => id end.
Definition ended_sub r (id : Z) : Prop := exists s, r_subs r !! id = Some s /\ d_state (sh_d s) = SubTerminated.
(** A downstream of this session, registered on the track and not terminated. *)
Definition alive r (id : Z) : Prop := MkDownRef id sess ∈ downs r /\ ~ ended_sub r id.

Definition claimed (w : FwdWorld D) (s : Z) : bool := match f_subs w !! s with Some E => bool_decide (K ∈ fw_forwarding (se_fwd E)) | None => false end.

(** A subscriber's claim on the track is held by one forward in progress. *)
Definition claims_ok w : Prop :=
  (forall s, claimed w s = true <-> exists c f, f_fwds w !! c = Some f /\ fw_sub f = s /\ claims (fw_phase f) = true) /\
  forall c c' f f', f_fwds w !! c = Some f -> f_fwds w !! c' = Some f' -> claims (fw_phase f) = true -> claims (fw_phase f') = true ->
    fw_sub f = fw_sub f' -> c = c'.

(** [U]: the SUBSCRIBEs in flight. *)
Record fw_inv w (U : gset Z) : Prop := {
  fi_tab : tab_inv (f_r w);
  fi_live c f : f_fwds w !! c = Some f -> fw_te f = None -> is_Some (r_tracks (f_r w) !! K);
  fi_sub c f : f_fwds w !! c = Some f -> is_Some (f_subs w !! fw_sub f);
  fi_claims : claims_ok w;
  fi_ids c f id : f_fwds w !! c = Some f -> own_id (fw_phase f) = Some id -> f_ids w !! id = Some (inl c);
  fi_sids q ph : f_sbs w !! q = Some ph -> f_ids w !! sb_id ph = Some (inr q);
  fi_known id o : f_ids w !! id = Some o -> is_Some (r_subs (f_r w) !! id);
  fi_one c c' f f' id : f_stale w = false -> f_fwds w !! c = Some f -> f_fwds w !! c' = Some f' -> checked (fw_phase f) = true ->
    reg_id (fw_phase f') = Some id -> fw_sub f = fw_sub f' -> ~ alive (f_r w) id;
  fi_two c c' f f' id id' : f_stale w = false -> f_fwds w !! c = Some f -> f_fwds w !! c' = Some f' -> reg_id (fw_phase f) = Some id ->
    reg_id (fw_phase f') = Some id' -> fw_sub f = fw_sub f' -> alive (f_r w) id -> alive (f_r w) id' -> c = c';
  fi_seen c f q : f_fwds w !! c = Some f -> passed (fw_phase f) = true -> q ∈ fw_seen f -> exists ph, f_sbs w !! q = Some ph /\ settled ph = true /\
    (f_stale w = false -> sent (fw_phase f) = true -> ~ alive (f_r w) (sb_id ph));
  fi_flight : match f_inflight w with None => U = ∅ | Some (n, _) => n = Z.of_nat (base.size U) /\ 0 < n end;
  fi_U q : q ∈ U <-> exists ph, f_sbs w !! q = Some ph /\ settled ph = false }.

Context `{!AdvertiserLaws D}.

Lemma subs_after r r' id s : reg_step r r' -> r_subs r !! id = Some s ->
  exists s', r_subs r' !! id = Some s' /\ (d_state (sh_d s) = SubTerminated -> d_state (sh_d s') = SubTerminated).
Proof.
  intros Hr Hs. assert (r_subs r' = r_subs r -> exists s', r_subs r' !! id = Some s' /\ (d_state (sh_d s) = SubTerminated -> d_state (sh_d s') = SubTerminated)) as Hsame by (intros ->; eauto).
  destruct Hr as [nm|nm|nm sub props|id' pub al Hn|nm sub Hd|nm i|nm i|nm i|se it Hit|i|id' s0 s' o Hs0 Ho|k mk c|i o|se k|se k|ty se k|ty se k|k fr];
    try (apply Hsame; done).
  - apply Hsame. unfold GetOrCreateNew. destruct (r_tracks r !! fn_Key nm); done.
  - apply Hsame. unfold DeleteIfUnused. repeat case_match; done.
  - apply Hsame. unfold AddUpstream. simpl. by destruct (len _ =? 0).
  - simpl. rewrite lookup_insert_ne by congruence. eauto.
  - apply Hsame. unfold AddDownstreamSnapshotLargest. repeat case_match; done.
  - apply Hsame. unfold RemoveUpstream, settle_entry, notify. cbv zeta. repeat case_match; done.
  - apply Hsame. unfold RemoveDownstream, settle_entry. cbv zeta. repeat case_match; simplify_eq; done.
  - apply Hsame. unfold ReleaseIfUnsubscribed. cbv zeta. repeat case_match; done.
  - apply Hsame. clear. unfold RemoveSession. revert r. induction it as [|k it IH]; intros r; simpl; [done|]. rewrite IH. unfold purge_step, notify. repeat case_match; done.
  - unfold run_notify. destruct (r_notify r !! i) as [[[i' code] reason]|]; [|eauto]. simpl. destruct (r_subs r !! i') as [s0|] eqn:E0; [|simpl; eauto].
    simpl. destruct (decide (i' = id)) as [->|]; [|rewrite lookup_insert_ne by done; eauto]. rewrite lookup_insert_eq. eexists. split; [done|].
    intros _. apply terminate_terminates.
  - simpl. destruct (decide (id' = id)) as [->|]; [|rewrite lookup_insert_ne by done; eauto]. rewrite lookup_insert_eq. eexists. split; [done|].
    intros. eapply step_keeps_terminated; [done|]. congruence.
  - apply Hsame. unfold touch_entry. by case_match.
  - apply Hsame. unfold ClaimUpstream. repeat case_match; done.
Qed.

Lemma alive_before r r' : reg_step r r' -> (forall id, MkDownRef id sess ∈ downs r' -> MkDownRef id sess ∈ downs r) -> forall id, alive r' id -> alive r id.
Proof.
  intros Hr Hg id [Hi Hn]. split; [by apply Hg|]. intros (s & Hs & Ht). apply Hn. destruct (subs_after _ _ _ _ Hr Hs) as (s' & ? & ?). exists s'. auto.
Qed.

Lemma after_phase r r' f : fw_phase (fw_after r r' f) = fw_phase f /\ fw_sub (fw_after r r' f) = fw_sub f /\ fw_seen (fw_after r r' f) = fw_seen f.
Proof. unfold fw_after. repeat case_match; done. Qed.

(** Anything happens to the table. *)
Lemma inv_reg w U r' : fw_inv w U -> tab_inv r' -> (forall id, is_Some (r_subs (f_r w) !! id) -> is_Some (r_subs r' !! id)) ->
  (forall id, alive r' id -> alive (f_r w) id) -> fw_inv (set_r r' w) U.
Proof.
  intros H Ht Hs Ha. assert (forall c f', f_fwds (set_r r' w) !! c = Some f' -> exists f, f_fwds w !! c = Some f /\ f' = fw_after (f_r w) r' f) as Hf.
  { intros c f'. simpl. rewrite lookup_fmap_Some. naive_solver. }
  split; try done.
  - intros c f' (f & Hc & ->)%Hf. unfold fw_after. simpl. destruct (fw_te f) eqn:Et; [congruence|]. destruct (r_tracks r' !! K) eqn:Ek; [by eexists|]. done.
  - intros c f' (f & Hc & ->)%Hf. destruct (after_phase (f_r w) r' f) as (_ & -> & _). by eapply (fi_sub _ _ H).
  - destruct (fi_claims _ _ H) as [Hcl Hun]. split.
    + intros s. rewrite (Hcl s : claimed (set_r r' w) s = true <-> _). split.
      * intros (c & f & Hc & Es & Hx). exists c, (fw_after (f_r w) r' f). simpl. rewrite lookup_fmap, Hc. destruct (after_phase (f_r w) r' f) as (-> & -> & _). done.
      * intros (c & f' & (f & Hc & ->)%Hf & Hx). destruct (after_phase (f_r w) r' f) as (Ep & Es & _). rewrite Ep, Es in Hx. eauto.
    + intros c c' f1 f2 (f & Hc & ->)%Hf (f' & Hc' & ->)%Hf. destruct (after_phase (f_r w) r' f) as (-> & -> & _), (after_phase (f_r w) r' f') as (-> & -> & _).
      by apply Hun.
  - intros c f1 id (f & Hc & ->)%Hf. destruct (after_phase (f_r w) r' f) as (-> & _ & _). by apply (fi_ids _ _ H).
  - intros q ph. apply (fi_sids _ _ H).
  - intros id o Hid. apply Hs. by eapply (fi_known _ _ H).
  - intros c c' f1 f2 id Hst (f & Hc & ->)%Hf (f' & Hc' & ->)%Hf. destruct (after_phase (f_r w) r' f) as (-> & -> & _), (after_phase (f_r w) r' f') as (-> & -> & _).
    intros ? ? ? ?%Ha. by eapply (fi_one _ _ H c c').
  - intros c c' f1 f2 id id' Hst (f & Hc & ->)%Hf (f' & Hc' & ->)%Hf.
    destruct (after_phase (f_r w) r' f) as (-> & -> & _), (after_phase (f_r w) r' f') as (-> & -> & _). intros ? ? ? ?%Ha ?%Ha. by eapply (fi_two _ _ H c c').
  - intros c f1 q (f & Hc & ->)%Hf. destruct (after_phase (f_r w) r' f) as (-> & _ & ->). intros Hp Hq.
    destruct (fi_seen _ _ H c f q Hc Hp Hq) as (ph & ? & ? & Hx). exists ph. split_and!; [done..|]. intros ? ? ?%Ha. by apply Hx.
  - apply (fi_flight _ _ H).
  - apply (fi_U _ _ H).
Qed.

(** A forward keeps its claim, or its lack of one; takes one; gives it up. *)
Lemma claims_same w w' c f f' : claims_ok w -> f_fwds w !! c = Some f -> f_fwds w' = <[c := f']> (f_fwds w) -> fw_sub f' = fw_sub f ->
  claims (fw_phase f') = claims (fw_phase f) -> (forall s, claimed w' s = claimed w s) -> claims_ok w'.
Proof.
  intros [Hcl Hun] Hc Ef Es Ec Hs.
  assert (forall c1 s, (exists f1, f_fwds w' !! c1 = Some f1 /\ fw_sub f1 = s /\ claims (fw_phase f1) = true) <->
                       (exists f1, f_fwds w !! c1 = Some f1 /\ fw_sub f1 = s /\ claims (fw_phase f1) = true)) as Hsame.
  { intros c1 s. rewrite Ef. destruct (decide (c = c1)) as [<-|]; [rewrite lookup_insert_eq, Hc|by rewrite lookup_insert_ne].
    split; intros (f1 & [= <-] & Hs1 & Hc1); eexists; (split; [done|]); rewrite ?Es, ?Ec in *; done. }
  split.
  - intros s. rewrite Hs, Hcl. by setoid_rewrite Hsame.
  - intros c1 c2 f1 f2 H1 H2 Hc1 Hc2 Heq. destruct (proj1 (Hsame c1 (fw_sub f1))) as (f3 & ? & ? & ?); [eauto|].
    destruct (proj1 (Hsame c2 (fw_sub f1))) as (f4 & ? & ? & ?); [eauto|]. apply (Hun c1 c2 f3 f4); congruence.
Qed.

Lemma claims_taken w w' c f f' : claims_ok w -> f_fwds w !! c = Some f -> f_fwds w' = <[c := f']> (f_fwds w) -> fw_sub f' = fw_sub f ->
  claims (fw_phase f) = false -> claims (fw_phase f') = true -> claimed w (fw_sub f) = false ->
  (forall s, claimed w' s = if decide (s = fw_sub f) then true else claimed w s) -> claims_ok w'.
Proof.
  intros [Hcl Hun] Hc Ef Es Ec Ec' Hn Hs.
  assert (forall c1 f1, f_fwds w !! c1 = Some f1 -> claims (fw_phase f1) = true -> fw_sub f1 <> fw_sub f) as Hno.
  { intros c1 f1 H1 Hc1 Heq. apply not_true_iff_false in Hn. apply Hn, Hcl. eauto. }
  split.
  - intros s. rewrite Hs, Ef. case_decide as E.
    + split; [|done]. intros _. exists c, f'. rewrite lookup_insert_eq. by rewrite Es.
    + rewrite Hcl. split; intros (c1 & f1 & H1 & Hs1 & Hc1); exists c1, f1.
      * rewrite lookup_insert_ne; [done|]. intros <-. congruence.
      * destruct (decide (c = c1)) as [<-|]; [rewrite lookup_insert_eq in H1; congruence|by rewrite lookup_insert_ne in H1].
  - rewrite Ef. intros c1 c2 f1 f2 H1 H2 Hc1 Hc2 Heq.
    destruct (decide (c = c1)) as [<-|]; [rewrite lookup_insert_eq in H1; injection H1 as <-|rewrite lookup_insert_ne in H1 by done];
      (destruct (decide (c = c2)) as [<-|]; [rewrite lookup_insert_eq in H2; injection H2 as <-|rewrite lookup_insert_ne in H2 by done]); [done|..].
    + destruct (Hno _ _ H2 Hc2). congruence.
    + destruct (Hno _ _ H1 Hc1). congruence.
    + by apply (Hun c1 c2 f1 f2).
Qed.

Lemma claims_given w w' c f f' : claims_ok w -> f_fwds w !! c = Some f -> f_fwds w' = <[c := f']> (f_fwds w) -> fw_sub f' = fw_sub f ->
  claims (fw_phase f) = true -> claims (fw_phase f') = false ->
  (forall s, claimed w' s = if decide (s = fw_sub f) then false else claimed w s) -> claims_ok w'.
Proof.
  intros [Hcl Hun] Hc Ef Es Ec Ec' Hs.
  assert (forall c1 f1, f_fwds w' !! c1 = Some f1 -> claims (fw_phase f1) = true -> f_fwds w !! c1 = Some f1 /\ fw_sub f1 <> fw_sub f) as Hne.
  { intros c1 f1. rewrite Ef. destruct (decide (c = c1)) as [<-|]; [rewrite lookup_insert_eq; congruence|]. rewrite lookup_insert_ne by done.
    intros H1 Hc1. split; [done|]. intros Heq. by destruct (Hun c1 c f1 f). }
  split.
  - intros s. rewrite Hs. case_decide as E.
    + split; [done|]. intros (c1 & f1 & H1 & Hs1 & Hc1). destruct (Hne _ _ H1 Hc1). congruence.
    + rewrite Hcl. split; intros (c1 & f1 & H1 & Hs1 & Hc1); exists c1, f1.
      * rewrite Ef, lookup_insert_ne; [done|]. intros <-. congruence.
      * by destruct (Hne _ _ H1 Hc1).
  - intros c1 c2 f1 f2 H1 H2 Hc1 Hc2. destruct (Hne _ _ H1 Hc1), (Hne _ _ H2 Hc2). by apply Hun.
Qed.

(** A forward goes on, its subscription and what it has checked unchanged. *)
Lemma inv_move w w' U c f ph : fw_inv w U -> f_fwds w !! c = Some f -> f_fwds w' = <[c := MkFwd (fw_sub f) (fw_te f) (fw_seen f) (fw_over f) ph]> (f_fwds w) ->
  f_r w' = f_r w -> claims_ok w' -> (forall s, is_Some (f_subs w' !! s) <-> is_Some (f_subs w !! s)) -> f_inflight w' = f_inflight w ->
  f_sbs w' = f_sbs w -> f_stale w' = f_stale w -> f_ids w' = f_ids w ->
  (checked ph = true -> checked (fw_phase f) = true \/ f_stale w = true \/ forall id, ~ alive (f_r w) id) -> reg_id ph = reg_id (fw_phase f) ->
  (forall id, own_id ph = Some id -> own_id (fw_phase f) = Some id \/ f_ids w !! id = Some (inl c)) ->
  (passed ph = true -> passed (fw_phase f) = true) -> fw_inv w' U.
Proof.
  intros H Hc Ef Er Hcl Ec Efl Es Est Ei Hch Hreg Hown Hpa. set (f' := MkFwd _ _ _ _ ph) in *.
  assert (forall c1 f1, f_fwds w' !! c1 = Some f1 -> exists f0, f_fwds w !! c1 = Some f0 /\ fw_sub f1 = fw_sub f0 /\ fw_te f1 = fw_te f0 /\ fw_seen f1 = fw_seen f0 /\
    (checked (fw_phase f1) = true -> checked (fw_phase f0) = true \/ f_stale w = true \/ forall id, ~ alive (f_r w) id) /\ reg_id (fw_phase f1) = reg_id (fw_phase f0) /\
    (forall id, own_id (fw_phase f1) = Some id -> own_id (fw_phase f0) = Some id \/ f_ids w !! id = Some (inl c1)) /\ (passed (fw_phase f1) = true -> passed (fw_phase f0) = true)) as Hf.
  { intros c1 f1. rewrite Ef. destruct (decide (c = c1)) as [<-|]; [rewrite lookup_insert_eq; intros [= <-]; exists f; by split_and!|].
    rewrite lookup_insert_ne by done. intros E. exists f1. split_and!; try done; by left. }
  split; rewrite ?Er, ?Est, ?Ei, ?Es, ?Efl; try apply H.
  - intros c1 f1 (f0 & H0 & _ & Et & _)%Hf. rewrite Et. by apply (fi_live _ _ H c1).
  - intros c1 f1 (f0 & H0 & -> & _)%Hf. apply Ec. by apply (fi_sub _ _ H c1).
  - done.
  - intros c1 f1 id (f0 & H0 & _ & _ & _ & _ & _ & Ho & _)%Hf Hid. destruct (Ho _ Hid); [|done]. by apply (fi_ids _ _ H c1 f0).
  - intros c1 c2 f1 f2 id Hst (f3 & H3 & E1 & _ & _ & Hk & _)%Hf (f4 & H4 & E3 & _ & _ & _ & Er4 & _)%Hf. rewrite E1, E3, Er4. intros [?|[?|Hno]]%Hk; [by eapply (fi_one _ _ H c1 c2)|congruence|]. intros _ _. apply Hno.
  - intros c1 c2 f1 f2 id id' Hst (f3 & H3 & E1 & _ & _ & _ & E2 & _)%Hf (f4 & H4 & E3 & _ & _ & _ & E4 & _)%Hf. rewrite E1, E2, E3, E4. by apply (fi_two _ _ H c1 c2).
  - intros c1 f1 q (f0 & H0 & _ & _ & -> & Hk & Hr & _ & Hp)%Hf Hpass Hq. destruct (fi_seen _ _ H c1 f0 q H0 (Hp Hpass) Hq) as (ph1 & ? & ? & Hx).
    exists ph1. split_and!; [done..|]. intros ? Hs. unfold sent in *. rewrite Hr in Hs. apply orb_true_iff in Hs as [[?|[?|Hno]]%Hk|Hs]; [|congruence|apply Hno|].
    all: apply Hx; [done|]; apply orb_true_iff; tauto.
Qed.

Lemma claimed_insert w w' s E : f_subs w' = <[s := E]> (f_subs w) ->
  forall s', claimed w' s' = if decide (s' = s) then bool_decide (K ∈ fw_forwarding (se_fwd E)) else claimed w s'.
Proof.
  intros Es s'. unfold claimed. rewrite Es. case_decide as Hs; [subst; by rewrite lookup_insert_eq|by rewrite lookup_insert_ne].
Qed.

Lemma subs_insert w w' s E : f_subs w' = <[s := E]> (f_subs w) -> is_Some (f_subs w !! s) -> forall s', is_Some (f_subs w' !! s') <-> is_Some (f_subs w !! s').
Proof.
  intros -> Hs s'. destruct (decide (s = s')) as [<-|]; [|by rewrite lookup_insert_ne]. rewrite lookup_insert_eq. split; [done|by eexists].
Qed.

Lemma inv_stale w U : fw_inv w U -> 
  fw_inv (MkFW (f_r w) (f_sess w) (f_subs w) (f_inflight w) (f_fwds w) (f_sbs w) (f_published w) true (f_ids w)) U.
Proof.
  intros H. split; try apply H; try done. simpl. intros c f q Hc Hp Hq. destruct (fi_seen _ _ H c f q Hc Hp Hq) as (ph & ? & ? & _). by exists ph.
Qed.

Lemma none_alive r e : r_tracks r !! K = Some e -> HasDownstreamOn r e = false -> forall id, ~ alive r id.
Proof.
  intros Ek Hd id [Hi Hn]. unfold downs in Hi. rewrite Ek in Hi. apply not_true_iff_false in Hd. apply Hd, existsb_exists.
  exists (MkDownRef id sess). rewrite <-list_elem_of_In. split; [done|]. simpl. rewrite Z.eqb_refl. simpl. apply negb_true_iff, not_true_iff_false. intros Ht.
  apply Hn. unfold ended_sub. destruct (r_subs r !! id) as [s|]; [|done]. exists s. split; [done|]. by apply bool_decide_eq_true in Ht.
Qed.

Lemma entry_here w U c f : fw_inv w U -> f_fwds w !! c = Some f -> fw_te f = None -> r_tracks (f_r w) !! K = Some (the_entry (f_r w) f).
Proof. intros H Hc Et. destruct (fi_live _ _ H c f Hc Et) as [e He]. unfold the_entry. rewrite Et, He. done. Qed.

Ltac keep_inv H Hc := eapply (inv_move _ _ _ _ _ _ H Hc); try done.

Lemma check_ok w U c f tp epoch : fw_inv w U -> f_fwds w !! c = Some f -> fw_phase f = FCheck tp epoch ->
  let w' := MkFW (f_r w) (f_sess w) (f_subs w) (f_inflight w) (f_fwds w) (f_sbs w) (f_published w) (f_stale w || bool_decide (is_Some (fw_te f))) (f_ids w) in
  fw_inv (at_phase c f (if HasDownstreamOn (f_r w) (the_entry (f_r w) f) then FReleasing else FBuild tp epoch) w') U.
Proof.
  intros H Hc Ep w'. assert (fw_inv w' U) as H'.
  { unfold w'. destruct (bool_decide _); [rewrite orb_true_r; by apply inv_stale|]. rewrite orb_false_r. by destruct w. }
  assert (f_fwds w' !! c = Some f) as Hc' by done.
  assert (claims_ok (at_phase c f (if HasDownstreamOn (f_r w) (the_entry (f_r w) f) then FReleasing else FBuild tp epoch) w')) as Hcl.
  { eapply claims_same; [apply H'|exact Hc'|done|done| |done]. rewrite Ep. by destruct (HasDownstreamOn _ _). }
  destruct (HasDownstreamOn _ _) eqn:Ed; keep_inv H' Hc'; rewrite ?Ep; try done.
  intros _. right. destruct (fw_te f) as [te|] eqn:Et; [left|right].
  - unfold w'. simpl. by rewrite orb_true_r.
  - eapply none_alive; [by eapply entry_here|done].
Qed.

Lemma take_claim w U c f tp epoch E ok F : fw_inv w U -> f_fwds w !! c = Some f -> fw_phase f = FClaim tp epoch -> f_subs w !! fw_sub f = Some E ->
  ClaimForward K epoch (se_fwd E) = (ok, F) ->
  fw_inv (at_phase c f (if ok then FCheck tp epoch else FReturned) (set_sub (fw_sub f) (set_fwd F E) w)) U.
Proof.
  intros H Hc Ep HE EF. set (w' := at_phase _ _ _ _). pose proof (claimed_insert w w' (fw_sub f) (set_fwd F E) eq_refl) as Hcl.
  assert (claimed w (fw_sub f) = bool_decide (K ∈ fw_forwarding (se_fwd E))) as Hw by (unfold claimed; by rewrite HE).
  assert (forall s, is_Some (f_subs w' !! s) <-> is_Some (f_subs w !! s)) as Hs by (by eapply subs_insert).
  unfold ClaimForward in EF. destruct (bool_decide (K ∈ _)) eqn:Ek; simpl in EF; [|destruct (fw_closed _); [|destruct (match _ with Some _ => _ | None => false end)]];
    injection EF as <- <-.
  1-3: assert (forall s, claimed w' s = claimed w s) as Hsame by (intros s; rewrite Hcl; destruct (decide (s = fw_sub f)) as [Hd|]; [rewrite Hd, Hw; apply Ek|done]);
    keep_inv H Hc; rewrite ?Ep; try done; eapply claims_same; [apply H|exact Hc|done|done|by rewrite Ep|done].
  keep_inv H Hc; rewrite ?Ep; try done.
  eapply claims_taken; [apply H|exact Hc|done|done|by rewrite Ep|done|by rewrite Hw|].
  intros s. rewrite Hcl. destruct (decide (s = fw_sub f)); [|done]. apply bool_decide_eq_true. simpl. set_solver.
Qed.

Lemma release_step w U c f ph E : fw_inv w U -> f_fwds w !! c = Some f -> f_subs w !! fw_sub f = Some E -> claims (fw_phase f) = true -> claims ph = false ->
  checked ph = false -> reg_id ph = reg_id (fw_phase f) -> (forall id, own_id ph = Some id -> own_id (fw_phase f) = Some id) -> (passed ph = true -> passed (fw_phase f) = true) ->
  fw_inv (at_phase c f ph (set_sub (fw_sub f) (set_fwd (ReleaseForward K (se_fwd E)) E) w)) U.
Proof.
  intros H Hc HE Hcl Hcl' Hch Hr Ho Hp. set (w' := at_phase _ _ _ _). pose proof (claimed_insert w w' (fw_sub f) (set_fwd (ReleaseForward K (se_fwd E)) E) eq_refl) as Hs.
  keep_inv H Hc; [| |congruence|auto].
  - eapply claims_given; [apply H|exact Hc|done|done|done|done|]. intros s. rewrite Hs. destruct (decide (s = fw_sub f)); [|done]. apply bool_decide_eq_false. simpl. set_solver.
  - by eapply subs_insert.
Qed.

Lemma reg_own ph id : reg_id ph = Some id -> own_id ph = Some id.
Proof. destruct ph as [| | | | | | | | | | | | | |id' []|id'| | |]; simpl; by intros [= <-]. Qed.

(** A forward of its own accord, or offered again. *)
Lemma call_ok w w' U c s : fw_inv w U -> call_forward c s w = Some w' -> fw_inv w' U.
Proof.
  intros H. unfold call_forward. destruct (f_fwds w !! c) eqn:Ec; [done|]. destruct (f_subs w !! s) as [E|] eqn:Es; [|done].
  destruct (r_tracks (f_r w) !! K) as [e|] eqn:Ek; [|done]. intros [= <-]. set (f0 := MkFwd s None ∅ ∅ FGoing).
  assert (forall c1 f1, <[c := f0]> (f_fwds w) !! c1 = Some f1 -> f1 = f0 \/ c1 <> c /\ f_fwds w !! c1 = Some f1) as Hf.
  { intros c1 f1. destruct (decide (c = c1)) as [<-|]; [rewrite lookup_insert_eq; intros [= <-]; by left|]. rewrite lookup_insert_ne by done. auto. }
  split; simpl; try apply H.
  - intros c1 f1 [->|[_ H1]]%Hf Ht; [by rewrite Ek|]. by apply (fi_live _ _ H c1 f1).
  - intros c1 f1 [->|[_ H1]]%Hf; [by exists E|]. by apply (fi_sub _ _ H c1).
  - destruct (fi_claims _ _ H) as [Hcl Hun]. split.
    + intros s'. rewrite (Hcl s' : claimed (set_f c f0 w) s' = true <-> _). split; intros (c1 & f1 & H1 & Hx); exists c1, f1.
      * simpl. rewrite lookup_insert_ne; [done|congruence].
      * destruct (Hf _ _ H1) as [->|[_ ?]]; [by destruct Hx as [_ [=]]|done].
    + intros c1 c2 f1 f2 [->|[_ H1]]%Hf [->|[_ H2]]%Hf; try done. by apply Hun.
  - intros c1 f1 id [->|[_ H1]]%Hf; [done|]. by apply (fi_ids _ _ H).
  - intros c1 c2 f1 f2 id Hst [->|[_ H1]]%Hf [->|[_ H2]]%Hf; try done. by apply (fi_one _ _ H c1 c2).
  - intros c1 c2 f1 f2 id id' Hst [->|[_ H1]]%Hf [->|[_ H2]]%Hf; try done. by apply (fi_two _ _ H c1 c2).
  - intros c1 f1 q [->|[_ H1]]%Hf; [done|]. by apply (fi_seen _ _ H c1).
Qed.

(** [holdForward]: nothing is in flight when it lets a forward pass. *)
Lemma hold_ok w U c f tp held fl : fw_inv w U -> f_fwds w !! c = Some f -> fw_phase f = FHold tp -> holdForward (fw_sub f) (f_inflight w) = (held, fl) ->
  fw_inv (set_f c (MkFwd (fw_sub f) (fw_te f) (dom (f_sbs w)) (ended_now (f_sbs w)) (if held then FHeld else FEpoch tp))
            (MkFW (f_r w) (f_sess w) (f_subs w) fl (f_fwds w) (f_sbs w) (f_published w) (f_stale w) (f_ids w))) U.
Proof.
  intros H Hc Ep Eh. set (f0 := MkFwd _ _ _ _ _). set (w' := set_f c f0 _).
  assert (forall c1 f1, f_fwds w' !! c1 = Some f1 -> (c1 = c /\ f1 = f0) \/ c1 <> c /\ f_fwds w !! c1 = Some f1) as Hf.
  { intros c1 f1. simpl. destruct (decide (c = c1)) as [<-|]; [rewrite lookup_insert_eq; intros [= <-]; by left|]. rewrite lookup_insert_ne by done. auto. }
  split; simpl; try apply H.
  - intros c1 f1 [[-> ->]|[_ H1]]%Hf Ht; [by apply (fi_live _ _ H c f)|]. by apply (fi_live _ _ H c1 f1).
  - intros c1 f1 [[-> ->]|[_ H1]]%Hf; [by apply (fi_sub _ _ H c f)|]. by apply (fi_sub _ _ H c1).
  - eapply claims_same; [apply H|exact Hc|done|done| |done]. rewrite Ep. by destruct held.
  - intros c1 f1 id [[-> ->]|[_ H1]]%Hf; [by destruct held|]. by apply (fi_ids _ _ H).
  - intros c1 c2 f1 f2 id Hst [[-> ->]|[_ H1]]%Hf [[-> ->]|[_ H2]]%Hf; try (by destruct held). by apply (fi_one _ _ H c1 c2).
  - intros c1 c2 f1 f2 id id' Hst [[-> ->]|[_ H1]]%Hf [[-> ->]|[_ H2]]%Hf; try (by destruct held). by apply (fi_two _ _ H c1 c2).
  - intros c1 f1 q [[-> ->]|[_ H1]]%Hf; [|by apply (fi_seen _ _ H c1)]. destruct held; [done|]. simpl. intros _ Hq.
    apply elem_of_dom in Hq as [ph Hph]. exists ph. split_and!; [done| |done]. destruct (settled ph) eqn:Es; [done|].
    assert (q ∈ U) as Hq by (apply (fi_U _ _ H); eauto). pose proof (fi_flight _ _ H) as Hfl. unfold holdForward in Eh.
    destruct (f_inflight w) as [[n l]|]; [done|]. set_solver.
  - pose proof (fi_flight _ _ H) as Hfl. unfold holdForward in Eh. destruct (f_inflight w) as [[n l]|]; injection Eh as <- <-; done.
Qed.

(** An ID is allocated. *)
Lemma inv_id w U id o : fw_inv w U -> f_ids w !! id = None -> is_Some (r_subs (f_r w) !! id) -> fw_inv (set_id id o w) U.
Proof.
  intros H Hn Hs. split; simpl; try apply H.
  - intros c f id' Hc Ho. pose proof (fi_ids _ _ H c f id' Hc Ho). rewrite lookup_insert_ne; [done|congruence].
  - intros q ph Hq. pose proof (fi_sids _ _ H q ph Hq). rewrite lookup_insert_ne; [done|congruence].
  - intros id' o'. destruct (decide (id = id')) as [<-|]; [done|]. rewrite lookup_insert_ne by done. apply (fi_known _ _ H).
Qed.

Lemma set_r_here w r' : is_Some (r_tracks r' !! K) -> set_r r' w =
  MkFW r' (f_sess w) (f_subs w) (f_inflight w) (f_fwds w) (f_sbs w) (f_published w) (f_stale w) (f_ids w).
Proof.
  intros [e He]. unfold set_r. f_equal. rewrite <-(map_fmap_id (f_fwds w)) at 2. apply map_fmap_ext. intros c f _. unfold fw_after. rewrite He. by destruct (fw_te f).
Qed.

(** A registry step that registers no downstream of this session. *)
Lemma inv_env w U r' : fw_inv w U -> reg_step (f_r w) r' -> (forall id, MkDownRef id sess ∈ downs r' -> MkDownRef id sess ∈ downs (f_r w)) -> fw_inv (set_r r' w) U.
Proof.
  intros H Hr Hd. apply inv_reg; [done|eapply reg_step_inv; [done|apply H]| |by apply alive_before].
  intros id [s Hs]. destruct (subs_after _ _ _ _ Hr Hs) as (s' & ? & _). by exists s'.
Qed.

(** The subscription [id], not yet registered, is. *)
Lemma inv_grow w U id r' : fw_inv w U -> is_Some (r_subs (f_r w) !! id) -> (AddDownstreamSnapshotLargest name (MkDownRef id sess) (f_r w)).2 = r' ->
  (forall c f, f_fwds w !! c = Some f -> reg_id (fw_phase f) <> Some id) -> (forall q ph, f_sbs w !! q = Some ph -> settled ph = true -> sb_id ph <> id) ->
  fw_inv (set_r r' w) U.
Proof.
  intros H Hs Er Hf Hq. assert (reg_step (f_r w) r') as Hr by (subst r'; by apply rs_add_down).
  assert (forall x, alive r' x -> alive (f_r w) x \/ x = id) as Ha.
  { intros x [Hx Hn]. destruct (decide (x = id)); [by right|left]. split.
    - subst r'. unfold AddDownstreamSnapshotLargest, downs in *. destruct (r_tracks (f_r w) !! K) as [e|] eqn:Ek; [|by simpl in Hx; rewrite Ek in Hx].
      destruct (len (te_Upstream e) =? 0); simpl in Hx; [by rewrite Ek in Hx|].
      rewrite (ti_keys _ _ _ _ _ (fi_tab _ _ H) _ _ Ek), lookup_insert_eq in Hx. simpl in Hx.
      apply elem_of_app in Hx as [?|Hx%list_elem_of_singleton]; [done|congruence].
    - intros (s & E & Ht). apply Hn. destruct (subs_after _ _ _ _ Hr E) as (s' & ? & ?). exists s'. auto. }
  destruct (r_tracks r' !! K) eqn:Ek.
  2: { apply inv_env; [done|done|]. unfold downs. rewrite Ek. intros x Hx. by apply not_elem_of_nil in Hx. }
  rewrite set_r_here by (by rewrite Ek). split; simpl; try apply H.
  - eapply reg_step_inv; [done|apply H].
  - intros. by rewrite Ek.
  - intros x o Hx. destruct (fi_known _ _ H x o Hx) as [s0 E]. destruct (subs_after _ _ _ _ Hr E) as (s' & ? & _). by exists s'.
  - intros c1 c2 f1 f2 x Hst H1 H2 Hch Hre Heq [Hal| ->]%Ha; [by eapply (fi_one _ _ H c1 c2)|by destruct (Hf c2 f2 H2)].
  - intros c1 c2 f1 f2 x x' Hst H1 H2 Hre Hre' Heq [Hal| ->]%Ha [Hal'| ->]%Ha; [by eapply (fi_two _ _ H c1 c2)|by destruct (Hf c2 f2 H2)|by destruct (Hf c1 f1 H1)..].
  - intros c1 f1 q H1 Hp Hi. destruct (fi_seen _ _ H c1 f1 q H1 Hp Hi) as (ph & E & Hset & Hx). exists ph. split_and!; [done..|].
    intros ? ? [?| Heq]%Ha; [by apply Hx|by eapply Hq].
Qed.

Lemma reg_phase_ok w U c f id : fw_inv w U -> f_fwds w !! c = Some f -> fw_phase f = FAdd id -> fw_inv (at_phase c f (FRegistered id true) w) U.
Proof.
  intros H Hc Ep. set (f0 := MkFwd (fw_sub f) (fw_te f) (fw_seen f) (fw_over f) (FRegistered id true)). set (w' := at_phase _ _ _ _).
  assert (forall c1 f1, f_fwds w' !! c1 = Some f1 -> (c1 = c /\ f1 = f0) \/ c1 <> c /\ f_fwds w !! c1 = Some f1) as Hf.
  { intros c1 f1. simpl. destruct (decide (c = c1)) as [<-|]; [rewrite lookup_insert_eq; intros [= <-]; by left|]. rewrite lookup_insert_ne by done. auto. }
  assert (claims_ok w') as Hcl' by (eapply claims_same; [apply H|exact Hc|done|done|by rewrite Ep|done]).
  destruct (fi_claims _ _ H) as [Hcl Hun]. split; simpl; try apply H; try done.
  - intros c1 f1 [[-> ->]|[_ H1]]%Hf Ht; [by apply (fi_live _ _ H c f)|]. by apply (fi_live _ _ H c1 f1).
  - intros c1 f1 [[-> ->]|[_ H1]]%Hf; [by apply (fi_sub _ _ H c f)|]. by apply (fi_sub _ _ H c1).
  - intros c1 f1 x [[-> ->]|[_ H1]]%Hf; [|by apply (fi_ids _ _ H)]. intros Hx. apply (fi_ids _ _ H c f); [done|]. by rewrite Ep.
  - intros c1 c2 f1 f2 x Hst [[-> ->]|[? H1]]%Hf [[-> ->]|[? H2]]%Hf Hch Hre Heq; try done; [|by apply (fi_one _ _ H c1 c2 f1 f2)].
    exfalso. assert (c1 = c); [|done]. eapply (Hun c1 c f1 f); try done; [by destruct (fw_phase f1)|by rewrite Ep].
  - intros c1 c2 f1 f2 x x' Hst [[-> ->]|[? H1]]%Hf [[-> ->]|[? H2]]%Hf Hre Hre' Heq Ha Ha'; try done; [exfalso..|by apply (fi_two _ _ H c1 c2 f1 f2 x x')].
    + by eapply (fi_one _ _ H c c2 f f2 x'); rewrite ?Ep.
    + by eapply (fi_one _ _ H c c1 f f1 x); rewrite ?Ep.
  - intros c1 f1 q [[-> ->]|[? H1]]%Hf Hp Hq; [|by apply (fi_seen _ _ H c1)].
    destruct (fi_seen _ _ H c f q Hc) as (ph & ? & ? & Hx); [by rewrite Ep|done|]. exists ph. split_and!; [done..|]. intros ? _. apply Hx; [done|]. by rewrite Ep.
Qed.

(** A SUBSCRIBE goes on. *)
Lemma inv_sb w U U' q ph ph' fl : fw_inv w U -> f_sbs w !! q = Some ph -> sb_id ph' = sb_id ph -> (settled ph = true -> settled ph' = true) ->
  match fl with None => U' = ∅ | Some (n, _) => n = Z.of_nat (base.size U') /\ 0 < n end ->
  (forall q', q' ∈ U' <-> if decide (q' = q) then settled ph' = false else q' ∈ U) -> fw_inv (set_sb q ph' fl w) U'.
Proof.
  intros H Hq Hid Hset Hfl HU. split; simpl; try apply H; try done.
  - intros q' ph1. destruct (decide (q = q')) as [<-|]; [rewrite lookup_insert_eq; intros [= <-]; rewrite Hid; by apply (fi_sids _ _ H)|].
    rewrite lookup_insert_ne by done. apply (fi_sids _ _ H).
  - intros c f q' Hc Hp Hq'. destruct (fi_seen _ _ H c f q' Hc Hp Hq') as (ph1 & E1 & Es & Hx). destruct (decide (q = q')) as [<-|].
    + exists ph'. rewrite lookup_insert_eq. assert (ph1 = ph) as -> by congruence. rewrite Hid. split_and!; auto.
    + exists ph1. by rewrite lookup_insert_ne.
  - intros q'. rewrite HU. case_decide as Hd.
    + subst. rewrite lookup_insert_eq. split; [eauto|intros (? & [= <-] & ?); done].
    + rewrite lookup_insert_ne by done. apply (fi_U _ _ H).
Qed.

(** A SUBSCRIBE begins. *)
Lemma inv_sb_new w U q ph : fw_inv w U -> f_sbs w !! q = None -> settled ph = false -> f_ids w !! sb_id ph = Some (inr q) ->
  fw_inv (set_sb q ph (beginSubscribe (f_inflight w)) w) ({[q]} ∪ U).
Proof.
  intros H Hq Hset Hid. assert (q ∉ U) as HqU by (intros (ph1 & ? & _)%(fi_U _ _ H); congruence). split; simpl; try apply H; try done.
  - intros q' ph1. destruct (decide (q = q')) as [<-|]; [rewrite lookup_insert_eq; by intros [= <-]|]. rewrite lookup_insert_ne by done. apply (fi_sids _ _ H).
  - intros c f q' Hc Hp Hq'. destruct (fi_seen _ _ H c f q' Hc Hp Hq') as (ph1 & E1 & Es & Hx). exists ph1. rewrite lookup_insert_ne by congruence. done.
  - pose proof (fi_flight _ _ H) as Hfl. unfold beginSubscribe. destruct (f_inflight w) as [[n l]|].
    + rewrite size_union by set_solver. rewrite size_singleton. destruct Hfl. split; lia.
    + subst U. rewrite union_empty_r_L, size_singleton. done.
  - intros q'. rewrite elem_of_union, elem_of_singleton. destruct (decide (q = q')) as [<-|].
    + rewrite lookup_insert_eq. split; [eauto|by left].
    + rewrite lookup_insert_ne by done. rewrite (fi_U _ _ H q'). split; [intros [->|]; done|by right].
Qed.

Lemma inv_sb_end w U q ph held fl ph' : fw_inv w U -> f_sbs w !! q = Some ph -> settled ph = false -> endSubscribe (f_inflight w) = (held, fl) ->
  settled ph' = true -> sb_id ph' = sb_id ph -> fw_inv (set_sb q ph' fl w) (U ∖ {[q]}).
Proof.
  intros H Hq Hset He Hset' Hid. assert (q ∈ U) as HqU by (apply (fi_U _ _ H); eauto). eapply inv_sb; try done.
  - pose proof (fi_flight _ _ H) as Hfl. unfold endSubscribe in He. destruct (f_inflight w) as [[n l]|]; [|set_solver]. destruct Hfl as [-> Hn].
    assert (Z.of_nat (base.size (U ∖ {[q]})) = Z.of_nat (base.size U) - 1) as Hs by (rewrite size_difference by set_solver; rewrite size_singleton; lia).
    destruct (Z.eqb_spec (Z.of_nat (base.size U) - 1) 0) as [Hz|Hz]; injection He as <- <-; [|lia].
    apply leibniz_equiv, size_empty_inv. lia.
  - intros q'. case_decide; [subst; rewrite Hset'; set_solver|set_solver].
Qed.

Lemma same_in U q ph' ph w : fw_inv w U -> f_sbs w !! q = Some ph -> settled ph' = settled ph ->
  forall q', q' ∈ U <-> if decide (q' = q) then settled ph' = false else q' ∈ U.
Proof.
  intros H Hq Hs q'. case_decide; [|done]. subst. rewrite Hs, (fi_U _ _ H). split; [intros (? & ? & ?); congruence|eauto].
Qed.

Lemma sb_step_ok w w' U op q : fw_inv w U -> sb_step op q (f_sbs w !! q) w = Some w' -> exists U', fw_inv w' U'.
Proof.
  intros H Hs. destruct op; try done; simpl in Hs; destruct (f_sbs w !! q) as [ph|] eqn:Eq; try done.
  - destruct (r_subs (f_r w) !! id) as [|] eqn:Es; [done|]. injection Hs as <-. set (r' := set_subs _ _).
    assert (fw_inv (set_r r' w) U) as H1 by (apply inv_env; [done|by apply rs_new_sub|done]).
    assert (f_ids w !! id = None) as Hn by (destruct (f_ids w !! id) eqn:Ei; [|done]; destruct (fi_known _ _ H _ _ Ei); congruence).
    pose proof (inv_id _ _ id (inr q) H1 Hn ltac:(simpl; rewrite lookup_insert_eq; by eexists)) as H2.
    exists ({[q]} ∪ U). pose proof (inv_sb_new _ _ q (SbBegun id) H2 Eq eq_refl ltac:(simpl; by rewrite lookup_insert_eq)) as H3. apply H3.
  - destruct ph as [id|id|id held|id held offered|id dropped offered]; try done. destruct (AddDownstreamSnapshotLargest _ _ _) as [added r'] eqn:Ea. injection Hs as <-.
    pose proof (fi_sids _ _ H _ _ Eq) as Hid. simpl in Hid. assert (fw_inv (set_r r' w) U) as H1.
    { apply (inv_grow w U id); [done|by eapply (fi_known _ _ H)|by rewrite Ea|..].
      - intros c f Hc Hre%reg_own. pose proof (fi_ids _ _ H c f id Hc Hre). congruence.
      - intros q' ph' Hq' Hset Heq. pose proof (fi_sids _ _ H _ _ Hq') as Hx. rewrite Heq, Hid in Hx. injection Hx as <-. rewrite Eq in Hq'. by injection Hq' as <-. }
    exists U. eapply (inv_sb _ _ _ q (SbBegun id)); [exact H1|exact Eq|by destruct (bool_decide _)|done|apply (fi_flight _ _ H1)|].
    eapply same_in; [exact H1|exact Eq|by destruct (bool_decide _)].
  - destruct (endSubscribe (f_inflight w)) as [held fl] eqn:Ee. destruct ph as [id|id|id l|id l l'|id l l']; try done; injection Hs as <-.
    all: exists (U ∖ {[q]}); by eapply inv_sb_end.
  - destruct ph as [id|id|id held|id held offered|id dropped offered]; try done. injection Hs as <-. exists U.
    eapply inv_sb; [exact H|exact Eq|by destruct (_ && _)|by destruct (_ && _)|apply (fi_flight _ _ H)|].
    eapply same_in; [exact H|exact Eq|by destruct (_ && _)].
  - destruct ph as [id|id|id held|id [|s held] offered|id dropped offered]; try done. exists U. eapply call_ok; [|exact Hs].
    eapply inv_sb; [exact H|exact Eq|by destruct held|by destruct held|apply (fi_flight _ _ H)|].
    eapply same_in; [exact H|exact Eq|by destruct held].
Qed.

(** The SUBSCRIBE_TRACKS changes, its claims do not. *)
Lemma su_ok w U s E E' : fw_inv w U -> f_subs w !! s = Some E -> fw_forwarding (se_fwd E') = fw_forwarding (se_fwd E) -> fw_inv (set_sub s E' w) U.
Proof.
  intros H HE Hf. assert (forall s', claimed (set_sub s E' w) s' = claimed w s') as Hcl.
  { intros s'. rewrite (claimed_insert w (set_sub s E' w) s E' eq_refl). destruct (decide (s' = s)) as [->|]; [|done]. unfold claimed. by rewrite HE, Hf. }
  split; simpl; try apply H.
  - intros c f Hc. rewrite lookup_insert_is_Some'. right. by apply (fi_sub _ _ H c).
  - destruct (fi_claims _ _ H) as [H1 H2]. split; [|done]. intros s'. by rewrite Hcl, H1.
Qed.

Lemma plain_ok w U c f ph : fw_inv w U -> f_fwds w !! c = Some f -> claims ph = claims (fw_phase f) -> (checked ph = true -> checked (fw_phase f) = true) ->
  reg_id ph = reg_id (fw_phase f) -> (forall id, own_id ph = Some id -> own_id (fw_phase f) = Some id \/ f_ids w !! id = Some (inl c)) ->
  (passed ph = true -> passed (fw_phase f) = true) -> fw_inv (at_phase c f ph w) U.
Proof. intros H Hc Hcl Hch Hr Ho Hp. keep_inv H Hc; [by eapply claims_same; [apply H|exact Hc|..]|]. auto. Qed.

Lemma inv_ext w U s l : fw_inv w U -> fw_inv (MkFW (f_r w) s (f_subs w) (f_inflight w) (f_fwds w) (f_sbs w) l (f_stale w) (f_ids w)) U.
Proof. intros []. by split. Qed.

Lemma forward_step_ok w w' U op c f E : fw_inv w U -> f_fwds w !! c = Some f -> f_subs w !! fw_sub f = Some E ->
  (forall c' id, op = FwNew c' id -> c' = c) -> forward_step op c f E w = Some w' -> fw_inv w' U.
Proof.
  intros H Hc HE Hcc Hs.
  assert (forall ph, claims ph = claims (fw_phase f) -> (checked ph = true -> checked (fw_phase f) = true) -> reg_id ph = reg_id (fw_phase f) ->
    own_id ph = None -> (passed ph = true -> passed (fw_phase f) = true) -> fw_inv (at_phase c f ph w) U) as Hplain
    by (intros ph ? ? ? Ho ?; apply plain_ok; try done; congruence).
  destruct op; destruct (fw_phase f) eqn:Ep; try done; simpl in Hs; rewrite Ep in Hs; try done.
  - injection Hs as <-. by destruct going; apply Hplain.
  - injection Hs as <-. by destruct (HasPrefix _ _); apply Hplain.
  - injection Hs as <-. by destruct (MatchesTrack _ _); apply Hplain.
  - injection Hs as <-. by destruct (HasUpstreamOn _ _); apply Hplain.
  - destruct (holdForward _ _) as [held fl] eqn:Eh. injection Hs as <-. by eapply hold_ok.
  - injection Hs as <-. by apply Hplain.
  - destruct (ClaimForward _ _ _) as [ok F] eqn:Ec. injection Hs as <-. by eapply take_claim.
  - injection Hs as <-. by eapply check_ok.
  - injection Hs as <-. by apply (inv_ext _ _ _ (f_published w) (Hplain (FOpen tp epoch _) eq_refl (fun x => x) eq_refl eq_refl (fun x => x))).
  - injection Hs as <-. destruct res as [[]| |]; try by apply Hplain.
    + by apply (inv_ext _ _ _ (f_published w) (Hplain FReleasing eq_refl ltac:(done) eq_refl eq_refl ltac:(done))).
    + eapply (inv_ext _ _ _ _ (Hplain (FNew tp _) eq_refl (fun x => x) eq_refl eq_refl (fun x => x))).
  - injection Hs as <-. set (E' := emitPublishSkipped _ _ _). assert (fw_inv (set_sub (fw_sub f) E' w) U) as H1.
    { apply (su_ok w U (fw_sub f) E); [done|done|]. unfold E', emitPublishSkipped. by destruct (HasPrefix _ _). }
    apply (plain_ok (set_sub (fw_sub f) E' w)); [done|done|by rewrite Ep|done|by rewrite Ep|done|done].
  - destruct (r_subs (f_r w) !! id) eqn:Es; [done|]. injection Hs as <-. set (r' := set_subs _ _).
    assert (fw_inv (set_r r' w) U) as H1 by (apply inv_env; [done|by apply rs_new_sub|done]).
    assert (f_ids w !! id = None) as Hn by (destruct (f_ids w !! id) eqn:Ei; [|done]; destruct (fi_known _ _ H _ _ Ei); congruence).
    pose proof (inv_id _ _ id (inl c) H1 Hn ltac:(simpl; rewrite lookup_insert_eq; by eexists)) as H2.
    assert (f_fwds (set_r r' w) !! c = Some f) as Hc1.
    { simpl. rewrite lookup_fmap, Hc. simpl. unfold fw_after. destruct (fw_te f) eqn:Et; [done|]. simpl. destruct (fi_live _ _ H c f Hc Et) as [e Ek]. by rewrite Ek. }
    apply (plain_ok (set_id id (inl c) (set_r r' w))); [done|done|by rewrite Ep|by rewrite Ep|by rewrite Ep| |by rewrite Ep].
    intros id' [= <-]. right. simpl. by rewrite lookup_insert_eq.
  - destruct sets as [|p sets].
    + injection Hs as <-. apply plain_ok; rewrite ?Ep; try done. intros id' [= <-]. by left.
    + destruct (r_subs (f_r w) !! id) as [s0|] eqn:Es; [|done]. injection Hs as <-. set (r' := set_subs _ _).
      assert (fw_inv (set_r r' w) U) as H1 by (apply inv_env; [done|by eapply (rs_sub _ id s0 _ (OSet p))|done]).
      assert (f_fwds (set_r r' w) !! c = Some f) as Hc1.
      { simpl. rewrite lookup_fmap, Hc. simpl. unfold fw_after. destruct (fw_te f) eqn:Et; [done|]. simpl. destruct (fi_live _ _ H c f Hc Et) as [e Ek]. by rewrite Ek. }
      apply (plain_ok (set_r r' w)); rewrite ?Ep; try done. intros id' [= <-]. by left.
  - destruct (AddDownstreamSnapshotLargest _ _ _) as [added r'] eqn:Ea. injection Hs as <-.
    assert (f_ids w !! id = Some (inl c)) as Hid by (apply (fi_ids _ _ H c f); [done|by rewrite Ep]).
    assert (fw_inv (set_r r' w) U) as H1.
    { apply (inv_grow w U id); [done|by eapply (fi_known _ _ H)|by rewrite Ea|..].
      - intros c1 f1 Hc1 Hre. pose proof (fi_ids _ _ H c1 f1 id Hc1 (reg_own _ _ Hre)) as Hx. rewrite Hid in Hx. injection Hx as <-.
        rewrite Hc in Hc1. injection Hc1 as <-. by rewrite Ep in Hre.
      - intros q ph Hq _ Heq. pose proof (fi_sids _ _ H _ _ Hq) as Hx. congruence. }
    assert (f_fwds (set_r r' w) !! c = Some f) as Hc1.
    { simpl. rewrite lookup_fmap, Hc. simpl. unfold fw_after. destruct (fw_te f) eqn:Et; [done|]. destruct (fi_live _ _ H c f Hc Et) as [e Ek].
      unfold AddDownstreamSnapshotLargest in Ea. rewrite Ek in Ea. destruct (_ =? 0); injection Ea as <- <-; [by rewrite Ek|]. simpl.
      rewrite (ti_keys _ _ _ _ _ (fi_tab _ _ H) _ _ Ek), lookup_insert_eq. done. }
    destruct added; [by apply reg_phase_ok|]. apply plain_ok; rewrite ?Ep; try done. intros id' [= <-]. by left.
  - injection Hs as <-. destruct added; apply release_step; rewrite ?Ep; try done.
  - injection Hs as <-. apply release_step; rewrite ?Ep; done.
Qed.

Lemma fstep_ok w w' : fstep w w' -> (exists U, fw_inv w U) -> exists U, fw_inv w' U.
Proof.
  intros [op w1 Hs|r' Hr Hd] [U H]; [|exists U; by apply inv_env].
  assert (forall op c, match f_fwds w !! c with Some f => match f_subs w !! fw_sub f with Some E => forward_step op c f E w | None => None end | None => None end = Some w1 ->
    (forall c' id, op = FwNew c' id -> c' = c) -> exists U, fw_inv w1 U) as Hfw.
  { intros op' c Hs' Hcc. destruct (f_fwds w !! c) as [f|] eqn:Hc; [|done]. destruct (f_subs w !! fw_sub f) as [E|] eqn:HE; [|done].
    exists U. by eapply forward_step_ok. }
  assert (forall op s, match f_subs w !! s with Some E => Some (set_sub s (su_step op E) w) | None => None end = Some w1 -> exists U, fw_inv w1 U) as Hsu.
  { intros op' s Hs'. destruct (f_subs w !! s) as [E|] eqn:HE; [|done]. injection Hs' as <-. exists U. apply (su_ok w U s E); [done|done|]. by destruct op'. }
  destruct op; unfold fwd_step in Hs; try (by eapply Hfw; [exact Hs|by intros]); try (by eapply Hsu); try (by eapply sb_step_ok).
  - exists U. by eapply call_ok.
  - eapply Hfw; [exact Hs|]. by intros ? ? [= -> ->].
Qed.

Lemma frun_ok w w' : rtc fstep w w' -> (exists U, fw_inv w U) -> exists U, fw_inv w' U.
Proof. induction 1 as [|w w1 w' Hs _ IH]; [done|]. intros H. by eapply IH, fstep_ok. Qed.

Lemma fwd_world0_ok r s subs : tab_inv r -> (forall i E, subs !! i = Some E -> K ∉ fw_forwarding (se_fwd E)) -> fw_inv (fwd_world0 r s subs) ∅.
Proof.
  intros Hr Hsubs. split; simpl; try done; try (intros *; by rewrite lookup_empty).
  - split; [|simpl; intros *; by rewrite lookup_empty]. intros i. split.
    + unfold claimed. simpl. destruct (subs !! i) eqn:E; [|done]. rewrite bool_decide_eq_true. intros Hx. by apply Hsubs in E.
    + intros (c & f & Hc & _). simpl in Hc. by rewrite lookup_empty in Hc.
  - intros q. split; [set_solver|]. intros (ph & Hq & _). by rewrite lookup_empty in Hq.
Qed.

Lemma run_steps ops : forall w w', fwd_run ops w = Some w' -> rtc fstep w w'.
Proof.
  induction ops as [|op ops IH]; intros w w'; simpl; [by intros [= <-]|]. destruct (fwd_step op w) as [w1|] eqn:E; [|done].
  intros H. eapply rtc_l; [by eapply fs_op|]. by apply IH.
Qed.

(** ** Forwards held back

    What a subscriber [s] whose forward was held is still owed, or has been given, by a
    SUBSCRIBE that ended since. *)
Definition forwarded_to w (s : Z) (offered : list Z) : Prop := exists c f, c ∈ offered /\ f_fwds w !! c = Some f /\ fw_sub f = s.
Definition owes w (s : Z) (ph : sbphase) : Prop :=
  match ph with
  | SbBegun _ | SbAdded _ => False
  | SbEnded _ held => s ∈ held
  | SbOffering _ held offered => s ∈ held \/ forwarded_to w s offered
  | SbOver _ dropped offered => s ∈ dropped \/ forwarded_to w s offered
  end.
Definition offered_again w (f : forward) : Prop :=
  exists q ph, f_sbs w !! q = Some ph /\ (q ∉ fw_over f) /\ owes w (fw_sub f) ph.
Definition awaits_end w (f : forward) : Prop := exists n held, f_inflight w = Some (n, held) /\ fw_sub f ∈ held.

Record held_inv w : Prop := {
  hi_over c f q : f_fwds w !! c = Some f -> fw_phase f = FHeld -> q ∈ fw_over f -> exists ph, f_sbs w !! q = Some ph /\ settled ph = true;
  hi_held c f : f_fwds w !! c = Some f -> fw_phase f = FHeld -> awaits_end w f \/ offered_again w f }.

(** The forwards of a step: none is forgotten, none is newly held. *)
Definition fwds_keep w w' : Prop :=
  (forall c f', f_fwds w' !! c = Some f' -> fw_phase f' = FHeld ->
     exists f, f_fwds w !! c = Some f /\ fw_phase f = FHeld /\ fw_sub f = fw_sub f' /\ fw_over f = fw_over f') /\
  forall c f, f_fwds w !! c = Some f -> exists f', f_fwds w' !! c = Some f' /\ fw_sub f' = fw_sub f.

Lemma fwds_keep_eq w w' : f_fwds w' = f_fwds w -> fwds_keep w w'.
Proof. intros E. split; rewrite E; eauto. Qed.

Lemma fwds_keep_trans w1 w2 w3 : fwds_keep w1 w2 -> fwds_keep w2 w3 -> fwds_keep w1 w3.
Proof.
  intros [A1 B1] [A2 B2]. split.
  - intros c f3 H3 Hp. destruct (A2 _ _ H3 Hp) as (f2 & H2 & Hp2 & E1 & E2). destruct (A1 _ _ H2 Hp2) as (f1 & H1 & ? & ? & ?).
    exists f1. split_and!; congruence.
  - intros c f H. destruct (B1 _ _ H) as (f2 & H2 & E2). destruct (B2 _ _ H2) as (f3 & H3 & E3). exists f3. split; congruence.
Qed.

Lemma fwds_keep_set_r r' w : fwds_keep w (set_r r' w).
Proof.
  split; intros c f; simpl; rewrite lookup_fmap.
  - destruct (f_fwds w !! c) as [f0|]; [|done]. intros [= <-]. exists f0. revert H. unfold fw_after. repeat case_match; done.
  - intros ->. eexists. split; [done|]. apply after_phase.
Qed.

Lemma fwds_keep_at w c f f0 ph : f_fwds w !! c = Some f0 -> fw_sub f0 = fw_sub f -> ph <> FHeld -> fwds_keep w (at_phase c f ph w).
Proof.
  intros Hc Hs Hp. split; intros c1 f1; simpl; (destruct (decide (c = c1)) as [<-|Hn]; [rewrite lookup_insert_eq|rewrite lookup_insert_ne by done]); eauto.
  - by intros [= <-].
  - rewrite Hc. intros [= <-]. eexists. by split.
Qed.

Lemma fwds_keep_new w c f : f_fwds w !! c = None -> fw_phase f <> FHeld -> fwds_keep w (set_f c f w).
Proof.
  intros Hc Hp. split; intros c1 f1; simpl; (destruct (decide (c = c1)) as [<-|Hn]; [rewrite lookup_insert_eq|rewrite lookup_insert_ne by done]); eauto.
  - by intros [= <-].
  - by rewrite Hc.
Qed.

(** What becomes of the held subscribers of the SUBSCRIBEs in flight, and of those a
    SUBSCRIBE that ended still owes a forward. *)
Definition held_kept w w' : Prop :=
  forall n held s, f_inflight w = Some (n, held) -> s ∈ held ->
    (exists n' held', f_inflight w' = Some (n', held') /\ s ∈ held') \/
    (exists q ph id held', f_sbs w !! q = Some ph /\ settled ph = false /\ f_sbs w' !! q = Some (SbEnded id held') /\ s ∈ held').
Definition sbs_keep w w' : Prop :=
  forall q ph, f_sbs w !! q = Some ph -> exists ph', f_sbs w' !! q = Some ph' /\ (settled ph = true -> settled ph' = true) /\
    forall s, owes w s ph -> owes w' s ph'.

Lemma held_keep w w' : held_inv w -> fwds_keep w w' -> held_kept w w' -> sbs_keep w w' -> held_inv w'.
Proof.
  intros [H1 H2] [A B] Hh Hs. split.
  - intros c f' q Hc Hp Hq. destruct (A _ _ Hc Hp) as (f & Hf & Hpf & _ & Eo). rewrite <-Eo in Hq.
    destruct (H1 _ _ _ Hf Hpf Hq) as (ph & E & Est). destruct (Hs _ _ E) as (ph' & ? & ? & _). eauto.
  - intros c f' Hc Hp. destruct (A _ _ Hc Hp) as (f & Hf & Hpf & Es & Eo). unfold awaits_end, offered_again. rewrite <-Es, <-Eo.
    destruct (H2 _ _ Hf Hpf) as [(n & held & E & Hi)|(q & ph & E & Ho & Hw)].
    + destruct (Hh _ _ _ E Hi) as [?|(q & ph & id & held' & Eq & Est & Eq' & Hi')]; [by left|]. right. exists q, (SbEnded id held'). split_and!; try done.
      intros Hq. destruct (H1 _ _ _ Hf Hpf Hq) as (ph1 & E1 & Est1). congruence.
    + right. destruct (Hs _ _ E) as (ph' & ? & _ & Hx). exists q, ph'. auto.
Qed.

Lemma owes_keep w w' s ph : fwds_keep w w' -> owes w s ph -> owes w' s ph.
Proof.
  intros [_ B]. assert (forall l, forwarded_to w s l -> forwarded_to w' s l) as Hf.
  { intros l (c & f & Hi & Hc & Hs). destruct (B _ _ Hc) as (f' & ? & ?). exists c, f'. split_and!; congruence. }
  destruct ph; simpl; naive_solver.
Qed.

Lemma held_fwds w w' : held_inv w -> fwds_keep w w' -> f_inflight w' = f_inflight w -> f_sbs w' = f_sbs w -> held_inv w'.
Proof.
  intros H Hk Ei Es. eapply held_keep; [done|done|..].
  - intros n held s E Hi. left. exists n, held. by rewrite Ei.
  - intros q ph E. exists ph. rewrite Es. split_and!; [done|done|]. intros s. by apply owes_keep.
Qed.

Lemma ended_now_spec w q : q ∈ ended_now (f_sbs w) <-> exists ph, f_sbs w !! q = Some ph /\ settled ph = true.
Proof.
  unfold ended_now. rewrite elem_of_dom. split.
  - intros [ph Hp]. apply map_lookup_filter_Some in Hp as [? ?]. eauto.
  - intros (ph & E & Hs). exists ph. by apply map_lookup_filter_Some.
Qed.

Lemma held_hold w c f tp held fl : held_inv w -> f_fwds w !! c = Some f -> fw_phase f = FHold tp -> holdForward (fw_sub f) (f_inflight w) = (held, fl) ->
  held_inv (set_f c (MkFwd (fw_sub f) (fw_te f) (dom (f_sbs w)) (ended_now (f_sbs w)) (if held then FHeld else FEpoch tp))
            (MkFW (f_r w) (f_sess w) (f_subs w) fl (f_fwds w) (f_sbs w) (f_published w) (f_stale w) (f_ids w))).
Proof.
  intros [H1 H2] Hc Ep Eh. set (f0 := MkFwd _ _ _ _ _). set (w' := set_f c f0 _).
  assert (forall c1 f1, f_fwds w' !! c1 = Some f1 -> (c1 = c /\ f1 = f0) \/ c1 <> c /\ f_fwds w !! c1 = Some f1) as Hf.
  { intros c1 f1. simpl. destruct (decide (c = c1)) as [<-|]; [rewrite lookup_insert_eq; intros [= <-]; by left|]. rewrite lookup_insert_ne by done. auto. }
  assert (forall l s, forwarded_to w s l -> forwarded_to w' s l) as Hk.
  { intros l s (c1 & f1 & Hi & Hc1 & Hs). unfold forwarded_to. simpl. destruct (decide (c = c1)) as [<-|Hn].
    - exists c, f0. rewrite lookup_insert_eq. split_and!; [done|done|]. simpl. congruence.
    - exists c1, f1. rewrite lookup_insert_ne by done. done. }
  assert (forall s n l, f_inflight w = Some (n, l) -> s ∈ l -> exists n' l', fl = Some (n', l') /\ s ∈ l') as Hin.
  { intros s n l E Hs. unfold holdForward in Eh. rewrite E in Eh. injection Eh as <- <-. do 2 eexists. split; [done|]. case_bool_decide; [done|]. apply elem_of_app. by left. }
  split.
  - intros c1 f1 q [[-> ->]|[_ H]]%Hf Hp Hq; [by apply ended_now_spec|]. by eapply H1.
  - intros c1 f1 [[-> ->]|[_ H]]%Hf Hp.
    + left. unfold holdForward in Eh. destruct (f_inflight w) as [[n l]|] eqn:E; injection Eh as <- <-; [|done]. do 2 eexists. split; [done|].
      simpl. case_bool_decide; [done|]. apply elem_of_app. right. by left.
    + destruct (H2 _ _ H Hp) as [(n & l & E & Hi)|(q & ph & E & Ho & Hw)]; [left; by eapply Hin|right].
      exists q, ph. split_and!; [done|done|]. destruct ph; simpl in *; naive_solver.
Qed.

Lemma held_call w w' c s : held_inv w -> call_forward c s w = Some w' -> held_inv w'.
Proof.
  intros H. unfold call_forward. destruct (f_fwds w !! c) eqn:Ec; [done|]. repeat (case_match; [|done]). intros [= <-].
  eapply held_fwds; [done|by apply fwds_keep_new|done|done].
Qed.

Lemma held_forward w w' op c f E : held_inv w -> f_fwds w !! c = Some f -> (forall c' id, op = FwNew c' id -> c' = c) -> forward_step op c f E w = Some w' -> held_inv w'.
Proof.
  intros H Hc Hcc Hs.
  assert (forall w1 ph, fwds_keep w w1 -> f_inflight w1 = f_inflight w -> f_sbs w1 = f_sbs w -> ph <> FHeld -> held_inv (at_phase c f ph w1)) as Hat.
  { intros w1 ph Hk Ei Es Hp. destruct (proj2 Hk _ _ Hc) as (f1 & Hc1 & Es1). eapply held_fwds; [exact H| |done|done].
    eapply fwds_keep_trans; [exact Hk|]. by eapply fwds_keep_at. }
  assert (fwds_keep w w) as Hr by (by apply fwds_keep_eq).
  destruct op; destruct (fw_phase f) eqn:Ep; try done; simpl in Hs; rewrite Ep in Hs; try done.
  - injection Hs as <-. by destruct going; apply Hat.
  - injection Hs as <-. by destruct (HasPrefix _ _); apply Hat.
  - injection Hs as <-. by destruct (MatchesTrack _ _); apply Hat.
  - injection Hs as <-. by destruct (HasUpstreamOn _ _); apply Hat.
  - destruct (holdForward _ _) as [held fl] eqn:Eh. injection Hs as <-. by eapply held_hold.
  - injection Hs as <-. by apply Hat.
  - destruct (ClaimForward _ _ _) as [ok F]. injection Hs as <-. by destruct ok; apply Hat; try apply fwds_keep_eq.
  - injection Hs as <-. by destruct (HasDownstreamOn _ _); apply Hat; try apply fwds_keep_eq.
  - injection Hs as <-. by apply Hat; try apply fwds_keep_eq.
  - injection Hs as <-. unfold open_publish. destruct res as [[]| |]; try (by apply Hat).
    eapply held_fwds; [exact H|exact (fwds_keep_at w c f f (FNew tp _) Hc eq_refl ltac:(done))|done|done].
  - injection Hs as <-. by apply Hat; try apply fwds_keep_eq.
  - destruct (r_subs (f_r w) !! id); [done|]. injection Hs as <-. apply Hat; try done. exact (fwds_keep_set_r _ _).
  - destruct sets as [|p sets]; [injection Hs as <-; by apply Hat|]. destruct (r_subs (f_r w) !! id); [|done]. injection Hs as <-.
    apply Hat; try done. exact (fwds_keep_set_r _ _).
  - destruct (AddDownstreamSnapshotLargest _ _ _) as [added r']. injection Hs as <-. apply Hat; try done. exact (fwds_keep_set_r _ _).
  - injection Hs as <-. by destruct added; apply Hat; try apply fwds_keep_eq.
  - injection Hs as <-. by apply Hat; try apply fwds_keep_eq.
Qed.

(** A SUBSCRIBE goes on: what it owed it still owes, or has given. *)
Lemma sbs_keep_set w w' q ph ph' : fwds_keep w w' -> f_sbs w !! q = Some ph -> f_sbs w' = <[q := ph']> (f_sbs w) ->
  (settled ph = true -> settled ph' = true) -> (forall s, owes w s ph -> owes w' s ph') -> sbs_keep w w'.
Proof.
  intros Hk Hq Es Hset Hw q1 ph1 H1. rewrite Es. destruct (decide (q = q1)) as [<-|].
  - rewrite lookup_insert_eq. exists ph'. assert (ph1 = ph) as -> by congruence. auto.
  - rewrite lookup_insert_ne by done. exists ph1. split_and!; [done|done|]. intros s. by apply owes_keep.
Qed.

Lemma held_kept_eq w w' : f_inflight w' = f_inflight w -> held_kept w w'.
Proof. intros E n held s. rewrite E. left. eauto. Qed.

Lemma held_end w q ph id held fl : held_inv w -> f_sbs w !! q = Some ph -> settled ph = false -> endSubscribe (f_inflight w) = (held, fl) ->
  held_inv (set_sb q (SbEnded id held) fl w).
Proof.
  intros H Hq Hset He. eapply held_keep; [done|by apply fwds_keep_eq|..].
  - intros n l s E Hs. unfold endSubscribe in He. rewrite E in He. destruct (n - 1 =? 0); injection He as <- <-; [right|left; eauto].
    exists q, ph, id, l. simpl. by rewrite lookup_insert_eq.
  - eapply sbs_keep_set; [by apply fwds_keep_eq|done|done|done|]. by destruct ph.
Qed.

Lemma held_sb w w' op q : held_inv w -> sb_step op q (f_sbs w !! q) w = Some w' -> held_inv w'.
Proof.
  intros H Hs. destruct op; try done; simpl in Hs; destruct (f_sbs w !! q) as [ph|] eqn:Eq; try done.
  - destruct (r_subs (f_r w) !! id); [done|]. injection Hs as <-. eapply held_keep; [exact H|exact (fwds_keep_set_r _ _)|..].
    + intros n held s E Hi. left. simpl. rewrite E. simpl. eauto.
    + intros q1 ph1 H1. exists ph1. simpl. rewrite lookup_insert_ne by congruence. split_and!; [done|done|]. intros s. apply owes_keep. exact (fwds_keep_set_r _ _).
  - destruct ph as [id|id|id held|id held offered|id dropped offered]; try done. destruct (AddDownstreamSnapshotLargest _ _ _) as [added r']. injection Hs as <-.
    eapply held_keep; [exact H|exact (fwds_keep_set_r _ _)|by apply held_kept_eq|]. eapply sbs_keep_set; [exact (fwds_keep_set_r _ _)|done|done|done|done].
  - destruct (endSubscribe (f_inflight w)) as [held fl] eqn:Ee. destruct ph as [id|id|id l|id l l'|id l l']; try done; injection Hs as <-; by eapply held_end.
  - destruct ph as [id|id|id held|id held offered|id dropped offered]; try done. injection Hs as <-.
    eapply held_keep; [exact H|by apply fwds_keep_eq|by apply held_kept_eq|]. eapply sbs_keep_set; [by apply fwds_keep_eq|done|done|by destruct (_ && _)|].
    intros s Hi. destruct (_ && _); by left.
  - destruct ph as [id|id|id held|id [|s held] offered|id dropped offered]; try done. revert Hs. unfold call_forward. simpl.
    destruct (f_fwds w !! c) eqn:Ec; [done|]. repeat (case_match; [|done]). intros [= <-]. set (w' := set_f c _ _).
    assert (fwds_keep w w') as Hk.
    { eapply fwds_keep_trans; [|apply fwds_keep_new; [exact Ec|done]]. by apply fwds_keep_eq. }
    eapply held_keep; [exact H|exact Hk|by apply held_kept_eq|]. eapply sbs_keep_set; [exact Hk|done|done|by destruct held|].
    assert (forall l s', forwarded_to w s' l -> forwarded_to w' s' (l ++ [c])) as Hf.
    { intros l s' (c1 & f1 & Hi & Hc1 & Hs1). destruct (proj2 Hk _ _ Hc1) as (f2 & ? & ?). exists c1, f2. split_and!; [set_solver|done|congruence]. }
    assert (forwarded_to w' s (offered ++ [c])) as Hnew by (eexists c, _; split_and!; [set_solver|simpl; by rewrite lookup_insert_eq|done]).
    intros s' [Hi|Hi]; [|destruct held; right; by apply Hf]. apply elem_of_cons in Hi as [->|Hi]; [destruct held; by right|].
    destruct held; [by apply not_elem_of_nil in Hi|by left].
Qed.

Lemma held_fstep w w' : fstep w w' -> held_inv w -> held_inv w'.
Proof.
  intros [op w1 Hs|r' Hr Hd] H; [|eapply held_fwds; [done|apply fwds_keep_set_r|done|done]].
  assert (forall op c, match f_fwds w !! c with Some f => match f_subs w !! fw_sub f with Some E => forward_step op c f E w | None => None end | None => None end = Some w1 ->
    (forall c' id, op = FwNew c' id -> c' = c) -> held_inv w1) as Hfw.
  { intros op' c Hs' Hcc. destruct (f_fwds w !! c) as [f|] eqn:Hc; [|done]. destruct (f_subs w !! fw_sub f) as [E|] eqn:HE; [|done]. by eapply held_forward. }
  assert (forall op s, match f_subs w !! s with Some E => Some (set_sub s (su_step op E) w) | None => None end = Some w1 -> held_inv w1) as Hsu.
  { intros op' s Hs'. destruct (f_subs w !! s) as [E|] eqn:HE; [|done]. injection Hs' as <-. eapply held_fwds; [done|by apply fwds_keep_eq|done|done]. }
  destruct op; unfold fwd_step in Hs; try (by eapply Hfw; [exact Hs|by intros]); try (by eapply Hsu); try (by eapply held_sb).
  - by eapply held_call.
  - eapply Hfw; [exact Hs|]. by intros ? ? [= -> ->].
Qed.

Lemma held_run w w' : rtc fstep w w' -> held_inv w -> held_inv w'.
Proof. induction 1 as [|w w1 w' Hs _ IH]; [done|]. intros H. by eapply IH, held_fstep. Qed.

(** A SUBSCRIBE that ended goes through the subscribers it holds while the track has an
    established upstream. *)
Definition offers_on w : Prop :=
  (forall q id held, f_sbs w !! q = Some (SbEnded id held) -> exists w', fwd_step (SbLook q) w = Some w' /\
     f_sbs w' !! q = Some (if bool_decide (held <> []) && hasEstablishedUpstream (r_tracks (f_r w) !! K) then SbOffering id held [] else SbOver id held [])) /\
  (forall q c id s held offered, f_sbs w !! q = Some (SbOffering id (s :: held) offered) -> f_fwds w !! c = None -> is_Some (f_subs w !! s) ->
     is_Some (r_tracks (f_r w) !! K) -> exists w' f, fwd_step (SbOffer q c) w = Some w' /\ f_fwds w' !! c = Some f /\ fw_sub f = s /\ fw_phase f = FGoing).

Lemma offers_go_on w : offers_on w.
Proof.
  split.
  - intros q id held Hq. simpl. rewrite Hq. eexists. split; [done|]. simpl. rewrite lookup_insert_eq. f_equal.
    replace (negb (len held =? 0)) with (bool_decide (held <> [])); [done|]. by destruct held.
  - intros q c id s held offered Hq Hc [E HE] [e He]. simpl. rewrite Hq. unfold call_forward. simpl. rewrite Hc, HE, He.
    eexists _, _. split; [done|]. simpl. by rewrite lookup_insert_eq.
Qed.

(** The subscriber receives the track on a forward: its PUBLISH is on its way, or its
    downstream is registered and not terminated. *)
Definition receiving r (f : forward) : Prop := checked (fw_phase f) = true \/ exists id, reg_id (fw_phase f) = Some id /\ alive r id.

(** C20: a SUBSCRIBE_TRACKS subscriber is sent a track once.  Whatever publishers and
    subscribers come and go, and however the forwards of a track to the subscribers of
    a session and the session's own SUBSCRIBEs for it interleave: a claim on the track
    is held exactly while one forward of that subscriber is in progress, so none leaks;
    a forward is held back only while a SUBSCRIBE is in flight, and each one held is
    offered again: it waits for the SUBSCRIBEs in flight to end, or a SUBSCRIBE that
    ended since it was held is to call a forward for its subscriber, has called one, or
    found the track without an established upstream; and, provided no forward looked for a downstream on an entry that had left
    the table, a subscriber receives the track on one forward at most, and of the
    SUBSCRIBEs begun before a PUBLISH was let pass none is in flight or has a downstream
    left when it is sent or after. *)
Theorem track_published_once maxSize maxDuration ttl (d : option D) addr r0 s subs w :
  (forall st, d = Some st -> adv_ready st addr /\ forall k, adv_has st k addr = false) ->
  rtc reg_step (NewTrackRegistry maxSize maxDuration ttl d addr) r0 ->
  (forall i E, subs !! i = Some E -> K ∉ fw_forwarding (se_fwd E)) ->
  rtc fstep (fwd_world0 r0 s subs) w ->
  (forall i E, f_subs w !! i = Some E ->
     (K ∈ fw_forwarding (se_fwd E) <-> exists c f, f_fwds w !! c = Some f /\ fw_sub f = i /\ claims (fw_phase f) = true)) /\
  (forall c c' f f', f_fwds w !! c = Some f -> f_fwds w !! c' = Some f' -> claims (fw_phase f) = true -> claims (fw_phase f') = true ->
     fw_sub f = fw_sub f' -> c = c') /\
  (is_Some (f_inflight w) <-> exists q ph, f_sbs w !! q = Some ph /\ settled ph = false) /\
  (forall c f, f_fwds w !! c = Some f -> fw_phase f = FHeld -> awaits_end w f \/ offered_again w f) /\ offers_on w /\
  (f_stale w = false ->
     (forall c c' f f', f_fwds w !! c = Some f -> f_fwds w !! c' = Some f' -> fw_sub f = fw_sub f' -> receiving (f_r w) f -> receiving (f_r w) f' -> c = c') /\
     (forall c f q, f_fwds w !! c = Some f -> sent (fw_phase f) = true -> q ∈ fw_seen f ->
        exists ph, f_sbs w !! q = Some ph /\ settled ph = true /\ ~ alive (f_r w) (sb_id ph))).
Proof.
  intros Hd Hr0 Hsubs Hw. destruct (reachable_inv _ _ _ _ _ _ Hd Hr0) as [Hi _].
  destruct (frun_ok _ _ Hw) as [U H]; [exists ∅; by apply fwd_world0_ok|]. destruct (fi_claims _ _ H) as [Hcl Hun].
  assert (held_inv w) as Hh by (apply (held_run _ _ Hw); split; simpl; intros *; by rewrite lookup_empty). split_and!.
  - intros i E HE. rewrite <-Hcl. unfold claimed. by rewrite HE, bool_decide_eq_true.
  - done.
  - pose proof (fi_flight _ _ H) as Hfl. destruct (f_inflight w) as [[n held]|].
    + split; [|by eexists]. intros _. destruct Hfl as [-> Hn]. destruct (decide (U = ∅)) as [->|Hne]; [by rewrite size_empty in Hn|].
      apply set_choose_L in Hne as [q Hq]. exists q. by apply (fi_U _ _ H).
    + split; [by intros []|]. intros (q & ph & Hq). assert (q ∈ U) by (apply (fi_U _ _ H); eauto). set_solver.
  - apply (hi_held _ Hh).
  - apply offers_go_on.
  - intros Hst. split.
    + intros c c' f f' Hc Hc' Hs [Hch|(id & Hre & Ha)] [Hch'|(id' & Hre' & Ha')].
      * apply (Hun c c' f f'); try done; [by destruct (fw_phase f)|by destruct (fw_phase f')].
      * exfalso. by eapply (fi_one _ _ H c c').
      * exfalso. by eapply (fi_one _ _ H c' c).
      * by eapply (fi_two _ _ H c c').
    + intros c f q Hc Hse Hq. destruct (fi_seen _ _ H c f q Hc) as (ph & ? & ? & Hx); [unfold sent, passed in *; by destruct (fw_phase f)|done|].
      exists ph. auto.
Qed.
End Forward.

(** ** Runs *)

Definition fwd_name : FullTrackName := MkName [[Byte.x61]] [Byte.x62].
Definition fwd_up (id sess : Z) : UpRef := MkUpRef (NewUpstreamSub id 7 0) sess.
Definition fwd_reg (id : Z) (r : TrackRegistry MemoryStore) : TrackRegistry MemoryStore := (AddUpstream fwd_name (fwd_up id 3) None r).2.
Definition fwd_reg0 : TrackRegistry MemoryStore := NewTrackRegistry 0 0 None None [].
Definition fwd_subs : gmap Z SubscriberEntry := {[0 := MkSubscriber 0 [] 5 true defaultTracksParams (MkForwards ∅ false ∅) ∅ new_outbox]}.
Definition fwd_session : Session := new_session roleServer ∅ 0 0.
Abbreviation frun := (fwd_run 5 fwd_name 4).

(** A forward from its first step to its claim, and on to its downstream [id]. *)
Definition to_claim (c : Z) : list fwd_op := [FwGoing c false; FwPrefix c; FwFilter c; FwUp c; FwHold c; FwEpoch c; FwClaim c].
Definition to_sent (c : Z) : list fwd_op := to_claim c ++ [FwCheck c; FwBuild c; FwOpen c Opened].
Definition to_serving (c id : Z) (n : nat) : list fwd_op := to_sent c ++ [FwNew c id] ++ replicate n (FwSet c) ++ [FwAdd c; FwRegistered c].

(** A forward that comes while a SUBSCRIBE is in flight is held, offered again when the
    SUBSCRIBE ends without a downstream, and sent; a second one is not. *)
Definition sample_fwd_ops : list fwd_op :=
  [SbBegin 0 10 1; FwCall 1 0; FwGoing 1 false; FwPrefix 1; FwFilter 1; FwUp 1; FwHold 1; SbEnd 0; SbLook 0; SbOffer 0 2] ++
  to_serving 2 11 3%nat ++ [FwCall 3 0] ++ to_claim 3 ++ [FwCheck 3; FwRelease 3].
Definition fphase_kind (ph : fphase) : Z := match ph with FServing _ => 2 | FReturned => 1 | _ => 0 end.

Lemma track_published_once_witness : exists w, frun sample_fwd_ops (fwd_world0 (fwd_reg 1 fwd_reg0) fwd_session fwd_subs) = Some w /\
  f_stale w = false /\ (fw_phase <$> f_fwds w !! 1) = Some FHeld /\ f_sbs w !! 0 = Some (SbOver 10 [] [2]) /\
  (fw_phase <$> f_fwds w !! 2) = Some (FServing 11) /\ (fw_phase <$> f_fwds w !! 3) = Some FReturned /\ len (f_published w) = 1 /\
  (forall f, f_fwds w !! 1 = Some f -> awaits_end w f \/ offered_again w f) /\
  forall c c' f f', f_fwds w !! c = Some f -> f_fwds w !! c' = Some f' -> fw_sub f = fw_sub f' -> receiving 5 fwd_name (f_r w) f -> receiving 5 fwd_name (f_r w) f' -> c = c'.
Proof.
  assert ((fun w => (f_stale w, fw_phase <$> f_fwds w !! 1, f_sbs w !! 0, fw_phase <$> f_fwds w !! 2, fw_phase <$> f_fwds w !! 3, len (f_published w))) <$>
    frun sample_fwd_ops (fwd_world0 (fwd_reg 1 fwd_reg0) fwd_session fwd_subs) =
    Some (false, Some FHeld, Some (SbOver 10 [] [2]), Some (FServing 11), Some FReturned, 1)) as Hr by (vm_compute; reflexivity).
  destruct (frun sample_fwd_ops _) as [w|] eqn:E; [|discriminate Hr]. injection Hr as H1 H0 H0' H2 H3 H4. exists w.
  destruct (track_published_once 5 fwd_name 4 0 0 None (None : option MemoryStore) [] (fwd_reg 1 fwd_reg0) fwd_session fwd_subs w) as (_ & _ & _ & Hheld & _ & Hx).
  - by intros st [=].
  - apply rtc_once. apply rs_add_up.
  - intros i EE Hi. unfold fwd_subs in Hi. apply lookup_singleton_Some in Hi as [_ <-]. apply not_elem_of_empty.
  - eapply run_steps. exact E.
  - clear E. split_and!; try done; [|by apply Hx]. intros f Hf. apply (Hheld 1 f Hf). rewrite Hf in H0. by injection H0.
Defined.

(** The entry of the track is looked at by the forward, the subscription is made on the
    track: a forward that was called for a publisher now gone, and goes on after a new
    publisher's forward has finished, sends the subscriber a second PUBLISH. *)
Definition late_reg (r : TrackRegistry MemoryStore) : TrackRegistry MemoryStore := (RemoveUpstream fwd_name 1 r).2.
Definition late_run : option (FwdWorld MemoryStore) :=
  w1 ← frun [FwCall 1 0] (fwd_world0 (fwd_reg 1 fwd_reg0) fwd_session fwd_subs);
  let w2 := set_r fwd_name (fwd_reg 2 (late_reg (f_r w1))) (set_r fwd_name (late_reg (f_r w1)) w1) in
  frun ([FwCall 2 0] ++ to_serving 2 10 3%nat ++ to_serving 1 11 3%nat) w2.

Lemma stale_forward_repeats : exists w, late_run = Some w /\ rtc (fstep 5 fwd_name 4) (fwd_world0 (fwd_reg 1 fwd_reg0) fwd_session fwd_subs) w /\
  len (f_published w) = 2 /\ forall c, c = 1 \/ c = 2 -> exists f, f_fwds w !! c = Some f /\ fw_sub f = 0 /\ receiving 5 fwd_name (f_r w) f.
Proof.
  assert ((fun w => (len (f_published w), fw_sub <$> f_fwds w !! 1, fw_sub <$> f_fwds w !! 2, fw_phase <$> f_fwds w !! 1, fw_phase <$> f_fwds w !! 2,
                     downs fwd_name (f_r w), (d_state ∘ sh_d) <$> r_subs (f_r w) !! 10, (d_state ∘ sh_d) <$> r_subs (f_r w) !! 11)) <$> late_run =
    Some (2, Some 0, Some 0, Some (FServing 11), Some (FServing 10), [MkDownRef 10 5; MkDownRef 11 5], Some SubEstablished, Some SubEstablished))
    as Hr by (vm_compute; reflexivity).
  destruct late_run as [w|] eqn:E; [|discriminate Hr]. injection Hr as H1 H2 H3 H4 H5 H6 H7 H8. exists w. split; [done|]. split; [|split; [done|]].
  - unfold late_run in E. destruct (frun [FwCall 1 0] _) as [w1|] eqn:E1; [|discriminate E].
    assert (f_r w1 = fwd_reg 1 fwd_reg0) as Er.
    { assert (f_r <$> frun [FwCall 1 0] (fwd_world0 (fwd_reg 1 fwd_reg0) fwd_session fwd_subs) = Some (fwd_reg 1 fwd_reg0)) as Hx by (vm_compute; reflexivity).
      rewrite E1 in Hx. by injection Hx. }
    etrans; [eapply run_steps; exact E1|]. eapply rtc_l; [apply (fs_env _ _ _ _ (late_reg (f_r w1))); [apply rs_remove_up|]|].
    2: eapply rtc_l; [apply (fs_env _ _ _ _ (fwd_reg 2 (late_reg (f_r w1)))); [apply rs_add_up|]|eapply run_steps; exact E].
    all: intros id Hin; rewrite Er in Hin; by apply not_elem_of_nil in Hin.
  - clear E. destruct (f_fwds w !! 1) as [f1|] eqn:F1; [|discriminate H2]. destruct (f_fwds w !! 2) as [f2|] eqn:F2; [|discriminate H3].
    simpl in H2, H3, H4, H5. injection H2 as S1. injection H3 as S2. injection H4 as P1. injection H5 as P2.
    assert (forall id, id = 10 \/ id = 11 -> alive 5 fwd_name (f_r w) id) as Ha.
    { intros id Hid. split; [rewrite H6; destruct Hid as [-> | ->]; set_solver|]. intros (x & Ex & Ht).
      destruct Hid as [-> | ->]; rewrite Ex in *; simpl in *; congruence. }
    intros c [-> | ->]; [exists f1|exists f2]; (split; [done|]); (split; [done|]); right; rewrite ?P1, ?P2; eexists; (split; [reflexivity|]);
      apply Ha; auto.
Qed.
