(* ===== verification/PublishHandler.v ===== *)
(** * PublishHandler: the PUBLISH handler

    [handlePublish] of [pkg/relay/handler_publish.go]: a publisher's PUBLISH, from its
    checks to the end of its request stream.  Every call on the session, section of the
    registry and write is a step; between them other handlers register and release
    aliases of the session, and anything happens to the track table.  What the handler
    does for subscribers while it is served (forwarding, pausing, reading the request
    stream) is modelled in [Forwarding], [SubscribeHandler] and [Broker]. *)

From stdpp Require Import gmap.
From S2P Require Import Prelude Codes Varint Wire KV Filter Params Properties RangeFilter Messages Objects Streams Cache.
From S2P Require Import Ledger Stitch Tokens Session Subs Track Discovery TrackTable Candidates Broker Subscribing SubscribeHandler.

(** ** The handler *)

Inductive publish_phase : Type :=
| PCheck | PAuth | PCreate | PAlias (created : bool) | PUnused | PAdd | POK | PServing | PRemove | PRelease | PDone.

(** [pw_others]: the aliases other handlers of the session hold; [pw_log]: what went on
    the request stream. *)
Record PublishWorld (D : Type) : Type := MkPW {
  pw_r : TrackRegistry D; pw_s : Session; pw_others : list (Z * Key); pw_phase : publish_phase; pw_log : list req_event }.
Arguments MkPW {D} _ _ _ _ _. Arguments pw_r {D} _. Arguments pw_s {D} _. Arguments pw_others {D} _.
Arguments pw_phase {D} _. Arguments pw_log {D} _.

Section Handler.
Context {D : Type} `{!Advertiser D}.
(** The session, the ID of the new subscription, the PUBLISH and its error texts. *)
Context (text : error -> bytes) (sess id : Z) (msg : Publish).
Implicit Types (r : TrackRegistry D) (w : PublishWorld D).

Definition pub_name : FullTrackName := MkName (pub_Namespace msg) (pub_Name msg).

Definition publish_upstream : UpRef :=
  let u := NewUpstreamSub id (pub_TrackAlias msg) (pub_RequestID msg) in
  MkUpRef (match p_Find (pub_Parameters msg) ParamForward with
           | Some f => if p_Byte f =? 0 then up_apply (UForward 0) u else u
           | None => u
           end) sess.

Definition goto (ph : publish_phase) w : PublishWorld D := MkPW (pw_r w) (pw_s w) (pw_others w) ph (pw_log w).
Definition refuse (code : Z) (reason : bytes) (s : Session) w : PublishWorld D :=
  MkPW (pw_r w) s (pw_others w) PDone (pw_log w ++ (RejectError true (MPublish msg) (s_role s) code reason).2).

(** The handler's next step; [denied] is the authorizer's answer, [wok] whether the
    REQUEST_OK is written. *)
Definition publish_step (denied : option (Z * bytes)) (wok : bool) w : option (PublishWorld D) :=
  let r := pw_r w in
  match pw_phase w with
  | PCheck =>
      match sess_validateTrackProperties (pub_TrackProperties msg) (pw_s w) with
      | (Err e, s) => Some (refuse (TrackPropertiesRejectCode e) (text e) s w)
      | (Ok _, s) => Some (MkPW r s (pw_others w) PAuth (pw_log w))
      end
  | PAuth => Some (match denied with Some (code, reason) => refuse code reason (pw_s w) w | None => goto PCreate w end)
  | PCreate => let '(created, r) := GetOrCreateNew pub_name r in Some (MkPW r (pw_s w) (pw_others w) (PAlias created) (pw_log w))
  | PAlias created =>
      match RegisterInboundTrack (pub_TrackAlias msg) (fn_Key pub_name) (pub_TrackProperties msg) (pw_s w) with
      | (Err _, s) => Some (MkPW r s (pw_others w) (if (created : bool) then PUnused else PDone) (pw_log w))
      | (Ok _, s) => Some (MkPW r s (pw_others w) PAdd (pw_log w))
      end
  | PUnused => Some (MkPW (DeleteIfUnused pub_name r) (pw_s w) (pw_others w) PDone (pw_log w))
  | PAdd =>
      let r := (AddUpstream pub_name publish_upstream (Some (pub_TrackProperties msg)) r).2 in
      Some (MkPW (saveLargestLocation (fn_Key pub_name) (pub_Parameters msg) r) (pw_s w) (pw_others w) POK (pw_log w))
  | POK =>
      match marshal_events wok (MRequestOK (MkRequestOK [] [])) with
      | Some ev => Some (MkPW r (pw_s w) (pw_others w) PServing (pw_log w ++ ev))
      | None => Some (goto PRemove w)
      end
  | PServing => Some (goto PRemove w)
  | PRemove => Some (MkPW (RemoveUpstream pub_name id r).2 (pw_s w) (pw_others w) PRelease (pw_log w))
  | PRelease => Some (MkPW r (s_Unregister (pub_TrackAlias msg) (pw_s w)) (pw_others w) PDone (pw_log w))
  | PDone => None
  end.

Definition listed r : Prop := exists u, u ∈ upstreams (fn_Key pub_name) r /\ ur_ID u = id.

(** Another handler registers or releases an alias it holds; anything happens to the
    table, but nobody else adds this upstream. *)
Inductive pstep w : PublishWorld D -> Prop :=
| ps_handler denied wok w' : publish_step denied wok w = Some w' -> pstep w w'
| ps_alias o : match o with ARegister _ _ _ => True | AUnregister a => a ∈ (pw_others w).*1 end ->
    pstep w (MkPW (pw_r w) (set_aliases (pw_s w) (alias_step o (pw_others w, s_aliases (pw_s w))).2)
               (alias_step o (pw_others w, s_aliases (pw_s w))).1 (pw_phase w) (pw_log w))
| ps_table r' : reg_step (pw_r w) r' -> (listed r' -> listed (pw_r w)) -> pstep w (MkPW r' (pw_s w) (pw_others w) (pw_phase w) (pw_log w)).

(** ** What holds in every state *)

Definition holding (ph : publish_phase) : list (Z * Key) :=
  match ph with PAdd | POK | PServing | PRemove | PRelease => [(pub_TrackAlias msg, fn_Key pub_name)] | _ => [] end.
Definition may_list (ph : publish_phase) : bool := match ph with POK | PServing | PRemove => true | _ => false end.
Definition unanswered (ph : publish_phase) : bool := match ph with PCheck | PAuth | PCreate | PAlias _ | PUnused | PAdd | POK => true | _ => false end.
(** Steps the handler still takes, at most. *)
Definition steps_left (ph : publish_phase) : nat :=
  match ph with PCheck => 9 | PAuth => 8 | PCreate => 7 | PAlias _ => 6 | PUnused => 1 | PAdd => 5 | POK => 4 | PServing => 3 | PRemove => 2 | PRelease => 1 | PDone => 0 end.

Record publish_ok w : Prop := {
  pk_tab : tab_inv (pw_r w);
  pk_alias : alias_inv (holding (pw_phase w) ++ pw_others w) (s_aliases (pw_s w));
  pk_listed : listed (pw_r w) -> may_list (pw_phase w) = true;
  pk_log : unanswered (pw_phase w) = true -> pw_log w = [] }.

Context `{!AdvertiserLaws D}.

Lemma alias_inv_perm held held' t : held ≡ₚ held' -> alias_inv held t -> alias_inv held' t.
Proof.
  intros Hp [H1 H2 H3]. assert (forall a, holders a held ≡ₚ holders a held') as Hh.
  { intros a. clear -Hp. induction Hp as [|x l l' _ IH|x y l|l1 l2 l3 _ IH1 _ IH2]; [done| | |by etrans].
    - by rewrite !holders_cons, IH.
    - rewrite !holders_cons, !app_assoc. apply Permutation_app_tail, Permutation_app_comm. }
  split.
  - intros a. rewrite H1. unfold len. by rewrite Hh.
  - intros a. rewrite H2. specialize (Hh a). split; intros Hn E; rewrite E in Hh; [by apply Permutation_nil_r in Hh|by apply Permutation_nil_l in Hh].
  - intros a k inb E Hk. apply (H3 a k inb E). by rewrite Hh.
Qed.

Lemma release_app a l m : a ∈ l.*1 -> release a (l ++ m) = release a l ++ m.
Proof.
  induction l as [|x l IH]; simpl; [by intros ?%not_elem_of_nil|]. destruct (Z.eqb_spec x.1 a) as [|Hne]; [done|].
  intros [?|Ha]%elem_of_cons; [congruence|]. simpl. by rewrite IH.
Qed.

Lemma validate_aliases props s res s' : sess_validateTrackProperties props s = (res, s') -> s_aliases s' = s_aliases s.
Proof.
  unfold sess_validateTrackProperties, sess_checkTrackPropertyValues, or_close, known_properties, fail_closing.
  cbv [mbind sess_bind mret sess_ret]. destruct (checkTrackPropertyValues props); simpl.
  - case_match; by intros [= _ <-].
  - by intros [= _ <-].
Qed.

Lemma create_upstreams k name' r : upstreams k (GetOrCreateNew name' r).2 = upstreams k r.
Proof.
  unfold GetOrCreateNew, upstreams, getOrCreateLocked. destruct (r_tracks r !! fn_Key name') as [e|] eqn:E; [done|]. simpl.
  destruct (decide (fn_Key name' = k)) as [<-|]; [by rewrite lookup_insert_eq, E|by rewrite lookup_insert_ne].
Qed.

Lemma unused_upstreams k name' r u : u ∈ upstreams k (DeleteIfUnused name' r) -> u ∈ upstreams k r.
Proof.
  unfold DeleteIfUnused, upstreams. destruct (r_tracks r !! fn_Key name') as [e|] eqn:E; [|done]. destruct (_ || _); [done|]. destruct (_ && _); [|done]. simpl.
  destruct (decide (fn_Key name' = k)) as [<-|]; [rewrite lookup_delete_eq; by intros ?%not_elem_of_nil|by rewrite lookup_delete_ne].
Qed.

Lemma removed_upstreams name' i r u : tab_inv r -> u ∈ upstreams (fn_Key name') (RemoveUpstream name' i r).2 -> ur_ID u <> i.
Proof.
  intros Hr. unfold RemoveUpstream. destruct (r_tracks r !! fn_Key name') as [e|] eqn:E.
  2: { simpl. unfold upstreams. rewrite E. by intros ?%not_elem_of_nil. }
  pose proof (ti_keys _ _ _ _ _ Hr _ _ E) as Hk. set (us := List.filter _ _).
  assert (forall u, u ∈ us -> ur_ID u <> i) as Hus by (intros v; rewrite list_elem_of_In; unfold us; rewrite filter_In, negb_true_iff, Z.eqb_neq; tauto).
  destruct (len us <? len (te_Upstream e)); simpl; [|unfold upstreams; simpl; rewrite Hk, lookup_insert_eq; apply Hus].
  unfold settle_entry, notify, upstreams. destruct (len us =? 0); simpl; [destruct (len (te_Downstream e) =? 0)|]; simpl; rewrite ?Hk;
    rewrite ?lookup_delete_eq, ?lookup_insert_eq; [by intros ?%not_elem_of_nil|apply Hus..].
Qed.

Lemma table_ok r r' : reg_step r r' -> tab_inv r -> tab_inv r'.
Proof. apply reg_step_inv. Qed.

Lemma publish_step_ok denied wok w w' : publish_ok w -> publish_step denied wok w = Some w' -> publish_ok w'.
Proof.
  intros [H1 H2 H3 H4] Hs. destruct w as [r s others ph lg]. unfold publish_step in Hs. simpl in *. destruct ph; simpl in *.
  - destruct (sess_validateTrackProperties _ s) as [[u|e] s1] eqn:Ev; injection Hs as <-; apply validate_aliases in Ev; split; simpl; rewrite ?Ev; done.
  - injection Hs as <-. by destruct denied as [[code reason]|]; split.
  - destruct (GetOrCreateNew pub_name r) as [created r1] eqn:Eg. injection Hs as <-. assert (r1 = (GetOrCreateNew pub_name r).2) as -> by (by rewrite Eg).
    split; simpl; try done; [by eapply table_ok; [apply rs_create|]|]. unfold listed. rewrite create_upstreams. intros Hl. by apply H3 in Hl.
  - unfold RegisterInboundTrack in Hs. pose proof (alias_step_inv (ARegister (pub_TrackAlias msg) (fn_Key pub_name) (pub_TrackProperties msg)) (others, s_aliases s) H2) as Ha.
    simpl in Ha. destruct (registerInboundTrack _ _ _) as [[u|e] t]; simpl in Hs; injection Hs as <-.
    + by split.
    + by destruct created; split.
  - injection Hs as <-. split; simpl; try done; [by eapply table_ok; [apply rs_unused|]|]. intros (u & Hu & Hid). cut (false = true); [done|].
    apply H3. exists u. split; [by eapply unused_upstreams|done].
  - injection Hs as <-. split; simpl; try done. unfold saveLargestLocation.
    assert (tab_inv (AddUpstream pub_name publish_upstream (Some (pub_TrackProperties msg)) r).2) as Hi by (by eapply table_ok; [apply rs_add_up|]).
    destruct (p_Find _ _); [|done]. destruct (_ !! _); [|done]. by eapply table_ok; [apply rs_touch|].
  - destruct (marshal_events wok _) as [ev|]; injection Hs as <-; split; done.
  - injection Hs as <-. split; done.
  - injection Hs as <-. split; simpl; try done; [by eapply table_ok; [apply rs_remove_up|]|]. intros (u & Hu & Hid). by apply removed_upstreams in Hu.
  - injection Hs as <-. split; simpl; try done.
    pose proof (alias_step_inv (AUnregister (pub_TrackAlias msg)) (_, s_aliases s) H2) as Ha. simpl in Ha. by rewrite Z.eqb_refl in Ha.
  - done.
Qed.

Lemma pstep_ok w w' : pstep w w' -> publish_ok w -> publish_ok w'.
Proof.
  intros [denied wok w1 Hs|o Ho|r' Hr Hl] H; [by eapply publish_step_ok| |].
  - destruct H as [H1 H2 H3 H4]. split; simpl; try done.
    pose proof (alias_step_inv o (pw_others w ++ holding (pw_phase w), s_aliases (pw_s w)) ltac:(simpl; eapply alias_inv_perm; [apply Permutation_app_comm|done])) as Ha.
    eapply alias_inv_perm; [apply Permutation_app_comm|]. destruct o as [a k props|a]; simpl in *.
    + by destruct (registerInboundTrack _ _ _) as [[]].
    + by rewrite release_app in Ha.
  - destruct H as [H1 H2 H3 H4]. split; simpl; try done; [by eapply table_ok|]. auto.
Qed.

Lemma prun_ok w w' : rtc pstep w w' -> publish_ok w -> publish_ok w'.
Proof. induction 1 as [|w w1 w' Hs _ IH]; [done|]. intros H. by eapply IH, pstep_ok. Qed.

Definition publish0 r (s : Session) (others : list (Z * Key)) : PublishWorld D := MkPW r s others PCheck [].

Fixpoint handler_run (n : nat) w : option (PublishWorld D) :=
  match n with O => Some w | S n => publish_step None true w ≫= handler_run n end.
Lemma handler_runs n : forall w w', handler_run n w = Some w' -> rtc pstep w w'.
Proof.
  induction n as [|n IH]; intros w w'; simpl; [by intros [= <-]|]. destruct (publish_step None true w) as [w1|] eqn:E; [|done].
  intros H. eapply rtc_l; [by eapply ps_handler|]. by apply IH.
Qed.

(** ** The answer *)

(** The track's entry lists the upstream, with the publisher's Largest Object taken over. *)
Definition published r : Prop :=
  exists e, r_tracks r !! fn_Key pub_name = Some e /\ publish_upstream ∈ te_Upstream e /\
    forall p, p_Find (pub_Parameters msg) ParamLargestObject = Some p ->
      HasLargestObject (te_mark e) = true /\ loc_le (MkLoc (p_Group p) (p_Object p)) (LargestObject (te_mark e)).

(** Before [w] the upstream was listed and its alias routable, with nothing written. *)
Definition published_before w0 w : Prop :=
  exists w1, rtc pstep w0 w1 /\ rtc pstep w1 w /\ pw_log w1 = [] /\ published (pw_r w1) /\
    LookupInboundTrackAlias (pub_TrackAlias msg) (s_aliases (pw_s w1)) = Some (fn_Key pub_name).

Definition past_add (ph : publish_phase) : bool := match ph with POK | PServing | PRemove | PRelease => true | _ => false end.
Definition refusal (log : list req_event) : Prop :=
  exists role code reason, log = (RejectError true (MPublish msg) role code reason).2.
Record answered w0 w : Prop := {
  an_reach : rtc pstep w0 w;
  an_added : past_add (pw_phase w) = true -> published_before w0 w;
  an_log : pw_log w = [] \/ (pw_phase w = PDone /\ refusal (pw_log w)) \/
           (pw_log w = [RqMsg (MRequestOK (MkRequestOK [] []))] /\ published_before w0 w) }.

Lemma before_step w0 w w' : pstep w w' -> published_before w0 w -> published_before w0 w'.
Proof. intros Hs (w1 & ? & ? & Hx). exists w1. split; [done|]. split; [by eapply rtc_r|done]. Qed.

Lemma alias_routable w : publish_ok w -> (pub_TrackAlias msg, fn_Key pub_name) ∈ holding (pw_phase w) ->
  LookupInboundTrackAlias (pub_TrackAlias msg) (s_aliases (pw_s w)) = Some (fn_Key pub_name).
Proof.
  intros [_ [_ A2 A3] _ _] Hin. set (a := pub_TrackAlias msg) in *.
  assert (fn_Key pub_name ∈ holders a (holding (pw_phase w) ++ pw_others w)) as Hk.
  { destruct (pw_phase w); try (by apply not_elem_of_nil in Hin); simpl; rewrite holders_cons; simpl; rewrite Z.eqb_refl; by left. }
  destruct (proj2 (A2 a)) as [inb E]; [intros Hx; rewrite Hx in Hk; by apply not_elem_of_nil in Hk|].
  unfold LookupInboundTrackAlias, LookupInboundTrack. rewrite E. simpl. f_equal. symmetry. by eapply A3.
Qed.

Lemma update_largest loc (m : Watermark) : HasLargestObject (UpdateLargest loc m).2 = true /\ loc_le loc (LargestObject (UpdateLargest loc m).2).
Proof.
  unfold UpdateLargest. destruct (negb (HasLargestObject m) || Less (LargestObject m) loc) eqn:E; simpl.
  - split; [done|]. unfold loc_le. lia.
  - apply orb_false_iff in E as [E1 E2]. apply negb_false_iff in E1. split; [done|]. by apply Less_false.
Qed.

(** [AddUpstream] lists it, and the watermark takes the publisher's over. *)
Lemma add_published r : tab_inv r ->
  published (saveLargestLocation (fn_Key pub_name) (pub_Parameters msg) (AddUpstream pub_name publish_upstream (Some (pub_TrackProperties msg)) r).2).
Proof.
  intros Hr. set (r1 := (AddUpstream _ _ _ r).2). assert (exists e, r_tracks r1 !! fn_Key pub_name = Some e /\ publish_upstream ∈ te_Upstream e) as (e & He & Hu).
  { unfold r1, AddUpstream. cbv zeta. set (e0 := getOrCreateLocked pub_name r).
    assert (fn_Key (te_FullName e0) = fn_Key pub_name) as Hk.
    { unfold e0, getOrCreateLocked. destruct (r_tracks r !! fn_Key pub_name) as [e|] eqn:E; [by eapply (ti_keys _ _ _ _ _ Hr)|done]. }
    set (e1 := MkEntry _ _ _ _ _ _ _ _ _). set (e2 := if len (te_Properties e1) =? 0 then _ else e1).
    assert (fn_Key (te_FullName e2) = fn_Key pub_name /\ te_Upstream e2 = te_Upstream e0 ++ [publish_upstream]) as [Hk2 Hu2].
    { unfold e2. by destruct (len (te_Properties e1) =? 0). }
    exists e2. split; [|rewrite Hu2; set_solver]. destruct (len (te_Upstream e0) =? 0); simpl; by rewrite Hk2, lookup_insert_eq. }
  unfold published, saveLargestLocation. destruct (p_Find _ _) as [p|]; [|by exists e]. rewrite He.
  unfold touch_entry. rewrite He. simpl. rewrite lookup_insert_eq. eexists. split; [done|]. split; [done|].
  intros p' [= <-]. apply update_largest.
Qed.

Lemma answered_step w0 w w' : pstep w w' -> publish_ok w -> answered w0 w -> answered w0 w'.
Proof.
  intros Hs H [A1 A2 A3]. assert (rtc pstep w0 w') as Hr by (by eapply rtc_r).
  pose proof (pk_log _ H) as Hl. pose proof (pstep_ok _ _ Hs H) as H'.
  assert (pw_log w' = pw_log w -> past_add (pw_phase w') = past_add (pw_phase w) \/ past_add (pw_phase w') = false -> 
    (pw_phase w = PDone -> pw_phase w' = PDone) -> answered w0 w') as Hsame.
  { intros El Ep Ed. split; [done| |].
    - intros Hp. eapply before_step; [done|]. apply A2. destruct Ep; congruence.
    - rewrite El. destruct A3 as [?|[[? ?]|[? ?]]]; [by left|right; left; auto|right; right]. split; [done|]. by eapply before_step. }
  pose proof Hs as Hs0. destruct Hs as [denied wok w' Hs|o Ho|r' Hr' Hl']; [|by apply Hsame; auto|by apply Hsame; auto].
  destruct w as [r s others ph lg]. unfold publish_step in Hs. simpl in Hs. destruct ph; simpl in *.
  - destruct (sess_validateTrackProperties _ s) as [[u|e] s1]; injection Hs as <-; [by apply Hsame; auto|]. split; [done|done|].
    right; left. split; [done|]. rewrite Hl by done. do 3 eexists. reflexivity.
  - injection Hs as <-. destruct denied as [[code reason]|]; [|by apply Hsame; auto]. split; [done|done|].
    right; left. split; [done|]. simpl. rewrite Hl by done. do 3 eexists. reflexivity.
  - destruct (GetOrCreateNew pub_name r) as [created r1]. injection Hs as <-. by apply Hsame; auto.
  - destruct (RegisterInboundTrack _ _ _ _) as [[u|e] t]; injection Hs as <-; [by apply Hsame; auto|]. by apply Hsame; destruct created; auto.
  - injection Hs as <-. by apply Hsame; auto.
  - injection Hs as <-. split; [done| |left; by apply Hl]. intros _. eexists. split; [exact Hr|]. split; [apply rtc_refl|]. split; [by apply Hl|].
    split; [apply add_published, (pk_tab _ H)|]. apply alias_routable; [done|]. by left.
  - unfold marshal_events in Hs. destruct (Marshal [] _); [destruct wok|]; injection Hs as <-; [|by apply Hsame; auto..].
    split; [done| |]; simpl.
    + intros _. eapply before_step; [done|]. by apply A2.
    + right; right. split; [by rewrite Hl|]. eapply before_step; [exact Hs0|]. by apply A2.
  - injection Hs as <-. by apply Hsame; auto.
  - injection Hs as <-. by apply Hsame; auto.
  - injection Hs as <-. by apply Hsame; auto.
  - done.
Qed.

Lemma answered_run w0 w w' : rtc pstep w w' -> publish_ok w -> answered w0 w -> answered w0 w'.
Proof.
  induction 1 as [|w w1 w' Hs _ IH]; [done|]. intros H Ha. apply IH; [by eapply pstep_ok|by eapply answered_step].
Qed.

(** C21: a PUBLISH leaves nothing behind.  Whatever happens to the track table, and
    whatever aliases other handlers of the session register and release, meanwhile: the
    session's aliases are at all times those other handlers hold and, from its
    registration to its release, the PUBLISH's own, so the track it names is routable
    for as long as the upstream is listed; a REQUEST_OK is all that is written when the
    PUBLISH is accepted, and before it was the upstream was listed on the track's entry,
    with the publisher's Largest Object taken over and its alias routable, so a SUBSCRIBE
    elsewhere finds the track once REQUEST_OK is out; anything else that is written is one
    refusal, with which the handler ends; it is never stuck and ends after at most nine
    steps of its own; and once it has ended, however it did, its upstream is not listed
    and its alias is released exactly once. *)
Theorem publish_leaves_nothing r0 s0 others w :
  tab_inv r0 -> alias_inv others (s_aliases s0) -> ~ listed r0 -> rtc pstep (publish0 r0 s0 others) w ->
  (forall a k, LookupInboundTrackAlias a (s_aliases (pw_s w)) = Some k <-> k ∈ holders a (holding (pw_phase w) ++ pw_others w)) /\
  (listed (pw_r w) -> LookupInboundTrackAlias (pub_TrackAlias msg) (s_aliases (pw_s w)) = Some (fn_Key pub_name)) /\
  (pw_log w <> [] -> unanswered (pw_phase w) = false) /\
  (pw_log w = [] \/ (pw_phase w = PDone /\ refusal (pw_log w)) \/
   (pw_log w = [RqMsg (MRequestOK (MkRequestOK [] []))] /\ published_before (publish0 r0 s0 others) w)) /\
  (forall denied wok, pw_phase w <> PDone -> exists w', publish_step denied wok w = Some w' /\ (steps_left (pw_phase w') < steps_left (pw_phase w) <= 9)%nat) /\
  (pw_phase w = PDone -> ~ listed (pw_r w) /\ alias_inv (pw_others w) (s_aliases (pw_s w))).
Proof.
  intros Hr Ha Hn Hrun. assert (publish_ok (publish0 r0 s0 others)) as H0 by (split; simpl; try done; intros Hl; by apply Hn in Hl).
  pose proof (prun_ok _ _ Hrun H0) as Hok. pose proof Hok as [H1 H2 H3 H4].
  assert (answered (publish0 r0 s0 others) w) as [_ _ Hans] by (apply (answered_run _ _ _ Hrun H0); split; [done|done|by left]).
  pose proof H2 as [A1 A2 A3].
  assert (forall a k, LookupInboundTrackAlias a (s_aliases (pw_s w)) = Some k <-> k ∈ holders a (holding (pw_phase w) ++ pw_others w)) as Hlook.
  { intros a k. unfold LookupInboundTrackAlias, LookupInboundTrack. destruct (at_tracks (s_aliases (pw_s w)) !! a) as [inb|] eqn:E; simpl.
    - split; [|intros Hk; f_equal; symmetry; by eapply A3]. intros [= <-].
      destruct (holders a _) as [|k' l] eqn:Eh; [by destruct (proj1 (A2 a)); [by eexists|]|]. rewrite <-(A3 a k' inb E) by (rewrite Eh; by left). by left.
    - split; [done|]. intros Hk. destruct (proj2 (A2 a)) as [? Hs]; [intros Hx; rewrite Hx in Hk; by apply not_elem_of_nil in Hk|]. by rewrite E in Hs. }
  split_and!; [done| | |done| |].
  - intros Hl%H3. apply Hlook. destruct (pw_phase w); try done; simpl; rewrite holders_cons; simpl; rewrite Z.eqb_refl; by left.
  - intros Hlog. apply not_true_is_false. intros Hu. by apply H4 in Hu.
  - intros denied wok Hd. unfold publish_step. destruct (pw_phase w); try done; simpl.
    + destruct (sess_validateTrackProperties _ _) as [[]]; eexists; (split; [done|]); simpl; lia.
    + destruct denied as [[]|]; eexists; (split; [done|]); simpl; lia.
    + destruct (GetOrCreateNew _ _); eexists; (split; [done|]); simpl; lia.
    + destruct (RegisterInboundTrack _ _ _ _) as [[]]; [|destruct created]; eexists; (split; [done|]); simpl; lia.
    + eexists; (split; [done|]); simpl; lia.
    + eexists; (split; [done|]); simpl; lia.
    + destruct (marshal_events _ _); eexists; (split; [done|]); simpl; lia.
    + eexists; (split; [done|]); simpl; lia.
    + eexists; (split; [done|]); simpl; lia.
    + eexists; (split; [done|]); simpl; lia.
  - intros Ed. rewrite Ed in *. split; [|done]. intros Hl. by apply H3 in Hl.
Qed.
End Handler.

(** ** Runs *)

Definition sample_publish : Publish := MkPublish 0 [[Byte.x61]] [Byte.x62] 7 [ForwardParam false] [].
Definition plain_text (e : error) : bytes := [].
Definition publish_start : PublishWorld MemoryStore := publish0 (NewTrackRegistry 0 0 None None []) (new_session roleServer ∅ 0 0) [].

Lemma empty_listed (r : TrackRegistry MemoryStore) : r_tracks r = ∅ -> ~ listed 1 sample_publish r.
Proof. intros E (u & Hu & _). unfold upstreams in Hu. rewrite E, lookup_empty in Hu. by apply not_elem_of_nil in Hu. Qed.

Lemma start_ok : tab_inv (pw_r publish_start) /\ alias_inv [] (s_aliases (pw_s publish_start)).
Proof.
  split; [|exact (alias_run_inv [])]. split; simpl; try (intros *; by rewrite lookup_empty). by intros d [=].
Qed.

(** A publisher is accepted, served, and goes. *)
Lemma publish_leaves_nothing_witness : exists w1 w2, handler_run plain_text 3 1 sample_publish 7 publish_start = Some w1 /\
  handler_run plain_text 3 1 sample_publish 2 w1 = Some w2 /\ pw_phase w1 = PRemove /\ pw_log w1 = [RqMsg (MRequestOK (MkRequestOK [] []))] /\
  LookupInboundTrackAlias 7 (s_aliases (pw_s w1)) = Some (fn_Key (pub_name sample_publish)) /\ pw_phase w2 = PDone /\
  LookupInboundTrackAlias 7 (s_aliases (pw_s w2)) = None /\ ~ listed 1 sample_publish (pw_r w2).
Proof.
  assert ((fun w => (pw_phase w, pw_log w, LookupInboundTrackAlias 7 (s_aliases (pw_s w)))) <$> handler_run plain_text 3 1 sample_publish 7 publish_start =
    Some (PRemove, [RqMsg (MRequestOK (MkRequestOK [] []))], Some (fn_Key (pub_name sample_publish)))) as Hr by (vm_compute; reflexivity).
  assert ((fun w => (pw_phase w, LookupInboundTrackAlias 7 (s_aliases (pw_s w)))) <$>
    match handler_run plain_text 3 1 sample_publish 7 publish_start with Some w1 => handler_run plain_text 3 1 sample_publish 2 w1 | None => None end =
    Some (PDone, None)) as Hr2 by (vm_compute; reflexivity).
  destruct (handler_run plain_text 3 1 sample_publish 7 publish_start) as [w1|] eqn:E1; [|discriminate Hr]. injection Hr as H1 H2 H3.
  cbv beta iota in Hr2. destruct (handler_run plain_text 3 1 sample_publish 2 w1) as [w2|] eqn:E2; [|discriminate Hr2]. injection Hr2 as H4 H5.
  assert (rtc (pstep plain_text 3 1 sample_publish) publish_start w2) as Hrun by (etrans; [exact (handler_runs _ _ _ _ _ _ _ E1)|exact (handler_runs _ _ _ _ _ _ _ E2)]).
  clear E1. exists w1, w2. split; [done|]. split; [exact E2|]. clear E2.
  destruct (publish_leaves_nothing plain_text 3 1 sample_publish (pw_r publish_start) (pw_s publish_start) [] w2
    (proj1 start_ok) (proj2 start_ok) (empty_listed (pw_r publish_start) eq_refl) Hrun) as (_ & _ & _ & _ & _ & Hd).
  split_and!; try done. by apply Hd.
Defined.

(** Two sessions publish one track.  The first creates its entry, the second finds it
    and registers its alias; the first one's alias is a duplicate, and the entry it
    created, which nothing has used yet, is deleted: the second one's alias is routable
    and names a track without entry. *)
Lemma adopted_entry_deleted : exists w, rtc (pstep plain_text 3 1 sample_publish) publish_start w /\ pw_phase w = PAdd /\
  LookupInboundTrackAlias 7 (s_aliases (pw_s w)) = Some (fn_Key (pub_name sample_publish)) /\ r_tracks (pw_r w) !! fn_Key (pub_name sample_publish) = None.
Proof.
  set (r1 := (GetOrCreateNew (pub_name sample_publish) (pw_r publish_start)).2).
  set (w1 := MkPW r1 (pw_s publish_start) [] PCheck []).
  assert ((fun w => (pw_phase w, LookupInboundTrackAlias 7 (s_aliases (pw_s w)), len (upstreams (fn_Key (pub_name sample_publish)) (pw_r w)),
                     r_tracks (DeleteIfUnused (pub_name sample_publish) (pw_r w)) !! fn_Key (pub_name sample_publish))) <$>
    handler_run plain_text 3 1 sample_publish 4 w1 = Some (PAdd, Some (fn_Key (pub_name sample_publish)), 0, None)) as Hr by (vm_compute; reflexivity).
  destruct (handler_run plain_text 3 1 sample_publish 4 w1) as [w|] eqn:E; [|discriminate Hr]. injection Hr as H1 H2 H3 H4.
  exists (MkPW (DeleteIfUnused (pub_name sample_publish) (pw_r w)) (pw_s w) (pw_others w) (pw_phase w) (pw_log w)). split; [|done].
  eapply rtc_l; [apply (ps_table _ _ _ _ _ r1); [apply rs_create|]|].
  { intros Hl. exfalso. destruct Hl as (u & Hu & _). unfold r1 in Hu. rewrite create_upstreams in Hu. unfold upstreams in Hu.
    change (r_tracks (pw_r publish_start)) with (∅ : gmap Key TrackEntry) in Hu. rewrite lookup_empty in Hu. by apply not_elem_of_nil in Hu. }
  etrans; [exact (handler_runs _ _ _ _ _ _ _ E)|]. apply rtc_once. apply ps_table; [apply rs_unused|].
  intros (u & Hu & Hid). exists u. split; [by eapply unused_upstreams|done].
Qed.
