(* ===== verification/OpenRequests.v ===== *)
(** * OpenRequests: opening requests

    The asking side of [pkg/moqt/session]: [openAllocRequest], [awaitRequestResponse]
    and [UpdateRequest] of [request.go], the openers over them ([subscribe.go],
    [publish.go], [namespace.go], [track_status.go], [fetch.go]), and
    [ReadPublishSkipped].

    What the peer sends on the response half is a list of what the reads of it yield,
    each with whether the caller's context had ended by then; a read past the end of
    the list is still waiting ([None]). *)

From stdpp Require Import gmap.
From S2P Require Import Prelude Codes Varint Wire KV Track Filter Params Properties RangeFilter Messages Objects Streams.
From S2P Require Import Stitch Tokens Session Broker Publication.

(** ** Opening *)

(** What [conn.OpenStream] does, and whether the transport takes the first message. *)
Inductive dial : Type := DialFailed (e : error) | Dialled (wok : bool).

Definition SetRequestID (rid : Z) (m : Message) : Message :=
  match m with
  | MSubscribe m => MSubscribe (MkSubscribe rid (sub_Namespace m) (sub_Name m) (sub_Parameters m))
  | MPublish m => MPublish (MkPublish rid (pub_Namespace m) (pub_Name m) (pub_TrackAlias m) (pub_Parameters m) (pub_TrackProperties m))
  | MFetch m => MFetch (MkFetch rid (fetch_Namespace m) (fetch_Name m) (fetch_Parameters m))
  | MTrackStatus m => MTrackStatus (MkTrackStatus rid (ts_Namespace m) (ts_Name m) (ts_Parameters m))
  | MPublishNamespace m => MPublishNamespace (MkPublishNamespace rid (pn_Namespace m) (pn_Parameters m))
  | MSubscribeNamespace m => MSubscribeNamespace (MkSubscribeNamespace rid (sn_Prefix m) (sn_Parameters m))
  | MSubscribeTracks m => MSubscribeTracks (MkSubscribeTracks rid (st_Prefix m) (st_Parameters m))
  | MRequestUpdate m => MRequestUpdate (MkRequestUpdate rid (ru_Parameters m))
  | m => m
  end.

Definition writeFirst (wok : bool) (first : Message) : result unit * list req_event :=
  match marshal_events wok first with
  | Some ev => (Ok tt, ev)
  | None => (Err (Wrapf "moqt/session: write request first message" (ErrTransport "write")), resetStream)
  end.

(** The message with its Request ID; [OpenPublish] is this. *)
Definition openAllocRequest (d : dial) (m : Message) (s : Session) : result Message * list req_event * Session :=
  match d with
  | DialFailed e => (Err e, [], s)
  | Dialled wok =>
      let '(rid, s) := AllocRequestID s in
      let m := SetRequestID rid m in
      match writeFirst wok m with
      | (Ok _, ev) => (Ok m, ev, s)
      | (Err e, ev) => (Err e, ev, s)
      end
  end.

(** ** Awaiting the response *)

Definition responseFirst (t : Z) : bool :=
  (t =? TypePublishNamespace) || (t =? TypeSubscribeNamespace) || (t =? TypeSubscribeTracks).

Definition response_read : Type := bool * result Message.

(** [op_unread] is what the stream's next reader finds. *)
Record opened (R : Type) : Type := MkOpened {
  op_result : result R; op_events : list req_event; op_unread : list response_read; op_session : Session }.
Arguments MkOpened {R}.
Arguments op_result {R}.
Arguments op_events {R}.
Arguments op_unread {R}.
Arguments op_session {R}.

(** A callback on the stream: its result, what it does to the stream, the session. *)
Definition stream_op (R : Type) : Type := Session -> result R * list req_event * Session.

Section Await.
Context {OK R : Type} (asOK : Message -> option OK) (onOK : Message -> OK -> stream_op R).

(** A response that is not the OK of [m]. *)
Definition unaccepted (m resp : Message) : sess R :=
  match resp with
  | MRequestError rerr => rejection rerr (msg_Type m)
  | _ =>
      let e := Errorf "moqt/session: unexpected message in response" in
      let t := msg_Type m in
      if (t =? TypeSubscribeNamespace) || (t =? TypeSubscribeTracks) then closeProtocolViolation e else sfail e
  end.

(** The response read, or what became of reading it. *)
Definition answer_response (m : Message) (resp : result Message) : stream_op R := fun s =>
  match resp with
  | Err e => (Err (Wrapf "moqt/session: read response" e), [RqClose], s)
  | Ok resp =>
      match asOK resp with
      | Some ok =>
          match checkRequestOKTrackProperties (Some m) resp s with
          | (Err e, s) => (Err e, [RqClose], s)
          | (Ok _, s) =>
              match onOK m ok s with
              | (Err e, ev, s) => (Err e, ev, s)
              | (Ok r, ev, s) =>
                  match CheckPeerParams (ScopeOfResponse (msg_Type m)) resp s with
                  | (Err e, s) => (Err e, ev, s)
                  | (Ok _, s) => (Ok r, ev, s)
                  end
              end
          end
      | None =>
          let '(r, s) := unaccepted m resp s in
          (r, [RqClose], s)
      end
  end.

Definition answered_with (m : Message) (resp : result Message) (unread : list response_read) (s : Session) : opened R :=
  let '(r, ev, s) := answer_response m resp s in MkOpened r ev unread s.

(** The response of a stream [m] was written on, a GOAWAY ahead of it included. *)
Definition await_response (m : Message) (reads : list response_read) (s : Session) : option (opened R) :=
  match reads with
  | [] => None
  | (ctxDone, parsed) :: reads =>
      let '(resp, s) := readResponse ctxDone parsed s in
      match resp with
      | Ok (MGoaway g) =>
          if responseFirst (msg_Type m) then Some (answered_with m resp reads s)
          else
            match goaways_Received g false s with
            | (Err e, s) => Some (MkOpened (Err e) [] reads s)
            | (Ok seen, s) =>
                match reads with
                | [] => None
                | (ctxDone, parsed) :: reads =>
                    let '(resp, s) := readResponse ctxDone parsed s in
                    match resp with
                    | Ok (MGoaway g2) => (* [seen] is [true]: always an error *)
                        match goaways_Received g2 seen s with
                        | (Err e, s) => Some (MkOpened (Err e) [] reads s)
                        | (Ok _, s) => None
                        end
                    | _ => Some (answered_with m resp ((false, Ok (MGoaway g)) :: reads) s)
                    end
                end
            end
      | _ => Some (answered_with m resp reads s)
      end
  end.

Definition awaitRequestResponse (d : dial) (m : Message) (reads : list response_read) (s : Session) : option (opened R) :=
  match openAllocRequest d m s with
  | (Err e, ev, s) => Some (MkOpened (Err e) ev reads s)
  | (Ok m, ev, s) =>
      (fun o => MkOpened (op_result o) (ev ++ op_events o) (op_unread o) (op_session o)) <$> await_response m reads s
  end.
End Await.

(** ** The openers *)

Definition asRequestOK (m : Message) : option RequestOK := match m with MRequestOK ok => Some ok | _ => None end.
Definition asSubscribeOK (m : Message) : option SubscribeOK := match m with MSubscribeOK ok => Some ok | _ => None end.
Definition asFetchOK (m : Message) : option FetchOK := match m with MFetchOK ok => Some ok | _ => None end.

(** [Subscription], [Publication], [NamespacePublication], [NamespaceSubscription] with
    its prefix, [TrackSubscription], [TrackStatusRequest] and [FetchRequest]. *)
Inductive established : Type :=
| ESubscription (h : requestHandle) (ok : SubscribeOK)
| EPublication (h : requestHandle) (p : Publication)
| ENamespacePublication (ok : RequestOK)
| ENamespaceSubscription (h : requestHandle) (prefix : TrackNamespace) (ok : RequestOK)
| ETrackSubscription (h : requestHandle) (ok : RequestOK)
| ETrackStatus (ok : RequestOK)
| EFetch (h : requestHandle) (ok : FetchOK).

Definition new_handle (namespaces : bool) (answered : Z) (alias : option Z) : requestHandle :=
  MkHandle namespaces answered (bool_decide (is_Some alias)) (default 0 alias) false false false false.

(** [requestHandle.Broker] of each, with the follow-ups its peer may send. *)
Definition established_Broker (r : established) : option RequestBroker :=
  match r with
  | ESubscription h _ => Some (handle_Broker h false true 0 [])
  | EPublication h _ => Some (handle_Broker h true false ScopeUpdateFromSubscriber [])
  | ENamespaceSubscription h prefix _ => Some (handle_Broker h false false 0 prefix)
  | ETrackSubscription h _ | EFetch h _ => Some (handle_Broker h false false 0 [])
  | ENamespacePublication _ | ETrackStatus _ => None
  end.

(** Run a check; cancel the request when it fails. *)
Definition or_cancel {A R} (check : sess A) (k : stream_op R) : stream_op R := fun s =>
  match check s with (Err e, s) => (Err e, cancelRequest, s) | (Ok _, s) => k s end.
Definition stream_ret {R} (r : R) : stream_op R := fun s => (Ok r, [], s).

Definition onSubscribeOK (m : Subscribe) (ok : SubscribeOK) : stream_op established :=
  or_cancel (sess_validateTrackProperties (sok_TrackProperties ok))
    (or_cancel (RegisterInboundTrack (sok_TrackAlias ok) (NewKey (sub_Namespace m) (sub_Name m)) (sok_TrackProperties ok))
       (stream_ret (ESubscription (new_handle false TypeSubscribe (Some (sok_TrackAlias ok))) ok))).
Definition session_Subscribe (d : dial) (m : Subscribe) : list response_read -> Session -> option (opened established) :=
  awaitRequestResponse asSubscribeOK (fun _ => onSubscribeOK m) d (MSubscribe m).

Definition session_Publish (d : dial) (m : Publish) (reads : list response_read) (s : Session) : option (opened established) :=
  let '(alias, s) := if pub_TrackAlias m =? 0 then AllocOutboundTrackAlias s else (pub_TrackAlias m, s) in
  let m := MkPublish (pub_RequestID m) (pub_Namespace m) (pub_Name m) alias (pub_Parameters m) (pub_TrackProperties m) in
  awaitRequestResponse asRequestOK
    (fun _ _ => stream_ret (EPublication (new_handle false TypePublish None)
                              (newPublication alias (pub_Parameters m) (pub_Parameters m))))
    d (MPublish m) reads s.

Definition session_PublishNamespace (d : dial) (m : PublishNamespace) : list response_read -> Session -> option (opened established) :=
  awaitRequestResponse asRequestOK (fun _ ok => stream_ret (ENamespacePublication ok)) d (MPublishNamespace m).

Definition session_SubscribeNamespace (d : dial) (m : SubscribeNamespace)
    : list response_read -> Session -> option (opened established) :=
  awaitRequestResponse asRequestOK (fun _ ok => stream_ret (ENamespaceSubscription (new_handle true 0 None) (sn_Prefix m) ok))
    d (MSubscribeNamespace m).

Definition session_SubscribeTracks (d : dial) (m : SubscribeTracks) : list response_read -> Session -> option (opened established) :=
  awaitRequestResponse asRequestOK
    (fun _ ok => or_cancel (sess_checkTrackPropertyValues (rok_TrackProperties ok))
                   (stream_ret (ETrackSubscription (new_handle false 0 None) ok)))
    d (MSubscribeTracks m).

(** [fin] is whether the transport takes the FIN. *)
Definition onTrackStatusOK (fin : bool) (ok : RequestOK) : stream_op established := fun s =>
  match sess_validateTrackProperties (rok_TrackProperties ok) s with
  | (Err e, s) => (Err e, [RqClose], s)
  | (Ok _, s) =>
      (if fin then Ok (ETrackStatus ok) else Err (Wrapf "moqt/session: FIN TRACK_STATUS stream" (ErrTransport "close")),
       [RqClose], s)
  end.
Definition session_TrackStatus (fin : bool) (d : dial) (m : TrackStatus) : list response_read -> Session -> option (opened established) :=
  awaitRequestResponse asRequestOK (fun _ => onTrackStatusOK fin) d (MTrackStatus m).

Definition onFetchOK (m : Fetch) (ok : FetchOK) : stream_op established :=
  or_cancel (sess_validateTrackProperties (fok_TrackProperties ok))
    (or_cancel (or_close SessionProtocolViolation (checkFetchOKEnd (fetch_Parameters m) ok))
       (stream_ret (EFetch (new_handle false 0 None) ok))).
Definition session_OpenFetch (d : dial) (m : Fetch) : list response_read -> Session -> option (opened established) :=
  awaitRequestResponse asFetchOK (fun _ => onFetchOK m) d (MFetch m).

(** The opener of a message. *)
Definition open_request (fin : bool) (d : dial) (m : Message) (reads : list response_read) (s : Session)
    : option (opened established) :=
  match m with
  | MSubscribe m => session_Subscribe d m reads s
  | MPublish m => session_Publish d m reads s
  | MPublishNamespace m => session_PublishNamespace d m reads s
  | MSubscribeNamespace m => session_SubscribeNamespace d m reads s
  | MSubscribeTracks m => session_SubscribeTracks d m reads s
  | MTrackStatus m => session_TrackStatus fin d m reads s
  | MFetch m => session_OpenFetch d m reads s
  | _ => None
  end.

(** ** On an established stream *)

(** [UpdateRequest]: what it does to the stream, and its result once an answer is read. *)
Definition UpdateRequest (wok : bool) (ps : Params) (reads : list response_read) (s : Session) : option (opened RequestOK) :=
  let '(rid, s) := AllocRequestID s in
  match marshal_events wok (MRequestUpdate (MkRequestUpdate rid ps)) with
  | None => Some (MkOpened (Err (Wrapf "moqt/session: write REQUEST_UPDATE" (ErrTransport "write"))) [] reads s)
  | Some ev =>
      match reads with
      | [] => None
      | (ctxDone, parsed) :: reads =>
          match readResponse ctxDone parsed s with
          | (Err e, s) => Some (MkOpened (Err (Wrapf "moqt/session: read REQUEST_UPDATE response" e)) ev reads s)
          | (Ok resp, s) => let '(r, s) := mapUpdateResponse resp s in Some (MkOpened r ev reads s)
          end
      end
  end.

(** [checkRequestOKTrackProperties] sees the type of its request only, here a nil PUBLISH. *)
Definition AwaitPublishOK (publish : Publish) (ctxDone : bool) (parsed : result Message) : sess RequestOK := fun s =>
  match readResponse ctxDone parsed s with
  | (Err e, s) => sfail (Wrapf "moqt/session: read PUBLISH response" e) s
  | (Ok (MRequestOK ok as m), s) =>
      (_ ← checkRequestOKTrackProperties (Some (MPublish publish)) m; _ ← CheckPeerParams ScopePublishOK m; mret ok) s
  | (Ok (MRequestError m), s) => rejection m TypePublish s
  | (Ok _, s) => sfail (Errorf "moqt/session: unexpected message in PUBLISH response") s
  end.

(** [seen] is the state of the handle's [goaways]. *)
Fixpoint ReadPublishSkipped (reads : list (result Message)) (seen : bool) (s : Session)
    : option (result PublishSkipped * list (result Message) * bool * Session) :=
  match reads with
  | [] => None
  | Err e :: reads =>
      let err := Wrapf "moqt/session: read SUBSCRIBE_TRACKS follow-up" e in
      let '(r, s) := if errors_Is e ErrMalformedMessage then closeProtocolViolation err s else sfail err s in
      Some (r, reads, seen, s)
  | Ok m :: reads =>
      match m with
      | MPublishSkipped m => Some (Ok m, reads, seen, s)
      | MGoaway g =>
          match goaways_Received g seen s with
          | (Err e, s) => Some (Err e, reads, true, s)
          | (Ok seen, s) => ReadPublishSkipped reads seen s
          end
      | MPublishStateNotify _ | MRequestUpdate _ =>
          let '(r, s) := closeProtocolViolation (Errorf "moqt/session: unexpected message on a SUBSCRIBE_TRACKS stream") s in
          Some (r, reads, seen, s)
      | _ => Some (Err (Errorf "moqt/session: unexpected message on SUBSCRIBE_TRACKS stream, want PUBLISH_SKIPPED"), reads, seen, s)
      end
  end.

(** ** What an opener leaves *)

(** A check that leaves the session as it is, or closes it and fails. *)
Definition only_closes {A} (m : sess A) : Prop :=
  forall s, (exists a, m s = (Ok a, s)) \/ (exists e, m s = (Err e, s)) \/
            (exists e code, code <> SessionNoError /\ m s = (Err e, close_session code s)).
Lemma only_closes_ret {A} (a : A) : only_closes (mret (M:=sess) a).
Proof. intros s. left. by exists a. Qed.
Lemma only_closes_fail {A} e : only_closes (sfail (A:=A) e).
Proof. intros s. right; left. by exists e. Qed.
Lemma only_closes_closing {A} code e : code <> SessionNoError -> only_closes (fail_closing (A:=A) code e).
Proof. intros Hc s. right; right. by exists e, code. Qed.
Lemma only_closes_violation {A} e : only_closes (closeProtocolViolation (A:=A) e).
Proof. by apply only_closes_closing. Qed.
#[local] Hint Resolve only_closes_ret only_closes_fail only_closes_violation : moq.

Ltac by_cases_checks :=
  repeat (case_match || (progress simpl)); first [by auto with moq|by apply only_closes_closing].

Lemma only_closes_bind {A B} (m : sess A) (f : A -> sess B) : only_closes m -> (forall a, only_closes (f a)) -> only_closes (m ≫= f).
Proof.
  intros Hm Hf s. unfold mbind, sess_bind. destruct (Hm s) as [[a ->]|[[e ->]|(e & code & Hc & ->)]].
  - apply Hf.
  - right; left. by exists e.
  - right; right. by exists e, code.
Qed.
Lemma readResponse_only ctx p : only_closes (readResponse ctx p).
Proof. unfold readResponse. by_cases_checks. Qed.
Lemma ok_properties_only req m : only_closes (checkRequestOKTrackProperties req m).
Proof. unfold checkRequestOKTrackProperties. by_cases_checks. Qed.
Lemma CheckPeerParams_only scope m : only_closes (CheckPeerParams scope m).
Proof. unfold CheckPeerParams. by_cases_checks. Qed.
Lemma goaways_only g seen : only_closes (goaways_Received g seen).
Proof. intros s. unfold goaways_Received. repeat case_match; first [by apply only_closes_violation|left; by eexists]. Qed.
Lemma rejection_only {A} m req : only_closes (rejection (A:=A) m req).
Proof. intros s. unfold rejection. case_match; [by apply only_closes_fail|by apply only_closes_violation]. Qed.
Lemma values_only raw : only_closes (sess_checkTrackPropertyValues raw).
Proof. unfold sess_checkTrackPropertyValues, or_close. by_cases_checks. Qed.
Lemma validate_only raw : only_closes (sess_validateTrackProperties raw).
Proof.
  apply only_closes_bind; [apply values_only|]. intros _ s. unfold known_properties. case_match.
  - left. by exists tt.
  - right; left. by eexists.
Qed.

(** What stays of a session that may have been closed. *)
Definition kept (s s' : Session) : Prop :=
  s_nextRequestID s' = s_nextRequestID s /\ s_aliases s' = s_aliases s /\ s_role s' = s_role s /\
  (s_close s' = s_close s \/ cs_done (s_close s') = true).
Lemma close_done code s : cs_done (s_close (close_session code s)) = true.
Proof. unfold close_session, Close, terminate. simpl. by destruct (cs_done (s_close s)) eqn:E. Qed.
Lemma only_closes_run {A} (m : sess A) s r s' : only_closes m -> m s = (r, s') ->
  kept s s' /\ (forall a, r = Ok a -> s' = s).
Proof.
  intros Hm. destruct (Hm s) as [[a ->]|[[e ->]|(e & code & Hc & ->)]]; intros [= <- <-]; (split; [|done || by intros]).
  1, 2: by split_and!; [..|left].
  split_and!; [done..|right; apply close_done].
Qed.

Lemma CheckPeerParams_err scope m s e s' : CheckPeerParams scope m s = (Err e, s') -> cs_done (s_close s') = true.
Proof. unfold CheckPeerParams. repeat case_match; intros [= <- <-]; apply close_done. Qed.
Lemma CheckPeerParams_ok scope m s a s' : CheckPeerParams scope m s = (Ok a, s') ->
  s' = s /\ forall ps, ParamsOf m = Some ps -> CheckScope ps scope = Ok tt.
Proof.
  unfold CheckPeerParams. destruct (ParamsOf m) as [ps|]; [|by intros [= _ <-]].
  destruct (CheckScope ps scope) as [[]|] eqn:E; [|by case_match]. intros [= _ <-]. split; [done|]. by intros ? [= <-].
Qed.
Lemma goaways_err g seen s e s' : goaways_Received g seen s = (Err e, s') -> cs_done (s_close s') = true.
Proof. unfold goaways_Received. repeat case_match; intros [= <- <-]; apply close_done. Qed.
Lemma goaways_ok g seen s a s' : goaways_Received g seen s = (Ok a, s') -> checkGoawayURI (s_role s) g = Ok tt /\ a = true /\ s' = s.
Proof. unfold goaways_Received. repeat case_match; intros [= <- <-]. split_and!; try done. by destruct a0. Qed.

(** A failure leaves the session closed, or the stream released and the aliases as
    they were; a success leaves the session open, and what [Q] says. *)
Definition left_clean {A} (Q : list req_event -> Session -> A -> Session -> Prop) (s : Session)
    (r : result A) (ev : list req_event) (s' : Session) : Prop :=
  s_nextRequestID s' = s_nextRequestID s /\
  match r with
  | Err _ => cs_done (s_close s') = true \/ (answered ev = true /\ s_aliases s' = s_aliases s)
  | Ok a => s_close s' = s_close s /\ Q ev s a s'
  end.
Definition settles {A} (Q : list req_event -> Session -> A -> Session -> Prop) (f : stream_op A) : Prop :=
  forall s r ev s', f s = (r, ev, s') -> left_clean Q s r ev s'.

Lemma settles_cancel {A B} Q (check : sess B) (k : stream_op A) : only_closes check -> settles Q k -> settles Q (or_cancel check k).
Proof.
  intros Hc Hk s r ev s'. unfold or_cancel. destruct (check s) as [[b|e] s1] eqn:E; apply (only_closes_run _ _ _ _ Hc) in E as [Hkept Hok].
  - rewrite (Hok b eq_refl). apply Hk.
  - intros [= <- <- <-]. destruct Hkept as (H1 & H2 & _). split; [done|]. by right.
Qed.
Lemma settles_ret {A} (Q : list req_event -> Session -> A -> Session -> Prop) a : (forall s, Q [] s a s) -> settles Q (stream_ret a).
Proof. intros HQ s r ev s' [= <- <- <-]. split; [done|]. by split. Qed.

Section Settled.
Context {OK R : Type} (asOK : Message -> option OK) (onOK : Message -> OK -> stream_op R).
Context (Q : OK -> list req_event -> Session -> R -> Session -> Prop) (Hon : forall m ok, settles (Q ok) (onOK m ok)).

(** [resp] answers [m]: accepted as its OK, its parameters in scope. *)
Definition accepted_as (m resp : Message) (ok : OK) : Prop :=
  asOK resp = Some ok /\ forall ps, ParamsOf resp = Some ps -> CheckScope ps (ScopeOfResponse (msg_Type m)) = Ok tt.

Lemma unaccepted_only m resp : only_closes (unaccepted (R:=R) m resp).
Proof. unfold unaccepted. destruct resp; try (case_match; auto with moq). apply rejection_only. Qed.
Lemma unaccepted_err m resp s : if (unaccepted (R:=R) m resp s).1 is Ok _ then False else True.
Proof. unfold unaccepted, rejection. by destruct resp; simpl; repeat case_match; simplify_eq/=. Qed.

Lemma answer_settles m resp s r ev s' : answer_response asOK onOK m resp s = (r, ev, s') ->
  left_clean (fun ev s a s' => exists resp' ok, resp = Ok resp' /\ accepted_as m resp' ok /\ Q ok ev s a s') s r ev s'.
Proof.
  unfold answer_response. destruct resp as [resp|e]; [|intros [= <- <- <-]; split; [done|by right]].
  destruct (asOK resp) as [ok|] eqn:Eok.
  - destruct (checkRequestOKTrackProperties _ resp s) as [[u|e] s1] eqn:E1;
      apply (only_closes_run _ _ _ _ (ok_properties_only _ _)) in E1 as [(K1 & K2 & _) Ho];
      [|intros [= <- <- <-]; split; [done|by right]].
    rewrite (Ho u eq_refl). destruct (onOK m ok s) as [[[a|e] ev2] s2] eqn:E2; apply Hon in E2 as [K3 K4];
      [|by intros [= <- <- <-]].
    destruct (CheckPeerParams _ resp s2) as [[u2|e] s3] eqn:E3; intros [= <- <- <-].
    + apply CheckPeerParams_ok in E3 as [-> Hps]. destruct K4 as [K4 K5]. split; [done|]. split; [done|].
      by exists resp, ok.
    + split; [|left; by eapply CheckPeerParams_err].
      apply (only_closes_run _ _ _ _ (CheckPeerParams_only _ _)) in E3 as [(K & _) _]. by rewrite K.
  - destruct (unaccepted m resp s) as [r' s2] eqn:E. intros [= <- <- <-]. pose proof (unaccepted_err m resp s) as Hn.
    rewrite E in Hn. destruct r' as [a|e]; [done|].
    apply (only_closes_run _ _ _ _ (unaccepted_only m resp)) in E as [(K1 & K2 & _) _]. split; [done|]. by right.
Qed.

(** The response of a stream and what is left after it: the first message, or the one
    after a GOAWAY that is put back. *)
Definition response_of (ro : role) (m : Message) (reads unread : list response_read) (resp : Message) : Prop :=
  (exists c, reads = (c, Ok resp) :: unread) \/
  (exists c1 c2 g rest, reads = (c1, Ok (MGoaway g)) :: (c2, Ok resp) :: rest /\
     unread = (false, Ok (MGoaway g)) :: rest /\ responseFirst (msg_Type m) = false /\ checkGoawayURI ro g = Ok tt).

Definition established_by (m : Message) (reads unread : list response_read) (ev : list req_event) (s : Session) (a : R) (s' : Session) : Prop :=
  exists resp ok, response_of (s_role s) m reads unread resp /\ accepted_as m resp ok /\ Q ok ev s a s'.

Lemma readResponse_run c p s r s1 : readResponse c p s = (r, s1) -> kept s s1 /\ (forall m, r = Ok m -> p = Ok m /\ s1 = s).
Proof.
  intros E. destruct (only_closes_run _ _ _ _ (readResponse_only c p) E) as [Hk Ho]. split; [done|].
  intros m ->. split; [|by eapply Ho]. unfold readResponse in E. destruct p as [m'|]; [by injection E as ->|by repeat case_match].
Qed.

Lemma answered_settles m reads unread s0 s resp :
  kept s0 s -> (forall x, resp = Ok x -> s = s0 /\ response_of (s_role s0) m reads unread x) ->
  let o := answered_with asOK onOK m resp unread s in
  left_clean (established_by m reads (op_unread o)) s0 (op_result o) (op_events o) (op_session o).
Proof.
  intros (K1 & K2 & _) Hr. unfold answered_with. destruct (answer_response _ _ _ resp s) as [[r ev] s'] eqn:E. simpl.
  pose proof E as E0. apply answer_settles in E as [L1 L2]. split; [by rewrite L1|]. destruct r as [a|e].
  - destruct L2 as (L2 & resp' & ok & -> & Hacc & HQ). destruct (Hr _ eq_refl) as [-> Hresp]. split; [done|]. by exists resp', ok.
  - by rewrite <- K2.
Qed.

Lemma await_settles m reads s o : await_response asOK onOK m reads s = Some o ->
  left_clean (established_by m reads (op_unread o)) s (op_result o) (op_events o) (op_session o).
Proof.
  unfold await_response. destruct reads as [|[c1 p1] reads1]; [done|].
  destruct (readResponse c1 p1 s) as [r1 s1] eqn:E1. apply readResponse_run in E1 as [K1 H1].
  assert (Hplain : forall o', Some (answered_with asOK onOK m r1 reads1 s1) = Some o' ->
    left_clean (established_by m ((c1, p1) :: reads1) (op_unread o')) s (op_result o') (op_events o') (op_session o')).
  { intros o' [= <-]. apply answered_settles; [done|]. intros x ->. destruct (H1 x eq_refl) as [-> ->].
    split; [done|]. left. by exists c1. }
  destruct r1 as [r1|e1]; [|by apply Hplain]. destruct r1; try by apply Hplain.
  destruct (responseFirst (msg_Type m)) eqn:Hf; [by apply Hplain|]. clear Hplain.
  destruct (H1 _ eq_refl) as [-> ->]. destruct (goaways_Received m0 false s) as [[seen|e] s2] eqn:E2.
  2: { intros [= <-]. simpl. split; [|left; by eapply goaways_err].
       by apply (only_closes_run _ _ _ _ (goaways_only _ _)) in E2 as [(K & _) _]. }
  apply goaways_ok in E2 as (Hg & -> & ->). destruct reads1 as [|[c2 p2] reads2]; [done|].
  destruct (readResponse c2 p2 s) as [r2 s2] eqn:E2. apply readResponse_run in E2 as [K2 H2].
  assert (Hplain : forall o', Some (answered_with asOK onOK m r2 ((false, Ok (MGoaway m0)) :: reads2) s2) = Some o' ->
    left_clean (established_by m ((c1, Ok (MGoaway m0)) :: (c2, p2) :: reads2) (op_unread o')) s (op_result o') (op_events o') (op_session o')).
  { intros o' [= <-]. apply answered_settles; [done|]. intros x ->. destruct (H2 x eq_refl) as [-> ->].
    split; [done|]. right. by exists c1, c2, m0, reads2. }
  destruct r2 as [r2|e2]; [|by apply Hplain]. destruct r2; try by apply Hplain.
  destruct (H2 _ eq_refl) as [-> ->]. destruct (goaways_Received m1 true s) as [[seen|e] s3] eqn:E3; [done|].
  intros [= <-]. simpl. split; [|left; by eapply goaways_err].
  by apply (only_closes_run _ _ _ _ (goaways_only _ _)) in E3 as [(K & _) _].
Qed.

(** ... and with the opening of the stream before it. *)
Definition opens_with (d : dial) (m : Message) (s : Session) (o : opened R) : Prop :=
  match d with
  | DialFailed e => op_result o = Err e /\ op_events o = [] /\ s_nextRequestID (op_session o) = s_nextRequestID s
  | Dialled wok =>
      s_nextRequestID (op_session o) = u64 (s_nextRequestID s + 2) /\
      (op_events o = resetStream /\ (exists e, op_result o = Err e) \/
       head (op_events o) = Some (RqMsg (SetRequestID (u64 (u64 (s_nextRequestID s + 2) - 2)) m)))
  end.

Lemma SetRequestID_type rid m : msg_Type (SetRequestID rid m) = msg_Type m.
Proof. by destruct m. Qed.

Lemma established_by_retype m m' reads unread ev s a s' : msg_Type m = msg_Type m' ->
  established_by m reads unread ev s a s' -> established_by m' reads unread ev s a s'.
Proof. intros E. unfold established_by, response_of, accepted_as. by rewrite E. Qed.

Definition opener_post (d : dial) (m : Message) (reads : list response_read) (s : Session) (o : opened R) : Prop :=
  opens_with d m s o /\
  match op_result o with
  | Err _ => cs_done (s_close (op_session o)) = true \/
      ((answered (op_events o) = true \/ exists e, d = DialFailed e) /\ s_aliases (op_session o) = s_aliases s)
  | Ok a => s_close (op_session o) = s_close s /\
      exists first s1, first <> [] /\ s_aliases s1 = s_aliases s /\ s_role s1 = s_role s /\
        answered first = false /\
        exists ev, op_events o = first ++ ev /\ established_by m reads (op_unread o) ev s1 a (op_session o)
  end.

Lemma answered_app l1 l2 : answered (l1 ++ l2) = answered l1 || answered l2.
Proof. apply existsb_app. Qed.

Lemma awaited d m reads s o : awaitRequestResponse asOK onOK d m reads s = Some o -> opener_post d m reads s o.
Proof.
  unfold awaitRequestResponse, openAllocRequest, opener_post. destruct d as [e|wok].
  { intros [= <-]. simpl. split; [done|]. right. split; [right; by eexists|done]. }
  unfold AllocRequestID. set (n := u64 (s_nextRequestID s + 2)). set (m' := SetRequestID (u64 (n - 2)) m).
  unfold writeFirst. destruct (marshal_events wok m') as [ev|] eqn:Em; simpl.
  2: { intros [= <-]. simpl. split; [split; [done|]; left; split; [done|by eexists]|]. right. split; [by left|done]. }
  assert (ev = [RqMsg m']) as -> by (unfold marshal_events in Em; repeat case_match; congruence).
  destruct (await_response asOK onOK m' reads _) as [o'|] eqn:E; simpl; [|done]. intros [= <-]. simpl.
  apply await_settles in E as [L1 L2]. split; [split; [done|by right]|]. destruct (op_result o') as [a|e].
  - destruct L2 as [L2 L3]. split; [done|]. exists [RqMsg m'], (set_next s n (s_nextAlias s)). split_and!; try done.
    exists (op_events o'). split; [done|]. eapply established_by_retype; [|done]. apply SetRequestID_type.
  - destruct L2 as [L2|[L2 L3]]; [by left|]. right. split; [left|done]. done.
Qed.
End Settled.

(** What [Q] is for the openers: the stream is open, or FINned after a TRACK_STATUS, and
    a SUBSCRIBE alone holds an alias, registered for its track, that its handle is to
    release. *)
Definition holds_stream (m : Message) (ev : list req_event) (s : Session) (r : established) (s' : Session) : Prop :=
  match r with
  | ESubscription h ok =>
      answered ev = false /\
      exists m', m = MSubscribe m' /\ h_holdsAlias h = true /\ h_released h = false /\ h_inboundAlias h = sok_TrackAlias ok /\
        registerInboundTrack (sok_TrackAlias ok)
          (inbound_of (NewKey (sub_Namespace m') (sub_Name m')) (sok_TrackProperties ok)) (s_aliases s) = (Ok tt, s_aliases s')
  | ETrackStatus _ => answered ev = true /\ s_aliases s' = s_aliases s
  | _ => answered ev = false /\ s_aliases s' = s_aliases s
  end.
(** The response a handle carries. *)
Definition carries (r : established) (resp : Message) : Prop :=
  match r with
  | ESubscription _ ok => resp = MSubscribeOK ok
  | EFetch _ ok => resp = MFetchOK ok
  | EPublication _ _ => exists ok, resp = MRequestOK ok
  | ENamespacePublication ok | ENamespaceSubscription _ _ ok | ETrackSubscription _ ok | ETrackStatus ok => resp = MRequestOK ok
  end.


(** The request as written, but for its Request ID. *)
Definition publish_alias (s : Session) (m : Message) : Message :=
  match m with
  | MPublish p =>
      MPublish (MkPublish (pub_RequestID p) (pub_Namespace p) (pub_Name p)
                  (if pub_TrackAlias p =? 0 then u64 (s_nextAlias s + 1) else pub_TrackAlias p) (pub_Parameters p) (pub_TrackProperties p))
  | m => m
  end.

Definition request_settled (d : dial) (m : Message) (reads : list response_read) (s : Session) (o : opened established) : Prop :=
  opens_with d (publish_alias s m) s o /\
  (forall e, op_result o = Err e ->
     cs_done (s_close (op_session o)) = true \/
     ((answered (op_events o) = true \/ exists e', d = DialFailed e') /\ s_aliases (op_session o) = s_aliases s)) /\
  (forall r, op_result o = Ok r ->
     s_close (op_session o) = s_close s /\ holds_stream m (op_events o) s r (op_session o) /\
     exists resp, response_of (s_role s) m reads (op_unread o) resp /\ carries r resp /\
       forall ps, ParamsOf resp = Some ps -> CheckScope ps (ScopeOfResponse (msg_Type m)) = Ok tt).

Lemma holds_stream_events m first ev s s1 r s' : answered first = false -> s_aliases s1 = s_aliases s ->
  holds_stream m ev s1 r s' -> holds_stream m (first ++ ev) s r s'.
Proof. intros Hf Ha. unfold holds_stream. by destruct r; rewrite answered_app, Hf, Ha. Qed.

Lemma settled {OK} (asOK : Message -> option OK) (onOK : Message -> OK -> stream_op established) d m m' reads s s1 o :
  (forall m2 ok, settles (fun ev s r s' => holds_stream m ev s r s' /\ forall resp, asOK resp = Some ok -> carries r resp) (onOK m2 ok)) ->
  m' = publish_alias s m -> s_nextRequestID s1 = s_nextRequestID s -> s_aliases s1 = s_aliases s -> s_role s1 = s_role s ->
  s_close s1 = s_close s ->
  awaitRequestResponse asOK onOK d m' reads s1 = Some o -> request_settled d m reads s o.
Proof.
  intros Hon -> E1 E2 E3 E4 H. apply (awaited _ _ _ Hon) in H as [Hop H].
  assert (Ht : msg_Type (publish_alias s m) = msg_Type m) by by destruct m.
  unfold opens_with in Hop. rewrite !E1 in Hop. split; [done|]. destruct (op_result o) as [r|e].
  - split; [done|]. intros ? [= <-]. destruct H as (Hc & first & s2 & _ & Ha & Hr & Hf & ev & -> & resp & ok & H1 & [H2 H3] & H4 & H5).
    rewrite E4 in Hc. split; [done|]. split; [eapply holds_stream_events; [done|by rewrite Ha|done]|].
    exists resp. rewrite Hr, E3 in H1. unfold response_of in *. rewrite Ht in H1, H3. split_and!; [done|by apply H5|done].
  - split; [|done]. intros ? [= <-]. by rewrite E2 in H.
Qed.

Definition keeps_stream (m : Message) (resp : Message -> Prop) (ev : list req_event) (s : Session) (r : established) (s' : Session) : Prop :=
  holds_stream m ev s r s' /\ forall x, resp x -> carries r x.

Lemma asRequestOK_some x ok : asRequestOK x = Some ok -> x = MRequestOK ok.
Proof. destruct x; simpl; congruence. Qed.
Lemma asSubscribeOK_some x ok : asSubscribeOK x = Some ok -> x = MSubscribeOK ok.
Proof. destruct x; simpl; congruence. Qed.
Lemma asFetchOK_some x ok : asFetchOK x = Some ok -> x = MFetchOK ok.
Proof. destruct x; simpl; congruence. Qed.
#[local] Hint Resolve asRequestOK_some asSubscribeOK_some asFetchOK_some values_only validate_only : moq.

Lemma register_settles alias key props (m : Subscribe) ok Q :
  key = NewKey (sub_Namespace m) (sub_Name m) -> alias = sok_TrackAlias ok -> props = sok_TrackProperties ok ->
  (forall x, Q x -> x = MSubscribeOK ok) ->
  settles (keeps_stream (MSubscribe m) Q)
    (or_cancel (RegisterInboundTrack alias key props) (stream_ret (ESubscription (new_handle false TypeSubscribe (Some alias)) ok))).
Proof.
  intros -> -> -> HQ s r ev s'. unfold or_cancel, RegisterInboundTrack.
  destruct (registerInboundTrack _ _ _) as [[[]|e] t] eqn:E; simpl.
  - intros [= <- <- <-]. split; [done|]. split; [done|]. split; [|done]. split; [done|]. by exists m.
  - intros [= <- <- <-]. split; [done|]. left. apply close_done.
Qed.
Lemma status_settles m fin ok : settles (keeps_stream m (fun x => asRequestOK x = Some ok)) (onTrackStatusOK fin ok).
Proof.
  intros s r ev s'. unfold onTrackStatusOK. destruct (sess_validateTrackProperties _ s) as [[u|e] s1] eqn:E;
    apply (only_closes_run _ _ _ _ (validate_only _)) in E as [(K1 & K2 & _) Ho].
  - rewrite (Ho u eq_refl). intros [= <- <- <-]. split; [done|]. destruct fin; [|by right]. split; [done|].
    split; [done|]. exact (fun x => asRequestOK_some x ok).
  - intros [= <- <- <-]. split; [done|]. by right.
Qed.


Ltac opened_as H := eapply settled; [|reflexivity|done..|exact H].
Ltac kept_open := apply settles_ret; intros s0; split; [done|]; intros x Hx; simpl; first [by eexists; apply asRequestOK_some|by auto with moq].

Lemma subscribe_settles d m reads s o : session_Subscribe d m reads s = Some o -> request_settled d (MSubscribe m) reads s o.
Proof.
  intros H. opened_as H. intros m2 ok. cbv beta. apply settles_cancel; [apply validate_only|].
  apply (register_settles _ _ _ _ _ (fun x => asSubscribeOK x = Some ok)); [done..|]. intros x. apply asSubscribeOK_some.
Qed.
Lemma publish_settles d m reads s o : session_Publish d m reads s = Some o -> request_settled d (MPublish m) reads s o.
Proof.
  unfold session_Publish. intros H. destruct (pub_TrackAlias m =? 0) eqn:Ea; simpl in H;
    (eapply settled; [|simpl; by rewrite Ea|..|exact H]; [|done..]); intros m2 ok; cbv beta; kept_open.
Qed.
Lemma fetch_settles d m reads s o : session_OpenFetch d m reads s = Some o -> request_settled d (MFetch m) reads s o.
Proof.
  intros H. opened_as H. intros m2 ok. cbv beta. apply settles_cancel; [apply validate_only|]. apply settles_cancel; [|kept_open].
  unfold or_close. by_cases_checks.
Qed.

Lemma open_settles fin d m reads s o : open_request fin d m reads s = Some o -> request_settled d m reads s o.
Proof.
  destruct m; simpl; try done; intros H.
  - by apply subscribe_settles.
  - by apply publish_settles.
  - by apply fetch_settles.
  - opened_as H. intros m2 ok. apply status_settles.
  - opened_as H. intros m2 ok. cbv beta. kept_open.
  - opened_as H. intros m2 ok. cbv beta. kept_open.
  - opened_as H. intros m2 ok. cbv beta. apply settles_cancel; [apply values_only|kept_open].
Qed.

Lemma awaits_two {OK R} (asOK : Message -> option OK) (onOK : Message -> OK -> stream_op R) d m reads s :
  (2 <= length reads)%nat -> is_Some (awaitRequestResponse asOK onOK d m reads s).
Proof.
  intros Hl. unfold awaitRequestResponse. destruct (openAllocRequest d m s) as [[[m'|e] ev] s1]; [|by eexists].
  apply fmap_is_Some. unfold await_response. destruct reads as [|[c1 p1] [|[c2 p2] reads]]; simpl in Hl; [lia..|].
  destruct (readResponse c1 p1 s1) as [[r|e] s2]; [|by eexists]. destruct r; try by eexists.
  case_match; [by eexists|]. destruct (goaways_Received _ false s2) as [[seen|e] s3] eqn:Eg; [|by eexists].
  apply goaways_ok in Eg as (_ & -> & ->). destruct (readResponse c2 p2 s2) as [[r|e] s4]; [|by eexists].
  destruct r; by eexists.
Qed.
Lemma open_two fin d m reads s : isRequestOpener m = true -> (2 <= length reads)%nat -> is_Some (open_request fin d m reads s).
Proof.
  destruct m; simpl; try done; intros _ Hl; try by apply awaits_two.
  unfold session_Publish. case_match; by apply awaits_two.
Qed.

(** C23: opening a request.  Two reads always decide it.  A stream that does not open
    consumes no Request ID; one that does consumes the next and carries the request with
    it first, or is reset.  An opener that fails leaves nothing behind: the session is
    closed, or its aliases are as before and its stream, if it opened, is closed or reset.
    One that succeeds leaves the session open and read the OK of its request, with
    parameters in scope, as the first message, or after one legal GOAWAY that the next
    reader of the stream finds; the stream stays open, but for TRACK_STATUS's FIN, and only
    a SUBSCRIBE changes the aliases: it holds the one its SUBSCRIBE_OK names, registered
    for its track, until its handle releases it. *)
Theorem request_opened fin d m reads s :
  (isRequestOpener m = true -> (2 <= length reads)%nat -> is_Some (open_request fin d m reads s)) /\
  forall o, open_request fin d m reads s = Some o ->
    match d with
    | DialFailed e => op_result o = Err e /\ op_events o = [] /\ s_nextRequestID (op_session o) = s_nextRequestID s
    | Dialled wok =>
        s_nextRequestID (op_session o) = u64 (s_nextRequestID s + 2) /\
        (op_events o = resetStream /\ (exists e, op_result o = Err e) \/
         head (op_events o) = Some (RqMsg (SetRequestID (u64 (u64 (s_nextRequestID s + 2) - 2)) (publish_alias s m))))
    end /\
    (forall e, op_result o = Err e ->
       cs_done (s_close (op_session o)) = true \/
       ((answered (op_events o) = true \/ exists e', d = DialFailed e') /\ s_aliases (op_session o) = s_aliases s)) /\
    (forall r, op_result o = Ok r ->
       s_close (op_session o) = s_close s /\ holds_stream m (op_events o) s r (op_session o) /\
       exists resp, response_of (s_role s) m reads (op_unread o) resp /\ carries r resp /\
         forall ps, ParamsOf resp = Some ps -> CheckScope ps (ScopeOfResponse (msg_Type m)) = Ok tt).
Proof. split; [apply open_two|]. intros o H. exact (open_settles _ _ _ _ _ _ H). Qed.

(** A SUBSCRIBE with a GOAWAY ahead of its SUBSCRIBE_OK, and one answered with a property
    it does not know. *)
Definition sample_session : Session := new_session roleClient ∅ 0 8.
Definition sample_subscribe : Message := MSubscribe (MkSubscribe 0 [[x61]] [x62] []).
Definition sample_goaway : Message := MGoaway (MkGoaway [] 0).
Definition sample_reads : list response_read := [(false, Ok sample_goaway); (false, Ok (MSubscribeOK (MkSubscribeOK 5 [] [])))].
Definition sample_unknown : list response_read :=
  [(false, Ok (MSubscribeOK (MkSubscribeOK 5 [] (w_Varint (w_Varint [] 16384) 0)))); (false, Err EOF)].

Lemma request_opened_witness :
  (exists o, open_request true (Dialled true) sample_subscribe sample_reads sample_session = Some o /\
     (exists r, op_result o = Ok r) /\ op_unread o = [(false, Ok sample_goaway)] /\
     LookupInboundTrackAlias 5 (s_aliases (op_session o)) = Some (NewKey [[x61]] [x62]) /\
     s_close (op_session o) = s_close sample_session) /\
  (exists o, open_request true (Dialled true) sample_subscribe sample_unknown sample_session = Some o /\
     (exists e, op_result o = Err e) /\ answered (op_events o) = true /\ s_close (op_session o) = s_close sample_session).
Proof.
  split.
  - destruct (request_opened true (Dialled true) sample_subscribe sample_reads sample_session) as [H1 H2].
    destruct (H1 eq_refl ltac:(simpl; lia)) as [o Ho]. exists o. split; [done|]. destruct (H2 o Ho) as (_ & _ & H3). clear H1 H2.
    assert (Hr : (fun o => (match op_result o with Ok _ => true | Err _ => false end, op_unread o,
        LookupInboundTrackAlias 5 (s_aliases (op_session o)))) <$> open_request true (Dialled true) sample_subscribe sample_reads sample_session
      = Some (true, [(false, Ok sample_goaway)], Some (NewKey [[x61]] [x62]))) by (vm_compute; reflexivity).
    rewrite Ho in Hr. simpl in Hr. destruct (op_result o) as [r|]; [|discriminate Hr].
    split; [by exists r|]. injection Hr as -> ->. split; [done|]. split; [done|]. exact (proj1 (H3 r eq_refl)).
  - destruct (request_opened true (Dialled true) sample_subscribe sample_unknown sample_session) as [H1 H2].
    destruct (H1 eq_refl ltac:(simpl; lia)) as [o Ho]. exists o. split; [done|]. destruct (H2 o Ho) as (_ & H3 & _). clear H1 H2.
    assert (Hr : (fun o => (match op_result o with Ok _ => true | Err _ => false end, s_close (op_session o)))
        <$> open_request true (Dialled true) sample_subscribe sample_unknown sample_session
      = Some (false, s_close sample_session)) by (vm_compute; reflexivity).
    rewrite Ho in Hr. simpl in Hr. destruct (op_result o) as [r|e]; [discriminate Hr|]. split; [by exists e|].
    injection Hr as Hr. rewrite Hr in H3. destruct (H3 e eq_refl) as [Hc|[[Hc|[e' He']] _]]; [discriminate Hc| |discriminate He'].
    split; [exact Hc|done].
Defined.
