(* ===== verification/Loc.v ===== *)
(** * Loc: the Low Overhead Media Container

    [pkg/moqt/loc]: the LOC properties of a media chunk in the properties of an Object
    ([properties.go], [object.go]), the framing of the NAL units of a payload
    ([video.go]) and the audio level byte ([audio.go]).

    A byte field is [None] when nil.  A decoded value of no bytes is a nil slice
    ([Reader.FixedBytes]), which the code takes for an absent field. *)

From S2P Require Import Prelude Varint Wire KV.

Definition PropTimescale : Z := 8.
Definition PropVideoFrameMarking : Z := 9.
Definition PropAudioLevel : Z := 12.
Definition PropVideoConfig : Z := 13.
Definition PropAudioConfig : Z := 15.
Definition PropTimestamp : Z := 16.
Definition well_known : list Z :=
  [PropTimestamp; PropTimescale; PropVideoFrameMarking; PropAudioLevel; PropVideoConfig; PropAudioConfig].

(** ** Properties

    A field with its Has-bit is an option; the value of an absent one is not read. *)
Record LocProperties : Type := MkLocProps {
  lp_Timestamp : option Z; lp_Timescale : option Z; lp_VideoConfig : option bytes; lp_AudioConfig : option bytes;
  lp_VideoFrameMarking : option bytes; lp_AudioLevel : option Z; lp_Extras : list KVPair }.
Definition props0 : LocProperties := MkLocProps None None None None None None [].

Definition int_pair (t : Z) (v : option Z) : list KVPair := match v with Some v => [MkKV t v []] | None => [] end.
Definition bytes_pair (t : Z) (b : option bytes) : list KVPair := match b with Some b => [MkKV t 0 b] | None => [] end.

Definition toPairs (p : LocProperties) : list KVPair :=
  int_pair PropTimestamp (lp_Timestamp p) ++ int_pair PropTimescale (lp_Timescale p) ++
  bytes_pair PropVideoFrameMarking (lp_VideoFrameMarking p) ++ int_pair PropAudioLevel (lp_AudioLevel p) ++
  bytes_pair PropVideoConfig (lp_VideoConfig p) ++ bytes_pair PropAudioConfig (lp_AudioConfig p) ++ lp_Extras p.

Definition loc_Append (w : Writer) (p : LocProperties) : Writer := w_KVPairs w (toPairs p).
Definition loc_Encode (p : LocProperties) : bytes := loc_Append [] p.

(** A decoded value as a byte field. *)
Definition decoded_bytes (b : bytes) : option bytes := match b with [] => None | _ => Some b end.

(** One pair of the loop of [Parse]. *)
Definition take_pair (p : LocProperties) (kv : KVPair) : result LocProperties :=
  let t := kv_Type kv in
  if t =? PropTimestamp then
    Ok (MkLocProps (Some (kv_IntVal kv)) (lp_Timescale p) (lp_VideoConfig p) (lp_AudioConfig p) (lp_VideoFrameMarking p)
          (lp_AudioLevel p) (lp_Extras p))
  else if t =? PropTimescale then
    Ok (MkLocProps (lp_Timestamp p) (Some (kv_IntVal kv)) (lp_VideoConfig p) (lp_AudioConfig p) (lp_VideoFrameMarking p)
          (lp_AudioLevel p) (lp_Extras p))
  else if t =? PropVideoFrameMarking then
    Ok (MkLocProps (lp_Timestamp p) (lp_Timescale p) (lp_VideoConfig p) (lp_AudioConfig p) (decoded_bytes (kv_ByteVal kv))
          (lp_AudioLevel p) (lp_Extras p))
  else if t =? PropAudioLevel then
    if kv_IntVal kv >? 255 then Err (Errorf "moqt/loc: audio level exceeds 0xFF")
    else Ok (MkLocProps (lp_Timestamp p) (lp_Timescale p) (lp_VideoConfig p) (lp_AudioConfig p) (lp_VideoFrameMarking p)
               (Some (kv_IntVal kv)) (lp_Extras p))
  else if t =? PropVideoConfig then
    Ok (MkLocProps (lp_Timestamp p) (lp_Timescale p) (decoded_bytes (kv_ByteVal kv)) (lp_AudioConfig p) (lp_VideoFrameMarking p)
          (lp_AudioLevel p) (lp_Extras p))
  else if t =? PropAudioConfig then
    Ok (MkLocProps (lp_Timestamp p) (lp_Timescale p) (lp_VideoConfig p) (decoded_bytes (kv_ByteVal kv)) (lp_VideoFrameMarking p)
          (lp_AudioLevel p) (lp_Extras p))
  else
    Ok (MkLocProps (lp_Timestamp p) (lp_Timescale p) (lp_VideoConfig p) (lp_AudioConfig p) (lp_VideoFrameMarking p)
          (lp_AudioLevel p) (lp_Extras p ++ [kv])).
Fixpoint take_pairs (kvs : list KVPair) (p : LocProperties) : result LocProperties :=
  match kvs with [] => Ok p | kv :: kvs => p ← take_pair p kv; take_pairs kvs p end.

Definition loc_Parse (r : Reader) : result LocProperties :=
  match r_KVPairsRemaining r with
  | Err e => Err (Wrapf "moqt/loc: parsing properties" e)
  | Ok (pairs, _) => take_pairs pairs props0
  end.
Definition ParseProperties (raw : bytes) : result LocProperties :=
  if len raw =? 0 then Ok props0 else loc_Parse (NewReader raw).

(** ** Objects *)
Record LocObject : Type := MkLocObject { lo_Properties : LocProperties; lo_Payload : bytes }.
Definition Object_Encode (o : LocObject) : bytes * bytes := (loc_Encode (lo_Properties o), lo_Payload o).
Definition Object_Decode (props payload : bytes) : result LocObject :=
  p ← ParseProperties props; Ok (MkLocObject p payload).

(** ** Payloads and audio levels *)
Inductive NALFraming : Type := NALFramingUnknown | NALFramingStartCode4 | NALFramingStartCode3 | NALFramingLengthPrefix.
#[global] Instance NALFraming_eq_dec : EqDecision NALFraming.
Proof. solve_decision. Defined.

(** [payload[i]]; only read below the length. *)
Definition at_ (b : bytes) (i : nat) : Z := from_option (fun x => Z.of_N (Byte.to_N x)) 0 (b !! i).
Definition BigEndianUint32 (b : bytes) : Z := at_ b 0 * 2 ^ 24 + at_ b 1 * 2 ^ 16 + at_ b 2 * 2 ^ 8 + at_ b 3.

Definition DetectNALFraming (payload : bytes) : NALFraming :=
  if len payload <? 3 then NALFramingUnknown
  else if (len payload >=? 4) && (at_ payload 0 =? 0) && (at_ payload 1 =? 0) && (at_ payload 2 =? 0) && (at_ payload 3 =? 1)
  then NALFramingStartCode4
  else if (at_ payload 0 =? 0) && (at_ payload 1 =? 0) && (at_ payload 2 =? 1) then NALFramingStartCode3
  else if len payload <? 4 then NALFramingUnknown
  else
    let length := BigEndianUint32 payload in
    if length <=? 1 then NALFramingUnknown
    else if length + 4 >? len payload then NALFramingUnknown
    else NALFramingLengthPrefix.

Definition EncodeAudioLevel (level : Z) (voiceActivity : bool) : Z :=
  let b := Z.land level 127 in if voiceActivity then Z.lor b 128 else b.
Definition DecodeAudioLevel (b : Z) : Z * bool := (Z.land b 127, negb (Z.land b 128 =? 0)).

(** ** Round trip *)

Record wf_loc (p : LocProperties) : Prop := {
  wl_Timestamp : forall v, lp_Timestamp p = Some v -> is_u64 v;
  wl_Timescale : forall v, lp_Timescale p = Some v -> is_u64 v;
  wl_AudioLevel : forall v, lp_AudioLevel p = Some v -> 0 <= v <= 255;
  wl_bytes : forall b, lp_VideoConfig p = Some b \/ lp_AudioConfig p = Some b \/ lp_VideoFrameMarking p = Some b ->
    b <> [] /\ len b <= MaxKVPairValueBytes;
  wl_Extras : Forall (fun kv => wf_kv kv /\ kv_Type kv ∉ well_known) (lp_Extras p) }.

Definition with_extras (e : list KVPair) (p : LocProperties) : LocProperties :=
  MkLocProps (lp_Timestamp p) (lp_Timescale p) (lp_VideoConfig p) (lp_AudioConfig p) (lp_VideoFrameMarking p) (lp_AudioLevel p) e.

(** The last pair of a type, and the pairs of no known type. *)
Definition of_type (t : Z) (l : list KVPair) : list KVPair := filter (fun kv => kv_Type kv = t) l.
Definition last_of (t : Z) (l : list KVPair) : option KVPair := last (of_type t l).
Definition unknown (l : list KVPair) : list KVPair := filter (fun kv => kv_Type kv ∉ well_known) l.
Definition or_last {A} (o : option A) (d : option A) : option A := match o with Some a => Some a | None => d end.

(** What the loop of [Parse] makes of the pairs. *)
Definition taken (l : list KVPair) (p : LocProperties) : LocProperties :=
  let int t d := match last_of t l with Some kv => Some (kv_IntVal kv) | None => d end in
  let byt t d := match last_of t l with Some kv => decoded_bytes (kv_ByteVal kv) | None => d end in
  MkLocProps (int PropTimestamp (lp_Timestamp p)) (int PropTimescale (lp_Timescale p)) (byt PropVideoConfig (lp_VideoConfig p))
    (byt PropAudioConfig (lp_AudioConfig p)) (byt PropVideoFrameMarking (lp_VideoFrameMarking p))
    (int PropAudioLevel (lp_AudioLevel p)) (lp_Extras p ++ unknown l).

Lemma last_of_cons t kv l : last_of t (kv :: l) = if kv_Type kv =? t then or_last (last_of t l) (Some kv) else last_of t l.
Proof.
  unfold last_of, of_type. destruct (kv_Type kv =? t) eqn:E; rewrite ?Z.eqb_eq, ?Z.eqb_neq in E.
  - rewrite filter_cons_True by done. by rewrite last_cons.
  - by rewrite filter_cons_False.
Qed.

Lemma taken_cons p kv l : taken l (taken [kv] p) = taken (kv :: l) p.
Proof.
  unfold taken. rewrite !last_of_cons. unfold last_of. simpl.
  f_equal; try (destruct (kv_Type kv =? _); simpl; by destruct (last (of_type _ l))).
  unfold unknown. by rewrite <- app_assoc, <- filter_app.
Qed.

Definition level_ok (kv : KVPair) : Prop := kv_Type kv <> PropAudioLevel \/ kv_IntVal kv <= 255.
Lemma take_pair_ok p kv : level_ok kv -> take_pair p kv = Ok (taken [kv] p).
Proof.
  destruct kv as [t iv bv]. unfold level_ok. simpl. intros Ha.
  destruct (decide (t = PropTimestamp)) as [->|]; [by destruct p; unfold taken; simpl; rewrite app_nil_r|].
  destruct (decide (t = PropTimescale)) as [->|]; [by destruct p; unfold taken; simpl; rewrite app_nil_r|].
  destruct (decide (t = PropVideoFrameMarking)) as [->|]; [by destruct p; unfold taken; simpl; rewrite app_nil_r|].
  destruct (decide (t = PropAudioLevel)) as [->|].
  { unfold take_pair. simpl. destruct (iv >? 255) eqn:E; [apply Z.gtb_lt in E; lia|].
    by destruct p; unfold taken; simpl; rewrite app_nil_r. }
  destruct (decide (t = PropVideoConfig)) as [->|]; [by destruct p; unfold taken; simpl; rewrite app_nil_r|].
  destruct (decide (t = PropAudioConfig)) as [->|]; [by destruct p; unfold taken; simpl; rewrite app_nil_r|].
  unfold take_pair, taken. rewrite !last_of_cons. simpl. rewrite !(proj2 (Z.eqb_neq t _)) by done.
  unfold unknown. rewrite filter_cons_True; [done|]. simpl. unfold well_known. rewrite !not_elem_of_cons. split_and!; try done. apply not_elem_of_nil.
Qed.
Lemma take_pairs_ok l : forall p, Forall level_ok l -> take_pairs l p = Ok (taken l p).
Proof.
  induction l as [|kv l IH]; intros p Hl; simpl; [by destruct p; unfold taken; simpl; rewrite app_nil_r|].
  apply Forall_cons in Hl as [Hk Hl]. rewrite take_pair_ok by done. simpl. by rewrite IH, taken_cons.
Qed.
Lemma take_pairs_level l : forall p p', take_pairs l p = Ok p' -> Forall level_ok l.
Proof.
  induction l as [|kv l IH]; intros p p' H; simpl in H; [done|].
  assert (level_ok kv) as Hk.
  { unfold level_ok. destruct (decide (kv_Type kv = PropAudioLevel)) as [E|]; [|by left]. right.
    destruct (take_pair p kv) as [p1|] eqn:Ep; [|done]. unfold take_pair in Ep. rewrite E in Ep. simpl in Ep.
    destruct (kv_IntVal kv >? 255) eqn:Eg; [done|]. rewrite Z.gtb_ltb in Eg. apply Z.ltb_ge in Eg. lia. }
  constructor; [done|]. rewrite take_pair_ok in H by done. by apply IH in H.
Qed.

(** Sorted lists of the same pairs, type by type, are equal. *)
Lemma of_type_sorted_eq l1 : forall l2,
  StronglySorted (fun p q => kv_Type p <= kv_Type q) l1 -> StronglySorted (fun p q => kv_Type p <= kv_Type q) l2 ->
  (forall t, of_type t l1 = of_type t l2) -> l1 = l2.
Proof.
  unfold of_type. induction l1 as [|x l1 IH]; intros l2 H1 H2 Hf.
  - destruct l2 as [|y l2]; [done|]. specialize (Hf (kv_Type y)). by rewrite filter_cons_True in Hf.
  - assert (Hx : x ∈ l2).
    { apply (list_elem_of_filter (fun kv => kv_Type kv = kv_Type x)). rewrite <- Hf. rewrite filter_cons_True by done. left. }
    destruct l2 as [|y l2]; [by apply not_elem_of_nil in Hx|].
    apply StronglySorted_inv in H1 as [H1 H1x]. apply StronglySorted_inv in H2 as [H2 H2y].
    assert (Hy : y ∈ x :: l1).
    { apply (list_elem_of_filter (fun kv => kv_Type kv = kv_Type y)). rewrite Hf. rewrite filter_cons_True by done. left. }
    assert (kv_Type x = kv_Type y) as Exy.
    { rewrite Forall_forall in H1x, H2y.
      apply elem_of_cons in Hx as [->|Hx]; [done|]. apply elem_of_cons in Hy as [->|Hy]; [done|].
      specialize (H1x y Hy). specialize (H2y x Hx). simpl in *. lia. }
    pose proof (Hf (kv_Type x)) as Hh. rewrite !filter_cons_True in Hh by done. injection Hh as <- Hh.
    f_equal. apply IH; [done|done|]. intros t. specialize (Hf t). destruct (decide (kv_Type x = t)).
    + by rewrite !filter_cons_True in Hf by done; injection Hf.
    + by rewrite !filter_cons_False in Hf by done.
Qed.

Lemma unknown_of_type t l : of_type t (unknown l) = if decide (t ∈ well_known) then [] else of_type t l.
Proof.
  unfold of_type, unknown. induction l as [|x l IH]; [by case_decide|].
  destruct (decide (kv_Type x ∉ well_known)) as [E|E].
  - rewrite (filter_cons_True _ x) by done. destruct (decide (kv_Type x = t)) as [<-|En].
    + rewrite !filter_cons_True by done. rewrite IH. destruct (decide (kv_Type x ∈ well_known)); [done|done].
    + rewrite !filter_cons_False by done. done.
  - rewrite (filter_cons_False _ x) by done. rewrite IH. case_decide; [done|]. rewrite filter_cons_False; [done|]. intros <-. tauto.
Qed.

Lemma kv_sort_of_type t l : of_type t (kv_sort l) = of_type t l.
Proof.
  apply sort_stable_filter; eauto using by_key_trans, by_key_total.
  intros p q <- ?. unfold by_key. apply Z.ltb_ge. lia.
Qed.

Section Pairs.
Context (p : LocProperties) (Hwf : wf_loc p).

Lemma extras_of_type t : t ∈ well_known -> of_type t (lp_Extras p) = [].
Proof.
  intros Ht. unfold of_type. destruct Hwf as [_ _ _ _ He]. induction He as [|kv l [_ Hk] _ IH]; [done|].
  rewrite filter_cons_False; [done|]. by intros <-.
Qed.
Lemma toPairs_of_type t : t ∈ well_known -> of_type t (toPairs p) =
  of_type t (int_pair PropTimestamp (lp_Timestamp p) ++ int_pair PropTimescale (lp_Timescale p) ++
  bytes_pair PropVideoFrameMarking (lp_VideoFrameMarking p) ++ int_pair PropAudioLevel (lp_AudioLevel p) ++
  bytes_pair PropVideoConfig (lp_VideoConfig p) ++ bytes_pair PropAudioConfig (lp_AudioConfig p)).
Proof.
  intros Ht. unfold toPairs. rewrite !app_assoc. unfold of_type. rewrite filter_app. fold (of_type t (lp_Extras p)).
  by rewrite extras_of_type, app_nil_r.
Qed.
Lemma toPairs_unknown : unknown (toPairs p) = lp_Extras p.
Proof.
  assert (unknown (lp_Extras p) = lp_Extras p) as He.
  { unfold unknown. destruct Hwf as [_ _ _ _ He]. induction He as [|kv l [_ Hk] _ IH]; [done|].
    by rewrite filter_cons_True, IH. }
  unfold toPairs. destruct p as [a b c d e f g]; simpl in *. destruct a, b, c, d, e, f; exact He.
Qed.
Lemma toPairs_wf : Forall wf_kv (toPairs p).
Proof.
  destruct Hwf as [H1 H2 H3 H4 H5]. unfold toPairs. rewrite !Forall_app. unfold int_pair, bytes_pair.
  split_and!; [destruct (lp_Timestamp p)|destruct (lp_Timescale p)|destruct (lp_VideoFrameMarking p)|destruct (lp_AudioLevel p)
    |destruct (lp_VideoConfig p)|destruct (lp_AudioConfig p)|]; try done; try (apply Forall_singleton; split; [by split|]; unfold IsBytes, odd_type; simpl).
  - split; [by apply H1|done].
  - split; [by apply H2|done].
  - split; [done|]. by apply H4; right; right.
  - specialize (H3 _ eq_refl). split; [zlia|done].
  - split; [done|]. by apply H4; left.
  - split; [done|]. by apply H4; right; left.
  - eapply Forall_impl; [exact H5|]. by intros ? [].
Qed.
Lemma toPairs_level : Forall level_ok (toPairs p).
Proof.
  destruct Hwf as [_ _ H3 _ H5]. unfold toPairs. rewrite !Forall_app. unfold int_pair, bytes_pair.
  split_and!; [destruct (lp_Timestamp p)|destruct (lp_Timescale p)|destruct (lp_VideoFrameMarking p)|destruct (lp_AudioLevel p)
    |destruct (lp_VideoConfig p)|destruct (lp_AudioConfig p)|]; try done; try (apply Forall_singleton; by left).
  - apply Forall_singleton. right. simpl. by apply H3.
  - eapply Forall_impl; [exact H5|]. intros kv [_ Hk]. left. intros E. apply Hk. rewrite E. by repeat constructor.
Qed.

Lemma decoded_some b : lp_VideoConfig p = Some b \/ lp_AudioConfig p = Some b \/ lp_VideoFrameMarking p = Some b ->
  decoded_bytes b = Some b.
Proof. intros H. apply (wl_bytes _ Hwf) in H as [H _]. by destruct b. Qed.

Lemma taken_pairs out : (forall t, of_type t out = of_type t (toPairs p)) -> unknown out = kv_sort (lp_Extras p) ->
  taken out props0 = with_extras (kv_sort (lp_Extras p)) p.
Proof.
  intros Hf Hu. unfold taken, with_extras, last_of. rewrite Hu, !Hf, !toPairs_of_type by (by repeat constructor). simpl.
  pose proof decoded_some as Hd. clear Hu Hf. generalize dependent (kv_sort (lp_Extras p)). intros e0.
  destruct p as [ts sc vc ac fm al ex]; simpl in *.
  f_equal; destruct ts, sc, vc as [vc|], ac as [ac|], fm as [fm|], al; simpl; rewrite ?Hd by auto; done.
Qed.
End Pairs.

Lemma last_of_elem t l kv : last_of t l = Some kv -> kv ∈ l /\ kv_Type kv = t.
Proof. intros H. apply last_Some_elem_of in H. unfold of_type in H. apply list_elem_of_filter in H as [? ?]. done. Qed.

Lemma taken_int_wf t l d v : Forall wf_kv l -> odd_type t = false ->
  match last_of t l with Some kv => Some (kv_IntVal kv) | None => d end = Some v -> d = None -> is_u64 v /\ exists kv, kv ∈ l /\ kv_Type kv = t /\ kv_IntVal kv = v.
Proof.
  intros Hl Ho. destruct (last_of t l) as [kv|] eqn:E; [|intros -> [=]]. intros [= <-] _. apply last_of_elem in E as [Hin Ht].
  rewrite Forall_forall in Hl. destruct (Hl kv Hin) as [_ Hk]. unfold IsBytes in Hk. rewrite Ht, Ho in Hk. split; [apply Hk|].
  by exists kv.
Qed.
Lemma taken_bytes_wf t l b : Forall wf_kv l -> odd_type t = true ->
  match last_of t l with Some kv => decoded_bytes (kv_ByteVal kv) | None => None end = Some b -> b <> [] /\ len b <= MaxKVPairValueBytes.
Proof.
  intros Hl Ho. destruct (last_of t l) as [kv|] eqn:E; [|done]. apply last_of_elem in E as [Hin Ht].
  rewrite Forall_forall in Hl. destruct (Hl kv Hin) as [_ Hk]. unfold IsBytes in Hk. rewrite Ht, Ho in Hk. destruct Hk as [_ Hk].
  intros Hd. destruct (kv_ByteVal kv) eqn:Eb; simpl in Hd; [done|]. injection Hd as <-. by split.
Qed.

Lemma taken_wf l : Forall wf_kv l -> Forall level_ok l -> wf_loc (taken l props0).
Proof.
  intros Hl Hv. split; simpl.
  - intros v H. by eapply taken_int_wf in H as [H _].
  - intros v H. by eapply taken_int_wf in H as [H _].
  - intros v H. eapply taken_int_wf in H as [Hu (kv & Hin & Ht & <-)]; [|done..]. rewrite Forall_forall in Hv.
    destruct (Hv kv Hin); [done|]. zlia.
  - intros b [H|[H|H]]; (eapply taken_bytes_wf; [exact Hl| |exact H]; done).
  - unfold unknown. apply Forall_forall. intros kv Hk. apply list_elem_of_filter in Hk as [Hn Hin].
    rewrite Forall_forall in Hl. auto.
Qed.

Lemma unknown_sorted l : StronglySorted (fun p q => kv_Type p <= kv_Type q) l ->
  StronglySorted (fun p q => kv_Type p <= kv_Type q) (unknown l).
Proof.
  unfold unknown. induction 1 as [|x l _ IH Hx]; [constructor|]. rewrite filter_cons. case_decide; [|done].
  constructor; [done|]. apply Forall_forall. intros y Hy. apply list_elem_of_filter in Hy as [_ Hy].
  rewrite Forall_forall in Hx. auto.
Qed.

Lemma Parse_Reader raw : ParseProperties raw = loc_Parse (NewReader raw).
Proof. unfold ParseProperties. destruct raw; [done|]. by rewrite (proj2 (Z.eqb_neq _ _)) by (unfold len; simpl; lia). Qed.

Lemma Parse_Encode p : wf_loc p -> ParseProperties (loc_Encode p) = Ok (with_extras (kv_sort (lp_Extras p)) p).
Proof.
  intros Hwf. rewrite Parse_Reader. unfold loc_Parse, loc_Encode, loc_Append. rewrite w_KVPairs_app.
  pose proof (decodes_NewReader _ _ _ (decodes_KVPairsRemaining _ (toPairs_wf p Hwf))) as E. rewrite app_nil_l. rewrite E.
  rewrite take_pairs_ok.
  - f_equal. apply taken_pairs; [done|intros t; apply kv_sort_of_type|]. apply of_type_sorted_eq; [|apply sort_by_key_le|].
    + apply unknown_sorted, sort_by_key_le.
    + intros t. rewrite unknown_of_type, !kv_sort_of_type. rewrite <- (toPairs_unknown p Hwf). by rewrite unknown_of_type.
  - unfold kv_sort. rewrite (sort_stable_perm _ (toPairs p)). by apply toPairs_level.
Qed.

Lemma Parse_wf raw p : go_len raw -> ParseProperties raw = Ok p -> wf_loc p /\ kv_sort (lp_Extras p) = lp_Extras p.
Proof.
  intros Hg. rewrite Parse_Reader. unfold loc_Parse. destruct (r_KVPairsRemaining (NewReader raw)) as [[l r']|] eqn:E; [|done].
  intros H. pose proof (take_pairs_level _ _ _ H) as Hlv. rewrite take_pairs_ok in H by done. injection H as <-.
  apply r_KVPairsRemaining_snd in E as (Hwf & Hs & _); [|split; simpl; [done|lia]].
  split; [by apply taken_wf|]. simpl. apply of_type_sorted_eq; [apply sort_by_key_le| |intros t; apply kv_sort_of_type].
  apply unknown_sorted. rewrite <- Hs. apply sort_by_key_le.
Qed.

(** LOC properties round-trip.  Properties whose byte fields hold a byte, whose
    audio level is a byte and whose extras are of other types decode to themselves, the
    extras in type order; whatever bytes decode at all decode to such properties, and
    encoding them and decoding again changes nothing.  With them the payload of an
    Object. *)
Theorem loc_roundtrip p payload raw : go_len raw ->
  (wf_loc p -> let '(props, body) := Object_Encode (MkLocObject p payload) in
     Object_Decode props body = Ok (MkLocObject (with_extras (kv_sort (lp_Extras p)) p) payload)) /\
  (forall o, Object_Decode raw payload = Ok o ->
     wf_loc (lo_Properties o) /\ let '(props, body) := Object_Encode o in Object_Decode props body = Ok o).
Proof.
  intros Hg. unfold Object_Encode, Object_Decode. split.
  - intros Hwf. simpl. by rewrite Parse_Encode.
  - intros o. destruct (ParseProperties raw) as [q|] eqn:E; simpl; [|done]. intros [= <-]. simpl.
    destruct (Parse_wf _ _ Hg E) as [Hwf Hs]. split; [done|]. rewrite Parse_Encode by done. simpl. rewrite Hs. by destruct q.
Qed.

Definition sample_loc : LocProperties := MkLocProps (Some 90000) None (Some [Byte.x01; Byte.x02]) None None (Some 200) [MkKV 60 2 []; MkKV 3 0 []].

Lemma loc_roundtrip_witness : go_len (loc_Encode sample_loc) /\ wf_loc sample_loc /\
  (let '(props, body) := Object_Encode (MkLocObject sample_loc [Byte.x05]) in
   Object_Decode props body = Ok (MkLocObject (with_extras (kv_sort (lp_Extras sample_loc)) sample_loc) [Byte.x05])) /\
  lp_Extras (with_extras (kv_sort (lp_Extras sample_loc)) sample_loc) = [MkKV 3 0 []; MkKV 60 2 []].
Proof.
  assert (Hg : go_len (loc_Encode sample_loc)) by (unfold go_len; vm_compute; reflexivity).
  assert (Hwf : wf_loc sample_loc).
  { split; simpl.
    - intros v [= <-]. split; done.
    - done.
    - intros v [= <-]. lia.
    - intros b [[= <-]|[H|H]]; [|discriminate H|discriminate H]. split; [done|]. vm_compute. discriminate.
    - repeat constructor; simpl; try done; apply (bool_decide_unpack _); vm_compute; reflexivity. }
  split; [exact Hg|]. split; [exact Hwf|]. split; [|vm_compute; reflexivity].
  exact (proj1 (loc_roundtrip sample_loc [Byte.x05] _ Hg) Hwf).
Defined.

(** A config of no bytes is written and does not come back. *)
Lemma empty_config_lost : ParseProperties (loc_Encode (MkLocProps None None (Some []) None None None [])) = Ok props0.
Proof. vm_compute. reflexivity. Qed.

(** The short start code alone is recognised. *)
Lemma short_start_code : DetectNALFraming [x00; x00; x01] = NALFramingStartCode3.
Proof. vm_compute. reflexivity. Qed.

(** A length prefix is one that fits the payload. *)
Lemma length_prefix_fits payload : DetectNALFraming payload = NALFramingLengthPrefix ->
  1 < BigEndianUint32 payload /\ BigEndianUint32 payload + 4 <= len payload.
Proof.
  unfold DetectNALFraming. repeat (case_match; try done). intros _. rewrite Z.leb_gt, Z.gtb_ltb, Z.ltb_ge in *. lia.
Qed.

(** The audio level byte. *)
Lemma audio_level_roundtrip level v : 0 <= level < 256 ->
  0 <= EncodeAudioLevel level v < 256 /\ DecodeAudioLevel (EncodeAudioLevel level v) = (level mod 128, v).
Proof.
  intros Hl. unfold EncodeAudioLevel, DecodeAudioLevel. change 127 with (Z.ones 7). rewrite Z.land_ones by lia.
  assert (Hm : 0 <= level mod 2 ^ 7 < 2 ^ 7) by (apply Z.mod_pos_bound; lia).
  assert (H0 : Z.land (level mod 2 ^ 7) 128 = 0).
  { apply Z.bits_inj'. intros n Hn. rewrite Z.land_spec, Z.bits_0. change 128 with (2 ^ 7). rewrite Z.pow2_bits_eqb by lia.
    destruct (7 =? n) eqn:E; [|by rewrite andb_false_r]. apply Z.eqb_eq in E as <-. by rewrite Z.mod_pow2_bits_high by lia. }
  destruct v.
  - rewrite <- Z.lxor_lor by done. rewrite <- Z.add_nocarry_lxor by done.
    rewrite Z.land_ones by lia. split; [lia|]. f_equal.
    + change 128 with (1 * 2 ^ 7) at 1. rewrite Z.mod_add by lia. rewrite Z.mod_mod by lia. done.
    + rewrite Z.add_nocarry_lxor, Z.lxor_lor by done. rewrite Z.land_lor_distr_l, H0. done.
  - rewrite Z.land_ones by lia. split; [lia|]. rewrite Z.mod_mod by lia. by rewrite H0.
Qed.
