(* ===== verification/Catalog.v ===== *)
(** * Catalog: MSF catalogs and their delta updates

    [pkg/moqt/msf]: the catalog of a broadcast ([catalog.go], [cmsf.go]), its validation
    ([validate.go]), replaying a delta update ([delta.go]), the timelines
    ([mediatimeline.go], [cmsf_sap.go]) and Group IDs ([groupid.go]).  The JSON form is
    left out: a catalog is its Go value.

    A nil slice, map or pointer is [None]; copies of values are values, so the deep
    copies of the source are the identity.  [any] is the type of producer-defined values,
    compared by [any_eqb] where the source calls [reflect.DeepEqual]. *)

From stdpp Require Import gmap.
From Stdlib Require Import SpecFloat.
From S2P Require Import Prelude Varint Wire KV Params Properties.

Definition str (s : string) : bytes := String.list_byte_of_string s.

Definition MsfVersion : bytes := str "draft-01".
Definition PackagingLOC : bytes := str "loc".
Definition PackagingMediaTimeline : bytes := str "mediatimeline".
Definition PackagingEventTimeline : bytes := str "eventtimeline".
Definition PackagingMoQLog : bytes := str "moqlog".
Definition PackagingMoQMetrics : bytes := str "moqmetrics".
Definition PackagingCMAF : bytes := str "cmaf".
Definition DeltaOpAdd : bytes := str "add".
Definition DeltaOpRemove : bytes := str "remove".
Definition DeltaOpClone : bytes := str "clone".
Definition SchemeCENC : bytes := str "cenc".
Definition SchemeCBCS : bytes := str "cbcs".

(** ** Timelines *)
Record MediaTimelineRecord : Type := MkTimelineRecord { mt_MediaPTS : Z; mt_GroupID : Z; mt_ObjectID : Z; mt_Wallclock : Z }.
Fixpoint Since (m : list MediaTimelineRecord) (afterPTS : Z) : list MediaTimelineRecord :=
  match m with [] => [] | r :: m' => if mt_MediaPTS r >? afterPTS then m else Since m' afterPTS end.

Record MediaTimelineTemplate : Type := MkTemplate {
  tp_StartMediaTime : Z; tp_DeltaMediaTime : Z; tp_StartGroupID : Z; tp_StartObjectID : Z; tp_DeltaGroupID : Z;
  tp_DeltaObjectID : Z; tp_StartWallclock : Z; tp_DeltaWallclock : Z }.
Definition addDelta (base delta : Z) : Z := u64 (int64_of_u64 base + delta).
Definition template_At (t : MediaTimelineTemplate) (n : Z) : MediaTimelineRecord :=
  MkTimelineRecord (i64 (tp_StartMediaTime t + i64 (n * tp_DeltaMediaTime t)))
    (addDelta (tp_StartGroupID t) (i64 (n * tp_DeltaGroupID t))) (addDelta (tp_StartObjectID t) (i64 (n * tp_DeltaObjectID t)))
    (i64 (tp_StartWallclock t + i64 (n * tp_DeltaWallclock t))).

Record SAPRecord : Type := MkSAP { sap_GroupID : Z; sap_ObjectID : Z; sap_Type : Z; sap_EPT : Z }.
Definition sap_validate (r : SAPRecord) : result unit :=
  if (sap_Type r <? 0) || (sap_Type r >? 3) then Err (Errorf "moqt/msf: sap record: sapType out of range 0-3")
  else if (sap_ObjectID r =? 0) && negb (sap_Type r =? 1) && negb (sap_Type r =? 2)
  then Err (Errorf "moqt/msf: sap record: sapType of a group's start MUST be 1 or 2")
  else Ok tt.

(** ** Group IDs *)
Record GroupSequencer : Type := MkSequencer { gs_next : Z }.
Definition NewGroupSequencerAt (start : Z) : GroupSequencer := MkSequencer start.
Definition gs_Next (s : GroupSequencer) : Z * GroupSequencer :=
  let n := u64 (gs_next s + 1) in (u64 (n - 1), MkSequencer n).
Definition gs_Peek (s : GroupSequencer) : Z := gs_next s.

Definition PriorGapHeader (prev curr : Z) : result KVPair :=
  if curr <=? prev then Err (Errorf "moqt/msf: PriorGapHeader: curr must be > prev")
  else
    let gap := u64 (u64 (curr - prev) - 1) in
    if gap =? 0 then Err (Errorf "moqt/msf: PriorGapHeader: no gap")
    else Ok (MkKV PropertyPriorGroupIDGap gap []).

(** ** Catalogs *)
Record InitData : Type := MkInitData { id_ID : bytes; id_Type : bytes; id_Data : bytes }.
#[global] Instance InitData_eq_dec : EqDecision InitData.
Proof. solve_decision. Defined.
Record BuffersSpec : Type := MkBuffers { bf_Target : option Z; bf_Min : option Z; bf_Max : option Z }.
Record AccessibilitySpec : Type := MkAccessibility { ac_Scheme : bytes; ac_Value : bytes }.
Record URLRef : Type := MkURLRef { url_URL : bytes; url_Type : bytes }.
#[global] Instance URLRef_eq_dec : EqDecision URLRef.
Proof. solve_decision. Defined.

Definition float_zero (f : spec_float) : bool := SFeqb f (S754_zero false).
Definition empty (s : bytes) : bool := match s with [] => true | _ => false end.
Definition unset {A} (o : option A) : bool := match o with None => true | Some _ => false end.

Section Catalogs.
Context {any : Type} (any_eqb : any -> any -> bool).

(** [reflect.DeepEqual] of two maps. *)
Definition map_DeepEqual (a b : option (gmap bytes any)) : bool :=
  match a, b with
  | None, None => true
  | Some a, Some b =>
      bool_decide (base.size a = base.size b) &&
      forallb (fun '(k, v) => match b !! k with Some w => any_eqb v w | None => false end) (map_to_list a)
  | _, _ => false
  end.

Record DRMSystem : Type := MkDRM {
  drm_SystemID : bytes; drm_LAURL : option URLRef; drm_CertURL : option URLRef; drm_PSSH : bytes; drm_Robustness : bytes;
  drm_Extras : option (gmap bytes any) }.
Record ContentProtection : Type := MkProtection {
  cp_RefID : bytes; cp_DefaultKID : option (list bytes); cp_Scheme : bytes; cp_DRMSystem : DRMSystem;
  cp_Extras : option (gmap bytes any) }.

Definition drm_DeepEqual (a b : DRMSystem) : bool :=
  bool_decide (drm_SystemID a = drm_SystemID b) && bool_decide (drm_LAURL a = drm_LAURL b) &&
  bool_decide (drm_CertURL a = drm_CertURL b) && bool_decide (drm_PSSH a = drm_PSSH b) &&
  bool_decide (drm_Robustness a = drm_Robustness b) && map_DeepEqual (drm_Extras a) (drm_Extras b).
Definition cp_DeepEqual (a b : ContentProtection) : bool :=
  bool_decide (cp_RefID a = cp_RefID b) && bool_decide (cp_DefaultKID a = cp_DefaultKID b) &&
  bool_decide (cp_Scheme a = cp_Scheme b) && drm_DeepEqual (cp_DRMSystem a) (cp_DRMSystem b) &&
  map_DeepEqual (cp_Extras a) (cp_Extras b).

Record Track : Type := MkTrack {
  t_Name : bytes; t_Namespace : bytes; t_Packaging : bytes; t_EventType : bytes; t_IsLive : option bool;
  t_TargetLatency : option Z; t_Buffers : option BuffersSpec; t_Role : bytes; t_Label : bytes;
  t_RenderGroup : option Z; t_AltGroup : option Z; t_InitRef : bytes; t_Depends : option (list bytes);
  t_Template : option MediaTimelineTemplate; t_TemporalID : option Z; t_SpatialID : option Z; t_Codec : bytes;
  t_Mimetype : bytes; t_Framerate : spec_float; t_Timescale : Z; t_Bitrate : Z; t_AvgBitrate : Z;
  t_MaxGopDuration : Z; t_MaxGroupDuration : Z; t_Width : Z; t_Height : Z; t_Samplerate : Z; t_ChannelConfig : bytes;
  t_DisplayWidth : Z; t_DisplayHeight : Z; t_Lang : bytes; t_ParentName : bytes; t_ParentNamespace : bytes;
  t_TrackDuration : Z; t_ConnectionURI : bytes; t_Token : bytes; t_EncryptionScheme : bytes; t_CipherSuite : bytes;
  t_KeyID : bytes; t_TrackBaseKey : bytes; t_AuthInfo : option (gmap bytes any);
  t_Accessibility : option (list AccessibilitySpec); t_MaxGrpSapStartingType : option Z;
  t_MaxObjSapStartingType : option Z; t_ContentProtectionRefIDs : option (list bytes);
  t_Extras : option (gmap bytes any) }.

Record DeltaOp : Type := MkDeltaOp { do_Op : bytes; do_Tracks : list Track }.

Record Catalog : Type := MkCatalog {
  c_Version : bytes; c_GeneratedAt : Z; c_IsComplete : bool; c_Tracks : option (list Track);
  c_PublishTracks : option (list Track); c_DeltaUpdate : option (list DeltaOp); c_InitDataList : list InitData;
  c_ContentProtections : list ContentProtection; c_Extras : option (gmap bytes any) }.
Definition tracks (c : Catalog) : list Track := default [] (c_Tracks c).
Definition IsDelta (c : Catalog) : bool := negb (unset (c_DeltaUpdate c)).

Definition set_tracks (ts : list Track) (c : Catalog) : Catalog :=
  MkCatalog (c_Version c) (c_GeneratedAt c) (c_IsComplete c) (Some ts) (c_PublishTracks c) (c_DeltaUpdate c) (c_InitDataList c)
    (c_ContentProtections c) (c_Extras c).
Definition set_lists (ids : list InitData) (cps : list ContentProtection) (c : Catalog) : Catalog :=
  MkCatalog (c_Version c) (c_GeneratedAt c) (c_IsComplete c) (c_Tracks c) (c_PublishTracks c) (c_DeltaUpdate c) ids cps (c_Extras c).

(** ** Delta updates *)

Definition cloneCatalog (c : Catalog) : Catalog :=
  MkCatalog (c_Version c) (c_GeneratedAt c) (c_IsComplete c) (c_Tracks c) (c_PublishTracks c) None (c_InitDataList c)
    (c_ContentProtections c) (c_Extras c).

Fixpoint mergeInitDataList (out add : list InitData) : result (list InitData) :=
  match add with
  | [] => Ok out
  | entry :: add =>
      if empty (id_ID entry) then Err (Errorf "moqt/msf: delta initDataList: id is required")
      else
        match List.find (fun e => bool_decide (id_ID e = id_ID entry)) out with
        | None => mergeInitDataList (out ++ [entry]) add
        | Some e => if bool_decide (e = entry) then mergeInitDataList out add
                    else Err (Errorf "moqt/msf: delta initDataList: id redefined")
        end
  end.

Fixpoint mergeContentProtections (out add : list ContentProtection) : result (list ContentProtection) :=
  match add with
  | [] => Ok out
  | entry :: add =>
      if empty (cp_RefID entry) then Err (Errorf "moqt/msf: delta contentProtections: refID is required")
      else
        match List.find (fun e => bool_decide (cp_RefID e = cp_RefID entry)) out with
        | None => mergeContentProtections (out ++ [entry]) add
        | Some e => if cp_DeepEqual e entry then mergeContentProtections out add
                    else Err (Errorf "moqt/msf: delta contentProtections: refID redefined")
        end
  end.

Definition sameTrackID (a b : Track) : bool := bool_decide (t_Name a = t_Name b) && bool_decide (t_Namespace a = t_Namespace b).

Definition applyAdd (ts : list Track) (add : Track) : result (list Track) :=
  if empty (t_Name add) then Err (Errorf "add entry missing name")
  else if existsb (fun existing => sameTrackID existing add) ts then Err (Errorf "track already exists")
  else Ok (ts ++ [add]).

(** The loop of [applyRemove], over the tracks from where it is. *)
Fixpoint remove_track (ts : list Track) (rm : Track) : option (list Track) :=
  match ts with
  | [] => None
  | existing :: ts =>
      if negb (empty (t_Namespace rm)) && negb (bool_decide (t_Namespace existing = t_Namespace rm))
      then cons existing <$> remove_track ts rm
      else if negb (bool_decide (t_Name existing = t_Name rm)) then cons existing <$> remove_track ts rm
      else Some ts
  end.
Definition applyRemove (ts : list Track) (rm : Track) : result (list Track) :=
  if empty (t_Name rm) then Err (Errorf "remove entry missing name")
  else match remove_track ts rm with Some ts => Ok ts | None => Err (Errorf "no such track") end.

Fixpoint findTrack (ts : list Track) (name namespace : bytes) : option Track :=
  match ts with
  | [] => None
  | t :: ts =>
      if negb (bool_decide (t_Name t = name)) then findTrack ts name namespace
      else if negb (empty namespace) && negb (bool_decide (t_Namespace t = namespace)) then findTrack ts name namespace
      else Some t
  end.

Definition pick_str (src dst : bytes) : bytes := if empty src then dst else src.
Definition pick_num (src dst : Z) : Z := if src =? 0 then dst else src.
Definition pick_float (src dst : spec_float) : spec_float := if float_zero src then dst else src.
Definition pick_set {A} (src dst : option A) : option A := match src with Some v => Some v | None => dst end.

Definition overlayTrackStrings (dst src : Track) : Track :=
  MkTrack (t_Name dst) (pick_str (t_Namespace src) (t_Namespace dst)) (pick_str (t_Packaging src) (t_Packaging dst))
  (pick_str (t_EventType src) (t_EventType dst)) (t_IsLive dst) (t_TargetLatency dst) (t_Buffers dst)
  (pick_str (t_Role src) (t_Role dst)) (pick_str (t_Label src) (t_Label dst)) (t_RenderGroup dst) (t_AltGroup dst)
  (pick_str (t_InitRef src) (t_InitRef dst)) (t_Depends dst) (t_Template dst) (t_TemporalID dst) (t_SpatialID dst)
  (pick_str (t_Codec src) (t_Codec dst)) (pick_str (t_Mimetype src) (t_Mimetype dst)) (t_Framerate dst)
  (t_Timescale dst) (t_Bitrate dst) (t_AvgBitrate dst) (t_MaxGopDuration dst) (t_MaxGroupDuration dst) (t_Width dst)
  (t_Height dst) (t_Samplerate dst) (pick_str (t_ChannelConfig src) (t_ChannelConfig dst)) (t_DisplayWidth dst)
  (t_DisplayHeight dst) (pick_str (t_Lang src) (t_Lang dst)) (t_ParentName dst) (t_ParentNamespace dst)
  (t_TrackDuration dst) (pick_str (t_ConnectionURI src) (t_ConnectionURI dst)) (pick_str (t_Token src) (t_Token dst))
  (pick_str (t_EncryptionScheme src) (t_EncryptionScheme dst)) (pick_str (t_CipherSuite src) (t_CipherSuite dst))
  (pick_str (t_KeyID src) (t_KeyID dst)) (pick_str (t_TrackBaseKey src) (t_TrackBaseKey dst)) (t_AuthInfo dst)
  (t_Accessibility dst) (t_MaxGrpSapStartingType dst) (t_MaxObjSapStartingType dst) (t_ContentProtectionRefIDs dst)
  (t_Extras dst).
Definition overlayTrackNumbers (dst src : Track) : Track :=
  MkTrack (t_Name dst) (t_Namespace dst) (t_Packaging dst) (t_EventType dst) (t_IsLive dst) (t_TargetLatency dst)
  (t_Buffers dst) (t_Role dst) (t_Label dst) (t_RenderGroup dst) (t_AltGroup dst) (t_InitRef dst) (t_Depends dst)
  (t_Template dst) (t_TemporalID dst) (t_SpatialID dst) (t_Codec dst) (t_Mimetype dst)
  (pick_float (t_Framerate src) (t_Framerate dst)) (pick_num (t_Timescale src) (t_Timescale dst))
  (pick_num (t_Bitrate src) (t_Bitrate dst)) (pick_num (t_AvgBitrate src) (t_AvgBitrate dst))
  (pick_num (t_MaxGopDuration src) (t_MaxGopDuration dst))
  (pick_num (t_MaxGroupDuration src) (t_MaxGroupDuration dst)) (pick_num (t_Width src) (t_Width dst))
  (pick_num (t_Height src) (t_Height dst)) (pick_num (t_Samplerate src) (t_Samplerate dst)) (t_ChannelConfig dst)
  (pick_num (t_DisplayWidth src) (t_DisplayWidth dst)) (pick_num (t_DisplayHeight src) (t_DisplayHeight dst))
  (t_Lang dst) (t_ParentName dst) (t_ParentNamespace dst) (pick_num (t_TrackDuration src) (t_TrackDuration dst))
  (t_ConnectionURI dst) (t_Token dst) (t_EncryptionScheme dst) (t_CipherSuite dst) (t_KeyID dst) (t_TrackBaseKey dst)
  (t_AuthInfo dst) (t_Accessibility dst) (t_MaxGrpSapStartingType dst) (t_MaxObjSapStartingType dst)
  (t_ContentProtectionRefIDs dst) (t_Extras dst).
Definition overlayTrackComposite (dst src : Track) : Track :=
  MkTrack (t_Name dst) (t_Namespace dst) (t_Packaging dst) (t_EventType dst) (pick_set (t_IsLive src) (t_IsLive dst))
  (pick_set (t_TargetLatency src) (t_TargetLatency dst)) (pick_set (t_Buffers src) (t_Buffers dst)) (t_Role dst)
  (t_Label dst) (pick_set (t_RenderGroup src) (t_RenderGroup dst)) (pick_set (t_AltGroup src) (t_AltGroup dst))
  (t_InitRef dst) (pick_set (t_Depends src) (t_Depends dst)) (pick_set (t_Template src) (t_Template dst))
  (pick_set (t_TemporalID src) (t_TemporalID dst)) (pick_set (t_SpatialID src) (t_SpatialID dst)) (t_Codec dst)
  (t_Mimetype dst) (t_Framerate dst) (t_Timescale dst) (t_Bitrate dst) (t_AvgBitrate dst) (t_MaxGopDuration dst)
  (t_MaxGroupDuration dst) (t_Width dst) (t_Height dst) (t_Samplerate dst) (t_ChannelConfig dst) (t_DisplayWidth dst)
  (t_DisplayHeight dst) (t_Lang dst) (t_ParentName dst) (t_ParentNamespace dst) (t_TrackDuration dst)
  (t_ConnectionURI dst) (t_Token dst) (t_EncryptionScheme dst) (t_CipherSuite dst) (t_KeyID dst) (t_TrackBaseKey dst)
  (pick_set (t_AuthInfo src) (t_AuthInfo dst)) (pick_set (t_Accessibility src) (t_Accessibility dst))
  (pick_set (t_MaxGrpSapStartingType src) (t_MaxGrpSapStartingType dst))
  (pick_set (t_MaxObjSapStartingType src) (t_MaxObjSapStartingType dst))
  (pick_set (t_ContentProtectionRefIDs src) (t_ContentProtectionRefIDs dst)) (pick_set (t_Extras src) (t_Extras dst)).
Definition overlayTrack (dst src : Track) : Track :=
  overlayTrackComposite (overlayTrackNumbers (overlayTrackStrings dst src) src) src.

(** [merged.Name = clone.Name], the parent's names cleared. *)
Definition rename_clone (name : bytes) (t : Track) : Track :=
  MkTrack name (t_Namespace t) (t_Packaging t) (t_EventType t) (t_IsLive t) (t_TargetLatency t) (t_Buffers t)
  (t_Role t) (t_Label t) (t_RenderGroup t) (t_AltGroup t) (t_InitRef t) (t_Depends t) (t_Template t) (t_TemporalID t)
  (t_SpatialID t) (t_Codec t) (t_Mimetype t) (t_Framerate t) (t_Timescale t) (t_Bitrate t) (t_AvgBitrate t)
  (t_MaxGopDuration t) (t_MaxGroupDuration t) (t_Width t) (t_Height t) (t_Samplerate t) (t_ChannelConfig t)
  (t_DisplayWidth t) (t_DisplayHeight t) (t_Lang t) [] [] (t_TrackDuration t) (t_ConnectionURI t) (t_Token t)
  (t_EncryptionScheme t) (t_CipherSuite t) (t_KeyID t) (t_TrackBaseKey t) (t_AuthInfo t) (t_Accessibility t)
  (t_MaxGrpSapStartingType t) (t_MaxObjSapStartingType t) (t_ContentProtectionRefIDs t) (t_Extras t).

Definition applyClone (ts : list Track) (clone : Track) : result (list Track) :=
  if empty (t_ParentName clone) then Err (Errorf "clone entry: parentName required")
  else if empty (t_Name clone) then Err (Errorf "clone entry: name required")
  else
    match findTrack ts (t_ParentName clone) (t_ParentNamespace clone) with
    | None => Err (Errorf "clone entry: parent not found")
    | Some parent =>
        let merged := rename_clone (t_Name clone) (overlayTrack parent clone) in
        if sameTrackID parent merged then Err (Errorf "clone entry: clone name matches parent")
        else if existsb (fun existing => sameTrackID existing merged) ts
        then Err (Errorf "clone entry: resulting track already exists")
        else Ok (ts ++ [merged])
    end.

Fixpoint apply_tracks (f : list Track -> Track -> result (list Track)) (ts ops : list Track) : result (list Track) :=
  match ops with [] => Ok ts | tr :: ops => ts ← map_err (Wrapf "moqt/msf: deltaUpdate") (f ts tr); apply_tracks f ts ops end.

Definition apply_op (ts : list Track) (op : DeltaOp) : result (list Track) :=
  if bool_decide (do_Op op = DeltaOpAdd) then apply_tracks applyAdd ts (do_Tracks op)
  else if bool_decide (do_Op op = DeltaOpRemove) then apply_tracks applyRemove ts (do_Tracks op)
  else if bool_decide (do_Op op = DeltaOpClone) then apply_tracks applyClone ts (do_Tracks op)
  else Err (Errorf "moqt/msf: deltaUpdate: unknown op").
Fixpoint apply_ops (ts : list Track) (ops : list DeltaOp) : result (list Track) :=
  match ops with [] => Ok ts | op :: ops => ts ← apply_op ts op; apply_ops ts ops end.

(** ** Validation *)

Definition resolves (c : Catalog) (t : Track) : bool :=
  (empty (t_InitRef t) || bool_decide (t_InitRef t ∈ id_ID <$> c_InitDataList c)) &&
  forallb (fun ref => bool_decide (ref ∈ cp_RefID <$> c_ContentProtections c)) (default [] (t_ContentProtectionRefIDs t)).
Definition validateTrackReferences (c : Catalog) : result unit :=
  if forallb (resolves c) (tracks c) then Ok tt else Err (Errorf "moqt/msf: unresolved reference").

(** [out.Tracks] stays nil when no operation touches it. *)
Definition Apply (base delta : Catalog) : result Catalog :=
  match c_DeltaUpdate delta with
  | None => Err (Errorf "moqt/msf: catalog is not a delta update")
  | Some ops =>
      let out := cloneCatalog base in
      ids ← mergeInitDataList (c_InitDataList out) (c_InitDataList delta);
      cps ← mergeContentProtections (c_ContentProtections out) (c_ContentProtections delta);
      ts ← apply_ops (tracks out) ops;
      let out := set_lists ids cps out in
      let out := if forallb (fun op => match do_Tracks op with [] => true | _ => false end) ops then out else set_tracks ts out in
      let out := MkCatalog (c_Version out) (if c_GeneratedAt delta =? 0 then c_GeneratedAt out else c_GeneratedAt delta)
                   (c_IsComplete out) (c_Tracks out) (c_PublishTracks out) None (c_InitDataList out) (c_ContentProtections out)
                   (c_Extras out) in
      _ ← validateTrackReferences out; Ok out
  end.

Definition is_hex (x : byte) : bool :=
  let c := Z.of_N (Byte.to_N x) in
  ((48 <=? c) && (c <=? 57)) || ((97 <=? c) && (c <=? 102)) || ((65 <=? c) && (c <=? 70)).
Definition dash_at (s : bytes) (i : nat) : bool := bool_decide (s !! i = Some x2d).
Definition isUUID (s : bytes) : bool :=
  (len s =? 36) && dash_at s 8 && dash_at s 13 && dash_at s 18 && dash_at s 23 &&
  forallb is_hex (take 8 s ++ take 4 (drop 9 s) ++ take 4 (drop 14 s) ++ take 4 (drop 19 s) ++ drop 24 s).

Definition validateDRMSystem (ds : DRMSystem) : result unit :=
  if empty (drm_SystemID ds) then Err (Errorf "drmSystem.systemID is required")
  else if negb (isUUID (drm_SystemID ds)) then Err (Errorf "drmSystem.systemID is not a UUID string")
  else if existsb (fun ref => match ref with Some u => empty (url_URL u) | None => false end) [drm_LAURL ds; drm_CertURL ds]
  then Err (Errorf "drmSystem: url is required") else Ok tt.

Definition validateContentProtection (cp : ContentProtection) : result unit :=
  let kids := default [] (cp_DefaultKID cp) in
  if len kids =? 0 then Err (Errorf "defaultKID is required")
  else if negb (forallb isUUID kids) then Err (Errorf "defaultKID is not a UUID string")
  else if empty (cp_Scheme cp) then Err (Errorf "scheme is required")
  else if negb (bool_decide (cp_Scheme cp = SchemeCENC) || bool_decide (cp_Scheme cp = SchemeCBCS)) then Err (Errorf "unknown scheme")
  else validateDRMSystem (cp_DRMSystem cp).

Fixpoint protections_loop (cps : list ContentProtection) (seen : list bytes) : result unit :=
  match cps with
  | [] => Ok tt
  | cp :: cps =>
      if empty (cp_RefID cp) then Err (Errorf "moqt/msf: contentProtections: refID is required")
      else if bool_decide (cp_RefID cp ∈ seen) then Err (Errorf "moqt/msf: contentProtections: duplicate refID")
      else _ ← map_err (Wrapf "moqt/msf: contentProtections") (validateContentProtection cp); protections_loop cps (cp_RefID cp :: seen)
  end.
Definition validateContentProtections (c : Catalog) : result unit := protections_loop (c_ContentProtections c) [].

Definition out_of (lo hi : Z) (o : option Z) : bool := match o with Some v => (v <? lo) || (v >? hi) | None => false end.
Definition validateSapStartingTypes (t : Track) : result unit :=
  if out_of 0 3 (t_MaxGrpSapStartingType t) then Err (Errorf "maxGrpSapStartingType out of range 0-3")
  else if out_of 0 3 (t_MaxObjSapStartingType t) then Err (Errorf "maxObjSapStartingType out of range 0-3")
  else if bool_decide (t_Packaging t = PackagingCMAF) && out_of 1 2 (t_MaxGrpSapStartingType t)
  then Err (Errorf "maxGrpSapStartingType out of range 1-2 for packaging cmaf") else Ok tt.

Definition packagings : list bytes :=
  [PackagingLOC; PackagingMediaTimeline; PackagingEventTimeline; PackagingMoQLog; PackagingMoQMetrics; PackagingCMAF].
Definition validateTrack (t : Track) : result unit :=
  if empty (t_Name t) then Err (Errorf "name is required")
  else if empty (t_Packaging t) then Err (Errorf "packaging is required")
  else if negb (bool_decide (t_Packaging t ∈ packagings)) then Err (Errorf "unknown packaging")
  else
    match t_IsLive t with
    | None => Err (Errorf "isLive is required")
    | Some live =>
        if bool_decide (t_Packaging t = PackagingEventTimeline) && empty (t_EventType t)
        then Err (Errorf "eventType is required when packaging=eventtimeline")
        else if negb (bool_decide (t_Packaging t = PackagingEventTimeline)) && negb (empty (t_EventType t))
        then Err (Errorf "eventType MUST NOT be used unless packaging=eventtimeline")
        else if negb (unset (t_TargetLatency t)) && negb (unset (t_Buffers t))
        then Err (Errorf "targetLatency and buffers are mutually exclusive")
        else if live && negb (t_TrackDuration t =? 0) then Err (Errorf "trackDuration MUST NOT be present when isLive is true")
        else validateSapStartingTypes t
    end.

Fixpoint validate_all {A} (f : A -> result unit) (l : list A) : result unit :=
  match l with [] => Ok tt | x :: l => _ ← map_err (Wrapf "tracks") (f x); validate_all f l end.

(** [groups] holds the first latency seen of each group. *)
Fixpoint latency_groups (accessor : Track -> option Z) (ts : list Track) (groups : gmap Z (option Z)) : result unit :=
  match ts with
  | [] => Ok tt
  | tr :: ts =>
      match accessor tr with
      | None => latency_groups accessor ts groups
      | Some g =>
          match groups !! g with
          | None => latency_groups accessor ts (<[g := t_TargetLatency tr]> groups)
          | Some l => if bool_decide (l = t_TargetLatency tr) then latency_groups accessor ts groups
                      else Err (Errorf "moqt/msf: targetLatency mismatch within group")
          end
      end
  end.
Definition validateTargetLatencyGroups (ts : list Track) (accessor : Track -> option Z) : result unit := latency_groups accessor ts ∅.

Definition isOnlyNameAndNamespace (t : Track) : bool :=
  empty (t_Packaging t) && empty (t_EventType t) && unset (t_IsLive t) && unset (t_TargetLatency t) &&
  unset (t_Buffers t) && empty (t_Role t) && empty (t_Label t) && unset (t_RenderGroup t) && unset (t_AltGroup t) &&
  empty (t_InitRef t) && unset (t_Depends t) && unset (t_Template t) && unset (t_TemporalID t) &&
  unset (t_SpatialID t) && empty (t_Codec t) && empty (t_Mimetype t) && float_zero (t_Framerate t) &&
  (t_Timescale t =? 0) && (t_Bitrate t =? 0) && (t_AvgBitrate t =? 0) && (t_MaxGopDuration t =? 0) &&
  (t_MaxGroupDuration t =? 0) && (t_Width t =? 0) && (t_Height t =? 0) && (t_Samplerate t =? 0) &&
  empty (t_ChannelConfig t) && (t_DisplayWidth t =? 0) && (t_DisplayHeight t =? 0) && empty (t_Lang t) &&
  empty (t_ParentName t) && empty (t_ParentNamespace t) && (t_TrackDuration t =? 0) && empty (t_ConnectionURI t) &&
  empty (t_Token t) && empty (t_EncryptionScheme t) && empty (t_CipherSuite t) && empty (t_KeyID t) &&
  empty (t_TrackBaseKey t) && unset (t_AuthInfo t) && unset (t_Accessibility t) &&
  unset (t_MaxGrpSapStartingType t) && unset (t_MaxObjSapStartingType t) && unset (t_ContentProtectionRefIDs t) &&
  unset (t_Extras t).

Definition validateIndependent (c : Catalog) : result unit :=
  if negb (bool_decide (c_Version c = MsfVersion)) then Err (Errorf "moqt/msf: unsupported version")
  else
    _ ← validate_all validateTrack (tracks c);
    _ ← validateTargetLatencyGroups (tracks c) t_RenderGroup;
    _ ← validateTargetLatencyGroups (tracks c) t_AltGroup;
    _ ← validateContentProtections c;
    validateTrackReferences c.

Definition remove_entry (t : Track) : result unit :=
  if empty (t_Name t) then Err (Errorf "name required")
  else if isOnlyNameAndNamespace t then Ok tt else Err (Errorf "only name and namespace allowed").
Definition clone_entry (t : Track) : result unit :=
  if empty (t_ParentName t) then Err (Errorf "parentName required")
  else if empty (t_Name t) then Err (Errorf "name required") else Ok tt.
Definition validateDeltaOp (op : DeltaOp) : result unit :=
  if bool_decide (do_Op op = DeltaOpAdd) then validate_all validateTrack (do_Tracks op)
  else if bool_decide (do_Op op = DeltaOpRemove) then validate_all remove_entry (do_Tracks op)
  else if bool_decide (do_Op op = DeltaOpClone) then validate_all clone_entry (do_Tracks op)
  else Err (Errorf "unknown op").

Definition validateDelta (c : Catalog) : result unit :=
  if negb (empty (c_Version c)) then Err (Errorf "moqt/msf: delta update must not contain version")
  else if negb (unset (c_Tracks c)) then Err (Errorf "moqt/msf: delta update must not contain tracks")
  else if len (default [] (c_DeltaUpdate c)) =? 0 then Err (Errorf "moqt/msf: delta update must contain at least one operation")
  else
    _ ← validateContentProtections c;
    validate_all validateDeltaOp (default [] (c_DeltaUpdate c)).

Definition catalog_Validate (c : Catalog) : result unit := if IsDelta c then validateDelta c else validateIndependent c.

(** ** What a delta update leaves *)

Definition track_id (t : Track) : bytes * bytes := (t_Namespace t, t_Name t).

Lemma same_id a b : sameTrackID a b = bool_decide (track_id a = track_id b).
Proof.
  unfold sameTrackID, track_id. destruct (decide (t_Name a = t_Name b)), (decide (t_Namespace a = t_Namespace b));
    repeat first [rewrite bool_decide_true by congruence|rewrite bool_decide_false by congruence]; done.
Qed.
Lemma no_same_id ts t : existsb (fun e => sameTrackID e t) ts = false -> track_id t ∉ track_id <$> ts.
Proof.
  intros H Hin. apply list_elem_of_fmap in Hin as (e & He & Hin). apply not_true_iff_false in H. apply H, existsb_exists.
  exists e. split; [by apply list_elem_of_In|]. rewrite same_id. by apply bool_decide_eq_true.
Qed.

(** *** The root lists *)
Lemma find_none_id {A} (id : A -> bytes) l x : List.find (fun e => bool_decide (id e = x)) l = None -> x ∉ id <$> l.
Proof.
  intros H Hin. apply list_elem_of_fmap in Hin as (e & -> & Hin). eapply find_none in H; [|by apply list_elem_of_In].
  simpl in H. by rewrite bool_decide_true in H.
Qed.
Lemma NoDup_snoc {A} (l : list A) x : NoDup l -> x ∉ l -> NoDup (l ++ [x]).
Proof. intros Hl Hx. apply NoDup_app. split_and!; [done| |apply NoDup_singleton]. intros y Hy ->%list_elem_of_singleton. done. Qed.

Lemma merge_init_spec add : forall out out', mergeInitDataList out add = Ok out' ->
  out `prefix_of` out' /\ (NoDup (id_ID <$> out) -> NoDup (id_ID <$> out')).
Proof.
  induction add as [|e add IH]; intros out out' H; simpl in H; [by injection H as <-|].
  destruct (empty (id_ID e)); [done|]. destruct (List.find _ out) as [x|] eqn:E.
  - case_bool_decide; [by apply IH|done].
  - apply IH in H as [Hp Hn]. split; [by eapply prefix_app_l|]. intros Hd. apply Hn. rewrite fmap_app. simpl.
    apply NoDup_snoc; [done|]. by apply find_none_id.
Qed.
Lemma merge_cps_spec (P : ContentProtection -> Prop) add : forall out out', mergeContentProtections out add = Ok out' ->
  out `prefix_of` out' /\ (NoDup (cp_RefID <$> out) -> NoDup (cp_RefID <$> out')) /\ (Forall P out -> Forall P add -> Forall P out').
Proof.
  induction add as [|e add IH]; intros out out' H; simpl in H; [by injection H as <-|].
  destruct (empty (cp_RefID e)); [done|]. destruct (List.find _ out) as [x|] eqn:E.
  - destruct (cp_DeepEqual x e); [|done]. apply IH in H as (Hp & Hn & Hf). split_and!; [done|done|].
    intros Ho [_ Ha]%Forall_cons. auto.
  - apply IH in H as (Hp & Hn & Hf). split_and!; [by eapply prefix_app_l| |].
    + intros Hd. apply Hn. rewrite fmap_app. simpl. apply NoDup_snoc; [done|]. by apply find_none_id.
    + intros Ho [He Ha]%Forall_cons. apply Hf; [|done]. apply Forall_app. split; [done|by constructor].
Qed.

Definition protection_ok (cp : ContentProtection) : Prop := cp_RefID cp <> [] /\ validateContentProtection cp = Ok tt.
Lemma empty_false s : empty s = false <-> s <> [].
Proof. by destruct s. Qed.
Lemma protections_loop_ok cps : forall seen, protections_loop cps seen = Ok tt <->
  Forall protection_ok cps /\ NoDup (cp_RefID <$> cps) /\ (forall x, x ∈ seen -> x ∉ cp_RefID <$> cps).
Proof.
  induction cps as [|cp cps IH]; intros seen; simpl.
  { split; [|done]. intros _. split_and!; [constructor|constructor|]. intros x _. apply not_elem_of_nil. }
  destruct (empty (cp_RefID cp)) eqn:Ee.
  { split; [done|]. intros ([[Hn _] _]%Forall_cons & _). by destruct (cp_RefID cp). }
  apply empty_false in Ee. case_bool_decide as Hs.
  { split; [done|]. intros (_ & _ & Hd). destruct (Hd _ Hs). left. }
  destruct (validateContentProtection cp) as [[]|e] eqn:Ev; simpl.
  2: { split; [done|]. intros ([[_ Hn] _]%Forall_cons & _). congruence. }
  rewrite IH, Forall_cons, NoDup_cons. split.
  - intros (Hf & Hn & Hd). split_and!; [done|done| |done|].
    + apply Hd. left.
    + intros x Hx. rewrite not_elem_of_cons. split; [by intros ->|]. apply Hd. by right.
  - intros ([_ Hf] & [Hc Hn] & Hd). split_and!; [done|done|]. intros x [->|Hx]%elem_of_cons; [done|].
    apply Hd in Hx. by apply not_elem_of_cons in Hx as [_ Hx].
Qed.

(** *** The tracks *)
Lemma remove_sublist rm ts : forall ts', remove_track ts rm = Some ts' -> ts' `sublist_of` ts.
Proof.
  induction ts as [|t ts IH]; intros ts' H; simpl in H; [done|].
  assert (Hc : cons t <$> remove_track ts rm = Some ts' -> ts' `sublist_of` t :: ts).
  { intros Hx. apply fmap_Some in Hx as (ts1 & Hx & ->). apply IH in Hx. by constructor. }
  destruct (_ && _); [by apply Hc|]. destruct (negb _); [by apply Hc|]. injection H as <-. by constructor.
Qed.

Lemma find_track_spec ts name ns p : findTrack ts name ns = Some p ->
  p ∈ ts /\ t_Name p = name /\ (ns = [] \/ t_Namespace p = ns).
Proof.
  induction ts as [|t ts IH]; simpl; [done|]. case_bool_decide as Hn; simpl.
  2: { intros H%IH. split; [right|]; apply H. }
  destruct (empty ns) eqn:Ee; simpl.
  { intros [= <-]. split_and!; [left|done|]. left. by destruct ns. }
  case_bool_decide as Hs; simpl.
  - intros [= <-]. split_and!; [left|done|by right].
  - intros H%IH. split; [right|]; apply H.
Qed.

(** Where a track of the result comes from. *)
Inductive origin (base : list Track) (ops : list DeltaOp) : Track -> Prop :=
| from_base t : t ∈ base -> origin base ops t
| from_add op t : op ∈ ops -> do_Op op = DeltaOpAdd -> t ∈ do_Tracks op -> origin base ops t
| from_clone op c p : op ∈ ops -> do_Op op = DeltaOpClone -> c ∈ do_Tracks op -> origin base ops p ->
    t_Name p = t_ParentName c -> (t_ParentNamespace c = [] \/ t_Namespace p = t_ParentNamespace c) ->
    origin base ops (rename_clone (t_Name c) (overlayTrack p c)).

Lemma apply_tracks_inv (I : list Track -> Prop) f ops : forall ts ts',
  (forall ts tr ts', tr ∈ ops -> I ts -> f ts tr = Ok ts' -> I ts') -> I ts -> apply_tracks f ts ops = Ok ts' -> I ts'.
Proof.
  induction ops as [|tr ops IH]; intros ts ts' Hf Hi H; simpl in H; [by injection H as <-|].
  destruct (f ts tr) as [ts1|] eqn:E; simpl in H; [|done].
  eapply IH; [|eapply Hf; [left|exact Hi|exact E]|exact H]. intros ts2 tr2 ts3 Hin. apply Hf. by right.
Qed.

(** An invariant of the operations of a delta holds of its result. *)
Lemma apply_ops_inv (I : list Track -> Prop) (all ops : list DeltaOp) : forall ts ts', (forall op, op ∈ ops -> op ∈ all) ->
  (forall ts add, I ts -> (exists op, op ∈ all /\ do_Op op = DeltaOpAdd /\ add ∈ do_Tracks op) -> t_Name add <> [] ->
     track_id add ∉ track_id <$> ts -> I (ts ++ [add])) ->
  (forall ts ts', I ts -> ts' `sublist_of` ts -> I ts') ->
  (forall ts c p, I ts -> (exists op, op ∈ all /\ do_Op op = DeltaOpClone /\ c ∈ do_Tracks op) -> t_Name c <> [] -> p ∈ ts ->
     t_Name p = t_ParentName c -> (t_ParentNamespace c = [] \/ t_Namespace p = t_ParentNamespace c) ->
     let m := rename_clone (t_Name c) (overlayTrack p c) in track_id m ∉ track_id <$> ts -> I (ts ++ [m])) ->
  I ts -> apply_ops ts ops = Ok ts' -> I ts'.
Proof.
  intros ts ts' Hall Ha Hr Hc. revert ts ts'. induction ops as [|op ops IH]; intros ts ts' Hi H; simpl in H; [by injection H as <-|].
  destruct (apply_op ts op) as [ts1|] eqn:E; simpl in H; [|done].
  eapply IH; [intros op' Hin; apply Hall; by right| |exact H].
  assert (Hop : op ∈ all) by (apply Hall; left). unfold apply_op in E. case_bool_decide as Ea.
  { eapply apply_tracks_inv; [|exact Hi|exact E]. intros ts2 tr ts3 Hin Hi2. unfold applyAdd.
    destruct (empty (t_Name tr)) eqn:Ee; [done|]. destruct (existsb _ ts2) eqn:Ex; [done|]. intros [= <-].
    apply Ha; [done|by exists op|by apply empty_false|by apply no_same_id]. }
  case_bool_decide as Er.
  { eapply apply_tracks_inv; [|exact Hi|exact E]. intros ts2 tr ts3 Hin Hi2. unfold applyRemove.
    destruct (empty (t_Name tr)); [done|]. destruct (remove_track ts2 tr) as [ts4|] eqn:Em; [|done]. intros [= <-].
    eapply Hr; [done|by eapply remove_sublist]. }
  case_bool_decide as Ec; [|done]. eapply apply_tracks_inv; [|exact Hi|exact E].
  intros ts2 tr ts3 Hin Hi2. unfold applyClone. destruct (empty (t_ParentName tr)); [done|].
  destruct (empty (t_Name tr)) eqn:Ee; [done|]. destruct (findTrack ts2 _ _) as [p|] eqn:Ef; [|done].
  apply find_track_spec in Ef as (Hp & Hn & Hs). destruct (sameTrackID p _); [done|].
  destruct (existsb _ ts2) eqn:Ex; [done|]. intros [= <-].
  apply Hc; [done|by exists op|by apply empty_false|done..|by apply no_same_id].
Qed.

Lemma NoDup_ids_snoc ts (t : Track) : NoDup (track_id <$> ts) -> track_id t ∉ track_id <$> ts -> NoDup (track_id <$> ts ++ [t]).
Proof. intros Hn Ht. rewrite fmap_app. by apply NoDup_snoc. Qed.
Lemma sublist_fmap_NoDup ts' ts : ts' `sublist_of` ts -> NoDup (track_id <$> ts) -> NoDup (track_id <$> ts').
Proof. intros Hs Hn. eapply sublist_NoDup; [exact Hn|]. by apply fmap_sublist. Qed.

Lemma ops_unique ops ts ts' : apply_ops ts ops = Ok ts' -> NoDup (track_id <$> ts) -> NoDup (track_id <$> ts').
Proof.
  intros H Hn. eapply (apply_ops_inv (fun ts => NoDup (track_id <$> ts)) ops ops ts ts'); try done.
  - intros. by apply NoDup_ids_snoc.
  - intros. by eapply sublist_fmap_NoDup.
  - intros. by apply NoDup_ids_snoc.
Qed.
Lemma ops_origin ops ts ts' : apply_ops ts ops = Ok ts' -> Forall (origin ts ops) ts'.
Proof.
  intros H. eapply (apply_ops_inv (Forall (origin ts ops)) ops ops ts ts'); try done.
  - intros ts1 add Hf (op & H1 & H2 & H3) _ _. apply Forall_app. split; [done|]. apply Forall_singleton. by eapply from_add.
  - intros ts1 ts2 Hf Hs. rewrite Forall_forall in Hf |- *. intros t Ht. apply Hf. by eapply elem_of_sublist.
  - intros ts1 c p Hf (op & H1 & H2 & H3) _ Hp Hn Hs m _. apply Forall_app. split; [done|]. apply Forall_singleton.
    eapply from_clone; [done..| |done|done]. rewrite Forall_forall in Hf. by apply Hf.
  - apply Forall_forall. intros t. apply from_base.
Qed.

Lemma ops_untouched ops : forall ts ts', forallb (fun op => match do_Tracks op with [] => true | _ => false end) ops = true ->
  apply_ops ts ops = Ok ts' -> ts' = ts.
Proof.
  induction ops as [|op ops IH]; intros ts ts' Hf H; simpl in *; [by injection H as <-|].
  destruct (do_Tracks op) eqn:Et; [|done]. unfold apply_op in H. rewrite Et in H. simpl in H.
  repeat case_bool_decide; simpl in H; try done; by apply IH.
Qed.

Definition resolved (c : Catalog) (t : Track) : Prop :=
  (t_InitRef t = [] \/ t_InitRef t ∈ id_ID <$> c_InitDataList c) /\
  forall ref, ref ∈ default [] (t_ContentProtectionRefIDs t) -> ref ∈ cp_RefID <$> c_ContentProtections c.
Lemma references_ok c : validateTrackReferences c = Ok tt -> Forall (resolved c) (tracks c).
Proof.
  unfold validateTrackReferences. destruct (forallb (resolves c) (tracks c)) eqn:E; [|done]. intros _. apply Forall_forall.
  intros t Ht. rewrite forallb_forall in E. specialize (E t (proj1 (list_elem_of_In _ _) Ht)). unfold resolves in E.
  apply andb_prop in E as [E1 E2]. split.
  - apply orb_prop in E1 as [E1|E1]; [left; by destruct (t_InitRef t)|right]. by apply bool_decide_eq_true in E1.
  - intros ref Hr. rewrite forallb_forall in E2. specialize (E2 ref (proj1 (list_elem_of_In _ _) Hr)). by apply bool_decide_eq_true in E2.
Qed.

(** A delta that was applied, in its parts. *)
Lemma Apply_inv base delta out : Apply base delta = Ok out -> exists ops ids cps ts,
  c_DeltaUpdate delta = Some ops /\ mergeInitDataList (c_InitDataList base) (c_InitDataList delta) = Ok ids /\
  mergeContentProtections (c_ContentProtections base) (c_ContentProtections delta) = Ok cps /\
  apply_ops (tracks base) ops = Ok ts /\ tracks out = ts /\ c_InitDataList out = ids /\ c_ContentProtections out = cps /\
  c_DeltaUpdate out = None /\ validateTrackReferences out = Ok tt.
Proof.
  unfold Apply. destruct (c_DeltaUpdate delta) as [ops|] eqn:Ed; [|done]. simpl.
  destruct (mergeInitDataList _ _) as [ids|] eqn:Ei; simpl; [|done].
  destruct (mergeContentProtections _ _) as [cps|] eqn:Ec; simpl; [|done].
  change (tracks (cloneCatalog base)) with (tracks base). destruct (apply_ops (tracks base) ops) as [ts|] eqn:Et; simpl; [|done].
  set (o := MkCatalog _ _ _ _ _ _ _ _ _). destruct (validateTrackReferences o) as [[]|] eqn:Ev; simpl; [|done]. intros [= <-].
  exists ops, ids, cps, ts. split_and!; try done.
  - unfold o, tracks. simpl. destruct (forallb _ ops) eqn:Ef; simpl; [|done]. symmetry. by eapply ops_untouched.
  - unfold o. simpl. by destruct (forallb _ ops).
  - unfold o. simpl. by destruct (forallb _ ops).
Qed.

Lemma validate_all_ok {A} (f : A -> result unit) l : validate_all f l = Ok tt -> Forall (fun x => f x = Ok tt) l.
Proof.
  induction l as [|x l IH]; simpl; [constructor|]. destruct (f x) as [[]|] eqn:E; simpl; [|done]. intros H. constructor; auto.
Qed.
Lemma validated_delta delta ops : catalog_Validate delta = Ok tt -> c_DeltaUpdate delta = Some ops ->
  validateContentProtections delta = Ok tt /\ Forall (fun op => validateDeltaOp op = Ok tt) ops.
Proof.
  intros H Ho. unfold catalog_Validate, IsDelta in H. rewrite Ho in H. simpl in H. unfold validateDelta in H. rewrite Ho in H.
  repeat (case_match; try done). destruct (validateContentProtections delta) as [[]|]; simpl in H; [|done].
  split; [done|]. by apply validate_all_ok.
Qed.
Lemma validated_base base : catalog_Validate base = Ok tt -> c_DeltaUpdate base = None ->
  Forall (fun t => validateTrack t = Ok tt) (tracks base) /\ validateContentProtections base = Ok tt.
Proof.
  intros H Ho. unfold catalog_Validate, IsDelta in H. rewrite Ho in H. simpl in H. unfold validateIndependent in H.
  destruct (negb _); [done|]. destruct (validate_all _ _) as [[]|] eqn:E1; simpl in H; [|done].
  destruct (validateTargetLatencyGroups _ t_RenderGroup) as [[]|]; simpl in H; [|done].
  destruct (validateTargetLatencyGroups _ t_AltGroup) as [[]|]; simpl in H; [|done].
  destruct (validateContentProtections base) as [[]|]; simpl in H; [|done]. split; [by apply validate_all_ok|done].
Qed.

(** Of validated catalogs without clones, every origin is a validated track. *)
Lemma origin_validated base ops t : Forall (fun t => validateTrack t = Ok tt) base ->
  Forall (fun op => validateDeltaOp op = Ok tt) ops -> (forall op, op ∈ ops -> do_Op op <> DeltaOpClone) ->
  origin base ops t -> validateTrack t = Ok tt.
Proof.
  intros Hb Ho Hc. rewrite Forall_forall in Hb. rewrite Forall_forall in Ho. destruct 1 as [t Ht|op t Hop Ha Ht|op c p Hop Hcl]; [by apply Hb| |by destruct (Hc op)].
  specialize (Ho op Hop). unfold validateDeltaOp in Ho. rewrite bool_decide_true in Ho by done.
  apply validate_all_ok in Ho. rewrite Forall_forall in Ho. by apply Ho.
Qed.

(** C24: a delta update keeps a catalog consistent.  In the result no two tracks have
    one namespace and name, no two entries of initDataList or contentProtections one
    identifier, if none had in the base; the entries of the base stay, first and in
    order; every track comes from the base, an add, or a clone of such a track under
    another name; every reference of a track resolves; and the result is no delta.  When
    base and delta pass Validate and nothing is cloned, so do the tracks and content
    protections of the result. *)
Theorem delta_keeps_catalog base delta out : Apply base delta = Ok out ->
  (NoDup (track_id <$> tracks base) -> NoDup (track_id <$> tracks out)) /\
  (NoDup (id_ID <$> c_InitDataList base) -> NoDup (id_ID <$> c_InitDataList out)) /\
  (NoDup (cp_RefID <$> c_ContentProtections base) -> NoDup (cp_RefID <$> c_ContentProtections out)) /\
  c_InitDataList base `prefix_of` c_InitDataList out /\ c_ContentProtections base `prefix_of` c_ContentProtections out /\
  Forall (origin (tracks base) (default [] (c_DeltaUpdate delta))) (tracks out) /\
  Forall (resolved out) (tracks out) /\ c_DeltaUpdate out = None /\
  (catalog_Validate base = Ok tt -> c_DeltaUpdate base = None -> catalog_Validate delta = Ok tt ->
   (forall op, op ∈ default [] (c_DeltaUpdate delta) -> do_Op op <> DeltaOpClone) ->
   Forall (fun t => validateTrack t = Ok tt) (tracks out) /\ validateContentProtections out = Ok tt).
Proof.
  intros (ops & ids & cps & ts & Ed & Ei & Ec & Et & Eo & Ei' & Ec' & En & Ev)%Apply_inv.
  apply references_ok in Ev. rewrite Ed, Ei', Ec', Eo in *. simpl.
  destruct (merge_init_spec _ _ _ Ei) as [I1 I2]. destruct (merge_cps_spec protection_ok _ _ _ Ec) as (P1 & P2 & P3).
  pose proof (ops_origin _ _ _ Et) as Ho. split_and!; try done; [by eapply ops_unique|].
  intros Vb Nb Vd Hc. destruct (validated_base base Vb Nb) as [B1 B2]. destruct (validated_delta delta ops Vd Ed) as [D1 D2].
  split.
  - eapply Forall_impl; [exact Ho|]. intros t. by apply origin_validated.
  - unfold validateContentProtections in *. rewrite protections_loop_ok in *. rewrite Ec'.
    destruct B2 as (B2 & B3 & _), D1 as (D1 & _ & _). split_and!; [auto|auto|]. intros x Hx. by apply not_elem_of_nil in Hx.
Qed.
End Catalogs.

(** ** Examples *)

Definition no_any : unit -> unit -> bool := fun _ _ => true.

(** A LOC track with a latency or buffers, and the entry that clones it with buffers. *)
Definition sample_track (name : string) (latency : option Z) (buffers : option BuffersSpec) : Track (any:=unit) :=
  MkTrack (any:=unit) (str name) [] PackagingLOC [] (Some true) latency buffers [] [] None None (str "i") None None
  None None [] [] (S754_zero false) 0 0 0 0 0 0 0 0 [] 0 0 [] [] [] 0 [] [] [] [] [] [] None None None None None None.
Definition sample_clone (name parent : string) (buffers : option BuffersSpec) : Track (any:=unit) :=
  MkTrack (any:=unit) (str name) [] [] [] None None buffers [] [] None None [] None None None None [] []
  (S754_zero false) 0 0 0 0 0 0 0 0 [] 0 0 [] (str parent) [] 0 [] [] [] [] [] [] None None None None None None.
Definition sample_remove (name : string) : Track (any:=unit) :=
  MkTrack (any:=unit) (str name) [] [] [] None None None [] [] None None [] None None None None [] []
  (S754_zero false) 0 0 0 0 0 0 0 0 [] 0 0 [] [] [] 0 [] [] [] [] [] [] None None None None None None.

Definition sample_base : Catalog (any:=unit) :=
  MkCatalog MsfVersion 0 false (Some [sample_track "video" (Some 100) None]) None None [MkInitData (str "i") (str "inline") []] [] None.
Definition sample_delta (ops : list (DeltaOp (any:=unit))) : Catalog (any:=unit) :=
  MkCatalog [] 7 false None None (Some ops) [MkInitData (str "j") (str "inline") []] [] None.
Definition sample_ops : list (DeltaOp (any:=unit)) :=
  [MkDeltaOp DeltaOpAdd [sample_track "audio" None None]; MkDeltaOp DeltaOpClone [sample_clone "low" "video" None];
   MkDeltaOp DeltaOpRemove [sample_remove "video"]].

Lemma delta_keeps_catalog_witness : exists out,
  Apply no_any sample_base (sample_delta sample_ops) = Ok out /\
  (t_Name <$> tracks out) = [str "audio"; str "low"] /\ NoDup (track_id <$> tracks out) /\ Forall (resolved out) (tracks out).
Proof.
  assert (Hr : (match Apply no_any sample_base (sample_delta sample_ops) with Ok out => Some (t_Name <$> tracks out) | Err _ => None end)
    = Some [str "audio"; str "low"]) by (vm_compute; reflexivity).
  destruct (Apply no_any sample_base (sample_delta sample_ops)) as [out|] eqn:E; [|discriminate Hr]. exists out.
  destruct (delta_keeps_catalog no_any sample_base (sample_delta sample_ops) out E) as (H1 & _ & _ & _ & _ & _ & H2 & _).
  split; [reflexivity|]. split; [by injection Hr|]. split; [|exact H2]. apply H1. apply NoDup_singleton.
Defined.

Definition validates (c : Catalog (any:=unit)) : bool := match catalog_Validate c with Ok _ => true | Err _ => false end.

(** A clone takes the buffers of its entry and keeps the latency of its parent: Apply
    accepts the result, though Validate accepts the base and the delta and not it. *)
Definition conflicting_ops : list (DeltaOp (any:=unit)) :=
  [MkDeltaOp DeltaOpClone [sample_clone "low" "video" (Some (MkBuffers (Some 200) None None))]].
Lemma clone_unvalidated : validates sample_base = true /\ validates (sample_delta conflicting_ops) = true /\
  (match Apply no_any sample_base (sample_delta conflicting_ops) with Ok out => Some (validates out) | Err _ => None end) = Some false.
Proof. vm_compute. split_and!; reflexivity. Qed.

(** Validate does not look at the identifiers of initDataList. *)
Lemma init_ids_unchecked : validates (set_lists [MkInitData (str "i") (str "inline") []; MkInitData (str "i") (str "inline") [x01]] [] sample_base) = true.
Proof. vm_compute. reflexivity. Qed.

(** ** Group IDs *)

(** What the sequencer hands out, until it wraps. *)
Fixpoint gs_run (n : nat) (s : GroupSequencer) : list Z :=
  match n with O => [] | S n => let '(g, s) := gs_Next s in g :: gs_run n s end.
Lemma sequencer_increases n : forall start, 0 <= start -> start + Z.of_nat n < 2 ^ 64 ->
  gs_run n (NewGroupSequencerAt start) = (fun i => start + Z.of_nat i) <$> seq 0 n.
Proof.
  induction n as [|n IH]; intros start H0 Hn; [done|].
  cbn [gs_run]. unfold gs_Next, NewGroupSequencerAt. cbn [gs_next].
  rewrite (u64_small (start + 1)) by zlia. rewrite (u64_small (start + 1 - 1)) by zlia.
  change (MkSequencer (start + 1)) with (NewGroupSequencerAt (start + 1)). rewrite IH by lia.
  cbn [seq]. rewrite fmap_cons. f_equal; [lia|]. rewrite <- fmap_S_seq, <- list_fmap_compose. apply list_fmap_ext. intros i x _. simpl. lia.
Qed.

(** The gap property of a Group is what the receiver adds back. *)
Lemma prior_gap_exact prev curr kv : is_u64 prev -> is_u64 curr -> PriorGapHeader prev curr = Ok kv ->
  wf_kv kv /\ kv_Type kv = PropertyPriorGroupIDGap /\ 0 < kv_IntVal kv /\ prev + 1 + kv_IntVal kv = curr.
Proof.
  intros Hp Hc. unfold PriorGapHeader. destruct (curr <=? prev) eqn:E; [done|]. apply Z.leb_gt in E.
  rewrite (u64_small (curr - prev)) by zlia. rewrite (u64_small (curr - prev - 1)) by zlia.
  destruct (curr - prev - 1 =? 0) eqn:E2; [done|]. apply Z.eqb_neq in E2. intros [= <-]. simpl.
  split_and!; [|done|lia|lia]. split; [by split|]. simpl. split; [zlia|done].
Qed.
