(* ===== verification/Uri.v ===== *)
(** * Uri: the syntax of moqt URIs

    [pkg/moqt/uri]: the RFC 3986 syntax of the PATH and AUTHORITY Setup Options
    ([syntax.go]), and the fragments and string forms of a parsed URI ([uri.go]).  The
    splitting of a whole URI, which [net/url] does, is left out. *)

From S2P Require Import Prelude.

(** ** Strings *)

Definition chr (x : byte) : Z := Z.of_N (Byte.to_N x).
Definition between (lo hi : Z) (x : byte) : bool := (lo <=? chr x) && (chr x <=? hi).
Definition lit (s : string) : bytes := String.list_byte_of_string s.

(** [strings.Cut] at a byte: before it, after it, and whether it is there. *)
Fixpoint Cut (s : bytes) (sep : byte) : bytes * bytes * bool :=
  match s with
  | [] => ([], [], false)
  | c :: s' => if bool_decide (c = sep) then ([], s', true)
               else let '(before, after, found) := Cut s' sep in (c :: before, after, found)
  end.
(** [strings.SplitSeq] at a byte. *)
Fixpoint Split (s : bytes) (sep : byte) : list bytes :=
  match s with
  | [] => [[]]
  | c :: s' => if bool_decide (c = sep) then [] :: Split s' sep
               else match Split s' sep with seg :: segs => (c :: seg) :: segs | [] => [[c]] end
  end.
Definition is_empty (s : bytes) : bool := match s with [] => true | _ => false end.

(** ** Characters *)
Definition digit (x : byte) : bool := between 48 57 x.
Definition isHex (x : byte) : bool := digit x || between 97 102 x || between 65 70 x.
Definition isUnreserved (x : byte) : bool :=
  between 97 122 x || between 65 90 x || digit x || bool_decide (x ∈ lit "-._~").
Definition subDelims : bytes := lit "!$&'()*+,;=".
Definition plain_char (extra : bytes) (x : byte) : bool :=
  isUnreserved x || bool_decide (x ∈ subDelims) || bool_decide (x ∈ extra).

Fixpoint validChars (s extra : bytes) (pct : bool) : bool :=
  match s with
  | [] => true
  | c :: s' =>
      if bool_decide (c = x25) && pct then
        match s' with h1 :: h2 :: s'' => isHex h1 && isHex h2 && validChars s'' extra pct | _ => false end
      else plain_char extra c && validChars s' extra pct
  end.

(** ** Paths *)
Definition CheckPathAndQuery (s : bytes) : result unit :=
  let '(path, query, _) := Cut s x3f in
  if negb (is_empty path) && negb (bool_decide (head path = Some x2f)) then Err (Errorf "uri: path does not begin with a slash")
  else if negb (forallb (fun seg => validChars seg (lit ":@") true) (Split path x2f)) then Err (Errorf "uri: path: invalid segment")
  else if negb (validChars query (lit ":@/?") true) then Err (Errorf "uri: path: invalid query")
  else Ok tt.

(** ** IP literals

    [netip.ParseAddr] on a string without a zone, whether it is an IPv6 address. *)

(** [parseIPv4Fields]: the octet so far, its digits, and the dots seen. *)
Fixpoint parseIPv4Fields (s : bytes) (val pos digLen : Z) (start : bool) : bool :=
  match s with
  | [] => pos =? 3
  | c :: s' =>
      if digit c then
        if (digLen =? 1) && (val =? 0) then false
        else
          let val := val * 10 + (chr c - 48) in
          if val >? 255 then false else parseIPv4Fields s' val pos (digLen + 1) false
      else if bool_decide (c = x2e) then
        if start || is_empty s' || (pos =? 3) then false
        else parseIPv4Fields s' 0 (pos + 1) 0 true
      else false
  end.

Fixpoint hex_run (s : bytes) : bytes * bytes :=
  match s with
  | c :: s' => if isHex c then let '(run, rest) := hex_run s' in (c :: run, rest) else ([], s)
  | [] => ([], [])
  end.

(** The loop of [parseIPv6] over groups; [i] bytes of the address are filled, [ellipsis]
    says whether a double colon was seen.  At most eight groups are read. *)
Fixpoint ipv6_groups (fuel : nat) (s : bytes) (i : Z) (ellipsis : bool) : bool :=
  let finish s i ellipsis := is_empty s && (if i <? 16 then ellipsis else negb ellipsis) in
  match fuel with
  | O => finish s i ellipsis
  | S fuel =>
      let '(run, rest) := hex_run s in
      if (4 <? len run) || is_empty run then false
      else
        match rest with
        | [] => finish [] (i + 2) ellipsis
        | c :: rest' =>
            if bool_decide (c = x2e) then
              if (negb ellipsis && negb (i =? 12)) || (i + 4 >? 16) then false
              else parseIPv4Fields s 0 0 0 true && finish [] (i + 4) ellipsis
            else if negb (bool_decide (c = x3a)) then false
            else
              match rest' with
              | [] => false
              | c2 :: rest'' =>
                  if bool_decide (c2 = x3a) then
                    if ellipsis then false
                    else if is_empty rest'' then finish [] (i + 2) true
                    else ipv6_groups fuel rest'' (i + 2) true
                  else ipv6_groups fuel rest' (i + 2) ellipsis
              end
        end
  end.
Definition parseIPv6 (s : bytes) : bool :=
  match s with
  | a :: b :: s' =>
      if bool_decide (a = x3a) && bool_decide (b = x3a) then is_empty s' || ipv6_groups 8 s' 0 true
      else ipv6_groups 8 s 0 false
  | _ => ipv6_groups 8 s 0 false
  end.
(** The first dot or colon decides the kind of address. *)
Definition ParseAddr_Is6 (s : bytes) : bool :=
  match List.find (fun c => bool_decide (c = x2e) || bool_decide (c = x3a)) s with
  | Some c => bool_decide (c = x3a) && parseIPv6 s
  | None => false
  end.

Definition validIPLiteral (s : bytes) : bool :=
  match s with
  | c :: s' =>
      if bool_decide (c = x76) || bool_decide (c = x56) then
        let '(ver, rest, found) := Cut s' x2e in
        found && negb (is_empty ver) && forallb isHex ver && negb (is_empty rest) && validChars rest (lit ":") false
      else if bool_decide (x25 ∈ s) then false
      else ParseAddr_Is6 s
  | [] => false
  end.

(** ** Authorities *)
Definition splitHostPort (hostport : bytes) : result (bytes * bytes) :=
  match hostport with
  | x5b :: inner =>
      let '(literal, after, found) := Cut inner x5d in
      if negb found then Err (Errorf "unterminated IP-literal")
      else if negb (validIPLiteral literal) then Err (Errorf "invalid IP-literal")
      else
        let host := [x5b] ++ literal ++ [x5d] in
        match after with
        | [] => Ok (host, [])
        | c :: port => if bool_decide (c = x3a) then Ok (host, port) else Err (Errorf "junk after IP-literal")
        end
  | _ =>
      let '(host, port, _) := Cut hostport x3a in
      if validChars host [] true then Ok (host, port) else Err (Errorf "invalid host")
  end.

Definition CheckAuthority (s : bytes) : result unit :=
  let '(userinfo, rest, found) := Cut s x40 in
  if found && negb (validChars userinfo (lit ":") true) then Err (Errorf "uri: authority: invalid userinfo")
  else
    match splitHostPort (if found then rest else s) with
    | Err e => Err (Wrapf "uri: authority" e)
    | Ok (host, port) =>
        if is_empty host then Err (Errorf "uri: authority has an empty host")
        else if negb (forallb digit port) then Err (Errorf "uri: authority: invalid port")
        else Ok tt
    end.

(** ** Parsed URIs *)
Record Fragment : Type := MkFragment { fr_Type : bytes; fr_Value : bytes }.
Record URI : Type := MkURI {
  uri_Authority : bytes; uri_Host : bytes; uri_Port : bytes; uri_Path : bytes; uri_RawQuery : bytes; uri_Fragment : option Fragment }.

Definition validFragmentType (s : bytes) : bool :=
  negb (is_empty s) && forallb (fun c => between 97 122 c || digit c || bool_decide (c = x2d)) s.
Definition parseFragment (frag : bytes) : result Fragment :=
  let '(typ, val, ok) := Cut frag x3a in
  if negb ok then Err (Errorf "uri: fragment missing type:value colon")
  else if negb (validFragmentType typ) then Err (Errorf "uri: fragment type must be a non-empty run of [a-z0-9-]")
  else Ok (MkFragment typ val).

(** [net.JoinHostPort]. *)
Definition HostPort (u : URI) : bytes :=
  if bool_decide (x3a ∈ uri_Host u) then [x5b] ++ uri_Host u ++ [x5d; x3a] ++ uri_Port u
  else uri_Host u ++ [x3a] ++ uri_Port u.
Definition with_query (u : URI) : bytes := if is_empty (uri_RawQuery u) then [] else x3f :: uri_RawQuery u.
Definition PathAndQuery (u : URI) : bytes := uri_Path u ++ with_query u.
Definition HTTPSURL (u : URI) : bytes := lit "https://" ++ uri_Authority u ++ uri_Path u ++ with_query u.
Definition Fragment_String (f : Fragment) : bytes := fr_Type f ++ [x3a] ++ fr_Value f.
Definition URI_String (u : URI) : bytes :=
  lit "moqt://" ++ uri_Authority u ++ uri_Path u ++ with_query u ++
  match uri_Fragment u with Some f => x23 :: Fragment_String f | None => [] end.

(** ** The grammar of paths *)

(** Characters and percent-encoded triplets, as in RFC 3986. *)
Inductive chars (extra : bytes) : bytes -> Prop :=
| chars_nil : chars extra []
| chars_one c s : c <> x25 -> plain_char extra c = true -> chars extra s -> chars extra (c :: s)
| chars_pct h1 h2 s : isHex h1 = true -> isHex h2 = true -> chars extra s -> chars extra (x25 :: h1 :: h2 :: s).

Lemma validChars_chars extra : forall n s, (length s <= n)%nat -> validChars s extra true = true <-> chars extra s.
Proof.
  induction n as [|n IH]; intros s Hn; (destruct s as [|c s]; [by split; [intros _; constructor|]|]); simpl in Hn; [lia|].
  simpl. case_bool_decide as Hc; simpl.
  - subst c. destruct s as [|h1 [|h2 s]].
    + split; [done|]. by inversion 1.
    + split; [done|]. by inversion 1.
    + rewrite !andb_true_iff, IH by (simpl in Hn; lia). split.
      * intros [[H1 H2] H]. by constructor.
      * by inversion 1; subst.
  - rewrite andb_true_iff, IH by lia. split.
    + intros [H1 H2]. by constructor.
    + by inversion 1; subst.
Qed.

(** A byte no string of the grammar holds. *)
Lemma chars_without extra x s : x <> x25 -> plain_char extra x = false -> isHex x = false -> chars extra s -> x ∉ s.
Proof.
  intros Hx Hp Hh. induction 1 as [|c s Hc Hpc _ IH|h1 h2 s H1 H2 _ IH]; [apply not_elem_of_nil| |]; rewrite !not_elem_of_cons.
  - split; [by intros ->; congruence|done].
  - split_and!; [done|by intros ->; congruence|by intros ->; congruence|done].
Qed.

Lemma Cut_spec sep s : let '(b, a, found) := Cut s sep in
  (sep ∉ b) /\ (if found then s = b ++ sep :: a else s = b /\ a = []).
Proof.
  induction s as [|c s IH]; simpl; [split; [apply not_elem_of_nil|done]|]. case_bool_decide as Hc; [subst; split; [apply not_elem_of_nil|done]|].
  destruct (Cut s sep) as [[b a] found]. destruct IH as [Hb Hs]. rewrite not_elem_of_cons. split; [split; congruence|].
  destruct found; [by rewrite Hs|]. by destruct Hs as [-> ->].
Qed.
Lemma Cut_at sep b a : sep ∉ b -> Cut (b ++ sep :: a) sep = (b, a, true).
Proof.
  induction b as [|c b IH]; intros Hb; simpl; [by rewrite bool_decide_true|]. apply not_elem_of_cons in Hb as [Hc Hb].
  rewrite bool_decide_false by congruence. by rewrite IH.
Qed.
Lemma Cut_none sep b : sep ∉ b -> Cut b sep = (b, [], false).
Proof.
  induction b as [|c b IH]; intros Hb; simpl; [done|]. apply not_elem_of_cons in Hb as [Hc Hb].
  rewrite bool_decide_false by congruence. by rewrite IH.
Qed.

Definition joined (sep : byte) (segs : list bytes) : bytes := concat (cons sep <$> segs).
Lemma Split_joined sep s : sep :: s = joined sep (Split s sep).
Proof.
  unfold joined. induction s as [|c s IH]; [done|]. simpl. case_bool_decide as Hc.
  - subst. simpl. f_equal. exact IH.
  - destruct (Split s sep) as [|seg segs]; simpl in *; [|congruence]. done.
Qed.
Lemma Split_app sep seg t : sep ∉ seg -> Split (seg ++ sep :: t) sep = seg :: Split t sep.
Proof.
  induction seg as [|c seg IH]; intros Hs; simpl; [by rewrite bool_decide_true|]. apply not_elem_of_cons in Hs as [Hc Hs].
  rewrite bool_decide_false by congruence. by rewrite IH.
Qed.
Lemma Split_one sep seg : sep ∉ seg -> Split seg sep = [seg].
Proof.
  induction seg as [|c seg IH]; intros Hs; simpl; [done|]. apply not_elem_of_cons in Hs as [Hc Hs].
  rewrite bool_decide_false by congruence. by rewrite IH.
Qed.
Lemma joined_Split sep seg segs : Forall (fun s => sep ∉ s) (seg :: segs) ->
  Split (joined sep (seg :: segs)) sep = [] :: seg :: segs.
Proof.
  unfold joined. simpl. rewrite bool_decide_true by done. intros H. f_equal. revert seg H.
  induction segs as [|s2 segs IH]; intros seg [Hs Hr]%Forall_cons; simpl; [by rewrite app_nil_r, Split_one|].
  rewrite Split_app by done. f_equal. by apply IH.
Qed.

Lemma joined_without sep x segs : x <> sep -> Forall (fun s => x ∉ s) segs -> x ∉ joined sep segs.
Proof.
  intros Hx. unfold joined. induction 1 as [|seg l Hs _ IH]; simpl; [apply not_elem_of_nil|].
  rewrite not_elem_of_cons, not_elem_of_app. by split_and!.
Qed.

(** What the PATH Setup Option carries: path-abempty, then a query after a question
    mark.  The check accepts exactly the strings of the grammar. *)
Definition path_query (s : bytes) (segs : list bytes) (q : option bytes) : Prop :=
  s = joined x2f segs ++ match q with Some q => x3f :: q | None => [] end /\
  Forall (chars (lit ":@")) segs /\ forall q0, q = Some q0 -> chars (lit ":@/?") q0.

Lemma validChars_iff extra s : validChars s extra true = true <-> chars extra s.
Proof. by apply (validChars_chars extra (length s)). Qed.

Theorem path_syntax_exact s : CheckPathAndQuery s = Ok tt <-> exists segs q, path_query s segs q.
Proof.
  unfold CheckPathAndQuery. split.
  - pose proof (Cut_spec x3f s) as Hs. destruct (Cut s x3f) as [[path query] found]. destruct Hs as [Hq Hs].
    destruct (negb (is_empty path) && _) eqn:E1; [done|]. destruct (forallb _ (Split path x2f)) eqn:E2; [|done].
    destruct (validChars query (lit ":@/?") true) eqn:E3; [|done]. intros _.
    apply validChars_iff in E3. rewrite forallb_forall in E2.
    assert (Hp : exists segs, path = joined x2f segs /\ Forall (chars (lit ":@")) segs).
    { destruct path as [|c path]; [by exists []|]. simpl in E1. rewrite negb_false_iff in E1.
      apply bool_decide_eq_true in E1. injection E1 as ->. exists (Split path x2f). split; [apply Split_joined|].
      apply Forall_forall. intros seg Hseg. apply validChars_iff, E2. simpl. right. by apply list_elem_of_In. }
    destruct Hp as (segs & -> & Hsegs). destruct found.
    + exists segs, (Some query). split_and!; [done|done|]. by intros ? [= <-].
    + destruct Hs as [-> ->]. exists segs, None. split_and!; [by rewrite app_nil_r|done|done].
  - intros (segs & q & -> & Hsegs & Hq).
    assert (Hno : forall x, x = x2f \/ x = x3f -> Forall (fun seg => x ∉ seg) segs).
    { intros x Hx. eapply Forall_impl; [exact Hsegs|]. intros seg. by apply chars_without; destruct Hx as [-> | ->]. }
    assert (Hpath : x3f ∉ joined x2f segs).
    { apply joined_without; [done|]. by apply Hno; right. }
    assert (Hcut : exists found, Cut (joined x2f segs ++ match q with Some q => x3f :: q | None => [] end) x3f
      = (joined x2f segs, default [] q, found)).
    { destruct q; [by exists true; apply Cut_at|]. exists false. rewrite app_nil_r. by apply Cut_none. }
    destruct Hcut as [found ->]. assert (Hquery : validChars (default [] q) (lit ":@/?") true = true).
    { apply validChars_iff. destruct q; [by apply Hq|constructor]. }
    destruct segs as [|seg segs]; [simpl; by rewrite Hquery|].
    pose proof (joined_Split x2f seg segs (Hno x2f (or_introl eq_refl))) as Hsp.
    assert (Hall : forallb (fun seg => validChars seg (lit ":@") true) (Split (joined x2f (seg :: segs)) x2f) = true).
    { rewrite Hsp. apply forallb_forall. intros x [<-|Hx]; [done|]. apply validChars_iff. rewrite Forall_forall in Hsegs.
      apply Hsegs. by apply list_elem_of_In. }
    rewrite Hall, Hquery. unfold joined. simpl. done.
Qed.
