(* ===== verification/Handshake.v ===== *)
(** * Handshake: opening a session

    [pkg/moqt/session/handshake.go] and the opening of [session.go]: the SETUP exchange,
    the data streams that arrive before the peer's control stream, and the checks of the
    Setup Options on both sides.

    A stream that arrives is the bytes it will carry and how it ends; reading its type
    and replaying what was read leaves it as it was.  The two directions of the exchange
    run at once and the first to fail ends the other, so what they yield is an input of
    [handshake] each. *)

From stdpp Require Import gmap.
From S2P Require Import Prelude Codes Varint Wire KV Filter Params Properties RangeFilter Messages Objects Streams.
From S2P Require Import Tokens Uri Track Session.

(** ** Before the control stream *)

Definition maxEarlyDataStreams : Z := 32.
Definition isDataStreamType (typ : Z) : bool := IsSubgroupHeaderType typ || IsFetchHeaderType typ.

(** What [AcceptUniStream] gives: a stream, with whether the context had ended when
    reading its type failed, or an error. *)
Inductive arrival : Type := AStream (s : Stream) (ctxDone : bool) | AFailed (e : error).

(** [ec_early] are the streams held, [ec_cancelled] the others with the code each was
    cancelled with, [ec_rest] what has not arrived yet. *)
Record EarlyControl : Type := MkEarly {
  ec_control : option (result Stream); ec_early : list Stream; ec_cancelled : list (Stream * Z); ec_rest : list arrival }.

(** Hold a data stream, or refuse it when too many are held. *)
Definition hold_early (s : Stream) (early : list Stream) (cancelled : list (Stream * Z)) : list Stream * list (Stream * Z) :=
  if len early <? maxEarlyDataStreams then (early ++ [s], cancelled)
  else (early, cancelled ++ [(s, StreamResetExcessiveLoad)]).

Fixpoint acceptControlStream (arrivals : list arrival) (early : list Stream) (cancelled : list (Stream * Z)) : EarlyControl :=
  match arrivals with
  | [] => MkEarly None early cancelled []
  | AFailed e :: rest => MkEarly (Some (Err e)) early cancelled rest
  | AStream s ctxDone :: rest =>
      match ReadVarint s with
      | Err e =>
          if errors_Is e EOF || errors_Is e ErrUnexpectedEOF
          then MkEarly (Some (Err (Wrapf "read stream type" e))) early cancelled rest
          else
            let cancelled := cancelled ++ [(s, StreamResetInternalError)] in
            if ctxDone then MkEarly (Some (Err ErrContextDone)) early cancelled rest
            else acceptControlStream rest early cancelled
      | Ok (typ, _) =>
          if typ =? PaddingStreamType then acceptControlStream rest early (cancelled ++ [(s, StreamResetInternalError)])
          else if negb (isDataStreamType typ) then MkEarly (Some (Ok s)) early cancelled rest
          else let '(early, cancelled) := hold_early s early cancelled in acceptControlStream rest early cancelled
      end
  end.

(** The streams [nextUniStream] yields after the handshake. *)
Definition nextUniStream (early later : list Stream) : option (Stream * (list Stream * list Stream)) :=
  match early with
  | s :: early => Some (s, (early, later))
  | [] => match later with s :: later => Some (s, ([], later)) | [] => None end
  end.

(** ** The exchange *)

(** The SETUP read off the control stream, [gctxDone] whether the group's context had
    ended by then.  A failure also cancels the stream, whose connection is closed next. *)
Definition read_setup (gctxDone : bool) (ctl : Stream) : result (list KVPair) :=
  match msg_Parse ctl with
  | Err e => if gctxDone then Err ErrContextDone else Err (Wrapf "read SETUP" e)
  | Ok (MSetup m, _) => Ok (Options m)
  | Ok _ => Err (Errorf "expected SETUP")
  end.

(** The SETUP written: [opened] is what [OpenUniStream] gives, [wok] whether the
    transport takes the message. *)
Definition write_setup (opened : result unit) (wok gctxDone : bool) (options : list KVPair) : result unit :=
  match opened with
  | Err e => Err (Wrapf "open send control" e)
  | Ok _ =>
      match marshal_events wok (MSetup (MkSetup options)) with
      | Some _ => Ok tt
      | None => if gctxDone then Err ErrContextDone else Err (Wrapf "write SETUP" (ErrTransport "write"))
      end
  end.

(** [sendFirst] says which of two failures is the first. *)
Definition handshake (sent : result unit) (received : result (list KVPair)) (sendFirst ctxDone : bool) : result (list KVPair) :=
  match sent, received with
  | Err e1, Err e2 => Err (if sendFirst then e1 else e2)
  | Err e, _ => Err e
  | Ok _, Err e => Err e
  | Ok _, Ok opts => if ctxDone then Err ErrContextDone else Ok opts
  end.

(** ** Setup Options *)

Definition pathOrAuthority (opt : KVPair) : bool := (kv_Type opt =? SetupOptionPath) || (kv_Type opt =? SetupOptionAuthority).

Fixpoint checkPathAndAuthoritySyntax (opts : list KVPair) : Z * option error :=
  match opts with
  | [] => (SessionNoError, None)
  | opt :: opts =>
      if kv_Type opt =? SetupOptionPath then
        match CheckPathAndQuery (kv_ByteVal opt) with
        | Err e => (SessionMalformedPath, Some (Wrapf "malformed PATH setup option" e))
        | Ok _ => checkPathAndAuthoritySyntax opts
        end
      else if kv_Type opt =? SetupOptionAuthority then
        match CheckAuthority (kv_ByteVal opt) with
        | Err e => (SessionMalformedAuthority, Some (Wrapf "malformed AUTHORITY setup option" e))
        | Ok _ => checkPathAndAuthoritySyntax opts
        end
      else checkPathAndAuthoritySyntax opts
  end.

Fixpoint client_only (r : role) (wt : bool) (opts : list KVPair) : result unit :=
  match opts with
  | [] => Ok tt
  | opt :: opts =>
      if negb (pathOrAuthority opt) then client_only r wt opts
      else if bool_decide (r = roleServer) then Err (Errorf "moqt/session: setup option is client-only")
      else if wt then Err (Errorf "moqt/session: setup option must not be used on a WebTransport session")
      else client_only r wt opts
  end.
Definition checkOutboundSetupOptions (r : role) (wt : bool) (opts : list KVPair) : result unit :=
  _ ← client_only r wt opts;
  match checkPathAndAuthoritySyntax opts with
  | (_, Some e) => Err (Wrapf "moqt/session" e)
  | (_, None) => Ok tt
  end.

Fixpoint forbidden_options (opts : list KVPair) : Z * option error :=
  match opts with
  | [] => (SessionNoError, None)
  | opt :: opts =>
      if kv_Type opt =? SetupOptionPath then (SessionInvalidPath, Some (Errorf "peer sent a PATH setup option"))
      else if kv_Type opt =? SetupOptionAuthority then (SessionInvalidAuthority, Some (Errorf "peer sent an AUTHORITY setup option"))
      else forbidden_options opts
  end.
Definition checkPeerSetupOptions (r : role) (wt : bool) (peerOptions : list KVPair) : Z * option error :=
  if bool_decide (r <> roleClient) && negb wt then checkPathAndAuthoritySyntax peerOptions
  else forbidden_options peerOptions.

(** ** Opening *)

Record config : Type := MkConfig {
  cfg_setupOptions : list KVPair; cfg_known : gset Z; cfg_maxTokenCache : Z; cfg_maxUpdates : Z; cfg_setupTokens : list Token }.

(** The session, its tokens from SETUP and the aliases it may use, or the error; and what
    the connection was closed with. *)
Record opened_session : Type := MkOpenedSession {
  so_session : Session; so_tokens : list ResolvedToken; so_aliases : list Z; so_peerOptions : list KVPair }.

Definition open (r : role) (wt : bool) (cfg : config) (exchange : result (list KVPair)) : result opened_session * option Z :=
  let s := new_session r (cfg_known cfg) (cfg_maxTokenCache cfg) (cfg_maxUpdates cfg) in
  match checkOutboundSetupOptions r wt (cfg_setupOptions cfg) with
  | Err e => (Err e, None)
  | Ok _ =>
      match checkOutboundSetupTokens (cfg_setupTokens cfg) with
      | Err e => (Err e, None)
      | Ok _ =>
          match exchange with
          | Err e => (Err e, Some SessionProtocolViolation)
          | Ok peer =>
              match checkPeerSetupOptions r wt peer with
              | (code, Some e) => (Err e, Some code)
              | (_, None) =>
                  match processSetupTokens r peer (s_tokens s) with
                  | (Err e, _) => (Err e, Some (match e with ErrTokenCache code => code | _ => SessionNoError end))
                  | (Ok toks, c) =>
                      (Ok (MkOpenedSession (set_tokens s c) toks (heldSetupAliases (cfg_setupTokens cfg) peer) peer), None)
                  end
              end
          end
      end
  end.

(** ** What becomes of the early streams *)

Inductive early_kind : Type := KData | KSkipped | KOther.
(** By the type of the stream, or how it ends before one. *)
Definition kind_of (s : Stream) : early_kind :=
  match ReadVarint s with
  | Err e => if errors_Is e EOF || errors_Is e ErrUnexpectedEOF then KOther else KSkipped
  | Ok (typ, _) => if typ =? PaddingStreamType then KSkipped else if isDataStreamType typ then KData else KOther
  end.
#[global] Instance early_kind_eq_dec : EqDecision early_kind.
Proof. solve_decision. Defined.

Definition data_streams (l : list Stream) : list Stream := filter (fun s => kind_of s = KData) l.
Definition skipped_streams (l : list Stream) : list Stream := filter (fun s => kind_of s = KSkipped) l.
Definition held : nat := 32.

(** How the accepting ended, after the streams [seen]. *)
Inductive control_end (arrivals : list arrival) (seen : list Stream) : option (result Stream) -> list arrival -> Prop :=
| end_waiting : (exists flags, arrivals = zip_with AStream seen flags) -> control_end arrivals seen None []
| end_control s b rest flags : arrivals = zip_with AStream seen flags ++ AStream s b :: rest -> length flags = length seen ->
    kind_of s = KOther -> (exists typ s', ReadVarint s = Ok (typ, s')) -> control_end arrivals seen (Some (Ok s)) rest
| end_failed e rest : control_end arrivals seen (Some (Err e)) rest.

Definition early_ok (arrivals : list arrival) (seen : list Stream) (ec : EarlyControl) : Prop :=
  ec_early ec = take held (data_streams seen) /\
  ec_cancelled ec ≡ₚ ((fun s => (s, StreamResetExcessiveLoad)) <$> drop held (data_streams seen)) ++
                     ((fun s => (s, StreamResetInternalError)) <$> skipped_streams seen) /\
  Forall (fun s => kind_of s <> KOther) seen.

Lemma data_snoc seen s : data_streams (seen ++ [s]) = data_streams seen ++ if decide (kind_of s = KData) then [s] else [].
Proof. unfold data_streams. rewrite filter_app. by f_equal. Qed.
Lemma skipped_snoc seen s : skipped_streams (seen ++ [s]) = skipped_streams seen ++ if decide (kind_of s = KSkipped) then [s] else [].
Proof. unfold skipped_streams. rewrite filter_app. by f_equal. Qed.

(** The streams held and cancelled so far, after [seen]. *)
Record early_inv (seen : list Stream) (early : list Stream) (cancelled : list (Stream * Z)) : Prop := {
  ei_early : early = take held (data_streams seen);
  ei_cancelled : cancelled ≡ₚ ((fun s => (s, StreamResetExcessiveLoad)) <$> drop held (data_streams seen)) ++
                              ((fun s => (s, StreamResetInternalError)) <$> skipped_streams seen);
  ei_seen : Forall (fun s => kind_of s <> KOther) seen }.

Lemma inv_skip seen early cancelled s : early_inv seen early cancelled -> kind_of s = KSkipped ->
  early_inv (seen ++ [s]) early (cancelled ++ [(s, StreamResetInternalError)]).
Proof.
  intros [H1 H2 H3] Hk. split.
  - rewrite data_snoc, decide_False by congruence. by rewrite app_nil_r.
  - rewrite data_snoc, decide_False, app_nil_r by congruence. rewrite skipped_snoc, decide_True by done.
    rewrite fmap_app, app_assoc, H2. done.
  - apply Forall_app. split; [done|]. apply Forall_singleton. congruence.
Qed.
Lemma inv_hold seen early cancelled s early' cancelled' : early_inv seen early cancelled -> kind_of s = KData ->
  hold_early s early cancelled = (early', cancelled') -> early_inv (seen ++ [s]) early' cancelled'.
Proof.
  intros [H1 H2 H3] Hk. unfold hold_early, maxEarlyDataStreams, len. subst early. rewrite length_take. intros H.
  assert (Hs : Forall (fun s => kind_of s <> KOther) (seen ++ [s])) by (apply Forall_app; split; [done|apply Forall_singleton; congruence]).
  destruct (Z.of_nat _ <? 32) eqn:E; rewrite ?Z.ltb_lt, ?Z.ltb_ge in E; injection H as <- <-; unfold held in *.
  - assert (Hl : (length (data_streams seen) < 32)%nat) by lia. split; [| |done]; unfold held; rewrite data_snoc, decide_True by done.
    + rewrite (take_ge (data_streams seen)) by lia. rewrite take_ge; [done|]. rewrite length_app. simpl. lia.
    + rewrite drop_ge by (rewrite length_app; simpl; lia). rewrite skipped_snoc, decide_False, app_nil_r by congruence.
      rewrite H2, drop_ge by lia. done.
  - assert (Hl : (32 <= length (data_streams seen))%nat) by lia. split; [| |done]; unfold held; rewrite data_snoc, decide_True by done.
    + by rewrite take_app_le.
    + rewrite drop_app_le by done. rewrite skipped_snoc, decide_False, app_nil_r by congruence.
      rewrite fmap_app, H2, <- !app_assoc. apply Permutation_app_head. simpl. by rewrite Permutation_app_comm.
Qed.

Lemma accept_spec arrivals : forall seen early cancelled before flags,
  early_inv seen early cancelled -> before = zip_with AStream seen flags -> length flags = length seen ->
  exists seen', let ec := acceptControlStream arrivals early cancelled in
    early_inv seen' (ec_early ec) (ec_cancelled ec) /\ control_end (before ++ arrivals) seen' (ec_control ec) (ec_rest ec).
Proof.
  induction arrivals as [|a arrivals IH]; intros seen early cancelled before flags Hi -> Hl; simpl.
  { exists seen. split; [done|]. constructor. exists flags. by rewrite app_nil_r. }
  destruct a as [s b|e]; [|exists seen; split; [done|constructor]].
  assert (Hnext : forall early' cancelled', early_inv (seen ++ [s]) early' cancelled' -> exists seen',
    let ec := acceptControlStream arrivals early' cancelled' in
    early_inv seen' (ec_early ec) (ec_cancelled ec) /\
    control_end (zip_with AStream seen flags ++ AStream s b :: arrivals) seen' (ec_control ec) (ec_rest ec)).
  { intros early' cancelled' Hi'. edestruct (IH _ early' cancelled' _ (flags ++ [b]) Hi' eq_refl) as (seen' & H1 & H2).
    { rewrite !length_app. simpl. lia. }
    exists seen'. split; [done|]. rewrite zip_with_app in H2 by done. by rewrite <- app_assoc in H2. }
  destruct (ReadVarint s) as [[typ s']|e] eqn:E.
  - destruct (typ =? PaddingStreamType) eqn:Ep.
    { apply Hnext, inv_skip; [done|]. unfold kind_of. by rewrite E, Ep. }
    destruct (isDataStreamType typ) eqn:Ed; simpl.
    + destruct (hold_early s early cancelled) as [early' cancelled'] eqn:Eh. apply Hnext. eapply inv_hold; [done| |done].
      unfold kind_of. by rewrite E, Ep, Ed.
    + exists seen. split; [done|]. eapply end_control; [done|done| |by exists typ, s']. unfold kind_of. by rewrite E, Ep, Ed.
  - destruct (errors_Is e EOF || errors_Is e ErrUnexpectedEOF) eqn:Ee; [exists seen; split; [done|constructor]|].
    assert (Hk : kind_of s = KSkipped) by (unfold kind_of; by rewrite E, Ee).
    destruct b; [|by apply Hnext, inv_skip]. exists (seen ++ [s]). split; [by apply inv_skip|constructor].
Qed.

(** A held stream opens as a data stream, or ends inside its header. *)
Lemma held_opens s : kind_of s = KData -> acceptDataStream None s = Aborted \/ exists d, acceptDataStream None s = Accepted d.
Proof.
  unfold kind_of, acceptDataStream, ReadDataStreamType, wrap_err. destruct (ReadVarint s) as [[typ s']|e] eqn:E; simpl.
  2: { by destruct (_ || _). }
  destruct (typ =? PaddingStreamType); [done|]. unfold isDataStreamType. destruct (IsSubgroupHeaderType typ); simpl.
  { intros _. destruct (ReadSubgroupHeader typ s') as [[hdr br]|]; [right; by eexists|by left]. }
  destruct (IsFetchHeaderType typ); [|done]. intros _. destruct (ReadFetchHeader s') as [[rid br]|]; [right; by eexists|by left].
Qed.

(** The data streams that arrive before the control stream wait for the session: the
    first 32 are held in the order they came, with all their bytes, the session reads
    them before any other stream, and each opens as a data stream unless it ends inside
    its header; further ones are refused with EXCESSIVE_LOAD, padding streams and
    streams reset before their type are skipped, nothing else is touched, and the first
    other stream is the control stream. *)
Theorem early_streams_kept arrivals : exists seen,
  let ec := acceptControlStream arrivals [] [] in
  ec_early ec = take held (data_streams seen) /\
  ec_cancelled ec ≡ₚ ((fun s => (s, StreamResetExcessiveLoad)) <$> drop held (data_streams seen)) ++
                     ((fun s => (s, StreamResetInternalError)) <$> skipped_streams seen) /\
  Forall (fun s => kind_of s <> KOther) seen /\
  control_end arrivals seen (ec_control ec) (ec_rest ec) /\
  (forall s, s ∈ ec_early ec -> acceptDataStream None s = Aborted \/ exists d, acceptDataStream None s = Accepted d) /\
  (forall later, match nextUniStream (ec_early ec) later with
                 | Some (s, (early, later')) => s :: early ++ later' = ec_early ec ++ later
                 | None => ec_early ec ++ later = []
                 end).
Proof.
  destruct (accept_spec arrivals [] [] [] [] []) as (seen & [H1 H2 H3] & H4); [split; [done|done|constructor]|done|done|].
  exists seen. simpl. split_and!; [done|done|done|done| |].
  - intros s Hs. apply held_opens. rewrite H1 in Hs. apply elem_of_take in Hs as (i & Hs & _).
    apply list_elem_of_lookup_2 in Hs. unfold data_streams in Hs. by apply list_elem_of_filter in Hs as [Hs _].
  - intros later. unfold nextUniStream. destruct (ec_early _); [|done]. by destruct later.
Qed.

(** ** Opening *)

Definition names_server (opts : list KVPair) : Prop := exists opt, opt ∈ opts /\ pathOrAuthority opt = true.
(** PATH and AUTHORITY options in the syntax of RFC 3986. *)
Definition well_formed_options (opts : list KVPair) : Prop :=
  Forall (fun opt => (kv_Type opt = SetupOptionPath -> CheckPathAndQuery (kv_ByteVal opt) = Ok tt) /\
                     (kv_Type opt = SetupOptionAuthority -> CheckAuthority (kv_ByteVal opt) = Ok tt)) opts.

Lemma syntax_ok opts : (checkPathAndAuthoritySyntax opts).2 = None <-> well_formed_options opts.
Proof.
  unfold well_formed_options. induction opts as [|opt opts IH]; simpl; [by split; [constructor|]|]. rewrite Forall_cons.
  destruct (kv_Type opt =? SetupOptionPath) eqn:Ep; rewrite ?Z.eqb_eq, ?Z.eqb_neq in Ep.
  - destruct (CheckPathAndQuery (kv_ByteVal opt)) as [[]|] eqn:Ec.
    + rewrite IH. split; [|tauto]. intros H. split; [|done]. split; [done|]. rewrite Ep. done.
    + split; [done|]. intros [[H _] _]. by specialize (H Ep).
  - destruct (kv_Type opt =? SetupOptionAuthority) eqn:Ea; rewrite ?Z.eqb_eq, ?Z.eqb_neq in Ea; [|rewrite IH; tauto].
    destruct (CheckAuthority (kv_ByteVal opt)) as [[]|] eqn:Ec; [rewrite IH; tauto|].
    split; [done|]. intros [[_ H] _]. by specialize (H Ea).
Qed.

(** What is wrong with an option of the peer's, [allowed] from it or not, and the code a
    session is closed with for it. *)
Inductive option_fault (allowed : bool) (opt : KVPair) : Z -> Prop :=
| fault_path : allowed = false -> kv_Type opt = SetupOptionPath -> option_fault allowed opt SessionInvalidPath
| fault_authority : allowed = false -> kv_Type opt = SetupOptionAuthority -> option_fault allowed opt SessionInvalidAuthority
| fault_path_syntax : allowed = true -> kv_Type opt = SetupOptionPath -> CheckPathAndQuery (kv_ByteVal opt) <> Ok tt ->
    option_fault allowed opt SessionMalformedPath
| fault_authority_syntax : allowed = true -> kv_Type opt = SetupOptionAuthority -> CheckAuthority (kv_ByteVal opt) <> Ok tt ->
    option_fault allowed opt SessionMalformedAuthority.
(** The first option at fault, and its code. *)
Definition first_fault (allowed : bool) (opts : list KVPair) (code : Z) : Prop :=
  exists before opt after, opts = before ++ opt :: after /\ option_fault allowed opt code /\
    Forall (fun o => forall c, ~ option_fault allowed o c) before.

Lemma first_here allowed opt opts code : option_fault allowed opt code -> first_fault allowed (opt :: opts) code.
Proof. intros H. by exists [], opt, opts. Qed.
Lemma first_later allowed opt opts code : (forall c, ~ option_fault allowed opt c) -> first_fault allowed opts code ->
  first_fault allowed (opt :: opts) code.
Proof. intros Hn (before & o & after & -> & H & Hb). exists (opt :: before), o, after. split_and!; [done|done|by constructor]. Qed.

Lemma syntax_code opts e : (checkPathAndAuthoritySyntax opts).2 = Some e -> first_fault true opts (checkPathAndAuthoritySyntax opts).1.
Proof.
  induction opts as [|opt opts IH]; simpl; [done|].
  destruct (Z.eqb_spec (kv_Type opt) SetupOptionPath) as [Ep|Ep].
  - destruct (CheckPathAndQuery (kv_ByteVal opt)) as [[]|] eqn:Ec; simpl.
    + intros H. apply first_later; [|auto]. intros c Hf. assert (SetupOptionPath <> SetupOptionAuthority) by done. inversion Hf; congruence.
    + intros _. apply first_here, fault_path_syntax; congruence.
  - destruct (Z.eqb_spec (kv_Type opt) SetupOptionAuthority) as [Ea|Ea].
    + destruct (CheckAuthority (kv_ByteVal opt)) as [[]|] eqn:Ec; simpl.
      * intros H. apply first_later; [|auto]. intros c Hf. inversion Hf; congruence.
      * intros _. apply first_here, fault_authority_syntax; congruence.
    + intros H. apply first_later; [|auto]. intros c Hf. inversion Hf; congruence.
Qed.
Lemma forbidden_ok opts : (forbidden_options opts).2 = None <-> ~ names_server opts.
Proof.
  unfold names_server, pathOrAuthority. induction opts as [|opt opts IH]; simpl.
  { split; [|done]. intros _ (x & Hx & _). by apply not_elem_of_nil in Hx. }
  destruct (kv_Type opt =? SetupOptionPath) eqn:Ep; simpl.
  { split; [done|]. intros H. destruct H. exists opt. split; [left|by rewrite Ep]. }
  destruct (kv_Type opt =? SetupOptionAuthority) eqn:Ea; simpl.
  { split; [done|]. intros H. destruct H. exists opt. split; [left|by rewrite Ep, Ea]. }
  rewrite IH. split; intros H (x & Hx & Hn); apply H.
  - apply elem_of_cons in Hx as [->|Hx]; [by rewrite Ep, Ea in Hn|by exists x].
  - exists x. split; [by right|done].
Qed.
Lemma forbidden_code opts e : (forbidden_options opts).2 = Some e -> first_fault false opts (forbidden_options opts).1.
Proof.
  induction opts as [|opt opts IH]; simpl; [done|].
  destruct (Z.eqb_spec (kv_Type opt) SetupOptionPath) as [Ep|Ep]; [intros _; by apply first_here, fault_path|].
  destruct (Z.eqb_spec (kv_Type opt) SetupOptionAuthority) as [Ea|Ea]; [intros _; by apply first_here, fault_authority|].
  intros H. apply first_later; [|auto]. intros c Hf. inversion Hf; congruence.
Qed.
Lemma client_only_ok r wt opts : client_only r wt opts = Ok tt <-> (names_server opts -> r = roleClient /\ wt = false).
Proof.
  unfold names_server. induction opts as [|opt opts IH]; simpl.
  { split; [|done]. intros _ (x & Hx & _). by apply not_elem_of_nil in Hx. }
  destruct (pathOrAuthority opt) eqn:Ep; simpl.
  - case_bool_decide as Hr; [subst; split; [done|]; intros H; destruct H; [exists opt; split; [left|done]|done]|].
    destruct wt; [split; [done|]; intros H; destruct H; [exists opt; split; [left|done]|done]|].
    rewrite IH. destruct r; [|done]. done.
  - rewrite IH. split; intros H (x & Hx & Hn); apply H.
    + apply elem_of_cons in Hx as [->|Hx]; [congruence|by exists x].
    + exists x. split; [by right|done].
Qed.

Lemma setup_token_err r raw c e c' : setup_token r raw c = (Err e, c') -> exists code, e = ErrTokenCache code /\ code <> SessionNoError.
Proof.
  unfold setup_token. destruct (Token_Parse raw) as [t|]; [|intros [= <- _]; by eexists].
  destruct (_ && _); [intros [= <- _]; by eexists|]. destruct (applyToken t c) as [[tok|e0] c0] eqn:E; [done|].
  destruct (_ && _); [done|]. intros [= <- _]. by eapply applyToken_err.
Qed.
Lemma setup_tokens_err r opts : forall c e c', processSetupTokens r opts c = (Err e, c') ->
  exists code, e = ErrTokenCache code /\ code <> SessionNoError.
Proof.
  induction opts as [|opt opts IH]; intros c e c'; simpl; [done|]. destruct (negb _); [by apply IH|].
  destruct (setup_token r (kv_ByteVal opt) c) as [[tok|e0] c0] eqn:E.
  - destruct (processSetupTokens r opts c0) as [[l|e1] c1] eqn:E1; simpl; [done|]. intros [= <- _]. by eapply IH.
  - intros [= <- _]. by eapply setup_token_err.
Qed.

(** C22: opening a session.  It opens exactly when the options it would send are legal
    for its role and transport and in the syntax of RFC 3986, its tokens are legal, the
    exchange yields the peer's options, those are legal from that peer, and the peer's
    tokens are accepted; the session then is the fresh one with the peer's tokens in its
    cache, and its connection is open.  Options or tokens it must not send leave the
    connection untouched; every later failure closes it, never as if nothing were wrong:
    a failed exchange with PROTOCOL_VIOLATION; an illegal option of the peer's with the
    code of the first one at fault, INVALID_PATH or INVALID_AUTHORITY where that peer may
    not send it, MALFORMED_PATH or MALFORMED_AUTHORITY where its syntax is wrong; and a
    token that is not accepted with the code the token cache gives. *)
Theorem session_opened r wt cfg exchange :
  let legal_out := (names_server (cfg_setupOptions cfg) -> r = roleClient /\ wt = false) /\
    well_formed_options (cfg_setupOptions cfg) /\ checkOutboundSetupTokens (cfg_setupTokens cfg) = Ok tt in
  let allowed := bool_decide (r = roleServer) && negb wt in
  let legal_in peer := if allowed then well_formed_options peer else ~ names_server peer in
  let fresh := new_session r (cfg_known cfg) (cfg_maxTokenCache cfg) (cfg_maxUpdates cfg) in
  (forall so code, open r wt cfg exchange = (Ok so, code) <->
     code = None /\ legal_out /\ exists peer toks c, exchange = Ok peer /\ legal_in peer /\
       processSetupTokens r peer (s_tokens fresh) = (Ok toks, c) /\
       so = MkOpenedSession (set_tokens fresh c) toks (heldSetupAliases (cfg_setupTokens cfg) peer) peer) /\
  (forall e code, open r wt cfg exchange = (Err e, code) ->
     match code with
     | None => ~ legal_out
     | Some code => code <> SessionNoError /\
         ((exchange = Err e /\ code = SessionProtocolViolation) \/
          exists peer, exchange = Ok peer /\
            ((~ legal_in peer /\ first_fault allowed peer code) \/
             (legal_in peer /\ e = ErrTokenCache code /\ exists c, processSetupTokens r peer (s_tokens fresh) = (Err e, c))))
     end).
Proof.
  intros legal_out allowed legal_in fresh.
  assert (Hout : legal_out <-> checkOutboundSetupOptions r wt (cfg_setupOptions cfg) = Ok tt /\ checkOutboundSetupTokens (cfg_setupTokens cfg) = Ok tt).
  { unfold legal_out, checkOutboundSetupOptions. rewrite <- client_only_ok, <- syntax_ok.
    destruct (client_only _ _ _) as [[]|]; simpl; [|by split; [intros [? _]|intros [? _]]].
    destruct (checkPathAndAuthoritySyntax _) as [code [e|]]; simpl; [|tauto]. by split; [intros (_ & ? & _)|intros [? _]]. }
  assert (Hin : forall peer, legal_in peer <-> (checkPeerSetupOptions r wt peer).2 = None).
  { intros peer. unfold legal_in, allowed, checkPeerSetupOptions. replace (bool_decide (r <> roleClient)) with (bool_decide (r = roleServer))
      by (by destruct r). destruct (_ && _); [by rewrite syntax_ok|by rewrite forbidden_ok]. }
  assert (Hcode : forall peer e, (checkPeerSetupOptions r wt peer).2 = Some e -> (checkPeerSetupOptions r wt peer).1 <> SessionNoError /\
    first_fault allowed peer (checkPeerSetupOptions r wt peer).1).
  { intros peer e He. assert (first_fault allowed peer (checkPeerSetupOptions r wt peer).1) as Hf.
    { revert He. unfold allowed, checkPeerSetupOptions. replace (bool_decide (r <> roleClient)) with (bool_decide (r = roleServer)) by (by destruct r).
      destruct (_ && _); [apply syntax_code|apply forbidden_code]. }
    split; [|done]. destruct Hf as (_ & o & _ & _ & Hf & _). by inversion Hf. }
  unfold open. fold fresh. cbv zeta. clearbody legal_out legal_in allowed.
  destruct (checkOutboundSetupOptions _ _ _) as [[]|e1] eqn:E1.
  2: { split; [split; [done|]; intros (_ & [H _]%Hout & _); done|]. intros e code [= <- <-] H%Hout. by destruct H. }
  destruct (checkOutboundSetupTokens _) as [[]|e2] eqn:E2.
  2: { split; [split; [done|]; intros (_ & [_ H]%Hout & _); done|]. intros e code [= <- <-] H%Hout. by destruct H. }
  assert (Hl : legal_out) by by apply Hout. destruct exchange as [peer|e3].
  2: { split; [split; [done|]; intros (_ & _ & ? & ? & ? & [=] & _)|]. intros e code [= <- <-]. split; [done|by left]. }
  specialize (Hin peer). specialize (Hcode peer). destruct (checkPeerSetupOptions r wt peer) as [code0 [e4|]]; simpl in *.
  { assert (Hni : ~ legal_in peer) by by rewrite Hin. split.
    - split; [done|]. intros (_ & _ & ? & ? & ? & [= <-] & Hx & _). by destruct Hni.
    - intros e code [= <- <-]. destruct (Hcode _ eq_refl) as [Hz Hf]. split; [done|].
      right. exists peer. split; [done|]. by left. }
  destruct (processSetupTokens r peer _) as [[toks|e5] c] eqn:E5.
  - split; [|intros e code H; discriminate H]. intros so code. split.
    + intros [= <- <-]. split_and!; [done|done|]. exists peer, toks, c. by rewrite Hin.
    + intros (-> & _ & ? & ? & ? & [= <-] & _ & Hp & ->). rewrite E5 in Hp. by injection Hp as <- <-.
  - split; [split; [done|]; by intros (_ & _ & ? & ? & ? & [= <-] & _ & H & _); congruence|].
    intros e code [= <- <-]. destruct (setup_tokens_err _ _ _ _ _ E5) as (tc & -> & Hn). split; [done|]. right. exists peer.
    split; [done|]. right. split; [by apply Hin|]. split; [done|by exists c].
Qed.

Definition sample_config : config := MkConfig [MkKV SetupOptionPath 0 (lit "/live?x=1")] ∅ 0 0 [].
Lemma session_opened_witness :
  (exists so, open roleClient false sample_config (Ok []) = (Ok so, None) /\ s_close (so_session so) = MkClose false None None) /\
  (exists e, open roleClient false sample_config (Ok [MkKV SetupOptionPath 0 (lit "/")]) = (Err e, Some SessionInvalidPath) /\
     SessionInvalidPath <> SessionNoError) /\
  (exists e, open roleServer false sample_config (Ok []) = (Err e, None)).
Proof.
  split; [|split].
  - destruct (open roleClient false sample_config (Ok [])) as [[so|e] code] eqn:E; [|vm_compute in E; discriminate E].
    destruct (session_opened roleClient false sample_config (Ok [])) as [H _].
    destruct (proj1 (H so code) E) as (-> & _ & peer & toks & c & _ & _ & _ & Hs). exists so. split; [reflexivity|].
    rewrite Hs. reflexivity.
  - destruct (open roleClient false sample_config (Ok [MkKV SetupOptionPath 0 (lit "/")])) as [[so|e] code] eqn:E; [vm_compute in E; discriminate E|].
    assert (Hc : code = Some SessionInvalidPath) by (vm_compute in E; injection E as _ <-; reflexivity).
    destruct (session_opened roleClient false sample_config (Ok [MkKV SetupOptionPath 0 (lit "/")])) as [_ H].
    specialize (H e code E). rewrite Hc in H. exists e. split; [by rewrite Hc|]. exact (proj1 H).
  - destruct (open roleServer false sample_config (Ok [])) as [[so|e] code] eqn:E; [vm_compute in E; discriminate E|].
    exists e. vm_compute in E. injection E as _ <-. reflexivity.
Defined.

(** Two early data streams and a padding stream ahead of the control stream. *)
Lemma early_streams_example :
  let st (b : list byte) := AStream (MkStream b Fin) false in
  let d1 := [x05; x01] in let d2 := [x05; x02] in let pad := AppendVarint [] PaddingStreamType in
  let ec := acceptControlStream [st d1; st pad; st d2; st [x2f; x00]; st d1] [] [] in
  ec_early ec = [MkStream d1 Fin; MkStream d2 Fin] /\ ec_control ec = Some (Ok (MkStream [x2f; x00] Fin)) /\
  (ec_cancelled ec).*2 = [StreamResetInternalError] /\ length (ec_rest ec) = 1%nat.
Proof. vm_compute. split_and!; reflexivity. Qed.
